(* ===== verification/_CoqProject ===== *)
-Q . S2P
Prelude.v
Common.v
Digest.v
HashRef.v
Sha2.v
Hmac.v
Sha512.v
Sha256.v
Sha1.v
Ripemd160.v
ArithUint256.v
Chain.v
Pow.v
VersionBits.v
Crypto.v
Hashes.v
SipHash.v
Field5x52.v
Primes.v
Scalar4x64.v
SecpField.v
SecpGroup.v
Weierstrass.v
CurveGroup.v
CurveOrder.v
Ecmult.v
EcmultGen.v
Ecdsa.v
Der.v
EcKey.v
Script.v
Interpreter.v
Checkers.v
EvalFacts.v
SoftFork.v
Serialize.v
Transaction.v
SigHash.v
PubKey.v
Key.v
Coins.v
TxVerify.v
Block.v
Merkle.v
Undo.v
BlockCheck.v
CuckooCache.v
CheckInputs.v
ConnectBlock.v
CheckQueue.v
