(* ===== verification/Prelude.v ===== *)
(** * Sucrecoin Core: a verification development

    A shallow embedding of the consensus side of Sucrecoin Core, a node of a Bitcoin-like currency written in C++
    ([src/src/]), with the theorems that make it correct.  Pure functions are Rocq functions, code with
    state passes it explicitly, code that can fail returns an option, a boolean with a validation state, or an
    error type, and the multi-threaded check queue is a transition system.  Machine integers
    are [Z] with the wrap-around written out; byte strings are [list Z].

    ** How the program works, and where each part is modelled

    A block arrives as bytes, is parsed, hashed and checked on its own, then connected to the chain: its
    transactions spend and create coins in a cache over the coins database, the scripts of its inputs are run on a queue of
    worker threads, and what is needed to disconnect it again is kept as undo data.

    Foundations
    - [Prelude] (this file): machine integers, arrays, loops, tactics and the generic lemmas.
    - [Common]: [crypto/common.h], the little- and big-endian readers and writers.
    - [ArithUint256]: [arith_uint256.h/.cpp], 256-bit numbers in eight limbs and the compact encoding of targets.
    - [Serialize]: [serialize.h], [streams.h]; [Codec] is the class of an encoding, [Codec_ok] its round trip with any
      bytes after it, [Codec_canonical] that only one string decodes to a value.

    Hash functions
    - [Digest]: the buffering of the four Merkle-Damgård hashers, over any compression function.
    - [HashRef]: byte orders, padding, iteration and the constants (bits of roots of primes) as the standards write them.
    - [Sha2], [Sha512], [Sha256], [Sha1], [Ripemd160], [Hmac]: [crypto/sha*.cpp], [ripemd160.cpp], [hmac_*.cpp] against
      definitions written from the standards (FIPS 180-4, RIPEMD-160, RFC 2104) over [HashRef]; the constants of the source are
      proved to be those roots.
    - [Hashes]: [CHash256], [CHash160], [Hash], [BIP32Hash] of [hash.h/.cpp]; [core_hash] makes
      them an instance of [Crypto.CryptoHash], the interface the consensus files use.
    - [SipHash]: SipHash-2-4 in its three implementations, and MurmurHash3.
    - [Crypto]: the interfaces [CryptoHash] (lengths and bytes of the digests), [SphHash] (the sixteen functions of
      the proof of work) and [Secp256k1] (signature verification), which [Hashes] and [PubKey] implement for the first and the last.

    Elliptic curve library ([secp256k1/src/])
    - [Field5x52]: [field_5x52_impl.h], [field_5x52_int128_impl.h]; a magnitude bounds the limbs, as in the comments of the source.
    - [Primes]: that the field prime and the group order are prime, by Pocklington certificates.
    - [Scalar4x64]: [scalar_4x64_impl.h], the scalars modulo the group order and their inverse.
    - [SecpField]: [field.h] as a class with its laws, which [Field5x52] discharges, and the addition chains of [field_impl.h] over
      any instance.
    - [SecpGroup]: [group_impl.h], points in affine and Jacobian coordinates.
    - [Weierstrass], [CurveGroup], [CurveOrder]: the mathematics of the curve: the law is a group, and the generator has the stated order.
    - [Ecmult], [EcmultGen]: [ecmult_impl.h], [ecmult_gen_impl.h], the double multiplication over tables of odd multiples and the blinded
      multiplication of the generator.
    - [Ecdsa], [Der], [EcKey]: [ecdsa_impl.h], [modules/recovery/main_impl.h], [eckey_impl.h] and the functions of [secp256k1.c].
    - [PubKey], [Key]: [pubkey.h/.cpp], [key.h/.cpp], the keys of the node over the library, with the lax signature parser and hierarchical
      derivation.

    Chain and proof of work
    - [Chain]: [chain.h/.cpp], block index entries in a store, skip pointers, the active chain, locators.
    - [Pow]: [pow.cpp], both difficulty algorithms.  [VersionBits]: [versionbits.cpp].

    Scripts and transactions
    - [Script], [Interpreter], [EvalFacts], [SoftFork]: [script/script.h/.cpp], [script/interpreter.cpp]: operations, numbers, evaluation, and
      what holds of every evaluation.  A signature checker is a record of functions in a monad.
    - [Checkers]: the interpreter run with a checker that has state, such as the signature cache, and its simulation by the pure one.
    - [Transaction], [SigHash]: [primitives/transaction.h], the signature hashes, the transaction signature checker.

    Coins and blocks
    - [Coins]: [coins.h/.cpp], [txdb.cpp]; [CCoinsView] is a class, so that caches stack on any view that keeps its laws.
    - [TxVerify]: [consensus/tx_verify.cpp].  [Block]: [primitives/block.h/.cpp].  [Merkle]: [consensus/merkle.cpp].
    - [Undo]: the undo records and [DisconnectBlock] of [validation.cpp].  [BlockCheck]: header, context-free and contextual block
      rules, subsidy, witness commitments.
    - [CuckooCache], [CheckInputs], [CheckQueue], [ConnectBlock]: [cuckoocache.h], [script/sigcache.cpp], [checkqueue.h] and the rest of block
      connection in [validation.cpp].

    ** What the theorems show

    - Connecting a block ([ConnectBlock]), for a block that is not the genesis block, is not marked as checked already, and is fresh: no transaction of it
      spends an output twice or recreates an unspent one ([txs_fresh]).  When it is accepted its inputs existed, the coins view becomes that of the specification, the value
      of the coins grew by at most the subsidy, and disconnecting it restores the coins of before.  The freshness is an assumption: [CheckBlock] calls the
      transaction check without its test for duplicate inputs, and [ConnectBlock_double_spend_inflates] shows an accepted block that spends an output twice and creates
      money.
    - Supply: over histories of such blocks, and for the halving interval of the main network only, the coins are worth at most the subsidies of their
      heights, which add up to less than 15,497,988 coins.
    - Scripts of a block: if the block is also outside the assumed-valid chain, both caches hold only verified entries, and SHA-256 separates the transactions and signatures
      involved, acceptance means that every input script verifies with all signatures verified, and the caches stay so.
    - The check queue ([CheckQueue]): under every interleaving [Wait] returns the conjunction of all checks, and it returns.
    - The caches ([CuckooCache], [CheckInputs], [Coins]): a lookup finds only what was inserted or the empty entry of a fresh slot; the
      cached signature check answers as the uncached one, if SHA-256 separates the messages asked for; a flush of the coins leaves what the cache showed.
    - Merkle trees, transactions, blocks, signature hashes: equivalence with reference definitions, round trips and
      binding, the last as reductions that exhibit a collision of the hash function.
    - Scripts: the limits on sizes and counts hold of every successful evaluation, no assertion fails under the documented combinations of flags, and a larger set of flags accepts no more, for the
      combinations of flags that the code allows and with the lock-time flags kept where upgradable NOPs are discouraged.
    - Hash functions: streaming in any pieces is the standard's function of the whole message.
    - The curve: limb arithmetic is arithmetic modulo the field prime and the group order without overflow at the stated magnitudes; the formulas compute the
      group law in every case; the multiplications compute multiples; verification decides ECDSA for points in the group of the generator,
      and signing, for a given nonce, makes signatures that verify.
    - Keys: [CPubKey::Verify] decides ECDSA on what the lax parser reads; deriving a child commutes with taking the public part.

    ** Bounds and fuel

    Loops of the source whose recursion is not structural take fuel computed from the input (the length of the script, of the stream
    or of the list left, the number of limbs, the height), and the theorems show that it is enough: results are stated of the
    function itself and not under the assumption that it returned.  Hypotheses on sizes ([is_word], [bytes_ok], lengths
    below 2^31 or 2^64) are the ranges of the C++ types.

    ** Not modelled

    Networking, wallet, RPC, graphical interface, database engine, start-up and logging: input and output around
    the modelled code.  Floating point ([getdouble], fee estimation).  The compression functions of the proof-of-work hash:
    sphlib code behind the interface [SphHash].  Of the curve library: contexts with their allocation and callbacks, the 32-bit and
    assembly variants, the endomorphism, the nonce function (a nonce is an argument) and the modules other than recovery; that every point of the curve is in the group of the generator is
    a hypothesis where it is used.  Chain activation, block files and flushing.  Assets: no
    modelled function calls them. *)

From Stdlib Require Import ZArith Lia.
From stdpp Require Export base list numbers.

Open Scope Z_scope.
Coercion Z.of_nat : nat >-> Z.

(** ** Machine integers

    A [w]-bit unsigned integer is a [Z] in [0, 2^w); the casts below are the
    wrap-around conversions of C++.  [i32] and [i64] are the two's complement
    reinterpretations used by the casts to [int] and [int64_t]. *)

Definition wrap (w z : Z) : Z := z mod 2 ^ w.
Definition u8 (z : Z) : Z := wrap 8 z.
Definition u16 (z : Z) : Z := wrap 16 z.
Definition u32 (z : Z) : Z := wrap 32 z.
Definition u64 (z : Z) : Z := wrap 64 z.

Definition signed (w z : Z) : Z := (z + 2 ^ (w - 1)) mod 2 ^ w - 2 ^ (w - 1).
Definition i32 (z : Z) : Z := signed 32 z.
Definition i64 (z : Z) : Z := signed 64 z.

Definition is_word (w z : Z) : Prop := 0 <= z < 2 ^ w.
Definition is_byte (z : Z) : Prop := is_word 8 z.

(** A byte string is a [list Z] all of whose elements are bytes. *)
Abbreviation bytes_ok := (Forall is_byte).

Declare Scope word_scope.
Delimit Scope word_scope with word.
Notation "x .& y" := (Z.land x y) (at level 40, left associativity) : word_scope.
Notation "x .| y" := (Z.lor x y) (at level 50, left associativity) : word_scope.
Notation "x .^ y" := (Z.lxor x y) (at level 45, left associativity) : word_scope.
Notation "x .<< y" := (Z.shiftl x y) (at level 38, left associativity) : word_scope.
Notation "x .>> y" := (Z.shiftr x y) (at level 38, left associativity) : word_scope.
Open Scope word_scope.

(** ** C arrays

    [pn.[i]] reads index [i]; [pn.[i <- v]] writes it.  Every use in the
    development is in range, which the lemmas about it require. *)

Definition aget (l : list Z) (i : nat) : Z := nth i l 0.
Definition aset (l : list Z) (i : nat) (v : Z) : list Z := <[i := v]> l.
Notation "l .[ i ]" := (aget l i) (at level 1, left associativity, format "l .[ i ]") : word_scope.
Notation "l .[ i <- v ]" := (aset l i v) (at level 1, left associativity, format "l .[ i <- v ]") : word_scope.

(** ** Loops

    [for_up i n f s] is [for (; k = i; n iterations; k++) s = f k s].
    [for_down n f s] counts [n-1, ..., 0]. *)

Fixpoint for_up {S : Type} (i n : nat) (f : nat → S → S) (s : S) : S :=
  match n with
  | O => s
  | Datatypes.S n' => for_up (Datatypes.S i) n' f (f i s)
  end.

Fixpoint for_down {S : Type} (n : nat) (f : nat → S → S) (s : S) : S :=
  match n with
  | O => s
  | Datatypes.S n' => for_down n' f (f n' s)
  end.

Lemma for_up_inv {S : Type} (P : nat → S → Prop) (f : nat → S → S) (n i : nat) (s : S) :
  P i s →
  (∀ k t, (i ≤ k < i + n)%nat → P k t → P (Datatypes.S k) (f k t)) →
  P (i + n)%nat (for_up i n f s).
Proof.
  revert i s. induction n as [|n IH]; intros i s H0 Hstep; simpl.
  - by rewrite Nat.add_0_r.
  - rewrite <- Nat.add_succ_comm. apply IH.
    + apply Hstep; [lia | done].
    + intros k t Hk. apply Hstep. lia.
Qed.

Lemma for_down_inv {S : Type} (P : nat → S → Prop) (f : nat → S → S) (n : nat) (s : S) :
  P n s →
  (∀ k t, (k < n)%nat → P (Datatypes.S k) t → P k (f k t)) →
  P O (for_down n f s).
Proof.
  revert s. induction n as [|n IH]; intros s H0 Hstep; simpl; [done|].
  apply IH.
  - apply Hstep; [lia | done].
  - intros k t Hk. apply Hstep. lia.
Qed.

(** ** Tactics and hint databases

    [words] holds the range facts that close side conditions on machine
    integers, [arrays] the rewrite rules for array reads after writes. *)

Create HintDb words.
Create HintDb arrays.
Create Rewrite HintDb arrays.

(** Turn the boolean tests of the source into propositions. *)
Ltac bool_to_prop :=
  repeat match goal with
  | H : andb _ _ = true |- _ => apply andb_prop in H as [? ?]
  | H : andb _ _ = false |- _ => apply andb_false_iff in H
  | H : orb _ _ = false |- _ => apply orb_false_elim in H as [? ?]
  | H : orb _ _ = true |- _ => apply orb_prop in H
  | H : negb _ = true |- _ => apply negb_true_iff in H
  | H : negb _ = false |- _ => apply negb_false_iff in H
  | H : Z.eqb _ _ = true |- _ => apply Z.eqb_eq in H
  | H : Z.eqb _ _ = false |- _ => apply Z.eqb_neq in H
  | H : Z.ltb _ _ = true |- _ => apply Z.ltb_lt in H
  | H : Z.ltb _ _ = false |- _ => apply Z.ltb_ge in H
  | H : Z.leb _ _ = true |- _ => apply Z.leb_le in H
  | H : Z.leb _ _ = false |- _ => apply Z.leb_gt in H
  | H : Nat.eqb _ _ = true |- _ => apply Nat.eqb_eq in H
  | H : Nat.eqb _ _ = false |- _ => apply Nat.eqb_neq in H
  | H : Nat.ltb _ _ = true |- _ => apply Nat.ltb_lt in H
  | H : Nat.ltb _ _ = false |- _ => apply Nat.ltb_ge in H
  | H : Nat.leb _ _ = true |- _ => apply Nat.leb_le in H
  | H : Nat.leb _ _ = false |- _ => apply Nat.leb_gt in H
  end.

(** Reduces the option monad. *)
Ltac ocbn := cbn [mbind option_bind option_fmap fmap fst snd].

(** Case analysis on every test a goal or hypothesis is stuck on. *)
Ltac case_if :=
  match goal with
  | |- context [if ?b then _ else _] =>
      lazymatch type of b with
      | bool => let E := fresh "E" in destruct b eqn:E
      end
  | H : context [if ?b then _ else _] |- _ =>
      lazymatch type of b with
      | bool => let E := fresh "E" in destruct b eqn:E
      end
  end.

(** ** Arithmetic *)

Lemma pow2_pos (n : Z) : 0 <= n → 0 < 2 ^ n.
Proof. intros. apply Z.pow_pos_nonneg; lia. Qed.

Lemma wrap_range (w z : Z) : 0 <= w → 0 <= wrap w z < 2 ^ w.
Proof. intros. apply Z.mod_pos_bound, pow2_pos. lia. Qed.

Lemma wrap_small (w z : Z) : is_word w z → wrap w z = z.
Proof. intros. by apply Z.mod_small. Qed.

Lemma signed_small (w z : Z) :
  0 < w → - 2 ^ (w - 1) <= z < 2 ^ (w - 1) → signed w z = z.
Proof.
  intros Hw Hz. unfold signed.
  assert (2 ^ w = 2 * 2 ^ (w - 1)) as E.
  { rewrite <- Z.pow_succ_r by lia. f_equal. lia. }
  rewrite E, Z.mod_small by lia. lia.
Qed.

Lemma land_ones_mod (a n : Z) : 0 <= n → a .& (2 ^ n - 1) = a mod 2 ^ n.
Proof. intros. rewrite <- Z.land_ones by done. by rewrite Z.ones_equiv. Qed.

Lemma shl_mul (a n : Z) : 0 <= n → a .<< n = a * 2 ^ n.
Proof. apply Z.shiftl_mul_pow2. Qed.

Lemma shr_div (a n : Z) : 0 <= n → a .>> n = a / 2 ^ n.
Proof. apply Z.shiftr_div_pow2. Qed.

(** Setting bits above the ones in use is addition. *)
Lemma lor_add (a b n : Z) :
  0 <= n → 0 <= a < 2 ^ n → a .| (b * 2 ^ n) = a + b * 2 ^ n.
Proof.
  intros Hn Ha.
  assert (a .& (b * 2 ^ n) = 0) as E.
  { apply Z.bits_inj_0. intros k. rewrite Z.land_spec.
    destruct (Z.lt_ge_cases k n) as [?|?].
    - by rewrite Z.mul_pow2_bits_low, andb_false_r by lia.
    - destruct (decide (a = 0)) as [->|]; [by rewrite Z.bits_0|].
      rewrite (Z.bits_above_log2 a k); [done|lia|].
      apply Z.lt_le_trans with n; [apply Z.log2_lt_pow2; lia | done]. }
  by rewrite <- Z.lxor_lor, Z.add_nocarry_lxor.
Qed.

Lemma lor_add' (a b n : Z) :
  0 <= n → 0 <= a < 2 ^ n → b mod 2 ^ n = 0 → a .| b = a + b.
Proof.
  intros Hn Ha Hb. pose proof (pow2_pos n Hn).
  rewrite (Z.div_mod b (2 ^ n)), Hb, Z.add_0_r, (Z.mul_comm (2 ^ n)) by lia.
  by apply lor_add.
Qed.

Lemma land_le_r (a b : Z) : 0 <= b → a .& b <= b.
Proof.
  intros Hb. assert (b - a .& b = Z.ldiff b (a .& b)) as E.
  { apply Z.sub_nocarry_ldiff. apply Z.bits_inj_0. intros k.
    rewrite Z.ldiff_spec, Z.land_spec. by destruct (Z.testbit a k), (Z.testbit b k). }
  assert (0 <= Z.ldiff b (a .& b)) by (apply Z.ldiff_nonneg; auto). lia.
Qed.

Lemma add_below_pow2 (p l s n : Z) :
  0 <= s <= n → p < 2 ^ s → 0 <= l < 2 ^ n → l mod 2 ^ s = 0 → p + l < 2 ^ n.
Proof.
  intros Hs Hp Hl Hm. pose proof (pow2_pos s ltac:(lia)) as HS.
  assert (2 ^ n = 2 ^ (n - s) * 2 ^ s) as EP.
  { rewrite <- Z.pow_add_r by lia. f_equal. lia. }
  pose proof (Z.div_mod l (2 ^ s) ltac:(lia)) as El. rewrite Hm, Z.add_0_r in El.
  rewrite EP in *. assert (l / 2 ^ s < 2 ^ (n - s)) by nia. nia.
Qed.

Lemma is_word_weaken (w w' z : Z) : w <= w' → is_word w z → is_word w' z.
Proof.
  unfold is_word. intros Hw [? ?]. split; [done|].
  eapply Z.lt_le_trans; [done|]. apply Z.pow_le_mono_r; lia.
Qed.

Lemma is_word_wrap (w z : Z) : 0 <= w → is_word w (wrap w z).
Proof. apply wrap_range. Qed.

#[export] Hint Resolve is_word_wrap : words.

(** For concrete byte strings. *)
Definition bytes_okb (l : list Z) : bool := forallb (λ z, (0 <=? z) && (z <? 256)) l.

Lemma bytes_okb_ok (l : list Z) : bytes_okb l = true → bytes_ok l.
Proof.
  induction l as [|z l IH]; cbn; [done|]. intros H. bool_to_prop. constructor; [by split|auto].
Qed.

(** ** Arrays *)

Lemma length_aset (l : list Z) (i : nat) (v : Z) : length (l.[i <- v]) = length l.
Proof. apply length_insert. Qed.

Lemma aget_lookup (l : list Z) (i : nat) : l.[i] = default 0 (l !! i).
Proof. unfold aget. by rewrite nth_lookup. Qed.

Lemma aget_aset_eq (l : list Z) (i : nat) (v : Z) :
  (i < length l)%nat → l.[i <- v].[i] = v.
Proof. intros. unfold aset. by rewrite aget_lookup, list_lookup_insert_eq. Qed.

Lemma aget_aset_ne (l : list Z) (i j : nat) (v : Z) :
  i ≠ j → l.[i <- v].[j] = l.[j].
Proof. intros. unfold aset. by rewrite !aget_lookup, list_lookup_insert_ne. Qed.

Lemma aget_over (l : list Z) (i : nat) : (length l ≤ i)%nat → l.[i] = 0.
Proof. apply nth_overflow. Qed.

Lemma aget_replicate0 (n i : nat) : (replicate n 0).[i] = 0.
Proof.
  rewrite aget_lookup. destruct (decide (i < n)%nat).
  - by rewrite lookup_replicate_2.
  - by rewrite lookup_ge_None_2 by (rewrite length_replicate; lia).
Qed.

#[export] Hint Rewrite length_aset aget_aset_eq using lia : arrays.
#[export] Hint Rewrite aget_aset_ne using lia : arrays.
#[export] Hint Rewrite aget_replicate0 @length_replicate : arrays.

Lemma Forall_aset (P : Z → Prop) (l : list Z) (i : nat) (v : Z) :
  Forall P l → P v → Forall P (l.[i <- v]).
Proof. intros. by apply Forall_insert. Qed.

Lemma Forall_aget (P : Z → Prop) (l : list Z) (i : nat) :
  Forall P l → (i < length l)%nat → P (l.[i]).
Proof.
  intros H Hi. apply lookup_lt_is_Some in Hi as [x Hx].
  rewrite aget_lookup, Hx. by apply (Forall_lookup_1 _ _ _ _ H Hx).
Qed.

#[export] Hint Resolve Forall_aset : arrays.

(** ** Little-endian numbers

    [le_val w l] is the number whose base-[2^w] digits, least significant
    first, are [l]: limbs of a big integer for [w = 32], bytes for [w = 8]. *)

Fixpoint le_val (w : Z) (l : list Z) : Z :=
  match l with
  | [] => 0
  | x :: l' => x + 2 ^ w * le_val w l'
  end.

Section le_val.
Context (w : Z) (Hw : 0 < w).

Lemma le_val_app (l k : list Z) :
  le_val w (l ++ k) = le_val w l + 2 ^ (w * length l) * le_val w k.
Proof.
  induction l as [|x l IH]; simpl.
  - rewrite Z.mul_0_r. lia.
  - rewrite IH. replace (w * S (length l)) with (w + w * length l) by lia.
    rewrite Z.pow_add_r by lia. ring.
Qed.

Lemma le_val_range (l : list Z) :
  Forall (is_word w) l → 0 <= le_val w l < 2 ^ (w * length l).
Proof.
  induction 1 as [|x l Hx _ IH]; simpl.
  - rewrite Z.mul_0_r. done.
  - replace (w * S (length l)) with (w + w * length l) by lia.
    rewrite Z.pow_add_r by lia. unfold is_word in Hx. nia.
Qed.

Lemma le_val_aset (l : list Z) (i : nat) (v : Z) :
  (i < length l)%nat →
  le_val w (l.[i <- v]) = le_val w l + (v - l.[i]) * 2 ^ (w * i).
Proof.
  revert i. induction l as [|x l IH]; intros i Hi; simpl in *; [lia|].
  destruct i as [|i]; cbn -[Z.mul Z.pow Z.add Z.sub].
  - rewrite Z.mul_0_r. unfold aget. simpl. lia.
  - unfold aset in IH. rewrite IH by lia.
    replace (w * S i) with (w + w * i) by lia.
    rewrite Z.pow_add_r by lia. unfold aget. simpl. ring.
Qed.

Lemma le_val_take_S (l : list Z) (i : nat) :
  (i < length l)%nat →
  le_val w (take (S i) l) = le_val w (take i l) + l.[i] * 2 ^ (w * i).
Proof.
  intros Hi. rewrite (take_S_r l i (l.[i])).
  - rewrite le_val_app, length_take_le by lia. simpl. lia.
  - apply lookup_lt_is_Some in Hi as [x Hx]. by rewrite aget_lookup, Hx.
Qed.

Lemma le_val_take_drop (l : list Z) (i : nat) :
  (i ≤ length l)%nat →
  le_val w l = le_val w (take i l) + 2 ^ (w * i) * le_val w (drop i l).
Proof.
  intros Hi. rewrite <- (take_drop i l) at 1.
  by rewrite le_val_app, length_take_le.
Qed.

Lemma le_val_replicate0 (n : nat) : le_val w (replicate n 0) = 0.
Proof. induction n as [|n IH]; simpl; [done|]. rewrite IH. lia. Qed.

Lemma le_val_inj (l k : list Z) :
  length l = length k → Forall (is_word w) l → Forall (is_word w) k →
  le_val w l = le_val w k → l = k.
Proof.
  revert k. induction l as [|x l IH]; intros [|y k] Hlen Hl Hk E; try done.
  simpl in *. inv Hl. inv Hk. unfold is_word in *.
  destruct (Z.div_mod_unique (2 ^ w) (le_val w l) (le_val w k) x y) as [? ->];
    [lia..|].
  f_equal. apply IH; [lia|done..].
Qed.

Lemma le_val_zero (l : list Z) :
  Forall (is_word w) l → (le_val w l = 0 ↔ Forall (λ x, x = 0) l).
Proof.
  induction 1 as [|x l Hx Hl IH]; simpl; [done|].
  pose proof (le_val_range l Hl). unfold is_word in Hx.
  pose proof (pow2_pos w ltac:(lia)).
  rewrite Forall_cons_iff, <- IH. nia.
Qed.
End le_val.

(** The [n] low digits of [z] in base [2^w]: [WriteLE16/32/64] for [w = 8]. *)
Fixpoint le_digits (w : Z) (n : nat) (z : Z) : list Z :=
  match n with
  | O => []
  | S n' => z mod 2 ^ w :: le_digits w n' (z / 2 ^ w)
  end.

Section le_digits.
Context (w : Z) (Hw : 0 < w).

Lemma length_le_digits (n : nat) (z : Z) : length (le_digits w n z) = n.
Proof. revert z. induction n; intros; simpl; auto. Qed.

Lemma le_digits_words (n : nat) (z : Z) : Forall (is_word w) (le_digits w n z).
Proof.
  revert z. induction n; intros; simpl; constructor; [|done].
  apply Z.mod_pos_bound, pow2_pos. lia.
Qed.

Lemma le_val_le_digits (n : nat) (z : Z) :
  le_val w (le_digits w n z) = z mod 2 ^ (w * n).
Proof.
  revert z. induction n as [|n IH]; intros z; simpl.
  - by rewrite Z.mul_0_r, Z.mod_1_r.
  - rewrite IH. replace (w * S n) with (w + w * n) by lia.
    pose proof (pow2_pos w ltac:(lia)). pose proof (pow2_pos (w * n) ltac:(lia)).
    rewrite Z.pow_add_r by lia. rewrite Z.rem_mul_r by lia. done.
Qed.

Lemma le_digits_le_val (l : list Z) :
  Forall (is_word w) l → le_digits w (length l) (le_val w l) = l.
Proof.
  intros Hl. apply (le_val_inj w Hw).
  - by rewrite length_le_digits.
  - apply le_digits_words.
  - done.
  - rewrite le_val_le_digits. apply Z.mod_small. by apply le_val_range.
Qed.
End le_digits.

#[export] Hint Resolve le_digits_words : words.
