(* ===== verification/Common.v ===== *)
(** * Fixed-width byte codecs ([src/src/crypto/common.h])

    [ReadLE*]/[WriteLE*] and [ReadBE*]/[WriteBE*] read and write 16-, 32- and
    64-bit integers in a byte buffer.  A buffer is a [list Z] of bytes; a read
    takes the buffer from the pointer on. *)

From Stdlib Require Import ZArith Lia.
From S2P Require Import Prelude.

Open Scope Z_scope.
Open Scope word_scope.

Definition ReadLE16 (ptr : list Z) : Z := le_val 8 (take 2 ptr).
Definition ReadLE32 (ptr : list Z) : Z := le_val 8 (take 4 ptr).
Definition ReadLE64 (ptr : list Z) : Z := le_val 8 (take 8 ptr).
Definition WriteLE16 (x : Z) : list Z := le_digits 8 2 (u16 x).
Definition WriteLE32 (x : Z) : list Z := le_digits 8 4 (u32 x).
Definition WriteLE64 (x : Z) : list Z := le_digits 8 8 (u64 x).

Definition ReadBE32 (ptr : list Z) : Z := le_val 8 (reverse (take 4 ptr)).
Definition ReadBE64 (ptr : list Z) : Z := le_val 8 (reverse (take 8 ptr)).
Definition WriteBE32 (x : Z) : list Z := reverse (le_digits 8 4 (u32 x)).
Definition WriteBE64 (x : Z) : list Z := reverse (le_digits 8 8 (u64 x)).

(** Number of significant bits; the portable loop of the header. *)
Fixpoint CountBits_loop (fuel : nat) (x ret : Z) : Z :=
  match fuel with
  | O => ret
  | S fuel' => if x =? 0 then ret else CountBits_loop fuel' (x .>> 1) (ret + 1)
  end.

Definition CountBits (x : Z) : Z := CountBits_loop 64 x 0.

Lemma length_WriteLE32 (x : Z) : length (WriteLE32 x) = 4%nat.
Proof. apply length_le_digits. Qed.

Lemma length_WriteLE64 (x : Z) : length (WriteLE64 x) = 8%nat.
Proof. apply length_le_digits. Qed.

Lemma WriteLE32_bytes (x : Z) : bytes_ok (WriteLE32 x).
Proof. by apply le_digits_words. Qed.

Lemma WriteLE64_bytes (x : Z) : bytes_ok (WriteLE64 x).
Proof. by apply le_digits_words. Qed.

Lemma length_WriteBE32 (x : Z) : length (WriteBE32 x) = 4%nat.
Proof. unfold WriteBE32. by rewrite length_reverse, length_le_digits. Qed.

Lemma length_WriteBE64 (x : Z) : length (WriteBE64 x) = 8%nat.
Proof. unfold WriteBE64. by rewrite length_reverse, length_le_digits. Qed.

Lemma WriteBE32_bytes (x : Z) : bytes_ok (WriteBE32 x).
Proof. unfold WriteBE32. rewrite Forall_reverse. by apply le_digits_words. Qed.

Lemma WriteBE64_bytes (x : Z) : bytes_ok (WriteBE64 x).
Proof. unfold WriteBE64. rewrite Forall_reverse. by apply le_digits_words. Qed.

Lemma le_val_bytes_range (n : nat) (l : list Z) : bytes_ok l → (length l ≤ n)%nat → is_word (8 * n) (le_val 8 l).
Proof.
  intros Hl Hn. pose proof (le_val_range 8 ltac:(lia) l Hl) as R. split; [apply R|].
  eapply Z.lt_le_trans; [apply R|]. apply Z.pow_le_mono_r; lia.
Qed.

Lemma ReadBE32_range (ptr : list Z) : bytes_ok ptr → is_word 32 (ReadBE32 ptr).
Proof.
  intros H. apply (le_val_bytes_range 4); [by apply Forall_reverse, Forall_take|]. rewrite length_reverse, length_take. lia.
Qed.

Lemma ReadBE64_range (ptr : list Z) : bytes_ok ptr → is_word 64 (ReadBE64 ptr).
Proof.
  intros H. apply (le_val_bytes_range 8); [by apply Forall_reverse, Forall_take|]. rewrite length_reverse, length_take. lia.
Qed.

Lemma WriteLE16_bytes (x : Z) : bytes_ok (WriteLE16 x).
Proof. by apply le_digits_words. Qed.

Lemma ReadLE_Write (n : nat) (x : Z) (rest : list Z) :
  is_word (8 * n) x → le_val 8 (take n (le_digits 8 n x ++ rest)) = x.
Proof.
  intros Hx. rewrite take_app_length' by (by rewrite length_le_digits).
  rewrite le_val_le_digits by done. by apply Z.mod_small.
Qed.

Lemma ReadLE16_WriteLE16 (x : Z) (rest : list Z) :
  is_word 16 x → ReadLE16 (WriteLE16 x ++ rest) = x.
Proof.
  intros. unfold ReadLE16, WriteLE16, u16. rewrite wrap_small by done.
  by apply (ReadLE_Write 2).
Qed.

Lemma ReadLE32_WriteLE32 (x : Z) (rest : list Z) :
  is_word 32 x → ReadLE32 (WriteLE32 x ++ rest) = x.
Proof.
  intros. unfold ReadLE32, WriteLE32, u32. rewrite wrap_small by done.
  by apply (ReadLE_Write 4).
Qed.

Lemma ReadLE64_WriteLE64 (x : Z) (rest : list Z) :
  is_word 64 x → ReadLE64 (WriteLE64 x ++ rest) = x.
Proof.
  intros. unfold ReadLE64, WriteLE64, u64. rewrite wrap_small by done.
  by apply (ReadLE_Write 8).
Qed.

Lemma ReadLE32_range (ptr : list Z) : bytes_ok ptr → is_word 32 (ReadLE32 ptr).
Proof.
  intros H. unfold ReadLE32.
  pose proof (le_val_range 8 ltac:(lia) (take 4 ptr) (Forall_take _ _ _ H)) as R.
  split; [apply R|]. eapply Z.lt_le_trans; [apply R|].
  apply Z.pow_le_mono_r; [lia|]. rewrite length_take. lia.
Qed.

#[export] Hint Resolve WriteLE16_bytes WriteLE32_bytes WriteLE64_bytes : words.

Lemma CountBits_loop_spec (fuel : nat) (x ret : Z) :
  0 <= x < 2 ^ fuel →
  CountBits_loop fuel x ret = ret + (if x =? 0 then 0 else Z.log2 x + 1).
Proof.
  revert x ret. induction fuel as [|fuel IH]; intros x ret Hx; simpl.
  - replace x with 0 by (simpl in Hx; lia). simpl. lia.
  - case_if; bool_to_prop; [lia|].
    assert (0 <= x .>> 1 < 2 ^ fuel) as Hx'.
    { rewrite shr_div by lia. change (2 ^ 1) with 2.
      replace (Z.of_nat (S fuel)) with (Z.succ fuel) in Hx by lia.
      rewrite Z.pow_succ_r in Hx by lia.
      split; [apply Z.div_pos; lia | apply Z.div_lt_upper_bound; lia]. }
    rewrite IH by done.
    destruct (Z.eqb_spec (x .>> 1) 0) as [E1|E1].
    + rewrite shr_div in E1 by lia. change (2 ^ 1) with 2 in E1.
      assert (x = 1) as -> by (pose proof (Z.div_mod x 2); pose proof (Z.mod_pos_bound x 2); lia).
      simpl. lia.
    + rewrite Z.log2_shiftr by lia.
      assert (1 <= Z.log2 x).
      { apply Z.log2_le_pow2; [lia|]. rewrite shr_div in E1 by lia.
        change (2 ^ 1) with 2 in *. destruct (Z.le_gt_cases 2 x); [done|].
        exfalso. apply E1. apply Z.div_small. lia. }
      lia.
Qed.
