(* ===== verification/Digest.v ===== *)
(** * Streaming digests ([src/src/crypto/sha256.cpp], [sha1.cpp], [ripemd160.cpp], [sha512.cpp])

    The buffering that the four hasher classes share: [Write] in its two forms and
    [Finalize], over a transformation of the state by one block. *)

From Stdlib Require Import ZArith Lia.
From S2P Require Import Prelude.

Open Scope Z_scope.
Open Scope word_scope.

(** The members of a hasher: the state words, the buffer and the number of bytes written. *)
Record hasher := MkHasher { h_s : list Z; h_buf : list Z; h_bytes : Z }.

(** [memcpy (buf + off, src, length src)] *)
Definition memcpy_at (b : list Z) (off : nat) (src : list Z) : list Z :=
  take off b ++ src ++ drop (off + length src) b.

Section Digest.
Variable blk : nat.
Variable Transform : list Z → list Z → list Z.

(** A number of transformations of consecutive blocks. *)
Fixpoint Transform_blocks (st chunk : list Z) (blocks : nat) : list Z :=
  match blocks with
  | O => st
  | S blocks => Transform_blocks (Transform st chunk) (drop blk chunk) blocks
  end.

(** Fill the buffer, and process it; the rest of the data and the new [bufsize]. *)
Definition fill_buffer (data : list Z) (h : hasher) : hasher * list Z * nat :=
  let bufsize := Z.to_nat (h_bytes h mod blk) in
  if negb (bufsize =? 0)%nat && (blk <=? bufsize + length data)%nat then
    let k := (blk - bufsize)%nat in
    let b := memcpy_at (h_buf h) bufsize (take k data) in
    (MkHasher (Transform (h_s h) b) b (u64 (h_bytes h + k)), drop k data, O)
  else (h, data, bufsize).

(** Fill the buffer with what remains. *)
Definition keep_rest (data : list Z) (bufsize : nat) (h : hasher) : hasher :=
  if (0 <? length data)%nat
  then MkHasher (h_s h) (memcpy_at (h_buf h) bufsize data) (u64 (h_bytes h + length data))
  else h.

(** [CSHA256::Write]: the full blocks in one call. *)
Definition Write_blocks (data : list Z) (h : hasher) : hasher :=
  let '(h, data, bufsize) := fill_buffer data h in
  if (blk <=? length data)%nat then
    let blocks := (length data / blk)%nat in
    keep_rest (drop (blk * blocks) data) bufsize
      (MkHasher (Transform_blocks (h_s h) data blocks) (h_buf h) (u64 (h_bytes h + blk * blocks)))
  else keep_rest data bufsize h.

(** The loop of the other three classes; the data gets shorter with every block. *)
Fixpoint full_chunks (fuel : nat) (data : list Z) (h : hasher) : list Z * hasher :=
  match fuel with
  | O => (data, h)
  | S fuel =>
      if (blk <=? length data)%nat
      then full_chunks fuel (drop blk data) (MkHasher (Transform (h_s h) data) (h_buf h) (u64 (h_bytes h + blk)))
      else (data, h)
  end.

Definition Write_while (data : list Z) (h : hasher) : hasher :=
  let '(h, data, bufsize) := fill_buffer data h in
  let '(data, h) := full_chunks (length data) data h in
  keep_rest data bufsize h.

(** ** Facts *)

Hypothesis blk_pos : (0 < blk)%nat.
Hypothesis Transform_take : ∀ st chunk, Transform st (take blk chunk) = Transform st chunk.

Lemma Transform_blocks_app (st a b : list Z) (i j : nat) :
  length a = (blk * i)%nat → Transform_blocks st (a ++ b) (i + j) = Transform_blocks (Transform_blocks st a i) b j.
Proof.
  revert st a. induction i as [|i IH]; intros st a Ha; cbn [Transform_blocks Nat.add].
  { destruct a; [done|]. cbn in Ha. lia. }
  rewrite <- (Transform_take st (a ++ b)), take_app_le, Transform_take by nia.
  rewrite drop_app_le by nia. apply IH. rewrite length_drop. nia.
Qed.

(** Only the bytes of these blocks are read. *)
Lemma Transform_blocks_prefix (st m d : list Z) (n : nat) :
  (blk * n ≤ length m)%nat → Transform_blocks st (m ++ d) n = Transform_blocks st m n.
Proof.
  revert st m. induction n as [|n IH]; intros st m Hn; cbn [Transform_blocks]; [done|].
  rewrite <- (Transform_take st (m ++ d)), take_app_le, Transform_take by nia.
  rewrite drop_app_le by nia. apply IH. rewrite length_drop. nia.
Qed.

Lemma length_memcpy_at (b : list Z) (off : nat) (src : list Z) :
  (off + length src ≤ length b)%nat → length (memcpy_at b off src) = length b.
Proof. intros H. unfold memcpy_at. rewrite !length_app, length_take, length_drop. lia. Qed.

Lemma take_memcpy_at (b : list Z) (off : nat) (src : list Z) :
  (off + length src ≤ length b)%nat → take (off + length src) (memcpy_at b off src) = take off b ++ src.
Proof.
  intros H. unfold memcpy_at. rewrite app_assoc, take_app_length'; [done|].
  rewrite length_app, length_take. lia.
Qed.

(** What has been written: the state has taken in all full blocks, the buffer holds the rest. *)
Variable init : list Z.

Definition absorbed (h : hasher) (m : list Z) : Prop :=
  h_s h = Transform_blocks init m (length m / blk) ∧
  take (length m mod blk) (h_buf h) = drop (blk * (length m / blk)) m ∧
  length (h_buf h) = blk ∧ h_bytes h = u64 (length m).

Hypothesis blk_div : (Z.of_nat blk | 2 ^ 64).

Lemma bufsize_absorbed (h : hasher) (m : list Z) : absorbed h m → Z.to_nat (h_bytes h mod blk) = (length m mod blk)%nat.
Proof.
  intros (_ & _ & _ & ->). unfold u64, wrap. rewrite Z.mod_mod_divide by done.
  rewrite <- Nat2Z.inj_mod. lia.
Qed.

Lemma u64_add (a b : Z) : u64 (u64 a + b) = u64 (a + b).
Proof. unfold u64, wrap. by rewrite Zplus_mod_idemp_l. Qed.

(** A whole number of blocks leaves nothing in the buffer. *)
Lemma absorbed_blocks (h : hasher) (m d : list Z) (q : nat) :
  absorbed h m → (length m mod blk = 0)%nat → length d = (blk * q)%nat →
  absorbed (MkHasher (Transform_blocks (h_s h) d q) (h_buf h) (u64 (h_bytes h + length d))) (m ++ d).
Proof.
  intros (Es & Eb & Hl & En) Hr Hd. pose proof (Nat.div_mod_eq (length m) blk) as Em.
  assert (length (m ++ d) = blk * (length m / blk + q))%nat as El by (rewrite length_app; lia).
  assert (length (m ++ d) / blk = length m / blk + q)%nat as Ed.
  { rewrite El, Nat.mul_comm. apply Nat.div_mul. lia. }
  unfold absorbed. cbn [h_s h_buf h_bytes]. rewrite Ed. split_and!.
  - rewrite Es. rewrite Transform_blocks_app; [done|lia].
  - rewrite El, (Nat.mul_comm blk), Nat.Div0.mod_mul. cbn. rewrite drop_ge; [done|lia].
  - done.
  - rewrite En, u64_add, length_app. f_equal. lia.
Qed.

Lemma absorbed_rest (h : hasher) (m d : list Z) :
  absorbed h m → (length m mod blk + length d < blk)%nat → absorbed (keep_rest d (length m mod blk) h) (m ++ d).
Proof.
  intros Hm Hd. unfold keep_rest. case_if; bool_to_prop.
  2: { destruct d; [|cbn in *; lia]. by rewrite app_nil_r. }
  destruct Hm as (Es & Eb & Hl & En). pose proof (Nat.div_mod_eq (length m) blk) as Em.
  assert (length (m ++ d) / blk = length m / blk)%nat as Ed.
  { rewrite length_app. symmetry. apply (Nat.div_unique _ _ _ (length m mod blk + length d)); lia. }
  assert (length (m ++ d) mod blk = length m mod blk + length d)%nat as Er.
  { rewrite length_app. symmetry. apply (Nat.mod_unique _ _ (length m / blk)); lia. }
  unfold absorbed. cbn [h_s h_buf h_bytes]. rewrite Ed, Er. split_and!.
  - by rewrite Es, Transform_blocks_prefix by lia.
  - rewrite take_memcpy_at by lia. rewrite Eb. rewrite drop_app_le by lia. done.
  - rewrite length_memcpy_at; lia.
  - by rewrite En, u64_add, length_app, Nat2Z.inj_add.
Qed.

Lemma absorbed_fill (h : hasher) (m d : list Z) :
  absorbed h m →
  let '(h', d', bufsize) := fill_buffer d h in
  ∃ m', absorbed h' m' ∧ m ++ d = m' ++ d' ∧ bufsize = (length m' mod blk)%nat ∧
    (bufsize = 0 ∨ bufsize + length d' < blk)%nat.
Proof.
  intros Hm. unfold fill_buffer. rewrite (bufsize_absorbed h m Hm).
  destruct (Nat.eqb_spec (length m mod blk) 0) as [Hz|Hz]; cbn [negb andb]; [by exists m; auto|].
  destruct (Nat.leb_spec blk (length m mod blk + length d)) as [Hf|Hf]; [|by exists m; auto].
  set (r := (length m mod blk)%nat) in *. set (k := (blk - r)%nat).
  assert (r < blk)%nat as Hr by (apply Nat.mod_upper_bound; lia).
  destruct Hm as (Es & Eb & Hl & En). pose proof (Nat.div_mod_eq (length m) blk) as Em. fold r in Em, Eb.
  assert (length (take k d) = k) as Hk by (rewrite length_take; lia).
  assert (length (m ++ take k d) = blk * S (length m / blk))%nat as El by (rewrite length_app; lia).
  exists (m ++ take k d). split_and!.
  - unfold absorbed. cbn [h_s h_buf h_bytes]. rewrite El, (Nat.mul_comm blk), Nat.div_mul, Nat.Div0.mod_mul by lia. split_and!.
    + assert (memcpy_at (h_buf h) r (take k d) = drop (blk * (length m / blk)) (m ++ take k d)) as ->.
      { rewrite <- (take_ge (memcpy_at _ _ _) blk) by (rewrite length_memcpy_at; lia).
        replace blk with (r + length (take k d))%nat at 1 by lia. rewrite take_memcpy_at by lia.
        rewrite Eb, drop_app_le by lia. done. }
      rewrite <- (take_drop (blk * (length m / blk)) (m ++ take k d)) at 2.
      replace (S (length m / blk)) with (length m / blk + 1)%nat by lia.
      rewrite Transform_blocks_app by (rewrite length_take, El; lia). cbn [Transform_blocks]. f_equal.
      rewrite Es, take_app_le by lia. rewrite <- (take_drop (blk * (length m / blk)) m) at 1.
      by rewrite Transform_blocks_prefix by (rewrite length_take; lia).
    + cbn. rewrite drop_ge; [done|lia].
    + rewrite length_memcpy_at; lia.
    + rewrite En, u64_add. f_equal. lia.
  - by rewrite <- app_assoc, take_drop.
  - rewrite El, Nat.mul_comm. symmetry. apply Nat.Div0.mod_mul.
  - by left.
Qed.

(** [Write] appends to what has been written. *)
Lemma Write_blocks_absorbed (h : hasher) (m d : list Z) : absorbed h m → absorbed (Write_blocks d h) (m ++ d).
Proof.
  intros Hm. unfold Write_blocks. pose proof (absorbed_fill h m d Hm) as Hf.
  destruct (fill_buffer d h) as [[h' d'] bufsize]. destruct Hf as (m' & Hm' & -> & -> & Hb).
  case_if; bool_to_prop; [|by apply absorbed_rest; [done|lia]].
  assert (length m' mod blk = 0)%nat as Hz by lia.
  set (q := (length d' / blk)%nat). pose proof (Nat.div_mod_eq (length d') blk) as Ed. fold q in Ed.
  assert (length d' mod blk < blk)%nat by (apply Nat.mod_upper_bound; lia).
  assert (length (take (blk * q) d') = blk * q)%nat as Hl by (rewrite length_take; lia).
  assert (Transform_blocks (h_s h') d' q = Transform_blocks (h_s h') (take (blk * q) d') q) as ->.
  { rewrite <- (take_drop (blk * q) d') at 1. by rewrite Transform_blocks_prefix by lia. }
  pose proof (absorbed_blocks h' m' (take (blk * q) d') q Hm' Hz Hl) as Ha. rewrite Hl, Nat2Z.inj_mul in Ha.
  assert (length (m' ++ take (blk * q) d') mod blk = length m' mod blk)%nat as Er.
  { by rewrite length_app, Hl, (Nat.mul_comm blk), Nat.Div0.mod_add. }
  pose proof (absorbed_rest _ _ (drop (blk * q) d') Ha) as Hx. rewrite Er, <- app_assoc, take_drop in Hx.
  apply Hx. rewrite length_drop. lia.
Qed.

(** ** The loop form of [Write] *)

Lemma full_chunks_eq (fuel : nat) (d : list Z) (h : hasher) :
  (length d ≤ fuel)%nat → is_word 64 (h_bytes h) →
  full_chunks fuel d h =
    (drop (blk * (length d / blk)) d,
     MkHasher (Transform_blocks (h_s h) d (length d / blk)) (h_buf h) (u64 (h_bytes h + blk * (length d / blk)%nat))).
Proof.
  revert d h. induction fuel as [|fuel IH]; intros d h Hf Hw; cbn [full_chunks].
  - destruct d; [|cbn in Hf; lia]. cbn [length]. rewrite Nat.Div0.div_0_l, Nat.mul_0_r. cbn.
    rewrite Z.mul_0_r, Z.add_0_r. unfold u64. rewrite wrap_small by done. by destruct h.
  - destruct (Nat.leb_spec blk (length d)) as [Hb|Hb].
    + assert (length d / blk = S (length (drop blk d) / blk))%nat as Eq.
      { rewrite length_drop. replace (length d) with (length d - blk + 1 * blk)%nat at 1 by lia.
        rewrite Nat.div_add by lia. lia. }
      rewrite IH; [|rewrite length_drop; lia|by apply is_word_wrap].
      rewrite Eq. cbn [Transform_blocks h_s h_buf h_bytes]. rewrite drop_drop, u64_add.
      f_equal; [f_equal; lia|]. do 2 f_equal. lia.
    + rewrite Nat.div_small by done. rewrite Nat.mul_0_r. cbn. rewrite Z.mul_0_r, Z.add_0_r. unfold u64.
      rewrite wrap_small by done. by destruct h.
Qed.

Lemma Write_while_blocks (d : list Z) (h : hasher) : is_word 64 (h_bytes h) → Write_while d h = Write_blocks d h.
Proof.
  intros Hw. unfold Write_while, Write_blocks.
  assert (is_word 64 (h_bytes (fill_buffer d h).1.1)) as Hw'.
  { unfold fill_buffer. case_if; [by apply is_word_wrap|done]. }
  destruct (fill_buffer d h) as [[h' d'] bufsize]. cbn in Hw'. rewrite full_chunks_eq by done.
  destruct (Nat.leb_spec blk (length d')) as [Hb|Hb]; [done|].
  rewrite Nat.div_small by done. rewrite Nat.mul_0_r. cbn. rewrite Z.mul_0_r, Z.add_0_r. unfold u64.
  rewrite wrap_small by done. by destruct h'.
Qed.

Lemma Write_while_absorbed (h : hasher) (m d : list Z) : absorbed h m → absorbed (Write_while d h) (m ++ d).
Proof.
  intros Hm. rewrite Write_while_blocks; [by apply Write_blocks_absorbed|].
  destruct Hm as (_ & _ & _ & ->). by apply is_word_wrap.
Qed.

(** ** Finalization

    [top] is the constant 119 or 239 of the sources, [sizedesc] writes the number of bits. *)

Variable Write : list Z → hasher → hasher.
Variable top : Z.
Variable sizedesc : Z → list Z.

Definition pad : list Z := 0x80 :: replicate (blk - 1) 0.

Definition Finalize_state (h : hasher) : list Z :=
  let size := sizedesc (u64 (h_bytes h .<< 3)) in
  let h := Write (take (Z.to_nat (1 + (top - h_bytes h mod blk) mod blk)) pad) h in
  h_s (Write size h).

(** The message with a one bit, zeros up to the block boundary less the length field, and its length. *)
Definition padded (m : list Z) : list Z :=
  m ++ 0x80 :: replicate (Z.to_nat ((top - length m) mod blk)) 0 ++ sizedesc (u64 (8 * length m)).

(** The transformation folded over the blocks of the padded message. *)
Definition digest (m : list Z) : list Z :=
  foldl Transform init (reshape (replicate (length (padded m) / blk) blk) (padded m)).

Hypothesis Write_absorbed : ∀ h m d, absorbed h m → absorbed (Write d h) (m ++ d).

Lemma Transform_blocks_fold (st m : list Z) (n : nat) :
  Transform_blocks st m n = foldl Transform st (reshape (replicate n blk) m).
Proof.
  revert st m. induction n as [|n IH]; intros st m; cbn [Transform_blocks replicate reshape foldl]; [done|].
  by rewrite IH, Transform_take.
Qed.

Lemma padding_bytes (n : Z) : 0 <= n → take (Z.to_nat (1 + (top - u64 n mod blk) mod blk)) pad = 0x80 :: replicate (Z.to_nat ((top - n) mod blk)) 0.
Proof.
  intros Hn. unfold u64, wrap. rewrite Z.mod_mod_divide by done. rewrite Zminus_mod_idemp_r.
  pose proof (Z.mod_pos_bound (top - n) blk ltac:(lia)).
  replace (Z.to_nat (1 + (top - n) mod blk)) with (S (Z.to_nat ((top - n) mod blk))) by lia.
  unfold pad. cbn [take]. f_equal. rewrite take_replicate. f_equal. lia.
Qed.

Lemma Finalize_absorbed (h : hasher) (m : list Z) : absorbed h m → Finalize_state h = digest m.
Proof.
  intros Hm. unfold Finalize_state, digest. rewrite <- Transform_blocks_fold.
  assert (h_bytes h = u64 (length m)) as En by apply Hm.
  set (p := take _ pad). pose proof (Write_absorbed _ _ (sizedesc (u64 (h_bytes h .<< 3))) (Write_absorbed _ _ p Hm)) as (-> & _).
  assert ((m ++ p) ++ sizedesc (u64 (h_bytes h .<< 3)) = padded m) as ->; [|done].
  unfold padded, p. rewrite En, padding_bytes by lia. rewrite <- app_assoc. do 2 f_equal. cbn. f_equal. f_equal. f_equal.
  rewrite shl_mul by lia. unfold u64, wrap. rewrite Zmult_mod_idemp_l. f_equal. lia.
Qed.

(** However the message is cut into pieces, the result is the digest of the whole. *)
Lemma Finalize_pieces (h : hasher) (ws : list (list Z)) :
  absorbed h [] → Finalize_state (foldl (λ h d, Write d h) h ws) = digest (concat ws).
Proof.
  intros Hm. apply Finalize_absorbed. change (concat ws) with ([] ++ concat ws). revert h Hm. generalize (@nil Z) as m.
  induction ws as [|w ws IH]; intros m h Hm; cbn [foldl concat]; [by rewrite app_nil_r|].
  rewrite app_assoc. by apply IH, Write_absorbed.
Qed.

Lemma absorbed_new (h : hasher) : h_s h = init → length (h_buf h) = blk → h_bytes h = 0 → absorbed h [].
Proof. intros Hs Hb Hn. unfold absorbed. cbn [length]. rewrite Nat.Div0.div_0_l, Nat.Div0.mod_0_l. by rewrite drop_nil. Qed.
End Digest.

(** ** Changing the transformation *)

Lemma foldl_ext_inv {A B : Type} (P : A → Prop) (Q : B → Prop) (f g : A → B → A) (a : A) (l : list B) :
  (∀ a b, P a → Q b → f a b = g a b ∧ P (f a b)) → P a → Forall Q l → foldl f a l = foldl g a l ∧ P (foldl f a l).
Proof.
  intros Hfg. revert a. induction l as [|b l IH]; intros a Ha Hl; cbn [foldl]; [done|].
  apply list.Forall_cons in Hl as [Hb Hl]. destruct (Hfg a b Ha Hb) as [<- Hp]. by apply IH.
Qed.

Lemma Forall_reshape {A : Type} (P : A → Prop) (szs : list nat) (l : list A) : Forall P l → Forall (Forall P) (reshape szs l).
Proof.
  revert l. induction szs as [|n szs IH]; intros l Hl; cbn [reshape]; constructor; [by apply Forall_take|by apply IH, Forall_drop].
Qed.

Lemma padded_bytes (blk : nat) (top : Z) (sizedesc : Z → list Z) (m : list Z) :
  (∀ z, bytes_ok (sizedesc z)) → bytes_ok m → bytes_ok (padded blk top sizedesc m).
Proof.
  intros Hs Hm. unfold padded. apply Forall_app. split; [done|]. constructor; [by split|].
  apply Forall_app. split; [|done]. by apply Forall_replicate.
Qed.

(** Transformations that agree on the states of an invariant give the same digest, and it satisfies the invariant. *)
Lemma digest_ext (blk : nat) (P : list Z → Prop) (T T' : list Z → list Z → list Z) (init : list Z) (top : Z) (sizedesc : Z → list Z) (m : list Z) :
  (∀ st chunk, P st → bytes_ok chunk → T st chunk = T' st chunk ∧ P (T st chunk)) →
  (∀ z, bytes_ok (sizedesc z)) → P init → bytes_ok m →
  digest blk T init top sizedesc m = digest blk T' init top sizedesc m ∧ P (digest blk T init top sizedesc m).
Proof.
  intros HT Hs Hi Hm. unfold digest. apply (foldl_ext_inv P bytes_ok); [done..|].
  by apply Forall_reshape, padded_bytes.
Qed.

Lemma length_digest (blk : nat) (T : list Z → list Z → list Z) (init : list Z) (top : Z) (sizedesc : Z → list Z) (m : list Z) :
  (∀ st chunk, length (T st chunk) = length st) → length (digest blk T init top sizedesc m) = length init.
Proof.
  intros HT. unfold digest. generalize (reshape (replicate (length (padded blk top sizedesc m) / blk) blk) (padded blk top sizedesc m)).
  intros l. revert init. induction l as [|c l IH]; intros st; cbn [foldl]; [done|by rewrite IH, HT].
Qed.

Lemma length_concat_const {A B : Type} (f : A → list B) (n : nat) (l : list A) :
  (∀ a, length (f a) = n) → length (concat (f <$> l)) = (n * length l)%nat.
Proof. intros Hf. induction l as [|a l IH]; cbn; [lia|]. rewrite length_app, Hf, IH. lia. Qed.

Lemma Forall_concat_fmap {A B : Type} (P : B → Prop) (f : A → list B) (l : list A) :
  (∀ a, Forall P (f a)) → Forall P (concat (f <$> l)).
Proof. intros Hf. induction l as [|a l IH]; cbn; [constructor|]. by apply Forall_app. Qed.

Lemma xor_bytes (c : Z) (l : list Z) : is_byte c → bytes_ok l → bytes_ok (Z.lxor c <$> l).
Proof.
  intros Hc Hl. apply Forall_fmap. eapply list.Forall_impl; [exact Hl|]. intros b Hb. unfold is_byte, is_word in *. cbn.
  split; [apply Z.lxor_nonneg; lia|]. destruct (decide (c .^ b = 0)) as [->|Hn]; [done|].
  apply Z.log2_lt_pow2; [pose proof (proj2 (Z.lxor_nonneg c b)); lia|].
  eapply Z.le_lt_trans; [apply Z.log2_lxor; lia|].
  assert (Z.log2 255 = 7) as E by done. pose proof (Z.log2_le_mono c 255). pose proof (Z.log2_le_mono b 255). lia.
Qed.

(** Finalizing a hasher that has taken in [m] gives the digest by any transformation that agrees with its own. *)
Lemma Finalize_ext (blk : nat) (P : list Z → Prop) (T T' : list Z → list Z → list Z) (init : list Z) (Write : list Z → hasher → hasher)
    (top : Z) (sizedesc : Z → list Z) (h : hasher) (m : list Z) :
  (0 < blk)%nat → (∀ st chunk, T st (take blk chunk) = T st chunk) → (Z.of_nat blk | 2 ^ 64) →
  (∀ h m d, absorbed blk T init h m → absorbed blk T init (Write d h) (m ++ d)) →
  (∀ st chunk, P st → bytes_ok chunk → T st chunk = T' st chunk ∧ P (T st chunk)) →
  (∀ z, bytes_ok (sizedesc z)) → P init → bytes_ok m → absorbed blk T init h m →
  Finalize_state blk Write top sizedesc h = digest blk T' init top sizedesc m.
Proof.
  intros Hblk Htake Hdiv HW HT Hs Hi Hm Hh. rewrite (Finalize_absorbed blk T Hblk Htake init Hdiv Write top sizedesc HW h m Hh).
  by apply (digest_ext blk P).
Qed.

Lemma divides_64 : (Z.of_nat 64 | 2 ^ 64).
Proof. by exists (2 ^ 58). Qed.

Lemma divides_128 : (Z.of_nat 128 | 2 ^ 64).
Proof. by exists (2 ^ 57). Qed.
