(* ===== verification/HashRef.v ===== *)
(** * What the published hash functions share

    The parts of FIPS 180-4 and of the definition of RIPEMD-160 that the references of
    [Sha512], [Sha256], [Sha1] and [Ripemd160] are made of, written from the documents and not from the
    sources: numbers as bytes, padding, blocks, and the constants as roots of the first primes. *)

From Stdlib Require Import ZArith Lia.
From S2P Require Import Prelude Common Digest.

Open Scope Z_scope.

(** ** Numbers and bytes *)

Definition be_number (bytes : list Z) : Z := foldl (λ a b, 256 * a + b) 0 bytes.
Definition le_number (bytes : list Z) : Z := be_number (reverse bytes).

Definition be_bytes (n : nat) (z : Z) : list Z := (λ i, z / 256 ^ Z.of_nat (n - 1 - i) mod 256) <$> seq 0 n.
Definition le_bytes (n : nat) (z : Z) : list Z := (λ i, z / 256 ^ Z.of_nat i mod 256) <$> seq 0 n.

(** The sixteen words, of [n] bytes each, of a block. *)
Definition block_words (number : list Z → Z) (n : nat) (block : list Z) : list Z :=
  (λ i, number (take n (drop (n * i) block))) <$> seq 0 16.

Lemma be_number_val (l : list Z) : be_number l = le_val 8 (reverse l).
Proof.
  unfold be_number. induction l as [|b l IH] using rev_ind; [done|].
  rewrite foldl_app, reverse_app, IH. cbn. lia.
Qed.

Lemma le_bytes_digits (n : nat) (z : Z) : le_bytes n z = le_digits 8 n z.
Proof.
  unfold le_bytes. revert z. induction n as [|n IH]; intros z; [done|]. cbn [seq le_digits]. rewrite fmap_cons. f_equal.
  - by rewrite Z.div_1_r.
  - rewrite <- IH, <- fmap_S_seq, <- list_fmap_compose. apply list_fmap_ext. intros _ i _. unfold compose.
    rewrite Nat2Z.inj_succ, Z.pow_succ_r, Z.div_div by lia. done.
Qed.

Lemma be_bytes_digits (n : nat) (z : Z) : be_bytes n z = reverse (le_digits 8 n z).
Proof.
  rewrite <- le_bytes_digits. apply list_eq. intros i. unfold be_bytes, le_bytes.
  destruct (decide (i < n)%nat).
  - rewrite reverse_lookup by (rewrite length_fmap, length_seq; lia). rewrite length_fmap, length_seq, !list_lookup_fmap.
    rewrite !lookup_seq_lt by lia. cbn. do 5 f_equal. lia.
  - rewrite !lookup_ge_None_2; [done|rewrite length_reverse, length_fmap, length_seq; lia|rewrite length_fmap, length_seq; lia].
Qed.

Lemma le_digits_wrap (n : nat) (z : Z) : le_digits 8 n (wrap (8 * Z.of_nat n) z) = le_digits 8 n z.
Proof.
  apply (le_val_inj 8); [lia|by rewrite !length_le_digits|by apply le_digits_words..|].
  rewrite !le_val_le_digits by lia. apply Z.mod_mod. pose proof (pow2_pos (8 * Z.of_nat n)). lia.
Qed.

Lemma WriteBE32_bytes_of (z : Z) : WriteBE32 z = be_bytes 4 z.
Proof. rewrite be_bytes_digits. unfold WriteBE32. f_equal. apply (le_digits_wrap 4). Qed.

Lemma WriteBE64_bytes_of (z : Z) : WriteBE64 z = be_bytes 8 z.
Proof. rewrite be_bytes_digits. unfold WriteBE64. f_equal. apply (le_digits_wrap 8). Qed.

Lemma WriteLE32_bytes_of (z : Z) : WriteLE32 z = le_bytes 4 z.
Proof. rewrite le_bytes_digits. apply (le_digits_wrap 4). Qed.

Lemma WriteLE64_bytes_of (z : Z) : WriteLE64 z = le_bytes 8 z.
Proof. rewrite le_bytes_digits. apply (le_digits_wrap 8). Qed.

Lemma le_number_val (l : list Z) : le_number l = le_val 8 l.
Proof. unfold le_number. by rewrite be_number_val, reverse_involutive. Qed.

(** ** Padding and blocks *)

(** A one bit, as few zeros as complete the last block with the length field, an eighth of a block, and in it the number of bits; of
    which, as in the sources, the lower 64 count. *)
Definition std_padded (blk : nat) (bytes : nat → Z → list Z) (m : list Z) : list Z :=
  let field := (blk / 8)%nat in
  m ++ 0x80 :: replicate (Z.to_nat ((Z.of_nat blk - Z.of_nat field - 1 - Z.of_nat (length m)) mod Z.of_nat blk)) 0 ++
  bytes field ((8 * Z.of_nat (length m)) mod 2 ^ 64).

Fixpoint blocks_of (blk n : nat) (m : list Z) : list (list Z) :=
  match n with O => [] | S n => take blk m :: blocks_of blk n (drop blk m) end.

Definition std_digest (blk : nat) (bytes : nat → Z → list Z) (compress : list Z → list Z → list Z) (init m : list Z) : list Z :=
  let p := std_padded blk bytes m in foldl compress init (blocks_of blk (length p / blk) p).

Lemma blocks_of_reshape (blk n : nat) (m : list Z) : blocks_of blk n m = reshape (replicate n blk) m.
Proof. revert m. induction n as [|n IH]; intros m; cbn; [done|]. by rewrite IH. Qed.

(** It is the digest of the streaming hashers, with their constants. *)
Lemma std_digest_eq (blk : nat) (bytes : nat → Z → list Z) (compress : list Z → list Z → list Z) (init : list Z) (top : Z) (sizedesc : Z → list Z) (m : list Z) :
  (0 < blk)%nat → (Z.of_nat blk | top - (Z.of_nat blk - Z.of_nat (blk / 8) - 1)) → (∀ z, is_word 64 z → sizedesc z = bytes (blk / 8)%nat z) →
  std_digest blk bytes compress init m = digest blk compress init top sizedesc m.
Proof.
  intros Hb [k Hk] Hs. unfold std_digest, digest. rewrite blocks_of_reshape.
  assert (std_padded blk bytes m = padded blk top sizedesc m) as ->; [|done].
  unfold std_padded, padded, u64, wrap. rewrite Hs by (apply Z.mod_pos_bound; lia). do 5 f_equal.
  replace (top - Z.of_nat (length m)) with (Z.of_nat blk - Z.of_nat (blk / 8) - 1 - Z.of_nat (length m) + k * Z.of_nat blk) by lia.
  by rewrite Z_mod_plus_full.
Qed.

(** ** Roots of primes *)

(** No divisor from 2 up to the square root. *)
Definition is_prime (n : Z) : bool := forallb (λ d, negb (n mod d =? 0)) (seqZ 2 (Z.sqrt n - 1)).

Definition first_primes (n : nat) : list Z := take n (List.filter is_prime (seqZ 2 450)).

(** The cube root, bit by bit from [2^n] down. *)
Fixpoint cube_root (n : nat) (x r : Z) : Z :=
  match n with
  | O => r
  | S n => let r' := r + 2 ^ Z.of_nat n in cube_root n x (if r' * r' * r' <=? x then r' else r)
  end.

Lemma cube_root_spec (n : nat) (x r : Z) :
  r * r * r <= x < (r + 2 ^ Z.of_nat n) * (r + 2 ^ Z.of_nat n) * (r + 2 ^ Z.of_nat n) →
  let c := cube_root n x r in c * c * c <= x < (c + 1) * (c + 1) * (c + 1).
Proof.
  revert r. induction n as [|n IH]; intros r Hr; cbn [cube_root]; [exact Hr|].
  apply IH. destruct (_ <=? x) eqn:E; bool_to_prop; (split; [lia|]); [|lia].
  replace (r + 2 ^ Z.of_nat n + 2 ^ Z.of_nat n) with (r + 2 ^ Z.of_nat (S n)) by (rewrite Nat2Z.inj_succ, Z.pow_succ_r; lia). lia.
Qed.

(** The first [w] bits of the fraction of the square root and of the cube root of [p]. *)
Definition frac_sqrt (w p : Z) : Z := Z.sqrt (p * 2 ^ (2 * w)) mod 2 ^ w.
Definition frac_cbrt (w p : Z) : Z := cube_root (Z.to_nat w + 3) (p * 2 ^ (3 * w)) 0 mod 2 ^ w.

(** The initial state of SHA-1 and RIPEMD-160: the words of these bytes, least significant byte first. *)
Definition md_H0 : list Z :=
  le_number <$> [[0x01; 0x23; 0x45; 0x67]; [0x89; 0xab; 0xcd; 0xef]; [0xfe; 0xdc; 0xba; 0x98]; [0x76; 0x54; 0x32; 0x10]; [0xf0; 0xe1; 0xd2; 0xc3]].

(** The first 30 bits of the fraction of a root, with the integer part before them. *)
Definition root2_30 (p : Z) : Z := Z.sqrt (p * 2 ^ 60).
Definition root3_30 (p : Z) : Z := cube_root 33 (p * 2 ^ 90) 0.
