(* ===== verification/Sha2.v ===== *)
(** * The SHA-2 rounds ([src/src/crypto/sha256.cpp], [src/src/crypto/sha512.cpp])

    The transformation that SHA-256 and SHA-512 share, over the word size, the
    round constants and the mixing functions, and the reference of FIPS 180-4
    it is equal to.  The sources write the rounds out one per line and rename the
    registers instead of moving them; here a line is a step of a loop that
    rotates the list of registers. *)

From Stdlib Require Import ZArith Lia.
From S2P Require Import Prelude.

Open Scope Z_scope.
Open Scope word_scope.

(** ** Rotations and mixing functions *)

(** Rotation to the right in a word of [w] bits. *)
Definition rotr (w n x : Z) : Z := x / 2 ^ n + (x mod 2 ^ n) * 2 ^ (w - n).

Lemma shift_rotr (w n x : Z) : 0 < n < w → is_word w x → (x .>> n) .| wrap w (x .<< (w - n)) = rotr w n x.
Proof.
  intros Hn Hx. rewrite shr_div, shl_mul by lia. unfold wrap, rotr.
  assert (2 ^ w = 2 ^ n * 2 ^ (w - n)) as Ew by (rewrite <- Z.pow_add_r by lia; f_equal; lia).
  pose proof (Z.pow_pos_nonneg 2 n ltac:(lia) ltac:(lia)). pose proof (Z.pow_pos_nonneg 2 (w - n) ltac:(lia) ltac:(lia)).
  rewrite Ew, Z.mul_mod_distr_r by lia. apply lor_add; [lia|].
  split; [apply Z.div_pos; [apply Hx|lia]|]. apply Z.div_lt_upper_bound; [lia|]. rewrite <- Ew. apply Hx.
Qed.

(** ** Rounds over an expanded message

    The first sixteen rounds take the words of the message, each further one a
    word computed from the sixteen before; the sources keep these sixteen in
    variables that they rename from line to line. *)

Section Rounds.
Context {A : Type}.
Variable step : list Z → A * Z → list Z.
Variable next_word : list Z → Z.

Fixpoint expand_rounds (ks : list A) (ws r : list Z) : list Z :=
  match ks with
  | [] => r
  | k :: ks => let x := next_word ws in expand_rounds ks (drop 1 ws ++ [x]) (step r (k, x))
  end.

Definition all_rounds (ks : list A) (ws r : list Z) : list Z :=
  let r := foldl step r (zip (take 16 ks) ws) in
  expand_rounds (drop 16 ks) ws r.

(** The expanded message, each word computed by [next] from all words before it. *)
Fixpoint schedule (next : list Z → Z) (n : nat) (ws : list Z) : list Z :=
  match n with
  | O => ws
  | S n => let W := schedule next n ws in W ++ [next W]
  end.

(** The new words, from a window of sixteen. *)
Fixpoint new_words (n : nat) (ws : list Z) : list Z :=
  match n with O => [] | S n => next_word ws :: new_words n (drop 1 ws ++ [next_word ws]) end.

Lemma length_new_words (n : nat) (ws : list Z) : length (new_words n ws) = n.
Proof. revert ws. induction n as [|n IH]; intros ws; cbn; [done|by rewrite IH]. Qed.

Lemma expand_rounds_eq (ks : list A) (ws r : list Z) :
  expand_rounds ks ws r = foldl step r (zip ks (new_words (length ks) ws)).
Proof. revert ws r. induction ks as [|k ks IH]; intros ws r; cbn; [done|apply IH]. Qed.

(** The window after [n] words is the end of the list so far. *)
Lemma new_words_snoc (n : nat) (ws : list Z) :
  length ws = 16%nat → new_words (S n) ws = new_words n ws ++ [next_word (drop n (ws ++ new_words n ws))].
Proof.
  revert ws. induction n as [|n IH]; intros ws Hl; [cbn; by rewrite app_nil_r|].
  change (new_words (S (S n)) ws) with (next_word ws :: new_words (S n) (drop 1 ws ++ [next_word ws])).
  rewrite IH by (rewrite length_app, length_drop; cbn; lia). cbn [new_words app]. do 3 f_equal.
  destruct ws as [|x ws]; [done|]. cbn [drop app]. by rewrite <- app_assoc.
Qed.

Variable w : Z.
Variable next : list Z → Z.
Hypothesis w_nonneg : 0 <= w.
Hypothesis next_word_words : ∀ ws, (∀ i, is_word w (ws.[i])) → is_word w (next_word ws).
Hypothesis next_eq : ∀ n W, length W = (16 + n)%nat → (∀ i, is_word w (W.[i])) → next_word (drop n W) = next W.

Lemma aget_words (l : list Z) : Forall (is_word w) l → ∀ i, is_word w (l.[i]).
Proof.
  intros Hl i. rewrite aget_lookup. destruct (l !! i) eqn:E; [by apply (Forall_lookup_1 _ _ _ _ Hl E)|].
  split; [done|by apply Z.pow_pos_nonneg].
Qed.

Lemma new_words_words (n : nat) (ws : list Z) : Forall (is_word w) ws → Forall (is_word w) (new_words n ws).
Proof.
  revert ws. induction n as [|n IH]; intros ws Hws; cbn; constructor.
  - by apply next_word_words, aget_words.
  - apply IH, Forall_app. split; [by apply Forall_drop|]. constructor; [by apply next_word_words, aget_words|constructor].
Qed.

Lemma schedule_eq (n : nat) (ws : list Z) :
  length ws = 16%nat → Forall (is_word w) ws → schedule next n ws = ws ++ new_words n ws.
Proof.
  intros Hl Hw. induction n as [|n IH]; [cbn; by rewrite app_nil_r|]. rewrite new_words_snoc by done. cbn [schedule].
  rewrite IH, <- app_assoc. do 3 f_equal. symmetry. apply next_eq; [rewrite length_app, length_new_words; lia|].
  apply aget_words, Forall_app. split; [done|by apply new_words_words].
Qed.

(** All rounds are a fold over the keys and the expanded message. *)
Lemma all_rounds_eq (ks : list A) (ws r : list Z) :
  (16 ≤ length ks)%nat → length ws = 16%nat → Forall (is_word w) ws →
  all_rounds ks ws r = foldl step r (zip ks (schedule next (length ks - 16) ws)).
Proof.
  intros HK Hl Hw. unfold all_rounds. rewrite expand_rounds_eq, <- foldl_app, length_drop, schedule_eq by done.
  f_equal. rewrite <- zip_with_app by (rewrite length_take; lia). by rewrite take_drop.
Qed.
End Rounds.

Lemma aget_drop (l : list Z) (n i : nat) : (drop n l).[i] = l.[n + i].
Proof. by rewrite !aget_lookup, lookup_drop. Qed.

(** ** The transformation *)

Section Sha2.
Variable w : Z.
Variables Ch Maj : Z → Z → Z → Z.
Variables Sigma0 Sigma1 sigma0 sigma1 : Z → Z.
Variable K : list Z.

(** One round: the new values of [d] and [h]. *)
Definition Round (a b c d e f g h k x : Z) : Z * Z :=
  let t1 := wrap w (h + Sigma1 e + Ch e f g + k + x) in
  let t2 := wrap w (Sigma0 a + Maj a b c) in
  (wrap w (d + t1), wrap w (t1 + t2)).

(** A line of [Transform]; the next one starts with the last register. *)
Definition sha2_step (r : list Z) (kx : Z * Z) : list Z :=
  match r with
  | [a; b; c; d; e; f; g; h] => let '(d, h) := Round a b c d e f g h kx.1 kx.2 in [h; a; b; c; d; e; f; g]
  | _ => r
  end.

(** [w0 += sigma1(w14) + w9 + sigma0(w1)], the words renamed like the registers. *)
Definition next_word (ws : list Z) : Z := wrap w (ws.[0] + (sigma1 (ws.[14]) + ws.[9] + sigma0 (ws.[1]))).

Definition Transform_words (st ws : list Z) : list Z :=
  zip_with (λ x y, wrap w (x + y)) st (all_rounds sha2_step next_word K ws st).

(** ** The reference *)

Variables Sigma0' Sigma1' sigma0' sigma1' : Z → Z.

Definition fips_Ch (x y z : Z) : Z := (x .& y) .^ Z.ldiff z x.
Definition fips_Maj (x y z : Z) : Z := (x .& y) .^ (x .& z) .^ (y .& z).

(** The word after those of [W]. *)
Definition fips_next (W : list Z) : Z :=
  let t := length W in
  wrap w (sigma1' (W.[t - 2]) + W.[t - 7] + sigma0' (W.[t - 15]) + W.[t - 16]).

Definition fips_round (r : list Z) (kx : Z * Z) : list Z :=
  match r with
  | [a; b; c; d; e; f; g; h] =>
      let T1 := h + Sigma1' e + fips_Ch e f g + kx.1 + kx.2 in
      let T2 := Sigma0' a + fips_Maj a b c in
      [wrap w (T1 + T2); a; b; c; wrap w (d + T1); e; f; g]
  | _ => r
  end.

Definition fips_compress (st ws : list Z) : list Z :=
  zip_with (λ x y, wrap w (x + y)) st (foldl fips_round st (zip K (schedule fips_next (length K - 16) ws))).

Lemma Ch_bits (x y z : Z) : z .^ (x .& (y .^ z)) = fips_Ch x y z.
Proof.
  apply Z.bits_inj. intros i. unfold fips_Ch. rewrite !Z.lxor_spec, !Z.land_spec, !Z.lxor_spec, Z.ldiff_spec.
  by destruct (Z.testbit x i), (Z.testbit y i), (Z.testbit z i).
Qed.

Lemma Maj_bits (x y z : Z) : (x .& y) .| (z .& (x .| y)) = fips_Maj x y z.
Proof.
  apply Z.bits_inj. intros i. unfold fips_Maj. rewrite !Z.lxor_spec, !Z.lor_spec, !Z.land_spec, !Z.lor_spec.
  by destruct (Z.testbit x i), (Z.testbit y i), (Z.testbit z i).
Qed.

(** ** Equality *)

Hypothesis w_pos : 0 <= w.
Hypothesis Ch_eq : ∀ x y z, Ch x y z = fips_Ch x y z.
Hypothesis Maj_eq : ∀ x y z, Maj x y z = fips_Maj x y z.
Hypothesis Sigma0_eq : ∀ x, is_word w x → Sigma0 x = Sigma0' x.
Hypothesis Sigma1_eq : ∀ x, is_word w x → Sigma1 x = Sigma1' x.
Hypothesis sigma0_eq : ∀ x, is_word w x → sigma0 x = sigma0' x.
Hypothesis sigma1_eq : ∀ x, is_word w x → sigma1 x = sigma1' x.

Lemma sha2_step_words (r : list Z) (kx : Z * Z) : Forall (is_word w) r → Forall (is_word w) (sha2_step r kx).
Proof.
  intros Hr. do 8 (destruct r as [|? r]; [exact Hr|]). destruct r; [|exact Hr]. cbn.
  repeat (apply list.Forall_cons in Hr as [? Hr]). repeat (constructor; [done || by apply is_word_wrap|]). constructor.
Qed.

Lemma length_sha2_step (r : list Z) (kx : Z * Z) : length (sha2_step r kx) = length r.
Proof. do 8 (destruct r as [|? r]; [done|]). by destruct r. Qed.

Lemma sha2_step_eq (r : list Z) (kx : Z * Z) : Forall (is_word w) r → sha2_step r kx = fips_round r kx.
Proof.
  intros Hr. do 8 (destruct r as [|? r]; [done|]). destruct r; [|done]. cbn.
  repeat (apply list.Forall_cons in Hr as [? Hr]). rewrite Ch_eq, Maj_eq, Sigma0_eq, Sigma1_eq by done.
  unfold wrap. rewrite <- Zplus_mod, Zplus_mod_idemp_r. done.
Qed.

Lemma foldl_step_eq (l : list (Z * Z)) (r : list Z) :
  Forall (is_word w) r → foldl sha2_step r l = foldl fips_round r l ∧ Forall (is_word w) (foldl sha2_step r l).
Proof.
  revert r. induction l as [|kx l IH]; intros r Hr; cbn [foldl]; [done|].
  rewrite <- sha2_step_eq by done. by apply IH, sha2_step_words.
Qed.

Lemma next_word_eq (n : nat) (W : list Z) :
  length W = (16 + n)%nat → (∀ i, is_word w (W.[i])) → next_word (drop n W) = fips_next W.
Proof.
  intros Hl Hi. unfold next_word, fips_next. rewrite Hl, !aget_drop. rewrite sigma0_eq, sigma1_eq by apply Hi.
  replace (16 + n - 2)%nat with (n + 14)%nat by lia. replace (16 + n - 7)%nat with (n + 9)%nat by lia.
  replace (16 + n - 15)%nat with (n + 1)%nat by lia. replace (16 + n - 16)%nat with (n + 0)%nat by lia.
  f_equal. lia.
Qed.

(** The transformation is the compression function of the standard. *)
Lemma Transform_words_eq (st ws : list Z) :
  (16 ≤ length K)%nat → length ws = 16%nat → Forall (is_word w) ws → Forall (is_word w) st →
  Transform_words st ws = fips_compress st ws.
Proof.
  intros HK Hl Hw Hst. unfold Transform_words, fips_compress. f_equal.
  rewrite (all_rounds_eq _ _ w fips_next w_pos); [by apply foldl_step_eq|intros; by apply is_word_wrap|apply next_word_eq|done..].
Qed.

Lemma length_foldl_step (l : list (Z * Z)) (r : list Z) : length (foldl sha2_step r l) = length r.
Proof. revert r. induction l as [|kx l IH]; intros r; cbn [foldl]; [done|]. by rewrite IH, length_sha2_step. Qed.

Lemma length_Transform_words (st ws : list Z) : length (Transform_words st ws) = length st.
Proof. unfold Transform_words, all_rounds. rewrite expand_rounds_eq, length_zip_with, !length_foldl_step. lia. Qed.

Lemma length_fips_compress (st ws : list Z) : length (fips_compress st ws) = length st.
Proof.
  unfold fips_compress. rewrite length_zip_with.
  assert (∀ l r, length (foldl fips_round r l) = length r) as ->; [|apply Nat.min_id].
  induction l as [|kx l IH]; intros r; cbn [foldl]; [done|]. rewrite IH.
  do 8 (destruct r as [|? r]; [done|]). by destruct r.
Qed.

Lemma Transform_words_words (st ws : list Z) : Forall (is_word w) (Transform_words st ws).
Proof. unfold Transform_words. apply Forall_lookup. intros i x Hx. apply lookup_zip_with_Some in Hx as (? & ? & -> & _). by apply is_word_wrap. Qed.
End Sha2.
