(* ===== verification/Hmac.v ===== *)
(** * HMAC over a streaming hasher ([src/src/crypto/hmac_sha256.cpp], [src/src/crypto/hmac_sha512.cpp])

    The two classes differ in the hasher and the block size only.  Whatever hasher
    computes a function on byte strings, the class computes HMAC of RFC 2104 over
    that function. *)

From Stdlib Require Import ZArith Lia.
From S2P Require Import Prelude Digest.

Open Scope Z_scope.
Open Scope word_scope.

Record CHMAC := { hmac_outer : hasher; hmac_inner : hasher }.

Section Hmac.
Variables blk out : nat.
Variable new : hasher.
Variable Write : list Z → hasher → hasher.
Variable Finalize : hasher → list Z.

Definition CHMAC_new (key : list Z) : CHMAC :=
  let rkey := if (length key <=? blk)%nat then key ++ replicate (blk - length key) 0
              else Finalize (Write key new) ++ replicate (blk - out) 0 in
  let rkey := (λ b, b .^ 0x5c) <$> rkey in
  let outer := Write rkey new in
  let rkey := (λ b, b .^ (0x5c .^ 0x36)) <$> rkey in
  {| hmac_outer := outer; hmac_inner := Write rkey new |}.

Definition CHMAC_Write (data : list Z) (h : CHMAC) : CHMAC :=
  {| hmac_outer := hmac_outer h; hmac_inner := Write data (hmac_inner h) |}.

Definition CHMAC_Finalize (h : CHMAC) : list Z := Finalize (Write (Finalize (hmac_inner h)) (hmac_outer h)).

(** ** The reference *)

Variable H : list Z → list Z.

(** The key is hashed if it is longer than a block, and padded with zeros. *)
Definition hmac_key (key : list Z) : list Z :=
  let k := if (length key <=? blk)%nat then key else H key in k ++ replicate (blk - length k) 0.

Definition hmac_reference (key m : list Z) : list Z :=
  H ((Z.lxor 0x5c <$> hmac_key key) ++ H ((Z.lxor 0x36 <$> hmac_key key) ++ m)).

(** ** Correctness, for a hasher of which [holds h m] says that it has taken in [m] *)

Variable holds : hasher → list Z → Prop.
Hypothesis new_holds : holds new [].
Hypothesis Write_holds : ∀ h m d, holds h m → holds (Write d h) (m ++ d).
Hypothesis Finalize_holds : ∀ h m, holds h m → bytes_ok m → Finalize h = H m.
Hypothesis length_H : ∀ m, length (H m) = out.
Hypothesis H_bytes : ∀ m, bytes_ok (H m).

Lemma writes_hold (h : hasher) (m : list Z) (ws : list (list Z)) :
  holds h m → holds (foldl (λ h d, Write d h) h ws) (m ++ concat ws).
Proof.
  revert h m. induction ws as [|d ws IH]; intros h m Hh; cbn [foldl concat]; [by rewrite app_nil_r|].
  rewrite app_assoc. by apply IH, Write_holds.
Qed.

Lemma hmac_key_bytes (key : list Z) : bytes_ok key → bytes_ok (hmac_key key).
Proof.
  intros Hk. unfold hmac_key. apply Forall_app. split; [|by apply Forall_replicate].
  destruct (_ <=? _)%nat; [done|apply H_bytes].
Qed.

(** The constructor leaves both hashers with the padded key xored with its constant. *)
Lemma CHMAC_new_holds (key : list Z) :
  bytes_ok key →
  holds (hmac_outer (CHMAC_new key)) (Z.lxor 0x5c <$> hmac_key key) ∧ holds (hmac_inner (CHMAC_new key)) (Z.lxor 0x36 <$> hmac_key key).
Proof.
  intros Hk. unfold CHMAC_new. cbn [hmac_outer hmac_inner].
  assert ((if (length key <=? blk)%nat then key ++ replicate (blk - length key) 0
           else Finalize (Write key new) ++ replicate (blk - out) 0) = hmac_key key) as ->.
  { unfold hmac_key. destruct (_ <=? _)%nat; [done|]. rewrite length_H.
    rewrite (Finalize_holds _ key); [done| |done]. by apply (Write_holds new []). }
  assert ((λ b, b .^ 0x5c) <$> hmac_key key = Z.lxor 0x5c <$> hmac_key key) as ->.
  { apply list_fmap_ext. intros _ b _. apply Z.lxor_comm. }
  assert ((λ b, b .^ (0x5c .^ 0x36)) <$> (Z.lxor 0x5c <$> hmac_key key) = Z.lxor 0x36 <$> hmac_key key) as ->.
  { rewrite <- list_fmap_compose. apply list_fmap_ext. intros _ b _. cbn [compose].
    rewrite (Z.lxor_comm 0x5c b), Z.lxor_assoc, <- (Z.lxor_assoc 0x5c 0x5c). rewrite Z.lxor_nilpotent, Z.lxor_0_l. apply Z.lxor_comm. }
  split; by apply (Write_holds new []).
Qed.

Lemma CHMAC_correct (key : list Z) (ws : list (list Z)) :
  bytes_ok key → Forall bytes_ok ws →
  CHMAC_Finalize (foldl (λ h d, CHMAC_Write d h) (CHMAC_new key) ws) = hmac_reference key (concat ws).
Proof.
  intros Hk Hws. destruct (CHMAC_new_holds key Hk) as [Ho Hi].
  assert (∀ h, foldl (λ h d, CHMAC_Write d h) h ws =
    {| hmac_outer := hmac_outer h; hmac_inner := foldl (λ h d, Write d h) (hmac_inner h) ws |}) as ->.
  { clear Hws. induction ws as [|d ws IH]; intros h; cbn [foldl]; [by destruct h|by rewrite IH]. }
  pose proof (hmac_key_bytes key Hk) as Hkb. unfold CHMAC_Finalize, hmac_reference. cbn [hmac_outer hmac_inner].
  rewrite (Finalize_holds (foldl _ _ _) ((Z.lxor 0x36 <$> hmac_key key) ++ concat ws));
    [|by apply writes_hold|apply Forall_app; split; [by apply xor_bytes|by apply Forall_concat]].
  apply Finalize_holds; [by apply Write_holds|].
  apply Forall_app. split; [by apply xor_bytes|apply H_bytes].
Qed.
End Hmac.
