(* ===== verification/Sha512.v ===== *)
(** * SHA-512 and HMAC-SHA-512 ([src/src/crypto/sha512.cpp], [src/src/crypto/hmac_sha512.cpp])

    The hasher class with its streaming interface and the message authentication
    code built on it. *)

From Stdlib Require Import ZArith Lia.
From S2P Require Import Prelude Common Digest HashRef Sha2 Hmac.

Open Scope Z_scope.
Open Scope word_scope.

Module sha512.
Definition Ch (x y z : Z) : Z := z .^ (x .& (y .^ z)).
Definition Maj (x y z : Z) : Z := (x .& y) .| (z .& (x .| y)).
Definition Sigma0 (x : Z) : Z := ((x .>> 28) .| u64 (x .<< 36)) .^ ((x .>> 34) .| u64 (x .<< 30)) .^ ((x .>> 39) .| u64 (x .<< 25)).
Definition Sigma1 (x : Z) : Z := ((x .>> 14) .| u64 (x .<< 50)) .^ ((x .>> 18) .| u64 (x .<< 46)) .^ ((x .>> 41) .| u64 (x .<< 23)).
Definition sigma0 (x : Z) : Z := ((x .>> 1) .| u64 (x .<< 63)) .^ ((x .>> 8) .| u64 (x .<< 56)) .^ (x .>> 7).
Definition sigma1 (x : Z) : Z := ((x .>> 19) .| u64 (x .<< 45)) .^ ((x .>> 61) .| u64 (x .<< 3)) .^ (x .>> 6).

(** The state of [Initialize]. *)
Definition Initialize : list Z :=
  [0x6a09e667f3bcc908; 0xbb67ae8584caa73b; 0x3c6ef372fe94f82b; 0xa54ff53a5f1d36f1;
   0x510e527fade682d1; 0x9b05688c2b3e6c1f; 0x1f83d9abfb41bd6b; 0x5be0cd19137e2179].

(** The constants of the lines of [Transform]. *)
Definition K : list Z :=
  [0x428a2f98d728ae22; 0x7137449123ef65cd; 0xb5c0fbcfec4d3b2f; 0xe9b5dba58189dbbc;
   0x3956c25bf348b538; 0x59f111f1b605d019; 0x923f82a4af194f9b; 0xab1c5ed5da6d8118;
   0xd807aa98a3030242; 0x12835b0145706fbe; 0x243185be4ee4b28c; 0x550c7dc3d5ffb4e2;
   0x72be5d74f27b896f; 0x80deb1fe3b1696b1; 0x9bdc06a725c71235; 0xc19bf174cf692694;
   0xe49b69c19ef14ad2; 0xefbe4786384f25e3; 0x0fc19dc68b8cd5b5; 0x240ca1cc77ac9c65;
   0x2de92c6f592b0275; 0x4a7484aa6ea6e483; 0x5cb0a9dcbd41fbd4; 0x76f988da831153b5;
   0x983e5152ee66dfab; 0xa831c66d2db43210; 0xb00327c898fb213f; 0xbf597fc7beef0ee4;
   0xc6e00bf33da88fc2; 0xd5a79147930aa725; 0x06ca6351e003826f; 0x142929670a0e6e70;
   0x27b70a8546d22ffc; 0x2e1b21385c26c926; 0x4d2c6dfc5ac42aed; 0x53380d139d95b3df;
   0x650a73548baf63de; 0x766a0abb3c77b2a8; 0x81c2c92e47edaee6; 0x92722c851482353b;
   0xa2bfe8a14cf10364; 0xa81a664bbc423001; 0xc24b8b70d0f89791; 0xc76c51a30654be30;
   0xd192e819d6ef5218; 0xd69906245565a910; 0xf40e35855771202a; 0x106aa07032bbd1b8;
   0x19a4c116b8d2d0c8; 0x1e376c085141ab53; 0x2748774cdf8eeb99; 0x34b0bcb5e19b48a8;
   0x391c0cb3c5c95a63; 0x4ed8aa4ae3418acb; 0x5b9cca4f7763e373; 0x682e6ff3d6b2b8a3;
   0x748f82ee5defb2fc; 0x78a5636f43172f60; 0x84c87814a1f0ab72; 0x8cc702081a6439ec;
   0x90befffa23631e28; 0xa4506cebde82bde9; 0xbef9a3f7b2c67915; 0xc67178f2e372532b;
   0xca273eceea26619c; 0xd186b8c721c0c207; 0xeada7dd6cde0eb1e; 0xf57d4f7fee6ed178;
   0x06f067aa72176fba; 0x0a637dc5a2c898a6; 0x113f9804bef90dae; 0x1b710b35131c471b;
   0x28db77f523047d84; 0x32caab7b40c72493; 0x3c9ebe0a15c9bebc; 0x431d67c49c100d4c;
   0x4cc5d4becb3e42b6; 0x597f299cfc657e2a; 0x5fcb6fab3ad6faec; 0x6c44198c4a475817].

(** The sixteen words of the chunk. *)
Definition chunk_words (chunk : list Z) : list Z := (λ i, ReadBE64 (drop (8 * i) chunk)) <$> seq 0 16.

Definition Transform (st chunk : list Z) : list Z := Transform_words 64 Ch Maj Sigma0 Sigma1 sigma0 sigma1 K st (chunk_words chunk).
End sha512.

(** ** The class *)

(** A new or reset object; the constructor leaves the buffer as it is. *)
Definition CSHA512_init (buf : list Z) : hasher := MkHasher sha512.Initialize buf 0.
Definition CSHA512 : hasher := CSHA512_init (replicate 128 0).
Definition CSHA512_Reset (h : hasher) : hasher := CSHA512_init (h_buf h).
Definition CSHA512_Write (data : list Z) (h : hasher) : hasher := Write_while 128 sha512.Transform data h.

(** The length takes the last eight of sixteen bytes. *)
Definition sizedesc512 (bits : Z) : list Z := replicate 8 0 ++ WriteBE64 bits.
Definition CSHA512_Finalize (h : hasher) : list Z := concat (WriteBE64 <$> Finalize_state 128 CSHA512_Write 239 sizedesc512 h).

(** ** HMAC *)

Definition CHMAC_SHA512_new (key : list Z) : CHMAC := CHMAC_new 128 64 CSHA512 CSHA512_Write CSHA512_Finalize key.
Definition CHMAC_SHA512_Write (data : list Z) (h : CHMAC) : CHMAC := CHMAC_Write CSHA512_Write data h.
Definition CHMAC_SHA512_Finalize (h : CHMAC) : list Z := CHMAC_Finalize CSHA512_Write CSHA512_Finalize h.

(** ** The standard *)

Definition fips512_Sigma0 (x : Z) : Z := rotr 64 28 x .^ rotr 64 34 x .^ rotr 64 39 x.
Definition fips512_Sigma1 (x : Z) : Z := rotr 64 14 x .^ rotr 64 18 x .^ rotr 64 41 x.
Definition fips512_sigma0 (x : Z) : Z := rotr 64 1 x .^ rotr 64 8 x .^ x / 2 ^ 7.
Definition fips512_sigma1 (x : Z) : Z := rotr 64 19 x .^ rotr 64 61 x .^ x / 2 ^ 6.

(** The fractional parts of the cube roots of the first eighty primes, and of the square roots of the first eight. *)
Definition fips512_K : list Z := frac_cbrt 64 <$> first_primes 80.
Definition fips512_H0 : list Z := frac_sqrt 64 <$> first_primes 8.

Definition fips512_block (st chunk : list Z) : list Z :=
  fips_compress 64 fips512_K fips512_Sigma0 fips512_Sigma1 fips512_sigma0 fips512_sigma1 st (block_words be_number 8 chunk).

Definition fips_SHA512 (m : list Z) : list Z := concat (be_bytes 8 <$> std_digest 128 be_bytes fips512_block fips512_H0 m).

Lemma sha512_K_roots : sha512.K = fips512_K.
Proof. vm_compute. reflexivity. Qed.

Lemma sha512_Initialize_roots : sha512.Initialize = fips512_H0.
Proof. vm_compute. reflexivity. Qed.

Lemma sha512_chunk_words_of (chunk : list Z) : sha512.chunk_words chunk = block_words be_number 8 chunk.
Proof. apply list_fmap_ext. intros _ i _. unfold ReadBE64. by rewrite be_number_val. Qed.

Lemma sizedesc512_of (z : Z) : is_word 64 z → sizedesc512 z = be_bytes 16 z.
Proof.
  intros Hz. unfold sizedesc512, WriteBE64. rewrite be_bytes_digits, <- (reverse_replicate 8 0), <- reverse_app. f_equal.
  apply (le_val_inj 8); [lia|by rewrite length_app, !length_le_digits|apply Forall_app; split; [by apply le_digits_words|by apply Forall_replicate]|by apply le_digits_words|].
  rewrite le_val_app, le_val_replicate0, !le_val_le_digits, Z.mul_0_r, Z.add_0_r by lia. unfold u64, wrap. rewrite Z.mod_mod by lia.
  rewrite !Z.mod_small; [done|split; [apply Hz|]; eapply Z.lt_le_trans; [apply Hz|]; apply Z.pow_le_mono_r; lia|exact Hz].
Qed.

#[local] Opaque sha512.K fips512_K.

(** ** The class computes the standard *)

Lemma sha512_chunk_words_take (chunk : list Z) : sha512.chunk_words (take 128 chunk) = sha512.chunk_words chunk.
Proof.
  unfold sha512.chunk_words. apply list_fmap_ext. intros j i [-> Hi]%lookup_seq.
  unfold ReadBE64. rewrite !take_drop_commute, take_take. do 4 f_equal. lia.
Qed.

Lemma sha512_Transform_take (st chunk : list Z) : sha512.Transform st (take 128 chunk) = sha512.Transform st chunk.
Proof. unfold sha512.Transform. by rewrite sha512_chunk_words_take. Qed.

(** For every table, so that the constants are never unfolded. *)
Lemma sha512_words_ok (K st ws : list Z) :
  (16 ≤ length K)%nat → length ws = 16%nat → Forall (is_word 64) ws → Forall (is_word 64) st →
  Transform_words 64 sha512.Ch sha512.Maj sha512.Sigma0 sha512.Sigma1 sha512.sigma0 sha512.sigma1 K st ws =
    fips_compress 64 K fips512_Sigma0 fips512_Sigma1 fips512_sigma0 fips512_sigma1 st ws.
Proof.
  intros HK Hl Hw Hst. apply Transform_words_eq; try done;
    try (intros x Hx; unfold sha512.Sigma0, sha512.Sigma1, sha512.sigma0, sha512.sigma1, u64;
         rewrite ?shr_div with (n := 7), ?shr_div with (n := 6) by lia;
         by rewrite ?(shift_rotr 64 28), ?(shift_rotr 64 34), ?(shift_rotr 64 39), ?(shift_rotr 64 14), ?(shift_rotr 64 18),
           ?(shift_rotr 64 41), ?(shift_rotr 64 1), ?(shift_rotr 64 8), ?(shift_rotr 64 19), ?(shift_rotr 64 61) by (done || lia)).
  - apply Ch_bits.
  - apply Maj_bits.
Qed.

Lemma sha512_Transform_ok (st chunk : list Z) :
  Forall (is_word 64) st → bytes_ok chunk →
  sha512.Transform st chunk = fips512_block st chunk ∧ Forall (is_word 64) (sha512.Transform st chunk).
Proof.
  intros Hst Hc. unfold sha512.Transform, fips512_block. split; [|apply Transform_words_words; lia].
  rewrite <- sha512_K_roots, <- sha512_chunk_words_of.
  apply sha512_words_ok; [|apply length_fmap| |exact Hst].
  - assert (length sha512.K = 80%nat) as -> by (vm_compute; reflexivity). lia.
  - apply Forall_fmap, Forall_forall. intros i _. by apply ReadBE64_range, Forall_drop.
Qed.

Abbreviation sha512_absorbed := (absorbed 128 sha512.Transform sha512.Initialize).

Lemma CSHA512_Write_absorbed (h : hasher) (m d : list Z) : sha512_absorbed h m → sha512_absorbed (CSHA512_Write d h) (m ++ d).
Proof. apply Write_while_absorbed; [lia|apply sha512_Transform_take|apply divides_128]. Qed.

Lemma CSHA512_absorbed : sha512_absorbed CSHA512 [].
Proof. by apply absorbed_new. Qed.

Lemma sizedesc512_bytes (z : Z) : bytes_ok (sizedesc512 z).
Proof. apply Forall_app. split; [by apply Forall_replicate|apply WriteBE64_bytes]. Qed.

Lemma fips_SHA512_digest (m : list Z) :
  fips_SHA512 m = concat (WriteBE64 <$> digest 128 fips512_block sha512.Initialize 239 sizedesc512 m).
Proof.
  unfold fips_SHA512. rewrite sha512_Initialize_roots, (std_digest_eq 128 be_bytes fips512_block fips512_H0 239 sizedesc512); [|lia|by exists 1|apply sizedesc512_of].
  f_equal. apply list_fmap_ext. intros _ z _. by rewrite WriteBE64_bytes_of.
Qed.

Lemma CSHA512_Finalize_absorbed (h : hasher) (m : list Z) : sha512_absorbed h m → bytes_ok m → CSHA512_Finalize h = fips_SHA512 m.
Proof.
  intros Hh Hm. rewrite fips_SHA512_digest. unfold CSHA512_Finalize. do 2 f_equal.
  apply (Finalize_ext 128 (Forall (is_word 64)) sha512.Transform); [lia|..|exact Hm|exact Hh].
  - apply sha512_Transform_take.
  - apply divides_128.
  - apply CSHA512_Write_absorbed.
  - apply sha512_Transform_ok.
  - apply sizedesc512_bytes.
  - by repeat (constructor; [done|]).
Qed.

Lemma length_fips_SHA512 (m : list Z) : length (fips_SHA512 m) = 64%nat.
Proof.
  rewrite fips_SHA512_digest, (length_concat_const _ 8) by apply length_WriteBE64.
  rewrite length_digest; [done|]. intros st chunk. unfold fips512_block. by rewrite length_fips_compress.
Qed.

Lemma fips_SHA512_bytes (m : list Z) : bytes_ok (fips_SHA512 m).
Proof. rewrite fips_SHA512_digest. apply Forall_concat_fmap, WriteBE64_bytes. Qed.

(** The digest of the three letters abc. *)
Lemma CSHA512_abc :
  CSHA512_Finalize (CSHA512_Write [0x61; 0x62; 0x63] CSHA512) =
    concat (WriteBE64 <$> [0xddaf35a193617aba; 0xcc417349ae204131; 0x12e6fa4e89a97ea2; 0x0a9eeee64b55d39a;
                           0x2192992a274fc1a8; 0x36ba3c23a3feebbd; 0x454d4423643ce80e; 0x2a9ac94fa54ca49f]).
Proof. vm_compute. reflexivity. Qed.

(** ** Properties *)

(** the hasher is SHA-512 of the standard whatever pieces the message is written in.  From any new or reset
    object, whose buffer may hold anything, the digest after any sequence of writes is the one FIPS
    180-4 gives for their concatenation, and has 64 bytes. *)
Theorem SHA512_streaming (buf : list Z) (ws : list (list Z)) :
  length buf = 128%nat → Forall bytes_ok ws →
  CSHA512_Finalize (foldl (λ h d, CSHA512_Write d h) (CSHA512_init buf) ws) = fips_SHA512 (concat ws) ∧
  length (fips_SHA512 (concat ws)) = 64%nat.
Proof.
  intros Hb Hws. split; [|apply length_fips_SHA512].
  apply CSHA512_Finalize_absorbed; [|by apply Forall_concat].
  apply (writes_hold _ _ CSHA512_Write_absorbed _ []). by apply absorbed_new.
Qed.

(** the message authentication code is HMAC of RFC 2104 over SHA-512, for every key and every sequence of writes. *)
Theorem HMAC_SHA512_correct (key : list Z) (ws : list (list Z)) :
  bytes_ok key → Forall bytes_ok ws →
  CHMAC_SHA512_Finalize (foldl (λ h d, CHMAC_SHA512_Write d h) (CHMAC_SHA512_new key) ws) = hmac_reference 128 fips_SHA512 key (concat ws).
Proof.
  apply (CHMAC_correct 128 64 _ _ _ _ sha512_absorbed CSHA512_absorbed CSHA512_Write_absorbed CSHA512_Finalize_absorbed
           length_fips_SHA512 fips_SHA512_bytes).
Qed.

(** ** Witnesses *)

Lemma SHA512_streaming_witness :
  CSHA512_Finalize (CSHA512_Write (replicate 130 7) (CSHA512_Write [1; 2; 3] CSHA512)) = fips_SHA512 ([1; 2; 3] ++ replicate 130 7).
Proof.
  destruct (SHA512_streaming (replicate 128 0) [[1; 2; 3]; replicate 130 7]) as [E _]; [reflexivity| |exact E].
  constructor; [by apply bytes_okb_ok|]. constructor; [by apply bytes_okb_ok|constructor].
Defined.

Lemma HMAC_SHA512_correct_witness :
  CHMAC_SHA512_Finalize (CHMAC_SHA512_Write [1; 2; 3] (CHMAC_SHA512_new (replicate 140 9))) =
    hmac_reference 128 fips_SHA512 (replicate 140 9) [1; 2; 3].
Proof.
  apply (HMAC_SHA512_correct (replicate 140 9) [[1; 2; 3]]); [by apply bytes_okb_ok|].
  constructor; [by apply bytes_okb_ok|constructor].
Defined.
