(* ===== verification/Sha256.v ===== *)
(** * SHA-256 and HMAC-SHA-256 ([src/src/crypto/sha256.cpp], [src/src/crypto/hmac_sha256.cpp])

    The hasher class with its streaming interface, the self test run at start-up,
    and the message authentication code built on it.  The self test succeeds.  The
    assembler version of the transformation is not modelled. *)

From Stdlib Require Import ZArith Lia.
From S2P Require Import Prelude Common Digest HashRef Sha2 Hmac Sha512.

Open Scope Z_scope.
Open Scope word_scope.

Module sha256.
Definition Ch (x y z : Z) : Z := z .^ (x .& (y .^ z)).
Definition Maj (x y z : Z) : Z := (x .& y) .| (z .& (x .| y)).
Definition Sigma0 (x : Z) : Z := ((x .>> 2) .| u32 (x .<< 30)) .^ ((x .>> 13) .| u32 (x .<< 19)) .^ ((x .>> 22) .| u32 (x .<< 10)).
Definition Sigma1 (x : Z) : Z := ((x .>> 6) .| u32 (x .<< 26)) .^ ((x .>> 11) .| u32 (x .<< 21)) .^ ((x .>> 25) .| u32 (x .<< 7)).
Definition sigma0 (x : Z) : Z := ((x .>> 7) .| u32 (x .<< 25)) .^ ((x .>> 18) .| u32 (x .<< 14)) .^ (x .>> 3).
Definition sigma1 (x : Z) : Z := ((x .>> 17) .| u32 (x .<< 15)) .^ ((x .>> 19) .| u32 (x .<< 13)) .^ (x .>> 10).

(** The state of [Initialize]. *)
Definition Initialize : list Z :=
  [0x6a09e667; 0xbb67ae85; 0x3c6ef372; 0xa54ff53a; 0x510e527f; 0x9b05688c; 0x1f83d9ab; 0x5be0cd19].

(** The constants of the lines of [Transform], 0x428a2f98 to 0xc67178f2: each is the upper half of that of SHA-512. *)
Definition K : list Z := Eval vm_compute in (λ k, k .>> 32) <$> take 64 sha512.K.

(** The sixteen words of the chunk. *)
Definition chunk_words (chunk : list Z) : list Z := (λ i, ReadBE32 (drop (4 * i) chunk)) <$> seq 0 16.

(** One transformation; [Transform] with its number of blocks is [Transform_blocks]. *)
Definition Transform1 (st chunk : list Z) : list Z := Transform_words 32 Ch Maj Sigma0 Sigma1 sigma0 sigma1 K st (chunk_words chunk).
Definition Transform (st chunk : list Z) (blocks : nat) : list Z := Transform_blocks 64 Transform1 st chunk blocks.
End sha256.

(** [SelfTest] of a transformation. *)
Definition SelfTest (tr : list Z → list Z → nat → list Z) : bool :=
  let in1 := [0; 0x80] ++ replicate 63 0 in
  let in2 := [0] ++ replicate 64 32 ++ [0x80] ++ replicate 61 0 ++ [2; 0] in
  let out1 := [0xe3b0c442; 0x98fc1c14; 0x9afbf4c8; 0x996fb924; 0x27ae41e4; 0x649b934c; 0xa495991b; 0x7852b855] in
  let out2 := [0xce4153b0; 0x147c2a86; 0x3ed4298e; 0xe0676bc8; 0x79fc77a1; 0x2abe1f49; 0xb2b055df; 0x1069523e] in
  let b0 := tr sha256.Initialize [] 0%nat in
  if negb (bool_decide (b0 = sha256.Initialize)) then false
  else if negb (bool_decide (tr b0 (drop 1 in1) 1%nat = out1)) then false
  else if negb (bool_decide (tr sha256.Initialize (drop 1 in2) 2%nat = out2)) then false
  else true.

(** ** The class *)

(** A new or reset object; the constructor leaves the buffer as it is. *)
Definition CSHA256_init (buf : list Z) : hasher := MkHasher sha256.Initialize buf 0.
Definition CSHA256 : hasher := CSHA256_init (replicate 64 0).
Definition CSHA256_Reset (h : hasher) : hasher := CSHA256_init (h_buf h).
Definition CSHA256_Write (data : list Z) (h : hasher) : hasher := Write_blocks 64 sha256.Transform1 data h.
Definition CSHA256_Finalize (h : hasher) : list Z := concat (WriteBE32 <$> Finalize_state 64 CSHA256_Write 119 WriteBE64 h).

(** ** HMAC *)

Definition CHMAC_SHA256_new (key : list Z) : CHMAC := CHMAC_new 64 32 CSHA256 CSHA256_Write CSHA256_Finalize key.
Definition CHMAC_SHA256_Write (data : list Z) (h : CHMAC) : CHMAC := CHMAC_Write CSHA256_Write data h.
Definition CHMAC_SHA256_Finalize (h : CHMAC) : list Z := CHMAC_Finalize CSHA256_Write CSHA256_Finalize h.

(** ** The standard *)

Definition fips_Sigma0 (x : Z) : Z := rotr 32 2 x .^ rotr 32 13 x .^ rotr 32 22 x.
Definition fips_Sigma1 (x : Z) : Z := rotr 32 6 x .^ rotr 32 11 x .^ rotr 32 25 x.
Definition fips_sigma0 (x : Z) : Z := rotr 32 7 x .^ rotr 32 18 x .^ x / 2 ^ 3.
Definition fips_sigma1 (x : Z) : Z := rotr 32 17 x .^ rotr 32 19 x .^ x / 2 ^ 10.

(** The fractional parts of the cube roots of the first 64 primes, and of the square roots of the first eight. *)
Definition fips256_K : list Z := frac_cbrt 32 <$> first_primes 64.
Definition fips256_H0 : list Z := frac_sqrt 32 <$> first_primes 8.

Definition fips_block (st chunk : list Z) : list Z :=
  fips_compress 32 fips256_K fips_Sigma0 fips_Sigma1 fips_sigma0 fips_sigma1 st (block_words be_number 4 chunk).

Definition fips_SHA256 (m : list Z) : list Z := concat (be_bytes 4 <$> std_digest 64 be_bytes fips_block fips256_H0 m).

Lemma sha256_K_roots : sha256.K = fips256_K.
Proof. vm_compute. reflexivity. Qed.

Lemma sha256_Initialize_roots : sha256.Initialize = fips256_H0.
Proof. vm_compute. reflexivity. Qed.

(** The transformation passes the self test of the source. *)
Lemma SelfTest_ok : SelfTest sha256.Transform = true.
Proof. vm_compute. reflexivity. Qed.

Lemma sha256_chunk_words_of (chunk : list Z) : sha256.chunk_words chunk = block_words be_number 4 chunk.
Proof. apply list_fmap_ext. intros _ i _. unfold ReadBE32. by rewrite be_number_val. Qed.

#[local] Opaque sha256.K fips256_K.

Lemma sha256_chunk_words_take (chunk : list Z) : sha256.chunk_words (take 64 chunk) = sha256.chunk_words chunk.
Proof.
  unfold sha256.chunk_words. apply list_fmap_ext. intros j i [-> Hi]%lookup_seq.
  unfold ReadBE32. rewrite !take_drop_commute, take_take. do 4 f_equal. lia.
Qed.

Lemma sha256_chunk_words_words (chunk : list Z) : bytes_ok chunk → Forall (is_word 32) (sha256.chunk_words chunk).
Proof. intros Hc. apply Forall_fmap, Forall_forall. intros i _. by apply ReadBE32_range, Forall_drop. Qed.

(** For every table, so that the constants are never unfolded. *)
Lemma sha256_words_ok (K st ws : list Z) :
  (16 ≤ length K)%nat → length ws = 16%nat → Forall (is_word 32) ws → Forall (is_word 32) st →
  Transform_words 32 sha256.Ch sha256.Maj sha256.Sigma0 sha256.Sigma1 sha256.sigma0 sha256.sigma1 K st ws =
    fips_compress 32 K fips_Sigma0 fips_Sigma1 fips_sigma0 fips_sigma1 st ws.
Proof.
  intros HK Hl Hw Hst. apply Transform_words_eq; try done;
    try (intros x Hx; unfold sha256.Sigma0, sha256.Sigma1, sha256.sigma0, sha256.sigma1, u32;
         rewrite ?shr_div with (n := 3), ?shr_div with (n := 10) by lia;
         by rewrite ?(shift_rotr 32 2), ?(shift_rotr 32 13), ?(shift_rotr 32 22), ?(shift_rotr 32 6), ?(shift_rotr 32 11),
           ?(shift_rotr 32 25), ?(shift_rotr 32 7), ?(shift_rotr 32 18), ?(shift_rotr 32 17), ?(shift_rotr 32 19) by (done || lia)).
  - apply Ch_bits.
  - apply Maj_bits.
Qed.

Lemma sha256_Transform1_ok (st chunk : list Z) :
  Forall (is_word 32) st → bytes_ok chunk →
  sha256.Transform1 st chunk = fips_block st chunk ∧ Forall (is_word 32) (sha256.Transform1 st chunk).
Proof.
  intros Hst Hc. unfold sha256.Transform1, fips_block. split; [|apply Transform_words_words; lia].
  rewrite <- sha256_K_roots, <- sha256_chunk_words_of.
  apply sha256_words_ok; [|apply length_fmap|by apply sha256_chunk_words_words|exact Hst].
  assert (length sha256.K = 64%nat) as -> by (vm_compute; reflexivity). lia.
Qed.

(** ** The class computes the standard *)

Lemma sha256_Transform1_take (st chunk : list Z) : sha256.Transform1 st (take 64 chunk) = sha256.Transform1 st chunk.
Proof. unfold sha256.Transform1. by rewrite sha256_chunk_words_take. Qed.

Abbreviation sha256_absorbed := (absorbed 64 sha256.Transform1 sha256.Initialize).

Lemma CSHA256_Write_absorbed (h : hasher) (m d : list Z) : sha256_absorbed h m → sha256_absorbed (CSHA256_Write d h) (m ++ d).
Proof. apply Write_blocks_absorbed; [apply Nat.lt_0_succ|apply sha256_Transform1_take|apply divides_64]. Qed.

Lemma CSHA256_absorbed : sha256_absorbed CSHA256 [].
Proof. by apply absorbed_new. Qed.

Lemma fips_SHA256_digest (m : list Z) : fips_SHA256 m = concat (WriteBE32 <$> digest 64 fips_block sha256.Initialize 119 WriteBE64 m).
Proof.
  unfold fips_SHA256. rewrite sha256_Initialize_roots, (std_digest_eq 64 be_bytes fips_block fips256_H0 119 WriteBE64);
    [|lia|by exists 1|intros z _; apply WriteBE64_bytes_of].
  f_equal. apply list_fmap_ext. intros _ z _. by rewrite WriteBE32_bytes_of.
Qed.

Lemma CSHA256_Finalize_absorbed (h : hasher) (m : list Z) :
  sha256_absorbed h m → bytes_ok m → CSHA256_Finalize h = fips_SHA256 m.
Proof.
  intros Hh Hm. rewrite fips_SHA256_digest. unfold CSHA256_Finalize. do 2 f_equal.
  apply (Finalize_ext 64 (Forall (is_word 32)) sha256.Transform1); try done.
  - apply Nat.lt_0_succ.
  - apply sha256_Transform1_take.
  - apply divides_64.
  - apply CSHA256_Write_absorbed.
  - intros st chunk Hst Hc. by apply sha256_Transform1_ok.
  - apply WriteBE64_bytes.
  - by repeat (constructor; [done|]).
Qed.

Lemma length_fips_SHA256 (m : list Z) : length (fips_SHA256 m) = 32%nat.
Proof.
  rewrite fips_SHA256_digest, (length_concat_const _ 4) by apply length_WriteBE32.
  rewrite length_digest; [done|]. intros st chunk. unfold fips_block. by rewrite length_fips_compress.
Qed.

Lemma fips_SHA256_bytes (m : list Z) : bytes_ok (fips_SHA256 m).
Proof. rewrite fips_SHA256_digest. apply Forall_concat_fmap, WriteBE32_bytes. Qed.

(** ** Properties *)

(** the hasher is SHA-256 of the standard whatever pieces the message is written in.  From any new or reset
    object, whose buffer may hold anything, the digest after any sequence of writes is the one FIPS
    180-4 gives for their concatenation, and has 32 bytes. *)
Theorem SHA256_streaming (buf : list Z) (ws : list (list Z)) :
  length buf = 64%nat → Forall bytes_ok ws →
  CSHA256_Finalize (foldl (λ h d, CSHA256_Write d h) (CSHA256_init buf) ws) = fips_SHA256 (concat ws) ∧
  length (fips_SHA256 (concat ws)) = 32%nat.
Proof.
  intros Hb Hws. split; [|by apply length_fips_SHA256].
  apply CSHA256_Finalize_absorbed; [|by apply Forall_concat].
  apply (writes_hold _ _ CSHA256_Write_absorbed _ []). by apply absorbed_new.
Qed.

(** the message authentication code is HMAC of RFC 2104 over SHA-256, for every key and every sequence of writes. *)
Theorem HMAC_SHA256_correct (key : list Z) (ws : list (list Z)) :
  bytes_ok key → Forall bytes_ok ws →
  CHMAC_SHA256_Finalize (foldl (λ h d, CHMAC_SHA256_Write d h) (CHMAC_SHA256_new key) ws) = hmac_reference 64 fips_SHA256 key (concat ws).
Proof.
  apply (CHMAC_correct 64 32 _ _ _ _ sha256_absorbed CSHA256_absorbed CSHA256_Write_absorbed CSHA256_Finalize_absorbed
           length_fips_SHA256 fips_SHA256_bytes).
Qed.

(** ** Witnesses *)

Lemma SHA256_streaming_witness :
  CSHA256_Finalize (CSHA256_Write (replicate 70 7) (CSHA256_Write [1; 2; 3] CSHA256)) = fips_SHA256 ([1; 2; 3] ++ replicate 70 7).
Proof.
  destruct (SHA256_streaming (replicate 64 0) [[1; 2; 3]; replicate 70 7]) as [E _]; [reflexivity| |exact E].
  constructor; [by apply bytes_okb_ok|]. constructor; [by apply bytes_okb_ok|constructor].
Defined.

Lemma HMAC_SHA256_correct_witness :
  CHMAC_SHA256_Finalize (CHMAC_SHA256_Write [1; 2; 3] (CHMAC_SHA256_new (replicate 70 9))) =
    hmac_reference 64 fips_SHA256 (replicate 70 9) [1; 2; 3].
Proof.
  apply (HMAC_SHA256_correct (replicate 70 9) [[1; 2; 3]]); [by apply bytes_okb_ok|].
  constructor; [by apply bytes_okb_ok|constructor].
Defined.
