(* ===== verification/Sha1.v ===== *)
(** * SHA-1 ([src/src/crypto/sha1.cpp])

    The hasher class, and its equality with SHA-1 of FIPS 180-4.  The eighty lines
    of [Transform] are steps of a loop that rotates the registers, as in SHA-2. *)

From Stdlib Require Import ZArith Lia.
From S2P Require Import Prelude Common Digest HashRef Sha2 Hmac.

Open Scope Z_scope.
Open Scope word_scope.

Module sha1.
(** One round: the new values of [b] and [e]. *)
Definition Round (a b c d e f k x : Z) : Z * Z :=
  ((u32 (b .<< 30) .| (b .>> 2)), u32 (e + ((u32 (a .<< 5) .| (a .>> 27)) + f + k + x))).

Definition f1 (b c d : Z) : Z := d .^ (b .& (c .^ d)).
Definition f2 (b c d : Z) : Z := b .^ c .^ d.
Definition f3 (b c d : Z) : Z := (b .& c) .| (d .& (b .| c)).
Definition left (x : Z) : Z := u32 (x .<< 1) .| (x .>> 31).

Definition Initialize : list Z := [0x67452301; 0xEFCDAB89; 0x98BADCFE; 0x10325476; 0xC3D2E1F0].

Definition k1 : Z := 0x5A827999.
Definition k2 : Z := 0x6ED9EBA1.
Definition k3 : Z := 0x8F1BBCDC.
Definition k4 : Z := 0xCA62C1D6.

(** The function and the constant of each line. *)
Definition lines : list ((Z → Z → Z → Z) * Z) :=
  replicate 20 (f1, k1) ++ replicate 20 (f2, k2) ++ replicate 20 (f3, k3) ++ replicate 20 (f2, k4).

(** A line; the next one starts with the last register. *)
Definition step (r : list Z) (kx : (Z → Z → Z → Z) * Z * Z) : list Z :=
  match r with
  | [a; b; c; d; e] => let '(b', e) := Round a b c d e (kx.1.1 b c d) kx.1.2 kx.2 in [e; a; b'; c; d]
  | _ => r
  end.

(** [w0 = left(w0 ^ w13 ^ w8 ^ w2)], the words renamed like the registers. *)
Definition next_word (ws : list Z) : Z := left (ws.[0] .^ ws.[13] .^ ws.[8] .^ ws.[2]).

Definition chunk_words (chunk : list Z) : list Z := (λ i, ReadBE32 (drop (4 * i) chunk)) <$> seq 0 16.

Definition Transform (st chunk : list Z) : list Z :=
  zip_with (λ x y, u32 (x + y)) st (all_rounds step next_word lines (chunk_words chunk) st).
End sha1.

(** A new or reset object; the constructor leaves the buffer as it is. *)
Definition CSHA1_init (buf : list Z) : hasher := MkHasher sha1.Initialize buf 0.
Definition CSHA1 : hasher := CSHA1_init (replicate 64 0).
Definition CSHA1_Reset (h : hasher) : hasher := CSHA1_init (h_buf h).
Definition CSHA1_Write (data : list Z) (h : hasher) : hasher := Write_while 64 sha1.Transform data h.
Definition CSHA1_Finalize (h : hasher) : list Z := concat (WriteBE32 <$> Finalize_state 64 CSHA1_Write 119 WriteBE64 h).

(** ** The standard *)

(** Rotation to the left in a word of [w] bits. *)
Definition rotl (w n x : Z) : Z := rotr w (w - n) x.

Definition parity (x y z : Z) : Z := x .^ y .^ z.

Definition fips1_round (r : list Z) (kx : (Z → Z → Z → Z) * Z * Z) : list Z :=
  match r with
  | [a; b; c; d; e] => [u32 (rotl 32 5 a + kx.1.1 b c d + e + kx.1.2 + kx.2); a; rotl 32 30 b; c; d]
  | _ => r
  end.

Definition fips1_lines : list ((Z → Z → Z → Z) * Z) :=
  replicate 20 (fips_Ch, root2_30 2) ++ replicate 20 (parity, root2_30 3) ++ replicate 20 (fips_Maj, root2_30 5) ++
  replicate 20 (parity, root2_30 10).

Definition fips1_next (W : list Z) : Z :=
  let t := length W in rotl 32 1 (W.[t - 3] .^ W.[t - 8] .^ W.[t - 14] .^ W.[t - 16]).

Definition fips1_block (st chunk : list Z) : list Z :=
  zip_with (λ x y, u32 (x + y)) st (foldl fips1_round st (zip fips1_lines (schedule fips1_next 64 (block_words be_number 4 chunk)))).

Definition fips_SHA1 (m : list Z) : list Z := concat (be_bytes 4 <$> std_digest 64 be_bytes fips1_block md_H0 m).

Lemma sha1_chunk_words_of (chunk : list Z) : sha1.chunk_words chunk = block_words be_number 4 chunk.
Proof. apply list_fmap_ext. intros _ i _. unfold ReadBE32. by rewrite be_number_val. Qed.

Lemma fips_SHA1_digest (m : list Z) : fips_SHA1 m = concat (WriteBE32 <$> digest 64 fips1_block sha1.Initialize 119 WriteBE64 m).
Proof.
  unfold fips_SHA1. change sha1.Initialize with md_H0. rewrite (std_digest_eq 64 be_bytes fips1_block md_H0 119 WriteBE64);
    [|lia|by exists 1|intros z _; apply WriteBE64_bytes_of].
  f_equal. apply list_fmap_ext. intros _ z _. by rewrite WriteBE32_bytes_of.
Qed.

(** ** The class computes the standard *)

Lemma shift_rotl (w n x : Z) : 0 < n < w → is_word w x → wrap w (x .<< n) .| (x .>> (w - n)) = rotl w n x.
Proof.
  intros Hn Hx. rewrite Z.lor_comm. unfold rotl. rewrite <- (shift_rotr w (w - n)) by (done || lia). do 3 f_equal. lia.
Qed.

Lemma rotr_word (w n x : Z) : 0 < n < w → is_word w x → is_word w (rotr w n x).
Proof.
  intros Hn [Hx Hx']. unfold rotr. pose proof (Z.pow_pos_nonneg 2 n ltac:(lia) ltac:(lia)).
  pose proof (Z.pow_pos_nonneg 2 (w - n) ltac:(lia) ltac:(lia)).
  assert (2 ^ w = 2 ^ n * 2 ^ (w - n)) as Ew by (rewrite <- Z.pow_add_r by lia; f_equal; lia).
  assert (0 <= x / 2 ^ n < 2 ^ (w - n)) by (split; [apply Z.div_pos; lia|apply Z.div_lt_upper_bound; lia]).
  pose proof (Z.mod_pos_bound x (2 ^ n)). split; nia.
Qed.

Lemma lxor_word (w x y : Z) : 0 <= w → is_word w x → is_word w y → is_word w (x .^ y).
Proof.
  intros Hw [Hx Hx'] [Hy Hy']. assert (0 <= x .^ y) as H0 by (by apply Z.lxor_nonneg). split; [done|].
  destruct (decide (x .^ y = 0)) as [->|Hn]; [by apply Z.pow_pos_nonneg|]. apply Z.log2_lt_pow2; [lia|].
  eapply Z.le_lt_trans; [by apply Z.log2_lxor|]. apply Z.max_lub_lt.
  - destruct (decide (x = 0)) as [->|]; [|apply Z.log2_lt_pow2; lia]. cbn. destruct (decide (w = 0)); [subst; cbn in *|lia].
    assert (y = 0) by lia. subst. done.
  - destruct (decide (y = 0)) as [->|]; [|apply Z.log2_lt_pow2; lia]. cbn. destruct (decide (w = 0)); [subst; cbn in *|lia].
    assert (x = 0) by lia. subst. done.
Qed.

(** Lines with equal functions and constants. *)
Definition same_line (l l' : (Z → Z → Z → Z) * Z) : Prop := (∀ x y z, l.1 x y z = l'.1 x y z) ∧ l.2 = l'.2.

Lemma lines_eq : Forall2 same_line sha1.lines fips1_lines.
Proof.
  assert (∀ n l l', same_line l l' → Forall2 same_line (replicate n l) (replicate n l')) as Hr
    by (intros n l l' Hl; by apply Forall2_replicate).
  unfold sha1.lines, fips1_lines. repeat apply Forall2_app; apply Hr; split; try done.
  - intros x y z. apply Ch_bits.
  - intros x y z. apply Maj_bits.
Qed.

Lemma sha1_step_words (r : list Z) (kx : (Z → Z → Z → Z) * Z * Z) : Forall (is_word 32) r → Forall (is_word 32) (sha1.step r kx).
Proof.
  intros Hr. do 5 (destruct r as [|? r]; [exact Hr|]). destruct r; [|exact Hr]. cbn.
  repeat (apply list.Forall_cons in Hr as [? Hr]).
  repeat (constructor; [first [done|by apply is_word_wrap|unfold u32; rewrite (shift_rotl 32 30) by (done || lia); by apply rotr_word]|]).
  constructor.
Qed.

Lemma length_sha1_step (r : list Z) (kx : (Z → Z → Z → Z) * Z * Z) : length (sha1.step r kx) = length r.
Proof. do 5 (destruct r as [|? r]; [done|]). by destruct r. Qed.

Lemma sha1_step_eq (r : list Z) (l l' : (Z → Z → Z → Z) * Z) (x : Z) :
  Forall (is_word 32) r → same_line l l' → sha1.step r (l, x) = fips1_round r (l', x).
Proof.
  intros Hr [Hf Hk]. do 5 (destruct r as [|? r]; [done|]). destruct r; [|done]. cbn.
  repeat (apply list.Forall_cons in Hr as [? Hr]). rewrite Hf, Hk. unfold u32.
  rewrite (shift_rotl 32 30), (shift_rotl 32 5) by (done || lia). do 2 f_equal. lia.
Qed.

Lemma sha1_rounds_eq (ls ls' : list ((Z → Z → Z → Z) * Z)) (ws r : list Z) :
  Forall2 same_line ls ls' → Forall (is_word 32) r → foldl sha1.step r (zip ls ws) = foldl fips1_round r (zip ls' ws).
Proof.
  intros Hls. revert ws r. induction Hls as [|l l' ls ls' Hl Hls IH]; intros [|x ws] r Hr; cbn [zip zip_with foldl]; try done.
  rewrite <- (sha1_step_eq r l l') by done. by apply IH, sha1_step_words.
Qed.

Lemma sha1_next_eq (n : nat) (W : list Z) :
  length W = (16 + n)%nat → (∀ i, is_word 32 (W.[i])) → sha1.next_word (drop n W) = fips1_next W.
Proof.
  intros Hl Hi. unfold sha1.next_word, fips1_next, sha1.left, u32. rewrite Hl, !aget_drop.
  replace (16 + n - 3)%nat with (n + 13)%nat by lia. replace (16 + n - 8)%nat with (n + 8)%nat by lia.
  replace (16 + n - 14)%nat with (n + 2)%nat by lia. replace (16 + n - 16)%nat with (n + 0)%nat by lia.
  rewrite (shift_rotl 32 1) by (lia || (repeat apply lxor_word; done)). f_equal.
  rewrite !Z.lxor_assoc, (Z.lxor_comm (W.[n + 0])), !Z.lxor_assoc. done.
Qed.

Lemma sha1_next_words (ws : list Z) : (∀ i, is_word 32 (ws.[i])) → is_word 32 (sha1.next_word ws).
Proof.
  intros Hi. unfold sha1.next_word, sha1.left, u32.
  assert (is_word 32 (ws.[0] .^ ws.[13] .^ ws.[8] .^ ws.[2])) as Hw by (repeat apply lxor_word; done).
  rewrite (shift_rotl 32 1) by (done || lia). apply rotr_word; [lia|done].
Qed.

Lemma sha1_chunk_words_take (chunk : list Z) : sha1.chunk_words (take 64 chunk) = sha1.chunk_words chunk.
Proof.
  unfold sha1.chunk_words. apply list_fmap_ext. intros j i [-> Hi]%lookup_seq.
  unfold ReadBE32. rewrite !take_drop_commute, take_take. do 4 f_equal. lia.
Qed.

Lemma sha1_Transform_take (st chunk : list Z) : sha1.Transform st (take 64 chunk) = sha1.Transform st chunk.
Proof. unfold sha1.Transform. by rewrite sha1_chunk_words_take. Qed.

Lemma sha1_Transform_ok (st chunk : list Z) :
  Forall (is_word 32) st → bytes_ok chunk →
  sha1.Transform st chunk = fips1_block st chunk ∧ Forall (is_word 32) (sha1.Transform st chunk).
Proof.
  intros Hst Hc. split.
  - unfold sha1.Transform, fips1_block. rewrite <- sha1_chunk_words_of. f_equal.
    rewrite (all_rounds_eq _ _ 32 fips1_next); [|lia|apply sha1_next_words|apply sha1_next_eq|cbn; lia|done|].
    + apply sha1_rounds_eq; [apply lines_eq|done].
    + apply Forall_fmap, Forall_forall. intros i _. by apply ReadBE32_range, Forall_drop.
  - apply Forall_lookup. intros i x Hx. apply lookup_zip_with_Some in Hx as (? & ? & -> & _). by apply is_word_wrap.
Qed.

Abbreviation sha1_absorbed := (absorbed 64 sha1.Transform sha1.Initialize).

Lemma CSHA1_Write_absorbed (h : hasher) (m d : list Z) : sha1_absorbed h m → sha1_absorbed (CSHA1_Write d h) (m ++ d).
Proof. apply Write_while_absorbed; [lia|apply sha1_Transform_take|apply divides_64]. Qed.

Lemma CSHA1_Finalize_absorbed (h : hasher) (m : list Z) : sha1_absorbed h m → bytes_ok m → CSHA1_Finalize h = fips_SHA1 m.
Proof.
  intros Hh Hm. rewrite fips_SHA1_digest. unfold CSHA1_Finalize. do 2 f_equal.
  apply (Finalize_ext 64 (Forall (is_word 32)) sha1.Transform); [lia|..|exact Hm|exact Hh].
  - apply sha1_Transform_take.
  - apply divides_64.
  - apply CSHA1_Write_absorbed.
  - apply sha1_Transform_ok.
  - apply WriteBE64_bytes.
  - by repeat (constructor; [done|]).
Qed.

Lemma length_fips_SHA1 (m : list Z) : length (fips_SHA1 m) = 20%nat.
Proof.
  rewrite fips_SHA1_digest, (length_concat_const _ 4) by apply length_WriteBE32.
  rewrite length_digest; [done|]. intros st chunk. unfold fips1_block. rewrite length_zip_with.
  assert (∀ l r, length (foldl fips1_round r l) = length r) as ->; [|apply Nat.min_id].
  induction l as [|kx l IH]; intros r; cbn [foldl]; [done|]. rewrite IH.
  do 5 (destruct r as [|? r]; [done|]). by destruct r.
Qed.

(** The digest of the three letters abc. *)
Lemma CSHA1_abc :
  CSHA1_Finalize (CSHA1_Write [0x61; 0x62; 0x63] CSHA1) =
    concat (WriteBE32 <$> [0xa9993e36; 0x4706816a; 0xba3e2571; 0x7850c26c; 0x9cd0d89d]).
Proof. vm_compute. reflexivity. Qed.

(** the hasher is SHA-1 of the standard whatever pieces the message is written in, and the digest has 20 bytes. *)
Theorem SHA1_streaming (buf : list Z) (ws : list (list Z)) :
  length buf = 64%nat → Forall bytes_ok ws →
  CSHA1_Finalize (foldl (λ h d, CSHA1_Write d h) (CSHA1_init buf) ws) = fips_SHA1 (concat ws) ∧
  length (fips_SHA1 (concat ws)) = 20%nat.
Proof.
  intros Hb Hws. split; [|apply length_fips_SHA1].
  apply CSHA1_Finalize_absorbed; [|by apply Forall_concat].
  apply (writes_hold _ _ CSHA1_Write_absorbed _ []). by apply absorbed_new.
Qed.

Lemma SHA1_streaming_witness :
  CSHA1_Finalize (CSHA1_Write (replicate 70 7) (CSHA1_Write [1; 2; 3] CSHA1)) = fips_SHA1 ([1; 2; 3] ++ replicate 70 7).
Proof.
  destruct (SHA1_streaming (replicate 64 0) [[1; 2; 3]; replicate 70 7]) as [E _]; [reflexivity| |exact E].
  constructor; [by apply bytes_okb_ok|]. constructor; [by apply bytes_okb_ok|constructor].
Defined.
