(* ===== verification/Ripemd160.v ===== *)
(** * RIPEMD-160 ([src/src/crypto/ripemd160.cpp])

    The hasher class, and its equality with RIPEMD-160 as its authors define it: two
    lines of eighty rounds over the message words, taken in an order given by two
    permutations.  The source interleaves the two lines and renames the registers
    from call to call; here each line is a loop that rotates them. *)

From Stdlib Require Import ZArith Lia.
From S2P Require Import Prelude Common Digest HashRef Sha2 Hmac Sha1.

Open Scope Z_scope.
Open Scope word_scope.

Module ripemd160.
(** [~x] on 32 bits *)
Definition not32 (x : Z) : Z := u32 (Z.lnot x).

Definition f1 (x y z : Z) : Z := x .^ y .^ z.
Definition f2 (x y z : Z) : Z := (x .& y) .| (not32 x .& z).
Definition f3 (x y z : Z) : Z := (x .| not32 y) .^ z.
Definition f4 (x y z : Z) : Z := (x .& z) .| (y .& not32 z).
Definition f5 (x y z : Z) : Z := x .^ (y .| not32 z).

Definition Initialize : list Z := [0x67452301; 0xEFCDAB89; 0x98BADCFE; 0x10325476; 0xC3D2E1F0].

Definition rol (x i : Z) : Z := u32 (x .<< i) .| (x .>> (32 - i)).

(** The new values of [a] and [c]. *)
Definition Round (a b c d e f x k r : Z) : Z * Z := (u32 (rol (u32 (a + f + x + k)) r + e), rol c 10).

(** The functions and constants of [R11] to [R51] and of [R12] to [R52]. *)
Definition left_groups : list ((Z → Z → Z → Z) * Z) := [(f1, 0); (f2, 0x5A827999); (f3, 0x6ED9EBA1); (f4, 0x8F1BBCDC); (f5, 0xA953FD4E)].
Definition right_groups : list ((Z → Z → Z → Z) * Z) := [(f5, 0x50A28BE6); (f4, 0x5C4DD124); (f3, 0x6D703EF3); (f2, 0x7A6D76E9); (f1, 0)].

(** The word and the rotation of each call, for the first and for the second set of registers. *)
Definition left_calls : list (Z * Z) :=
  [(0, 11); (1, 14); (2, 15); (3, 12); (4, 5); (5, 8); (6, 7); (7, 9); (8, 11); (9, 13); (10, 14); (11, 15); (12, 6); (13, 7); (14, 9); (15, 8);
   (7, 7); (4, 6); (13, 8); (1, 13); (10, 11); (6, 9); (15, 7); (3, 15); (12, 7); (0, 12); (9, 15); (5, 9); (2, 11); (14, 7); (11, 13); (8, 12);
   (3, 11); (10, 13); (14, 6); (4, 7); (9, 14); (15, 9); (8, 13); (1, 15); (2, 14); (7, 8); (0, 13); (6, 6); (13, 5); (11, 12); (5, 7); (12, 5);
   (1, 11); (9, 12); (11, 14); (10, 15); (0, 14); (8, 15); (12, 9); (4, 8); (13, 9); (3, 14); (7, 5); (15, 6); (14, 8); (5, 6); (6, 5); (2, 12);
   (4, 9); (0, 15); (5, 5); (9, 11); (7, 6); (12, 8); (2, 13); (10, 12); (14, 5); (1, 12); (3, 13); (8, 14); (11, 11); (6, 8); (15, 5); (13, 6)].

Definition right_calls : list (Z * Z) :=
  [(5, 8); (14, 9); (7, 9); (0, 11); (9, 13); (2, 15); (11, 15); (4, 5); (13, 7); (6, 7); (15, 8); (8, 11); (1, 14); (10, 14); (3, 12); (12, 6);
   (6, 9); (11, 13); (3, 15); (7, 7); (0, 12); (13, 8); (5, 9); (10, 11); (14, 7); (15, 7); (8, 12); (12, 7); (4, 6); (9, 15); (1, 13); (2, 11);
   (15, 9); (5, 7); (1, 15); (3, 11); (7, 8); (14, 6); (6, 6); (9, 14); (11, 12); (8, 13); (12, 5); (2, 14); (10, 13); (0, 13); (4, 7); (13, 5);
   (8, 15); (6, 5); (4, 8); (1, 11); (3, 14); (11, 14); (15, 6); (0, 14); (5, 6); (12, 9); (2, 12); (13, 9); (9, 12); (7, 5); (10, 15); (14, 8);
   (12, 8); (15, 5); (10, 12); (4, 9); (1, 12); (5, 5); (8, 14); (7, 6); (6, 8); (2, 13); (13, 6); (14, 5); (0, 15); (3, 13); (9, 11); (11, 11)].

(** A call; the next one starts with the last register. *)
Definition step (ws r : list Z) (call : (Z → Z → Z → Z) * Z * (Z * Z)) : list Z :=
  match r with
  | [a; b; c; d; e] =>
      let '(a, c') := Round a b c d e (call.1.1 b c d) (ws.[Z.to_nat call.2.1]) call.1.2 call.2.2 in [e; a; b; c'; d]
  | _ => r
  end.

(** All calls of a line, sixteen for each group. *)
Definition line (groups : list ((Z → Z → Z → Z) * Z)) (calls : list (Z * Z)) (ws r : list Z) : list Z :=
  foldl (step ws) r (zip (mjoin (replicate 16 <$> groups)) calls).

Definition chunk_words (chunk : list Z) : list Z := (λ i, ReadLE32 (drop (4 * i) chunk)) <$> seq 0 16.

Definition Transform (st chunk : list Z) : list Z :=
  let ws := chunk_words chunk in
  match st, line left_groups left_calls ws st, line right_groups right_calls ws st with
  | [s0; s1; s2; s3; s4], [a1; b1; c1; d1; e1], [a2; b2; c2; d2; e2] =>
      [u32 (s1 + c1 + d2); u32 (s2 + d1 + e2); u32 (s3 + e1 + a2); u32 (s4 + a1 + b2); u32 (s0 + b1 + c2)]
  | _, _, _ => st
  end.
End ripemd160.

(** A new or reset object; the constructor leaves the buffer as it is. *)
Definition CRIPEMD160_init (buf : list Z) : hasher := MkHasher ripemd160.Initialize buf 0.
Definition CRIPEMD160 : hasher := CRIPEMD160_init (replicate 64 0).
Definition CRIPEMD160_Reset (h : hasher) : hasher := CRIPEMD160_init (h_buf h).
Definition CRIPEMD160_Write (data : list Z) (h : hasher) : hasher := Write_while 64 ripemd160.Transform data h.
Definition CRIPEMD160_Finalize (h : hasher) : list Z := concat (WriteLE32 <$> Finalize_state 64 CRIPEMD160_Write 119 WriteLE64 h).

(** ** The definition of the authors *)

Definition rho (i : nat) : nat := nth i [7; 4; 13; 1; 10; 6; 15; 3; 12; 0; 9; 5; 2; 14; 11; 8]%nat 0%nat.
Definition perm (i : nat) : nat := ((9 * i + 5) mod 16)%nat.

(** The words of the five rounds of a line: [first], then the permutation applied once, twice, ... more. *)
Definition word_order (first : nat → nat) : list Z :=
  mjoin ((λ k, (λ i, Z.of_nat (Nat.iter k rho (first i))) <$> seq 0 16) <$> seq 0 5).

Definition ripemd_round (ws r : list Z) (call : (Z → Z → Z → Z) * Z * (Z * Z)) : list Z :=
  match r with
  | [A; B; C; D; E] =>
      let T := u32 (rotl 32 call.2.2 (u32 (A + call.1.1 B C D + ws.[Z.to_nat call.2.1] + call.1.2)) + E) in
      [E; T; B; rotl 32 10 C; D]
  | _ => r
  end.

(** The functions of the five rounds. *)
Definition complement (x : Z) : Z := (2 ^ 32 - 1 - x) mod 2 ^ 32.
Definition rmd_f1 (x y z : Z) : Z := x .^ y .^ z.
Definition rmd_f2 (x y z : Z) : Z := (x .& y) .| (complement x .& z).
Definition rmd_f3 (x y z : Z) : Z := (x .| complement y) .^ z.
Definition rmd_f4 (x y z : Z) : Z := (x .& z) .| (y .& complement z).
Definition rmd_f5 (x y z : Z) : Z := x .^ (y .| complement z).

(** With the constants, roots of 2, 3, 5 and 7: square roots in the left line, cube roots in the right one, where the functions come in reverse. *)
Definition rmd_left : list ((Z → Z → Z → Z) * Z) :=
  [(rmd_f1, 0); (rmd_f2, root2_30 2); (rmd_f3, root2_30 3); (rmd_f4, root2_30 5); (rmd_f5, root2_30 7)].
Definition rmd_right : list ((Z → Z → Z → Z) * Z) :=
  [(rmd_f5, root3_30 2); (rmd_f4, root3_30 3); (rmd_f3, root3_30 5); (rmd_f2, root3_30 7); (rmd_f1, 0)].

(** The rotation of each word in each of the five rounds, the same in both lines. *)
Definition rmd_shifts : list (list Z) :=
  [[11; 14; 15; 12; 5; 8; 7; 9; 11; 13; 14; 15; 6; 7; 9; 8];
   [12; 13; 11; 15; 6; 9; 9; 7; 12; 15; 11; 13; 7; 8; 7; 7];
   [13; 15; 14; 11; 7; 7; 6; 8; 13; 14; 13; 12; 5; 5; 6; 9];
   [14; 11; 12; 14; 8; 6; 5; 5; 15; 12; 15; 14; 9; 9; 8; 6];
   [15; 12; 13; 13; 9; 5; 8; 6; 14; 11; 12; 11; 8; 6; 5; 5]].

(** The eighty words of a line with their rotations. *)
Definition rmd_calls (first : nat → nat) : list (Z * Z) :=
  zip_with (λ w (s : list Z), (w, s.[Z.to_nat w])) (word_order first) (mjoin (replicate 16 <$> rmd_shifts)).

(** The two lines, each with its order of words, and the sum of their results and the state, shifted by one, two
    and three places. *)
Definition ripemd_block (st chunk : list Z) : list Z :=
  let ws := block_words le_number 4 chunk in
  let run (groups : list ((Z → Z → Z → Z) * Z)) (first : nat → nat) :=
    foldl (ripemd_round ws) st (zip (mjoin (replicate 16 <$> groups)) (rmd_calls first)) in
  let l := run rmd_left (λ i, i) in
  let r := run rmd_right perm in
  (λ i, u32 (st.[(i + 1) mod 5] + l.[(i + 2) mod 5] + r.[(i + 3) mod 5])) <$> seq 0 5.

Definition ripemd_reference (m : list Z) : list Z := concat (le_bytes 4 <$> std_digest 64 le_bytes ripemd_block md_H0 m).

(** The words and rotations of the source are those of the permutations and of the table. *)
Lemma left_calls_order : ripemd160.left_calls = rmd_calls (λ i, i).
Proof. vm_compute. reflexivity. Qed.

Lemma right_calls_order : ripemd160.right_calls = rmd_calls perm.
Proof. vm_compute. reflexivity. Qed.

Lemma not32_complement (x : Z) : ripemd160.not32 x = complement x.
Proof.
  unfold ripemd160.not32, complement, u32, wrap, Z.lnot. replace (2 ^ 32 - 1 - x) with (Z.pred (- x) + 1 * 2 ^ 32) by lia. by rewrite Z_mod_plus_full.
Qed.

Lemma rmd_groups_eq : Forall2 same_line ripemd160.left_groups rmd_left ∧ Forall2 same_line ripemd160.right_groups rmd_right.
Proof.
  split; repeat (constructor; [split; [intros x y z; cbn [fst];
    unfold ripemd160.f1, ripemd160.f2, ripemd160.f3, ripemd160.f4, ripemd160.f5, rmd_f1, rmd_f2, rmd_f3, rmd_f4, rmd_f5;
    by rewrite ?not32_complement|vm_compute; reflexivity]|]); constructor.
Qed.

Lemma ripemd_chunk_words_of (chunk : list Z) : ripemd160.chunk_words chunk = block_words le_number 4 chunk.
Proof. apply list_fmap_ext. intros _ i _. unfold ReadLE32. by rewrite le_number_val. Qed.

Lemma ripemd_reference_digest (m : list Z) :
  ripemd_reference m = concat (WriteLE32 <$> digest 64 ripemd_block ripemd160.Initialize 119 WriteLE64 m).
Proof.
  unfold ripemd_reference. change ripemd160.Initialize with md_H0. rewrite (std_digest_eq 64 le_bytes ripemd_block md_H0 119 WriteLE64);
    [|lia|by exists 1|intros z _; apply WriteLE64_bytes_of].
  f_equal. apply list_fmap_ext. intros _ z _. by rewrite WriteLE32_bytes_of.
Qed.

(** The digest of the three letters abc. *)
Lemma CRIPEMD160_abc :
  CRIPEMD160_Finalize (CRIPEMD160_Write [0x61; 0x62; 0x63] CRIPEMD160) =
    [0x8e; 0xb2; 0x08; 0xf7; 0xe0; 0x5d; 0x98; 0x7a; 0x9b; 0x04; 0x4a; 0x8e; 0x98; 0xc6; 0xb0; 0x87; 0xf1; 0x5a; 0x0b; 0xfc].
Proof. vm_compute. reflexivity. Qed.

(** ** The class computes it *)

Lemma ripemd_step_eq (ws r : list Z) (g g' : (Z → Z → Z → Z) * Z) (c : Z * Z) :
  Forall (is_word 32) r → 0 < c.2 < 32 → same_line g g' →
  ripemd160.step ws r (g, c) = ripemd_round ws r (g', c) ∧ Forall (is_word 32) (ripemd160.step ws r (g, c)).
Proof.
  intros Hr Hc [Hf Hk]. do 5 (destruct r as [|? r]; [done|]). destruct r; [|done]. cbn. unfold ripemd160.rol.
  repeat (apply list.Forall_cons in Hr as [? Hr]).
  split; [|repeat (constructor; [first [done|by apply is_word_wrap|
      unfold u32; rewrite (shift_rotl 32 10) by (done || lia); by apply rotr_word]|]); constructor].
  assert (∀ x n, 0 < n < 32 → is_word 32 x → u32 (x .<< n) .| (x .>> (32 - n)) = rotl 32 n x) as Hrot by (intros; by apply shift_rotl).
  change (z1 .>> 22) with (z1 .>> (32 - 10)). rewrite <- Hf, <- Hk. by rewrite !Hrot by (done || lia || by apply is_word_wrap).
Qed.

Lemma length_ripemd_step (ws r : list Z) (call : (Z → Z → Z → Z) * Z * (Z * Z)) : length (ripemd160.step ws r call) = length r.
Proof. do 5 (destruct r as [|? r]; [done|]). by destruct r. Qed.

Lemma same_line_groups (l l' : list ((Z → Z → Z → Z) * Z)) :
  Forall2 same_line l l' → Forall2 same_line (mjoin (replicate 16 <$> l)) (mjoin (replicate 16 <$> l')).
Proof. induction 1; cbn [fmap list_fmap mjoin list_join]; [constructor|]. apply Forall2_app; [by apply Forall2_replicate|done]. Qed.

Lemma ripemd_line_eq (groups groups' : list ((Z → Z → Z → Z) * Z)) (calls : list (Z * Z)) (ws r : list Z) :
  Forall2 same_line groups groups' → Forall (is_word 32) r → Forall (λ c, 0 < c.2 < 32) calls →
  ripemd160.line groups calls ws r = foldl (ripemd_round ws) r (zip (mjoin (replicate 16 <$> groups')) calls) ∧
  Forall (is_word 32) (ripemd160.line groups calls ws r) ∧ length (ripemd160.line groups calls ws r) = length r.
Proof.
  intros Hg%same_line_groups Hr Hc. unfold ripemd160.line. revert Hg. generalize (mjoin (replicate 16 <$> groups)) as gs, (mjoin (replicate 16 <$> groups')) as gs'.
  intros gs gs' Hg. revert calls r Hc Hr. induction Hg as [|g g' gs gs' Hg _ IH]; intros [|c calls] r Hc Hr; cbn [zip zip_with foldl]; try done.
  apply list.Forall_cons in Hc as [Hc0 Hc]. destruct (ripemd_step_eq ws r g g' c Hr Hc0 Hg) as [Es Hw]. rewrite <- Es.
  destruct (IH calls _ Hc Hw) as (-> & ? & Hl). split_and!; [done..|]. by rewrite Hl, length_ripemd_step.
Qed.

Lemma ripemd_calls_ok : Forall (λ c, 0 < c.2 < 32) ripemd160.left_calls ∧ Forall (λ c, 0 < c.2 < 32) ripemd160.right_calls.
Proof. split; repeat (constructor; [done|]); constructor. Qed.

Lemma list_5 {A : Type} (l : list A) : length l = 5%nat → ∃ a b c d e, l = [a; b; c; d; e].
Proof. intros Hl. do 5 (destruct l as [|? l]; [done|]). destruct l; [|done]. by repeat eexists. Qed.

Lemma ripemd_Transform_ok (st chunk : list Z) :
  length st = 5%nat → Forall (is_word 32) st →
  ripemd160.Transform st chunk = ripemd_block st chunk ∧ Forall (is_word 32) (ripemd160.Transform st chunk) ∧
  length (ripemd160.Transform st chunk) = 5%nat.
Proof.
  intros Hl Hst. unfold ripemd160.Transform, ripemd_block. rewrite <- left_calls_order, <- right_calls_order, <- ripemd_chunk_words_of.
  destruct (ripemd_line_eq ripemd160.left_groups rmd_left ripemd160.left_calls (ripemd160.chunk_words chunk) st) as (<- & _ & H1);
    [apply rmd_groups_eq|done|apply ripemd_calls_ok|].
  destruct (ripemd_line_eq ripemd160.right_groups rmd_right ripemd160.right_calls (ripemd160.chunk_words chunk) st) as (<- & _ & H2);
    [apply rmd_groups_eq|done|apply ripemd_calls_ok|].
  rewrite Hl in H1, H2. destruct (list_5 _ Hl) as (s0 & s1 & s2 & s3 & s4 & ->).
  destruct (list_5 _ H1) as (a1 & b1 & c1 & d1 & e1 & ->). destruct (list_5 _ H2) as (a2 & b2 & c2 & d2 & e2 & ->).
  split; [done|]. split; [|done]. repeat (constructor; [by apply is_word_wrap|]). constructor.
Qed.

Lemma ripemd_Transform_take (st chunk : list Z) : ripemd160.Transform st (take 64 chunk) = ripemd160.Transform st chunk.
Proof.
  unfold ripemd160.Transform. assert (ripemd160.chunk_words (take 64 chunk) = ripemd160.chunk_words chunk) as ->; [|done].
  unfold ripemd160.chunk_words. apply list_fmap_ext. intros j i [-> Hi]%lookup_seq.
  unfold ReadLE32. rewrite !take_drop_commute, take_take. do 3 f_equal. lia.
Qed.

Abbreviation ripemd_absorbed := (absorbed 64 ripemd160.Transform ripemd160.Initialize).

Lemma CRIPEMD160_Write_absorbed (h : hasher) (m d : list Z) : ripemd_absorbed h m → ripemd_absorbed (CRIPEMD160_Write d h) (m ++ d).
Proof. apply Write_while_absorbed; [lia|apply ripemd_Transform_take|apply divides_64]. Qed.

Lemma CRIPEMD160_Finalize_absorbed (h : hasher) (m : list Z) :
  ripemd_absorbed h m → bytes_ok m → CRIPEMD160_Finalize h = ripemd_reference m.
Proof.
  intros Hh Hm. rewrite ripemd_reference_digest. unfold CRIPEMD160_Finalize. do 2 f_equal.
  apply (Finalize_ext 64 (λ st, length st = 5%nat ∧ Forall (is_word 32) st) ripemd160.Transform); [lia|..|exact Hm|exact Hh].
  - apply ripemd_Transform_take.
  - apply divides_64.
  - apply CRIPEMD160_Write_absorbed.
  - intros st chunk [Hl Hst] _. by destruct (ripemd_Transform_ok st chunk Hl Hst) as (? & ? & ?).
  - apply WriteLE64_bytes.
  - split; [done|]. by repeat (constructor; [done|]).
Qed.

Lemma length_ripemd_reference (m : list Z) : length (ripemd_reference m) = 20%nat.
Proof.
  rewrite ripemd_reference_digest, (length_concat_const _ 4) by apply length_WriteLE32. unfold digest.
  assert (∀ l st, length st = 5%nat → length (foldl ripemd_block st l) = 5%nat) as ->; [|done..].
  induction l as [|c l IH]; intros st Hl; [done|]. by apply IH.
Qed.

(** the hasher is RIPEMD-160 as its authors define it, whatever pieces the message is written in, and the digest has
    20 bytes. *)
Theorem RIPEMD160_streaming (buf : list Z) (ws : list (list Z)) :
  length buf = 64%nat → Forall bytes_ok ws →
  CRIPEMD160_Finalize (foldl (λ h d, CRIPEMD160_Write d h) (CRIPEMD160_init buf) ws) = ripemd_reference (concat ws) ∧
  length (ripemd_reference (concat ws)) = 20%nat.
Proof.
  intros Hb Hws. split; [|apply length_ripemd_reference].
  apply CRIPEMD160_Finalize_absorbed; [|by apply Forall_concat].
  apply (writes_hold _ _ CRIPEMD160_Write_absorbed _ []). by apply absorbed_new.
Qed.

Lemma RIPEMD160_streaming_witness :
  CRIPEMD160_Finalize (CRIPEMD160_Write (replicate 70 7) (CRIPEMD160_Write [1; 2; 3] CRIPEMD160)) =
    ripemd_reference ([1; 2; 3] ++ replicate 70 7).
Proof.
  destruct (RIPEMD160_streaming (replicate 64 0) [[1; 2; 3]; replicate 70 7]) as [E _]; [reflexivity| |exact E].
  constructor; [by apply bytes_okb_ok|]. constructor; [by apply bytes_okb_ok|constructor].
Defined.
