(* ===== verification/ArithUint256.v ===== *)
(** * 256-bit arithmetic ([src/src/arith_uint256.h], [arith_uint256.cpp])

    [base_uint<256>] keeps a number as [WIDTH = 8] little-endian limbs of 32
    bits.  Each operator is translated limb by limb, carries and 64-bit
    intermediate results included; the theorems show that every operator
    computes the corresponding operation on [to_Z], modulo [2^256] where the
    source wraps.  [SetCompact]/[GetCompact] convert to and from the 32-bit
    "compact" encoding of difficulty targets. *)

From Stdlib Require Import ZArith Lia.
From S2P Require Import Prelude Common.

Open Scope Z_scope.
Open Scope word_scope.

Module BaseUint.

Definition WIDTH : nat := 8.

(** [uint32_t pn[WIDTH]] *)
Definition base_uint := list Z.

Definition wf (pn : list Z) : Prop := length pn = WIDTH ∧ Forall (is_word 32) pn.

Definition to_Z (pn : list Z) : Z := le_val 32 pn.

Definition zero : list Z := replicate WIDTH 0.

(** [base_uint(uint64_t b)] and [operator=(uint64_t b)] *)
Definition of_uint64 (b : Z) : list Z :=
  zero.[0 <- u32 b].[1 <- u32 (b .>> 32)].

(** [operator!] *)
Definition is_zero (pn : list Z) : bool :=
  for_up 0 WIDTH (λ i r, if negb (pn.[i] =? 0) then false else r) true.

(** [operator~] *)
Definition bnot (pn : list Z) : list Z :=
  for_up 0 WIDTH (λ i ret, ret.[i <- u32 (Z.lnot pn.[i])]) zero.

(** [operator++]: [while (i < WIDTH && ++pn[i] == 0) i++] *)
Fixpoint incr_loop (n i : nat) (pn : list Z) : list Z :=
  match n with
  | O => pn
  | S n' =>
      let v := u32 (pn.[i] + 1) in
      let pn' := pn.[i <- v] in
      if v =? 0 then incr_loop n' (S i) pn' else pn'
  end.

Definition incr (pn : list Z) : list Z := incr_loop WIDTH 0 pn.

(** [operator--]: [while (i < WIDTH && --pn[i] == (uint32_t)-1) i++] *)
Fixpoint decr_loop (n i : nat) (pn : list Z) : list Z :=
  match n with
  | O => pn
  | S n' =>
      let v := u32 (pn.[i] - 1) in
      let pn' := pn.[i <- v] in
      if v =? u32 (-1) then decr_loop n' (S i) pn' else pn'
  end.

Definition decr (pn : list Z) : list Z := decr_loop WIDTH 0 pn.

(** unary [operator-] *)
Definition neg (pn : list Z) : list Z := incr (bnot pn).

(** [operator^=], [operator&=], [operator|=] *)
Definition bxor (pn b : list Z) : list Z :=
  for_up 0 WIDTH (λ i p, p.[i <- p.[i] .^ b.[i]]) pn.
Definition band (pn b : list Z) : list Z :=
  for_up 0 WIDTH (λ i p, p.[i <- p.[i] .& b.[i]]) pn.
Definition bor (pn b : list Z) : list Z :=
  for_up 0 WIDTH (λ i p, p.[i <- p.[i] .| b.[i]]) pn.

(** [operator<<=] *)
Definition shl_step (a : list Z) (k : nat) (s : Z) (i : nat) (pn : list Z) : list Z :=
  let pn1 :=
    if (i + k + 1 <? WIDTH)%nat && negb (s =? 0)
    then pn.[i + k + 1 <- pn.[i + k + 1] .| (a.[i] .>> (32 - s))] else pn in
  if (i + k <? WIDTH)%nat
  then pn1.[i + k <- pn1.[i + k] .| u32 (a.[i] .<< s)] else pn1.

Definition shl (a : list Z) (shift : Z) : list Z :=
  let k := Z.to_nat (shift / 32) in
  let s := shift mod 32 in
  for_up 0 WIDTH (shl_step a k s) zero.

(** [operator>>=] *)
Definition shr_step (a : list Z) (k : nat) (s : Z) (i : nat) (pn : list Z) : list Z :=
  let pn1 :=
    if (k + 1 <=? i)%nat && negb (s =? 0)
    then pn.[i - k - 1 <- pn.[i - k - 1] .| u32 (a.[i] .<< (32 - s))] else pn in
  if (k <=? i)%nat
  then pn1.[i - k <- pn1.[i - k] .| (a.[i] .>> s)] else pn1.

Definition shr (a : list Z) (shift : Z) : list Z :=
  let k := Z.to_nat (shift / 32) in
  let s := shift mod 32 in
  for_up 0 WIDTH (shr_step a k s) zero.

(** [operator+=(const base_uint&)]; the state of the loop is [(pn, carry)]. *)
Definition add_step (b : list Z) (i : nat) (st : list Z * Z) : list Z * Z :=
  let '(pn, carry) := st in
  let n := u64 (carry + pn.[i] + b.[i]) in
  (pn.[i <- n .& 0xffffffff], n .>> 32).

Definition add (pn b : list Z) : list Z := fst (for_up 0 WIDTH (add_step b) (pn, 0)).

(** [operator-=(const base_uint&)] *)
Definition sub (pn b : list Z) : list Z := add pn (neg b).

(** [operator*=(uint32_t b32)] *)
Definition mul32_step (b32 : Z) (i : nat) (st : list Z * Z) : list Z * Z :=
  let '(pn, carry) := st in
  let n := u64 (carry + b32 * pn.[i]) in
  (pn.[i <- n .& 0xffffffff], n .>> 32).

Definition mul32 (pn : list Z) (b32 : Z) : list Z :=
  fst (for_up 0 WIDTH (mul32_step b32) (pn, 0)).

(** [operator*=(const base_uint&)] *)
Definition mul_step (aj : Z) (b : list Z) (j i : nat) (st : list Z * Z) : list Z * Z :=
  let '(pn, carry) := st in
  let n := u64 (carry + pn.[i + j] + aj * b.[i]) in
  (pn.[i + j <- n .& 0xffffffff], n .>> 32).

Definition mul (a b : list Z) : list Z :=
  for_up 0 WIDTH
    (λ j pn, fst (for_up 0 (WIDTH - j) (mul_step a.[j] b j) (pn, 0))) zero.

(** [CompareTo]: from the most significant limb down. *)
Fixpoint compare_loop (n : nat) (pn b : list Z) : Z :=
  match n with
  | O => 0
  | S i =>
      if pn.[i] <? b.[i] then -1
      else if pn.[i] >? b.[i] then 1
      else compare_loop i pn b
  end.

Definition CompareTo (pn b : list Z) : Z := compare_loop WIDTH pn b.

(** [operator>], [<], [>=], [<=] *)
Definition gtb (a b : list Z) : bool := CompareTo a b >? 0.
Definition ltb (a b : list Z) : bool := CompareTo a b <? 0.
Definition geb (a b : list Z) : bool := CompareTo a b >=? 0.
Definition leb (a b : list Z) : bool := CompareTo a b <=? 0.

(** [EqualTo(uint64_t b)] *)
Definition EqualTo (pn : list Z) (b : Z) : bool :=
  if existsb (λ i, negb (pn.[i] =? 0)) (rev (seq 2 (WIDTH - 2))) then false
  else if negb (pn.[1] =? b .>> 32) then false
  else if negb (pn.[0] =? b .& 0xffffffff) then false
  else true.

(** [bits()]: position of the highest set bit plus one. *)
Fixpoint bits_limb (n : nat) (x : Z) : option Z :=
  match n with
  | O => None
  | S n' =>
      (* nbits = n; the loop stops before nbits = 0 *)
      if negb (x .& (1 .<< n) =? 0) then Some (Z.of_nat n) else bits_limb n' x
  end.

Fixpoint bits_loop (n : nat) (pn : list Z) : Z :=
  match n with
  | O => 0
  | S pos =>
      if negb (pn.[pos] =? 0) then
        match bits_limb 31 pn.[pos] with
        | Some nbits => 32 * pos + nbits + 1
        | None => 32 * pos + 1
        end
      else bits_loop pos pn
  end.

Definition bits (pn : list Z) : Z := bits_loop WIDTH pn.

(** [operator/=]: [None] is the [uint_error] thrown on a zero divisor.  The
    state of the loop is [(div, num, pn)]. *)
Definition div_step (shift : nat) (st : list Z * list Z * list Z) :
    list Z * list Z * list Z :=
  let '(dv, num, pn) := st in
  let '(num, pn) :=
    if geb num dv then
      (sub num dv,
       pn.[shift / 32 <- pn.[shift / 32] .| u32 (1 .<< (Z.of_nat shift .& 31))])
    else (num, pn) in
  (shr dv 1, num, pn).

Definition div (a b : list Z) : option (list Z) :=
  let num_bits := bits a in
  let div_bits := bits b in
  if div_bits =? 0 then None
  else if div_bits >? num_bits then Some zero
  else
    let shift := Z.to_nat (num_bits - div_bits) in
    Some (snd (for_down (S shift) div_step (shl b shift, a, zero))).

(** [GetLow64] *)
Definition GetLow64 (pn : list Z) : Z := pn.[0] .| (pn.[1] .<< 32).

End BaseUint.

Module Arith256.
Import BaseUint.

(** [arith_uint256::SetCompact]: the value and the two out-parameters
    [*pfNegative] and [*pfOverflow]. *)
Definition SetCompact (nCompact : Z) : list Z * bool * bool :=
  let nSize := nCompact .>> 24 in
  let nWord := nCompact .& 0x007fffff in
  let '(v, nWord) :=
    if nSize <=? 3 then
      let nWord := nWord .>> (8 * (3 - nSize)) in (of_uint64 nWord, nWord)
    else (shl (of_uint64 nWord) (8 * (nSize - 3)), nWord) in
  let fNegative := negb (nWord =? 0) && negb (nCompact .& 0x00800000 =? 0) in
  let fOverflow := negb (nWord =? 0) &&
    ((nSize >? 34) || ((nWord >? 0xff) && (nSize >? 33))
     || ((nWord >? 0xffff) && (nSize >? 32))) in
  (v, fNegative, fOverflow).

(** [arith_uint256::GetCompact]: [None] is an assertion failure. *)
Definition GetCompact (pn : list Z) (fNegative : bool) : option Z :=
  let nSize := (bits pn + 7) / 8 in
  let nCompact :=
    if nSize <=? 3 then u32 (u64 (GetLow64 pn .<< (8 * (3 - nSize))))
    else u32 (GetLow64 (shr pn (8 * (nSize - 3)))) in
  let '(nCompact, nSize) :=
    if negb (nCompact .& 0x00800000 =? 0) then (nCompact .>> 8, nSize + 1)
    else (nCompact, nSize) in
  if negb (nCompact .& u32 (Z.lnot 0x007fffff) =? 0) then None
  else if negb (nSize <? 256) then None
  else
    let nCompact := nCompact .| u32 (nSize .<< 24) in
    Some (nCompact .|
      (if fNegative && negb (nCompact .& 0x007fffff =? 0) then 0x00800000 else 0)).

(** [ArithToUint256], [UintToArith256]: the 32 bytes of a [uint256]. *)
Definition ArithToUint256 (a : list Z) : list Z :=
  flat_map (λ x, WriteLE32 a.[x]) (seq 0 WIDTH).

Definition UintToArith256 (a : list Z) : list Z :=
  map (λ x, ReadLE32 (drop (x * 4) a)) (seq 0 WIDTH).

End Arith256.

Import BaseUint Arith256.

(** ** Well-formedness and value of the operators *)

Lemma wf_length (x : list Z) : wf x → length x = 8%nat.
Proof. by intros [? _]. Qed.

Lemma wf_words (x : list Z) : wf x → Forall (is_word 32) x.
Proof. by intros [_ ?]. Qed.

Lemma wf_limb (x : list Z) (i : nat) : wf x → 0 <= x.[i] < 2 ^ 32.
Proof.
  intros [Hl Hw]. destruct (decide (i < length x)%nat).
  - by apply (Forall_aget _ _ _ Hw).
  - rewrite aget_over by lia. lia.
Qed.

Lemma to_Z_range (x : list Z) : wf x → 0 <= to_Z x < 2 ^ 256.
Proof.
  intros [Hl Hw]. pose proof (le_val_range 32 ltac:(lia) x Hw) as R.
  rewrite Hl in R. exact R.
Qed.

Lemma to_Z_inj (x y : list Z) : wf x → wf y → to_Z x = to_Z y → x = y.
Proof.
  intros [Hl Hw] [Hl' Hw'] E. apply (le_val_inj 32 ltac:(lia)); try done. congruence.
Qed.

Lemma wf_aset (x : list Z) (i : nat) (v : Z) :
  wf x → 0 <= v < 2 ^ 32 → wf (x.[i <- v]).
Proof. intros [? ?] ?. split; [by rewrite length_aset | by apply Forall_aset]. Qed.

Lemma wf_zero : wf zero.
Proof. split; [done|]. by repeat constructor. Qed.

Lemma aget_zero (i : nat) : zero.[i] = 0.
Proof. apply aget_replicate0. Qed.

Lemma to_Z_zero : to_Z zero = 0.
Proof. apply le_val_replicate0. Qed.

Lemma to_Z_aset (x : list Z) (i : nat) (v : Z) :
  wf x → (i < 8)%nat → to_Z (x.[i <- v]) = to_Z x + (v - x.[i]) * 2 ^ (32 * i).
Proof. intros [? _] ?. apply le_val_aset; [lia | unfold WIDTH in *; lia]. Qed.

Lemma to_Z_take_S (x : list Z) (i : nat) :
  wf x → (i < 8)%nat → to_Z (take (S i) x) = to_Z (take i x) + x.[i] * 2 ^ (32 * i).
Proof. intros [? _] ?. apply le_val_take_S; [lia | unfold WIDTH in *; lia]. Qed.

#[export] Hint Resolve wf_aset wf_zero wf_length wf_words : words.

(** Low and high half of a 64-bit intermediate result. *)
Lemma split64 (n : Z) :
  0 <= n < 2 ^ 64 →
  n .& 0xffffffff + n .>> 32 * 2 ^ 32 = n ∧ 0 <= n .& 0xffffffff < 2 ^ 32
  ∧ 0 <= n .>> 32 < 2 ^ 32.
Proof.
  intros Hn. change 0xffffffff with (2 ^ 32 - 1).
  rewrite land_ones_mod, shr_div by lia.
  pose proof (Z.div_mod n (2 ^ 32)). pose proof (Z.mod_pos_bound n (2 ^ 32)).
  assert (n / 2 ^ 32 < 2 ^ 32) by (apply Z.div_lt_upper_bound; lia).
  assert (0 <= n / 2 ^ 32) by (apply Z.div_pos; lia). lia.
Qed.

Lemma of_uint64_spec (b : Z) :
  0 <= b < 2 ^ 64 → wf (of_uint64 b) ∧ to_Z (of_uint64 b) = b.
Proof.
  intros Hb. unfold of_uint64, u32, wrap. rewrite shr_div by lia.
  assert (0 <= b / 2 ^ 32 < 2 ^ 32).
  { split; [apply Z.div_pos; lia | apply Z.div_lt_upper_bound; lia]. }
  rewrite (Z.mod_small (b / 2 ^ 32)) by done.
  pose proof (Z.mod_pos_bound b (2 ^ 32)). split.
  - repeat apply wf_aset; auto using wf_zero; lia.
  - unfold to_Z, zero. simpl. pose proof (Z.div_mod b (2 ^ 32)). lia.
Qed.

(** Invariant of the carry loops: [X] is what has been accumulated, [c] the
    carry into limb [i]. *)
Definition carry_inv (X : Z) (i : nat) (st : list Z * Z) : Prop :=
  let '(pn, c) := st in
  wf pn ∧ 0 <= c < 2 ^ 32 ∧ to_Z pn + c * 2 ^ (32 * i) = X.

Lemma carry_step (X n : Z) (i : nat) (pn : list Z) (c : Z) :
  (i < 8)%nat → carry_inv X i (pn, c) → 0 <= n < 2 ^ 64 →
  carry_inv (X + (n - c - pn.[i]) * 2 ^ (32 * i)) (S i)
    (pn.[i <- n .& 0xffffffff], n .>> 32).
Proof.
  intros Hi (Hw & Hc & HX) Hn. destruct (split64 n Hn) as (E & Hlo & Hhi).
  split; [by apply wf_aset|]. split; [done|].
  rewrite to_Z_aset by done.
  replace (32 * S i) with (32 + 32 * i) by lia. rewrite Z.pow_add_r by lia.
  set (P := 2 ^ (32 * i)) in *. nia.
Qed.

Lemma carry_inv_end (X : Z) (st : list Z * Z) :
  carry_inv X 8 st → wf (fst st) ∧ to_Z (fst st) = X mod 2 ^ 256.
Proof.
  destruct st as [pn c]. intros (Hw & Hc & HX). split; [done|]. simpl.
  pose proof (to_Z_range pn Hw).
  apply Z.mod_unique with c; [by left|]. change (32 * 8%nat) with 256 in HX. lia.
Qed.

Lemma add_spec (a b : list Z) :
  wf a → wf b → wf (add a b) ∧ to_Z (add a b) = (to_Z a + to_Z b) mod 2 ^ 256.
Proof.
  intros Ha Hb. unfold add.
  rewrite <- (firstn_all b) at 3. rewrite (wf_length b Hb).
  apply carry_inv_end.
  apply (for_up_inv (λ i st, carry_inv (to_Z a + to_Z (take i b)) i st)
           (add_step b) 8 0).
  - split; [done|]. change (to_Z (take 0 b)) with 0. lia.
  - intros i [pn c] Hi Hinv. unfold add_step.
    pose proof (wf_limb pn i (proj1 Hinv)). pose proof (wf_limb b i Hb).
    pose proof (proj1 (proj2 Hinv)).
    unfold u64. rewrite wrap_small by (unfold is_word; lia).
    rewrite to_Z_take_S by (done || lia).
    pose proof (carry_step _ (c + pn.[i] + b.[i]) i pn c ltac:(lia) Hinv ltac:(lia)) as Hs.
    rewrite Z.add_assoc.
    by replace (c + pn.[i] + b.[i] - c - pn.[i]) with (b.[i]) in Hs by lia.
Qed.

Lemma mul32_spec (a : list Z) (b : Z) :
  wf a → is_word 32 b → wf (mul32 a b) ∧ to_Z (mul32 a b) = (to_Z a * b) mod 2 ^ 256.
Proof.
  intros Ha Hb. unfold mul32. unfold is_word in Hb.
  cut (carry_inv (to_Z a + (to_Z (take 8 a)) * (b - 1)) 8
         (for_up 0 WIDTH (mul32_step b) (a, 0))).
  { intros H. rewrite (take_ge a) in H by (rewrite (wf_length a Ha); lia).
    replace (to_Z a * b) with (to_Z a + to_Z a * (b - 1)) by ring.
    by apply carry_inv_end. }
  apply (for_up_inv (λ i st, carry_inv (to_Z a + to_Z (take i a) * (b - 1)) i st
           ∧ ∀ j, (i ≤ j)%nat → (fst st).[j] = a.[j]) (mul32_step b) 8 0).
  - split; [|done]. split; [done|]. change (to_Z (take 0 a)) with 0. lia.
  - intros i [pn c] Hi [Hinv Hsame]. unfold mul32_step. simpl in Hsame.
    pose proof (wf_limb pn i (proj1 Hinv)). pose proof (proj1 (proj2 Hinv)).
    unfold u64. rewrite wrap_small by (unfold is_word; nia).
    pose proof (carry_step _ (c + b * pn.[i]) i pn c ltac:(lia) Hinv ltac:(nia)) as Hs.
    split.
    + rewrite to_Z_take_S by (done || lia).
      replace (to_Z a + (to_Z (take i a) + a.[i] * 2 ^ (32 * i)) * (b - 1))
        with (to_Z a + to_Z (take i a) * (b - 1) + (c + b * pn.[i] - c - pn.[i]) * 2 ^ (32 * i)).
      * done.
      * rewrite <- (Hsame i) by lia. ring.
    + intros j Hj. simpl. rewrite aget_aset_ne by lia. apply Hsame. lia.
Qed.

Lemma mul_inner (a b pn0 : list Z) (j : nat) :
  wf a → wf b → wf pn0 → (j < 8)%nat →
  let st := for_up 0 (WIDTH - j) (mul_step a.[j] b j) (pn0, 0) in
  wf (fst st) ∧
  to_Z (fst st) = (to_Z pn0 + a.[j] * to_Z b * 2 ^ (32 * j)) mod 2 ^ 256.
Proof.
  intros Ha Hb Hp Hj st.
  assert (carry_inv (to_Z pn0 + a.[j] * to_Z (take (8 - j) b) * 2 ^ (32 * j)) 8 st) as Hst.
  { replace 8%nat with (8 - j + j)%nat at 2 by lia.
    apply (for_up_inv
      (λ i st, carry_inv (to_Z pn0 + a.[j] * to_Z (take i b) * 2 ^ (32 * j)) (i + j) st)
      (mul_step a.[j] b j) (8 - j) 0).
    - split; [done|]. change (to_Z (take 0 b)) with 0. lia.
    - intros i [pn c] Hi Hinv. unfold mul_step.
      pose proof (wf_limb pn (i + j) (proj1 Hinv)). pose proof (proj1 (proj2 Hinv)).
      pose proof (wf_limb b i Hb). pose proof (wf_limb a j Ha).
      unfold u64. rewrite wrap_small by (unfold is_word; nia).
      pose proof (carry_step _ (c + pn.[i + j] + a.[j] * b.[i]) (i + j) pn c
                    ltac:(lia) Hinv ltac:(nia)) as Hs.
      rewrite to_Z_take_S by (done || lia).
      replace (Z.of_nat (i + j)) with (i + j) in Hs by lia.
      rewrite Z.mul_add_distr_l, Z.pow_add_r in Hs by lia.
      replace (a.[j] * (to_Z (take i b) + b.[i] * 2 ^ (32 * i)) * 2 ^ (32 * j))
        with (a.[j] * to_Z (take i b) * 2 ^ (32 * j)
              + (c + pn.[i + j] + a.[j] * b.[i] - c - pn.[i + j])
                * (2 ^ (32 * i) * 2 ^ (32 * j))) by ring.
      by rewrite Z.add_assoc. }
  apply carry_inv_end in Hst as [Hw ->]. split; [done|].
  assert (to_Z b = to_Z (take (8 - j) b) + 2 ^ (32 * (8 - j)%nat) * to_Z (drop (8 - j) b)) as ->.
  { apply le_val_take_drop; [lia|]. rewrite wf_length by done. lia. }
  replace (to_Z pn0 + a.[j] * (to_Z (take (8 - j) b) + 2 ^ (32 * (8 - j)%nat) * to_Z (drop (8 - j) b)) * 2 ^ (32 * j))
    with (to_Z pn0 + a.[j] * to_Z (take (8 - j) b) * 2 ^ (32 * j)
          + (a.[j] * to_Z (drop (8 - j) b)) * 2 ^ 256).
  - by rewrite Z.mod_add.
  - replace (2 ^ 256) with (2 ^ (32 * (8 - j)%nat) * 2 ^ (32 * j)); [ring|].
    rewrite <- Z.pow_add_r by lia. f_equal. lia.
Qed.

Lemma mul_spec (a b : list Z) :
  wf a → wf b → wf (mul a b) ∧ to_Z (mul a b) = (to_Z a * to_Z b) mod 2 ^ 256.
Proof.
  intros Ha Hb. rewrite <- (firstn_all a) at 3. rewrite (wf_length a Ha).
  apply (for_up_inv (λ j pn, wf pn ∧ to_Z pn = (to_Z (take j a) * to_Z b) mod 2 ^ 256)
           _ 8 0).
  - split; [apply wf_zero|]. apply to_Z_zero.
  - intros j pn Hj [Hw Hv].
    destruct (mul_inner a b pn j Ha Hb Hw) as [Hw' Hv']; [lia|].
    split; [exact Hw'|]. simpl in Hv'. rewrite Hv', Hv.
    rewrite to_Z_take_S by (done || lia). rewrite Zplus_mod_idemp_l. f_equal. ring.
Qed.

Lemma bnot_spec (a : list Z) :
  wf a → wf (bnot a) ∧ to_Z (bnot a) = 2 ^ 256 - 1 - to_Z a.
Proof.
  intros Ha.
  cut (wf (bnot a) ∧ to_Z (bnot a) = 2 ^ (32 * 8%nat) - 1 - to_Z (take 8 a)
       ∧ ∀ j, (8 ≤ j)%nat → (bnot a).[j] = 0).
  { rewrite (take_ge a) by (rewrite (wf_length a Ha); lia). tauto. }
  apply (for_up_inv (λ i r, wf r ∧ to_Z r = 2 ^ (32 * i) - 1 - to_Z (take i a)
           ∧ ∀ j, (i ≤ j)%nat → r.[j] = 0) _ 8 0).
  - split; [apply wf_zero|]. split; [apply to_Z_zero|]. intros. apply aget_zero.
  - intros i r Hi (Hw & Hv & H0). pose proof (wf_limb a i Ha).
    assert (u32 (Z.lnot a.[i]) = 2 ^ 32 - 1 - a.[i]) as E.
    { unfold u32, wrap, Z.lnot. symmetry. apply Z.mod_unique with (-1); lia. }
    rewrite E. split; [apply wf_aset; [done | lia]|]. split.
    + rewrite to_Z_aset, to_Z_take_S, Hv, H0 by (done || lia).
      replace (32 * S i) with (32 + 32 * i) by lia. rewrite Z.pow_add_r by lia. ring.
    + intros j Hj. rewrite aget_aset_ne by lia. apply H0. lia.
Qed.

Lemma incr_loop_spec (n i : nat) (pn : list Z) :
  wf pn → (i + n = 8)%nat →
  wf (incr_loop n i pn) ∧
  to_Z (incr_loop n i pn) = (to_Z pn + 2 ^ (32 * i)) mod 2 ^ 256.
Proof.
  revert i pn. induction n as [|n IH]; intros i pn Hw Hi; simpl.
  - split; [done|]. replace i with 8%nat by lia. change (32 * 8%nat) with 256.
    replace (to_Z pn + 2 ^ 256) with (to_Z pn + 1 * 2 ^ 256) by ring.
    rewrite Z.mod_add by done. by rewrite Z.mod_small by (by apply to_Z_range).
  - pose proof (wf_limb pn i Hw). unfold u32.
    pose proof (wrap_range 32 (pn.[i] + 1) ltac:(lia)).
    assert (wf (pn.[i <- wrap 32 (pn.[i] + 1)])) as Hw' by (by apply wf_aset).
    case_if; bool_to_prop.
    + destruct (IH (S i) _ Hw' ltac:(lia)) as [? ->]. split; [done|].
      assert (pn.[i] = 2 ^ 32 - 1).
      { destruct (decide (pn.[i] = 2 ^ 32 - 1)); [done|]. exfalso.
        rewrite wrap_small in E by (unfold is_word; lia). lia. }
      f_equal. rewrite to_Z_aset, E by (done || lia).
      replace (32 * S i) with (32 + 32 * i) by lia. rewrite Z.pow_add_r by lia. nia.
    + split; [done|].
      assert (wrap 32 (pn.[i] + 1) = pn.[i] + 1) as E'.
      { apply wrap_small. unfold is_word. split; [lia|].
        destruct (decide (pn.[i] + 1 = 2 ^ 32)) as [F|]; [|lia].
        exfalso. apply E. rewrite F. done. }
      rewrite E' in *. rewrite <- (Z.mod_small (to_Z _) (2 ^ 256)) by (by apply to_Z_range).
      f_equal. rewrite to_Z_aset by (done || lia). ring.
Qed.

Lemma incr_spec (a : list Z) :
  wf a → wf (incr a) ∧ to_Z (incr a) = (to_Z a + 1) mod 2 ^ 256.
Proof. intros. by apply (incr_loop_spec 8 0). Qed.

Lemma decr_loop_spec (n i : nat) (pn : list Z) :
  wf pn → (i + n = 8)%nat →
  wf (decr_loop n i pn) ∧
  to_Z (decr_loop n i pn) = (to_Z pn - 2 ^ (32 * i)) mod 2 ^ 256.
Proof.
  change (u32 (-1)) with (2 ^ 32 - 1).
  revert i pn. induction n as [|n IH]; intros i pn Hw Hi; simpl.
  - split; [done|]. replace i with 8%nat by lia. change (32 * 8%nat) with 256.
    replace (to_Z pn - 2 ^ 256) with (to_Z pn + (-1) * 2 ^ 256) by ring.
    rewrite Z.mod_add by done. by rewrite Z.mod_small by (by apply to_Z_range).
  - pose proof (wf_limb pn i Hw). unfold u32.
    pose proof (wrap_range 32 (pn.[i] - 1) ltac:(lia)).
    assert (wf (pn.[i <- wrap 32 (pn.[i] - 1)])) as Hw' by (by apply wf_aset).
    change (wrap 32 (-1)) with (2 ^ 32 - 1). case_if; bool_to_prop.
    + destruct (IH (S i) _ Hw' ltac:(lia)) as [? ->]. split; [done|].
      assert (pn.[i] = 0).
      { destruct (decide (pn.[i] = 0)); [done|]. exfalso.
        rewrite wrap_small in E by (unfold is_word; lia). lia. }
      f_equal. rewrite to_Z_aset, E by (done || lia).
      replace (32 * S i) with (32 + 32 * i) by lia. rewrite Z.pow_add_r by lia. nia.
    + split; [done|].
      assert (wrap 32 (pn.[i] - 1) = pn.[i] - 1) as E'.
      { apply wrap_small. unfold is_word. split; [|lia].
        destruct (decide (pn.[i] = 0)) as [F|]; [|lia].
        exfalso. apply E. rewrite F. done. }
      rewrite E' in *. rewrite <- (Z.mod_small (to_Z _) (2 ^ 256)) by (by apply to_Z_range).
      f_equal. rewrite to_Z_aset by (done || lia). ring.
Qed.

Lemma decr_spec (a : list Z) :
  wf a → wf (decr a) ∧ to_Z (decr a) = (to_Z a - 1) mod 2 ^ 256.
Proof. intros. by apply (decr_loop_spec 8 0). Qed.

Lemma neg_spec (a : list Z) :
  wf a → wf (neg a) ∧ to_Z (neg a) = (- to_Z a) mod 2 ^ 256.
Proof.
  intros Ha. destruct (bnot_spec a Ha) as [Hw Hv].
  destruct (incr_spec _ Hw) as [Hw' Hv']. split; [done|]. unfold neg.
  rewrite Hv', Hv. replace (2 ^ 256 - 1 - to_Z a + 1) with (- to_Z a + 1 * 2 ^ 256) by ring.
  by rewrite Z.mod_add.
Qed.

Lemma sub_spec (a b : list Z) :
  wf a → wf b → wf (sub a b) ∧ to_Z (sub a b) = (to_Z a - to_Z b) mod 2 ^ 256.
Proof.
  intros Ha Hb. destruct (neg_spec b Hb) as [Hw Hv].
  destruct (add_spec a _ Ha Hw) as [Hw' Hv']. split; [done|]. unfold sub.
  by rewrite Hv', Hv, Zplus_mod_idemp_r.
Qed.

(** A limb shifted left by [s < 32] bits: the part that stays and the part
    that moves to the next limb. *)
Lemma limb_shl (x s : Z) :
  0 <= x < 2 ^ 32 → 0 <= s <= 32 →
  let h := x .>> (32 - s) in let l := u32 (x .<< s) in
  x * 2 ^ s = h * 2 ^ 32 + l ∧ 0 <= h < 2 ^ s ∧ 0 <= l < 2 ^ 32 ∧ l mod 2 ^ s = 0.
Proof.
  intros Hx Hs h l. subst h l. unfold u32, wrap. rewrite shr_div, shl_mul by lia.
  assert (2 ^ 32 = 2 ^ (32 - s) * 2 ^ s) as EP by (rewrite <- Z.pow_add_r by lia; f_equal; lia).
  pose proof (pow2_pos s ltac:(lia)). pose proof (pow2_pos (32 - s) ltac:(lia)).
  assert ((x * 2 ^ s) mod 2 ^ 32 = (x mod 2 ^ (32 - s)) * 2 ^ s) as ->.
  { rewrite EP. by rewrite Z.mul_mod_distr_r by lia. }
  pose proof (Z.div_mod x (2 ^ (32 - s)) ltac:(lia)).
  pose proof (Z.mod_pos_bound x (2 ^ (32 - s)) ltac:(lia)).
  split; [nia|]. split; [|split; [nia | apply Z.mod_mul; lia]].
  split; [apply Z.div_pos; lia | apply Z.div_lt_upper_bound; lia].
Qed.

(** The high part of limb [i] goes to limb [i + k + 1], which is still zero. *)
Lemma shl_step_high (i k : nat) (s h : Z) (pn : list Z) :
  wf pn → 0 <= s < 32 → 0 <= h < 2 ^ s → (∀ j, (i + k < j)%nat → pn.[j] = 0) →
  let pn1 := if (i + k + 1 <? WIDTH)%nat && negb (s =? 0)
             then pn.[i + k + 1 <- pn.[i + k + 1] .| h] else pn in
  wf pn1 ∧ pn1.[i + k] = pn.[i + k] ∧ (∀ j, (i + k + 1 < j)%nat → pn1.[j] = 0)
  ∧ (pn1.[i + k + 1] < 2 ^ s)
  ∧ ((i + k + 1 < 8)%nat → to_Z pn1 = to_Z pn + h * 2 ^ 32 * 2 ^ (32 * (i + k)%nat))
  ∧ ((8 ≤ i + k + 1)%nat → pn1 = pn).
Proof.
  intros Hw Hs Hh Hz pn1. pose proof (pow2_pos s ltac:(lia)). subst pn1.
  rewrite (Hz (i + k + 1)%nat), Z.lor_0_l by lia.
  assert (2 ^ s <= 2 ^ 32) by (apply Z.pow_le_mono_r; lia).
  case_if; bool_to_prop.
  - unfold WIDTH in *. split_and!; intros.
    + apply wf_aset; [done | lia].
    + by rewrite aget_aset_ne by lia.
    + rewrite aget_aset_ne by lia. apply Hz. lia.
    + rewrite aget_aset_eq; [lia|]. rewrite wf_length by done. lia.
    + rewrite to_Z_aset, (Hz (i + k + 1)%nat) by (done || lia).
      replace (32 * (i + k + 1)%nat) with (32 + 32 * (i + k)%nat) by lia.
      rewrite Z.pow_add_r by lia. ring.
    + lia.
  - unfold WIDTH in *. split_and!; try done.
    + intros. apply Hz. lia.
    + rewrite Hz by lia. lia.
    + intros. destruct E as [E|E]; bool_to_prop; [lia|].
      subst s. simpl in Hh. replace h with 0 by lia. lia.
Qed.

Definition shl_inv (a : list Z) (k : nat) (s : Z) (i : nat) (pn : list Z) : Prop :=
  wf pn ∧ (∃ o, to_Z pn + o * 2 ^ 256 = to_Z (take i a) * 2 ^ (32 * k + s)) ∧
  (∀ j, (i + k < j)%nat → pn.[j] = 0) ∧ pn.[i + k] < 2 ^ s.

Lemma shl_step_inv (a : list Z) (k : nat) (s : Z) (i : nat) (pn : list Z) :
  wf a → 0 <= s < 32 → (i < 8)%nat → shl_inv a k s i pn →
  shl_inv a k s (S i) (shl_step a k s i pn).
Proof.
  intros Ha Hs Hi (Hw & (o & Ho) & Hz & Hlt). unfold shl_step.
  pose proof (wf_limb a i Ha) as Hx. pose proof (wf_limb pn (i + k) Hw) as Hpk.
  destruct (limb_shl _ s Hx ltac:(lia)) as (EX & Hh & Hl & Hm). simpl in EX, Hh, Hl, Hm.
  set (h := a.[i] .>> (32 - s)) in *. set (l := u32 (a.[i] .<< s)) in *.
  assert (2 ^ (32 * k + s) * 2 ^ (32 * i) = 2 ^ s * 2 ^ (32 * (i + k)%nat)) as EP.
  { rewrite <- !Z.pow_add_r by lia. f_equal. lia. }
  assert (to_Z (take (S i) a) * 2 ^ (32 * k + s)
          = to_Z pn + o * 2 ^ 256 + (h * 2 ^ 32 + l) * 2 ^ (32 * (i + k)%nat)) as ET.
  { rewrite to_Z_take_S, Z.mul_add_distr_r, Ho, <- EX by (done || lia).
    rewrite <- (Z.mul_assoc a.[i]), (Z.mul_comm (2 ^ (32 * i))), EP. ring. }
  destruct (shl_step_high i k s h pn Hw Hs Hh Hz) as (Hw1 & E1 & Hz1 & Hlt1 & HA & HB).
  set (pn1 := if _ && _ then _ else pn) in *.
  case_if; bool_to_prop; unfold WIDTH in *.
  - rewrite E1. rewrite (lor_add' pn.[i + k] l s) by lia.
    pose proof (add_below_pow2 pn.[i + k] l s 32 ltac:(lia) Hlt Hl Hm) as Hsum.
    split; [apply wf_aset; [done | lia]|]. split; [|split].
    + destruct (decide (i + k + 1 < 8)%nat).
      * exists o. rewrite ET, to_Z_aset, E1, HA by (done || lia). ring.
      * rewrite HB in * by lia. exists (o + h).
        rewrite ET, to_Z_aset by (done || lia).
        replace (2 ^ 256) with (2 ^ 32 * 2 ^ (32 * (i + k)%nat)); [ring|].
        rewrite <- Z.pow_add_r by lia. f_equal. lia.
    + intros j Hj. rewrite aget_aset_ne by lia. apply Hz1. lia.
    + rewrite aget_aset_ne by lia. by replace (S i + k)%nat with (i + k + 1)%nat by lia.
  - rewrite HB in * by lia. split; [done|]. split; [|split].
    + exists (o + (h * 2 ^ 32 + l) * 2 ^ (32 * (i + k)%nat - 256)). rewrite ET.
      replace (2 ^ (32 * (i + k)%nat)) with (2 ^ (32 * (i + k)%nat - 256) * 2 ^ 256); [ring|].
      rewrite <- Z.pow_add_r by lia. f_equal. lia.
    + intros. apply Hz. lia.
    + by replace (S i + k)%nat with (i + k + 1)%nat by lia.
Qed.

Lemma shl_spec (a : list Z) (shift : Z) :
  wf a → 0 <= shift →
  wf (shl a shift) ∧ to_Z (shl a shift) = (to_Z a * 2 ^ shift) mod 2 ^ 256.
Proof.
  intros Ha Hs. unfold shl.
  pose proof (Z.mod_pos_bound shift 32 ltac:(lia)). pose proof (Z.div_mod shift 32 ltac:(lia)).
  assert (0 <= shift / 32) by (apply Z.div_pos; lia).
  set (k := Z.to_nat (shift / 32)). set (s := shift mod 32) in *.
  assert (shl_inv a k s 8 (for_up 0 WIDTH (shl_step a k s) zero)) as (Hw & (o & Ho) & _).
  { apply (for_up_inv (shl_inv a k s) _ 8 0).
    - split; [apply wf_zero|]. split; [|split].
      + exists 0. change (to_Z (take 0 a)) with 0. rewrite to_Z_zero. lia.
      + intros. apply aget_zero.
      + rewrite aget_zero. apply pow2_pos. lia.
    - intros. apply shl_step_inv; (done || lia). }
  split; [done|]. rewrite (take_ge a) in Ho by (rewrite (wf_length a Ha); lia).
  replace (32 * k + s) with shift in Ho by lia. rewrite <- Ho, Z.mod_add by done.
  symmetry. apply Z.mod_small. by apply to_Z_range.
Qed.

Definition shr_inv (a : list Z) (k : nat) (s : Z) (i : nat) (pn : list Z) : Prop :=
  wf pn ∧ to_Z pn = to_Z (take i a) / 2 ^ (32 * k + s) ∧
  (∀ j, (i ≤ j + k)%nat → pn.[j] = 0) ∧
  (∀ j, (i = j + k + 1)%nat → pn.[j] < 2 ^ (32 - s)).

Lemma to_Z_take_range (a : list Z) (i : nat) :
  wf a → 0 <= to_Z (take i a) < 2 ^ (32 * i).
Proof.
  intros [Hl Hw].
  pose proof (le_val_range 32 ltac:(lia) (take i a) (Forall_take _ _ _ Hw)) as R.
  split; [apply R|]. eapply Z.lt_le_trans; [apply R|].
  apply Z.pow_le_mono_r; [lia|]. rewrite length_take. lia.
Qed.

(** Limb [m + k + 1] straddles the result limbs [m] and [m + 1]. *)
Lemma shr_step_straddle (a : list Z) (k m : nat) (s : Z) (pn : list Z) :
  wf a → 0 <= s < 32 → (m + k + 1 < 8)%nat → shr_inv a k s (m + k + 1) pn →
  let x := a.[m + k + 1] in
  let pn1 := if negb (s =? 0) then pn.[m <- pn.[m] .| u32 (x .<< (32 - s))] else pn in
  shr_inv a k s (m + k + 2) (pn1.[m + 1 <- pn1.[m + 1] .| (x .>> s)]).
Proof.
  intros Ha Hs Hm (Hw & Hv & Hz & Hlt) x pn1.
  pose proof (wf_limb a (m + k + 1) Ha) as Hx. fold x in Hx.
  destruct (limb_shl x (32 - s) Hx ltac:(lia)) as (EX & Hh & Hl & Hmd).
  replace (32 - (32 - s)) with s in EX, Hh by lia. simpl in EX, Hh, Hl, Hmd.
  set (h := x .>> s) in *. set (l := u32 (x .<< (32 - s))) in *.
  pose proof (wf_limb pn m Hw) as Hpm. specialize (Hlt m ltac:(lia)) as Hltm.
  assert (wf pn1 ∧ to_Z pn1 = to_Z pn + l * 2 ^ (32 * m)
          ∧ ∀ j, (m + 1 ≤ j)%nat → pn1.[j] = 0) as (Hw1 & Hv1 & Hz1).
  { subst pn1. case_if; bool_to_prop.
    - rewrite (lor_add' pn.[m] l (32 - s)) by lia.
      pose proof (add_below_pow2 pn.[m] l (32 - s) 32 ltac:(lia) Hltm Hl Hmd).
      split_and!; [apply wf_aset; [done|lia] | |].
      + rewrite to_Z_aset by (done || lia). ring.
      + intros j Hj. rewrite aget_aset_ne by lia. apply Hz. lia.
    - subst s. change (32 - 0) with 32 in *. rewrite Z.mod_small in Hmd by lia.
      rewrite Hmd. split_and!; [done | lia | intros; apply Hz; lia]. }
  rewrite (Hz1 (m + 1)%nat), Z.lor_0_l by lia.
  assert (h <= x) by (apply Z.le_trans with (x / 1); [|rewrite Z.div_1_r; lia];
    unfold h; rewrite shr_div by lia; apply Z.div_le_compat_l; [lia|];
    pose proof (pow2_pos s ltac:(lia)); lia).
  split; [apply wf_aset; [done | lia]|]. split; [|split].
  - rewrite to_Z_aset, Hv1, Hv, (Hz1 (m + 1)%nat) by (done || lia).
    replace (m + k + 2)%nat with (S (m + k + 1)) by lia.
    rewrite to_Z_take_S by (done || lia). fold x.
    replace (2 ^ (32 * (m + k + 1)%nat)) with (2 ^ (32 - s) * 2 ^ (32 * m) * 2 ^ (32 * k + s)).
    2: { rewrite <- !Z.pow_add_r by lia. f_equal. lia. }
    rewrite !Z.mul_assoc, EX, Z.div_add by (apply Z.pow_nonzero; lia).
    replace (32 * (m + 1)%nat) with (32 + 32 * m) by lia.
    rewrite (Z.pow_add_r 2 32) by lia. ring.
  - intros j Hj. rewrite aget_aset_ne by lia. apply Hz1. lia.
  - intros j Hj. replace j with (m + 1)%nat by lia.
    rewrite aget_aset_eq by (rewrite wf_length by done; lia).
    unfold h. rewrite shr_div by lia. apply Z.div_lt_upper_bound; [apply pow2_pos; lia|].
    rewrite <- Z.pow_add_r by lia. replace (s + (32 - s)) with 32 by lia. lia.
Qed.

Lemma shr_step_inv (a : list Z) (k : nat) (s : Z) (i : nat) (pn : list Z) :
  wf a → 0 <= s < 32 → (i < 8)%nat → shr_inv a k s i pn →
  shr_inv a k s (S i) (shr_step a k s i pn).
Proof.
  intros Ha Hs Hi Hinv. unfold shr_step.
  destruct (Nat.leb_spec (k + 1) i) as [Hk|Hk].
  - destruct (Nat.leb_spec k i); [|lia]. rewrite andb_true_l.
    replace i with ((i - k - 1) + k + 1)%nat in Hinv by lia.
    replace (i - k)%nat with (i - k - 1 + 1)%nat by lia.
    replace (S i) with (i - k - 1 + k + 2)%nat by lia.
    pose proof (shr_step_straddle a k (i - k - 1) s pn Ha Hs ltac:(lia) Hinv) as Hst.
    replace (i - k - 1 + k + 1)%nat with i in Hst by lia.
    by replace (i - k - 1 + 1 - 1)%nat with (i - k - 1)%nat by lia.
  - rewrite andb_false_l. destruct Hinv as (Hw & Hv & Hz & Hlt).
    pose proof (to_Z_take_range a i Ha). pose proof (wf_limb a i Ha) as Hx.
    pose proof (pow2_pos s ltac:(lia)).
    assert (to_Z (take (S i) a) / 2 ^ (32 * k + s)
            = (if (k <=? i)%nat then a.[i] / 2 ^ s else 0)) as EV.
    { rewrite to_Z_take_S by (done || lia). case_if; bool_to_prop.
      - replace k with i by lia. rewrite Z.pow_add_r, <- Z.div_div, Z.div_add by lia.
        by rewrite (Z.div_small (to_Z _)) by lia.
      - apply Z.div_small. pose proof (to_Z_take_range a (S i) Ha) as R.
        rewrite to_Z_take_S in R by (done || lia). split; [lia|].
        eapply Z.lt_le_trans; [apply R|]. apply Z.pow_le_mono_r; lia. }
    assert (to_Z pn = 0) as Hv0.
    { rewrite Hv. apply Z.div_small. split; [lia|]. eapply Z.lt_le_trans; [apply H|].
      apply Z.pow_le_mono_r; lia. }
    case_if; bool_to_prop.
    + replace (i - k)%nat with 0%nat by lia. rewrite (Hz 0%nat), Z.lor_0_l by lia.
      rewrite shr_div by lia.
      assert (0 <= a.[i] / 2 ^ s < 2 ^ (32 - s)).
      { split; [apply Z.div_pos; lia|]. apply Z.div_lt_upper_bound; [lia|].
        rewrite <- Z.pow_add_r by lia. replace (s + (32 - s)) with 32 by lia. lia. }
      assert (2 ^ (32 - s) <= 2 ^ 32) by (apply Z.pow_le_mono_r; lia).
      split; [apply wf_aset; [done|lia]|]. split; [|split].
      * rewrite EV, to_Z_aset, Hv0, (Hz 0%nat) by (done || lia).
        change (2 ^ (32 * 0%nat)) with 1. lia.
      * intros j Hj. rewrite aget_aset_ne by lia. apply Hz. lia.
      * intros j Hj. replace j with 0%nat by lia.
        rewrite aget_aset_eq by (rewrite wf_length by done; lia). lia.
    + split; [done|]. split; [by rewrite EV, Hv0|]. split; [intros; apply Hz; lia | lia].
Qed.

Lemma shr_spec (a : list Z) (shift : Z) :
  wf a → 0 <= shift → wf (shr a shift) ∧ to_Z (shr a shift) = to_Z a / 2 ^ shift.
Proof.
  intros Ha Hs. unfold shr.
  pose proof (Z.mod_pos_bound shift 32 ltac:(lia)). pose proof (Z.div_mod shift 32 ltac:(lia)).
  assert (0 <= shift / 32) by (apply Z.div_pos; lia).
  set (k := Z.to_nat (shift / 32)). set (s := shift mod 32) in *.
  assert (shr_inv a k s 8 (for_up 0 WIDTH (shr_step a k s) zero)) as (Hw & Hv & _).
  { apply (for_up_inv (shr_inv a k s) _ 8 0).
    - split; [apply wf_zero|]. split; [|split].
      + rewrite to_Z_zero. change (to_Z (take 0 a)) with 0.
        symmetry. apply Z.div_0_l, Z.pow_nonzero; lia.
      + intros. apply aget_zero.
      + lia.
    - intros. apply shr_step_inv; (done || lia). }
  split; [done|]. rewrite (take_ge a) in Hv by (rewrite (wf_length a Ha); lia).
  by replace (32 * k + s) with shift in Hv by lia.
Qed.

Lemma compare_loop_spec (n : nat) (a b : list Z) :
  wf a → wf b → (n ≤ 8)%nat →
  compare_loop n a b =
    match to_Z (take n a) ?= to_Z (take n b) with Lt => -1 | Eq => 0 | Gt => 1 end.
Proof.
  intros Ha Hb. induction n as [|n IH]; intros Hn; [done|].
  simpl compare_loop. rewrite !to_Z_take_S by (done || lia).
  pose proof (to_Z_take_range a n Ha). pose proof (to_Z_take_range b n Hb).
  repeat case_if; bool_to_prop.
  - rewrite (proj2 (Z.compare_lt_iff _ _)); [done|]. nia.
  - rewrite (proj2 (Z.compare_gt_iff _ _)); [done|]. apply Z.gtb_lt in E0. nia.
  - rewrite IH by lia. rewrite Z.gtb_ltb in E0. bool_to_prop.
    replace (b.[n]) with (a.[n]) by lia.
    destruct (Z.compare_spec (to_Z (take n a)) (to_Z (take n b))); symmetry.
    + by rewrite (proj2 (Z.compare_eq_iff _ _)) by lia.
    + by rewrite (proj2 (Z.compare_lt_iff _ _)) by lia.
    + by rewrite (proj2 (Z.compare_gt_iff _ _)) by lia.
Qed.

Lemma CompareTo_spec (a b : list Z) :
  wf a → wf b →
  CompareTo a b = match to_Z a ?= to_Z b with Lt => -1 | Eq => 0 | Gt => 1 end.
Proof.
  intros Ha Hb. unfold CompareTo. rewrite compare_loop_spec by (done || (unfold WIDTH; lia)).
  unfold WIDTH. by rewrite !take_ge by (rewrite wf_length by done; lia).
Qed.

Lemma geb_spec (a b : list Z) : wf a → wf b → geb a b = (to_Z b <=? to_Z a).
Proof.
  intros Ha Hb. unfold geb. rewrite CompareTo_spec by done.
  destruct (Z.compare_spec (to_Z a) (to_Z b)); destruct (Z.leb_spec (to_Z b) (to_Z a)); simpl; lia.
Qed.

Lemma gtb_spec (a b : list Z) : wf a → wf b → gtb a b = (to_Z b <? to_Z a).
Proof.
  intros Ha Hb. unfold gtb. rewrite CompareTo_spec by done.
  destruct (Z.compare_spec (to_Z a) (to_Z b)); destruct (Z.ltb_spec (to_Z b) (to_Z a)); simpl; lia.
Qed.

Lemma land_shl1 (x : Z) (n : nat) : (x .& (1 .<< n) =? 0) = negb (Z.testbit x n).
Proof.
  rewrite Z.shiftl_1_l. destruct (Z.testbit x n) eqn:E; simpl.
  - apply Z.eqb_neq. intros H0. assert (Z.testbit (x .& 2 ^ n) n = false) as F
      by (by rewrite H0, Z.bits_0).
    rewrite Z.land_spec, E, Z.pow2_bits_true in F by lia. done.
  - apply Z.eqb_eq. apply Z.bits_inj_0. intros j. rewrite Z.land_spec.
    destruct (decide (j = n)) as [->|]; [by rewrite E|].
    rewrite Z.pow2_bits_false by lia. apply andb_false_r.
Qed.

Lemma bits_limb_spec (n : nat) (x : Z) :
  0 < x < 2 ^ (n + 1) →
  match bits_limb n x with Some b => b | None => 0 end = Z.log2 x.
Proof.
  induction n as [|n IH]; intros Hx.
  - replace x with 1 by (simpl in Hx; lia). done.
  - simpl bits_limb. rewrite land_shl1, negb_involutive. case_if.
    + symmetry. apply Z.log2_unique; [lia|]. split; [|rewrite <- Z.add_1_r; lia].
      destruct (Z.le_gt_cases (2 ^ S n) x); [done|].
      rewrite Z.bits_above_log2 in E; [done | lia | apply Z.log2_lt_pow2; lia].
    + apply IH. split; [lia|].
      destruct (Z.lt_ge_cases x (2 ^ (n + 1))); [done|]. exfalso.
      replace (n + 1) with (Z.of_nat (S n)) in H by lia.
      assert (Z.log2 x = S n) as EL.
      { apply Z.log2_unique; [lia|]. rewrite <- Z.add_1_r. lia. }
      rewrite <- EL, Z.bit_log2 in E by lia. done.
Qed.

Definition zbits (z : Z) : Z := if z =? 0 then 0 else Z.log2 z + 1.

Lemma bits_loop_spec (n : nat) (a : list Z) :
  wf a → (n ≤ 8)%nat → bits_loop n a = zbits (to_Z (take n a)).
Proof.
  intros Ha. induction n as [|n IH]; intros Hn; [done|].
  cbn [bits_loop]. rewrite to_Z_take_S by (done || lia).
  pose proof (to_Z_take_range a n Ha). pose proof (wf_limb a n Ha). case_if; bool_to_prop.
  - pose proof (bits_limb_spec 31 a.[n] ltac:(lia)) as HB.
    assert (match bits_limb 31 a.[n] with
            | Some nbits => 32 * n + nbits + 1 | None => 32 * n + 1 end
            = 32 * n + Z.log2 a.[n] + 1) as ->.
    { destruct (bits_limb 31 a.[n]); lia. }
    pose proof (pow2_pos (32 * n) ltac:(lia)). pose proof (Z.log2_nonneg a.[n]).
    unfold zbits. rewrite (proj2 (Z.eqb_neq _ _)) by nia. f_equal. symmetry.
    pose proof (Z.log2_spec a.[n] ltac:(lia)) as [HL HU].
    apply Z.log2_unique; [lia|].
    replace (Z.succ (32 * n + Z.log2 a.[n])) with (32 * n + Z.succ (Z.log2 a.[n])) by lia.
    rewrite !Z.pow_add_r by lia. nia.
  - rewrite IH, E by lia. f_equal. lia.
Qed.

Lemma bits_spec (a : list Z) : wf a → bits a = zbits (to_Z a).
Proof.
  intros Ha. unfold bits. rewrite bits_loop_spec by (done || (unfold WIDTH; lia)).
  by rewrite take_ge by (rewrite wf_length by done; unfold WIDTH; lia).
Qed.

Lemma zbits_bounds (z : Z) :
  0 < z → 1 <= zbits z ∧ 2 ^ (zbits z - 1) <= z < 2 ^ zbits z.
Proof.
  intros Hz. unfold zbits. rewrite (proj2 (Z.eqb_neq _ _)) by lia.
  pose proof (Z.log2_spec z Hz) as HL. pose proof (Z.log2_nonneg z).
  rewrite Z.add_simpl_r, Z.add_1_r. lia.
Qed.

Lemma limb_div_mod (a : list Z) (i : nat) :
  wf a → (i < 8)%nat → a.[i] = (to_Z a / 2 ^ (32 * i)) mod 2 ^ 32.
Proof.
  intros Ha Hi. pose proof (to_Z_take_range a i Ha) as R. pose proof (wf_limb a i Ha).
  assert (to_Z a = to_Z (take (S i) a) + 2 ^ (32 * S i) * le_val 32 (drop (S i) a)) as ->.
  { apply le_val_take_drop; [lia|]. rewrite wf_length by done. lia. }
  rewrite to_Z_take_S by done.
  replace (32 * S i) with (32 * i + 32) by lia. rewrite Z.pow_add_r by lia.
  set (q := le_val 32 (drop (S i) a)).
  replace (to_Z (take i a) + a.[i] * 2 ^ (32 * i) + 2 ^ (32 * i) * 2 ^ 32 * q)
    with (to_Z (take i a) + (a.[i] + q * 2 ^ 32) * 2 ^ (32 * i)) by ring.
  rewrite Z.div_add, Z.div_small, Z.add_0_l, Z.mod_add by lia.
  by rewrite Z.mod_small by lia.
Qed.

(** Setting bit [k] of a number whose bits up to [k] are clear. *)
Lemma set_bit_spec (pn : list Z) (k : nat) :
  wf pn → (k < 256)%nat → to_Z pn mod 2 ^ (k + 1) = 0 →
  let pn' := pn.[k / 32 <- pn.[k / 32] .| u32 (1 .<< (Z.of_nat k .& 31))] in
  wf pn' ∧ to_Z pn' = to_Z pn + 2 ^ k.
Proof.
  intros Hw Hk Hm pn'. subst pn'. change 31 with (2 ^ 5 - 1). rewrite land_ones_mod by lia.
  change (2 ^ 5) with 32. set (q := (k / 32)%nat). set (r := Z.of_nat k mod 32).
  pose proof (Z.mod_pos_bound k 32 ltac:(lia)) as Hr. fold r in Hr.
  assert (Z.of_nat k = 32 * q + r) as Ek.
  { subst q r. rewrite Nat2Z.inj_div. apply Z.div_mod. lia. }
  assert (q < 8)%nat by lia.
  rewrite Z.shiftl_1_l. unfold u32. rewrite wrap_small.
  2: { split; [apply Z.pow_nonneg; lia | apply Z.pow_lt_mono_r; lia]. }
  assert (pn.[q] mod 2 ^ (r + 1) = 0) as Hq.
  { rewrite limb_div_mod by done.
    apply Z.div_exact in Hm; [|apply Z.pow_nonzero; lia].
    set (t := to_Z pn / 2 ^ (k + 1)) in Hm.
    replace (k + 1) with (r + 1 + 32 * q) in Hm by lia. rewrite Z.pow_add_r in Hm by lia.
    rewrite Hm, (Z.mul_comm (2 ^ (r + 1))), <- Z.mul_assoc, Z.mul_comm, Z.div_mul
      by (apply Z.pow_nonzero; lia).
    rewrite Z.mod_mod_divide.
    - rewrite Z.mul_comm. apply Z.mod_mul, Z.pow_nonzero; lia.
    - exists (2 ^ (32 - (r + 1))). rewrite <- Z.pow_add_r by lia. f_equal. lia. }
  pose proof (wf_limb pn q Hw) as Hpq.
  assert (2 ^ r < 2 ^ (r + 1)) as Hrr by (apply Z.pow_lt_mono_r; lia).
  pose proof (pow2_pos r ltac:(lia)).
  rewrite Z.lor_comm, (lor_add' (2 ^ r) pn.[q] (r + 1)) by (lia || done).
  pose proof (add_below_pow2 (2 ^ r) pn.[q] (r + 1) 32 ltac:(lia) Hrr Hpq Hq).
  split; [apply wf_aset; [done | lia]|]. rewrite to_Z_aset by done.
  rewrite Ek, Z.pow_add_r by lia. ring.
Qed.

Definition div_inv (A B : Z) (k : nat) (st : list Z * list Z * list Z) : Prop :=
  let '(dv, num, pn) := st in
  wf dv ∧ wf num ∧ wf pn ∧ to_Z num + to_Z pn * B = A ∧ to_Z num < B * 2 ^ k ∧
  to_Z pn mod 2 ^ k = 0 ∧ ((0 < k)%nat → to_Z dv = B * 2 ^ (k - 1)).

Lemma div_step_inv (A B : Z) (k : nat) (st : list Z * list Z * list Z) :
  0 < B → (k < 256)%nat → div_inv A B (S k) st → div_inv A B k (div_step k st).
Proof.
  destruct st as [[dv num] pn].
  intros HB Hk (Hwd & Hwn & Hwp & HA & Hlt & Hm & Hd). unfold div_step.
  specialize (Hd ltac:(lia)). replace (S k - 1) with (Z.of_nat k) in Hd by lia.
  destruct (shr_spec dv 1 Hwd ltac:(lia)) as [Hws Hvs]. change (2 ^ 1) with 2 in Hvs.
  replace (Z.of_nat (S k)) with (k + 1) in * by lia.
  assert (∀ n, n mod 2 ^ (k + 1) = 0 → n mod 2 ^ k = 0) as Hmk.
  { intros n Hn. apply Z.mod_divide; [apply Z.pow_nonzero; lia|].
    apply Z.mod_divide in Hn; [|apply Z.pow_nonzero; lia].
    apply Z.divide_trans with (2 ^ (k + 1)); [|done].
    exists 2. rewrite Z.pow_add_r by lia. ring. }
  assert ((0 < k)%nat → to_Z (shr dv 1) = B * 2 ^ (k - 1)) as Hd'.
  { intros. rewrite Hvs, Hd. replace (Z.of_nat k) with (k - 1 + 1) at 1 by lia.
    rewrite Z.pow_add_r, Z.mul_assoc by lia. change (2 ^ 1) with 2. by apply Z.div_mul. }
  rewrite Z.pow_add_r in Hlt by lia. change (2 ^ 1) with 2 in Hlt.
  pose proof (to_Z_range num Hwn) as Rn. pose proof (to_Z_range dv Hwd) as Rd.
  rewrite geb_spec by done. case_if; bool_to_prop.
  - destruct (sub_spec num dv Hwn Hwd) as [Hwm Hvm]. rewrite Z.mod_small in Hvm by lia.
    destruct (set_bit_spec pn k Hwp Hk Hm) as [Hwp' Hvp'].
    split_and!; try done; rewrite ?Hvm, ?Hvp'; [nia|lia|].
    rewrite Z.add_mod, (Hmk _ Hm), Z.mod_same by (apply Z.pow_nonzero; lia). done.
  - split_and!; try done; [lia | by apply Hmk].
Qed.

(** The loop run from an aligned divisor leaves the quotient in [pn]. *)
Lemma div_loop_spec (a b : list Z) (n : nat) :
  wf a → wf b → (n < 256)%nat → 0 < to_Z b →
  to_Z b * 2 ^ n < 2 ^ 256 → to_Z a < 2 * to_Z b * 2 ^ n →
  let q := snd (for_down (S n) div_step (shl b n, a, zero)) in
  wf q ∧ to_Z q = to_Z a / to_Z b.
Proof.
  intros Ha Hb Hn HB Hfit Hlt.
  pose proof (to_Z_range b Hb). pose proof (pow2_pos n ltac:(lia)).
  destruct (shl_spec b n Hb ltac:(lia)) as [Hws Hvs]. rewrite Z.mod_small in Hvs by nia.
  assert (div_inv (to_Z a) (to_Z b) 0 (for_down (S n) div_step (shl b n, a, zero))) as Hinv.
  { apply for_down_inv.
    - unfold div_inv. rewrite to_Z_zero.
      replace (Z.of_nat (S n)) with (Z.succ n) by lia. rewrite Z.pow_succ_r by lia.
      split_and!; [done|done|apply wf_zero|lia|lia|by rewrite Z.mod_0_l by lia|].
      intros _. rewrite Hvs. do 2 f_equal. lia.
    - intros k st Hk Hst. apply div_step_inv; [lia|lia|done]. }
  destruct (for_down _ _ _) as [[dv num] q]. destruct Hinv as (_ & Hwn & Hwq & HA & HL & _).
  split; [done|]. pose proof (to_Z_range num Hwn). change (2 ^ 0%nat) with 1 in HL.
  apply Z.div_unique with (to_Z num); [left; lia | simpl; lia].
Qed.

Lemma zbits_256 (z : Z) : z < 2 ^ 256 → zbits z <= 256.
Proof.
  intros Hz. destruct (Z.le_gt_cases z 0) as [Hz0|Hz0].
  - unfold zbits. case_if; [lia|]. rewrite Z.log2_nonpos; lia.
  - destruct (zbits_bounds z Hz0) as (H1 & HL & _).
    destruct (Z.le_gt_cases (zbits z) 256); [done|].
    assert (2 ^ 256 <= 2 ^ (zbits z - 1)) by (apply Z.pow_le_mono_r; lia). lia.
Qed.

Lemma zbits_lt (x y : Z) : 0 <= x → 0 < y → zbits x < zbits y → x < y.
Proof.
  intros Hx Hy Hlt. destruct (Z.eq_dec x 0) as [->|]; [done|].
  destruct (zbits_bounds x) as (? & ? & ?); [lia|].
  destruct (zbits_bounds y) as (? & ? & ?); [lia|].
  assert (2 ^ zbits x <= 2 ^ (zbits y - 1)) by (apply Z.pow_le_mono_r; lia). lia.
Qed.

(** Long division: quotient of the values; [None] exactly on a zero divisor. *)
Lemma div_spec (a b : list Z) :
  wf a → wf b →
  if to_Z b =? 0 then div a b = None
  else ∃ q, div a b = Some q ∧ wf q ∧ to_Z q = to_Z a / to_Z b.
Proof.
  intros Ha Hb. pose proof (to_Z_range a Ha). pose proof (to_Z_range b Hb).
  unfold div. rewrite !bits_spec by done.
  destruct (Z.eqb_spec (to_Z b) 0) as [Eb|Eb]; [by rewrite Eb|].
  destruct (zbits_bounds (to_Z b)) as (Hb1 & HbL & HbU); [lia|].
  rewrite (proj2 (Z.eqb_neq _ _)) by lia. rewrite Z.gtb_ltb.
  destruct (Z.ltb_spec (zbits (to_Z a)) (zbits (to_Z b))) as [Hlt|Hge].
  - exists zero. split; [done|]. split; [apply wf_zero|]. rewrite to_Z_zero. symmetry.
    apply Z.div_small. split; [lia|]. apply zbits_lt; lia.
  - eexists. split; [done|].
    assert (0 < to_Z a) as Ha0.
    { destruct (Z.eq_dec (to_Z a) 0) as [E|]; [|lia]. rewrite E in Hge. change (zbits 0) with 0 in Hge. lia. }
    destruct (zbits_bounds (to_Z a) Ha0) as (Ha1 & HaL & HaU).
    pose proof (zbits_256 (to_Z a) ltac:(lia)).
    set (n := Z.to_nat (zbits (to_Z a) - zbits (to_Z b))).
    assert (zbits (to_Z a) = zbits (to_Z b) + n) as En by lia.
    pose proof (pow2_pos n ltac:(lia)).
    assert (2 ^ zbits (to_Z a) = 2 ^ zbits (to_Z b) * 2 ^ n) as Ep
      by (rewrite En, Z.pow_add_r by lia; done).
    assert (2 ^ zbits (to_Z a) <= 2 ^ 256) by (apply Z.pow_le_mono_r; lia).
    assert (2 ^ zbits (to_Z b) <= 2 * to_Z b) as Hb2.
    { replace (zbits (to_Z b)) with (Z.succ (zbits (to_Z b) - 1)) by lia.
      rewrite Z.pow_succ_r by lia. lia. }
    apply div_loop_spec; try done; [lia|lia|nia|nia].
Qed.

Lemma GetLow64_spec (a : list Z) : wf a → GetLow64 a = to_Z a mod 2 ^ 64.
Proof.
  intros Ha. pose proof (wf_limb a 0 Ha). pose proof (wf_limb a 1 Ha).
  unfold GetLow64. rewrite shl_mul, lor_add by lia.
  assert (to_Z a = to_Z (take 2 a) + 2 ^ (32 * 2%nat) * le_val 32 (drop 2 a)) as ->.
  { apply le_val_take_drop; [lia|]. rewrite wf_length by done. lia. }
  rewrite !to_Z_take_S by (done || lia). change (to_Z (take 0 a)) with 0.
  change (2 ^ (32 * 2%nat)) with (2 ^ 64). rewrite (Z.mul_comm (2 ^ 64)), Z.mod_add by lia.
  change (2 ^ (32 * 0%nat)) with 1. change (2 ^ (32 * 1%nat)) with (2 ^ 32).
  rewrite Z.mod_small by lia. lia.
Qed.

Lemma EqualTo_spec (a : list Z) (b : Z) :
  wf a → is_word 64 b → EqualTo a b = (to_Z a =? b).
Proof.
  intros Ha Hb. destruct (of_uint64_spec b Hb) as [Hwb Hvb].
  transitivity (bool_decide (a = of_uint64 b)).
  - unfold EqualTo. apply eq_true_iff_eq. rewrite bool_decide_eq_true.
    destruct Ha as [Hl _]. do 9 (destruct a as [|? a]; try done). simpl in *.
    change 0xffffffff with (2 ^ 32 - 1). rewrite land_ones_mod by lia.
    unfold of_uint64, aset, zero, u32, wrap. simpl.
    rewrite shr_div by lia. rewrite (Z.mod_small (b / 2 ^ 32)).
    2: { unfold is_word in Hb. split; [apply Z.div_pos; lia | apply Z.div_lt_upper_bound; lia]. }
    unfold aget. simpl. split.
    + intros HE. repeat case_if; bool_to_prop; try done. repeat (f_equal; try lia).
    + intros [= -> -> -> -> -> -> -> ->]. simpl. by rewrite !Z.eqb_refl.
  - apply eq_true_iff_eq. rewrite bool_decide_eq_true, Z.eqb_eq. split.
    + by intros ->.
    + intros E. apply to_Z_inj; try done. congruence.
Qed.

(** ** The compact encoding *)

(** Mantissa, exponent and sign of a compact word. *)
Definition compact_mant (c : Z) : Z := c mod 2 ^ 23.
Definition compact_size (c : Z) : Z := c / 2 ^ 24.

(** The number a compact word denotes, before reduction to 256 bits. *)
Definition compact_value (c : Z) : Z :=
  if compact_size c <=? 3 then compact_mant c / 256 ^ (3 - compact_size c)
  else compact_mant c * 256 ^ (compact_size c - 3).

Lemma pow256 (n : Z) : 0 <= n → 256 ^ n = 2 ^ (8 * n).
Proof. intros. change 256 with (2 ^ 8). by rewrite <- Z.pow_mul_r by lia. Qed.

Lemma compact_mant_range (c : Z) : 0 <= compact_mant c < 2 ^ 23.
Proof. apply Z.mod_pos_bound. lia. Qed.

Lemma compact_size_range (c : Z) : is_word 32 c → 0 <= compact_size c < 256.
Proof.
  intros [? ?]. unfold compact_size.
  split; [apply Z.div_pos; lia | apply Z.div_lt_upper_bound; lia].
Qed.

(** The two out-of-range tests of the source, as one inequality. *)
Lemma compact_overflow_test (m s : Z) :
  0 <= m < 2 ^ 23 → 3 < s < 256 →
  negb (m =? 0) && ((s >? 34) || ((m >? 0xff) && (s >? 33)) || ((m >? 0xffff) && (s >? 32)))
  = (2 ^ 256 <=? m * 256 ^ (s - 3)).
Proof.
  intros Hm Hs. rewrite pow256 by lia. rewrite !Z.gtb_ltb.
  set (e := 8 * (s - 3)).
  assert (∀ k, 0 <= k → k <= e → 2 ^ k <= 2 ^ e) as Hmono.
  { intros. apply Z.pow_le_mono_r; lia. }
  destruct (Z.eqb_spec m 0) as [->|Hm0]; [done|]. simpl negb. rewrite andb_true_l.
  destruct (Z.leb_spec (2 ^ 256) (m * 2 ^ e)) as [Hov|Hok].
  - destruct (Z.ltb_spec 34 s); [done|]. simpl.
    destruct (Z.eq_dec s 34) as [->|]; [|destruct (Z.eq_dec s 33) as [->|]].
    + change (2 ^ e) with (2 ^ 248) in Hov. assert (0xff < m) by lia.
      by rewrite (proj2 (Z.ltb_lt _ _)).
    + change (2 ^ e) with (2 ^ 240) in Hov. assert (0xffff < m) by lia.
      rewrite andb_false_r. simpl. by rewrite (proj2 (Z.ltb_lt _ _)).
    + assert (2 ^ e <= 2 ^ 232) by (apply Z.pow_le_mono_r; lia). nia.
  - destruct (Z.ltb_spec 34 s); [pose proof (Hmono 256); lia|].
    destruct (Z.ltb_spec 33 s).
    { pose proof (Hmono 248). destruct (Z.ltb_spec 0xff m); [nia|]. simpl.
      destruct (Z.ltb_spec 0xffff m); [nia|done]. }
    destruct (Z.ltb_spec 32 s); rewrite ?andb_false_r; [|done].
    pose proof (Hmono 240). destruct (Z.ltb_spec 0xffff m); [nia|done].
Qed.

Lemma SetCompact_spec (c : Z) :
  is_word 32 c →
  let '(v, fNegative, fOverflow) := SetCompact c in
  wf v ∧ to_Z v = compact_value c mod 2 ^ 256 ∧
  fNegative = negb (compact_value c =? 0) && Z.testbit c 23 ∧
  fOverflow = (2 ^ 256 <=? compact_value c).
Proof.
  intros Hc. pose proof (compact_mant_range c) as Hm. pose proof (compact_size_range c Hc) as Hs.
  unfold SetCompact. rewrite shr_div by lia. fold (compact_size c).
  change 0x007fffff with (2 ^ 23 - 1). rewrite land_ones_mod by lia. fold (compact_mant c).
  change 0x00800000 with (1 .<< 23%nat). rewrite land_shl1, negb_involutive.
  change (Z.of_nat 23) with 23. unfold compact_value.
  destruct (Z.leb_spec (compact_size c) 3) as [Hle|Hgt].
  - rewrite shr_div by lia. rewrite pow256 by lia.
    set (w := compact_mant c / 2 ^ (8 * (3 - compact_size c))).
    assert (0 <= w < 2 ^ 23).
    { pose proof (pow2_pos (8 * (3 - compact_size c)) ltac:(lia)). split; [apply Z.div_pos; lia|].
      apply Z.div_lt_upper_bound; nia. }
    destruct (of_uint64_spec w ltac:(lia)) as [Hw Hv].
    split; [done|]. split; [by rewrite Hv, Z.mod_small by lia|]. split; [done|].
    rewrite !Z.gtb_ltb.
    rewrite (proj2 (Z.ltb_ge 34 _)), (proj2 (Z.ltb_ge 33 _)), (proj2 (Z.ltb_ge 32 _)) by lia.
    rewrite !andb_false_r. simpl. by rewrite (proj2 (Z.leb_gt _ _)) by lia.
  - destruct (of_uint64_spec (compact_mant c) ltac:(lia)) as [Hw Hv].
    destruct (shl_spec _ (8 * (compact_size c - 3)) Hw ltac:(lia)) as [Hw' Hv'].
    split; [done|]. split; [by rewrite Hv', Hv, pow256 by lia|]. split.
    + f_equal. f_equal. apply eq_true_iff_eq. rewrite !Z.eqb_eq, pow256 by lia.
      pose proof (pow2_pos (8 * (compact_size c - 3)) ltac:(lia)). nia.
    + apply compact_overflow_test; lia.
Qed.

(** Byte length of a value, as [GetCompact] computes it. *)
Lemma byte_length_bounds (A : Z) :
  0 <= A < 2 ^ 256 →
  let n := (zbits A + 7) / 8 in
  0 <= n <= 32 ∧ A < 256 ^ n ∧ (A ≠ 0 → 1 <= n ∧ 256 ^ (n - 1) <= A).
Proof.
  intros HA n. pose proof (zbits_256 A ltac:(lia)).
  pose proof (Z.div_mod (zbits A + 7) 8 ltac:(lia)) as E. fold n in E.
  pose proof (Z.mod_pos_bound (zbits A + 7) 8 ltac:(lia)).
  destruct (Z.eq_dec A 0) as [->|HA0].
  { change (zbits 0) with 0 in *. assert (n = 0) as -> by lia. done. }
  destruct (zbits_bounds A ltac:(lia)) as (H1 & HL & HU).
  split; [lia|]. split; [|intros _; split; [lia|]]; rewrite pow256 by lia.
  - apply Z.lt_le_trans with (2 ^ zbits A); [lia|]. apply Z.pow_le_mono_r; lia.
  - apply Z.le_trans with (2 ^ (zbits A - 1)); [|lia]. apply Z.pow_le_mono_r; lia.
Qed.

(** The 24-bit mantissa taken before the sign bit is cleared. *)
Lemma GetCompact_mantissa (a : list Z) :
  wf a →
  let n := (zbits (to_Z a) + 7) / 8 in
  let m0 := if n <=? 3 then u32 (u64 (GetLow64 a .<< (8 * (3 - n))))
            else u32 (GetLow64 (shr a (8 * (n - 3)))) in
  m0 = (if n <=? 3 then to_Z a * 256 ^ (3 - n) else to_Z a / 256 ^ (n - 3))
  ∧ 0 <= m0 < 2 ^ 24 ∧ (to_Z a ≠ 0 → 2 ^ 16 <= m0).
Proof.
  intros Ha n. pose proof (to_Z_range a Ha) as Ra.
  destruct (byte_length_bounds (to_Z a) Ra) as (Hn & HU & HL). fold n in Hn, HU, HL.
  destruct (Z.leb_spec n 3) as [Hle|Hgt]; intros m0; subst m0.
  - assert (256 ^ n * 256 ^ (3 - n) = 2 ^ 24) as EP.
    { rewrite <- Z.pow_add_r by lia. by replace (n + (3 - n)) with 3 by lia. }
    pose proof (Z.pow_pos_nonneg 256 (3 - n) ltac:(lia) ltac:(lia)).
    assert (to_Z a < 2 ^ 24).
    { eapply Z.lt_le_trans; [apply HU|]. change (2 ^ 24) with (256 ^ 3). apply Z.pow_le_mono_r; lia. }
    rewrite GetLow64_spec, Z.mod_small, shl_mul, <- pow256 by (done || lia).
    assert (to_Z a * 256 ^ (3 - n) < 2 ^ 24) by nia.
    unfold u32, u64. rewrite !wrap_small by (unfold is_word; nia || rewrite wrap_small; unfold is_word; nia).
    split; [done|]. split; [nia|]. intros Hnz. destruct (HL Hnz) as [Hn1 HL'].
    replace (2 ^ 16) with (256 ^ (n - 1) * 256 ^ (3 - n)); [nia|].
    rewrite <- Z.pow_add_r by lia. by replace (n - 1 + (3 - n)) with 2 by lia.
  - destruct (shr_spec a (8 * (n - 3)) Ha ltac:(lia)) as [Hw Hv].
    rewrite GetLow64_spec, Hv, <- pow256 by (done || lia).
    pose proof (Z.pow_pos_nonneg 256 (n - 3) ltac:(lia) ltac:(lia)).
    assert (0 <= to_Z a / 256 ^ (n - 3) < 2 ^ 24) as Hm.
    { split; [apply Z.div_pos; lia|]. apply Z.div_lt_upper_bound; [lia|].
      change (2 ^ 24) with (256 ^ 3). rewrite <- Z.pow_add_r by lia.
      by replace (n - 3 + 3) with n by lia. }
    rewrite Z.mod_small by lia. unfold u32. rewrite wrap_small by (unfold is_word; lia).
    split; [done|]. split; [done|]. intros Hnz. destruct (HL Hnz) as [_ HL'].
    apply Z.div_le_lower_bound; [lia|]. change (2 ^ 16) with (256 ^ 2).
    rewrite <- Z.pow_add_r by lia. by replace (n - 3 + 2) with (n - 1) by lia.
Qed.

Lemma testbit23 (m : Z) : 0 <= m < 2 ^ 24 → Z.testbit m 23%nat = (2 ^ 23 <=? m).
Proof.
  intros Hm. change (Z.of_nat 23) with 23. destruct (Z.leb_spec (2 ^ 23) m).
  - assert (Z.log2 m = 23) as EL by (apply Z.log2_unique; [lia | simpl; lia]).
    rewrite <- EL. apply Z.bit_log2. lia.
  - destruct (Z.eq_dec m 0) as [->|]; [apply Z.bits_0|].
    apply Z.bits_above_log2; [lia|]. apply Z.log2_lt_pow2; lia.
Qed.

(** The last steps of [GetCompact], both assertions included. *)
Lemma GetCompact_assemble (m s : Z) :
  0 <= m < 2 ^ 23 → 0 <= s < 256 →
  (if negb (m .& u32 (Z.lnot 0x007fffff) =? 0) then None
   else if negb (s <? 256) then None
   else Some ((m .| u32 (s .<< 24)) .|
     (if false && negb ((m .| u32 (s .<< 24)) .& 0x007fffff =? 0) then 1 .<< 23%nat else 0)))
  = Some (m + s * 2 ^ 24).
Proof.
  intros Hm Hs. rewrite (proj2 (Z.ltb_lt _ _)) by lia.
  assert (m .& u32 (Z.lnot 0x007fffff) = 0) as ->.
  { change (u32 (Z.lnot 0x007fffff)) with (511 .<< 23).
    apply Z.bits_inj_0. intros k. rewrite Z.land_spec.
    destruct (Z.lt_ge_cases k 23); [rewrite Z.shiftl_spec_low by lia; apply andb_false_r|].
    destruct (Z.eq_dec m 0) as [->|]; [by rewrite Z.bits_0|].
    rewrite (Z.bits_above_log2 m k); [done|lia|].
    apply Z.lt_le_trans with 23; [apply Z.log2_lt_pow2; lia | lia]. }
  simpl. rewrite Z.lor_0_r, shl_mul by lia. unfold u32.
  rewrite wrap_small by (unfold is_word; lia). by rewrite lor_add by lia.
Qed.

(** Shape of the word [GetCompact] builds: no sign bit, an exponent that fits,
    and the leading bytes of the value as mantissa. *)
Lemma GetCompact_form (a : list Z) :
  wf a →
  ∃ m s, GetCompact a false = Some (m + s * 2 ^ 24) ∧ 0 <= m < 2 ^ 23 ∧ 0 <= s <= 33 ∧
    (s <= 3 → m = to_Z a * 256 ^ (3 - s)) ∧ (3 < s → m = to_Z a / 256 ^ (s - 3)) ∧
    (to_Z a ≠ 0 → 2 ^ 15 <= m).
Proof.
  intros Ha. pose proof (to_Z_range a Ha) as Ra.
  destruct (byte_length_bounds (to_Z a) Ra) as (Hn & _ & _).
  destruct (GetCompact_mantissa a Ha) as (Em & Hm & Hm16).
  unfold GetCompact. rewrite bits_spec by done.
  set (n := (zbits (to_Z a) + 7) / 8) in *. set (m0 := if n <=? 3 then _ else _) in *.
  clearbody m0.
  change 0x00800000 with (1 .<< 23%nat). rewrite land_shl1, negb_involutive, testbit23 by done.
  destruct (Z.leb_spec (2 ^ 23) m0) as [Hge|Hlt23].
  - rewrite shr_div by lia. change (2 ^ 8) with 256.
    assert (2 ^ 15 <= m0 / 256 < 2 ^ 23).
    { split; [apply Z.div_le_lower_bound; lia | apply Z.div_lt_upper_bound; lia]. }
    exists (m0 / 256), (n + 1). rewrite GetCompact_assemble by lia. split_and!; try done; try lia.
    + intros Hle. rewrite Em. rewrite (proj2 (Z.leb_le _ _)) by lia.
      replace (3 - n) with (Z.succ (3 - (n + 1))) by lia. rewrite Z.pow_succ_r by lia.
      rewrite (Z.mul_comm 256), Z.mul_assoc. by apply Z.div_mul.
    + intros Hlt. rewrite Em. destruct (Z.leb_spec n 3).
      * replace n with 3 by lia. simpl. by rewrite Z.mul_1_r.
      * rewrite Z.div_div by lia. f_equal. replace (n + 1 - 3) with (Z.succ (n - 3)) by lia.
        rewrite Z.pow_succ_r by lia. lia.
  - exists m0, n. rewrite GetCompact_assemble by lia. split_and!; try done; try lia.
    + intros Hle. rewrite Em. by rewrite (proj2 (Z.leb_le _ _)) by lia.
    + intros Hlt. rewrite Em. by rewrite (proj2 (Z.leb_gt _ _)) by lia.
Qed.

(** [GetCompact] keeps the leading bytes of the value: the encoded number is
    the value with its [e] low bytes cleared. *)
Lemma GetCompact_value (a : list Z) :
  wf a →
  ∃ c, GetCompact a false = Some c ∧ is_word 32 c ∧ Z.testbit c 23 = false ∧
    let e := Z.max 0 (compact_size c - 3) in
    compact_value c = to_Z a / 256 ^ e * 256 ^ e ∧
    (to_Z a - compact_value c) * 2 ^ 15 <= to_Z a.
Proof.
  intros Ha. pose proof (to_Z_range a Ha) as Ra.
  destruct (GetCompact_form a Ha) as (m & s & E & Hm & Hs & Hle & Hgt & Hbig).
  exists (m + s * 2 ^ 24). split; [done|].
  assert (compact_size (m + s * 2 ^ 24) = s) as Es.
  { unfold compact_size. rewrite Z.div_add, Z.div_small by lia. lia. }
  assert (compact_mant (m + s * 2 ^ 24) = m) as Emt.
  { unfold compact_mant. change (2 ^ 24) with (2 * 2 ^ 23). rewrite Z.mul_assoc, Z.mod_add by lia.
    apply Z.mod_small. lia. }
  split; [unfold is_word; lia|]. split.
  { rewrite <- lor_add by lia. rewrite Z.lor_spec, Z.mul_pow2_bits_low, orb_false_r by lia.
    pose proof (testbit23 m ltac:(lia)) as T. change (Z.of_nat 23) with 23 in T. rewrite T.
    apply Z.leb_gt. lia. }
  unfold compact_value. rewrite Es, Emt. simpl.
  destruct (Z.leb_spec s 3) as [H3|H3].
  - replace (Z.max 0 (s - 3)) with 0 by lia. rewrite (Hle H3), Z.div_mul by (apply Z.pow_nonzero; lia).
    change (256 ^ 0) with 1. rewrite Z.div_1_r. lia.
  - replace (Z.max 0 (s - 3)) with (s - 3) by lia. rewrite <- (Hgt H3). split; [done|].
    pose proof (Z.pow_pos_nonneg 256 (s - 3) ltac:(lia) ltac:(lia)).
    pose proof (Z.div_mod (to_Z a) (256 ^ (s - 3)) ltac:(lia)) as Ed. rewrite <- (Hgt H3) in Ed.
    pose proof (Z.mod_pos_bound (to_Z a) (256 ^ (s - 3)) ltac:(lia)).
    destruct (Z.eq_dec (to_Z a) 0) as [E0|E0]; [rewrite E0 in *; nia|].
    specialize (Hbig E0). nia.
Qed.

Lemma UintToArith256_wf (u : list Z) : bytes_ok u → wf (UintToArith256 u).
Proof.
  intros Hu. split; [done|]. apply Forall_fmap, Forall_forall. intros x _.
  apply ReadLE32_range. by apply Forall_drop.
Qed.

Lemma UintToArith256_value (u : list Z) :
  length u = 32%nat → bytes_ok u → to_Z (UintToArith256 u) = le_val 8 u.
Proof.
  intros Hl Hu. do 33 (destruct u as [|? u]; try done).
  unfold to_Z, UintToArith256, ReadLE32, WIDTH. cbn -[Z.mul Z.pow Z.add]. ring.
Qed.

Lemma flat_map_WriteLE32 (l : list Z) :
  Forall (is_word 32) l →
  bytes_ok (flat_map WriteLE32 l) ∧ length (flat_map WriteLE32 l) = (4 * length l)%nat ∧
  le_val 8 (flat_map WriteLE32 l) = le_val 32 l.
Proof.
  induction 1 as [|x l Hx _ (IHb & IHl & IHv)];
    [by split; [constructor|]|]. cbn [flat_map].
  split; [apply Forall_app; auto with words|].
  split; [rewrite length_app, IHl, length_WriteLE32; simpl; lia|].
  rewrite le_val_app, IHv, length_WriteLE32 by lia. unfold WriteLE32, u32.
  rewrite wrap_small, le_val_le_digits by (done || lia).
  change (8 * 4%nat) with 32. by rewrite Z.mod_small by done.
Qed.

Lemma ArithToUint256_spec (a : list Z) :
  wf a → length (ArithToUint256 a) = 32%nat ∧ bytes_ok (ArithToUint256 a) ∧
         le_val 8 (ArithToUint256 a) = to_Z a.
Proof.
  intros [Hl Hw]. assert (ArithToUint256 a = flat_map WriteLE32 a) as ->.
  { by do 9 (destruct a as [|? a]; try done). }
  destruct (flat_map_WriteLE32 a Hw) as (? & E & ?). rewrite E, Hl. done.
Qed.

Lemma ArithToUint256_inverse (a : list Z) :
  wf a → UintToArith256 (ArithToUint256 a) = a.
Proof.
  intros Ha. destruct (ArithToUint256_spec a Ha) as (Hl & Hb & Hv).
  apply to_Z_inj; [by apply UintToArith256_wf | done |].
  by rewrite UintToArith256_value.
Qed.

(** ** Main results *)

(** every arithmetic operator of [base_uint<256>] keeps eight 32-bit limbs
    and computes the operation on the represented numbers modulo [2^256]. *)
Theorem base_uint_ring (a b : list Z) (n : Z) :
  wf a → wf b → is_word 32 n →
  (wf (add a b) ∧ to_Z (add a b) = (to_Z a + to_Z b) mod 2 ^ 256) ∧
  (wf (sub a b) ∧ to_Z (sub a b) = (to_Z a - to_Z b) mod 2 ^ 256) ∧
  (wf (mul a b) ∧ to_Z (mul a b) = (to_Z a * to_Z b) mod 2 ^ 256) ∧
  (wf (mul32 a n) ∧ to_Z (mul32 a n) = (to_Z a * n) mod 2 ^ 256) ∧
  (wf (neg a) ∧ to_Z (neg a) = (- to_Z a) mod 2 ^ 256) ∧
  (wf (bnot a) ∧ to_Z (bnot a) = 2 ^ 256 - 1 - to_Z a) ∧
  (wf (incr a) ∧ to_Z (incr a) = (to_Z a + 1) mod 2 ^ 256) ∧
  (wf (decr a) ∧ to_Z (decr a) = (to_Z a - 1) mod 2 ^ 256).
Proof.
  intros Ha Hb Hn.
  exact (conj (add_spec a b Ha Hb) (conj (sub_spec a b Ha Hb) (conj (mul_spec a b Ha Hb)
    (conj (mul32_spec a n Ha Hn) (conj (neg_spec a Ha) (conj (bnot_spec a Ha)
    (conj (incr_spec a Ha) (decr_spec a Ha)))))))).
Qed.

Ltac wf_concrete := split; [reflexivity | repeat constructor; (lia || discriminate)].

Lemma base_uint_ring_witness :
  to_Z (sub (of_uint64 3) (of_uint64 5)) = 2 ^ 256 - 2.
Proof.
  destruct (base_uint_ring (of_uint64 3) (of_uint64 5) 7) as (_ & [_ E] & _).
  - wf_concrete.
  - wf_concrete.
  - unfold is_word. lia.
  - rewrite E. reflexivity.
Defined.

(** [operator<<=] and [operator>>=] are multiplication and division by a
    power of two, for every shift amount (also 256 and more). *)
Theorem base_uint_shifts (a : list Z) (shift : Z) :
  wf a → 0 <= shift →
  (wf (shl a shift) ∧ to_Z (shl a shift) = (to_Z a * 2 ^ shift) mod 2 ^ 256) ∧
  (wf (shr a shift) ∧ to_Z (shr a shift) = to_Z a / 2 ^ shift).
Proof. intros. split; [by apply shl_spec | by apply shr_spec]. Qed.

Lemma base_uint_shifts_witness :
  to_Z (shl (of_uint64 0xabcd) 249) = (0xabcd * 2 ^ 249) mod 2 ^ 256 ∧
  to_Z (shr (of_uint64 0xabcd) 300) = 0.
Proof.
  split.
  - apply (base_uint_shifts (of_uint64 0xabcd) 249); [wf_concrete | lia].
  - destruct (base_uint_shifts (of_uint64 0xabcd) 300) as [_ [_ ->]];
      [wf_concrete | lia | reflexivity].
Defined.

(** [operator/=] returns the quotient of the numbers and throws exactly
    when the divisor is zero; comparison and [bits] agree with the numbers. *)
Theorem base_uint_division (a b : list Z) :
  wf a → wf b →
  (if to_Z b =? 0 then div a b = None
   else ∃ q, div a b = Some q ∧ wf q ∧ to_Z q = to_Z a / to_Z b) ∧
  CompareTo a b = match to_Z a ?= to_Z b with Lt => -1 | Eq => 0 | Gt => 1 end ∧
  bits a = (if to_Z a =? 0 then 0 else Z.log2 (to_Z a) + 1).
Proof.
  intros. split; [by apply div_spec|]. split; [by apply CompareTo_spec | by apply bits_spec].
Qed.

Lemma base_uint_division_witness :
  div (of_uint64 5) zero = None ∧
  ∃ q, div (of_uint64 1000) (of_uint64 7) = Some q ∧ wf q ∧ to_Z q = 142.
Proof.
  split.
  - exact (proj1 (base_uint_division (of_uint64 5) zero ltac:(wf_concrete) ltac:(wf_concrete))).
  - exact (proj1 (base_uint_division (of_uint64 1000) (of_uint64 7)
                    ltac:(wf_concrete) ltac:(wf_concrete))).
Defined.

(** [SetCompact] decodes a 32-bit compact word: the value is the denoted
    number reduced to 256 bits, [*pfOverflow] is set exactly when that number
    does not fit in 256 bits, and [*pfNegative] exactly when it is non-zero and
    the sign bit is set. *)
Theorem SetCompact_correct (c : Z) :
  is_word 32 c →
  let '(v, fNegative, fOverflow) := SetCompact c in
  wf v ∧ to_Z v = compact_value c mod 2 ^ 256 ∧
  fNegative = negb (compact_value c =? 0) && Z.testbit c 23 ∧
  fOverflow = (2 ^ 256 <=? compact_value c).
Proof. apply SetCompact_spec. Qed.

Lemma SetCompact_correct_witness :
  let '(v, fNegative, fOverflow) := SetCompact 0x1b0404cb in
  wf v ∧ to_Z v = 0x0404cb * 256 ^ 24 ∧ fNegative = false ∧ fOverflow = false.
Proof. exact (SetCompact_correct 0x1b0404cb ltac:(unfold is_word; lia)). Defined.

(** [GetCompact] never fails its assertions, never sets the sign bit, and
    decoding its result gives back the value with its low bytes cleared: not
    larger than the value, and off by at most one part in [2^15]. *)
Theorem GetCompact_SetCompact (a : list Z) :
  wf a →
  ∃ c, GetCompact a false = Some c ∧
    let '(v, fNegative, fOverflow) := SetCompact c in
    fNegative = false ∧ fOverflow = false ∧
    (∃ e, 0 <= e ∧ to_Z v = to_Z a / 256 ^ e * 256 ^ e) ∧
    to_Z v <= to_Z a ∧ (to_Z a - to_Z v) * 2 ^ 15 <= to_Z a.
Proof.
  intros Ha. destruct (GetCompact_value a Ha) as (c & E & Hc & Hb & Hv & Hp).
  exists c. split; [done|]. pose proof (SetCompact_spec c Hc) as S.
  destruct (SetCompact c) as [[v n] o]. destruct S as (Hw & Hval & -> & ->).
  set (e := Z.max 0 (compact_size c - 3)) in *.
  pose proof (to_Z_range a Ha). pose proof (Z.pow_pos_nonneg 256 e ltac:(lia) ltac:(lia)).
  assert (0 <= compact_value c <= to_Z a) as Hr.
  { rewrite Hv. pose proof (Z.div_mod (to_Z a) (256 ^ e) ltac:(lia)).
    pose proof (Z.mod_pos_bound (to_Z a) (256 ^ e) ltac:(lia)).
    pose proof (Z.div_pos (to_Z a) (256 ^ e)). nia. }
  rewrite Z.mod_small in Hval by lia. rewrite Hb, andb_false_r, (proj2 (Z.leb_gt _ _)) by lia.
  split; [done|]. split; [done|]. rewrite Hval. split; [exists e; split; [lia|done]|]. lia.
Qed.

Lemma GetCompact_SetCompact_witness :
  ∃ c, GetCompact (of_uint64 0x1234567890) false = Some c ∧
    let '(v, fNegative, fOverflow) := SetCompact c in
    fNegative = false ∧ fOverflow = false ∧
    (∃ e, 0 <= e ∧ to_Z v = to_Z (of_uint64 0x1234567890) / 256 ^ e * 256 ^ e) ∧
    to_Z v <= to_Z (of_uint64 0x1234567890) ∧
    (to_Z (of_uint64 0x1234567890) - to_Z v) * 2 ^ 15 <= to_Z (of_uint64 0x1234567890).
Proof. apply (GetCompact_SetCompact (of_uint64 0x1234567890)). wf_concrete. Defined.
