(* ===== verification/Chain.v ===== *)
(** * Block index and active chain ([src/src/chain.h], [src/src/chain.cpp])

    Block index entries live in a store [blocks : gmap positive CBlockIndex];
    a [CBlockIndex*] is an [option positive], [None] being [nullptr].  An
    operation that would dereference a null or dangling pointer, or fail an
    assertion, has no result ([None] of the outer [option]); the theorems show
    that this does not happen on a well-formed block tree.

    [GetAncestor] follows the skip list; it is proved equal to walking
    [pprev] pointers.  [CChain] is the vector of the active chain's entries. *)

From Stdlib Require Import ZArith Lia.
From stdpp Require Import gmap sorting.
From S2P Require Import Prelude Common ArithUint256.
Import BaseUint Arith256.

Open Scope Z_scope.
Open Scope word_scope.

Abbreviation ptr := positive.

(** [class CBlockIndex] *)
Record CBlockIndex := {
  phashBlock : list Z;
  pprev : option ptr;
  pskip : option ptr;
  nHeight : Z;
  nFile : Z;
  nDataPos : Z;
  nUndoPos : Z;
  nChainWork : list Z;
  nTx : Z;
  nChainTx : Z;
  nStatus : Z;
  nVersion : Z;
  hashMerkleRoot : list Z;
  nTime : Z;
  nBits : Z;
  nNonce : Z;
  nSequenceId : Z;
  nTimeMax : Z
}.

Definition with_pskip (b : CBlockIndex) (s : option ptr) : CBlockIndex :=
  {| phashBlock := phashBlock b; pprev := pprev b; pskip := s; nHeight := nHeight b;
     nFile := nFile b; nDataPos := nDataPos b; nUndoPos := nUndoPos b;
     nChainWork := nChainWork b; nTx := nTx b; nChainTx := nChainTx b;
     nStatus := nStatus b; nVersion := nVersion b; hashMerkleRoot := hashMerkleRoot b;
     nTime := nTime b; nBits := nBits b; nNonce := nNonce b;
     nSequenceId := nSequenceId b; nTimeMax := nTimeMax b |}.

Definition GetBlockTime (b : CBlockIndex) : Z := nTime b.
Definition GetBlockTimeMax (b : CBlockIndex) : Z := nTimeMax b.

(** ** Validity status *)

Definition BLOCK_VALID_MASK : Z := 1 .| 2 .| 3 .| 4 .| 5.
Definition BLOCK_FAILED_MASK : Z := 32 .| 64.

(** [CBlockIndex::IsValid]; [None] is the assertion on the level asked for. *)
Definition IsValid (nStatus nUpTo : Z) : option bool :=
  if negb (nUpTo .& Z.lnot BLOCK_VALID_MASK =? 0) then None
  else if negb (nStatus .& BLOCK_FAILED_MASK =? 0) then Some false
  else Some (nUpTo <=? nStatus .& BLOCK_VALID_MASK).

(** [CBlockIndex::RaiseValidity]: the new status and whether it changed. *)
Definition RaiseValidity (nStatus nUpTo : Z) : option (Z * bool) :=
  if negb (nUpTo .& Z.lnot BLOCK_VALID_MASK =? 0) then None
  else if negb (nStatus .& BLOCK_FAILED_MASK =? 0) then Some (nStatus, false)
  else if nStatus .& BLOCK_VALID_MASK <? nUpTo
  then Some ((nStatus .& Z.lnot BLOCK_VALID_MASK) .| nUpTo, true)
  else Some (nStatus, false).

(** ** The skip list *)

Definition InvertLowestOne (n : Z) : Z := n .& (n - 1).

Definition GetSkipHeight (height : Z) : Z :=
  if height <? 2 then 0
  else if negb (height .& 1 =? 0)
  then InvertLowestOne (InvertLowestOne (height - 1)) + 1
  else InvertLowestOne height.

Abbreviation CChain := (list (option ptr)).

Section Store.
Context (blocks : gmap ptr CBlockIndex).

(** The [while] of [GetAncestor]. *)
Fixpoint GetAncestor_loop (fuel : nat) (pindexWalk : ptr) (heightWalk height : Z) :
    option ptr :=
  match fuel with
  | O => None
  | S fuel' =>
      if heightWalk >? height then
        let heightSkip := GetSkipHeight heightWalk in
        let heightSkipPrev := GetSkipHeight (heightWalk - 1) in
        b ← blocks !! pindexWalk;
        match pskip b with
        | Some s =>
            if (heightSkip =? height) ||
               ((heightSkip >? height) &&
                negb ((heightSkipPrev <? heightSkip - 2) && (heightSkipPrev >=? height)))
            then GetAncestor_loop fuel' s heightSkip height
            else q ← pprev b; GetAncestor_loop fuel' q (heightWalk - 1) height
        | None => q ← pprev b; GetAncestor_loop fuel' q (heightWalk - 1) height
        end
      else Some pindexWalk
  end.

(** [CBlockIndex::GetAncestor] *)
Definition GetAncestor (this : ptr) (height : Z) : option (option ptr) :=
  b ← blocks !! this;
  if (height >? nHeight b) || (height <? 0) then Some None
  else Some <$> GetAncestor_loop (S (Z.to_nat (nHeight b))) this (nHeight b) height.

(** [CBlockIndex::BuildSkip] *)
Definition BuildSkip (this : ptr) : option (gmap ptr CBlockIndex) :=
  b ← blocks !! this;
  match pprev b with
  | Some q =>
      s ← GetAncestor q (GetSkipHeight (nHeight b));
      Some (<[this := with_pskip b s]> blocks)
  | None => Some blocks
  end.

(** [CBlockIndex::GetMedianTimePast]: the times of the block and of up to ten
    predecessors, sorted, middle element. *)
Definition nMedianTimeSpan : nat := 11.

Fixpoint past_times (n : nat) (pindex : option ptr) : option (list Z) :=
  match n, pindex with
  | S n', Some p =>
      b ← blocks !! p; ts ← past_times n' (pprev b); Some (GetBlockTime b :: ts)
  | _, _ => Some []
  end.

Definition GetMedianTimePast (this : ptr) : option Z :=
  ts ← past_times nMedianTimeSpan (Some this);
  let sorted := merge_sort Z.le ts in
  sorted !! (length sorted / 2)%nat.

(** [LastCommonAncestor] *)
Fixpoint common_loop (fuel : nat) (pa pb : option ptr) : option (option ptr) :=
  match fuel with
  | O => None
  | S fuel' =>
      match pa, pb with
      | Some a, Some b =>
          if decide (a = b) then Some (Some a)
          else x ← blocks !! a; y ← blocks !! b; common_loop fuel' (pprev x) (pprev y)
      | None, None => Some None
      | _, _ => None (* assert(pa == pb) *)
      end
  end.

Definition LastCommonAncestor (pa pb : ptr) : option (option ptr) :=
  a ← blocks !! pa;
  b ← blocks !! pb;
  let fuel := S (S (Z.to_nat (nHeight a))) in
  if nHeight a >? nHeight b then
    pa' ← GetAncestor pa (nHeight b); common_loop fuel pa' (Some pb)
  else if nHeight b >? nHeight a then
    pb' ← GetAncestor pb (nHeight a); common_loop fuel (Some pa) pb'
  else common_loop fuel (Some pa) (Some pb).

(** ** [class CChain] *)


Definition Genesis (vChain : CChain) : option ptr := mjoin (vChain !! 0%nat).
Definition Tip (vChain : CChain) : option ptr := mjoin (vChain !! (length vChain - 1)%nat).
Definition Height (vChain : CChain) : Z := length vChain - 1.

(** [operator[]] *)
Definition chain_at (vChain : CChain) (nHeight : Z) : option ptr :=
  if (nHeight <? 0) || (nHeight >=? length vChain) then None
  else mjoin (vChain !! Z.to_nat nHeight).

Definition Contains (vChain : CChain) (pindex : ptr) : option bool :=
  b ← blocks !! pindex;
  Some (bool_decide (chain_at vChain (nHeight b) = Some pindex)).

Definition Next (vChain : CChain) (pindex : ptr) : option (option ptr) :=
  b ← blocks !! pindex;
  c ← Contains vChain pindex;
  Some (if (c : bool) then chain_at vChain (nHeight b + 1) else None).

(** [std::vector::resize], new entries being null. *)
Definition vec_resize (n : nat) (v : CChain) : CChain :=
  take n v ++ replicate (n - length v) None.

Fixpoint SetTip_loop (fuel : nat) (vChain : CChain) (pindex : option ptr) : option CChain :=
  match fuel, pindex with
  | O, _ => None
  | S fuel', None => Some vChain
  | S fuel', Some p =>
      b ← blocks !! p;
      if bool_decide (vChain !! Z.to_nat (nHeight b) = Some (Some p)) then Some vChain
      else SetTip_loop fuel' (<[Z.to_nat (nHeight b) := Some p]> vChain) (pprev b)
  end.

Definition SetTip (vChain : CChain) (pindex : option ptr) : option CChain :=
  match pindex with
  | None => Some []
  | Some p =>
      b ← blocks !! p;
      SetTip_loop (S (S (Z.to_nat (nHeight b))))
        (vec_resize (Z.to_nat (nHeight b + 1)) vChain) (Some p)
  end.

Fixpoint FindFork_loop (fuel : nat) (vChain : CChain) (pindex : option ptr) :
    option (option ptr) :=
  match fuel, pindex with
  | O, _ => None
  | S fuel', None => Some None
  | S fuel', Some p =>
      c ← Contains vChain p;
      if (c : bool) then Some (Some p)
      else b ← blocks !! p; FindFork_loop fuel' vChain (pprev b)
  end.

Definition FindFork (vChain : CChain) (pindex : option ptr) : option (option ptr) :=
  match pindex with
  | None => Some None
  | Some p =>
      b ← blocks !! p;
      pindex ← (if nHeight b >? Height vChain then GetAncestor p (Height vChain)
                else Some (Some p));
      FindFork_loop (S (S (Z.to_nat (nHeight b)))) vChain pindex
  end.

(** [CChain::GetLocator]: hashes at exponentially growing distance. *)
Fixpoint GetLocator_loop (fuel : nat) (vChain : CChain) (pindex : option ptr)
    (nStep : Z) (vHave : list (list Z)) : option (list (list Z)) :=
  match fuel, pindex with
  | O, _ => None
  | S _, None => Some vHave
  | S fuel', Some p =>
      b ← blocks !! p;
      let vHave := vHave ++ [phashBlock b] in
      if nHeight b =? 0 then Some vHave
      else
        let h := Z.max (nHeight b - nStep) 0 in
        c ← Contains vChain p;
        p' ← (if (c : bool) then Some (chain_at vChain h) else GetAncestor p h);
        let nStep := if (10 <? length vHave)%nat then nStep * 2 else nStep in
        GetLocator_loop fuel' vChain p' nStep vHave
  end.

Definition GetLocator (vChain : CChain) (pindex : option ptr) : option (list (list Z)) :=
  let pindex := match pindex with None => Tip vChain | Some p => Some p end in
  match pindex with
  | None => Some []
  | Some p => b ← blocks !! p; GetLocator_loop (S (S (Z.to_nat (nHeight b)))) vChain pindex 1 []
  end.

End Store.

(** ** Work *)

(** [GetBlockProof]: [None] would be a division by zero. *)
Definition GetBlockProof (nBits : Z) : option (list Z) :=
  let '(bnTarget, fNegative, fOverflow) := SetCompact nBits in
  if fNegative || fOverflow || EqualTo bnTarget 0 then Some (of_uint64 0)
  else
    q ← div (bnot bnTarget) (add bnTarget (of_uint64 1));
    Some (add q (of_uint64 1)).

(** [GetBlockProofEquivalentTime] on the two chain works, the tip's bits and the
    target spacing.  [sign * r.GetLow64()] is computed on [uint64_t] and
    converted to [int64_t]. *)
Definition GetBlockProofEquivalentTime (to from : list Z) (tip_nBits nPowTargetSpacing : Z) :
    option Z :=
  let '(r, sign) := if gtb to from then (sub to from, 1) else (sub from to, -1) in
  proof ← GetBlockProof tip_nBits;
  r ← div (mul r (of_uint64 (u64 nPowTargetSpacing))) proof;
  Some (if bits r >? 63 then sign * (2 ^ 63 - 1) else i64 (u64 sign * GetLow64 r)).

(** ** The block tree *)

(** [n] steps along [pprev]. *)
Fixpoint walk_prev (blocks : gmap ptr CBlockIndex) (n : nat) (p : ptr) : option ptr :=
  match n with
  | O => Some p
  | S n' => b ← blocks !! p; q ← pprev b; walk_prev blocks n' q
  end.

(** The ancestor of an entry at a given height. *)
Definition ancestor (blocks : gmap ptr CBlockIndex) (p : ptr) (b : CBlockIndex) (h : Z) :
    option ptr :=
  walk_prev blocks (Z.to_nat (nHeight b - h)) p.

(** Heights count the distance to the root; skip pointers lead to the ancestor
    at the height [GetSkipHeight] names. *)
Definition entry_ok (blocks : gmap ptr CBlockIndex) (p : ptr) (b : CBlockIndex) : Prop :=
  0 <= nHeight b ∧
  match pprev b with
  | None => nHeight b = 0
  | Some q => ∃ c, blocks !! q = Some c ∧ nHeight c = nHeight b - 1
  end ∧
  (∀ s, pskip b = Some s → ancestor blocks p b (GetSkipHeight (nHeight b)) = Some s).

Definition tree_ok (blocks : gmap ptr CBlockIndex) : Prop :=
  map_Forall (entry_ok blocks) blocks.

Lemma InvertLowestOne_lt (n : Z) : 0 < n → 0 <= InvertLowestOne n < n.
Proof.
  intros Hn. unfold InvertLowestOne. split; [apply Z.land_nonneg; lia|].
  assert (n .& (n - 1) <= n - 1); [|lia].
  apply land_le_r. lia.
Qed.

Lemma GetSkipHeight_range (h : Z) :
  0 <= h → 0 <= GetSkipHeight h ∧ (0 < h → GetSkipHeight h < h).
Proof.
  intros Hh. unfold GetSkipHeight. repeat case_if; bool_to_prop; try lia.
  - destruct (Z.eq_dec h 2) as [->|]; [done|].
    pose proof (InvertLowestOne_lt (h - 1) ltac:(lia)).
    destruct (Z.eq_dec (InvertLowestOne (h - 1)) 0) as [E1|]; [rewrite E1; change (InvertLowestOne 0) with 0; lia|].
    pose proof (InvertLowestOne_lt (InvertLowestOne (h - 1)) ltac:(lia)). lia.
  - pose proof (InvertLowestOne_lt h ltac:(lia)). lia.
Qed.

Section TreeFacts.
Context (blocks : gmap ptr CBlockIndex) (Hok : tree_ok blocks).

Lemma tree_prev (p : ptr) (b : CBlockIndex) :
  blocks !! p = Some b → 0 < nHeight b →
  ∃ q c, pprev b = Some q ∧ blocks !! q = Some c ∧ nHeight c = nHeight b - 1.
Proof.
  intros Hp Hh. destruct (Hok p b Hp) as (_ & Hprev & _).
  destruct (pprev b) as [q|]; [|lia]. destruct Hprev as (c & ? & ?). eauto.
Qed.

Lemma tree_height (p : ptr) (b : CBlockIndex) : blocks !! p = Some b → 0 <= nHeight b.
Proof. intros Hp. apply (Hok p b Hp). Qed.

Lemma tree_prev_height (p q : ptr) (b : CBlockIndex) :
  blocks !! p = Some b → pprev b = Some q →
  ∃ c, blocks !! q = Some c ∧ nHeight c = nHeight b - 1 ∧ 0 < nHeight b.
Proof.
  intros Hp Hq. destruct (Hok p b Hp) as (_ & Hprev & _). rewrite Hq in Hprev.
  destruct Hprev as (c & Hc & Hh). exists c. pose proof (tree_height q c Hc). split; [done|lia].
Qed.

Lemma walk_prev_ok (n : nat) (p : ptr) (b : CBlockIndex) :
  blocks !! p = Some b → n <= nHeight b →
  ∃ q c, walk_prev blocks n p = Some q ∧ blocks !! q = Some c ∧ nHeight c = nHeight b - n.
Proof.
  revert p b. induction n as [|n IH]; intros p b Hp Hn; simpl.
  - exists p, b. split; [done|]. split; [done|]. lia.
  - destruct (tree_prev p b Hp ltac:(lia)) as (q & c & Eq & Hq & Hh).
    rewrite Hp. simpl. rewrite Eq. simpl.
    destruct (IH q c Hq ltac:(lia)) as (q' & c' & ? & ? & ?).
    exists q', c'. split; [done|]. split; [done|]. lia.
Qed.

Lemma walk_prev_add (n m : nat) (p : ptr) :
  walk_prev blocks (n + m) p = walk_prev blocks n p ≫= walk_prev blocks m.
Proof.
  revert p. induction n as [|n IH]; intros p; simpl; [done|].
  destruct (blocks !! p) as [b|]; simpl; [|done]. destruct (pprev b); simpl; auto.
Qed.

Lemma ancestor_ok (p : ptr) (b : CBlockIndex) (h : Z) :
  blocks !! p = Some b → 0 <= h <= nHeight b →
  ∃ q c, ancestor blocks p b h = Some q ∧ blocks !! q = Some c ∧ nHeight c = h.
Proof.
  intros Hp Hh. unfold ancestor.
  destruct (walk_prev_ok (Z.to_nat (nHeight b - h)) p b Hp ltac:(lia)) as (q & c & ? & ? & ?).
  exists q, c. split; [done|]. split; [done|]. lia.
Qed.

Lemma ancestor_refl (p : ptr) (b : CBlockIndex) : ancestor blocks p b (nHeight b) = Some p.
Proof. unfold ancestor. by rewrite Z.sub_diag. Qed.

Lemma ancestor_trans (p q : ptr) (b c : CBlockIndex) (h : Z) :
  blocks !! p = Some b → blocks !! q = Some c → h <= nHeight c <= nHeight b →
  ancestor blocks p b (nHeight c) = Some q →
  ancestor blocks p b h = ancestor blocks q c h.
Proof.
  unfold ancestor. intros Hp Hq Hh Hw.
  replace (Z.to_nat (nHeight b - h))
    with (Z.to_nat (nHeight b - nHeight c) + Z.to_nat (nHeight c - h))%nat by lia.
  by rewrite walk_prev_add, Hw.
Qed.

Lemma ancestor_prev (p q : ptr) (b : CBlockIndex) (h : Z) :
  blocks !! p = Some b → pprev b = Some q → h < nHeight b →
  ∀ c, blocks !! q = Some c → ancestor blocks p b h = ancestor blocks q c h.
Proof.
  intros Hp Hq Hh c Hc. destruct (tree_prev_height p q b Hp Hq) as (c' & Hc' & Hn & _).
  assert (c' = c) as -> by congruence.
  apply ancestor_trans; try done; [lia|]. unfold ancestor.
  replace (Z.to_nat (nHeight b - nHeight c)) with 1%nat by lia. simpl.
  rewrite Hp. simpl. by rewrite Hq.
Qed.

(** The loop reaches the ancestor whatever mix of skip and parent pointers it
    takes; the height decreases at each turn, so the fuel suffices. *)
Lemma GetAncestor_loop_ok (fuel : nat) (p : ptr) (b : CBlockIndex) (h : Z) :
  blocks !! p = Some b → 0 <= h <= nHeight b → nHeight b - h < fuel →
  GetAncestor_loop blocks fuel p (nHeight b) h = ancestor blocks p b h.
Proof.
  revert p b. induction fuel as [|fuel IH]; intros p b Hp Hh Hf; [lia|].
  simpl. rewrite Z.gtb_ltb. destruct (Z.ltb_spec h (nHeight b)) as [Hlt|Hge].
  2: { replace h with (nHeight b) by lia. by rewrite ancestor_refl. }
  rewrite Hp. simpl.
  assert ((q ← pprev b; GetAncestor_loop blocks fuel q (nHeight b - 1) h)
          = ancestor blocks p b h) as Hprev.
  { destruct (tree_prev p b Hp ltac:(lia)) as (q & c & Eq & Hq & Hc). rewrite Eq. simpl.
    rewrite <- Hc, IH by (done || lia). symmetry. by apply ancestor_prev; try lia. }
  destruct (pskip b) as [s|] eqn:Es; [|done].
  destruct (_ || _) eqn:Et; [|done].
  pose proof (GetSkipHeight_range (nHeight b) ltac:(lia)) as [Hs0 Hs1].
  assert (h <= GetSkipHeight (nHeight b)) as Hle.
  { apply orb_prop in Et as [Et|Et]; bool_to_prop; [lia|].
    rewrite Z.gtb_ltb in *. bool_to_prop. lia. }
  destruct (ancestor_ok p b (GetSkipHeight (nHeight b)) Hp ltac:(lia)) as (s' & c & E1 & Hc & Hhc).
  destruct (Hok p b Hp) as (_ & _ & Hskip). rewrite (Hskip s Es) in E1. injection E1 as <-.
  rewrite <- Hhc in Hle |- *. rewrite IH by (done || lia). symmetry.
  apply ancestor_trans; try done; [lia|]. rewrite Hhc. by apply Hskip.
Qed.

Lemma GetAncestor_ok (p : ptr) (b : CBlockIndex) (h : Z) :
  blocks !! p = Some b →
  GetAncestor blocks p h =
    Some (if (0 <=? h) && (h <=? nHeight b) then ancestor blocks p b h else None).
Proof.
  intros Hp. unfold GetAncestor. rewrite Hp. cbn [mbind option_bind]. rewrite Z.gtb_ltb.
  destruct (Z.ltb_spec (nHeight b) h), (Z.ltb_spec h 0), (Z.leb_spec 0 h), (Z.leb_spec h (nHeight b));
    cbn [orb andb]; try lia; try done.
  rewrite GetAncestor_loop_ok by (done || lia).
  by destruct (ancestor_ok p b h Hp ltac:(lia)) as (q & c & -> & _).
Qed.
End TreeFacts.

(** ** Skip pointers of a new entry *)

Lemma walk_prev_pskip (blocks : gmap ptr CBlockIndex) (p : ptr) (b : CBlockIndex)
    (s : option ptr) (n : nat) (q : ptr) :
  blocks !! p = Some b →
  walk_prev (<[p := with_pskip b s]> blocks) n q = walk_prev blocks n q.
Proof.
  intros Hp. revert q. induction n as [|n IH]; intros q; simpl; [done|].
  destruct (decide (q = p)) as [->|Hne].
  - rewrite lookup_insert_eq, Hp. simpl. destruct (pprev b); simpl; auto.
  - rewrite lookup_insert_ne by done. destruct (blocks !! q) as [c|]; simpl; [|done].
    destruct (pprev c); simpl; auto.
Qed.

Lemma BuildSkip_ok (blocks : gmap ptr CBlockIndex) (p : ptr) (b : CBlockIndex) :
  tree_ok blocks → blocks !! p = Some b →
  ∃ blocks', BuildSkip blocks p = Some blocks' ∧ tree_ok blocks' ∧
    ∃ s, blocks' = <[p := with_pskip b s]> blocks ∧
         (pprev b = None → s = pskip b) ∧
         (pprev b ≠ None → s = ancestor blocks p b (GetSkipHeight (nHeight b))).
Proof.
  intros Hok Hp. unfold BuildSkip. rewrite Hp. simpl.
  destruct (pprev b) as [q|] eqn:Eq.
  2: { exists blocks. split; [done|]. split; [done|]. exists (pskip b).
       split; [|done]. rewrite insert_id; [done|]. rewrite Hp. by destruct b. }
  destruct (tree_prev_height blocks Hok p q b Hp Eq) as (c & Hc & Hh & Hpos).
  destruct (GetSkipHeight_range (nHeight b) ltac:(lia)) as [H0 H1].
  rewrite (GetAncestor_ok blocks Hok q c) by done.
  rewrite (proj2 (Z.leb_le 0 _)), (proj2 (Z.leb_le _ (nHeight c))) by lia. simpl.
  rewrite <- (ancestor_prev blocks Hok p q b) by (done || lia).
  eexists. split; [done|]. split.
  - intros r d Hr. unfold entry_ok, ancestor. setoid_rewrite (walk_prev_pskip _ _ _ _ _ _ Hp).
    assert (∃ e, blocks !! r = Some e ∧ nHeight d = nHeight e ∧ pprev d = pprev e ∧
      (pskip d = pskip e ∨ (r = p ∧ e = b ∧
        pskip d = ancestor blocks p b (GetSkipHeight (nHeight b))))) as (e & He & E1 & E2 & E3).
    { destruct (decide (r = p)) as [->|].
      - rewrite lookup_insert_eq in Hr. injection Hr as <-. exists b. cbn. split_and!; auto.
      - rewrite lookup_insert_ne in Hr by done. exists d. auto 6. }
    destruct (Hok r e He) as (G1 & G2 & G3). rewrite E1, E2. split; [done|]. split.
    + destruct (pprev e) as [u|]; [|done]. destruct G2 as (v & Hv & Hvh).
      destruct (decide (u = p)) as [->|].
      * exists (with_pskip b (ancestor blocks p b (GetSkipHeight (nHeight b)))).
        rewrite lookup_insert_eq. split; [done|]. simpl. congruence.
      * exists v. by rewrite lookup_insert_ne.
    + intros s Hs. destruct E3 as [E3|(-> & -> & E3)].
      * rewrite E3 in Hs. exact (G3 s Hs).
      * rewrite E3 in Hs. exact Hs.
  - eexists. split; [done|]. by split.
Qed.

(** ** The active chain *)

(** The chain ending in [p]: its ancestor at every height. *)
Definition chain_of (blocks : gmap ptr CBlockIndex) (p : ptr) (b : CBlockIndex) : CChain :=
  map (λ i : nat, ancestor blocks p b i) (seq 0 (S (Z.to_nat (nHeight b)))).

(** The states a [CChain] goes through. *)
Definition chain_ok (blocks : gmap ptr CBlockIndex) (v : CChain) : Prop :=
  v = [] ∨ ∃ p b, blocks !! p = Some b ∧ v = chain_of blocks p b.

Lemma length_chain_of (blocks : gmap ptr CBlockIndex) (p : ptr) (b : CBlockIndex) :
  length (chain_of blocks p b) = S (Z.to_nat (nHeight b)).
Proof. unfold chain_of. by rewrite length_map, length_seq. Qed.

Lemma lookup_chain_of (blocks : gmap ptr CBlockIndex) (p : ptr) (b : CBlockIndex) (i : nat) :
  (i ≤ Z.to_nat (nHeight b))%nat →
  chain_of blocks p b !! i = Some (ancestor blocks p b i).
Proof.
  intros Hi. unfold chain_of. rewrite list_lookup_fmap.
  rewrite lookup_seq_lt by lia. done.
Qed.

Section ChainFacts.
Context (blocks : gmap ptr CBlockIndex) (Hok : tree_ok blocks).

(** Up to height [H], a chain vector whose entry at the height of [p] is [p] holds
    the ancestors of [p] below. *)
Definition agrees_below (H : Z) (v : CChain) : Prop :=
  ∀ p b, nHeight b <= H → blocks !! p = Some b → v !! Z.to_nat (nHeight b) = Some (Some p) →
  ∀ i : nat, (i ≤ Z.to_nat (nHeight b))%nat → v !! i = Some (ancestor blocks p b i).

Lemma agrees_below_resize (H : Z) (v : CChain) (n : nat) :
  chain_ok blocks v → agrees_below H (vec_resize n v).
Proof.
  intros Hv p b _ Hp Hat i Hi. unfold vec_resize in *.
  pose proof (tree_height blocks Hok p b Hp).
  assert (take n v !! Z.to_nat (nHeight b) = Some (Some p)) as Hat'.
  { destruct (decide (Z.to_nat (nHeight b) < length (take n v))%nat).
    - by rewrite lookup_app_l in Hat.
    - rewrite lookup_app_r in Hat by lia. apply lookup_replicate_1 in Hat as [? _]. done. }
  rewrite lookup_take_Some in Hat'. destruct Hat' as [Hvp Hn].
  destruct Hv as [->|(t & bt & Ht & ->)]; [done|].
  pose proof (tree_height blocks Hok t bt Ht).
  pose proof (lookup_lt_Some _ _ _ Hvp) as Hlt. rewrite length_chain_of in Hlt.
  rewrite lookup_chain_of in Hvp by lia. injection Hvp as Hvp.
  rewrite lookup_app_l.
  - rewrite lookup_take_lt by lia. rewrite lookup_chain_of by lia. f_equal.
    rewrite Z2Nat.id in Hvp by lia.
    apply (ancestor_trans blocks t p bt b); try done. lia.
  - rewrite length_take, length_chain_of. lia.
Qed.

Lemma agrees_below_insert (H : Z) (v : CChain) (x : option ptr) :
  0 <= H → agrees_below H v → agrees_below (H - 1) (<[Z.to_nat H := x]> v).
Proof.
  intros HH Hagr q c Hle Hq Hqat i Hi. pose proof (tree_height blocks Hok q c Hq).
  rewrite list_lookup_insert_ne in Hqat |- * by lia. apply Hagr; (done || lia).
Qed.

(** Each turn of the loop stores one more ancestor; it may stop early because the
    vector then agrees with the ancestors below. *)
Lemma SetTip_loop_ok (fuel : nat) (v : CChain) (t p : ptr) (bt b : CBlockIndex) :
  blocks !! t = Some bt → blocks !! p = Some b →
  nHeight b <= nHeight bt → ancestor blocks t bt (nHeight b) = Some p →
  length v = S (Z.to_nat (nHeight bt)) → agrees_below (nHeight b) v →
  (∀ i : nat, nHeight b < i <= nHeight bt → v !! i = Some (ancestor blocks t bt i)) →
  (Z.to_nat (nHeight b) + 1 < fuel)%nat →
  SetTip_loop blocks fuel v (Some p) = Some (chain_of blocks t bt).
Proof.
  intros Ht. revert v p b.
  induction fuel as [|fuel IH]; intros v p b Hp Hle Hanc Hlen Hagr Habove Hfuel; [lia|].
  cbn [SetTip_loop]. rewrite Hp. cbn [mbind option_bind].
  pose proof (tree_height blocks Hok p b Hp) as Hh.
  case_bool_decide as Hat.
  - f_equal. apply (list_eq_same_length _ _ (length v)); [by rewrite length_chain_of|done|].
    intros i x y Hi Hx Hy. rewrite lookup_chain_of in Hy by lia. injection Hy as <-.
    destruct (decide (i ≤ Z.to_nat (nHeight b))%nat) as [Hib|Hib].
    + rewrite (Hagr p b ltac:(lia) Hp Hat i Hib) in Hx. injection Hx as <-.
      symmetry. apply (ancestor_trans blocks t p bt b); try done. lia.
    + rewrite Habove in Hx by lia. congruence.
  - assert (∀ i : nat, nHeight b <= i <= nHeight bt →
      <[Z.to_nat (nHeight b) := Some p]> v !! i = Some (ancestor blocks t bt i)) as Hnew.
    { intros i Hi. destruct (decide (i = Z.to_nat (nHeight b))) as [->|Hne].
      - rewrite list_lookup_insert_eq by lia. by rewrite Z2Nat.id, Hanc by lia.
      - rewrite list_lookup_insert_ne by done. apply Habove. lia. }
    destruct (pprev b) as [q|] eqn:Eq.
    + destruct (tree_prev_height blocks Hok p q b Hp Eq) as (c & Hc & Hhc & _).
      pose proof (tree_height blocks Hok q c Hc) as Hhq.
      apply (IH _ q c); try done; try lia.
      * rewrite (ancestor_trans blocks t p bt b (nHeight c)) by (done || lia).
        rewrite (ancestor_prev blocks Hok p q b) with (c := c) by (done || lia).
        apply ancestor_refl.
      * by rewrite length_insert.
      * rewrite Hhc. by apply agrees_below_insert.
      * intros i Hi. apply Hnew. lia.
    + destruct (Hok p b Hp) as (_ & H0 & _). rewrite Eq in H0.
      destruct fuel; [lia|]. cbn [SetTip_loop]. f_equal.
      apply (list_eq_same_length _ _ (length v));
        [by rewrite length_chain_of|by rewrite length_insert|].
      intros i x y Hi Hx Hy. rewrite lookup_chain_of in Hy by lia.
      rewrite Hnew in Hx by lia. congruence.
Qed.
End ChainFacts.

Section ForkFacts.
Context (blocks : gmap ptr CBlockIndex) (Hok : tree_ok blocks).

Lemma SetTip_ok (v : CChain) (p : ptr) (b : CBlockIndex) :
  chain_ok blocks v → blocks !! p = Some b →
  SetTip blocks v (Some p) = Some (chain_of blocks p b).
Proof.
  intros Hv Hp. unfold SetTip. rewrite Hp. cbn [mbind option_bind].
  pose proof (tree_height blocks Hok p b Hp).
  apply (SetTip_loop_ok blocks Hok _ _ p p b b); try done; try lia.
  - apply ancestor_refl.
  - unfold vec_resize. rewrite length_app, length_take, length_replicate. lia.
  - by apply agrees_below_resize.
Qed.

Lemma chain_at_chain_of (p : ptr) (b : CBlockIndex) (h : Z) :
  blocks !! p = Some b →
  chain_at (chain_of blocks p b) h =
    if (0 <=? h) && (h <=? nHeight b) then ancestor blocks p b h else None.
Proof.
  intros Hp. pose proof (tree_height blocks Hok p b Hp).
  unfold chain_at. rewrite length_chain_of, Z.geb_leb.
  destruct (Z.ltb_spec h 0), (Z.leb_spec (S (Z.to_nat (nHeight b))) h), (Z.leb_spec 0 h),
    (Z.leb_spec h (nHeight b)); cbn [orb andb]; try lia; try done.
  rewrite lookup_chain_of by lia. cbn. by rewrite Z2Nat.id.
Qed.

Lemma chain_at_over (v : CChain) (h : Z) : h < 0 ∨ Height v < h → chain_at v h = None.
Proof.
  unfold chain_at, Height. rewrite Z.geb_leb. intros H.
  destruct (Z.ltb_spec h 0), (Z.leb_spec (length v) h); cbn [orb]; (done || lia).
Qed.

(** [r] is the highest entry on the walk from [p] to the root that satisfies [P]
    at its height, null when there is none. *)
Definition highest_such (P : Z → ptr → Prop) (p : ptr) (b : CBlockIndex) (r : option ptr) : Prop :=
  match r with
  | Some q => ∃ h, 0 <= h <= nHeight b ∧ ancestor blocks p b h = Some q ∧ P h q ∧
      ∀ h' q', h < h' <= nHeight b → ancestor blocks p b h' = Some q' → ¬ P h' q'
  | None => ∀ h' q', 0 <= h' <= nHeight b → ancestor blocks p b h' = Some q' → ¬ P h' q'
  end.

Lemma highest_such_here P (p : ptr) (b : CBlockIndex) :
  blocks !! p = Some b → P (nHeight b) p → highest_such P p b (Some p).
Proof.
  intros Hp HP. pose proof (tree_height blocks Hok p b Hp).
  exists (nHeight b). split_and!; [lia|lia|apply ancestor_refl|done|lia].
Qed.

(** Passing from [p] to a lower ancestor [q] when nothing between qualifies. *)
Lemma highest_such_down P (p q : ptr) (b c : CBlockIndex) (r : option ptr) :
  blocks !! p = Some b → blocks !! q = Some c → nHeight c <= nHeight b →
  ancestor blocks p b (nHeight c) = Some q →
  (∀ h' q', nHeight c < h' <= nHeight b → ancestor blocks p b h' = Some q' → ¬ P h' q') →
  highest_such P q c r → highest_such P p b r.
Proof.
  intros Hp Hq Hle Hanc Hbetween.
  assert (∀ h, h <= nHeight c → ancestor blocks p b h = ancestor blocks q c h) as Htr.
  { intros h Hh. by apply ancestor_trans. }
  assert (∀ h' q', ancestor blocks p b h' = Some q' → nHeight c < h' <= nHeight b ∨ h' <= nHeight c ∨
            nHeight b < h') as Hcase by (intros; lia).
  destruct r as [u|]; cbn.
  - intros (h & Hh & Hu & HP & Hmax). exists h. rewrite Htr by lia. split_and!; try done; try lia.
    intros h' q' Hh' Hq'. destruct (Z.le_gt_cases h' (nHeight c)).
    + rewrite Htr in Hq' by lia. apply (Hmax h' q'); [lia|done].
    + apply (Hbetween h' q'); [lia|done].
  - intros Hnone h' q' Hh' Hq'. destruct (Z.le_gt_cases h' (nHeight c)).
    + rewrite Htr in Hq' by lia. apply (Hnone h' q'); [lia|done].
    + apply (Hbetween h' q'); [lia|done].
Qed.

Lemma highest_such_prev P (p q : ptr) (b c : CBlockIndex) (r : option ptr) :
  blocks !! p = Some b → pprev b = Some q → blocks !! q = Some c →
  ¬ P (nHeight b) p → highest_such P q c r → highest_such P p b r.
Proof.
  intros Hp Eq Hq HnP. destruct (tree_prev_height blocks Hok p q b Hp Eq) as (c' & Hc' & Hh & _).
  assert (c' = c) as -> by congruence.
  apply highest_such_down; try done; try lia.
  - rewrite (ancestor_prev blocks Hok p q b) with (c := c) by (done || lia). apply ancestor_refl.
  - intros h' q' Hh' Hq'. assert (h' = nHeight b) as -> by lia.
    rewrite ancestor_refl in Hq'. by injection Hq' as <-.
Qed.

Lemma highest_such_root P (p : ptr) (b : CBlockIndex) :
  blocks !! p = Some b → pprev b = None → ¬ P (nHeight b) p → highest_such P p b None.
Proof.
  intros Hp Eq HnP h' q' Hh' Hq'. destruct (Hok p b Hp) as (_ & H0 & _). rewrite Eq in H0.
  assert (h' = nHeight b) as -> by lia. rewrite ancestor_refl in Hq'. by injection Hq' as <-.
Qed.

Lemma FindFork_loop_ok (fuel : nat) (v : CChain) (p : ptr) (b : CBlockIndex) :
  blocks !! p = Some b → (Z.to_nat (nHeight b) + 1 < fuel)%nat →
  ∃ r, FindFork_loop blocks fuel v (Some p) = Some r ∧
       highest_such (λ h q, chain_at v h = Some q) p b r.
Proof.
  revert p b. induction fuel as [|fuel IH]; intros p b Hp Hf; [lia|].
  cbn [FindFork_loop]. unfold Contains. rewrite Hp. cbn [mbind option_bind].
  case_bool_decide as Hat; [eauto using highest_such_here|].
  destruct (pprev b) as [q|] eqn:Eq.
  - destruct (tree_prev_height blocks Hok p q b Hp Eq) as (c & Hc & Hh & _).
    destruct (IH q c Hc ltac:(pose proof (tree_height blocks Hok q c Hc); lia)) as (r & -> & Hr).
    exists r. split; [done|]. by apply (highest_such_prev _ p q b c).
  - destruct fuel; [lia|]. exists None. split; [done|]. by apply highest_such_root.
Qed.

Lemma FindFork_ok (v : CChain) (p : ptr) (b : CBlockIndex) :
  blocks !! p = Some b →
  ∃ r, FindFork blocks v (Some p) = Some r ∧
       highest_such (λ h q, chain_at v h = Some q) p b r.
Proof.
  intros Hp. unfold FindFork. rewrite Hp. cbn [mbind option_bind]. rewrite Z.gtb_ltb.
  pose proof (tree_height blocks Hok p b Hp).
  destruct (Z.ltb_spec (Height v) (nHeight b)) as [Hlt|Hge]; cbn [mbind option_bind].
  2: { apply FindFork_loop_ok; [done|lia]. }
  rewrite (GetAncestor_ok blocks Hok p b) by done. cbn [mbind option_bind].
  rewrite (proj2 (Z.leb_le (Height v) (nHeight b))), andb_true_r by lia.
  destruct (Z.leb_spec 0 (Height v)) as [H0|H0].
  - destruct (ancestor_ok blocks Hok p b (Height v) Hp ltac:(lia)) as (q & c & Ha & Hq & Hc).
    rewrite Ha.
    destruct (FindFork_loop_ok (S (S (Z.to_nat (nHeight b)))) v q c Hq ltac:(lia)) as (r & -> & Hr).
    exists r. split; [done|]. apply (highest_such_down _ p q b c); try done; [lia|congruence|].
    intros h' q' Hh' _. rewrite chain_at_over by lia. done.
  - exists None. split; [done|]. intros h' q' Hh' _. rewrite chain_at_over by lia. done.
Qed.

Lemma highest_such_ext (P Q : Z → ptr → Prop) (p : ptr) (b : CBlockIndex) (r : option ptr) :
  (∀ h q, 0 <= h <= nHeight b → P h q ↔ Q h q) →
  highest_such P p b r → highest_such Q p b r.
Proof.
  intros HPQ. destruct r as [u|]; cbn.
  - intros (h & Hh & Hu & HP & Hmax). exists h. split_and!; try done; try lia; [by apply HPQ|].
    intros h' q' Hh' Hq' HQ. apply (Hmax h' q' Hh' Hq'). apply HPQ; [lia|done].
  - intros Hn h' q' Hh' Hq' HQ. apply (Hn h' q' Hh' Hq'). by apply HPQ.
Qed.

Definition ancestor_at (p : ptr) (b : CBlockIndex) (h : Z) (q : ptr) : Prop :=
  0 <= h <= nHeight b ∧ ancestor blocks p b h = Some q.

Lemma common_loop_ok (fuel : nat) (pa pb : ptr) (a b : CBlockIndex) :
  blocks !! pa = Some a → blocks !! pb = Some b → nHeight a = nHeight b →
  (Z.to_nat (nHeight a) + 1 < fuel)%nat →
  ∃ r, common_loop blocks fuel (Some pa) (Some pb) = Some r ∧
       highest_such (ancestor_at pb b) pa a r.
Proof.
  revert pa pb a b. induction fuel as [|fuel IH]; intros pa pb a b Ha Hb Hab Hf; [lia|].
  cbn [common_loop]. pose proof (tree_height blocks Hok pa a Ha).
  destruct (decide (pa = pb)) as [->|Hne].
  { exists (Some pb). split; [done|]. apply highest_such_here; [done|].
    split; [lia|]. rewrite Hab. apply ancestor_refl. }
  rewrite Ha, Hb. cbn [mbind option_bind].
  assert (¬ ancestor_at pb b (nHeight a) pa) as Hn.
  { intros [_ E]. rewrite Hab, ancestor_refl in E. congruence. }
  destruct (pprev a) as [qa|] eqn:Eqa.
  - destruct (tree_prev_height blocks Hok pa qa a Ha Eqa) as (a' & Ha' & Hha & Hpos).
    destruct (tree_prev blocks Hok pb b Hb ltac:(lia)) as (qb & b' & Eqb & Hb' & Hhb).
    rewrite Eqb. pose proof (tree_height blocks Hok qa a' Ha').
    destruct (IH qa qb a' b' Ha' Hb' ltac:(lia) ltac:(lia)) as (r & -> & Hr).
    exists r. split; [done|]. apply (highest_such_prev _ pa qa a a'); try done.
    revert Hr. apply highest_such_ext. intros h q Hh. unfold ancestor_at.
    rewrite (ancestor_prev blocks Hok pb qb b) with (c := b') by (done || lia).
    split; intros [_ E]; (split; [lia|done]).
  - destruct (Hok pa a Ha) as (_ & H0 & _). rewrite Eqa in H0.
    destruct (pprev b) as [qb|] eqn:Eqb.
    { destruct (tree_prev_height blocks Hok pb qb b Hb Eqb) as (? & _ & _ & ?). lia. }
    destruct fuel; [lia|]. exists None. split; [done|]. by apply highest_such_root.
Qed.

Lemma LastCommonAncestor_ok (pa pb : ptr) (a b : CBlockIndex) :
  blocks !! pa = Some a → blocks !! pb = Some b →
  ∃ r, LastCommonAncestor blocks pa pb = Some r ∧ highest_such (ancestor_at pb b) pa a r.
Proof.
  intros Ha Hb. unfold LastCommonAncestor. rewrite Ha, Hb. cbn [mbind option_bind].
  pose proof (tree_height blocks Hok pa a Ha). pose proof (tree_height blocks Hok pb b Hb).
  rewrite !Z.gtb_ltb. destruct (Z.ltb_spec (nHeight b) (nHeight a)) as [Hlt|Hge].
  - rewrite (GetAncestor_ok blocks Hok pa a) by done.
    rewrite (proj2 (Z.leb_le _ _)), (proj2 (Z.leb_le _ _)) by lia. cbn [andb mbind option_bind].
    destruct (ancestor_ok blocks Hok pa a (nHeight b) Ha ltac:(lia)) as (q & c & E & Hq & Hc).
    rewrite E.
    destruct (common_loop_ok (S (S (Z.to_nat (nHeight a)))) q pb c b Hq Hb Hc ltac:(lia))
      as (r & -> & Hr).
    exists r. split; [done|]. apply (highest_such_down _ pa q a c); try done; [lia|congruence|].
    intros h' q' Hh' _ [? _]. lia.
  - destruct (Z.ltb_spec (nHeight a) (nHeight b)) as [Hlt|Hge'].
    2: { apply common_loop_ok; (done || lia). }
    rewrite (GetAncestor_ok blocks Hok pb b) by done.
    rewrite (proj2 (Z.leb_le _ _)), (proj2 (Z.leb_le _ _)) by lia. cbn [andb mbind option_bind].
    destruct (ancestor_ok blocks Hok pb b (nHeight a) Hb ltac:(lia)) as (q & c & E & Hq & Hc).
    rewrite E.
    destruct (common_loop_ok (S (S (Z.to_nat (nHeight a)))) pa q a c Ha Hq ltac:(lia) ltac:(lia))
      as (r & -> & Hr).
    exists r. split; [done|]. revert Hr. apply highest_such_ext. intros h u Hh. unfold ancestor_at.
    rewrite (ancestor_trans blocks pb q b c) by (done || lia || congruence).
    split; intros [_ ?]; (split; [lia|done]).
Qed.
End ForkFacts.

(** ** Work *)

(** A compact target is usable when it is positive and fits 256 bits. *)
Definition target_ok (nBits : Z) : bool :=
  negb (Z.testbit nBits 23) && (0 <? compact_value nBits) && (compact_value nBits <? 2 ^ 256).

Lemma compact_value_nonneg (c : Z) : is_word 32 c → 0 <= compact_value c.
Proof.
  intros Hc. pose proof (compact_mant_range c). pose proof (compact_size_range c Hc).
  unfold compact_value. destruct (Z.leb_spec (compact_size c) 3).
  - apply Z.div_pos; [lia|]. apply Z.pow_pos_nonneg; lia.
  - apply Z.mul_nonneg_nonneg; [lia|]. apply Z.pow_nonneg. lia.
Qed.

(** A compact target is never the largest 256-bit number, so adding one to it does
    not wrap. *)
Lemma compact_value_not_max (c : Z) : is_word 32 c → compact_value c ≠ 2 ^ 256 - 1.
Proof.
  intros Hc. pose proof (compact_mant_range c). pose proof (compact_size_range c Hc).
  unfold compact_value. destruct (Z.leb_spec (compact_size c) 3).
  - assert (compact_mant c / 256 ^ (3 - compact_size c) <= compact_mant c); [|lia].
    apply Z.div_le_upper_bound; [apply Z.pow_pos_nonneg; lia|].
    pose proof (Z.pow_pos_nonneg 256 (3 - compact_size c)). nia.
  - replace (compact_size c - 3) with (Z.succ (compact_size c - 4)) by lia.
    rewrite Z.pow_succ_r by lia. intros E.
    assert (2 ^ 256 mod 256 = 1); [|done].
    replace (2 ^ 256) with (1 + (compact_mant c * 256 ^ (compact_size c - 4)) * 256) by lia.
    by rewrite Z.mod_add.
Qed.

Lemma SetCompact_target_ok (c : Z) :
  is_word 32 c →
  let '(v, fNegative, fOverflow) := SetCompact c in
  wf v ∧ (fNegative || fOverflow || (to_Z v =? 0)) = negb (target_ok c) ∧
  (target_ok c = true → to_Z v = compact_value c).
Proof.
  intros Hc. pose proof (SetCompact_spec c Hc) as S. pose proof (compact_value_nonneg c Hc) as H0.
  destruct (SetCompact c) as [[v n] o]. destruct S as (Hwf & Hv & -> & ->). unfold target_ok.
  rewrite Hv. split; [done|].
  destruct (Z.leb_spec (2 ^ 256) (compact_value c)) as [Ho|Ho].
  - rewrite (proj2 (Z.ltb_ge (compact_value c) _)) by done. rewrite !orb_true_r, !andb_false_r. done.
  - rewrite (Z.mod_small _ _ (conj H0 Ho)).
    rewrite (proj2 (Z.ltb_lt (compact_value c) _)), andb_true_r, orb_false_r by done.
    split; [|done]. destruct (Z.eqb_spec (compact_value c) 0) as [E|E], (Z.ltb_spec 0 (compact_value c)),
      (Z.testbit c 23); try lia; done.
Qed.

Lemma div_compl (t : Z) : 0 < t → (2 ^ 256 - 1 - t) / (t + 1) + 1 = 2 ^ 256 / (t + 1).
Proof.
  intros Ht. rewrite <- Z.div_add by lia. f_equal. ring.
Qed.

Lemma GetBlockProof_ok (c : Z) :
  is_word 32 c →
  ∃ r, GetBlockProof c = Some r ∧ wf r ∧
    to_Z r = if target_ok c then 2 ^ 256 / (compact_value c + 1) else 0.
Proof.
  intros Hc. unfold GetBlockProof. pose proof (SetCompact_target_ok c Hc) as S.
  pose proof (compact_value_not_max c Hc) as Hmax.
  destruct (SetCompact c) as [[v n] o]. destruct S as (Hwf & Hbad & Hv).
  rewrite EqualTo_spec by (done || (unfold is_word; lia)). rewrite Hbad.
  destruct (target_ok c) eqn:Eok; cbn [negb].
  2: { eexists. split; [done|]. apply of_uint64_spec. lia. }
  specialize (Hv eq_refl). unfold target_ok in Eok. bool_to_prop.
  destruct (of_uint64_spec 1 ltac:(lia)) as [W1 V1]. destruct (bnot_spec v Hwf) as [Wn Vn].
  destruct (add_spec v _ Hwf W1) as [Wa Va]. pose proof (div_spec _ _ Wn Wa) as D.
  rewrite Va, V1, Vn, Hv, Z.mod_small in D by lia.
  rewrite (proj2 (Z.eqb_neq _ 0)) in D by lia. destruct D as (q & -> & Wq & Vq).
  cbn [mbind option_bind]. eexists. split; [done|]. destruct (add_spec q _ Wq W1) as [Wr Vr].
  split; [done|]. rewrite Vr, V1, Vq, div_compl by lia. apply Z.mod_small. split.
  - apply Z.div_pos; lia.
  - apply Z.div_lt_upper_bound; nia.
Qed.

Lemma walk_prev_over (blocks : gmap ptr CBlockIndex) (n : nat) (p : ptr) (b : CBlockIndex) :
  tree_ok blocks → blocks !! p = Some b → nHeight b < n → walk_prev blocks n p = None.
Proof.
  intros Hok. revert p b. induction n as [|n IH]; intros p b Hp Hn.
  { pose proof (tree_height blocks Hok p b Hp). lia. }
  cbn. rewrite Hp. cbn. destruct (pprev b) as [q|] eqn:Eq; [|done]. cbn.
  destruct (tree_prev_height blocks Hok p q b Hp Eq) as (c & Hc & Hh & _).
  apply (IH q c Hc). lia.
Qed.

Lemma Contains_chain_of (blocks : gmap ptr CBlockIndex) (p q : ptr) (b c : CBlockIndex) :
  tree_ok blocks → blocks !! p = Some b → blocks !! q = Some c →
  Contains blocks (chain_of blocks p b) q = Some true ↔ ∃ n, walk_prev blocks n p = Some q.
Proof.
  intros Hok Hp Hq. unfold Contains. rewrite Hq. cbn.
  rewrite (chain_at_chain_of blocks Hok p b) by done. split.
  - case_bool_decide as E; [|done]. intros _. revert E.
    destruct (_ && _); [|done]. unfold ancestor. eauto.
  - intros [n Hn]. rewrite bool_decide_true; [done|].
    destruct (Z.le_gt_cases n (nHeight b)) as [Hle|Hgt].
    2: { by rewrite (walk_prev_over blocks n p b) in Hn. }
    destruct (walk_prev_ok blocks Hok n p b Hp Hle) as (q' & c' & E & Hq' & Hh).
    rewrite Hn in E. injection E as <-. rewrite Hq in Hq'. injection Hq' as <-.
    pose proof (tree_height blocks Hok q c Hq). unfold ancestor.
    rewrite (proj2 (Z.leb_le _ _)), (proj2 (Z.leb_le _ _)) by lia. cbn.
    by replace (Z.to_nat (nHeight b - nHeight c)) with n by lia.
Qed.

(** ** Properties *)

(** C32: on a well-formed block tree [GetAncestor] returns, for every height of the
    path from the genesis block to the entry, the entry at that height reached by
    following [pprev] alone, and null for any other height: the skip pointers only
    change how fast it gets there.  It never follows a null pointer. *)
Theorem GetAncestor_correct (blocks : gmap ptr CBlockIndex) (p : ptr) (b : CBlockIndex) (h : Z) :
  tree_ok blocks → blocks !! p = Some b →
  (0 <= h <= nHeight b →
   ∃ q c, GetAncestor blocks p h = Some (Some q) ∧
          walk_prev blocks (Z.to_nat (nHeight b - h)) p = Some q ∧
          blocks !! q = Some c ∧ nHeight c = h) ∧
  (h < 0 ∨ nHeight b < h → GetAncestor blocks p h = Some None).
Proof.
  intros Hok Hp. rewrite (GetAncestor_ok blocks Hok p b) by done. split; intros Hh.
  - destruct (ancestor_ok blocks Hok p b h Hp Hh) as (q & c & E & Hq & Hc).
    exists q, c. rewrite (proj2 (Z.leb_le _ _)), (proj2 (Z.leb_le _ _)) by lia.
    unfold ancestor in E. rewrite <- E. done.
  - destruct (Z.leb_spec 0 h), (Z.leb_spec h (nHeight b)); cbn [andb]; (done || lia).
Qed.

(** [BuildSkip] keeps the block tree well formed, and the skip pointer it sets
    is the ancestor at [GetSkipHeight], which lies strictly below the entry. *)
Theorem BuildSkip_correct (blocks : gmap ptr CBlockIndex) (p : ptr) (b : CBlockIndex) :
  tree_ok blocks → blocks !! p = Some b →
  ∃ blocks', BuildSkip blocks p = Some blocks' ∧ tree_ok blocks' ∧
    (∀ q, q ≠ p → blocks' !! q = blocks !! q) ∧
    (pprev b ≠ None → ∃ s c, blocks' !! p = Some (with_pskip b (Some s)) ∧
      blocks !! s = Some c ∧ nHeight c = GetSkipHeight (nHeight b) ∧ nHeight c < nHeight b).
Proof.
  intros Hok Hp. destruct (BuildSkip_ok blocks p b Hok Hp) as (blocks' & E & Hok' & s & -> & _ & Hs).
  eexists. split; [exact E|]. split; [done|].
  split; [intros q Hq; by rewrite lookup_insert_ne|]. intros Hprev. rewrite lookup_insert_eq.
  destruct (pprev b) as [q|] eqn:Eq; [|done].
  destruct (tree_prev_height blocks Hok p q b Hp Eq) as (_ & _ & _ & Hpos).
  destruct (GetSkipHeight_range (nHeight b) ltac:(lia)) as [H0 H1].
  destruct (ancestor_ok blocks Hok p b (GetSkipHeight (nHeight b)) Hp ltac:(lia))
    as (u & c & Hu & Hc & Hh).
  exists u, c. rewrite (Hs Hprev), Hu. split_and!; try done. lia.
Qed.

(** C33: [CChain::SetTip] always leaves the chain equal to the path from the genesis
    block to the new tip, whatever chain it started from, although it stops
    rewriting entries at the first one that already agrees; [Tip], [Height] and
    [operator[]] then read that path. *)
Theorem SetTip_correct (blocks : gmap ptr CBlockIndex) (v : CChain) (p : ptr) (b : CBlockIndex) :
  tree_ok blocks → chain_ok blocks v → blocks !! p = Some b →
  ∃ v', SetTip blocks v (Some p) = Some v' ∧ chain_ok blocks v' ∧
    Tip v' = Some p ∧ Height v' = nHeight b ∧
    (∀ h, 0 <= h <= nHeight b →
       chain_at v' h = walk_prev blocks (Z.to_nat (nHeight b - h)) p) ∧
    (∀ q c, blocks !! q = Some c → Contains blocks v' q = Some true ↔
       ∃ n, walk_prev blocks n p = Some q).
Proof.
  intros Hok Hv Hp. pose proof (tree_height blocks Hok p b Hp) as H0.
  exists (chain_of blocks p b).
  split; [by apply SetTip_ok|]. split; [right; eauto|].
  split. { unfold Tip. rewrite length_chain_of, lookup_chain_of by lia. cbn.
           replace (Z.of_nat (Z.to_nat (nHeight b) - 0)) with (nHeight b) by lia.
           apply ancestor_refl. }
  split. { unfold Height. rewrite length_chain_of. lia. }
  split. { intros h Hh. rewrite (chain_at_chain_of blocks Hok) by done.
           by rewrite (proj2 (Z.leb_le _ _)), (proj2 (Z.leb_le _ _)) by lia. }
  intros q c Hq. by apply (Contains_chain_of blocks p q b c).
Qed.

(** [CChain::FindFork] returns the highest entry on the path from [pindex] to
    the genesis block that is on the chain, and null when none is. *)
Theorem FindFork_correct (blocks : gmap ptr CBlockIndex) (v : CChain) (p : ptr) (b : CBlockIndex) :
  tree_ok blocks → blocks !! p = Some b →
  ∃ r, FindFork blocks v (Some p) = Some r ∧
       highest_such blocks (λ h q, chain_at v h = Some q) p b r.
Proof. intros Hok Hp. by apply FindFork_ok. Qed.

(** [LastCommonAncestor] returns the highest entry that is an ancestor of both
    arguments, and null when they share none; its final assertion never fails. *)
Theorem LastCommonAncestor_correct (blocks : gmap ptr CBlockIndex) (pa pb : ptr)
    (a b : CBlockIndex) :
  tree_ok blocks → blocks !! pa = Some a → blocks !! pb = Some b →
  ∃ r, LastCommonAncestor blocks pa pb = Some r ∧
       highest_such blocks (ancestor_at blocks pb b) pa a r.
Proof. intros Hok Ha Hb. by apply LastCommonAncestor_ok. Qed.

(** [GetBlockProof] is the expected number of hashes of a block, [2^256]
    divided by the target plus one, for every usable compact target, and zero
    for a negative, zero or overflowing one; the division it performs in 256
    bits, [~target / (target + 1) + 1], neither wraps nor divides by zero. *)
Theorem GetBlockProof_correct (c : Z) :
  is_word 32 c →
  ∃ r, GetBlockProof c = Some r ∧ wf r ∧
    to_Z r = if target_ok c then 2 ^ 256 / (compact_value c + 1) else 0.
Proof. apply GetBlockProof_ok. Qed.

(** A tree of six entries with a fork at height 2. *)
Definition demo_entry (prev skip : option ptr) (h : Z) : CBlockIndex :=
  {| phashBlock := [h]; pprev := prev; pskip := skip; nHeight := h; nFile := 0; nDataPos := 0;
     nUndoPos := 0; nChainWork := zero; nTx := 1; nChainTx := h + 1; nStatus := 5;
     nVersion := 1; hashMerkleRoot := []; nTime := 600 * h; nBits := 0x207fffff; nNonce := 0;
     nSequenceId := 0; nTimeMax := 600 * h |}.

Definition demo_tree : gmap ptr CBlockIndex :=
  list_to_map [(1%positive, demo_entry None None 0);
               (2%positive, demo_entry (Some 1%positive) (Some 1%positive) 1);
               (3%positive, demo_entry (Some 2%positive) (Some 1%positive) 2);
               (4%positive, demo_entry (Some 3%positive) (Some 2%positive) 3);
               (5%positive, demo_entry (Some 3%positive) None 3);
               (6%positive, demo_entry (Some 5%positive) (Some 1%positive) 4)].

Lemma demo_tree_ok : tree_ok demo_tree.
Proof.
  apply map_Forall_to_list. vm_compute.
  repeat constructor; try discriminate; try (eexists; split; reflexivity);
    intros s [= <-]; reflexivity.
Qed.

Lemma GetAncestor_correct_witness :
  GetAncestor demo_tree 6 1 = Some (Some 2%positive).
Proof.
  destruct (proj1 (GetAncestor_correct demo_tree 6 (demo_entry (Some 5%positive) (Some 1%positive) 4) 1
    demo_tree_ok eq_refl) ltac:(simpl; lia)) as (q & c & -> & E & _).
  vm_compute in E. by rewrite <- E.
Defined.

Lemma BuildSkip_correct_witness :
  ∃ blocks', BuildSkip demo_tree 5 = Some blocks' ∧ tree_ok blocks'.
Proof.
  destruct (BuildSkip_correct demo_tree 5 (demo_entry (Some 3%positive) None 3) demo_tree_ok eq_refl)
    as (blocks' & E & Hok & _).
  exists blocks'. by split.
Defined.

Lemma SetTip_correct_witness :
  ∃ v', SetTip demo_tree (chain_of demo_tree 4 (demo_entry (Some 3%positive) (Some 2%positive) 3))
          (Some 6%positive) = Some v' ∧ Tip v' = Some 6%positive ∧ Height v' = 4.
Proof.
  destruct (SetTip_correct demo_tree
    (chain_of demo_tree 4 (demo_entry (Some 3%positive) (Some 2%positive) 3)) 6
    (demo_entry (Some 5%positive) (Some 1%positive) 4) demo_tree_ok
    ltac:(right; eexists _, _; split; [|reflexivity]; reflexivity) eq_refl)
    as (v' & E & _ & Ht & Hh & _).
  exists v'. by split_and!.
Defined.

Lemma FindFork_correct_witness :
  ∃ r, FindFork demo_tree (chain_of demo_tree 6 (demo_entry (Some 5%positive) (Some 1%positive) 4))
         (Some 4%positive) = Some r ∧ r = Some 3%positive.
Proof.
  destruct (FindFork_correct demo_tree
    (chain_of demo_tree 6 (demo_entry (Some 5%positive) (Some 1%positive) 4)) 4
    (demo_entry (Some 3%positive) (Some 2%positive) 3) demo_tree_ok eq_refl) as (r & E & _).
  exists r. split; [exact E|]. vm_compute in E. by injection E as <-.
Defined.

Lemma LastCommonAncestor_correct_witness :
  ∃ r, LastCommonAncestor demo_tree 6 4 = Some r ∧ r = Some 3%positive.
Proof.
  destruct (LastCommonAncestor_correct demo_tree 6 4
    (demo_entry (Some 5%positive) (Some 1%positive) 4)
    (demo_entry (Some 3%positive) (Some 2%positive) 3) demo_tree_ok eq_refl eq_refl) as (r & E & _).
  exists r. split; [exact E|]. vm_compute in E. by injection E as <-.
Defined.

Lemma GetBlockProof_correct_witness :
  ∃ r, GetBlockProof 0x1d00ffff = Some r ∧ to_Z r = 4295032833.
Proof.
  destruct (GetBlockProof_correct 0x1d00ffff ltac:(unfold is_word; lia)) as (r & E & _ & V).
  exists r. split; [exact E|]. rewrite V. vm_compute. reflexivity.
Defined.

(** ** Median time *)

(** In a sorted list the element at [k] is at least [m] exactly when at least
    [length l - k] elements are. *)
Lemma sorted_count (m : Z) (l : list Z) (k : nat) (x : Z) :
  StronglySorted Z.le l → l !! k = Some x →
  m <= x ↔ (length l - k ≤ length (filter (Z.le m) l))%nat.
Proof.
  intros Hs. revert k. induction Hs as [|a l Hs IH Ha]; intros k Hk; [done|].
  assert (m <= a → length (filter (Z.le m) l) = length l) as Hall.
  { intros Hm. f_equal. clear IH Hs Hk. induction Ha; [done|].
    rewrite filter_cons_True by lia. by f_equal. }
  pose proof (length_filter (Z.le m) l) as Hub.
  destruct k as [|k]; cbn in Hk.
  - injection Hk as ->. destruct (decide (m <= x)) as [Hm|Hm].
    + rewrite filter_cons_True by done. cbn. rewrite (Hall Hm). lia.
    + rewrite filter_cons_False by done. cbn. lia.
  - destruct (decide (m <= a)) as [Hm|Hm].
    + rewrite filter_cons_True by done. cbn. rewrite (Hall Hm).
      rewrite Forall_lookup in Ha. specialize (Ha k x Hk). lia.
    + rewrite filter_cons_False by done. cbn. rewrite (IH k Hk). lia.
Qed.

Section MedianFacts.
Context (blocks : gmap ptr CBlockIndex) (Hok : tree_ok blocks).

Lemma past_times_ok (n : nat) (p : ptr) (b : CBlockIndex) :
  blocks !! p = Some b →
  ∃ ts, past_times blocks n (Some p) = Some ts ∧ length ts = Nat.min n (S (Z.to_nat (nHeight b))).
Proof.
  revert p b. induction n as [|n IH]; intros p b Hp; [exists []; done|].
  cbn [past_times]. rewrite Hp. cbn [mbind option_bind].
  destruct (pprev b) as [q|] eqn:Eq.
  - destruct (tree_prev_height blocks Hok p q b Hp Eq) as (c & Hc & Hh & ?).
    destruct (IH q c Hc) as (ts & -> & Hl). eexists. split; [done|]. cbn [length].
    pose proof (tree_height blocks Hok q c Hc). lia.
  - destruct (Hok p b Hp) as (_ & H0 & _). rewrite Eq in H0.
    exists [GetBlockTime b]. split; [by destruct n|]. cbn [length]. lia.
Qed.

Lemma past_times_prefix (n : nat) (p : ptr) (ts : list Z) :
  past_times blocks (S n) (Some p) = Some ts →
  ∃ A B, past_times blocks n (Some p) = Some A ∧ ts = A ++ B ∧
    (length B ≤ 1)%nat ∧ (B ≠ [] → length A = n).
Proof.
  revert p ts. induction n as [|n IH]; intros p ts.
  - cbn. destruct (blocks !! p) as [b|]; [|done]. cbn. destruct (pprev b); cbn; intros [= <-];
      exists [], [GetBlockTime b]; cbn; auto.
  - intros E. cbn [past_times] in E |- *. destruct (blocks !! p) as [b|]; [|done].
    cbn [mbind option_bind] in *. destruct (pprev b) as [q|].
    + destruct (past_times blocks (S n) (Some q)) as [us|] eqn:Eu;
        cbn [past_times] in Eu; rewrite Eu in E; [|done]. injection E as <-.
      destruct (IH q us Eu) as (A & B & -> & -> & HB & HA).
      exists (GetBlockTime b :: A), B. cbn. split_and!; auto.
    + injection E as <-. exists [GetBlockTime b], []. split; [by destruct n|].
      split; [done|]. split; [cbn; lia|done].
Qed.

Lemma past_times_S (n : nat) (p : ptr) (b : CBlockIndex) :
  blocks !! p = Some b →
  past_times blocks (S n) (Some p) = (ts ← past_times blocks n (pprev b); Some (GetBlockTime b :: ts)).
Proof. intros Hp. cbn [past_times]. by rewrite Hp. Qed.

Lemma median_count (ts : list Z) (m x : Z) :
  merge_sort Z.le ts !! (length (merge_sort Z.le ts) / 2)%nat = Some x →
  m <= x ↔ (length ts - length ts / 2 ≤ length (filter (Z.le m) ts))%nat.
Proof.
  pose proof (merge_sort_Permutation Z.le ts) as HP. rewrite (Permutation_length HP). intros Hx.
  rewrite (sorted_count m _ _ _ (StronglySorted_merge_sort Z.le ts) Hx).
  by rewrite HP.
Qed.

Lemma GetMedianTimePast_total (p : ptr) (b : CBlockIndex) :
  blocks !! p = Some b → ∃ t, GetMedianTimePast blocks p = Some t.
Proof.
  intros Hp. unfold GetMedianTimePast.
  destruct (past_times_ok nMedianTimeSpan p b Hp) as (ts & -> & Hl). cbn [mbind option_bind].
  apply lookup_lt_is_Some. rewrite (Permutation_length (merge_sort_Permutation Z.le ts)).
  apply Nat.div_lt; [|lia]. unfold nMedianTimeSpan in Hl. lia.
Qed.

(** A block whose time exceeds the median time of its parent does not lower the
    median time. *)
Lemma median_grows (p q : ptr) (b : CBlockIndex) (tp tq : Z) :
  blocks !! p = Some b → pprev b = Some q →
  GetMedianTimePast blocks q = Some tq → tq < GetBlockTime b →
  GetMedianTimePast blocks p = Some tp → tq <= tp.
Proof.
  intros Hp Eq Hq Ht Htp. unfold GetMedianTimePast, nMedianTimeSpan in Hq, Htp.
  destruct (past_times blocks 11 (Some q)) as [tsq|] eqn:Etq; [|done].
  destruct (past_times_prefix 10 q tsq Etq) as (A & B & EA & -> & HB & HA).
  assert (past_times blocks 11 (Some p) = Some (GetBlockTime b :: A)) as Etp.
  { by rewrite (past_times_S 10 p b Hp), Eq, EA. }
  rewrite Etp in Htp. cbn [mbind option_bind] in Hq, Htp.
  rewrite (median_count _ tq _ Htp). pose proof (proj1 (median_count _ tq _ Hq) ltac:(lia)) as Hc.
  rewrite filter_cons_True by lia. rewrite list.filter_app, !length_app in Hc. cbn [length].
  pose proof (length_filter (Z.le tq) B).
  destruct B as [|x [|y B]]; cbn [length] in *; try lia.
  - rewrite Nat.add_0_r in Hc.
    pose proof (Nat.Div0.div_le_mono (length A) (S (length A)) 2 ltac:(lia)).
    change (length (filter (Z.le tq) [])) with 0%nat in *. lia.
  - rewrite HA in * by done. change (11 / 2)%nat with 5%nat.
    change ((10 + 1) / 2)%nat with 5%nat in Hc. lia.
Qed.

(** The rule that [ContextualCheckBlockHeader] enforces on every block. *)
Definition times_ok : Prop :=
  ∀ p b q t, blocks !! p = Some b → pprev b = Some q →
    GetMedianTimePast blocks q = Some t → t < GetBlockTime b.

Lemma median_monotone (n : nat) (p q : ptr) (b : CBlockIndex) (tp tq : Z) :
  times_ok → blocks !! p = Some b → walk_prev blocks n p = Some q →
  GetMedianTimePast blocks p = Some tp → GetMedianTimePast blocks q = Some tq → tq <= tp.
Proof.
  intros Htimes. revert p b tp. induction n as [|n IH]; intros p b tp Hp Hw Htp Htq.
  { injection Hw as <-. replace tq with tp by congruence. lia. }
  cbn in Hw. rewrite Hp in Hw. cbn in Hw. destruct (pprev b) as [u|] eqn:Eu; [|done].
  destruct (tree_prev_height blocks Hok p u b Hp Eu) as (c & Hc & _).
  destruct (GetMedianTimePast_total u c Hc) as (tu & Htu).
  transitivity tu; [by apply (IH u c)|]. apply (median_grows p u b); eauto.
Qed.
End MedianFacts.

(** when every block's time exceeds the median time past of its parent (the
    rule block headers are checked against), median time past never decreases
    along a chain: the median time of any ancestor is at most that of the
    block.  [GetMedianTimePast] is defined for every entry. *)
Theorem GetMedianTimePast_monotone (blocks : gmap ptr CBlockIndex) (p q : ptr)
    (b : CBlockIndex) (n : nat) :
  tree_ok blocks → times_ok blocks → blocks !! p = Some b → walk_prev blocks n p = Some q →
  ∃ tp tq, GetMedianTimePast blocks p = Some tp ∧ GetMedianTimePast blocks q = Some tq ∧ tq <= tp.
Proof.
  intros Hok Htimes Hp Hw. destruct (GetMedianTimePast_total blocks Hok p b Hp) as (tp & Htp).
  assert (∃ c, blocks !! q = Some c) as [c Hc].
  { destruct (Z.le_gt_cases n (nHeight b)) as [Hn|Hn].
    - destruct (walk_prev_ok blocks Hok n p b Hp Hn) as (q' & c & E & Hc & _).
      exists c. congruence.
    - by rewrite (walk_prev_over blocks n p b) in Hw. }
  destruct (GetMedianTimePast_total blocks Hok q c Hc) as (tq & Htq).
  exists tp, tq. split_and!; try done. by apply (median_monotone blocks Hok n p q b).
Qed.

Lemma demo_times_ok : times_ok demo_tree.
Proof.
  assert (map_Forall (λ _ b, ∀ q, pprev b = Some q →
            from_option (λ t, t < GetBlockTime b) True (GetMedianTimePast demo_tree q)) demo_tree) as H.
  { apply map_Forall_to_list. unfold demo_tree at 2. vm_compute map_to_list.
    repeat (apply Forall_cons_iff; split; [cbn; intros q [= <-] || (cbn; intros ? [=]); vm_compute; done|]).
    constructor. }
  intros p b q t Hp Hq Ht. specialize (H p b Hp q Hq). by rewrite Ht in H.
Qed.

Lemma GetMedianTimePast_monotone_witness :
  ∃ tp tq, GetMedianTimePast demo_tree 6 = Some tp ∧ GetMedianTimePast demo_tree 2 = Some tq ∧ tq <= tp.
Proof.
  apply (GetMedianTimePast_monotone demo_tree 6 2 (demo_entry (Some 5%positive) (Some 1%positive) 4) 3
    demo_tree_ok demo_times_ok eq_refl eq_refl).
Defined.
