(* ===== verification/Pow.v ===== *)
(** * Proof of work ([src/src/pow.cpp], [src/src/consensus/params.h])

    Difficulty adjustment and the proof-of-work check, on the block tree of
    [Chain.v] and the 256-bit numbers of [ArithUint256.v].  A failed assertion
    has no result ([None]).  [bnNew *= nActualTimespan] selects the [uint32_t]
    overload, so the timespan is reduced modulo [2^32]; [bnNew /= t] converts
    its argument to [uint64_t]. *)

From Stdlib Require Import ZArith Lia.
From stdpp Require Import gmap sorting.
From S2P Require Import Prelude Common ArithUint256 Chain.
Import BaseUint Arith256.

Open Scope Z_scope.
Open Scope word_scope.

(** [struct BIP9Deployment] *)
Record BIP9Deployment := {
  bit : Z;
  nStartTime : Z;
  nTimeout : Z
}.

(** [struct Consensus::Params] *)
Record Params := {
  hashGenesisBlock : list Z;
  nSubsidyHalvingInterval : Z;
  nBIP34Enabled : bool;
  nBIP65Enabled : bool;
  nBIP66Enabled : bool;
  nRuleChangeActivationThreshold : Z;
  nMinerConfirmationWindow : Z;
  vDeployments : list BIP9Deployment;
  powLimit : list Z;
  fPowAllowMinDifficultyBlocks : bool;
  fPowNoRetargeting : bool;
  nPowTargetSpacing : Z;
  nPowTargetTimespan : Z;
  nMinimumChainWork : list Z;
  defaultAssumeValid : list Z;
  nSegwitEnabled : bool;
  nCSVEnabled : bool
}.

(** The consensus parameters [CMainParams] sets; the genesis hash is an argument. *)
Definition mainConsensus (genesis : list Z) : Params := {|
  hashGenesisBlock := genesis;
  nSubsidyHalvingInterval := 1314000;
  nBIP34Enabled := true;
  nBIP65Enabled := true;
  nBIP66Enabled := true;
  nRuleChangeActivationThreshold := 1080;
  nMinerConfirmationWindow := 720;
  vDeployments := [{| bit := 28; nStartTime := 1199145601; nTimeout := 1230767999 |}];
  powLimit := replicate 29 0xff ++ [0x0f; 0; 0];
  fPowAllowMinDifficultyBlocks := false;
  fPowNoRetargeting := false;
  nPowTargetSpacing := 2 * 60;
  nPowTargetTimespan := 1440 * 60;
  nMinimumChainWork := replicate 32 0;
  defaultAssumeValid := replicate 32 0;
  nSegwitEnabled := true;
  nCSVEnabled := true
|}.

Definition DifficultyAdjustmentInterval (params : Params) : Z :=
  Z.quot (nPowTargetTimespan params) (nPowTargetSpacing params).

(** [CheckProofOfWork] *)
Definition CheckProofOfWork (hash : list Z) (nBits : Z) (params : Params) : bool :=
  let '(bnTarget, fNegative, fOverflow) := SetCompact nBits in
  if fNegative || EqualTo bnTarget 0 || fOverflow
     || gtb bnTarget (UintToArith256 (powLimit params)) then false
  else if gtb (UintToArith256 hash) bnTarget then false
  else true.

(** [std::min]/[std::max] style clamp written as two [if]s in the source. *)
Definition clamp (lo hi t : Z) : Z :=
  let t := if t <? lo then lo else t in
  if t >? hi then hi else t.

(** [bnNew *= nActualTimespan; bnNew /= nTargetTimespan; if (bnNew > bnPowLimit)
    bnNew = bnPowLimit;] and the compact form returned. *)
Definition retarget (bnNew : list Z) (nActualTimespan nTargetTimespan : Z)
    (bnPowLimit : list Z) : option Z :=
  bnNew ← div (mul32 bnNew (u32 nActualTimespan)) (of_uint64 (u64 nTargetTimespan));
  let bnNew := if gtb bnNew bnPowLimit then bnPowLimit else bnNew in
  GetCompact bnNew false.

Section PowStore.
Context (blocks : gmap ptr CBlockIndex) (params : Params).

(** The loop of [DarkGravityWave] over [nCountBlocks]. *)
Fixpoint DarkGravityWave_loop (n : nat) (nCountBlocks : Z) (pindex : ptr)
    (bnPastTargetAvg : list Z) : option (ptr * list Z) :=
  match n with
  | O => Some (pindex, bnPastTargetAvg)
  | S n' =>
      b ← blocks !! pindex;
      let '(bnTarget, _, _) := SetCompact (nBits b) in
      avg ← (if nCountBlocks =? 1 then Some bnTarget
             else div (add (mul32 bnPastTargetAvg nCountBlocks) bnTarget)
                      (of_uint64 (nCountBlocks + 1)));
      if negb (nCountBlocks =? 24) then
        q ← pprev b; (* assert(pindex->pprev) *)
        DarkGravityWave_loop n' (nCountBlocks + 1) q avg
      else DarkGravityWave_loop n' (nCountBlocks + 1) pindex avg
  end.

Definition DarkGravityWave (pindexLast : option ptr) : option Z :=
  let bnPowLimit := UintToArith256 (powLimit params) in
  let nPastBlocks := 24 in
  match pindexLast with
  | None => GetCompact bnPowLimit false
  | Some p =>
      last ← blocks !! p;
      if nHeight last <? nPastBlocks then GetCompact bnPowLimit false
      else
        '(pindex, bnPastTargetAvg) ← DarkGravityWave_loop 24 1 p zero;
        first ← blocks !! pindex;
        let nActualTimespan := GetBlockTime last - GetBlockTime first in
        let nTargetTimespan := nPastBlocks * nPowTargetSpacing params in
        let nActualTimespan :=
          clamp (Z.quot nTargetTimespan 3) (nTargetTimespan * 3) nActualTimespan in
        retarget bnPastTargetAvg nActualTimespan nTargetTimespan bnPowLimit
  end.

(** [CalculateNextWorkRequired] *)
Definition CalculateNextWorkRequired (pindexLast : ptr) (nFirstBlockTime : Z) : option Z :=
  last ← blocks !! pindexLast;
  if fPowNoRetargeting params then Some (nBits last)
  else
    let nActualTimespan :=
      clamp (Z.quot (nPowTargetTimespan params) 4) (nPowTargetTimespan params * 4)
            (GetBlockTime last - nFirstBlockTime) in
    let '(bnNew, _, _) := SetCompact (nBits last) in
    retarget bnNew nActualTimespan (nPowTargetTimespan params)
             (UintToArith256 (powLimit params)).

(** The [while] of [GetNextWorkRequired]: back to the last block that does not use
    the minimum-difficulty rule. *)
Fixpoint last_real_bits (fuel : nat) (pindex : ptr) (nProofOfWorkLimit : Z) : option Z :=
  match fuel with
  | O => None
  | S fuel' =>
      b ← blocks !! pindex;
      match pprev b with
      | Some q =>
          if negb (Z.rem (nHeight b) (DifficultyAdjustmentInterval params) =? 0)
             && (nBits b =? nProofOfWorkLimit)
          then last_real_bits fuel' q nProofOfWorkLimit
          else Some (nBits b)
      | None => Some (nBits b)
      end
  end.

(** [GetNextWorkRequired]; [blockTime] is [pblock->GetBlockTime()]. *)
Definition GetNextWorkRequired (pindexLast : ptr) (blockTime : Z) : option Z :=
  last ← blocks !! pindexLast;
  if nHeight last >=? 92000 then DarkGravityWave (Some pindexLast)
  else
    nProofOfWorkLimit ← GetCompact (UintToArith256 (powLimit params)) false;
    if negb (Z.rem (nHeight last + 1) (DifficultyAdjustmentInterval params) =? 0) then
      if fPowAllowMinDifficultyBlocks params then
        if blockTime >? GetBlockTime last + nPowTargetSpacing params * 2
        then Some nProofOfWorkLimit
        else last_real_bits (S (Z.to_nat (nHeight last))) pindexLast nProofOfWorkLimit
      else Some (nBits last)
    else
      let nHeightFirst := i32 (nHeight last - (DifficultyAdjustmentInterval params - 1)) in
      if nHeightFirst <? 0 then None (* assert(nHeightFirst >= 0) *)
      else
        pindexFirst ← mjoin (GetAncestor blocks pindexLast nHeightFirst); (* assert *)
        first ← blocks !! pindexFirst;
        CalculateNextWorkRequired pindexLast (GetBlockTime first).
End PowStore.

(** ** Facts *)

(** What the retargeting arithmetic needs of the chain parameters: times that fit
    the [uint32_t] multiplication, and a spacing that divides the timespan into at
    least one interval. *)
Record pow_params_ok (params : Params) : Prop := {
  ok_powLimit : bytes_ok (powLimit params);
  ok_spacing : 0 < nPowTargetSpacing params <= nPowTargetTimespan params;
  ok_timespan : nPowTargetTimespan params * 4 < 2 ^ 31;
  ok_spacing72 : nPowTargetSpacing params * 72 < 2 ^ 31
}.

Definition pow_limit (params : Params) : Z := to_Z (UintToArith256 (powLimit params)).

Lemma clamp_range (lo hi t : Z) : lo <= hi → lo <= clamp lo hi t <= hi.
Proof. intros. unfold clamp. repeat case_if; rewrite Z.gtb_ltb in *; bool_to_prop; lia. Qed.

Lemma clamp_id (lo hi t : Z) : lo <= t <= hi → clamp lo hi t = t.
Proof. intros. unfold clamp. repeat case_if; rewrite Z.gtb_ltb in *; bool_to_prop; lia. Qed.

(** A compact word denotes [x] up to its truncation to the leading bytes. *)
Definition compact_of (x c : Z) : Prop :=
  is_word 32 c ∧ Z.testbit c 23 = false ∧
  compact_value c <= x ∧ (x - compact_value c) * 2 ^ 15 <= x.

Lemma GetCompact_compact_of (a : list Z) :
  wf a → ∃ c, GetCompact a false = Some c ∧ compact_of (to_Z a) c.
Proof.
  intros Ha. destruct (GetCompact_value a Ha) as (c & E & Hc & Hneg & Hval & Hacc).
  exists c. split; [done|]. split_and!; try done. rewrite Hval.
  set (e := Z.max _ _). pose proof (Z.pow_pos_nonneg 256 e ltac:(lia) ltac:(lia)).
  rewrite Z.mul_comm. apply Z.mul_div_le. lia.
Qed.

Lemma retarget_ok (bn lim : list Z) (a t : Z) :
  wf bn → wf lim → 0 < t < 2 ^ 64 →
  ∃ c x, retarget bn a t lim = Some c ∧ compact_of x c ∧ 0 <= x <= to_Z lim ∧
    (0 <= a < 2 ^ 32 → to_Z bn * a < 2 ^ 256 → x = Z.min (to_Z lim) (to_Z bn * a / t)).
Proof.
  intros Hb Hl Ht. pose proof (to_Z_range bn Hb). pose proof (to_Z_range lim Hl). unfold retarget.
  assert (is_word 32 (u32 a)) as Hu by (apply Z.mod_pos_bound; lia).
  destruct (mul32_spec bn (u32 a) Hb Hu) as [Wm Vm].
  replace (u64 t) with t by (symmetry; apply Z.mod_small; lia).
  destruct (of_uint64_spec t ltac:(lia)) as [Wt Vt].
  pose proof (div_spec _ _ Wm Wt) as D. rewrite Vt, (proj2 (Z.eqb_neq t 0)) in D by lia.
  destruct D as (q & -> & Wq & Vq). cbn [mbind option_bind]. rewrite gtb_spec by done.
  pose proof (to_Z_range q Wq).
  set (r := if to_Z lim <? to_Z q then lim else q).
  assert (wf r ∧ to_Z r = Z.min (to_Z lim) (to_Z q)) as [Wr Vr].
  { unfold r. destruct (Z.ltb_spec (to_Z lim) (to_Z q)); split; (done || lia). }
  destruct (GetCompact_compact_of r Wr) as (c & -> & Hc). exists c, (to_Z r).
  split_and!; try done; try lia.
  intros Ha Hov. rewrite Vr, Vq, Vm. unfold u32, wrap. rewrite (Z.mod_small a) by lia.
  by rewrite Z.mod_small by lia.
Qed.

Lemma SetCompact_wf (c : Z) : is_word 32 c → wf (SetCompact c).1.1.
Proof.
  intros Hc. pose proof (SetCompact_spec c Hc) as S. destruct (SetCompact c) as [[v n] o]. apply S.
Qed.

Lemma pow_limit_wf (params : Params) : pow_params_ok params → wf (UintToArith256 (powLimit params)).
Proof. intros Hp. apply UintToArith256_wf, Hp. Qed.

Definition bits_ok (blocks : gmap ptr CBlockIndex) : Prop :=
  map_Forall (λ _ b, is_word 32 (nBits b)) blocks.

Section PowFacts.
Context (blocks : gmap ptr CBlockIndex) (params : Params).
Context (Hok : tree_ok blocks) (Hbits : bits_ok blocks) (Hpar : pow_params_ok params).

Lemma CalculateNextWorkRequired_ok (p : ptr) (b : CBlockIndex) (t0 : Z) :
  blocks !! p = Some b → fPowNoRetargeting params = false →
  let ts := nPowTargetTimespan params in
  let a := clamp (ts / 4) (ts * 4) (GetBlockTime b - t0) in
  ∃ c x, CalculateNextWorkRequired blocks params p t0 = Some c ∧ compact_of x c ∧
    0 <= x <= pow_limit params ∧
    (target_ok (nBits b) = true → compact_value (nBits b) <= pow_limit params →
     pow_limit params * (ts * 4) < 2 ^ 256 →
     x = Z.min (pow_limit params) (compact_value (nBits b) * a / ts)).
Proof.
  intros Hp Hre ts a. destruct Hpar as [_ Hsp Hts _]. pose proof (Hbits p b Hp) as Hb.
  unfold CalculateNextWorkRequired. rewrite Hp. cbn [mbind option_bind]. rewrite Hre.
  rewrite Z.quot_div_nonneg by lia. fold ts. fold a. pose proof (SetCompact_wf _ Hb) as Wb.
  pose proof (SetCompact_target_ok _ Hb) as Tb. destruct (SetCompact (nBits b)) as [[bn n] o].
  destruct Tb as (_ & _ & Hval). cbn in Wb.
  destruct (retarget_ok bn _ a ts Wb (pow_limit_wf _ Hpar) ltac:(unfold ts; lia))
    as (c & x & E & Hc & Hx & Hform).
  exists c, x. do 3 (split; [done|]). intros Hgood Hle Hfit.
  assert (ts / 4 <= a <= ts * 4).
  { apply clamp_range. apply Z.div_le_upper_bound; unfold ts in *; lia. }
  assert (0 <= ts / 4) by (apply Z.div_pos; unfold ts; lia).
  rewrite Hval in Hform by done. apply Hform; [unfold ts in *; lia|].
  pose proof (compact_value_nonneg _ Hb). unfold ts, pow_limit in *. nia.
Qed.

Lemma walk_prev_S (n : nat) (p q : ptr) (b : CBlockIndex) :
  blocks !! p = Some b → pprev b = Some q → walk_prev blocks (S n) p = walk_prev blocks n q.
Proof. intros Hp Hq. cbn. rewrite Hp. cbn. by rewrite Hq. Qed.

Lemma DarkGravityWave_loop_ok (n : nat) (k : Z) (p : ptr) (b : CBlockIndex) (avg : list Z) :
  blocks !! p = Some b → wf avg → k = 25 - n → (0 < n ≤ 24)%nat → n - 1 <= nHeight b →
  ∃ q c avg', DarkGravityWave_loop blocks n k p avg = Some (q, avg') ∧ wf avg' ∧
    blocks !! q = Some c ∧ walk_prev blocks (n - 1) p = Some q.
Proof.
  revert k p b avg. induction n as [|n IH]; intros k p b avg Hp Ha Hk Hn Hh; [lia|].
  cbn [DarkGravityWave_loop]. rewrite Hp. cbn [mbind option_bind].
  pose proof (SetCompact_wf _ (Hbits p b Hp)) as Wb.
  destruct (SetCompact (nBits b)) as [[bn ?] ?]. cbn in Wb.
  assert (∃ avg', (if k =? 1 then Some bn
            else div (add (mul32 avg k) bn) (of_uint64 (k + 1))) = Some avg' ∧ wf avg')
    as (avg' & -> & Wa').
  { destruct (Z.eqb_spec k 1); [eauto|].
    destruct (of_uint64_spec (k + 1) ltac:(lia)) as [W1 V1].
    destruct (mul32_spec avg k Ha ltac:(unfold is_word; lia)) as [W2 _].
    destruct (add_spec _ _ W2 Wb) as [W3 _]. pose proof (div_spec _ _ W3 W1) as D.
    rewrite V1, (proj2 (Z.eqb_neq _ 0)) in D by lia. destruct D as (q & -> & Wq & _). eauto. }
  cbn [mbind option_bind]. destruct n as [|n].
  - rewrite (proj2 (Z.eqb_eq k 24)) by lia. cbn. eauto 10.
  - rewrite (proj2 (Z.eqb_neq k 24)) by lia. cbn [negb].
    destruct (tree_prev blocks Hok p b Hp ltac:(lia)) as (q & c & Eq & Hq & Hc).
    rewrite Eq. cbn [mbind option_bind].
    destruct (IH (k + 1) q c avg' Hq Wa' ltac:(lia) ltac:(lia) ltac:(lia))
      as (q' & c' & avg'' & -> & Wa'' & Hq' & Hw).
    exists q', c', avg''. split_and!; try done.
    replace (S (S n) - 1)%nat with (S (S n - 1))%nat by lia.
    by rewrite (walk_prev_S _ p q b).
Qed.

Lemma compact_of_le (x c : Z) :
  compact_of x c → x <= pow_limit params → is_word 32 c ∧ compact_value c <= pow_limit params.
Proof. intros (Hw & _ & Hle & _) Hx. split; [done|lia]. Qed.

Lemma powLimit_compact :
  ∃ c, GetCompact (UintToArith256 (powLimit params)) false = Some c ∧ compact_of (pow_limit params) c.
Proof. apply GetCompact_compact_of, pow_limit_wf, Hpar. Qed.

Lemma DarkGravityWave_ok (p : ptr) (b : CBlockIndex) :
  blocks !! p = Some b →
  ∃ c, DarkGravityWave blocks params (Some p) = Some c ∧
       is_word 32 c ∧ compact_value c <= pow_limit params.
Proof.
  intros Hp. unfold DarkGravityWave. rewrite Hp. cbn [mbind option_bind].
  destruct (Z.ltb_spec (nHeight b) 24).
  { destruct powLimit_compact as (c & -> & Hc). exists c. split; [done|]. apply (compact_of_le _ c Hc); lia. }
  assert (wf zero) as Wz by wf_concrete.
  destruct (DarkGravityWave_loop_ok 24 1 p b zero Hp Wz ltac:(lia) ltac:(lia) ltac:(lia))
    as (q & c & avg & -> & Wa & Hq & _).
  cbn [mbind option_bind]. rewrite Hq. cbn [mbind option_bind].
  pose proof (ok_spacing _ Hpar). pose proof (ok_spacing72 _ Hpar).
  destruct (retarget_ok avg (UintToArith256 (powLimit params))
    (clamp (Z.quot (24 * nPowTargetSpacing params) 3) (24 * nPowTargetSpacing params * 3)
       (GetBlockTime b - GetBlockTime c)) (24 * nPowTargetSpacing params) Wa (pow_limit_wf _ Hpar)
    ltac:(lia)) as (r & x & -> & Hr & Hx & _).
  exists r. split; [done|]. apply (compact_of_le _ r Hr). apply Hx.
Qed.

(** Every entry's target is within the limit. *)
Definition bits_within : Prop :=
  map_Forall (λ _ b, compact_value (nBits b) <= pow_limit params) blocks.

Lemma last_real_bits_ok (fuel : nat) (p : ptr) (b : CBlockIndex) (lim : Z) :
  blocks !! p = Some b → nHeight b < fuel →
  ∃ q c, last_real_bits blocks params fuel p lim = Some (nBits c) ∧ blocks !! q = Some c.
Proof.
  revert p b. induction fuel as [|fuel IH]; intros p b Hp Hf.
  { pose proof (tree_height blocks Hok p b Hp). lia. }
  cbn [last_real_bits]. rewrite Hp. cbn [mbind option_bind].
  destruct (pprev b) as [q|] eqn:Eq; [|eauto]. destruct (_ && _); [|eauto].
  destruct (tree_prev_height blocks Hok p q b Hp Eq) as (c & Hc & Hh & _).
  apply (IH q c Hc). lia.
Qed.

Lemma DifficultyAdjustmentInterval_pos : 0 < DifficultyAdjustmentInterval params < 2 ^ 31.
Proof.
  destruct Hpar as [_ Hsp Hts _]. unfold DifficultyAdjustmentInterval.
  rewrite Z.quot_div_nonneg by lia. split.
  - apply Z.div_str_pos. lia.
  - apply Z.div_lt_upper_bound; nia.
Qed.

Lemma GetNextWorkRequired_ok (p : ptr) (b : CBlockIndex) (t : Z) :
  bits_within → blocks !! p = Some b → nHeight b < 2 ^ 31 - 1 →
  ∃ c, GetNextWorkRequired blocks params p t = Some c ∧
       is_word 32 c ∧ compact_value c <= pow_limit params.
Proof.
  intros Hin Hp Hh. unfold GetNextWorkRequired. rewrite Hp. cbn [mbind option_bind].
  destruct (_ >=? _); [by apply (DarkGravityWave_ok p b)|].
  destruct powLimit_compact as (lim & -> & Hlim). cbn [mbind option_bind].
  pose proof (conj (Hbits p b Hp) (Hin p b Hp)) as Hbb. cbn in Hbb.
  pose proof DifficultyAdjustmentInterval_pos as HI. pose proof (tree_height blocks Hok p b Hp) as H0.
  destruct (Z.eqb_spec (Z.rem (nHeight b + 1) (DifficultyAdjustmentInterval params)) 0) as [Er|Er];
    cbn [negb].
  2: { destruct (fPowAllowMinDifficultyBlocks params); [|exists (nBits b); by auto].
       destruct (_ >? _); [exists lim; split; [done|]; apply (compact_of_le _ lim Hlim); lia|].
       destruct (last_real_bits_ok (S (Z.to_nat (nHeight b))) p b lim Hp ltac:(lia)) as (q & c & -> & Hc).
       exists (nBits c). split; [done|]. split; [exact (Hbits q c Hc)|exact (Hin q c Hc)]. }
  assert (DifficultyAdjustmentInterval params <= nHeight b + 1).
  { rewrite Z.rem_mod_nonneg in Er by lia. apply Z.mod_divide in Er; [|lia].
    apply Z.divide_pos_le in Er; lia. }
  set (h := i32 _). assert (h = nHeight b - (DifficultyAdjustmentInterval params - 1)) as Eh.
  { unfold h, i32. apply signed_small; [lia|]. change (32 - 1) with 31. lia. }
  rewrite (proj2 (Z.ltb_ge h 0)) by lia. rewrite (GetAncestor_ok blocks Hok p b) by done.
  rewrite (proj2 (Z.leb_le _ _)), (proj2 (Z.leb_le _ _)) by lia. cbn [andb mjoin option_join].
  destruct (ancestor_ok blocks Hok p b h Hp ltac:(lia)) as (q & c & -> & Hq & _).
  cbn [mbind option_bind]. rewrite Hq. cbn [mbind option_bind].
  destruct (fPowNoRetargeting params) eqn:Enr.
  { unfold CalculateNextWorkRequired. rewrite Hp. cbn [mbind option_bind]. rewrite Enr.
    exists (nBits b). by auto. }
  destruct (CalculateNextWorkRequired_ok p b (GetBlockTime c) Hp Enr) as (r & x & -> & Hr & Hx & _).
  exists r. split; [done|]. apply (compact_of_le _ r Hr). apply Hx.
Qed.
End PowFacts.

(** The value a 32-byte hash has as a little-endian number. *)
Lemma CheckProofOfWork_ok (hash : list Z) (c : Z) (params : Params) :
  bytes_ok hash → bytes_ok (powLimit params) → is_word 32 c →
  CheckProofOfWork hash c params = true ↔
    target_ok c = true ∧ compact_value c <= pow_limit params ∧
    to_Z (UintToArith256 hash) <= compact_value c.
Proof.
  intros Hh Hl Hc. unfold CheckProofOfWork, pow_limit. pose proof (SetCompact_target_ok c Hc) as S.
  destruct (SetCompact c) as [[v n] o]. destruct S as (Hwf & Hbad & Hv).
  pose proof (UintToArith256_wf _ Hh) as Wh. pose proof (UintToArith256_wf _ Hl) as Wl.
  rewrite EqualTo_spec by (done || (unfold is_word; lia)). rewrite !gtb_spec by done.
  replace (n || (to_Z v =? 0) || o) with (negb (target_ok c))
    by (rewrite <- Hbad; by destruct n, o, (to_Z v =? 0)).
  destruct (target_ok c); cbn [negb orb]; [|split; [done|tauto]]. rewrite Hv by done.
  destruct (Z.ltb_spec (to_Z (UintToArith256 (powLimit params))) (compact_value c)),
    (Z.ltb_spec (compact_value c) (to_Z (UintToArith256 hash)));
    (split; [intros; split_and!; (done || lia) | intros (_ & ? & ?); (done || lia)]).
Qed.

(** ** Properties *)

(** [CheckProofOfWork] accepts a hash exactly when the compact target is
    positive, fits 256 bits and does not exceed the limit of the chain, and the
    hash, read as a little-endian number, does not exceed the target. *)
Theorem CheckProofOfWork_correct (hash : list Z) (c : Z) (params : Params) :
  bytes_ok hash → length hash = 32%nat →
  bytes_ok (powLimit params) → length (powLimit params) = 32%nat → is_word 32 c →
  CheckProofOfWork hash c params = true ↔
    target_ok c = true ∧ compact_value c <= le_val 8 (powLimit params) ∧
    le_val 8 hash <= compact_value c.
Proof.
  intros Hh Hlen Hl Hlenl Hc. rewrite CheckProofOfWork_ok by done. unfold pow_limit.
  by rewrite !UintToArith256_value by done.
Qed.

(** the periodic retarget multiplies the target of the last block by the
    clamped timespan over the nominal one and caps the result by the limit; the
    returned compact word encodes that number up to truncation of its low bytes
    (less than one part in [2^15]).  No intermediate product wraps as long as the
    limit times four timespans fits 256 bits. *)
Theorem CalculateNextWorkRequired_correct (blocks : gmap ptr CBlockIndex) (params : Params)
    (p : ptr) (b : CBlockIndex) (t0 : Z) :
  bits_ok blocks → pow_params_ok params → blocks !! p = Some b →
  fPowNoRetargeting params = false → target_ok (nBits b) = true →
  compact_value (nBits b) <= pow_limit params →
  pow_limit params * (nPowTargetTimespan params * 4) < 2 ^ 256 →
  let ts := nPowTargetTimespan params in
  let x := Z.min (pow_limit params)
             (compact_value (nBits b) * clamp (ts / 4) (ts * 4) (GetBlockTime b - t0) / ts) in
  ∃ c, CalculateNextWorkRequired blocks params p t0 = Some c ∧
       is_word 32 c ∧ Z.testbit c 23 = false ∧
       compact_value c <= x ∧ (x - compact_value c) * 2 ^ 15 <= x ∧
       x <= 4 * compact_value (nBits b).
Proof.
  intros Hbits Hpar Hp Hre Hgood Hle Hfit ts x.
  destruct (CalculateNextWorkRequired_ok blocks params Hbits Hpar p b t0 Hp Hre)
    as (c & y & E & Hc & Hy & Hform).
  specialize (Hform Hgood Hle Hfit). change (y = x) in Hform. subst y.
  destruct Hc as (H1 & H2 & H3 & H4). exists c. split_and!; try done.
  pose proof (ok_spacing _ Hpar). pose proof (compact_value_nonneg _ (Hbits p b Hp)).
  assert (ts / 4 <= ts * 4) by (apply Z.div_le_upper_bound; unfold ts; lia).
  pose proof (clamp_range (ts / 4) (ts * 4) (GetBlockTime b - t0) ltac:(done)).
  unfold x. etransitivity; [apply Z.le_min_r|]. apply Z.div_le_upper_bound; [unfold ts; lia|]. nia.
Qed.

(** C31: on a well-formed block tree whose targets respect the limit,
    [GetNextWorkRequired] (either algorithm, [DarkGravityWave] from height 92000)
    always produces a target: none of its assertions fails and no division is by
    zero.  The target it asks for respects the limit again. *)
Theorem GetNextWorkRequired_correct (blocks : gmap ptr CBlockIndex) (params : Params)
    (p : ptr) (b : CBlockIndex) (t : Z) :
  tree_ok blocks → bits_ok blocks → pow_params_ok params → bits_within blocks params →
  blocks !! p = Some b → nHeight b < 2 ^ 31 - 1 →
  ∃ c, GetNextWorkRequired blocks params p t = Some c ∧
       is_word 32 c ∧ compact_value c <= pow_limit params.
Proof. intros. by apply (GetNextWorkRequired_ok blocks params) with (b := b). Qed.

Lemma mainConsensus_ok (g : list Z) : pow_params_ok (mainConsensus g).
Proof.
  split; cbn; [|lia|lia|lia].
  repeat (apply Forall_cons_iff; split; [unfold is_byte, is_word; lia|]). constructor.
Qed.

Lemma CheckProofOfWork_correct_witness :
  CheckProofOfWork (replicate 28 0xff ++ [0; 0; 0; 0]) 0x1e0fffff (mainConsensus []) = true.
Proof.
  apply (CheckProofOfWork_correct (replicate 28 0xff ++ [0; 0; 0; 0]) 0x1e0fffff (mainConsensus [])).
  - cbn. repeat (apply Forall_cons_iff; split; [unfold is_byte, is_word; lia|]). constructor.
  - reflexivity.
  - apply (mainConsensus_ok []).
  - reflexivity.
  - unfold is_word. lia.
  - split; [reflexivity|]. split; vm_compute; discriminate.
Defined.

(** A tree whose entries carry the easiest target of the main network. *)
Definition easy (b : CBlockIndex) : CBlockIndex :=
  {| phashBlock := phashBlock b; pprev := pprev b; pskip := pskip b; nHeight := nHeight b;
     nFile := nFile b; nDataPos := nDataPos b; nUndoPos := nUndoPos b;
     nChainWork := nChainWork b; nTx := nTx b; nChainTx := nChainTx b;
     nStatus := nStatus b; nVersion := nVersion b; hashMerkleRoot := hashMerkleRoot b;
     nTime := nTime b; nBits := 0x1e0fffff; nNonce := nNonce b;
     nSequenceId := nSequenceId b; nTimeMax := nTimeMax b |}.

Definition pow_tree : gmap ptr CBlockIndex := easy <$> demo_tree.

Lemma pow_tree_tree_ok : tree_ok pow_tree.
Proof.
  apply map_Forall_to_list. vm_compute.
  repeat constructor; try discriminate; try (eexists; split; reflexivity);
    intros s [= <-]; reflexivity.
Qed.

Lemma pow_tree_bits_ok : bits_ok pow_tree.
Proof. apply map_Forall_fmap. intros p b _. cbn. unfold is_word. lia. Qed.

Lemma pow_tree_within : bits_within pow_tree (mainConsensus []).
Proof. apply map_Forall_fmap. intros p b _. vm_compute. discriminate. Qed.

Lemma CalculateNextWorkRequired_correct_witness :
  ∃ c, CalculateNextWorkRequired pow_tree (mainConsensus []) 6 0 = Some c ∧
       compact_value c <= compact_value 0x1e0fffff.
Proof.
  pose proof pow_tree_bits_ok as Hbits.
  destruct (CalculateNextWorkRequired_correct pow_tree (mainConsensus []) 6
    (easy (demo_entry (Some 5%positive) (Some 1%positive) 4)) 0 Hbits (mainConsensus_ok [])
    eq_refl eq_refl eq_refl ltac:(vm_compute; discriminate) ltac:(vm_compute; reflexivity))
    as (c & E & _ & _ & Hle & _).
  exists c. split; [exact E|]. etransitivity; [exact Hle|]. vm_compute. discriminate.
Defined.

Lemma GetNextWorkRequired_correct_witness :
  ∃ c, GetNextWorkRequired pow_tree (mainConsensus []) 6 3000 = Some c ∧ c = 0x1e0fffff.
Proof.
  pose proof pow_tree_tree_ok as Hok. pose proof pow_tree_bits_ok as Hbits.
  pose proof pow_tree_within as Hin.
  destruct (GetNextWorkRequired_correct pow_tree (mainConsensus []) 6
    (easy (demo_entry (Some 5%positive) (Some 1%positive) 4)) 3000 Hok Hbits (mainConsensus_ok [])
    Hin eq_refl ltac:(vm_compute; reflexivity)) as (c & E & _).
  exists c. split; [exact E|]. vm_compute in E. by injection E as <-.
Defined.
