(* ===== verification/VersionBits.v ===== *)
(** * Version bits deployments ([src/src/versionbits.h], [src/src/versionbits.cpp])

    The state of a soft-fork deployment, computed period by period with a cache
    that is shared between calls.  [AbstractThresholdConditionChecker] is the
    class [Checker]; [VersionBitsConditionChecker] is an instance of it.  The
    cache is a map from the parent of the first block of a period (null for the
    genesis period) to a state, and the functions return the updated cache. *)

From Stdlib Require Import ZArith Lia.
From stdpp Require Import gmap sorting.
From S2P Require Import Prelude Common ArithUint256 Chain Pow.

Open Scope Z_scope.
Open Scope word_scope.

Inductive ThresholdState :=
  | THRESHOLD_DEFINED
  | THRESHOLD_STARTED
  | THRESHOLD_LOCKED_IN
  | THRESHOLD_ACTIVE
  | THRESHOLD_FAILED.

#[global] Instance ThresholdState_eq_dec : EqDecision ThresholdState.
Proof. solve_decision. Defined.

Definition VERSIONBITS_TOP_BITS : Z := 0x20000000.
Definition VERSIONBITS_TOP_MASK : Z := i32 0xE0000000.

Abbreviation ThresholdConditionCache := (gmap (option ptr) ThresholdState).

Record BIP9Stats := {
  period : Z;
  threshold : Z;
  elapsed : Z;
  count : Z;
  possible : bool
}.

(** [class AbstractThresholdConditionChecker]: the virtual members. *)
Class Checker := {
  Condition : CBlockIndex → Params → bool;
  BeginTime : Params → Z;
  EndTime : Params → Z;
  Period : Params → Z;
  Threshold : Params → Z
}.

Section Checkers.
Context `{Checker} (blocks : gmap ptr CBlockIndex) (params : Params).

(** [pindex->GetAncestor(pindex->nHeight - ((pindex->nHeight + 1) % nPeriod))] *)
Definition period_end (pindexPrev : ptr) : option (option ptr) :=
  b ← blocks !! pindexPrev;
  GetAncestor blocks pindexPrev (nHeight b - Z.rem (nHeight b + 1) (Period params)).

(** The first [while]: back to a known state, collecting the periods to compute,
    the last one found first. *)
Fixpoint walk_back (fuel : nat) (pindexPrev : option ptr) (cache : ThresholdConditionCache)
    (vToCompute : list ptr) : option (option ptr * ThresholdConditionCache * list ptr) :=
  match fuel with
  | O => None
  | S fuel' =>
      match cache !! pindexPrev with
      | Some _ => Some (pindexPrev, cache, vToCompute)
      | None =>
          match pindexPrev with
          | None => Some (None, <[None := THRESHOLD_DEFINED]> cache, vToCompute)
          | Some p =>
              mtp ← GetMedianTimePast blocks p;
              if mtp <? BeginTime params
              then Some (Some p, <[Some p := THRESHOLD_DEFINED]> cache, vToCompute)
              else
                b ← blocks !! p;
                q ← GetAncestor blocks p (nHeight b - Period params);
                walk_back fuel' q cache (p :: vToCompute)
          end
      end
  end.

(** The counting [for] of the [THRESHOLD_STARTED] case. *)
Fixpoint count_condition (n : nat) (pindexCount : option ptr) (cnt : Z) : option Z :=
  match n with
  | O => Some cnt
  | S n' =>
      p ← pindexCount;
      b ← blocks !! p;
      count_condition n' (pprev b) (if Condition b params then cnt + 1 else cnt)
  end.

(** The [switch]: the state of the period after [pindexPrev]. *)
Definition next_state (state : ThresholdState) (pindexPrev : ptr) : option ThresholdState :=
  match state with
  | THRESHOLD_DEFINED =>
      mtp ← GetMedianTimePast blocks pindexPrev;
      Some (if mtp >=? EndTime params then THRESHOLD_FAILED
            else if mtp >=? BeginTime params then THRESHOLD_STARTED
            else THRESHOLD_DEFINED)
  | THRESHOLD_STARTED =>
      mtp ← GetMedianTimePast blocks pindexPrev;
      if mtp >=? EndTime params then Some THRESHOLD_FAILED
      else
        cnt ← count_condition (Z.to_nat (Period params)) (Some pindexPrev) 0;
        Some (if cnt >=? Threshold params then THRESHOLD_LOCKED_IN else THRESHOLD_STARTED)
  | THRESHOLD_LOCKED_IN => Some THRESHOLD_ACTIVE
  | THRESHOLD_FAILED => Some THRESHOLD_FAILED
  | THRESHOLD_ACTIVE => Some THRESHOLD_ACTIVE
  end.

(** The second [while]. *)
Fixpoint walk_forward (vToCompute : list ptr) (state : ThresholdState)
    (cache : ThresholdConditionCache) : option (ThresholdState * ThresholdConditionCache) :=
  match vToCompute with
  | [] => Some (state, cache)
  | p :: rest =>
      state' ← next_state state p;
      walk_forward rest state' (<[Some p := state']> cache)
  end.

Definition fuel_for (pindexPrev : option ptr) : nat :=
  match pindexPrev with
  | Some p => match blocks !! p with Some b => Z.to_nat (nHeight b) + 2 | None => 1 end
  | None => 1
  end.

Definition GetStateFor (pindexPrev : option ptr) (cache : ThresholdConditionCache) :
    option (ThresholdState * ThresholdConditionCache) :=
  pindexPrev ← match pindexPrev with Some p => period_end p | None => Some None end;
  '(pindexPrev, cache, vToCompute) ← walk_back (fuel_for pindexPrev) pindexPrev cache [];
  state ← cache !! pindexPrev; (* assert(cache.count(pindexPrev)) *)
  walk_forward vToCompute state cache.

(** The counting [while] of [GetStateStatisticsFor]. *)
Fixpoint count_until (fuel : nat) (pindex : option ptr) (endHeight cnt : Z) : option Z :=
  match fuel with
  | O => None
  | S fuel' =>
      p ← pindex;
      b ← blocks !! p;
      if negb (endHeight =? nHeight b)
      then count_until fuel' (pprev b) endHeight (if Condition b params then cnt + 1 else cnt)
      else Some cnt
  end.

Definition GetStateStatisticsFor (pindex : option ptr) : option BIP9Stats :=
  match pindex with
  | None => Some {| period := Period params; threshold := Threshold params;
                    elapsed := 0; count := 0; possible := false |}
  | Some p =>
      b ← blocks !! p;
      e ← mjoin (period_end p); (* dereferenced without a null test *)
      be ← blocks !! e;
      let elapsed := nHeight b - nHeight be in
      cnt ← count_until (S (Z.to_nat (nHeight b))) (Some p) (nHeight be) 0;
      Some {| period := Period params; threshold := Threshold params;
              elapsed := elapsed; count := cnt;
              possible := Period params - Threshold params >=? elapsed - cnt |}
  end.

(** The [while] of [GetStateSinceHeightFor]. *)
Fixpoint since_loop (fuel : nat) (initialState : ThresholdState) (pindexPrev : ptr)
    (previousPeriodParent : option ptr) (cache : ThresholdConditionCache) :
    option (Z * ThresholdConditionCache) :=
  match fuel with
  | O => None
  | S fuel' =>
      b ← blocks !! pindexPrev;
      match previousPeriodParent with
      | None => Some (nHeight b + 1, cache)
      | Some q =>
          '(st, cache) ← GetStateFor (Some q) cache;
          if decide (st = initialState) then
            c ← blocks !! q;
            q' ← GetAncestor blocks q (nHeight c - Period params);
            since_loop fuel' initialState q q' cache
          else Some (nHeight b + 1, cache)
      end
  end.

Definition GetStateSinceHeightFor (pindexPrev : option ptr) (cache : ThresholdConditionCache) :
    option (Z * ThresholdConditionCache) :=
  '(initialState, cache) ← GetStateFor pindexPrev cache;
  if decide (initialState = THRESHOLD_DEFINED) then Some (0, cache)
  else
    p ← pindexPrev;
    e ← mjoin (period_end p);
    b ← blocks !! e;
    q ← GetAncestor blocks e (nHeight b - Period params);
    since_loop (S (Z.to_nat (nHeight b))) initialState e q cache.
End Checkers.

(** [VersionBitsConditionChecker::Mask] *)
Definition Mask (d : BIP9Deployment) : Z := u32 (1 .<< bit d).

(** [class VersionBitsConditionChecker] for the deployment at [id]. *)
Definition VersionBitsConditionChecker (id : nat) : Checker := {|
  Condition b params :=
    match vDeployments params !! id with
    | Some d => (nVersion b .& VERSIONBITS_TOP_MASK =? VERSIONBITS_TOP_BITS)
                && negb (u32 (nVersion b) .& Mask d =? 0)
    | None => false
    end;
  BeginTime params := from_option nStartTime 0 (vDeployments params !! id);
  EndTime params := from_option nTimeout 0 (vDeployments params !! id);
  Period params := i32 (nMinerConfirmationWindow params);
  Threshold params := i32 (nRuleChangeActivationThreshold params)
|}.

(** [VersionBitsState] on the array of caches. *)
Definition VersionBitsState (blocks : gmap ptr CBlockIndex) (pindexPrev : option ptr)
    (params : Params) (pos : nat) (caches : list ThresholdConditionCache) :
    option (ThresholdState * list ThresholdConditionCache) :=
  cache ← caches !! pos;
  '(st, cache) ← @GetStateFor (VersionBitsConditionChecker pos) blocks params pindexPrev cache;
  Some (st, <[pos := cache]> caches).

Definition VersionBitsStatistics (blocks : gmap ptr CBlockIndex) (pindexPrev : option ptr)
    (params : Params) (pos : nat) : option BIP9Stats :=
  @GetStateStatisticsFor (VersionBitsConditionChecker pos) blocks params pindexPrev.

Definition VersionBitsStateSinceHeight (blocks : gmap ptr CBlockIndex) (pindexPrev : option ptr)
    (params : Params) (pos : nat) (caches : list ThresholdConditionCache) :
    option (Z * list ThresholdConditionCache) :=
  cache ← caches !! pos;
  '(h, cache) ← @GetStateSinceHeightFor (VersionBitsConditionChecker pos) blocks params pindexPrev cache;
  Some (h, <[pos := cache]> caches).

(** [VersionBitsCache::Clear] *)
Definition VersionBitsCache_Clear (caches : list ThresholdConditionCache) :
    list ThresholdConditionCache := (λ _, ∅) <$> caches.

(** ** The deployment state machine *)

Section BIP9.
Context `{Checker} (blocks : gmap ptr CBlockIndex) (params : Params).

(** The entry one period before, null before the genesis period. *)
Definition previous_period (p : ptr) (b : CBlockIndex) : option ptr :=
  if nHeight b <? Period params then None else ancestor blocks p b (nHeight b - Period params).

(** The entry and up to [n - 1] entries before it. *)
Fixpoint last_blocks (n : nat) (k : option ptr) : list CBlockIndex :=
  match n, k with
  | S n, Some p => from_option (λ b, b :: last_blocks n (pprev b)) [] (blocks !! p)
  | _, _ => []
  end.

(** The median of the times of the last eleven entries: the middle of them when sorted. *)
Definition median_time (p : ptr) (t : Z) : Prop :=
  ∃ l, l ≡ₚ GetBlockTime <$> last_blocks 11 (Some p) ∧ StronglySorted Z.le l ∧ l !! (length l / 2)%nat = Some t.

(** How many blocks of the period that ends with [p] signal. *)
Definition signals (p : ptr) : Z :=
  Z.of_nat (length (List.filter (λ b, Condition b params) (last_blocks (Z.to_nat (Period params)) (Some p)))).

(** The transitions of BIP 9 at the end of a period, with the median time past and the number of signals in it. *)
Inductive bip9_step (mtp signalling : Z) : ThresholdState → ThresholdState → Prop :=
  | step_wait : mtp < BeginTime params → mtp < EndTime params → bip9_step mtp signalling THRESHOLD_DEFINED THRESHOLD_DEFINED
  | step_start : BeginTime params <= mtp < EndTime params → bip9_step mtp signalling THRESHOLD_DEFINED THRESHOLD_STARTED
  | step_expire : EndTime params <= mtp → bip9_step mtp signalling THRESHOLD_DEFINED THRESHOLD_FAILED
  | step_timeout : EndTime params <= mtp → bip9_step mtp signalling THRESHOLD_STARTED THRESHOLD_FAILED
  | step_lock_in : mtp < EndTime params → Threshold params <= signalling → bip9_step mtp signalling THRESHOLD_STARTED THRESHOLD_LOCKED_IN
  | step_started : mtp < EndTime params → signalling < Threshold params → bip9_step mtp signalling THRESHOLD_STARTED THRESHOLD_STARTED
  | step_activate : bip9_step mtp signalling THRESHOLD_LOCKED_IN THRESHOLD_ACTIVE
  | step_active : bip9_step mtp signalling THRESHOLD_ACTIVE THRESHOLD_ACTIVE
  | step_failed : bip9_step mtp signalling THRESHOLD_FAILED THRESHOLD_FAILED.

(** The state of the period that follows the entry [p] (the genesis period for
    null): start from [DEFINED] and take the transition of each period in order. *)
Inductive bip9_state : option ptr → ThresholdState → Prop :=
  | bip9_genesis : bip9_state None THRESHOLD_DEFINED
  | bip9_next (p : ptr) (b : CBlockIndex) (t : Z) (s s' : ThresholdState) :
      blocks !! p = Some b →
      bip9_state (previous_period p b) s →
      median_time p t → bip9_step t (signals p) s s' →
      bip9_state (Some p) s'.

Lemma median_time_fun (p : ptr) (t t' : Z) : median_time p t → median_time p t' → t = t'.
Proof.
  intros (l & HP & Hs & Hl) (l' & HP' & Hs' & Hl'). assert (l = l') as ->; [|congruence].
  apply (StronglySorted_unique Z.le); [done..|]. by rewrite HP, HP'.
Qed.

Lemma bip9_state_fun (k : option ptr) (s s' : ThresholdState) :
  bip9_state k s → bip9_state k s' → s = s'.
Proof.
  intros Hs. revert s'. induction Hs as [|p b t s s1 Hp Hs IH Ht Hn]; intros s' Hs'.
  - by inv Hs'.
  - inversion Hs' as [|p' b' t' u u1 Hp' Hu Ht' Hn']; subst.
    assert (b' = b) as -> by congruence. specialize (IH u Hu) as ->. rewrite (median_time_fun p t' t Ht' Ht) in Hn'.
    inversion Hn; subst; inversion Hn'; subst; done || lia.
Qed.

(** *** The code takes these transitions *)

Lemma past_times_blocks (n : nat) (k : option ptr) (ts : list Z) :
  past_times blocks n k = Some ts → ts = GetBlockTime <$> last_blocks n k.
Proof.
  revert k ts. induction n as [|n IH]; intros [p|] ts; cbn [past_times last_blocks]; try (by intros [= <-]).
  destruct (blocks !! p) as [b|]; cbn [mbind option_bind from_option]; [|done].
  destruct (past_times blocks n (pprev b)) as [ts'|] eqn:E; cbn [mbind option_bind]; [|done]. intros [= <-]. by rewrite (IH _ _ E).
Qed.

Lemma GetMedianTimePast_median (p : ptr) (t : Z) : GetMedianTimePast blocks p = Some t → median_time p t.
Proof.
  unfold GetMedianTimePast. change nMedianTimeSpan with 11%nat. destruct (past_times blocks 11 (Some p)) as [ts|] eqn:E; cbn [mbind option_bind]; [|done].
  intros Ht. exists (merge_sort Z.le ts). rewrite <- (past_times_blocks _ _ _ E).
  split; [apply merge_sort_Permutation|]. split; [apply (StronglySorted_merge_sort _)|done].
Qed.

Lemma count_condition_signals (n : nat) (k : option ptr) (cnt r : Z) :
  count_condition blocks params n k cnt = Some r →
  r = cnt + Z.of_nat (length (List.filter (λ b, Condition b params) (last_blocks n k))).
Proof.
  revert k cnt. induction n as [|n IH]; intros k cnt E; cbn [count_condition] in E; [injection E as <-; cbn; lia|].
  destruct k as [p|]; [|done]. cbn [mbind option_bind] in E. destruct (blocks !! p) as [b|] eqn:Hp; [|done].
  cbn [mbind option_bind] in E. apply IH in E. cbn [last_blocks]. rewrite Hp. cbn [from_option List.filter].
  destruct (Condition b params); cbn [length]; lia.
Qed.

Lemma next_state_step (s s' : ThresholdState) (p : ptr) (t : Z) :
  GetMedianTimePast blocks p = Some t → next_state blocks params s p = Some s' → bip9_step t (signals p) s s'.
Proof.
  intros Ht. unfold next_state. rewrite Ht. cbn [mbind option_bind]. rewrite !Z.geb_leb.
  destruct s; try (intros [= <-]; constructor).
  - intros [= <-]. repeat case_match; bool_to_prop; constructor; lia.
  - case_match; bool_to_prop; [intros [= <-]; constructor; lia|].
    destruct (count_condition _ _ _ _ _) as [r|] eqn:Er; cbn [mbind option_bind]; [|done]. intros [= <-].
    apply count_condition_signals in Er. rewrite Z.geb_leb. unfold signals. case_match; bool_to_prop; constructor; lia.
Qed.

(** Keys of the cache: null or the last entry of a period. *)
Definition aligned (k : option ptr) : Prop :=
  match k with
  | None => True
  | Some p => ∃ b, blocks !! p = Some b ∧ (nHeight b + 1) mod Period params = 0
  end.

Definition cache_ok (cache : ThresholdConditionCache) : Prop :=
  map_Forall bip9_state cache.

Context (Hok : tree_ok blocks) (Htimes : times_ok blocks).
Context (Hperiod : 0 < Period params) (Hstart : BeginTime params <= EndTime params).

Lemma aligned_height (p : ptr) (b : CBlockIndex) :
  aligned (Some p) → blocks !! p = Some b → Period params <= nHeight b + 1.
Proof.
  intros (b' & Hb' & Hm) Hp. assert (b' = b) as -> by congruence.
  pose proof (tree_height blocks Hok p b Hp). apply Z.mod_divide in Hm; [|lia].
  apply Z.divide_pos_le in Hm; lia.
Qed.

Lemma previous_period_ok (p : ptr) (b : CBlockIndex) :
  aligned (Some p) → blocks !! p = Some b →
  GetAncestor blocks p (nHeight b - Period params) = Some (previous_period p b) ∧
  aligned (previous_period p b) ∧
  ∀ q c, previous_period p b = Some q → blocks !! q = Some c →
    nHeight c = nHeight b - Period params ∧ walk_prev blocks (Z.to_nat (Period params)) p = Some q.
Proof.
  intros Hal Hp. rewrite (GetAncestor_ok blocks Hok p b) by done. unfold previous_period.
  destruct (Z.ltb_spec (nHeight b) (Period params)) as [Hlt|Hge].
  { rewrite (proj2 (Z.leb_gt 0 _)) by lia. done. }
  rewrite (proj2 (Z.leb_le 0 _)), (proj2 (Z.leb_le _ (nHeight b))) by lia. cbn [andb].
  split; [done|].
  assert (0 <= nHeight b - Period params <= nHeight b) as Hr by lia.
  destruct (ancestor_ok blocks Hok p b _ Hp Hr) as (q & c & E & Hq & Hc).
  rewrite E. split.
  - exists c. split; [done|]. destruct Hal as (b' & Hb' & Hm). assert (b' = b) as -> by congruence.
    rewrite Hc. replace (nHeight b - Period params + 1) with (nHeight b + 1 + (-1) * Period params) by ring.
    by rewrite Z.mod_add by lia.
  - intros q' c' [= <-] Hq'. assert (c' = c) as -> by congruence. split; [done|].
    unfold ancestor in E. by replace (nHeight b - (nHeight b - Period params)) with (Period params) in E by lia.
Qed.

Lemma count_condition_ok (n : nat) (p : ptr) (b : CBlockIndex) (cnt : Z) :
  blocks !! p = Some b → n <= nHeight b + 1 →
  ∃ r, count_condition blocks params n (Some p) cnt = Some r ∧ cnt <= r <= cnt + n.
Proof.
  revert p b cnt. induction n as [|n IH]; intros p b cnt Hp Hn.
  { exists cnt. split; [done|lia]. }
  cbn [count_condition mbind option_bind]. rewrite Hp. cbn [mbind option_bind].
  set (cnt' := if Condition b params then _ else _).
  assert (cnt <= cnt' <= cnt + 1) by (unfold cnt'; case_match; lia).
  destruct n as [|n].
  { exists cnt'. split; [done|lia]. }
  destruct (tree_prev blocks Hok p b Hp ltac:(lia)) as (q & c & Eq & Hq & Hc). rewrite Eq.
  destruct (IH q c cnt' Hq ltac:(lia)) as (r & -> & Hr). exists r. split; [done|lia].
Qed.

Lemma next_state_total (s : ThresholdState) (p : ptr) (b : CBlockIndex) :
  aligned (Some p) → blocks !! p = Some b → ∃ s', next_state blocks params s p = Some s'.
Proof.
  intros Hal Hp. destruct (GetMedianTimePast_total blocks Hok p b Hp) as (t & Ht).
  pose proof (aligned_height p b Hal Hp).
  assert (Z.to_nat (Period params) <= nHeight b + 1) as Hn by lia.
  destruct (count_condition_ok _ p b 0 Hp Hn) as (r & Hr & _).
  destruct s; unfold next_state; rewrite ?Ht, ?Hr; cbn [mbind option_bind]; eauto.
  case_match; eauto.
Qed.

(** The early stop of the backward walk: before the start time the state can
    only be [DEFINED]. *)
Lemma defined_before_start (n : nat) (p : ptr) (b : CBlockIndex) (t : Z) :
  nHeight b < n → aligned (Some p) → blocks !! p = Some b →
  GetMedianTimePast blocks p = Some t → t < BeginTime params →
  bip9_state (Some p) THRESHOLD_DEFINED.
Proof.
  revert p b t. induction n as [|n IH]; intros p b t Hn Hal Hp Ht Hlt.
  { pose proof (tree_height blocks Hok p b Hp). lia. }
  destruct (previous_period_ok p b Hal Hp) as (_ & Hal' & Hprev).
  apply (bip9_next p b t THRESHOLD_DEFINED); [done| |by apply GetMedianTimePast_median|].
  - destruct (previous_period p b) as [q|] eqn:Eq; [|constructor].
    destruct Hal' as (c & Hc & Hm). destruct (Hprev q c eq_refl Hc) as [Hh Hw].
    destruct (GetMedianTimePast_total blocks Hok q c Hc) as (tq & Htq).
    apply (IH q c tq); try done; [lia|exists c; done|].
    pose proof (median_monotone blocks Hok _ p q b t tq Htimes Hp Hw Ht Htq). lia.
  - constructor; lia.
Qed.

(** The periods left to compute form a chain up from the known one. *)
Inductive pending : option ptr → list ptr → option ptr → Prop :=
  | pending_nil (k : option ptr) : pending k [] k
  | pending_cons (p : ptr) (b : CBlockIndex) (rest : list ptr) (k : option ptr) :
      aligned (Some p) → blocks !! p = Some b → pending (Some p) rest k →
      pending (previous_period p b) (p :: rest) k.

Lemma walk_back_ok (fuel : nat) (k0 k : option ptr) (cache : ThresholdConditionCache) (v : list ptr) :
  aligned k → cache_ok cache → pending k v k0 →
  (from_option (λ p, from_option (λ b, Z.to_nat (nHeight b + 1)) 0%nat (blocks !! p)) 0%nat k < fuel)%nat →
  ∃ k' cache' v', walk_back blocks params fuel k cache v = Some (k', cache', v') ∧
    cache_ok cache' ∧ cache ⊆ cache' ∧ is_Some (cache' !! k') ∧ pending k' v' k0.
Proof.
  revert k v. induction fuel as [|fuel IH]; intros k v Hal Hc Hpend Hf; [lia|].
  cbn [walk_back]. destruct (cache !! k) as [s|] eqn:Ek.
  { exists k, cache, v. by split_and!. }
  destruct k as [p|].
  2: { exists None, (<[None := THRESHOLD_DEFINED]> cache), v. split_and!; try done.
       - apply map_Forall_insert_2; [constructor|done].
       - by apply insert_subseteq.
       - by rewrite lookup_insert_eq. }
  destruct Hal as (b & Hb & Hm). assert (aligned (Some p)) as Hal by (exists b; done).
  destruct (GetMedianTimePast_total blocks Hok p b Hb) as (t & Ht). rewrite Ht. cbn [mbind option_bind].
  destruct (Z.ltb_spec t (BeginTime params)) as [Hlt|Hge].
  { exists (Some p), (<[Some p := THRESHOLD_DEFINED]> cache), v. split_and!; try done.
    - apply map_Forall_insert_2; [|done].
      apply (defined_before_start (S (Z.to_nat (nHeight b))) p b t); try done.
      pose proof (tree_height blocks Hok p b Hb). lia.
    - by apply insert_subseteq.
    - by rewrite lookup_insert_eq. }
  rewrite Hb. cbn [mbind option_bind].
  destruct (previous_period_ok p b Hal Hb) as (-> & Hal' & Hprev). cbn [mbind option_bind].
  apply IH; try done; [by apply pending_cons|].
  cbn in Hf. rewrite Hb in Hf. cbn in Hf. pose proof (tree_height blocks Hok p b Hb).
  destruct (previous_period p b) as [q|]; cbn; [|lia].
  destruct Hal' as (c & Hc' & _). rewrite Hc'. cbn. destruct (Hprev q c eq_refl Hc') as [Hh _]. lia.
Qed.

Lemma walk_forward_ok (v : list ptr) (k k0 : option ptr) (s : ThresholdState)
    (cache : ThresholdConditionCache) :
  pending k v k0 → bip9_state k s → cache_ok cache →
  ∃ s' cache', walk_forward blocks params v s cache = Some (s', cache') ∧
    bip9_state k0 s' ∧ cache_ok cache'.
Proof.
  intros Hpend. revert s cache. induction Hpend as [k|p b rest k Hal Hp Hpend IH]; intros s cache Hs Hc.
  { exists s, cache. done. }
  cbn [walk_forward]. destruct (next_state_total s p b Hal Hp) as (s' & E). rewrite E.
  cbn [mbind option_bind]. destruct (GetMedianTimePast_total blocks Hok p b Hp) as (t & Ht).
  assert (bip9_state (Some p) s') by (apply (bip9_next p b t s); [done..|by apply GetMedianTimePast_median|by apply next_state_step]).
  apply IH; [done|]. by apply map_Forall_insert_2.
Qed.

Definition period_parent (p : ptr) (b : CBlockIndex) : option ptr :=
  let h := nHeight b - (nHeight b + 1) mod Period params in
  if h <? 0 then None else ancestor blocks p b h.

Lemma period_end_ok (p : ptr) (b : CBlockIndex) :
  blocks !! p = Some b →
  period_end blocks params p = Some (period_parent p b) ∧ aligned (period_parent p b).
Proof.
  intros Hp. pose proof (tree_height blocks Hok p b Hp) as H0. unfold period_end, period_parent.
  rewrite Hp. cbn [mbind option_bind]. rewrite (GetAncestor_ok blocks Hok p b) by done.
  rewrite Z.rem_mod_nonneg by lia.
  pose proof (Z.mod_pos_bound (nHeight b + 1) _ Hperiod).
  set (h := nHeight b - _). rewrite (proj2 (Z.leb_le h (nHeight b))), andb_true_r by (unfold h; lia).
  destruct (Z.ltb_spec h 0) as [Hn|Hn].
  { rewrite (proj2 (Z.leb_gt 0 h)) by lia. done. }
  rewrite (proj2 (Z.leb_le 0 h)) by lia. split; [done|].
  assert (0 <= h <= nHeight b) as Hr by (unfold h in *; lia).
  destruct (ancestor_ok blocks Hok p b h Hp Hr) as (q & c & -> & Hq & Hc).
  exists c. split; [done|]. rewrite Hc. unfold h.
  assert (Period params ≠ 0) as Hne by lia. pose proof (Z.div_mod (nHeight b + 1) _ Hne) as Ed.
  replace (nHeight b - (nHeight b + 1) mod Period params + 1)
    with ((nHeight b + 1) / Period params * Period params) by lia.
  apply Z.mod_mul. lia.
Qed.

Lemma GetStateFor_ok (p : ptr) (b : CBlockIndex) (cache : ThresholdConditionCache) :
  blocks !! p = Some b → cache_ok cache →
  ∃ s cache', GetStateFor blocks params (Some p) cache = Some (s, cache') ∧
    bip9_state (period_parent p b) s ∧ cache_ok cache'.
Proof.
  intros Hp Hc. unfold GetStateFor. destruct (period_end_ok p b Hp) as [-> Hal].
  cbn [mbind option_bind].
  destruct (walk_back_ok (fuel_for blocks (period_parent p b)) (period_parent p b) (period_parent p b)
    cache [] Hal Hc ltac:(constructor)) as (k & cache' & v & -> & Hc' & _ & [s Hs] & Hpend).
  { unfold fuel_for. destruct (period_parent p b) as [q|]; cbn; [|lia].
    destruct (blocks !! q); cbn; lia. }
  cbn [mbind option_bind]. rewrite Hs. cbn [mbind option_bind].
  destruct (walk_forward_ok v k (period_parent p b) s cache' Hpend (Hc' k s Hs) Hc') as (s' & c' & -> & ? & ?).
  eauto.
Qed.
End BIP9.

Section BIP9Facts.
Context `{Checker} (blocks : gmap ptr CBlockIndex) (params : Params).

Lemma signals_le (p : ptr) : 0 <= Period params → signals blocks params p <= Period params.
Proof.
  intros Hp. unfold signals. assert (∀ n k, (length (last_blocks blocks n k) ≤ n)%nat) as Hl.
  { induction n as [|n IH]; intros [q|]; cbn; try lia. destruct (blocks !! q); cbn; [specialize (IH (pprev c))|]; lia. }
  specialize (Hl (Z.to_nat (Period params)) (Some p)).
  pose proof (List.filter_length_le (λ b, Condition b params) (last_blocks blocks (Z.to_nat (Period params)) (Some p))). lia.
Qed.

(** A threshold no period can reach keeps the deployment out of [LOCKED_IN]. *)
Lemma never_locked_in (k : option ptr) (s : ThresholdState) :
  0 <= Period params < Threshold params → bip9_state blocks params k s →
  s ≠ THRESHOLD_LOCKED_IN ∧ s ≠ THRESHOLD_ACTIVE.
Proof.
  intros Ht Hs. induction Hs as [|p b t s s' Hp Hs [IH1 IH2] Hm Hn]; [done|].
  pose proof (signals_le p ltac:(lia)). inversion Hn; subst; done || lia.
Qed.

Lemma count_until_ok (fuel : nat) (p : ptr) (b : CBlockIndex) (e cnt : Z) :
  tree_ok blocks → blocks !! p = Some b → 0 <= e <= nHeight b → nHeight b - e < fuel →
  ∃ r, count_until blocks params fuel (Some p) e cnt = Some r ∧ cnt <= r <= cnt + (nHeight b - e).
Proof.
  intros Hok. revert p b cnt. induction fuel as [|fuel IH]; intros p b cnt Hp He Hf; [lia|].
  cbn [count_until mbind option_bind]. rewrite Hp. cbn [mbind option_bind].
  destruct (Z.eqb_spec e (nHeight b)) as [->|Hne]; cbn [negb].
  { exists cnt. split; [done|lia]. }
  destruct (tree_prev blocks Hok p b Hp ltac:(lia)) as (q & c & -> & Hq & Hc).
  destruct (IH q c (if Condition b params then cnt + 1 else cnt) Hq ltac:(lia) ltac:(lia))
    as (r & -> & Hr).
  exists r. split; [done|]. destruct (Condition b params); lia.
Qed.
End BIP9Facts.

(** ** Properties *)

(** C29: [GetStateFor] computes the BIP9 state machine.  Whatever correct entries the
    cache already holds, the state it returns is the one obtained by starting
    from [DEFINED] at the genesis period and taking the transition of BIP 9 at the end of every
    period up to the queried one, by the median of the last eleven times and the
    number of signalling blocks in the period, and every entry of the cache it leaves is
    again correct: neither the cache nor the early stop at blocks before the
    start time changes an answer.  No assertion fails and no null entry is
    dereferenced. *)
Theorem GetStateFor_refines `{Checker} (blocks : gmap ptr CBlockIndex) (params : Params)
    (p : ptr) (b : CBlockIndex) (cache : ThresholdConditionCache) :
  tree_ok blocks → times_ok blocks → 0 < Period params → BeginTime params <= EndTime params →
  blocks !! p = Some b → cache_ok blocks params cache →
  ∃ s cache', GetStateFor blocks params (Some p) cache = Some (s, cache') ∧
    bip9_state blocks params (period_parent blocks params p b) s ∧
    (∀ s', bip9_state blocks params (period_parent blocks params p b) s' → s' = s) ∧
    cache_ok blocks params cache'.
Proof.
  intros Hok Htimes Hper Hbe Hp Hc.
  destruct (GetStateFor_ok blocks params Hok Htimes Hper Hbe p b cache Hp Hc) as (s & c' & E & Hs & Hc').
  exists s, c'. split_and!; try done. intros s' Hs'. by apply (bip9_state_fun blocks params _ _ _ Hs').
Qed.

(** C30: with the parameters of the main network (a threshold of 1080 blocks in a
    window of 720) no deployment ever locks in or activates, whatever the miners
    signal: [VersionBitsState] only ever answers [DEFINED], [STARTED] or
    [FAILED]. *)
Theorem main_never_locks_in (blocks : gmap ptr CBlockIndex) (genesis : list Z)
    (p : ptr) (b : CBlockIndex) :
  tree_ok blocks → times_ok blocks → blocks !! p = Some b →
  ∃ s caches, VersionBitsState blocks (Some p) (mainConsensus genesis) 0 [∅] = Some (s, caches) ∧
    s ≠ THRESHOLD_LOCKED_IN ∧ s ≠ THRESHOLD_ACTIVE.
Proof.
  intros Hok Htimes Hp. unfold VersionBitsState. cbn [lookup list_lookup mbind option_bind].
  destruct (@GetStateFor_ok (VersionBitsConditionChecker 0) blocks (mainConsensus genesis) Hok Htimes
    ltac:(done) ltac:(done) p b ∅ Hp (map_Forall_empty _)) as (s & c' & -> & Hs & _).
  cbn [mbind option_bind]. eexists _, _. split; [done|].
  apply (@never_locked_in (VersionBitsConditionChecker 0) blocks (mainConsensus genesis) _ s) in Hs;
    [done|]. by vm_compute.
Qed.

(** [GetStateStatisticsFor], which dereferences the end of the previous period
    without a null test, is defined whenever the deployment is [STARTED]; it then
    counts at most the blocks elapsed in the current period. *)
Theorem GetStateStatisticsFor_started `{Checker} (blocks : gmap ptr CBlockIndex) (params : Params)
    (p : ptr) (b : CBlockIndex) :
  tree_ok blocks → 0 < Period params → blocks !! p = Some b →
  bip9_state blocks params (period_parent blocks params p b) THRESHOLD_STARTED →
  ∃ st, GetStateStatisticsFor blocks params (Some p) = Some st ∧
    0 <= count st <= elapsed st ∧ elapsed st = (nHeight b + 1) mod Period params.
Proof.
  intros Hok Hper Hp Hs. unfold GetStateStatisticsFor. rewrite Hp. cbn [mbind option_bind].
  destruct (period_end_ok blocks params Hok Hper p b Hp) as [-> _].
  destruct (period_parent blocks params p b) as [e|] eqn:Ee; [|by inv Hs].
  pose proof (Z.mod_pos_bound (nHeight b + 1) _ Hper).
  unfold period_parent in Ee. destruct (Z.ltb_spec (nHeight b - (nHeight b + 1) mod Period params) 0) as [|Hr];
    [done|].
  assert (0 <= nHeight b - (nHeight b + 1) mod Period params <= nHeight b) as Hr' by lia.
  destruct (ancestor_ok blocks Hok p b _ Hp Hr') as (e' & c & E & Hc & Hh).
  rewrite E in Ee. injection Ee as ->. cbn [mjoin option_join mbind option_bind]. rewrite Hc.
  cbn [mbind option_bind].
  destruct (count_until_ok blocks params (S (Z.to_nat (nHeight b))) p b (nHeight c) 0 Hok Hp
    ltac:(lia) ltac:(lia)) as (r & -> & Hcnt).
  cbn [mbind option_bind]. eexists. split; [done|]. cbn. lia.
Qed.

(** A checker with a period of two blocks, over the tree of six entries. *)
Definition demo_checker : Checker := {|
  Condition b _ := negb (nTime b =? 0); BeginTime _ := 0; EndTime _ := 100000;
  Period _ := 2; Threshold _ := 2 |}.

Lemma GetStateFor_refines_witness :
  ∃ s cache', @GetStateFor demo_checker demo_tree (mainConsensus []) (Some 6%positive) ∅ = Some (s, cache') ∧
    s = THRESHOLD_LOCKED_IN.
Proof.
  destruct (@GetStateFor_refines demo_checker demo_tree (mainConsensus []) 6
    (demo_entry (Some 5%positive) (Some 1%positive) 4) ∅ demo_tree_ok demo_times_ok ltac:(done) ltac:(done)
    eq_refl (map_Forall_empty _)) as (s & c' & E & _).
  exists s, c'. split; [exact E|]. vm_compute in E. by injection E as <- _.
Defined.

Lemma main_never_locks_in_witness :
  ∃ s caches, VersionBitsState demo_tree (Some 6%positive) (mainConsensus []) 0 [∅] = Some (s, caches) ∧
    s ≠ THRESHOLD_LOCKED_IN ∧ s ≠ THRESHOLD_ACTIVE.
Proof.
  exact (main_never_locks_in demo_tree [] 6 (demo_entry (Some 5%positive) (Some 1%positive) 4)
    demo_tree_ok demo_times_ok eq_refl).
Defined.

Lemma GetStateStatisticsFor_started_witness :
  ∃ st, @GetStateStatisticsFor demo_checker demo_tree (mainConsensus []) (Some 3%positive) = Some st ∧
    0 <= count st <= elapsed st.
Proof.
  destruct (@GetStateStatisticsFor_started demo_checker demo_tree (mainConsensus []) 3
    (demo_entry (Some 2%positive) (Some 1%positive) 2) demo_tree_ok ltac:(done) eq_refl)
    as (st & E & Hc & _).
  - apply (@bip9_next demo_checker demo_tree (mainConsensus []) 2
      (demo_entry (Some 1%positive) (Some 1%positive) 1) (default 0 (GetMedianTimePast demo_tree 2)) THRESHOLD_DEFINED); [reflexivity| | |].
    + exact (@bip9_genesis demo_checker demo_tree (mainConsensus [])).
    + apply GetMedianTimePast_median. reflexivity.
    + apply step_start. vm_compute. split; [discriminate|reflexivity].
  - exists st. split; [exact E|exact Hc].
Defined.
