(* ===== verification/Crypto.v ===== *)
(** * Cryptographic primitives as an interface

    The hash functions of [src/src/crypto] and the elliptic-curve checks of
    [src/src/pubkey.cpp] (which calls the bundled secp256k1 library) as the
    rest of the program uses them: functions on byte strings whose digests have a
    fixed length.  Every development that hashes or verifies is stated over these
    classes.  [CHash256] and [CHash160] of [src/src/hash.h] are the compositions
    the program builds from them. *)

From Stdlib Require Import ZArith Lia.
From S2P Require Import Prelude.

Open Scope Z_scope.

(** [CSHA256], [CSHA1], [CRIPEMD160]: [Write] of the whole input, then [Finalize]. *)
Class CryptoHash := {
  SHA256 : list Z → list Z;
  SHA1 : list Z → list Z;
  RIPEMD160 : list Z → list Z;
  length_SHA256 : ∀ x, length (SHA256 x) = 32%nat;
  length_SHA1 : ∀ x, length (SHA1 x) = 20%nat;
  length_RIPEMD160 : ∀ x, length (RIPEMD160 x) = 20%nat;
  SHA256_bytes : ∀ x, bytes_ok (SHA256 x);
  SHA1_bytes : ∀ x, bytes_ok (SHA1 x);
  RIPEMD160_bytes : ∀ x, bytes_ok (RIPEMD160 x)
}.

(** [CPubKey::Verify] on a well-formed key and [CPubKey::CheckLowS]. *)
Class Secp256k1 := {
  secp_verify : list Z → list Z → list Z → bool;
  CheckLowS : list Z → bool
}.

(** [CHash256]: double SHA-256. *)
Definition CHash256 `{CryptoHash} (data : list Z) : list Z := SHA256 (SHA256 data).

(** [CHash160]: SHA-256 then RIPEMD-160. *)
Definition CHash160 `{CryptoHash} (data : list Z) : list Z := RIPEMD160 (SHA256 data).

Lemma length_CHash256 `{CryptoHash} (data : list Z) : length (CHash256 data) = 32%nat.
Proof. apply length_SHA256. Qed.

Lemma length_CHash160 `{CryptoHash} (data : list Z) : length (CHash160 data) = 20%nat.
Proof. apply length_RIPEMD160. Qed.

Lemma CHash256_bytes `{CryptoHash} (data : list Z) : bytes_ok (CHash256 data).
Proof. apply SHA256_bytes. Qed.

(** Two messages that witness a collision of the double hash.  Collisions exist, so a
    commitment is stated as: equal, or these two messages collide. *)
Definition collides `{CryptoHash} (x y : list Z) : Prop := x ≠ y ∧ CHash256 x = CHash256 y.

Lemma CHash256_cases `{CryptoHash} (x y : list Z) :
  CHash256 x = CHash256 y → x = y ∨ collides x y.
Proof. intros E. destruct (decide (x = y)); [by left|by right]. Qed.

(** Instances with concrete functions, for evaluating the model: a checksum padded
    to the digest length, and a verifier that accepts a signature equal to the
    hash. *)
Definition checksum (n : nat) (x : list Z) : list Z :=
  (foldr (λ b acc, (b + 31 * acc) mod 256) 7 x) :: replicate (n - 1) (length x mod 256).

Lemma checksum_bytes (n : nat) (x : list Z) : bytes_ok (checksum n x).
Proof.
  assert (∀ z, is_byte (z mod 256)) as Hb by (intros; apply Z.mod_pos_bound; lia).
  unfold checksum. constructor.
  - destruct x; cbn; [split; lia|apply Hb].
  - apply Forall_replicate, Hb.
Qed.

Lemma length_checksum (n : nat) (x : list Z) : length (checksum (S n) x) = S n.
Proof. unfold checksum. cbn. by rewrite length_replicate, Nat.sub_0_r. Qed.

Definition toy_hash : CryptoHash := {|
  SHA256 := checksum 32; SHA1 := checksum 20; RIPEMD160 := checksum 20;
  length_SHA256 := length_checksum 31; length_SHA1 := length_checksum 19;
  length_RIPEMD160 := length_checksum 19;
  SHA256_bytes := checksum_bytes 32; SHA1_bytes := checksum_bytes 20;
  RIPEMD160_bytes := checksum_bytes 20 |}.

Definition toy_secp : Secp256k1 := {|
  secp_verify pubkey hash sig := bool_decide (sig = take 4 hash);
  CheckLowS sig := true |}.
