(* ===== verification/Hashes.v ===== *)
(** * The hashers of the program ([src/src/hash.h], [src/src/hash.cpp])

    The classes [CHash256] and [CHash160] over the streaming hashers, the functions
    on several byte ranges, key derivation, and the instance of the interface
    [CryptoHash] that the rest of the development is stated over. *)

From Stdlib Require Import ZArith Lia.
From S2P Require Import Prelude Common Digest Hmac Sha2 Sha256 Sha512 Sha1 Ripemd160 Crypto.

Open Scope Z_scope.
Open Scope word_scope.

(** ** The classes; their only member is the hasher

    [CSHA256::Finalize] also changes the object, which [CHash256::Finalize] resets
    before it writes again: of that change only the bytes in the buffer are left,
    and a reset object takes any (see [absorbed_new]). *)

Definition CHash256_Write (data : list Z) (sha : hasher) : hasher := CSHA256_Write data sha.
Definition CHash256_Reset (sha : hasher) : hasher := CSHA256_Reset sha.
Definition CHash256_Finalize (sha : hasher) : list Z :=
  CSHA256_Finalize (CSHA256_Write (CSHA256_Finalize sha) (CSHA256_Reset sha)).

Definition CHash160_Write (data : list Z) (sha : hasher) : hasher := CSHA256_Write data sha.
Definition CHash160_Reset (sha : hasher) : hasher := CSHA256_Reset sha.
Definition CHash160_Finalize (sha : hasher) : list Z :=
  CRIPEMD160_Finalize (CRIPEMD160_Write (CSHA256_Finalize sha) CRIPEMD160).

(** [Hash] of one to six ranges *)
Definition Hash (ranges : list (list Z)) : list Z :=
  CHash256_Finalize (foldl (λ sha d, CHash256_Write d sha) CSHA256 ranges).

Definition Hash160 (data : list Z) : list Z := CHash160_Finalize (CHash160_Write data CSHA256).

Definition BIP32Hash (chainCode : list Z) (nChild header : Z) (data : list Z) : list Z :=
  let num := [(nChild .>> 24) .& 0xFF; (nChild .>> 16) .& 0xFF; (nChild .>> 8) .& 0xFF; (nChild .>> 0) .& 0xFF] in
  CHMAC_SHA512_Finalize
    (CHMAC_SHA512_Write num (CHMAC_SHA512_Write data (CHMAC_SHA512_Write [header] (CHMAC_SHA512_new chainCode)))).

#[local] Opaque sha256.K fips256_K sha512.K fips512_K.

(** ** Digests have a fixed length, whatever is hashed *)

Lemma length_CSHA256 (x : list Z) : length (CSHA256_Finalize (CSHA256_Write x CSHA256)) = 32%nat.
Proof.
  unfold CSHA256_Finalize. rewrite (length_concat_const _ 4) by apply length_WriteBE32.
  rewrite (Finalize_absorbed 64 sha256.Transform1 ltac:(lia) sha256_Transform1_take sha256.Initialize divides_64 _ _ _
             CSHA256_Write_absorbed _ x) by (apply (CSHA256_Write_absorbed _ []), CSHA256_absorbed).
  rewrite length_digest; [done|]. intros st chunk. unfold sha256.Transform1. by rewrite length_Transform_words.
Qed.

Lemma length_CSHA1 (x : list Z) : length (CSHA1_Finalize (CSHA1_Write x CSHA1)) = 20%nat.
Proof.
  unfold CSHA1_Finalize. rewrite (length_concat_const _ 4) by apply length_WriteBE32.
  rewrite (Finalize_absorbed 64 sha1.Transform ltac:(lia) sha1_Transform_take sha1.Initialize divides_64 _ _ _
             CSHA1_Write_absorbed _ x) by (apply (CSHA1_Write_absorbed _ []); by apply absorbed_new).
  rewrite length_digest; [done|]. intros st chunk. unfold sha1.Transform, all_rounds. rewrite expand_rounds_eq, length_zip_with.
  assert (∀ l r, length (foldl sha1.step r l) = length r) as Hl; [|rewrite !Hl; apply Nat.min_id].
  induction l as [|kx l IH]; intros r; cbn [foldl]; [done|]. by rewrite IH, length_sha1_step.
Qed.

Lemma length_CRIPEMD160 (x : list Z) : length (CRIPEMD160_Finalize (CRIPEMD160_Write x CRIPEMD160)) = 20%nat.
Proof.
  unfold CRIPEMD160_Finalize. rewrite (length_concat_const _ 4) by apply length_WriteLE32.
  rewrite (Finalize_absorbed 64 ripemd160.Transform ltac:(lia) ripemd_Transform_take ripemd160.Initialize divides_64 _ _ _
             CRIPEMD160_Write_absorbed _ x) by (apply (CRIPEMD160_Write_absorbed _ []); by apply absorbed_new).
  unfold digest. assert (∀ l st, length st = 5%nat → length (foldl ripemd160.Transform st l) = 5%nat) as ->; [|done..].
  induction l as [|c l IH]; intros st Hl; cbn [foldl]; [done|]. apply IH. unfold ripemd160.Transform.
  destruct (list_5 st Hl) as (? & ? & ? & ? & ? & ->). by repeat case_match.
Qed.

(** ** The instance *)

Definition core_hash : CryptoHash := {|
  SHA256 x := CSHA256_Finalize (CSHA256_Write x CSHA256);
  SHA1 x := CSHA1_Finalize (CSHA1_Write x CSHA1);
  RIPEMD160 x := CRIPEMD160_Finalize (CRIPEMD160_Write x CRIPEMD160);
  length_SHA256 := length_CSHA256; length_SHA1 := length_CSHA1; length_RIPEMD160 := length_CRIPEMD160;
  SHA256_bytes x := Forall_concat_fmap _ _ _ WriteBE32_bytes;
  SHA1_bytes x := Forall_concat_fmap _ _ _ WriteBE32_bytes;
  RIPEMD160_bytes x := Forall_concat_fmap _ _ _ WriteLE32_bytes |}.

(** ** Correctness *)

(** [num] is the child number in big-endian order. *)
Lemma child_num (n : Z) :
  [(n .>> 24) .& 0xFF; (n .>> 16) .& 0xFF; (n .>> 8) .& 0xFF; (n .>> 0) .& 0xFF] = WriteBE32 n.
Proof.
  assert (∀ k, (n .>> k) .& 0xFF = (n .>> k) mod 256) as E by (intros k; apply (Z.land_ones _ 8); lia).
  rewrite !E, !Z.shiftr_div_pow2 by lia. unfold WriteBE32, u32, wrap. cbn -[Z.pow].
  change (2 ^ 24) with 16777216. change (2 ^ 16) with 65536. change (2 ^ 8) with 256. change (2 ^ 0) with 1. change (2 ^ 32) with 4294967296.
  do 4 (apply f_equal2; [Z.div_mod_to_equations; lia|]). done.
Qed.

(** The object is reset between the two applications, and its buffer keeps what it held. *)
Lemma CHash256_Finalize_absorbed (m : list Z) (h : hasher) :
  absorbed 64 sha256.Transform1 sha256.Initialize h m → bytes_ok m →
  CHash256_Finalize h = fips_SHA256 (fips_SHA256 m).
Proof.
  intros Hh Hm. unfold CHash256_Finalize. apply CSHA256_Finalize_absorbed; [|apply fips_SHA256_bytes].
  rewrite <- (CSHA256_Finalize_absorbed h m Hh Hm). apply (CSHA256_Write_absorbed _ []).
  apply absorbed_new; [done| |done]. apply Hh.
Qed.

Lemma BIP32Hash_spec (chainCode data : list Z) (nChild header : Z) :
  bytes_ok chainCode → bytes_ok data → is_byte header →
  BIP32Hash chainCode nChild header data = hmac_reference 128 fips_SHA512 chainCode ([header] ++ data ++ WriteBE32 nChild).
Proof.
  intros Hc Hd Hh. unfold BIP32Hash. rewrite child_num.
  pose proof (CHMAC_correct 128 64 _ _ _ _ _ CSHA512_absorbed CSHA512_Write_absorbed CSHA512_Finalize_absorbed
                  length_fips_SHA512 fips_SHA512_bytes chainCode [[header]; data; WriteBE32 nChild] Hc) as E.
  cbn [concat] in E. rewrite app_nil_r in E. apply E.
  apply list.Forall_cons. split; [by constructor|]. apply list.Forall_cons. split; [done|].
  constructor; [apply WriteBE32_bytes|constructor].
Qed.

(** C39: the hash functions the program calls are the ones of the standards.  For any byte ranges, [Hash] is SHA-256 applied twice
    to their concatenation, [Hash160] is RIPEMD-160 of SHA-256, [BIP32Hash] is HMAC-SHA512 keyed with the
    chain code of header, key and child number, and the interface instance agrees.  The references are the published
    definitions with constants computed as roots of primes. *)
Theorem hashers_correct (chainCode data : list Z) (ranges : list (list Z)) (nChild header : Z) :
  Forall bytes_ok ranges → bytes_ok chainCode → bytes_ok data → is_byte header →
  Hash ranges = fips_SHA256 (fips_SHA256 (concat ranges)) ∧
  Hash ranges = @CHash256 core_hash (concat ranges) ∧
  Hash160 data = ripemd_reference (fips_SHA256 data) ∧
  Hash160 data = @CHash160 core_hash data ∧
  BIP32Hash chainCode nChild header data = hmac_reference 128 fips_SHA512 chainCode ([header] ++ data ++ WriteBE32 nChild).
Proof.
  intros Hr Hc Hd Hh. pose proof (CSHA256_Finalize_absorbed) as HF. pose proof (fips_SHA256_bytes) as Hfb.
  assert (∀ m, absorbed 64 sha256.Transform1 sha256.Initialize (CSHA256_Write m CSHA256) m) as HW.
  { intros m. apply (CSHA256_Write_absorbed _ []), CSHA256_absorbed. }
  assert (∀ m, absorbed 64 ripemd160.Transform ripemd160.Initialize (CRIPEMD160_Write m CRIPEMD160) m) as HR.
  { intros m. apply (CRIPEMD160_Write_absorbed _ []). by apply absorbed_new. }
  assert (bytes_ok (concat ranges)) as Hcr by by apply Forall_concat.
  assert (Hash ranges = fips_SHA256 (fips_SHA256 (concat ranges))) as E1.
  { unfold Hash, CHash256_Write. apply CHash256_Finalize_absorbed; [|done].
    apply (writes_hold _ _ CSHA256_Write_absorbed _ []), CSHA256_absorbed. }
  assert (Hash160 data = ripemd_reference (fips_SHA256 data)) as E2.
  { unfold Hash160, CHash160_Finalize, CHash160_Write. rewrite (HF _ data) by done.
    by apply CRIPEMD160_Finalize_absorbed; [apply HR|]. }
  split_and!; [done| |done| |].
  - rewrite E1. unfold CHash256. cbn [SHA256 core_hash]. rewrite (HF _ _ (HW (concat ranges)) Hcr). symmetry. by apply HF.
  - rewrite E2. unfold CHash160. cbn [SHA256 RIPEMD160 core_hash]. rewrite (HF _ _ (HW data) Hd).
    symmetry. by apply CRIPEMD160_Finalize_absorbed.
  - by apply BIP32Hash_spec.
Qed.

(** ** Witnesses *)

Lemma hashers_correct_witness :
  Hash [[1; 2]; [3]] = fips_SHA256 (fips_SHA256 (concat [[1; 2]; [3]])).
Proof.
  destruct (hashers_correct [1] [2] [[1; 2]; [3]] 7 0) as [E _]; [|by apply bytes_okb_ok|by apply bytes_okb_ok|done|exact E].
  constructor; [by apply bytes_okb_ok|]. constructor; [by apply bytes_okb_ok|constructor].
Defined.
