(* ===== verification/SipHash.v ===== *)
(** * SipHash-2-4 and MurmurHash3 ([src/src/hash.cpp], [src/src/hash.h])

    The hash of the salted hash tables and short transaction identifiers: the class
    [CSipHasher], which is fed bytes or 64-bit words, and the two functions
    specialised to a 256-bit value; and the hash of the bloom filters. *)

From Stdlib Require Import ZArith Lia.
From S2P Require Import Prelude Common.

Open Scope Z_scope.
Open Scope word_scope.

Definition ROTL (x b : Z) : Z := u64 (x .<< b) .| (x .>> (64 - b)).

(** The local variables [v0] to [v3] *)
Abbreviation sipv := (Z * Z * Z * Z)%type.

Definition SIPROUND (v : sipv) : sipv :=
  let '(v0, v1, v2, v3) := v in
  let v0 := u64 (v0 + v1) in let v1 := ROTL v1 13 in let v1 := v1 .^ v0 in
  let v0 := ROTL v0 32 in
  let v2 := u64 (v2 + v3) in let v3 := ROTL v3 16 in let v3 := v3 .^ v2 in
  let v0 := u64 (v0 + v3) in let v3 := ROTL v3 21 in let v3 := v3 .^ v0 in
  let v2 := u64 (v2 + v1) in let v1 := ROTL v1 17 in let v1 := v1 .^ v2 in
  let v2 := ROTL v2 32 in
  (v0, v1, v2, v3).

Record CSipHasher := MkSip { sip_v : sipv; sip_tmp : Z; sip_count : Z }.

Definition CSipHasher_new (k0 k1 : Z) : CSipHasher :=
  {| sip_v := (0x736f6d6570736575 .^ k0, 0x646f72616e646f6d .^ k1, 0x6c7967656e657261 .^ k0, 0x7465646279746573 .^ k1);
     sip_count := 0; sip_tmp := 0 |}.

(** [Write(uint64_t)]; [None] is the failed assertion. *)
Definition CSipHasher_Write64 (data : Z) (h : CSipHasher) : option CSipHasher :=
  let '(v0, v1, v2, v3) := sip_v h in
  if negb (sip_count h mod 8 =? 0) then None else
  let v3 := v3 .^ data in
  let '(v0, v1, v2, v3) := SIPROUND (v0, v1, v2, v3) in
  let '(v0, v1, v2, v3) := SIPROUND (v0, v1, v2, v3) in
  let v0 := v0 .^ data in
  Some {| sip_v := (v0, v1, v2, v3); sip_tmp := sip_tmp h; sip_count := sip_count h + 8 |}.

(** One turn of the loop of [Write(const unsigned char*, size_t)] *)
Definition sip_byte (st : sipv * Z * Z) (b : Z) : sipv * Z * Z :=
  let '(v0, v1, v2, v3, t, c) := st in
  let t := t .| (b .<< (8 * (c mod 8))) in
  let c := c + 1 in
  if c .& 7 =? 0 then
    let v3 := v3 .^ t in
    let '(v0, v1, v2, v3) := SIPROUND (v0, v1, v2, v3) in
    let '(v0, v1, v2, v3) := SIPROUND (v0, v1, v2, v3) in
    let v0 := v0 .^ t in
    (v0, v1, v2, v3, 0, c)
  else (v0, v1, v2, v3, t, c).

Definition CSipHasher_Write (data : list Z) (h : CSipHasher) : CSipHasher :=
  let '(v, t, c) := foldl sip_byte (sip_v h, sip_tmp h, sip_count h) data in
  {| sip_v := v; sip_tmp := t; sip_count := c |}.

Definition CSipHasher_Finalize (h : CSipHasher) : Z :=
  let '(v0, v1, v2, v3) := sip_v h in
  let t := sip_tmp h .| u64 (u64 (sip_count h) .<< 56) in
  let v3 := v3 .^ t in
  let '(v0, v1, v2, v3) := SIPROUND (v0, v1, v2, v3) in
  let '(v0, v1, v2, v3) := SIPROUND (v0, v1, v2, v3) in
  let v0 := v0 .^ t in
  let v2 := v2 .^ 0xFF in
  let '(v0, v1, v2, v3) := SIPROUND (v0, v1, v2, v3) in
  let '(v0, v1, v2, v3) := SIPROUND (v0, v1, v2, v3) in
  let '(v0, v1, v2, v3) := SIPROUND (v0, v1, v2, v3) in
  let '(v0, v1, v2, v3) := SIPROUND (v0, v1, v2, v3) in
  v0 .^ v1 .^ v2 .^ v3.

(** [uint256::GetUint64] *)
Definition GetUint64 (val : list Z) (pos : nat) : Z :=
  let ptr := drop (pos * 8) val in
  ptr.[0] .| (ptr.[1] .<< 8) .| (ptr.[2] .<< 16) .| (ptr.[3] .<< 24) .|
    (ptr.[4] .<< 32) .| (ptr.[5] .<< 40) .| (ptr.[6] .<< 48) .| (ptr.[7] .<< 56).

Definition SipHashUint256 (k0 k1 : Z) (val : list Z) : Z :=
  let d := GetUint64 val 0 in
  let v0 := 0x736f6d6570736575 .^ k0 in
  let v1 := 0x646f72616e646f6d .^ k1 in
  let v2 := 0x6c7967656e657261 .^ k0 in
  let v3 := 0x7465646279746573 .^ k1 .^ d in
  let '(v0, v1, v2, v3) := SIPROUND (v0, v1, v2, v3) in
  let '(v0, v1, v2, v3) := SIPROUND (v0, v1, v2, v3) in
  let v0 := v0 .^ d in
  let d := GetUint64 val 1 in
  let v3 := v3 .^ d in
  let '(v0, v1, v2, v3) := SIPROUND (v0, v1, v2, v3) in
  let '(v0, v1, v2, v3) := SIPROUND (v0, v1, v2, v3) in
  let v0 := v0 .^ d in
  let d := GetUint64 val 2 in
  let v3 := v3 .^ d in
  let '(v0, v1, v2, v3) := SIPROUND (v0, v1, v2, v3) in
  let '(v0, v1, v2, v3) := SIPROUND (v0, v1, v2, v3) in
  let v0 := v0 .^ d in
  let d := GetUint64 val 3 in
  let v3 := v3 .^ d in
  let '(v0, v1, v2, v3) := SIPROUND (v0, v1, v2, v3) in
  let '(v0, v1, v2, v3) := SIPROUND (v0, v1, v2, v3) in
  let v0 := v0 .^ d in
  let v3 := v3 .^ (4 .<< 59) in
  let '(v0, v1, v2, v3) := SIPROUND (v0, v1, v2, v3) in
  let '(v0, v1, v2, v3) := SIPROUND (v0, v1, v2, v3) in
  let v0 := v0 .^ (4 .<< 59) in
  let v2 := v2 .^ 0xFF in
  let '(v0, v1, v2, v3) := SIPROUND (v0, v1, v2, v3) in
  let '(v0, v1, v2, v3) := SIPROUND (v0, v1, v2, v3) in
  let '(v0, v1, v2, v3) := SIPROUND (v0, v1, v2, v3) in
  let '(v0, v1, v2, v3) := SIPROUND (v0, v1, v2, v3) in
  v0 .^ v1 .^ v2 .^ v3.

Definition SipHashUint256Extra (k0 k1 : Z) (val : list Z) (extra : Z) : Z :=
  let d := GetUint64 val 0 in
  let v0 := 0x736f6d6570736575 .^ k0 in
  let v1 := 0x646f72616e646f6d .^ k1 in
  let v2 := 0x6c7967656e657261 .^ k0 in
  let v3 := 0x7465646279746573 .^ k1 .^ d in
  let '(v0, v1, v2, v3) := SIPROUND (v0, v1, v2, v3) in
  let '(v0, v1, v2, v3) := SIPROUND (v0, v1, v2, v3) in
  let v0 := v0 .^ d in
  let d := GetUint64 val 1 in
  let v3 := v3 .^ d in
  let '(v0, v1, v2, v3) := SIPROUND (v0, v1, v2, v3) in
  let '(v0, v1, v2, v3) := SIPROUND (v0, v1, v2, v3) in
  let v0 := v0 .^ d in
  let d := GetUint64 val 2 in
  let v3 := v3 .^ d in
  let '(v0, v1, v2, v3) := SIPROUND (v0, v1, v2, v3) in
  let '(v0, v1, v2, v3) := SIPROUND (v0, v1, v2, v3) in
  let v0 := v0 .^ d in
  let d := GetUint64 val 3 in
  let v3 := v3 .^ d in
  let '(v0, v1, v2, v3) := SIPROUND (v0, v1, v2, v3) in
  let '(v0, v1, v2, v3) := SIPROUND (v0, v1, v2, v3) in
  let v0 := v0 .^ d in
  let d := (36 .<< 56) .| extra in
  let v3 := v3 .^ d in
  let '(v0, v1, v2, v3) := SIPROUND (v0, v1, v2, v3) in
  let '(v0, v1, v2, v3) := SIPROUND (v0, v1, v2, v3) in
  let v0 := v0 .^ d in
  let v2 := v2 .^ 0xFF in
  let '(v0, v1, v2, v3) := SIPROUND (v0, v1, v2, v3) in
  let '(v0, v1, v2, v3) := SIPROUND (v0, v1, v2, v3) in
  let '(v0, v1, v2, v3) := SIPROUND (v0, v1, v2, v3) in
  let '(v0, v1, v2, v3) := SIPROUND (v0, v1, v2, v3) in
  v0 .^ v1 .^ v2 .^ v3.

(** ** MurmurHash3 *)

Definition ROTL32 (x r : Z) : Z := u32 (x .<< r) .| (x .>> (32 - r)).

Definition murmur_c1 : Z := 0xcc9e2d51.
Definition murmur_c2 : Z := 0x1b873593.

(** [k1 *= c1; k1 = ROTL32(k1, 15); k1 *= c2], in the body and in the tail *)
Definition murmur_k (k1 : Z) : Z := u32 (ROTL32 (u32 (k1 * murmur_c1)) 15 * murmur_c2).

Definition murmur_block (blocks : list Z) (h1 : Z) (i : nat) : Z :=
  let k1 := murmur_k (ReadLE32 (drop (i * 4) blocks)) in
  let h1 := h1 .^ k1 in
  let h1 := ROTL32 h1 13 in
  u32 (h1 * 5 + 0xe6546b64).

Definition MurmurHash3 (nHashSeed : Z) (vDataToHash : list Z) : Z :=
  let nblocks := (length vDataToHash / 4)%nat in
  let h1 := foldl (murmur_block vDataToHash) nHashSeed (seq 0 nblocks) in
  let tail := drop (nblocks * 4) vDataToHash in
  let n := (length vDataToHash mod 4)%nat in
  let k1 := 0 in
  let k1 := if (3 <=? n)%nat then k1 .^ (tail.[2] .<< 16) else k1 in
  let k1 := if (2 <=? n)%nat then k1 .^ (tail.[1] .<< 8) else k1 in
  let h1 := if (1 <=? n)%nat then h1 .^ murmur_k (k1 .^ tail.[0]) else h1 in
  let h1 := h1 .^ u32 (length vDataToHash) in
  let h1 := h1 .^ (h1 .>> 16) in
  let h1 := u32 (h1 * 0x85ebca6b) in
  let h1 := h1 .^ (h1 .>> 13) in
  let h1 := u32 (h1 * 0xc2b2ae35) in
  h1 .^ (h1 .>> 16).

(** Vectors of the repository's [hash_tests.cpp] *)
Lemma MurmurHash3_vectors :
  MurmurHash3 0 [] = 0x00000000 ∧ MurmurHash3 0xFBA4C795 [] = 0x6a396f08 ∧ MurmurHash3 0xffffffff [] = 0x81f16f39 ∧
  MurmurHash3 0 [0x00] = 0x514e28b7 ∧ MurmurHash3 0xFBA4C795 [0x00] = 0xea3f0b17 ∧
  MurmurHash3 0 [0x00; 0x11; 0x22] = 0x8eb51c3d ∧ MurmurHash3 0 [0x00; 0x11; 0x22; 0x33] = 0xb4471bf8 ∧
  MurmurHash3 0 [0; 0x11; 0x22; 0x33; 0x44; 0x55; 0x66; 0x77; 0x88] = 0xb4698def.
Proof. by vm_compute. Qed.

(** ** The reference

    SipHash-2-4 of its authors' paper: the message, then zeros and a last byte holding the
    length, is read as little-endian words; each is xored in around two rounds, and four
    more follow. *)

Definition sip_compress (v : sipv) (m : Z) : sipv :=
  let '(v0, v1, v2, v3) := v in
  let '(v0, v1, v2, v3) := SIPROUND (SIPROUND (v0, v1, v2, v3 .^ m)) in
  (v0 .^ m, v1, v2, v3).

Definition sip_finish (v : sipv) : Z :=
  let '(v0, v1, v2, v3) := v in
  let '(v0, v1, v2, v3) := SIPROUND (SIPROUND (SIPROUND (SIPROUND (v0, v1, v2 .^ 0xFF, v3)))) in
  v0 .^ v1 .^ v2 .^ v3.

(** The words of the full blocks, and the last word *)
Definition sip_words (m : list Z) : list Z := (λ i, le_val 8 (take 8 (drop (8 * i) m))) <$> seq 0 (length m / 8).
Definition sip_last (m : list Z) : Z := le_val 8 (drop (8 * (length m / 8)) m) + (length m mod 256) * 2 ^ 56.

Definition siphash (k0 k1 : Z) (m : list Z) : Z :=
  sip_finish (foldl sip_compress (sip_v (CSipHasher_new k0 k1)) (sip_words m ++ [sip_last m])).

(** The vector of the paper *)
Lemma siphash_paper : siphash 0x0706050403020100 0x0F0E0D0C0B0A0908 (Z.of_nat <$> seq 0 15) = 0xa129ca6149be45e5.
Proof. by vm_compute. Qed.

(** ** The blocks of a message *)

Lemma sip_blocks (a r : list Z) (q : nat) :
  length a = (8 * q)%nat → (length r < 8)%nat → (length (a ++ r) / 8 = q)%nat ∧ drop (8 * (length (a ++ r) / 8)) (a ++ r) = r.
Proof.
  intros Ha Hr. assert (length (a ++ r) / 8 = q)%nat as E.
  { rewrite length_app, Ha. symmetry. apply (Nat.div_unique _ _ _ (length r)); lia. }
  split; [done|]. rewrite E. by apply drop_app_length'.
Qed.

Lemma sip_words_rest (a r : list Z) (q : nat) :
  length a = (8 * q)%nat → (length r < 8)%nat → sip_words (a ++ r) = sip_words a.
Proof.
  intros Ha Hr. unfold sip_words. destruct (sip_blocks a r q Ha Hr) as [-> _].
  destruct (sip_blocks a [] q Ha) as [E _]; [cbn; lia|]. rewrite app_nil_r in E. rewrite E.
  apply list_fmap_ext. intros _ i [_ Hi]%list_elem_of_lookup_2%elem_of_seq. f_equal.
  rewrite drop_app_le by lia. rewrite take_app_le; [done|]. rewrite length_drop. lia.
Qed.

Lemma sip_words_block (a w : list Z) (q : nat) :
  length a = (8 * q)%nat → length w = 8%nat → sip_words (a ++ w) = sip_words a ++ [le_val 8 w].
Proof.
  intros Ha Hw. unfold sip_words.
  destruct (sip_blocks (a ++ w) [] (S q)) as [E1 _]; [rewrite length_app; lia|cbn; lia|].
  destruct (sip_blocks a [] q Ha) as [E2 _]; [cbn; lia|]. rewrite app_nil_r in E1, E2. rewrite E1, E2, seq_S, fmap_app. cbn. f_equal.
  - apply list_fmap_ext. intros _ i [_ Hi]%list_elem_of_lookup_2%elem_of_seq. f_equal.
    rewrite drop_app_le by lia. rewrite take_app_le; [done|]. rewrite length_drop. lia.
  - f_equal. f_equal. rewrite drop_app_length' by lia. apply take_ge. lia.
Qed.

(** Name the result of every round, the ones on the values of others last. *)
Ltac sip_rounds :=
  repeat match goal with
  | |- context [SIPROUND (?a, ?b, ?c, ?d)] => destruct (SIPROUND (a, b, c, d)) as [[[? ?] ?] ?]
  end.

(** ** What the object holds *)

Section Streaming.
Variables k0 k1 : Z.

Definition sip_absorbed (h : CSipHasher) (m : list Z) : Prop :=
  ∃ a r q, m = a ++ r ∧ length a = (8 * q)%nat ∧ (length r < 8)%nat ∧
    sip_v h = foldl sip_compress (sip_v (CSipHasher_new k0 k1)) (sip_words a) ∧
    sip_tmp h = le_val 8 r ∧ sip_count h = length m.

Lemma CSipHasher_new_absorbed : sip_absorbed (CSipHasher_new k0 k1) [].
Proof. exists [], [], 0%nat. split_and!; try done; cbn; lia. Qed.

Lemma sip_byte_absorbed (v v' : sipv) (t t' c c' b : Z) (m : list Z) :
  bytes_ok m → is_byte b → sip_absorbed {| sip_v := v; sip_tmp := t; sip_count := c |} m →
  sip_byte (v, t, c) b = (v', t', c') → sip_absorbed {| sip_v := v'; sip_tmp := t'; sip_count := c' |} (m ++ [b]).
Proof.
  intros Hm Hb (a & r & q & -> & Ha & Hr & Hv & Ht & Hc) E. cbn [sip_v sip_tmp sip_count] in *.
  destruct v as [[[v0 v1] v2] v3]. cbn [sip_byte] in E.
  assert (c mod 8 = length r) as Hc8.
  { rewrite Hc, length_app, Ha. symmetry. apply (Z.mod_unique _ _ q); lia. }
  apply Forall_app in Hm as [_ Hrb]. pose proof (le_val_range 8 ltac:(lia) r Hrb) as Hrange.
  assert (t .| (b .<< (8 * (c mod 8))) = le_val 8 (r ++ [b])) as Et.
  { rewrite Hc8, Ht, shl_mul, lor_add, le_val_app by lia. cbn. lia. }
  rewrite Et in E. change 7 with (2 ^ 3 - 1) in E. rewrite land_ones_mod in E by lia.
  assert ((c + 1) mod 2 ^ 3 = (1 + length r) mod 8) as Ec.
  { change (2 ^ 3) with 8. rewrite <- Zplus_mod_idemp_l, Hc8. f_equal. lia. }
  rewrite Ec in E. rewrite <- app_assoc. destruct (decide (length r = 7%nat)) as [Hl|Hl].
  - rewrite Hl in E. cbn [Z.of_nat] in E. change ((1 + Z.pos _) mod 8 =? 0) with true in E. cbn match in E.
    exists (a ++ r ++ [b]), [], (S q). rewrite (sip_words_block a (r ++ [b]) q Ha) by (rewrite length_app; cbn; lia).
    rewrite foldl_app, <- Hv. cbn [foldl sip_compress].
    repeat case_match; simplify_eq. split_and!; try done; try (rewrite ?length_app; cbn; lia). by rewrite app_nil_r.
  - rewrite Z.mod_small in E by lia. destruct (Z.eqb_spec (1 + length r) 0) as [?|_]; [lia|]. simplify_eq.
    exists a, (r ++ [b]), q. rewrite !length_app. cbn. split_and!; try done; lia.
Qed.

Lemma CSipHasher_Write_absorbed (h : CSipHasher) (m d : list Z) :
  bytes_ok m → bytes_ok d → sip_absorbed h m → sip_absorbed (CSipHasher_Write d h) (m ++ d).
Proof.
  intros Hm Hd. revert h m Hm. induction d as [|b d IH]; intros h m Hm Hh.
  { rewrite app_nil_r. by destruct h. }
  apply list.Forall_cons in Hd as [Hb Hd]. destruct h as [v t c]. destruct (sip_byte (v, t, c) b) as [[v' t'] c'] eqn:E.
  pose proof (sip_byte_absorbed v v' t t' c c' b m Hm Hb Hh E) as Hh'.
  replace (m ++ b :: d) with ((m ++ [b]) ++ d) by by rewrite <- app_assoc.
  replace (CSipHasher_Write (b :: d) _) with (CSipHasher_Write d {| sip_v := v'; sip_tmp := t'; sip_count := c' |}).
  - apply IH; [done| |done]. apply Forall_app. split; [done|by constructor].
  - unfold CSipHasher_Write. cbn [foldl sip_v sip_tmp sip_count]. by rewrite E.
Qed.

(** A word can be written exactly when the bytes so far fill whole words; it stands for its eight bytes. *)
Lemma CSipHasher_Write64_absorbed (h : CSipHasher) (m : list Z) (data : Z) :
  is_word 64 data → sip_absorbed h m → length m mod 8 = 0 →
  ∃ h', CSipHasher_Write64 data h = Some h' ∧ sip_absorbed h' (m ++ WriteLE64 data).
Proof.
  intros Hd (a & r & q & -> & Ha & Hr & Hv & Ht & Hc) Hm.
  assert (r = []) as ->.
  { apply nil_length_inv. rewrite length_app, Ha in Hm.
    pose proof (Z.mod_unique (8 * q + length r)%nat 8 q (length r)). lia. }
  unfold CSipHasher_Write64. destruct (sip_v h) as [[[v0 v1] v2] v3] eqn:Ev. rewrite Hc, Hm. cbn [negb Z.eqb].
  destruct (SIPROUND (v0, v1, v2, v3 .^ data)) as [[[w0 w1] w2] w3] eqn:E1.
  destruct (SIPROUND (w0, w1, w2, w3)) as [[[x0 x1] x2] x3] eqn:E2. eexists. split; [done|].
  pose proof (length_WriteLE64 data) as Hl. rewrite app_nil_r in *.
  exists (a ++ WriteLE64 data), [], (S q). cbn [sip_v sip_tmp sip_count].
  rewrite (sip_words_block a _ q Ha Hl), foldl_app, <- Hv. cbn [foldl sip_compress]. rewrite length_app, Hl.
  assert (le_val 8 (WriteLE64 data) = data) as ->.
  { pose proof (ReadLE64_WriteLE64 data [] Hd) as E. unfold ReadLE64 in E. by rewrite app_nil_r, take_ge in E by lia. }
  rewrite E1, E2. split_and!; try done; cbn; try lia. by rewrite app_nil_r.
Qed.

Lemma CSipHasher_Finalize_absorbed (h : CSipHasher) (m : list Z) :
  bytes_ok m → length m < 2 ^ 31 → sip_absorbed h m → CSipHasher_Finalize h = siphash k0 k1 m.
Proof.
  intros Hm Hlen (a & r & q & -> & Ha & Hr & Hv & Ht & Hc). unfold siphash, sip_last.
  destruct (sip_blocks a r q Ha Hr) as [_ ->]. rewrite (sip_words_rest a r q Ha Hr), foldl_app, <- Hv.
  unfold CSipHasher_Finalize. apply Forall_app in Hm as [_ Hrb].
  assert (sip_tmp h .| u64 (u64 (sip_count h) .<< 56) = le_val 8 r + length (a ++ r) mod 256 * 2 ^ 56) as ->.
  { pose proof (le_val_bytes_range 7 r Hrb ltac:(lia)) as [Hr0 Hr1]. rewrite Ht, Hc. unfold u64, wrap. rewrite shl_mul by lia.
    rewrite (Z.mod_small (length (a ++ r)) (2 ^ 64)) by lia. change (2 ^ 64) with (256 * 2 ^ 56).
    rewrite Z.mul_mod_distr_r by lia. apply lor_add; lia. }
  destruct (sip_v h) as [[[v0 v1] v2] v3]. cbn [foldl]. unfold sip_finish, sip_compress. by sip_rounds.
Qed.
End Streaming.

(** ** The specialised functions *)

Lemma GetUint64_word (val : list Z) (pos : nat) :
  bytes_ok val → GetUint64 val pos = le_val 8 (take 8 (drop (8 * pos) val)) ∧ is_word 64 (GetUint64 val pos).
Proof.
  intros Hv. assert (GetUint64 val pos = le_val 8 (take 8 (drop (8 * pos) val))) as E.
  { unfold GetUint64. rewrite (Nat.mul_comm pos). assert (bytes_ok (drop (8 * pos) val)) as Hp by by apply Forall_drop.
    revert Hp. generalize (drop (8 * pos) val) as p. intros p Hp.
    assert (∀ i, (i < 8)%nat → le_val 8 (take i p) .| (p.[i] .<< (8 * i)) = le_val 8 (take (S i) p)) as Hs.
    { intros i Hi. destruct (decide (i < length p)%nat); [|by rewrite !take_ge, aget_over, Z.shiftl_0_l, Z.lor_0_r by lia].
      rewrite le_val_take_S, shl_mul by lia. apply lor_add; [lia|].
      pose proof (le_val_bytes_range i (take i p) (Forall_take _ _ _ Hp)). rewrite length_take in H. apply H. lia. }
    rewrite <- (Hs 7%nat), <- (Hs 6%nat), <- (Hs 5%nat), <- (Hs 4%nat), <- (Hs 3%nat), <- (Hs 2%nat), <- (Hs 1%nat), <- (Hs 0%nat) by lia.
    by rewrite Z.shiftl_0_r. }
  split; [done|]. rewrite E. apply (le_val_bytes_range 8); [by apply Forall_take, Forall_drop|]. rewrite length_take. lia.
Qed.

Lemma sip_words_32 (val rest : list Z) :
  bytes_ok val → length val = 32%nat → (length rest < 8)%nat →
  sip_words (val ++ rest) = [GetUint64 val 0; GetUint64 val 1; GetUint64 val 2; GetUint64 val 3].
Proof.
  intros Hv Hl Hr. rewrite (sip_words_rest val rest 4) by done. unfold sip_words. rewrite Hl.
  rewrite !(proj1 (GetUint64_word val _ Hv)). done.
Qed.

Lemma SipHashUint256_ok (k0 k1 : Z) (val : list Z) :
  bytes_ok val → length val = 32%nat → SipHashUint256 k0 k1 val = siphash k0 k1 val.
Proof.
  intros Hv Hl. unfold siphash, sip_last. pose proof (sip_words_32 val [] Hv Hl) as E. rewrite app_nil_r in E. rewrite E by (cbn; lia).
  rewrite Hl, drop_ge by (rewrite Hl; cbn; lia). unfold SipHashUint256. cbn [CSipHasher_new sip_v foldl app].
  replace (4 .<< 59) with (le_val 8 [] + 32%nat mod 256 * 2 ^ 56) by done.
  unfold sip_compress, sip_finish. by sip_rounds.
Qed.

Lemma SipHashUint256Extra_ok (k0 k1 extra : Z) (val : list Z) :
  bytes_ok val → length val = 32%nat → is_word 32 extra →
  SipHashUint256Extra k0 k1 val extra = siphash k0 k1 (val ++ WriteLE32 extra).
Proof.
  intros Hv Hl He. unfold siphash, sip_last. pose proof (length_WriteLE32 extra) as Hw.
  rewrite (sip_words_32 val (WriteLE32 extra)) by (done || lia).
  destruct (sip_blocks val (WriteLE32 extra) 4) as [_ ->]; [done|lia|].
  unfold SipHashUint256Extra. cbn [CSipHasher_new sip_v foldl app].
  assert ((36 .<< 56) .| extra = le_val 8 (WriteLE32 extra) + length (val ++ WriteLE32 extra) mod 256 * 2 ^ 56) as ->.
  { rewrite length_app, Hl, Hw. pose proof (ReadLE32_WriteLE32 extra [] He) as E. unfold ReadLE32 in E.
    rewrite app_nil_r, take_ge in E by lia. rewrite E, Z.lor_comm, shl_mul by lia. apply lor_add; [lia|]. destruct He. lia. }
  unfold sip_compress, sip_finish. by sip_rounds.
Qed.

Lemma CSipHasher_writes_absorbed (k0 k1 : Z) (ws : list (list Z)) :
  Forall bytes_ok ws → sip_absorbed k0 k1 (foldl (λ h d, CSipHasher_Write d h) (CSipHasher_new k0 k1) ws) (concat ws).
Proof.
  intros Hws. assert (∀ h m, bytes_ok m → sip_absorbed k0 k1 h m →
    sip_absorbed k0 k1 (foldl (λ h d, CSipHasher_Write d h) h ws) (m ++ concat ws)) as Hs;
    [|apply (Hs _ []); [constructor|apply CSipHasher_new_absorbed]].
  induction Hws as [|d ws Hd Hws IH]; intros h m Hm Hh; cbn [foldl concat]; [by rewrite app_nil_r|].
  rewrite app_assoc. apply IH; [by apply Forall_app|by apply CSipHasher_Write_absorbed].
Qed.

Lemma take_S_block (val : list Z) (i : nat) :
  bytes_ok val → (8 * S i ≤ length val)%nat → take (8 * i) val ++ WriteLE64 (GetUint64 val i) = take (8 * S i) val.
Proof.
  intros Hv Hl. destruct (GetUint64_word val i Hv) as [E Hw]. unfold WriteLE64, u64. rewrite wrap_small by done.
  assert (length (take 8 (drop (8 * i) val)) = 8%nat) as H8 by (rewrite length_take, length_drop; lia).
  pose proof (le_digits_le_val 8 ltac:(lia) (take 8 (drop (8 * i) val)) ltac:(by apply Forall_take, Forall_drop)) as Ed.
  rewrite H8 in Ed. rewrite E, Ed.
  replace (8 * S i)%nat with (8 * i + 8)%nat by lia. by rewrite take_take_drop.
Qed.

Lemma CSipHasher_words_absorbed (k0 k1 : Z) (val : list Z) :
  bytes_ok val → length val = 32%nat →
  ∃ h, (h ← CSipHasher_Write64 (GetUint64 val 0) (CSipHasher_new k0 k1); h ← CSipHasher_Write64 (GetUint64 val 1) h;
    h ← CSipHasher_Write64 (GetUint64 val 2) h; CSipHasher_Write64 (GetUint64 val 3) h) = Some h ∧ sip_absorbed k0 k1 h val.
Proof.
  intros Hv Hl.
  assert (∀ i h, (i < 4)%nat → sip_absorbed k0 k1 h (take (8 * i) val) →
    ∃ h', CSipHasher_Write64 (GetUint64 val i) h = Some h' ∧ sip_absorbed k0 k1 h' (take (8 * S i) val)) as Hs.
  { intros i h Hi Hh. rewrite <- take_S_block by (done || lia). apply CSipHasher_Write64_absorbed; [by apply GetUint64_word|done|].
    rewrite length_take_le by lia. replace (Z.of_nat (8 * i)) with (i * 8) by lia. by apply Z.mod_mul. }
  destruct (Hs 0%nat (CSipHasher_new k0 k1)) as (h1 & E1 & H1); [lia|apply CSipHasher_new_absorbed|].
  destruct (Hs 1%nat h1) as (h2 & E2 & H2); [lia|done|]. destruct (Hs 2%nat h2) as (h3 & E3 & H3); [lia|done|].
  destruct (Hs 3%nat h3) as (h4 & E4 & H4); [lia|done|].
  exists h4. rewrite E1. cbn [mbind option_bind]. rewrite E2. cbn [mbind option_bind]. rewrite E3. cbn [mbind option_bind].
  split; [done|]. by rewrite take_ge in H4 by (cbn; lia).
Qed.

(** ** Properties *)

(** C40: the two specialised functions compute what the class computes, and both are SipHash-2-4.  Any sequence of
    byte writes gives the SipHash of the concatenation; the four word writes named in the comment of
    [hash.h] are all accepted and give [SipHashUint256]; and [SipHashUint256Extra] is the hash of the 36
    bytes of the value and the extra word.  The only bound is the [int] that counts the bytes. *)
Theorem SipHash_identical (k0 k1 extra : Z) (val : list Z) (ws : list (list Z)) :
  bytes_ok val → length val = 32%nat → is_word 32 extra → Forall bytes_ok ws → length (concat ws) < 2 ^ 31 →
  CSipHasher_Finalize (foldl (λ h d, CSipHasher_Write d h) (CSipHasher_new k0 k1) ws) = siphash k0 k1 (concat ws) ∧
  CSipHasher_Finalize <$> (h ← CSipHasher_Write64 (GetUint64 val 0) (CSipHasher_new k0 k1); h ← CSipHasher_Write64 (GetUint64 val 1) h;
    h ← CSipHasher_Write64 (GetUint64 val 2) h; CSipHasher_Write64 (GetUint64 val 3) h) = Some (SipHashUint256 k0 k1 val) ∧
  SipHashUint256 k0 k1 val = siphash k0 k1 val ∧
  SipHashUint256Extra k0 k1 val extra = siphash k0 k1 (val ++ WriteLE32 extra).
Proof.
  intros Hv Hl He Hws Hn. split_and!; [| |by apply SipHashUint256_ok|by apply SipHashUint256Extra_ok].
  - apply CSipHasher_Finalize_absorbed; [by apply Forall_concat|done|]. by apply CSipHasher_writes_absorbed.
  - rewrite SipHashUint256_ok by done. destruct (CSipHasher_words_absorbed k0 k1 val Hv Hl) as (h & -> & Hh).
    cbn. f_equal. apply CSipHasher_Finalize_absorbed; [done|rewrite Hl; lia|done].
Qed.

(** ** Witnesses *)

Lemma SipHash_identical_witness :
  SipHashUint256 0x0706050403020100 0x0F0E0D0C0B0A0908 (Z.of_nat <$> seq 0 32) =
    siphash 0x0706050403020100 0x0F0E0D0C0B0A0908 (Z.of_nat <$> seq 0 32).
Proof.
  destruct (SipHash_identical 0x0706050403020100 0x0F0E0D0C0B0A0908 7 (Z.of_nat <$> seq 0 32) [[1; 2]; [3]]) as (_ & _ & E & _);
    [by apply bytes_okb_ok|reflexivity|split; lia| |cbn; lia|exact E].
  constructor; [by apply bytes_okb_ok|]. constructor; [by apply bytes_okb_ok|constructor].
Defined.
