(* ===== verification/Field5x52.v ===== *)
(** * Field elements of secp256k1 as five 52-bit limbs
    ([src/src/secp256k1/src/field_5x52_impl.h], [field_5x52_int128_impl.h], [field_5x52.h])

    An element is five 64-bit limbs in base 2^52, each of which may exceed 52 bits: its
    magnitude says by how much.  The functions are the 64-bit ones, with every sum and
    product wrapped at its width; the theorems show that nothing wraps for the magnitudes
    the comments announce, and that each function computes what it should modulo the field
    characteristic. *)

From Stdlib Require Import ZArith Lia.
From S2P Require Import Prelude Common.

Open Scope Z_scope.
Open Scope word_scope.


(** ** The representation *)

Record secp256k1_fe := MkFe { fe_n0 : Z; fe_n1 : Z; fe_n2 : Z; fe_n3 : Z; fe_n4 : Z }.

Definition u128 (z : Z) : Z := wrap 128 z.

(** The masks of a limb and of the most significant one *)
Definition M52 : Z := 0xFFFFFFFFFFFFF.
Definition M48 : Z := 0x0FFFFFFFFFFFF.

(** [t0 += x * 0x1000003D1ULL; t1 += (t0 >> 52); t0 &= 0xFFFFFFFFFFFFFULL; ...], the pass of carries
    every normalization makes *)
Definition fe_carry (x : Z) (t : secp256k1_fe) : secp256k1_fe :=
  let '(MkFe t0 t1 t2 t3 t4) := t in
  let t0 := u64 (t0 + u64 (x * 0x1000003D1)) in
  let t1 := u64 (t1 + (t0 .>> 52)) in let t0 := t0 .& M52 in
  let t2 := u64 (t2 + (t1 .>> 52)) in let t1 := t1 .& M52 in
  let t3 := u64 (t3 + (t2 .>> 52)) in let t2 := t2 .& M52 in
  let t4 := u64 (t4 + (t3 .>> 52)) in let t3 := t3 .& M52 in
  MkFe t0 t1 t2 t3 t4.

(** [x = t4 >> 48; t4 &= 0x0FFFFFFFFFFFFULL] and the first pass *)
Definition fe_first_pass (r : secp256k1_fe) : secp256k1_fe :=
  let x := fe_n4 r .>> 48 in
  fe_carry x (MkFe (fe_n0 r) (fe_n1 r) (fe_n2 r) (fe_n3 r) (fe_n4 r .& M48)).

(** [x = (t4 >> 48) | ((t4 == ...) & (m == ...) & (t0 >= ...))] *)
Definition fe_overflow (t : secp256k1_fe) : Z :=
  let m := fe_n1 t .& fe_n2 t .& fe_n3 t in
  (fe_n4 t .>> 48) .| Z.b2z ((fe_n4 t =? M48) && (m =? M52) && (0xFFFFEFFFFFC2F <=? fe_n0 t)).

Definition secp256k1_fe_normalize (r : secp256k1_fe) : secp256k1_fe :=
  let t := fe_first_pass r in
  let x := fe_overflow t in
  let t := fe_carry x t in
  MkFe (fe_n0 t) (fe_n1 t) (fe_n2 t) (fe_n3 t) (fe_n4 t .& M48).

Definition secp256k1_fe_normalize_weak (r : secp256k1_fe) : secp256k1_fe := fe_first_pass r.

Definition secp256k1_fe_normalize_var (r : secp256k1_fe) : secp256k1_fe :=
  let t := fe_first_pass r in
  let x := fe_overflow t in
  if negb (x =? 0) then
    let t := fe_carry 1 t in
    MkFe (fe_n0 t) (fe_n1 t) (fe_n2 t) (fe_n3 t) (fe_n4 t .& M48)
  else t.

Definition secp256k1_fe_normalizes_to_zero (r : secp256k1_fe) : bool :=
  let t := fe_first_pass r in
  let z0 := fe_n0 t .| fe_n1 t .| fe_n2 t .| fe_n3 t .| fe_n4 t in
  let z1 := (fe_n0 t .^ 0x1000003D0) .& fe_n1 t .& fe_n2 t .& fe_n3 t .& (fe_n4 t .^ 0xF000000000000) in
  (z0 =? 0) || (z1 =? M52).

Definition secp256k1_fe_normalizes_to_zero_var (r : secp256k1_fe) : bool :=
  let x := fe_n4 r .>> 48 in
  let t0 := u64 (fe_n0 r + u64 (x * 0x1000003D1)) in
  let z0 := t0 .& M52 in
  let z1 := z0 .^ 0x1000003D0 in
  if negb (z0 =? 0) && negb (z1 =? M52) then false else
  let t4 := fe_n4 r .& M48 in
  let t1 := u64 (fe_n1 r + (t0 .>> 52)) in
  let t2 := u64 (fe_n2 r + (t1 .>> 52)) in let t1 := t1 .& M52 in let z0 := z0 .| t1 in let z1 := z1 .& t1 in
  let t3 := u64 (fe_n3 r + (t2 .>> 52)) in let t2 := t2 .& M52 in let z0 := z0 .| t2 in let z1 := z1 .& t2 in
  let t4 := u64 (t4 + (t3 .>> 52)) in let t3 := t3 .& M52 in let z0 := z0 .| t3 in let z1 := z1 .& t3 in
  let z0 := z0 .| t4 in let z1 := z1 .& (t4 .^ 0xF000000000000) in
  (z0 =? 0) || (z1 =? M52).

Definition secp256k1_fe_set_int (a : Z) : secp256k1_fe := MkFe (u64 a) 0 0 0 0.

Definition secp256k1_fe_is_zero (a : secp256k1_fe) : bool := fe_n0 a .| fe_n1 a .| fe_n2 a .| fe_n3 a .| fe_n4 a =? 0.

Definition secp256k1_fe_is_odd (a : secp256k1_fe) : bool := negb (fe_n0 a .& 1 =? 0).

Definition secp256k1_fe_clear : secp256k1_fe := MkFe 0 0 0 0 0.

(** The loop from the most significant limb down *)
Fixpoint fe_cmp_limbs (l : list (Z * Z)) : Z :=
  match l with
  | [] => 0
  | (a, b) :: l' => if b <? a then 1 else if a <? b then -1 else fe_cmp_limbs l'
  end.

Definition secp256k1_fe_cmp_var (a b : secp256k1_fe) : Z :=
  fe_cmp_limbs [(fe_n4 a, fe_n4 b); (fe_n3 a, fe_n3 b); (fe_n2 a, fe_n2 b); (fe_n1 a, fe_n1 b); (fe_n0 a, fe_n0 b)].

(** The element, and whether it is below the field characteristic *)
Definition secp256k1_fe_set_b32 (a : list Z) : secp256k1_fe * bool :=
  let r0 := a.[31] .| (a.[30] .<< 8) .| (a.[29] .<< 16) .| (a.[28] .<< 24) .| (a.[27] .<< 32) .|
            (a.[26] .<< 40) .| ((a.[25] .& 0xF) .<< 48) in
  let r1 := ((a.[25] .>> 4) .& 0xF) .| (a.[24] .<< 4) .| (a.[23] .<< 12) .| (a.[22] .<< 20) .| (a.[21] .<< 28) .|
            (a.[20] .<< 36) .| (a.[19] .<< 44) in
  let r2 := a.[18] .| (a.[17] .<< 8) .| (a.[16] .<< 16) .| (a.[15] .<< 24) .| (a.[14] .<< 32) .|
            (a.[13] .<< 40) .| ((a.[12] .& 0xF) .<< 48) in
  let r3 := ((a.[12] .>> 4) .& 0xF) .| (a.[11] .<< 4) .| (a.[10] .<< 12) .| (a.[9] .<< 20) .| (a.[8] .<< 28) .|
            (a.[7] .<< 36) .| (a.[6] .<< 44) in
  let r4 := a.[5] .| (a.[4] .<< 8) .| (a.[3] .<< 16) .| (a.[2] .<< 24) .| (a.[1] .<< 32) .| (a.[0] .<< 40) in
  (MkFe r0 r1 r2 r3 r4,
   negb ((r4 =? M48) && (r3 .& r2 .& r1 =? M52) && (0xFFFFEFFFFFC2F <=? r0))).

Definition secp256k1_fe_get_b32 (a : secp256k1_fe) : list Z :=
  [(fe_n4 a .>> 40) .& 0xFF; (fe_n4 a .>> 32) .& 0xFF; (fe_n4 a .>> 24) .& 0xFF; (fe_n4 a .>> 16) .& 0xFF; (fe_n4 a .>> 8) .& 0xFF; fe_n4 a .& 0xFF;
   (fe_n3 a .>> 44) .& 0xFF; (fe_n3 a .>> 36) .& 0xFF; (fe_n3 a .>> 28) .& 0xFF; (fe_n3 a .>> 20) .& 0xFF; (fe_n3 a .>> 12) .& 0xFF;
   (fe_n3 a .>> 4) .& 0xFF; ((fe_n2 a .>> 48) .& 0xF) .| ((fe_n3 a .& 0xF) .<< 4);
   (fe_n2 a .>> 40) .& 0xFF; (fe_n2 a .>> 32) .& 0xFF; (fe_n2 a .>> 24) .& 0xFF; (fe_n2 a .>> 16) .& 0xFF; (fe_n2 a .>> 8) .& 0xFF; fe_n2 a .& 0xFF;
   (fe_n1 a .>> 44) .& 0xFF; (fe_n1 a .>> 36) .& 0xFF; (fe_n1 a .>> 28) .& 0xFF; (fe_n1 a .>> 20) .& 0xFF; (fe_n1 a .>> 12) .& 0xFF;
   (fe_n1 a .>> 4) .& 0xFF; ((fe_n0 a .>> 48) .& 0xF) .| ((fe_n1 a .& 0xF) .<< 4);
   (fe_n0 a .>> 40) .& 0xFF; (fe_n0 a .>> 32) .& 0xFF; (fe_n0 a .>> 24) .& 0xFF; (fe_n0 a .>> 16) .& 0xFF; (fe_n0 a .>> 8) .& 0xFF; fe_n0 a .& 0xFF].

Definition secp256k1_fe_negate (a : secp256k1_fe) (m : Z) : secp256k1_fe :=
  MkFe (u64 (0xFFFFEFFFFFC2F * 2 * (m + 1) - fe_n0 a)) (u64 (0xFFFFFFFFFFFFF * 2 * (m + 1) - fe_n1 a))
       (u64 (0xFFFFFFFFFFFFF * 2 * (m + 1) - fe_n2 a)) (u64 (0xFFFFFFFFFFFFF * 2 * (m + 1) - fe_n3 a))
       (u64 (0x0FFFFFFFFFFFF * 2 * (m + 1) - fe_n4 a)).

Definition secp256k1_fe_mul_int (r : secp256k1_fe) (a : Z) : secp256k1_fe :=
  MkFe (u64 (fe_n0 r * a)) (u64 (fe_n1 r * a)) (u64 (fe_n2 r * a)) (u64 (fe_n3 r * a)) (u64 (fe_n4 r * a)).

Definition secp256k1_fe_add (r a : secp256k1_fe) : secp256k1_fe :=
  MkFe (u64 (fe_n0 r + fe_n0 a)) (u64 (fe_n1 r + fe_n1 a)) (u64 (fe_n2 r + fe_n2 a)) (u64 (fe_n3 r + fe_n3 a)) (u64 (fe_n4 r + fe_n4 a)).

(** ** Multiplication

    [c] and [d] are the two 128-bit accumulators; [R] is 2^260 reduced by the field characteristic. *)

Definition fe_R : Z := 0x1000003D10.

Definition secp256k1_fe_mul_inner (a b : secp256k1_fe) : secp256k1_fe :=
  let '(MkFe a0 a1 a2 a3 a4) := a in
  let '(MkFe b0 b1 b2 b3 b4) := b in
  let d := u128 (a0 * b3 + a1 * b2 + a2 * b1 + a3 * b0) in
  let c := u128 (a4 * b4) in
  let d := u128 (d + (c .& M52) * fe_R) in let c := c .>> 52 in
  let t3 := u64 (d .& M52) in let d := d .>> 52 in
  let d := u128 (d + (a0 * b4 + a1 * b3 + a2 * b2 + a3 * b1 + a4 * b0)) in
  let d := u128 (d + c * fe_R) in
  let t4 := u64 (d .& M52) in let d := d .>> 52 in
  let tx := t4 .>> 48 in let t4 := t4 .& (M52 .>> 4) in
  let c := u128 (a0 * b0) in
  let d := u128 (d + (a1 * b4 + a2 * b3 + a3 * b2 + a4 * b1)) in
  let u0 := u64 (d .& M52) in let d := d .>> 52 in
  let u0 := u64 (u0 .<< 4) .| tx in
  let c := u128 (c + u0 * (fe_R .>> 4)) in
  let r0 := u64 (c .& M52) in let c := c .>> 52 in
  let c := u128 (c + (a0 * b1 + a1 * b0)) in
  let d := u128 (d + (a2 * b4 + a3 * b3 + a4 * b2)) in
  let c := u128 (c + (d .& M52) * fe_R) in let d := d .>> 52 in
  let r1 := u64 (c .& M52) in let c := c .>> 52 in
  let c := u128 (c + (a0 * b2 + a1 * b1 + a2 * b0)) in
  let d := u128 (d + (a3 * b4 + a4 * b3)) in
  let c := u128 (c + (d .& M52) * fe_R) in let d := d .>> 52 in
  let r2 := u64 (c .& M52) in let c := c .>> 52 in
  let c := u128 (c + (d * fe_R + t3)) in
  let r3 := u64 (c .& M52) in let c := c .>> 52 in
  let c := u128 (c + t4) in
  let r4 := u64 c in
  MkFe r0 r1 r2 r3 r4.

(** [t3], [t4], [tx] and [u0] are signed here. *)
Definition secp256k1_fe_sqr_inner (a : secp256k1_fe) : secp256k1_fe :=
  let '(MkFe a0 a1 a2 a3 a4) := a in
  let d := u128 (u64 (a0 * 2) * a3 + u64 (a1 * 2) * a2) in
  let c := u128 (a4 * a4) in
  let d := u128 (d + (c .& M52) * fe_R) in let c := c .>> 52 in
  let t3 := i64 (d .& M52) in let d := d .>> 52 in
  let a4 := u64 (a4 * 2) in
  let d := u128 (d + (a0 * a4 + u64 (a1 * 2) * a3 + a2 * a2)) in
  let d := u128 (d + c * fe_R) in
  let t4 := i64 (d .& M52) in let d := d .>> 52 in
  let tx := t4 .>> 48 in let t4 := t4 .& (M52 .>> 4) in
  let c := u128 (a0 * a0) in
  let d := u128 (d + (a1 * a4 + u64 (a2 * 2) * a3)) in
  let u0 := i64 (d .& M52) in let d := d .>> 52 in
  let u0 := i64 (u0 .<< 4) .| tx in
  let c := u128 (c + u128 u0 * (fe_R .>> 4)) in
  let r0 := u64 (c .& M52) in let c := c .>> 52 in
  let a0 := u64 (a0 * 2) in
  let c := u128 (c + a0 * a1) in
  let d := u128 (d + (a2 * a4 + a3 * a3)) in
  let c := u128 (c + (d .& M52) * fe_R) in let d := d .>> 52 in
  let r1 := u64 (c .& M52) in let c := c .>> 52 in
  let c := u128 (c + (a0 * a2 + a1 * a1)) in
  let d := u128 (d + a3 * a4) in
  let c := u128 (c + (d .& M52) * fe_R) in let d := d .>> 52 in
  let r2 := u64 (c .& M52) in let c := c .>> 52 in
  let c := u128 (c + (d * fe_R + u128 t3)) in
  let r3 := u64 (c .& M52) in let c := c .>> 52 in
  let c := u128 (c + u128 t4) in
  let r4 := u64 c in
  MkFe r0 r1 r2 r3 r4.

Definition secp256k1_fe_mul (a b : secp256k1_fe) : secp256k1_fe := secp256k1_fe_mul_inner a b.
Definition secp256k1_fe_sqr (a : secp256k1_fe) : secp256k1_fe := secp256k1_fe_sqr_inner a.

(** ** Moves and storage *)

(** The same masks for every limb: [mask0] is all ones when the flag is clear. *)
Definition secp256k1_fe_cmov (r a : secp256k1_fe) (flag : bool) : secp256k1_fe :=
  let mask0 := u64 (Z.b2z flag + u64 (Z.lnot 0)) in
  let mask1 := u64 (Z.lnot mask0) in
  let sel x y := (x .& mask0) .| (y .& mask1) in
  MkFe (sel (fe_n0 r) (fe_n0 a)) (sel (fe_n1 r) (fe_n1 a)) (sel (fe_n2 r) (fe_n2 a))
       (sel (fe_n3 r) (fe_n3 a)) (sel (fe_n4 r) (fe_n4 a)).

Record secp256k1_fe_storage := MkFeStorage { st_n0 : Z; st_n1 : Z; st_n2 : Z; st_n3 : Z }.

Definition secp256k1_fe_to_storage (a : secp256k1_fe) : secp256k1_fe_storage :=
  MkFeStorage (fe_n0 a .| u64 (fe_n1 a .<< 52)) ((fe_n1 a .>> 12) .| u64 (fe_n2 a .<< 40))
    ((fe_n2 a .>> 24) .| u64 (fe_n3 a .<< 28)) ((fe_n3 a .>> 36) .| u64 (fe_n4 a .<< 16)).

Definition secp256k1_fe_from_storage (a : secp256k1_fe_storage) : secp256k1_fe :=
  MkFe (st_n0 a .& M52) ((st_n0 a .>> 52) .| (u64 (st_n1 a .<< 12) .& M52))
    ((st_n1 a .>> 40) .| (u64 (st_n2 a .<< 24) .& M52)) ((st_n2 a .>> 28) .| (u64 (st_n3 a .<< 36) .& M52)) (st_n3 a .>> 16).

(** ** What a limb vector stands for *)

(** The field characteristic 2^256 - 2^32 - 977 *)
Definition secp_p : Z := 0xFFFFFFFFFFFFFFFFFFFFFFFFFFFFFFFFFFFFFFFFFFFFFFFFFFFFFFFEFFFFFC2F.

Definition fe_val (a : secp256k1_fe) : Z :=
  fe_n0 a + fe_n1 a * 2 ^ 52 + fe_n2 a * 2 ^ 104 + fe_n3 a * 2 ^ 156 + fe_n4 a * 2 ^ 208.

(** [secp256k1_fe_verify]: an element of magnitude [m], and a normalized one *)
Definition fe_mag (m : Z) (a : secp256k1_fe) : Prop :=
  0 <= fe_n0 a <= M52 * (2 * m) ∧ 0 <= fe_n1 a <= M52 * (2 * m) ∧ 0 <= fe_n2 a <= M52 * (2 * m) ∧
  0 <= fe_n3 a <= M52 * (2 * m) ∧ 0 <= fe_n4 a <= M48 * (2 * m).

Definition fe_norm (a : secp256k1_fe) : Prop :=
  0 <= fe_n0 a <= M52 ∧ 0 <= fe_n1 a <= M52 ∧ 0 <= fe_n2 a <= M52 ∧ 0 <= fe_n3 a <= M52 ∧ 0 <= fe_n4 a <= M48 ∧
  fe_val a < secp_p.

Lemma mask52 (x : Z) : x .& M52 = x mod 2 ^ 52.
Proof. apply (land_ones_mod x 52). lia. Qed.

Lemma mask48 (x : Z) : x .& M48 = x mod 2 ^ 48.
Proof. apply (land_ones_mod x 48). lia. Qed.

(** Name the halves of [x] at bit 52: [x = q * 2^52 + r]. *)
Ltac split52 x q r :=
  let E := fresh "E" in let B := fresh "B" in
  rewrite ?(mask52 x), ?(shr_div x 52) by done;
  pose proof (Z.div_mod x (2 ^ 52) ltac:(done)) as E;
  pose proof (Z.mod_pos_bound x (2 ^ 52) ltac:(done)) as B;
  set (q := x / 2 ^ 52) in *; set (r := x mod 2 ^ 52) in *; clearbody q r.

(** The value [x] of an accumulator does not wrap; name its two halves. *)
Ltac acc x q r :=
  rewrite ?(wrap_small 128 x) by (unfold is_word; lia);
  split52 x q r;
  rewrite ?(wrap_small 64 r) by (unfold is_word; lia).

(** The accumulators of both functions as they depend on the sums of products
    [p_k = sum (a_i * b_(k-i))] *)
Definition fe_reduce (p0 p1 p2 p3 p4 p5 p6 p7 p8 : Z) : secp256k1_fe :=
  let d := u128 p3 in
  let c := u128 p8 in
  let d := u128 (d + (c .& M52) * fe_R) in let c := c .>> 52 in
  let t3 := u64 (d .& M52) in let d := d .>> 52 in
  let d := u128 (d + p4) in
  let d := u128 (d + c * fe_R) in
  let t4 := u64 (d .& M52) in let d := d .>> 52 in
  let tx := t4 .>> 48 in let t4 := t4 .& (M52 .>> 4) in
  let c := u128 p0 in
  let d := u128 (d + p5) in
  let u0 := u64 (d .& M52) in let d := d .>> 52 in
  let u0 := u64 (u0 .<< 4) .| tx in
  let c := u128 (c + u0 * (fe_R .>> 4)) in
  let r0 := u64 (c .& M52) in let c := c .>> 52 in
  let c := u128 (c + p1) in
  let d := u128 (d + p6) in
  let c := u128 (c + (d .& M52) * fe_R) in let d := d .>> 52 in
  let r1 := u64 (c .& M52) in let c := c .>> 52 in
  let c := u128 (c + p2) in
  let d := u128 (d + p7) in
  let c := u128 (c + (d .& M52) * fe_R) in let d := d .>> 52 in
  let r2 := u64 (c .& M52) in let c := c .>> 52 in
  let c := u128 (c + (d * fe_R + t3)) in
  let r3 := u64 (c .& M52) in let c := c .>> 52 in
  let c := u128 (c + t4) in
  MkFe r0 r1 r2 r3 (u64 c).

Lemma fe_mul_inner_reduce (a0 a1 a2 a3 a4 b0 b1 b2 b3 b4 : Z) :
  secp256k1_fe_mul_inner (MkFe a0 a1 a2 a3 a4) (MkFe b0 b1 b2 b3 b4) =
  fe_reduce (a0 * b0) (a0 * b1 + a1 * b0) (a0 * b2 + a1 * b1 + a2 * b0) (a0 * b3 + a1 * b2 + a2 * b1 + a3 * b0)
    (a0 * b4 + a1 * b3 + a2 * b2 + a3 * b1 + a4 * b0) (a1 * b4 + a2 * b3 + a3 * b2 + a4 * b1)
    (a2 * b4 + a3 * b3 + a4 * b2) (a3 * b4 + a4 * b3) (a4 * b4).
Proof. reflexivity. Qed.

(** With sums of products that come from magnitude 8 nothing wraps, and the result is
    their value at 2^52 modulo the field characteristic. *)
Lemma fe_reduce_spec (p0 p1 p2 p3 p4 p5 p6 p7 p8 : Z) :
  0 <= p0 < 2 ^ 112 → 0 <= p1 < 2 ^ 112 + 2 ^ 112 → 0 <= p2 < 2 ^ 112 + 2 ^ 112 + 2 ^ 112 →
  0 <= p3 < 2 ^ 112 + 2 ^ 112 + 2 ^ 112 + 2 ^ 112 → 0 <= p4 < 2 ^ 108 + 2 ^ 112 + 2 ^ 112 + 2 ^ 112 + 2 ^ 108 →
  0 <= p5 < 2 ^ 108 + 2 ^ 112 + 2 ^ 112 + 2 ^ 108 → 0 <= p6 < 2 ^ 108 + 2 ^ 112 + 2 ^ 108 → 0 <= p7 < 2 ^ 108 + 2 ^ 108 →
  0 <= p8 < 2 ^ 104 →
  fe_mag 1 (fe_reduce p0 p1 p2 p3 p4 p5 p6 p7 p8) ∧
  ∃ k, fe_val (fe_reduce p0 p1 p2 p3 p4 p5 p6 p7 p8) =
    p0 + p1 * 2 ^ 52 + p2 * 2 ^ 104 + p3 * 2 ^ 156 + p4 * 2 ^ 208 + p5 * 2 ^ 260 + p6 * 2 ^ 312 + p7 * 2 ^ 364 + p8 * 2 ^ 416
    - k * secp_p.
Proof.
  intros. unfold fe_reduce, u128, u64. cbv zeta. change (M52 .>> 4) with M48. change (fe_R .>> 4) with 0x1000003D1. unfold fe_R.
  rewrite (wrap_small 128 p3), (wrap_small 128 p0) by (unfold is_word; lia).
  acc p8 c1 c0. acc (p3 + c0 * 0x1000003D10) d1 t3.
  rewrite (wrap_small 128 (d1 + p4)) by (unfold is_word; lia).
  acc (d1 + p4 + c1 * 0x1000003D10) d2 t4.
  acc (d2 + p5) d3 u0.
  rewrite (wrap_small 64 (u0 .<< 4)) by (unfold is_word; rewrite shl_mul; lia).
  pose proof (Z.div_mod t4 (2 ^ 48) ltac:(done)) as Et. pose proof (Z.mod_pos_bound t4 (2 ^ 48) ltac:(done)) as Bt.
  rewrite !mask48, !(shr_div t4 48) by lia. set (tx := t4 / 2 ^ 48) in *. set (t4' := t4 mod 2 ^ 48) in *. clearbody tx t4'.
  assert ((u0 .<< 4) .| tx = u0 * 16 + tx) as ->.
  { rewrite shl_mul, Z.lor_comm by lia. change (u0 * 16 + tx) with (u0 * 2 ^ 4 + tx). rewrite Z.add_comm. apply lor_add; lia. }
  acc (p0 + (u0 * 16 + tx) * 0x1000003D1) c2 r0.
  rewrite (wrap_small 128 (c2 + p1)) by (unfold is_word; lia).
  acc (d3 + p6) d4 e4.
  acc (c2 + p1 + e4 * 0x1000003D10) c3 r1.
  rewrite (wrap_small 128 (c3 + p2)) by (unfold is_word; lia).
  acc (d4 + p7) d5 e5.
  acc (c3 + p2 + e5 * 0x1000003D10) c4 r2.
  acc (c4 + (d5 * 0x1000003D10 + t3)) c5 r3.
  rewrite (wrap_small 128 (c5 + t4')), (wrap_small 64 (c5 + t4')) by (unfold is_word; lia).
  unfold fe_mag, fe_val, M52, M48, secp_p. cbn [fe_n0 fe_n1 fe_n2 fe_n3 fe_n4]. split; [lia|].
  exists (16 * (c0 * 2 ^ 156 + c1 * 2 ^ 208) + (u0 * 16 + tx) + 16 * (e4 * 2 ^ 52 + e5 * 2 ^ 104 + d5 * 2 ^ 156)). lia.
Qed.

Lemma i64_small (x : Z) : 0 <= x < 2 ^ 63 → i64 x = x.
Proof. intros. unfold i64, signed. rewrite Z.mod_small; lia. Qed.

Lemma u64_masked (x : Z) : u64 (x .& M52) = x mod 2 ^ 52.
Proof. rewrite mask52. pose proof (Z.mod_pos_bound x (2 ^ 52) ltac:(done)). apply wrap_small. unfold is_word. lia. Qed.

Lemma i64_masked (x : Z) : i64 (x .& M52) = x mod 2 ^ 52.
Proof. rewrite mask52. pose proof (Z.mod_pos_bound x (2 ^ 52) ltac:(done)). apply i64_small. lia. Qed.

(** The squaring accumulates the same sums, each product once. *)
Lemma fe_sqr_inner_mul (a : secp256k1_fe) : fe_mag 8 a → secp256k1_fe_sqr_inner a = secp256k1_fe_mul_inner a a.
Proof.
  destruct a as [a0 a1 a2 a3 a4]. unfold fe_mag, M52, M48. cbn [fe_n0 fe_n1 fe_n2 fe_n3 fe_n4].
  intros (Ha0 & Ha1 & Ha2 & Ha3 & Ha4). rewrite fe_mul_inner_reduce. unfold secp256k1_fe_sqr_inner, fe_reduce.
  assert (∀ x, 0 <= x < 2 ^ 63 → u64 (x * 2) = x * 2) as H2 by (intros; apply wrap_small; unfold is_word; lia).
  rewrite !H2 by lia.
  assert (∀ x, u128 (x mod 2 ^ 52) = x mod 2 ^ 52) as H128.
  { intros x. pose proof (Z.mod_pos_bound x (2 ^ 52) ltac:(done)). apply wrap_small. unfold is_word. lia. }
  assert (∀ x, u128 (x mod 2 ^ 48) = x mod 2 ^ 48) as H128'.
  { intros x. pose proof (Z.mod_pos_bound x (2 ^ 48) ltac:(done)). apply wrap_small. unfold is_word. lia. }
  assert (∀ x y, u128 (i64 ((x mod 2 ^ 52) .<< 4) .| ((y mod 2 ^ 52) .>> 48)) = u64 ((x mod 2 ^ 52) .<< 4) .| ((y mod 2 ^ 52) .>> 48)) as Hu.
  { intros x y. pose proof (Z.mod_pos_bound x (2 ^ 52) ltac:(done)). pose proof (Z.mod_pos_bound y (2 ^ 52) ltac:(done)).
    rewrite shl_mul, shr_div, i64_small, (wrap_small 64) by (unfold is_word; lia).
    assert (0 <= y mod 2 ^ 52 / 2 ^ 48 < 2 ^ 4) by (split; [apply Z.div_pos; lia|apply Z.div_lt_upper_bound; lia]).
    rewrite Z.lor_comm, lor_add by lia. apply wrap_small. unfold is_word. lia. }
  change (M52 .>> 4) with M48. rewrite !mask48, !i64_masked, !u64_masked, !Hu, !H128, !H128'.
  replace (a0 * 2 * a3 + a1 * 2 * a2) with (a0 * a3 + a1 * a2 + a2 * a1 + a3 * a0) by ring.
  replace (a0 * (a4 * 2) + a1 * 2 * a3 + a2 * a2) with (a0 * a4 + a1 * a3 + a2 * a2 + a3 * a1 + a4 * a0) by ring.
  replace (a1 * (a4 * 2) + a2 * 2 * a3) with (a1 * a4 + a2 * a3 + a3 * a2 + a4 * a1) by ring.
  replace (a2 * (a4 * 2) + a3 * a3) with (a2 * a4 + a3 * a3 + a4 * a2) by ring.
  replace (a3 * (a4 * 2)) with (a3 * a4 + a4 * a3) by ring.
  replace (a0 * 2 * a1) with (a0 * a1 + a1 * a0) by ring.
  replace (a0 * 2 * a2 + a1 * a1) with (a0 * a2 + a1 * a1 + a2 * a0) by ring.
  reflexivity.
Qed.

Lemma fe_mul_spec (a b : secp256k1_fe) :
  fe_mag 8 a → fe_mag 8 b →
  fe_mag 1 (secp256k1_fe_mul a b) ∧ fe_val (secp256k1_fe_mul a b) mod secp_p = (fe_val a * fe_val b) mod secp_p.
Proof.
  destruct a as [a0 a1 a2 a3 a4], b as [b0 b1 b2 b3 b4]. unfold fe_mag at 1 2. unfold M52, M48. cbn [fe_n0 fe_n1 fe_n2 fe_n3 fe_n4].
  intros (Ha0 & Ha1 & Ha2 & Ha3 & Ha4) (Hb0 & Hb1 & Hb2 & Hb3 & Hb4). unfold secp256k1_fe_mul. rewrite fe_mul_inner_reduce.
  assert (∀ x y, 0 <= x <= 4503599627370495 * 16 → 0 <= y <= 4503599627370495 * 16 → 0 <= x * y < 2 ^ 112) as Hp by (intros; nia).
  assert (∀ x y, 0 <= x <= 281474976710655 * 16 → 0 <= y <= 4503599627370495 * 16 → 0 <= x * y < 2 ^ 108) as Hq by (intros; nia).
  assert (∀ x y, 0 <= x <= 4503599627370495 * 16 → 0 <= y <= 281474976710655 * 16 → 0 <= x * y < 2 ^ 108) as Hr by (intros; nia).
  assert (∀ x y X Y, 0 <= x < X → 0 <= y < Y → 0 <= x + y < X + Y) as Hs by (intros; lia).
  assert (0 <= a4 * b4 < 2 ^ 104) as H44 by nia.
  match goal with |- context [fe_reduce ?p0 ?p1 ?p2 ?p3 ?p4 ?p5 ?p6 ?p7 ?p8] =>
    destruct (fe_reduce_spec p0 p1 p2 p3 p4 p5 p6 p7 p8) as [Hm [k Ek]]; [auto 8..|]
  end.
  split; [exact Hm|rewrite Ek].
  rewrite Zminus_mod, Z_mod_mult, Z.sub_0_r, Z.mod_mod by done. f_equal. unfold fe_val. cbn [fe_n0 fe_n1 fe_n2 fe_n3 fe_n4]. ring.
Qed.

(** ** Normalization *)

(** A pass of carries adds [x] times 2^256 modulo the characteristic, and leaves every limb but the last reduced. *)
Lemma fe_carry_spec (x : Z) (t : secp256k1_fe) :
  0 <= x < 2 ^ 12 → fe_mag 2047 t → fe_n4 t < 2 ^ 63 →
  fe_val (fe_carry x t) = fe_val t + x * 0x1000003D1 ∧
  0 <= fe_n0 (fe_carry x t) < 2 ^ 52 ∧ 0 <= fe_n1 (fe_carry x t) < 2 ^ 52 ∧ 0 <= fe_n2 (fe_carry x t) < 2 ^ 52 ∧
  0 <= fe_n3 (fe_carry x t) < 2 ^ 52 ∧ fe_n4 t <= fe_n4 (fe_carry x t) <= fe_n4 t + 4095.
Proof.
  destruct t as [t0 t1 t2 t3 t4]. unfold fe_mag, M48, fe_carry, u64. unfold M52 at 1 2 3 4. cbn [fe_n0 fe_n1 fe_n2 fe_n3 fe_n4].
  intros Hx (H0 & H1 & H2 & H3 & H4) H5.
  rewrite (wrap_small 64 (x * _)), (wrap_small 64 (t0 + _)) by (unfold is_word; lia).
  split52 (t0 + x * 0x1000003D1) c0 r0. rewrite (wrap_small 64 (t1 + c0)) by (unfold is_word; lia).
  split52 (t1 + c0) c1 r1. rewrite (wrap_small 64 (t2 + c1)) by (unfold is_word; lia).
  split52 (t2 + c1) c2 r2. rewrite (wrap_small 64 (t3 + c2)) by (unfold is_word; lia).
  split52 (t3 + c2) c3 r3. rewrite (wrap_small 64 (t4 + c3)) by (unfold is_word; lia).
  unfold fe_val. cbn [fe_n0 fe_n1 fe_n2 fe_n3 fe_n4]. lia.
Qed.

Lemma secp_p_eq : secp_p = 2 ^ 256 - 0x1000003D1.
Proof. reflexivity. Qed.

Lemma fe_first_pass_spec (r : secp256k1_fe) :
  fe_mag 2047 r →
  (∃ k, fe_val (fe_first_pass r) = fe_val r - k * secp_p) ∧
  0 <= fe_n0 (fe_first_pass r) < 2 ^ 52 ∧ 0 <= fe_n1 (fe_first_pass r) < 2 ^ 52 ∧ 0 <= fe_n2 (fe_first_pass r) < 2 ^ 52 ∧
  0 <= fe_n3 (fe_first_pass r) < 2 ^ 52 ∧ 0 <= fe_n4 (fe_first_pass r) < 2 ^ 48 + 2 ^ 12.
Proof.
  intros Hm. unfold fe_first_pass. rewrite mask48, shr_div by lia.
  assert (0 <= fe_n4 r < 2 ^ 60) as H4 by (destruct Hm as (_ & _ & _ & _ & ?); unfold M48 in *; lia).
  pose proof (Z.div_mod (fe_n4 r) (2 ^ 48) ltac:(done)). pose proof (Z.mod_pos_bound (fe_n4 r) (2 ^ 48) ltac:(done)).
  destruct (fe_carry_spec (fe_n4 r / 2 ^ 48) (MkFe (fe_n0 r) (fe_n1 r) (fe_n2 r) (fe_n3 r) (fe_n4 r mod 2 ^ 48))) as (Ev & H0' & H1' & H2' & H3' & H4').
  - lia.
  - destruct Hm as (? & ? & ? & ? & ?). unfold fe_mag, M48 in *. cbn [fe_n0 fe_n1 fe_n2 fe_n3 fe_n4]. split_and!; lia.
  - cbn [fe_n4]. lia.
  - split; [|cbn [fe_n4] in H4'; repeat split; lia]. exists (fe_n4 r / 2 ^ 48). rewrite Ev, secp_p_eq. unfold fe_val. cbn [fe_n0 fe_n1 fe_n2 fe_n3 fe_n4]. lia.
Qed.

Lemma mod_sub_mul (x k : Z) : (x - k * secp_p) mod secp_p = x mod secp_p.
Proof. by rewrite Zminus_mod, Z_mod_mult, Z.sub_0_r, Z.mod_mod. Qed.

(** The bitwise test for three full limbs *)
Lemma land_full (a b w : Z) : 0 <= w → is_word w a → is_word w b → a .& b = 2 ^ w - 1 → a = 2 ^ w - 1 ∧ b = 2 ^ w - 1.
Proof.
  intros Hw Ha Hb E.
  assert (∀ c, is_word w c → c .& (2 ^ w - 1) = c) as Hc by (intros c Hc; rewrite land_ones_mod by done; by apply wrap_small).
  split.
  - transitivity (a .& (2 ^ w - 1)); [by rewrite Hc|]. rewrite <- E at 1. by rewrite Z.land_assoc, Z.land_diag.
  - transitivity (b .& (2 ^ w - 1)); [by rewrite Hc|]. rewrite <- E at 1. by rewrite (Z.land_comm a), Z.land_assoc, Z.land_diag, Z.land_comm.
Qed.

Lemma land_word (a b w : Z) : 0 <= w → is_word w a → 0 <= b → is_word w (a .& b).
Proof.
  intros Hw Ha Hb. assert (a .& (2 ^ w - 1) = a) as E by (rewrite land_ones_mod by done; by apply wrap_small).
  rewrite <- E, <- Z.land_assoc, (Z.land_comm _ b), Z.land_assoc, land_ones_mod by done. apply Z.mod_pos_bound, pow2_pos, Hw.
Qed.

Lemma full_limbs (a b c : Z) :
  is_word 52 a → is_word 52 b → is_word 52 c → (a .& b .& c =? M52) = (a =? M52) && (b =? M52) && (c =? M52).
Proof.
  intros Ha Hb Hc. apply eq_true_iff_eq. rewrite !andb_true_iff, !Z.eqb_eq. split.
  - intros E. apply (land_full _ _ 52) in E as [E ->]; [|lia|apply land_word; [lia|done|apply Hb]|done].
    apply (land_full _ _ 52) in E as [-> ->]; [done|lia|done|done].
  - intros [[-> ->] ->]. reflexivity.
Qed.

Lemma fe_overflow_spec (t : secp256k1_fe) :
  0 <= fe_n0 t < 2 ^ 52 → 0 <= fe_n1 t < 2 ^ 52 → 0 <= fe_n2 t < 2 ^ 52 → 0 <= fe_n3 t < 2 ^ 52 → 0 <= fe_n4 t < 2 ^ 48 + 2 ^ 12 →
  fe_overflow t = Z.b2z (secp_p <=? fe_val t).
Proof.
  intros H0 H1 H2 H3 H4. unfold fe_overflow. rewrite full_limbs, shr_div by (done || lia).
  destruct (Z.lt_ge_cases (fe_n4 t) (2 ^ 48)) as [Hs|Hs].
  - rewrite Z.div_small, Z.lor_0_l by lia. f_equal. apply eq_true_iff_eq. rewrite !andb_true_iff, !Z.eqb_eq, !Z.leb_le.
    unfold fe_val, secp_p, M48, M52. lia.
  - assert (fe_n4 t / 2 ^ 48 = 1) as -> by (symmetry; apply (Z.div_unique _ _ _ (fe_n4 t - 2 ^ 48)); lia).
    destruct (Z.leb_spec secp_p (fe_val t)); [by destruct (_ && _)|]. unfold fe_val, secp_p in *. lia.
Qed.

Lemma fe_final (t : secp256k1_fe) (x : Z) :
  0 <= fe_n0 t < 2 ^ 52 → 0 <= fe_n1 t < 2 ^ 52 → 0 <= fe_n2 t < 2 ^ 52 → 0 <= fe_n3 t < 2 ^ 52 → 0 <= fe_n4 t < 2 ^ 48 + 2 ^ 12 →
  x = Z.b2z (secp_p <=? fe_val t) →
  let c := fe_carry x t in
  let r := MkFe (fe_n0 c) (fe_n1 c) (fe_n2 c) (fe_n3 c) (fe_n4 c .& M48) in
  fe_norm r ∧ fe_val r = fe_val t - x * secp_p.
Proof.
  intros H0 H1 H2 H3 H4 ->. cbv zeta.
  destruct (fe_carry_spec (Z.b2z (secp_p <=? fe_val t)) t) as (Ev & H0' & H1' & H2' & H3' & H4').
  { destruct (_ <=? _); cbn; lia. }
  { unfold fe_mag, M52, M48. lia. }
  { lia. }
  rewrite mask48. generalize dependent (fe_carry (Z.b2z (secp_p <=? fe_val t)) t). intros c Ev H0' H1' H2' H3' H4'.
  unfold fe_norm, M52, M48. revert Ev. unfold fe_val. cbn [fe_n0 fe_n1 fe_n2 fe_n3 fe_n4]. fold (fe_val t).
  assert (fe_val t = fe_n0 t + fe_n1 t * 2 ^ 52 + fe_n2 t * 2 ^ 104 + fe_n3 t * 2 ^ 156 + fe_n4 t * 2 ^ 208) as Et by done. rewrite secp_p_eq.
  intros Ev. destruct (Z.leb_spec (2 ^ 256 - 0x1000003D1) (fe_val t)) as [Hp|Hp]; cbn [Z.b2z] in *.
  - assert (fe_n4 c mod 2 ^ 48 = fe_n4 c - 2 ^ 48) as -> by (symmetry; apply (Z.mod_unique _ _ 1); lia). lia.
  - rewrite (Z.mod_small (fe_n4 c)) by lia. lia.
Qed.

Lemma fe_normalize_spec (r : secp256k1_fe) :
  fe_mag 2047 r → fe_norm (secp256k1_fe_normalize r) ∧ fe_val (secp256k1_fe_normalize r) = fe_val r mod secp_p.
Proof.
  intros Hm. destruct (fe_first_pass_spec r Hm) as ([k Ek] & H0 & H1 & H2 & H3 & H4). unfold secp256k1_fe_normalize.
  destruct (fe_final (fe_first_pass r) (fe_overflow (fe_first_pass r))) as [Hn Ev]; [done..|by apply fe_overflow_spec|].
  split; [exact Hn|]. rewrite <- (mod_sub_mul _ k), <- Ek, <- (mod_sub_mul _ (fe_overflow (fe_first_pass r))), <- Ev.
  symmetry. apply Z.mod_small. split; [|apply Hn]. unfold fe_norm in Hn. unfold fe_val. lia.
Qed.

Lemma fe_carry_0 (t : secp256k1_fe) :
  0 <= fe_n0 t < 2 ^ 52 → 0 <= fe_n1 t < 2 ^ 52 → 0 <= fe_n2 t < 2 ^ 52 → 0 <= fe_n3 t < 2 ^ 52 → 0 <= fe_n4 t < 2 ^ 64 →
  fe_carry 0 t = t.
Proof.
  destruct t as [t0 t1 t2 t3 t4]. cbn [fe_n0 fe_n1 fe_n2 fe_n3 fe_n4]. intros H0 H1 H2 H3 H4. unfold fe_carry, u64. rewrite !mask52.
  assert (∀ x, 0 <= x < 2 ^ 52 → x .>> 52 = 0) as Hs by (intros; rewrite shr_div by lia; by apply Z.div_small).
  change (wrap 64 (0 * _)) with 0. rewrite !Z.add_0_r, !(wrap_small 64 t0), !Hs, !Z.add_0_r, !(wrap_small 64 t1), !Hs, !Z.add_0_r,
    !(wrap_small 64 t2), !Hs, !Z.add_0_r, !(wrap_small 64 t3), !Hs, !Z.add_0_r, !(wrap_small 64 t4), !(Z.mod_small _ (2 ^ 52))
    by (unfold is_word; lia). done.
Qed.

Lemma fe_normalize_var_eq (r : secp256k1_fe) : fe_mag 2047 r → secp256k1_fe_normalize_var r = secp256k1_fe_normalize r.
Proof.
  intros Hm. destruct (fe_first_pass_spec r Hm) as (_ & H0 & H1 & H2 & H3 & H4).
  unfold secp256k1_fe_normalize_var, secp256k1_fe_normalize. rewrite fe_overflow_spec by done.
  generalize dependent (fe_first_pass r). intros t H0 H1 H2 H3 H4.
  destruct (Z.leb_spec secp_p (fe_val t)) as [Hp|Hp]; cbn [Z.b2z negb Z.eqb]; [done|].
  rewrite fe_carry_0 by lia. rewrite mask48, Z.mod_small; [by destruct t|]. unfold fe_val, secp_p in Hp. lia.
Qed.

(** ** The tests for zero *)

Lemma lxor_word52 (a b : Z) : is_word 52 a → is_word 52 b → is_word 52 (a .^ b).
Proof.
  intros Ha Hb. assert (a .^ b = (a .^ b) mod 2 ^ 52) as ->; [|by apply Z.mod_pos_bound].
  rewrite <- Z.land_ones by lia. apply Z.bits_inj'. intros i Hi. rewrite Z.land_spec, Z.lxor_spec.
  rewrite <- (Z.mod_small a (2 ^ 52)), <- (Z.mod_small b (2 ^ 52)), <- !(Z.land_ones _ 52), !Z.land_spec by (done || lia).
  by destruct (Z.testbit a i), (Z.testbit b i), (Z.testbit (Z.ones 52) i).
Qed.

Lemma xor_full (a b : Z) : (a .^ b =? M52) = (a =? M52 .^ b).
Proof.
  apply eq_true_iff_eq. rewrite !Z.eqb_eq. split; intros E.
  - by rewrite <- E, Z.lxor_assoc, Z.lxor_nilpotent, Z.lxor_0_r.
  - by rewrite E, Z.lxor_assoc, Z.lxor_nilpotent, Z.lxor_0_r.
Qed.

Lemma land_M52 (a b : Z) : is_word 52 a → is_word 52 b → (a .& b =? M52) = (a =? M52) && (b =? M52).
Proof.
  intros Ha Hb. apply eq_true_iff_eq. rewrite andb_true_iff, !Z.eqb_eq. split; [|by intros [-> ->]].
  intros E. by apply (land_full _ _ 52) in E.
Qed.

Lemma lor_zero (a b : Z) : (a .| b =? 0) = (a =? 0) && (b =? 0).
Proof. apply eq_true_iff_eq. by rewrite andb_true_iff, !Z.eqb_eq, Z.lor_eq_0_iff. Qed.

Lemma fe_normalizes_to_zero_spec (r : secp256k1_fe) :
  fe_mag 2047 r → secp256k1_fe_normalizes_to_zero r = (fe_val r mod secp_p =? 0).
Proof.
  intros Hm. destruct (fe_first_pass_spec r Hm) as ([k Ek] & H0 & H1 & H2 & H3 & H4). unfold secp256k1_fe_normalizes_to_zero.
  rewrite <- (mod_sub_mul _ k), <- Ek. generalize dependent (fe_first_pass r). intros t Ek H0 H1 H2 H3 H4.
  assert (is_word 52 (fe_n0 t .^ 0x1000003D0)) as X0 by by apply lxor_word52.
  assert (is_word 52 (fe_n4 t .^ 0xF000000000000)) as X4 by (apply lxor_word52; unfold is_word; lia).
  rewrite !lor_zero, !land_M52, !xor_full by first [done|repeat apply land_word; first [done|lia|apply X0|apply X4]].
  change (M52 .^ 0x1000003D0) with 0xFFFFEFFFFFC2F. change (M52 .^ 0xF000000000000) with M48.
  apply eq_true_iff_eq. rewrite orb_true_iff, !andb_true_iff, !Z.eqb_eq.
  assert (0 <= fe_val t < 2 * secp_p) as Hv by (unfold fe_val, secp_p; lia).
  trans (fe_val t = 0 ∨ fe_val t = secp_p); [unfold fe_val, secp_p, M52, M48; lia|]. split.
  - intros [->| ->]; done.
  - intros E. pose proof (Z.div_mod (fe_val t) secp_p ltac:(done)). unfold secp_p in *. nia.
Qed.

Lemma fe_normalizes_to_zero_var_eq (r : secp256k1_fe) :
  fe_mag 2047 r → secp256k1_fe_normalizes_to_zero_var r = secp256k1_fe_normalizes_to_zero r.
Proof.
  intros Hm. destruct (fe_first_pass_spec r Hm) as (_ & H0 & H1 & H2 & H3 & H4).
  change (secp256k1_fe_normalizes_to_zero_var r) with
    (let t := fe_first_pass r in
     if negb (fe_n0 t =? 0) && negb (fe_n0 t .^ 0x1000003D0 =? M52) then false else secp256k1_fe_normalizes_to_zero r).
  cbv zeta. destruct (_ && _) eqn:E; [|done]. apply andb_true_iff in E as [E0%negb_true_iff E1%negb_true_iff].
  unfold secp256k1_fe_normalizes_to_zero. generalize dependent (fe_first_pass r). intros t H0 H1 H2 H3 H4 E0 E1.
  assert (is_word 52 (fe_n0 t .^ 0x1000003D0)) as X0 by by apply lxor_word52.
  assert (is_word 52 (fe_n4 t .^ 0xF000000000000)) as X4 by (apply lxor_word52; unfold is_word; lia).
  rewrite !lor_zero, !land_M52 by first [done|repeat apply land_word; first [done|lia|apply X0|apply X4]]. by rewrite E0, E1.
Qed.

(** ** Addition, negation, small multiples *)

Ltac fe_limbs := unfold fe_mag, fe_norm, fe_val, M52, M48, u64 in *; cbn [fe_n0 fe_n1 fe_n2 fe_n3 fe_n4] in *.

Lemma fe_mag_le (m m' : Z) (a : secp256k1_fe) : m <= m' → fe_mag m a → fe_mag m' a.
Proof. fe_limbs. lia. Qed.

Lemma fe_norm_mag (a : secp256k1_fe) : fe_norm a → fe_mag 1 a.
Proof. fe_limbs. lia. Qed.

Lemma fe_add_spec (m m' : Z) (a b : secp256k1_fe) :
  fe_mag m a → fe_mag m' b → m + m' <= 2048 →
  fe_mag (m + m') (secp256k1_fe_add a b) ∧ fe_val (secp256k1_fe_add a b) = fe_val a + fe_val b.
Proof. unfold secp256k1_fe_add. fe_limbs. intros. rewrite !wrap_small by (unfold is_word; lia). lia. Qed.

Lemma fe_mul_int_spec (m k : Z) (a : secp256k1_fe) :
  fe_mag m a → 0 <= k → m * k <= 2048 →
  fe_mag (m * k) (secp256k1_fe_mul_int a k) ∧ fe_val (secp256k1_fe_mul_int a k) = fe_val a * k.
Proof.
  unfold secp256k1_fe_mul_int. fe_limbs. intros (H0 & H1 & H2 & H3 & H4) Hk Hmk.
  assert (∀ x c, 0 <= x <= c * (2 * m) → 0 <= c → 0 <= x * k <= c * (2 * (m * k))) as Hb by (intros; nia).
  pose proof (Hb _ _ H0 ltac:(done)). pose proof (Hb _ _ H1 ltac:(done)). pose proof (Hb _ _ H2 ltac:(done)).
  pose proof (Hb _ _ H3 ltac:(done)). pose proof (Hb _ _ H4 ltac:(done)).
  rewrite !wrap_small by (unfold is_word; lia). split; [split_and!; lia|ring].
Qed.

Lemma fe_negate_spec (m : Z) (a : secp256k1_fe) :
  fe_mag m a → 0 <= m <= 2047 →
  fe_mag (m + 1) (secp256k1_fe_negate a m) ∧ fe_val (secp256k1_fe_negate a m) = 2 * (m + 1) * secp_p - fe_val a.
Proof. unfold secp256k1_fe_negate, secp_p. fe_limbs. intros. rewrite !wrap_small by (unfold is_word; lia). lia. Qed.

Lemma fe_normalize_weak_spec (r : secp256k1_fe) :
  fe_mag 2047 r →
  fe_mag 1 (secp256k1_fe_normalize_weak r) ∧ fe_val (secp256k1_fe_normalize_weak r) mod secp_p = fe_val r mod secp_p.
Proof.
  intros Hm. destruct (fe_first_pass_spec r Hm) as ([k Ek] & H0 & H1 & H2 & H3 & H4).
  unfold secp256k1_fe_normalize_weak. split; [unfold fe_mag, M52, M48; lia|]. by rewrite Ek, mod_sub_mul.
Qed.

Lemma fe_set_int_spec (k : Z) : 0 <= k < 2 ^ 31 → fe_norm (secp256k1_fe_set_int k) ∧ fe_val (secp256k1_fe_set_int k) = k.
Proof. unfold secp256k1_fe_set_int, secp_p. fe_limbs. intros. rewrite wrap_small by (unfold is_word; lia). unfold secp_p. lia. Qed.

(** ** Tests on normalized elements *)

Lemma fe_norm_inj (a b : secp256k1_fe) : fe_norm a → fe_norm b → fe_val a = fe_val b → a = b.
Proof. destruct a, b. fe_limbs. intros. f_equal; lia. Qed.

Lemma fe_norm_range (a : secp256k1_fe) : fe_norm a → 0 <= fe_val a < secp_p.
Proof. fe_limbs. lia. Qed.

Lemma fe_is_zero_spec (a : secp256k1_fe) : fe_norm a → secp256k1_fe_is_zero a = (fe_val a =? 0).
Proof.
  intros Ha. unfold secp256k1_fe_is_zero. rewrite !lor_zero. apply eq_true_iff_eq. rewrite !andb_true_iff, !Z.eqb_eq. fe_limbs. lia.
Qed.

Lemma fe_is_odd_spec (a : secp256k1_fe) : secp256k1_fe_is_odd a = Z.odd (fe_val a).
Proof.
  unfold secp256k1_fe_is_odd, fe_val. change 1 with (2 ^ 1 - 1). rewrite land_ones_mod by lia. rewrite !Z.odd_add, !Z.odd_mul, !Z.odd_pow by lia.
  cbn [Z.odd]. rewrite !andb_false_r, !xorb_false_r. change (2 ^ 1) with 2. rewrite Zmod_odd. by destruct (Z.odd _).
Qed.

Lemma fe_cmp_var_spec (a b : secp256k1_fe) :
  fe_norm a → fe_norm b →
  secp256k1_fe_cmp_var a b = if fe_val a <? fe_val b then -1 else if fe_val b <? fe_val a then 1 else 0.
Proof.
  intros Ha Hb. unfold secp256k1_fe_cmp_var. cbn [fe_cmp_limbs]. fe_limbs.
  repeat match goal with |- context [if ?x <? ?y then _ else _] => destruct (Z.ltb_spec x y) end; lia.
Qed.

(** ** Bytes *)

(** The number a big-endian byte string stands for *)
Definition be_val (b : list Z) : Z := le_val 8 (reverse b).

Lemma mask8 (x : Z) : x .& 0xFF = x mod 2 ^ 8.
Proof. apply (land_ones_mod x 8). lia. Qed.

Lemma mask4 (x : Z) : x .& 0xF = x mod 2 ^ 4.
Proof. apply (land_ones_mod x 4). lia. Qed.

(** The bytes of a limb that starts at a byte, and of one that starts in the middle of a byte *)
Lemma limb_aligned (x : Z) :
  0 <= x < 2 ^ 52 →
  x = (x .& 0xFF) + ((x .>> 8) .& 0xFF) * 2 ^ 8 + ((x .>> 16) .& 0xFF) * 2 ^ 16 + ((x .>> 24) .& 0xFF) * 2 ^ 24 +
    ((x .>> 32) .& 0xFF) * 2 ^ 32 + ((x .>> 40) .& 0xFF) * 2 ^ 40 + ((x .>> 48) .& 0xF) * 2 ^ 48.
Proof.
  intros Hx. rewrite !mask8, !mask4, !shr_div by lia.
  change (2 ^ 8) with 256. change (2 ^ 16) with 65536. Z.div_mod_to_equations. lia.
Qed.

Lemma limb_shifted (x : Z) :
  0 <= x < 2 ^ 52 →
  x = (x .& 0xF) + ((x .>> 4) .& 0xFF) * 2 ^ 4 + ((x .>> 12) .& 0xFF) * 2 ^ 12 + ((x .>> 20) .& 0xFF) * 2 ^ 20 +
    ((x .>> 28) .& 0xFF) * 2 ^ 28 + ((x .>> 36) .& 0xFF) * 2 ^ 36 + ((x .>> 44) .& 0xFF) * 2 ^ 44.
Proof. intros Hx. rewrite !mask8, !mask4, !shr_div by lia. Z.div_mod_to_equations. lia. Qed.

Lemma masked_byte (x : Z) : is_byte (x .& 0xFF).
Proof. rewrite mask8. by apply Z.mod_pos_bound. Qed.

Lemma masked_nibble (x : Z) : 0 <= x .& 0xF < 16.
Proof. rewrite mask4. by apply Z.mod_pos_bound. Qed.

Lemma byte_nibbles (b : Z) : is_byte b → b = (b .& 0xF) + ((b .>> 4) .& 0xF) * 16.
Proof. intros [? ?]. rewrite !mask4, shr_div by lia. Z.div_mod_to_equations. lia. Qed.

Lemma nibbles (x y : Z) : (x .& 0xF) .| ((y .& 0xF) .<< 4) = (x .& 0xF) + (y .& 0xF) * 16.
Proof. pose proof (masked_nibble x). rewrite shl_mul by lia. apply (lor_add _ _ 4); lia. Qed.

Lemma fe_get_b32_spec (a : secp256k1_fe) :
  fe_norm a → length (secp256k1_fe_get_b32 a) = 32%nat ∧ bytes_ok (secp256k1_fe_get_b32 a) ∧ be_val (secp256k1_fe_get_b32 a) = fe_val a.
Proof.
  intros Ha. split; [done|]. unfold secp256k1_fe_get_b32, be_val. rewrite !nibbles. split.
  - repeat (apply list.Forall_cons; split; [try apply masked_byte|]); try by apply list.Forall_nil.
    + pose proof (masked_nibble (fe_n2 a .>> 48)). pose proof (masked_nibble (fe_n3 a)). split; lia.
    + pose proof (masked_nibble (fe_n0 a .>> 48)). pose proof (masked_nibble (fe_n1 a)). split; lia.
  - cbn [reverse rev_append le_val]. unfold fe_norm, M52, M48 in Ha. destruct Ha as (H0 & H1 & H2 & H3 & H4 & _).
    pose proof (limb_aligned (fe_n0 a) ltac:(lia)). pose proof (limb_shifted (fe_n1 a) ltac:(lia)).
    pose proof (limb_aligned (fe_n2 a) ltac:(lia)). pose proof (limb_shifted (fe_n3 a) ltac:(lia)).
    pose proof (limb_aligned (fe_n4 a) ltac:(lia)) as E4. rewrite (shr_div _ 48), (Z.div_small (fe_n4 a)) in E4 by lia.
    change (0 .& 15) with 0 in E4. unfold fe_val. lia.
Qed.

Lemma list_32 (a : list Z) :
  length a = 32%nat →
  a = [a.[0]; a.[1]; a.[2]; a.[3]; a.[4]; a.[5]; a.[6]; a.[7]; a.[8]; a.[9]; a.[10]; a.[11]; a.[12]; a.[13]; a.[14]; a.[15];
       a.[16]; a.[17]; a.[18]; a.[19]; a.[20]; a.[21]; a.[22]; a.[23]; a.[24]; a.[25]; a.[26]; a.[27]; a.[28]; a.[29]; a.[30]; a.[31]].
Proof. intros H. do 32 (destruct a as [|? a]; [done|]). by destruct a. Qed.

(** Six bytes and a nibble; a nibble and six bytes *)
Lemma join_aligned (b0 b1 b2 b3 b4 b5 n : Z) :
  is_byte b0 → is_byte b1 → is_byte b2 → is_byte b3 → is_byte b4 → is_byte b5 →
  b0 .| (b1 .<< 8) .| (b2 .<< 16) .| (b3 .<< 24) .| (b4 .<< 32) .| (b5 .<< 40) .| (n .<< 48) =
  b0 + b1 * 2 ^ 8 + b2 * 2 ^ 16 + b3 * 2 ^ 24 + b4 * 2 ^ 32 + b5 * 2 ^ 40 + n * 2 ^ 48.
Proof.
  unfold is_byte, is_word. intros. rewrite !shl_mul by lia.
  rewrite (lor_add b0 b1 8), (lor_add _ b2 16), (lor_add _ b3 24), (lor_add _ b4 32), (lor_add _ b5 40), (lor_add _ n 48) by lia. done.
Qed.

Lemma join_shifted (n b0 b1 b2 b3 b4 b5 : Z) :
  0 <= n < 16 → is_byte b0 → is_byte b1 → is_byte b2 → is_byte b3 → is_byte b4 →
  n .| (b0 .<< 4) .| (b1 .<< 12) .| (b2 .<< 20) .| (b3 .<< 28) .| (b4 .<< 36) .| (b5 .<< 44) =
  n + b0 * 2 ^ 4 + b1 * 2 ^ 12 + b2 * 2 ^ 20 + b3 * 2 ^ 28 + b4 * 2 ^ 36 + b5 * 2 ^ 44.
Proof.
  unfold is_byte, is_word. intros. rewrite !shl_mul by lia.
  rewrite (lor_add n b0 4), (lor_add _ b1 12), (lor_add _ b2 20), (lor_add _ b3 28), (lor_add _ b4 36), (lor_add _ b5 44) by lia. done.
Qed.

Lemma aget_bytes (l : list Z) (i : nat) : bytes_ok l → is_byte (l.[i]).
Proof.
  intros Hl. rewrite aget_lookup. destruct (l !! i) as [x|] eqn:E; cbn; [by eapply Forall_lookup_1 in E|by split].
Qed.

Lemma fe_set_b32_spec (a : list Z) :
  bytes_ok a → length a = 32%nat →
  let '(r, ok) := secp256k1_fe_set_b32 a in
  fe_val r = be_val a ∧ ok = (be_val a <? secp_p) ∧ fe_mag 1 r ∧ (be_val a < secp_p → fe_norm r).
Proof.
  intros Hb Hl. unfold secp256k1_fe_set_b32.
  assert (∀ i, is_byte (a.[i])) as B by (intros; by apply aget_bytes). clear Hb.
  pose proof (masked_nibble (a.[25])) as N0. pose proof (masked_nibble (a.[25] .>> 4)) as N1.
  pose proof (masked_nibble (a.[12])) as N2. pose proof (masked_nibble (a.[12] .>> 4)) as N3.
  rewrite !join_aligned, !join_shifted by (done || apply B).
  pose proof (join_aligned (a.[5]) (a.[4]) (a.[3]) (a.[2]) (a.[1]) (a.[0]) 0 (B _) (B _) (B _) (B _) (B _) (B _)) as J4.
  rewrite Z.shiftl_0_l, Z.lor_0_r, Z.add_0_r in J4. rewrite J4. clear J4.
  assert (a.[25] = (a.[25] .& 0xF) + ((a.[25] .>> 4) .& 0xF) * 16) as E25 by (specialize (B 25%nat); by apply byte_nibbles).
  assert (a.[12] = (a.[12] .& 0xF) + ((a.[12] .>> 4) .& 0xF) * 16) as E12 by (specialize (B 12%nat); by apply byte_nibbles).
  set (r0 := _ + (a.[25] .& 0xF) * _). set (r1 := (a.[25] .>> 4) .& 0xF + _ + _ + _ + _ + _ + _). 
  set (r2 := _ + (a.[12] .& 0xF) * _). set (r3 := (a.[12] .>> 4) .& 0xF + _ + _ + _ + _ + _ + _). set (r4 := a.[5] + _ + _ + _ + _ + _).
  assert (fe_val (MkFe r0 r1 r2 r3 r4) = be_val a) as Ev.
  { rewrite (list_32 a Hl). unfold be_val, fe_val, r0, r1, r2, r3, r4. cbn -[Z.add Z.mul aget]. lia. }
  assert (0 <= r0 < 2 ^ 52 ∧ 0 <= r1 < 2 ^ 52 ∧ 0 <= r2 < 2 ^ 52 ∧ 0 <= r3 < 2 ^ 52 ∧ 0 <= r4 < 2 ^ 48) as (H0 & H1 & H2 & H3 & H4).
  { unfold is_byte, is_word in B. unfold r0, r1, r2, r3, r4. pose proof (B 0%nat). pose proof (B 1%nat). pose proof (B 2%nat). pose proof (B 3%nat).
    pose proof (B 4%nat). pose proof (B 5%nat). pose proof (B 6%nat). pose proof (B 7%nat). pose proof (B 8%nat). pose proof (B 9%nat).
    pose proof (B 10%nat). pose proof (B 11%nat). pose proof (B 13%nat). pose proof (B 14%nat). pose proof (B 15%nat). pose proof (B 16%nat).
    pose proof (B 17%nat). pose proof (B 18%nat). pose proof (B 19%nat). pose proof (B 20%nat). pose proof (B 21%nat). pose proof (B 22%nat).
    pose proof (B 23%nat). pose proof (B 24%nat). pose proof (B 26%nat). pose proof (B 27%nat). pose proof (B 28%nat). pose proof (B 29%nat).
    pose proof (B 30%nat). pose proof (B 31%nat). lia. }
  clearbody r0 r1 r2 r3 r4. rewrite <- Ev. split_and!; [done| |unfold fe_mag, M52, M48; cbn; lia|unfold fe_norm, M52, M48; cbn; lia].
  rewrite full_limbs by done. apply eq_true_iff_eq. rewrite negb_true_iff, andb_false_iff, andb_false_iff, !andb_false_iff, !Z.eqb_neq, Z.leb_gt, Z.ltb_lt.
  unfold fe_val, secp_p, M52, M48. cbn [fe_n0 fe_n1 fe_n2 fe_n3 fe_n4]. lia.
Qed.

Lemma be_val_inj (a b : list Z) : bytes_ok a → bytes_ok b → length a = length b → be_val a = be_val b → a = b.
Proof.
  intros Ha Hb Hl E. rewrite <- (reverse_involutive a), <- (reverse_involutive b). f_equal.
  apply (le_val_inj 8); [lia|by rewrite !length_reverse|by apply Forall_reverse..|done].
Qed.

(** Writing and reading 32 bytes are inverse to each other on normalized elements and on strings below the characteristic. *)
Lemma fe_b32_roundtrip (a : secp256k1_fe) : fe_norm a → secp256k1_fe_set_b32 (secp256k1_fe_get_b32 a) = (a, true).
Proof.
  intros Ha. destruct (fe_get_b32_spec a Ha) as (Hl & Hb & Ev). pose proof (fe_set_b32_spec _ Hb Hl) as Hs.
  destruct (secp256k1_fe_set_b32 (secp256k1_fe_get_b32 a)) as [r ok]. destruct Hs as (Er & -> & _ & Hn). rewrite Ev in *.
  pose proof (fe_norm_range a Ha). f_equal; [apply fe_norm_inj; auto; apply Hn; lia|]. apply Z.ltb_lt. lia.
Qed.

Lemma fe_b32_roundtrip' (b : list Z) (r : secp256k1_fe) :
  bytes_ok b → length b = 32%nat → secp256k1_fe_set_b32 b = (r, true) → fe_norm r ∧ secp256k1_fe_get_b32 r = b.
Proof.
  intros Hb Hl E. pose proof (fe_set_b32_spec b Hb Hl) as Hs. rewrite E in Hs. destruct Hs as (Er & Hlt & _ & Hn).
  symmetry in Hlt. apply Z.ltb_lt in Hlt. specialize (Hn Hlt). split; [done|].
  destruct (fe_get_b32_spec r Hn) as (Hl' & Hb' & Ev). apply be_val_inj; [done|done|lia|congruence].
Qed.

(** ** Moves and storage *)

Lemma fe_cmov_spec (m : Z) (r a : secp256k1_fe) (flag : bool) :
  fe_mag m r → fe_mag m a → m <= 2048 → secp256k1_fe_cmov r a flag = if flag then a else r.
Proof.
  intros Hr Ha Hm. unfold secp256k1_fe_cmov. destruct r, a. fe_limbs.
  assert (∀ x, 0 <= x < 2 ^ 64 → x .& (2 ^ 64 - 1) = x) as Hx by (intros; rewrite land_ones_mod by lia; by apply Z.mod_small).
  destruct flag; cbn [Z.b2z].
  - change (wrap 64 (1 + wrap 64 (Z.lnot 0))) with 0. change (wrap 64 (Z.lnot 0)) with (2 ^ 64 - 1).
    rewrite !Z.land_0_r, !Z.lor_0_l, !Hx by lia. done.
  - change (wrap 64 (0 + wrap 64 (Z.lnot 0))) with (2 ^ 64 - 1). change (wrap 64 (Z.lnot (2 ^ 64 - 1))) with 0.
    rewrite !Z.land_0_r, !Z.lor_0_r, !Hx by lia. done.
Qed.

Lemma shl_wrap (x k n : Z) : 0 <= k → 0 <= n → wrap (k + n) (x .<< k) = (x mod 2 ^ n) * 2 ^ k.
Proof.
  intros Hk Hn. unfold wrap. rewrite shl_mul, Z.pow_add_r, Z.mul_comm by lia.
  pose proof (pow2_pos k Hk). pose proof (pow2_pos n Hn). rewrite Z.mul_mod_distr_l by lia. apply Z.mul_comm.
Qed.

Lemma pack (x y k : Z) : 0 <= k <= 64 → 0 <= x < 2 ^ k → x .| u64 (y .<< k) = x + (y mod 2 ^ (64 - k)) * 2 ^ k.
Proof. intros Hk Hx. unfold u64. replace 64 with (k + (64 - k)) at 1 by lia. rewrite shl_wrap by lia. apply lor_add; lia. Qed.

(** The low [k] bits of a limb came from above bit [64 - k] of one word, the rest from the next one. *)
Lemma unpack (x y k : Z) :
  0 <= k <= 52 → 0 <= y < 2 ^ 64 → (x mod 2 ^ k) .| (u64 (y .<< k) .& M52) = x mod 2 ^ k + (y mod 2 ^ (52 - k)) * 2 ^ k.
Proof.
  intros Hk Hy. pose proof (pow2_pos k). rewrite mask52. unfold u64.
  assert (wrap 64 (y .<< k) mod 2 ^ 52 = wrap (k + (52 - k)) (y .<< k)) as ->.
  { unfold wrap. replace (k + (52 - k)) with 52 by lia. apply Z.mod_mod_divide. by exists (2 ^ 12). }
  rewrite shl_wrap by lia. apply lor_add; [lia|]. apply Z.mod_pos_bound. lia.
Qed.

Lemma fe_storage_roundtrip (a : secp256k1_fe) : fe_norm a → secp256k1_fe_from_storage (secp256k1_fe_to_storage a) = a.
Proof.
  intros Ha. destruct a as [a0 a1 a2 a3 a4]. unfold secp256k1_fe_from_storage, secp256k1_fe_to_storage. fe_limbs.
  destruct Ha as (H0 & H1 & H2 & H3 & H4 & _). fold (u64 (a1 .<< 52)) (u64 (a2 .<< 40)) (u64 (a3 .<< 28)) (u64 (a4 .<< 16)).
  cbn [st_n0 st_n1 st_n2 st_n3]. rewrite !shr_div by lia.
  assert (∀ x k, 0 <= x < 2 ^ 52 → 0 <= k <= 52 → 0 <= x / 2 ^ k < 2 ^ (52 - k)) as Hd.
  { intros x k Hx Hk. pose proof (pow2_pos k). split; [apply Z.div_pos; lia|]. apply Z.div_lt_upper_bound; [lia|].
    rewrite <- Z.pow_add_r by lia. replace (k + (52 - k)) with 52 by lia. lia. }
  pose proof (Hd a1 12 ltac:(lia) ltac:(lia)). pose proof (Hd a2 24 ltac:(lia) ltac:(lia)). pose proof (Hd a3 36 ltac:(lia) ltac:(lia)).
  rewrite !pack by lia. change 4503599627370495 with M52. rewrite mask52.
  assert (∀ x y k, 0 <= k → 0 <= x < 2 ^ k → (x + y * 2 ^ k) / 2 ^ k = y) as Hjd.
  { intros x y k Hk Hx. by rewrite Z.div_add, Z.div_small by lia. }
  assert (∀ x y k, 0 <= k → 0 <= x < 2 ^ k → (x + y * 2 ^ k) mod 2 ^ k = x) as Hjm.
  { intros x y k Hk Hx. by rewrite Z_mod_plus_full, Z.mod_small by lia. }
  assert (∀ x k, 0 <= k → x mod 2 ^ k + x / 2 ^ k * 2 ^ k = x) as Hs.
  { intros x k Hk. pose proof (pow2_pos k Hk). pose proof (Z.div_mod x (2 ^ k) ltac:(lia)). lia. }
  assert (∀ x y k, 0 <= k <= 64 → 0 <= x < 2 ^ k → 0 <= x + y mod 2 ^ (64 - k) * 2 ^ k < 2 ^ 64) as Hw.
  { intros x y k Hk Hx. pose proof (Z.mod_pos_bound y (2 ^ (64 - k)) ltac:(apply pow2_pos; lia)).
    replace (2 ^ 64) with (2 ^ (64 - k) * 2 ^ k) by (rewrite <- Z.pow_add_r by lia; f_equal; lia). nia. }
  rewrite (Hjd a0 _ 52), (Hjd _ _ 40), (Hjd _ _ 28), (Hjd _ _ 16), (Hjm a0 _ 52) by lia. fold u64.
  change (64 - 52) with 12. change (64 - 40) with 24. change (64 - 28) with 36. change (64 - 16) with 48.
  rewrite !unpack by (first [lia|apply (Hw _ _ 40); lia|apply (Hw _ _ 28); lia|apply (Hw _ _ 16); lia]).
  change (52 - 12) with 40. change (52 - 24) with 28. change (52 - 36) with 16.
  rewrite (Hjm _ _ 40), (Hjm _ _ 28), (Hjm _ _ 16), !Hs, (Z.mod_small a4) by lia. done.
Qed.

(** ** Properties *)

(** C38: limb multiplication and squaring are multiplication modulo the field characteristic.  On any two elements
    of magnitude at most 8, no 64- or 128-bit intermediate result wraps, the result has magnitude 1 and
    its value is the product; the squaring, which takes each product once, returns the very limbs the
    multiplication returns. *)
Theorem field_mul_correct (a b : secp256k1_fe) :
  fe_mag 8 a → fe_mag 8 b →
  fe_mag 1 (secp256k1_fe_mul a b) ∧ fe_val (secp256k1_fe_mul a b) mod secp_p = (fe_val a * fe_val b) mod secp_p ∧
  secp256k1_fe_sqr a = secp256k1_fe_mul a a.
Proof.
  intros Ha Hb. destruct (fe_mul_spec a b Ha Hb) as [Hm Ev]. split_and!; [done|done|]. by apply fe_sqr_inner_mul.
Qed.

(** all the normalizations agree and are reduction modulo the characteristic.  For every magnitude up to 2047
    the constant-time and the variable-time one return the one normalized element with the value
    reduced, the weak one an element of magnitude 1 of the same residue, and both tests for zero answer
    whether the residue is zero. *)
Theorem field_normalize_correct (r : secp256k1_fe) :
  fe_mag 2047 r →
  fe_norm (secp256k1_fe_normalize r) ∧ fe_val (secp256k1_fe_normalize r) = fe_val r mod secp_p ∧
  secp256k1_fe_normalize_var r = secp256k1_fe_normalize r ∧
  fe_mag 1 (secp256k1_fe_normalize_weak r) ∧ fe_val (secp256k1_fe_normalize_weak r) mod secp_p = fe_val r mod secp_p ∧
  secp256k1_fe_normalizes_to_zero r = (fe_val r mod secp_p =? 0) ∧
  secp256k1_fe_normalizes_to_zero_var r = (fe_val r mod secp_p =? 0).
Proof.
  intros Hm. destruct (fe_normalize_spec r Hm) as [Hn Ev]. rewrite fe_normalizes_to_zero_var_eq, fe_normalizes_to_zero_spec by done.
  split_and!; try done; [by apply fe_normalize_var_eq|apply (fe_normalize_weak_spec r Hm)..].
Qed.

(** writing an element to 32 bytes and reading it back, and writing it to its storage form and reading it back, give
    the same element; reading 32 bytes fails exactly on the numbers not below the characteristic, and
    what is read writes back to the same bytes. *)
Theorem field_codecs_roundtrip (a : secp256k1_fe) (b : list Z) :
  fe_norm a → bytes_ok b → length b = 32%nat →
  secp256k1_fe_set_b32 (secp256k1_fe_get_b32 a) = (a, true) ∧
  secp256k1_fe_from_storage (secp256k1_fe_to_storage a) = a ∧
  (secp256k1_fe_set_b32 b).2 = (be_val b <? secp_p) ∧
  ((secp256k1_fe_set_b32 b).2 = true → fe_norm (secp256k1_fe_set_b32 b).1 ∧ secp256k1_fe_get_b32 (secp256k1_fe_set_b32 b).1 = b).
Proof.
  intros Ha Hb Hl. pose proof (fe_set_b32_spec b Hb Hl) as Hs. destruct (secp256k1_fe_set_b32 b) as [r ok] eqn:E.
  split_and!; [by apply fe_b32_roundtrip|by apply fe_storage_roundtrip|apply Hs|].
  cbn [fst snd]. intros ->. by apply fe_b32_roundtrip'.
Qed.

(** An element of magnitude 2048, which [secp256k1_fe_verify] still accepts, wraps in the first pass. *)
Lemma fe_normalize_2048 :
  let a := MkFe (M52 * 4096) 0 0 0 (M48 * 4096) in
  fe_mag 2048 a ∧ fe_val (secp256k1_fe_normalize a) ≠ fe_val a mod secp_p.
Proof. split; [unfold fe_mag, M52, M48; cbn; lia|]. by vm_compute. Qed.

(** ** Witnesses *)

Definition demo_fe : secp256k1_fe := MkFe (M52 * 16) 5 (M52 * 7) 0 (M48 * 16).

Lemma demo_fe_mag : fe_mag 8 demo_fe.
Proof. unfold fe_mag, demo_fe, M52, M48. cbn. lia. Qed.

Lemma field_mul_correct_witness : fe_val (secp256k1_fe_mul demo_fe demo_fe) mod secp_p = (fe_val demo_fe * fe_val demo_fe) mod secp_p.
Proof. apply (field_mul_correct demo_fe demo_fe); apply demo_fe_mag. Defined.

Lemma field_normalize_correct_witness : fe_val (secp256k1_fe_normalize demo_fe) = fe_val demo_fe mod secp_p.
Proof. apply (field_normalize_correct demo_fe). apply (fe_mag_le 8); [lia|apply demo_fe_mag]. Defined.

Lemma field_codecs_roundtrip_witness :
  secp256k1_fe_set_b32 (secp256k1_fe_get_b32 (secp256k1_fe_set_int 7)) = (secp256k1_fe_set_int 7, true).
Proof.
  apply (field_codecs_roundtrip (secp256k1_fe_set_int 7) (replicate 32 255)); [|by apply bytes_okb_ok|done].
  apply fe_set_int_spec. lia.
Defined.
