(* ===== verification/Primes.v ===== *)
(** * Primality of the secp256k1 field characteristic and group order

    The square root and the inverse of the field, and the inverse of a scalar, are powers, and are right because
    the moduli are prime.  Pocklington's criterion reduces a primality to that of a factor of
    [p - 1], and so on down to primes small enough for trial division; the certificates are
    checked by computing powers. *)

From Stdlib Require Import ZArith Lia Zdivisibility Zmod.
From S2P Require Import Prelude.

Open Scope Z_scope.


(** ** Modular powers, by repeated squaring

    [red] keeps the numbers small; any function that preserves the residue will do. *)

Fixpoint pow_red (red : Z → Z) (a : Z) (e : positive) : Z :=
  match e with
  | xH => red a
  | xO e' => let r := pow_red red a e' in red (r * r)
  | xI e' => let r := pow_red red a e' in red (red (r * r) * a)
  end.

Lemma pow_red_spec (red : Z → Z) (m a : Z) (e : positive) :
  (∀ x, red x mod m = x mod m) → pow_red red a e mod m = a ^ Zpos e mod m.
Proof.
  intros Hr. assert (∀ e : positive, Zpos (xO e) = Zpos e + Zpos e) as Ho by lia.
  assert (∀ e : positive, Zpos (xI e) = Zpos e + Zpos e + 1) as Hi by lia.
  induction e as [e IH|e IH|]; cbn [pow_red].
  - rewrite Hr, Hi, !Z.pow_add_r, Z.pow_1_r by lia. rewrite <- Zmult_mod_idemp_l, Hr, Zmult_mod_idemp_l.
    rewrite <- Z.mul_assoc, Zmult_mod, IH. rewrite (Zmult_mod _ a), IH, <- (Zmult_mod (a ^ _) a). by rewrite <- Zmult_mod, Z.mul_assoc.
  - rewrite Hr, Ho, Z.pow_add_r, Zmult_mod, IH by lia. by rewrite <- Zmult_mod.
  - by rewrite Hr, Z.pow_1_r.
Qed.

(** For a modulus that divides 2^256 - [c], fold the bits above 256 onto the lower ones; for a product of two numbers just
    above 2^256, twice. *)
Definition fold256 (c x : Z) : Z :=
  Z.land x 0xFFFFFFFFFFFFFFFFFFFFFFFFFFFFFFFFFFFFFFFFFFFFFFFFFFFFFFFFFFFFFFFF + Z.shiftr x 256 * c.
Definition fold_twice (c x : Z) : Z := fold256 c (fold256 c x).

Lemma fold256_spec (c m x : Z) : 0 < m → (m | 2 ^ 256 - c) → fold256 c x mod m = x mod m.
Proof.
  intros Hm [k Hk]. unfold fold256. change (Z.pos _) with (2 ^ 256 - 1) at 1. rewrite land_ones_mod, Z.shiftr_div_pow2 by lia.
  rewrite (Z.div_mod x (2 ^ 256)) at 3 by done. generalize (x / 2 ^ 256) (x mod 2 ^ 256). intros q r.
  replace (2 ^ 256 * q + r) with (r + q * c + q * k * m) by lia. by rewrite Z_mod_plus_full.
Qed.

Lemma fold_twice_spec (c m x : Z) : 0 < m → (m | 2 ^ 256 - c) → fold_twice c x mod m = x mod m.
Proof. intros Hm Hd. unfold fold_twice. by rewrite !(fold256_spec c m). Qed.

(** ** Prime divisors *)

Lemma prime_divisor (b : Z) : 2 <= b → ∃ s, Z.prime s ∧ (s | b).
Proof.
  intros Hb. destruct (list_find (λ d, b mod d = 0) (seqZ 2 (b - 1))) as [[i s]|] eqn:E.
  - apply list_find_Some in E as (Hi & Hd & Hmin). apply lookup_seqZ in Hi as [-> Hi].
    apply Z.mod_divide in Hd; [|lia]. exists (2 + i). split; [|done]. split; [lia|].
    intros a Ha Hda. apply (Hmin (Z.to_nat (a - 2)) a); [apply lookup_seqZ; lia|lia|]. apply Z.mod_divide; [lia|by etrans].
  - apply list_find_None in E. rewrite Forall_forall in E. exfalso. apply (E b); [|apply Z_mod_same_full].
    apply list_elem_of_In, elem_of_seqZ. lia.
Qed.

(** A number without a prime divisor up to its square root is prime. *)
Lemma prime_sqrt (n : Z) : 2 <= n → (∀ s, Z.prime s → (s | n) → n < s * s) → Z.prime n.
Proof.
  intros Hn H. split; [lia|]. intros a Ha [c Hc].
  assert (∀ b, 2 <= b → b * b <= n → (b | n) → False) as Hb.
  { intros b Hb Hbb Hd. destruct (prime_divisor b Hb) as (s & Hs & Hsb). pose proof (Z.prime_ge_2 s Hs).
    assert (s <= b) by (apply Z.divide_pos_le; [lia|done]).
    specialize (H s Hs ltac:(by etrans)). nia. }
  destruct (Z.le_gt_cases a c).
  - apply (Hb a); [lia|nia|by exists c].
  - apply (Hb c); [nia|nia|exists a; lia].
Qed.

(** ** Pocklington's criterion *)

(** For a prime [q] with [n - 1 = k * q]: an [a] of which the power [n - 1] is 1 modulo [n] while the power [k]
    minus 1 has no common factor with [n] *)
Definition pocklington_base (red : Z → Z) (n a : Z) (k q : positive) : bool :=
  (n - 1 =? Zpos k * Zpos q) &&
  let b := pow_red red a k in (pow_red red b q mod n =? 1) && (Z.gcd (b mod n - 1) n =? 1).

Lemma pocklington_divides (red : Z → Z) (n a s : Z) (k q : positive) :
  2 <= n → (∀ x, red x mod n = x mod n) → Z.prime (Zpos q) → pocklington_base red n a k q = true → Z.prime s → (s | n) → (Zpos q | s - 1).
Proof.
  intros Hn Hr Hq Hb Hs Hsn. unfold pocklington_base in Hb. rewrite !andb_true_iff, !Z.eqb_eq in Hb. destruct Hb as (Ek & H1 & Hg).
  pose proof (Z.prime_ge_2 _ Hq). pose proof (Z.prime_ge_2 s Hs). generalize dependent (pow_red red a k). intros b H1 Hg.
  rewrite (pow_red_spec red n b q Hr) in H1. clear Ek. remember (Zpos q) as q' eqn:Eq. clear Eq q. rename q' into q.
  assert (b ^ q mod s = 1) as Hbq.
  { rewrite <- (Z.mod_mod_divide _ n s) by done. rewrite H1. apply Z.mod_small. lia. }
  assert (b mod s ≠ 1) as Hb1.
  { intros E. assert ((s | 1)) as Hs1; [|apply Z.divide_pos_le in Hs1; lia]. rewrite <- Hg. apply Z.gcd_greatest; [|done].
    apply Z.mod_divide; [lia|]. rewrite Zminus_mod, Z.mod_mod_divide, E by done. rewrite (Z.mod_small 1), Z.sub_diag by lia. apply Z.mod_0_l. lia. }
  assert (b mod s ≠ 0) as Hb0.
  { intros E. rewrite <- Z.mod_pow_l, E, Z.pow_0_l, Z.mod_0_l in Hbq by lia. lia. }
  pose proof (Z.fermat_nz s b Hs Hb0) as Hf.
  destruct (Z.BoolSpec_divide q (s - 1)) as [?|Hnd]; [done|exfalso]. apply Hb1.
  pose proof (Z.coprime_prime_l q (s - 1) Hq Hnd) as Hc.
  destruct (Z.gcd_bezout q (s - 1) 1 Hc) as (u & v & Euv). set (w := u mod (s - 1) + (s - 1)).
  pose proof (Z.mod_pos_bound u (s - 1) ltac:(lia)). pose proof (Z.div_mod u (s - 1) ltac:(lia)) as Eu.
  set (v' := (- v) + q * (1 - u / (s - 1))). assert (w * q = 1 + v' * (s - 1)) as Ew.
  { unfold w, v'. rewrite Z.mod_eq by lia. clear - Euv. generalize (u / (s - 1)). intros. lia. }
  assert (0 <= v') by (unfold w in *; nia).
  assert (b ^ (w * q) mod s = 1) as E1.
  { rewrite (Z.mul_comm w), Z.pow_mul_r, <- Z.mod_pow_l, Hbq, Z.pow_1_l by (unfold w; lia). apply Z.mod_small. lia. }
  rewrite Ew, Z.pow_add_r, Z.pow_1_r, (Z.mul_comm v'), Z.pow_mul_r in E1 by nia.
  rewrite <- Zmult_mod_idemp_r, <- (Z.mod_pow_l (b ^ (s - 1))), Hf, Z.pow_1_l, Z.mul_mod_idemp_r, Z.mul_1_r in E1 by lia. done.
Qed.

Lemma prime_divides_product (q : Z) (l : list Z) : Z.prime q → Forall Z.prime l → (q | foldr Z.mul 1 l) → q ∈ l.
Proof.
  intros Hq Hl. induction Hl as [|x l Hx Hl IH]; cbn.
  - intros H%Z.divide_1_r. pose proof (Z.prime_ge_2 q Hq). lia.
  - intros [H|H]%Z.divide_prime_mul; [|by apply list_elem_of_further, IH|done]. apply Z.divide_prime_prime in H; [|done..]. subst. apply list_elem_of_here.
Qed.

(** Each certificate is a prime with a base and the cofactor. *)
Lemma pocklington (red : Z → Z) (n : Z) (certs : list (positive * (Z * positive))) :
  2 <= n → (∀ x, red x mod n = x mod n) →
  Forall (λ '(q, (a, k)), Z.prime (Zpos q) ∧ pocklington_base red n a k q = true) certs → NoDup (Zpos <$> certs.*1) →
  n < foldr Z.mul 1 (Zpos <$> certs.*1) * foldr Z.mul 1 (Zpos <$> certs.*1) → Z.prime n.
Proof.
  intros Hn Hr Hc Hnd HF. apply prime_sqrt; [done|]. intros s Hs Hsn. pose proof (Z.prime_ge_2 s Hs).
  assert ((foldr Z.mul 1 (Zpos <$> certs.*1) | s - 1) ∧ 0 < foldr Z.mul 1 (Zpos <$> certs.*1)) as [Hd Hp].
  { clear HF. induction Hc as [|[q [a k]] certs [Hq Hb] Hc IH]; [split; [apply Z.divide_1_l|cbn; lia]|]. rewrite !fmap_cons in *.
    apply list.NoDup_cons in Hnd as [Hq' Hnd]. destruct (IH Hnd) as [IHd IHp]. pose proof (Z.prime_ge_2 _ Hq). cbn [foldr fst].
    set (F := foldr _ _ _) in *. split; [|lia]. destruct (pocklington_divides red n a s k q Hn Hr Hq Hb Hs Hsn) as [c Hqs].
    assert (¬ (Zpos q | F)) as Hnq.
    { intros Hdq. apply Hq', prime_divides_product; [done| |done]. apply Forall_fmap, Forall_fmap.
      eapply list.Forall_impl; [exact Hc|]. by intros [? [? ?]] [? ?]. }
    destruct IHd as [d Hd]. rewrite Hqs in Hd. assert ((F | c)) as [e ->].
    { apply (Z.gauss _ (Zpos q)); [exists d; lia|]. apply Z.Symmetric_coprime. by apply Z.coprime_prime_l. }
    exists e. lia. }
  apply Z.divide_pos_le in Hd; [nia|lia].
Qed.

(** ** Trial division, for the small primes *)

Definition no_small_divisor (n : Z) : bool := forallb (λ d, negb (n mod d =? 0)) (seqZ 2 (Z.sqrt n - 1)).

Lemma trial_prime (n : Z) : 2 <= n → no_small_divisor n = true → Z.prime n.
Proof.
  intros Hn Hd. apply prime_sqrt; [done|]. intros s Hs [c Hc]. pose proof (Z.prime_ge_2 s Hs).
  destruct (Z.lt_ge_cases n (s * s)) as [?|Hss]; [done|exfalso].
  unfold no_small_divisor in Hd. rewrite forallb_forall in Hd. specialize (Hd s).
  rewrite <- list_elem_of_In, elem_of_seqZ, negb_true_iff, Z.eqb_neq in Hd. apply Hd.
  - pose proof (Z.sqrt_le_mono _ _ Hss) as Hq. rewrite Z.sqrt_square in Hq by lia. lia.
  - rewrite Hc. apply Z_mod_mult.
Qed.

(** ** The characteristic of the field of secp256k1 *)

Lemma prime_small (q : Z) : q ∈ [7; 29; 53; 1627; 2657; 4423; 41201; 96557] → Z.prime q.
Proof.
  assert (Forall (λ n, (2 <=? n) && no_small_divisor n = true) [7; 29; 53; 1627; 2657; 4423; 41201; 96557]) as H
    by (apply (bool_decide_unpack _); by vm_compute).
  rewrite Forall_forall in H. intros Hq%list_elem_of_In. specialize (H q Hq). bool_to_prop. by apply trial_prime.
Qed.

Lemma prime_107590001 : Z.prime 107590001.
Proof.
  apply (pocklington (λ x, x mod 107590001) _ [(53%positive, (2, 2030000%positive)); (29%positive, (2, 3710000%positive)); (7%positive, (2, 15370000%positive))]);
    [lia|intros; by apply Z.mod_mod| |by apply (bool_decide_unpack _); vm_compute|by vm_compute].
  do 3 (apply list.Forall_cons; split; [split; [apply prime_small, (bool_decide_unpack _); by vm_compute|by vm_compute]|]). constructor.
Qed.

Lemma prime_128 : Z.prime 255515944373312847190720520512484175977.
Proof.
  apply (pocklington (λ x, x mod 255515944373312847190720520512484175977) _
    [(107590001%positive, (2, 2374904191824599455024826335976%positive)); (96557%positive, (2, 2646270538369179315748423423599368%positive));
     (41201%positive, (2, 6201692783507993669831327407404776%positive)); (1627%positive, (2, 157047292177819820031174259688066488%positive))]);
    [lia|intros; by apply Z.mod_mod| |by apply (bool_decide_unpack _); vm_compute|by vm_compute].
  apply list.Forall_cons. split; [split; [exact prime_107590001|by vm_compute]|].
  do 3 (apply list.Forall_cons; split; [split; [apply prime_small, (bool_decide_unpack _); by vm_compute|by vm_compute]|]). constructor.
Qed.

(** 205115282021455665897114700593932402728804164701536103180137503955397371 * 564522 = 2^256 - (2^32 + 978) *)
Lemma prime_237 : Z.prime 205115282021455665897114700593932402728804164701536103180137503955397371.
Proof.
  apply (pocklington (fold_twice (2 ^ 32 + 978)) _ [(255515944373312847190720520512484175977%positive, (2, 802749442992798076634733441528810%positive))]);
    [lia|intros; by apply fold_twice_spec; [|exists 564522]| |by apply (bool_decide_unpack _); vm_compute|by vm_compute].
  constructor; [|constructor]. split; [exact prime_128|by vm_compute].
Qed.

(** 2^256 - 2^32 - 977 *)
Lemma prime_field : Z.prime 0xFFFFFFFFFFFFFFFFFFFFFFFFFFFFFFFFFFFFFFFFFFFFFFFFFFFFFFFEFFFFFC2F.
Proof.
  apply (pocklington (fold_twice (2 ^ 32 + 977)) _
    [(205115282021455665897114700593932402728804164701536103180137503955397371%positive, (2, 564522%positive))]);
    [lia|intros; by apply fold_twice_spec; [|exists 1]| |by apply (bool_decide_unpack _); vm_compute|by vm_compute].
  constructor; [|constructor]. split; [exact prime_237|by vm_compute].
Qed.

(** ** The order of the group *)

Lemma prime_small_order (q : Z) : q ∈ [1871; 9349; 28181; 120233] → Z.prime q.
Proof.
  assert (Forall (λ n, (2 <=? n) && no_small_divisor n = true) [1871; 9349; 28181; 120233]) as H by (apply (bool_decide_unpack _); by vm_compute).
  rewrite Forall_forall in H. intros Hq%list_elem_of_In. specialize (H q Hq). bool_to_prop. by apply trial_prime.
Qed.

(** A certificate with a single prime *)
Lemma pocklington_single (n a : Z) (k q : positive) :
  Z.prime (Zpos q) → (2 <=? n) && pocklington_base (λ x, x mod n) n a k q && (n <? Zpos q * Zpos q) = true → Z.prime n.
Proof.
  intros Hq [[Hn%Z.leb_le Hb]%andb_true_iff Hlt%Z.ltb_lt]%andb_true_iff.
  apply (pocklington (λ x, x mod n) n [(q, (a, k))]); [done|intros; apply Z.mod_mod; lia| |apply NoDup_singleton|cbn; lia].
  constructor; [done|constructor].
Qed.

Lemma prime_order_68 : Z.prime 174723607534414371449.
Proof.
  apply (pocklington (λ x, x mod 174723607534414371449) _ [(44706919%positive, (2, 3908200597192%positive)); (120233%positive, (2, 1453208416444856%positive))]);
    [lia|intros; by apply Z.mod_mod| |by apply (bool_decide_unpack _); vm_compute|by vm_compute].
  repeat (apply list.Forall_cons; split; [split; [|by vm_compute]|]); [| |constructor].
  - apply (pocklington_single _ 2 4782 9349); [|by vm_compute]. apply prime_small_order, (bool_decide_unpack _). by vm_compute.
  - apply prime_small_order, (bool_decide_unpack _). by vm_compute.
Qed.

Lemma prime_order_95 : Z.prime 29047611873442575647497758179.
Proof.
  apply (pocklington (λ x, x mod 29047611873442575647497758179) _
    [(297159362677%positive, (2, 97750956294169114%positive)); (545358713%positive, (2, 53263313083699784306%positive))]);
    [lia|intros; by apply Z.mod_mod| |by apply (bool_decide_unpack _); vm_compute|by vm_compute].
  repeat (apply list.Forall_cons; split; [split; [|by vm_compute]|]); [| |constructor].
  - apply (pocklington_single _ 2 182556 1627771); [|by vm_compute]. apply (pocklington_single _ 2 870 1871); [|by vm_compute].
    apply prime_small_order, (bool_decide_unpack _). by vm_compute.
  - apply (pocklington_single _ 2 19352 28181); [|by vm_compute]. apply prime_small_order, (bool_decide_unpack _). by vm_compute.
Qed.

Lemma prime_order_109 : Z.prime 341948486974166000522343609283189.
Proof. apply (pocklington_single _ 2 11772 29047611873442575647497758179); [exact prime_order_95|by vm_compute]. Qed.

Definition fold_thrice (c x : Z) : Z := fold256 c (fold_twice c x).

Lemma prime_order : Z.prime 0xFFFFFFFFFFFFFFFFFFFFFFFFFFFFFFFEBAAEDCE6AF48A03BBFD25E8CD0364141.
Proof.
  apply (pocklington (fold_thrice 0x14551231950B75FC4402DA1732FC9BEBF) _
    [(341948486974166000522343609283189%positive, (2, 338624364920977752681389262317185522840540224%positive));
     (174723607534414371449%positive, (2, 662715765037699607481235088557493206623080876315205958464%positive))]);
    [lia|intros; unfold fold_thrice; by rewrite fold256_spec, fold_twice_spec; [|done|exists 1|done|exists 1]| |by apply (bool_decide_unpack _); vm_compute|by vm_compute].
  repeat (apply list.Forall_cons; split; [split; [|by vm_compute]|]); [exact prime_order_109|exact prime_order_68|constructor].
Qed.
