(* ===== verification/Scalar4x64.v ===== *)
(** * Scalars of the curve ([src/src/secp256k1/src/scalar_4x64_impl.h], [scalar_impl.h])

    Integers modulo the order of the group, in four 64-bit limbs.  Products are accumulated column by column in
    three words and reduced from 512 to 256 bits by folding three times; the portable code is modelled, not the assembly.
    The theorems show that the operations compute modulo the order, that no column overflows its accumulator,
    and that the addition chain of [secp256k1_scalar_inverse] inverts, since the order is prime. *)

From Stdlib Require Import ZArith Lia Zdivisibility Zmod.
From S2P Require Import Prelude Common Field5x52 Primes.

Open Scope Z_scope.

Record secp256k1_scalar := MkScalar { sc_d0 : Z; sc_d1 : Z; sc_d2 : Z; sc_d3 : Z }.

Definition SECP256K1_N_0 : Z := 0xBFD25E8CD0364141.
Definition SECP256K1_N_1 : Z := 0xBAAEDCE6AF48A03B.
Definition SECP256K1_N_2 : Z := 0xFFFFFFFFFFFFFFFE.
Definition SECP256K1_N_3 : Z := 0xFFFFFFFFFFFFFFFF.

Definition not64 (x : Z) : Z := u64 (Z.lnot x).

Definition SECP256K1_N_C_0 : Z := u64 (not64 SECP256K1_N_0 + 1).
Definition SECP256K1_N_C_1 : Z := not64 SECP256K1_N_1.
Definition SECP256K1_N_C_2 : Z := 1.

Definition SECP256K1_N_H_0 : Z := 0xDFE92F46681B20A0.
Definition SECP256K1_N_H_1 : Z := 0x5D576E7357A4501D.
Definition SECP256K1_N_H_2 : Z := 0xFFFFFFFFFFFFFFFF.
Definition SECP256K1_N_H_3 : Z := 0x7FFFFFFFFFFFFFFF.

(** The limb an index computed from a bit offset selects *)
Definition sc_limb (a : secp256k1_scalar) (i : Z) : Z :=
  match i with 0 => sc_d0 a | 1 => sc_d1 a | 2 => sc_d2 a | _ => sc_d3 a end.

Definition secp256k1_scalar_clear : secp256k1_scalar := MkScalar 0 0 0 0.
Definition secp256k1_scalar_set_int (v : Z) : secp256k1_scalar := MkScalar v 0 0 0.

Definition secp256k1_scalar_get_bits (a : secp256k1_scalar) (offset count : Z) : Z :=
  u32 ((sc_limb a (offset .>> 6) .>> (offset .& 0x3F)) .& (u64 (1 .<< count) - 1)).

Definition secp256k1_scalar_get_bits_var (a : secp256k1_scalar) (offset count : Z) : Z :=
  if (offset + count - 1) .>> 6 =? offset .>> 6 then secp256k1_scalar_get_bits a offset count
  else u32 (((sc_limb a (offset .>> 6) .>> (offset .& 0x3F)) .|
             u64 (sc_limb a ((offset .>> 6) + 1) .<< (64 - (offset .& 0x3F)))) .& (u64 (1 .<< count) - 1)).

Definition secp256k1_scalar_check_overflow (a : secp256k1_scalar) : bool :=
  let no := sc_d3 a <? SECP256K1_N_3 in
  let no := no || (sc_d2 a <? SECP256K1_N_2) in
  let yes := (SECP256K1_N_2 <? sc_d2 a) && negb no in
  let no := no || (sc_d1 a <? SECP256K1_N_1) in
  let yes := yes || ((SECP256K1_N_1 <? sc_d1 a) && negb no) in
  yes || ((SECP256K1_N_0 <=? sc_d0 a) && negb no).

(** The limbs of a sum of columns, each carried into the next: [r->d[i] = t & 0xFF...; t >>= 64] *)
Definition sc_carry (t0 t1 t2 t3 : Z) : secp256k1_scalar * Z :=
  let t := t0 in
  let r0 := t .& 0xFFFFFFFFFFFFFFFF in
  let t := u128 ((t .>> 64) + t1) in
  let r1 := t .& 0xFFFFFFFFFFFFFFFF in
  let t := u128 ((t .>> 64) + t2) in
  let r2 := t .& 0xFFFFFFFFFFFFFFFF in
  let t := u128 ((t .>> 64) + t3) in
  let r3 := t .& 0xFFFFFFFFFFFFFFFF in
  (MkScalar r0 r1 r2 r3, t .>> 64).

Definition secp256k1_scalar_reduce (r : secp256k1_scalar) (overflow : Z) : secp256k1_scalar :=
  (sc_carry (u128 (sc_d0 r + u64 (overflow * SECP256K1_N_C_0))) (u128 (sc_d1 r + u64 (overflow * SECP256K1_N_C_1)))
     (u128 (sc_d2 r + u32 (overflow * SECP256K1_N_C_2))) (sc_d3 r)).1.

Definition secp256k1_scalar_add (a b : secp256k1_scalar) : secp256k1_scalar * Z :=
  let '(r, t) := sc_carry (u128 (sc_d0 a + sc_d0 b)) (u128 (sc_d1 a + sc_d1 b)) (u128 (sc_d2 a + sc_d2 b)) (u128 (sc_d3 a + sc_d3 b)) in
  let overflow := t + Z.b2z (secp256k1_scalar_check_overflow r) in
  (secp256k1_scalar_reduce r overflow, overflow).

(** One limb from eight bytes, most significant first *)
Definition sc_read (b : list Z) (i : nat) : Z :=
  b.[i + 7] .| (b.[i + 6] .<< 8) .| (b.[i + 5] .<< 16) .| (b.[i + 4] .<< 24) .| (b.[i + 3] .<< 32) .| (b.[i + 2] .<< 40)
  .| (b.[i + 1] .<< 48) .| (b.[i] .<< 56).

(** The scalar and [*overflow] *)
Definition secp256k1_scalar_set_b32 (b32 : list Z) : secp256k1_scalar * bool :=
  let r := MkScalar (sc_read b32 24) (sc_read b32 16) (sc_read b32 8) (sc_read b32 0) in
  let over := secp256k1_scalar_check_overflow r in
  (secp256k1_scalar_reduce r (Z.b2z over), over).

Definition sc_write (d : Z) : list Z :=
  [u8 (d .>> 56); u8 (d .>> 48); u8 (d .>> 40); u8 (d .>> 32); u8 (d .>> 24); u8 (d .>> 16); u8 (d .>> 8); u8 d].

Definition secp256k1_scalar_get_b32 (a : secp256k1_scalar) : list Z :=
  sc_write (sc_d3 a) ++ sc_write (sc_d2 a) ++ sc_write (sc_d1 a) ++ sc_write (sc_d0 a).

Definition secp256k1_scalar_is_zero (a : secp256k1_scalar) : bool := sc_d0 a .| sc_d1 a .| sc_d2 a .| sc_d3 a =? 0.

(** [r->d[i] = t & nonzero; t >>= 64] *)
Definition sc_carry_masked (nonzero t0 t1 t2 t3 : Z) : secp256k1_scalar :=
  let t := t0 in
  let r0 := t .& nonzero in
  let t := u128 ((t .>> 64) + t1) in
  let r1 := t .& nonzero in
  let t := u128 ((t .>> 64) + t2) in
  let r2 := t .& nonzero in
  let t := u128 ((t .>> 64) + t3) in
  let r3 := t .& nonzero in
  MkScalar r0 r1 r2 r3.

Definition secp256k1_scalar_negate (a : secp256k1_scalar) : secp256k1_scalar :=
  let nonzero := u64 (0xFFFFFFFFFFFFFFFF * Z.b2z (negb (secp256k1_scalar_is_zero a))) in
  sc_carry_masked nonzero (u128 (not64 (sc_d0 a) + SECP256K1_N_0 + 1)) (u128 (not64 (sc_d1 a) + SECP256K1_N_1))
    (u128 (not64 (sc_d2 a) + SECP256K1_N_2)) (u128 (not64 (sc_d3 a) + SECP256K1_N_3)).

Definition secp256k1_scalar_is_high (a : secp256k1_scalar) : bool :=
  let no := sc_d3 a <? SECP256K1_N_H_3 in
  let yes := (SECP256K1_N_H_3 <? sc_d3 a) && negb no in
  let no := no || ((sc_d2 a <? SECP256K1_N_H_2) && negb yes) in
  let no := no || ((sc_d1 a <? SECP256K1_N_H_1) && negb yes) in
  let yes := yes || ((SECP256K1_N_H_1 <? sc_d1 a) && negb no) in
  yes || ((SECP256K1_N_H_0 <? sc_d0 a) && negb no).

(** The scalar, and -1 if it was negated *)
Definition secp256k1_scalar_cond_negate (r : secp256k1_scalar) (flag : bool) : secp256k1_scalar * Z :=
  let mask := u64 (Z.b2z (negb flag) - 1) in
  let nonzero := u64 (Z.b2z (secp256k1_scalar_is_zero r) - 1) in
  (sc_carry_masked nonzero (u128 ((sc_d0 r .^ mask) + ((SECP256K1_N_0 + 1) .& mask))) (u128 ((sc_d1 r .^ mask) + (SECP256K1_N_1 .& mask)))
     (u128 ((sc_d2 r .^ mask) + (SECP256K1_N_2 .& mask))) (u128 ((sc_d3 r .^ mask) + (SECP256K1_N_3 .& mask))),
   2 * Z.b2z (mask =? 0) - 1).

(** ** The accumulator of the columns

    [c0], [c1] and [c2], the last of [w] bits *)

Record column := MkColumn { col_0 : Z; col_1 : Z; col_2 : Z }.

Section Columns.
Context (w : Z).

Definition muladd (a b : Z) (c : column) : column :=
  let t := u128 (a * b) in
  let th := t .>> 64 in
  let tl := u64 t in
  let c0 := u64 (col_0 c + tl) in
  let th := u64 (th + (if c0 <? tl then 1 else 0)) in
  let c1 := u64 (col_1 c + th) in
  MkColumn c0 c1 (wrap w (col_2 c + (if c1 <? th then 1 else 0))).

Definition muladd_fast (a b : Z) (c : column) : column :=
  let t := u128 (a * b) in
  let th := t .>> 64 in
  let tl := u64 t in
  let c0 := u64 (col_0 c + tl) in
  let th := u64 (th + (if c0 <? tl then 1 else 0)) in
  MkColumn c0 (u64 (col_1 c + th)) (col_2 c).

Definition muladd2 (a b : Z) (c : column) : column :=
  let t := u128 (a * b) in
  let th := t .>> 64 in
  let tl := u64 t in
  let th2 := u64 (th + th) in
  let c2 := wrap w (col_2 c + (if th2 <? th then 1 else 0)) in
  let tl2 := u64 (tl + tl) in
  let th2 := u64 (th2 + (if tl2 <? tl then 1 else 0)) in
  let c0 := u64 (col_0 c + tl2) in
  let th2 := u64 (th2 + (if c0 <? tl2 then 1 else 0)) in
  let c2 := wrap w (c2 + Z.b2z ((c0 <? tl2) && (th2 =? 0))) in
  let c1 := u64 (col_1 c + th2) in
  MkColumn c0 c1 (wrap w (c2 + (if c1 <? th2 then 1 else 0))).

Definition sumadd (a : Z) (c : column) : column :=
  let c0 := u64 (col_0 c + a) in
  let over := if c0 <? a then 1 else 0 in
  let c1 := u64 (col_1 c + over) in
  MkColumn c0 c1 (wrap w (col_2 c + (if c1 <? over then 1 else 0))).

Definition sumadd_fast (a : Z) (c : column) : column :=
  let c0 := u64 (col_0 c + a) in
  MkColumn c0 (u64 (col_1 c + (if c0 <? a then 1 else 0))) (col_2 c).

Definition extract (c : column) : Z * column := (col_0 c, MkColumn (col_1 c) (col_2 c) 0).
Definition extract_fast (c : column) : Z * column := (col_0 c, MkColumn (col_1 c) 0 (col_2 c)).
End Columns.

(** With a 64-bit [c2] *)
Definition secp256k1_scalar_reduce_512 (l : list Z) : secp256k1_scalar :=
  let n0 := l.[4] in let n1 := l.[5] in let n2 := l.[6] in let n3 := l.[7] in
  let c := MkColumn (l.[0]) 0 0 in
  let '(m0, c) := extract_fast (muladd_fast n0 SECP256K1_N_C_0 c) in
  let c := sumadd_fast (l.[1]) c in
  let '(m1, c) := extract (muladd 64 n0 SECP256K1_N_C_1 (muladd 64 n1 SECP256K1_N_C_0 c)) in
  let c := sumadd 64 (l.[2]) c in
  let '(m2, c) := extract (sumadd 64 n0 (muladd 64 n1 SECP256K1_N_C_1 (muladd 64 n2 SECP256K1_N_C_0 c))) in
  let c := sumadd 64 (l.[3]) c in
  let '(m3, c) := extract (sumadd 64 n1 (muladd 64 n2 SECP256K1_N_C_1 (muladd 64 n3 SECP256K1_N_C_0 c))) in
  let '(m4, c) := extract (sumadd 64 n2 (muladd 64 n3 SECP256K1_N_C_1 c)) in
  let '(m5, c) := extract_fast (sumadd_fast n3 c) in
  let m6 := u32 (col_0 c) in
  let c := MkColumn m0 0 0 in
  let '(p0, c) := extract_fast (muladd_fast m4 SECP256K1_N_C_0 c) in
  let c := sumadd_fast m1 c in
  let '(p1, c) := extract (muladd 64 m4 SECP256K1_N_C_1 (muladd 64 m5 SECP256K1_N_C_0 c)) in
  let c := sumadd 64 m2 c in
  let '(p2, c) := extract (sumadd 64 m4 (muladd 64 m5 SECP256K1_N_C_1 (muladd 64 m6 SECP256K1_N_C_0 c))) in
  let c := sumadd_fast m3 c in
  let '(p3, c) := extract_fast (sumadd_fast m5 (muladd_fast m6 SECP256K1_N_C_1 c)) in
  let p4 := u32 (col_0 c + m6) in
  let '(r, c) := sc_carry (u128 (p0 + u128 (SECP256K1_N_C_0 * p4))) (u128 (p1 + u128 (SECP256K1_N_C_1 * p4))) (u128 (p2 + p4)) p3 in
  secp256k1_scalar_reduce r (u32 (c + Z.b2z (secp256k1_scalar_check_overflow r))).

(** With a 32-bit [c2] *)
Definition secp256k1_scalar_mul_512 (a b : secp256k1_scalar) : list Z :=
  let c := MkColumn 0 0 0 in
  let '(l0, c) := extract_fast (muladd_fast (sc_d0 a) (sc_d0 b) c) in
  let '(l1, c) := extract (muladd 32 (sc_d1 a) (sc_d0 b) (muladd 32 (sc_d0 a) (sc_d1 b) c)) in
  let '(l2, c) := extract (muladd 32 (sc_d2 a) (sc_d0 b) (muladd 32 (sc_d1 a) (sc_d1 b) (muladd 32 (sc_d0 a) (sc_d2 b) c))) in
  let '(l3, c) := extract (muladd 32 (sc_d3 a) (sc_d0 b) (muladd 32 (sc_d2 a) (sc_d1 b) (muladd 32 (sc_d1 a) (sc_d2 b)
                             (muladd 32 (sc_d0 a) (sc_d3 b) c)))) in
  let '(l4, c) := extract (muladd 32 (sc_d3 a) (sc_d1 b) (muladd 32 (sc_d2 a) (sc_d2 b) (muladd 32 (sc_d1 a) (sc_d3 b) c))) in
  let '(l5, c) := extract (muladd 32 (sc_d3 a) (sc_d2 b) (muladd 32 (sc_d2 a) (sc_d3 b) c)) in
  let '(l6, c) := extract_fast (muladd_fast (sc_d3 a) (sc_d3 b) c) in
  [l0; l1; l2; l3; l4; l5; l6; col_0 c].

Definition secp256k1_scalar_sqr_512 (a : secp256k1_scalar) : list Z :=
  let c := MkColumn 0 0 0 in
  let '(l0, c) := extract_fast (muladd_fast (sc_d0 a) (sc_d0 a) c) in
  let '(l1, c) := extract (muladd2 32 (sc_d0 a) (sc_d1 a) c) in
  let '(l2, c) := extract (muladd 32 (sc_d1 a) (sc_d1 a) (muladd2 32 (sc_d0 a) (sc_d2 a) c)) in
  let '(l3, c) := extract (muladd2 32 (sc_d1 a) (sc_d2 a) (muladd2 32 (sc_d0 a) (sc_d3 a) c)) in
  let '(l4, c) := extract (muladd 32 (sc_d2 a) (sc_d2 a) (muladd2 32 (sc_d1 a) (sc_d3 a) c)) in
  let '(l5, c) := extract (muladd2 32 (sc_d2 a) (sc_d3 a) c) in
  let '(l6, c) := extract_fast (muladd_fast (sc_d3 a) (sc_d3 a) c) in
  [l0; l1; l2; l3; l4; l5; l6; col_0 c].

Definition secp256k1_scalar_mul (a b : secp256k1_scalar) : secp256k1_scalar := secp256k1_scalar_reduce_512 (secp256k1_scalar_mul_512 a b).
Definition secp256k1_scalar_sqr (a : secp256k1_scalar) : secp256k1_scalar := secp256k1_scalar_reduce_512 (secp256k1_scalar_sqr_512 a).

Definition secp256k1_scalar_eq (a b : secp256k1_scalar) : bool :=
  (sc_d0 a .^ sc_d0 b) .| (sc_d1 a .^ sc_d1 b) .| (sc_d2 a .^ sc_d2 b) .| (sc_d3 a .^ sc_d3 b) =? 0.

(** [for (i = 0; i < n; i++) secp256k1_scalar_sqr(t, t)] *)
Definition sc_sqr_n (n : nat) (t : secp256k1_scalar) : secp256k1_scalar := Nat.iter n secp256k1_scalar_sqr t.

Definition secp256k1_scalar_inverse (x : secp256k1_scalar) : secp256k1_scalar :=
  let u2 := secp256k1_scalar_sqr x in
  let x2 := secp256k1_scalar_mul u2 x in
  let u5 := secp256k1_scalar_mul u2 x2 in
  let x3 := secp256k1_scalar_mul u5 u2 in
  let u9 := secp256k1_scalar_mul x3 u2 in
  let u11 := secp256k1_scalar_mul u9 u2 in
  let u13 := secp256k1_scalar_mul u11 u2 in
  let x6 := secp256k1_scalar_mul (sc_sqr_n 2 u13) u11 in
  let x8 := secp256k1_scalar_mul (sc_sqr_n 2 x6) x2 in
  let x14 := secp256k1_scalar_mul (sc_sqr_n 6 x8) x6 in
  let x28 := secp256k1_scalar_mul (sc_sqr_n 14 x14) x14 in
  let x56 := secp256k1_scalar_mul (sc_sqr_n 28 x28) x28 in
  let x112 := secp256k1_scalar_mul (sc_sqr_n 56 x56) x56 in
  let x126 := secp256k1_scalar_mul (sc_sqr_n 14 x112) x14 in
  let t := secp256k1_scalar_mul (sc_sqr_n 3 x126) u5 in
  let t := secp256k1_scalar_mul (sc_sqr_n 4 t) x3 in
  let t := secp256k1_scalar_mul (sc_sqr_n 4 t) u5 in
  let t := secp256k1_scalar_mul (sc_sqr_n 5 t) u11 in
  let t := secp256k1_scalar_mul (sc_sqr_n 4 t) u11 in
  let t := secp256k1_scalar_mul (sc_sqr_n 4 t) x3 in
  let t := secp256k1_scalar_mul (sc_sqr_n 5 t) x3 in
  let t := secp256k1_scalar_mul (sc_sqr_n 6 t) u13 in
  let t := secp256k1_scalar_mul (sc_sqr_n 4 t) u5 in
  let t := secp256k1_scalar_mul (sc_sqr_n 3 t) x3 in
  let t := secp256k1_scalar_mul (sc_sqr_n 5 t) u9 in
  let t := secp256k1_scalar_mul (sc_sqr_n 6 t) u5 in
  let t := secp256k1_scalar_mul (sc_sqr_n 10 t) x3 in
  let t := secp256k1_scalar_mul (sc_sqr_n 4 t) x3 in
  let t := secp256k1_scalar_mul (sc_sqr_n 9 t) x8 in
  let t := secp256k1_scalar_mul (sc_sqr_n 5 t) u9 in
  let t := secp256k1_scalar_mul (sc_sqr_n 6 t) u11 in
  let t := secp256k1_scalar_mul (sc_sqr_n 4 t) u13 in
  let t := secp256k1_scalar_mul (sc_sqr_n 5 t) x2 in
  let t := secp256k1_scalar_mul (sc_sqr_n 6 t) u13 in
  let t := secp256k1_scalar_mul (sc_sqr_n 10 t) u13 in
  let t := secp256k1_scalar_mul (sc_sqr_n 4 t) u9 in
  let t := secp256k1_scalar_mul (sc_sqr_n 6 t) x in
  secp256k1_scalar_mul (sc_sqr_n 8 t) x6.

(** With [USE_SCALAR_INV_BUILTIN], the build without a bignum library *)
Definition secp256k1_scalar_inverse_var (x : secp256k1_scalar) : secp256k1_scalar := secp256k1_scalar_inverse x.

(** ** Values *)

Definition secp_n : Z := 0xFFFFFFFFFFFFFFFFFFFFFFFFFFFFFFFEBAAEDCE6AF48A03BBFD25E8CD0364141.

Definition sc_words (a : secp256k1_scalar) : Prop := is_word 64 (sc_d0 a) ∧ is_word 64 (sc_d1 a) ∧ is_word 64 (sc_d2 a) ∧ is_word 64 (sc_d3 a).
Definition sc_val (a : secp256k1_scalar) : Z := sc_d0 a + sc_d1 a * 2 ^ 64 + sc_d2 a * 2 ^ 128 + sc_d3 a * 2 ^ 192.

(** A reduced scalar, as every function returns *)
Definition sc_ok (a : secp256k1_scalar) : Prop := sc_words a ∧ sc_val a < secp_n.

(** ** Columns *)

Definition col_ok (w : Z) (c : column) : Prop := is_word 64 (col_0 c) ∧ is_word 64 (col_1 c) ∧ is_word w (col_2 c).
Definition col_val (c : column) : Z := col_0 c + col_1 c * 2 ^ 64 + col_2 c * 2 ^ 128.

Lemma flag_range (b : bool) : 0 <= (if b then 1 else 0) <= 1.
Proof. destruct b; lia. Qed.

(** The sum of two words is the word and the carry the comparison finds. *)
Lemma add_carry (x y : Z) :
  is_word 64 x → is_word 64 y → u64 (x + y) + 2 ^ 64 * (if u64 (x + y) <? y then 1 else 0) = x + y ∧ is_word 64 (u64 (x + y)).
Proof.
  unfold is_word, u64, wrap. intros Hx Hy. pose proof (Z.mod_pos_bound (x + y) (2 ^ 64) ltac:(lia)). split; [|lia].
  destruct (Z.lt_ge_cases (x + y) (2 ^ 64)) as [Hs|Hs].
  - rewrite Z.mod_small in * by lia. destruct (Z.ltb_spec (x + y) y); lia.
  - rewrite <- (Z.mod_unique (x + y) (2 ^ 64) 1 (x + y - 2 ^ 64)) in * by lia. destruct (Z.ltb_spec (x + y - 2 ^ 64) y); lia.
Qed.

Lemma product_words (a b : Z) :
  is_word 64 a → is_word 64 b →
  let t := u128 (a * b) in
  is_word 64 (t .>> 64) ∧ is_word 64 (u64 t) ∧ u64 t + 2 ^ 64 * (t .>> 64) = a * b ∧ t .>> 64 <= 2 ^ 64 - 2.
Proof.
  unfold is_word. intros Ha Hb. assert (0 <= a * b <= (2 ^ 64 - 1) * (2 ^ 64 - 1)) by nia. cbv zeta.
  unfold u128. rewrite wrap_small by (unfold is_word; lia). generalize dependent (a * b). intros t Ht. unfold u64, wrap.
  rewrite Z.shiftr_div_pow2 by lia. pose proof (Z.div_mod t (2 ^ 64) ltac:(lia)). pose proof (Z.mod_pos_bound t (2 ^ 64) ltac:(lia)).
  split_and!; try lia.
Qed.

Section ColumnFacts.
Context (w : Z) (c : column) (Hc : col_ok w c).

Lemma muladd_spec (a b : Z) :
  is_word 64 a → is_word 64 b → col_val c + a * b < 2 ^ 128 * 2 ^ w → col_ok w (muladd w a b c) ∧ col_val (muladd w a b c) = col_val c + a * b.
Proof.
  intros Ha Hb Hlt. destruct (product_words a b Ha Hb) as (Hth & Htl & Et & Hm). unfold muladd.
  set (th := _ .>> 64) in *. set (tl := u64 (u128 _)) in *. clearbody th tl. destruct Hc as (H0 & H1 & H2).
  destruct (add_carry (col_0 c) tl H0 Htl) as [E0 W0]. set (c0 := u64 (col_0 c + tl)) in *.
  assert (is_word 64 (th + (if c0 <? tl then 1 else 0))) as Ht by (unfold is_word in *; destruct (c0 <? tl); lia).
  rewrite (wrap_small 64 _ Ht : u64 _ = _). destruct (add_carry (col_1 c) _ H1 Ht) as [E1 W1]. set (c1 := u64 (col_1 c + _)) in *.
  set (k0 := if c0 <? tl then 1 else 0) in *. set (k1 := if c1 <? th + k0 then 1 else 0) in *. unfold col_ok, col_val in *. cbn [col_0 col_1 col_2].
  assert (is_word w (col_2 c + k1)) as W2.
  { unfold is_word in *. assert (0 <= k1) by (unfold k1; destruct (_ <? _); lia). nia. }
  rewrite (wrap_small w) by done. split; [done|]. lia.
Qed.

Lemma muladd_fast_spec (a b : Z) :
  is_word 64 a → is_word 64 b → col_0 c + col_1 c * 2 ^ 64 + a * b < 2 ^ 128 →
  col_ok w (muladd_fast a b c) ∧ col_val (muladd_fast a b c) = col_val c + a * b ∧ col_2 (muladd_fast a b c) = col_2 c.
Proof.
  intros Ha Hb Hlt. destruct (product_words a b Ha Hb) as (Hth & Htl & Et & Hm). unfold muladd_fast.
  set (th := _ .>> 64) in *. set (tl := u64 (u128 _)) in *. clearbody th tl. destruct Hc as (H0 & H1 & H2).
  destruct (add_carry (col_0 c) tl H0 Htl) as [E0 W0]. set (c0 := u64 (col_0 c + tl)) in *.
  assert (is_word 64 (th + (if c0 <? tl then 1 else 0))) as Ht by (unfold is_word in *; destruct (c0 <? tl); lia).
  rewrite (wrap_small 64 _ Ht : u64 _ = _). set (k0 := if c0 <? tl then 1 else 0) in *. unfold col_ok, col_val in *. cbn [col_0 col_1 col_2].
  assert (is_word 64 (col_1 c + (th + k0))) as W1 by (unfold is_word in *; lia).
  rewrite (wrap_small 64 _ W1 : u64 _ = _). split_and!; try done. lia.
Qed.

Lemma sumadd_spec (a : Z) :
  is_word 64 a → col_val c + a < 2 ^ 128 * 2 ^ w → col_ok w (sumadd w a c) ∧ col_val (sumadd w a c) = col_val c + a.
Proof.
  intros Ha Hlt. unfold sumadd. destruct Hc as (H0 & H1 & H2).
  destruct (add_carry (col_0 c) a H0 Ha) as [E0 W0]. set (c0 := u64 (col_0 c + a)) in *. set (k0 := if c0 <? a then 1 else 0) in *.
  assert (is_word 64 k0) as Hk by (unfold k0, is_word; destruct (_ <? _); lia).
  destruct (add_carry (col_1 c) k0 H1 Hk) as [E1 W1]. set (c1 := u64 (col_1 c + k0)) in *. set (k1 := if c1 <? k0 then 1 else 0) in *.
  unfold col_ok, col_val in *. cbn [col_0 col_1 col_2].
  assert (is_word w (col_2 c + k1)) as W2.
  { unfold is_word in *. assert (0 <= k1) by (unfold k1; destruct (_ <? _); lia). nia. }
  rewrite (wrap_small w) by done. split; [done|]. lia.
Qed.

Lemma sumadd_fast_spec (a : Z) :
  is_word 64 a → col_0 c + col_1 c * 2 ^ 64 + a < 2 ^ 128 →
  col_ok w (sumadd_fast a c) ∧ col_val (sumadd_fast a c) = col_val c + a ∧ col_2 (sumadd_fast a c) = col_2 c.
Proof.
  intros Ha Hlt. unfold sumadd_fast. destruct Hc as (H0 & H1 & H2).
  destruct (add_carry (col_0 c) a H0 Ha) as [E0 W0]. set (c0 := u64 (col_0 c + a)) in *. set (k0 := if c0 <? a then 1 else 0) in *.
  assert (0 <= k0) by (unfold k0; destruct (_ <? _); lia). unfold col_ok, col_val in *. cbn [col_0 col_1 col_2].
  assert (is_word 64 (col_1 c + k0)) as W1 by (unfold is_word in *; lia).
  rewrite (wrap_small 64 _ W1 : u64 _ = _). split_and!; try done. lia.
Qed.

(** A doubled product is three words: its carry goes to [c2], and that of the low word into the middle one, which can only then wrap. *)
Lemma muladd2_spec (a b : Z) :
  is_word 64 a → is_word 64 b → col_val c + 2 * (a * b) < 2 ^ 128 * 2 ^ w → 
  col_ok w (muladd2 w a b c) ∧ col_val (muladd2 w a b c) = col_val c + 2 * (a * b).
Proof.
  intros Ha Hb Hlt. destruct (product_words a b Ha Hb) as (Hth & Htl & Et & Hm). unfold muladd2.
  set (th := _ .>> 64) in *. set (tl := u64 (u128 _)) in *. clearbody th tl. destruct Hc as (H0 & H1 & H2).
  destruct (add_carry th th Hth Hth) as [Eh Wh]. set (th2 := u64 (th + th)) in *. set (k := if th2 <? th then 1 else 0) in *.
  destruct (add_carry tl tl Htl Htl) as [El Wl]. set (tl2 := u64 (tl + tl)) in *. set (k' := if tl2 <? tl then 1 else 0) in *.
  assert (is_word 64 (th2 + k')) as Wh2.
  { unfold is_word in *. pose proof (flag_range (tl2 <? tl) : 0 <= k' <= 1). pose proof (flag_range (th2 <? th) : 0 <= k <= 1).
    split; [lia|]. destruct (Z.eq_dec th2 (2 ^ 64 - 1)) as [E|]; [|lia]. exfalso. lia. }
  rewrite (wrap_small 64 (th2 + k') Wh2 : u64 _ = _). destruct (add_carry (col_0 c) tl2 H0 Wl) as [E0 W0]. set (c0 := u64 (col_0 c + tl2)) in *.
  set (k0 := c0 <? tl2) in *. assert ((if k0 then 1 else 0) = Z.b2z k0) as Ek0 by done. rewrite Ek0 in *.
  set (th3 := u64 (th2 + k' + Z.b2z k0)). set (k1 := Z.b2z (k0 && (th3 =? 0))).
  assert (th3 + 2 ^ 64 * k1 = th2 + k' + Z.b2z k0 ∧ is_word 64 th3) as [E3 W3].
  { pose proof (flag_range (tl2 <? tl) : 0 <= k' <= 1). unfold k1, th3, u64, wrap, is_word in *. destruct k0; cbn [andb Z.b2z] in *.
    - destruct (Z.eq_dec (th2 + k' + 1) (2 ^ 64)) as [->|E]; [done|]. rewrite Z.mod_small by lia. destruct (Z.eqb_spec (th2 + k' + 1) 0); cbn; lia.
    - rewrite Z.mod_small by lia. lia. }
  destruct (add_carry (col_1 c) th3 H1 W3) as [E1 W1]. set (c1 := u64 (col_1 c + th3)) in *. set (k2 := if c1 <? th3 then 1 else 0) in *.
  unfold col_ok, col_val in *. cbn [col_0 col_1 col_2].
  assert (0 <= k ∧ 0 <= k1 ∧ 0 <= k2) as (? & ? & ?).
  { split_and!; [apply (flag_range (th2 <? th))|unfold k1; by destruct (_ && _)|apply (flag_range (c1 <? th3))]. }
  assert (is_word w (col_2 c + k + k1 + k2)) as W2 by (unfold is_word in *; nia).
  rewrite (wrap_small w (col_2 c + k)), (wrap_small w (_ + k1)), (wrap_small w (_ + k2)) by (try done; unfold is_word in *; lia).
  split; [done|]. lia.
Qed.

(** The lowest word is taken out and the rest shifted down. *)
Lemma extract_spec : is_word 64 (extract c).1 ∧ (w <= 64 → col_ok w (extract c).2) ∧ (extract c).1 + 2 ^ 64 * col_val (extract c).2 = col_val c.
Proof.
  destruct Hc as (H0 & H1 & H2). unfold extract, col_ok, col_val. cbn. split_and!; [done| |lia]. intros Hw. split_and!; [done| |].
  - unfold is_word in *. assert (2 ^ w <= 2 ^ 64) by by apply Z.pow_le_mono_r. lia.
  - unfold is_word in *. lia.
Qed.

Lemma extract_fast_spec :
  col_2 c = 0 → is_word 64 (extract_fast c).1 ∧ col_ok w (extract_fast c).2 ∧ col_2 (extract_fast c).2 = 0 ∧
  (extract_fast c).1 + 2 ^ 64 * col_val (extract_fast c).2 = col_val c.
Proof.
  intros E. destruct Hc as (H0 & H1 & H2). unfold extract_fast, col_ok, col_val. cbn. rewrite E in *.
  split_and!; try done; lia.
Qed.
End ColumnFacts.

(** A column holding the number [v] *)
Definition col_is (w : Z) (c : column) (v : Z) : Prop := col_ok w c ∧ col_val c = v.

Lemma col_start (w x : Z) : 0 <= w → is_word 64 x → col_is w (MkColumn x 0 0) x.
Proof.
  intros Hw Hx. unfold col_is, col_ok, col_val. cbn [col_0 col_1 col_2]. split; [|lia]. split; [done|].
  unfold is_word. pose proof (Z.pow_pos_nonneg 2 w). lia.
Qed.

Lemma col_muladd (w : Z) (c : column) (v a b : Z) :
  col_is w c v → is_word 64 a → is_word 64 b → v + a * b < 2 ^ 128 * 2 ^ w → col_is w (muladd w a b c) (v + a * b).
Proof. intros [Hc <-] Ha Hb Hlt. by apply muladd_spec. Qed.

Lemma col_muladd2 (w : Z) (c : column) (v a b : Z) :
  col_is w c v → is_word 64 a → is_word 64 b → v + 2 * (a * b) < 2 ^ 128 * 2 ^ w → col_is w (muladd2 w a b c) (v + 2 * (a * b)).
Proof. intros [Hc <-] Ha Hb Hlt. by apply muladd2_spec. Qed.

Lemma col_sumadd (w : Z) (c : column) (v a : Z) : col_is w c v → is_word 64 a → v + a < 2 ^ 128 * 2 ^ w → col_is w (sumadd w a c) (v + a).
Proof. intros [Hc <-] Ha Hlt. by apply sumadd_spec. Qed.

(** Without a third word *)
Lemma col_low (w : Z) (c : column) (v : Z) : col_is w c v → v < 2 ^ 128 → col_0 c + col_1 c * 2 ^ 64 = v ∧ col_2 c = 0.
Proof. intros [(H0 & H1 & H2) <-] Hv. unfold col_val, is_word in *. lia. Qed.

Lemma col_small (w : Z) (c : column) (v : Z) : col_is w c v → v < 2 ^ 64 → col_0 c = v.
Proof. intros Hc Hv. destruct (col_low w c v Hc ltac:(lia)) as [E _]. destruct Hc as [(H0 & H1 & _) _]. unfold is_word in *. lia. Qed.

Lemma col_muladd_fast (w : Z) (c : column) (v a b : Z) :
  col_is w c v → is_word 64 a → is_word 64 b → v + a * b < 2 ^ 128 → col_is w (muladd_fast a b c) (v + a * b).
Proof.
  intros Hc Ha Hb Hlt. assert (0 <= a * b) by (unfold is_word in *; nia). destruct (col_low w c v Hc ltac:(lia)) as [E _].
  destruct Hc as [Hc <-]. destruct (muladd_fast_spec w c Hc a b Ha Hb ltac:(lia)) as (? & ? & _). by split.
Qed.

Lemma col_sumadd_fast (w : Z) (c : column) (v a : Z) : col_is w c v → is_word 64 a → v + a < 2 ^ 128 → col_is w (sumadd_fast a c) (v + a).
Proof.
  intros Hc Ha Hlt. destruct (col_low w c v Hc ltac:(unfold is_word in *; lia)) as [E _].
  destruct Hc as [Hc <-]. destruct (sumadd_fast_spec w c Hc a Ha ltac:(lia)) as (? & ? & _). by split.
Qed.

Lemma col_extract (w : Z) (c : column) (v : Z) :
  col_is w c v → w <= 64 → ∃ n c' v', extract c = (n, c') ∧ is_word 64 n ∧ col_is w c' v' ∧ v = n + 2 ^ 64 * v' ∧ 0 <= n < 2 ^ 64 ∧ 0 <= v'.
Proof.
  intros [Hc <-] Hw. destruct (extract_spec w c Hc) as (Hn & Hc' & E). specialize (Hc' Hw).
  exists (extract c).1, (extract c).2, (col_val (extract c).2). split_and!; [apply surjective_pairing|done|by split|lia|apply Hn|apply Hn|].
  destruct Hc' as (? & ? & ?). unfold col_val, is_word in *. lia.
Qed.

Lemma col_extract_fast (w : Z) (c : column) (v : Z) :
  col_is w c v → v < 2 ^ 128 → ∃ n c' v', extract_fast c = (n, c') ∧ is_word 64 n ∧ col_is w c' v' ∧ v = n + 2 ^ 64 * v' ∧ 0 <= n < 2 ^ 64 ∧ 0 <= v'.
Proof.
  intros Hc Hv. destruct (col_low w c v Hc Hv) as [_ E2]. destruct Hc as [Hc <-].
  destruct (extract_fast_spec w c Hc E2) as (Hn & Hc' & E2' & E).
  exists (extract_fast c).1, (extract_fast c).2, (col_val (extract_fast c).2). split_and!; [apply surjective_pairing|done|by split|lia|apply Hn|apply Hn|].
  destruct Hc' as (? & ? & ?). unfold col_val, is_word in *. lia.
Qed.

Definition limbs_val (l : list Z) : Z := foldr (λ x v, x + 2 ^ 64 * v) 0 l.

(** Products are named, so that the bounds on columns are linear. *)
Definition is_prod (a b p : Z) : Prop := a * b = p.

Lemma product_exists (a b : Z) : is_word 64 a → is_word 64 b → ∃ p, is_prod a b p ∧ 0 <= p <= (2 ^ 64 - 1) * (2 ^ 64 - 1).
Proof. exists (a * b). split; [done|]. unfold is_word in *. nia. Qed.

Lemma col_muladd_p (w : Z) (c : column) (v a b p : Z) :
  is_prod a b p → col_is w c v → is_word 64 a → is_word 64 b → v + p < 2 ^ 128 * 2 ^ w → col_is w (muladd w a b c) (v + p).
Proof. intros <-. apply col_muladd. Qed.

Lemma col_muladd2_p (w : Z) (c : column) (v a b p : Z) :
  is_prod a b p → col_is w c v → is_word 64 a → is_word 64 b → v + 2 * p < 2 ^ 128 * 2 ^ w → col_is w (muladd2 w a b c) (v + 2 * p).
Proof. intros <-. apply col_muladd2. Qed.

Lemma col_muladd_fast_p (w : Z) (c : column) (v a b p : Z) :
  is_prod a b p → col_is w c v → is_word 64 a → is_word 64 b → v + p < 2 ^ 128 → col_is w (muladd_fast a b c) (v + p).
Proof. intros <-. apply col_muladd_fast. Qed.

(** Follow the additions to a column from the inside out, leaving the bounds. *)
Ltac col_eval :=
  repeat first [eassumption|eapply col_muladd_p|eapply col_muladd2_p|eapply col_sumadd|eapply col_muladd_fast_p|eapply col_sumadd_fast|eapply col_start].

(** The next [extract]: its word, the column left and the number in it *)
Ltac col_next w n c v :=
  let E := fresh "E" in
  match goal with
  | |- context [extract ?x] => edestruct (col_extract w x) as (n & c & v & E & ? & ? & ? & ? & ?); [col_eval; lia|lia|]
  | |- context [extract_fast ?x] => edestruct (col_extract_fast w x) as (n & c & v & E & ? & ? & ? & ? & ?); [col_eval; lia|lia|]
  end; rewrite E; clear E; cbv iota beta.

Lemma mul_512_spec (a b : secp256k1_scalar) :
  sc_words a → sc_words b →
  limbs_val (secp256k1_scalar_mul_512 a b) = sc_val a * sc_val b ∧ Forall (is_word 64) (secp256k1_scalar_mul_512 a b).
Proof.
  destruct a as [a0 a1 a2 a3], b as [b0 b1 b2 b3]. intros (A0 & A1 & A2 & A3) (B0 & B1 & B2 & B3). unfold sc_val, secp256k1_scalar_mul_512.
  cbn [sc_d0 sc_d1 sc_d2 sc_d3] in *.
  destruct (product_exists a0 b0 A0 B0) as (p00 & P00 & ?), (product_exists a0 b1 A0 B1) as (p01 & P01 & ?),
    (product_exists a0 b2 A0 B2) as (p02 & P02 & ?), (product_exists a0 b3 A0 B3) as (p03 & P03 & ?),
    (product_exists a1 b0 A1 B0) as (p10 & P10 & ?), (product_exists a1 b1 A1 B1) as (p11 & P11 & ?),
    (product_exists a1 b2 A1 B2) as (p12 & P12 & ?), (product_exists a1 b3 A1 B3) as (p13 & P13 & ?),
    (product_exists a2 b0 A2 B0) as (p20 & P20 & ?), (product_exists a2 b1 A2 B1) as (p21 & P21 & ?),
    (product_exists a2 b2 A2 B2) as (p22 & P22 & ?), (product_exists a2 b3 A2 B3) as (p23 & P23 & ?),
    (product_exists a3 b0 A3 B0) as (p30 & P30 & ?), (product_exists a3 b1 A3 B1) as (p31 & P31 & ?),
    (product_exists a3 b2 A3 B2) as (p32 & P32 & ?), (product_exists a3 b3 A3 B3) as (p33 & P33 & ?).
  assert (is_word 64 0) by (split; lia). pose proof (col_start 32 0 ltac:(lia) ltac:(done)).
  col_next 32 l0 c0 v0. col_next 32 l1 c1 v1. col_next 32 l2 c2 v2. col_next 32 l3 c3 v3. col_next 32 l4 c4 v4.
  col_next 32 l5 c5 v5. col_next 32 l6 c6 v6.
  rewrite (col_small 32 c6 v6) by (done || lia). assert (is_word 64 v6) by (unfold is_word; lia).
  split; [|repeat (constructor; [assumption|]); constructor]. cbn [limbs_val foldr].
  transitivity (p00 + (p01 + p10) * 2 ^ 64 + (p02 + p11 + p20) * 2 ^ 128 + (p03 + p12 + p21 + p30) * 2 ^ 192 + (p13 + p22 + p31) * 2 ^ 256
    + (p23 + p32) * 2 ^ 320 + p33 * 2 ^ 384); [lia|]. rewrite <- P00, <- P01, <- P02, <- P03, <- P10, <- P11, <- P12, <- P13, <- P20, <- P21, <- P22, <- P23,
    <- P30, <- P31, <- P32, <- P33. ring.
Qed.

Lemma sqr_512_spec (a : secp256k1_scalar) :
  sc_words a → limbs_val (secp256k1_scalar_sqr_512 a) = sc_val a * sc_val a ∧ Forall (is_word 64) (secp256k1_scalar_sqr_512 a).
Proof.
  destruct a as [a0 a1 a2 a3]. intros (A0 & A1 & A2 & A3). unfold sc_val, secp256k1_scalar_sqr_512. cbn [sc_d0 sc_d1 sc_d2 sc_d3] in *.
  destruct (product_exists a0 a0 A0 A0) as (p00 & P00 & ?), (product_exists a0 a1 A0 A1) as (p01 & P01 & ?),
    (product_exists a0 a2 A0 A2) as (p02 & P02 & ?), (product_exists a0 a3 A0 A3) as (p03 & P03 & ?),
    (product_exists a1 a1 A1 A1) as (p11 & P11 & ?), (product_exists a1 a2 A1 A2) as (p12 & P12 & ?),
    (product_exists a1 a3 A1 A3) as (p13 & P13 & ?), (product_exists a2 a2 A2 A2) as (p22 & P22 & ?),
    (product_exists a2 a3 A2 A3) as (p23 & P23 & ?), (product_exists a3 a3 A3 A3) as (p33 & P33 & ?).
  assert (is_word 64 0) by (split; lia). pose proof (col_start 32 0 ltac:(lia) ltac:(done)).
  col_next 32 l0 c0 v0. col_next 32 l1 c1 v1. col_next 32 l2 c2 v2. col_next 32 l3 c3 v3. col_next 32 l4 c4 v4.
  col_next 32 l5 c5 v5. col_next 32 l6 c6 v6.
  rewrite (col_small 32 c6 v6) by (done || lia). assert (is_word 64 v6) by (unfold is_word; lia).
  split; [|repeat (constructor; [assumption|]); constructor]. cbn [limbs_val foldr].
  transitivity (p00 + 2 * p01 * 2 ^ 64 + (2 * p02 + p11) * 2 ^ 128 + (2 * p03 + 2 * p12) * 2 ^ 192 + (2 * p13 + p22) * 2 ^ 256
    + 2 * p23 * 2 ^ 320 + p33 * 2 ^ 384); [lia|]. rewrite <- P00, <- P01, <- P02, <- P03, <- P11, <- P12, <- P13, <- P22, <- P23, <- P33. ring.
Qed.

(** ** Reduction *)

Definition secp_nc : Z := 2 ^ 256 - secp_n.

Lemma sc_carry_spec (t0 t1 t2 t3 : Z) :
  0 <= t0 < 2 ^ 128 - 2 ^ 64 → 0 <= t1 < 2 ^ 128 - 2 ^ 64 → 0 <= t2 < 2 ^ 128 - 2 ^ 64 → 0 <= t3 < 2 ^ 128 - 2 ^ 64 →
  let '(r, c) := sc_carry t0 t1 t2 t3 in
  sc_words r ∧ 0 <= c < 2 ^ 64 ∧ sc_val r + c * 2 ^ 256 = t0 + t1 * 2 ^ 64 + t2 * 2 ^ 128 + t3 * 2 ^ 192.
Proof.
  intros H0 H1 H2 H3. unfold sc_carry, sc_words, sc_val, u128. cbn [sc_d0 sc_d1 sc_d2 sc_d3].
  assert (∀ t, 0 <= t < 2 ^ 128 → is_word 64 (t .& 0xFFFFFFFFFFFFFFFF) ∧ 0 <= t .>> 64 < 2 ^ 64 ∧ t = t .& 0xFFFFFFFFFFFFFFFF + (t .>> 64) * 2 ^ 64) as Hs.
  { intros t Ht. change 0xFFFFFFFFFFFFFFFF with (2 ^ 64 - 1). rewrite land_ones_mod, Z.shiftr_div_pow2 by lia. unfold is_word.
    pose proof (Z.div_mod t (2 ^ 64) ltac:(lia)). pose proof (Z.mod_pos_bound t (2 ^ 64) ltac:(lia)). lia. }
  destruct (Hs t0 ltac:(lia)) as (? & ? & ?). rewrite (wrap_small 128 (t0 .>> 64 + t1)) by (unfold is_word; lia).
  destruct (Hs (t0 .>> 64 + t1) ltac:(lia)) as (? & ? & ?). set (x1 := t0 .>> 64 + t1) in *. rewrite (wrap_small 128 (x1 .>> 64 + t2)) by (unfold is_word; lia).
  destruct (Hs (x1 .>> 64 + t2) ltac:(lia)) as (? & ? & ?). set (x2 := x1 .>> 64 + t2) in *. rewrite (wrap_small 128 (x2 .>> 64 + t3)) by (unfold is_word; lia).
  destruct (Hs (x2 .>> 64 + t3) ltac:(lia)) as (? & ? & ?). split; [done|]. split; [done|lia].
Qed.

Lemma sc_words_val (a : secp256k1_scalar) : sc_words a → 0 <= sc_val a < 2 ^ 256.
Proof. destruct a. intros (? & ? & ? & ?). unfold sc_val, is_word in *. cbn in *. lia. Qed.

Lemma sc_reduce_spec (r : secp256k1_scalar) (k : Z) :
  sc_words r → 0 <= k <= 1 → sc_words (secp256k1_scalar_reduce r k) ∧ sc_val (secp256k1_scalar_reduce r k) = (sc_val r + k * secp_nc) mod 2 ^ 256.
Proof.
  intros Hr Hk. pose proof (sc_words_val r Hr) as Hv. destruct Hr as (H0 & H1 & H2 & H3). unfold secp256k1_scalar_reduce, SECP256K1_N_C_2.
  set (n0 := SECP256K1_N_C_0). set (n1 := SECP256K1_N_C_1). change n0 with 0x402DA1732FC9BEBF in *. change n1 with 0x4551231950B75FC4 in *. clear n0 n1.
  unfold is_word, u64, u32, u128 in *. rewrite !(wrap_small 64), !(wrap_small 128), !(wrap_small 32) by (unfold is_word; rewrite ?wrap_small; unfold is_word; lia).
  match goal with |- context [sc_carry ?a ?b ?c ?d] => pose proof (sc_carry_spec a b c d ltac:(lia) ltac:(lia) ltac:(lia) ltac:(lia)) as Hs; destruct (sc_carry a b c d) as [s c'] end.
  destruct Hs as (Hs & Hc & E). cbn [fst]. split; [done|]. pose proof (sc_words_val s Hs). apply (Z.mod_unique _ _ c'); [lia|].
  unfold sc_val in *. unfold secp_nc, secp_n. lia.
Qed.

Lemma check_overflow_spec (a : secp256k1_scalar) : sc_words a → secp256k1_scalar_check_overflow a = (secp_n <=? sc_val a).
Proof.
  destruct a as [a0 a1 a2 a3]. intros (H0 & H1 & H2 & H3). unfold secp256k1_scalar_check_overflow, sc_val, secp_n.
  unfold SECP256K1_N_0, SECP256K1_N_1, SECP256K1_N_2, SECP256K1_N_3, is_word in *. cbn [sc_d0 sc_d1 sc_d2 sc_d3] in *.
  apply eq_true_iff_eq. rewrite Z.leb_le. bool_to_prop. lia.
Qed.

(** After a reduction by at most one multiple of the order, a number below twice the order is reduced. *)
Lemma sc_final_spec (r : secp256k1_scalar) (c v : Z) :
  sc_words r → sc_val r + c * 2 ^ 256 = v → 0 <= c → v < 2 * secp_n →
  let r' := secp256k1_scalar_reduce r (u32 (c + Z.b2z (secp256k1_scalar_check_overflow r))) in sc_ok r' ∧ sc_val r' = v mod secp_n.
Proof.
  intros Hr <- Hc Hlt. pose proof (sc_words_val r Hr). rewrite (check_overflow_spec r Hr). cbv zeta.
  assert (∃ k, u32 (c + Z.b2z (secp_n <=? sc_val r)) = k ∧ 0 <= k <= 1 ∧ k * secp_n <= sc_val r + c * 2 ^ 256 < (k + 1) * secp_n) as (k & -> & Hk & Hb).
  { assert (c = 0 ∨ c = 1) as [->| ->] by (unfold secp_n in *; lia); destruct (Z.leb_spec secp_n (sc_val r)); unfold secp_n in *; try lia.
    - exists 1. split; [done|]. lia.
    - exists 0. split; [done|]. lia.
    - exists 1. split; [done|]. lia. }
  destruct (sc_reduce_spec r k Hr Hk) as [Hw Hv]. assert ((sc_val r + k * secp_nc) mod 2 ^ 256 = sc_val r + c * 2 ^ 256 - k * secp_n) as E.
  { symmetry. apply (Z.mod_unique _ _ (k - c)); unfold secp_nc, secp_n in *; lia. }
  rewrite E in Hv. unfold sc_ok. rewrite Hv. split; [split; [done|lia]|]. apply (Z.mod_unique _ _ k); lia.
Qed.

Lemma word_bounds (x : Z) : is_word 64 x → 0 <= x < 2 ^ 64.
Proof. done. Qed.

(** The two folds of the bits above 256, each a multiple of 2^256 - n; the last words are small enough for 32 bits. *)
Lemma reduce_512_spec (l : list Z) :
  length l = 8%nat → Forall (is_word 64) l → sc_ok (secp256k1_scalar_reduce_512 l) ∧ sc_val (secp256k1_scalar_reduce_512 l) = limbs_val l mod secp_n.
Proof.
  intros Hl HF. destruct l as [|l0 [|l1 [|l2 [|l3 [|n0 [|n1 [|n2 [|n3 [|? ?]]]]]]]]]; try discriminate Hl.
  repeat match type of HF with Forall _ (_ :: _) => let W := fresh "W" in apply list.Forall_cons in HF as [W HF]; pose proof (word_bounds _ W) end.
  unfold secp256k1_scalar_reduce_512. cbn [aget nth]. cbv zeta.
  assert (is_word 64 SECP256K1_N_C_0) as C0 by (split; done). assert (is_word 64 SECP256K1_N_C_1) as C1 by (split; done).
  destruct (product_exists n0 _ ltac:(eassumption) C0) as (p00 & P00 & ?), (product_exists n1 _ ltac:(eassumption) C0) as (p10 & P10 & ?),
    (product_exists n2 _ ltac:(eassumption) C0) as (p20 & P20 & ?), (product_exists n3 _ ltac:(eassumption) C0) as (p30 & P30 & ?),
    (product_exists n0 _ ltac:(eassumption) C1) as (p01 & P01 & ?), (product_exists n1 _ ltac:(eassumption) C1) as (p11 & P11 & ?),
    (product_exists n2 _ ltac:(eassumption) C1) as (p21 & P21 & ?), (product_exists n3 _ ltac:(eassumption) C1) as (p31 & P31 & ?).
  pose proof (col_start 64 l0 ltac:(lia) ltac:(done)).
  col_next 64 m0 c0 v0. col_next 64 m1 c1 v1. col_next 64 m2 c2 v2. col_next 64 m3 c3 v3. col_next 64 m4 c4 v4. col_next 64 m5 c5 v5.
  set (lo := l0 + l1 * 2 ^ 64 + l2 * 2 ^ 128 + l3 * 2 ^ 192). set (hi := n0 + n1 * 2 ^ 64 + n2 * 2 ^ 128 + n3 * 2 ^ 192).
  set (mlo := m0 + m1 * 2 ^ 64 + m2 * 2 ^ 128 + m3 * 2 ^ 192). set (mhi := m4 + m5 * 2 ^ 64 + v5 * 2 ^ 128).
  assert (mlo + mhi * 2 ^ 256 = lo + hi * secp_nc) as EM.
  { unfold is_prod in *. change SECP256K1_N_C_0 with 0x402DA1732FC9BEBF in *. change SECP256K1_N_C_1 with 0x4551231950B75FC4 in *.
    unfold mlo, mhi, lo, hi, secp_nc, secp_n. lia. }
  assert (0 <= lo < 2 ^ 256 ∧ 0 <= hi < 2 ^ 256 ∧ 0 <= mlo < 2 ^ 256) as (Hlo & Hhi & Hmlo) by (unfold lo, hi, mlo; lia).
  assert (0 <= mhi <= secp_nc) as Hmhi by (clearbody lo hi mlo; unfold mhi, secp_nc, secp_n in *; lia).
  assert (v5 <= 1) as Hv5 by (unfold mhi, secp_nc, secp_n in Hmhi; lia).
  assert (u32 (col_0 c5) = v5) as ->.
  { rewrite (col_small 64 c5 v5) by (done || lia). apply wrap_small. unfold is_word. lia. }
  assert (limbs_val [l0; l1; l2; l3; n0; n1; n2; n3] = lo + hi * 2 ^ 256) as -> by (cbn [limbs_val foldr]; unfold lo, hi; lia).
  clear P00 P01 P10 P11 P20 P21 P30 P31. clearbody lo hi.
  destruct (product_exists m4 _ ltac:(eassumption) C0) as (p40 & P40 & ?), (product_exists m5 _ ltac:(eassumption) C0) as (p50 & P50 & ?),
    (product_exists m4 _ ltac:(eassumption) C1) as (p41 & P41 & ?), (product_exists m5 _ ltac:(eassumption) C1) as (p51 & P51 & ?).
  assert (is_prod v5 SECP256K1_N_C_0 (v5 * 0x402DA1732FC9BEBF)) as P60 by done. assert (is_prod v5 SECP256K1_N_C_1 (v5 * 0x4551231950B75FC4)) as P61 by done.
  assert (is_word 64 v5) by (unfold is_word; lia). pose proof (col_start 64 m0 ltac:(lia) ltac:(done)).
  col_next 64 p0 d0 w0. col_next 64 p1 d1 w1. col_next 64 p2 d2 w2. col_next 64 p3 d3 w3.
  set (plo := p0 + p1 * 2 ^ 64 + p2 * 2 ^ 128 + p3 * 2 ^ 192).
  assert (plo + (w3 + v5) * 2 ^ 256 = mlo + mhi * secp_nc) as EP.
  { unfold is_prod in *. change SECP256K1_N_C_0 with 0x402DA1732FC9BEBF in *. change SECP256K1_N_C_1 with 0x4551231950B75FC4 in *.
    unfold plo, mlo, mhi, secp_nc, secp_n. lia. }
  assert (0 <= plo < 2 ^ 256) as Hplo by (unfold plo; lia). clearbody mlo mhi.
  assert (w3 + v5 <= 2) as Hp4 by (unfold secp_nc, secp_n in *; lia).
  assert (u32 (col_0 d3 + v5) = w3 + v5) as ->.
  { rewrite (col_small 64 d3 w3) by (done || lia). apply wrap_small. unfold is_word. lia. }
  set (p4 := w3 + v5) in *. assert (0 <= p4) by (unfold p4; lia). clearbody p4.
  change SECP256K1_N_C_0 with 0x402DA1732FC9BEBF. change SECP256K1_N_C_1 with 0x4551231950B75FC4.
  unfold u128. rewrite !wrap_small by (unfold is_word; rewrite ?wrap_small; unfold is_word; lia).
  match goal with |- context [sc_carry ?a ?b ?c ?d] => pose proof (sc_carry_spec a b c d ltac:(lia) ltac:(lia) ltac:(lia) ltac:(lia)) as Hs; destruct (sc_carry a b c d) as [r c'] end.
  destruct Hs as (Hr & Hc' & Es).
  destruct (sc_final_spec r c' (plo + p4 * secp_nc) Hr) as [Hok Hv]; [rewrite Es; unfold plo, secp_nc, secp_n; lia|lia|unfold secp_nc, secp_n in *; lia|].
  split; [exact Hok|]. etransitivity; [exact Hv|]. replace (lo + hi * 2 ^ 256) with (plo + p4 * secp_nc + (hi + mhi + p4) * secp_n); [|unfold secp_nc in *; lia].
  symmetry. apply Z_mod_plus_full.
Qed.

(** ** The operations *)

Lemma sc_ok_range (a : secp256k1_scalar) : sc_ok a → 0 <= sc_val a < secp_n.
Proof. intros [Hw Hv]. pose proof (sc_words_val a Hw). lia. Qed.

Lemma sc_mul_spec (a b : secp256k1_scalar) :
  sc_words a → sc_words b → sc_ok (secp256k1_scalar_mul a b) ∧ sc_val (secp256k1_scalar_mul a b) = (sc_val a * sc_val b) mod secp_n.
Proof.
  intros Ha Hb. destruct (mul_512_spec a b Ha Hb) as [<- Hl]. apply reduce_512_spec; [|done]. unfold secp256k1_scalar_mul_512.
  by repeat case_match.
Qed.

Lemma sc_sqr_spec (a : secp256k1_scalar) : sc_words a → sc_ok (secp256k1_scalar_sqr a) ∧ sc_val (secp256k1_scalar_sqr a) = (sc_val a * sc_val a) mod secp_n.
Proof.
  intros Ha. destruct (sqr_512_spec a Ha) as [<- Hl]. apply reduce_512_spec; [|done]. unfold secp256k1_scalar_sqr_512.
  by repeat case_match.
Qed.

Lemma sc_add_spec (a b : secp256k1_scalar) :
  sc_ok a → sc_ok b →
  let '(r, overflow) := secp256k1_scalar_add a b in
  sc_ok r ∧ sc_val r = (sc_val a + sc_val b) mod secp_n ∧ overflow = Z.b2z (secp_n <=? sc_val a + sc_val b).
Proof.
  intros Ha Hb. pose proof (sc_ok_range a Ha). pose proof (sc_ok_range b Hb). destruct Ha as [(A0 & A1 & A2 & A3) _], Hb as [(B0 & B1 & B2 & B3) _].
  unfold secp256k1_scalar_add, u128, is_word in *. rewrite !wrap_small by (unfold is_word; lia).
  match goal with |- context [sc_carry ?x ?y ?z ?t] => pose proof (sc_carry_spec x y z t ltac:(lia) ltac:(lia) ltac:(lia) ltac:(lia)) as Hs; destruct (sc_carry x y z t) as [r c] end.
  destruct Hs as (Hr & Hc & E). assert (sc_val r + c * 2 ^ 256 = sc_val a + sc_val b) as Ev by (unfold sc_val in *; lia).
  destruct (sc_final_spec r c _ Hr Ev) as [Hok Hv]; [lia|lia|]. pose proof (sc_words_val r Hr). rewrite (check_overflow_spec r Hr) in *.
  assert (c = 0 ∨ c = 1) as Hc01 by (unfold secp_n in *; lia).
  assert (c + Z.b2z (secp_n <=? sc_val r) = Z.b2z (secp_n <=? sc_val a + sc_val b)) as Eo.
  { destruct (Z.leb_spec secp_n (sc_val r)), (Z.leb_spec secp_n (sc_val a + sc_val b)); unfold secp_n in *; cbn; lia. }
  rewrite Eo in *. unfold u32 in Hok, Hv. rewrite wrap_small in Hok, Hv by (by destruct (_ <=? _)). done.
Qed.

Lemma sc_is_zero_spec (a : secp256k1_scalar) : sc_words a → secp256k1_scalar_is_zero a = (sc_val a =? 0).
Proof.
  destruct a as [a0 a1 a2 a3]. intros (H0 & H1 & H2 & H3). unfold secp256k1_scalar_is_zero, sc_val, is_word in *. cbn [sc_d0 sc_d1 sc_d2 sc_d3] in *.
  rewrite !lor_zero. apply eq_true_iff_eq. bool_to_prop. lia.
Qed.

Lemma sc_is_high_spec (a : secp256k1_scalar) : sc_words a → secp256k1_scalar_is_high a = (secp_n / 2 <? sc_val a).
Proof.
  destruct a as [a0 a1 a2 a3]. intros (H0 & H1 & H2 & H3). unfold secp256k1_scalar_is_high, sc_val.
  change (secp_n / 2) with 0x7FFFFFFFFFFFFFFFFFFFFFFFFFFFFFFF5D576E7357A4501DDFE92F46681B20A0.
  unfold SECP256K1_N_H_0, SECP256K1_N_H_1, SECP256K1_N_H_2, SECP256K1_N_H_3, is_word in *. cbn [sc_d0 sc_d1 sc_d2 sc_d3] in *.
  apply eq_true_iff_eq. rewrite Z.ltb_lt. bool_to_prop. lia.
Qed.

(** With all bits of the mask set, the masked carry is the plain one; with none it is zero. *)
Lemma sc_carry_masked_ones (t0 t1 t2 t3 : Z) : sc_carry_masked 0xFFFFFFFFFFFFFFFF t0 t1 t2 t3 = (sc_carry t0 t1 t2 t3).1.
Proof. done. Qed.

Lemma sc_carry_masked_zero (t0 t1 t2 t3 : Z) : sc_carry_masked 0 t0 t1 t2 t3 = MkScalar 0 0 0 0.
Proof. unfold sc_carry_masked. by rewrite !Z.land_0_r. Qed.

Lemma not64_word (x : Z) : is_word 64 x → not64 x = 2 ^ 64 - 1 - x.
Proof. unfold not64, u64, wrap, is_word, Z.lnot. intros Hx. symmetry. apply (Z.mod_unique _ _ (-1)); lia. Qed.

Lemma sc_negate_spec (a : secp256k1_scalar) : sc_ok a → sc_ok (secp256k1_scalar_negate a) ∧ sc_val (secp256k1_scalar_negate a) = (- sc_val a) mod secp_n.
Proof.
  intros Ha. pose proof (sc_ok_range a Ha). destruct Ha as [(A0 & A1 & A2 & A3) _]. unfold secp256k1_scalar_negate. rewrite sc_is_zero_spec by done.
  destruct (Z.eqb_spec (sc_val a) 0) as [E|E]; cbn [negb Z.b2z].
  - change (u64 (0xFFFFFFFFFFFFFFFF * 0)) with 0. rewrite sc_carry_masked_zero, E. done.
  - change (u64 (0xFFFFFFFFFFFFFFFF * 1)) with 0xFFFFFFFFFFFFFFFF. rewrite sc_carry_masked_ones, !not64_word by done.
    unfold u128, is_word, SECP256K1_N_0, SECP256K1_N_1, SECP256K1_N_2, SECP256K1_N_3 in *. rewrite !wrap_small by (unfold is_word; lia).
    match goal with |- context [sc_carry ?x ?y ?z ?t] => pose proof (sc_carry_spec x y z t ltac:(lia) ltac:(lia) ltac:(lia) ltac:(lia)) as Hs; destruct (sc_carry x y z t) as [r c] end.
    destruct Hs as (Hr & Hc & Es). cbn [fst]. pose proof (sc_words_val r Hr). assert (sc_val r = secp_n - sc_val a) as Ev by (unfold sc_val, secp_n in *; lia).
    unfold sc_ok. rewrite Ev. split; [split; [done|lia]|]. apply (Z.mod_unique _ _ (-1)); lia.
Qed.

Lemma land_mask (w x : Z) : 0 <= w → is_word w x → x .& (2 ^ w - 1) = x.
Proof. intros Hw Hx. rewrite land_ones_mod by done. by apply Z.mod_small. Qed.

Lemma lxor_ones (w x : Z) : 0 <= w → is_word w x → x .^ (2 ^ w - 1) = 2 ^ w - 1 - x.
Proof.
  intros Hw Hx. assert (x .& (x .^ (2 ^ w - 1)) = 0) as E.
  { apply Z.bits_inj_0. intros k. rewrite <- (land_mask w x Hw Hx) at 1. rewrite !Z.land_spec, Z.lxor_spec. by destruct (Z.testbit x k), (Z.testbit (2 ^ w - 1) k). }
  apply Z.add_nocarry_lxor in E. rewrite <- Z.lxor_assoc, Z.lxor_nilpotent, Z.lxor_0_l in E. lia.
Qed.

Lemma sc_cond_negate_spec (r : secp256k1_scalar) (flag : bool) :
  sc_ok r → (secp256k1_scalar_cond_negate r flag).2 = (if flag then -1 else 1) ∧
  sc_val (secp256k1_scalar_cond_negate r flag).1 = (if flag then - sc_val r else sc_val r) mod secp_n ∧ sc_ok (secp256k1_scalar_cond_negate r flag).1.
Proof.
  intros Hr. pose proof (sc_ok_range r Hr) as Hb. pose proof Hr as [(A0 & A1 & A2 & A3) _]. unfold secp256k1_scalar_cond_negate. cbn [fst snd].
  destruct flag; cbn [negb Z.b2z].
  - change (u64 (0 - 1)) with (2 ^ 64 - 1). rewrite !(lxor_ones 64), !(land_mask 64) by (done || lia).
    destruct (sc_negate_spec r Hr) as [Hok <-]. assert (secp256k1_scalar_negate r = sc_carry_masked (u64 (Z.b2z (secp256k1_scalar_is_zero r) - 1))
      (u128 (2 ^ 64 - 1 - sc_d0 r + (SECP256K1_N_0 + 1))) (u128 (2 ^ 64 - 1 - sc_d1 r + SECP256K1_N_1)) (u128 (2 ^ 64 - 1 - sc_d2 r + SECP256K1_N_2))
      (u128 (2 ^ 64 - 1 - sc_d3 r + SECP256K1_N_3))) as <-; [|done].
    unfold secp256k1_scalar_negate. rewrite !not64_word, <- Z.add_assoc by done. f_equal. by destruct (secp256k1_scalar_is_zero r).
  - change (u64 (1 - 1)) with 0. rewrite !Z.lxor_0_r, !Z.land_0_r, !Z.add_0_r. split; [done|]. rewrite sc_is_zero_spec by done.
    assert (sc_carry_masked (u64 (Z.b2z (sc_val r =? 0) - 1)) (u128 (sc_d0 r)) (u128 (sc_d1 r)) (u128 (sc_d2 r)) (u128 (sc_d3 r)) = r) as ->.
    { destruct r as [d0 d1 d2 d3]. unfold sc_val in *. cbn [sc_d0 sc_d1 sc_d2 sc_d3] in *. unfold u128. unfold is_word in *. rewrite !(wrap_small 128) by (unfold is_word; lia).
      destruct (Z.eqb_spec (d0 + d1 * 2 ^ 64 + d2 * 2 ^ 128 + d3 * 2 ^ 192) 0); cbn [Z.b2z].
      - change (u64 (1 - 1)) with 0. rewrite sc_carry_masked_zero. f_equal; lia.
      - change (u64 (0 - 1)) with 0xFFFFFFFFFFFFFFFF. rewrite sc_carry_masked_ones.
        match goal with |- context [sc_carry ?x ?y ?z ?t] => pose proof (sc_carry_spec x y z t ltac:(lia) ltac:(lia) ltac:(lia) ltac:(lia)) as Hs; destruct (sc_carry x y z t) as [s c] end.
        destruct Hs as ((S0 & S1 & S2 & S3) & Hc & Es). destruct s as [s0 s1 s2 s3]. unfold sc_val, is_word in *. cbn in *. f_equal; lia. }
    rewrite Z.mod_small by done. done.
Qed.

(** ** Bytes *)

Lemma sc_read_spec (b : list Z) (i : nat) :
  (∀ k, is_byte (b.[k])) →
  sc_read b i = b.[i + 7] + b.[i + 6] * 2 ^ 8 + b.[i + 5] * 2 ^ 16 + b.[i + 4] * 2 ^ 24 + b.[i + 3] * 2 ^ 32 + b.[i + 2] * 2 ^ 40
    + b.[i + 1] * 2 ^ 48 + b.[i] * 2 ^ 56 ∧ is_word 64 (sc_read b i).
Proof.
  intros B. unfold sc_read. pose proof (B (i + 7)%nat). pose proof (B (i + 6)%nat). pose proof (B (i + 5)%nat). pose proof (B (i + 4)%nat).
  pose proof (B (i + 3)%nat). pose proof (B (i + 2)%nat). pose proof (B (i + 1)%nat). pose proof (B i). unfold is_byte, is_word in *. rewrite !shl_mul by lia.
  rewrite (lor_add _ _ 8), (lor_add _ _ 16), (lor_add _ _ 24), (lor_add _ _ 32), (lor_add _ _ 40), (lor_add _ _ 48), (lor_add _ _ 56) by lia. split; [done|lia].
Qed.

Lemma sc_set_b32_spec (b : list Z) :
  bytes_ok b → length b = 32%nat →
  sc_ok (secp256k1_scalar_set_b32 b).1 ∧ sc_val (secp256k1_scalar_set_b32 b).1 = be_val b mod secp_n ∧
  (secp256k1_scalar_set_b32 b).2 = (secp_n <=? be_val b).
Proof.
  intros Hb Hl. unfold secp256k1_scalar_set_b32. cbn [fst snd]. assert (∀ i, is_byte (b.[i])) as B by (intros; by apply aget_bytes).
  destruct (sc_read_spec b 24 B) as [E0 W0], (sc_read_spec b 16 B) as [E1 W1], (sc_read_spec b 8 B) as [E2 W2], (sc_read_spec b 0 B) as [E3 W3].
  set (r := MkScalar _ _ _ _). assert (sc_words r) as Hr by done. assert (sc_val r = be_val b) as Ev.
  { unfold r, sc_val. cbn [sc_d0 sc_d1 sc_d2 sc_d3]. rewrite E0, E1, E2, E3. rewrite (list_32 b Hl) at 33. unfold be_val. cbn -[Z.add Z.mul aget]. lia. }
  pose proof (sc_words_val r Hr). destruct (sc_final_spec r 0 (sc_val r) Hr) as [Hok Hv]; [lia|lia|unfold secp_n; lia|].
  rewrite Z.add_0_l in Hok, Hv. assert (∀ f : bool, u32 (Z.b2z f) = Z.b2z f) as Hu by (by intros []). rewrite Hu in Hok, Hv.
  rewrite <- Ev. by rewrite <- check_overflow_spec.
Qed.

Lemma sc_write_spec (d : Z) : is_word 64 d → length (sc_write d) = 8%nat ∧ bytes_ok (sc_write d) ∧ be_val (sc_write d) = d.
Proof.
  intros Hd. split; [done|]. split; [repeat (constructor; [by apply is_word_wrap|]); constructor|].
  unfold sc_write, be_val. cbn -[Z.add Z.mul Z.pow]. unfold u8, wrap, is_word in *. rewrite !shr_div by lia. 
  change (2 ^ 8) with 256. Z.div_mod_to_equations. lia.
Qed.

Lemma be_val_app (a b : list Z) : be_val (a ++ b) = be_val a * 2 ^ (8 * length b) + be_val b.
Proof. unfold be_val. rewrite reverse_app, le_val_app, length_reverse by lia. lia. Qed.

Lemma sc_get_b32_spec (a : secp256k1_scalar) :
  sc_words a → length (secp256k1_scalar_get_b32 a) = 32%nat ∧ bytes_ok (secp256k1_scalar_get_b32 a) ∧ be_val (secp256k1_scalar_get_b32 a) = sc_val a.
Proof.
  intros (H0 & H1 & H2 & H3). unfold secp256k1_scalar_get_b32. destruct (sc_write_spec _ H0) as (L0 & B0 & E0), (sc_write_spec _ H1) as (L1 & B1 & E1),
    (sc_write_spec _ H2) as (L2 & B2 & E2), (sc_write_spec _ H3) as (L3 & B3 & E3).
  split; [done|]. split; [by repeat apply Forall_app_2|]. rewrite !be_val_app, !length_app, L0, L1, L2, E0, E1, E2, E3. unfold sc_val. lia.
Qed.

Lemma sc_val_inj (a b : secp256k1_scalar) : sc_words a → sc_words b → sc_val a = sc_val b → a = b.
Proof.
  destruct a, b. intros (? & ? & ? & ?) (? & ? & ? & ?) E. unfold sc_val, is_word in *. cbn in *. f_equal; lia.
Qed.

Lemma sc_eq_spec (a b : secp256k1_scalar) : sc_words a → sc_words b → secp256k1_scalar_eq a b = (sc_val a =? sc_val b).
Proof.
  intros Ha Hb. unfold secp256k1_scalar_eq. rewrite !lor_zero. apply eq_true_iff_eq. rewrite !andb_true_iff, !Z.eqb_eq, !Z.lxor_eq_0_iff. split.
  - intros [[[E0 E1] E2] E3]. unfold sc_val. by rewrite E0, E1, E2, E3.
  - intros E. apply sc_val_inj in E as ->; done.
Qed.

(** ** Bits *)

Lemma sc_limb_bits (a : secp256k1_scalar) (i k : Z) : sc_words a → 0 <= i < 4 → 0 <= k < 64 → Z.testbit (sc_limb a i) k = Z.testbit (sc_val a) (64 * i + k).
Proof.
  intros (H0 & H1 & H2 & H3) Hi Hk. assert (sc_limb a i = (sc_val a / 2 ^ (64 * i)) mod 2 ^ 64) as ->.
  { destruct a as [d0 d1 d2 d3]. unfold sc_val, is_word in *. cbn [sc_d0 sc_d1 sc_d2 sc_d3] in *.
    assert (i = 0 ∨ i = 1 ∨ i = 2 ∨ i = 3) as [->|[->|[->| ->]]] by lia; cbn [sc_limb sc_d0 sc_d1 sc_d2 sc_d3].
    - change (2 ^ (64 * 0)) with 1. rewrite Z.div_1_r. apply (Z.mod_unique _ _ (d1 + d2 * 2 ^ 64 + d3 * 2 ^ 128)); lia.
    - change (2 ^ (64 * 1)) with (2 ^ 64). rewrite <- (Z.div_unique _ (2 ^ 64) (d1 + d2 * 2 ^ 64 + d3 * 2 ^ 128) d0) by lia.
      apply (Z.mod_unique _ _ (d2 + d3 * 2 ^ 64)); lia.
    - change (2 ^ (64 * 2)) with (2 ^ 128). rewrite <- (Z.div_unique _ (2 ^ 128) (d2 + d3 * 2 ^ 64) (d0 + d1 * 2 ^ 64)) by lia.
      apply (Z.mod_unique _ _ d3); lia.
    - change (2 ^ (64 * 3)) with (2 ^ 192). rewrite <- (Z.div_unique _ (2 ^ 192) d3 (d0 + d1 * 2 ^ 64 + d2 * 2 ^ 128)) by lia.
      apply (Z.mod_unique _ _ 0); lia. }
  rewrite Z.mod_pow2_bits_low, Z.div_pow2_bits by lia. f_equal. lia.
Qed.

Lemma sc_limb_high (a : secp256k1_scalar) (i k : Z) : sc_words a → 64 <= k → Z.testbit (sc_limb a i) k = false.
Proof.
  intros Ha Hk. assert (is_word 64 (sc_limb a i)) as Hl by (destruct Ha as (? & ? & ? & ?); by destruct i as [|[| [|[]|]|]|]).
  rewrite <- (wrap_small 64 _ Hl). by apply Z.mod_pow2_bits_high.
Qed.

(** The bits a mask leaves are the number below a power of two. *)
Lemma masked_bits (x v offset count : Z) :
  0 <= offset → 0 <= count <= 32 → (∀ k, 0 <= k < count → Z.testbit x k = Z.testbit v (offset + k)) →
  u32 (x .& (u64 (1 .<< count) - 1)) = (v / 2 ^ offset) mod 2 ^ count.
Proof.
  intros Ho Hc Hx. assert (2 ^ count <= 2 ^ 32) by (apply Z.pow_le_mono_r; lia). pose proof (Z.pow_pos_nonneg 2 count ltac:(lia) ltac:(lia)).
  rewrite shl_mul, Z.mul_1_l by lia. unfold u64. rewrite wrap_small by (unfold is_word; lia). rewrite land_ones_mod by lia.
  unfold u32. rewrite wrap_small by (unfold is_word; pose proof (Z.mod_pos_bound x (2 ^ count)); lia).
  apply Z.bits_inj'. intros k Hk. destruct (Z.lt_ge_cases k count).
  - rewrite !Z.mod_pow2_bits_low, Z.div_pow2_bits, Hx by lia. f_equal. lia.
  - by rewrite !Z.mod_pow2_bits_high by lia.
Qed.

Lemma offset_split (offset : Z) :
  0 <= offset < 256 → 0 <= offset .>> 6 < 4 ∧ offset .& 0x3F = offset mod 64 ∧ offset = 64 * (offset .>> 6) + offset mod 64 ∧ 0 <= offset mod 64 < 64.
Proof.
  intros Ho. rewrite shr_div by lia. change (offset .& 0x3F) with (offset .& (2 ^ 6 - 1)). rewrite land_ones_mod by lia. change (2 ^ 6) with 64.
  Z.div_mod_to_equations. lia.
Qed.

Lemma sc_get_bits_spec (a : secp256k1_scalar) (offset count : Z) :
  sc_words a → 0 <= offset < 256 → 0 <= count <= 32 → offset mod 64 + count <= 64 →
  secp256k1_scalar_get_bits a offset count = (sc_val a / 2 ^ offset) mod 2 ^ count.
Proof.
  intros Ha Ho Hc Hs. unfold secp256k1_scalar_get_bits. destruct (offset_split offset Ho) as (Hi & -> & E & Hr). apply masked_bits; [lia|lia|].
  intros k Hk. rewrite Z.shiftr_spec, sc_limb_bits by (done || lia). f_equal. lia.
Qed.

Lemma sc_get_bits_var_spec (a : secp256k1_scalar) (offset count : Z) :
  sc_words a → 0 <= offset → 0 < count < 32 → offset + count <= 256 →
  secp256k1_scalar_get_bits_var a offset count = (sc_val a / 2 ^ offset) mod 2 ^ count.
Proof.
  intros Ha Ho Hc Hs. unfold secp256k1_scalar_get_bits_var. destruct (offset_split offset ltac:(lia)) as (Hi & Em & E & Hr).
  destruct (Z.eqb_spec ((offset + count - 1) .>> 6) (offset .>> 6)) as [Es|Es].
  - apply sc_get_bits_spec; [done|lia|lia|]. rewrite (shr_div (_ - 1)) in Es by lia. pose proof (Z.div_mod (offset + count - 1) (2 ^ 6) ltac:(lia)).
    pose proof (Z.mod_pos_bound (offset + count - 1) (2 ^ 6) ltac:(lia)). lia.
  - rewrite Em. assert (64 < offset mod 64 + count).
    { apply Z.nle_gt. intros Hle. apply Es. rewrite (shr_div (_ - 1)) by lia. symmetry. apply (Z.div_unique _ _ _ (offset mod 64 + count - 1)); lia. }
    apply masked_bits; [lia|lia|]. intros k Hk. rewrite Z.lor_spec, Z.shiftr_spec by lia. unfold u64, wrap.
    rewrite Z.mod_pow2_bits_low, Z.shiftl_spec by lia. destruct (Z.lt_ge_cases (offset mod 64 + k) 64).
    + rewrite sc_limb_bits by (done || lia). rewrite (Z.testbit_neg_r _ (k - _)), orb_false_r by lia. f_equal. lia.
    + rewrite (sc_limb_high a), sc_limb_bits, orb_false_l by (done || lia). f_equal. lia.
Qed.

(** ** The inverse *)

Definition sc_pow (v e : Z) (r : secp256k1_scalar) : Prop := 0 <= e ∧ sc_ok r ∧ sc_val r = v ^ e mod secp_n.

Lemma sc_pow_mul (v e e' : Z) (r r' : secp256k1_scalar) : sc_pow v e r → sc_pow v e' r' → sc_pow v (e + e') (secp256k1_scalar_mul r r').
Proof.
  intros (He & Hr & Ev) (He' & Hr' & Ev'). destruct (sc_mul_spec r r' (proj1 Hr) (proj1 Hr')) as [Hok Hv]. split_and!; [lia|done|].
  by rewrite Hv, Ev, Ev', Z.pow_add_r, <- Zmult_mod by lia.
Qed.

Lemma sc_pow_sqr (v e : Z) (r : secp256k1_scalar) : sc_pow v e r → sc_pow v (e * 2) (secp256k1_scalar_sqr r).
Proof.
  intros (He & Hr & Ev). destruct (sc_sqr_spec r (proj1 Hr)) as [Hok Hv]. split_and!; [lia|done|].
  replace (e * 2) with (e + e) by lia. by rewrite Hv, Ev, Z.pow_add_r, <- Zmult_mod by lia.
Qed.

Lemma sc_pow_sqr_n (v e : Z) (n : nat) (r : secp256k1_scalar) : sc_pow v e r → sc_pow v (e * 2 ^ n) (sc_sqr_n n r).
Proof.
  intros Hr. induction n as [|n IH]; [by rewrite Z.mul_1_r|]. rewrite Nat2Z.inj_succ, Z.pow_succ_r, (Z.mul_comm 2), Z.mul_assoc by lia.
  by apply sc_pow_sqr.
Qed.

Lemma sc_pow_eq (v e e' : Z) (r : secp256k1_scalar) : sc_pow v e r → e = e' → sc_pow v e' r.
Proof. by intros ? <-. Qed.

Lemma sc_pow_1 (x : secp256k1_scalar) : sc_ok x → sc_pow (sc_val x) 1 x.
Proof. intros Hx. split_and!; [lia|done|]. rewrite Z.pow_1_r. symmetry. by apply Z.mod_small, sc_ok_range. Qed.

#[local] Opaque secp256k1_scalar_mul secp256k1_scalar_sqr sc_sqr_n sc_pow.

(** One step of the chain: what is computed is the power of the sum of the exponents. *)
Ltac sc_power := eapply sc_pow_eq; [repeat first [eassumption|apply sc_pow_mul|apply sc_pow_sqr_n|apply sc_pow_sqr]|vm_compute; reflexivity].
Ltac sc_chain :=
  repeat lazymatch goal with
  | |- sc_pow ?v ?e (let y := ?t in @?b y) =>
      let H := fresh "H" in let z := fresh y in
      eassert (sc_pow v _ t) as H by sc_power; change (sc_pow v e (b t)); revert H; generalize t; intros z H; cbv beta
  end.

Lemma sc_inverse_pow (x : secp256k1_scalar) : sc_ok x → sc_pow (sc_val x) (secp_n - 2) (secp256k1_scalar_inverse x).
Proof. intros Hx. pose proof (sc_pow_1 x Hx). cbv delta [secp256k1_scalar_inverse] beta. sc_chain. sc_power. Qed.

#[local] Transparent sc_pow.

Lemma sc_inverse_spec (x : secp256k1_scalar) :
  sc_ok x → sc_ok (secp256k1_scalar_inverse x) ∧ (sc_val x ≠ 0 → (sc_val x * sc_val (secp256k1_scalar_inverse x)) mod secp_n = 1).
Proof.
  intros Hx. destruct (sc_inverse_pow x Hx) as (_ & Hok & Hv). split; [done|]. intros Hz. pose proof (sc_ok_range x Hx).
  rewrite Hv, Zmult_mod_idemp_r, <- Z.pow_succ_r by done. change (Z.succ (secp_n - 2)) with (secp_n - 1). apply Z.fermat_nz; [exact prime_order|]. rewrite Z.mod_small; lia.
Qed.

(** ** Properties *)

(** scalar arithmetic is arithmetic modulo the order of the group.  On reduced scalars the product, square, sum and
    negation are the reduced ones, the inverse of a non-zero scalar multiplies with it to one, and the comparisons answer
    for the numbers. *)
Theorem scalar_arithmetic_correct (a b : secp256k1_scalar) (flag : bool) :
  sc_ok a → sc_ok b →
  sc_ok (secp256k1_scalar_mul a b) ∧ sc_val (secp256k1_scalar_mul a b) = (sc_val a * sc_val b) mod secp_n ∧
  secp256k1_scalar_sqr a = secp256k1_scalar_mul a a ∧
  sc_ok (secp256k1_scalar_add a b).1 ∧ sc_val (secp256k1_scalar_add a b).1 = (sc_val a + sc_val b) mod secp_n ∧
  (secp256k1_scalar_add a b).2 = Z.b2z (secp_n <=? sc_val a + sc_val b) ∧
  sc_ok (secp256k1_scalar_negate a) ∧ sc_val (secp256k1_scalar_negate a) = (- sc_val a) mod secp_n ∧
  sc_ok (secp256k1_scalar_inverse a) ∧ (sc_val a ≠ 0 → (sc_val a * sc_val (secp256k1_scalar_inverse a)) mod secp_n = 1) ∧
  sc_ok (secp256k1_scalar_cond_negate a flag).1 ∧
  sc_val (secp256k1_scalar_cond_negate a flag).1 = (if flag then - sc_val a else sc_val a) mod secp_n ∧
  secp256k1_scalar_is_zero a = (sc_val a =? 0) ∧ secp256k1_scalar_is_high a = (secp_n / 2 <? sc_val a) ∧
  secp256k1_scalar_eq a b = (sc_val a =? sc_val b).
Proof.
  intros Ha Hb. pose proof (proj1 Ha) as Wa. pose proof (proj1 Hb) as Wb. destruct (sc_mul_spec a b Wa Wb) as [Mok Mv].
  pose proof (sc_add_spec a b Ha Hb) as Hs. destruct (secp256k1_scalar_add a b) as [r o]. destruct Hs as (Sok & Sv & So).
  destruct (sc_negate_spec a Ha) as [Nok Nv]. destruct (sc_inverse_spec a Ha) as [Iok Iv].
  split_and!; try assumption; [|by apply sc_cond_negate_spec|by apply sc_cond_negate_spec|by apply sc_is_zero_spec|by apply sc_is_high_spec|by apply sc_eq_spec].
  destruct (sc_sqr_spec a Wa) as [[? _] E], (sc_mul_spec a a Wa Wa) as [[? _] E']. apply sc_val_inj; [done..|]. congruence.
Qed.

(** a scalar survives being written and read as 32 bytes; reading reports an overflow exactly for numbers
    not below the order, and then reduces; the bit windows are those of the number. *)
Theorem scalar_codecs_correct (a : secp256k1_scalar) (b : list Z) (offset count : Z) :
  sc_ok a → bytes_ok b → length b = 32%nat → 0 <= offset → 0 < count < 32 → offset + count <= 256 →
  secp256k1_scalar_set_b32 (secp256k1_scalar_get_b32 a) = (a, false) ∧
  sc_val (secp256k1_scalar_set_b32 b).1 = be_val b mod secp_n ∧ (secp256k1_scalar_set_b32 b).2 = (secp_n <=? be_val b) ∧
  (be_val b < secp_n → secp256k1_scalar_get_b32 (secp256k1_scalar_set_b32 b).1 = b) ∧
  secp256k1_scalar_get_bits_var a offset count = (sc_val a / 2 ^ offset) mod 2 ^ count.
Proof.
  intros Ha Hb Hl Ho Hc Hs. destruct (sc_get_b32_spec a (proj1 Ha)) as (La & Ba & Ea). destruct (sc_set_b32_spec b Hb Hl) as (Bok & Bv & Bo).
  pose proof (sc_ok_range a Ha). split_and!; [|done|done| |by apply sc_get_bits_var_spec; [apply Ha|..]].
  - destruct (sc_set_b32_spec _ Ba La) as ([Rw _] & Rv & Ro). rewrite Ea in Rv, Ro. rewrite (surjective_pairing (secp256k1_scalar_set_b32 _)), Ro.
    f_equal; [|apply Z.leb_gt; lia]. apply sc_val_inj; [done|apply Ha|]. rewrite Rv. by apply Z.mod_small.
  - intros Hlt. destruct (sc_get_b32_spec _ (proj1 Bok)) as (L' & B' & E'). apply be_val_inj; [done|done|lia|]. rewrite E', Bv. apply Z.mod_small.
    split; [|done]. unfold be_val. by apply le_val_range, Forall_reverse.
Qed.

(** ** Witnesses *)

Definition demo_scalar : secp256k1_scalar := MkScalar 0xBFD25E8CD0364140 0xBAAEDCE6AF48A03B 0xFFFFFFFFFFFFFFFE 0xFFFFFFFFFFFFFFFF.

Lemma demo_scalar_ok : sc_ok demo_scalar.
Proof. unfold sc_ok, sc_words, is_word. cbn. unfold sc_val, secp_n. cbn. lia. Qed.

Lemma scalar_arithmetic_correct_witness : (sc_val demo_scalar * sc_val (secp256k1_scalar_inverse demo_scalar)) mod secp_n = 1.
Proof.
  destruct (scalar_arithmetic_correct demo_scalar demo_scalar true demo_scalar_ok demo_scalar_ok) as (_ & _ & _ & _ & _ & _ & _ & _ & _ & E & _). by apply E.
Defined.

Lemma scalar_codecs_correct_witness : secp256k1_scalar_set_b32 (secp256k1_scalar_get_b32 demo_scalar) = (demo_scalar, false).
Proof.
  destruct (scalar_codecs_correct demo_scalar (replicate 32 255) 60 10) as (E & _); [exact demo_scalar_ok|by apply Forall_replicate|done|lia..|exact E].
Defined.
