(* ===== verification/SecpField.v ===== *)
(** * The field interface of secp256k1
    ([src/src/secp256k1/src/field.h], [src/src/secp256k1/src/field_impl.h])

    [field.h] declares the operations on field elements, and what they require of and do to the
    magnitude of an element; the rest of the library is written against it.  Here it is a class of
    operations with their laws, stated over the residues [Zmod secp_p]; the 64-bit limbs of [Field5x52] are an
    instance.  The functions of [field_impl.h], which every representation shares, follow. *)

From Stdlib Require Import ZArith Lia Zdivisibility Zmod Field.
From S2P Require Import Prelude Common Field5x52 Primes.

Open Scope Z_scope.
Open Scope word_scope.

Abbreviation Fp := (Zmod secp_p).

Class secp256k1_field (fe : Type) := {
  fe_value : fe → Fp;
  fe_magnitude : Z → fe → Prop;
  fe_normalized : fe → Prop;
  fe_normalize : fe → fe;
  fe_normalize_weak : fe → fe;
  fe_normalize_var : fe → fe;
  fe_normalizes_to_zero : fe → bool;
  fe_normalizes_to_zero_var : fe → bool;
  fe_set_int : Z → fe;
  fe_clear : fe;
  fe_is_zero : fe → bool;
  fe_is_odd : fe → bool;
  fe_set_b32 : list Z → fe * bool;
  fe_get_b32 : fe → list Z;
  fe_negate : fe → Z → fe;
  fe_mul_int : fe → Z → fe;
  fe_add : fe → fe → fe;
  fe_mul : fe → fe → fe;
  fe_sqr : fe → fe;
  fe_cmov : fe → fe → bool → fe
}.

(** What the comments of [field.h] promise *)
Class secp256k1_field_laws (fe : Type) `{secp256k1_field fe} : Prop := {
  magnitude_le (m m' : Z) (a : fe) : m <= m' → fe_magnitude m a → fe_magnitude m' a;
  normalized_magnitude (a : fe) : fe_normalized a → fe_magnitude 1 a;
  normalized_inj (a b : fe) : fe_normalized a → fe_normalized b → fe_value a = fe_value b → a = b;
  normalize_spec (a : fe) : fe_magnitude 2047 a → fe_normalized (fe_normalize a) ∧ fe_value (fe_normalize a) = fe_value a;
  normalize_var_spec (a : fe) : fe_magnitude 2047 a → fe_normalize_var a = fe_normalize a;
  normalize_weak_spec (a : fe) :
    fe_magnitude 2047 a → fe_magnitude 1 (fe_normalize_weak a) ∧ fe_value (fe_normalize_weak a) = fe_value a;
  normalizes_to_zero_spec (a : fe) : fe_magnitude 2047 a → fe_normalizes_to_zero a = Zmod.eqb (fe_value a) Zmod.zero;
  normalizes_to_zero_var_spec (a : fe) : fe_magnitude 2047 a → fe_normalizes_to_zero_var a = Zmod.eqb (fe_value a) Zmod.zero;
  set_int_spec (k : Z) : 0 <= k < 2 ^ 31 → fe_normalized (fe_set_int k) ∧ fe_value (fe_set_int k) = Zmod.of_Z secp_p k;
  clear_spec : fe_normalized fe_clear ∧ fe_value fe_clear = Zmod.zero;
  is_zero_spec (a : fe) : fe_normalized a → fe_is_zero a = Zmod.eqb (fe_value a) Zmod.zero;
  is_odd_spec (a : fe) : fe_normalized a → fe_is_odd a = Z.odd (Zmod.unsigned (fe_value a));
  set_b32_spec (b : list Z) :
    bytes_ok b → length b = 32%nat →
    (fe_set_b32 b).2 = (be_val b <? secp_p) ∧ (be_val b < secp_p → fe_normalized (fe_set_b32 b).1) ∧
    fe_value (fe_set_b32 b).1 = Zmod.of_Z secp_p (be_val b);
  get_b32_spec (a : fe) :
    fe_normalized a → length (fe_get_b32 a) = 32%nat ∧ bytes_ok (fe_get_b32 a) ∧ be_val (fe_get_b32 a) = Zmod.unsigned (fe_value a);
  negate_spec (m : Z) (a : fe) :
    fe_magnitude m a → 0 <= m <= 2047 → fe_magnitude (m + 1) (fe_negate a m) ∧ fe_value (fe_negate a m) = Zmod.opp (fe_value a);
  mul_int_spec (m k : Z) (a : fe) :
    fe_magnitude m a → 0 <= k → m * k <= 2048 →
    fe_magnitude (m * k) (fe_mul_int a k) ∧ fe_value (fe_mul_int a k) = Zmod.mul (fe_value a) (Zmod.of_Z secp_p k);
  add_spec (m m' : Z) (a b : fe) :
    fe_magnitude m a → fe_magnitude m' b → m + m' <= 2048 →
    fe_magnitude (m + m') (fe_add a b) ∧ fe_value (fe_add a b) = Zmod.add (fe_value a) (fe_value b);
  mul_spec (a b : fe) :
    fe_magnitude 8 a → fe_magnitude 8 b → fe_magnitude 1 (fe_mul a b) ∧ fe_value (fe_mul a b) = Zmod.mul (fe_value a) (fe_value b);
  sqr_spec (a : fe) :
    fe_magnitude 8 a → fe_magnitude 1 (fe_sqr a) ∧ fe_value (fe_sqr a) = Zmod.mul (fe_value a) (fe_value a);
  cmov_spec (m : Z) (r a : fe) (flag : bool) :
    fe_magnitude m r → fe_magnitude m a → m <= 2048 → fe_cmov r a flag = if flag then a else r
}.

(** ** The 64-bit representation *)

#[export] Instance field_5x52 : secp256k1_field secp256k1_fe := {|
  fe_value a := Zmod.of_Z secp_p (fe_val a);
  fe_magnitude := fe_mag; fe_normalized := fe_norm;
  fe_normalize := secp256k1_fe_normalize; fe_normalize_weak := secp256k1_fe_normalize_weak;
  fe_normalize_var := secp256k1_fe_normalize_var;
  fe_normalizes_to_zero := secp256k1_fe_normalizes_to_zero; fe_normalizes_to_zero_var := secp256k1_fe_normalizes_to_zero_var;
  fe_set_int := secp256k1_fe_set_int; fe_clear := secp256k1_fe_clear;
  fe_is_zero := secp256k1_fe_is_zero; fe_is_odd := secp256k1_fe_is_odd;
  fe_set_b32 := secp256k1_fe_set_b32; fe_get_b32 := secp256k1_fe_get_b32;
  fe_negate := secp256k1_fe_negate; fe_mul_int := secp256k1_fe_mul_int;
  fe_add := secp256k1_fe_add; fe_mul := secp256k1_fe_mul; fe_sqr := secp256k1_fe_sqr; fe_cmov := secp256k1_fe_cmov |}.

Lemma of_Z_zero (x : Z) : Zmod.eqb (Zmod.of_Z secp_p x) Zmod.zero = (x mod secp_p =? 0).
Proof. unfold Zmod.eqb. by rewrite Zmod.unsigned_of_Z, Zmod.unsigned_0. Qed.

#[export] Instance field_5x52_laws : secp256k1_field_laws secp256k1_fe.
Proof.
  assert (∀ a : secp256k1_fe, fe_norm a → Zmod.unsigned (Zmod.of_Z secp_p (fe_val a)) = fe_val a) as Hu.
  { intros a Ha. rewrite Zmod.unsigned_of_Z. by apply Z.mod_small, fe_norm_range. }
  split; cbn [fe_value fe_magnitude fe_normalized fe_normalize fe_normalize_weak fe_normalize_var fe_normalizes_to_zero
    fe_normalizes_to_zero_var fe_set_int fe_clear fe_is_zero fe_is_odd fe_set_b32 fe_get_b32 fe_negate fe_mul_int fe_add fe_mul fe_sqr
    fe_cmov field_5x52].
  - apply fe_mag_le.
  - apply fe_norm_mag.
  - intros a b Ha Hb E. apply fe_norm_inj; [done..|]. by rewrite <- (Hu a), <- (Hu b), E.
  - intros a Ha. destruct (fe_normalize_spec a Ha) as [Hn ->]. by rewrite Zmod.of_Z_mod.
  - apply fe_normalize_var_eq.
  - intros a Ha. destruct (fe_normalize_weak_spec a Ha) as [Hm E]. by rewrite <- Zmod.of_Z_mod, E, Zmod.of_Z_mod.
  - intros a Ha. by rewrite of_Z_zero, fe_normalizes_to_zero_spec.
  - intros a Ha. by rewrite of_Z_zero, fe_normalizes_to_zero_var_eq, fe_normalizes_to_zero_spec.
  - intros k Hk. by destruct (fe_set_int_spec k Hk) as [? ->].
  - split; [unfold fe_norm, secp256k1_fe_clear, M52, M48, fe_val; cbn; done|by apply Zmod.unsigned_inj].
  - intros a Ha. rewrite of_Z_zero, fe_is_zero_spec, Z.mod_small by (done || by apply fe_norm_range). done.
  - intros a Ha. by rewrite Hu, fe_is_odd_spec.
  - intros b Hb Hl. pose proof (fe_set_b32_spec b Hb Hl) as Hs. destruct (secp256k1_fe_set_b32 b) as [r ok].
    destruct Hs as (Ev & -> & _ & Hn). cbn [fst snd]. by rewrite Ev.
  - intros a Ha. rewrite Hu by done. by apply fe_get_b32_spec.
  - intros m a Ha Hm. destruct (fe_negate_spec m a Ha Hm) as [Hm' ->]. split; [done|].
    rewrite <- Zmod.of_Z_opp. apply Zmod.of_Z_inj. replace (_ - fe_val a) with (- fe_val a + 2 * (m + 1) * secp_p) by lia. apply Z_mod_plus_full.
  - intros m k a Ha Hk Hm. destruct (fe_mul_int_spec m k a Ha Hk Hm) as [? ->]. by rewrite Zmod.of_Z_mul.
  - intros m m' a b Ha Hb Hm. destruct (fe_add_spec m m' a b Ha Hb Hm) as [? ->]. by rewrite Zmod.of_Z_add.
  - intros a b Ha Hb. destruct (fe_mul_spec a b Ha Hb) as [? E]. split; [done|]. rewrite <- Zmod.of_Z_mul. by apply Zmod.of_Z_inj.
  - intros a Ha. unfold secp256k1_fe_sqr. rewrite fe_sqr_inner_mul by done. destruct (fe_mul_spec a a Ha Ha) as [? E].
    split; [done|]. rewrite <- Zmod.of_Z_mul. by apply Zmod.of_Z_inj.
  - apply fe_cmov_spec.
Qed.

(** ** The functions every representation shares *)

Section Shared.
Context {fe : Type} `{secp256k1_field fe}.

Definition fe_equal (a b : fe) : bool := fe_normalizes_to_zero (fe_add (fe_negate a 1) b).
Definition fe_equal_var (a b : fe) : bool := fe_normalizes_to_zero_var (fe_add (fe_negate a 1) b).

(** [for (j=0; j<n; j++) secp256k1_fe_sqr(&x, &x)] *)
Definition fe_sqr_n (n : nat) (x : fe) : fe := Nat.iter n fe_sqr x.

(** The result, and whether it is a square root *)
Definition fe_sqrt (a : fe) : fe * bool :=
  let x2 := fe_mul (fe_sqr a) a in
  let x3 := fe_mul (fe_sqr x2) a in
  let x6 := fe_mul (fe_sqr_n 3 x3) x3 in
  let x9 := fe_mul (fe_sqr_n 3 x6) x3 in
  let x11 := fe_mul (fe_sqr_n 2 x9) x2 in
  let x22 := fe_mul (fe_sqr_n 11 x11) x11 in
  let x44 := fe_mul (fe_sqr_n 22 x22) x22 in
  let x88 := fe_mul (fe_sqr_n 44 x44) x44 in
  let x176 := fe_mul (fe_sqr_n 88 x88) x88 in
  let x220 := fe_mul (fe_sqr_n 44 x176) x44 in
  let x223 := fe_mul (fe_sqr_n 3 x220) x3 in
  let t1 := fe_mul (fe_sqr_n 23 x223) x22 in
  let t1 := fe_mul (fe_sqr_n 6 t1) x2 in
  let t1 := fe_sqr t1 in
  let r := fe_sqr t1 in
  let t1 := fe_sqr r in
  (r, fe_equal t1 a).

Definition fe_inv (a : fe) : fe :=
  let x2 := fe_mul (fe_sqr a) a in
  let x3 := fe_mul (fe_sqr x2) a in
  let x6 := fe_mul (fe_sqr_n 3 x3) x3 in
  let x9 := fe_mul (fe_sqr_n 3 x6) x3 in
  let x11 := fe_mul (fe_sqr_n 2 x9) x2 in
  let x22 := fe_mul (fe_sqr_n 11 x11) x11 in
  let x44 := fe_mul (fe_sqr_n 22 x22) x22 in
  let x88 := fe_mul (fe_sqr_n 44 x44) x44 in
  let x176 := fe_mul (fe_sqr_n 88 x88) x88 in
  let x220 := fe_mul (fe_sqr_n 44 x176) x44 in
  let x223 := fe_mul (fe_sqr_n 3 x220) x3 in
  let t1 := fe_mul (fe_sqr_n 23 x223) x22 in
  let t1 := fe_mul (fe_sqr_n 5 t1) a in
  let t1 := fe_mul (fe_sqr_n 3 t1) x2 in
  let t1 := fe_sqr_n 2 t1 in
  fe_mul a t1.

(** With [USE_FIELD_INV_BUILTIN] and [USE_NUM_NONE], the build without a bignum library *)
Definition fe_inv_var (a : fe) : fe := fe_inv a.
Definition fe_is_quad_var (a : fe) : bool := (fe_sqrt a).2.

(** [secp256k1_fe_inv_all_var]: the running products, one inverse, and back.  The first loop leaves
    the products of the prefixes; the second walks down with [u] the inverse of the product up to [i]. *)
Fixpoint fe_products (acc : fe) (a : list fe) : list fe :=
  match a with
  | [] => []
  | x :: a' => let r := fe_mul acc x in r :: fe_products r a'
  end.

Fixpoint fe_inv_back (u : fe) (l : list (fe * fe)) (r : list fe) : list fe :=
  match l with
  | [] => u :: r
  | (prev, x) :: l' => fe_inv_back (fe_mul u x) l' (fe_mul prev u :: r)
  end.

Definition fe_inv_all_var (a : list fe) : list fe :=
  match a with
  | [] => []
  | x :: a' =>
      let r := x :: fe_products x a' in
      let u := fe_inv_var (default x (list.last r)) in
      fe_inv_back u (reverse (zip r a')) []
  end.
End Shared.

(** ** Powers *)

Lemma pow_add (v : Fp) (e e' : Z) : 0 <= e → 0 <= e' → Zmod.pow v (e + e') = Zmod.mul (Zmod.pow v e) (Zmod.pow v e').
Proof. intros. by apply Zmod.pow_add_r_nonneg. Qed.

Lemma secp_prime : Z.prime secp_p.
Proof. exact prime_field. Qed.

Section Powers.
Context {fe : Type} `{secp256k1_field_laws fe}.

Definition is_pow (v : Fp) (e : Z) (r : fe) : Prop := 0 <= e ∧ fe_magnitude 1 r ∧ fe_value r = Zmod.pow v e.

Lemma is_pow_mul (v : Fp) (e e' : Z) (r r' : fe) : is_pow v e r → is_pow v e' r' → is_pow v (e + e') (fe_mul r r').
Proof.
  intros (He & Hm & Hv) (He' & Hm' & Hv'). destruct (mul_spec r r') as [Hm'' Hv'']; [by apply (magnitude_le 1); [lia|]..|].
  split_and!; [lia|done|]. by rewrite Hv'', Hv, Hv', pow_add.
Qed.

Lemma is_pow_sqr (v : Fp) (e : Z) (r : fe) : is_pow v e r → is_pow v (e * 2) (fe_sqr r).
Proof.
  intros (He & Hm & Hv). destruct (sqr_spec r) as [Hm' Hv']; [by apply (magnitude_le 1); [lia|]|].
  split_and!; [lia|done|]. replace (e * 2) with (e + e) by lia. by rewrite Hv', Hv, pow_add.
Qed.

Lemma is_pow_sqr_n (v : Fp) (e : Z) (n : nat) (r : fe) : is_pow v e r → is_pow v (e * 2 ^ n) (fe_sqr_n n r).
Proof.
  intros Hr. induction n as [|n IH]; [by rewrite Z.mul_1_r|]. rewrite Nat2Z.inj_succ, Z.pow_succ_r, (Z.mul_comm 2), Z.mul_assoc by lia.
  by apply is_pow_sqr.
Qed.

(** The first square and product take an element that may not be reduced. *)
Lemma is_pow_start (a : fe) :
  fe_magnitude 8 a → is_pow (fe_value a) 2 (fe_sqr a) ∧ (∀ e r, is_pow (fe_value a) e r → is_pow (fe_value a) (e + 1) (fe_mul r a)) ∧
    (∀ e r, is_pow (fe_value a) e r → is_pow (fe_value a) (1 + e) (fe_mul a r)).
Proof.
  intros Ha. assert (Zmod.pow (fe_value a) 1 = fe_value a) as E1 by apply Zmod.pow_1_r. split_and!.
  - destruct (sqr_spec a Ha) as [Hm Hv]. split_and!; [lia|done|]. rewrite Hv. change 2 with (1 + 1). by rewrite pow_add, E1.
  - intros e r (He & Hm & Hv). destruct (mul_spec r a) as [Hm' Hv']; [by apply (magnitude_le 1); [lia|]|done|].
    split_and!; [lia|done|]. by rewrite Hv', Hv, pow_add, E1.
  - intros e r (He & Hm & Hv). destruct (mul_spec a r) as [Hm' Hv']; [done|by apply (magnitude_le 1); [lia|]|].
    split_and!; [lia|done|]. by rewrite Hv', Hv, pow_add, E1.
Qed.

Lemma is_pow_eq (v : Fp) (e e' : Z) (r : fe) : is_pow v e r → e = e' → is_pow v e' r.
Proof. by intros ? <-. Qed.

(** Follow an addition chain from the inside out. *)
Ltac addition_chain Hr Hl H2 :=
  eapply is_pow_eq;
  [repeat first [eassumption|exact H2|apply Hr|apply Hl|apply is_pow_sqr_n|apply is_pow_sqr|apply is_pow_mul]
  |vm_compute; reflexivity].

Lemma fe_inv_pow (a : fe) : fe_magnitude 8 a → is_pow (fe_value a) (secp_p - 2) (fe_inv a).
Proof. intros Ha. destruct (is_pow_start a Ha) as (H2 & Hr & Hl). unfold fe_inv. addition_chain Hr Hl H2. Qed.

Lemma fe_sqrt_pow (a : fe) : fe_magnitude 8 a → is_pow (fe_value a) ((secp_p + 1) / 4) (fe_sqrt a).1.
Proof. intros Ha. destruct (is_pow_start a Ha) as (H2 & Hr & Hl). unfold fe_sqrt. cbn [fst]. addition_chain Hr Hl H2. Qed.
End Powers.

(** ** Correctness *)

Section SharedFacts.
Context {fe : Type} `{secp256k1_field_laws fe}.

Add Field Fp_field : (Zmod.field_theory secp_p secp_prime).

Lemma eqb_sub (x y : Fp) : Zmod.eqb (Zmod.add (Zmod.opp x) y) Zmod.zero = Zmod.eqb x y.
Proof.
  apply eq_true_iff_eq. rewrite !Zmod.eqb_eq. split; [|intros ->; ring].
  intros E. transitivity (Zmod.add (Zmod.add (Zmod.opp x) y) x); [rewrite E|]; ring.
Qed.

Lemma fe_equal_spec (m : Z) (a b : fe) :
  fe_magnitude 1 a → fe_magnitude m b → m <= 2045 →
  fe_equal a b = Zmod.eqb (fe_value a) (fe_value b) ∧ fe_equal_var a b = Zmod.eqb (fe_value a) (fe_value b).
Proof.
  intros Ha Hb Hm. destruct (negate_spec 1 a Ha ltac:(lia)) as [Hn Vn]. destruct (add_spec 2 m _ b Hn Hb ltac:(lia)) as [Hs Vs].
  assert (fe_magnitude 2047 (fe_add (fe_negate a 1) b)) by (by apply (magnitude_le (2 + m)); [lia|]).
  unfold fe_equal, fe_equal_var. by rewrite normalizes_to_zero_spec, normalizes_to_zero_var_spec, Vs, Vn, eqb_sub.
Qed.

Lemma fe_inv_spec (a : fe) : fe_magnitude 8 a → fe_magnitude 1 (fe_inv a) ∧ fe_value (fe_inv a) = Zmod.inv (fe_value a).
Proof.
  intros Ha. destruct (fe_inv_pow a Ha) as (_ & Hm & ->). split; [done|].
  destruct (Zmod.eqb_spec (fe_value a) Zmod.zero) as [->|Hz]; [|by apply Zmod.fermat_inv, secp_prime].
  rewrite Zmod.inv_0. apply Zmod.pow_0_l. unfold secp_p. lia.
Qed.

(** If the value has a root, the power is one of the two. *)
Lemma root_pow (y : Fp) :
  Zmod.pow (Zmod.mul y y) ((secp_p + 1) / 4) = y ∨ Zmod.pow (Zmod.mul y y) ((secp_p + 1) / 4) = Zmod.opp y.
Proof.
  destruct (Zmod.eqb_spec y Zmod.zero) as [->|Hz].
  { left. rewrite Zmod.mul_0_l. apply Zmod.pow_0_l. vm_compute. done. }
  apply (Zmod.square_roots_opp_prime secp_prime). rewrite !Zmod.pow_2_r.
  set (e := (secp_p + 1) / 4). assert (Zmod.mul y y = Zmod.pow y 2) as -> by (by rewrite Zmod.pow_2_r).
  rewrite <- Zmod.pow_mul_r_nonneg, <- pow_add by (vm_compute; done).
  replace (2 * e + 2 * e) with (Z.pred secp_p + 2) by (vm_compute; reflexivity).
  rewrite pow_add by (vm_compute; done). rewrite (Zmod.fermat_nz y Hz secp_prime). apply Zmod.mul_1_l.
Qed.

Lemma fe_sqrt_spec (a : fe) :
  fe_magnitude 8 a →
  let '(r, ok) := fe_sqrt a in
  fe_magnitude 1 r ∧ (ok = true ↔ ∃ y, fe_value a = Zmod.mul y y) ∧ (ok = true → fe_value a = Zmod.mul (fe_value r) (fe_value r)).
Proof.
  intros Ha. pose proof (fe_sqrt_pow a Ha) as (_ & Hm & Hv). destruct (fe_sqrt a) as [r ok] eqn:E. cbn [fst] in *.
  assert (ok = Zmod.eqb (Zmod.mul (fe_value r) (fe_value r)) (fe_value a)) as ->.
  { unfold fe_sqrt in E. injection E as Er Eok. rewrite Er in Eok. destruct (sqr_spec r) as [Hs Vs]; [by apply (magnitude_le 1); [lia|]|].
    rewrite <- Eok, <- Vs. apply (fe_equal_spec 8 _ a); [done|done|lia]. }
  split; [done|]. rewrite Zmod.eqb_eq. split; [|done]. split; [intros <-; by eexists|].
  intros [y Ey]. rewrite Hv, Ey. destruct (root_pow y) as [-> | ->]; ring.
Qed.

(** *** Inverting many elements with one inverse *)

Definition fe_unit (x : fe) : Prop := fe_magnitude 8 x ∧ fe_value x ≠ Zmod.zero.

(** [P] is the product so far of the pairs that are left, each a prefix product and the next element. *)
Fixpoint prefixes (P : Fp) (x0 : fe) (l : list (fe * fe)) : Prop :=
  match l with
  | [] => P = fe_value x0
  | (prev, x) :: l' => fe_magnitude 8 prev ∧ fe_unit x ∧ P = Zmod.mul (fe_value prev) (fe_value x) ∧ prefixes (fe_value prev) x0 l'
  end.

Lemma prefixes_nonzero (P : Fp) (x0 : fe) (l : list (fe * fe)) : fe_unit x0 → prefixes P x0 l → P ≠ Zmod.zero.
Proof.
  intros [_ Hx]. revert P. induction l as [|[prev x] l IH]; cbn; intros P; [by intros ->|].
  intros (_ & [_ Hx'] & -> & Hp) E. apply IH in Hp. by apply (Zmod.mul_0_iff_prime secp_prime) in E as [?|?].
Qed.

Lemma fe_inv_back_spec (l : list (fe * fe)) (P : Fp) (x0 u : fe) (r : list fe) :
  fe_unit x0 → prefixes P x0 l → fe_magnitude 8 u → fe_value u = Zmod.inv P →
  fe_value <$> fe_inv_back u l r = (Zmod.inv ∘ fe_value <$> x0 :: reverse l.*2) ++ (fe_value <$> r).
Proof.
  intros Hx0. revert P u r. induction l as [|[prev x] l IH]; cbn [fe_inv_back prefixes]; intros P u r.
  { intros -> Hu Vu. cbn. by rewrite Vu. }
  intros (Hm & [Hxm Hx] & -> & Hp) Hu Vu. pose proof (prefixes_nonzero _ _ _ Hx0 Hp) as Hprev.
  destruct (mul_spec u x Hu Hxm) as [Hux Vux]. destruct (mul_spec prev u Hm Hu) as [Hpu Vpu].
  rewrite (IH (fe_value prev)); [|done|by apply (magnitude_le 1); [lia|]|rewrite Vux, Vu; field; by split].
  rewrite !fmap_cons, reverse_cons, !fmap_app. cbn [app]. rewrite <- app_assoc. f_equal. f_equal.
  assert (fe_value (fe_mul prev u) = Zmod.inv (fe_value x)) as -> by (rewrite Vpu, Vu; field; by split). done.
Qed.

Lemma length_fe_products (acc : fe) (a : list fe) : length (fe_products acc a) = length a.
Proof. revert acc. induction a as [|x a IH]; intros acc; cbn; [done|by rewrite IH]. Qed.

Lemma fe_products_snoc (acc x : fe) (a : list fe) :
  fe_products acc (a ++ [x]) = fe_products acc a ++ [fe_mul (default acc (list.last (fe_products acc a))) x].
Proof.
  revert acc. induction a as [|y a IH]; intros acc; [done|]. cbn [app fe_products]. rewrite IH. f_equal. f_equal. f_equal. f_equal.
  rewrite list.last_cons. by destruct (list.last _).
Qed.

Lemma fe_products_prefixes (x0 : fe) (a : list fe) :
  fe_unit x0 → Forall fe_unit a →
  let r := x0 :: fe_products x0 a in
  fe_magnitude 8 (default x0 (list.last r)) ∧ prefixes (fe_value (default x0 (list.last r))) x0 (reverse (zip r a)) ∧ (reverse (zip r a)).*2 = reverse a.
Proof.
  intros Hx0. induction a as [|x a IH] using rev_ind; intros Ha; cbv zeta in *; [by split_and!; [apply Hx0|..]|].
  apply Forall_app in Ha as [Ha Hx%Forall_inv]. destruct (IH Ha) as (Hm & Hp & E). rewrite fe_products_snoc.
  assert (default x0 (list.last (fe_products x0 a)) = default x0 (list.last (x0 :: fe_products x0 a))) as El.
  { rewrite list.last_cons. destruct (list.last (fe_products x0 a)); reflexivity. }
  rewrite El. set (r := x0 :: fe_products x0 a) in *. rewrite (app_comm_cons _ _ x0). fold r.
  assert (length r = S (length a)) as Hl by (unfold r; cbn; by rewrite length_fe_products).
  destruct (exists_last (l := r)) as (r' & z & Er); [by destruct r|]. rewrite Er, !list.last_snoc, <- app_assoc in *. change (default x0 (Some z)) with z in *.
  rewrite length_app in Hl. cbn in Hl.
  assert (∀ t, zip (r' ++ t) a = zip r' a) as Ez by (intros t; rewrite <- (app_nil_r a) at 1; rewrite zip_with_app by lia; by rewrite zip_with_nil_r, app_nil_r).
  rewrite Ez in Hp, E. rewrite zip_with_app by lia. cbn [app zip_with]. destruct (mul_spec z x Hm (proj1 Hx)) as [Hm' Hv'].
  rewrite reverse_snoc. split_and!; [by apply (magnitude_le 1); [lia|]|by split_and!|]. cbn. rewrite reverse_snoc. by f_equal.
Qed.

Lemma fe_inv_all_var_spec (a : list fe) :
  Forall fe_unit a → fe_value <$> fe_inv_all_var a = Zmod.inv ∘ fe_value <$> a.
Proof.
  destruct a as [|x a]; [done|]. intros [Hx Ha]%list.Forall_cons. destruct (fe_products_prefixes x a Hx Ha) as (Hm & Hp & E).
  unfold fe_inv_all_var, fe_inv_var. destruct (fe_inv_spec _ Hm) as [Hi Vi].
  rewrite (fe_inv_back_spec _ _ x _ [] Hx Hp); [|by apply (magnitude_le 1); [lia|]|done].
  by rewrite E, reverse_involutive, fmap_nil, app_nil_r.
Qed.

Lemma fe_inv_back_magnitude (l : list (fe * fe)) (P : Fp) (x0 u : fe) (r : list fe) :
  prefixes P x0 l → fe_magnitude 1 u → Forall (fe_magnitude 1) r → Forall (fe_magnitude 1) (fe_inv_back u l r).
Proof.
  revert P u r. induction l as [|[prev x] l IH]; cbn [fe_inv_back prefixes]; intros P u r; [by constructor|].
  intros (Hm & [Hxm _] & _ & Hp) Hu Hr. assert (fe_magnitude 8 u) as Hu8 by by apply (magnitude_le 1).
  apply (IH (fe_value prev)); [done|by apply mul_spec|]. constructor; [by apply mul_spec|done].
Qed.

Lemma fe_inv_all_var_magnitude (a : list fe) : Forall fe_unit a → Forall (fe_magnitude 1) (fe_inv_all_var a).
Proof.
  destruct a as [|x a]; [constructor|]. intros [Hx Ha]%list.Forall_cons. destruct (fe_products_prefixes x a Hx Ha) as (Hm & Hp & _).
  eapply fe_inv_back_magnitude; [exact Hp|by apply fe_inv_spec|constructor].
Qed.
End SharedFacts.

(** ** Properties *)

(** the addition chains of the field compute the inverse and the square root, on every representation that keeps the
    laws of [field.h].  The inverse of a non-zero element multiplies with it to one (and that of zero is zero);
    the root function answers whether the element is a square, and then returns a root of it;
    inverting a list of non-zero elements with one inversion gives the inverse of each. *)
Theorem field_chains_correct {fe : Type} `{secp256k1_field_laws fe} (a : fe) (l : list fe) :
  fe_magnitude 8 a → Forall fe_unit l →
  fe_magnitude 1 (fe_inv a) ∧ (fe_value a = Zmod.zero → fe_value (fe_inv a) = Zmod.zero) ∧
  (fe_value a ≠ Zmod.zero → Zmod.mul (fe_value a) (fe_value (fe_inv a)) = Zmod.one) ∧
  fe_magnitude 1 (fe_sqrt a).1 ∧ ((fe_sqrt a).2 = true ↔ ∃ y, fe_value a = Zmod.mul y y) ∧
  ((fe_sqrt a).2 = true → fe_value a = Zmod.mul (fe_value (fe_sqrt a).1) (fe_value (fe_sqrt a).1)) ∧
  fe_value <$> fe_inv_all_var l = (λ x, Zmod.inv (fe_value x)) <$> l.
Proof.
  intros Ha Hl. destruct (fe_inv_spec a Ha) as [Hi Vi]. pose proof (fe_sqrt_spec a Ha) as Hs. destruct (fe_sqrt a) as [r ok].
  destruct Hs as (Hm & Hok & Hr). rewrite Vi. split_and!; try done.
  - intros ->. apply Zmod.inv_0.
  - intros Hz. apply Zmod.mul_inv_same_r_prime; [exact secp_prime|done].
  - by apply fe_inv_all_var_spec.
Qed.

(** ** Witnesses *)

Lemma set_int_mag (k : Z) : 0 <= k < 2 ^ 31 → fe_mag 8 (secp256k1_fe_set_int k).
Proof. intros Hk. apply (fe_mag_le 1); [lia|]. by apply fe_norm_mag, fe_set_int_spec. Qed.

Lemma field_chains_correct_witness :
  Zmod.mul (fe_value (secp256k1_fe_set_int 7)) (fe_value (fe_inv (secp256k1_fe_set_int 7))) = Zmod.one.
Proof.
  destruct (field_chains_correct (secp256k1_fe_set_int 7) [secp256k1_fe_set_int 3]) as (_ & _ & E & _).
  - apply set_int_mag. lia.
  - constructor; [|constructor]. split; [apply set_int_mag; lia|by vm_compute].
  - apply E. by vm_compute.
Defined.
