(* ===== verification/SecpGroup.v ===== *)
(** * The group of secp256k1 ([src/src/secp256k1/src/group_impl.h], [group.h])

    Points in affine and in Jacobian coordinates over any field representation that keeps
    the laws of [field.h].  The theorems show that the addition and doubling formulas, in their variable-time,
    mixed and constant-time forms, compute the group law of the curve y^2 = x^3 + 7 on the points they
    represent, and that they keep the magnitudes of the coordinates within what they accept.

    A function that writes to a destination takes its previous content [r], since some
    branches leave coordinates as they were; [rzr], where a function has it, is returned as the value written to
    it, if any. *)

From Stdlib Require Import ZArith Lia Zdivisibility Zmod Field.
From S2P Require Import Prelude Common Field5x52 Primes SecpField.

Open Scope Z_scope.

Definition CURVE_B : Z := 7.

Section Group.
Context {fe : Type} `{secp256k1_field fe}.

Record secp256k1_ge := MkGe { ge_x : fe; ge_y : fe; ge_infinity : bool }.
Record secp256k1_gej := MkGej { gej_x : fe; gej_y : fe; gej_z : fe; gej_infinity : bool }.

Definition ge_set_gej_zinv (a : secp256k1_gej) (zi : fe) : secp256k1_ge :=
  let zi2 := fe_sqr zi in
  let zi3 := fe_mul zi2 zi in
  MkGe (fe_mul (gej_x a) zi2) (fe_mul (gej_y a) zi3) (gej_infinity a).

Definition ge_set_xy (x y : fe) : secp256k1_ge := MkGe x y false.

Definition ge_neg (a : secp256k1_ge) : secp256k1_ge :=
  MkGe (ge_x a) (fe_negate (fe_normalize_weak (ge_y a)) 1) (ge_infinity a).

(** The point, and what is left in the Jacobian one *)
Definition ge_set_gej (a : secp256k1_gej) : secp256k1_ge * secp256k1_gej :=
  let z := fe_inv (gej_z a) in
  let z2 := fe_sqr z in
  let z3 := fe_mul z z2 in
  let x := fe_mul (gej_x a) z2 in
  let y := fe_mul (gej_y a) z3 in
  (MkGe x y (gej_infinity a), MkGej x y (fe_set_int 1) (gej_infinity a)).

Definition ge_set_gej_var (r : secp256k1_ge) (a : secp256k1_gej) : secp256k1_ge * secp256k1_gej :=
  if gej_infinity a then (MkGe (ge_x r) (ge_y r) true, a) else
  let z := fe_inv_var (gej_z a) in
  let z2 := fe_sqr z in
  let z3 := fe_mul z z2 in
  let x := fe_mul (gej_x a) z2 in
  let y := fe_mul (gej_y a) z3 in
  (MkGe x y false, MkGej x y (fe_set_int 1) false).

Definition gej_set_infinity : secp256k1_gej := MkGej fe_clear fe_clear fe_clear true.
Definition gej_clear : secp256k1_gej := MkGej fe_clear fe_clear fe_clear false.
Definition ge_clear : secp256k1_ge := MkGe fe_clear fe_clear false.

Definition ge_set_xquad (x : fe) : secp256k1_ge * bool :=
  let x2 := fe_sqr x in
  let x3 := fe_mul x x2 in
  let c := fe_add (fe_set_int CURVE_B) x3 in
  let '(y, ok) := fe_sqrt c in
  (MkGe x y false, ok).

Definition ge_set_xo_var (x : fe) (odd : bool) : secp256k1_ge * bool :=
  let '(r, ok) := ge_set_xquad x in
  if negb ok then (r, false) else
  let y := fe_normalize_var (ge_y r) in
  let y := if negb (Bool.eqb (fe_is_odd y) odd) then fe_negate y 1 else y in
  (MkGe (ge_x r) y (ge_infinity r), true).

Definition gej_set_ge (a : secp256k1_ge) : secp256k1_gej := MkGej (ge_x a) (ge_y a) (fe_set_int 1) (ge_infinity a).

Definition gej_eq_x_var (x : fe) (a : secp256k1_gej) : bool :=
  let r := fe_mul (fe_sqr (gej_z a)) x in
  let r2 := fe_normalize_weak (gej_x a) in
  fe_equal_var r r2.

Definition gej_neg (a : secp256k1_gej) : secp256k1_gej :=
  MkGej (gej_x a) (fe_negate (fe_normalize_weak (gej_y a)) 1) (gej_z a) (gej_infinity a).

Definition gej_is_valid_var (a : secp256k1_gej) : bool :=
  if gej_infinity a then false else
  let y2 := fe_sqr (gej_y a) in
  let x3 := fe_mul (fe_sqr (gej_x a)) (gej_x a) in
  let z2 := fe_sqr (gej_z a) in
  let z6 := fe_mul (fe_sqr z2) z2 in
  let z6 := fe_mul_int z6 CURVE_B in
  let x3 := fe_normalize_weak (fe_add x3 z6) in
  fe_equal_var y2 x3.

Definition ge_is_valid_var (a : secp256k1_ge) : bool :=
  if ge_infinity a then false else
  let y2 := fe_sqr (ge_y a) in
  let x3 := fe_mul (fe_sqr (ge_x a)) (ge_x a) in
  let c := fe_set_int CURVE_B in
  let x3 := fe_normalize_weak (fe_add x3 c) in
  fe_equal_var y2 x3.

Definition gej_double_var (r a : secp256k1_gej) : secp256k1_gej * option fe :=
  if gej_infinity a then (MkGej (gej_x r) (gej_y r) (gej_z r) true, Some (fe_set_int 1)) else
  let rzr := fe_mul_int (fe_normalize_weak (gej_y a)) 2 in
  let z := fe_mul_int (fe_mul (gej_z a) (gej_y a)) 2 in
  let t1 := fe_mul_int (fe_sqr (gej_x a)) 3 in
  let t2 := fe_sqr t1 in
  let t3 := fe_mul_int (fe_sqr (gej_y a)) 2 in
  let t4 := fe_mul_int (fe_sqr t3) 2 in
  let t3 := fe_mul t3 (gej_x a) in
  let x := fe_mul_int t3 4 in
  let x := fe_negate x 4 in
  let x := fe_add x t2 in
  let t2 := fe_negate t2 1 in
  let t3 := fe_mul_int t3 6 in
  let t3 := fe_add t3 t2 in
  let y := fe_mul t1 t3 in
  let t2 := fe_negate t4 2 in
  let y := fe_add y t2 in
  (MkGej x y z false, Some rzr).

Definition gej_add_var (r a b : secp256k1_gej) : secp256k1_gej * option fe :=
  if gej_infinity a then (b, None) else
  if gej_infinity b then (a, Some (fe_set_int 1)) else
  let z22 := fe_sqr (gej_z b) in
  let z12 := fe_sqr (gej_z a) in
  let u1 := fe_mul (gej_x a) z22 in
  let u2 := fe_mul (gej_x b) z12 in
  let s1 := fe_mul (fe_mul (gej_y a) z22) (gej_z b) in
  let s2 := fe_mul (fe_mul (gej_y b) z12) (gej_z a) in
  let h := fe_add (fe_negate u1 1) u2 in
  let i := fe_add (fe_negate s1 1) s2 in
  if fe_normalizes_to_zero_var h then
    if fe_normalizes_to_zero_var i then gej_double_var (MkGej (gej_x r) (gej_y r) (gej_z r) false) a
    else (MkGej (gej_x r) (gej_y r) (gej_z r) true, Some (fe_set_int 0))
  else
  let i2 := fe_sqr i in
  let h2 := fe_sqr h in
  let h3 := fe_mul h h2 in
  let h := fe_mul h (gej_z b) in
  let rzr := h in
  let z := fe_mul (gej_z a) h in
  let t := fe_mul u1 h2 in
  let x := fe_add (fe_negate (fe_add (fe_mul_int t 2) h3) 3) i2 in
  let y := fe_mul (fe_add (fe_negate x 5) t) i in
  let h3 := fe_negate (fe_mul h3 s1) 1 in
  let y := fe_add y h3 in
  (MkGej x y z false, Some rzr).

Definition gej_add_ge_var (r a : secp256k1_gej) (b : secp256k1_ge) : secp256k1_gej * option fe :=
  if gej_infinity a then (gej_set_ge b, None) else
  if ge_infinity b then (a, Some (fe_set_int 1)) else
  let z12 := fe_sqr (gej_z a) in
  let u1 := fe_normalize_weak (gej_x a) in
  let u2 := fe_mul (ge_x b) z12 in
  let s1 := fe_normalize_weak (gej_y a) in
  let s2 := fe_mul (fe_mul (ge_y b) z12) (gej_z a) in
  let h := fe_add (fe_negate u1 1) u2 in
  let i := fe_add (fe_negate s1 1) s2 in
  if fe_normalizes_to_zero_var h then
    if fe_normalizes_to_zero_var i then gej_double_var (MkGej (gej_x r) (gej_y r) (gej_z r) false) a
    else (MkGej (gej_x r) (gej_y r) (gej_z r) true, Some (fe_set_int 0))
  else
  let i2 := fe_sqr i in
  let h2 := fe_sqr h in
  let h3 := fe_mul h h2 in
  let rzr := h in
  let z := fe_mul (gej_z a) h in
  let t := fe_mul u1 h2 in
  let x := fe_add (fe_negate (fe_add (fe_mul_int t 2) h3) 3) i2 in
  let y := fe_mul (fe_add (fe_negate x 5) t) i in
  let h3 := fe_negate (fe_mul h3 s1) 1 in
  let y := fe_add y h3 in
  (MkGej x y z false, Some rzr).

(** [bzinv] is the inverse of the Z coordinate of [b]. *)
Definition gej_add_zinv_var (r a : secp256k1_gej) (b : secp256k1_ge) (bzinv : fe) : secp256k1_gej :=
  if ge_infinity b then a else
  if gej_infinity a then
    let bzinv2 := fe_sqr bzinv in
    let bzinv3 := fe_mul bzinv2 bzinv in
    MkGej (fe_mul (ge_x b) bzinv2) (fe_mul (ge_y b) bzinv3) (fe_set_int 1) (ge_infinity b)
  else
  let az := fe_mul (gej_z a) bzinv in
  let z12 := fe_sqr az in
  let u1 := fe_normalize_weak (gej_x a) in
  let u2 := fe_mul (ge_x b) z12 in
  let s1 := fe_normalize_weak (gej_y a) in
  let s2 := fe_mul (fe_mul (ge_y b) z12) az in
  let h := fe_add (fe_negate u1 1) u2 in
  let i := fe_add (fe_negate s1 1) s2 in
  if fe_normalizes_to_zero_var h then
    if fe_normalizes_to_zero_var i then (gej_double_var (MkGej (gej_x r) (gej_y r) (gej_z r) false) a).1
    else MkGej (gej_x r) (gej_y r) (gej_z r) true
  else
  let i2 := fe_sqr i in
  let h2 := fe_sqr h in
  let h3 := fe_mul h h2 in
  let z := fe_mul (gej_z a) h in
  let t := fe_mul u1 h2 in
  let x := fe_add (fe_negate (fe_add (fe_mul_int t 2) h3) 3) i2 in
  let y := fe_mul (fe_add (fe_negate x 5) t) i in
  let h3 := fe_negate (fe_mul h3 s1) 1 in
  let y := fe_add y h3 in
  MkGej x y z false.

(** The constant-time addition: every case is computed, and selected with conditional moves. *)
Definition gej_add_ge (a : secp256k1_gej) (b : secp256k1_ge) : secp256k1_gej :=
  let fe_1 := fe_set_int 1 in
  let zz := fe_sqr (gej_z a) in
  let u1 := fe_normalize_weak (gej_x a) in
  let u2 := fe_mul (ge_x b) zz in
  let s1 := fe_normalize_weak (gej_y a) in
  let s2 := fe_mul (ge_y b) zz in
  let s2 := fe_mul s2 (gej_z a) in
  let t := fe_add u1 u2 in
  let m := fe_add s1 s2 in
  let rr := fe_sqr t in
  let m_alt := fe_negate u2 1 in
  let tt := fe_mul u1 m_alt in
  let rr := fe_add rr tt in
  let degenerate := fe_normalizes_to_zero m && fe_normalizes_to_zero rr in
  let rr_alt := fe_mul_int s1 2 in
  let m_alt := fe_add m_alt u1 in
  let rr_alt := fe_cmov rr_alt rr (negb degenerate) in
  let m_alt := fe_cmov m_alt m (negb degenerate) in
  let n := fe_sqr m_alt in
  let q := fe_mul n t in
  let n := fe_sqr n in
  let n := fe_cmov n m degenerate in
  let t := fe_sqr rr_alt in
  let z := fe_mul (gej_z a) m_alt in
  let infinity := fe_normalizes_to_zero z && negb (gej_infinity a) in
  let z := fe_mul_int z 2 in
  let q := fe_negate q 1 in
  let t := fe_add t q in
  let t := fe_normalize_weak t in
  let x := t in
  let t := fe_mul_int t 2 in
  let t := fe_add t q in
  let t := fe_mul t rr_alt in
  let t := fe_add t n in
  let y := fe_negate t 3 in
  let y := fe_normalize_weak y in
  let x := fe_mul_int x 4 in
  let y := fe_mul_int y 4 in
  let x := fe_cmov x (ge_x b) (gej_infinity a) in
  let y := fe_cmov y (ge_y b) (gej_infinity a) in
  let z := fe_cmov z fe_1 (gej_infinity a) in
  MkGej x y z infinity.

Definition gej_rescale (r : secp256k1_gej) (s : fe) : secp256k1_gej :=
  let zz := fe_sqr s in
  MkGej (fe_mul (gej_x r) zz) (fe_mul (fe_mul (gej_y r) zz) s) (fe_mul (gej_z r) s) (gej_infinity r).

Definition gej_has_quad_y_var (a : secp256k1_gej) : bool :=
  if gej_infinity a then false else fe_is_quad_var (fe_mul (gej_y a) (gej_z a)).

(** The Z coordinates of the finite points are inverted together; [set_all] then takes them one by one. *)
Fixpoint ge_set_all (r : list secp256k1_ge) (a : list secp256k1_gej) (azi : list fe) : list secp256k1_ge :=
  match a, r with
  | p :: a', q :: r' =>
      if gej_infinity p then MkGe (ge_x q) (ge_y q) true :: ge_set_all r' a' azi
      else match azi with
           | zi :: azi' => ge_set_gej_zinv p zi :: ge_set_all r' a' azi'
           | [] => []
           end
  | _, _ => []
  end.

Definition ge_set_all_gej_var (r : list secp256k1_ge) (a : list secp256k1_gej) : list secp256k1_ge :=
  ge_set_all r a (fe_inv_all_var (gej_z <$> filter (λ p, gej_infinity p = false) a)).
End Group.


Arguments secp256k1_ge : clear implicits.
Arguments secp256k1_gej : clear implicits.

(** ** The group law of the curve *)

#[local] Open Scope Zmod_scope.

Abbreviation cst := (Zmod.of_Z secp_p).

Lemma cst_morph :
  Ring_theory.ring_morph Zmod.zero Zmod.one Zmod.add Zmod.mul Zmod.sub Zmod.opp eq
    0%Z 1%Z Z.add Z.mul Z.sub Z.opp Z.eqb (Zmod.of_Z secp_p).
Proof.
  split; intros; [apply Zmod.of_Z_0|apply Zmod.of_Z_1|apply Zmod.of_Z_add|apply Zmod.of_Z_sub|apply Zmod.of_Z_mul|apply Zmod.of_Z_opp|].
  f_equal. by apply Z.eqb_eq.
Qed.

Ltac Fp_constant t :=
  lazymatch t with
  | Zmod.zero => constr:(0%Z)
  | Zmod.one => constr:(1%Z)
  | Zmod.of_Z secp_p ?z => match isZcst z with true => z | _ => constr:(InitialRing.NotConstant) end
  | _ => constr:(InitialRing.NotConstant)
  end.

Add Field Fp_field' : (Zmod.field_theory secp_p secp_prime) (morphism cst_morph, constants [Fp_constant]).

Lemma cst_nonzero (k : Z) : (0 < k < 2 ^ 31)%Z → cst k ≠ 0.
Proof. intros Hk. apply Zmod.of_Z_nz. rewrite Z.mod_small; unfold secp_p; lia. Qed.

(** A point is [None] at infinity. *)
Abbreviation point := (option (Fp * Fp)).

Definition on_curve (P : point) : Prop :=
  match P with None => True | Some (x, y) => y * y = x * x * x + cst 7 end.

Definition point_neg (P : point) : point := match P with None => None | Some (x, y) => Some (x, Zmod.opp y) end.

(** The point of slope [l] on the line through (x1, y1) that also meets the curve at x2 *)
Definition chord (l x1 y1 x2 : Fp) : point :=
  let x3 := l * l - x1 - x2 in Some (x3, l * (x1 - x3) - y1).

Definition point_double (P : point) : point :=
  match P with
  | None => None
  | Some (x, y) => chord (Zmod.mdiv (cst 3 * x * x) (cst 2 * y)) x y x
  end.

Definition point_add (P Q : point) : point :=
  match P, Q with
  | None, _ => Q
  | _, None => P
  | Some (x1, y1), Some (x2, y2) =>
      if Zmod.eqb x1 x2 then if Zmod.eqb y1 y2 then point_double P else None
      else chord (Zmod.mdiv (y2 - y1) (x2 - x1)) x1 y1 x2
  end.

Lemma mul_nonzero (x y : Fp) : x ≠ 0 → y ≠ 0 → x * y ≠ 0.
Proof. intros Hx Hy E. by apply (Zmod.mul_0_iff_prime secp_prime) in E as [?|?]. Qed.

Lemma sub_nonzero (x y : Fp) : x ≠ y → x - y ≠ 0.
Proof. intros Hx E. apply Hx. transitivity ((x - y) + y); [|rewrite E]; ring. Qed.

(** No point of the curve has y = 0: -7 is not a cube, since its power (p - 1) / 3 is not 1. *)
Definition cube_exp : positive := 38597363079105398474523661669562635951089994888546854679819194669302944890554.

Lemma minus_7_power : (pow_red (fold_twice (2 ^ 32 + 977)) (-7) cube_exp mod secp_p =? 1)%Z = false.
Proof. by vm_compute. Qed.

Lemma no_two_torsion (x y : Fp) : on_curve (Some (x, y)) → y ≠ 0.
Proof.
  intros Hc ->. cbn in Hc. assert (x * x * x = cst (-7)) as E.
  { transitivity (x * x * x + cst 7 - cst 7); [|rewrite <- Hc]; ring. }
  destruct (Zmod.eqb_spec x 0) as [->|Hx]; [by vm_compute in E|].
  assert (Zmod.pow (cst (-7)) (Zpos cube_exp) = 1) as E1.
  { rewrite <- E. replace (x * x * x) with (Zmod.pow x 3) by (change 3%Z with (2 + 1)%Z; rewrite pow_add, Zmod.pow_2_r, Zmod.pow_1_r by lia; done).
    rewrite <- Zmod.pow_mul_r_nonneg by lia. apply (Zmod.fermat_nz x Hx secp_prime). }
  apply (f_equal Zmod.unsigned) in E1. rewrite Zmod.to_Z_pow_nonneg_r, Zmod.unsigned_of_Z, Z.mod_pow_l in E1 by lia.
  rewrite <- (pow_red_spec (fold_twice (2 ^ 32 + 977)) secp_p) in E1.
  { rewrite Zmod.unsigned_1_pos in E1 by (unfold secp_p; lia). apply Z.eqb_eq in E1. by rewrite minus_7_power in E1. }
  intros z. apply fold_twice_spec; [unfold secp_p; lia|by exists 1%Z].
Qed.

(** ** The curve is closed under the law *)

Lemma factor_zero (u d : Fp) : d ≠ 0 → u * d = 0 → u = 0.
Proof. intros Hd E. by apply (Zmod.mul_0_iff_prime secp_prime) in E as [?|?]. Qed.

Lemma sub_zero (u v : Fp) : u - v = 0 ↔ u = v.
Proof. split; [|intros ->; ring]. intros E. transitivity (u - v + v); [ring|rewrite E; ring]. Qed.

(** What the equation of the curve lacks at the abscissa [x] of the line of slope [l] through (x1, y1) *)
Definition defect (l x1 y1 x : Fp) : Fp := (l * (x - x1) + y1) * (l * (x - x1) + y1) - (x * x * x + cst 7).

Lemma chord_on_curve (l x1 y1 x2 : Fp) : defect l x1 y1 (l * l - x1 - x2) = 0 → on_curve (chord l x1 y1 x2).
Proof.
  unfold defect. cbn. intros E. apply sub_zero. rewrite <- E. ring.
Qed.

Lemma point_double_on_curve (P : point) : on_curve P → on_curve (point_double P).
Proof.
  destruct P as [[x y]|]; [|done]. intros Hc. pose proof (no_two_torsion x y Hc) as Hy. pose proof (cst_nonzero 2 ltac:(lia)) as H2.
  apply chord_on_curve. set (l := Zmod.mdiv _ _). assert (cst 2 * l * y = cst 3 * x * x) as El by (unfold l; field; done).
  assert (defect l x y x = 0) as E0 by (unfold defect; cbn in Hc; transitivity (y * y - (x * x * x + cst 7)); [ring|rewrite Hc; ring]).
  transitivity (defect l x y x + (cst 2 * l * y - cst 3 * x * x) * (l * l - x - x - x)); [unfold defect; ring|]. rewrite E0, El. ring.
Qed.

Lemma point_add_on_curve (P Q : point) : on_curve P → on_curve Q → on_curve (point_add P Q).
Proof.
  destruct P as [[x1 y1]|], Q as [[x2 y2]|]; try done. intros H1 H2. cbn [point_add]. destruct (Zmod.eqb_spec x1 x2) as [_|Hx].
  - destruct (Zmod.eqb y1 y2); [by apply point_double_on_curve|done].
  - apply chord_on_curve. assert (x2 - x1 ≠ 0) as Hd by (apply sub_nonzero; congruence). set (l := Zmod.mdiv _ _).
    assert (defect l x1 y1 x1 = 0) as E1 by (unfold defect; cbn in H1; transitivity (y1 * y1 - (x1 * x1 * x1 + cst 7)); [ring|rewrite H1; ring]).
    assert (defect l x1 y1 x2 = 0) as E2.
    { unfold defect, l. cbn in H2. transitivity (y2 * y2 - (x2 * x2 * x2 + cst 7)); [field; done|rewrite H2; ring]. }
    clearbody l. apply (factor_zero _ (x2 - x1)); [done|].
    transitivity (defect l x1 y1 x2 * (l * l - x1 - x2 - x1) + defect l x1 y1 x1 * (x2 - (l * l - x1 - x2))); [unfold defect; ring|].
    rewrite E1, E2. ring.
Qed.

#[local] Opaque fe_inv fe_sqrt.

(** ** Elements with a known value and magnitude *)

Section Values.
Context {fe : Type} `{secp256k1_field_laws fe}.

Definition rep (m : Z) (v : Fp) (a : fe) : Prop := fe_magnitude m a ∧ fe_value a = v.

Lemma rep_le (m m' : Z) (v : Fp) (a : fe) : (m <= m')%Z → rep m v a → rep m' v a.
Proof. intros Hm [? ?]. split; [by apply (magnitude_le m)|done]. Qed.

Lemma rep_mul (m m' : Z) (v v' : Fp) (a b : fe) : rep m v a → rep m' v' b → (m <= 8)%Z → (m' <= 8)%Z → rep 1 (v * v') (fe_mul a b).
Proof. intros [Ha <-] [Hb <-] ? ?. by apply mul_spec; [apply (magnitude_le m)|apply (magnitude_le m')]. Qed.

Lemma rep_sqr (m : Z) (v : Fp) (a : fe) : rep m v a → (m <= 8)%Z → rep 1 (v * v) (fe_sqr a).
Proof. intros [Ha <-] ?. by apply sqr_spec, (magnitude_le m). Qed.

Lemma rep_add (m m' : Z) (v v' : Fp) (a b : fe) :
  rep m v a → rep m' v' b → (m + m' <= 2048)%Z → rep (m + m') (v + v') (fe_add a b).
Proof. intros [Ha <-] [Hb <-] ?. by apply add_spec. Qed.

Lemma rep_negate (m k : Z) (v : Fp) (a : fe) : rep m v a → (m <= k)%Z → (0 <= k <= 2047)%Z → rep (k + 1) (Zmod.opp v) (fe_negate a k).
Proof. intros [Ha <-] ? ?. by apply negate_spec; [apply (magnitude_le m)|]. Qed.

Lemma rep_mul_int (m k : Z) (v : Fp) (a : fe) : rep m v a → (0 <= k)%Z → (m * k <= 2048)%Z → rep (m * k) (v * cst k) (fe_mul_int a k).
Proof. intros [Ha <-] ? ?. by apply mul_int_spec. Qed.

Lemma rep_weak (m : Z) (v : Fp) (a : fe) : rep m v a → (m <= 2047)%Z → rep 1 v (fe_normalize_weak a).
Proof. intros [Ha <-] ?. by apply normalize_weak_spec, (magnitude_le m). Qed.

Lemma rep_set_int (k : Z) : (0 <= k < 2 ^ 31)%Z → rep 1 (cst k) (fe_set_int k).
Proof. intros Hk. destruct (set_int_spec k Hk). split; [by apply normalized_magnitude|done]. Qed.

Lemma rep_zero (m : Z) (v : Fp) (a : fe) :
  rep m v a → (m <= 2047)%Z → fe_normalizes_to_zero a = Zmod.eqb v 0 ∧ fe_normalizes_to_zero_var a = Zmod.eqb v 0.
Proof.
  intros [Ha <-] ?. assert (fe_magnitude 2047 a) by by apply (magnitude_le m).
  by split; [apply normalizes_to_zero_spec|apply normalizes_to_zero_var_spec].
Qed.

Lemma rep_inv (m : Z) (v : Fp) (a : fe) : rep m v a → (m <= 8)%Z → rep 1 (Zmod.inv v) (fe_inv a).
Proof. intros [Ha <-] ?. by apply fe_inv_spec, (magnitude_le m). Qed.

(** ** Points *)

(** What every function keeps the magnitudes of the coordinates below, and accepts *)
Definition gej_ok (a : secp256k1_gej fe) : Prop := fe_magnitude 6 (gej_x a) ∧ fe_magnitude 4 (gej_y a) ∧ fe_magnitude 2 (gej_z a).
Definition ge_ok (a : secp256k1_ge fe) : Prop := fe_magnitude 6 (ge_x a) ∧ fe_magnitude 4 (ge_y a).

(** The point that coordinates stand for: X = x Z^2 and Y = y Z^3 *)
Definition jacobian (a : secp256k1_gej fe) (P : point) : Prop :=
  gej_ok a ∧
  match P with
  | None => gej_infinity a = true
  | Some (x, y) =>
      gej_infinity a = false ∧ fe_value (gej_z a) ≠ 0 ∧ fe_value (gej_x a) = x * (fe_value (gej_z a) * fe_value (gej_z a)) ∧
      fe_value (gej_y a) = y * (fe_value (gej_z a) * fe_value (gej_z a) * fe_value (gej_z a))
  end.

Definition affine (a : secp256k1_ge fe) (P : point) : Prop :=
  ge_ok a ∧
  match P with
  | None => ge_infinity a = true
  | Some (x, y) => ge_infinity a = false ∧ fe_value (ge_x a) = x ∧ fe_value (ge_y a) = y
  end.

Lemma jacobian_reps (a : secp256k1_gej fe) (x y : Fp) :
  jacobian a (Some (x, y)) →
  ∃ z, z ≠ 0 ∧ gej_infinity a = false ∧ rep 6 (x * (z * z)) (gej_x a) ∧ rep 4 (y * (z * z * z)) (gej_y a) ∧ rep 2 z (gej_z a).
Proof. intros [(Hx & Hy & Hz) (Hi & Hz0 & Ex & Ey)]. by exists (fe_value (gej_z a)). Qed.

Lemma jacobian_intro (X Y W : fe) (x y z vx vy : Fp) (m m' m'' : Z) :
  rep m vx X → rep m' vy Y → rep m'' z W → (m <= 6)%Z → (m' <= 4)%Z → (m'' <= 2)%Z →
  z ≠ 0 → vx = x * (z * z) → vy = y * (z * z * z) → jacobian (MkGej X Y W false) (Some (x, y)).
Proof.
  intros [HX EX] [HY EY] [HW EW] ? ? ? Hz -> ->. split.
  - by split_and!; [apply (magnitude_le m)|apply (magnitude_le m')|apply (magnitude_le m'')].
  - cbn. by rewrite EX, EY, EW.
Qed.

(** Follow a formula from the inside out, leaving the conditions on the magnitudes. *)
Ltac rep_eval :=
  repeat first [eassumption|eapply rep_mul|eapply rep_sqr|eapply rep_add|eapply rep_negate|eapply rep_mul_int|eapply rep_weak|eapply rep_set_int|eapply rep_inv].

(** The formulas do not mention the constant of the curve: what doubling needs of a point is that y is not zero. *)
Definition unramified (P : point) : Prop := match P with None => True | Some (x, y) => y ≠ 0 end.

Lemma on_curve_unramified (P : point) : on_curve P → unramified P.
Proof. destruct P as [[x y]|]; [apply no_two_torsion|done]. Qed.

Lemma gej_double_var_law (r a : secp256k1_gej fe) (P : point) :
  gej_ok r → jacobian a P → unramified P → jacobian (gej_double_var r a).1 (point_double P).
Proof.
  intros Hr Ha Hy. unfold gej_double_var. destruct P as [[x y]|].
  - cbn in Hy. destruct (jacobian_reps a x y Ha) as (z & Hz & -> & RX & RY & RZ). cbn [fst point_double chord].
    eapply jacobian_intro; [rep_eval..| | | | | |]; try lia.
    + apply mul_nonzero; [|by apply cst_nonzero]. repeat apply mul_nonzero; done.
    + field. split; [done|by apply cst_nonzero].
    + field. split; [done|by apply cst_nonzero].
  - destruct Ha as [_ ->]. by split.
Qed.

Lemma gej_double_var_spec (r a : secp256k1_gej fe) (P : point) :
  gej_ok r → jacobian a P → on_curve P → jacobian (gej_double_var r a).1 (point_double P).
Proof. intros Hr Ha Hc. by apply gej_double_var_law; [| |apply on_curve_unramified]. Qed.

(** Two coordinates scaled by the same factor differ by zero only if they agree. *)
Lemma scaled_eqb (u v c : Fp) : c ≠ 0 → Zmod.eqb (Zmod.opp (u * c) + v * c) 0 = Zmod.eqb u v.
Proof.
  intros Hc. rewrite eqb_sub. apply eq_true_iff_eq. rewrite !Zmod.eqb_eq. split; [|by intros ->].
  intros E. transitivity (Zmod.mdiv (u * c) c); [field; done|rewrite E; field; done].
Qed.

Lemma jacobian_infinity (r : secp256k1_gej fe) : gej_ok r → jacobian (MkGej (gej_x r) (gej_y r) (gej_z r) true) None.
Proof. by split. Qed.

Ltac nonzero := repeat first [done|apply mul_nonzero|apply sub_nonzero|by apply cst_nonzero]; try congruence.

Lemma rep_eq (m m' : Z) (v v' : Fp) (a : fe) : rep m v a → (m <= m')%Z → v = v' → rep m' v' a.
Proof. intros Ha Hm <-. by apply (rep_le m). Qed.

(** The test on the differences [h] and [i], for points scaled by the same [c] *)
Lemma difference_spec (u v c : Fp) (a b : fe) :
  rep 1 (u * c) a → rep 1 (v * c) b → c ≠ 0 →
  rep 3 ((v - u) * c) (fe_add (fe_negate a 1) b) ∧ fe_normalizes_to_zero_var (fe_add (fe_negate a 1) b) = Zmod.eqb u v.
Proof.
  intros Ha Hb Hc. assert (rep 3 (Zmod.opp (u * c) + v * c) (fe_add (fe_negate a 1) b)) as Hr by (eapply rep_le; [|rep_eval]; lia).
  split; [eapply rep_eq; [exact Hr|lia|ring]|]. rewrite (proj2 (rep_zero _ _ _ Hr ltac:(lia))). by apply scaled_eqb.
Qed.

(** The common end of the additions *)
Lemma chord_spec (x1 y1 x2 y2 c : Fp) (u1 s1 h i z : fe) :
  rep 1 (x1 * (c * c)) u1 → rep 1 (y1 * (c * c * c)) s1 → rep 3 ((x2 - x1) * (c * c)) h → rep 3 ((y2 - y1) * (c * c * c)) i →
  rep 1 ((x2 - x1) * (c * c) * c) z → c ≠ 0 → x1 ≠ x2 →
  let i2 := fe_sqr i in
  let h2 := fe_sqr h in
  let h3 := fe_mul h h2 in
  let t := fe_mul u1 h2 in
  let x := fe_add (fe_negate (fe_add (fe_mul_int t 2) h3) 3) i2 in
  let y := fe_add (fe_mul (fe_add (fe_negate x 5) t) i) (fe_negate (fe_mul h3 s1) 1) in
  jacobian (MkGej x y z false) (chord (Zmod.mdiv (y2 - y1) (x2 - x1)) x1 y1 x2).
Proof.
  intros RU RS RH RI RZ Hc Hx. cbv zeta. assert (x2 - x1 ≠ 0) by (apply sub_nonzero; congruence).
  eapply jacobian_intro; [rep_eval..| | | | | |]; try lia.
  - nonzero.
  - field. done.
  - field. done.
Qed.

(** A sum of two points with the same x is the double of either or infinity. *)
Lemma point_add_same (x y1 y2 : Fp) :
  point_add (Some (x, y1)) (Some (x, y2)) = if Zmod.eqb y1 y2 then point_double (Some (x, y1)) else None.
Proof. cbn. by rewrite Zmod.eqb_refl. Qed.

Lemma gej_add_var_spec (r a b : secp256k1_gej fe) (P Q : point) :
  gej_ok r → jacobian a P → jacobian b Q → on_curve P → on_curve Q → jacobian (gej_add_var r a b).1 (point_add P Q).
Proof.
  intros Hr Ha Hb HcP HcQ. unfold gej_add_var. destruct P as [[x1 y1]|]; [|by destruct Ha as [_ ->]].
  destruct (jacobian_reps a x1 y1 Ha) as (z1 & Hz1 & -> & RX1 & RY1 & RZ1).
  destruct Q as [[x2 y2]|]; [|by destruct Hb as [_ ->]].
  destruct (jacobian_reps b x2 y2 Hb) as (z2 & Hz2 & -> & RX2 & RY2 & RZ2).
  set (u1 := fe_mul (gej_x a) _). set (u2 := fe_mul (gej_x b) _). set (s1 := fe_mul (fe_mul (gej_y a) _) _). set (s2 := fe_mul (fe_mul (gej_y b) _) _).
  set (c := z1 * z2).
  assert (rep 1 (x1 * (c * c)) u1) as RU1 by (eapply rep_eq; [unfold u1; rep_eval; lia|lia|unfold c; ring]).
  assert (rep 1 (x2 * (c * c)) u2) as RU2 by (eapply rep_eq; [unfold u2; rep_eval; lia|lia|unfold c; ring]).
  assert (rep 1 (y1 * (c * c * c)) s1) as RS1 by (eapply rep_eq; [unfold s1; rep_eval; lia|lia|unfold c; ring]).
  assert (rep 1 (y2 * (c * c * c)) s2) as RS2 by (eapply rep_eq; [unfold s2; rep_eval; lia|lia|unfold c; ring]).
  assert (c ≠ 0) as Hc by (unfold c; nonzero).
  destruct (difference_spec _ _ _ _ _ RU1 RU2) as [RH ->]; [nonzero|]. destruct (difference_spec _ _ _ _ _ RS1 RS2) as [RI ->]; [nonzero|].
  destruct (Zmod.eqb_spec x1 x2) as [<-|Hx].
  - rewrite point_add_same. destruct (Zmod.eqb y1 y2); [|by apply jacobian_infinity]. by apply gej_double_var_spec.
  - cbn [fst point_add]. destruct (Zmod.eqb_spec x1 x2); [done|]. eapply chord_spec; try done.
    eapply rep_eq; [rep_eval; lia|lia|]. unfold c. ring.
Qed.

Lemma affine_reps (b : secp256k1_ge fe) (x y : Fp) :
  affine b (Some (x, y)) → ge_infinity b = false ∧ rep 6 x (ge_x b) ∧ rep 4 y (ge_y b).
Proof. by intros [[? ?] (? & ? & ?)]. Qed.

Lemma one_nonzero : cst 1 ≠ 0.
Proof. by apply cst_nonzero. Qed.

Lemma gej_set_ge_spec (b : secp256k1_ge fe) (Q : point) : affine b Q → jacobian (gej_set_ge b) Q.
Proof.
  intros Hb. pose proof (rep_set_int 1 ltac:(lia)) as [H1 V1]. destruct Hb as [[Hx Hy] HQ]. unfold gej_set_ge. split.
  { split_and!; [done|done|by apply (magnitude_le 1)]. }
  destruct Q as [[x y]|]; [|done]. destruct HQ as (-> & <- & <-). cbn. rewrite V1. split_and!; [done|apply one_nonzero|ring|ring].
Qed.

Lemma gej_add_ge_var_law (r a : secp256k1_gej fe) (b : secp256k1_ge fe) (P Q : point) :
  gej_ok r → jacobian a P → affine b Q → unramified P → jacobian (gej_add_ge_var r a b).1 (point_add P Q).
Proof.
  intros Hr Ha Hb HcP. unfold gej_add_ge_var. destruct P as [[x1 y1]|]; [|destruct Ha as [_ ->]; by apply gej_set_ge_spec].
  destruct (jacobian_reps a x1 y1 Ha) as (c & Hc & -> & RX1 & RY1 & RZ1).
  destruct Q as [[x2 y2]|]; [|by destruct Hb as [_ ->]]. destruct (affine_reps b x2 y2 Hb) as (-> & RX2 & RY2).
  set (u1 := fe_normalize_weak (gej_x a)). set (u2 := fe_mul (ge_x b) _). set (s1 := fe_normalize_weak (gej_y a)). set (s2 := fe_mul (fe_mul (ge_y b) _) _).
  assert (rep 1 (x1 * (c * c)) u1) as RU1 by (unfold u1; rep_eval; lia).
  assert (rep 1 (x2 * (c * c)) u2) as RU2 by (unfold u2; rep_eval; lia).
  assert (rep 1 (y1 * (c * c * c)) s1) as RS1 by (unfold s1; rep_eval; lia).
  assert (rep 1 (y2 * (c * c * c)) s2) as RS2 by (eapply rep_eq; [unfold s2; rep_eval; lia|lia|ring]).
  destruct (difference_spec _ _ _ _ _ RU1 RU2) as [RH ->]; [nonzero|]. destruct (difference_spec _ _ _ _ _ RS1 RS2) as [RI ->]; [nonzero|].
  destruct (Zmod.eqb_spec x1 x2) as [<-|Hx].
  - rewrite point_add_same. destruct (Zmod.eqb y1 y2); [|by apply jacobian_infinity]. by apply gej_double_var_law.
  - cbn [fst point_add]. destruct (Zmod.eqb_spec x1 x2); [done|]. eapply chord_spec; try done.
    eapply rep_eq; [rep_eval; lia|lia|]. ring.
Qed.

Lemma gej_add_ge_var_spec (r a : secp256k1_gej fe) (b : secp256k1_ge fe) (P Q : point) :
  gej_ok r → jacobian a P → affine b Q → on_curve P → on_curve Q → jacobian (gej_add_ge_var r a b).1 (point_add P Q).
Proof. intros Hr Ha Hb Hc _. by apply gej_add_ge_var_law; [| | |apply on_curve_unramified]. Qed.

(** [b] is given on an isomorphic curve, scaled by the inverse [zi] of its Z coordinate. *)
Definition scaled (b : secp256k1_ge fe) (bzinv : fe) (Q : point) : Prop :=
  ge_ok b ∧ fe_magnitude 8 bzinv ∧
  match Q with
  | None => ge_infinity b = true
  | Some (x, y) =>
      ge_infinity b = false ∧ x = fe_value (ge_x b) * (fe_value bzinv * fe_value bzinv) ∧
      y = fe_value (ge_y b) * (fe_value bzinv * fe_value bzinv * fe_value bzinv)
  end.

Lemma gej_add_zinv_var_law (r a : secp256k1_gej fe) (b : secp256k1_ge fe) (bzinv : fe) (P Q : point) :
  gej_ok r → jacobian a P → scaled b bzinv Q → unramified P → jacobian (gej_add_zinv_var r a b bzinv) (point_add P Q).
Proof.
  intros Hr Ha ([Hbx Hby] & Hi & HQ) HcP. unfold gej_add_zinv_var. destruct Q as [[x2 y2]|].
  2:{ rewrite HQ. by destruct P as [[? ?]|]. }
  destruct HQ as (-> & Ex2 & Ey2). set (w := fe_value bzinv) in *.
  assert (rep 6 (fe_value (ge_x b)) (ge_x b)) as RX2 by done. assert (rep 4 (fe_value (ge_y b)) (ge_y b)) as RY2 by done.
  assert (rep 8 w bzinv) as RW by done. destruct P as [[x1 y1]|].
  2:{ destruct Ha as [_ ->]. cbn [point_add]. pose proof one_nonzero.
      eapply jacobian_intro; [rep_eval..| | | | | |]; try lia; [done|rewrite Ex2; ring|rewrite Ey2; ring]. }
  destruct (jacobian_reps a x1 y1 Ha) as (c & Hc & -> & RX1 & RY1 & RZ1).
  set (u1 := fe_normalize_weak (gej_x a)). set (u2 := fe_mul (ge_x b) _). set (s1 := fe_normalize_weak (gej_y a)). set (s2 := fe_mul (fe_mul (ge_y b) _) _).
  assert (rep 1 (x1 * (c * c)) u1) as RU1 by (unfold u1; rep_eval; lia).
  assert (rep 1 (x2 * (c * c)) u2) as RU2 by (eapply rep_eq; [unfold u2; rep_eval; lia|lia|rewrite Ex2; ring]).
  assert (rep 1 (y1 * (c * c * c)) s1) as RS1 by (unfold s1; rep_eval; lia).
  assert (rep 1 (y2 * (c * c * c)) s2) as RS2 by (eapply rep_eq; [unfold s2; rep_eval; lia|lia|rewrite Ey2; ring]).
  destruct (difference_spec _ _ _ _ _ RU1 RU2) as [RH ->]; [nonzero|]. destruct (difference_spec _ _ _ _ _ RS1 RS2) as [RI ->]; [nonzero|].
  destruct (Zmod.eqb_spec x1 x2) as [E|Hx].
  - rewrite <- E in *. rewrite point_add_same. destruct (Zmod.eqb y1 y2); [|by apply jacobian_infinity]. by apply gej_double_var_law.
  - cbn [fst point_add]. destruct (Zmod.eqb_spec x1 x2); [done|]. eapply chord_spec; try done.
    eapply rep_eq; [rep_eval; lia|lia|]. ring.
Qed.

Lemma gej_add_zinv_var_spec (r a : secp256k1_gej fe) (b : secp256k1_ge fe) (bzinv : fe) (P Q : point) :
  gej_ok r → jacobian a P → scaled b bzinv Q → on_curve P → on_curve Q → jacobian (gej_add_zinv_var r a b bzinv) (point_add P Q).
Proof. intros Hr Ha Hb Hc _. by apply gej_add_zinv_var_law; [| | |apply on_curve_unramified]. Qed.

(** *** The constant-time addition *)

Lemma cmov_rep (m m' : Z) (v v' : Fp) (r a : fe) (flag : bool) :
  rep m v r → rep m' v' a → (m <= 2048)%Z → (m' <= 2048)%Z → fe_cmov r a flag = if flag then a else r.
Proof. intros [Hr _] [Ha _] ? ?. by apply (cmov_spec 2048); [apply (magnitude_le m)|apply (magnitude_le m')|lia]. Qed.

(** A line through two points has one slope, whichever way it is written. *)
Lemma unified_slope (x1 y1 x2 y2 l : Fp) :
  on_curve (Some (x1, y1)) → on_curve (Some (x2, y2)) → y1 + y2 ≠ 0 →
  l = Zmod.mdiv ((x1 + x2) * (x1 + x2) - x1 * x2) (y1 + y2) →
  l * (x2 - x1) = y2 - y1 ∧ point_add (Some (x1, y1)) (Some (x2, y2)) = chord l x1 y1 x2.
Proof.
  cbn [on_curve]. intros H1 H2 Hy ->.
  assert (Zmod.mdiv ((x1 + x2) * (x1 + x2) - x1 * x2) (y1 + y2) * (x2 - x1) = y2 - y1) as El.
  { transitivity (Zmod.mdiv ((x2 * x2 * x2 + cst 7) - (x1 * x1 * x1 + cst 7)) (y1 + y2)); [field; done|]. rewrite <- H1, <- H2. field. done. }
  split; [done|]. cbn [point_add]. destruct (Zmod.eqb_spec x1 x2) as [<-|Hx].
  - assert (y1 = y2) as <-.
    { assert ((y1 - y2) * (y1 + y2) = 0) as E by (transitivity (y1 * y1 - y2 * y2); [ring|rewrite H1, H2; ring]).
      apply (Zmod.mul_0_iff_prime secp_prime) in E as [E|E]; [|done]. transitivity (y1 - y2 + y2); [|rewrite E]; ring. }
    rewrite Zmod.eqb_refl. cbn [point_double]. f_equal. field.
    pose proof (no_two_torsion x1 y1 H1). split; [done|]. nonzero.
  - f_equal. rewrite <- El. field. split; [done|]. apply sub_nonzero. congruence.
Qed.

(** The formula, once the slope is the quotient of [ralt] and [malt] scaled by [c] *)
Lemma unified_spec (x1 y1 x2 y2 c l w : Fp) (ralt malt t n z : fe) :
  rep 3 (l * w * c) ralt → rep 3 w malt → rep 2 ((x1 + x2) * (c * c)) t → rep 2 (w * w * w * ((y1 + y2) * (c * c * c))) n → rep 2 c z →
  c ≠ 0 → w ≠ 0 → l * (x2 - x1) = y2 - y1 →
  let q := fe_negate (fe_mul (fe_sqr malt) t) 1 in
  let x3 := fe_normalize_weak (fe_add (fe_sqr ralt) q) in
  jacobian (MkGej (fe_mul_int x3 4)
      (fe_mul_int (fe_normalize_weak (fe_negate (fe_add (fe_mul (fe_add (fe_mul_int x3 2) q) ralt) n) 3)) 4)
      (fe_mul_int (fe_mul z malt) 2) false)
    (chord l x1 y1 x2).
Proof.
  intros RR RM RT RN RZ Hc Hw El. cbv zeta. assert (y2 = l * (x2 - x1) + y1) as Ey by (rewrite El; ring).
  eapply jacobian_intro; [rep_eval..| | | | | |]; try lia.
  - nonzero.
  - ring.
  - rewrite Ey. ring.
Qed.


Lemma rep_cmov (m m' : Z) (v v' : Fp) (r a : fe) (flag : bool) :
  rep m v r → rep m' v' a → (m <= 2048)%Z → (m' <= 2048)%Z → rep (m `max` m')%Z (if flag then v' else v) (fe_cmov r a flag).
Proof. intros Hr Ha ? ?. rewrite (cmov_rep m m' v v') by done. destruct flag; eapply rep_le; [|done| |done]; lia. Qed.

(** Infinity plus a point: the coordinates of the point are moved in. *)
Lemma gej_add_ge_infinity (a : secp256k1_gej fe) (b : secp256k1_ge fe) (x2 y2 : Fp) :
  jacobian a None → affine b (Some (x2, y2)) → jacobian (gej_add_ge a b) (Some (x2, y2)).
Proof.
  intros [(Hx & Hy & Hz) Hi] Hb. destruct (affine_reps b x2 y2 Hb) as (Hbi & RX2 & RY2).
  assert (rep 6 (fe_value (gej_x a)) (gej_x a)) as RX by done. assert (rep 4 (fe_value (gej_y a)) (gej_y a)) as RY by done.
  assert (rep 2 (fe_value (gej_z a)) (gej_z a)) as RZ by done. pose proof (rep_set_int 1 ltac:(lia)) as R1.
  unfold gej_add_ge. rewrite Hi, andb_false_r. cbn [negb]. 
  erewrite (cmov_rep _ _ _ _ _ (ge_x b)), (cmov_rep _ _ _ _ _ (ge_y b)), (cmov_rep _ _ _ _ _ (fe_set_int 1));
    [|repeat first [progress rep_eval|eapply rep_cmov]; try lia..].
  eapply jacobian_intro; [done..|lia|lia|lia|by apply cst_nonzero| |]; ring.
Qed.

(** Two points of the curve whose ordinates cancel have the same cube of x. *)
Lemma opposite_cubes (x1 y1 x2 y2 : Fp) :
  on_curve (Some (x1, y1)) → on_curve (Some (x2, y2)) → y1 + y2 = 0 → (x2 - x1) * ((x1 + x2) * (x1 + x2) - x1 * x2) = 0.
Proof.
  cbn. intros H1 H2 Hy. transitivity ((x2 * x2 * x2 + cst 7) - (x1 * x1 * x1 + cst 7)); [ring|]. rewrite <- H1, <- H2.
  transitivity ((y2 - y1) * (y1 + y2)); [ring|rewrite Hy; ring].
Qed.

Lemma add_zero_opp (u v : Fp) : u + v = 0 → v = Zmod.opp u.
Proof. intros E. transitivity (u + v - u); [ring|rewrite E; ring]. Qed.

(** The sum of two points in the three cases the unified formula tells apart *)
Lemma unified_cases (x1 y1 x2 y2 : Fp) :
  on_curve (Some (x1, y1)) → on_curve (Some (x2, y2)) →
  let m := y1 + y2 in
  let r := (x1 + x2) * (x1 + x2) - x1 * x2 in
  (m ≠ 0 ∧ ∃ l, r = l * m ∧ l * (x2 - x1) = y2 - y1 ∧ point_add (Some (x1, y1)) (Some (x2, y2)) = chord l x1 y1 x2) ∨
  (m = 0 ∧ r = 0 ∧ x1 ≠ x2 ∧ ∃ l, cst 2 * y1 = l * (x1 - x2) ∧ l * (x2 - x1) = y2 - y1 ∧
     point_add (Some (x1, y1)) (Some (x2, y2)) = chord l x1 y1 x2) ∨
  (m = 0 ∧ x1 = x2 ∧ point_add (Some (x1, y1)) (Some (x2, y2)) = None).
Proof.
  intros H1 H2 m r. destruct (Zmod.eqb_spec m 0) as [Hm|Hm].
  - right. pose proof (opposite_cubes x1 y1 x2 y2 H1 H2 Hm) as E. pose proof (add_zero_opp _ _ Hm) as Ey.
    destruct (Zmod.eqb_spec x1 x2) as [<-|Hx].
    + right. split_and!; [done..|]. rewrite point_add_same. destruct (Zmod.eqb_spec y1 y2) as [<-|]; [|done].
      exfalso. assert (cst 2 * y1 = 0) as E2 by (transitivity (y1 + y1); [ring|done]).
      apply (mul_nonzero (cst 2) y1) in E2; [done|by apply cst_nonzero|by apply (no_two_torsion x1)].
    + left. apply (Zmod.mul_0_iff_prime secp_prime) in E as [E|E].
      { exfalso. apply Hx. transitivity (x2 - (x2 - x1)); [ring|rewrite E; ring]. }
      assert (x2 - x1 ≠ 0) by (apply sub_nonzero; congruence). assert (x1 - x2 ≠ 0) by (apply sub_nonzero; congruence).
      split_and!; [done..|]. exists (Zmod.mdiv (y2 - y1) (x2 - x1)). split_and!.
      * rewrite Ey. field. done.
      * field. done.
      * cbn. by destruct (Zmod.eqb_spec x1 x2).
  - left. split; [done|]. exists (Zmod.mdiv r m). split; [field; done|]. by apply unified_slope.
Qed.

Lemma eqb_false (u : Fp) : u ≠ 0 → Zmod.eqb u 0 = false.
Proof. intros Hu. by destruct (Zmod.eqb_spec u 0). Qed.

Lemma eqb_true (u : Fp) : u = 0 → Zmod.eqb u 0 = true.
Proof. intros ->. apply Zmod.eqb_refl. Qed.

Lemma rep_magnitude (m m' : Z) (v : Fp) (a : fe) : rep m v a → (m <= m')%Z → fe_magnitude m' a.
Proof. intros [Ha _] ?. by apply (magnitude_le m). Qed.

(** The second half of the constant-time addition, from the two slopes on *)
Definition add_ge_tail (z t m rr rr_alt m_alt : fe) : secp256k1_gej fe :=
  let degenerate := fe_normalizes_to_zero m && fe_normalizes_to_zero rr in
  let rr_alt := fe_cmov rr_alt rr (negb degenerate) in
  let m_alt := fe_cmov m_alt m (negb degenerate) in
  let q := fe_negate (fe_mul (fe_sqr m_alt) t) 1 in
  let n := fe_cmov (fe_sqr (fe_sqr m_alt)) m degenerate in
  let x := fe_normalize_weak (fe_add (fe_sqr rr_alt) q) in
  let y := fe_normalize_weak (fe_negate (fe_add (fe_mul (fe_add (fe_mul_int x 2) q) rr_alt) n) 3) in
  MkGej (fe_mul_int x 4) (fe_mul_int y 4) (fe_mul_int (fe_mul z m_alt) 2) (fe_normalizes_to_zero (fe_mul z m_alt)).

Lemma add_ge_tail_spec (x1 y1 x2 y2 c : Fp) (z t m rr rr_alt m_alt : fe) :
  on_curve (Some (x1, y1)) → on_curve (Some (x2, y2)) → c ≠ 0 → rep 2 c z → rep 2 ((x1 + x2) * (c * c)) t →
  rep 2 ((y1 + y2) * (c * c * c)) m → rep 2 (((x1 + x2) * (x1 + x2) - x1 * x2) * (c * c * c * c)) rr →
  rep 2 (cst 2 * y1 * (c * c * c)) rr_alt → rep 3 ((x1 - x2) * (c * c)) m_alt →
  jacobian (add_ge_tail z t m rr rr_alt m_alt) (point_add (Some (x1, y1)) (Some (x2, y2))).
Proof.
  intros H1 H2 Hc RZ RT RM RR RRA RMA. unfold add_ge_tail.
  rewrite (proj1 (rep_zero _ _ _ RM ltac:(lia))), (proj1 (rep_zero _ _ _ RR ltac:(lia))).
  destruct (unified_cases x1 y1 x2 y2 H1 H2) as [(Hm & l & Er & El & ->)|[(Hm & Er & Hx & l & Er' & El & ->)|(Hm & -> & ->)]].
  - rewrite eqb_false by nonzero. cbn [andb negb].
    rewrite !(cmov_rep _ _ _ _ rr_alt rr true RRA RR), !(cmov_rep _ _ _ _ m_alt m true RMA RM) by lia.
    erewrite (cmov_rep _ _ _ _ _ m false) by (rep_eval; lia).
    assert (rep 1 (c * ((y1 + y2) * (c * c * c))) (fe_mul z m)) as RC by (eapply rep_le; [|rep_eval]; lia).
    rewrite (proj1 (rep_zero _ _ _ RC ltac:(lia))), eqb_false by nonzero.
    eapply (unified_spec x1 y1 x2 y2 c l ((y1 + y2) * (c * c * c))); try done; [| | |nonzero].
    + eapply rep_eq; [exact RR|lia|rewrite Er; ring].
    + by eapply rep_le; [|exact RM].
    + eapply rep_eq; [rep_eval| |ring]; lia.
  - rewrite eqb_true by (rewrite Hm; ring). rewrite eqb_true by (rewrite Er; ring). cbn [andb negb].
    rewrite !(cmov_rep _ _ _ _ rr_alt rr false RRA RR), !(cmov_rep _ _ _ _ m_alt m false RMA RM) by lia.
    erewrite (cmov_rep _ _ _ _ _ m true) by (rep_eval; lia).
    assert (rep 1 (c * ((x1 - x2) * (c * c))) (fe_mul z m_alt)) as RC by (eapply rep_le; [|rep_eval]; lia).
    rewrite (proj1 (rep_zero _ _ _ RC ltac:(lia))), eqb_false by nonzero.
    eapply (unified_spec x1 y1 x2 y2 c l ((x1 - x2) * (c * c))); try done; [| |nonzero].
    + eapply rep_eq; [exact RRA|lia|rewrite Er'; ring].
    + eapply rep_eq; [exact RM|lia|rewrite Hm; ring].
  - set (d := _ && _). assert (rep 3 0 (fe_cmov m_alt m (negb d))) as RA.
    { eapply rep_eq; [eapply rep_cmov; [exact RMA|exact RM|lia|lia]|lia|]. destruct d; cbn; [ring|rewrite Hm; ring]. }
    assert (rep 1 (c * 0) (fe_mul z (fe_cmov m_alt m (negb d)))) as RC by (eapply rep_le; [|rep_eval]; lia).
    split; [|rewrite (proj1 (rep_zero _ _ _ RC ltac:(lia))); cbn; rewrite eqb_true by ring; done].
    by split_and!; cbn; (eapply rep_magnitude; [repeat first [progress rep_eval|eapply rep_cmov]|]); lia.
Qed.

Lemma gej_add_ge_finite (a : secp256k1_gej fe) (b : secp256k1_ge fe) (x1 y1 x2 y2 : Fp) :
  jacobian a (Some (x1, y1)) → affine b (Some (x2, y2)) → on_curve (Some (x1, y1)) → on_curve (Some (x2, y2)) →
  jacobian (gej_add_ge a b) (point_add (Some (x1, y1)) (Some (x2, y2))).
Proof.
  intros Ha Hb H1 H2. destruct (jacobian_reps a x1 y1 Ha) as (c & Hc & Hi & RX & RY & RZ).
  destruct (affine_reps b x2 y2 Hb) as (Hbi & RX2 & RY2). pose proof (rep_set_int 1 ltac:(lia)) as R1.
  unfold gej_add_ge. rewrite Hi, andb_true_r.
  set (u1 := fe_normalize_weak (gej_x a)). set (u2 := fe_mul (ge_x b) _). set (s1 := fe_normalize_weak (gej_y a)).
  set (s2 := fe_mul (fe_mul (ge_y b) _) _).
  assert (rep 1 (x1 * (c * c)) u1) as RU1 by (unfold u1; eapply rep_le; [|rep_eval]; lia).
  assert (rep 1 (x2 * (c * c)) u2) as RU2 by (unfold u2; eapply rep_le; [|rep_eval]; lia).
  assert (rep 1 (y1 * (c * c * c)) s1) as RS1 by (unfold s1; eapply rep_le; [|rep_eval]; lia).
  assert (rep 1 (y2 * (c * c * c)) s2) as RS2 by (unfold s2; eapply rep_eq; [rep_eval| |ring]; lia).
  clearbody u1 u2 s1 s2.
  set (t := fe_add u1 u2). set (m := fe_add s1 s2). set (rr := fe_add (fe_sqr t) _). set (malt := fe_add (fe_negate u2 1) u1).
  set (ralt := fe_mul_int s1 2).
  assert (rep 2 ((x1 + x2) * (c * c)) t) as RT by (unfold t; eapply rep_eq; [rep_eval| |ring]; lia).
  assert (rep 2 ((y1 + y2) * (c * c * c)) m) as RM by (unfold m; eapply rep_eq; [rep_eval| |ring]; lia).
  assert (rep 2 (((x1 + x2) * (x1 + x2) - x1 * x2) * (c * c * c * c)) rr) as RR by (unfold rr; eapply rep_eq; [rep_eval| |ring]; lia).
  assert (rep 3 ((x1 - x2) * (c * c)) malt) as RMA by (unfold malt; eapply rep_eq; [rep_eval| |ring]; lia).
  assert (rep 2 (cst 2 * y1 * (c * c * c)) ralt) as RRA by (unfold ralt; eapply rep_eq; [rep_eval| |ring]; lia).
  clearbody t m rr malt ralt.
  erewrite (cmov_rep _ _ _ _ _ (ge_x b)), (cmov_rep _ _ _ _ _ (ge_y b)), (cmov_rep _ _ _ _ _ (fe_set_int 1));
    [|repeat first [progress rep_eval|eapply rep_cmov]; try lia..].
  by apply (add_ge_tail_spec x1 y1 x2 y2 c (gej_z a) t m rr ralt malt).
Qed.

Lemma gej_add_ge_spec (a : secp256k1_gej fe) (b : secp256k1_ge fe) (P Q : point) :
  jacobian a P → affine b Q → Q ≠ None → on_curve P → on_curve Q → jacobian (gej_add_ge a b) (point_add P Q).
Proof.
  intros Ha Hb HQ HcP HcQ. destruct Q as [[x2 y2]|]; [|done].
  destruct P as [[x1 y1]|]; [by apply gej_add_ge_finite|by apply gej_add_ge_infinity].
Qed.

(** ** Conversions and tests *)

Lemma ge_set_gej_spec (r : secp256k1_ge fe) (a : secp256k1_gej fe) (P : point) :
  ge_ok r → jacobian a P →
  affine (ge_set_gej a).1 P ∧ jacobian (ge_set_gej a).2 P ∧ affine (ge_set_gej_var r a).1 P ∧ jacobian (ge_set_gej_var r a).2 P.
Proof.
  intros Hr Ha. pose proof (rep_set_int 1 ltac:(lia)) as R1. destruct P as [[x y]|].
  - destruct (jacobian_reps a x y Ha) as (z & Hz & Hi & RX & RY & RZ). unfold ge_set_gej_var, ge_set_gej, fe_inv_var. rewrite Hi. cbn [fst snd].
    set (X := fe_mul (gej_x a) _). set (Y := fe_mul (gej_y a) _).
    assert (rep 1 x X) as HX by (unfold X; eapply rep_eq; [rep_eval| |field]; try lia; done).
    assert (rep 1 y Y) as HY by (unfold Y; eapply rep_eq; [rep_eval| |field]; try lia; done).
    assert (affine (MkGe X Y false) (Some (x, y))) as Hf.
    { split; [split; cbn; (eapply rep_magnitude; [eassumption|lia])|]. by destruct HX, HY. }
    assert (jacobian (MkGej X Y (fe_set_int 1) false) (Some (x, y))) as Hj.
    { eapply jacobian_intro; [eassumption..|lia|lia|lia|by apply cst_nonzero| |]; ring. }
    done.
  - pose proof Ha as [(Hx & Hy & Hz) Hi]. unfold ge_set_gej_var, ge_set_gej. rewrite Hi. cbn [fst snd].
    assert (rep 6 (fe_value (gej_x a)) (gej_x a)) as RX by done. assert (rep 4 (fe_value (gej_y a)) (gej_y a)) as RY by done.
    assert (rep 2 (fe_value (gej_z a)) (gej_z a)) as RZ by done.
    split_and!; [| | |done]; split; try done.
    + split; cbn; (eapply rep_magnitude; [rep_eval|]); lia.
    + split_and!; cbn; (eapply rep_magnitude; [rep_eval|]); lia.
Qed.

Lemma ge_is_valid_var_spec (a : secp256k1_ge fe) (P : point) : affine a P → ge_is_valid_var a = true ↔ P ≠ None ∧ on_curve P.
Proof.
  intros Ha. unfold ge_is_valid_var. destruct P as [[x y]|]; [|by destruct Ha as [_ ->]; split; [|intros []]].
  destruct (affine_reps a x y Ha) as (-> & RX & RY). pose proof (rep_set_int CURVE_B ltac:(unfold CURVE_B; lia)) as RB.
  set (y2 := fe_sqr _). set (x3 := fe_normalize_weak _). 
  assert (rep 1 (y * y) y2) as [M2 V2] by (unfold y2; eapply rep_le; [|rep_eval]; lia).
  assert (rep 1 (x * x * x + cst 7) x3) as [M3 V3] by (unfold x3; eapply rep_le; [|rep_eval]; lia).
  rewrite (proj2 (fe_equal_spec 1 y2 x3 M2 M3 ltac:(lia))), V2, V3, Zmod.eqb_eq. cbn. split; [intros E; by split|by intros [? ?]].
Qed.

Lemma gej_is_valid_var_spec (a : secp256k1_gej fe) (P : point) : jacobian a P → gej_is_valid_var a = true ↔ P ≠ None ∧ on_curve P.
Proof.
  intros Ha. unfold gej_is_valid_var. destruct P as [[x y]|]; [|by destruct Ha as [_ ->]; split; [|intros []]].
  destruct (jacobian_reps a x y Ha) as (z & Hz & -> & RX & RY & RZ).
  set (y2 := fe_sqr _). set (x3 := fe_normalize_weak _). set (c := z * z * z * z * z * z).
  assert (rep 1 (y * y * c) y2) as [M2 V2] by (unfold y2, c; eapply rep_eq; [rep_eval| |ring]; lia).
  assert (rep 1 ((x * x * x + cst 7) * c) x3) as [M3 V3] by (unfold x3, c, CURVE_B; eapply rep_eq; [rep_eval| |ring]; lia).
  rewrite (proj2 (fe_equal_spec 1 y2 x3 M2 M3 ltac:(lia))), V2, V3, <- eqb_sub, scaled_eqb by (unfold c; nonzero).
  rewrite Zmod.eqb_eq. cbn. split; [intros E; by split|by intros [? ?]].
Qed.

Lemma gej_eq_x_var_spec (a : secp256k1_gej fe) (x : fe) (px py : Fp) :
  jacobian a (Some (px, py)) → fe_magnitude 8 x → gej_eq_x_var x a = Zmod.eqb (fe_value x) px.
Proof.
  intros Ha Hx. assert (rep 8 (fe_value x) x) as Rx by done. destruct (jacobian_reps a px py Ha) as (z & Hz & _ & RX & _ & RZ).
  unfold gej_eq_x_var. set (u := fe_mul _ x). set (w := fe_normalize_weak _).
  assert (rep 1 (fe_value x * (z * z)) u) as [MU VU] by (unfold u; eapply rep_eq; [rep_eval| |ring]; lia).
  assert (rep 1 (px * (z * z)) w) as [MW VW] by (unfold w; eapply rep_le; [|rep_eval]; lia).
  rewrite (proj2 (fe_equal_spec 1 u w MU MW ltac:(lia))), VU, VW, <- eqb_sub. apply scaled_eqb. nonzero.
Qed.

Lemma ge_neg_spec (a : secp256k1_ge fe) (b : secp256k1_gej fe) (P : point) :
  affine a P → jacobian b P → affine (ge_neg a) (point_neg P) ∧ jacobian (gej_neg b) (point_neg P).
Proof.
  intros Ha Hb. destruct P as [[x y]|].
  - destruct (affine_reps a x y Ha) as (Hi & RX & RY). destruct (jacobian_reps b x y Hb) as (z & Hz & Hj & RX' & RY' & RZ').
    unfold ge_neg, gej_neg. rewrite Hi, Hj. split.
    + assert (rep 2 (Zmod.opp y) (fe_negate (fe_normalize_weak (ge_y a)) 1)) as [MY VY] by (eapply rep_le; [|rep_eval]; lia).
      destruct RX as [MX VX]. split; [split; cbn; (eapply magnitude_le; [|eassumption]); lia|done].
    + eapply jacobian_intro; [rep_eval..| | | | | |]; try lia; try done; ring.
  - pose proof Ha as [[Hx Hy] Hi]. pose proof Hb as [(Hx' & Hy' & Hz') Hj].
    assert (rep 4 (fe_value (ge_y a)) (ge_y a)) as RY by done. assert (rep 4 (fe_value (gej_y b)) (gej_y b)) as RY' by done.
    split; (split; [|done]); split_and!; cbn; try done; (eapply rep_magnitude; [rep_eval|]); lia.
Qed.

Lemma gej_rescale_spec (r : secp256k1_gej fe) (s : fe) (P : point) : jacobian r P → fe_unit s → jacobian (gej_rescale r s) P.
Proof.
  intros Hr [Hs Hs0]. assert (rep 8 (fe_value s) s) as RS by done. unfold gej_rescale. destruct P as [[x y]|].
  - destruct (jacobian_reps r x y Hr) as (z & Hz & -> & RX & RY & RZ).
    eapply jacobian_intro; [rep_eval..| | | | | |]; try lia; [nonzero|ring|ring].
  - destruct Hr as [(Hx & Hy & Hz) Hi]. split; [|done].
    assert (rep 6 (fe_value (gej_x r)) (gej_x r)) as RX by done. assert (rep 4 (fe_value (gej_y r)) (gej_y r)) as RY by done.
    assert (rep 2 (fe_value (gej_z r)) (gej_z r)) as RZ by done.
    split_and!; cbn; (eapply rep_magnitude; [rep_eval|]); lia.
Qed.

(** A square times the fourth power of a unit is a square. *)
Lemma gej_has_quad_y_var_spec (a : secp256k1_gej fe) (x y : Fp) :
  jacobian a (Some (x, y)) → gej_has_quad_y_var a = true ↔ ∃ r, y = r * r.
Proof.
  intros Ha. destruct (jacobian_reps a x y Ha) as (z & Hz & Hi & RX & RY & RZ). unfold gej_has_quad_y_var, fe_is_quad_var. rewrite Hi.
  assert (rep 1 (y * (z * z * z * z)) (fe_mul (gej_y a) (gej_z a))) as [M V] by (eapply rep_eq; [rep_eval| |ring]; lia).
  pose proof (fe_sqrt_spec (fe_mul (gej_y a) (gej_z a)) ltac:(by apply (magnitude_le 1))) as Hq. destruct (fe_sqrt _) as [r ok].
  destruct Hq as (_ & Hq & _). cbn [snd]. rewrite Hq, V. split; intros [u Hu].
  - exists (Zmod.mdiv u (z * z)). transitivity (Zmod.mdiv (y * (z * z * z * z)) (z * z * z * z)); [field; done|rewrite Hu; field; done].
  - exists (u * (z * z)). rewrite Hu. ring.
Qed.

(** The opposite of a nonzero element has the other parity, as p is odd. *)
Lemma odd_opp (y : Fp) : y ≠ 0 → Z.odd (Zmod.unsigned (Zmod.opp y)) = negb (Z.odd (Zmod.unsigned y)).
Proof.
  intros Hy. assert (Zmod.unsigned y ≠ 0%Z) by (intros E; apply Hy, Zmod.unsigned_inj; by rewrite E, Zmod.unsigned_0).
  pose proof (Zmod.unsigned_pos_bound y ltac:(done)). rewrite Zmod.unsigned_opp, <- (Z.mod_unique _ _ (-1) (secp_p - Zmod.unsigned y)); [|lia|lia].
  rewrite Z.odd_sub. by destruct (Z.odd (Zmod.unsigned y)).
Qed.

Lemma ge_set_xo_var_spec (x : fe) (odd : bool) :
  fe_magnitude 4 x →
  ((ge_set_xo_var x odd).2 = true ↔ ∃ y, on_curve (Some (fe_value x, y))) ∧
  ((ge_set_xo_var x odd).2 = true → ∃ y, affine (ge_set_xo_var x odd).1 (Some (fe_value x, y)) ∧ on_curve (Some (fe_value x, y)) ∧
     Z.odd (Zmod.unsigned y) = odd).
Proof.
  intros Hx. assert (rep 4 (fe_value x) x) as RX by done. pose proof (rep_set_int CURVE_B ltac:(unfold CURVE_B; lia)) as RB.
  unfold ge_set_xo_var, ge_set_xquad. set (c := fe_add _ _). set (v := fe_value x) in *.
  assert (rep 2 (v * v * v + cst 7) c) as [MC VC] by (unfold c; eapply rep_eq; [rep_eval| |unfold CURVE_B; ring]; lia).
  pose proof (fe_sqrt_spec c ltac:(by apply (magnitude_le 2))) as Hq. destruct (fe_sqrt c) as [r ok].
  destruct Hq as (Mr & Hok & Hr). rewrite VC in Hok, Hr. cbn [negb].
  destruct ok; cbn [negb fst snd ge_x ge_y ge_infinity]; [|split; [|done]; split; [done|]].
  2: { intros [y Hy]. apply Hok. by exists y. }
  split; [split; [intros _|done]; exists (fe_value r); cbn; by rewrite Hr|intros _].
  destruct (normalize_spec r ltac:(by apply (magnitude_le 1))) as [Hn Vn]. rewrite normalize_var_spec by by apply (magnitude_le 1).
  rewrite is_odd_spec, Vn by done. pose proof (eq_sym (Hr eq_refl)) as Hc.
  assert (rep 1 (fe_value r) (fe_normalize r)) as RN by (split; [by apply normalized_magnitude|done]).
  destruct (Bool.eqb _ odd) eqn:Eo; cbn [negb].
  - exists (fe_value r). split_and!; [|done|by apply Bool.eqb_prop]. split; [|done]. split; [by apply (magnitude_le 4)|]. by eapply rep_magnitude.
  - exists (Zmod.opp (fe_value r)). assert (rep 2 (Zmod.opp (fe_value r)) (fe_negate (fe_normalize r) 1)) as [MN VN] by (eapply rep_le; [|rep_eval]; lia).
    split_and!; [|cbn in *; rewrite <- Hc; ring|].
    + split; [|done]. split; [by apply (magnitude_le 4)|]. by apply (magnitude_le 2).
    + rewrite odd_opp by by apply (no_two_torsion v). by destruct (Z.odd _), odd.
Qed.

Lemma ge_set_gej_zinv_spec (a : secp256k1_gej fe) (zi : fe) (x y : Fp) :
  jacobian a (Some (x, y)) → fe_magnitude 1 zi → fe_value zi = Zmod.inv (fe_value (gej_z a)) → affine (ge_set_gej_zinv a zi) (Some (x, y)).
Proof.
  intros Ha Hm Hv. destruct Ha as [(Hx & Hy & Hz) (Hi & Hz0 & Ex & Ey)]. assert (rep 1 (Zmod.inv (fe_value (gej_z a))) zi) as RI by done.
  assert (rep 6 (x * (fe_value (gej_z a) * fe_value (gej_z a))) (gej_x a)) as RX by done.
  assert (rep 4 (y * (fe_value (gej_z a) * fe_value (gej_z a) * fe_value (gej_z a))) (gej_y a)) as RY by done.
  unfold ge_set_gej_zinv. rewrite Hi. set (X := fe_mul (gej_x a) _). set (Y := fe_mul (gej_y a) _).
  assert (rep 1 x X) as HX by (unfold X; eapply rep_eq; [rep_eval| |field]; try lia; done).
  assert (rep 1 y Y) as HY by (unfold Y; eapply rep_eq; [rep_eval| |field]; try lia; done).
  split; [split; cbn; (eapply rep_magnitude; [eassumption|lia])|]. by destruct HX, HY.
Qed.

Lemma ge_set_all_spec (r : list (secp256k1_ge fe)) (a : list (secp256k1_gej fe)) (azi : list fe) (P : list point) :
  Forall2 jacobian a P → Forall ge_ok r → length r = length a → Forall (fe_magnitude 1) azi →
  fe_value <$> azi = Zmod.inv ∘ fe_value ∘ gej_z <$> filter (λ p, gej_infinity p = false) a → Forall2 affine (ge_set_all r a azi) P.
Proof.
  intros Ha. revert r azi. induction Ha as [|p Q a P Hp Ha IH]; intros [|q r] azi Hr Hl Hm Hv; try done.
  apply list.Forall_cons in Hr as [Hq Hr]. injection Hl as Hl. cbn [ge_set_all]. rewrite filter_cons in Hv. destruct Q as [[x y]|].
  - assert (gej_infinity p = false) as Hi by apply Hp. rewrite Hi in *. rewrite decide_True in Hv by done.
    destruct azi as [|zi azi]; [done|]. apply list.Forall_cons in Hm as [Hm1 Hm]. rewrite !fmap_cons in Hv. injection Hv as Hz Hv.
    constructor; [|by apply IH]. by apply ge_set_gej_zinv_spec.
  - assert (gej_infinity p = true) as Hi by apply Hp. rewrite Hi in *. rewrite decide_False in Hv by done.
    constructor; [by split|by apply IH].
Qed.

Lemma finite_units (a : list (secp256k1_gej fe)) (P : list point) :
  Forall2 jacobian a P → Forall fe_unit (gej_z <$> filter (λ p, gej_infinity p = false) a).
Proof.
  induction 1 as [|p Q a P Hp _ IH]; [constructor|]. rewrite filter_cons. case_decide as Hi; [|done]. constructor; [|done].
  destruct Hp as [(_ & _ & Hz) Hp]. destruct Q as [[x y]|]; [|by rewrite Hi in Hp]. split; [by apply (magnitude_le 2)|]. by destruct Hp as (_ & ? & _).
Qed.

Lemma ge_set_all_gej_var_spec (r : list (secp256k1_ge fe)) (a : list (secp256k1_gej fe)) (P : list point) :
  Forall2 jacobian a P → Forall ge_ok r → length r = length a → Forall2 affine (ge_set_all_gej_var r a) P.
Proof.
  intros Ha Hr Hl. pose proof (finite_units a P Ha) as Hu. apply ge_set_all_spec; [done..|by apply fe_inv_all_var_magnitude|].
  rewrite fe_inv_all_var_spec by done. by rewrite <- list_fmap_compose.
Qed.
End Values.

(** ** The generator *)

Definition SECP256K1_FE_CONST (d7 d6 d5 d4 d3 d2 d1 d0 : Z) : secp256k1_fe :=
  MkFe (d0 .| ((d1 .& 0xFFFFF) .<< 32)) ((d1 .>> 20) .| (d2 .<< 12) .| ((d3 .& 0xFF) .<< 44)) ((d3 .>> 8) .| ((d4 .& 0xFFFFFFF) .<< 24))
    ((d4 .>> 28) .| (d5 .<< 4) .| ((d6 .& 0xFFFF) .<< 36)) ((d6 .>> 16) .| (d7 .<< 16)).

Definition secp256k1_ge_const_g : secp256k1_ge secp256k1_fe :=
  MkGe (SECP256K1_FE_CONST 0x79BE667E 0xF9DCBBAC 0x55A06295 0xCE870B07 0x029BFCDB 0x2DCE28D9 0x59F2815B 0x16F81798)
    (SECP256K1_FE_CONST 0x483ADA77 0x26A3C465 0x5DA4FBFC 0x0E1108A8 0xFD17B448 0xA6855419 0x9C47D08F 0xFB10D4B8) false.

Definition generator : point := Some (fe_value (ge_x secp256k1_ge_const_g), fe_value (ge_y secp256k1_ge_const_g)).

Lemma generator_affine : affine secp256k1_ge_const_g generator.
Proof. split; [|done]. split; apply (fe_mag_le 1); (lia || by apply fe_norm_mag; vm_compute). Qed.

Lemma generator_on_curve : on_curve generator.
Proof. apply Zmod.eqb_eq. by vm_compute. Qed.

Lemma generator_jacobian : jacobian (gej_set_ge secp256k1_ge_const_g) generator.
Proof. apply gej_set_ge_spec, generator_affine. Qed.

(** ** Properties *)

(** C37: the formulas compute the group law of the curve y^2 = x^3 + 7, over every field representation that keeps the laws
    of [field.h].  On coordinates of points of the curve within the magnitudes [gej_ok] and [ge_ok], infinity and
    the exceptional cases included, doubling, the three variable-time additions and the
    constant-time addition return coordinates of the double and of the sum, which are points of the curve again, within the same
    magnitudes, so that they can be chained. *)
Theorem group_law_correct {fe : Type} `{secp256k1_field_laws fe} (r a b : secp256k1_gej fe) (c d : secp256k1_ge fe) (dzinv : fe) (P Q : point) :
  gej_ok r → jacobian a P → jacobian b Q → affine c Q → scaled d dzinv Q → on_curve P → on_curve Q →
  jacobian (gej_double_var r a).1 (point_double P) ∧ on_curve (point_double P) ∧
  jacobian (gej_add_var r a b).1 (point_add P Q) ∧ jacobian (gej_add_ge_var r a c).1 (point_add P Q) ∧
  jacobian (gej_add_zinv_var r a d dzinv) (point_add P Q) ∧ (Q ≠ None → jacobian (gej_add_ge a c) (point_add P Q)) ∧
  on_curve (point_add P Q).
Proof.
  intros Hr Ha Hb Hc Hd HP HQ. split_and!; auto using gej_double_var_spec, point_double_on_curve, gej_add_var_spec,
    gej_add_ge_var_spec, gej_add_zinv_var_spec, gej_add_ge_spec, point_add_on_curve.
Qed.

(** an x-coordinate is completed to a point exactly if the curve has a point there.  [ge_set_xo_var] reports success iff
    some y satisfies the equation, and then returns the point of the curve with that x whose y has
    the requested parity; the validity test accepts what it returned. *)
Theorem ge_set_xo_var_correct {fe : Type} `{secp256k1_field_laws fe} (x : fe) (odd : bool) :
  fe_magnitude 4 x →
  ((ge_set_xo_var x odd).2 = true ↔ ∃ y, on_curve (Some (fe_value x, y))) ∧
  ((ge_set_xo_var x odd).2 = true → ∃ y,
     affine (ge_set_xo_var x odd).1 (Some (fe_value x, y)) ∧ on_curve (Some (fe_value x, y)) ∧ Z.odd (Zmod.unsigned y) = odd ∧
     ge_is_valid_var (ge_set_xo_var x odd).1 = true).
Proof.
  intros Hx. destruct (ge_set_xo_var_spec x odd Hx) as [Hok Hr]. split; [done|]. intros E. destruct (Hr E) as (y & Ha & Hc & Ho).
  exists y. split_and!; [done..|]. by apply (ge_is_valid_var_spec _ (Some (fe_value x, y))).
Qed.

(** converting from Jacobian to affine coordinates, by itself or for a list of points with one inversion (the points at
    infinity skipped), keeps the points, as do rescaling and the negations; the tests of validity, of the
    x-coordinate and of whether y is a square answer for the point the coordinates stand for. *)
Theorem ge_conversions_correct {fe : Type} `{secp256k1_field_laws fe} (r : list (secp256k1_ge fe)) (l : list (secp256k1_gej fe)) (Ps : list point)
    (a : secp256k1_gej fe) (c q : secp256k1_ge fe) (s : fe) (P : point) (x y : Fp) :
  Forall2 jacobian l Ps → Forall ge_ok r → length r = length l → jacobian a P → affine c P → ge_ok q → fe_unit s →
  Forall2 affine (ge_set_all_gej_var r l) Ps ∧ affine (ge_set_gej a).1 P ∧ affine (ge_set_gej_var q a).1 P ∧
  jacobian (gej_rescale a s) P ∧ jacobian (gej_neg a) (point_neg P) ∧ affine (ge_neg c) (point_neg P) ∧
  (gej_is_valid_var a = true ↔ P ≠ None ∧ on_curve P) ∧ (ge_is_valid_var c = true ↔ P ≠ None ∧ on_curve P) ∧
  (P = Some (x, y) → gej_eq_x_var s a = Zmod.eqb (fe_value s) x ∧ (gej_has_quad_y_var a = true ↔ ∃ u, y = u * u)).
Proof.
  intros Hl Hr Hlen Ha Hc Hq Hs. destruct (ge_set_gej_spec q a P Hq Ha) as (? & ? & ? & ?). destruct (ge_neg_spec c a P Hc Ha).
  split_and!; auto using ge_set_all_gej_var_spec, gej_rescale_spec, gej_is_valid_var_spec, ge_is_valid_var_spec.
  intros ->. split; [eapply gej_eq_x_var_spec; [done|apply Hs]|by eapply gej_has_quad_y_var_spec].
Qed.

(** ** Witnesses *)

Lemma one_unit : fe_unit (secp256k1_fe_set_int 1).
Proof. split; [apply set_int_mag; lia|by vm_compute]. Qed.

Lemma generator_scaled : scaled secp256k1_ge_const_g (secp256k1_fe_set_int 1) generator.
Proof.
  split_and!; [apply generator_affine|apply set_int_mag; lia|]. cbn [generator]. split_and!; [done|..]; apply Zmod.eqb_eq; by vm_compute.
Qed.

Lemma group_law_correct_witness :
  jacobian (gej_add_ge (gej_set_ge secp256k1_ge_const_g) secp256k1_ge_const_g) (point_add generator generator).
Proof.
  destruct (group_law_correct (gej_set_ge secp256k1_ge_const_g) (gej_set_ge secp256k1_ge_const_g) (gej_set_ge secp256k1_ge_const_g)
    secp256k1_ge_const_g secp256k1_ge_const_g (secp256k1_fe_set_int 1) generator generator) as (_ & _ & _ & _ & _ & E & _);
    [apply generator_jacobian..|apply generator_affine|apply generator_scaled|apply generator_on_curve|apply generator_on_curve|by apply E].
Defined.

Lemma ge_set_xo_var_correct_witness :
  (ge_set_xo_var (ge_x secp256k1_ge_const_g) false).2 = true.
Proof.
  apply (ge_set_xo_var_correct (ge_x secp256k1_ge_const_g) false).
  - apply generator_affine.
  - eexists. apply generator_on_curve.
Defined.

Lemma ge_conversions_correct_witness :
  ge_is_valid_var secp256k1_ge_const_g = true.
Proof.
  destruct (ge_conversions_correct [secp256k1_ge_const_g] [gej_set_ge secp256k1_ge_const_g] [generator] (gej_set_ge secp256k1_ge_const_g)
    secp256k1_ge_const_g secp256k1_ge_const_g (secp256k1_fe_set_int 1) generator 0 0) as (_ & _ & _ & _ & _ & _ & _ & E & _).
  - constructor; [apply generator_jacobian|constructor].
  - constructor; [apply generator_affine|constructor].
  - done.
  - apply generator_jacobian.
  - apply generator_affine.
  - apply generator_affine.
  - apply one_unit.
  - apply E. split; [done|apply generator_on_curve].
Defined.
