(* ===== verification/Weierstrass.v ===== *)
(** * Chords and tangents of the curve y^2 = x^3 + b over a field

    The affine addition of src/secp256k1/src/group_impl.h adds two points with the slope
    of the line through them, or of the tangent where they are the same point.  This file has the
    algebra of those two slopes over any field of characteristic other than 2: the four identities
    between rational functions to which the associativity of the law comes down. *)
From Stdlib Require Import ZArith Field.
From S2P Require Import Prelude.


Section Chords.
Context {F : Type} (r0 r1 : F) (radd rmul rsub : F → F → F) (ropp : F → F) (rdiv : F → F → F) (rinv : F → F).
Context (fth : Field_theory.field_theory r0 r1 radd rmul rsub ropp rdiv rinv eq).
Add Field F_chords : fth.
#[local] Infix "+" := radd.
#[local] Infix "*" := rmul.
#[local] Infix "-" := rsub.
#[local] Infix "/" := rdiv.

Context (b : F) (two_nonzero : r1 + r1 ≠ r0).

Definition secant (P Q : F * F) : F := (Q.2 - P.2) / (Q.1 - P.1).
Definition tangent (P : F * F) : F := ((r1 + r1 + r1) * P.1 * P.1) / ((r1 + r1) * P.2).

(** The reflection of the third point of the line of slope [l] through [P] and [Q] *)
Definition via (l : F) (P Q : F * F) : F * F :=
  let x3 := l * l - P.1 - Q.1 in (x3, l * (P.1 - x3) - P.2).

Lemma nonzero_of_quotient (A B d : F) : B ≠ r0 → B = A / d → d ≠ r0 → A ≠ r0.
Proof. intros HB E Hd EA. apply HB. rewrite E, EA. field. exact Hd. Qed.

Lemma nonzero_product (x y : F) : x ≠ r0 → y ≠ r0 → x * y ≠ r0.
Proof. intros Hx Hy E. apply Hy. transitivity (x * y / x); [field; exact Hx|]. rewrite E. field. exact Hx. Qed.

Ltac denominators :=
  repeat match goal with |- _ ∧ _ => split end; try assumption; repeat apply nonzero_product; try assumption.
Ltac cleared D d := refine (nonzero_of_quotient _ _ d D _ _); [field; denominators | denominators].

Lemma assoc_secants (x1 y1 x2 y2 x3 y3 : F) :
  let P := (x1, y1) in let Q := (x2, y2) in let R := (x3, y3) in
  let S := via (secant P Q) P Q in let T := via (secant Q R) Q R in
  y1 * y1 = x1 * x1 * x1 + b → y2 * y2 = x2 * x2 * x2 + b → y3 * y3 = x3 * x3 * x3 + b →
  x2 - x1 ≠ r0 → x3 - x2 ≠ r0 → x3 - S.1 ≠ r0 → T.1 - x1 ≠ r0 →
  via (secant S R) S R = via (secant P T) P T.
Proof.
  intros P Q R S T H1 H2 H3 D1 D2 D3 D4. subst T S P Q R; unfold via, secant in *. cbn [fst snd] in *.
  f_equal; field [H1 H2 H3]; denominators.
  all: first [cleared D3 ((x2 - x1) * (x2 - x1)) | cleared D4 ((x3 - x2) * (x3 - x2))].
Qed.

Lemma assoc_double (x1 y1 x3 y3 : F) :
  let P := (x1, y1) in let R := (x3, y3) in
  let S := via (tangent P) P P in let T := via (secant P R) P R in
  y1 * y1 = x1 * x1 * x1 + b → y3 * y3 = x3 * x3 * x3 + b → y1 ≠ r0 →
  x3 - x1 ≠ r0 → x3 - S.1 ≠ r0 → T.1 - x1 ≠ r0 →
  via (secant S R) S R = via (secant P T) P T.
Proof.
  intros P R S T H1 H3 Hy D1 D3 D4. subst T S P R; unfold via, secant, tangent in *. cbn [fst snd] in *.
  f_equal; field [H1 H3]; denominators.
  all: first [cleared D3 (((r1 + r1) * y1) * ((r1 + r1) * y1)) | cleared D4 ((x3 - x1) * (x3 - x1))].
Qed.

Lemma assoc_sum_doubled (x1 y1 x2 y2 : F) :
  let P := (x1, y1) in let Q := (x2, y2) in
  let S := via (secant P Q) P Q in let T := via (secant Q S) Q S in
  y1 * y1 = x1 * x1 * x1 + b → y2 * y2 = x2 * x2 * x2 + b → x2 - x1 ≠ r0 →
  S.1 - x2 ≠ r0 → T.1 - x1 ≠ r0 → S.2 ≠ r0 →
  via (tangent S) S S = via (secant P T) P T.
Proof.
  intros P Q S T H1 H3 D1 D2 D3 D4. subst T S P Q; unfold via, secant, tangent in *. cbn [fst snd] in *.
  f_equal; field [H1 H3]; denominators.
  all: set (d := x2 - x1) in *; assert ((y2 - y1) * (y2 - y1) - x1 * (d * d) - x2 * (d * d) - x2 * (d * d) ≠ r0) as HA by cleared D2 (d * d).
  all: first [assumption | cleared D4 (d * d * d) | match type of HA with ?a ≠ _ => cleared D3 (d * a * (d * a)) end].
Qed.

Lemma assoc_double_doubled (x1 y1 : F) :
  let P := (x1, y1) in let S := via (tangent P) P P in let T := via (secant P S) P S in
  y1 * y1 = x1 * x1 * x1 + b → y1 ≠ r0 → S.1 - x1 ≠ r0 → T.1 - x1 ≠ r0 → S.2 ≠ r0 →
  via (tangent S) S S = via (secant P T) P T.
Proof.
  intros P S T H1 Hy D1 D3 D4. subst T S P; unfold via, secant, tangent in *. cbn [fst snd] in *.
  f_equal; field [H1]; denominators.
  all: set (d := (r1 + r1) * y1) in *; assert (d ≠ r0) as Hd by denominators.
  all: assert ((r1 + (r1 + r1)) * x1 * x1 * ((r1 + (r1 + r1)) * x1 * x1) - x1 * (d * d) - x1 * (d * d) - x1 * (d * d) ≠ r0) as HA by cleared D1 (d * d).
  all: first [assumption | cleared D4 (d * d * d) | match type of HA with ?a ≠ _ => cleared D3 (d * a * (d * a)) end].
Qed.

End Chords.
