(* ===== verification/CurveGroup.v ===== *)
(** * The group of the points of the curve

    [SecpGroup] relates every operation of src/secp256k1/src/group_impl.h to the affine law
    [point_add].  This file shows that the law is that of a commutative group on the points of the
    curve, and defines the multiples of a point, which is what the scalar multiplications compute. *)
From Stdlib Require Import ZArith Lia Zdivisibility Zmod Field.
From S2P Require Import Prelude Common Field5x52 Primes SecpField SecpGroup Weierstrass.
Open Scope Z_scope.

#[local] Open Scope Zmod_scope.
Add Field Fp_curve : (Zmod.field_theory secp_p secp_prime) (morphism cst_morph, constants [Fp_constant]).

(** ** The affine law by slopes *)

Definition Fp_secant : Fp * Fp → Fp * Fp → Fp := secant Zmod.sub Zmod.mdiv.
Definition Fp_tangent : Fp * Fp → Fp := tangent 1 Zmod.add Zmod.mul Zmod.mdiv.
Definition Fp_via : Fp → Fp * Fp → Fp * Fp → Fp * Fp := via Zmod.mul Zmod.sub.

Lemma two_is_cst : 1 + 1 = cst 2.
Proof. ring. Qed.

Lemma double_not_zero : (1 : Fp) + 1 ≠ 0.
Proof. rewrite two_is_cst. by apply cst_nonzero. Qed.

Lemma point_double_via (P : Fp * Fp) : point_double (Some P) = Some (Fp_via (Fp_tangent P) P P).
Proof.
  destruct P as [x y]. cbn [point_double]. unfold chord, Fp_via, Fp_tangent, via, tangent. cbn [fst snd].
  replace (1 + 1 + 1) with (cst 3) by ring. by rewrite two_is_cst.
Qed.

(** Two finite points of the curve are opposite, equal, or have different abscissas. *)
Variant sum_of (P Q : Fp * Fp) : point → Prop :=
  | sum_opposite : Q = (P.1, Zmod.opp P.2) → sum_of P Q None
  | sum_double : P = Q → sum_of P Q (Some (Fp_via (Fp_tangent P) P P))
  | sum_secant : Q.1 - P.1 ≠ 0 → sum_of P Q (Some (Fp_via (Fp_secant P Q) P Q)).

Lemma sum_of_spec (P Q : Fp * Fp) : on_curve (Some P) → on_curve (Some Q) → sum_of P Q (point_add (Some P) (Some Q)).
Proof.
  destruct P as [x1 y1], Q as [x2 y2]. intros H1 H2. cbn [point_add]. destruct (Zmod.eqb_spec x1 x2) as [->|Hx].
  - destruct (Zmod.eqb_spec y1 y2) as [->|Hy]; [rewrite point_double_via; by constructor|]. constructor. cbn. f_equal.
    cbn in H1, H2. assert ((y2 + y1) * (y2 - y1) = 0) as E.
    { transitivity (y2 * y2 - y1 * y1); [ring|]. rewrite H1, H2. ring. }
    apply factor_zero in E; [|apply sub_nonzero; congruence]. transitivity (y2 + y1 - y1); [ring|]. rewrite E. ring.
  - apply (sum_secant (x1, y1) (x2, y2)). apply sub_nonzero. cbn. congruence.
Qed.

Lemma point_add_opp (P : point) : point_add P (point_neg P) = None ∨ P = None ∨ ∃ x, P = Some (x, 0).
Proof.
  destruct P as [[x y]|]; [|auto]. cbn. rewrite Zmod.eqb_refl. destruct (Zmod.eqb_spec y (Zmod.opp y)) as [E|E]; [|auto].
  right; right. exists x. do 2 f_equal. apply (factor_zero _ (cst 2)); [by apply cst_nonzero|].
  transitivity (y + y); [ring|]. rewrite E at 2. ring.
Qed.

Lemma point_add_neg_r (P : point) : on_curve P → point_add P (point_neg P) = None.
Proof.
  intros Hc. destruct (point_add_opp P) as [?|[->|[x ->]]]; [done|done|]. by apply no_two_torsion in Hc.
Qed.

Lemma point_neg_on_curve (P : point) : on_curve P → on_curve (point_neg P).
Proof. destruct P as [[x y]|]; [|done]. cbn. intros E. rewrite <- E. ring. Qed.

Lemma point_neg_involutive (P : point) : point_neg (point_neg P) = P.
Proof. destruct P as [[x y]|]; [|done]. cbn. do 2 f_equal. ring. Qed.

Lemma point_add_comm (P Q : point) : on_curve P → on_curve Q → point_add P Q = point_add Q P.
Proof.
  destruct P as [[x1 y1]|], Q as [[x2 y2]|]; try done. intros _ _. cbn [point_add].
  destruct (Zmod.eqb_spec x1 x2) as [E|Hx], (Zmod.eqb_spec x2 x1) as [E'|Hx']; try congruence.
  - destruct (Zmod.eqb_spec y1 y2), (Zmod.eqb_spec y2 y1); congruence.
  - unfold chord. assert (x2 - x1 ≠ 0) by (apply sub_nonzero; congruence). assert (x1 - x2 ≠ 0) by (apply sub_nonzero; congruence).
    do 2 f_equal; field; auto.
Qed.

Lemma point_neg_add (P Q : point) : on_curve P → on_curve Q → point_neg (point_add P Q) = point_add (point_neg P) (point_neg Q).
Proof.
  destruct P as [[x1 y1]|], Q as [[x2 y2]|]; try done. intros H1 H2. cbn [point_add point_neg].
  destruct (Zmod.eqb_spec x1 x2) as [->|Hx].
  - assert (Zmod.eqb (Zmod.opp y1) (Zmod.opp y2) = Zmod.eqb y1 y2) as ->.
    { destruct (Zmod.eqb_spec y1 y2) as [E'|Hy], (Zmod.eqb_spec (Zmod.opp y1) (Zmod.opp y2)) as [E|E]; try congruence. exfalso. apply Hy.
      transitivity (Zmod.opp (Zmod.opp y1)); [ring|]. rewrite E. ring. }
    destruct (Zmod.eqb_spec y1 y2) as [->|Hy]; [|done]. pose proof (no_two_torsion _ _ H1). pose proof (cst_nonzero 2 ltac:(lia)).
    unfold point_double, chord. cbn [point_neg]. assert (Zmod.opp y2 ≠ 0) by (intros E; by apply (no_two_torsion x2 (Zmod.opp y2)); [apply (point_neg_on_curve (Some (x2, y2)))|]).
    do 2 f_equal; field; auto.
  - unfold chord. cbn [point_neg]. assert (x2 - x1 ≠ 0) by (apply sub_nonzero; congruence). do 2 f_equal; field; auto.
Qed.

(** ** Cancellation *)

(** The line through a point and a sum with it: its slope is the opposite of that of the sum. *)
Lemma chord_back (l x1 y1 x2 y2 : Fp) :
  y2 = l * (x2 - x1) + y1 → chord (Zmod.opp l) x1 (Zmod.opp y1) (l * l - x1 - x2) = Some (x2, y2).
Proof. intros ->. unfold chord. do 2 f_equal; ring. Qed.

Lemma tangent_slope (l x1 y1 x2 y2 : Fp) :
  y1 * y1 = x1 * x1 * x1 + cst 7 → y2 * y2 = x2 * x2 * x2 + cst 7 → x2 - x1 ≠ 0 →
  y2 = l * (x2 - x1) + y1 → l * l - x1 - x2 = x1 → cst 2 * y1 * l = cst 3 * x1 * x1.
Proof.
  intros H1 H2 Hx -> E. apply sub_zero. apply (factor_zero _ (x2 - x1)); [done|].
  assert (l * l = x1 + x1 + x2) as El by (transitivity (l * l - x1 - x2 + x1 + x2); [ring|rewrite E; ring]).
  transitivity ((l * (x2 - x1) + y1) * (l * (x2 - x1) + y1) - y1 * y1 - l * l * ((x2 - x1) * (x2 - x1)) - cst 3 * x1 * x1 * (x2 - x1)); [ring|].
  rewrite H2, H1, El. ring.
Qed.

Lemma point_sub_add (P Q : point) : on_curve P → on_curve Q → point_add (point_neg P) (point_add P Q) = Q.
Proof.
  destruct P as [[x1 y1]|]; [|done]. destruct Q as [[x2 y2]|].
  2:{ intros H1 _. cbn [point_add]. rewrite point_add_comm; [|by apply point_neg_on_curve|done]. by apply point_add_neg_r. }
  intros H1 H2. pose proof (cst_nonzero 2 ltac:(lia)) as H2n. pose proof (no_two_torsion _ _ H1) as Hy.
  assert (point_add (Some (x1, y1)) (Some (x2, y2)) = None → (x2, y2) = (x1, Zmod.opp y1)) as Hopp.
  { intros E. pose proof (sum_of_spec _ _ H1 H2) as S. rewrite E in S. by inversion S. }
  destruct (point_add _ _) as [[x3 y3]|] eqn:Es; [clear Hopp|by rewrite Hopp].
  assert (∃ l, y2 = l * (x2 - x1) + y1 ∧ x3 = l * l - x1 - x2 ∧ y3 = l * (x1 - x3) - y1 ∧ (x2 - x1 = 0 → cst 2 * y1 * l = cst 3 * x1 * x1)) as (l & E2 & E3x & E3y & El).
  { revert Es. cbn [point_add]. destruct (Zmod.eqb_spec x1 x2) as [->|Hx]; [destruct (Zmod.eqb_spec y1 y2) as [->|]; [|done]|]; intros [= <- <-].
    - eexists. split_and!; [|reflexivity|reflexivity|]; [ring|]. intros _. field. auto.
    - assert (x2 - x1 ≠ 0) as Hd by (apply sub_nonzero; congruence). eexists. split_and!; [|reflexivity|reflexivity|done]. field. auto. }
  rewrite <- (chord_back l x1 y1 x2 y2 E2), <- E3x. cbn [point_neg point_add]. destruct (Zmod.eqb_spec x1 x3) as [E|Hx].
  - assert (y3 = Zmod.opp y1) as Ey by (rewrite E3y, <- E; ring). rewrite <- E, Ey, Zmod.eqb_refl. unfold point_double. f_equal.
    assert (cst 2 * y1 * l = cst 3 * x1 * x1) as El'.
    { destruct (Zmod.eqb_spec (x2 - x1) 0) as [?|Hd]; [by apply El|]. apply (tangent_slope l x1 y1 x2 y2); try done. congruence. }
    rewrite <- El'. field. split; [|done]. intros E0. apply (no_two_torsion x1 (Zmod.opp y1)); [by apply (point_neg_on_curve (Some (x1, y1)))|done].
  - f_equal. assert (x3 - x1 ≠ 0) as Hd by (apply sub_nonzero; congruence). rewrite E3y. field. done.
Qed.

Lemma point_add_cancel (P Q R : point) : on_curve P → on_curve Q → on_curve R → point_add P Q = point_add P R → Q = R.
Proof. intros HP HQ HR E. rewrite <- (point_sub_add P Q), E by done. by apply point_sub_add. Qed.

Lemma point_add_none (P Q : point) : on_curve P → on_curve Q → point_add P Q = None → Q = point_neg P.
Proof.
  intros HP HQ E. apply (point_add_cancel P); [done|done|by apply point_neg_on_curve|]. by rewrite E, point_add_neg_r.
Qed.

Lemma point_neq_neg (P : Fp * Fp) : on_curve (Some P) → Some P ≠ point_neg (Some P).
Proof.
  destruct P as [x y]. intros Hc E. cbn in E. injection E as E. apply (no_two_torsion x y Hc).
  apply (factor_zero _ (cst 2)); [by apply cst_nonzero|]. transitivity (y + y); [ring|]. rewrite E at 2. ring.
Qed.

(** ** Associativity *)

Definition assoc_at (P Q R : point) : Prop := point_add (point_add P Q) R = point_add P (point_add Q R).

Create HintDb curve.
#[export] Hint Resolve point_add_on_curve point_neg_on_curve : curve.

Lemma assoc_reverse (P Q R : point) : on_curve P → on_curve Q → on_curve R → assoc_at R Q P → assoc_at P Q R.
Proof.
  unfold assoc_at. intros HP HQ HR E.
  rewrite (point_add_comm _ R), (point_add_comm P Q), (point_add_comm P), (point_add_comm Q R) by auto with curve. congruence.
Qed.

Lemma assoc_none_l (P Q R : point) : on_curve P → on_curve Q → on_curve R → point_add P Q = None → assoc_at P Q R.
Proof.
  unfold assoc_at. intros HP HQ HR E. rewrite E. apply point_add_none in E as ->; [|done|done].
  pose proof (point_sub_add (point_neg P) R (point_neg_on_curve P HP) HR) as E. rewrite point_neg_involutive in E. by rewrite E.
Qed.

Lemma assoc_none_sum (P Q R : point) :
  on_curve P → on_curve Q → on_curve R → point_add (point_add P Q) R = None → assoc_at P Q R.
Proof.
  unfold assoc_at. intros HP HQ HR E. rewrite E. apply point_add_none in E as ->; [|by auto with curve|done].
  rewrite point_neg_add, (point_add_comm (point_neg P)) by auto with curve.
  pose proof (point_sub_add (point_neg Q) (point_neg P)) as E. rewrite point_neg_involutive in E. rewrite E by auto with curve.
  by rewrite point_add_neg_r.
Qed.

(** The point [P] is not the sum of [P] with a finite point. *)
Lemma point_add_moves (P Q : Fp * Fp) : on_curve (Some P) → on_curve (Some Q) → point_add (Some P) (Some Q) ≠ Some P.
Proof. intros HP HQ E. assert (Some Q = None) as [=]. apply (point_add_cancel (Some P)); [done|done|done|]. rewrite E. by destruct P. Qed.

Lemma sum_finite (P Q S : Fp * Fp) :
  point_add (Some P) (Some Q) = Some S → on_curve (Some P) → on_curve (Some Q) →
  on_curve (Some S) ∧ ((P = Q ∧ S = Fp_via (Fp_tangent P) P P) ∨ (Q.1 - P.1 ≠ 0 ∧ S = Fp_via (Fp_secant P Q) P Q)).
Proof.
  intros E HP HQ. split; [rewrite <- E; by apply point_add_on_curve|].
  pose proof (sum_of_spec P Q HP HQ) as H. rewrite E in H. inversion H; auto.
Qed.

Lemma assoc_at_finite (P Q R S T U V : Fp * Fp) :
  point_add (Some P) (Some Q) = Some S → point_add (Some Q) (Some R) = Some T →
  point_add (Some S) (Some R) = Some U → point_add (Some P) (Some T) = Some V → U = V → assoc_at (Some P) (Some Q) (Some R).
Proof. unfold assoc_at. intros -> -> -> -> ->. done. Qed.

Ltac sum_cases H S := destruct (sum_finite _ _ _ H ltac:(assumption) ltac:(assumption)) as [S [[? ?]|[? ?]]].

Section Identities.
Variables P Q R S T : Fp * Fp.
Hypotheses (HP : on_curve (Some P)) (HQ : on_curve (Some Q)) (HR : on_curve (Some R)) (HS : on_curve (Some S)).

Lemma Fp_assoc_secants :
  S = Fp_via (Fp_secant P Q) P Q → T = Fp_via (Fp_secant Q R) Q R →
  Q.1 - P.1 ≠ 0 → R.1 - Q.1 ≠ 0 → R.1 - S.1 ≠ 0 → T.1 - P.1 ≠ 0 →
  Fp_via (Fp_secant S R) S R = Fp_via (Fp_secant P T) P T.
Proof using HP HQ HR.
  clear HS. destruct P as [x1 y1], Q as [x2 y2], R as [x3 y3]. intros -> -> **.
  by apply (assoc_secants _ _ _ _ _ _ _ _ (Zmod.field_theory secp_p secp_prime) (cst 7)).
Qed.

Lemma Fp_assoc_double :
  S = Fp_via (Fp_tangent P) P P → T = Fp_via (Fp_secant P R) P R →
  R.1 - P.1 ≠ 0 → R.1 - S.1 ≠ 0 → T.1 - P.1 ≠ 0 →
  Fp_via (Fp_secant S R) S R = Fp_via (Fp_secant P T) P T.
Proof using HP HR.
  clear HS HQ. destruct P as [x1 y1], R as [x3 y3]. pose proof (no_two_torsion _ _ HP). pose proof double_not_zero. intros -> -> **.
  by apply (assoc_double _ _ _ _ _ _ _ _ (Zmod.field_theory secp_p secp_prime) (cst 7)).
Qed.

Lemma Fp_assoc_sum_doubled :
  S = Fp_via (Fp_secant P Q) P Q → T = Fp_via (Fp_secant Q S) Q S →
  Q.1 - P.1 ≠ 0 → S.1 - Q.1 ≠ 0 → T.1 - P.1 ≠ 0 →
  Fp_via (Fp_tangent S) S S = Fp_via (Fp_secant P T) P T.
Proof using HP HQ HS.
  clear HR. destruct P as [x1 y1], Q as [x2 y2]. assert (S.2 ≠ 0) by (destruct S as [xs ys]; apply (no_two_torsion _ _ HS)).
  pose proof double_not_zero. intros -> -> **.
  by apply (assoc_sum_doubled _ _ _ _ _ _ _ _ (Zmod.field_theory secp_p secp_prime) (cst 7)).
Qed.

Lemma Fp_assoc_double_doubled :
  S = Fp_via (Fp_tangent P) P P → T = Fp_via (Fp_secant P S) P S →
  S.1 - P.1 ≠ 0 → T.1 - P.1 ≠ 0 →
  Fp_via (Fp_tangent S) S S = Fp_via (Fp_secant P T) P T.
Proof using HP HS.
  clear HR HQ. destruct P as [x1 y1]. assert (S.2 ≠ 0) by (destruct S as [xs ys]; apply (no_two_torsion _ _ HS)).
  pose proof (no_two_torsion _ _ HP). pose proof double_not_zero. intros -> -> **.
  by apply (assoc_double_doubled _ _ _ _ _ _ _ _ (Zmod.field_theory secp_p secp_prime) (cst 7)).
Qed.

End Identities.

Lemma assoc_same (P R S T U V : Fp * Fp) :
  on_curve (Some P) → on_curve (Some R) →
  point_add (Some P) (Some P) = Some S → point_add (Some P) (Some R) = Some T →
  point_add (Some S) (Some R) = Some U → point_add (Some P) (Some T) = Some V → U = V.
Proof.
  intros HP HR ES ET EU EV. sum_cases ES HS; [|exfalso; apply H; ring].
  sum_cases ET HT. { assert (S = T) as -> by congruence. subst R. rewrite point_add_comm in EU by done. congruence. }
  sum_cases EV HV; [exfalso; apply (point_add_moves P R); [done|done|congruence]|].
  sum_cases EU HU; rewrite H4, H6.
  - subst R. by apply Fp_assoc_double_doubled.
  - by apply Fp_assoc_double.
Qed.

Lemma assoc_sum (P Q S T U V : Fp * Fp) :
  on_curve (Some P) → on_curve (Some Q) → Q.1 - P.1 ≠ 0 → S.1 - Q.1 ≠ 0 →
  point_add (Some P) (Some Q) = Some S → point_add (Some Q) (Some S) = Some T →
  point_add (Some S) (Some S) = Some U → point_add (Some P) (Some T) = Some V → U = V.
Proof.
  intros HP HQ Hx Hx' ES ET EU EV.
  sum_cases ES HS; [exfalso; subst P; apply Hx; ring|]. sum_cases ET HT; [exfalso; subst Q; apply Hx'; ring|].
  sum_cases EU HU; [|exfalso; apply H3; ring]. sum_cases EV HV.
  - exfalso. apply (point_neq_neg Q); [done|]. apply (point_add_cancel (Some P)); auto with curve.
    rewrite (point_add_comm _ (point_neg _)), ES by auto with curve. rewrite <- (point_sub_add (Some Q) (Some S)) by done. congruence.
  - rewrite H4, H6. by apply (Fp_assoc_sum_doubled P Q).
Qed.

Lemma point_add_assoc (P Q R : point) : on_curve P → on_curve Q → on_curve R → assoc_at P Q R.
Proof.
  intros HP HQ HR. destruct P as [P|]; [|done]. destruct Q as [Q|]; [|by destruct P]. 
  destruct R as [R|]; [|unfold assoc_at; by destruct Q, (point_add (Some P) _) as [[]|]].
  destruct (point_add (Some P) (Some Q)) as [S|] eqn:ES; [|by apply assoc_none_l].
  destruct (point_add (Some Q) (Some R)) as [T|] eqn:ET.
  2:{ apply assoc_reverse; try done. apply assoc_none_l; try done. by rewrite point_add_comm. }
  destruct (point_add (Some S) (Some R)) as [U|] eqn:EU; [|apply assoc_none_sum; congruence].
  destruct (point_add (Some P) (Some T)) as [V|] eqn:EV.
  2:{ apply assoc_reverse; try done. apply assoc_none_sum; try done. rewrite (point_add_comm (Some R)), ET, point_add_comm; try done. rewrite <- ET. auto with curve. }
  apply (assoc_at_finite P Q R S T U V); try done.
  sum_cases ES HS; [subst P; by apply (assoc_same Q R S T)|].
  sum_cases ET HT.
  { subst R. symmetry. apply (assoc_same Q P T S); try done; rewrite point_add_comm; done. }
  sum_cases EU HU; [subst R; by apply (assoc_sum P Q S T)|]. sum_cases EV HV.
  - rewrite <- H5 in ET, EV. symmetry. apply (assoc_sum R Q P S); try done; try (rewrite point_add_comm; done). 
    + intros E. apply H1. transitivity (Zmod.opp (Q.1 - R.1)); [ring|]. rewrite E. ring.
    + intros E. apply H. transitivity (Zmod.opp (P.1 - Q.1)); [ring|]. rewrite E. ring.
  - rewrite H4, H6. by apply (Fp_assoc_secants P Q R).
Qed.

(** ** Multiples of a point *)

Definition point_mul (k : Z) (P : point) : point :=
  match k with
  | Z0 => None
  | Zpos p => Pos.iter (point_add P) None p
  | Zneg p => point_neg (Pos.iter (point_add P) None p)
  end.

Lemma point_add_none_r (P : point) : point_add P None = P.
Proof. by destruct P as [[]|]. Qed.

Section Multiples.
Variable P : point.
Hypothesis HP : on_curve P.

Lemma point_mul_on_curve (k : Z) : on_curve (point_mul k P).
Proof using HP.
  assert (∀ p, on_curve (Pos.iter (point_add P) None p)) as Hi.
  { intros p. apply Pos.iter_invariant; [auto with curve|done]. }
  destruct k; cbn [point_mul]; [done|done|auto with curve].
Qed.

Lemma point_mul_succ (k : Z) : point_mul (k + 1) P = point_add P (point_mul k P).
Proof using HP.
  destruct k as [|p|p]; [done|replace (Zpos p + 1)%Z with (Zpos (Pos.succ p)) by lia; apply Pos.iter_succ|].
  pose proof (point_mul_on_curve (Zpos (Pos.pred p))) as Hc. destruct (Pos.eq_dec p 1%positive) as [->|Hp].
  - cbn. by rewrite point_add_none_r, point_add_neg_r.
  - rewrite <- (Pos.succ_pred p) by done. set (q := Pos.pred p) in *.
    replace (Z.neg (Pos.succ q) + 1)%Z with (Z.neg q) by lia. cbn [point_mul] in *. rewrite Pos.iter_succ, point_neg_add by done.
    pose proof (point_sub_add (point_neg P) (point_neg (Pos.iter (point_add P) None q))) as E. rewrite point_neg_involutive in E.
    symmetry. apply E; auto with curve.
Qed.

Lemma point_mul_pred (k : Z) : point_mul (k - 1) P = point_add (point_neg P) (point_mul k P).
Proof using HP.
  replace (point_mul k P) with (point_mul (k - 1 + 1) P) by (f_equal; ring). rewrite point_mul_succ.
  symmetry. apply point_sub_add; [done|apply point_mul_on_curve].
Qed.

Lemma point_mul_add (j k : Z) : point_mul (j + k) P = point_add (point_mul j P) (point_mul k P).
Proof using HP.
  pose proof point_mul_on_curve as Hc. induction j as [|j IH|j IH] using Z.peano_ind; [done| |].
  - replace (Z.succ j + k)%Z with (j + k + 1)%Z by lia. unfold Z.succ. rewrite !point_mul_succ, IH. symmetry. by apply point_add_assoc.
  - replace (Z.pred j + k)%Z with (j + k - 1)%Z by lia. replace (Z.pred j) with (j - 1)%Z by lia.
    rewrite !point_mul_pred, IH. symmetry. apply point_add_assoc; auto with curve.
Qed.

Lemma point_mul_opp (k : Z) : point_mul (- k) P = point_neg (point_mul k P).
Proof using HP. destruct k; cbn [point_mul Z.opp]; [done|done|]. by rewrite point_neg_involutive. Qed.

Lemma point_mul_1 : point_mul 1 P = P.
Proof using HP. apply point_add_none_r. Qed.

Lemma point_mul_2 : point_mul 2 P = point_double P.
Proof using HP.
  cbn. rewrite point_add_none_r. destruct P as [[x y]|]; [|done]. cbn [point_add]. by rewrite !Zmod.eqb_refl.
Qed.

End Multiples.

Lemma point_mul_none (k : Z) : point_mul k None = None.
Proof. assert (∀ p, Pos.iter (point_add None) None p = None) as E by (intros p; by apply Pos.iter_invariant).
  destruct k; cbn [point_mul]; by rewrite ?E. Qed.

Lemma point_mul_mul (j k : Z) (P : point) : on_curve P → point_mul (j * k) P = point_mul j (point_mul k P).
Proof.
  intros HP. pose proof (point_mul_on_curve P HP) as Hc. induction j as [|j IH|j IH] using Z.peano_ind; [done| |].
  - replace (Z.succ j * k)%Z with (k + j * k)%Z by lia. unfold Z.succ. rewrite point_mul_succ, point_mul_add by done. by rewrite IH.
  - replace (Z.pred j * k)%Z with (- k + j * k)%Z by lia. replace (Z.pred j) with (j - 1)%Z by lia.
    rewrite point_mul_pred, point_mul_add, point_mul_opp by done. by rewrite IH.
Qed.

Lemma point_double_mul (k : Z) (P : point) : on_curve P → point_double (point_mul k P) = point_mul (2 * k) P.
Proof. intros HP. rewrite point_mul_mul by done. symmetry. apply point_mul_2. by apply point_mul_on_curve. Qed.

(** The square root with a given parity is unique. *)
Lemma y_unique (x y y' : Fp) :
  on_curve (Some (x, y)) → on_curve (Some (x, y')) → Z.odd (Zmod.unsigned y) = Z.odd (Zmod.unsigned y') → y = y'.
Proof.
  intros H1 H2 Ho. pose proof (no_two_torsion _ _ H1) as Hy. cbn in H1, H2. destruct (Zmod.eqb_spec y' y) as [|Hne]; [done|]. exfalso.
  assert ((y' + y) * (y' - y) = 0) as E by (transitivity (y' * y' - y * y); [ring|]; rewrite H1, H2; ring).
  apply factor_zero in E; [|by apply sub_nonzero]. assert (y' = Zmod.opp y) as -> by (transitivity (y' + y - y); [ring|]; rewrite E; ring).
  rewrite odd_opp in Ho by done. by destruct (Z.odd _).
Qed.
