(* ===== verification/CurveOrder.v ===== *)
(** * The order of the generator

    The scalars of src/secp256k1/src/scalar_4x64_impl.h are numbers modulo the order of the generator
    of src/secp256k1/src/group_impl.h.  This file shows, by running the doubling and the addition of
    [SecpGroup] on plain numbers, that [secp_n] times the generator is infinity; as [secp_n] is prime, every finite point of the
    group it generates has order [secp_n], so that its multiples depend on the scalar only. *)
From Stdlib Require Import ZArith Lia Zdivisibility Zmod Field.
From S2P Require Import Prelude Common Field5x52 Primes Scalar4x64 SecpField SecpGroup CurveGroup.
Open Scope Z_scope.

(** ** The numbers as a representation of the field *)

Definition fold_p : Z → Z := fold_twice (2 ^ 32 + 977).

#[local] Instance field_numbers : secp256k1_field Z := {|
  fe_value a := Zmod.of_Z secp_p a;
  fe_magnitude _ _ := True; fe_normalized a := 0 <= a < secp_p;
  fe_normalize a := a mod secp_p; fe_normalize_weak a := a; fe_normalize_var a := a mod secp_p;
  fe_normalizes_to_zero a := a mod secp_p =? 0; fe_normalizes_to_zero_var a := a mod secp_p =? 0;
  fe_set_int k := k; fe_clear := 0; fe_is_zero a := a =? 0; fe_is_odd := Z.odd;
  fe_set_b32 b := (be_val b, be_val b <? secp_p); fe_get_b32 a := reverse (le_digits 8 32 a);
  fe_negate a _ := - a; fe_mul_int a k := a * k; fe_add := Z.add;
  fe_mul a b := fold_p (a * b); fe_sqr a := fold_p (a * a); fe_cmov r a flag := if flag then a else r |}.

Lemma of_Z_fold_p (x : Z) : Zmod.of_Z secp_p (fold_p x) = Zmod.of_Z secp_p x.
Proof. apply Zmod.of_Z_inj, fold_twice_spec; [unfold secp_p; lia|by exists 1]. Qed.

#[local] Instance field_numbers_laws : secp256k1_field_laws Z.
Proof.
  assert (0 < secp_p < 2 ^ 256) as Hp by (unfold secp_p; lia).
  split; cbn [fe_value fe_magnitude fe_normalized fe_normalize fe_normalize_weak fe_normalize_var fe_normalizes_to_zero
    fe_normalizes_to_zero_var fe_set_int fe_clear fe_is_zero fe_is_odd fe_set_b32 fe_get_b32 fe_negate fe_mul_int fe_add fe_mul fe_sqr
    fe_cmov field_numbers fst snd]; try done.
  - intros a b Ha Hb E. apply Zmod.of_Z_inj in E. by rewrite !Z.mod_small in E.
  - intros a _. split; [apply Z.mod_pos_bound; lia|apply Zmod.of_Z_mod].
  - intros a _. by rewrite of_Z_zero.
  - intros a _. by rewrite of_Z_zero.
  - intros k Hk. split; [unfold secp_p; lia|done].
  - intros a Ha. by rewrite of_Z_zero, Z.mod_small.
  - intros a Ha. by rewrite Zmod.unsigned_of_Z, Z.mod_small.
  - intros b Hb Hl. split_and!; [done| |done]. intros Hlt. split; [|done]. unfold be_val; by apply (le_val_range 8); [lia|apply Forall_reverse].
  - intros a Ha. rewrite length_reverse, length_le_digits, Zmod.unsigned_of_Z, Z.mod_small by done. split_and!; [done| |].
    + by apply Forall_reverse, le_digits_words.
    + unfold be_val. rewrite reverse_involutive, le_val_le_digits, Z.mod_small by lia. done.
  - intros m a _ _. split; [done|apply Zmod.of_Z_opp].
  - intros m k a _ _ _. split; [done|apply Zmod.of_Z_mul].
  - intros m m' a b _ _ _. split; [done|apply Zmod.of_Z_add].
  - intros a b _ _. split; [done|]. by rewrite of_Z_fold_p, Zmod.of_Z_mul.
  - intros a _. split; [done|]. by rewrite of_Z_fold_p, Zmod.of_Z_mul.
Qed.

(** ** The order of the generator *)

Definition ge_numbers : secp256k1_ge Z := MkGe (fe_val (ge_x secp256k1_ge_const_g)) (fe_val (ge_y secp256k1_ge_const_g)) false.

(** Twice the running point for every bit, less the generator where the bit is set *)
Fixpoint ladder (minus_g : secp256k1_ge Z) (bits : list bool) (a : secp256k1_gej Z) : secp256k1_gej Z :=
  match bits with
  | [] => a
  | b :: bits => let d := (gej_double_var a a).1 in ladder minus_g bits (if b then (gej_add_ge_var d d minus_g).1 else d)
  end.

Fixpoint bits_value (bits : list bool) (k : Z) : Z :=
  match bits with [] => k | b :: bits => bits_value bits (2 * k - Z.b2z b) end.

Definition bits_of (n : nat) (c : Z) : list bool := (λ i, Z.testbit c (Z.of_nat i)) <$> reverse (seq 0 n).

Lemma ladder_spec (minus_g : secp256k1_ge Z) (bits : list bool) (a : secp256k1_gej Z) (P : point) (k : Z) :
  on_curve P → affine minus_g (point_neg P) → jacobian a (point_mul k P) →
  jacobian (ladder minus_g bits a) (point_mul (bits_value bits k) P).
Proof.
  intros HP Hg. revert a k. induction bits as [|b bits IH]; intros a k Ha; [done|]. cbn [ladder bits_value]. apply IH.
  pose proof (point_mul_on_curve P HP) as Hc.
  assert (jacobian (gej_double_var a a).1 (point_mul (2 * k) P)) as Hd.
  { rewrite <- point_double_mul by done. apply gej_double_var_spec; [apply Ha|done|done]. }
  destruct b; [|by replace (2 * k - Z.b2z false) with (2 * k) by (cbn; lia)].
  change (Z.b2z true) with 1. rewrite point_mul_pred, point_add_comm by auto with curve.
  apply gej_add_ge_var_spec; auto with curve. apply Hd.
Qed.

Lemma bits_value_secp_n : bits_value (bits_of 256 secp_nc) 1 = secp_n.
Proof. by vm_compute. Qed.

Lemma ladder_infinity : gej_infinity (ladder (ge_neg ge_numbers) (bits_of 256 secp_nc) (gej_set_ge ge_numbers)) = true.
Proof. by vm_compute. Qed.

Lemma generator_order : point_mul secp_n generator = None.
Proof.
  assert (affine ge_numbers generator) as Hg by (unfold ge_numbers; split; done).
  destruct (ge_neg_spec ge_numbers (gej_set_ge ge_numbers) generator Hg (gej_set_ge_spec _ _ Hg)) as [Hn _].
  pose proof (ladder_spec _ (bits_of 256 secp_nc) (gej_set_ge ge_numbers) generator 1 generator_on_curve Hn) as HL.
  rewrite bits_value_secp_n, point_mul_1 in HL by apply generator_on_curve.
  destruct (HL (gej_set_ge_spec _ _ Hg)) as [_ HI]. destruct (point_mul secp_n generator) as [[x y]|]; [|done].
  destruct HI as [HI _]. by rewrite ladder_infinity in HI.
Qed.

(** ** The points of the group the generator generates *)

(** [P] is on the curve and [n] times it is infinity. *)
Definition in_group (P : point) : Prop := on_curve P ∧ point_mul secp_n P = None.

Lemma in_group_none : in_group None.
Proof. split; [done|apply point_mul_none]. Qed.

Lemma in_group_generator : in_group generator.
Proof. split; [apply generator_on_curve|apply generator_order]. Qed.

Lemma in_group_mul (k : Z) (P : point) : in_group P → in_group (point_mul k P).
Proof.
  intros [HP E]. split; [by apply point_mul_on_curve|]. rewrite <- point_mul_mul, Z.mul_comm, point_mul_mul, E by done. apply point_mul_none.
Qed.

Lemma point_mul_mod (k : Z) (P : point) : in_group P → point_mul (k mod secp_n) P = point_mul k P.
Proof.
  intros [HP E]. rewrite (Z.div_mod k secp_n) at 2 by done. rewrite point_mul_add, Z.mul_comm, point_mul_mul, E, point_mul_none by done. done.
Qed.

(** A finite point of the group has order exactly [n]. *)
Lemma point_mul_infinity (k : Z) (P : point) : in_group P → P ≠ None → point_mul k P = None ↔ (secp_n | k).
Proof.
  intros [HP E] Hf. split.
  - intros Ek. destruct (Z.BoolSpec_divide secp_n k) as [?|Hd]; [done|]. exfalso. apply Hf.
    destruct (Z.Bezout_coprime secp_n k) as (u & v & Huv); [by apply Z.coprime_prime_l; [exact prime_order|]|].
    rewrite <- (point_mul_1 P HP), <- Huv, point_mul_add, !point_mul_mul, E, Ek, !point_mul_none by done. done.
  - intros [q ->]. by rewrite point_mul_mul, E, point_mul_none.
Qed.
