(* ===== verification/Ecmult.v ===== *)
(** * Multiples of points

    Model of src/secp256k1/src/ecmult_impl.h and of the tables of src/secp256k1/src/group_impl.h
    (ge_set_table_gej_var, ge_globalz_set_table_gej and the storage form), without the endomorphism.
    Scalars become digits in windowed non-adjacent form; tables hold the odd multiples of a point, those of the public key with
    one common Z coordinate, which the code leaves out until the end; a single loop adds the digits of both scalars.
    The theorems show that the digits stand for the scalar, that the tables hold the odd multiples, and that [secp256k1_ecmult] returns the sum
    of the two multiples. *)
From Stdlib Require Import ZArith Lia Zdivisibility Zmod Field.
From S2P Require Import Prelude Common Field5x52 Primes Scalar4x64 SecpField SecpGroup CurveGroup CurveOrder.
Open Scope Z_scope.

(** ** Windowed non-adjacent form *)

Definition WINDOW_A : Z := 5.
Definition WINDOW_G : Z := 16.
Definition ECMULT_TABLE_SIZE (w : Z) : nat := Z.to_nat (1 .<< (w - 2)).

(** The variables of the loop *)
Record wnaf_state := MkWnaf { wn_wnaf : list Z; wn_bit : Z; wn_carry : Z; wn_last_set_bit : Z }.

Definition wnaf_step (s : secp256k1_scalar) (sign len w : Z) (st : wnaf_state) : wnaf_state :=
  let bit := wn_bit st in
  if secp256k1_scalar_get_bits s bit 1 =? wn_carry st then MkWnaf (wn_wnaf st) (bit + 1) (wn_carry st) (wn_last_set_bit st) else
  let now := if len - bit <? w then len - bit else w in
  let word := secp256k1_scalar_get_bits_var s bit now + wn_carry st in
  let carry := (word .>> (w - 1)) .& 1 in
  let word := word - (carry .<< w) in
  MkWnaf (<[Z.to_nat bit := sign * word]> (wn_wnaf st)) (bit + now) carry bit.

(** Every iteration advances [bit], so [len] of them are enough. *)
Fixpoint wnaf_loop (fuel : nat) (s : secp256k1_scalar) (sign len w : Z) (st : wnaf_state) : wnaf_state :=
  match fuel with
  | O => st
  | S fuel => if wn_bit st <? len then wnaf_loop fuel s sign len w (wnaf_step s sign len w st) else st
  end.

Definition secp256k1_ecmult_wnaf (len : Z) (a : secp256k1_scalar) (w : Z) : list Z * Z :=
  let '(s, sign) :=
    if negb (secp256k1_scalar_get_bits a 255 1 =? 0) then (secp256k1_scalar_negate a, -1) else (a, 1) in
  let st := wnaf_loop (Z.to_nat len) s sign len w (MkWnaf (replicate (Z.to_nat len) 0) 0 0 (-1)) in
  (wn_wnaf st, wn_last_set_bit st + 1).

(** *** Its value *)

Definition wnaf_value (l : list Z) : Z := le_val 1 l.

(** A digit that is not zero is odd and below half the window. *)
Definition wnaf_digit (w n : Z) : Prop := n = 0 ∨ Z.odd n = true ∧ Z.abs n < 2 ^ (w - 1).

Section Wnaf.
Context (s : secp256k1_scalar) (sign w : Z).
Context (Hs : sc_words s) (Hlow : sc_val s < 2 ^ 255) (Hsign : sign = 1 ∨ sign = -1) (Hw : 2 <= w <= 31).

(** Before bit [wn_bit] the digits stand for the low bits of the scalar, up to the carry. *)
Record wnaf_inv (st : wnaf_state) : Prop := {
  wi_length : length (wn_wnaf st) = 256%nat;
  wi_bit : 0 <= wn_bit st <= 256;
  wi_carry : wn_carry st = 0 ∨ wn_carry st = 1 ∧ wn_bit st < 256;
  wi_value : sign * wnaf_value (wn_wnaf st) + wn_carry st * 2 ^ wn_bit st = sc_val s mod 2 ^ wn_bit st;
  wi_clear : ∀ i, Z.max (wn_last_set_bit st + 1) 0 <= Z.of_nat i → (i < 256)%nat → wn_wnaf st !! i = Some 0;
  wi_last : -1 <= wn_last_set_bit st < wn_bit st;
  wi_digits : Forall (wnaf_digit w) (wn_wnaf st)
}.

Lemma low_bits_succ (x b : Z) : 0 <= x → 0 <= b → x mod 2 ^ (b + 1) = x mod 2 ^ b + 2 ^ b * (x / 2 ^ b mod 2).
Proof. intros Hx Hb. rewrite Z.pow_add_r by lia. change (2 ^ 1) with 2. rewrite Z.rem_mul_r; lia. Qed.

Lemma low_bits_add (x b n : Z) : 0 <= x → 0 <= b → 0 <= n → x mod 2 ^ (b + n) = x mod 2 ^ b + 2 ^ b * (x / 2 ^ b mod 2 ^ n).
Proof. intros Hx Hb Hn. rewrite Z.pow_add_r by lia. rewrite Z.rem_mul_r; lia. Qed.

Lemma le_val_insert (l : list Z) (i : nat) (v : Z) : l !! i = Some 0 → le_val 1 (<[i:=v]> l) = le_val 1 l + 2 ^ i * v.
Proof.
  revert i. induction l as [|x l IH]; intros [|i] E; cbn in E; [done|done|injection E as ->; cbn; lia|].
  cbn [insert list_insert le_val]. rewrite IH by done. rewrite Nat2Z.inj_succ, Z.pow_succ_r by lia. lia.
Qed.

(** The word of a window: odd, since the bit at its start is not the carry, and below the half when the carry is clear *)
Lemma window_word (x b c now : Z) :
  0 <= x < 2 ^ 255 → 0 <= b → 0 < now <= w → b + now <= 256 → (c = 0 ∨ c = 1) → x / 2 ^ b mod 2 ≠ c →
  let word := x / 2 ^ b mod 2 ^ now + c in
  Z.odd word = true ∧ 0 < word < 2 ^ now ∧ (2 ^ (w - 1) <= word → now = w ∧ b + now < 256).
Proof using Hw.
  intros Hx Hb Hn Hl Hc Hne word. set (v := x / 2 ^ b mod 2 ^ now) in *.
  assert (0 <= v < 2 ^ now) as Hv by (apply Z.mod_pos_bound; lia).
  assert (v mod 2 = x / 2 ^ b mod 2) as Ev.
  { unfold v. replace now with (1 + (now - 1)) by lia. rewrite Z.pow_add_r by lia. change (2 ^ 1) with 2.
    rewrite Z.rem_mul_r by lia. rewrite Z.mul_comm, Z_mod_plus_full. apply Z.mod_mod. lia. }
  pose proof (Z.mod_pos_bound (x / 2 ^ b) 2 ltac:(lia)). pose proof (Z.div_mod v 2 ltac:(lia)) as Dv.
  assert (word = 2 * (v / 2) + 1) as Ew by (unfold word; lia).
  assert (2 ^ now = 2 * 2 ^ (now - 1)) as En by (rewrite <- Z.pow_succ_r by lia; f_equal; lia).
  split_and!; [by rewrite Ew, Z.add_comm, Z.odd_add_mul_2|lia|lia|]. intros Hhalf.
  assert (now = w) as ->.
  { destruct (Z.eq_dec now w); [done|]. assert (2 ^ now <= 2 ^ (w - 1)) by (apply Z.pow_le_mono_r; lia). lia. }
  split; [done|]. destruct (Z.eq_dec (b + w) 256) as [E|]; [|lia]. exfalso.
  assert (x / 2 ^ b < 2 ^ (w - 1)) as Hq.
  { apply Z.div_lt_upper_bound; [lia|]. rewrite <- Z.pow_add_r by lia. replace (b + (w - 1)) with 255 by lia. lia. }
  assert (v <= x / 2 ^ b) by (apply Z.mod_le; [apply Z.div_pos; lia|lia]).
  assert (2 ^ (w - 1) = 2 * 2 ^ (w - 2)) as Ew2 by (rewrite <- Z.pow_succ_r by lia; f_equal; lia). lia.
Qed.

(** Splitting off the carry leaves a digit. *)
Lemma window_digit (word : Z) :
  Z.odd word = true → 0 < word < 2 ^ w →
  let carry := (word .>> (w - 1)) .& 1 in
  carry = (if 2 ^ (w - 1) <=? word then 1 else 0) ∧ wnaf_digit w (word - (carry .<< w)).
Proof using Hw.
  intros Ho Hr carry. assert (2 ^ w = 2 * 2 ^ (w - 1)) as E by (rewrite <- Z.pow_succ_r by lia; f_equal; lia).
  assert (2 ^ (w - 1) = 2 * 2 ^ (w - 2)) as E2 by (rewrite <- Z.pow_succ_r by lia; f_equal; lia).
  assert (carry = if 2 ^ (w - 1) <=? word then 1 else 0) as Ec.
  { unfold carry. change 1 with (Z.ones 1) at 2. rewrite Z.land_ones, Z.shiftr_div_pow2 by lia. change (2 ^ 1) with 2.
    destruct (Z.leb_spec (2 ^ (w - 1)) word).
    - by rewrite <- (Z.div_unique word (2 ^ (w - 1)) 1 (word - 2 ^ (w - 1))) by lia.
    - by rewrite Z.div_small by lia. }
  split; [done|]. right. rewrite Ec, Z.shiftl_mul_pow2 by lia. assert (Z.odd (2 ^ w) = false) as He by (rewrite E; by rewrite Z.odd_mul).
  split; [rewrite Z.odd_sub, Ho, Z.odd_mul, He, andb_false_r; done|].
  pose proof (Z.odd_spec word) as [Hk _]. destruct (Hk Ho) as [k ->]. destruct (Z.leb_spec (2 ^ (w - 1)) (2 * k + 1)); lia.
Qed.

Lemma get_bit_spec (b : Z) : 0 <= b < 256 → secp256k1_scalar_get_bits s b 1 = sc_val s / 2 ^ b mod 2.
Proof using Hs.
  intros Hb. apply (sc_get_bits_spec s b 1); [done|done|lia|]. pose proof (Z.mod_pos_bound b 64 ltac:(lia)). lia.
Qed.

Lemma sc_words_range : 0 <= sc_val s.
Proof using Hs. by apply sc_words_val. Qed.

Lemma wnaf_skip_inv (st : wnaf_state) :
  wnaf_inv st → wn_bit st < 256 → sc_val s / 2 ^ wn_bit st mod 2 = wn_carry st →
  wnaf_inv (MkWnaf (wn_wnaf st) (wn_bit st + 1) (wn_carry st) (wn_last_set_bit st)).
Proof using Hs Hlow.
  intros [Hl Hb Hc Hv Hz Hla Hd] Hlt E. pose proof sc_words_range. split; cbn [wn_wnaf wn_bit wn_carry wn_last_set_bit]; try done; [lia| | |lia].
  - destruct Hc as [|[Hc _]]; [auto|]. right. split; [done|]. destruct (Z.eq_dec (wn_bit st) 255) as [Eb|]; [|lia]. exfalso.
    rewrite Eb, Hc in E. rewrite Z.div_small in E by lia. done.
  - rewrite low_bits_succ, E, <- Hv by lia. rewrite Z.pow_add_r by lia. lia.
Qed.

Lemma wnaf_window_inv (st : wnaf_state) :
  wnaf_inv st → wn_bit st < 256 → sc_val s / 2 ^ wn_bit st mod 2 ≠ wn_carry st →
  let b := wn_bit st in
  let now := if 256 - b <? w then 256 - b else w in
  let word := sc_val s / 2 ^ b mod 2 ^ now + wn_carry st in
  let carry := (word .>> (w - 1)) .& 1 in
  wnaf_inv (MkWnaf (<[Z.to_nat b := sign * (word - (carry .<< w))]> (wn_wnaf st)) (b + now) carry b).
Proof using Hs Hlow Hsign Hw.
  intros [Hl Hb Hc Hv Hz Hla Hd] Hlt Hne b now word carry. pose proof sc_words_range as H0.
  assert (0 < now <= w ∧ b + now <= 256) as [Hn Hbn] by (unfold now, b; destruct (Z.ltb_spec (256 - wn_bit st) w); lia).
  assert (wn_carry st = 0 ∨ wn_carry st = 1) as Hc' by (destruct Hc as [|[? _]]; auto).
  destruct (window_word (sc_val s) b (wn_carry st) now ltac:(lia) ltac:(lia) Hn Hbn Hc' Hne) as (Ho & Hr & Hcarry). fold word in Ho, Hr, Hcarry.
  assert (2 ^ now <= 2 ^ w) by (apply Z.pow_le_mono_r; lia).
  destruct (window_digit word Ho ltac:(lia)) as [Ec Hdig]. fold carry in Ec, Hdig.
  assert (wn_wnaf st !! Z.to_nat b = Some 0) as Hzero by (apply Hz; lia).
  split; cbn [wn_wnaf wn_bit wn_carry wn_last_set_bit].
  - by rewrite length_insert.
  - lia.
  - rewrite Ec. destruct (Z.leb_spec (2 ^ (w - 1)) word) as [Hh|]; [right|by left]. split; [done|]. by apply Hcarry.
  - unfold wnaf_value in *. change (wn_bit st) with b in Hv. rewrite le_val_insert, Z2Nat.id, low_bits_add, <- Hv by lia || done. rewrite Z.shiftl_mul_pow2, Z.pow_add_r by lia.
    assert (carry * 2 ^ w = carry * 2 ^ now) as Ew.
    { rewrite Ec. destruct (Z.leb_spec (2 ^ (w - 1)) word) as [Hh|]; [|lia]. by destruct (Hcarry Hh) as [-> _]. }
    replace (sc_val s / 2 ^ b mod 2 ^ now) with (word - wn_carry st) by (unfold word; lia). rewrite Ew.
    destruct Hsign as [-> | ->]; ring.
  - intros i Hi Hi'. rewrite list_lookup_insert_ne by lia. apply Hz; lia.
  - lia.
  - apply Forall_insert; [done|]. destruct Hdig as [-> |[Hod Hab]]; [left; lia|right].
    destruct Hsign as [-> | ->]; split; rewrite ?Z.mul_1_l, ?Z.mul_opp_l, ?Z.odd_opp, ?Z.abs_opp, ?Z.mul_1_l; done.
Qed.

Lemma wnaf_step_inv (st : wnaf_state) :
  wnaf_inv st → wn_bit st < 256 → wnaf_inv (wnaf_step s sign 256 w st) ∧ wn_bit st < wn_bit (wnaf_step s sign 256 w st).
Proof using Hs Hlow Hsign Hw.
  intros Hi Hlt. pose proof (wi_bit _ Hi) as Hb. unfold wnaf_step. rewrite get_bit_spec by lia. destruct (Z.eqb_spec (sc_val s / 2 ^ wn_bit st mod 2) (wn_carry st)) as [E|E].
  - split; [by apply wnaf_skip_inv|cbn; lia].
  - cbv zeta. rewrite sc_get_bits_var_spec; [|done|lia|destruct (Z.ltb_spec (256 - wn_bit st) w); lia|destruct (Z.ltb_spec (256 - wn_bit st) w); lia].
    split; [by apply wnaf_window_inv|]. cbn. destruct (Z.ltb_spec (256 - wn_bit st) w); lia.
Qed.

Lemma wnaf_loop_inv (fuel : nat) (st : wnaf_state) :
  wnaf_inv st → 256 - wn_bit st <= fuel →
  wnaf_inv (wnaf_loop fuel s sign 256 w st) ∧ wn_bit (wnaf_loop fuel s sign 256 w st) = 256.
Proof using Hs Hlow Hsign Hw.
  revert st. induction fuel as [|fuel IH]; intros st Hi Hf; cbn [wnaf_loop]; [pose proof (wi_bit _ Hi); split; [done|lia]|].
  destruct (Z.ltb_spec (wn_bit st) 256) as [Hlt|Hge]; [|pose proof (wi_bit _ Hi); split; [done|lia]].
  destruct (wnaf_step_inv st Hi Hlt) as [Hi' Hb]. apply IH; [done|lia].
Qed.
End Wnaf.

Lemma wnaf_loop_more (k fuel : nat) (s : secp256k1_scalar) (sign w : Z) (st : wnaf_state) :
  (k <= fuel)%nat → wn_bit (wnaf_loop k s sign 256 w st) = 256 → wnaf_loop fuel s sign 256 w st = wnaf_loop k s sign 256 w st.
Proof.
  revert fuel st. induction k as [|k IH]; intros fuel st Hk Hb; cbn [wnaf_loop] in *.
  - destruct fuel; cbn [wnaf_loop]; [done|]. by rewrite (proj2 (Z.ltb_ge (wn_bit st) 256)) by lia.
  - destruct fuel as [|fuel]; [lia|]. cbn [wnaf_loop]. destruct (wn_bit st <? 256); [|done]. apply IH; [lia|done].
Qed.

(** A scalar of 256 bits is negated first, and every digit with it. *)
Lemma wnaf_scalar (a : secp256k1_scalar) :
  sc_ok a →
  let '(s, sign) := if negb (secp256k1_scalar_get_bits a 255 1 =? 0) then (secp256k1_scalar_negate a, -1) else (a, 1) in
  sc_words s ∧ sc_val s < 2 ^ 255 ∧ (sign = 1 ∨ sign = -1) ∧ (sign * sc_val s) mod secp_n = sc_val a.
Proof.
  intros Ha. pose proof (sc_ok_range a Ha) as Hr. rewrite get_bit_spec by (lia || apply Ha).
  destruct (Z.eqb_spec (sc_val a / 2 ^ 255 mod 2) 0) as [E|E]; cbn [negb].
  - split_and!; [apply Ha| |by left|rewrite Z.mul_1_l; by apply Z.mod_small].
    apply Z.nle_gt. intros Hle. rewrite <- (Z.div_unique (sc_val a) (2 ^ 255) 1 (sc_val a - 2 ^ 255)) in E by (unfold secp_n in *; lia). done.
  - destruct (sc_negate_spec a Ha) as [[Hn _] Vn]. split_and!; [done| |by right|].
    + rewrite Vn. assert (2 ^ 255 <= sc_val a) as Hle. { apply Z.nlt_ge. intros Hlt. rewrite Z.div_small in E by lia. done. }
      rewrite Z.mod_opp_l_nz; [|unfold secp_n; lia|rewrite Z.mod_small by lia; lia]. rewrite Z.mod_small by lia. unfold secp_n in *. lia.
    + rewrite Vn. replace (-1 * (- sc_val a mod secp_n)) with (- (- sc_val a mod secp_n)) by lia.
      rewrite <- (Z.mod_small (sc_val a) secp_n) at 2 by lia. pose proof (Z.div_mod (- sc_val a) secp_n ltac:(done)).
      replace (- (- sc_val a mod secp_n)) with (sc_val a + (- sc_val a / secp_n) * secp_n) by lia. by rewrite Z_mod_plus_full.
Qed.

Lemma wnaf_start (s : secp256k1_scalar) (sign w : Z) : sign = 1 ∨ sign = -1 → wnaf_inv s sign w (MkWnaf (replicate 256 0) 0 0 (-1)).
Proof.
  intros Hsign. split; cbn [wn_wnaf wn_bit wn_carry wn_last_set_bit]; [done|lia|by left| | |lia|].
  - rewrite Z.mod_1_r. unfold wnaf_value. rewrite le_val_replicate0. lia.
  - intros i _ Hi. by apply lookup_replicate_2.
  - apply Forall_replicate. by left.
Qed.

(** The digits of a scalar below the order, from [secp256k1_ecmult_wnaf] *)
Lemma wnaf_spec (a : secp256k1_scalar) (w : Z) :
  sc_ok a → 2 <= w <= 31 →
  let '(l, bits) := secp256k1_ecmult_wnaf 256 a w in
  length l = 256%nat ∧ wnaf_value l mod secp_n = sc_val a ∧ 0 <= bits <= 256 ∧ Forall (wnaf_digit w) l ∧
  (∀ i, bits <= Z.of_nat i → (i < 256)%nat → l !! i = Some 0).
Proof.
  intros Ha Hw. pose proof (wnaf_scalar a Ha) as Hc. unfold secp256k1_ecmult_wnaf. destruct (if negb _ then _ else _) as [s sign].
  destruct Hc as (Hs & Hlow & Hsign & Ev). change (Z.to_nat 256) with 256%nat.
  destruct (wnaf_loop_inv s sign w Hs Hlow Hsign Hw 256 _ (wnaf_start s sign w Hsign) ltac:(cbn; lia)) as [[Hl Hb Hc Hv Hz Hla Hd] Eb].
  set (st := wnaf_loop _ _ _ _ _ _) in *. split_and!; [done| |lia|lia|done|].
  - rewrite Eb in Hc, Hv. destruct Hc as [Hc|[_ ?]]; [|lia]. rewrite Hc, Z.mod_small in Hv by (split; [by apply sc_words_range|lia]).
    rewrite <- Ev, <- Hv. f_equal. destruct Hsign as [-> | ->]; lia.
  - intros i Hi. apply Hz. lia.
Qed.

(** ** Tables *)

#[local] Open Scope Zmod_scope.
Add Field Fp_tables : (Zmod.field_theory secp_p secp_prime) (morphism cst_morph, constants [Fp_constant]).

(** The compact form in which a field element is kept in a table *)
Class secp256k1_fe_compact (fe st : Type) := { fe_to_storage : fe → st; fe_from_storage : st → fe }.

#[export] Instance compact_5x52 : secp256k1_fe_compact secp256k1_fe secp256k1_fe_storage :=
  {| fe_to_storage := secp256k1_fe_to_storage; fe_from_storage := secp256k1_fe_from_storage |}.

Class secp256k1_fe_compact_laws (fe st : Type) `{secp256k1_field fe} `{secp256k1_fe_compact fe st} : Prop :=
  compact_roundtrip (a : fe) : fe_normalized a → fe_from_storage (fe_to_storage a) = a.

#[export] Instance compact_5x52_laws : secp256k1_fe_compact_laws secp256k1_fe secp256k1_fe_storage.
Proof. exact fe_storage_roundtrip. Qed.

Section Tables.
Context {fe st : Type} `{secp256k1_field fe} `{secp256k1_fe_compact fe st}.

Record secp256k1_ge_storage := MkGeStorage { ges_x : st; ges_y : st }.

Definition ge_to_storage (a : secp256k1_ge fe) : secp256k1_ge_storage :=
  MkGeStorage (fe_to_storage (fe_normalize (ge_x a))) (fe_to_storage (fe_normalize (ge_y a))).

Definition ge_from_storage (a : secp256k1_ge_storage) : secp256k1_ge fe :=
  MkGe (fe_from_storage (ges_x a)) (fe_from_storage (ges_y a)) false.

(** The entries [prej[i]] and [zr[i]] of the loop, over their former contents *)
Fixpoint odd_multiples_loop (d_ge : secp256k1_ge fe) (prev : secp256k1_gej fe) (rest : list (secp256k1_gej fe * fe)) :
    list (secp256k1_gej fe * fe) :=
  match rest with
  | [] => []
  | (r, z) :: rest =>
      let '(p, rzr) := gej_add_ge_var r prev d_ge in
      (p, default z rzr) :: odd_multiples_loop d_ge p rest
  end.

(** [secp256k1_fe_mul(&prej[n-1].z, &prej[n-1].z, &d.z)] *)
Fixpoint scale_last (z : fe) (tab : list (secp256k1_gej fe * fe)) : list (secp256k1_gej fe * fe) :=
  match tab with
  | [] => []
  | [(p, zr)] => [(MkGej (gej_x p) (gej_y p) (fe_mul (gej_z p) z) (gej_infinity p), zr)]
  | e :: tab => e :: scale_last z tab
  end.

(** [tab] is what the arrays [prej] and [zr], of at least one element, hold before, and [d0] what [d] does. *)
Definition ecmult_odd_multiples_table (d0 : secp256k1_gej fe) (tab : list (secp256k1_gej fe * fe)) (a : secp256k1_gej fe) :
    list (secp256k1_gej fe * fe) :=
  let d := (gej_double_var d0 a).1 in
  let d_ge := MkGe (gej_x d) (gej_y d) false in
  let a_ge := ge_set_gej_zinv a (gej_z d) in
  let prej0 := MkGej (ge_x a_ge) (ge_y a_ge) (gej_z a) false in
  scale_last (gej_z d) ((prej0, gej_z d) :: odd_multiples_loop d_ge prej0 (tail tab)).

(** From the last entry backwards: the affine points, and the inverse of the Z coordinate of the first *)
Fixpoint set_table_gej (tab : list (secp256k1_gej fe * fe)) : list (secp256k1_ge fe) * fe :=
  match tab with
  | [] => ([], fe_clear)
  | (a, _) :: tab =>
      match tab with
      | [] => let zi := fe_inv (gej_z a) in ([ge_set_gej_zinv a zi], zi)
      | (_, zr) :: _ =>
          let '(r, zi) := set_table_gej tab in
          let zi := fe_mul zi zr in
          (ge_set_gej_zinv a zi :: r, zi)
      end
  end.

Definition ge_set_table_gej_var (tab : list (secp256k1_gej fe * fe)) : list (secp256k1_ge fe) := (set_table_gej tab).1.

(** The points over the common Z, that Z, and the ratio [zs] of it to the Z coordinate of the first; no ratio yet at the last *)
Fixpoint globalz_table (globalz : fe) (tab : list (secp256k1_gej fe * fe)) : list (secp256k1_ge fe) * fe * option fe :=
  match tab with
  | [] => ([], globalz, None)
  | (a, _) :: tab =>
      match tab with
      | [] => ([MkGe (gej_x a) (gej_y a) false], gej_z a, None)
      | (_, zr) :: _ =>
          let '(r, gz, zs) := globalz_table globalz tab in
          let zs := match zs with None => zr | Some zs => fe_mul zs zr end in
          (ge_set_gej_zinv a zs :: r, gz, Some zs)
      end
  end.

Definition ge_globalz_set_table_gej (globalz : fe) (tab : list (secp256k1_gej fe * fe)) : list (secp256k1_ge fe) * fe :=
  (globalz_table globalz tab).1.

Definition ecmult_odd_multiples_table_globalz_windowa (d0 : secp256k1_gej fe) (a : secp256k1_gej fe) : list (secp256k1_ge fe) * fe :=
  ge_globalz_set_table_gej (gej_z d0)
    (ecmult_odd_multiples_table d0 (replicate (ECMULT_TABLE_SIZE WINDOW_A) (d0, gej_z d0)) a).

Definition ecmult_odd_multiples_table_storage_var (d0 : secp256k1_gej fe) (n : nat) (a : secp256k1_gej fe) : list secp256k1_ge_storage :=
  ge_to_storage <$> ge_set_table_gej_var (ecmult_odd_multiples_table d0 (replicate n (d0, gej_z d0)) a).

Definition ECMULT_TABLE_GET_GE (pre : list (secp256k1_ge fe)) (n : Z) : option (secp256k1_ge fe) :=
  if (0 <? n)%Z then pre !! Z.to_nat ((n - 1) / 2) else ge_neg <$> pre !! Z.to_nat ((- n - 1) / 2).

Definition ECMULT_TABLE_GET_GE_STORAGE (pre : list secp256k1_ge_storage) (n : Z) : option (secp256k1_ge fe) :=
  if (0 <? n)%Z then ge_from_storage <$> pre !! Z.to_nat ((n - 1) / 2)
  else ge_neg ∘ ge_from_storage <$> pre !! Z.to_nat ((- n - 1) / 2).

(** *** The context *)

(** [pre_g], which is null until the table is built *)
Record secp256k1_ecmult_context := MkEcmultContext { pre_g : option (list secp256k1_ge_storage) }.

Definition ecmult_context_init : secp256k1_ecmult_context := MkEcmultContext None.

Definition ecmult_context_is_built (ctx : secp256k1_ecmult_context) : bool := bool_decide (is_Some (pre_g ctx)).

Definition ecmult_context_build (const_g : secp256k1_ge fe) (d0 : secp256k1_gej fe) (ctx : secp256k1_ecmult_context) : secp256k1_ecmult_context :=
  match pre_g ctx with
  | Some _ => ctx
  | None =>
      let gj := gej_set_ge const_g in
      MkEcmultContext (Some (ecmult_odd_multiples_table_storage_var d0 (ECMULT_TABLE_SIZE WINDOW_G) gj))
  end.

Definition ecmult_context_clone (src : secp256k1_ecmult_context) : secp256k1_ecmult_context := MkEcmultContext (pre_g src).
Definition ecmult_context_clear (ctx : secp256k1_ecmult_context) : secp256k1_ecmult_context := ecmult_context_init.

(** ** The double multiplication *)

Definition ecmult_add_a (pre_a : list (secp256k1_ge fe)) (n : Z) (r : secp256k1_gej fe) : option (secp256k1_gej fe) :=
  tmpa ← ECMULT_TABLE_GET_GE pre_a n; Some (gej_add_ge_var r r tmpa).1.

Definition ecmult_add_g (pre : list secp256k1_ge_storage) (gz : fe) (n : Z) (r : secp256k1_gej fe) : option (secp256k1_gej fe) :=
  tmpa ← ECMULT_TABLE_GET_GE_STORAGE pre n; Some (gej_add_zinv_var r r tmpa gz).

(** [for (i = bits - 1; i >= 0; i--)]: [None] where the source would read outside a table *)
Fixpoint ecmult_loop (pre_a : list (secp256k1_ge fe)) (gz : fe) (pre : list secp256k1_ge_storage) (wnaf_na : list Z) (bits_na : Z)
    (wnaf_ng : list Z) (bits_ng : Z) (i : nat) (r : secp256k1_gej fe) : option (secp256k1_gej fe) :=
  match i with
  | O => Some r
  | S i =>
      let r := (gej_double_var r r).1 in
      let na := if (Z.of_nat i <? bits_na)%Z then wnaf_na.[i] else 0%Z in
      r ← if (na =? 0)%Z then Some r else ecmult_add_a pre_a na r;
      let ng := if (Z.of_nat i <? bits_ng)%Z then wnaf_ng.[i] else 0%Z in
      r ← if (ng =? 0)%Z then Some r else ecmult_add_g pre gz ng r;
      ecmult_loop pre_a gz pre wnaf_na bits_na wnaf_ng bits_ng i r
  end.

Definition secp256k1_ecmult (ctx : secp256k1_ecmult_context) (d0 a : secp256k1_gej fe) (na ng : secp256k1_scalar) : option (secp256k1_gej fe) :=
  let '(wnaf_na, bits_na) := secp256k1_ecmult_wnaf 256 na WINDOW_A in
  let bits := bits_na in
  let '(pre_a, gz) := ecmult_odd_multiples_table_globalz_windowa d0 a in
  let '(wnaf_ng, bits_ng) := secp256k1_ecmult_wnaf 256 ng WINDOW_G in
  let bits := if (bits <? bits_ng)%Z then bits_ng else bits in
  pre ← pre_g ctx;
  r ← ecmult_loop pre_a gz pre wnaf_na bits_na wnaf_ng bits_ng (Z.to_nat bits) gej_set_infinity;
  Some (if gej_infinity r then r else MkGej (gej_x r) (gej_y r) (fe_mul (gej_z r) gz) (gej_infinity r)).
End Tables.

(** ** Scaled points *)

Ltac nonzero := repeat first [done|apply mul_nonzero|apply sub_nonzero|by apply cst_nonzero]; try congruence.

(** The image of a point on the isomorphic curve on which the code leaves out a factor [w] of the Z coordinate *)
Definition point_scale (w : Fp) (P : point) : point :=
  match P with None => None | Some (x, y) => Some (x * (w * w), y * (w * w * w)) end.

Section Scale.
Variable w : Fp.
Hypothesis Hw : w ≠ 0.

Lemma scale_nonzero (k : Fp) : w * w * w * k = 0 → k = 0.
Proof using Hw. intros E. apply (factor_zero _ (w * w * w)); [nonzero|]. rewrite <- E. ring. Qed.

Lemma point_scale_neg (P : point) : point_scale w (point_neg P) = point_neg (point_scale w P).
Proof. destruct P as [[x y]|]; [|done]. cbn. do 2 f_equal. ring. Qed.

Lemma point_scale_unramified (P : point) : on_curve P → unramified (point_scale w P).
Proof using Hw. destruct P as [[x y]|]; [|done]. intros Hc. pose proof (no_two_torsion x y Hc). cbn. nonzero. Qed.

Lemma scale_eqb (u v k : Fp) : k ≠ 0 → Zmod.eqb (u * k) (v * k) = Zmod.eqb u v.
Proof.
  intros Hk. destruct (Zmod.eqb_spec u v) as [->|Hn]; [apply Zmod.eqb_refl|]. destruct (Zmod.eqb_spec (u * k) (v * k)) as [E|]; [|done]. exfalso. apply Hn. apply sub_zero.
  apply (factor_zero _ k); [done|]. transitivity (u * k - v * k); [ring|]. rewrite E. ring.
Qed.

Lemma point_scale_double (P : point) : on_curve P → point_double (point_scale w P) = point_scale w (point_double P).
Proof using Hw.
  destruct P as [[x y]|]; [|done]. intros Hc. pose proof (no_two_torsion x y Hc). pose proof (cst_nonzero 2 ltac:(lia)).
  unfold point_double, point_scale, chord. do 2 f_equal; field; auto.
Qed.

Lemma point_scale_add (P Q : point) : on_curve P → point_add (point_scale w P) (point_scale w Q) = point_scale w (point_add P Q).
Proof using Hw.
  intros Hc. destruct P as [[x1 y1]|], Q as [[x2 y2]|]; try done. cbn [point_scale point_add].
  rewrite !scale_eqb by nonzero. destruct (Zmod.eqb_spec x1 x2) as [->|Hx].
  - destruct (Zmod.eqb_spec y1 y2) as [->|Hy]; [|done]. by apply (point_scale_double (Some (x2, y2))).
  - unfold chord. cbn [point_scale]. assert (x2 - x1 ≠ 0) by (apply sub_nonzero; congruence).
    assert (x2 * (w * w) - x1 * (w * w) ≠ 0). { intros E. apply Hx. apply sub_zero. apply (factor_zero _ (w * w)); [nonzero|].
      transitivity (Zmod.opp (x2 * (w * w) - x1 * (w * w))); [ring|]. rewrite E. ring. }
    do 2 f_equal; field; auto.
Qed.
End Scale.

(** ** The tables hold the odd multiples *)

Ltac rep_eval :=
  repeat first [eassumption|eapply rep_mul|eapply rep_sqr|eapply rep_add|eapply rep_negate|eapply rep_mul_int|eapply rep_weak|eapply rep_set_int|eapply rep_inv].

#[local] Opaque fe_inv fe_sqrt.

Section Odd.
Context {fe : Type} `{secp256k1_field_laws fe}.

(** The ratio of the Z coordinates that an addition returns *)
Lemma gej_add_ge_var_ratio (r a : secp256k1_gej fe) (b : secp256k1_ge fe) (P Q : Fp * Fp) :
  jacobian a (Some P) → affine b (Some Q) → gej_infinity (gej_add_ge_var r a b).1 = false →
  ∃ zr, (gej_add_ge_var r a b).2 = Some zr ∧ fe_magnitude 4 zr ∧ fe_value (gej_z (gej_add_ge_var r a b).1) = fe_value (gej_z a) * fe_value zr.
Proof.
  destruct P as [x1 y1], Q as [x2 y2]. intros Ha Hb.
  destruct (jacobian_reps a x1 y1 Ha) as (c & Hc & Ea & RX1 & RY1 & RZ1). destruct (affine_reps b x2 y2 Hb) as (Eb & RX2 & RY2).
  assert (fe_value (gej_z a) = c) as Ec by apply RZ1. unfold gej_add_ge_var. rewrite Ea, Eb.
  set (u1 := fe_normalize_weak (gej_x a)). set (u2 := fe_mul (ge_x b) _). set (s1 := fe_normalize_weak (gej_y a)). set (s2 := fe_mul (fe_mul (ge_y b) _) _).
  assert (rep 1 (x1 * (c * c)) u1) as RU1 by (unfold u1; rep_eval; lia).
  assert (rep 1 (x2 * (c * c)) u2) as RU2 by (unfold u2; rep_eval; lia).
  assert (rep 3 ((x2 - x1) * (c * c)) (fe_add (fe_negate u1 1) u2)) as RH by (apply difference_spec; [done|done|nonzero]).
  destruct (fe_normalizes_to_zero_var _); [destruct (fe_normalizes_to_zero_var _)|]; cbn [fst snd gej_infinity gej_z]; try done.
  - unfold gej_double_var. rewrite Ea. cbn [fst snd gej_infinity gej_z]. intros _. eexists. split; [done|].
    assert (rep 2 (y1 * (c * c * c) * cst 2) (fe_mul_int (fe_normalize_weak (gej_y a)) 2)) as [M V] by (change 2%Z with (1 * 2)%Z at 1; rep_eval; lia).
    assert (rep 2 (c * (y1 * (c * c * c)) * cst 2) (fe_mul_int (fe_mul (gej_z a) (gej_y a)) 2)) as [_ V'] by (change 2%Z with (1 * 2)%Z at 1; rep_eval; lia).
    split; [by apply (magnitude_le 2)|]. rewrite V, V', Ec. ring.
  - intros _. eexists. split; [done|]. destruct RH as [M V]. split; [by apply (magnitude_le 3)|]. 
    assert (rep 1 (c * ((x2 - x1) * (c * c))) (fe_mul (gej_z a) (fe_add (fe_negate u1 1) u2))) as [_ V'] by (eapply rep_mul; [done|by split| |]; lia).
    by rewrite V', V, Ec.
Qed.

(** [a] has the coordinates of [P] over the Z coordinate [z]. *)
Definition over_z (z : Fp) (a : secp256k1_gej fe) (P : Fp * Fp) : Prop :=
  gej_ok a ∧ gej_infinity a = false ∧ z ≠ 0 ∧ fe_value (gej_x a) = P.1 * (z * z) ∧ fe_value (gej_y a) = P.2 * (z * z * z).

(** Every entry of a table has a Z coordinate of its own, the ratios [zr] lead from one to the next, and the last entry has its own. *)
Inductive ratio_table : Fp → list (secp256k1_gej fe * fe) → list (Fp * Fp) → Prop :=
  | ratio_last (z : Fp) (a : secp256k1_gej fe) (zr : fe) (P : Fp * Fp) :
      over_z z a P → fe_value (gej_z a) = z → ratio_table z [(a, zr)] [P]
  | ratio_next (z : Fp) (a a' : secp256k1_gej fe) (zr zr' : fe) (tab : list (secp256k1_gej fe * fe)) (P : Fp * Fp) (Ps : list (Fp * Fp)) :
      over_z z a P → fe_magnitude 4 zr' → ratio_table (z * fe_value zr') ((a', zr') :: tab) Ps →
      ratio_table z ((a, zr) :: (a', zr') :: tab) (P :: Ps).

(** Coordinates brought to another Z *)
Lemma ge_set_gej_zinv_over (z w : Fp) (a : secp256k1_gej fe) (zi : fe) (P : Fp * Fp) :
  over_z z a P → fe_magnitude 8 zi → fe_value zi = Zmod.mdiv w z → affine (ge_set_gej_zinv a zi) (point_scale w (Some P)).
Proof.
  destruct P as [x y]. intros ((Hx & Hy & _) & Hi & Hz & Ex & Ey) Hm Ez. cbn [fst snd] in *.
  assert (rep 6 (x * (z * z)) (gej_x a)) as RX by done. assert (rep 4 (y * (z * z * z)) (gej_y a)) as RY by done.
  assert (rep 8 (Zmod.mdiv w z) zi) as RZ by done. unfold ge_set_gej_zinv. set (X := fe_mul (gej_x a) _). set (Y := fe_mul (gej_y a) _).
  assert (rep 1 (x * (w * w)) X) as [MX VX] by (unfold X; eapply rep_eq; [rep_eval| |field]; try lia; done).
  assert (rep 1 (y * (w * w * w)) Y) as [MY VY] by (unfold Y; eapply rep_eq; [rep_eval| |field]; try lia; done).
  split; [split; cbn; [by apply (magnitude_le 1)|by apply (magnitude_le 1)]|]. done.
Qed.

Lemma set_table_gej_spec (z : Fp) (tab : list (secp256k1_gej fe * fe)) (Ps : list (Fp * Fp)) :
  ratio_table z tab Ps →
  Forall2 affine (set_table_gej tab).1 (Some <$> Ps) ∧ fe_magnitude 1 (set_table_gej tab).2 ∧ fe_value (set_table_gej tab).2 = Zmod.mdiv 1 z.
Proof.
  assert (∀ P : Fp * Fp, point_scale 1 (Some P) = Some P) as E1 by (intros [x y]; cbn; do 2 f_equal; ring).
  induction 1 as [z a zr P Ho Ez|z a a' zr zr' tab P Ps Ho Hm Ht (IH & IHm & IHv)].
  - cbn [set_table_gej fst snd]. pose proof Ho as ((_ & _ & Mz) & _ & Hz & _). 
    assert (rep 1 (Zmod.inv z) (fe_inv (gej_z a))) as [M V] by (eapply rep_inv; [by split|lia]).
    assert (fe_value (fe_inv (gej_z a)) = Zmod.mdiv 1 z) as V' by (rewrite V; field; done).
    split_and!; [|done|done]. constructor; [|constructor]. rewrite <- E1. apply (ge_set_gej_zinv_over z); [done|by apply (magnitude_le 1)|done].
  - change (set_table_gej ((a, zr) :: (a', zr') :: tab)) with
      (let '(r, zi) := set_table_gej ((a', zr') :: tab) in let zi := fe_mul zi zr' in (ge_set_gej_zinv a zi :: r, zi)).
    destruct (set_table_gej ((a', zr') :: tab)) as [r zi]. cbn [fst snd] in *. pose proof Ho as (_ & _ & Hz & _).
    assert (z * fe_value zr' ≠ 0) as Hz' by (by inversion Ht as [? ? ? ? Ho'|? ? ? ? ? ? ? ? Ho']; destruct Ho' as (_ & _ & ? & _)).
    assert (fe_value zr' ≠ 0) by (intros E; apply Hz'; rewrite E; ring).
    assert (rep 1 (Zmod.mdiv 1 z) (fe_mul zi zr')) as [M V].
    { eapply rep_eq; [eapply rep_mul; [by split|by split|lia|lia]|lia|]. field. auto. }
    split_and!; [|done|done]. constructor; [|done]. rewrite <- E1. apply (ge_set_gej_zinv_over z); [done|by apply (magnitude_le 1)|done].
Qed.

Lemma globalz_table_spec (z : Fp) (g : fe) (tab : list (secp256k1_gej fe * fe)) (Ps : list (Fp * Fp)) :
  ratio_table z tab Ps →
  let '(r, gz, zs) := globalz_table g tab in
  fe_magnitude 2 gz ∧ fe_value gz ≠ 0 ∧ Forall2 affine r (point_scale (fe_value gz) ∘ Some <$> Ps) ∧
  match zs with None => fe_value gz = z | Some zs => fe_magnitude 4 zs ∧ fe_value zs = Zmod.mdiv (fe_value gz) z end.
Proof.
  induction 1 as [z a zr P Ho Ez|z a a' zr zr' tab P Ps Ho Hm Ht IH].
  - destruct Ho as ((Mx & My & Mz) & _ & Hz & Ex & Ey). cbn [globalz_table]. rewrite <- Ez in Hz. split_and!; [done|done| |done].
    constructor; [|constructor]. rewrite Ez. destruct P as [x y]. by split.
  - change (globalz_table g ((a, zr) :: (a', zr') :: tab)) with
      (let '(r, gz, zs) := globalz_table g ((a', zr') :: tab) in
       let zs := match zs with None => zr' | Some zs => fe_mul zs zr' end in (ge_set_gej_zinv a zs :: r, gz, Some zs)).
    destruct (globalz_table g ((a', zr') :: tab)) as [[r gz] zs]. destruct IH as (Mg & Hg & IH & Hzs). pose proof Ho as (_ & _ & Hz & _).
    assert (z * fe_value zr' ≠ 0) as Hz' by (by inversion Ht as [? ? ? ? Ho'|? ? ? ? ? ? ? ? Ho']; destruct Ho' as (_ & _ & ? & _)).
    assert (fe_value zr' ≠ 0) as Hr by (intros E; apply Hz'; rewrite E; ring).
    set (zs' := match zs with None => zr' | Some zs => fe_mul zs zr' end).
    assert (fe_magnitude 4 zs' ∧ fe_value zs' = Zmod.mdiv (fe_value gz) z) as [M V].
    { destruct zs as [zs|]; unfold zs'.
      - destruct Hzs as [Ms Vs]. assert (rep 1 (Zmod.mdiv (fe_value gz) z) (fe_mul zs zr')) as [M V].
        { eapply rep_eq; [eapply rep_mul; [by split|by split|lia|lia]|lia|]. field. auto. }
        split; [by apply (magnitude_le 1)|done].
      - split; [done|]. rewrite Hzs. field. done. }
    split_and!; [done|done| |done|done]. constructor; [|done]. apply (ge_set_gej_zinv_over z); [done|by apply (magnitude_le 4)|done].
Qed.

Lemma jacobian_over_z (w : Fp) (a : secp256k1_gej fe) (P : Fp * Fp) :
  jacobian a (point_scale w (Some P)) → w ≠ 0 → over_z (fe_value (gej_z a) * w) a P.
Proof.
  destruct P as [x y]. intros [Hok (Hi & Hz & Ex & Ey)] Hw. split_and!; [apply Hok..|done|nonzero|rewrite Ex; cbn; ring|rewrite Ey; cbn; ring].
Qed.

Lemma scale_last_cons (z : fe) (p : secp256k1_gej fe) (zr : fe) (tab : list (secp256k1_gej fe * fe)) :
  ∃ p' tab', scale_last z ((p, zr) :: tab) = (p', zr) :: tab'.
Proof. destruct tab as [|e tab]; cbn; eauto. Qed.

Lemma odd_multiples_loop_spec (A : point) (d_ge : secp256k1_ge fe) (dz : fe) (rest : list (secp256k1_gej fe * fe)) (k : Z) (prev : secp256k1_gej fe) (zr : fe) (P : Fp * Fp) :
  on_curve A → fe_magnitude 2 dz → fe_value dz ≠ 0 → affine d_ge (point_scale (fe_value dz) (point_mul 2 A)) →
  Forall (gej_ok ∘ fst) rest →
  point_mul (2 * k + 1) A = Some P → jacobian prev (point_scale (fe_value dz) (Some P)) →
  (∀ j : nat, (j ≤ length rest)%nat → point_mul (2 * (k + j) + 1) A ≠ None) → point_mul 2 A ≠ None →
  ∃ Ps, ratio_table (fe_value (gej_z prev) * fe_value dz) (scale_last dz ((prev, zr) :: odd_multiples_loop d_ge prev rest)) Ps ∧
    Some <$> Ps = (λ j : nat, point_mul (2 * (k + j) + 1) A) <$> seq 0 (S (length rest)).
Proof.
  intros HA Mz Hz Hd. revert k prev zr P. induction rest as [|[r z0] rest IH]; intros k prev zr P Hrest EP Hprev Hfin H2.
  - exists [P]. split; [|cbn; by rewrite Z.add_0_r, EP]. cbn [odd_multiples_loop scale_last]. pose proof (jacobian_over_z _ _ _ Hprev Hz) as Ho.
    destruct Ho as ((Mx & My & Mzz) & Hi & Hz' & Ex & Ey). assert (rep 1 (fe_value (gej_z prev) * fe_value dz) (fe_mul (gej_z prev) dz)) as [M V].
    { eapply rep_mul; [by split|by split|lia|lia]. }
    constructor; [|done]. split; [|done]. split_and!; [done|done|by apply (magnitude_le 1)].
  - apply list.Forall_cons in Hrest as [Hr Hrest]. cbn [odd_multiples_loop length].
    pose proof (point_mul_on_curve A HA) as Hc. assert (on_curve (Some P)) as HP by (rewrite <- EP; apply Hc).
    assert (point_mul (2 * (k + 1) + 1) A = point_add (Some P) (point_mul 2 A)) as Enext.
    { rewrite <- EP, <- point_mul_add by done. f_equal. lia. }
    assert (point_mul (2 * (k + 1) + 1) A ≠ None) as Hne by (apply (Hfin 1%nat); cbn; lia).
    destruct (point_mul (2 * (k + 1) + 1) A) as [P'|] eqn:EP'; [|done].
    pose proof (gej_add_ge_var_law r prev d_ge _ _ Hr Hprev Hd (point_scale_unramified _ Hz _ HP)) as Hp.
    rewrite point_scale_add, <- Enext in Hp by done.
    destruct (point_mul 2 A) as [[x2 y2]|]; [|done]. destruct P' as [x' y'].
    destruct P as [x y]. destruct (gej_add_ge_var_ratio r prev d_ge _ _ Hprev Hd) as (zr' & E2 & Mr & Vr); [by destruct Hp as [_ [? _]]|].
    destruct (gej_add_ge_var r prev d_ge) as [p rzr]. cbn [fst snd] in *. subst rzr. cbn [default]. change (id zr') with zr'.
    destruct (IH (k + 1)%Z p zr' (x', y') Hrest EP' Hp) as (Ps & Ht & EPs); [intros j Hj|done|].
    { replace (2 * (k + 1 + j) + 1)%Z with (2 * (k + S j) + 1)%Z by lia. apply Hfin. cbn. lia. }
    exists ((x, y) :: Ps). destruct (scale_last_cons dz p zr' (odd_multiples_loop d_ge p rest)) as (p' & tab' & E). rewrite E in Ht. split.
    + change (scale_last dz ((prev, zr) :: (p, zr') :: odd_multiples_loop d_ge p rest)) with ((prev, zr) :: scale_last dz ((p, zr') :: odd_multiples_loop d_ge p rest)).
      rewrite E. constructor; [by apply jacobian_over_z|done|]. replace (_ * _ * _) with (fe_value (gej_z p) * fe_value dz) by (rewrite Vr; ring). done.
    + rewrite fmap_cons, EPs. change (seq 0 (S (S (length rest)))) with (0%nat :: seq 1 (S (length rest))). rewrite fmap_cons, <- fmap_S_seq, <- list_fmap_compose.
      f_equal; [rewrite Z.add_0_r; done|]. apply list_fmap_ext. intros i j _. cbn. f_equal. lia.
Qed.

Lemma ecmult_odd_multiples_table_spec (d0 a : secp256k1_gej fe) (tab : list (secp256k1_gej fe * fe)) (A : Fp * Fp) :
  gej_ok d0 → Forall (gej_ok ∘ fst) tab → (0 < length tab)%nat → jacobian a (Some A) → on_curve (Some A) →
  (∀ j : nat, (j < length tab)%nat → point_mul (2 * j + 1) (Some A) ≠ None) → point_mul 2 (Some A) ≠ None →
  ∃ z Ps, ratio_table z (ecmult_odd_multiples_table d0 tab a) Ps ∧
    Some <$> Ps = (λ j : nat, point_mul (2 * j + 1) (Some A)) <$> seq 0 (length tab).
Proof.
  intros Hd0 Htab Hlen Ha HA Hfin H2. unfold ecmult_odd_multiples_table.
  pose proof (gej_double_var_spec d0 a _ Hd0 Ha HA) as Hd. rewrite <- (point_mul_2 (Some A) HA) in Hd.
  destruct (point_mul 2 (Some A)) as [[x2 y2]|] eqn:E2; [|done]. set (d := (gej_double_var d0 a).1) in *. destruct A as [x y].
  pose proof Hd as [(Mdx & Mdy & Mdz) (_ & Hdz & Edx & Edy)]. pose proof Ha as [(Max & May & Maz) (Hai & Haz & Eax & Eay)].
  assert (affine (MkGe (gej_x d) (gej_y d) false) (point_scale (fe_value (gej_z d)) (point_mul 2 (Some (x, y))))) as Hdge by (rewrite E2; by split).
  assert (over_z (fe_value (gej_z a)) a (x, y)) as Hover by done.
  pose proof (ge_set_gej_zinv_over _ (fe_value (gej_z d) * fe_value (gej_z a)) a (gej_z d) (x, y) Hover) as Hage.
  destruct Hage as [[Mgx Mgy] (_ & Vgx & Vgy)]; [by apply (magnitude_le 2)|field; done|].
  set (a_ge := ge_set_gej_zinv a (gej_z d)) in *. set (prej0 := MkGej (ge_x a_ge) (ge_y a_ge) (gej_z a) false).
  assert (jacobian prej0 (point_scale (fe_value (gej_z d)) (Some (x, y)))) as Hp0.
  { split; [done|]. unfold prej0. cbn [point_scale gej_infinity gej_x gej_y gej_z]. split_and!; [done|done|rewrite Vgx; ring|rewrite Vgy; ring]. }
  destruct tab as [|e tab]; [cbn in Hlen; lia|]. apply list.Forall_cons in Htab as [_ Htab]. cbn [tail length] in *.
  destruct (odd_multiples_loop_spec (Some (x, y)) _ (gej_z d) tab 0 prej0 (gej_z d) (x, y) HA Mdz Hdz Hdge Htab) as (Ps & Ht & EPs);
    [by apply point_mul_1|done|intros j Hj; apply Hfin; cbn; lia|by rewrite E2|]. eauto.
Qed.

(** *** The digits of a table *)

Lemma table_get_index (n w : Z) :
  Z.odd n = true → (0 < n < 2 ^ (w - 1))%Z → (2 <= w)%Z →
  (Z.to_nat ((n - 1) / 2) < ECMULT_TABLE_SIZE w)%nat ∧ (2 * Z.of_nat (Z.to_nat ((n - 1) / 2)) + 1)%Z = n.
Proof.
  intros Ho Hn Hw. destruct (proj1 (Z.odd_spec n) Ho) as [k ->]. replace ((2 * k + 1 - 1) / 2)%Z with k by (apply Z.div_unique_exact; lia).
  unfold ECMULT_TABLE_SIZE. rewrite Z.shiftl_mul_pow2 by lia.
  assert (2 ^ (w - 1) = 2 * 2 ^ (w - 2))%Z by (rewrite <- Z.pow_succ_r by lia; f_equal; lia). split; [apply Z2Nat.inj_lt; lia|lia].
Qed.

Lemma table_lookup {X} (R : X → point → Prop) (pre : list X) (f : Z → point) (n w : Z) :
  Forall2 R pre ((λ j : nat, f (2 * j + 1)%Z) <$> seq 0 (ECMULT_TABLE_SIZE w)) → Z.odd n = true → (0 < n < 2 ^ (w - 1))%Z → (2 <= w)%Z →
  ∃ e, pre !! Z.to_nat ((n - 1) / 2) = Some e ∧ R e (f n).
Proof.
  intros Hp Ho Hn Hw. destruct (table_get_index n w Ho Hn Hw) as [Hi En].
  destruct (Forall2_lookup_r _ _ _ (Z.to_nat ((n - 1) / 2)) (f n) Hp) as (e & He & HR); [|eauto].
  rewrite list_lookup_fmap, lookup_seq_lt by done. cbn [fmap option_fmap option_map]. by rewrite Nat.add_0_l, En.
Qed.

Lemma ge_neg_affine (a : secp256k1_ge fe) (P : point) : affine a P → affine (ge_neg a) (point_neg P).
Proof. intros Ha. by apply (ge_neg_spec a (gej_set_ge a) P Ha (gej_set_ge_spec a P Ha)). Qed.

Lemma table_get_ge_spec (pre : list (secp256k1_ge fe)) (f : Z → point) (n w : Z) :
  Forall2 affine pre ((λ j : nat, f (2 * j + 1)%Z) <$> seq 0 (ECMULT_TABLE_SIZE w)) → (∀ k, f (- k)%Z = point_neg (f k)) →
  wnaf_digit w n → n ≠ 0%Z → (2 <= w)%Z → ∃ e, ECMULT_TABLE_GET_GE pre n = Some e ∧ affine e (f n).
Proof.
  intros Hp Hf [?|[Ho Hn]] Hn0 Hw; [done|]. unfold ECMULT_TABLE_GET_GE. destruct (Z.ltb_spec 0 n).
  - apply (table_lookup _ pre f n w); try done. lia.
  - destruct (table_lookup _ pre f (- n) w Hp) as (e & -> & He); [by rewrite Z.odd_opp|lia|done|]. eexists. split; [done|].
    replace n with (- - n)%Z by lia. rewrite Hf. by apply ge_neg_affine.
Qed.

Lemma point_mul_small (A : point) (k : Z) : in_group A → A ≠ None → (0 < k < secp_n)%Z → point_mul k A ≠ None.
Proof. intros HA Hf Hk E. apply point_mul_infinity in E as Hd; [|done|done]. apply Z.divide_pos_le in Hd; lia. Qed.

Lemma globalz_windowa_spec (d0 a : secp256k1_gej fe) (A : point) :
  gej_ok d0 → jacobian a A → in_group A → A ≠ None →
  let '(pre, gz) := ecmult_odd_multiples_table_globalz_windowa d0 a in
  fe_magnitude 2 gz ∧ fe_value gz ≠ 0 ∧
  Forall2 affine pre ((λ j : nat, point_scale (fe_value gz) (point_mul (2 * j + 1) A)) <$> seq 0 (ECMULT_TABLE_SIZE WINDOW_A)).
Proof.
  intros Hd0 Ha HA Hf. destruct A as [A|]; [|done]. unfold ecmult_odd_multiples_table_globalz_windowa, ge_globalz_set_table_gej.
  set (tab := replicate (ECMULT_TABLE_SIZE WINDOW_A) (d0, gej_z d0)).
  assert (length tab = ECMULT_TABLE_SIZE WINDOW_A) as Hl by apply length_replicate. change (ECMULT_TABLE_SIZE WINDOW_A) with 8%nat in *.
  destruct (ecmult_odd_multiples_table_spec d0 a tab A) as (z & Ps & Ht & EPs); try done; [|lia|apply HA| | |].
  - apply Forall_replicate. done.
  - intros j Hj. apply point_mul_small; [done|done|unfold secp_n; lia].
  - apply point_mul_small; [done|done|unfold secp_n; lia].
  - pose proof (globalz_table_spec z (gej_z d0) _ _ Ht) as Hg. destruct (globalz_table _ _) as [[pre gz] zs]. destruct Hg as (M & Hz & Hp & _).
    cbn [fst]. split_and!; [done|done|]. rewrite (list_fmap_compose Some), EPs, Hl, <- list_fmap_compose in Hp. done.
Qed.
End Odd.

(** ** The sum of the two multiples *)

Section Sum.
Context {fe st : Type} `{HF : secp256k1_field fe, HFl : !secp256k1_field_laws fe, HC : secp256k1_fe_compact fe st, HCl : !secp256k1_fe_compact_laws fe st}.

(** A storage entry from which the point is read back *)
Definition stored (e : secp256k1_ge_storage) (P : point) : Prop := affine (ge_from_storage e : secp256k1_ge fe) P.

Lemma ge_to_storage_spec (a : secp256k1_ge fe) (P : Fp * Fp) : affine a (Some P) → stored (ge_to_storage a) (Some P).
Proof using HFl HCl.
  destruct P as [x y]. intros Ha. destruct (affine_reps a x y Ha) as (_ & [Mx Vx] & [My Vy]). unfold stored, ge_from_storage, ge_to_storage. cbn [ges_x ges_y].
  destruct (normalize_spec (ge_x a)) as [Nx Ex]; [by apply (magnitude_le 6)|]. destruct (normalize_spec (ge_y a)) as [Ny Ey]; [by apply (magnitude_le 4)|].
  rewrite !compact_roundtrip by done. pose proof (normalized_magnitude _ Nx). pose proof (normalized_magnitude _ Ny).
  split; [split; cbn; by apply (magnitude_le 1)|]. cbn. split_and!; congruence.
Qed.

Lemma table_get_storage_spec (pre : list secp256k1_ge_storage) (f : Z → point) (n w : Z) :
  Forall2 stored pre ((λ j : nat, f (2 * j + 1)%Z) <$> seq 0 (ECMULT_TABLE_SIZE w)) → (∀ k, f (- k)%Z = point_neg (f k)) →
  wnaf_digit w n → n ≠ 0%Z → (2 <= w)%Z → ∃ e : secp256k1_ge fe, ECMULT_TABLE_GET_GE_STORAGE pre n = Some e ∧ affine e (f n).
Proof using HFl.
  intros Hp Hf [?|[Ho Hn]] Hn0 Hw; [done|]. unfold ECMULT_TABLE_GET_GE_STORAGE. destruct (Z.ltb_spec 0 n).
  - destruct (table_lookup stored pre f n w Hp) as (e & -> & He); [done|lia|done|]. by eexists.
  - destruct (table_lookup stored pre f (- n) w Hp) as (e & -> & He); [by rewrite Z.odd_opp|lia|done|]. eexists. split; [done|].
    replace n with (- - n)%Z by lia. rewrite Hf. by apply ge_neg_affine.
Qed.

Lemma storage_var_spec (d0 a : secp256k1_gej fe) (n : nat) (A : point) :
  gej_ok d0 → jacobian a A → in_group A → A ≠ None → (0 < n)%nat → (2 * n < secp_n)%Z →
  Forall2 stored (ecmult_odd_multiples_table_storage_var d0 n a) ((λ j : nat, point_mul (2 * j + 1) A) <$> seq 0 n).
Proof using HFl HCl.
  intros Hd0 Ha HA Hf Hn Hlt. destruct A as [A|]; [|done]. unfold ecmult_odd_multiples_table_storage_var, ge_set_table_gej_var.
  set (tab := replicate n (d0, gej_z d0)). assert (length tab = n) as Hl by apply length_replicate.
  destruct (ecmult_odd_multiples_table_spec d0 a tab A) as (z & Ps & Ht & EPs); try done; [|lia|apply HA| | |].
  - apply Forall_replicate. done.
  - intros j Hj. apply point_mul_small; [done|done|lia].
  - apply point_mul_small; [done|done|unfold secp_n; lia].
  - destruct (set_table_gej_spec z _ _ Ht) as [Hp _]. rewrite Hl in EPs. rewrite <- EPs. rewrite Forall2_fmap_l, Forall2_fmap_r. rewrite Forall2_fmap_r in Hp.
    eapply Forall2_impl; [|exact Hp]. intros e P. apply ge_to_storage_spec.
Qed.

(** [pre_g] holds the odd multiples of the generator. *)
Definition context_ok (ctx : secp256k1_ecmult_context) : Prop :=
  ∃ pre, pre_g ctx = Some pre ∧ Forall2 stored pre ((λ j : nat, point_mul (2 * j + 1) generator) <$> seq 0 (ECMULT_TABLE_SIZE WINDOW_G)).

Lemma table_size_g : Z.of_nat (ECMULT_TABLE_SIZE WINDOW_G) = 16384%Z.
Proof using. unfold ECMULT_TABLE_SIZE, WINDOW_G. change (1 .<< (16 - 2))%Z with 16384%Z. by apply Z2Nat.id. Qed.

#[local] Opaque ECMULT_TABLE_SIZE.

Lemma ecmult_context_build_spec (const_g : secp256k1_ge fe) (d0 : secp256k1_gej fe) :
  gej_ok d0 → affine const_g generator → context_ok (ecmult_context_build const_g d0 ecmult_context_init).
Proof using HFl HCl.
  intros Hd0 Hg. unfold context_ok, ecmult_context_build, ecmult_context_init. cbn [pre_g]. eexists. split; [reflexivity|].
  apply storage_var_spec; [assumption|by apply gej_set_ge_spec|apply in_group_generator|discriminate| |].
  - apply Nat2Z.inj_lt. by rewrite table_size_g.
  - rewrite table_size_g. unfold secp_n. lia.
Qed.

(** *** The loop *)

(** The sum of multiples of the two points *)
Definition combination (A : point) (ka kg : Z) : point := point_add (point_mul ka A) (point_mul kg generator).

Section Combinations.
Variable A : point.
Hypothesis HA : on_curve A.

Lemma combination_on_curve (ka kg : Z) : on_curve (combination A ka kg).
Proof using HA. apply point_add_on_curve; apply point_mul_on_curve; [done|apply generator_on_curve]. Qed.

Lemma combination_add_a (ka kg n : Z) : point_add (combination A ka kg) (point_mul n A) = combination A (ka + n) kg.
Proof using HA.
  pose proof (point_mul_on_curve A HA) as Ha. pose proof (point_mul_on_curve generator generator_on_curve) as Hg. unfold combination.
  rewrite point_mul_add, (point_add_comm (point_mul ka A) (point_mul kg generator)) by done.
  rewrite (point_add_assoc (point_mul kg generator) (point_mul ka A) (point_mul n A)) by done. apply point_add_comm; [done|auto with curve].
Qed.

Lemma combination_add_g (ka kg n : Z) : point_add (combination A ka kg) (point_mul n generator) = combination A ka (kg + n).
Proof using HA.
  pose proof (point_mul_on_curve A HA) as Ha. pose proof (point_mul_on_curve generator generator_on_curve) as Hg. unfold combination.
  rewrite (point_mul_add generator generator_on_curve). by apply point_add_assoc.
Qed.

Lemma combination_double (ka kg : Z) : point_double (combination A ka kg) = combination A (2 * ka) (2 * kg).
Proof using HA.
  pose proof (point_mul_on_curve A HA) as Ha. pose proof (point_mul_on_curve generator generator_on_curve) as Hg.
  pose proof (combination_on_curve ka kg) as Hc. rewrite <- point_mul_2 by done. change 2%Z with (1 + 1)%Z at 1. rewrite point_mul_add, point_mul_1 by done.
  unfold combination at 2. rewrite <- (point_add_assoc (combination A ka kg)) by done. fold (combination A ka kg).
  rewrite combination_add_a, combination_add_g. f_equal; lia.
Qed.
End Combinations.

(** The digit read at [i], which is zero from [bits] on *)
Lemma digit_at (l : list Z) (bits : Z) (i : nat) :
  length l = 256%nat → (i < 256)%nat → (∀ i, (bits <= Z.of_nat i)%Z → (i < 256)%nat → l !! i = Some 0%Z) →
  (if (Z.of_nat i <? bits)%Z then l.[i] else 0%Z) = l.[i] ∧ l !! i = Some (l.[i]) ∧ le_val 1 (drop i l) = (l.[i] + 2 * le_val 1 (drop (S i) l))%Z.
Proof using.
  intros Hl Hi Hz. destruct (lookup_lt_is_Some_2 l i) as [x Ex]; [lia|]. assert (l.[i] = x) as E by (by apply nth_lookup_Some).
  split_and!.
  - destruct (Z.ltb_spec (Z.of_nat i) bits) as [|Hge]; [done|]. rewrite E. specialize (Hz i Hge Hi). congruence.
  - by rewrite E.
  - rewrite (drop_S l x i Ex). cbn [le_val]. by rewrite E.
Qed.

Section Loop.
Variables (A : point) (gz : fe) (pre_a : list (secp256k1_ge fe)) (pre : list (@secp256k1_ge_storage st)) (la lg : list Z) (bits_a bits_g : Z).
Let w : Fp := fe_value gz.
Hypotheses (HA : on_curve A) (Mgz : fe_magnitude 2 gz) (Hgz : w ≠ 0).
Hypothesis Hpre_a : Forall2 affine pre_a ((λ j : nat, point_scale w (point_mul (2 * j + 1) A)) <$> seq 0 (ECMULT_TABLE_SIZE WINDOW_A)).
Hypothesis Hpre : Forall2 stored pre ((λ j : nat, point_mul (2 * j + 1) generator) <$> seq 0 (ECMULT_TABLE_SIZE WINDOW_G)).

Lemma ecmult_add_a_spec (r : secp256k1_gej fe) (ka kg n : Z) :
  wnaf_digit WINDOW_A n → jacobian r (point_scale w (combination A ka kg)) →
  ∃ r', (if (n =? 0)%Z then Some r else ecmult_add_a pre_a n r) = Some r' ∧ jacobian r' (point_scale w (combination A (ka + n) kg)).
Proof using HFl HA Hgz Hpre_a.
  intros Hn Hr. destruct (Z.eqb_spec n 0) as [->|Hn0]; [exists r; by rewrite Z.add_0_r|]. unfold ecmult_add_a.
  destruct (table_get_ge_spec pre_a (λ k, point_scale w (point_mul k A)) n WINDOW_A Hpre_a) as (e & -> & He); [|done|done|done|].
  { intros k. by rewrite point_mul_opp, point_scale_neg. }
  eexists. split; [reflexivity|]. rewrite <- combination_add_a, <- point_scale_add by (done || by apply combination_on_curve).
  apply gej_add_ge_var_law; [apply Hr|done|done|]. apply point_scale_unramified; [done|by apply combination_on_curve].
Qed.

Lemma ecmult_add_g_spec (r : secp256k1_gej fe) (ka kg n : Z) :
  wnaf_digit WINDOW_G n → jacobian r (point_scale w (combination A ka kg)) →
  ∃ r', (if (n =? 0)%Z then Some r else ecmult_add_g pre gz n r) = Some r' ∧ jacobian r' (point_scale w (combination A ka (kg + n))).
Proof using HFl HA Hgz Mgz Hpre.
  intros Hn Hr. destruct (Z.eqb_spec n 0) as [->|Hn0]; [exists r; by rewrite Z.add_0_r|]. unfold ecmult_add_g.
  destruct (table_get_storage_spec pre (λ k, point_mul k generator) n WINDOW_G Hpre) as (e & -> & He); [|done|done|done|].
  { intros k. apply point_mul_opp, generator_on_curve. }
  eexists. split; [reflexivity|]. rewrite <- combination_add_g, <- point_scale_add by (done || by apply combination_on_curve).
  apply gej_add_zinv_var_law; [apply Hr|done| |apply point_scale_unramified; [done|by apply combination_on_curve]].
  destruct He as [Hok He]. split_and!; [apply Hok|by apply (magnitude_le 2)|]. destruct (point_mul n generator) as [[x y]|]; [|done].
  destruct He as (Hi & -> & ->). done.
Qed.

Hypotheses (Hla : length la = 256%nat) (Hlg : length lg = 256%nat) (Da : Forall (wnaf_digit WINDOW_A) la) (Dg : Forall (wnaf_digit WINDOW_G) lg).
Hypothesis Za : ∀ i, (bits_a <= Z.of_nat i)%Z → (i < 256)%nat → la !! i = Some 0%Z.
Hypothesis Zg : ∀ i, (bits_g <= Z.of_nat i)%Z → (i < 256)%nat → lg !! i = Some 0%Z.

Lemma ecmult_loop_spec (i : nat) (r : secp256k1_gej fe) :
  (i <= 256)%nat → jacobian r (point_scale w (combination A (le_val 1 (drop i la)) (le_val 1 (drop i lg)))) →
  ∃ r', ecmult_loop pre_a gz pre la bits_a lg bits_g i r = Some r' ∧ jacobian r' (point_scale w (combination A (le_val 1 la) (le_val 1 lg))).
Proof using All.
  revert r. induction i as [|i IH]; intros r Hi Hr; [by exists r|]. cbn [ecmult_loop].
  destruct (digit_at la bits_a i Hla ltac:(lia) Za) as (-> & La & Ea). destruct (digit_at lg bits_g i Hlg ltac:(lia) Zg) as (-> & Lg & Eg).
  pose proof (combination_on_curve A HA) as Hc.
  pose proof (gej_double_var_law r r _ (proj1 Hr) Hr (point_scale_unramified w Hgz _ (Hc _ _))) as Hd.
  rewrite point_scale_double, combination_double in Hd by done.
  destruct (ecmult_add_a_spec _ _ _ (la.[i]) ltac:(by eapply Forall_lookup_1) Hd) as (r1 & -> & H1). cbn [mbind option_bind].
  destruct (ecmult_add_g_spec _ _ _ (lg.[i]) ltac:(by eapply Forall_lookup_1) H1) as (r2 & -> & H2). cbn [mbind option_bind].
  apply IH; [lia|]. rewrite Ea, Eg, !(Z.add_comm (_.[i])). done.
Qed.
End Loop.

Lemma le_val_all_zero (l : list Z) : (∀ i, (i < length l)%nat → l !! i = Some 0%Z) → le_val 1 l = 0%Z.
Proof using. induction l as [|x l IH]; intros Hz; [done|]. cbn [le_val]. rewrite IH by (intros i Hi; apply (Hz (S i)); cbn; lia).
  assert (Some x = Some 0%Z) as [= ->] by (apply (Hz 0%nat); cbn; lia). done.
Qed.

Lemma drop_zero (l : list Z) (bits : Z) (i : nat) :
  length l = 256%nat → (∀ i, (bits <= Z.of_nat i)%Z → (i < 256)%nat → l !! i = Some 0%Z) → (bits <= Z.of_nat i)%Z → le_val 1 (drop i l) = 0%Z.
Proof using. intros Hl Hz Hi. apply le_val_all_zero. intros j Hj. rewrite length_drop in Hj. rewrite lookup_drop. apply Hz; lia. Qed.

Lemma ecmult_spec (ctx : secp256k1_ecmult_context) (d0 a : secp256k1_gej fe) (na ng : secp256k1_scalar) (A : point) :
  context_ok ctx → gej_ok d0 → jacobian a A → in_group A → A ≠ None → sc_ok na → sc_ok ng →
  ∃ r, secp256k1_ecmult ctx d0 a na ng = Some r ∧ jacobian r (combination A (sc_val na) (sc_val ng)).
Proof using HFl HCl.
  intros (pre & Epre & Hpre) Hd0 Ha HA Hf Hna Hng. unfold secp256k1_ecmult. rewrite Epre.
  pose proof (wnaf_spec na WINDOW_A Hna ltac:(unfold WINDOW_A; lia)) as Wa. destruct (secp256k1_ecmult_wnaf 256 na WINDOW_A) as [la bits_a].
  pose proof (wnaf_spec ng WINDOW_G Hng ltac:(unfold WINDOW_G; lia)) as Wg. destruct (secp256k1_ecmult_wnaf 256 ng WINDOW_G) as [lg bits_g].
  destruct Wa as (Hla & Va & Ba & Da & Za), Wg as (Hlg & Vg & Bg & Dg & Zg).
  pose proof (globalz_windowa_spec d0 a A Hd0 Ha HA Hf) as Ht. destruct (ecmult_odd_multiples_table_globalz_windowa d0 a) as [pre_a gz]. destruct Ht as (Mz & Hz & Hpa).
  cbn [mbind option_bind]. set (bits := if (bits_a <? bits_g)%Z then bits_g else bits_a).
  assert (0 <= bits <= 256 ∧ bits_a <= bits ∧ bits_g <= bits)%Z as (Hb & Hb1 & Hb2) by (unfold bits; destruct (Z.ltb_spec bits_a bits_g); lia).
  destruct (ecmult_loop_spec A gz pre_a pre la lg bits_a bits_g (proj1 HA) Mz Hz Hpa Hpre Hla Hlg Da Dg Za Zg (Z.to_nat bits) gej_set_infinity) as (r & -> & Hr); [lia| |].
  { rewrite (drop_zero la bits_a), (drop_zero lg bits_g) by (done || lia). destruct clear_spec as [Hn _]. pose proof (normalized_magnitude _ Hn).
    split; [|done]. split_and!; by apply (magnitude_le 1). }
  cbn [mbind option_bind]. eexists. split; [reflexivity|].
  assert (combination A (le_val 1 la) (le_val 1 lg) = combination A (sc_val na) (sc_val ng)) as E.
  { unfold combination. unfold wnaf_value in *. rewrite <- Va, <- Vg, (point_mul_mod _ A HA), (point_mul_mod _ generator in_group_generator). reflexivity. }
  rewrite E in Hr. destruct (combination A (sc_val na) (sc_val ng)) as [[x y]|]; [|destruct Hr as [? Hi]; cbn in Hi; by rewrite Hi].
  destruct Hr as [(Mx & My & Mrz) (Hi & Hrz & Ex & Ey)]. rewrite Hi.
  assert (rep 1 (fe_value (gej_z r) * fe_value gz) (fe_mul (gej_z r) gz)) as [M V] by (eapply rep_mul; [by split|by split|lia|lia]).
  split; [split_and!; [done|done|by apply (magnitude_le 1)]|]. cbn [gej_infinity gej_x gej_y gej_z]. rewrite V, Ex, Ey. split_and!; [done|nonzero|ring|ring].
Qed.
End Sum.

#[local] Close Scope Zmod_scope.

(** ** Properties *)

(** the digits of a scalar.  For every scalar below the order and every window of 2 to 31 bits, the loop of
    [secp256k1_ecmult_wnaf] stops within its 256 iterations, and any larger number gives the same state; there are 256 digits, each zero or odd and smaller than half the window in absolute value, zero from
    the returned position on, and their sum weighted by the powers of two is the scalar modulo the order. *)
Theorem ecmult_wnaf_correct (a : secp256k1_scalar) (w : Z) (fuel : nat) :
  sc_ok a → 2 <= w <= 31 → (256 <= fuel)%nat →
  let '(s, sign) := if negb (secp256k1_scalar_get_bits a 255 1 =? 0) then (secp256k1_scalar_negate a, -1) else (a, 1) in
  let st := wnaf_loop fuel s sign 256 w (MkWnaf (replicate 256 0) 0 0 (-1)) in
  wn_bit st = 256 ∧ wn_carry st = 0 ∧ secp256k1_ecmult_wnaf 256 a w = (wn_wnaf st, wn_last_set_bit st + 1) ∧
  length (wn_wnaf st) = 256%nat ∧ wnaf_value (wn_wnaf st) mod secp_n = sc_val a ∧ Forall (wnaf_digit w) (wn_wnaf st) ∧
  0 <= wn_last_set_bit st + 1 <= 256 ∧ (∀ i, wn_last_set_bit st + 1 <= Z.of_nat i → (i < 256)%nat → wn_wnaf st !! i = Some 0).
Proof.
  intros Ha Hw Hf. pose proof (wnaf_spec a w Ha Hw) as Hs. pose proof (wnaf_scalar a Ha) as Hc. unfold secp256k1_ecmult_wnaf in *.
  destruct (if negb _ then _ else _) as [s sign]. destruct Hc as (Hs' & Hlow & Hsign & _). change (Z.to_nat 256) with 256%nat in *.
  pose proof (wnaf_start s sign w Hsign) as H0. destruct (wnaf_loop_inv s sign w Hs' Hlow Hsign Hw 256 _ H0 ltac:(cbn; lia)) as [Hi Eb].
  rewrite (wnaf_loop_more 256 fuel) by (done || lia). set (st := wnaf_loop 256 s sign 256 w _) in *. destruct Hs as (Hl & Hv & Hb & Hd & Hz).
  split; [done|]. split; [|done]. destruct (wi_carry _ _ _ _ Hi) as [|[_ ?]]; [done|lia].
Qed.

Lemma ecmult_wnaf_correct_witness :
  let '(s, sign) := if negb (secp256k1_scalar_get_bits (MkScalar 1000 0 0 0) 255 1 =? 0) then (secp256k1_scalar_negate (MkScalar 1000 0 0 0), -1) else (MkScalar 1000 0 0 0, 1) in
  let st := wnaf_loop 300 s sign 256 5 (MkWnaf (replicate 256 0) 0 0 (-1)) in
  wn_bit st = 256 ∧ wn_carry st = 0 ∧ secp256k1_ecmult_wnaf 256 (MkScalar 1000 0 0 0) 5 = (wn_wnaf st, wn_last_set_bit st + 1) ∧
  length (wn_wnaf st) = 256%nat ∧ wnaf_value (wn_wnaf st) mod secp_n = sc_val (MkScalar 1000 0 0 0) ∧ Forall (wnaf_digit 5) (wn_wnaf st) ∧
  0 <= wn_last_set_bit st + 1 <= 256 ∧ (∀ i, wn_last_set_bit st + 1 <= Z.of_nat i → (i < 256)%nat → wn_wnaf st !! i = Some 0).
Proof. apply (ecmult_wnaf_correct (MkScalar 1000 0 0 0) 5 300); [split; [repeat split; vm_compute; congruence|reflexivity]|lia|lia]. Defined.

(** the double multiplication.  With the table of the generator built by [secp256k1_ecmult_context_build], for coordinates [a] of a
    finite point [A] of the group and scalars below the order, [secp256k1_ecmult] never reads outside its tables
    and returns coordinates of [na A + ng G]. *)
Theorem ecmult_correct (d1 d0 a : secp256k1_gej secp256k1_fe) (na ng : secp256k1_scalar) (A : point) :
  gej_ok d1 → gej_ok d0 → jacobian a A → in_group A → A ≠ None → sc_ok na → sc_ok ng →
  ∃ r, secp256k1_ecmult (ecmult_context_build secp256k1_ge_const_g d1 ecmult_context_init) d0 a na ng = Some r ∧
    jacobian r (point_add (point_mul (sc_val na) A) (point_mul (sc_val ng) generator)).
Proof.
  intros H1 H0 Ha HA Hf Hna Hng. apply ecmult_spec; try assumption. apply ecmult_context_build_spec; [exact H1|apply generator_affine].
Qed.

Lemma ecmult_correct_witness :
  ∃ r, secp256k1_ecmult (ecmult_context_build secp256k1_ge_const_g (gej_set_ge secp256k1_ge_const_g) ecmult_context_init) (gej_set_ge secp256k1_ge_const_g)
         (gej_set_ge secp256k1_ge_const_g) (MkScalar 2 0 0 0) (MkScalar 3 0 0 0) = Some r ∧
    jacobian r (point_add (point_mul 2 generator) (point_mul 3 generator)).
Proof.
  apply (ecmult_correct (gej_set_ge secp256k1_ge_const_g) (gej_set_ge secp256k1_ge_const_g) (gej_set_ge secp256k1_ge_const_g) (MkScalar 2 0 0 0) (MkScalar 3 0 0 0) generator);
    [apply generator_jacobian|apply generator_jacobian|apply generator_jacobian|apply in_group_generator|discriminate|split; [repeat split; vm_compute; congruence|reflexivity]|split; [repeat split; vm_compute; congruence|reflexivity]].
Defined.
