(* ===== verification/EcmultGen.v ===== *)
(** * Multiples of the generator

    Model of src/secp256k1/src/ecmult_gen_impl.h and of the constant-time selection of src/secp256k1/src/field_5x52_impl.h and
    src/secp256k1/src/group_impl.h. The table holds, for each of the 64 digits in base 16 of a scalar, the 16 multiples of the
    power of 16 it stands for, each row moved by a multiple of a point nobody knows the logarithm of; the moves of all rows cancel.
    A random blinding is added to the scalar and taken off the initial point. The theorems show that the result is the multiple of the
    generator for every blinding. *)
From Stdlib Require Import ZArith Lia Zdivisibility Zmod Field.
From S2P Require Import Prelude Common Field5x52 Primes Scalar4x64 SecpField SecpGroup CurveGroup CurveOrder Ecmult.
Open Scope Z_scope.

Abbreviation ge := (secp256k1_ge secp256k1_fe).
Abbreviation gej := (secp256k1_gej secp256k1_fe).
Abbreviation ge_storage := (@secp256k1_ge_storage secp256k1_fe_storage).

(** ** Constant-time selection *)

Definition secp256k1_fe_storage_cmov (r a : secp256k1_fe_storage) (flag : bool) : secp256k1_fe_storage :=
  let mask0 := u64 (Z.b2z flag + u64 (Z.lnot 0)) in
  let mask1 := u64 (Z.lnot mask0) in
  let sel x y := (x .& mask0) .| (y .& mask1) in
  MkFeStorage (sel (st_n0 r) (st_n0 a)) (sel (st_n1 r) (st_n1 a)) (sel (st_n2 r) (st_n2 a)) (sel (st_n3 r) (st_n3 a)).

Definition secp256k1_ge_storage_cmov (r a : ge_storage) (flag : bool) : ge_storage :=
  MkGeStorage (secp256k1_fe_storage_cmov (ges_x r) (ges_x a) flag) (secp256k1_fe_storage_cmov (ges_y r) (ges_y a) flag).

(** ** The context *)

(** [prec[j][i]] is entry [16 j + i]. *)
Record secp256k1_ecmult_gen_context := MkGenContext { prec : option (list ge_storage); blind : secp256k1_scalar; initial : gej }.

(** [gej_add_var] along a row: [numsbase], [numsbase + gbase], ... *)
Fixpoint gen_row (d0 gbase prev : gej) (n : nat) : list gej :=
  match n with
  | O => []
  | S n => let p := (gej_add_var d0 prev gbase).1 in p :: gen_row d0 gbase p n
  end.

(** The rows from [j] on; [todo] of them are still to come. *)
Fixpoint gen_rows (d0 nums gbase numsbase : gej) (j todo : nat) : list gej :=
  match todo with
  | O => []
  | S todo =>
      let row := numsbase :: gen_row d0 gbase numsbase 15 in
      let gbase := Nat.iter 4 (λ g, (gej_double_var g g).1) gbase in
      let numsbase := (gej_double_var numsbase numsbase).1 in
      let numsbase := if Nat.eqb j 62 then let m := gej_neg numsbase in (gej_add_var m m nums).1 else numsbase in
      row ++ gen_rows d0 nums gbase numsbase (S j) todo
  end.

(** The text The scalar for this x is unknown *)
Definition nums_b32 : list Z :=
  [84; 104; 101; 32; 115; 99; 97; 108; 97; 114; 32; 102; 111; 114; 32; 116; 104; 105; 115; 32; 120; 32; 105; 115; 32; 117; 110; 107; 110; 111; 119; 110].

Definition nums_gej : gej :=
  let nums_x := (fe_set_b32 nums_b32).1 in
  let nums_ge := (ge_set_xo_var nums_x false).1 in
  let nums := gej_set_ge nums_ge in
  (gej_add_ge_var nums nums secp256k1_ge_const_g).1.

(** The table over a point [nums]; [d0] and [prec0] are what the stack holds before. *)
Definition gen_table (d0 : gej) (prec0 : list ge) (nums : gej) : list ge_storage :=
  let gj := gej_set_ge secp256k1_ge_const_g in
  ge_to_storage <$> ge_set_all_gej_var prec0 (gen_rows d0 nums gj nums 0 64).

(** ** Multiples of the generator *)

(** [for (i = 0; i < 16; i++)]: every entry of the row is read. *)
Fixpoint gen_select (bits : Z) (i : Z) (adds : ge_storage) (row : list ge_storage) : ge_storage :=
  match row with
  | [] => adds
  | p :: row => gen_select bits (i + 1) (secp256k1_ge_storage_cmov adds p (i =? bits)) row
  end.

(** [for (j = 0; j < 64; j++)], with [todo] rounds to come *)
Fixpoint gen_loop (gnb : secp256k1_scalar) (tab : list ge_storage) (j : Z) (todo : nat) (adds : ge_storage) (r : gej) : gej :=
  match todo with
  | O => r
  | S todo =>
      let bits := secp256k1_scalar_get_bits gnb (j * 4) 4 in
      let adds := gen_select bits 0 adds (take 16 tab) in
      let add := ge_from_storage adds in
      gen_loop gnb (drop 16 tab) (j + 1) todo adds (gej_add_ge r add)
  end.

Definition ge_storage_zero : ge_storage := MkGeStorage (MkFeStorage 0 0 0 0) (MkFeStorage 0 0 0 0).

(** [None] where the table is not built *)
Definition secp256k1_ecmult_gen (ctx : secp256k1_ecmult_gen_context) (gn : secp256k1_scalar) : option gej :=
  tab ← prec ctx;
  let gnb := (secp256k1_scalar_add gn (blind ctx)).1 in
  Some (gen_loop gnb tab 0 64 ge_storage_zero (initial ctx)).

(** [s] and [b] are what the two loops over the random generator end with: a field element and a scalar, neither of them zero.
    [reset] is set where the seed is null. *)
Definition secp256k1_ecmult_gen_blind (ctx : secp256k1_ecmult_gen_context) (reset : bool) (s : secp256k1_fe) (b : secp256k1_scalar) : option secp256k1_ecmult_gen_context :=
  let ctx := if reset then MkGenContext (prec ctx) (secp256k1_scalar_set_int 1) (gej_neg (gej_set_ge secp256k1_ge_const_g)) else ctx in
  let ctx := MkGenContext (prec ctx) (blind ctx) (gej_rescale (initial ctx) s) in
  gb ← secp256k1_ecmult_gen ctx b;
  Some (MkGenContext (prec ctx) (secp256k1_scalar_negate b) gb).

Definition secp256k1_ecmult_gen_context_build (d0 : gej) (prec0 : list ge) (s : secp256k1_fe) (b : secp256k1_scalar) (ctx : secp256k1_ecmult_gen_context) :
    option secp256k1_ecmult_gen_context :=
  match prec ctx with
  | Some _ => Some ctx
  | None => secp256k1_ecmult_gen_blind (MkGenContext (Some (gen_table d0 prec0 nums_gej)) (blind ctx) (initial ctx)) true s b
  end.

(** ** Selection is a lookup *)

Definition fst_ok (a : secp256k1_fe_storage) : Prop := is_word 64 (st_n0 a) ∧ is_word 64 (st_n1 a) ∧ is_word 64 (st_n2 a) ∧ is_word 64 (st_n3 a).
Definition ges_ok (a : ge_storage) : Prop := fst_ok (ges_x a) ∧ fst_ok (ges_y a).

Lemma fe_storage_cmov_spec (r a : secp256k1_fe_storage) (flag : bool) : fst_ok r → fst_ok a → secp256k1_fe_storage_cmov r a flag = if flag then a else r.
Proof.
  destruct r as [r0 r1 r2 r3], a as [a0 a1 a2 a3]. intros (R0 & R1 & R2 & R3) (A0 & A1 & A2 & A3). cbn [st_n0 st_n1 st_n2 st_n3] in *. unfold secp256k1_fe_storage_cmov.
  assert (∀ x, is_word 64 x → x .& (2 ^ 64 - 1) = x) as Hx by (intros; rewrite land_ones_mod by lia; by apply Z.mod_small). cbn [st_n0 st_n1 st_n2 st_n3].
  destruct flag; cbn [Z.b2z].
  - change (u64 (1 + u64 (Z.lnot 0))) with 0. change (u64 (Z.lnot 0)) with (2 ^ 64 - 1). by rewrite !Z.land_0_r, !Z.lor_0_l, !Hx.
  - change (u64 (0 + u64 (Z.lnot 0))) with (2 ^ 64 - 1). change (u64 (Z.lnot (2 ^ 64 - 1))) with 0. by rewrite !Z.land_0_r, !Z.lor_0_r, !Hx.
Qed.

Lemma ge_storage_cmov_spec (r a : ge_storage) (flag : bool) : ges_ok r → ges_ok a → secp256k1_ge_storage_cmov r a flag = if flag then a else r.
Proof. intros [? ?] [? ?]. unfold secp256k1_ge_storage_cmov. rewrite !fe_storage_cmov_spec by done. destruct r, a. by destruct flag. Qed.

Lemma to_storage_words (a : secp256k1_fe) : fe_norm a → fst_ok (secp256k1_fe_to_storage a).
Proof.
  intros Ha. destruct a as [a0 a1 a2 a3 a4]. destruct Ha as (H0 & H1 & H2 & H3 & H4 & _). cbn [fe_n0 fe_n1 fe_n2 fe_n3 fe_n4] in *.
  assert (∀ x y k, 0 <= k <= 64 → 0 <= x < 2 ^ k → is_word 64 (x .| u64 (y .<< k))) as Hw.
  { intros x y k Hk Hx. rewrite pack by done. pose proof (Z.mod_pos_bound y (2 ^ (64 - k)) ltac:(apply pow2_pos; lia)). unfold is_word.
    replace (2 ^ 64) with (2 ^ (64 - k) * 2 ^ k) by (rewrite <- Z.pow_add_r by lia; f_equal; lia). nia. }
  unfold fst_ok, secp256k1_fe_to_storage, M52, M48 in *. cbn [st_n0 st_n1 st_n2 st_n3 fe_n0 fe_n1 fe_n2 fe_n3 fe_n4]. rewrite !shr_div by lia.
  assert (∀ x k, 0 <= x < 2 ^ 52 → 0 <= k <= 52 → 0 <= x / 2 ^ k < 2 ^ (52 - k)) as Hd.
  { intros x k Hx Hk. pose proof (pow2_pos k). split; [apply Z.div_pos; lia|]. apply Z.div_lt_upper_bound; [lia|].
    rewrite <- Z.pow_add_r by lia. replace (k + (52 - k)) with 52 by lia. lia. }
  split_and!; apply Hw; first [lia|apply (Hd _ 12); lia|apply (Hd _ 24); lia|apply (Hd _ 36); lia].
Qed.

Lemma gen_select_past (bits i : Z) (adds : ge_storage) (row : list ge_storage) : ges_ok adds → Forall ges_ok row → bits < i → gen_select bits i adds row = adds.
Proof.
  intros Ha Hr. revert i. induction Hr as [|p row Hp Hr IH]; intros i Hi; [done|]. cbn [gen_select]. rewrite ge_storage_cmov_spec, (proj2 (Z.eqb_neq i bits)) by (done || lia). apply IH. lia.
Qed.

Lemma gen_select_spec (bits i : Z) (adds p : ge_storage) (row : list ge_storage) :
  ges_ok adds → Forall ges_ok row → i <= bits → row !! Z.to_nat (bits - i) = Some p → gen_select bits i adds row = p.
Proof.
  intros Ha Hr. revert i. induction Hr as [|q row Hq Hr IH]; intros i Hi E; [done|]. cbn [gen_select]. rewrite ge_storage_cmov_spec by done.
  destruct (Z.eqb_spec i bits) as [->|Hne].
  - rewrite Z.sub_diag in E. injection E as ->. apply gen_select_past; [done|done|lia].
  - apply IH; [lia|]. replace (Z.to_nat (bits - i)) with (S (Z.to_nat (bits - (i + 1)))) in E by lia. exact E.
Qed.

(** ** The sum of the rows *)

(** Entry [i] of row [j] is [N + i 16^j G], finite, for a point [N] of the row. *)
Fixpoint rows_ok (j : Z) (tab : list ge_storage) (Ns : list point) : Prop :=
  match Ns with
  | [] => True
  | N :: Ns =>
      on_curve N ∧ length (take 16 tab) = 16%nat ∧ Forall ges_ok (take 16 tab) ∧
      (∀ i : nat, (i < 16)%nat → point_add N (point_mul (i * 2 ^ (4 * j)) generator) ≠ None ∧
         ∃ e, tab !! i = Some e ∧ stored e (point_add N (point_mul (i * 2 ^ (4 * j)) generator))) ∧
      rows_ok (j + 1) (drop 16 tab) Ns
  end.

Lemma sum_step (a b : Z) (S N : point) :
  on_curve S → on_curve N →
  point_add (point_add (point_mul a generator) S) (point_add N (point_mul b generator)) = point_add (point_mul (a + b) generator) (point_add S N).
Proof.
  intros HS HN. pose proof (point_mul_on_curve generator generator_on_curve) as Hg. rewrite (point_mul_add generator generator_on_curve).
  rewrite (point_add_comm N) by exact HN || apply Hg. rewrite <- (point_add_assoc (point_add (point_mul a generator) S) (point_mul b generator) N) by auto with curve.
  rewrite (point_add_assoc (point_mul a generator) S (point_mul b generator)), (point_add_comm S) by auto with curve.
  rewrite <- (point_add_assoc (point_mul a generator) (point_mul b generator) S) by auto with curve. apply point_add_assoc; auto with curve.
Qed.

Lemma gen_loop_spec (gnb : secp256k1_scalar) (tab : list ge_storage) (j : Z) (Ns : list point) (adds : ge_storage) (r : gej) (a : Z) (S : point) :
  sc_words gnb → ges_ok adds → 0 <= j → j + length Ns <= 64 → rows_ok j tab Ns → on_curve S → jacobian r (point_add (point_mul a generator) S) →
  jacobian (gen_loop gnb tab j (length Ns) adds r)
    (point_add (point_mul (a + (sc_val gnb / 2 ^ (4 * j)) mod 2 ^ (4 * length Ns) * 2 ^ (4 * j)) generator) (foldl point_add S Ns)).
Proof.
  intros Hg. revert tab j adds r a S. induction Ns as [|N Ns IH]; intros tab j adds r a S Hadds Hj Hlen Hrows HS Hr.
  - cbn [gen_loop length foldl]. rewrite Z.mod_1_r, Z.mul_0_l, Z.add_0_r. exact Hr.
  - cbn [gen_loop length foldl] in *. destruct Hrows as (HN & Hl & Hok & Hrow & Hrows).
    set (v := sc_val gnb / 2 ^ (4 * j)). pose proof (sc_words_val gnb Hg) as Rg. assert (0 <= v) as Hv by (apply Z.div_pos; [lia|apply pow2_pos; lia]).
    assert (secp256k1_scalar_get_bits gnb (j * 4) 4 = v mod 2 ^ 4) as ->.
    { unfold v. rewrite (Z.mul_comm 4 j). apply sc_get_bits_spec; [done|lia|lia|]. replace (j * 4) with (4 * j) by lia.
      change 64 with (4 * 16). rewrite Zmult_mod_distr_l. pose proof (Z.mod_pos_bound j 16 ltac:(lia)). lia. }
    pose proof (Z.mod_pos_bound v (2 ^ 4) ltac:(lia)) as Rb. set (b := v mod 2 ^ 4) in *.
    destruct (Hrow (Z.to_nat b) ltac:(lia)) as (Hfin & e & He & Hst). rewrite Z2Nat.id in Hfin, Hst by lia.
    assert (gen_select b 0 adds (take 16 tab) = e) as Esel.
    { apply gen_select_spec; [done|done|lia|]. rewrite Z.sub_0_r. by rewrite lookup_take_lt by lia. }
    rewrite Esel. assert (ges_ok e) as Heok.
    { eapply Forall_lookup_1; [exact Hok|]. rewrite lookup_take_lt; [exact He|lia]. }
    pose proof (point_mul_on_curve generator generator_on_curve) as Hgc.
    assert (jacobian (gej_add_ge r (ge_from_storage e)) (point_add (point_mul (a + b * 2 ^ (4 * j)) generator) (point_add S N))) as Hr'.
    { rewrite <- sum_step by done. apply gej_add_ge_spec; [exact Hr|exact Hst|exact Hfin|auto with curve|auto with curve]. }
    specialize (IH (drop 16 tab) (j + 1) e _ _ _ Heok ltac:(lia) ltac:(lia) Hrows (point_add_on_curve S N HS HN) Hr').
    replace (a + v mod 2 ^ (4 * Datatypes.S (length Ns)) * 2 ^ (4 * j))
      with (a + b * 2 ^ (4 * j) + sc_val gnb / 2 ^ (4 * (j + 1)) mod 2 ^ (4 * length Ns) * 2 ^ (4 * (j + 1))); [exact IH|].
    replace (4 * Datatypes.S (length Ns)) with (4 + 4 * length Ns) by lia. rewrite (low_bits_add v 4) by lia. fold b.
    replace (4 * (j + 1)) with (4 * j + 4) by lia. rewrite (Z.pow_add_r 2 (4 * j) 4) by lia. rewrite <- Z.div_div by (apply Z.pow_nonzero || apply pow2_pos; lia). fold v. lia.
Qed.

(** A built context: the points of the rows cancel, and the initial point undoes the blinding. *)
Definition gen_table_ok (tab : list ge_storage) : Prop := ∃ Ns, length Ns = 64%nat ∧ rows_ok 0 tab Ns ∧ foldl point_add None Ns = None.

Definition gen_context_ok (ctx : secp256k1_ecmult_gen_context) : Prop :=
  (∃ tab, prec ctx = Some tab ∧ gen_table_ok tab) ∧ sc_ok (blind ctx) ∧ jacobian (initial ctx) (point_mul (- sc_val (blind ctx)) generator).

Lemma ecmult_gen_spec (ctx : secp256k1_ecmult_gen_context) (gn : secp256k1_scalar) :
  gen_context_ok ctx → sc_ok gn → ∃ r, secp256k1_ecmult_gen ctx gn = Some r ∧ jacobian r (point_mul (sc_val gn) generator).
Proof.
  intros ((tab & Et & Ns & Hl & Hrows & Hsum) & Hb & Hi) Hgn. unfold secp256k1_ecmult_gen. rewrite Et. cbn [mbind option_bind]. eexists. split; [reflexivity|].
  pose proof (sc_add_spec gn (blind ctx) Hgn Hb) as Ha. destruct (secp256k1_scalar_add gn (blind ctx)) as [gnb o]. destruct Ha as (Hg & Vg & _). cbn [fst].
  rewrite <- (point_add_none_r (point_mul (- _) _)) in Hi. change None with (None : point) in Hi.
  pose proof (gen_loop_spec gnb tab 0 Ns ge_storage_zero (initial ctx) _ None (proj1 Hg) ltac:(done) ltac:(lia) ltac:(lia) Hrows I Hi) as Hr.
  rewrite Hl, Hsum, point_add_none_r in Hr. change (2 ^ (4 * 0)) with 1 in Hr. rewrite Z.div_1_r, Z.mul_1_r in Hr. pose proof (sc_words_val gnb (proj1 Hg)) as Rg.
  rewrite Z.mod_small, Vg in Hr by exact Rg. rewrite <- (point_mul_mod _ generator in_group_generator), Zplus_mod_idemp_r in Hr.
  replace (- sc_val (blind ctx) + (sc_val gn + sc_val (blind ctx))) with (sc_val gn) in Hr by lia.
  rewrite Z.mod_small in Hr by (by apply sc_ok_range). exact Hr.
Qed.

Lemma ecmult_gen_blind_spec (ctx : secp256k1_ecmult_gen_context) (tab : list ge_storage) (reset : bool) (s : secp256k1_fe) (b : secp256k1_scalar) :
  prec ctx = Some tab → gen_table_ok tab → (reset = false → gen_context_ok ctx) → fe_unit s → sc_ok b →
  ∃ ctx', secp256k1_ecmult_gen_blind ctx reset s b = Some ctx' ∧ gen_context_ok ctx'.
Proof.
  intros Et Htab Hold Hs Hb. unfold secp256k1_ecmult_gen_blind.
  set (ctx1 := if reset then MkGenContext (prec ctx) (secp256k1_scalar_set_int 1) (gej_neg (gej_set_ge secp256k1_ge_const_g)) else ctx).
  assert (gen_context_ok ctx1) as H1.
  { unfold ctx1. destruct reset; [|by apply Hold]. split; [by exists tab|]. split; [done|]. cbn [initial blind].
    change (sc_val (secp256k1_scalar_set_int 1)) with 1. rewrite point_mul_opp, point_mul_1 by exact generator_on_curve.
    apply (ge_neg_spec secp256k1_ge_const_g); [apply generator_affine|apply generator_jacobian]. }
  assert (gen_context_ok (MkGenContext (prec ctx1) (blind ctx1) (gej_rescale (initial ctx1) s))) as H2.
  { destruct H1 as (Ht & Hbl & Hi). split; [exact Ht|]. split; [exact Hbl|]. cbn [initial blind]. by apply gej_rescale_spec. }
  destruct (ecmult_gen_spec _ b H2 Hb) as (gb & Eg & Hgb). cbv zeta. rewrite Eg. cbn [mbind option_bind]. eexists. split; [reflexivity|].
  destruct (sc_negate_spec b Hb) as [Hn Vn]. split; [apply H1|]. split; [exact Hn|]. cbn [initial blind prec]. rewrite Vn.
  rewrite <- (point_mul_mod _ generator in_group_generator).
  replace ((- (- sc_val b mod secp_n)) mod secp_n) with (sc_val b); [exact Hgb|].
  pose proof (sc_ok_range b Hb). rewrite <- (Z.mod_small (sc_val b) secp_n) at 1 by lia. pose proof (Z.div_mod (- sc_val b) secp_n ltac:(done)).
  replace (- (- sc_val b mod secp_n)) with (sc_val b + (- sc_val b / secp_n) * secp_n) by lia. by rewrite Z_mod_plus_full.
Qed.

(** ** The table *)

Definition row_points (N : point) (j : Z) : list point := (λ i : nat, point_add N (point_mul (i * 2 ^ (4 * j)) generator)) <$> seq 0 16.

Fixpoint rows_points (j : Z) (Ns : list point) : list point :=
  match Ns with [] => [] | N :: Ns => row_points N j ++ rows_points (j + 1) Ns end.

Lemma gen_row_spec (d0 gbase prev : gej) (N : point) (j : Z) (k n : nat) :
  gej_ok d0 → on_curve N → jacobian gbase (point_mul (2 ^ (4 * j)) generator) → jacobian prev (point_add N (point_mul (k * 2 ^ (4 * j)) generator)) →
  Forall2 jacobian (gen_row d0 gbase prev n) ((λ i : nat, point_add N (point_mul (i * 2 ^ (4 * j)) generator)) <$> seq (S k) n).
Proof.
  intros Hd HN Hg. pose proof (point_mul_on_curve generator generator_on_curve) as Hgc. revert prev k. induction n as [|n IH]; intros prev k Hp; [constructor|]. cbn [gen_row seq fmap list_fmap].
  assert (jacobian (gej_add_var d0 prev gbase).1 (point_add N (point_mul (S k * 2 ^ (4 * j)) generator))) as Hn.
  { replace (S k * 2 ^ (4 * j)) with (k * 2 ^ (4 * j) + 2 ^ (4 * j)) by lia. rewrite (point_mul_add generator generator_on_curve).
    rewrite <- (point_add_assoc N) by done. apply gej_add_var_spec; [exact Hd|exact Hp|exact Hg|auto with curve|done]. }
  constructor; [exact Hn|]. apply IH. exact Hn.
Qed.

Lemma times_16 (g : gej) (k : Z) : jacobian g (point_mul k generator) → jacobian (Nat.iter 4 (λ g, (gej_double_var g g).1) g) (point_mul (16 * k) generator).
Proof.
  pose proof (point_mul_on_curve generator generator_on_curve) as Hgc.
  assert (∀ g k, jacobian g (point_mul k generator) → jacobian (gej_double_var g g).1 (point_mul (2 * k) generator)) as Hd.
  { intros g' k' Hg. rewrite <- (point_double_mul k' generator generator_on_curve). apply gej_double_var_spec; [apply Hg|exact Hg|apply Hgc]. }
  intros Hg. cbn [Nat.iter nat_rect]. replace (16 * k) with (2 * (2 * (2 * (2 * k)))) by lia. repeat apply Hd. exact Hg.
Qed.

(** The points of the rows from [j] on: doubled from one to the next, and made to cancel in row 63 *)
Fixpoint nums_points (nums N : point) (j todo : nat) : list point :=
  match todo with
  | O => []
  | S todo => N :: nums_points nums (if Nat.eqb j 62 then point_add (point_neg (point_double N)) nums else point_double N) (S j) todo
  end.

Lemma gej_neg_jacobian (a : gej) (P : point) : jacobian a P → jacobian (gej_neg a) (point_neg P).
Proof.
  intros Ha. destruct P as [[x y]|]; [|destruct Ha as [(Mx & My & Mz) Hi]].
  - destruct (ge_set_gej_spec secp256k1_ge_const_g a (Some (x, y)) (proj1 generator_affine) Ha) as (Hg & _). by apply (ge_neg_spec _ a (Some (x, y)) Hg).
  - destruct (negate_spec 1 (fe_normalize_weak (gej_y a))) as [Mn _]; [by apply normalize_weak_spec, (magnitude_le 4)|lia|].
    split; [|exact Hi]. split; [exact Mx|]. split; [by apply (magnitude_le 2)|exact Mz].
Qed.

Lemma gen_rows_spec (d0 nums gbase numsbase : gej) (PN N : point) (j todo : nat) :
  gej_ok d0 → on_curve PN → jacobian nums PN → on_curve N → jacobian numsbase N → jacobian gbase (point_mul (2 ^ (4 * j)) generator) →
  Forall2 jacobian (gen_rows d0 nums gbase numsbase j todo) (rows_points j (nums_points PN N j todo)) ∧ Forall on_curve (nums_points PN N j todo).
Proof.
  intros Hd HPN Hnums. revert gbase numsbase N j. induction todo as [|todo IH]; intros gbase numsbase N j HN Hb Hg; [split; constructor|]. cbn [gen_rows nums_points rows_points].
  pose proof (gej_double_var_spec numsbase numsbase N (proj1 Hb) Hb HN) as Hb2. pose proof (point_double_on_curve N HN) as Hc2.
  set (nb' := if Nat.eqb j 62 then _ else _). set (N' := if Nat.eqb j 62 then _ else _).
  assert (on_curve N' ∧ jacobian nb' N') as [HN' Hb'].
  { unfold N', nb'. destruct (Nat.eqb j 62); [|by split]. split; [auto with curve|]. cbv zeta. set (m := gej_neg _).
    assert (jacobian m (point_neg (point_double N))) as Hm by (apply gej_neg_jacobian; exact Hb2). apply gej_add_var_spec; [apply Hm|exact Hm|exact Hnums|auto with curve|exact HPN]. }
  destruct (IH (Nat.iter 4 (λ g, (gej_double_var g g).1) gbase) nb' N' (S j) HN' Hb') as [IH1 IH2].
  { replace (2 ^ (4 * S j)) with (16 * 2 ^ (4 * j)); [by apply times_16|]. replace (4 * S j) with (4 + 4 * j) by lia. rewrite Z.pow_add_r by lia. done. }
  split; [|by constructor]. replace (Z.of_nat (S j)) with (j + 1) in IH1 by lia. apply Forall2_app; [|exact IH1].
  unfold row_points. change (seq 0 16) with (0%nat :: seq 1 15). rewrite fmap_cons. assert (jacobian numsbase (point_add N (point_mul (0%nat * 2 ^ (4 * j)) generator))) as H0.
  { rewrite Z.mul_0_l. cbn [point_mul]. by rewrite point_add_none_r. }
  constructor; [exact H0|]. apply gen_row_spec; assumption.
Qed.

Lemma gen_row_length (d0 gbase prev : gej) (n : nat) : length (gen_row d0 gbase prev n) = n.
Proof. revert prev. induction n as [|n IH]; intros prev; [done|]. cbn. by rewrite IH. Qed.

Lemma gen_rows_length (d0 nums gbase numsbase : gej) (j todo : nat) : length (gen_rows d0 nums gbase numsbase j todo) = (16 * todo)%nat.
Proof.
  revert gbase numsbase j. induction todo as [|todo IH]; intros gbase numsbase j; [done|]. cbn [gen_rows]. rewrite length_app, IH. cbn [length]. rewrite gen_row_length. lia.
Qed.

Lemma nums_points_length (nums N : point) (j todo : nat) : length (nums_points nums N j todo) = todo.
Proof. revert N j. induction todo as [|todo IH]; intros N j; [done|]. cbn [nums_points length]. by rewrite IH. Qed.

Lemma row_points_length (N : point) (j : Z) : length (row_points N j) = 16%nat.
Proof. done. Qed.

Lemma ge_to_storage_words (a : ge) : ge_ok a → ges_ok (ge_to_storage a).
Proof.
  intros [Hx Hy]. destruct (normalize_spec (ge_x a)) as [Nx _]; [by apply (magnitude_le 6)|]. destruct (normalize_spec (ge_y a)) as [Ny _]; [by apply (magnitude_le 4)|].
  split; apply to_storage_words; [exact Nx|exact Ny].
Qed.

Lemma rows_points_ok (prec : list ge) (j : Z) (Ns : list point) :
  Forall2 affine prec (rows_points j Ns) → Forall on_curve Ns → Forall (λ P, P ≠ None) (rows_points j Ns) → rows_ok j (ge_to_storage <$> prec) Ns.
Proof.
  revert prec j. induction Ns as [|N Ns IH]; intros prec j Ha Hc Hf; [exact I|]. cbn [rows_points rows_ok] in *.
  apply Forall_cons_1 in Hc as [HN Hc]. apply Forall_app in Hf as [Hf1 Hf2]. apply Forall2_app_inv_r in Ha as (p1 & p2 & H1 & H2 & ->).
  pose proof (Forall2_length H1) as Hl. rewrite row_points_length in Hl. rewrite fmap_app, take_app_length', drop_app_length' by (by rewrite length_fmap).
  split; [exact HN|]. split; [by rewrite length_fmap|]. split; [|split].
  - apply Forall_fmap, Forall_lookup. intros i e Ee. destruct (Forall2_lookup_l _ _ _ _ _ H1 Ee) as (P & _ & He). apply ge_to_storage_words, He.
  - intros i Hi. assert (row_points N j !! i = Some (point_add N (point_mul (i * 2 ^ (4 * j)) generator))) as Ei.
    { unfold row_points. rewrite list_lookup_fmap, lookup_seq_lt by exact Hi. reflexivity. }
    pose proof (Forall_lookup_1 _ _ _ _ Hf1 Ei) as Hn. split; [exact Hn|]. destruct (Forall2_lookup_r _ _ _ _ _ H1 Ei) as (e & Ee & He).
    exists (ge_to_storage e). split; [rewrite lookup_app_l by (rewrite length_fmap; lia); by rewrite list_lookup_fmap, Ee|].
    destruct (point_add N _) as [P|]; [by apply ge_to_storage_spec|destruct (Hn eq_refl)].
  - by apply IH.
Qed.

(** The factors of the rows: 1, 2, 4, ... and, last, what makes them cancel *)
Fixpoint nums_factors (c : Z) (j todo : nat) : list Z :=
  match todo with O => [] | S todo => c :: nums_factors (if Nat.eqb j 62 then - (2 * c) + 1 else 2 * c) (S j) todo end.

Lemma nums_points_factors (PN : point) (c : Z) (j todo : nat) :
  on_curve PN → nums_points PN (point_mul c PN) j todo = (λ c, point_mul c PN) <$> nums_factors c j todo.
Proof.
  intros HP. revert c j. induction todo as [|todo IH]; intros c j; [done|]. cbn [nums_points nums_factors fmap list_fmap]. f_equal. rewrite <- IH. f_equal.
  destruct (Nat.eqb j 62); rewrite (point_double_mul c PN HP); [|done]. by rewrite (point_mul_add PN HP), (point_mul_1 PN HP), (point_mul_opp PN HP).
Qed.

Lemma sum_factors (PN : point) (a : Z) (cs : list Z) :
  on_curve PN → foldl point_add (point_mul a PN) ((λ c, point_mul c PN) <$> cs) = point_mul (foldl Z.add a cs) PN.
Proof. intros HP. revert a. induction cs as [|c cs IH]; intros a; [done|]. cbn [foldl fmap list_fmap]. rewrite <- (point_mul_add PN HP). apply IH. Qed.

Lemma nums_points_cancel (PN : point) : on_curve PN → foldl point_add None (nums_points PN PN 0 64) = None.
Proof.
  intros HP. pose proof (nums_points_factors PN 1 0 64 HP) as E. rewrite (point_mul_1 PN HP) in E. rewrite E. exact (sum_factors PN 0 _ HP).
Qed.

(** No entry of the table is the point at infinity. *)
Definition table_finite (PN : point) : Prop := Forall (λ P, P ≠ None) (rows_points 0 (nums_points PN PN 0 64)).

Lemma gen_table_spec (d0 nums : gej) (prec0 : list ge) (PN : point) :
  gej_ok d0 → Forall ge_ok prec0 → length prec0 = 1024%nat → on_curve PN → jacobian nums PN → table_finite PN → gen_table_ok (gen_table d0 prec0 nums).
Proof.
  intros Hd Hp Hl HP HN Hf. exists (nums_points PN PN 0 64). split; [apply nums_points_length|]. split; [|by apply nums_points_cancel].
  destruct (gen_rows_spec d0 nums (gej_set_ge secp256k1_ge_const_g) nums PN PN 0 64 Hd HP HN HP HN) as [Hr Hc].
  { change (2 ^ (4 * 0%nat)) with 1. rewrite (point_mul_1 generator generator_on_curve). apply generator_jacobian. }
  apply rows_points_ok; [|exact Hc|exact Hf]. apply ge_set_all_gej_var_spec; [exact Hr|exact Hp|]. by rewrite gen_rows_length, Hl.
Qed.

(** Over the generator itself the entries are known multiples of it. *)
Definition row_factors (c j : Z) : list Z := (λ i : nat, c + i * 2 ^ (4 * j)) <$> seq 0 16.
Fixpoint rows_factors (j : Z) (cs : list Z) : list Z := match cs with [] => [] | c :: cs => row_factors c j ++ rows_factors (j + 1) cs end.

Lemma rows_points_factors (j : Z) (cs : list Z) :
  rows_points j ((λ c, point_mul c generator) <$> cs) = (λ c, point_mul c generator) <$> rows_factors j cs.
Proof.
  revert j. induction cs as [|c cs IH]; intros j; [done|]. cbn [rows_points rows_factors]. rewrite fmap_cons. cbn [rows_points]. rewrite fmap_app, IH. f_equal.
  unfold row_points, row_factors. rewrite <- list_fmap_compose. apply list_fmap_ext. intros i x _. symmetry. apply (point_mul_add generator generator_on_curve).
Qed.

Lemma generator_table_finite : table_finite generator.
Proof.
  unfold table_finite. pose proof (nums_points_factors generator 1 0 64 generator_on_curve) as E. rewrite (point_mul_1 generator generator_on_curve) in E. rewrite E, rows_points_factors.
  apply Forall_fmap. assert (forallb (λ c, negb (c mod secp_n =? 0)) (rows_factors 0 (nums_factors 1 0 64)) = true) as Hb by (vm_compute; reflexivity).
  apply Forall_forall. intros c Hc.
  rewrite forallb_forall in Hb. specialize (Hb c Hc). intros H0. apply point_mul_infinity in H0; [|exact in_group_generator|discriminate]. apply Z.mod_divide in H0; [|done]. rewrite H0 in Hb. discriminate.
Qed.

(** The context after a first blinding, and after blinding again with each of [seeds] *)
Definition gen_context_seeded (tab : list ge_storage) (s : secp256k1_fe) (b : secp256k1_scalar) (seeds : list (secp256k1_fe * secp256k1_scalar)) : option secp256k1_ecmult_gen_context :=
  foldl (λ ctx seed, ctx ← ctx; secp256k1_ecmult_gen_blind ctx false seed.1 seed.2)
    (secp256k1_ecmult_gen_blind (MkGenContext (Some tab) (secp256k1_scalar_set_int 0) (MkGej (secp256k1_fe_set_int 0) (secp256k1_fe_set_int 0) (secp256k1_fe_set_int 0) false)) true s b) seeds.

Lemma gen_context_seeded_spec (tab : list ge_storage) (s : secp256k1_fe) (b : secp256k1_scalar) (seeds : list (secp256k1_fe * secp256k1_scalar)) :
  gen_table_ok tab → fe_unit s → sc_ok b → Forall (λ seed, fe_unit seed.1 ∧ sc_ok seed.2) seeds →
  ∃ ctx, gen_context_seeded tab s b seeds = Some ctx ∧ gen_context_ok ctx.
Proof.
  intros Ht Hs Hb Hseeds. unfold gen_context_seeded.
  destruct (ecmult_gen_blind_spec (MkGenContext (Some tab) (secp256k1_scalar_set_int 0) (MkGej (secp256k1_fe_set_int 0) (secp256k1_fe_set_int 0) (secp256k1_fe_set_int 0) false)) tab true s b
    eq_refl Ht ltac:(discriminate) Hs Hb) as (ctx & E & Hc). rewrite E. clear E. revert ctx Hc.
  induction Hseeds as [|[s' b'] seeds [Hs' Hb'] _ IH]; intros ctx Hc; [by exists ctx|]. cbn [foldl mbind option_bind fst snd].
  destruct Hc as ((tab' & Et & Ht') & Hc). destruct (ecmult_gen_blind_spec ctx tab' false s' b' Et Ht') as (ctx' & E & Hc'); [intros _; split; [by exists tab'|exact Hc]|exact Hs'|exact Hb'|].
  rewrite E. by apply IH.
Qed.

Lemma ecmult_gen_context_build_spec (d0 : gej) (prec0 : list ge) (s : secp256k1_fe) (b : secp256k1_scalar) (ctx : secp256k1_ecmult_gen_context) (PN : point) :
  gej_ok d0 → Forall ge_ok prec0 → length prec0 = 1024%nat → on_curve PN → jacobian nums_gej PN → table_finite PN → fe_unit s → sc_ok b → prec ctx = None →
  ∃ ctx', secp256k1_ecmult_gen_context_build d0 prec0 s b ctx = Some ctx' ∧ gen_context_ok ctx'.
Proof.
  intros Hd Hp Hl HP HN Hf Hs Hb E. unfold secp256k1_ecmult_gen_context_build. rewrite E. eapply ecmult_gen_blind_spec; [reflexivity|..|exact Hs|exact Hb].
  - by apply (gen_table_spec d0 nums_gej prec0 PN).
  - discriminate.
Qed.

(** There is a context as it should be, over the generator itself. *)
Lemma gen_context_exists : ∃ ctx, gen_context_ok ctx.
Proof.
  destruct (gen_context_seeded_spec (gen_table (gej_set_ge secp256k1_ge_const_g) (replicate 1024 secp256k1_ge_const_g) (gej_set_ge secp256k1_ge_const_g))
    (secp256k1_fe_set_int 1) (secp256k1_scalar_set_int 5) []) as (ctx & _ & Hc); [|exact one_unit|done|constructor|by exists ctx].
  apply (gen_table_spec _ _ _ generator); [apply generator_jacobian|apply Forall_replicate, generator_affine|apply length_replicate|exact generator_on_curve|exact generator_jacobian|exact generator_table_finite].
Qed.

(** ** Properties *)

(** a table built over any point none of whose rows meets infinity, blinded once and then again any number of times,
    always multiplies the generator: the result of [secp256k1_ecmult_gen] is the given scalar times the generator, whatever the blinding. *)
Theorem ecmult_gen_correct (d0 nums : gej) (prec0 : list ge) (PN : point) (s : secp256k1_fe) (b : secp256k1_scalar)
    (seeds : list (secp256k1_fe * secp256k1_scalar)) (gn : secp256k1_scalar) :
  gej_ok d0 → Forall ge_ok prec0 → length prec0 = 1024%nat → on_curve PN → jacobian nums PN → table_finite PN →
  fe_unit s → sc_ok b → Forall (λ seed, fe_unit seed.1 ∧ sc_ok seed.2) seeds → sc_ok gn →
  ∃ ctx r, gen_context_seeded (gen_table d0 prec0 nums) s b seeds = Some ctx ∧ secp256k1_ecmult_gen ctx gn = Some r ∧ jacobian r (point_mul (sc_val gn) generator).
Proof.
  intros Hd Hp Hl HP HN Hf Hs Hb Hseeds Hg. destruct (gen_context_seeded_spec (gen_table d0 prec0 nums) s b seeds) as (ctx & E & Hc); [by apply (gen_table_spec d0 nums prec0 PN)|done..|].
  destruct (ecmult_gen_spec ctx gn Hc Hg) as (r & Er & Hr). by exists ctx, r.
Qed.

Lemma ecmult_gen_correct_witness :
  ∃ ctx r, gen_context_seeded (gen_table (gej_set_ge secp256k1_ge_const_g) (replicate 1024 secp256k1_ge_const_g) (gej_set_ge secp256k1_ge_const_g))
      (secp256k1_fe_set_int 1) (secp256k1_scalar_set_int 5) [(secp256k1_fe_set_int 1, secp256k1_scalar_set_int 7)] = Some ctx ∧
    secp256k1_ecmult_gen ctx (secp256k1_scalar_set_int 3) = Some r ∧ jacobian r (point_mul 3 generator).
Proof.
  apply (ecmult_gen_correct (gej_set_ge secp256k1_ge_const_g) (gej_set_ge secp256k1_ge_const_g) (replicate 1024 secp256k1_ge_const_g) generator
    (secp256k1_fe_set_int 1) (secp256k1_scalar_set_int 5) [(secp256k1_fe_set_int 1, secp256k1_scalar_set_int 7)] (secp256k1_scalar_set_int 3)).
  - apply generator_jacobian.
  - apply Forall_replicate, generator_affine.
  - apply length_replicate.
  - exact generator_on_curve.
  - exact generator_jacobian.
  - exact generator_table_finite.
  - exact one_unit.
  - done.
  - apply Forall_singleton. split; [exact one_unit|done].
  - done.
Defined.
