(* ===== verification/Ecdsa.v ===== *)
(** * Signatures

    Model of secp256k1_ecdsa_sig_verify and secp256k1_ecdsa_sig_sign of src/secp256k1/src/ecdsa_impl.h and of secp256k1_ecdsa_sig_recover of
    src/secp256k1/src/modules/recovery/main_impl.h.
    Verification is shown to decide the definition of ECDSA for every key of the group, though it never
    computes the x coordinate of the point it compares; a signature that signing returns verifies, with s in the lower half, and
    recovery gives back the key that signed it. *)
From Stdlib Require Import ZArith Lia Zdivisibility Zmod Field.
From S2P Require Import Prelude Common Field5x52 Primes Scalar4x64 SecpField SecpGroup CurveGroup CurveOrder Ecmult EcmultGen.
Open Scope Z_scope.

(** ** Verification *)

Definition secp256k1_ecdsa_const_order_as_fe : secp256k1_fe :=
  SECP256K1_FE_CONST 0xFFFFFFFF 0xFFFFFFFF 0xFFFFFFFF 0xFFFFFFFE 0xBAAEDCE6 0xAF48A03B 0xBFD25E8C 0xD0364141.

Definition secp256k1_ecdsa_const_p_minus_order : secp256k1_fe :=
  SECP256K1_FE_CONST 0 0 0 1 0x45512319 0x50B75FC4 0x402DA172 0x2FC9BAEE.

Abbreviation ecmult_context := (@secp256k1_ecmult_context secp256k1_fe_storage).

(** [d0] is what the stack holds where the tables of [secp256k1_ecmult] are put. *)
Definition secp256k1_ecdsa_sig_verify (ctx : ecmult_context) (d0 : gej) (sigr sigs : secp256k1_scalar) (pubkey : ge) (message : secp256k1_scalar) : option bool :=
  if secp256k1_scalar_is_zero sigr || secp256k1_scalar_is_zero sigs then Some false else
  let sn := secp256k1_scalar_inverse_var sigs in
  let u1 := secp256k1_scalar_mul sn message in
  let u2 := secp256k1_scalar_mul sn sigr in
  let pubkeyj := gej_set_ge pubkey in
  pr ← secp256k1_ecmult ctx d0 pubkeyj u2 u1;
  if gej_infinity pr then Some false else
  let c := secp256k1_scalar_get_b32 sigr in
  let xr := (fe_set_b32 c).1 in
  if gej_eq_x_var xr pr then Some true else
  if 0 <=? secp256k1_fe_cmp_var xr secp256k1_ecdsa_const_p_minus_order then Some false else
  let xr := fe_add xr secp256k1_ecdsa_const_order_as_fe in
  Some (gej_eq_x_var xr pr).

(** The definition of ECDSA: with [w] the inverse of [s], the point [w m G + w r A] is finite and its x coordinate, modulo [n], is [r]. *)
Definition ecdsa_valid (A : point) (m r s : Z) : Prop :=
  r ≠ 0 ∧ s ≠ 0 ∧
  ∃ w x y, (s * w) mod secp_n = 1 ∧ combination A (w * r) (w * m) = Some (x, y) ∧ Zmod.unsigned x mod secp_n = r.

Lemma combination_mod (A : point) (a g : Z) : in_group A → combination A (a mod secp_n) (g mod secp_n) = combination A a g.
Proof. intros HA. unfold combination. rewrite (point_mul_mod _ A HA), (point_mul_mod _ generator in_group_generator). reflexivity. Qed.

(** The inverse is unique modulo [n]. *)
Lemma inverse_unique (s w w' : Z) : (s * w) mod secp_n = 1 → (s * w') mod secp_n = 1 → w mod secp_n = w' mod secp_n.
Proof.
  intros E E'. transitivity ((w * ((s * w') mod secp_n)) mod secp_n); [by rewrite E', Z.mul_1_r|].
  rewrite Zmult_mod_idemp_r. replace (w * (s * w')) with ((s * w) * w') by ring. by rewrite <- Zmult_mod_idemp_l, E, Z.mul_1_l.
Qed.

(** A coordinate below [p] is congruent to [r] modulo [n] only if it is [r] or [r + n]. *)
Lemma x_mod_n (x r : Z) : 0 <= x < secp_p → 0 <= r < secp_n → x mod secp_n = r ↔ x = r ∨ r < secp_p - secp_n ∧ x = r + secp_n.
Proof.
  intros Hx Hr. split.
  - intros E. pose proof (Z.div_mod x secp_n ltac:(done)). assert (0 <= x / secp_n < 2).
    { split; [apply Z.div_pos; [lia|done]|]. apply Z.div_lt_upper_bound; [done|]. unfold secp_p, secp_n in *. lia. }
    assert (x / secp_n = 0 ∨ x / secp_n = 1) as [E'|E'] by lia; rewrite E' in *; lia.
  - intros [-> |[_ ->]]; [by apply Z.mod_small|]. rewrite Z.add_mod, Z.mod_same, Z.add_0_r, Z.mod_mod by done. by apply Z.mod_small.
Qed.

Lemma unsigned_range (x : Fp) : 0 <= Zmod.unsigned x < secp_p.
Proof. pose proof (Zmod.unsigned_pos_bound x ltac:(done)). lia. Qed.

Lemma of_Z_eqb (k : Z) (x : Fp) : 0 <= k < secp_p → Zmod.eqb (Zmod.of_Z secp_p k) x = (Zmod.unsigned x =? k).
Proof. intros Hk. unfold Zmod.eqb. rewrite Zmod.unsigned_of_Z, Z.mod_small by done. apply Z.eqb_sym. Qed.

Lemma const_order_spec : fe_normalized secp256k1_ecdsa_const_order_as_fe ∧ fe_value secp256k1_ecdsa_const_order_as_fe = Zmod.of_Z secp_p secp_n.
Proof. split; by vm_compute. Qed.

Lemma const_p_minus_order_spec : fe_norm secp256k1_ecdsa_const_p_minus_order ∧ fe_val secp256k1_ecdsa_const_p_minus_order = secp_p - secp_n.
Proof. split; by vm_compute. Qed.

(** The test that avoids the inversion of the Z coordinate *)
Lemma sig_verify_x (r : secp256k1_scalar) (pr : gej) (x y : Fp) :
  sc_ok r → jacobian pr (Some (x, y)) →
  let xr := (fe_set_b32 (secp256k1_scalar_get_b32 r)).1 in
  (if gej_eq_x_var xr pr then true
   else if 0 <=? secp256k1_fe_cmp_var xr secp256k1_ecdsa_const_p_minus_order then false
   else gej_eq_x_var (fe_add xr secp256k1_ecdsa_const_order_as_fe) pr) = (Zmod.unsigned x mod secp_n =? sc_val r).
Proof.
  intros Hr Hp xr. pose proof (sc_ok_range r Hr) as Rr. destruct (sc_get_b32_spec r (proj1 Hr)) as (Lb & Bb & Eb).
  destruct (set_b32_spec (secp256k1_scalar_get_b32 r) Bb Lb) as (_ & Nx & Vx). fold xr in Nx, Vx. rewrite Eb in Nx, Vx.
  assert (secp_n < secp_p) as Hnp by (unfold secp_p, secp_n; lia).
  assert (fe_normalized xr) as Hn by (apply Nx; lia). pose proof (normalized_magnitude xr Hn) as Mx.
  assert (Zmod.unsigned (fe_value xr) = sc_val r) as Ux by (rewrite Vx, Zmod.unsigned_of_Z; apply Z.mod_small; lia).
  assert (fe_val xr = sc_val r) as Ex.
  { rewrite <- Ux. symmetry. etransitivity; [apply Zmod.unsigned_of_Z|]. apply Z.mod_small, fe_norm_range. exact Hn. }
  destruct const_order_spec as [No Vo], const_p_minus_order_spec as [Nm Vm]. pose proof (normalized_magnitude _ No) as Mo.
  destruct (add_spec 1 1 xr _ Mx Mo ltac:(lia)) as [Ms Vs]. rewrite Vx, Vo, <- Zmod.of_Z_add in Vs.
  rewrite (gej_eq_x_var_spec pr xr x y Hp), (gej_eq_x_var_spec pr _ x y Hp) by (by eapply magnitude_le; [|eassumption]).
  rewrite fe_cmp_var_spec, Ex, Vm by done. rewrite Vx, Vs, of_Z_eqb by lia. pose proof (unsigned_range x) as Rx. pose proof (x_mod_n (Zmod.unsigned x) (sc_val r) Rx Rr) as Hx.
  apply eq_true_iff_eq. rewrite (Z.eqb_eq (_ mod _)), Hx. destruct (Z.eqb_spec (Zmod.unsigned x) (sc_val r)) as [E|E]; [split; [intros _; left; exact E|intros _; reflexivity]|].
  destruct (Z.ltb_spec (sc_val r) (secp_p - secp_n)) as [Hlt|Hge]; cbn [Z.leb].
  - change (0 <=? -1) with false. cbn iota. rewrite of_Z_eqb, Z.eqb_eq by lia. lia.
  - destruct (Z.ltb_spec (secp_p - secp_n) (sc_val r)); [change (0 <=? 1) with true|change (0 <=? 0) with true]; cbn iota; split; [discriminate|lia|discriminate|lia].
Qed.

Lemma sig_verify_spec (ctx : ecmult_context) (d0 : gej) (sigr sigs m : secp256k1_scalar) (pubkey : ge) (A : point) :
  context_ok (fe := secp256k1_fe) ctx → gej_ok d0 → sc_ok sigr → sc_ok sigs → sc_ok m → affine pubkey A → in_group A → A ≠ None →
  ∃ b, secp256k1_ecdsa_sig_verify ctx d0 sigr sigs pubkey m = Some b ∧ (b = true ↔ ecdsa_valid A (sc_val m) (sc_val sigr) (sc_val sigs)).
Proof.
  intros Hctx Hd0 Hr Hs Hm Hk HA Hf. unfold secp256k1_ecdsa_sig_verify. rewrite !sc_is_zero_spec by apply Hr || apply Hs.
  destruct (Z.eqb_spec (sc_val sigr) 0) as [E|Er]; [|destruct (Z.eqb_spec (sc_val sigs) 0) as [E|Es]]; cbn [orb].
  1, 2: exists false; split; [reflexivity|]; split; [discriminate|by intros (? & ? & _)].
  destruct (sc_inverse_spec sigs Hs) as [Hi Ei]. specialize (Ei Es). unfold secp256k1_scalar_inverse_var. set (w := secp256k1_scalar_inverse sigs) in *.
  destruct (sc_mul_spec w m (proj1 Hi) (proj1 Hm)) as [H1 V1], (sc_mul_spec w sigr (proj1 Hi) (proj1 Hr)) as [H2 V2].
  destruct (ecmult_spec ctx d0 (gej_set_ge pubkey) (secp256k1_scalar_mul w sigr) (secp256k1_scalar_mul w m) A Hctx Hd0 (gej_set_ge_spec _ _ Hk) HA Hf H2 H1)
    as (pr & -> & Hp). cbn [mbind option_bind]. rewrite V1, V2, combination_mod in Hp by exact HA.
  assert (ecdsa_valid A (sc_val m) (sc_val sigr) (sc_val sigs) ↔
    ∃ x y, combination A (sc_val w * sc_val sigr) (sc_val w * sc_val m) = Some (x, y) ∧ Zmod.unsigned x mod secp_n = sc_val sigr) as Hv.
  { split; [|intros (x & y & E & Ex); split; [exact Er|]; split; [exact Es|]; exists (sc_val w), x, y; repeat split; assumption]. intros (_ & _ & w' & x & y & Ew & E & Ex). exists x, y. split; [|exact Ex].
    rewrite <- E, <- (combination_mod A (sc_val w * _)), <- (combination_mod A (w' * _)) by exact HA.
    rewrite <- !(Zmult_mod_idemp_l (sc_val w)), <- !(Zmult_mod_idemp_l w'), (inverse_unique (sc_val sigs) (sc_val w) w' Ei Ew). reflexivity. }
  destruct (combination A (sc_val w * sc_val sigr) (sc_val w * sc_val m)) as [[x y]|].
  - pose proof Hp as [_ (-> & _)]. pose proof (sig_verify_x sigr pr x y Hr Hp) as Hx. cbv zeta in Hx.
    exists (Zmod.unsigned x mod secp_n =? sc_val sigr). split.
    + rewrite <- Hx. destruct (gej_eq_x_var _ pr); [reflexivity|]. destruct (0 <=? _); reflexivity.
    + rewrite Hv, Z.eqb_eq. split; [intros E; exists x, y; split; [reflexivity|exact E]|intros (x' & y' & [= <- <-] & Ex); exact Ex].
  - destruct Hp as [_ ->]. exists false. split; [reflexivity|]. rewrite Hv. split; [discriminate|intros (x' & y' & [=] & _)].
Qed.

(** ** Signing *)

(** Returned with the success flag are r, s and the recovery id. *)
Definition secp256k1_ecdsa_sig_sign (ctx : secp256k1_ecmult_gen_context) (seckey message nonce : secp256k1_scalar) : option (bool * secp256k1_scalar * secp256k1_scalar * Z) :=
  rp ← secp256k1_ecmult_gen ctx nonce;
  let r := (ge_set_gej rp).1 in
  let rx := fe_normalize (ge_x r) in
  let ry := fe_normalize (ge_y r) in
  let b := fe_get_b32 rx in
  let '(sigr, overflow) := secp256k1_scalar_set_b32 b in
  let recid := (if overflow then 2 else 0) .| (if fe_is_odd ry then 1 else 0) in
  let n := secp256k1_scalar_mul sigr seckey in
  let n := (secp256k1_scalar_add n message).1 in
  let sigs := secp256k1_scalar_inverse nonce in
  let sigs := secp256k1_scalar_mul sigs n in
  if secp256k1_scalar_is_zero sigs then Some (false, sigr, sigs, recid) else
  if secp256k1_scalar_is_high sigs then Some (true, sigr, secp256k1_scalar_negate sigs, recid .^ 1) else
  Some (true, sigr, sigs, recid).

(** ** Recovery *)

(** [pubkey] and [d0] are what is held before where the results are put; the inner [None] is a return of 0. *)
Definition secp256k1_ecdsa_sig_recover (ctx : ecmult_context) (d0 : gej) (sigr sigs : secp256k1_scalar) (pubkey : ge) (message : secp256k1_scalar) (recid : Z) : option (option ge) :=
  if secp256k1_scalar_is_zero sigr || secp256k1_scalar_is_zero sigs then Some None else
  let brx := secp256k1_scalar_get_b32 sigr in
  let fx := (fe_set_b32 brx).1 in
  if negb (recid .& 2 =? 0) && (0 <=? secp256k1_fe_cmp_var fx secp256k1_ecdsa_const_p_minus_order) then Some None else
  let fx := if negb (recid .& 2 =? 0) then fe_add fx secp256k1_ecdsa_const_order_as_fe else fx in
  let '(x, ok) := ge_set_xo_var fx (negb (recid .& 1 =? 0)) in
  if negb ok then Some None else
  let xj := gej_set_ge x in
  let rn := secp256k1_scalar_inverse_var sigr in
  let u1 := secp256k1_scalar_mul rn message in
  let u1 := secp256k1_scalar_negate u1 in
  let u2 := secp256k1_scalar_mul rn sigs in
  qj ← secp256k1_ecmult ctx d0 xj u2 u1;
  Some (if gej_infinity qj then None else Some (ge_set_gej_var pubkey qj).1).

(** ** Signing gives a valid signature *)

Lemma combination_mul (A : point) (j ka kg : Z) : on_curve A → point_mul j (combination A ka kg) = combination A (j * ka) (j * kg).
Proof.
  intros HA. pose proof (combination_on_curve A HA) as Hc.
  assert (∀ a g a' g', point_add (combination A a g) (combination A a' g') = combination A (a + a') (g + g')) as Hadd.
  { intros a g a' g'. unfold combination at 2. rewrite <- point_add_assoc, combination_add_a, combination_add_g; [done..|apply Hc| |].
    - by apply point_mul_on_curve.
    - apply point_mul_on_curve, generator_on_curve. }
  assert (∀ a g, point_neg (combination A a g) = combination A (- a) (- g)) as Hneg.
  { intros a g. unfold combination. rewrite point_neg_add; [|by apply point_mul_on_curve|apply point_mul_on_curve, generator_on_curve].
    by rewrite (point_mul_opp A HA), (point_mul_opp generator generator_on_curve). }
  induction j as [|j IH|j IH] using Z.peano_ind; [done| |].
  - unfold Z.succ. rewrite (point_mul_succ _ (Hc ka kg)), IH, Hadd. f_equal; lia.
  - replace (Z.pred j) with (j - 1) by lia. rewrite (point_mul_pred _ (Hc ka kg)), IH, Hneg, Hadd. f_equal; lia.
Qed.

(** Over a multiple of the generator *)
Lemma combination_generator (d ka kg : Z) : combination (point_mul d generator) ka kg = point_mul (ka * d + kg) generator.
Proof. unfold combination. by rewrite (point_mul_add generator generator_on_curve), (point_mul_mul ka d generator generator_on_curve). Qed.

Lemma generator_mul_mod (a b : Z) : a mod secp_n = b mod secp_n → point_mul a generator = point_mul b generator.
Proof. intros E. by rewrite <- (point_mul_mod a generator in_group_generator), E, (point_mul_mod b generator in_group_generator). Qed.

(** What signing computes, over the integers: the nonce times the generator is [(x, y)], [r] is [x] modulo [n], and [s k = r d + m] up to the sign of [s]. *)
Lemma sig_sign_spec (ctx : secp256k1_ecmult_gen_context) (d m k : secp256k1_scalar) :
  gen_context_ok ctx → sc_ok d → sc_ok m → sc_ok k → sc_val k ≠ 0 →
  ∃ ret r s recid x y (flip : bool), secp256k1_ecdsa_sig_sign ctx d m k = Some (ret, r, s, recid) ∧
    sc_ok r ∧ sc_ok s ∧ point_mul (sc_val k) generator = Some (x, y) ∧ sc_val r = Zmod.unsigned x mod secp_n ∧
    ((if flip then - sc_val s else sc_val s) * sc_val k) mod secp_n = (sc_val r * sc_val d + sc_val m) mod secp_n ∧
    (ret = true ↔ sc_val s ≠ 0) ∧ sc_val s <= secp_n / 2 ∧
    recid = 2 * Z.b2z (secp_n <=? Zmod.unsigned x) + Z.b2z (xorb (Z.odd (Zmod.unsigned y)) flip).
Proof.
  intros Hctx Hd Hm Hk Hz. unfold secp256k1_ecdsa_sig_sign. destruct (ecmult_gen_spec ctx k Hctx Hk) as (rp & -> & Hp). cbn [mbind option_bind].
  pose proof (sc_ok_range k Hk) as Rk. destruct (point_mul (sc_val k) generator) as [[x y]|] eqn:EP.
  2: { apply (point_mul_infinity (sc_val k) generator in_group_generator) in EP; [|discriminate]. apply Z.mod_divide in EP; [|done]. rewrite Z.mod_small in EP; lia. }
  destruct (ge_set_gej_spec secp256k1_ge_const_g rp _ (proj1 generator_affine) Hp) as (Ha & _). destruct (affine_reps _ x y Ha) as (_ & [Mx Vx] & [My Vy]).
  destruct (normalize_spec (ge_x (ge_set_gej rp).1)) as [Nx Ex]; [by apply (magnitude_le 6)|]. destruct (normalize_spec (ge_y (ge_set_gej rp).1)) as [Ny Ey]; [by apply (magnitude_le 4)|].
  destruct (get_b32_spec _ Nx) as (Lb & Bb & Eb). rewrite is_odd_spec, Ey, Vy by exact Ny.
  pose proof (sc_set_b32_spec _ Bb Lb) as Hr. destruct (secp256k1_scalar_set_b32 _) as [r o]. destruct Hr as (Hr & Vr & Eo). cbn [fst snd] in *. rewrite Eb, Ex, Vx in Vr, Eo. subst o.
  destruct (sc_mul_spec r d (proj1 Hr) (proj1 Hd)) as [Hn Vn]. pose proof (sc_add_spec _ m Hn Hm) as Hs. destruct (secp256k1_scalar_add _ m) as [n' o']. destruct Hs as (Hn' & Vn' & _). cbn [fst].
  destruct (sc_inverse_spec k Hk) as [Hi Vi]. specialize (Vi Hz). set (ki := secp256k1_scalar_inverse k) in *. clearbody ki. destruct (sc_mul_spec ki n' (proj1 Hi) (proj1 Hn')) as [Hs Vs]. set (s := secp256k1_scalar_mul _ n') in *.
  assert ((sc_val s * sc_val k) mod secp_n = (sc_val r * sc_val d + sc_val m) mod secp_n) as Hsk.
  { rewrite Vs, Zmult_mod_idemp_l. replace (_ * sc_val n' * sc_val k) with (sc_val k * sc_val ki * sc_val n') by lia.
    rewrite <- Zmult_mod_idemp_l, Vi, Z.mul_1_l, Vn', Vn, Z.mod_mod, Zplus_mod_idemp_l by done. done. }
  rewrite sc_is_zero_spec, sc_is_high_spec by apply Hs. pose proof (sc_ok_range s Hs) as Rs. change (secp_n / 2) with 0x7FFFFFFFFFFFFFFFFFFFFFFFFFFFFFFF5D576E7357A4501DDFE92F46681B20A0 in *.
  destruct (Z.eqb_spec (sc_val s) 0) as [E0|E0]; [|destruct (Z.ltb_spec 0x7FFFFFFFFFFFFFFFFFFFFFFFFFFFFFFF5D576E7357A4501DDFE92F46681B20A0 (sc_val s)) as [Eh|Eh]].
  - exists false, r, s. eexists _, x, y, false. split; [reflexivity|]. split_and!; [done..| |lia|].
    + split; [discriminate|lia].
    + rewrite xorb_false_r. destruct (secp_n <=? _), (Z.odd _); reflexivity.
  - destruct (sc_negate_spec s Hs) as [Hng Vng]. assert (sc_val (secp256k1_scalar_negate s) = secp_n - sc_val s) as Vng'.
    { rewrite Vng, Z.mod_opp_l_nz by (rewrite ?Z.mod_small; lia). rewrite Z.mod_small; lia. }
    exists true, r, (secp256k1_scalar_negate s). eexists _, x, y, true. split; [reflexivity|]. split_and!; [done..| | | |].
    + rewrite <- Hsk, Vng'. rewrite <- (Z_mod_plus_full (_ * _) (sc_val k) secp_n). f_equal. lia.
    + split; [lia|done].
    + rewrite Vng'. unfold secp_n. lia.
    + rewrite xorb_true_r. destruct (secp_n <=? _), (Z.odd _); reflexivity.
  - exists true, r, s. eexists _, x, y, false. split; [reflexivity|]. split_and!; [done..| |lia|].
    + split; [lia|done].
    + rewrite xorb_false_r. destruct (secp_n <=? _), (Z.odd _); reflexivity.
Qed.

Lemma mod_mul_l (a b c : Z) : a mod secp_n = b mod secp_n → (c * a) mod secp_n = (c * b) mod secp_n.
Proof. intros E. rewrite <- (Zmult_mod_idemp_r a), E. apply Zmult_mod_idemp_r. Qed.

(** The point that verification compares is the nonce's, or its negation. *)
Lemma signed_point (d m k r s w : Z) (flip : bool) :
  ((if flip then - s else s) * k) mod secp_n = (r * d + m) mod secp_n → (s * w) mod secp_n = 1 →
  combination (point_mul d generator) (w * r) (w * m) = if flip then point_neg (point_mul k generator) else point_mul k generator.
Proof.
  intros E Hw. rewrite combination_generator. assert (∀ k', (s * k') mod secp_n = (r * d + m) mod secp_n → point_mul (w * r * d + w * m) generator = point_mul k' generator) as H.
  { intros k' E'. apply generator_mul_mod. replace (w * r * d + w * m) with (w * (r * d + m)) by lia. rewrite <- (mod_mul_l _ _ w E').
    replace (w * (s * k')) with (s * w * k') by lia. by rewrite <- Zmult_mod_idemp_l, Hw, Z.mul_1_l. }
  destruct flip; [|by apply H]. rewrite <- (point_mul_opp generator generator_on_curve). apply H. rewrite <- E. f_equal. lia.
Qed.

Lemma signed_valid (d m k r : Z) (s : secp256k1_scalar) (x y : Fp) (flip : bool) :
  sc_ok s → sc_val s ≠ 0 → r ≠ 0 → point_mul k generator = Some (x, y) → r = Zmod.unsigned x mod secp_n →
  ((if flip then - sc_val s else sc_val s) * k) mod secp_n = (r * d + m) mod secp_n → ecdsa_valid (point_mul d generator) m r (sc_val s).
Proof.
  intros Hs Es Er EP Ex E. destruct (sc_inverse_spec s Hs) as [_ Hw]. specialize (Hw Es). split; [exact Er|]. split; [exact Es|].
  exists (sc_val (secp256k1_scalar_inverse s)), x, (if flip then Zmod.opp y else y). split; [exact Hw|]. split; [|by symmetry].
  rewrite (signed_point d m k r (sc_val s) _ flip E Hw), EP. by destruct flip.
Qed.

(** ** Recovery finds the key that signed *)

(** The candidate that recovery takes for the nonce's point *)
Definition recovery_x (r recid : Z) : Z := r + (if negb (recid .& 2 =? 0) then secp_n else 0).

(** The field element that recovery lifts to the curve *)
Lemma recover_fx (r : secp256k1_scalar) (recid : Z) :
  sc_ok r →
  let fx := (fe_set_b32 (secp256k1_scalar_get_b32 r)).1 in
  let hi := negb (recid .& 2 =? 0) in
  (hi && (0 <=? secp256k1_fe_cmp_var fx secp256k1_ecdsa_const_p_minus_order)) = negb (recovery_x (sc_val r) recid <? secp_p) ∧
  rep 4 (Zmod.of_Z secp_p (recovery_x (sc_val r) recid)) (if hi then fe_add fx secp256k1_ecdsa_const_order_as_fe else fx).
Proof.
  intros Hr xr hi. unfold recovery_x. fold hi. pose proof (sc_ok_range r Hr) as Rr. destruct (sc_get_b32_spec r (proj1 Hr)) as (Lb & Bb & Eb).
  destruct (set_b32_spec (secp256k1_scalar_get_b32 r) Bb Lb) as (_ & Nx & Vx). fold xr in Nx, Vx. rewrite Eb in Nx, Vx.
  assert (secp_n < secp_p) as Hnp by (unfold secp_p, secp_n; lia).
  assert (fe_normalized xr) as Hn by (apply Nx; lia). pose proof (normalized_magnitude xr Hn) as Mx.
  assert (fe_val xr = sc_val r) as Ex.
  { pose proof (f_equal Zmod.unsigned Vx) as U. rewrite Zmod.unsigned_of_Z, Z.mod_small in U by lia. rewrite <- U. symmetry. etransitivity; [apply Zmod.unsigned_of_Z|].
    apply Z.mod_small, fe_norm_range. exact Hn. }
  destruct const_order_spec as [No Vo], const_p_minus_order_spec as [Nm Vm]. pose proof (normalized_magnitude _ No) as Mo.
  destruct (add_spec 1 1 xr _ Mx Mo ltac:(lia)) as [Ms Vs]. rewrite Vx, Vo, <- Zmod.of_Z_add in Vs.
  rewrite fe_cmp_var_spec, Ex, Vm by done. destruct hi; cbn [andb].
  - split; [|split; [apply (magnitude_le 2); [lia|exact Ms]|exact Vs]].
    destruct (Z.ltb_spec (sc_val r) (secp_p - secp_n)); [|destruct (Z.ltb_spec (secp_p - secp_n) (sc_val r))]; destruct (Z.ltb_spec (sc_val r + secp_n) secp_p); (reflexivity || lia).
  - rewrite Z.add_0_r. split; [|split; [apply (magnitude_le 1); [lia|exact Mx]|exact Vx]]. destruct (Z.ltb_spec (sc_val r) secp_p); [reflexivity|lia].
Qed.

(** Recovery fails where there is no point to lift, or where the key would be infinity; else it returns the key [r^-1 (s R - m G)]. *)
Lemma sig_recover_spec (ctx : ecmult_context) (d0 : gej) (sigr sigs m : secp256k1_scalar) (pubkey : ge) (recid : Z) (y : Fp) :
  let R := Some (Zmod.of_Z secp_p (recovery_x (sc_val sigr) recid), y) in
  context_ok (fe := secp256k1_fe) ctx → gej_ok d0 → ge_ok pubkey → sc_ok sigr → sc_ok sigs → sc_ok m → sc_val sigr ≠ 0 → sc_val sigs ≠ 0 →
  recovery_x (sc_val sigr) recid < secp_p → in_group R → Z.odd (Zmod.unsigned y) = negb (recid .& 1 =? 0) →
  ∃ v q, (sc_val sigr * v) mod secp_n = 1 ∧ secp256k1_ecdsa_sig_recover ctx d0 sigr sigs pubkey m recid = Some q ∧
    match q with Some q => affine q (combination R (v * sc_val sigs) (- (v * sc_val m))) ∧ combination R (v * sc_val sigs) (- (v * sc_val m)) ≠ None
    | None => combination R (v * sc_val sigs) (- (v * sc_val m)) = None end.
Proof.
  intros R Hctx Hd0 Hk Hr Hs Hm Er Es Hlt HR Hodd. unfold secp256k1_ecdsa_sig_recover. rewrite !sc_is_zero_spec by apply Hr || apply Hs.
  destruct (Z.eqb_spec (sc_val sigr) 0) as [E|_]; [destruct (Er E)|]. destruct (Z.eqb_spec (sc_val sigs) 0) as [E|_]; [destruct (Es E)|]. cbn [orb].
  destruct (recover_fx sigr recid Hr) as [Hc [Mf Vf]]. cbv zeta in *. rewrite Hc. rewrite (proj2 (Z.ltb_lt _ _) Hlt). cbn [negb].
  destruct (ge_set_xo_var_spec _ (negb (recid .& 1 =? 0)) Mf) as [Hok Hy]. rewrite Vf in Hok, Hy. destruct (ge_set_xo_var _ _) as [X ok]. cbn [fst snd] in *.
  assert (ok = true) as -> by (apply Hok; exists y; apply HR). cbn [negb]. destruct (Hy eq_refl) as (y' & Ha & Hcv & Ho).
  assert (y' = y) as -> by (apply (y_unique _ _ _ Hcv (proj1 HR)); congruence). fold R in Ha, Hcv.
  destruct (sc_inverse_spec sigr Hr) as [Hi Ei]. specialize (Ei Er). unfold secp256k1_scalar_inverse_var. set (w := secp256k1_scalar_inverse sigr) in *. clearbody w.
  destruct (sc_mul_spec w m (proj1 Hi) (proj1 Hm)) as [H1 V1], (sc_mul_spec w sigs (proj1 Hi) (proj1 Hs)) as [H2 V2]. destruct (sc_negate_spec _ H1) as [H3 V3].
  destruct (ecmult_spec ctx d0 (gej_set_ge X) (secp256k1_scalar_mul w sigs) (secp256k1_scalar_negate (secp256k1_scalar_mul w m)) R Hctx Hd0 (gej_set_ge_spec _ _ Ha) HR
    ltac:(discriminate) H2 H3) as (pr & -> & Hp). cbn [mbind option_bind].
  assert ((- ((sc_val w * sc_val m) mod secp_n)) mod secp_n = (- (sc_val w * sc_val m)) mod secp_n) as En.
  { rewrite <- Z.sub_0_l, Zminus_mod_idemp_r. reflexivity. }
  rewrite V3, V1, V2, En, combination_mod in Hp by exact HR. exists (sc_val w). eexists. split; [exact Ei|]. split; [reflexivity|].
  destruct (ge_set_gej_spec pubkey pr _ Hk Hp) as (_ & _ & Hq & _).
  destruct (combination R _ _) as [Q|]; [destruct Q as [qx qy], Hp as [_ (Ef & _)]; rewrite Ef; split; [exact Hq|discriminate]|]. destruct Hp as [_ ->]. reflexivity.
Qed.

Lemma recovery_x_mod (r recid : Z) : 0 <= r < secp_n → recovery_x r recid mod secp_n = r.
Proof.
  intros Hr. unfold recovery_x. destruct (negb _); [rewrite <- (Z.mul_1_l secp_n) at 1; rewrite Z_mod_plus_full|rewrite Z.add_0_r]; by apply Z.mod_small.
Qed.

Lemma recovered_combination (R : point) (r s m v w : Z) :
  in_group R → (r * v) mod secp_n = 1 → (s * w) mod secp_n = 1 →
  combination (combination R (v * s) (- (v * m))) (w * r) (w * m) = R.
Proof.
  intros HR Hv Hw. pose proof (proj1 HR) as Hc. unfold combination at 1. rewrite combination_mul, combination_add_g by exact Hc.
  rewrite <- (combination_mod R) by exact HR.
  replace ((w * r * (v * s)) mod secp_n) with 1; [replace ((w * r * - (v * m) + w * m) mod secp_n) with 0|].
  - unfold combination. rewrite (point_mul_1 R Hc). apply point_add_none_r.
  - replace (w * r * - (v * m) + w * m) with (w * m * (1 - r * v)) by lia. rewrite <- Zmult_mod_idemp_r, <- Zminus_mod_idemp_r, Hv. change ((1 - 1) mod secp_n) with 0. by rewrite Z.mul_0_r.
  - replace (w * r * (v * s)) with ((r * v) * (s * w)) by lia. by rewrite Z.mul_mod, Hv, Hw by done.
Qed.

(** A recovered key makes the signature valid. *)
Lemma recovered_valid (r s m v recid : Z) (y : Fp) :
  let R := Some (Zmod.of_Z secp_p (recovery_x r recid), y) in
  0 <= r < secp_n → r ≠ 0 → s ≠ 0 → (∃ w, (s * w) mod secp_n = 1) → recovery_x r recid < secp_p → in_group R → (r * v) mod secp_n = 1 →
  ecdsa_valid (combination R (v * s) (- (v * m))) m r s.
Proof.
  intros R Hr Er Es [w Hw] Hlt HR Hv. split; [exact Er|]. split; [exact Es|]. exists w. eexists _, y. split; [exact Hw|].
  split; [by apply recovered_combination|]. assert (0 <= recovery_x r recid) by (unfold recovery_x; destruct (negb _); unfold secp_n in *; lia).
  rewrite Zmod.unsigned_of_Z, (Z.mod_small _ secp_p) by lia. by apply recovery_x_mod.
Qed.

(** The nonce's point is the one that recovery lifts. *)
Lemma recovery_point (x y : Fp) (flip : bool) :
  let recid := 2 * Z.b2z (secp_n <=? Zmod.unsigned x) + Z.b2z (xorb (Z.odd (Zmod.unsigned y)) flip) in
  on_curve (Some (x, y)) →
  recovery_x (Zmod.unsigned x mod secp_n) recid = Zmod.unsigned x ∧
  Z.odd (Zmod.unsigned (if flip then Zmod.opp y else y)) = negb (recid .& 1 =? 0).
Proof.
  intros recid Hc. pose proof (unsigned_range x) as Rx. split.
  - unfold recovery_x. assert (negb (recid .& 2 =? 0) = (secp_n <=? Zmod.unsigned x)) as -> by (unfold recid; destruct (secp_n <=? _), (xorb _ _); reflexivity).
    destruct (Z.leb_spec secp_n (Zmod.unsigned x)); [|rewrite Z.mod_small; lia].
    replace (Zmod.unsigned x) with (Zmod.unsigned x - secp_n + 1 * secp_n) at 1 by lia. rewrite Z_mod_plus_full, Z.mod_small; [lia|]. unfold secp_p, secp_n in *. lia.
  - assert (negb (recid .& 1 =? 0) = xorb (Z.odd (Zmod.unsigned y)) flip) as -> by (unfold recid; destruct (secp_n <=? _), (xorb _ _); reflexivity).
    destruct flip; [|by rewrite xorb_false_r]. rewrite odd_opp, xorb_true_r by (by apply (no_two_torsion x)). reflexivity.
Qed.

Lemma recovered_key (d m k r s v : Z) (flip : bool) :
  ((if flip then - s else s) * k) mod secp_n = (r * d + m) mod secp_n → (r * v) mod secp_n = 1 →
  combination (if flip then point_neg (point_mul k generator) else point_mul k generator) (v * s) (- (v * m)) = point_mul d generator.
Proof.
  intros E Hv. assert (∀ k', (s * k') mod secp_n = (r * d + m) mod secp_n → combination (point_mul k' generator) (v * s) (- (v * m)) = point_mul d generator) as H.
  { intros k' E'. rewrite combination_generator. apply generator_mul_mod. replace (v * s * k' + - (v * m)) with (v * (s * k') - v * m) by lia.
    rewrite <- Zminus_mod_idemp_l, (mod_mul_l _ _ v E'), Zminus_mod_idemp_l. replace (v * (r * d + m) - v * m) with (r * v * d) by lia.
    by rewrite <- Zmult_mod_idemp_l, Hv, Z.mul_1_l. }
  destruct flip; [|by apply H]. rewrite <- (point_mul_opp generator generator_on_curve). apply H. rewrite <- E. f_equal. lia.
Qed.

Lemma sign_recover_spec (gctx : secp256k1_ecmult_gen_context) (ctx : ecmult_context) (d0 : gej) (pubkey : ge) (d m k : secp256k1_scalar) :
  gen_context_ok gctx → context_ok (fe := secp256k1_fe) ctx → gej_ok d0 → ge_ok pubkey → sc_ok d → sc_ok m → sc_ok k → sc_val d ≠ 0 → sc_val k ≠ 0 →
  ∃ ret r s recid, secp256k1_ecdsa_sig_sign gctx d m k = Some (ret, r, s, recid) ∧ sc_ok r ∧ sc_ok s ∧ (ret = true ↔ sc_val s ≠ 0) ∧ sc_val s <= secp_n / 2 ∧ 0 <= recid <= 3 ∧
    (ret = true → sc_val r ≠ 0 →
     ecdsa_valid (point_mul (sc_val d) generator) (sc_val m) (sc_val r) (sc_val s) ∧
     ∃ q, secp256k1_ecdsa_sig_recover ctx d0 r s pubkey m recid = Some (Some q) ∧ affine q (point_mul (sc_val d) generator)).
Proof.
  intros Hg Hctx Hd0 Hpk Hd Hm Hk Ed Ek. destruct (sig_sign_spec gctx d m k Hg Hd Hm Hk Ek) as (ret & r & s & recid & x & y & flip & E & Hr & Hs & EP & Vr & Es & Hret & Hlow & Eid).
  exists ret, r, s, recid. split; [exact E|]. split; [exact Hr|]. split; [exact Hs|]. split; [exact Hret|]. split; [exact Hlow|].
  split; [rewrite Eid; destruct (secp_n <=? _), (xorb _ _); cbn; lia|]. intros Hok Er. apply Hret in Hok as Hs0. split; [by apply (signed_valid _ _ (sc_val k) _ s x y flip)|].
  assert (on_curve (Some (x, y))) as Hc by (rewrite <- EP; apply point_mul_on_curve, generator_on_curve).
  destruct (recovery_point x y flip Hc) as [Hx Ho]. cbv zeta in Hx, Ho. rewrite <- Eid in Hx, Ho. rewrite <- Vr in Hx.
  set (R := if flip then point_neg (point_mul (sc_val k) generator) else point_mul (sc_val k) generator).
  assert (R = Some (Zmod.of_Z secp_p (recovery_x (sc_val r) recid), if flip then Zmod.opp y else y)) as ER.
  { unfold R. rewrite Hx, EP, Zmod.of_Z_unsigned. by destruct flip. }
  assert (in_group R) as HR.
  { unfold R. destruct flip; [rewrite <- (point_mul_opp generator generator_on_curve)|]; apply in_group_mul, in_group_generator. }
  pose proof (unsigned_range x) as Rx. rewrite ER in HR.
  destruct (sig_recover_spec ctx d0 r s m pubkey recid (if flip then Zmod.opp y else y) Hctx Hd0 Hpk Hr Hs Hm Er Hs0 ltac:(lia) HR Ho) as (v & q & Hv & -> & Hq).
  rewrite <- ER in Hq. unfold R in Hq. rewrite (recovered_key (sc_val d) _ _ (sc_val r) _ _ _ Es Hv) in Hq. destruct q as [q|]; [exists q; split; [reflexivity|apply Hq]|].
  exfalso. apply point_mul_infinity in Hq; [|exact in_group_generator|discriminate]. apply Z.mod_divide in Hq; [|done]. rewrite Z.mod_small in Hq; [by apply Ed|by apply sc_ok_range].
Qed.

(** ** Properties *)

(** C35: signing is sound and recovery undoes it.  With a nonce and a secret key that are not zero, signing returns; it reports success exactly if s is not
    zero, s is always at most half the order, and where it succeeds with an r that is not zero, verification of the signature under the public key accepts and recovery
    with the recovery id that signing returned gives the public key of the secret key. *)
Theorem ecdsa_sign_correct (gctx : secp256k1_ecmult_gen_context) (ctx : ecmult_context) (d0 : gej) (pub : ge) (d m k : secp256k1_scalar) :
  gen_context_ok gctx → context_ok (fe := secp256k1_fe) ctx → gej_ok d0 → sc_ok d → sc_ok m → sc_ok k → sc_val d ≠ 0 → sc_val k ≠ 0 →
  affine pub (point_mul (sc_val d) generator) →
  ∃ ret r s recid, secp256k1_ecdsa_sig_sign gctx d m k = Some (ret, r, s, recid) ∧ (ret = true ↔ sc_val s ≠ 0) ∧ sc_val s <= secp_n / 2 ∧ 0 <= recid <= 3 ∧
    (ret = true → sc_val r ≠ 0 →
     secp256k1_ecdsa_sig_verify ctx d0 r s pub m = Some true ∧
     ∃ q, secp256k1_ecdsa_sig_recover ctx d0 r s pub m recid = Some (Some q) ∧ affine q (point_mul (sc_val d) generator)).
Proof.
  intros Hg Hctx Hd0 Hd Hm Hk Ed Ek Hpub.
  destruct (sign_recover_spec gctx ctx d0 pub d m k Hg Hctx Hd0 (proj1 Hpub) Hd Hm Hk Ed Ek) as (ret & r & s & recid & E & Hr & Hs & Hret & Hlow & Hid & Hok).
  exists ret, r, s, recid. split; [exact E|]. split; [exact Hret|]. split; [exact Hlow|]. split; [exact Hid|]. intros H1 H2. destruct (Hok H1 H2) as [Hv Hq]. split; [|exact Hq].
  destruct (sig_verify_spec ctx d0 r s m pub (point_mul (sc_val d) generator) Hctx Hd0 Hr Hs Hm Hpub) as (b & -> & Hb); [apply in_group_mul, in_group_generator| |f_equal; by apply Hb].
  intros H0. apply point_mul_infinity in H0; [|exact in_group_generator|discriminate]. apply Z.mod_divide in H0; [|done]. rewrite Z.mod_small in H0; [by apply Ed|by apply sc_ok_range].
Qed.

Lemma ecdsa_sign_correct_witness :
  ∃ gctx ret r s recid, gen_context_ok gctx ∧
    secp256k1_ecdsa_sig_sign gctx (secp256k1_scalar_set_int 1) (secp256k1_scalar_set_int 2) (secp256k1_scalar_set_int 3) = Some (ret, r, s, recid) ∧ (ret = true ↔ sc_val s ≠ 0).
Proof.
  destruct gen_context_exists as [gctx Hg].
  assert (context_ok (fe := secp256k1_fe) (ecmult_context_build secp256k1_ge_const_g (gej_set_ge secp256k1_ge_const_g) ecmult_context_init)) as Hctx
    by (apply ecmult_context_build_spec; [apply generator_jacobian|apply generator_affine]).
  destruct (ecdsa_sign_correct gctx _ (gej_set_ge secp256k1_ge_const_g) secp256k1_ge_const_g (secp256k1_scalar_set_int 1) (secp256k1_scalar_set_int 2) (secp256k1_scalar_set_int 3) Hg Hctx)
    as (ret & r & s & recid & E & Hret & _); [apply generator_jacobian|done..|discriminate|discriminate| |exists gctx, ret, r, s, recid; split; [exact Hg|]; split; [exact E|exact Hret]].
  change (sc_val (secp256k1_scalar_set_int 1)) with 1. rewrite (point_mul_1 generator generator_on_curve). apply generator_affine.
Defined.

(** every key that recovery returns makes the signature valid.  For a signature that is not zero and a recovery id that names a point [R] of the group, recovery returns, and it returns
    either a key under which the signature is valid, or none because the key would be infinity. *)
Theorem ecdsa_recover_correct (ctx : ecmult_context) (d0 : gej) (pub : ge) (r s m : secp256k1_scalar) (recid : Z) (y : Fp) :
  context_ok (fe := secp256k1_fe) ctx → gej_ok d0 → ge_ok pub → sc_ok r → sc_ok s → sc_ok m → sc_val r ≠ 0 → sc_val s ≠ 0 →
  recovery_x (sc_val r) recid < secp_p → in_group (Some (Zmod.of_Z secp_p (recovery_x (sc_val r) recid), y)) → Z.odd (Zmod.unsigned y) = negb (recid .& 1 =? 0) →
  ∃ q A, secp256k1_ecdsa_sig_recover ctx d0 r s pub m recid = Some q ∧ ecdsa_valid A (sc_val m) (sc_val r) (sc_val s) ∧
    match q with Some q => affine q A ∧ A ≠ None | None => A = None end.
Proof.
  intros Hctx Hd0 Hp Hr Hs Hm Er Es Hlt HR Ho. destruct (sig_recover_spec ctx d0 r s m pub recid y Hctx Hd0 Hp Hr Hs Hm Er Es Hlt HR Ho) as (v & q & Hv & E & Hq).
  exists q. eexists. split; [exact E|]. split; [apply (recovered_valid _ _ _ v recid y); try assumption|exact Hq]; [by apply sc_ok_range|].
  destruct (sc_inverse_spec s Hs) as [_ Hw]. eexists. exact (Hw Es).
Qed.

Lemma ecdsa_recover_correct_witness :
  let r := (secp256k1_scalar_set_b32 (fe_get_b32 (ge_x secp256k1_ge_const_g))).1 in
  ∃ q A, secp256k1_ecdsa_sig_recover (ecmult_context_build secp256k1_ge_const_g (gej_set_ge secp256k1_ge_const_g) ecmult_context_init) (gej_set_ge secp256k1_ge_const_g)
    r (secp256k1_scalar_set_int 1) secp256k1_ge_const_g (secp256k1_scalar_set_int 2) 0 = Some q ∧ ecdsa_valid A 2 (sc_val r) 1.
Proof.
  intros r. assert (context_ok (fe := secp256k1_fe) (ecmult_context_build secp256k1_ge_const_g (gej_set_ge secp256k1_ge_const_g) ecmult_context_init)) as Hctx
    by (apply ecmult_context_build_spec; [apply generator_jacobian|apply generator_affine]).
  assert (recovery_x (sc_val r) 0 = Zmod.unsigned (fe_value (ge_x secp256k1_ge_const_g))) as Ex by (by vm_compute).
  assert (sc_ok r) as Hr by (repeat split; by vm_compute).
  destruct (ecdsa_recover_correct _ (gej_set_ge secp256k1_ge_const_g) secp256k1_ge_const_g r (secp256k1_scalar_set_int 1) (secp256k1_scalar_set_int 2) 0 (fe_value (ge_y secp256k1_ge_const_g)) Hctx)
    as (q & A & E & Hv & _).
  - apply generator_jacobian.
  - apply generator_affine.
  - exact Hr.
  - split; [repeat split; vm_compute; congruence|reflexivity].
  - split; [repeat split; vm_compute; congruence|reflexivity].
  - intros H0. vm_compute in H0. discriminate.
  - discriminate.
  - rewrite Ex. apply unsigned_range.
  - rewrite Ex, Zmod.of_Z_unsigned. exact in_group_generator.
  - vm_compute. reflexivity.
  - exists q, A. split; [exact E|exact Hv].
Defined.
