(* ===== verification/Der.v ===== *)
(** * The DER encoding of signatures

    Model of secp256k1_der_read_len, secp256k1_der_parse_integer, secp256k1_ecdsa_sig_parse and secp256k1_ecdsa_sig_serialize
    of src/secp256k1/src/ecdsa_impl.h, and the proof that the strict parser and the serializer are inverse
    to each other: an accepted string is the one shortest encoding of the scalars it stands for. *)
From Stdlib Require Import ZArith Lia.
From S2P Require Import Prelude Common Field5x52 Scalar4x64.
Open Scope Z_scope.

(** ** The strict parser

    A pointer into the input is the list of the bytes from it to [sigend]. *)

(** [while (lenleft > 0)]: the length and the bytes after it, [None] where the source returns -1 *)
Fixpoint der_len_loop (lenleft : nat) (ret : Z) (sig : list Z) : option (Z * list Z) :=
  match lenleft, sig with
  | O, _ => Some (ret, sig)
  | S _, [] => None
  | S k, b :: sig' =>
      let ret := u64 (ret .<< 8) .| b in
      if length sig <? u64 (ret + lenleft) then None else der_len_loop k ret sig'
  end.

Definition secp256k1_der_read_len (sig : list Z) : option (Z * list Z) :=
  match sig with
  | [] => None
  | b1 :: sig =>
      if b1 =? 0xFF then None else
      if b1 .& 0x80 =? 0 then Some (b1, sig) else
      if b1 =? 0x80 then None else
      let lenleft := b1 .& 0x7F in
      if length sig <? lenleft then None else
      match sig with
      | [] => None
      | b :: _ =>
          if b =? 0 then None else
          if 8 <? lenleft then None else
          '(ret, sig) ← der_len_loop (Z.to_nat lenleft) 0 sig;
          if ret <? 128 then None else Some (i32 ret, sig)
      end
  end.

(** Skip leading zero bytes. *)
Fixpoint skip_zeros (l : list Z) : list Z :=
  match l with b :: l' => if b =? 0 then skip_zeros l' else l | [] => [] end.

(** [unsigned char ra[32] = {0}; memcpy(ra + 32 - rlen, ...)] *)
Definition pad32 (l : list Z) : list Z := replicate (32 - length l) 0 ++ l.

(** The scalar, zero if the integer is negative or too large, and the bytes after it *)
Definition secp256k1_der_parse_integer (sig : list Z) : option (secp256k1_scalar * list Z) :=
  match sig with
  | [] => None
  | tag :: sig =>
      if negb (tag =? 0x02) then None else
      '(rlen, sig) ← secp256k1_der_read_len sig;
      if (rlen <=? 0) || (length sig <? rlen) then None else
      if (sig.[0] =? 0x00) && (1 <? rlen) && (sig.[1] .& 0x80 =? 0x00) then None else
      if (sig.[0] =? 0xFF) && (1 <? rlen) && (sig.[1] .& 0x80 =? 0x80) then None else
      let overflow := sig.[0] .& 0x80 =? 0x80 in
      let r := skip_zeros (take (Z.to_nat rlen) sig) in
      let overflow := if 32 <? length r then true else overflow in
      let '(s, overflow) := if overflow then (secp256k1_scalar_set_int 0, true) else secp256k1_scalar_set_b32 (pad32 r) in
      let s := if overflow then secp256k1_scalar_set_int 0 else s in
      Some (s, drop (Z.to_nat rlen) sig)
  end.

Definition secp256k1_ecdsa_sig_parse (sig : list Z) : option (secp256k1_scalar * secp256k1_scalar) :=
  match sig with
  | [] => None
  | tag :: sig =>
      if negb (tag =? 0x30) then None else
      '(rlen, sig) ← secp256k1_der_read_len sig;
      if (rlen <? 0) || (length sig <? rlen) then None else
      if negb (rlen =? length sig) then None else
      '(rr, sig) ← secp256k1_der_parse_integer sig;
      '(rs, sig) ← secp256k1_der_parse_integer sig;
      match sig with [] => Some (rr, rs) | _ => None end
  end.

(** ** Serialization *)

(** [while (lenR > 1 && rp[0] == 0 && rp[1] < 0x80)] *)
Fixpoint der_trim (l : list Z) : list Z :=
  match l with
  | a :: ((b :: _) as l') => if (a =? 0) && (b <? 0x80) then der_trim l' else l
  | _ => l
  end.

(** The result, the size, and the bytes, written only if they fit into [size] *)
Definition secp256k1_ecdsa_sig_serialize (size : Z) (ar as_ : secp256k1_scalar) : bool * Z * list Z :=
  let rp := der_trim (0 :: secp256k1_scalar_get_b32 ar) in
  let sp := der_trim (0 :: secp256k1_scalar_get_b32 as_) in
  let lenR := Z.of_nat (length rp) in
  let lenS := Z.of_nat (length sp) in
  if size <? 6 + lenS + lenR then (false, 6 + lenS + lenR, []) else
  (true, 6 + lenS + lenR, [0x30; 4 + lenS + lenR; 0x02; lenR] ++ rp ++ [0x02; lenS] ++ sp).

(** ** Shortest encodings *)

Lemma byte_cases (P : Z → bool) : forallb P (seqZ 0 256) = true → ∀ x, is_byte x → P x = true.
Proof. intros Hf x [H0 H1]. apply (proj1 (forallb_forall P _) Hf). apply list_elem_of_In, elem_of_seqZ. lia. Qed.

Lemma sign_bit_test (x : Z) : is_byte x → (x .& 0x80 =? 0) = (x <? 128) ∧ (x .& 0x80 =? 0x80) = (128 <=? x).
Proof.
  intros Hx. pose proof (byte_cases (λ x, eqb (x .& 0x80 =? 0) (x <? 128) && eqb (x .& 0x80 =? 0x80) (128 <=? x)) ltac:(by vm_compute) x Hx) as H.
  apply andb_true_iff in H as [H1 H2]. split; by apply eqb_prop.
Qed.

Lemma be_val_cons (a : Z) (l : list Z) : be_val (a :: l) = a * 2 ^ (8 * length l) + be_val l.
Proof. change (a :: l) with ([a] ++ l). rewrite be_val_app. unfold be_val at 1. cbn. lia. Qed.

Lemma be_val_range (l : list Z) : bytes_ok l → 0 <= be_val l < 2 ^ (8 * length l).
Proof. intros Hl. unfold be_val. rewrite <- (length_reverse l). apply (le_val_range 8); [lia|by apply Forall_reverse]. Qed.

(** The octets of a number that is not negative, with no octet to spare *)
Definition der_minimal (c : list Z) : Prop :=
  bytes_ok c ∧ match c with [] => False | a :: t => a < 128 ∧ (a = 0 → match t with [] => True | b :: _ => 128 <= b end) end.

Lemma der_minimal_range (c : list Z) :
  der_minimal c → be_val c < 2 ^ (8 * length c - 1) ∧ (length c = 1%nat ∨ 2 ^ (8 * length c - 9) <= be_val c).
Proof.
  intros [Hb Hc]. destruct c as [|a t]; [done|]. destruct Hc as [Ha Hz]. apply list.Forall_cons in Hb as [[Ha0 _] Ht].
  pose proof (be_val_range t Ht) as Rt. rewrite be_val_cons. cbn [length]. set (k := length t) in *.
  assert (2 ^ (8 * S k - 1) = 128 * 2 ^ (8 * k)) as E1 by (change 128 with (2 ^ 7); rewrite <- Z.pow_add_r by lia; f_equal; lia).
  split; [rewrite E1; nia|]. destruct t as [|b t]; [by left|right]. unfold k in *. cbn [length] in *. set (j := length t) in *.
  assert (2 ^ (8 * S j) = 2 * 2 ^ (8 * S (S j) - 9)) as E2 by (rewrite <- Z.pow_succ_r by lia; f_equal; lia).
  assert (2 ^ (8 * S (S j) - 9) = 128 * 2 ^ (8 * j)) as E3 by (change 128 with (2 ^ 7); rewrite <- Z.pow_add_r by lia; f_equal; lia).
  destruct (Z.eq_dec a 0) as [->|Hn]; [|nia]. specialize (Hz eq_refl). apply list.Forall_cons in Ht as [_ Ht]. pose proof (be_val_range t Ht).
  rewrite be_val_cons. fold j. nia.
Qed.

Lemma der_minimal_length (c d : list Z) : der_minimal c → der_minimal d → be_val c = be_val d → (length c <= length d)%nat.
Proof.
  intros Hc Hd E. apply Nat.nlt_ge. intros Hlt. destruct (der_minimal_range c Hc) as [_ [H1|Hc2]]; [destruct Hd as [_ Hd]; destruct d; [done|cbn in *; lia]|].
  destruct (der_minimal_range d Hd) as [Hd1 _]. assert (2 ^ (8 * length d - 1) <= 2 ^ (8 * length c - 9)) by (apply Z.pow_le_mono_r; lia). lia.
Qed.

Lemma der_minimal_unique (c d : list Z) : der_minimal c → der_minimal d → be_val c = be_val d → c = d.
Proof.
  intros Hc Hd E. apply be_val_inj; [apply Hc|apply Hd| |done]. apply Nat.le_antisymm; by apply der_minimal_length.
Qed.

Lemma der_trim_spec (a : Z) (l : list Z) :
  bytes_ok (a :: l) → a < 128 →
  der_minimal (der_trim (a :: l)) ∧ be_val (der_trim (a :: l)) = be_val (a :: l) ∧ (length (der_trim (a :: l)) <= S (length l))%nat.
Proof.
  revert a. induction l as [|b l IH]; intros a Hb Ha; [done|]. pose proof (proj2 (proj1 (list.Forall_cons _ _ _) Hb)) as Hb'.
  change (der_trim (a :: b :: l)) with (if (a =? 0) && (b <? 0x80) then der_trim (b :: l) else a :: b :: l).
  destruct (Z.eqb_spec a 0) as [->|Hn]; cbn [andb]; [destruct (Z.ltb_spec b 128) as [Hlt|Hge]|].
  - destruct (IH b Hb' Hlt) as (IH1 & IH2 & IH3). split_and!; [done| |cbn [length]; lia]. rewrite IH2, (be_val_cons 0). lia.
  - by split_and!.
  - split_and!; [|done|done]. split; [done|]. by split.
Qed.

Lemma skip_zeros_spec (l : list Z) :
  bytes_ok l → bytes_ok (skip_zeros l) ∧ be_val (skip_zeros l) = be_val l ∧ (length (skip_zeros l) <= length l)%nat ∧
  (skip_zeros l = [] ∨ 2 ^ (8 * (length (skip_zeros l) - 1)) <= be_val l).
Proof.
  induction l as [|b l IH]; intros Hb; [split_and!; auto|]. pose proof (proj1 (list.Forall_cons _ _ _) Hb) as [[H0 _] Hb']. cbn [skip_zeros].
  destruct (Z.eqb_spec b 0) as [->|Hn].
  - destruct (IH Hb') as (B & E & L & M). rewrite be_val_cons, Z.mul_0_l, Z.add_0_l. split_and!; [done|done|cbn [length]; lia|done].
  - split_and!; [done|done|done|right]. rewrite be_val_cons. pose proof (be_val_range l Hb'). cbn [length].
    replace (8 * (S (length l) - 1)) with (8 * length l) by lia. nia.
Qed.

Lemma pad32_spec (l : list Z) : bytes_ok l → (length l <= 32)%nat → bytes_ok (pad32 l) ∧ length (pad32 l) = 32%nat ∧ be_val (pad32 l) = be_val l.
Proof.
  intros Hb Hl. unfold pad32. split_and!.
  - apply Forall_app. split; [by apply Forall_replicate|done].
  - rewrite length_app, length_replicate. lia.
  - rewrite be_val_app. unfold be_val at 1. rewrite reverse_replicate, le_val_replicate0. lia.
Qed.

(** ** What the parser accepts *)

Lemma read_len_short (len : Z) (rest : list Z) : 0 <= len < 128 → secp256k1_der_read_len (len :: rest) = Some (len, rest).
Proof.
  intros Hl. cbn [secp256k1_der_read_len]. destruct (sign_bit_test len) as [-> _]; [split; lia|].
  destruct (Z.eqb_spec len 0xFF); [lia|]. by rewrite (proj2 (Z.ltb_lt len 128)) by lia.
Qed.

Lemma der_len_loop_inv (k : nat) (ret r : Z) (sig rest : list Z) :
  bytes_ok sig → der_len_loop (S k) ret sig = Some (r, rest) → 0 <= r < 2 ^ 64 ∧ (r <= length rest ∨ r = 2 ^ 64 - 1).
Proof.
  revert ret sig. induction k as [|k IH]; intros ret [|b sig] Hb E; try done; apply list.Forall_cons in Hb as [Hb0 Hb];
    cbn [der_len_loop] in E; match type of E with context [?x <? ?y] => destruct (Z.ltb_spec x y) as [|Hle] end; try done; cbn [length] in Hle.
  - injection E as <- <-. assert (u64 (ret .<< 8) .| b = u64 (ret .<< 8) + b ∧ u64 (ret .<< 8) mod 2 ^ 8 = 0) as [E Em].
    { assert (u64 (ret .<< 8) mod 2 ^ 8 = 0) as Em.
      { unfold u64, wrap. rewrite shl_mul by lia. Z.div_mod_to_equations. lia. }
      split; [|done]. rewrite Z.lor_comm, (lor_add' b _ 8), Z.add_comm; (lia || done). }
    rewrite E in *. destruct Hb0 as [Hb0 Hb1]. pose proof (wrap_range 64 (ret .<< 8) ltac:(lia)) as R. fold (u64 (ret .<< 8)) in R.
    assert (u64 (ret .<< 8) + b < 2 ^ 64) as Hlt.
    { pose proof (Z.div_mod (u64 (ret .<< 8)) (2 ^ 8) ltac:(lia)). assert (u64 (ret .<< 8) / 2 ^ 8 < 2 ^ 56) by (apply Z.div_lt_upper_bound; lia). lia. }
    split; [lia|]. destruct (Z.eq_dec (u64 (ret .<< 8) + b) (2 ^ 64 - 1)) as [|Hne]; [by right|left].
    unfold u64 at 1 in Hle. rewrite wrap_small in Hle by (split; lia). lia.
  - by apply (IH _ _ Hb E).
Qed.

Lemma der_len_loop_length (k : nat) (ret r : Z) (sig rest : list Z) : der_len_loop k ret sig = Some (r, rest) → (length rest <= length sig)%nat.
Proof.
  revert ret sig. induction k as [|k IH]; intros ret sig E; [by injection E as _ <-|]. destruct sig as [|b sig]; [done|]. cbn [der_len_loop] in E.
  destruct (_ <? _); [done|]. apply IH in E. cbn [length]. lia.
Qed.

Lemma read_len_inv (len : Z) (sig rest : list Z) :
  bytes_ok sig → length sig < 2 ^ 31 → secp256k1_der_read_len sig = Some (len, rest) → (0 <= len < 128 ∧ sig = len :: rest) ∨ len < 0 ∨ 128 <= len.
Proof.
  intros Hb Hl. destruct sig as [|b1 sig]; [done|]. apply list.Forall_cons in Hb as [Hb1 Hb]. cbn [secp256k1_der_read_len length] in *.
  destruct (Z.eqb_spec b1 0xFF) as [|Hff]; [done|]. destruct (sign_bit_test b1 Hb1) as [-> _].
  destruct (Z.ltb_spec b1 128) as [Hs|Hge]; [intros [= <- <-]; left; split; [destruct Hb1; lia|done]|].
  destruct (Z.eqb_spec b1 0x80) as [|H80]; [done|]. destruct (Z.ltb_spec (length sig) (b1 .& 0x7F)); [done|].
  destruct sig as [|b sig]; [done|]. destruct (b =? 0); [done|]. destruct (8 <? _); [done|].
  assert (∃ k, Z.to_nat (b1 .& 0x7F) = S k) as [k ->].
  { pose proof (byte_cases (λ x, (x <=? 128) || (0 <? x .& 0x7F)) ltac:(by vm_compute) b1 Hb1) as Hk. cbn beta in Hk.
    apply orb_true_iff in Hk as [Hk|Hk]; [apply Z.leb_le in Hk; lia|]. apply Z.ltb_lt in Hk. exists (Z.to_nat (b1 .& 0x7F) - 1)%nat. lia. }
  destruct (der_len_loop (S k) 0 (b :: sig)) as [[r rest']|] eqn:E; [|done]. cbn [mbind option_bind].
  destruct (Z.ltb_spec r 128) as [|H128]; [done|]. intros [= <- <-]. right. pose proof (der_len_loop_length _ _ _ _ _ E) as Hl'.
  destruct (der_len_loop_inv k 0 r _ _ Hb E) as [R [Hr| ->]]; [|by left]. right. unfold i32. rewrite signed_small; [done|lia|]. cbn [length] in *. lia.
Qed.

(** The scalar of the octets [c] of an integer, given its sign bit *)
Definition integer_scalar (c : list Z) (negative : bool) : secp256k1_scalar :=
  let r := skip_zeros c in
  let overflow := if 32 <? length r then true else negative in
  let '(s, overflow) := if overflow then (secp256k1_scalar_set_int 0, true) else secp256k1_scalar_set_b32 (pad32 r) in
  if overflow then secp256k1_scalar_set_int 0 else s.

Lemma scalar_zero : sc_ok (secp256k1_scalar_set_int 0) ∧ sc_val (secp256k1_scalar_set_int 0) = 0.
Proof. done. Qed.

Lemma integer_scalar_spec (c : list Z) (negative : bool) :
  bytes_ok c → sc_ok (integer_scalar c negative) ∧ sc_val (integer_scalar c negative) = if negative then 0 else if be_val c <? secp_n then be_val c else 0.
Proof.
  intros Hb. destruct scalar_zero as [Z0 V0]. unfold integer_scalar. destruct (skip_zeros_spec c Hb) as (B & E & L & M).
  destruct (Z.ltb_spec 32 (length (skip_zeros c))) as [Hlt|Hle].
  - rewrite V0. split; [done|]. destruct negative; [done|]. destruct M as [M|M]; [rewrite M in Hlt; cbn in Hlt; lia|].
    assert (2 ^ 256 <= 2 ^ (8 * (length (skip_zeros c) - 1))) by (apply Z.pow_le_mono_r; lia).
    destruct (Z.ltb_spec (be_val c) secp_n); [|done]. unfold secp_n in *. lia.
  - destruct negative; [by rewrite V0|]. destruct (pad32_spec (skip_zeros c) B ltac:(lia)) as (Bp & Lp & Vp).
    destruct (sc_set_b32_spec _ Bp Lp) as (Hok & Hv & Ho). destruct (secp256k1_scalar_set_b32 _) as [s o]. cbn [fst snd] in *. subst o.
    rewrite Vp, E in *. destruct (Z.leb_spec secp_n (be_val c)), (Z.ltb_spec (be_val c) secp_n); try lia; [done|]. split; [done|].
    rewrite Hv. apply Z.mod_small. pose proof (be_val_range c Hb). lia.
Qed.

Lemma parse_integer_eq (tag : Z) (sig : list Z) :
  secp256k1_der_parse_integer (tag :: sig) =
  if negb (tag =? 0x02) then None else
  '(rlen, sig) ← secp256k1_der_read_len sig;
  if (rlen <=? 0) || (length sig <? rlen) then None else
  if (sig.[0] =? 0x00) && (1 <? rlen) && (sig.[1] .& 0x80 =? 0x00) then None else
  if (sig.[0] =? 0xFF) && (1 <? rlen) && (sig.[1] .& 0x80 =? 0x80) then None else
  Some (integer_scalar (take (Z.to_nat rlen) sig) (sig.[0] .& 0x80 =? 0x80), drop (Z.to_nat rlen) sig).
Proof.
  cbn [secp256k1_der_parse_integer]. destruct (negb _); [done|]. destruct (secp256k1_der_read_len sig) as [[rlen sig']|]; [|done]. cbn [mbind option_bind].
  repeat (destruct (_ || _) || destruct (_ && _)); try done. unfold integer_scalar. destruct (if 32 <? _ then _ else _); [done|]. by destruct (secp256k1_scalar_set_b32 _).
Qed.

Lemma parse_integer_minimal (c rest : list Z) :
  der_minimal c → (length c < 128)%nat →
  ∃ s, secp256k1_der_parse_integer (0x02 :: Z.of_nat (length c) :: c ++ rest) = Some (s, rest) ∧ sc_ok s ∧
    sc_val s = if be_val c <? secp_n then be_val c else 0.
Proof.
  intros Hc Hl. rewrite parse_integer_eq, read_len_short by lia. cbn [negb mbind option_bind]. change (negb (2 =? 2)) with false. cbn iota.
  rewrite length_app, Nat2Z.id, take_app_length, drop_app_length. destruct (integer_scalar_spec c false (proj1 Hc)) as [Hok Hv].
  destruct Hc as [Hb Hc]. destruct c as [|a t]; [done|]. destruct Hc as [Ha Hz]. apply list.Forall_cons in Hb as [Ba Bt]. 
  rewrite (proj2 (Z.leb_gt _ 0)), (proj2 (Z.ltb_ge _ _)) by (cbn [length]; lia). cbn [orb]. change (((a :: t) ++ rest).[0]) with a.
  destruct (sign_bit_test a Ba) as [_ ->]. rewrite (proj2 (Z.leb_gt 128 a)) by lia.
  assert ((a =? 0) && (1 <? length (a :: t)) && (((a :: t) ++ rest).[1] .& 128 =? 0) = false) as ->.
  { destruct (Z.eqb_spec a 0) as [E|]; [|done]. specialize (Hz E). destruct t as [|b t]; [done|]. change (((a :: b :: t) ++ rest).[1]) with b.
    apply list.Forall_cons in Bt as [Bb _]. destruct (sign_bit_test b Bb) as [-> _]. rewrite (proj2 (Z.ltb_ge b 128)) by lia. by rewrite andb_false_r. }
  destruct (Z.eqb_spec a 0xFF); [lia|]. cbn [andb]. eexists. split; [reflexivity|]. done.
Qed.

Lemma der_len_loop_bytes (k : nat) (ret r : Z) (sig rest : list Z) : bytes_ok sig → der_len_loop k ret sig = Some (r, rest) → bytes_ok rest.
Proof.
  revert ret sig. induction k as [|k IH]; intros ret sig Hb E; [by injection E as _ <-|]. destruct sig as [|b sig]; [done|]. cbn [der_len_loop] in E.
  destruct (_ <? _); [done|]. apply list.Forall_cons in Hb as [_ Hb]. by apply IH in E.
Qed.

Lemma read_len_bytes (len : Z) (sig rest : list Z) : bytes_ok sig → secp256k1_der_read_len sig = Some (len, rest) → bytes_ok rest.
Proof.
  intros Hb. destruct sig as [|b1 sig]; [done|]. apply list.Forall_cons in Hb as [_ Hb]. cbn [secp256k1_der_read_len].
  destruct (_ =? _); [done|]. destruct (_ =? _); [by intros [= _ <-]|]. destruct (_ =? _); [done|]. destruct (_ <? _); [done|].
  destruct sig as [|b sig]; [done|]. destruct (_ =? _); [done|]. destruct (_ <? _); [done|].
  destruct (der_len_loop _ 0 (b :: sig)) as [[r rest']|] eqn:E; [|done]. cbn [mbind option_bind]. destruct (_ <? _); [done|]. intros [= _ <-].
  by apply der_len_loop_bytes in E.
Qed.

Lemma parse_integer_inv (sig rest : list Z) (s : secp256k1_scalar) :
  bytes_ok sig → length sig < 2 ^ 31 → secp256k1_der_parse_integer sig = Some (s, rest) → sc_val s ≠ 0 →
  ∃ c, der_minimal c ∧ (length c < 128)%nat ∧ sig = 0x02 :: Z.of_nat (length c) :: c ++ rest ∧ be_val c = sc_val s ∧ sc_ok s.
Proof.
  intros Hb Hl E Hs. destruct sig as [|tag sig]; [done|]. rewrite parse_integer_eq in E. apply list.Forall_cons in Hb as [_ Hb]. cbn [length] in Hl.
  destruct (Z.eqb_spec tag 2) as [->|]; [|done]. cbn [negb] in E. destruct (secp256k1_der_read_len sig) as [[rlen sig']|] eqn:Er; [|done].
  cbn [mbind option_bind] in E. destruct (Z.leb_spec rlen 0) as [|Hr0]; [done|]. destruct (Z.ltb_spec (length sig') rlen) as [|Hr]; [done|]. cbn [orb] in E.
  assert (bytes_ok sig') as Hb' by (by eapply read_len_bytes). pose proof (read_len_inv rlen sig sig' Hb ltac:(lia) Er) as Hi.
  set (c := take (Z.to_nat rlen) sig') in *. assert (length c = Z.to_nat rlen) as Lc by (unfold c; rewrite length_take; lia).
  assert (bytes_ok c) as Bc by (by apply Forall_take).
  assert (∃ a t, c = a :: t ∧ sig'.[0] = a ∧ (∀ b t', t = b :: t' → sig'.[1] = b)) as (a & t & Ec & E0 & E1).
  { unfold c in *. destruct sig' as [|a sig']; [cbn in *; lia|]. replace (Z.to_nat rlen) with (S (Z.to_nat rlen - 1)) in * by lia.
    exists a, (take (Z.to_nat rlen - 1) sig'). split_and!; [done|done|]. intros b t' Et. destruct sig' as [|b' sig']; [by rewrite take_nil in Et|].
    destruct (Z.to_nat rlen - 1)%nat; [done|]. by injection Et as -> _. }
  rewrite E0 in E. rewrite Ec in Bc. apply list.Forall_cons in Bc as [Ba Bt]. 
  destruct ((a =? 0) && (1 <? rlen) && (sig'.[1] .& 128 =? 0)) eqn:Ez; [done|]. destruct ((a =? 255) && _ && _); [done|].
  injection E as <- <-. destruct (sign_bit_test a Ba) as [_ Esg]. rewrite Esg in *. assert (bytes_ok c) as Bc by (rewrite Ec; by constructor).
  destruct (integer_scalar_spec c (128 <=? a) Bc) as [Hok Hv]. rewrite Hv in Hs. rewrite Hv.
  destruct (Z.leb_spec 128 a) as [|Ha]; [done|]. destruct (Z.ltb_spec (be_val c) secp_n) as [Hn|]; [|done].
  assert (der_minimal c) as Hm.
  { split; [done|]. rewrite Ec. split; [done|]. intros ->. destruct t as [|b t]; [done|]. rewrite (E1 b t eq_refl) in Ez.
    apply list.Forall_cons in Bt as [Bb _]. destruct (sign_bit_test b Bb) as [Eb _]. rewrite Eb in Ez. rewrite Ec in Lc. cbn [length] in Lc.
    rewrite (proj2 (Z.ltb_lt 1 rlen)) in Ez by lia. cbn in Ez. by apply Z.ltb_ge. }
  exists c. assert (rlen < 128) as H128.
  { apply Z.nle_gt. intros Hge. destruct (der_minimal_range c Hm) as [_ [H1|H1]]; [lia|].
    assert (2 ^ 256 <= 2 ^ (8 * length c - 9)) by (apply Z.pow_le_mono_r; lia). unfold secp_n in Hn. lia. }
  destruct Hi as [[_ ->]|[?|?]]; [|lia|lia]. split_and!; [done|lia| |done|done].
  rewrite Lc, Z2Nat.id by lia. unfold c. by rewrite take_drop.
Qed.

(** ** Both directions *)

(** The sequence of two integers with the octets [c] and [d] *)
Definition der_pair (c d : list Z) : list Z :=
  [0x30; 4 + Z.of_nat (length d) + Z.of_nat (length c); 0x02; Z.of_nat (length c)] ++ c ++ [0x02; Z.of_nat (length d)] ++ d.

Lemma length_der_pair (c d : list Z) : Z.of_nat (length (der_pair c d)) = 6 + Z.of_nat (length d) + Z.of_nat (length c).
Proof. unfold der_pair. rewrite !length_app. cbn [length]. lia. Qed.

Lemma sig_parse_pair (c d : list Z) :
  der_minimal c → der_minimal d → 4 + length d + length c < 128 →
  ∃ r s, secp256k1_ecdsa_sig_parse (der_pair c d) = Some (r, s) ∧ sc_ok r ∧ sc_ok s ∧
    sc_val r = (if be_val c <? secp_n then be_val c else 0) ∧ sc_val s = (if be_val d <? secp_n then be_val d else 0).
Proof.
  intros Hc Hd Hl. pose proof (length_der_pair c d) as Lp. unfold der_pair in *. cbn [app secp256k1_ecdsa_sig_parse] in *. rewrite read_len_short by lia.
  change (negb (48 =? 48)) with false. cbn [mbind option_bind length] in *. rewrite (proj2 (Z.ltb_ge _ 0)), (proj2 (Z.ltb_ge _ _)), (proj2 (Z.eqb_eq _ _)) by lia. cbn [orb negb].
  destruct (parse_integer_minimal c (2 :: Z.of_nat (length d) :: d) Hc ltac:(lia)) as (r & -> & Hr & Vr). cbn [mbind option_bind].
  destruct (parse_integer_minimal d [] Hd ltac:(lia)) as (s & Es & Hs & Vs). rewrite app_nil_r in Es. rewrite Es. cbn [mbind option_bind]. by exists r, s.
Qed.

(** The octets that serialization writes for a scalar *)
Definition scalar_octets (a : secp256k1_scalar) : list Z := der_trim (0 :: secp256k1_scalar_get_b32 a).

Lemma scalar_octets_spec (a : secp256k1_scalar) :
  sc_ok a → der_minimal (scalar_octets a) ∧ be_val (scalar_octets a) = sc_val a ∧ (length (scalar_octets a) <= 33)%nat.
Proof.
  intros Ha. destruct (sc_get_b32_spec a (proj1 Ha)) as (L & B & E). unfold scalar_octets.
  destruct (der_trim_spec 0 (secp256k1_scalar_get_b32 a)) as (M & V & Ll); [by constructor|lia|]. rewrite be_val_cons, E in V. split_and!; [done|lia|lia].
Qed.

Lemma sig_serialize_eq (size : Z) (r s : secp256k1_scalar) :
  Z.of_nat (length (der_pair (scalar_octets r) (scalar_octets s))) <= size →
  secp256k1_ecdsa_sig_serialize size r s =
    (true, Z.of_nat (length (der_pair (scalar_octets r) (scalar_octets s))), der_pair (scalar_octets r) (scalar_octets s)).
Proof.
  rewrite length_der_pair. intros Hs. unfold secp256k1_ecdsa_sig_serialize. fold (scalar_octets r) (scalar_octets s). by rewrite (proj2 (Z.ltb_ge _ _)) by lia.
Qed.

Lemma sig_roundtrip (r s : secp256k1_scalar) :
  sc_ok r → sc_ok s →
  (length (der_pair (scalar_octets r) (scalar_octets s)) <= 72)%nat ∧
  secp256k1_ecdsa_sig_parse (der_pair (scalar_octets r) (scalar_octets s)) = Some (r, s).
Proof.
  intros Hr Hs. destruct (scalar_octets_spec r Hr) as (Mr & Vr & Lr), (scalar_octets_spec s Hs) as (Ms & Vs & Ls).
  pose proof (length_der_pair (scalar_octets r) (scalar_octets s)) as Lp. split; [lia|].
  destruct (sig_parse_pair _ _ Mr Ms ltac:(lia)) as (r' & s' & -> & Hr' & Hs' & Er & Es). rewrite Vr, Vs in *.
  pose proof (sc_ok_range r Hr). pose proof (sc_ok_range s Hs). rewrite !(proj2 (Z.ltb_lt _ secp_n)) in * by lia.
  do 2 f_equal; apply sc_val_inj; (done || apply Hr' || apply Hs' || apply Hr || apply Hs).
Qed.

Lemma read_len_length (len : Z) (sig rest : list Z) : secp256k1_der_read_len sig = Some (len, rest) → (length rest <= length sig)%nat.
Proof.
  destruct sig as [|b1 sig]; [done|]. cbn [secp256k1_der_read_len].
  destruct (_ =? _); [done|]. destruct (_ =? _); [intros [= _ <-]; cbn; lia|]. destruct (_ =? _); [done|]. destruct (_ <? _); [done|].
  destruct sig as [|b sig]; [done|]. destruct (_ =? _); [done|]. destruct (_ <? _); [done|].
  destruct (der_len_loop _ 0 (b :: sig)) as [[r rest']|] eqn:E; [|done]. cbn [mbind option_bind]. destruct (_ <? _); [done|]. intros [= _ <-].
  apply der_len_loop_length in E. cbn [length] in *. lia.
Qed.

Lemma sig_parse_inv (sig : list Z) (r s : secp256k1_scalar) :
  bytes_ok sig → length sig < 2 ^ 31 → secp256k1_ecdsa_sig_parse sig = Some (r, s) → sc_val r ≠ 0 → sc_val s ≠ 0 →
  sc_ok r ∧ sc_ok s ∧ sig = der_pair (scalar_octets r) (scalar_octets s).
Proof.
  intros Hb Hl E Hr Hs. destruct sig as [|tag sig]; [done|]. apply list.Forall_cons in Hb as [_ Hb]. cbn [secp256k1_ecdsa_sig_parse length] in *.
  destruct (Z.eqb_spec tag 0x30) as [->|]; [|done]. cbn [negb] in E. destruct (secp256k1_der_read_len sig) as [[rlen sig']|] eqn:El; [|done].
  cbn [mbind option_bind] in E. destruct (Z.ltb_spec rlen 0) as [|Hr0]; [done|]. destruct (Z.ltb_spec (length sig') rlen) as [|Hrl]; [done|]. cbn [orb] in E.
  destruct (Z.eqb_spec rlen (length sig')) as [Elen|]; [|done]. cbn [negb] in E.
  pose proof (read_len_inv _ _ _ Hb ltac:(lia) El) as Hi. pose proof (read_len_bytes _ _ _ Hb El) as Hb'.
  assert (length sig' <= length sig)%nat as Hle by (by eapply read_len_length).
  destruct (secp256k1_der_parse_integer sig') as [[r' sig1]|] eqn:E1; [|done]. cbn [mbind option_bind] in E.
  destruct (secp256k1_der_parse_integer sig1) as [[s' sig2]|] eqn:E2; [|done]. cbn [mbind option_bind] in E. destruct sig2; [|done]. injection E as -> ->.
  destruct (parse_integer_inv _ _ _ Hb' ltac:(lia) E1 Hr) as (c & Mc & Lc & Ec & Vc & Hrok). rewrite Ec in Hb', Hle, Elen.
  rewrite !list.Forall_cons, Forall_app in Hb'. destruct Hb' as (_ & _ & _ & Hb1). cbn [length] in *. rewrite length_app in *.
  destruct (parse_integer_inv _ _ _ Hb1 ltac:(lia) E2 Hs) as (d & Md & Ld & Ed & Vd & Hsok). rewrite app_nil_r in Ed.
  destruct (scalar_octets_spec r Hrok) as (Mr & Vr & Lr), (scalar_octets_spec s Hsok) as (Ms & Vs & Ls).
  assert (c = scalar_octets r) as -> by (apply der_minimal_unique; (done || congruence)).
  assert (d = scalar_octets s) as -> by (apply der_minimal_unique; (done || congruence)).
  split_and!; [done|done|]. rewrite Ed in Elen. cbn [length] in Elen. destruct Hi as [[_ ->]|[?|?]]; [|lia|lia]. rewrite Ec, Ed, Elen.
  unfold der_pair. cbn [app]. do 2 f_equal. lia.
Qed.

(** ** Properties *)

(** the DER codec of signatures is a bijection onto what it accepts.  Serialization reports the size it needs, at most
    72 bytes, succeeds exactly when the buffer has that size, and what it writes parses back to the two scalars; and a string
    that the strict parser accepts with both scalars not zero is the serialization of those scalars, byte for byte, so that a
    signature has one strict encoding. *)
Theorem der_codec_correct (r s : secp256k1_scalar) (size : Z) (sig : list Z) :
  sc_ok r → sc_ok s → bytes_ok sig → length sig < 2 ^ 31 → sc_val r ≠ 0 → sc_val s ≠ 0 →
  (let '(ok, n, b) := secp256k1_ecdsa_sig_serialize size r s in
   n <= 72 ∧ ok = (n <=? size) ∧ (ok = true → Z.of_nat (length b) = n ∧ secp256k1_ecdsa_sig_parse b = Some (r, s))) ∧
  (secp256k1_ecdsa_sig_parse sig = Some (r, s) → secp256k1_ecdsa_sig_serialize (length sig) r s = (true, Z.of_nat (length sig), sig)).
Proof.
  intros Hr Hs Hb Hl Nr Ns. destruct (sig_roundtrip r s Hr Hs) as [L72 Er]. split.
  - destruct (Z.le_gt_cases (length (der_pair (scalar_octets r) (scalar_octets s))) size) as [Hle|Hgt].
    + rewrite sig_serialize_eq by done. split_and!; [lia|by rewrite (proj2 (Z.leb_le _ _))|done].
    + rewrite length_der_pair in *. unfold secp256k1_ecdsa_sig_serialize. fold (scalar_octets r) (scalar_octets s).
      rewrite (proj2 (Z.ltb_lt _ _)) by lia. pose proof (length_der_pair (scalar_octets r) (scalar_octets s)).
      split_and!; [lia|by rewrite (proj2 (Z.leb_gt _ _)) by lia|done].
  - intros E. destruct (sig_parse_inv sig r s Hb Hl E Nr Ns) as (_ & _ & Esig). rewrite sig_serialize_eq by (rewrite <- Esig; lia). by rewrite <- Esig.
Qed.

Lemma der_codec_correct_witness :
  secp256k1_ecdsa_sig_serialize 8 (MkScalar 128 0 0 0) (MkScalar 5 0 0 0) = (false, 9, []) ∧
  secp256k1_ecdsa_sig_serialize 9 (MkScalar 128 0 0 0) (MkScalar 5 0 0 0) = (true, 9, [0x30; 7; 2; 2; 0; 0x80; 2; 1; 5]) ∧
  (secp256k1_ecdsa_sig_parse [0x30; 7; 2; 2; 0; 0x80; 2; 1; 5] = Some (MkScalar 128 0 0 0, MkScalar 5 0 0 0) →
   secp256k1_ecdsa_sig_serialize 9 (MkScalar 128 0 0 0) (MkScalar 5 0 0 0) = (true, 9, [0x30; 7; 2; 2; 0; 0x80; 2; 1; 5])).
Proof.
  split; [by vm_compute|]. split; [by vm_compute|].
  apply (der_codec_correct (MkScalar 128 0 0 0) (MkScalar 5 0 0 0) 9 [0x30; 7; 2; 2; 0; 0x80; 2; 1; 5]);
    [split; [repeat split; vm_compute; congruence|by vm_compute]..|by apply bytes_okb_ok|by vm_compute|by vm_compute|by vm_compute].
Defined.
