(* ===== verification/EcKey.v ===== *)
(** * Keys and signatures of the library

    Model of src/secp256k1/src/eckey_impl.h and of the functions of src/secp256k1/src/secp256k1.c on public keys, secret keys and
    signatures (parsing and serialization, negation and tweaks, normalization, verification).  Parsing accepts exactly the
    encodings of points of the curve, serialization is its inverse, and verification decides ECDSA. *)
From Stdlib Require Import ZArith Lia Zdivisibility Zmod Field.
From S2P Require Import Prelude Common Field5x52 Primes Scalar4x64 SecpField SecpGroup CurveGroup CurveOrder Ecmult EcmultGen Ecdsa Der.
Open Scope Z_scope.

(** ** Public keys *)

Definition SECP256K1_TAG_PUBKEY_EVEN : Z := 0x02.
Definition SECP256K1_TAG_PUBKEY_ODD : Z := 0x03.
Definition SECP256K1_TAG_PUBKEY_UNCOMPRESSED : Z := 0x04.
Definition SECP256K1_TAG_PUBKEY_HYBRID_EVEN : Z := 0x06.
Definition SECP256K1_TAG_PUBKEY_HYBRID_ODD : Z := 0x07.

Definition secp256k1_eckey_pubkey_parse (pub : list Z) : option ge :=
  if (length pub =? 33) && ((pub.[0] =? SECP256K1_TAG_PUBKEY_EVEN) || (pub.[0] =? SECP256K1_TAG_PUBKEY_ODD)) then
    let '(x, ok) := fe_set_b32 (drop 1 pub) in
    if negb ok then None else
    let '(elem, ok) := ge_set_xo_var x (pub.[0] =? SECP256K1_TAG_PUBKEY_ODD) in
    if ok then Some elem else None
  else if (length pub =? 65) && ((pub.[0] =? 0x04) || (pub.[0] =? 0x06) || (pub.[0] =? 0x07)) then
    let '(x, okx) := fe_set_b32 (take 32 (drop 1 pub)) in
    if negb okx then None else
    let '(y, oky) := fe_set_b32 (drop 33 pub) in
    if negb oky then None else
    let elem := ge_set_xy x y in
    if ((pub.[0] =? SECP256K1_TAG_PUBKEY_HYBRID_EVEN) || (pub.[0] =? SECP256K1_TAG_PUBKEY_HYBRID_ODD)) &&
       negb (Bool.eqb (fe_is_odd y) (pub.[0] =? SECP256K1_TAG_PUBKEY_HYBRID_ODD)) then None else
    if ge_is_valid_var elem then Some elem else None
  else None.

Definition secp256k1_eckey_pubkey_serialize (elem : ge) (compressed : bool) : option (list Z) :=
  if ge_infinity elem then None else
  let x := fe_normalize_var (ge_x elem) in
  let y := fe_normalize_var (ge_y elem) in
  Some (if compressed then (if fe_is_odd y then SECP256K1_TAG_PUBKEY_ODD else SECP256K1_TAG_PUBKEY_EVEN) :: fe_get_b32 x
        else SECP256K1_TAG_PUBKEY_UNCOMPRESSED :: fe_get_b32 x ++ fe_get_b32 y).

Definition secp256k1_eckey_privkey_tweak_add (key tweak : secp256k1_scalar) : option secp256k1_scalar :=
  let key := (secp256k1_scalar_add key tweak).1 in
  if secp256k1_scalar_is_zero key then None else Some key.

Definition secp256k1_eckey_privkey_tweak_mul (key tweak : secp256k1_scalar) : option secp256k1_scalar :=
  if secp256k1_scalar_is_zero tweak then None else Some (secp256k1_scalar_mul key tweak).

(** A 64-byte [secp256k1_pubkey] holds the storage form, and a [secp256k1_ecdsa_signature] the two scalars: the source copies
    the structures where they have that size. *)
Abbreviation pubkey_data := ge_storage.
Definition secp256k1_ecdsa_signature : Type := secp256k1_scalar * secp256k1_scalar.

(** [None] where [ARG_CHECK] calls the callback for an illegal argument *)
Definition secp256k1_pubkey_load (pubkey : pubkey_data) : option ge :=
  let ge := ge_from_storage pubkey in
  if fe_is_zero (ge_x ge) then None else Some ge.

Definition secp256k1_pubkey_save (ge : ge) : pubkey_data := ge_to_storage ge.

Definition secp256k1_ec_pubkey_parse (input : list Z) : option pubkey_data :=
  Q ← secp256k1_eckey_pubkey_parse input; Some (secp256k1_pubkey_save Q).

Definition secp256k1_ec_pubkey_serialize (pubkey : pubkey_data) (compressed : bool) : option (list Z) :=
  Q ← secp256k1_pubkey_load pubkey; secp256k1_eckey_pubkey_serialize Q compressed.

Definition secp256k1_ecdsa_signature_parse_der (input : list Z) : option secp256k1_ecdsa_signature :=
  secp256k1_ecdsa_sig_parse input.

Definition secp256k1_ecdsa_signature_serialize_der (size : Z) (sig : secp256k1_ecdsa_signature) : bool * Z * list Z :=
  secp256k1_ecdsa_sig_serialize size sig.1 sig.2.

(** The signature, all zeroes where parsing fails *)
Definition secp256k1_ecdsa_signature_parse_compact (input64 : list Z) : secp256k1_ecdsa_signature * bool :=
  let '(r, overflow) := secp256k1_scalar_set_b32 (take 32 input64) in
  let ret := negb overflow in
  let '(s, overflow) := secp256k1_scalar_set_b32 (drop 32 input64) in
  let ret := ret && negb overflow in
  if ret then ((r, s), true) else ((secp256k1_scalar_clear, secp256k1_scalar_clear), false).

Definition secp256k1_ecdsa_signature_serialize_compact (sig : secp256k1_ecdsa_signature) : list Z :=
  secp256k1_scalar_get_b32 sig.1 ++ secp256k1_scalar_get_b32 sig.2.

(** The normalized signature, and whether it was not *)
Definition secp256k1_ecdsa_signature_normalize (sigin : secp256k1_ecdsa_signature) : secp256k1_ecdsa_signature * bool :=
  let '(r, s) := sigin in
  let ret := secp256k1_scalar_is_high s in
  ((r, if ret then secp256k1_scalar_negate s else s), ret).

Definition secp256k1_ec_seckey_verify (seckey : list Z) : bool :=
  let '(sec, overflow) := secp256k1_scalar_set_b32 seckey in
  negb overflow && negb (secp256k1_scalar_is_zero sec).

Definition secp256k1_ec_privkey_negate (seckey : list Z) : list Z :=
  secp256k1_scalar_get_b32 (secp256k1_scalar_negate (secp256k1_scalar_set_b32 seckey).1).

Definition secp256k1_ec_pubkey_negate (pubkey : pubkey_data) : option pubkey_data :=
  p ← secp256k1_pubkey_load pubkey; Some (secp256k1_pubkey_save (ge_neg p)).

(** [None] where the source returns 0, having cleared the key *)
Definition secp256k1_ec_privkey_tweak_add (seckey tweak : list Z) : option (list Z) :=
  let '(term, overflow) := secp256k1_scalar_set_b32 tweak in
  let sec := (secp256k1_scalar_set_b32 seckey).1 in
  if overflow then None else
  sec ← secp256k1_eckey_privkey_tweak_add sec term; Some (secp256k1_scalar_get_b32 sec).

Definition secp256k1_ec_privkey_tweak_mul (seckey tweak : list Z) : option (list Z) :=
  let '(factor, overflow) := secp256k1_scalar_set_b32 tweak in
  let sec := (secp256k1_scalar_set_b32 seckey).1 in
  if overflow then None else
  sec ← secp256k1_eckey_privkey_tweak_mul sec factor; Some (secp256k1_scalar_get_b32 sec).

Section Verify.
Context (ctx : ecmult_context) (d0 : gej).

(** [None] where the source would read outside a table; [Some None] where it returns 0 *)
Definition secp256k1_eckey_pubkey_tweak_add (key : ge) (tweak : secp256k1_scalar) : option (option ge) :=
  let pt := gej_set_ge key in
  let one := secp256k1_scalar_set_int 1 in
  pt ← secp256k1_ecmult ctx d0 pt one tweak;
  Some (if gej_infinity pt then None else Some (ge_set_gej pt).1).

Definition secp256k1_eckey_pubkey_tweak_mul (key : ge) (tweak : secp256k1_scalar) : option (option ge) :=
  if secp256k1_scalar_is_zero tweak then Some None else
  let zero := secp256k1_scalar_set_int 0 in
  let pt := gej_set_ge key in
  pt ← secp256k1_ecmult ctx d0 pt tweak zero;
  Some (Some (ge_set_gej pt).1).

Definition secp256k1_ecdsa_verify (sig : secp256k1_ecdsa_signature) (msg32 : list Z) (pubkey : pubkey_data) : option bool :=
  let m := (secp256k1_scalar_set_b32 msg32).1 in
  let '(r, s) := sig in
  if secp256k1_scalar_is_high s then Some false else
  match secp256k1_pubkey_load pubkey with
  | None => Some false
  | Some q => secp256k1_ecdsa_sig_verify ctx d0 r s q m
  end.

Definition secp256k1_ec_pubkey_tweak_add (pubkey : pubkey_data) (tweak : list Z) : option (option pubkey_data) :=
  let '(term, overflow) := secp256k1_scalar_set_b32 tweak in
  if overflow then Some None else
  match secp256k1_pubkey_load pubkey with
  | None => Some None
  | Some p => match secp256k1_eckey_pubkey_tweak_add p term with None => None | Some r => Some (secp256k1_pubkey_save <$> r) end
  end.

Definition secp256k1_ec_pubkey_tweak_mul (pubkey : pubkey_data) (tweak : list Z) : option (option pubkey_data) :=
  let '(factor, overflow) := secp256k1_scalar_set_b32 tweak in
  if overflow then Some None else
  match secp256k1_pubkey_load pubkey with
  | None => Some None
  | Some p => match secp256k1_eckey_pubkey_tweak_mul p factor with None => None | Some r => Some (secp256k1_pubkey_save <$> r) end
  end.
End Verify.

(** ** Encodings of points *)

#[local] Open Scope Zmod_scope.
Add Field Fp_keys : (Zmod.field_theory secp_p secp_prime) (morphism cst_morph, constants [Fp_constant]).

(** No point of the curve has x = 0: 7 is not a square, since its power (p - 1) / 2 is not 1. *)
Definition half_exp : positive := 57896044618658097711785492504343953926634992332820282019728792003954417335831.

Lemma seven_power : (pow_red fold_p 7 half_exp mod secp_p =? 1)%Z = false.
Proof. by vm_compute. Qed.

Lemma on_curve_x_nonzero (x y : Fp) : on_curve (Some (x, y)) → x ≠ 0.
Proof.
  intros Hc ->. cbn in Hc. assert (y * y = cst 7) as E by (rewrite Hc; ring). assert (y ≠ 0) as Hy by (by apply (no_two_torsion 0)).
  assert (Zmod.pow (cst 7) (Zpos half_exp) = 1) as E1.
  { rewrite <- E, <- Zmod.pow_2_r, <- Zmod.pow_mul_r_nonneg by lia. apply (Zmod.fermat_nz y Hy secp_prime). }
  apply (f_equal Zmod.unsigned) in E1. rewrite Zmod.to_Z_pow_nonneg_r, Zmod.unsigned_of_Z, Z.mod_pow_l in E1 by lia.
  rewrite <- (pow_red_spec fold_p secp_p) in E1.
  { rewrite Zmod.unsigned_1_pos in E1 by (unfold secp_p; lia). apply Z.eqb_eq in E1. by rewrite seven_power in E1. }
  intros z. apply fold_twice_spec; [unfold secp_p; lia|by exists 1%Z].
Qed.

(** The 32 bytes of a coordinate, the most significant first *)
Definition coord (x : Fp) : list Z := reverse (le_digits 8 32 (Zmod.unsigned x)).

Lemma coord_spec (x : Fp) : length (coord x) = 32%nat ∧ bytes_ok (coord x) ∧ be_val (coord x) = Zmod.unsigned x.
Proof.
  unfold coord. pose proof (unsigned_range x) as R. assert (secp_p < 2 ^ 256)%Z by done. rewrite length_reverse, length_le_digits. split_and!; [done|by apply Forall_reverse, le_digits_words|].
  unfold be_val. rewrite reverse_involutive, le_val_le_digits, Z.mod_small by lia. done.
Qed.

#[local] Opaque coord.

Lemma coord_unique (b : list Z) (x : Fp) : bytes_ok b → length b = 32%nat → be_val b = Zmod.unsigned x → b = coord x.
Proof. intros Hb Hl E. destruct (coord_spec x) as (L & B & V). apply be_val_inj; [done|done|lia|congruence]. Qed.

(** The compressed, the uncompressed and the hybrid encoding of a point *)
Definition compressed_key (P : Fp * Fp) : list Z := (if Z.odd (Zmod.unsigned P.2) then 3 else 2)%Z :: coord P.1.
Definition uncompressed_key (P : Fp * Fp) : list Z := 4%Z :: coord P.1 ++ coord P.2.
Definition hybrid_key (P : Fp * Fp) : list Z := (if Z.odd (Zmod.unsigned P.2) then 7 else 6)%Z :: coord P.1 ++ coord P.2.

Definition key_encodes (pub : list Z) (P : Fp * Fp) : Prop := pub = compressed_key P ∨ pub = uncompressed_key P ∨ pub = hybrid_key P.

Lemma get_b32_coord (a : secp256k1_fe) : fe_normalized a → fe_get_b32 a = coord (fe_value a).
Proof. intros Ha. destruct (get_b32_spec a Ha) as (L & B & E). by apply coord_unique. Qed.

Lemma set_b32_coord (b : list Z) :
  bytes_ok b → length b = 32%nat → (fe_set_b32 b).2 = true →
  fe_normalized (fe_set_b32 b).1 ∧ b = coord (fe_value (fe_set_b32 b).1).
Proof.
  intros Hb Hl Hok. destruct (set_b32_spec b Hb Hl) as (Eo & Hn & Hv). rewrite Eo in Hok. apply Z.ltb_lt in Hok. split; [by apply Hn|].
  apply coord_unique; [done|done|]. rewrite Hv, Zmod.unsigned_of_Z, Z.mod_small; [done|]. pose proof (be_val_range b Hb). lia.
Qed.

Lemma set_b32_of_coord (x : Fp) : (fe_set_b32 (coord x)).2 = true ∧ fe_normalized (fe_set_b32 (coord x)).1 ∧ fe_value (fe_set_b32 (coord x)).1 = x.
Proof.
  destruct (coord_spec x) as (L & B & V). destruct (set_b32_spec (coord x) B L) as (Eo & Hn & Hv). pose proof (unsigned_range x). rewrite V in *.
  split_and!; [rewrite Eo; apply Z.ltb_lt; lia|apply Hn; lia|]. by rewrite Hv, Zmod.of_Z_unsigned.
Qed.

(** ** Parsing and serialization of public keys *)

Lemma key_encodes_unique (pub : list Z) (P Q : Fp * Fp) :
  on_curve (Some P) → on_curve (Some Q) → key_encodes pub P → key_encodes pub Q → P = Q.
Proof.
  assert (∀ x y : Fp, coord x = coord y → x = y) as Hinj.
  { intros x y E. apply Zmod.unsigned_inj. by rewrite <- (proj2 (proj2 (coord_spec x))), E, (proj2 (proj2 (coord_spec y))). }
  assert (∀ (t u : Z) (x x' y y' : Fp), t :: coord x ++ coord y = u :: coord x' ++ coord y' → (x, y) = (x', y')) as Hlong.
  { intros t u x x' y y' E. apply (f_equal tail) in E. cbn [tail] in E. apply app_inj_1 in E as [E1 E2]; [|by rewrite (proj1 (coord_spec x)), (proj1 (coord_spec x'))]. f_equal; by apply Hinj. }
  assert (∀ (t u : Z) (x x' y : Fp), t :: coord x ++ coord y ≠ u :: coord x') as Hlen.
  { intros t u x x' y E. apply (f_equal length) in E. cbn [length] in E. rewrite length_app, (proj1 (coord_spec x)), (proj1 (coord_spec x')), (proj1 (coord_spec y)) in E. lia. }
  destruct P as [x y], Q as [x' y']. unfold key_encodes, compressed_key, uncompressed_key, hybrid_key. cbn [fst snd]. intros HP HQ.
  intros [-> |[-> | ->]] [E|[E|E]]; try (by apply Hlong in E); try (by apply Hlen in E); try (by apply eq_sym, Hlen in E).
  pose proof (f_equal (λ l, hd 0%Z l) E) as Et. cbn [hd] in Et. apply (f_equal tail) in E. cbn [tail] in E. apply Hinj in E as ->. f_equal. apply (y_unique x'); [done|done|]. by destruct (Z.odd _), (Z.odd _).
Qed.

Lemma parse_compressed (x : Fp) (odd : bool) :
  let pub := (if odd then 3 else 2)%Z :: coord x in
  match secp256k1_eckey_pubkey_parse pub with
  | Some e => ∃ y, affine e (Some (x, y)) ∧ on_curve (Some (x, y)) ∧ Z.odd (Zmod.unsigned y) = odd
  | None => ¬ ∃ y, on_curve (Some (x, y))
  end.
Proof.
  cbv zeta. destruct (coord_spec x) as (L & B & V). destruct (set_b32_of_coord x) as (Ok & Hn & Hv). unfold secp256k1_eckey_pubkey_parse.
  assert (length ((if odd then 3 else 2)%Z :: coord x) = 33%nat) as -> by (cbn; by rewrite L).
  change (((if odd then 3 else 2)%Z :: coord x).[0]) with (if odd then 3 else 2)%Z. change (drop 1 ((if odd then 3 else 2)%Z :: coord x)) with (coord x).
  assert (((33%nat =? 33) && (((if odd then 3 else 2) =? SECP256K1_TAG_PUBKEY_EVEN) || ((if odd then 3 else 2) =? SECP256K1_TAG_PUBKEY_ODD)))%Z = true) as -> by (by destruct odd).
  assert (((if odd then 3 else 2) =? SECP256K1_TAG_PUBKEY_ODD)%Z = odd) as -> by (by destruct odd).
  rewrite (surjective_pairing (fe_set_b32 (coord x))), Ok. cbn [negb]. set (X := (fe_set_b32 (coord x)).1) in *.
  destruct (ge_set_xo_var_spec X odd) as [Hiff Hy]; [apply (magnitude_le 1); [lia|by apply normalized_magnitude]|]. rewrite Hv in *.
  destruct (ge_set_xo_var X odd) as [e ok]. cbn [fst snd] in *. destruct ok; [by apply Hy|]. intros Hex. apply Hiff in Hex. done.
Qed.

Lemma parse_uncompressed (tag : Z) (x y : Fp) :
  let pub := tag :: coord x ++ coord y in
  match secp256k1_eckey_pubkey_parse pub with
  | Some e => affine e (Some (x, y)) ∧ on_curve (Some (x, y)) ∧ key_encodes pub (x, y)
  | None => ¬ (on_curve (Some (x, y)) ∧ key_encodes pub (x, y))
  end.
Proof.
  cbv zeta. destruct (coord_spec x) as (Lx & Bx & Vx), (coord_spec y) as (Ly & By & Vy). destruct (set_b32_of_coord x) as (Okx & Hnx & Hvx), (set_b32_of_coord y) as (Oky & Hny & Hvy).
  set (pub := tag :: coord x ++ coord y). assert (length pub = 65%nat) as El by (unfold pub; cbn; rewrite length_app, Lx, Ly; done).
  assert (drop 33 pub = coord y) as Ed by (change (drop 33 pub) with (drop 32 (coord x ++ coord y)); by apply drop_app_length').
  assert (take 32 (drop 1 pub) = coord x) as Et by (change (take 32 (drop 1 pub)) with (take 32 (coord x ++ coord y)); by apply take_app_length').
  unfold secp256k1_eckey_pubkey_parse. rewrite El, Ed, Et. change (65%nat =? 33)%Z with false. change (65%nat =? 65)%Z with true. change (pub.[0]) with tag. cbn [andb].
  assert (key_encodes pub (x, y) ↔ tag = 4%Z ∨ tag = if Z.odd (Zmod.unsigned y) then 7%Z else 6%Z) as Henc.
  { unfold key_encodes, compressed_key, uncompressed_key, hybrid_key, pub. cbn [fst snd]. split; [|intros [-> | ->]; auto].
    intros [E|[E|E]]; [|left; by apply (f_equal (λ l, hd 0%Z l)) in E|right; by apply (f_equal (λ l, hd 0%Z l)) in E]. apply (f_equal length) in E. cbn [length] in E. rewrite length_app, Lx, Ly in E. lia. }
  rewrite (surjective_pairing (fe_set_b32 (coord x))), (surjective_pairing (fe_set_b32 (coord y))), Okx, Oky. cbn [negb].
  set (X := (fe_set_b32 (coord x)).1) in *. set (Y := (fe_set_b32 (coord y)).1) in *.
  assert (affine (ge_set_xy X Y) (Some (x, y))) as Ha.
  { split; [split|]; [apply (magnitude_le 1 6 X); [lia|by apply normalized_magnitude]|apply (magnitude_le 1 4 Y); [lia|by apply normalized_magnitude]|].
    split; [reflexivity|split; assumption]. }
  rewrite is_odd_spec, Hvy by done. unfold SECP256K1_TAG_PUBKEY_HYBRID_EVEN, SECP256K1_TAG_PUBKEY_HYBRID_ODD.
  pose proof (ge_is_valid_var_spec _ _ Ha) as Hval. 
  destruct (ge_is_valid_var (ge_set_xy X Y));
    [assert (on_curve (Some (x, y))) as Hc by (by apply Hval)|assert (¬ on_curve (Some (x, y))) as Hc by (intros Hc; by assert (false = true) by (by apply Hval))];
    destruct (Z.eqb_spec tag 4), (Z.eqb_spec tag 6), (Z.eqb_spec tag 7), (Z.odd _); cbn [orb andb Bool.eqb negb];
    first [split; [exact Ha|split; [exact Hc|apply Henc; lia]]|intros [Hc' E]; apply Henc in E; (lia || contradiction)].
Qed.

Lemma bytes_coord (b : list Z) :
  bytes_ok b → length b = 32%nat → (∃ x, b = coord x) ∨ (fe_set_b32 b).2 = false ∧ ∀ x, b ≠ coord x.
Proof.
  intros Hb Hl. destruct ((fe_set_b32 b).2) eqn:E; [left; destruct (set_b32_coord b Hb Hl E) as [_ ?]; eauto|right]. split; [done|].
  intros x ->. by rewrite (proj1 (set_b32_of_coord x)) in E.
Qed.

Lemma length_33 (pub : list Z) : length pub = 33%nat → ∃ tag b, pub = tag :: b ∧ length b = 32%nat.
Proof. destruct pub as [|tag b]; [done|]. intros [= Hl]. by exists tag, b. Qed.

Lemma length_65 (pub : list Z) : length pub = 65%nat → ∃ tag b c, pub = tag :: b ++ c ∧ length b = 32%nat ∧ length c = 32%nat.
Proof.
  destruct pub as [|tag b]; [done|]. intros [= Hl]. exists tag, (take 32 b), (drop 32 b). rewrite take_drop, length_take, length_drop, Hl. done.
Qed.

Lemma encodes_length (pub : list Z) (P : Fp * Fp) :
  key_encodes pub P →
  (length pub = 33%nat ∧ (pub.[0] = 2%Z ∨ pub.[0] = 3%Z)) ∨ (length pub = 65%nat ∧ (pub.[0] = 4%Z ∨ pub.[0] = 6%Z ∨ pub.[0] = 7%Z)).
Proof.
  destruct P as [x y]. destruct (coord_spec x) as (Lx & _), (coord_spec y) as (Ly & _). unfold key_encodes, compressed_key, uncompressed_key, hybrid_key. cbn [fst snd].
  intros [-> |[-> | ->]]; [left|right|right]; (split; [cbn [length]; rewrite ?length_app, ?Lx, ?Ly; reflexivity|]); unfold aget; cbn [nth]; try destruct (Z.odd (Zmod.unsigned y)); auto.
Qed.

Lemma encodes_33 (tag : Z) (b : list Z) (x y : Fp) : length b = 32%nat → key_encodes (tag :: b) (x, y) → b = coord x.
Proof.
  intros Hl. destruct (coord_spec x) as (Lx & _), (coord_spec y) as (Ly & _). unfold key_encodes, compressed_key, uncompressed_key, hybrid_key. cbn [fst snd].
  intros [E|[E|E]]; apply (f_equal tail) in E; cbn [tail] in E; [done|..]; apply (f_equal length) in E; rewrite length_app in E; lia.
Qed.

Lemma encodes_65 (tag : Z) (b c : list Z) (x y : Fp) :
  length b = 32%nat → length c = 32%nat → key_encodes (tag :: b ++ c) (x, y) → b = coord x ∧ c = coord y.
Proof.
  intros Hb Hc. destruct (coord_spec x) as (Lx & _), (coord_spec y) as (Ly & _). unfold key_encodes, compressed_key, uncompressed_key, hybrid_key. cbn [fst snd].
  intros [E|[E|E]]; apply (f_equal tail) in E; cbn [tail] in E; [apply (f_equal length) in E; rewrite length_app in E; lia|..]; apply app_inj_1 in E; (done || lia).
Qed.

Lemma coord_inj (x y : Fp) : coord x = coord y → x = y.
Proof. intros E. apply Zmod.unsigned_inj. by rewrite <- (proj2 (proj2 (coord_spec x))), E, (proj2 (proj2 (coord_spec y))). Qed.

(** What [parse] accepts *)
Definition key_point (pub : list Z) (e : option ge) : Prop :=
  match e with
  | Some e => ∃ P, affine e (Some P) ∧ on_curve (Some P) ∧ key_encodes pub P
  | None => ∀ P, on_curve (Some P) → ¬ key_encodes pub P
  end.

Lemma parse_33 (tag : Z) (b : list Z) :
  bytes_ok b → length b = 32%nat → tag = 2%Z ∨ tag = 3%Z → key_point (tag :: b) (secp256k1_eckey_pubkey_parse (tag :: b)).
Proof.
  intros Hb Hl Ht. assert (∃ odd : bool, tag = if odd then 3%Z else 2%Z) as [odd ->] by (destruct Ht as [-> | ->]; [by exists false|by exists true]).
  destruct (bytes_coord b Hb Hl) as [[x ->]|[Hf Hn]].
  - pose proof (parse_compressed x odd) as Hp. cbv zeta in Hp. destruct (secp256k1_eckey_pubkey_parse _) as [e|].
    + destruct Hp as (y & Ha & Hc & <-). exists (x, y). split; [exact Ha|split; [exact Hc|by left]].
    + intros [x' y'] Hc He. apply Hp. apply encodes_33, coord_inj in He as ->; [by exists y'|done].
  - assert (secp256k1_eckey_pubkey_parse ((if odd then 3 else 2)%Z :: b) = None) as ->.
    { unfold secp256k1_eckey_pubkey_parse. cbn [length]. rewrite Hl. change (((if odd then 3 else 2)%Z :: b).[0]) with (if odd then 3 else 2)%Z.
      change (drop 1 ((if odd then 3 else 2)%Z :: b)) with b. rewrite (surjective_pairing (fe_set_b32 b)), Hf. by destruct odd. }
    intros [x' y'] Hc He. apply encodes_33 in He; [by apply Hn in He|done].
Qed.

Lemma parse_65 (tag : Z) (b c : list Z) :
  bytes_ok b → bytes_ok c → length b = 32%nat → length c = 32%nat → key_point (tag :: b ++ c) (secp256k1_eckey_pubkey_parse (tag :: b ++ c)).
Proof.
  intros Hb Hc Lb Lc. destruct (bytes_coord b Hb Lb) as [[x ->]|[Hf Hn]]; [destruct (bytes_coord c Hc Lc) as [[y ->]|[Hf Hn]]|].
  - pose proof (parse_uncompressed tag x y) as Hp. cbv zeta in Hp. destruct (secp256k1_eckey_pubkey_parse _) as [e|]; [by exists (x, y)|].
    intros [x' y'] Hcv He. destruct (encodes_65 _ _ _ _ _ Lb Lc He) as [<-%coord_inj <-%coord_inj]. by apply Hp.
  - assert (secp256k1_eckey_pubkey_parse (tag :: coord x ++ c) = None) as ->; [|intros [x' y'] Hcv He; destruct (encodes_65 _ _ _ _ _ Lb Lc He) as [_ E]; by apply Hn in E].
    unfold secp256k1_eckey_pubkey_parse. change (drop 33 (tag :: coord x ++ c)) with (drop 32 (coord x ++ c)). rewrite (drop_app_length' (coord x) c) by done.
    cbn [length]. rewrite length_app, Lb, Lc, (surjective_pairing (fe_set_b32 c)), Hf. change (Z.of_nat (S (32 + 32)) =? 33)%Z with false. cbn [negb andb].
    destruct (_ && _); [|reflexivity]. destruct (fe_set_b32 (take 32 _)) as [? []]; reflexivity.
  - assert (secp256k1_eckey_pubkey_parse (tag :: b ++ c) = None) as ->; [|intros [x' y'] Hcv He; destruct (encodes_65 _ _ _ _ _ Lb Lc He) as [E _]; by apply Hn in E].
    unfold secp256k1_eckey_pubkey_parse. change (take 32 (drop 1 (tag :: b ++ c))) with (take 32 (b ++ c)). rewrite (take_app_length' b c) by done.
    cbn [length]. rewrite length_app, Lb, Lc, (surjective_pairing (fe_set_b32 b)), Hf. change (Z.of_nat (S (32 + 32)) =? 33)%Z with false. cbn [negb andb]. by destruct (_ && _).
Qed.

Lemma eckey_pubkey_parse_spec (pub : list Z) : bytes_ok pub → key_point pub (secp256k1_eckey_pubkey_parse pub).
Proof.
  intros Hb. destruct (decide (length pub = 33%nat ∧ (pub.[0] = 2%Z ∨ pub.[0] = 3%Z))) as [[Hl Ht]|H33].
  { destruct (length_33 pub Hl) as (tag & b & -> & Lb). apply list.Forall_cons in Hb as [_ Hb]. by apply parse_33. }
  destruct (decide (length pub = 65%nat)) as [Hl|H65].
  { destruct (length_65 pub Hl) as (tag & b & c & -> & Lb & Lc). apply list.Forall_cons in Hb as [_ Hb]. apply Forall_app in Hb as [? ?]. by apply parse_65. }
  assert (secp256k1_eckey_pubkey_parse pub = None) as ->; [|intros P _ He; apply encodes_length in He; tauto].
  unfold secp256k1_eckey_pubkey_parse. destruct (Z.eqb_spec (length pub) 65); [lia|]. cbn [andb].
  destruct (Z.eqb_spec (length pub) 33); [|done]. destruct (Z.eqb_spec (pub.[0]) SECP256K1_TAG_PUBKEY_EVEN); [exfalso; apply H33; split; [lia|by left]|].
  destruct (Z.eqb_spec (pub.[0]) SECP256K1_TAG_PUBKEY_ODD); [exfalso; apply H33; split; [lia|by right]|done].
Qed.

Lemma eckey_pubkey_serialize_spec (e : ge) (P : Fp * Fp) (compressed : bool) :
  affine e (Some P) → secp256k1_eckey_pubkey_serialize e compressed = Some (if compressed then compressed_key P else uncompressed_key P).
Proof.
  destruct P as [x y]. intros Ha. destruct (affine_reps e x y Ha) as (Hi & [Mx Vx] & [My Vy]). unfold secp256k1_eckey_pubkey_serialize. rewrite Hi.
  rewrite !normalize_var_spec by (by eapply magnitude_le; [|eassumption]).
  destruct (normalize_spec (ge_x e)) as [Nx Ex]; [by apply (magnitude_le 6)|]. destruct (normalize_spec (ge_y e)) as [Ny Ey]; [by apply (magnitude_le 4)|].
  rewrite is_odd_spec, !get_b32_coord, Ex, Ey, Vx, Vy by done. unfold compressed_key, uncompressed_key. cbn [fst snd]. by destruct compressed.
Qed.

(** ** The functions of the interface *)

(** A [secp256k1_pubkey] that is loaded as the point [P] *)
Definition key_stored (d : pubkey_data) (P : Fp * Fp) : Prop := ∃ e, secp256k1_pubkey_load d = Some e ∧ affine e (Some P).

Lemma pubkey_save_spec (e : ge) (P : Fp * Fp) : affine e (Some P) → on_curve (Some P) → key_stored (secp256k1_pubkey_save e) P.
Proof.
  destruct P as [x y]. intros Ha Hc. pose proof (ge_to_storage_spec (st := secp256k1_fe_storage) e (x, y) Ha) as Hs. unfold stored in Hs.
  exists (ge_from_storage (secp256k1_pubkey_save e)). split; [|exact Hs]. unfold secp256k1_pubkey_load.
  destruct (affine_reps e x y Ha) as (_ & [Mx Vx] & _). destruct (normalize_spec (ge_x e)) as [Nx Ex]; [by apply (magnitude_le 6)|].
  assert (fe_is_zero (ge_x (ge_from_storage (secp256k1_pubkey_save e))) = false) as ->; [|reflexivity].
  unfold secp256k1_pubkey_save, ge_to_storage, ge_from_storage. cbn [ge_x ges_x]. rewrite compact_roundtrip, is_zero_spec, Ex, Vx by exact Nx.
  pose proof (on_curve_x_nonzero x y Hc). by destruct (Zmod.eqb_spec x Zmod.zero).
Qed.

Lemma ec_pubkey_parse_spec (input : list Z) :
  bytes_ok input →
  match secp256k1_ec_pubkey_parse input with
  | Some d => ∃ P, key_stored d P ∧ on_curve (Some P) ∧ key_encodes input P
  | None => ∀ P, on_curve (Some P) → ¬ key_encodes input P
  end.
Proof.
  intros Hb. pose proof (eckey_pubkey_parse_spec input Hb) as Hp. unfold secp256k1_ec_pubkey_parse. destruct (secp256k1_eckey_pubkey_parse input) as [e|]; cbn [mbind option_bind]; [|exact Hp].
  destruct Hp as (P & Ha & Hc & He). exists P. split; [by apply pubkey_save_spec|split; assumption].
Qed.

Lemma ec_pubkey_parse_some (input : list Z) (P : Fp * Fp) :
  bytes_ok input → on_curve (Some P) → key_encodes input P → ∃ d, secp256k1_ec_pubkey_parse input = Some d ∧ key_stored d P.
Proof.
  intros Hb Hc He. pose proof (ec_pubkey_parse_spec input Hb) as Hp. destruct (secp256k1_ec_pubkey_parse input) as [d|]; [|by destruct (Hp P Hc)].
  destruct Hp as (Q & Hd & HcQ & HeQ). exists d. split; [done|]. by rewrite (key_encodes_unique input P Q).
Qed.

Lemma ec_pubkey_serialize_spec (d : pubkey_data) (P : Fp * Fp) (compressed : bool) :
  key_stored d P → secp256k1_ec_pubkey_serialize d compressed = Some (if compressed then compressed_key P else uncompressed_key P).
Proof. intros (e & Hl & Ha). unfold secp256k1_ec_pubkey_serialize. rewrite Hl. cbn [mbind option_bind]. by apply eckey_pubkey_serialize_spec. Qed.

(** Negating [s] does not change what a signature is valid for. *)
Lemma ecdsa_valid_negate (A : point) (m r s : Z) : in_group A → ecdsa_valid A m r s → ecdsa_valid A m r ((- s) mod secp_n).
Proof.
  intros HA (Hr & Hs & w & x & y & Ew & Ec & Ex). split; [exact Hr|]. split.
  { intros E. apply Z_mod_zero_opp_full in E. rewrite Z.opp_involutive in E. by rewrite <- Zmult_mod_idemp_l, E in Ew. }
  exists (- w)%Z, x, (Zmod.opp y). split; [rewrite Zmult_mod_idemp_l; by replace (- s * - w)%Z with (s * w)%Z by lia|]. split; [|exact Ex].
  unfold combination in *. rewrite !Z.mul_opp_l, !point_mul_opp by (apply HA || apply generator_on_curve).
  rewrite <- point_neg_add by (apply point_mul_on_curve; (apply HA || apply generator_on_curve)). by rewrite Ec.
Qed.

Lemma scalar_msg (msg32 : list Z) :
  bytes_ok msg32 → length msg32 = 32%nat → sc_ok (secp256k1_scalar_set_b32 msg32).1 ∧ sc_val (secp256k1_scalar_set_b32 msg32).1 = (be_val msg32 mod secp_n)%Z.
Proof. intros Hb Hl. destruct (sc_set_b32_spec msg32 Hb Hl) as (? & ? & _). by split. Qed.

Lemma signature_normalize_spec (r s : secp256k1_scalar) :
  sc_ok s →
  let '((r', s'), high) := secp256k1_ecdsa_signature_normalize (r, s) in
  r' = r ∧ sc_ok s' ∧ (sc_val s' <= secp_n / 2)%Z ∧ high = (secp_n / 2 <? sc_val s)%Z ∧
  (∀ A m, in_group A → ecdsa_valid A m (sc_val r) (sc_val s') ↔ ecdsa_valid A m (sc_val r) (sc_val s)).
Proof.
  intros Hs. unfold secp256k1_ecdsa_signature_normalize. rewrite sc_is_high_spec by apply Hs. pose proof (sc_ok_range s Hs) as Rs.
  destruct (Z.ltb_spec (secp_n / 2) (sc_val s)) as [Hh|Hl]; [|split; [reflexivity|]; split; [exact Hs|]; split; [exact Hl|]; split; [reflexivity|]; intros A m _; reflexivity].
  destruct (sc_negate_spec s Hs) as [Hn Vn]. rewrite Vn. split; [reflexivity|]. split; [exact Hn|]. split.
  { rewrite Z.mod_opp_l_nz; [|done|rewrite Z.mod_small by lia; pose proof (Z.div_pos secp_n 2 ltac:(done) ltac:(lia)); lia]. rewrite Z.mod_small by lia.
    change (secp_n / 2)%Z with 57896044618658097711785492504343953926418782139537452191302581570759080747168%Z in *. unfold secp_n in *. lia. }
  split; [reflexivity|]. intros A m HA. split; [|by apply ecdsa_valid_negate]. intros Hv. apply ecdsa_valid_negate in Hv; [|exact HA].
  replace (- (- sc_val s mod secp_n) mod secp_n)%Z with (sc_val s) in Hv; [exact Hv|].
  rewrite <- (Z.mod_small (sc_val s) secp_n) at 1 by lia. pose proof (Z.div_mod (- sc_val s) secp_n ltac:(done)).
  replace (- (- sc_val s mod secp_n))%Z with (sc_val s + (- sc_val s / secp_n) * secp_n)%Z by lia. by rewrite Z_mod_plus_full.
Qed.

Section Spec.
Context (ctx : ecmult_context) (d0 : gej) (Hctx : context_ok (fe := secp256k1_fe) ctx) (Hd0 : gej_ok d0).

Lemma ecdsa_verify_spec (r s : secp256k1_scalar) (msg32 : list Z) (d : pubkey_data) (P : Fp * Fp) :
  sc_ok r → sc_ok s → bytes_ok msg32 → length msg32 = 32%nat → key_stored d P → in_group (Some P) →
  ∃ b, secp256k1_ecdsa_verify ctx d0 (r, s) msg32 d = Some b ∧
    (b = true ↔ (sc_val s <= secp_n / 2)%Z ∧ ecdsa_valid (Some P) (be_val msg32 mod secp_n) (sc_val r) (sc_val s)).
Proof using Hctx Hd0.
  intros Hr Hs Hb Hl (e & Hload & Ha) HP. unfold secp256k1_ecdsa_verify. rewrite sc_is_high_spec by apply Hs. rewrite Hload.
  destruct (scalar_msg msg32 Hb Hl) as [Hm Vm]. destruct (Z.ltb_spec (secp_n / 2) (sc_val s)) as [Hh|Hlow].
  - exists false. split; [reflexivity|]. split; [discriminate|intros [? _]; lia].
  - destruct (sig_verify_spec ctx d0 r s (secp256k1_scalar_set_b32 msg32).1 e (Some P) Hctx Hd0 Hr Hs Hm Ha HP ltac:(discriminate)) as (b & E & Hv).
    exists b. split; [exact E|]. rewrite Hv, Vm. tauto.
Qed.

Lemma ecdsa_verify_normalized (r s : secp256k1_scalar) (msg32 : list Z) (d : pubkey_data) (P : Fp * Fp) :
  sc_ok r → sc_ok s → bytes_ok msg32 → length msg32 = 32%nat → key_stored d P → in_group (Some P) →
  ∃ b, secp256k1_ecdsa_verify ctx d0 (secp256k1_ecdsa_signature_normalize (r, s)).1 msg32 d = Some b ∧
    (b = true ↔ ecdsa_valid (Some P) (be_val msg32 mod secp_n) (sc_val r) (sc_val s)).
Proof using Hctx Hd0.
  intros Hr Hs Hb Hl Hk HP. pose proof (signature_normalize_spec r s Hs) as Hn. destruct (secp256k1_ecdsa_signature_normalize (r, s)) as [[r' s'] h].
  destruct Hn as (-> & Hs' & Hlow & _ & Hv). destruct (ecdsa_verify_spec r s' msg32 d P Hr Hs' Hb Hl Hk HP) as (b & E & Hb'). exists b. split; [exact E|].
  rewrite Hb', Hv by exact HP. tauto.
Qed.

(** The tweaked key: the point plus a multiple of the generator *)
Lemma ec_pubkey_tweak_add_spec (d : pubkey_data) (tweak : list Z) (P : Fp * Fp) :
  bytes_ok tweak → length tweak = 32%nat → key_stored d P → in_group (Some P) →
  ∃ o, secp256k1_ec_pubkey_tweak_add ctx d0 d tweak = Some o ∧
    match o with
    | Some d' => (be_val tweak < secp_n)%Z ∧ ∃ Q, key_stored d' Q ∧ on_curve (Some Q) ∧ Some Q = point_add (Some P) (point_mul (be_val tweak) generator)
    | None => (secp_n <= be_val tweak)%Z ∨ point_add (Some P) (point_mul (be_val tweak) generator) = None
    end.
Proof using Hctx Hd0.
  intros Hb Hl (e & Hload & Ha) HP. unfold secp256k1_ec_pubkey_tweak_add. destruct (sc_set_b32_spec tweak Hb Hl) as (Ht & Vt & Ot).
  destruct (secp256k1_scalar_set_b32 tweak) as [t o]. cbn [fst snd] in *. subst o. destruct (Z.leb_spec secp_n (be_val tweak)) as [Hge|Hlt]; [exists None; auto|].
  rewrite Z.mod_small in Vt by (pose proof (be_val_range tweak Hb); lia). rewrite Hload. unfold secp256k1_eckey_pubkey_tweak_add.
  assert (sc_ok (secp256k1_scalar_set_int 1) ∧ sc_val (secp256k1_scalar_set_int 1) = 1%Z) as [H1 V1] by done.
  destruct (ecmult_spec ctx d0 (gej_set_ge e) (secp256k1_scalar_set_int 1) t (Some P) Hctx Hd0 (gej_set_ge_spec _ _ Ha) HP ltac:(discriminate) H1 Ht) as (pt & -> & Hp).
  cbn [mbind option_bind]. rewrite V1, Vt in Hp. unfold combination in Hp. rewrite (point_mul_1 (Some P) (proj1 HP)) in Hp.
  assert (on_curve (point_add (Some P) (point_mul (be_val tweak) generator))) as Hc.
  { apply point_add_on_curve; [apply HP|apply point_mul_on_curve, generator_on_curve]. }
  destruct (point_add (Some P) (point_mul (be_val tweak) generator)) as [[x y]|].
  - pose proof Hp as [_ [-> _]]. eexists. split; [reflexivity|]. split; [exact Hlt|]. exists (x, y). 
    destruct (ge_set_gej_spec e pt (Some (x, y)) (proj1 Ha) Hp) as (Haff & _). split; [by apply pubkey_save_spec|split; [exact Hc|reflexivity]].
  - destruct Hp as [_ ->]. exists None. auto.
Qed.
End Spec.

(** Tweaking the secret key tweaks the public key with it. *)
Lemma ec_privkey_tweak_add_spec (seckey tweak : list Z) :
  bytes_ok seckey → length seckey = 32%nat → bytes_ok tweak → length tweak = 32%nat →
  match secp256k1_ec_privkey_tweak_add seckey tweak with
  | Some k => length k = 32%nat ∧ bytes_ok k ∧ (0 < be_val k < secp_n)%Z ∧ (be_val tweak < secp_n)%Z ∧
      point_mul (be_val k) generator = point_add (point_mul (be_val seckey) generator) (point_mul (be_val tweak) generator)
  | None => (secp_n <= be_val tweak)%Z ∨ point_add (point_mul (be_val seckey) generator) (point_mul (be_val tweak) generator) = None
  end.
Proof.
  intros Hbs Hls Hbt Hlt. unfold secp256k1_ec_privkey_tweak_add, secp256k1_eckey_privkey_tweak_add. destruct (sc_set_b32_spec tweak Hbt Hlt) as (Ht & Vt & Ot), (scalar_msg seckey Hbs Hls) as [Hs Vs].
  destruct (secp256k1_scalar_set_b32 tweak) as [t o]. cbn [fst snd] in *. subst o. destruct (Z.leb_spec secp_n (be_val tweak)) as [Hge|Hlt']; [auto|].
  pose proof (sc_add_spec (secp256k1_scalar_set_b32 seckey).1 t Hs Ht) as Ha. destruct (secp256k1_scalar_add (secp256k1_scalar_set_b32 seckey).1 t) as [k o].
  destruct Ha as (Hk & Vk & _). cbn [fst]. rewrite Vs, Vt, <- Zplus_mod in Vk. rewrite sc_is_zero_spec by apply Hk.
  rewrite <- (point_mul_add generator generator_on_curve), <- (point_mul_mod _ generator in_group_generator), <- Vk.
  destruct (Z.eqb_spec (sc_val k) 0) as [->|Hnz]; cbn [mbind option_bind]; [by right|]. destruct (sc_get_b32_spec k (proj1 Hk)) as (L & B & E). rewrite E.
  pose proof (sc_ok_range k Hk). split; [exact L|]. split; [exact B|]. split; [lia|]. split; [exact Hlt'|reflexivity].
Qed.

(** ** Properties *)

Definition generator_xy : Fp * Fp := (fe_value (ge_x secp256k1_ge_const_g), fe_value (ge_y secp256k1_ge_const_g)).

Lemma generator_xy_on_curve : on_curve (Some generator_xy).
Proof. exact generator_on_curve. Qed.

Lemma generator_xy_in_group : in_group (Some generator_xy).
Proof. exact in_group_generator. Qed.

Lemma generator_stored : key_stored (secp256k1_pubkey_save secp256k1_ge_const_g) generator_xy.
Proof. apply pubkey_save_spec; [exact generator_affine|exact generator_on_curve]. Qed.

Lemma gej_clear_ok : gej_ok (gej_clear (fe := secp256k1_fe)).
Proof. destruct clear_spec as [Hn _]. pose proof (normalized_magnitude _ Hn) as M. split; [by apply (magnitude_le 1)|split; by apply (magnitude_le 1)]. Qed.

(** public keys are read and written exactly.  A byte string is accepted if and only if it is the compressed, the uncompressed or
    the hybrid encoding of a point of the curve; what is accepted is written back as the compressed or uncompressed
    encoding of that same point; and both encodings of every finite point of the curve are accepted. *)
Theorem pubkey_codec_correct (pub : list Z) (Q : Fp * Fp) (c c' : bool) :
  bytes_ok pub → on_curve (Some Q) →
  match secp256k1_ec_pubkey_parse pub with
  | Some d => ∃ P, on_curve (Some P) ∧ key_encodes pub P ∧ secp256k1_ec_pubkey_serialize d c = Some (if c then compressed_key P else uncompressed_key P)
  | None => ∀ P, on_curve (Some P) → ¬ key_encodes pub P
  end ∧
  ∃ d, secp256k1_ec_pubkey_parse (if c then compressed_key Q else uncompressed_key Q) = Some d ∧
    secp256k1_ec_pubkey_serialize d c' = Some (if c' then compressed_key Q else uncompressed_key Q).
Proof.
  intros Hb HQ. split.
  - pose proof (ec_pubkey_parse_spec pub Hb) as Hp. destruct (secp256k1_ec_pubkey_parse pub) as [d|]; [|exact Hp].
    destruct Hp as (P & Hd & Hc & He). exists P. split; [exact Hc|]. split; [exact He|]. by apply ec_pubkey_serialize_spec.
  - destruct (coord_spec Q.1) as (_ & Bx & _), (coord_spec Q.2) as (_ & By & _).
    destruct (ec_pubkey_parse_some (if c then compressed_key Q else uncompressed_key Q) Q) as (d & E & Hd); [|exact HQ|destruct c; [by left|by right; left]|].
    + destruct c; unfold compressed_key, uncompressed_key; constructor; [by destruct (Z.odd _)|done|done|by apply Forall_app].
    + exists d. split; [exact E|]. by apply ec_pubkey_serialize_spec.
Qed.

Lemma pubkey_codec_correct_witness :
  ∃ d, secp256k1_ec_pubkey_parse (compressed_key generator_xy) = Some d ∧ secp256k1_ec_pubkey_serialize d false = Some (uncompressed_key generator_xy).
Proof. apply (pubkey_codec_correct [5%Z] generator_xy true false); [by apply bytes_okb_ok|apply generator_xy_on_curve]. Defined.

(** the verification of the library decides ECDSA.  For scalars below the order, a 32-byte message and a stored key [P] of the group,
    verification returns, without reading outside its tables, and accepts exactly if [s] is at most half the order and
    the x coordinate of [s^-1 m G + s^-1 r P] is [r] modulo the order; on the normalized signature it accepts exactly
    if that holds for the given one, high or low. *)
Theorem secp256k1_verify_correct (d1 d0 : gej) (r s : secp256k1_scalar) (msg32 : list Z) (d : pubkey_data) (P : Fp * Fp) :
  gej_ok d1 → gej_ok d0 → sc_ok r → sc_ok s → bytes_ok msg32 → length msg32 = 32%nat → key_stored d P → in_group (Some P) →
  let ctx := ecmult_context_build secp256k1_ge_const_g d1 ecmult_context_init in
  (∃ b, secp256k1_ecdsa_verify ctx d0 (r, s) msg32 d = Some b ∧
    (b = true ↔ (sc_val s <= secp_n / 2)%Z ∧ ecdsa_valid (Some P) (be_val msg32 mod secp_n) (sc_val r) (sc_val s))) ∧
  (∃ b, secp256k1_ecdsa_verify ctx d0 (secp256k1_ecdsa_signature_normalize (r, s)).1 msg32 d = Some b ∧
    (b = true ↔ ecdsa_valid (Some P) (be_val msg32 mod secp_n) (sc_val r) (sc_val s))).
Proof.
  intros H1 H0 Hr Hs Hb Hl Hd HP ctx. assert (context_ok (fe := secp256k1_fe) ctx) as Hctx by (apply ecmult_context_build_spec; [exact H1|apply generator_affine]).
  split; [by apply ecdsa_verify_spec|by apply ecdsa_verify_normalized].
Qed.

Lemma secp256k1_verify_correct_witness :
  ∃ b, secp256k1_ecdsa_verify (ecmult_context_build secp256k1_ge_const_g gej_clear ecmult_context_init) gej_clear
         (secp256k1_ecdsa_signature_normalize (MkScalar 2 0 0 0, MkScalar 3 0 0 0)).1 (replicate 32 1%Z) (secp256k1_pubkey_save secp256k1_ge_const_g) = Some b ∧
    (b = true ↔ ecdsa_valid (Some generator_xy) (be_val (replicate 32 1%Z) mod secp_n) 2 3).
Proof.
  apply (secp256k1_verify_correct gej_clear gej_clear (MkScalar 2 0 0 0) (MkScalar 3 0 0 0) (replicate 32 1%Z) (secp256k1_pubkey_save secp256k1_ge_const_g) generator_xy);
    [apply gej_clear_ok|apply gej_clear_ok|split; [repeat split; vm_compute; congruence|reflexivity]..|by apply bytes_okb_ok|reflexivity|apply generator_stored|apply generator_xy_in_group].
Defined.
