(* ===== verification/Script.v ===== *)
(** * Scripts ([src/src/script/script.h], [src/src/script/script.cpp])

    A script is the list of its bytes; a [const_iterator] into it is the list of
    the bytes still to be read.  [GetOp] returns the advanced iterator also when it
    fails, because the signature serializer uses it.  An opcode is its byte, as
    the C++ enumeration is cast from one; the enumerators are constants.
    [CScriptNum] is the variable-length signed integer of the script language. *)

From Stdlib Require Import ZArith Lia String.
From stdpp Require Import list.
From S2P Require Import Prelude Common.

Open Scope Z_scope.
Open Scope word_scope.

Abbreviation valtype := (list Z).
Abbreviation CScript := (list Z).
Abbreviation opcodetype := Z.

Definition MAX_SCRIPT_ELEMENT_SIZE : Z := 520.
Definition MAX_OPS_PER_SCRIPT : Z := 201.
Definition MAX_PUBKEYS_PER_MULTISIG : Z := 20.
Definition MAX_SCRIPT_SIZE : Z := 10000.
Definition MAX_STACK_SIZE : Z := 1000.
Definition LOCKTIME_THRESHOLD : Z := 500000000.

(** ** [enum opcodetype] *)

Definition OP_0 : opcodetype := 0x00.
Definition OP_FALSE : opcodetype := OP_0.
Definition OP_PUSHDATA1 : opcodetype := 0x4c.
Definition OP_PUSHDATA2 : opcodetype := 0x4d.
Definition OP_PUSHDATA4 : opcodetype := 0x4e.
Definition OP_1NEGATE : opcodetype := 0x4f.
Definition OP_RESERVED : opcodetype := 0x50.
Definition OP_1 : opcodetype := 0x51.
Definition OP_TRUE : opcodetype := OP_1.
Definition OP_2 : opcodetype := 0x52.
Definition OP_3 : opcodetype := 0x53.
Definition OP_4 : opcodetype := 0x54.
Definition OP_5 : opcodetype := 0x55.
Definition OP_6 : opcodetype := 0x56.
Definition OP_7 : opcodetype := 0x57.
Definition OP_8 : opcodetype := 0x58.
Definition OP_9 : opcodetype := 0x59.
Definition OP_10 : opcodetype := 0x5a.
Definition OP_11 : opcodetype := 0x5b.
Definition OP_12 : opcodetype := 0x5c.
Definition OP_13 : opcodetype := 0x5d.
Definition OP_14 : opcodetype := 0x5e.
Definition OP_15 : opcodetype := 0x5f.
Definition OP_16 : opcodetype := 0x60.
Definition OP_NOP : opcodetype := 0x61.
Definition OP_VER : opcodetype := 0x62.
Definition OP_IF : opcodetype := 0x63.
Definition OP_NOTIF : opcodetype := 0x64.
Definition OP_VERIF : opcodetype := 0x65.
Definition OP_VERNOTIF : opcodetype := 0x66.
Definition OP_ELSE : opcodetype := 0x67.
Definition OP_ENDIF : opcodetype := 0x68.
Definition OP_VERIFY : opcodetype := 0x69.
Definition OP_RETURN : opcodetype := 0x6a.
Definition OP_TOALTSTACK : opcodetype := 0x6b.
Definition OP_FROMALTSTACK : opcodetype := 0x6c.
Definition OP_2DROP : opcodetype := 0x6d.
Definition OP_2DUP : opcodetype := 0x6e.
Definition OP_3DUP : opcodetype := 0x6f.
Definition OP_2OVER : opcodetype := 0x70.
Definition OP_2ROT : opcodetype := 0x71.
Definition OP_2SWAP : opcodetype := 0x72.
Definition OP_IFDUP : opcodetype := 0x73.
Definition OP_DEPTH : opcodetype := 0x74.
Definition OP_DROP : opcodetype := 0x75.
Definition OP_DUP : opcodetype := 0x76.
Definition OP_NIP : opcodetype := 0x77.
Definition OP_OVER : opcodetype := 0x78.
Definition OP_PICK : opcodetype := 0x79.
Definition OP_ROLL : opcodetype := 0x7a.
Definition OP_ROT : opcodetype := 0x7b.
Definition OP_SWAP : opcodetype := 0x7c.
Definition OP_TUCK : opcodetype := 0x7d.
Definition OP_CAT : opcodetype := 0x7e.
Definition OP_SUBSTR : opcodetype := 0x7f.
Definition OP_LEFT : opcodetype := 0x80.
Definition OP_RIGHT : opcodetype := 0x81.
Definition OP_SIZE : opcodetype := 0x82.
Definition OP_INVERT : opcodetype := 0x83.
Definition OP_AND : opcodetype := 0x84.
Definition OP_OR : opcodetype := 0x85.
Definition OP_XOR : opcodetype := 0x86.
Definition OP_EQUAL : opcodetype := 0x87.
Definition OP_EQUALVERIFY : opcodetype := 0x88.
Definition OP_RESERVED1 : opcodetype := 0x89.
Definition OP_RESERVED2 : opcodetype := 0x8a.
Definition OP_1ADD : opcodetype := 0x8b.
Definition OP_1SUB : opcodetype := 0x8c.
Definition OP_2MUL : opcodetype := 0x8d.
Definition OP_2DIV : opcodetype := 0x8e.
Definition OP_NEGATE : opcodetype := 0x8f.
Definition OP_ABS : opcodetype := 0x90.
Definition OP_NOT : opcodetype := 0x91.
Definition OP_0NOTEQUAL : opcodetype := 0x92.
Definition OP_ADD : opcodetype := 0x93.
Definition OP_SUB : opcodetype := 0x94.
Definition OP_MUL : opcodetype := 0x95.
Definition OP_DIV : opcodetype := 0x96.
Definition OP_MOD : opcodetype := 0x97.
Definition OP_LSHIFT : opcodetype := 0x98.
Definition OP_RSHIFT : opcodetype := 0x99.
Definition OP_BOOLAND : opcodetype := 0x9a.
Definition OP_BOOLOR : opcodetype := 0x9b.
Definition OP_NUMEQUAL : opcodetype := 0x9c.
Definition OP_NUMEQUALVERIFY : opcodetype := 0x9d.
Definition OP_NUMNOTEQUAL : opcodetype := 0x9e.
Definition OP_LESSTHAN : opcodetype := 0x9f.
Definition OP_GREATERTHAN : opcodetype := 0xa0.
Definition OP_LESSTHANOREQUAL : opcodetype := 0xa1.
Definition OP_GREATERTHANOREQUAL : opcodetype := 0xa2.
Definition OP_MIN : opcodetype := 0xa3.
Definition OP_MAX : opcodetype := 0xa4.
Definition OP_WITHIN : opcodetype := 0xa5.
Definition OP_RIPEMD160 : opcodetype := 0xa6.
Definition OP_SHA1 : opcodetype := 0xa7.
Definition OP_SHA256 : opcodetype := 0xa8.
Definition OP_HASH160 : opcodetype := 0xa9.
Definition OP_HASH256 : opcodetype := 0xaa.
Definition OP_CODESEPARATOR : opcodetype := 0xab.
Definition OP_CHECKSIG : opcodetype := 0xac.
Definition OP_CHECKSIGVERIFY : opcodetype := 0xad.
Definition OP_CHECKMULTISIG : opcodetype := 0xae.
Definition OP_CHECKMULTISIGVERIFY : opcodetype := 0xaf.
Definition OP_NOP1 : opcodetype := 0xb0.
Definition OP_CHECKLOCKTIMEVERIFY : opcodetype := 0xb1.
Definition OP_NOP2 : opcodetype := OP_CHECKLOCKTIMEVERIFY.
Definition OP_CHECKSEQUENCEVERIFY : opcodetype := 0xb2.
Definition OP_NOP3 : opcodetype := OP_CHECKSEQUENCEVERIFY.
Definition OP_NOP4 : opcodetype := 0xb3.
Definition OP_NOP5 : opcodetype := 0xb4.
Definition OP_NOP6 : opcodetype := 0xb5.
Definition OP_NOP7 : opcodetype := 0xb6.
Definition OP_NOP8 : opcodetype := 0xb7.
Definition OP_NOP9 : opcodetype := 0xb8.
Definition OP_NOP10 : opcodetype := 0xb9.
Definition OP_SMALLINTEGER : opcodetype := 0xfa.
Definition OP_PUBKEYS : opcodetype := 0xfb.
Definition OP_PUBKEYHASH : opcodetype := 0xfd.
Definition OP_PUBKEY : opcodetype := 0xfe.
Definition OP_INVALIDOPCODE : opcodetype := 0xff.

(** The enumerators, in order. *)
Definition opcodes : list opcodetype :=
  [OP_0; OP_FALSE; OP_PUSHDATA1; OP_PUSHDATA2; OP_PUSHDATA4; OP_1NEGATE; OP_RESERVED; OP_1; OP_TRUE; OP_2;
   OP_3; OP_4; OP_5; OP_6; OP_7; OP_8; OP_9; OP_10; OP_11; OP_12; OP_13; OP_14; OP_15; OP_16; OP_NOP; OP_VER;
   OP_IF; OP_NOTIF; OP_VERIF; OP_VERNOTIF; OP_ELSE; OP_ENDIF; OP_VERIFY; OP_RETURN; OP_TOALTSTACK;
   OP_FROMALTSTACK; OP_2DROP; OP_2DUP; OP_3DUP; OP_2OVER; OP_2ROT; OP_2SWAP; OP_IFDUP; OP_DEPTH; OP_DROP;
   OP_DUP; OP_NIP; OP_OVER; OP_PICK; OP_ROLL; OP_ROT; OP_SWAP; OP_TUCK; OP_CAT; OP_SUBSTR; OP_LEFT; OP_RIGHT;
   OP_SIZE; OP_INVERT; OP_AND; OP_OR; OP_XOR; OP_EQUAL; OP_EQUALVERIFY; OP_RESERVED1; OP_RESERVED2; OP_1ADD;
   OP_1SUB; OP_2MUL; OP_2DIV; OP_NEGATE; OP_ABS; OP_NOT; OP_0NOTEQUAL; OP_ADD; OP_SUB; OP_MUL; OP_DIV;
   OP_MOD; OP_LSHIFT; OP_RSHIFT; OP_BOOLAND; OP_BOOLOR; OP_NUMEQUAL; OP_NUMEQUALVERIFY; OP_NUMNOTEQUAL;
   OP_LESSTHAN; OP_GREATERTHAN; OP_LESSTHANOREQUAL; OP_GREATERTHANOREQUAL; OP_MIN; OP_MAX; OP_WITHIN;
   OP_RIPEMD160; OP_SHA1; OP_SHA256; OP_HASH160; OP_HASH256; OP_CODESEPARATOR; OP_CHECKSIG;
   OP_CHECKSIGVERIFY; OP_CHECKMULTISIG; OP_CHECKMULTISIGVERIFY; OP_NOP1; OP_CHECKLOCKTIMEVERIFY; OP_NOP2;
   OP_CHECKSEQUENCEVERIFY; OP_NOP3; OP_NOP4; OP_NOP5; OP_NOP6; OP_NOP7; OP_NOP8; OP_NOP9; OP_NOP10;
   OP_SMALLINTEGER; OP_PUBKEYS; OP_PUBKEYHASH; OP_PUBKEY; OP_INVALIDOPCODE].

Definition MAX_OPCODE : Z := OP_NOP10.

(** [GetOpName] *)
Definition GetOpName (opcode : opcodetype) : string :=
  if opcode =? OP_0 then "0"%string else
  if opcode =? OP_PUSHDATA1 then "OP_PUSHDATA1"%string else
  if opcode =? OP_PUSHDATA2 then "OP_PUSHDATA2"%string else
  if opcode =? OP_PUSHDATA4 then "OP_PUSHDATA4"%string else
  if opcode =? OP_1NEGATE then "-1"%string else
  if opcode =? OP_RESERVED then "OP_RESERVED"%string else
  if opcode =? OP_1 then "1"%string else
  if opcode =? OP_2 then "2"%string else
  if opcode =? OP_3 then "3"%string else
  if opcode =? OP_4 then "4"%string else
  if opcode =? OP_5 then "5"%string else
  if opcode =? OP_6 then "6"%string else
  if opcode =? OP_7 then "7"%string else
  if opcode =? OP_8 then "8"%string else
  if opcode =? OP_9 then "9"%string else
  if opcode =? OP_10 then "10"%string else
  if opcode =? OP_11 then "11"%string else
  if opcode =? OP_12 then "12"%string else
  if opcode =? OP_13 then "13"%string else
  if opcode =? OP_14 then "14"%string else
  if opcode =? OP_15 then "15"%string else
  if opcode =? OP_16 then "16"%string else
  if opcode =? OP_NOP then "OP_NOP"%string else
  if opcode =? OP_VER then "OP_VER"%string else
  if opcode =? OP_IF then "OP_IF"%string else
  if opcode =? OP_NOTIF then "OP_NOTIF"%string else
  if opcode =? OP_VERIF then "OP_VERIF"%string else
  if opcode =? OP_VERNOTIF then "OP_VERNOTIF"%string else
  if opcode =? OP_ELSE then "OP_ELSE"%string else
  if opcode =? OP_ENDIF then "OP_ENDIF"%string else
  if opcode =? OP_VERIFY then "OP_VERIFY"%string else
  if opcode =? OP_RETURN then "OP_RETURN"%string else
  if opcode =? OP_TOALTSTACK then "OP_TOALTSTACK"%string else
  if opcode =? OP_FROMALTSTACK then "OP_FROMALTSTACK"%string else
  if opcode =? OP_2DROP then "OP_2DROP"%string else
  if opcode =? OP_2DUP then "OP_2DUP"%string else
  if opcode =? OP_3DUP then "OP_3DUP"%string else
  if opcode =? OP_2OVER then "OP_2OVER"%string else
  if opcode =? OP_2ROT then "OP_2ROT"%string else
  if opcode =? OP_2SWAP then "OP_2SWAP"%string else
  if opcode =? OP_IFDUP then "OP_IFDUP"%string else
  if opcode =? OP_DEPTH then "OP_DEPTH"%string else
  if opcode =? OP_DROP then "OP_DROP"%string else
  if opcode =? OP_DUP then "OP_DUP"%string else
  if opcode =? OP_NIP then "OP_NIP"%string else
  if opcode =? OP_OVER then "OP_OVER"%string else
  if opcode =? OP_PICK then "OP_PICK"%string else
  if opcode =? OP_ROLL then "OP_ROLL"%string else
  if opcode =? OP_ROT then "OP_ROT"%string else
  if opcode =? OP_SWAP then "OP_SWAP"%string else
  if opcode =? OP_TUCK then "OP_TUCK"%string else
  if opcode =? OP_CAT then "OP_CAT"%string else
  if opcode =? OP_SUBSTR then "OP_SUBSTR"%string else
  if opcode =? OP_LEFT then "OP_LEFT"%string else
  if opcode =? OP_RIGHT then "OP_RIGHT"%string else
  if opcode =? OP_SIZE then "OP_SIZE"%string else
  if opcode =? OP_INVERT then "OP_INVERT"%string else
  if opcode =? OP_AND then "OP_AND"%string else
  if opcode =? OP_OR then "OP_OR"%string else
  if opcode =? OP_XOR then "OP_XOR"%string else
  if opcode =? OP_EQUAL then "OP_EQUAL"%string else
  if opcode =? OP_EQUALVERIFY then "OP_EQUALVERIFY"%string else
  if opcode =? OP_RESERVED1 then "OP_RESERVED1"%string else
  if opcode =? OP_RESERVED2 then "OP_RESERVED2"%string else
  if opcode =? OP_1ADD then "OP_1ADD"%string else
  if opcode =? OP_1SUB then "OP_1SUB"%string else
  if opcode =? OP_2MUL then "OP_2MUL"%string else
  if opcode =? OP_2DIV then "OP_2DIV"%string else
  if opcode =? OP_NEGATE then "OP_NEGATE"%string else
  if opcode =? OP_ABS then "OP_ABS"%string else
  if opcode =? OP_NOT then "OP_NOT"%string else
  if opcode =? OP_0NOTEQUAL then "OP_0NOTEQUAL"%string else
  if opcode =? OP_ADD then "OP_ADD"%string else
  if opcode =? OP_SUB then "OP_SUB"%string else
  if opcode =? OP_MUL then "OP_MUL"%string else
  if opcode =? OP_DIV then "OP_DIV"%string else
  if opcode =? OP_MOD then "OP_MOD"%string else
  if opcode =? OP_LSHIFT then "OP_LSHIFT"%string else
  if opcode =? OP_RSHIFT then "OP_RSHIFT"%string else
  if opcode =? OP_BOOLAND then "OP_BOOLAND"%string else
  if opcode =? OP_BOOLOR then "OP_BOOLOR"%string else
  if opcode =? OP_NUMEQUAL then "OP_NUMEQUAL"%string else
  if opcode =? OP_NUMEQUALVERIFY then "OP_NUMEQUALVERIFY"%string else
  if opcode =? OP_NUMNOTEQUAL then "OP_NUMNOTEQUAL"%string else
  if opcode =? OP_LESSTHAN then "OP_LESSTHAN"%string else
  if opcode =? OP_GREATERTHAN then "OP_GREATERTHAN"%string else
  if opcode =? OP_LESSTHANOREQUAL then "OP_LESSTHANOREQUAL"%string else
  if opcode =? OP_GREATERTHANOREQUAL then "OP_GREATERTHANOREQUAL"%string else
  if opcode =? OP_MIN then "OP_MIN"%string else
  if opcode =? OP_MAX then "OP_MAX"%string else
  if opcode =? OP_WITHIN then "OP_WITHIN"%string else
  if opcode =? OP_RIPEMD160 then "OP_RIPEMD160"%string else
  if opcode =? OP_SHA1 then "OP_SHA1"%string else
  if opcode =? OP_SHA256 then "OP_SHA256"%string else
  if opcode =? OP_HASH160 then "OP_HASH160"%string else
  if opcode =? OP_HASH256 then "OP_HASH256"%string else
  if opcode =? OP_CODESEPARATOR then "OP_CODESEPARATOR"%string else
  if opcode =? OP_CHECKSIG then "OP_CHECKSIG"%string else
  if opcode =? OP_CHECKSIGVERIFY then "OP_CHECKSIGVERIFY"%string else
  if opcode =? OP_CHECKMULTISIG then "OP_CHECKMULTISIG"%string else
  if opcode =? OP_CHECKMULTISIGVERIFY then "OP_CHECKMULTISIGVERIFY"%string else
  if opcode =? OP_NOP1 then "OP_NOP1"%string else
  if opcode =? OP_CHECKLOCKTIMEVERIFY then "OP_CHECKLOCKTIMEVERIFY"%string else
  if opcode =? OP_CHECKSEQUENCEVERIFY then "OP_CHECKSEQUENCEVERIFY"%string else
  if opcode =? OP_NOP4 then "OP_NOP4"%string else
  if opcode =? OP_NOP5 then "OP_NOP5"%string else
  if opcode =? OP_NOP6 then "OP_NOP6"%string else
  if opcode =? OP_NOP7 then "OP_NOP7"%string else
  if opcode =? OP_NOP8 then "OP_NOP8"%string else
  if opcode =? OP_NOP9 then "OP_NOP9"%string else
  if opcode =? OP_NOP10 then "OP_NOP10"%string else
  if opcode =? OP_INVALIDOPCODE then "OP_INVALIDOPCODE"%string else
  "OP_UNKNOWN"%string.

(** ** [class CScriptNum] *)

Module ScriptNum.

Definition nDefaultMaxNumSize : nat := 4.

(** [set_vch]: little endian with the sign in the top bit of the last byte. *)
Definition set_vch (vch : valtype) : Z :=
  match vch with
  | [] => 0
  | _ =>
      let n := length vch in
      let result := for_up 0 n (λ i r, i64 (r .| (vch.[i] .<< (8 * i)))) 0 in
      if negb (vch.[n - 1] .& 0x80 =? 0)
      then i64 (- i64 (u64 result .& u64 (Z.lnot (0x80 .<< (8 * (n - 1)%nat)))))
      else result
  end.

(** The constructor from bytes; [None] is the [scriptnum_error] it throws. *)
Definition CScriptNum (vch : valtype) (fRequireMinimal : bool) (nMaxNumSize : nat) : option Z :=
  let n := length vch in
  if (nMaxNumSize <? n)%nat then None
  else if fRequireMinimal && (0 <? n)%nat && (vch.[n - 1] .& 0x7f =? 0)
          && ((n <=? 1)%nat || (vch.[n - 2] .& 0x80 =? 0))
  then None
  else Some (set_vch vch).

(** The [while] of [serialize]; eight turns exhaust a [uint64_t]. *)
Fixpoint serialize_loop (fuel : nat) (absvalue : Z) : list Z :=
  match fuel with
  | O => []
  | S fuel' =>
      if absvalue =? 0 then []
      else (absvalue .& 0xff) :: serialize_loop fuel' (absvalue .>> 8)
  end.

Definition serialize (value : Z) : valtype :=
  if value =? 0 then []
  else
    let neg := value <? 0 in
    let absvalue := u64 (if neg then - value else value) in
    let result := serialize_loop 8 absvalue in
    let n := length result in
    if negb (result.[n - 1] .& 0x80 =? 0)
    then result ++ [if neg then 0x80 else 0]
    else if neg then result.[n - 1 <- result.[n - 1] .| 0x80]
    else result.

Definition getvch (m_value : Z) : valtype := serialize m_value.

Definition INT64_MAX : Z := 2 ^ 63 - 1.
Definition INT64_MIN : Z := - 2 ^ 63.
Definition INT_MAX : Z := 2 ^ 31 - 1.
Definition INT_MIN : Z := - 2 ^ 31.

Definition getint (m_value : Z) : Z :=
  if m_value >? INT_MAX then INT_MAX
  else if m_value <? INT_MIN then INT_MIN
  else m_value.

(** The operators that assert: [None] is a failed assertion. *)
Definition add_assign (m_value rhs : Z) : option Z :=
  if (rhs =? 0) || ((rhs >? 0) && (m_value <=? INT64_MAX - rhs))
     || ((rhs <? 0) && (m_value >=? INT64_MIN - rhs))
  then Some (m_value + rhs) else None.

Definition sub_assign (m_value rhs : Z) : option Z :=
  if (rhs =? 0) || ((rhs >? 0) && (m_value >=? INT64_MIN + rhs))
     || ((rhs <? 0) && (m_value <=? INT64_MAX + rhs))
  then Some (m_value - rhs) else None.

Definition neg (m_value : Z) : option Z :=
  if m_value =? INT64_MIN then None else Some (- m_value).

(** The operators on [int64_t] without an assertion. *)
Definition add (m_value rhs : Z) : Z := i64 (m_value + rhs).
Definition sub (m_value rhs : Z) : Z := i64 (m_value - rhs).
Definition band (m_value rhs : Z) : Z := m_value .& rhs.

End ScriptNum.

(** ** [class CScript] *)

(** [operator<<(const std::vector<unsigned char>&)] *)
Definition push_data (script : CScript) (b : valtype) : CScript :=
  let n := length b in
  script ++
  (if n <? OP_PUSHDATA1 then [u8 n]
   else if n <=? 0xff then [OP_PUSHDATA1; u8 n]
   else if n <=? 0xffff then OP_PUSHDATA2 :: WriteLE16 (u16 n)
   else OP_PUSHDATA4 :: WriteLE32 (u32 n)) ++ b.

(** [operator<<(opcodetype)]; the enumeration never leaves a byte. *)
Definition push_opcode (script : CScript) (opcode : opcodetype) : option CScript :=
  if (opcode <? 0) || (opcode >? 0xff) then None else Some (script ++ [u8 opcode]).

(** [push_int64] *)
Definition push_int64 (script : CScript) (n : Z) : CScript :=
  if (n =? -1) || ((1 <=? n) && (n <=? 16)) then script ++ [u8 (n + (OP_1 - 1))]
  else if n =? 0 then script ++ [OP_0]
  else push_data script (ScriptNum.serialize n).

(** The size operand of a push, with the iterator after it. *)
Definition read_size (opcode : opcodetype) (pc : list Z) : option Z * list Z :=
  if opcode <? OP_PUSHDATA1 then (Some opcode, pc)
  else if opcode =? OP_PUSHDATA1 then
    if (length pc <? 1)%nat then (None, pc) else (Some (pc.[0]), drop 1 pc)
  else if opcode =? OP_PUSHDATA2 then
    if (length pc <? 2)%nat then (None, pc) else (Some (ReadLE16 pc), drop 2 pc)
  else if opcode =? OP_PUSHDATA4 then
    if (length pc <? 4)%nat then (None, pc) else (Some (ReadLE32 pc), drop 4 pc)
  else (Some 0, pc).

(** [GetOp2]: the opcode and its operand, [None] when it returns [false], and the
    new iterator.  Scripts are shorter than [2^32] bytes. *)
Definition GetOp2 (pc : list Z) : option (opcodetype * valtype) * list Z :=
  match pc with
  | [] => (None, [])
  | opcode :: pc =>
      if opcode <=? OP_PUSHDATA4 then
        match read_size opcode pc with
        | (None, pc) => (None, pc)
        | (Some nSize, pc) =>
            if length pc <? nSize then (None, pc)
            else (Some (opcode, take (Z.to_nat nSize) pc), drop (Z.to_nat nSize) pc)
        end
      else (Some (opcode, []), pc)
  end.

Abbreviation GetOp := GetOp2.

(** [DecodeOP_N], [EncodeOP_N]; [None] is a failed assertion. *)
Definition DecodeOP_N (opcode : opcodetype) : option Z :=
  if opcode =? OP_0 then Some 0
  else if (opcode >=? OP_1) && (opcode <=? OP_16) then Some (opcode - (OP_1 - 1))
  else None.

Definition EncodeOP_N (n : Z) : option opcodetype :=
  if (n >=? 0) && (n <=? 16) then Some (if n =? 0 then OP_0 else OP_1 + n - 1) else None.

(** The inner [while] of [FindAndDelete]: skip occurrences of [b]. *)
Fixpoint strip_occurrences (fuel : nat) (b pc : list Z) (nFound : Z) : list Z * Z :=
  match fuel with
  | O => (pc, nFound)
  | S fuel' =>
      if (length b <=? length pc)%nat && bool_decide (take (length b) pc = b)
      then strip_occurrences fuel' b (drop (length b) pc) (nFound + 1)
      else (pc, nFound)
  end.

(** The bytes between two iterators of the same script. *)
Definition range (pc2 pc : list Z) : list Z := take (length pc2 - length pc) pc2.

(** The [do ... while]. *)
Fixpoint FindAndDelete_loop (fuel : nat) (b result pc pc2 : list Z) (nFound : Z) :
    list Z * list Z * Z :=
  match fuel with
  | O => (result, pc2, nFound)
  | S fuel' =>
      let result := result ++ range pc2 pc in
      let '(pc, nFound) := strip_occurrences (S (length pc)) b pc nFound in
      let pc2 := pc in
      match GetOp pc with
      | (Some _, pc) => FindAndDelete_loop fuel' b result pc pc2 nFound
      | (None, _) => (result, pc2, nFound)
      end
  end.

(** [FindAndDelete]: the new script and the number of deletions. *)
Definition FindAndDelete (script b : CScript) : CScript * Z :=
  match b with
  | [] => (script, 0)
  | _ =>
      let '(result, pc2, nFound) :=
        FindAndDelete_loop (S (length script)) b [] script script 0 in
      if nFound >? 0 then (result ++ pc2, nFound) else (script, nFound)
  end.

(** [Find] *)
Fixpoint Find_loop (fuel : nat) (pc : list Z) (op : opcodetype) (nFound : Z) : Z :=
  match fuel with
  | O => nFound
  | S fuel' =>
      match GetOp pc with
      | (Some (opcode, _), pc') =>
          Find_loop fuel' pc' op (if opcode =? op then nFound + 1 else nFound)
      | (None, _) => nFound
      end
  end.

Definition Find (script : CScript) (op : opcodetype) : Z := Find_loop (S (length script)) script op 0.

(** [GetSigOpCount(bool fAccurate)] *)
Fixpoint GetSigOpCount_loop (fuel : nat) (fAccurate : bool) (pc : list Z)
    (lastOpcode : opcodetype) (n : Z) : option Z :=
  match fuel, pc with
  | O, _ => None
  | S _, [] => Some n
  | S fuel', _ =>
      match GetOp pc with
      | (None, _) => Some n
      | (Some (opcode, _), pc') =>
          n' ← (if (opcode =? OP_CHECKSIG) || (opcode =? OP_CHECKSIGVERIFY) then Some (n + 1)
                else if (opcode =? OP_CHECKMULTISIG) || (opcode =? OP_CHECKMULTISIGVERIFY) then
                  if fAccurate && (lastOpcode >=? OP_1) && (lastOpcode <=? OP_16)
                  then k ← DecodeOP_N lastOpcode; Some (n + k)
                  else Some (n + MAX_PUBKEYS_PER_MULTISIG)
                else Some n);
          GetSigOpCount_loop fuel' fAccurate pc' opcode n'
      end
  end.

Definition GetSigOpCount (script : CScript) (fAccurate : bool) : option Z :=
  GetSigOpCount_loop (S (length script)) fAccurate script OP_INVALIDOPCODE 0.

(** [IsPayToScriptHash] *)
Definition IsPayToScriptHash (script : CScript) : bool :=
  (length script =? 23)%nat && (script.[0] =? OP_HASH160) && (script.[1] =? 0x14)
  && (script.[22] =? OP_EQUAL).

(** [IsPayToWitnessScriptHash] *)
Definition IsPayToWitnessScriptHash (script : CScript) : bool :=
  (length script =? 34)%nat && (script.[0] =? OP_0) && (script.[1] =? 0x20).

(** [IsWitnessProgram]: version and program, [None] when it returns [false]. *)
Definition IsWitnessProgram (script : CScript) : option (Z * valtype) :=
  if (length script <? 4)%nat || (42 <? length script)%nat then None
  else if negb (script.[0] =? OP_0) && ((script.[0] <? OP_1) || (script.[0] >? OP_16)) then None
  else if script.[1] + 2 =? length script
  then version ← DecodeOP_N (script.[0]); Some (version, drop 2 script)
  else None.

(** [IsPushOnly] *)
Fixpoint IsPushOnly_loop (fuel : nat) (pc : list Z) : bool :=
  match fuel, pc with
  | O, _ => false
  | S _, [] => true
  | S fuel', _ =>
      match GetOp pc with
      | (None, _) => false
      | (Some (opcode, _), pc') => if opcode >? OP_16 then false else IsPushOnly_loop fuel' pc'
      end
  end.

Definition IsPushOnly (script : CScript) : bool := IsPushOnly_loop (S (length script)) script.

(** The scan of [GetSigOpCount(const CScript& scriptSig)]: the last datum pushed,
    [None] where the function returns 0. *)
Fixpoint last_push_loop (fuel : nat) (pc : list Z) (vData : valtype) : option valtype :=
  match fuel, pc with
  | O, _ => None
  | S _, [] => Some vData
  | S fuel', _ =>
      match GetOp pc with
      | (None, _) => None
      | (Some (opcode, vch), pc') => if opcode >? OP_16 then None else last_push_loop fuel' pc' vch
      end
  end.

(** [GetSigOpCount(const CScript& scriptSig)] *)
Definition GetSigOpCount_P2SH (script scriptSig : CScript) : option Z :=
  if negb (IsPayToScriptHash script) then GetSigOpCount script true
  else match last_push_loop (S (length scriptSig)) scriptSig [] with
       | None => Some 0
       | Some vData => GetSigOpCount vData true
       end.

(** [HasValidOps] *)
Fixpoint HasValidOps_loop (fuel : nat) (it : list Z) : bool :=
  match fuel, it with
  | O, _ => false
  | S _, [] => true
  | S fuel', _ =>
      match GetOp it with
      | (None, _) => false
      | (Some (opcode, item), it') =>
          if (opcode >? MAX_OPCODE) || (MAX_SCRIPT_ELEMENT_SIZE <? length item) then false
          else HasValidOps_loop fuel' it'
      end
  end.

Definition HasValidOps (script : CScript) : bool := HasValidOps_loop (S (length script)) script.

(** [IsUnspendable] *)
Definition IsUnspendable (script : CScript) : bool :=
  ((0 <? length script)%nat && (script.[0] =? OP_RETURN)) || (MAX_SCRIPT_SIZE <? length script).

(** ** Facts about script numbers *)

Module ScriptNumFacts.
Import ScriptNum.

(** Sign and magnitude of an encoding of [n] bytes. *)
Definition half (vch : valtype) : Z := 2 ^ (8 * length vch - 1).
Definition mag (vch : valtype) : Z := le_val 8 vch mod half vch.
Definition sgn (vch : valtype) : bool := half vch <=? le_val 8 vch.
Definition num (vch : valtype) : Z := if sgn vch then - mag vch else mag vch.

Lemma le_val_bytes (vch : valtype) : bytes_ok vch → 0 <= le_val 8 vch < 2 ^ (8 * length vch).
Proof. apply (le_val_range 8). lia. Qed.

Lemma half_pos (vch : valtype) : (0 < length vch)%nat → 0 < half vch ∧ 2 ^ (8 * length vch) = 2 * half vch.
Proof.
  intros Hn. unfold half. split; [apply pow2_pos; lia|].
  rewrite <- Z.pow_succ_r by lia. f_equal. lia.
Qed.

Lemma mag_sgn (vch : valtype) :
  bytes_ok vch → (0 < length vch)%nat →
  le_val 8 vch = mag vch + (if sgn vch then half vch else 0) ∧ 0 <= mag vch < half vch.
Proof.
  intros Hb Hn. pose proof (le_val_bytes vch Hb) as HV. destruct (half_pos vch Hn) as [Hh Hp].
  unfold mag, sgn. split; [|by apply Z.mod_pos_bound].
  destruct (Z.leb_spec (half vch) (le_val 8 vch)).
  - rewrite <- (Z.mod_unique_pos (le_val 8 vch) (half vch) 1 (le_val 8 vch - half vch)) by lia. lia.
  - rewrite Z.mod_small by lia. lia.
Qed.

(** The last byte carries the sign bit and the top of the magnitude. *)
Lemma le_val_last (vch : valtype) :
  (0 < length vch)%nat →
  le_val 8 vch = le_val 8 (take (length vch - 1) vch)
                 + vch.[length vch - 1] * 2 ^ (8 * (length vch - 1)%nat).
Proof.
  intros Hn. rewrite <- (le_val_take_S 8) by lia.
  by replace (S (length vch - 1)) with (length vch) by lia; rewrite firstn_all.
Qed.

Lemma take_last_range (vch : valtype) (k : nat) :
  bytes_ok vch → (k ≤ length vch)%nat → 0 <= le_val 8 (take k vch) < 2 ^ (8 * k).
Proof.
  intros Hb Hk. pose proof (le_val_bytes (take k vch) ltac:(by apply Forall_take)) as H.
  by rewrite length_take_le in H by lia.
Qed.

Lemma half_last (vch : valtype) :
  (0 < length vch)%nat → half vch = 128 * 2 ^ (8 * (length vch - 1)%nat).
Proof.
  intros Hn. unfold half. change 128 with (2 ^ 7). rewrite <- Z.pow_add_r by lia. f_equal. lia.
Qed.

Lemma byte_sign_test (x : Z) : is_byte x → (x .& 0x80 =? 0) = (x <? 128).
Proof.
  intros [H0 H1]. replace (x .& 0x80) with (x .& 2 ^ 7) by reflexivity.
  destruct (Z.ltb_spec x 128) as [Hx|Hx].
  - apply Z.eqb_eq. apply Z.bits_inj_0. intros k. rewrite Z.land_spec, Z.pow2_bits_eqb by lia.
    destruct (Z.eqb_spec 7 k) as [<-|]; [|by rewrite andb_false_r]. rewrite andb_true_r.
    destruct (Z.eq_dec x 0) as [->|]; [done|]. apply Z.bits_above_log2; [lia|].
    apply Z.log2_lt_pow2; lia.
  - apply Z.eqb_neq. intros E. assert (Z.testbit (x .& 2 ^ 7) 7 = false) as T by (by rewrite E).
    rewrite Z.land_spec, Z.pow2_bits_true, andb_true_r in T by lia.
    assert (Z.testbit x 7 = true); [|congruence].
    apply Z.testbit_true; [lia|]. replace (x / 2 ^ 7) with 1; [done|].
    apply (Z.div_unique x (2 ^ 7) 1 (x - 128)); lia.
Qed.

Lemma sgn_last (vch : valtype) :
  bytes_ok vch → (0 < length vch)%nat →
  sgn vch = negb (vch.[length vch - 1] .& 0x80 =? 0).
Proof.
  intros Hb Hn. assert (is_byte (vch.[length vch - 1])) as Hx by (apply Forall_aget; [done|lia]).
  rewrite byte_sign_test by done. unfold sgn. rewrite le_val_last, half_last by done.
  pose proof (take_last_range vch (length vch - 1) Hb ltac:(lia)).
  destruct (Z.ltb_spec (vch.[length vch - 1]) 128), (Z.leb_spec (128 * 2 ^ (8 * (length vch - 1)%nat))
    (le_val 8 (take (length vch - 1) vch) + vch.[length vch - 1] * 2 ^ (8 * (length vch - 1)%nat)));
    try done; exfalso; nia.
Qed.

Lemma set_vch_loop (vch : valtype) :
  bytes_ok vch → (length vch ≤ 8)%nat →
  for_up 0 (length vch) (λ i r, i64 (r .| (vch.[i] .<< (8 * i)))) 0 = i64 (le_val 8 vch).
Proof.
  intros Hb Hn. transitivity (i64 (le_val 8 (take (length vch) vch))); [|by rewrite firstn_all].
  apply (for_up_inv (λ i r, r = i64 (le_val 8 (take i vch)))); [done|].
  intros k t Hk ->. pose proof (take_last_range vch k Hb ltac:(lia)) as R.
  assert (2 ^ (8 * k) <= 2 ^ 56) by (apply Z.pow_le_mono_r; lia).
  unfold i64 at 2. rewrite signed_small by (change (64 - 1) with 63; lia).
  rewrite shl_mul, lor_add by lia. rewrite (le_val_take_S 8) by lia. done.
Qed.

(** Clearing the sign bit of an unsigned magnitude. *)
Lemma clear_bit (V k : Z) :
  0 <= k < 64 → 2 ^ k <= V < 2 ^ (k + 1) →
  V .& u64 (Z.lnot (1 .<< k)) = V - 2 ^ k.
Proof.
  intros Hk HV. assert (2 ^ (k + 1) <= 2 ^ 64) by (apply Z.pow_le_mono_r; lia).
  assert (2 ^ (k + 1) = 2 * 2 ^ k) as E2 by (rewrite Z.pow_add_r by lia; lia).
  unfold u64, wrap. rewrite <- Z.land_ones by lia. rewrite Z.shiftl_1_l.
  rewrite Z.land_assoc, Z.land_ones by lia.
  replace (V .& Z.lnot (2 ^ k)) with (Z.ldiff V (2 ^ k)) by (by rewrite Z.ldiff_land).
  rewrite <- Z.sub_nocarry_ldiff.
  - apply Z.mod_small. lia.
  - apply Z.bits_inj_0. intros j. rewrite Z.ldiff_spec, Z.pow2_bits_eqb by lia.
    destruct (Z.eqb_spec k j) as [<-|]; [|done]. cbn.
    replace (Z.testbit V k) with true; [done|]. symmetry. apply Z.testbit_true; [lia|].
    replace (V / 2 ^ k) with 1; [done|]. apply (Z.div_unique V (2 ^ k) 1 (V - 2 ^ k)); lia.
Qed.

Lemma set_vch_num (vch : valtype) :
  bytes_ok vch → (length vch ≤ 8)%nat → set_vch vch = num vch.
Proof.
  intros Hb Hn. destruct (decide (length vch = 0)%nat) as [E|E].
  { apply nil_length_inv in E. subst. reflexivity. }
  unfold set_vch. destruct vch as [|x vch']; [done|]. set (vch := x :: vch') in *.
  assert (0 < length vch)%nat as Hpos by lia.
  rewrite set_vch_loop by done. rewrite <- sgn_last by done.
  destruct (mag_sgn vch Hb Hpos) as [HV Hm]. unfold num.
  assert (half vch <= 2 ^ 63) by (unfold half; apply Z.pow_le_mono_r; lia).
  destruct (sgn vch).
  - assert (u64 (i64 (le_val 8 vch)) = le_val 8 vch) as ->.
    { unfold u64, wrap, i64, signed. change (64 - 1) with 63.
      rewrite Zminus_mod_idemp_l. replace (le_val 8 vch + 2 ^ 63 - 2 ^ 63) with (le_val 8 vch) by lia.
      apply Z.mod_small. lia. }
    replace (0x80 .<< (8 * (length vch - 1)%nat)) with (1 .<< (8 * length vch - 1)).
    2: { rewrite !shl_mul by lia. change 0x80 with (2 ^ 7). rewrite <- Z.pow_add_r, Z.mul_1_l by lia.
         f_equal. lia. }
    rewrite clear_bit; [|lia|].
    2: { change (2 ^ (8 * length vch - 1)) with (half vch).
         replace (8 * length vch - 1 + 1) with (8 * length vch) by lia.
         rewrite (proj2 (half_pos vch Hpos)). lia. }
    change (2 ^ (8 * length vch - 1)) with (half vch).
    replace (le_val 8 vch - half vch) with (mag vch) by lia. unfold i64.
    rewrite (signed_small 64 (mag vch)) by (change (64 - 1) with 63; lia).
    apply signed_small; [lia|]. change (64 - 1) with 63. lia.
  - rewrite HV, Z.add_0_r. apply signed_small; [lia|]. change (64 - 1) with 63. lia.
Qed.

(** The minimality test: it rejects exactly the encodings whose magnitude fits in
    one byte less. *)
Definition padded (vch : valtype) : bool :=
  let n := length vch in
  (vch.[n - 1] .& 0x7f =? 0) && ((n <=? 1)%nat || (vch.[n - 2] .& 0x80 =? 0)).

Lemma padded_spec (vch : valtype) :
  bytes_ok vch → (0 < length vch)%nat →
  padded vch = (2 * mag vch <? 2 ^ (8 * (length vch - 1)%nat)).
Proof.
  intros Hb Hn. destruct (mag_sgn vch Hb Hn) as [HV Hm]. pose proof (sgn_last vch Hb Hn) as Hs.
  assert (is_byte (vch.[length vch - 1])) as Hx by (apply Forall_aget; [done|lia]).
  rewrite byte_sign_test in Hs by done.
  unfold padded. change 0x7f with (2 ^ 7 - 1). rewrite land_ones_mod by lia. change (2 ^ 7) with 128.
  assert (mag vch = le_val 8 (take (length vch - 1) vch)
    + vch.[length vch - 1] mod 128 * 2 ^ (8 * (length vch - 1)%nat)) as Em.
  { rewrite le_val_last, half_last in HV by done. destruct Hx as [Hx0 Hx1]. rewrite Hs in HV.
    destruct (Z.ltb_spec (vch.[length vch - 1]) 128); cbn [negb] in HV.
    - rewrite Z.mod_small by lia. lia.
    - rewrite <- (Z.mod_unique_pos (vch.[length vch - 1]) 128 1 (vch.[length vch - 1] - 128)) by lia. lia. }
  rewrite Em. pose proof (take_last_range vch (length vch - 1) Hb ltac:(lia)) as R.
  pose proof (Z.mod_pos_bound (vch.[length vch - 1]) 128 ltac:(lia)) as Rx.
  pose proof (pow2_pos (8 * (length vch - 1)%nat) ltac:(lia)) as Hp.
  destruct (Z.eqb_spec (vch.[length vch - 1] mod 128) 0) as [E0|E0]; cbn [andb].
  2: { symmetry. apply Z.ltb_ge. nia. }
  rewrite E0, Z.mul_0_l, Z.add_0_r. destruct (Nat.leb_spec (length vch) 1) as [H1|H1]; cbn [orb].
  { replace (length vch) with 1%nat by lia. cbn. done. }
  assert (is_byte (vch.[length vch - 2])) as Hy by (apply Forall_aget; [done|lia]).
  rewrite byte_sign_test by done.
  pose proof (take_last_range vch (length vch - 2) Hb ltac:(lia)) as R2.
  replace (length vch - 1)%nat with (S (length vch - 2)) in R |- * by lia.
  rewrite (le_val_take_S 8) in R |- * by lia.
  assert (2 ^ (8 * S (length vch - 2)) = 256 * 2 ^ (8 * (length vch - 2)%nat)) as ->.
  { change 256 with (2 ^ 8). rewrite <- Z.pow_add_r by lia. f_equal. lia. }
  destruct Hy as [Hy0 Hy1].
  destruct (Z.ltb_spec (vch.[length vch - 2]) 128), (Z.ltb_spec
    (2 * (le_val 8 (take (length vch - 2) vch) + vch.[length vch - 2] * 2 ^ (8 * (length vch - 2)%nat)))
    (256 * 2 ^ (8 * (length vch - 2)%nat))); try done; exfalso; nia.
Qed.

(** The digits of [serialize_loop]: the shortest little-endian form. *)
Lemma serialize_loop_spec (fuel : nat) (a : Z) :
  0 <= a < 2 ^ (8 * fuel) →
  let r := serialize_loop fuel a in
  bytes_ok r ∧ le_val 8 r = a ∧ (length r ≤ fuel)%nat ∧
  (a ≠ 0 → (0 < length r)%nat ∧ 2 ^ (8 * (length r - 1)%nat) <= a).
Proof.
  revert a. induction fuel as [|fuel IH]; intros a Ha; cbn [serialize_loop].
  { change (8 * 0%nat) with 0 in Ha. cbn. split_and!; [constructor|lia|lia|lia]. }
  destruct (Z.eqb_spec a 0) as [->|Hne]; [cbn; split_and!; [constructor|done|lia|done]|].
  change 0xff with (2 ^ 8 - 1). rewrite land_ones_mod, shr_div by lia.
  assert (0 <= a / 2 ^ 8 < 2 ^ (8 * fuel)) as Hq.
  { split; [apply Z.div_pos; lia|]. apply Z.div_lt_upper_bound; [lia|].
    rewrite <- Z.pow_add_r by lia. replace (8 + 8 * fuel) with (8 * S fuel) by lia. lia. }
  pose proof (Z.mod_pos_bound a (2 ^ 8) ltac:(lia)) as Hr.
  pose proof (Z.div_mod a (2 ^ 8) ltac:(lia)) as Hd.
  destruct (IH _ Hq) as (Hb & Hv & Hl & Hlow). set (r := serialize_loop fuel (a / 2 ^ 8)) in *.
  cbn [length le_val]. split_and!.
  - constructor; [exact Hr|done].
  - rewrite Hv. lia.
  - lia.
  - intros _. split; [lia|]. cbn [Nat.sub]. rewrite Nat.sub_0_r.
    destruct (Z.eq_dec (a / 2 ^ 8) 0) as [E|E].
    + assert (r = []) as -> by (unfold r; rewrite E; by destruct fuel). cbn. lia.
    + destruct (Hlow E) as [Hpos Hle].
      replace (8 * length r) with (8 + 8 * (length r - 1)%nat) by lia.
      rewrite Z.pow_add_r by lia. nia.
Qed.

Lemma serialize_shape (vch : valtype) (m : Z) (s : bool) :
  bytes_ok vch → (0 < length vch)%nat →
  0 <= m → 2 ^ (8 * (length vch - 1)%nat) <= 2 * m →
  le_val 8 vch = m + (if s then half vch else 0) → m < half vch →
  mag vch = m ∧ sgn vch = s ∧ padded vch = false.
Proof.
  intros Hb Hn Hm0 Hpad HV Hm. pose proof (half_pos vch Hn) as [Hh _].
  assert (mag vch = m ∧ sgn vch = s) as [E1 E2].
  { unfold mag, sgn. rewrite HV. destruct s.
    - rewrite (proj2 (Z.leb_le _ _)) by lia. split; [|done].
      rewrite <- (Z.mul_1_l (half vch)) at 1. rewrite Z.mod_add by lia. apply Z.mod_small. lia.
    - rewrite Z.add_0_r, (proj2 (Z.leb_gt _ _)) by lia. split; [|done]. apply Z.mod_small. lia. }
  split; [done|]. split; [done|]. rewrite padded_spec, E1 by done. apply Z.ltb_ge. lia.
Qed.

(** What [serialize] produces: magnitude, sign, and no padding. *)
Lemma serialize_spec (v : Z) :
  v ≠ 0 → - 2 ^ 63 < v < 2 ^ 63 →
  let r := serialize v in
  bytes_ok r ∧ (0 < length r ≤ 8)%nat ∧ mag r = Z.abs v ∧ sgn r = (v <? 0) ∧ padded r = false.
Proof.
  intros Hne Hv. unfold serialize. rewrite (proj2 (Z.eqb_neq v 0)) by done.
  replace (u64 (if v <? 0 then - v else v)) with (Z.abs v).
  2: { destruct (Z.ltb_spec v 0); unfold u64; rewrite wrap_small by (unfold is_word; lia); lia. }
  destruct (serialize_loop_spec 8 (Z.abs v) ltac:(cbn; lia)) as (Hb & Hval & Hl & Hlow).
  specialize (Hlow ltac:(lia)). set (L := serialize_loop 8 (Z.abs v)) in *. destruct Hlow as [Hpos Hlow].
  destruct (mag_sgn L Hb Hpos) as [HV Hm]. pose proof (half_last L Hpos) as Hh.
  pose proof (pow2_pos (8 * (length L - 1)%nat) ltac:(lia)) as Hp.
  rewrite <- sgn_last by done. destruct (sgn L) eqn:Es; cbn [negb].
  - assert (length L ≤ 7)%nat as H7.
    { destruct (decide (length L = 8)%nat) as [E|]; [|lia]. unfold half in *. rewrite E in *. cbn in *. lia. }
    assert (bytes_ok (L ++ [if v <? 0 then 0x80 else 0])) as Hb'.
    { apply Forall_app. split; [done|]. constructor; [|done]. unfold is_byte, is_word. case_match; lia. }
    assert (length (L ++ [if v <? 0 then 0x80 else 0]) = S (length L)) as El by (rewrite length_app; cbn; lia).
    assert (half (L ++ [if v <? 0 then 0x80 else 0]) = 128 * 2 ^ (8 * length L)) as Eh.
    { unfold half. rewrite El. change 128 with (2 ^ 7). rewrite <- Z.pow_add_r by lia. f_equal. lia. }
    pose proof (proj2 (half_pos L Hpos)) as E2.
    split; [done|]. split; [lia|]. apply serialize_shape; try done; try lia.
    + rewrite El. replace (S (length L) - 1)%nat with (length L) by lia. lia.
    + rewrite Eh, (le_val_app 8) by lia. cbn [le_val]. rewrite Hval. case_match; lia.
  - rewrite Z.add_0_r in HV. destruct (Z.ltb_spec v 0) as [Hneg|Hnn].
    + assert (is_byte (L.[length L - 1])) as Hx by (apply Forall_aget; [done|lia]).
      assert (L.[length L - 1] < 128) as Hx7.
      { apply Z.ltb_lt. rewrite <- byte_sign_test by done. rewrite sgn_last in Es by done.
        by destruct (_ =? 0). }
      assert (L.[length L - 1] .| 0x80 = L.[length L - 1] + 128) as ->.
      { change 0x80 with (1 * 2 ^ 7). rewrite lor_add by (destruct Hx; lia). done. }
      split. { apply Forall_aset; [done|]. destruct Hx. unfold is_byte, is_word. lia. }
      rewrite length_aset. split; [lia|]. apply serialize_shape; rewrite ?length_aset; try done; try lia.
      * apply Forall_aset; [done|]. destruct Hx. unfold is_byte, is_word. lia.
      * unfold half. rewrite length_aset. fold (half L). rewrite (le_val_aset 8) by lia.
        rewrite Hval. lia.
      * unfold half. rewrite length_aset. fold (half L). lia.
    + split; [done|]. split; [lia|]. apply serialize_shape; try done; lia.
Qed.

Lemma CScriptNum_spec (vch : valtype) (fRequireMinimal : bool) (k : nat) :
  bytes_ok vch → (k ≤ 8)%nat →
  CScriptNum vch fRequireMinimal k =
    if (k <? length vch)%nat || (fRequireMinimal && (0 <? length vch)%nat && padded vch)
    then None else Some (num vch).
Proof.
  intros Hb Hk. unfold CScriptNum. destruct (Nat.ltb_spec k (length vch)); cbn [orb]; [done|].
  rewrite set_vch_num by (done || lia). unfold padded. rewrite !andb_assoc. done.
Qed.

Lemma num_range (vch : valtype) : bytes_ok vch → (0 < length vch)%nat → - half vch < num vch < half vch.
Proof.
  intros Hb Hn. destruct (mag_sgn vch Hb Hn) as [_ ?]. unfold num. destruct (sgn vch); lia.
Qed.

(** Unpadded encodings of the same number are equal. *)
Lemma unpadded_length (v w : valtype) :
  bytes_ok v → bytes_ok w → (0 < length v)%nat → (0 < length w)%nat →
  padded w = false → mag v = mag w → (length w ≤ length v)%nat.
Proof.
  intros Hv Hw Hlv Hlw Hp E. rewrite padded_spec in Hp by done. apply Z.ltb_ge in Hp.
  destruct (mag_sgn v Hv Hlv) as [_ Hm]. destruct (half_pos v Hlv) as [_ Hh].
  destruct (decide (length w ≤ length v)%nat) as [|Hn]; [done|].
  assert (2 ^ (8 * length v) <= 2 ^ (8 * (length w - 1)%nat)) by (apply Z.pow_le_mono_r; lia). lia.
Qed.

Lemma unpadded_inj (v w : valtype) :
  bytes_ok v → bytes_ok w → (0 < length v)%nat → (0 < length w)%nat →
  padded v = false → padded w = false → mag v = mag w → sgn v = sgn w → v = w.
Proof.
  intros Hv Hw Hlv Hlw Hpv Hpw Em Es.
  assert (length v = length w) as El.
  { pose proof (unpadded_length v w Hv Hw Hlv Hlw Hpw Em).
    pose proof (unpadded_length w v Hw Hv Hlw Hlv Hpv (eq_sym Em)). lia. }
  apply (le_val_inj 8 ltac:(lia)); try done.
  destruct (mag_sgn v Hv Hlv) as [-> _], (mag_sgn w Hw Hlw) as [-> _].
  rewrite Em, Es. unfold half. by rewrite El.
Qed.

Lemma CScriptNum_serialize (v : Z) (k : nat) :
  - 2 ^ 63 < v < 2 ^ 63 → (k ≤ 8)%nat →
  CScriptNum (serialize v) true k = if (k <? length (serialize v))%nat then None else Some v.
Proof.
  intros Hv Hk. destruct (Z.eq_dec v 0) as [->|Hne]; [done|].
  destruct (serialize_spec v Hne Hv) as (Hb & Hl & Hm & Hs & Hp).
  rewrite CScriptNum_spec, Hp, andb_false_r, orb_false_r by done.
  destruct (_ <? _)%nat; [done|]. f_equal. unfold num. rewrite Hm, Hs.
  destruct (Z.ltb_spec v 0); lia.
Qed.

Lemma length_serialize (v : Z) (k : nat) :
  - 2 ^ 63 < v < 2 ^ 63 → (0 < k)%nat →
  (length (serialize v) ≤ k)%nat ↔ - 2 ^ (8 * k - 1) < v < 2 ^ (8 * k - 1).
Proof.
  intros Hv Hk. pose proof (pow2_pos (8 * k - 1) ltac:(lia)).
  destruct (Z.eq_dec v 0) as [->|Hne]; [split; [lia|intros; cbn; lia]|].
  destruct (serialize_spec v Hne Hv) as (Hb & Hl & Hm & Hs & Hp).
  destruct (mag_sgn _ Hb (proj1 Hl)) as [_ HM]. rewrite padded_spec in Hp by (done || lia).
  apply Z.ltb_ge in Hp. rewrite Hm in *. unfold half in HM. split; intros Hlen.
  - assert (2 ^ (8 * length (serialize v) - 1) <= 2 ^ (8 * k - 1)) by (apply Z.pow_le_mono_r; lia). lia.
  - destruct (decide (length (serialize v) ≤ k)%nat) as [|Hn]; [done|].
    assert (2 ^ (8 * k) <= 2 ^ (8 * (length (serialize v) - 1)%nat)) by (apply Z.pow_le_mono_r; lia).
    assert (2 ^ (8 * k) = 2 * 2 ^ (8 * k - 1)) by (rewrite <- Z.pow_succ_r by lia; f_equal; lia). lia.
Qed.

Lemma serialize_CScriptNum (vch : valtype) (k : nat) (v : Z) :
  bytes_ok vch → (k ≤ 8)%nat → CScriptNum vch true k = Some v → serialize v = vch.
Proof.
  intros Hb Hk. rewrite CScriptNum_spec by done.
  destruct (Nat.ltb_spec k (length vch)) as [|Hl]; cbn [orb andb]; [done|].
  destruct (decide (length vch = 0)%nat) as [E|E].
  { apply nil_length_inv in E. subst. cbn. by intros [= <-]. }
  rewrite (proj2 (Nat.ltb_lt 0 (length vch))) by lia. cbn [andb].
  destruct (padded vch) eqn:Ep; [done|]. intros [= <-].
  assert (0 < length vch)%nat as Hpos by lia.
  destruct (mag_sgn vch Hb Hpos) as [HV HM]. pose proof Ep as Hp. rewrite padded_spec in Hp by done.
  apply Z.ltb_ge in Hp. pose proof (pow2_pos (8 * (length vch - 1)%nat) ltac:(lia)).
  assert (half vch <= 2 ^ 63) by (unfold half; apply Z.pow_le_mono_r; lia).
  assert (num vch ≠ 0 ∧ - 2 ^ 63 < num vch < 2 ^ 63 ∧ Z.abs (num vch) = mag vch ∧ (num vch <? 0) = sgn vch)
    as (Hne & Hr & Ea & Es).
  { unfold num. destruct (sgn vch); split_and!; try lia. }
  destruct (serialize_spec (num vch) Hne Hr) as (Hb' & Hl' & Hm' & Hs' & Hp').
  apply unpadded_inj; try done; [lia|congruence|congruence].
Qed.
End ScriptNumFacts.

(** ** Facts about reading and building scripts *)

Lemma read_size_suffix (op : opcodetype) (pc pc' : list Z) (n : option Z) :
  read_size op pc = (n, pc') → ∃ used, pc = used ++ pc'.
Proof.
  unfold read_size. intros E.
  repeat case_match; injection E as <- <-;
    (by exists []) || (eexists; symmetry; apply firstn_skipn).
Qed.

(** The iterator only moves forward, and past at least one byte on success. *)
Lemma GetOp_suffix (pc pc' : list Z) (r : option (opcodetype * valtype)) :
  GetOp pc = (r, pc') → ∃ used, pc = used ++ pc' ∧ (r ≠ None → used ≠ []).
Proof.
  unfold GetOp2. destruct pc as [|op pc]; [intros [= <- <-]; by exists []|].
  destruct (op <=? OP_PUSHDATA4).
  - destruct (read_size op pc) as [n pc1] eqn:Er. apply read_size_suffix in Er as [u ->].
    destruct n as [n|].
    + destruct (length pc1 <? n).
      * intros [= <- <-]. exists (op :: u). done.
      * intros [= <- <-]. exists (op :: u ++ take (Z.to_nat n) pc1). cbn. rewrite <- app_assoc.
        by rewrite firstn_skipn.
    + intros [= <- <-]. exists (op :: u). done.
  - intros [= <- <-]. by exists [op].
Qed.

Lemma GetOp_shorter (pc pc' : list Z) (x : opcodetype * valtype) :
  GetOp pc = (Some x, pc') → (length pc' < length pc)%nat.
Proof.
  intros E. apply GetOp_suffix in E as (used & -> & Hne). rewrite length_app.
  destruct used; [|cbn; lia]. exfalso. by apply Hne.
Qed.

Lemma range_suffix (used pc : list Z) : range (used ++ pc) pc = used.
Proof.
  unfold range. rewrite length_app. replace (length used + length pc - length pc)%nat with (length used) by lia.
  by rewrite take_app_length.
Qed.

Lemma push_data_app (script : CScript) (b : valtype) : push_data script b = script ++ push_data [] b.
Proof. unfold push_data. by rewrite app_nil_l. Qed.

(** The opcode [push_data] chooses for [n] bytes. *)
Definition push_opcode_of (n : nat) : opcodetype :=
  if n <? OP_PUSHDATA1 then n
  else if n <=? 0xff then OP_PUSHDATA1 else if n <=? 0xffff then OP_PUSHDATA2 else OP_PUSHDATA4.

Lemma take_drop_push (b rest : list Z) :
  (if length (b ++ rest) <? length b then (None, b ++ rest)
   else (Some (take (Z.to_nat (length b)) (b ++ rest)), drop (Z.to_nat (length b)) (b ++ rest)))
  = (Some b, rest).
Proof.
  rewrite (proj2 (Z.ltb_ge _ _)) by (rewrite length_app; lia).
  by rewrite Nat2Z.id, take_app_length, drop_app_length.
Qed.

Lemma read_size_push (b rest : list Z) :
  length b < 2 ^ 32 →
  ∃ op tail, push_data [] b ++ rest = op :: tail ∧ op = push_opcode_of (length b) ∧
    read_size op tail = (Some (Z.of_nat (length b)), b ++ rest).
Proof.
  intros Hn. unfold push_data, push_opcode_of, read_size. rewrite app_nil_l, <- app_assoc.
  destruct (Z.ltb_spec (length b) OP_PUSHDATA1) as [H1|H1].
  { eexists _, _. split; [done|]. unfold u8. rewrite wrap_small by (unfold is_word, OP_PUSHDATA1 in *; lia).
    split; [done|]. by rewrite (proj2 (Z.ltb_lt _ _)). }
  destruct (Z.leb_spec (length b) 0xff) as [H2|H2].
  { eexists _, _. split; [done|]. split; [done|]. cbn.
    unfold u8. by rewrite wrap_small by (unfold is_word; lia). }
  destruct (Z.leb_spec (length b) 0xffff) as [H3|H3].
  { exists OP_PUSHDATA2, (WriteLE16 (u16 (length b)) ++ b ++ rest). split; [done|]. split; [done|].
    change (OP_PUSHDATA2 <? OP_PUSHDATA1) with false. change (OP_PUSHDATA2 =? OP_PUSHDATA1) with false.
    change (OP_PUSHDATA2 =? OP_PUSHDATA2) with true. cbv beta iota.
    assert (length (WriteLE16 (u16 (length b))) = 2%nat) as El by apply length_le_digits.
    rewrite (proj2 (Nat.ltb_ge _ _)) by (rewrite length_app, El; lia).
    unfold u16. rewrite wrap_small by (unfold is_word; lia).
    rewrite ReadLE16_WriteLE16 by (unfold is_word; lia).
    rewrite drop_app_length' by (symmetry; apply length_le_digits). done. }
  exists OP_PUSHDATA4, (WriteLE32 (u32 (length b)) ++ b ++ rest). split; [done|]. split; [done|].
  change (OP_PUSHDATA4 <? OP_PUSHDATA1) with false. change (OP_PUSHDATA4 =? OP_PUSHDATA1) with false.
  change (OP_PUSHDATA4 =? OP_PUSHDATA2) with false. change (OP_PUSHDATA4 =? OP_PUSHDATA4) with true.
  cbv beta iota.
  rewrite (proj2 (Nat.ltb_ge _ _)) by (rewrite length_app, length_WriteLE32; lia).
  unfold u32. rewrite wrap_small by (unfold is_word; lia).
  rewrite ReadLE32_WriteLE32 by (unfold is_word; lia).
  rewrite drop_app_length' by (symmetry; apply length_WriteLE32). done.
Qed.

Lemma push_opcode_of_le (n : nat) : push_opcode_of n <= OP_PUSHDATA4.
Proof. unfold push_opcode_of, OP_PUSHDATA1, OP_PUSHDATA2, OP_PUSHDATA4. repeat case_if; bool_to_prop; lia. Qed.

Lemma GetOp_push_data (b rest : list Z) :
  length b < 2 ^ 32 →
  GetOp (push_data [] b ++ rest) = (Some (push_opcode_of (length b), b), rest).
Proof.
  intros Hn. destruct (read_size_push b rest Hn) as (op & tail & -> & -> & Hr).
  unfold GetOp2. rewrite (proj2 (Z.leb_le _ _)) by apply push_opcode_of_le. rewrite Hr.
  pose proof (take_drop_push b rest) as E. destruct (_ <? _); [done|]. by injection E as -> ->.
Qed.

(** ** [FindAndDelete] *)

(** Deleting every occurrence of [b] that starts at an opcode boundary: [deleted b
    s s' n] says that [s'] is [s] without [n] of them. *)
Inductive deleted (b : list Z) : list Z → list Z → Z → Prop :=
  | deleted_hit (s s' : list Z) (n : Z) :
      deleted b s s' n → deleted b (b ++ s) s' (n + 1)
  | deleted_op (s rest s' : list Z) (x : opcodetype * valtype) (n : Z) :
      ¬ (b `prefix_of` s) → GetOp s = (Some x, rest) → deleted b rest s' n →
      deleted b s (range s rest ++ s') n
  | deleted_end (s rest : list Z) :
      ¬ (b `prefix_of` s) → GetOp s = (None, rest) → deleted b s s 0.

Lemma deleted_nonneg (b s s' : list Z) (n : Z) : deleted b s s' n → 0 <= n.
Proof. induction 1; lia. Qed.

Lemma deleted_zero (b s s' : list Z) (n : Z) : deleted b s s' n → n = 0 → s' = s.
Proof.
  induction 1 as [s s' n H IH|s rest s' x n Hp Hg H IH|]; intros Hn; [| |done].
  - apply deleted_nonneg in H. lia.
  - apply GetOp_suffix in Hg as (used & -> & _). by rewrite range_suffix, IH.
Qed.

Lemma deleted_length (b s s' : list Z) (n : Z) :
  deleted b s s' n → length s' + n * length b = length s.
Proof.
  induction 1 as [s s' n H IH|s rest s' x n Hp Hg H IH|]; rewrite ?length_app; [lia| |lia].
  apply GetOp_suffix in Hg as (used & -> & _). rewrite range_suffix, length_app. lia.
Qed.

Lemma prefix_test (b pc : list Z) :
  ((length b <=? length pc)%nat && bool_decide (take (length b) pc = b)) = true ↔ b `prefix_of` pc.
Proof.
  rewrite andb_true_iff, Nat.leb_le, bool_decide_eq_true. split.
  - intros [_ E]. exists (drop (length b) pc). by rewrite <- E, take_drop at 1.
  - intros [k ->]. rewrite length_app, take_app_length. split; [lia|done].
Qed.

Lemma strip_occurrences_spec (fuel : nat) (b pc pc' : list Z) (n n' : Z) :
  b ≠ [] → (length pc < fuel)%nat → strip_occurrences fuel b pc n = (pc', n') →
  ¬ (b `prefix_of` pc') ∧ (length pc' ≤ length pc)%nat ∧
  ∀ s' k, deleted b pc' s' k → deleted b pc s' (k + (n' - n)).
Proof.
  intros Hb. revert pc n. induction fuel as [|fuel IH]; intros pc n Hf E; [lia|].
  cbn [strip_occurrences] in E. destruct (_ && _) eqn:Ep.
  - apply prefix_test in Ep as [s ->]. rewrite drop_app_length in E. rewrite length_app in Hf |- *.
    assert (0 < length b)%nat by (destruct b; [done|cbn; lia]).
    destruct (IH s (n + 1) ltac:(lia) E) as (H1 & H2 & H3). split_and!; [done|lia|].
    intros s' k Hd. replace (k + (n' - n)) with (k + (n' - (n + 1)) + 1) by lia.
    constructor. by apply H3.
  - injection E as <- <-. split_and!; [|done|].
    + intros Hp. apply prefix_test in Hp. congruence.
    + intros s' k Hd. by replace (k + (n - n)) with k by lia.
Qed.

Lemma FindAndDelete_loop_spec (fuel : nat) (b result pc pc2 R P : list Z) (n N : Z) :
  b ≠ [] → (length pc < fuel)%nat →
  FindAndDelete_loop fuel b result pc pc2 n = (R, P, N) →
  ∃ s' k, deleted b pc s' k ∧ R ++ P = result ++ range pc2 pc ++ s' ∧ N = n + k.
Proof.
  intros Hb. revert result pc pc2 n. induction fuel as [|fuel IH]; intros result pc pc2 n Hf E; [lia|].
  cbn [FindAndDelete_loop] in E.
  destruct (strip_occurrences (S (length pc)) b pc n) as [pc' n'] eqn:Es.
  apply strip_occurrences_spec in Es as (Hp & Hl & Hd); [|done|lia].
  destruct (GetOp pc') as [[x|] rest] eqn:Eg.
  - pose proof (GetOp_shorter _ _ _ Eg). apply IH in E as (s' & k & Hk & HR & ->); [|lia].
    exists (range pc' rest ++ s'), (k + (n' - n)). split_and!; [|by rewrite HR, <- !app_assoc|lia].
    apply Hd. by apply (deleted_op b pc' rest s' x).
  - injection E as <- <- <-. exists pc', (0 + (n' - n)).
    split_and!; [apply Hd; by apply (deleted_end b pc' rest)|by rewrite <- app_assoc|lia].
Qed.

Lemma FindAndDelete_ok (script b : CScript) :
  b ≠ [] → deleted b script (FindAndDelete script b).1 (FindAndDelete script b).2.
Proof.
  intros Hb. unfold FindAndDelete. destruct b as [|x b']; [done|]. set (b := x :: b') in *.
  destruct (FindAndDelete_loop _ _ _ _ _ _) as [[R P] N] eqn:E.
  apply FindAndDelete_loop_spec in E as (s' & k & Hd & HR & ->); [|done|lia].
  unfold range in HR. rewrite Nat.sub_diag in HR. cbn in HR. rewrite Z.gtb_ltb.
  destruct (Z.ltb_spec 0 (0 + k)) as [Hk|Hk]; cbn [fst snd].
  - by rewrite HR, Z.add_0_l.
  - pose proof (deleted_nonneg _ _ _ _ Hd). assert (k = 0) as -> by lia.
    rewrite Z.add_0_r. by rewrite (deleted_zero _ _ _ _ Hd eq_refl) in Hd.
Qed.

(** ** Signature operation counts *)

Lemma DecodeOP_N_range (op : opcodetype) :
  OP_1 <= op <= OP_16 → ∃ k, DecodeOP_N op = Some k ∧ 1 <= k <= 16.
Proof.
  unfold DecodeOP_N, OP_0, OP_1, OP_16. intros H. rewrite (proj2 (Z.eqb_neq op 0)) by lia.
  rewrite Z.geb_leb, !(proj2 (Z.leb_le _ _)) by lia. eexists. split; [done|]. lia.
Qed.

Lemma GetSigOpCount_loop_spec (fuel : nat) (pc : list Z) (last : opcodetype) (n m : Z) :
  (length pc < fuel)%nat → 0 <= n <= m →
  ∃ a i, GetSigOpCount_loop fuel true pc last n = Some a ∧
         GetSigOpCount_loop fuel false pc last m = Some i ∧
         n <= a <= i ∧ i <= m + 20 * length pc.
Proof.
  revert pc last n m. induction fuel as [|fuel IH]; intros pc last n m Hf Hnm; [lia|].
  cbn [GetSigOpCount_loop]. destruct pc as [|x pc0]; [exists n, m; cbn; split_and!; (done || lia)|].
  set (pc := x :: pc0) in *. destruct (GetOp pc) as [[[op v]|] pc'] eqn:Eg.
  2: { exists n, m. split_and!; (done || lia). }
  pose proof (GetOp_shorter _ _ _ Eg) as Hl.
  destruct ((op =? OP_CHECKSIG) || (op =? OP_CHECKSIGVERIFY)); cbn [mbind option_bind].
  { destruct (IH pc' op (n + 1) (m + 1) ltac:(lia) ltac:(lia)) as (a & i & -> & -> & ? & ?).
    exists a, i. split_and!; (done || lia). }
  destruct ((op =? OP_CHECKMULTISIG) || (op =? OP_CHECKMULTISIGVERIFY)); cbn [andb mbind option_bind].
  2: { destruct (IH pc' op n m ltac:(lia) ltac:(lia)) as (a & i & -> & -> & ? & ?).
       exists a, i. split_and!; (done || lia). }
  unfold MAX_PUBKEYS_PER_MULTISIG. rewrite Z.geb_leb.
  destruct (Z.leb_spec OP_1 last), (Z.leb_spec last OP_16); cbn [andb mbind option_bind];
    try (destruct (IH pc' op (n + 20) (m + 20) ltac:(lia) ltac:(lia)) as (a & i & -> & -> & ? & ?);
         exists a, i; split_and!; (done || lia)).
  destruct (DecodeOP_N_range last ltac:(lia)) as (k & -> & Hk). cbn [mbind option_bind].
  destruct (IH pc' op (n + k) (m + 20) ltac:(lia) ltac:(lia)) as (a & i & -> & -> & ? & ?).
  exists a, i. split_and!; (done || lia).
Qed.

(** ** Templates *)

Lemma IsPayToScriptHash_shape (script : CScript) :
  IsPayToScriptHash script = true ↔
  ∃ h, length h = 20%nat ∧ script = [OP_HASH160; 0x14] ++ h ++ [OP_EQUAL].
Proof.
  unfold IsPayToScriptHash. rewrite !andb_true_iff, Nat.eqb_eq, !Z.eqb_eq. split.
  - intros (((Hl & H0) & H1) & H22).
    destruct script as [|a [|b s]]; try done. cbn in Hl, H0, H1. subst a b.
    exists (take 20 s). split; [rewrite length_take; lia|]. cbn. do 2 f_equal.
    rewrite <- (take_drop 20 s) at 1. f_equal.
    destruct (drop 20 s) as [|x [|y l]] eqn:Ed;
      pose proof (f_equal length Ed) as El; rewrite length_drop in El; cbn in El; try lia.
    f_equal. rewrite <- H22. unfold aget. cbn. replace s with (take 20 s ++ [x]).
    2: { rewrite <- Ed. apply take_drop. }
    rewrite app_nth2; rewrite length_take; [|lia]. replace (20 - Nat.min 20 (length s))%nat with 0%nat by lia.
    done.
  - intros (h & Hh & ->). rewrite !length_app, Hh. split_and!; try done.
    unfold aget. cbn. rewrite app_nth2 by lia. by rewrite Hh.
Qed.

Lemma EncodeOP_N_range (v op : Z) :
  EncodeOP_N v = Some op ↔ (v = 0 ∧ op = OP_0) ∨ (1 <= v <= 16 ∧ op = v + 80).
Proof.
  unfold EncodeOP_N, OP_0, OP_1. rewrite Z.geb_leb.
  destruct (Z.leb_spec 0 v), (Z.leb_spec v 16), (Z.eqb_spec v 0); cbn [andb];
    (split; [intros [= <-]; lia || (intros; lia) | intros; f_equal; lia]) || (split; [done|lia]).
Qed.

Lemma DecodeOP_N_Encode (op v : Z) : DecodeOP_N op = Some v ↔ EncodeOP_N v = Some op.
Proof.
  rewrite EncodeOP_N_range. unfold DecodeOP_N, OP_0, OP_1, OP_16. rewrite Z.geb_leb.
  destruct (Z.eqb_spec op 0); [split; [intros [= <-]; auto|intros; f_equal; lia]|].
  destruct (Z.leb_spec 81 op), (Z.leb_spec op 96); cbn [andb];
    (split; [intros [= <-]; lia|intros; f_equal; lia]) || (split; [done|lia]).
Qed.

Lemma version_test (op : Z) :
  negb (op =? OP_0) && ((op <? OP_1) || (op >? OP_16))
  = match DecodeOP_N op with None => true | Some _ => false end.
Proof.
  unfold DecodeOP_N. rewrite Z.gtb_ltb, Z.geb_leb. destruct (op =? OP_0); [done|].
  destruct (Z.ltb_spec op OP_1), (Z.ltb_spec OP_16 op), (Z.leb_spec OP_1 op), (Z.leb_spec op OP_16);
    cbn [negb andb orb]; (done || lia).
Qed.

Lemma IsWitnessProgram_shape (script : CScript) (version : Z) (program : valtype) :
  IsWitnessProgram script = Some (version, program) ↔
  ∃ op, EncodeOP_N version = Some op ∧ script = op :: Z.of_nat (length program) :: program ∧
        (2 ≤ length program ≤ 40)%nat.
Proof.
  unfold IsWitnessProgram. rewrite version_test. split.
  - destruct (Nat.ltb_spec (length script) 4), (Nat.ltb_spec 42 (length script)); cbn [orb]; try done.
    destruct script as [|op [|len prog]]; cbn [length] in *; try lia. unfold aget. cbn [nth].
    destruct (DecodeOP_N op) as [v|] eqn:Ed; [|done].
    destruct (Z.eqb_spec (len + 2) (S (S (length prog)))) as [El|]; [|done].
    change (drop 2 (op :: len :: prog)) with prog. cbn. intros [= <- <-]. exists op. apply DecodeOP_N_Encode in Ed. split; [done|].
    split; [|lia]. f_equal. f_equal. lia.
  - intros (op & He & -> & Hl). apply DecodeOP_N_Encode in He.
    cbn [length]. rewrite (proj2 (Nat.ltb_ge _ _)), (proj2 (Nat.ltb_ge _ _)) by lia.
    unfold aget. cbn. rewrite He, (proj2 (Z.eqb_eq _ _)) by lia. done.
Qed.

(** ** Properties *)

(** script numbers round-trip.  Within [k] bytes exactly the numbers of
    magnitude below [2^(8k-1)] are representable: parsing the serialization with
    the minimality check returns the number for those and throws for the others;
    and the serialization is the only byte string the minimality check accepts
    for the number. *)
Theorem CScriptNum_roundtrip (v : Z) (k : nat) :
  - 2 ^ 63 < v < 2 ^ 63 → (0 < k ≤ 8)%nat →
  (- 2 ^ (8 * k - 1) < v < 2 ^ (8 * k - 1) →
     ScriptNum.CScriptNum (ScriptNum.serialize v) true k = Some v) ∧
  (¬ - 2 ^ (8 * k - 1) < v < 2 ^ (8 * k - 1) →
     ScriptNum.CScriptNum (ScriptNum.serialize v) true k = None) ∧
  (∀ vch, bytes_ok vch → ScriptNum.CScriptNum vch true k = Some v → vch = ScriptNum.serialize v).
Proof.
  intros Hv Hk. pose proof (ScriptNumFacts.length_serialize v k Hv ltac:(lia)) as El. rewrite <- El.
  rewrite (ScriptNumFacts.CScriptNum_serialize v k Hv ltac:(lia)). split_and!.
  - intros Hl. by rewrite (proj2 (Nat.ltb_ge _ _)) by lia.
  - intros Hl. by rewrite (proj2 (Nat.ltb_lt _ _)) by lia.
  - intros vch Hb E. symmetry. apply (ScriptNumFacts.serialize_CScriptNum vch k); [done|lia|done].
Qed.

(** a datum appended to a script with [operator<<] is read back by [GetOp] as
    one push of exactly that datum, whatever follows it, and reading always
    moves strictly forward in the script. *)
Theorem GetOp_push_roundtrip (script : CScript) (b rest : valtype) :
  length b < 2 ^ 32 →
  push_data script b ++ rest = script ++ (push_data [] b ++ rest) ∧
  GetOp (push_data [] b ++ rest) = (Some (push_opcode_of (length b), b), rest) ∧
  ∀ pc pc' x, GetOp pc = (Some x, pc') → ∃ used, used ≠ [] ∧ pc = used ++ pc'.
Proof.
  intros Hb. rewrite (push_data_app script), <- app_assoc, GetOp_push_data by done. split_and!; try done.
  intros pc pc' x E. apply GetOp_suffix in E as (used & -> & Hne). exists used. split; [by apply Hne|done].
Qed.

(** [FindAndDelete] removes exactly the occurrences of the pattern that start at
    an opcode boundary reached by the scan, one after another, counts them, and
    keeps every other byte in order. *)
Theorem FindAndDelete_correct (script b : CScript) :
  b ≠ [] →
  let '(script', nFound) := FindAndDelete script b in
  deleted b script script' nFound ∧ 0 <= nFound ∧
  length script' + nFound * length b = length script ∧
  (nFound = 0 → script' = script).
Proof.
  intros Hb. pose proof (FindAndDelete_ok script b Hb) as Hd.
  destruct (FindAndDelete script b) as [script' n]. cbn in Hd. split_and!; [done|..].
  - by apply (deleted_nonneg b script script').
  - by apply deleted_length.
  - by apply (deleted_zero b).
Qed.

(** both signature-operation counts of any script are defined (the decoding
    assertion never fails), the accurate count never exceeds the legacy one, and
    the legacy one is at most twenty per byte. *)
Theorem GetSigOpCount_bounds (script : CScript) :
  ∃ a i, GetSigOpCount script true = Some a ∧ GetSigOpCount script false = Some i ∧
    0 <= a <= i ∧ i <= 20 * length script.
Proof. apply (GetSigOpCount_loop_spec (S (length script)) script OP_INVALIDOPCODE 0 0); lia. Qed.

(** the template tests recognise exactly their templates: a script is
    pay-to-script-hash when it is [HASH160 <20 bytes> EQUAL], and a witness program
    of version [v] when it is [OP_v] followed by one direct push of 2 to 40
    bytes. *)
Theorem script_templates (script : CScript) (version : Z) (program : valtype) :
  (IsPayToScriptHash script = true ↔
   ∃ h, length h = 20%nat ∧ script = [OP_HASH160; 0x14] ++ h ++ [OP_EQUAL]) ∧
  (IsWitnessProgram script = Some (version, program) ↔
   ∃ op, EncodeOP_N version = Some op ∧ script = op :: Z.of_nat (length program) :: program ∧
         (2 ≤ length program ≤ 40)%nat).
Proof. split; [apply IsPayToScriptHash_shape|apply IsWitnessProgram_shape]. Qed.

Lemma CScriptNum_roundtrip_witness :
  ScriptNum.CScriptNum (ScriptNum.serialize (-2147483647)) true 4 = Some (-2147483647) ∧
  ScriptNum.CScriptNum (ScriptNum.serialize 2147483648) true 4 = None.
Proof.
  split.
  - apply (CScriptNum_roundtrip (-2147483647) 4); [lia|lia|]. change (8 * 4%nat - 1) with 31. lia.
  - apply (CScriptNum_roundtrip 2147483648 4); [lia|lia|]. change (8 * 4%nat - 1) with 31. lia.
Defined.

Lemma GetOp_push_roundtrip_witness :
  GetOp (push_data [] (replicate 300 7) ++ [OP_DUP]) = (Some (OP_PUSHDATA2, replicate 300 7), [OP_DUP]).
Proof.
  destruct (GetOp_push_roundtrip [] (replicate 300 7) [OP_DUP] ltac:(rewrite length_replicate; lia))
    as (_ & -> & _).
  reflexivity.
Defined.

Lemma FindAndDelete_correct_witness :
  let '(s, n) := FindAndDelete [2; 1; 9; 1; 9; OP_DUP; 1; 9] [1; 9] in
  s = [2; 1; 9; OP_DUP] ∧ n = 2 ∧ 0 <= n.
Proof.
  pose proof (FindAndDelete_correct [2; 1; 9; 1; 9; OP_DUP; 1; 9] [1; 9] ltac:(done)) as H.
  change (FindAndDelete [2; 1; 9; 1; 9; OP_DUP; 1; 9] [1; 9]) with ([2; 1; 9; OP_DUP], 2) in *.
  destruct H as (_ & H & _). by split_and!.
Defined.

(** ** Names *)

(** Opcodes that have a name are told apart by it. *)
Lemma GetOpName_inj (o1 o2 : opcodetype) :
  o1 ∈ opcodes → o2 ∈ opcodes → GetOpName o1 = GetOpName o2 → GetOpName o1 ≠ "OP_UNKNOWN"%string → o1 = o2.
Proof.
  assert (forallb (λ a, forallb (λ b, implb (String.eqb (GetOpName a) (GetOpName b)) (String.eqb (GetOpName a) "OP_UNKNOWN" || (a =? b)))
    opcodes) opcodes = true) as Hall by (vm_compute; reflexivity).
  rewrite forallb_forall in Hall. intros H1 H2 E Hu. apply list_elem_of_In in H1, H2.
  specialize (Hall o1 H1). rewrite forallb_forall in Hall. specialize (Hall o2 H2).
  rewrite E, String.eqb_refl in Hall. cbn [implb] in Hall. rewrite <- E in Hall.
  apply orb_prop in Hall as [Hall|Hall]; [by apply String.eqb_eq in Hall|lia].
Qed.
