(* ===== verification/Interpreter.v ===== *)
(** * The script interpreter ([src/src/script/interpreter.cpp], [interpreter.h],
      [script_error.h])

    [EvalScript] runs a script on a stack.  The stack is a list whose head is
    the top ([stacktop(-1)]); [vfExec] likewise has the innermost conditional
    first.  An operation returns the new state, an error with the stack as it
    was left (the caller can see it), or [Abort] where an assertion fails.  The
    exceptions the C++ code catches around its loop are the error
    [SCRIPT_ERR_UNKNOWN_ERROR].

    The signature checker is a record of its three virtual members; hash
    functions and the low-S test come from the classes of [Crypto.v]. *)

From Stdlib Require Import ZArith Lia.
From stdpp Require Import list.
From S2P Require Import Prelude Common Crypto Script.

Open Scope Z_scope.
Open Scope word_scope.

(** ** [enum ScriptError] *)
Inductive ScriptError :=
  | SCRIPT_ERR_OK
  | SCRIPT_ERR_UNKNOWN_ERROR
  | SCRIPT_ERR_EVAL_FALSE
  | SCRIPT_ERR_OP_RETURN
  | SCRIPT_ERR_SCRIPT_SIZE
  | SCRIPT_ERR_PUSH_SIZE
  | SCRIPT_ERR_OP_COUNT
  | SCRIPT_ERR_STACK_SIZE
  | SCRIPT_ERR_SIG_COUNT
  | SCRIPT_ERR_PUBKEY_COUNT
  | SCRIPT_ERR_VERIFY
  | SCRIPT_ERR_EQUALVERIFY
  | SCRIPT_ERR_CHECKMULTISIGVERIFY
  | SCRIPT_ERR_CHECKSIGVERIFY
  | SCRIPT_ERR_NUMEQUALVERIFY
  | SCRIPT_ERR_BAD_OPCODE
  | SCRIPT_ERR_DISABLED_OPCODE
  | SCRIPT_ERR_INVALID_STACK_OPERATION
  | SCRIPT_ERR_INVALID_ALTSTACK_OPERATION
  | SCRIPT_ERR_UNBALANCED_CONDITIONAL
  | SCRIPT_ERR_NEGATIVE_LOCKTIME
  | SCRIPT_ERR_UNSATISFIED_LOCKTIME
  | SCRIPT_ERR_SIG_HASHTYPE
  | SCRIPT_ERR_SIG_DER
  | SCRIPT_ERR_MINIMALDATA
  | SCRIPT_ERR_SIG_PUSHONLY
  | SCRIPT_ERR_SIG_HIGH_S
  | SCRIPT_ERR_SIG_NULLDUMMY
  | SCRIPT_ERR_PUBKEYTYPE
  | SCRIPT_ERR_CLEANSTACK
  | SCRIPT_ERR_MINIMALIF
  | SCRIPT_ERR_SIG_NULLFAIL
  | SCRIPT_ERR_DISCOURAGE_UPGRADABLE_NOPS
  | SCRIPT_ERR_DISCOURAGE_UPGRADABLE_WITNESS_PROGRAM
  | SCRIPT_ERR_WITNESS_PROGRAM_WRONG_LENGTH
  | SCRIPT_ERR_WITNESS_PROGRAM_WITNESS_EMPTY
  | SCRIPT_ERR_WITNESS_PROGRAM_MISMATCH
  | SCRIPT_ERR_WITNESS_MALLEATED
  | SCRIPT_ERR_WITNESS_MALLEATED_P2SH
  | SCRIPT_ERR_WITNESS_UNEXPECTED
  | SCRIPT_ERR_WITNESS_PUBKEYTYPE
  | SCRIPT_ERR_ERROR_COUNT.

#[global] Instance ScriptError_eq_dec : EqDecision ScriptError.
Proof. solve_decision. Defined.

(** ** Hash types and verification flags *)
Definition SIGHASH_ALL : Z := 1.
Definition SIGHASH_NONE : Z := 2.
Definition SIGHASH_SINGLE : Z := 3.
Definition SIGHASH_ANYONECANPAY : Z := 0x80.

Definition SCRIPT_VERIFY_NONE : Z := 0.
Definition SCRIPT_VERIFY_P2SH : Z := 1 .<< 0.
Definition SCRIPT_VERIFY_STRICTENC : Z := 1 .<< 1.
Definition SCRIPT_VERIFY_DERSIG : Z := 1 .<< 2.
Definition SCRIPT_VERIFY_LOW_S : Z := 1 .<< 3.
Definition SCRIPT_VERIFY_NULLDUMMY : Z := 1 .<< 4.
Definition SCRIPT_VERIFY_SIGPUSHONLY : Z := 1 .<< 5.
Definition SCRIPT_VERIFY_MINIMALDATA : Z := 1 .<< 6.
Definition SCRIPT_VERIFY_DISCOURAGE_UPGRADABLE_NOPS : Z := 1 .<< 7.
Definition SCRIPT_VERIFY_CLEANSTACK : Z := 1 .<< 8.
Definition SCRIPT_VERIFY_CHECKLOCKTIMEVERIFY : Z := 1 .<< 9.
Definition SCRIPT_VERIFY_CHECKSEQUENCEVERIFY : Z := 1 .<< 10.
Definition SCRIPT_VERIFY_WITNESS : Z := 1 .<< 11.
Definition SCRIPT_VERIFY_DISCOURAGE_UPGRADABLE_WITNESS_PROGRAM : Z := 1 .<< 12.
Definition SCRIPT_VERIFY_MINIMALIF : Z := 1 .<< 13.
Definition SCRIPT_VERIFY_NULLFAIL : Z := 1 .<< 14.
Definition SCRIPT_VERIFY_WITNESS_PUBKEYTYPE : Z := 1 .<< 15.

(** The verification flags, in order. *)
Definition script_verify_flags : list Z :=
  [SCRIPT_VERIFY_NONE; SCRIPT_VERIFY_P2SH; SCRIPT_VERIFY_STRICTENC; SCRIPT_VERIFY_DERSIG;
   SCRIPT_VERIFY_LOW_S; SCRIPT_VERIFY_NULLDUMMY; SCRIPT_VERIFY_SIGPUSHONLY; SCRIPT_VERIFY_MINIMALDATA;
   SCRIPT_VERIFY_DISCOURAGE_UPGRADABLE_NOPS; SCRIPT_VERIFY_CLEANSTACK; SCRIPT_VERIFY_CHECKLOCKTIMEVERIFY;
   SCRIPT_VERIFY_CHECKSEQUENCEVERIFY; SCRIPT_VERIFY_WITNESS;
   SCRIPT_VERIFY_DISCOURAGE_UPGRADABLE_WITNESS_PROGRAM; SCRIPT_VERIFY_MINIMALIF; SCRIPT_VERIFY_NULLFAIL;
   SCRIPT_VERIFY_WITNESS_PUBKEYTYPE].

(** [flags & f], as a condition. *)
Definition has (flags f : Z) : bool := negb (flags .& f =? 0).

Inductive SigVersion := SIGVERSION_BASE | SIGVERSION_WITNESS_V0.

#[global] Instance SigVersion_eq_dec : EqDecision SigVersion.
Proof. solve_decision. Defined.

(** [class BaseSignatureChecker] *)
Record BaseSignatureChecker := {
  CheckSig : valtype → valtype → CScript → SigVersion → bool;
  CheckLockTime : Z → bool;
  CheckSequence : Z → bool
}.

(** The default implementations: everything is refused. *)
Definition base_checker : BaseSignatureChecker := {|
  CheckSig _ _ _ _ := false; CheckLockTime _ := false; CheckSequence _ := false |}.

(** ** Stack elements as booleans *)
Fixpoint CastToBool (vch : valtype) : bool :=
  match vch with
  | [] => false
  | x :: rest =>
      if negb (x =? 0)
      then negb (match rest with [] => x =? 0x80 | _ => false end)
      else CastToBool rest
  end.

(** ** Encodings of keys and signatures *)
Definition IsCompressedOrUncompressedPubKey (vchPubKey : valtype) : bool :=
  if (length vchPubKey <? 33)%nat then false
  else if vchPubKey.[0] =? 0x04 then (length vchPubKey =? 65)%nat
  else if (vchPubKey.[0] =? 0x02) || (vchPubKey.[0] =? 0x03) then (length vchPubKey =? 33)%nat
  else false.

Definition IsCompressedPubKey (vchPubKey : valtype) : bool :=
  if negb (length vchPubKey =? 33)%nat then false
  else if negb (vchPubKey.[0] =? 0x02) && negb (vchPubKey.[0] =? 0x03) then false
  else true.

Definition IsValidSignatureEncoding (sig : valtype) : bool :=
  let size := Z.of_nat (length sig) in
  let at_ i := sig.[Z.to_nat i] in
  let lenR := at_ 3 in
  let lenS := at_ (5 + lenR) in
  if size <? 9 then false
  else if size >? 73 then false
  else if negb (at_ 0 =? 0x30) then false
  else if negb (at_ 1 =? size - 3) then false
  else if 5 + lenR >=? size then false
  else if negb (lenR + lenS + 7 =? size) then false
  else if negb (at_ 2 =? 0x02) then false
  else if lenR =? 0 then false
  else if negb (at_ 4 .& 0x80 =? 0) then false
  else if (lenR >? 1) && (at_ 4 =? 0x00) && (at_ 5 .& 0x80 =? 0) then false
  else if negb (at_ (lenR + 4) =? 0x02) then false
  else if lenS =? 0 then false
  else if negb (at_ (lenR + 6) .& 0x80 =? 0) then false
  else if (lenS >? 1) && (at_ (lenR + 6) =? 0x00) && (at_ (lenR + 7) .& 0x80 =? 0) then false
  else true.

(** The functions below return the error they set, [None] for success. *)
Definition IsLowDERSignature `{Secp256k1} (vchSig : valtype) : option ScriptError :=
  if negb (IsValidSignatureEncoding vchSig) then Some SCRIPT_ERR_SIG_DER
  else if negb (CheckLowS (take (length vchSig - 1) vchSig)) then Some SCRIPT_ERR_SIG_HIGH_S
  else None.

Definition IsDefinedHashtypeSignature (vchSig : valtype) : bool :=
  if (length vchSig =? 0)%nat then false
  else
    let nHashType := u8 (vchSig.[length vchSig - 1] .& Z.lnot SIGHASH_ANYONECANPAY) in
    if (nHashType <? SIGHASH_ALL) || (nHashType >? SIGHASH_SINGLE) then false else true.

Definition CheckSignatureEncoding `{Secp256k1} (vchSig : valtype) (flags : Z) : option ScriptError :=
  if (length vchSig =? 0)%nat then None
  else if has flags (SCRIPT_VERIFY_DERSIG .| SCRIPT_VERIFY_LOW_S .| SCRIPT_VERIFY_STRICTENC)
          && negb (IsValidSignatureEncoding vchSig)
  then Some SCRIPT_ERR_SIG_DER
  else match (if has flags SCRIPT_VERIFY_LOW_S then IsLowDERSignature vchSig else None) with
       | Some e => Some e
       | None =>
           if has flags SCRIPT_VERIFY_STRICTENC && negb (IsDefinedHashtypeSignature vchSig)
           then Some SCRIPT_ERR_SIG_HASHTYPE else None
       end.

Definition CheckPubKeyEncoding (vchPubKey : valtype) (flags : Z) (sigversion : SigVersion) :
    option ScriptError :=
  if has flags SCRIPT_VERIFY_STRICTENC && negb (IsCompressedOrUncompressedPubKey vchPubKey)
  then Some SCRIPT_ERR_PUBKEYTYPE
  else if has flags SCRIPT_VERIFY_WITNESS_PUBKEYTYPE
          && bool_decide (sigversion = SIGVERSION_WITNESS_V0)
          && negb (IsCompressedPubKey vchPubKey)
  then Some SCRIPT_ERR_WITNESS_PUBKEYTYPE
  else None.

Definition CheckMinimalPush (data : valtype) (opcode : opcodetype) : bool :=
  let n := length data in
  if (n =? 0)%nat then opcode =? OP_0
  else if (n =? 1)%nat && (data.[0] >=? 1) && (data.[0] <=? 16)
  then opcode =? OP_1 + (data.[0] - 1)
  else if (n =? 1)%nat && (data.[0] =? 0x81) then opcode =? OP_1NEGATE
  else if n <=? 75 then opcode =? n
  else if n <=? 255 then opcode =? OP_PUSHDATA1
  else if n <=? 65535 then opcode =? OP_PUSHDATA2
  else true.

(** ** Evaluation *)

(** The local variables of [EvalScript]. *)
Record EvalState := mkEval {
  stack : list valtype;
  altstack : list valtype;
  vfExec : list bool;
  nOpCount : Z;
  pbegincodehash : list Z
}.

Definition with_stack (st : EvalState) (s : list valtype) : EvalState :=
  mkEval s (altstack st) (vfExec st) (nOpCount st) (pbegincodehash st).
Definition with_altstack (st : EvalState) (s a : list valtype) : EvalState :=
  mkEval s a (vfExec st) (nOpCount st) (pbegincodehash st).
Definition with_vfExec (st : EvalState) (v : list bool) : EvalState :=
  mkEval (stack st) (altstack st) v (nOpCount st) (pbegincodehash st).
Definition with_nOpCount (st : EvalState) (n : Z) : EvalState :=
  mkEval (stack st) (altstack st) (vfExec st) n (pbegincodehash st).
Definition with_codehash (st : EvalState) (pc : list Z) : EvalState :=
  mkEval (stack st) (altstack st) (vfExec st) (nOpCount st) pc.

(** Outcome: a value, an error with the stack at that point, or a failed
    assertion. *)
Inductive Res (A : Type) :=
  | Ok (a : A)
  | Err (e : ScriptError) (s : list valtype)
  | Abort.
Arguments Ok {A} a.
Arguments Err {A} e s.
Arguments Abort {A}.

Definition rbind {A B : Type} (m : Res A) (k : A → Res B) : Res B :=
  match m with Ok a => k a | Err e s => Err e s | Abort => Abort end.

Notation "'let*' x := m 'in' k" := (rbind m (λ x, k))
  (at level 10, x pattern, k at level 200).

(** Where a script asks for a signature to be checked, the answer comes from the checker, which may read and change a cache:
    the interpreter is written over any kind of computation that contains [Res]. *)
Class EvalMonad (M : Type → Type) := {
  mres {A : Type} : Res A → M A;
  mthen {A B : Type} : M A → (A → M B) → M B
}.

Notation "'let!' x := m 'in' k" := (mthen m (λ x, k))
  (at level 10, x pattern, k at level 200).

(** A checker whose answers about signatures are such computations. *)
Record SignatureChecker (M : Type → Type) := {
  CheckSigM : valtype → valtype → CScript → SigVersion → M bool;
  CheckLockTimeM : Z → bool;
  CheckSequenceM : Z → bool
}.
Arguments CheckSigM {M} _ _ _ _ _.
Arguments CheckLockTimeM {M} _ _.
Arguments CheckSequenceM {M} _ _.

(** Without a state: the outcome itself. *)
#[global] Instance res_monad : EvalMonad Res := {| mres _ r := r; mthen _ _ := rbind |}.

Definition pure_checker (checker : BaseSignatureChecker) : SignatureChecker Res := {|
  CheckSigM vchSig vchPubKey scriptCode sigversion := Ok (CheckSig checker vchSig vchPubKey scriptCode sigversion);
  CheckLockTimeM := CheckLockTime checker;
  CheckSequenceM := CheckSequence checker |}.
Coercion pure_checker : BaseSignatureChecker >-> SignatureChecker.

(** Computes the interpreter's operations away where there is no state. *)
Ltac pure_eval := cbn [mres mthen res_monad pure_checker CheckSigM CheckLockTimeM CheckSequenceM].

Definition vchFalse : valtype := [].
Definition vchTrue : valtype := [1].
Definition vchBool (b : bool) : valtype := if b then vchTrue else vchFalse.

Section Eval.
Context `{CryptoHash} `{Secp256k1} {M : Type → Type} `{EvalMonad M}.
Context (flags : Z) (checker : SignatureChecker M) (sigversion : SigVersion).

Definition fRequireMinimal : bool := has flags SCRIPT_VERIFY_MINIMALDATA.

Definition invalid_stack (st : EvalState) : Res EvalState :=
  Err SCRIPT_ERR_INVALID_STACK_OPERATION (stack st).

(** A stack element read as a number: the exception leaves the loop with
    [SCRIPT_ERR_UNKNOWN_ERROR]. *)
Definition read_num (st : EvalState) (vch : valtype) (nMaxNumSize : nat) : Res Z :=
  match ScriptNum.CScriptNum vch fRequireMinimal nMaxNumSize with
  | Some n => Ok n
  | None => Err SCRIPT_ERR_UNKNOWN_ERROR (stack st)
  end.

(** An asserting operation on numbers. *)
Definition asserting {A : Type} (o : option A) : Res A :=
  match o with Some a => Ok a | None => Abort end.

(** [OP_1NEGATE], [OP_1] ... [OP_16] *)
Definition op_push_number (opcode : opcodetype) (st : EvalState) : Res EvalState :=
  Ok (with_stack st (ScriptNum.getvch (opcode - (OP_1 - 1)) :: stack st)).

(** [OP_CHECKLOCKTIMEVERIFY] *)
Definition op_checklocktimeverify (st : EvalState) : Res EvalState :=
  if negb (has flags SCRIPT_VERIFY_CHECKLOCKTIMEVERIFY) then
    if has flags SCRIPT_VERIFY_DISCOURAGE_UPGRADABLE_NOPS
    then Err SCRIPT_ERR_DISCOURAGE_UPGRADABLE_NOPS (stack st) else Ok st
  else match stack st with
  | [] => invalid_stack st
  | top :: _ =>
      let* nLockTime := read_num st top 5 in
      if nLockTime <? 0 then Err SCRIPT_ERR_NEGATIVE_LOCKTIME (stack st)
      else if negb (CheckLockTimeM checker nLockTime)
      then Err SCRIPT_ERR_UNSATISFIED_LOCKTIME (stack st)
      else Ok st
  end.

Definition SEQUENCE_LOCKTIME_DISABLE_FLAG : Z := 1 .<< 31.

(** [OP_CHECKSEQUENCEVERIFY] *)
Definition op_checksequenceverify (st : EvalState) : Res EvalState :=
  if negb (has flags SCRIPT_VERIFY_CHECKSEQUENCEVERIFY) then
    if has flags SCRIPT_VERIFY_DISCOURAGE_UPGRADABLE_NOPS
    then Err SCRIPT_ERR_DISCOURAGE_UPGRADABLE_NOPS (stack st) else Ok st
  else match stack st with
  | [] => invalid_stack st
  | top :: _ =>
      let* nSequence := read_num st top 5 in
      if nSequence <? 0 then Err SCRIPT_ERR_NEGATIVE_LOCKTIME (stack st)
      else if negb (nSequence .& SEQUENCE_LOCKTIME_DISABLE_FLAG =? 0) then Ok st
      else if negb (CheckSequenceM checker nSequence)
      then Err SCRIPT_ERR_UNSATISFIED_LOCKTIME (stack st)
      else Ok st
  end.

(** [OP_NOP1], [OP_NOP4] ... [OP_NOP10] *)
Definition op_upgradable_nop (st : EvalState) : Res EvalState :=
  if has flags SCRIPT_VERIFY_DISCOURAGE_UPGRADABLE_NOPS
  then Err SCRIPT_ERR_DISCOURAGE_UPGRADABLE_NOPS (stack st) else Ok st.

(** [OP_IF], [OP_NOTIF] *)
Definition op_if (opcode : opcodetype) (fExec : bool) (st : EvalState) : Res EvalState :=
  if negb fExec then Ok (with_vfExec st (false :: vfExec st))
  else match stack st with
  | [] => Err SCRIPT_ERR_UNBALANCED_CONDITIONAL (stack st)
  | vch :: rest =>
      if bool_decide (sigversion = SIGVERSION_WITNESS_V0) && has flags SCRIPT_VERIFY_MINIMALIF
         && ((1 <? length vch)%nat || ((length vch =? 1)%nat && negb (vch.[0] =? 1)))
      then Err SCRIPT_ERR_MINIMALIF (stack st)
      else
        let fValue := CastToBool vch in
        let fValue := if opcode =? OP_NOTIF then negb fValue else fValue in
        Ok (with_vfExec (with_stack st rest) (fValue :: vfExec st))
  end.

(** [OP_ELSE] *)
Definition op_else (st : EvalState) : Res EvalState :=
  match vfExec st with
  | [] => Err SCRIPT_ERR_UNBALANCED_CONDITIONAL (stack st)
  | v :: rest => Ok (with_vfExec st (negb v :: rest))
  end.

(** [OP_ENDIF] *)
Definition op_endif (st : EvalState) : Res EvalState :=
  match vfExec st with
  | [] => Err SCRIPT_ERR_UNBALANCED_CONDITIONAL (stack st)
  | _ :: rest => Ok (with_vfExec st rest)
  end.

(** [OP_VERIFY] *)
Definition op_verify (st : EvalState) : Res EvalState :=
  match stack st with
  | [] => invalid_stack st
  | top :: rest =>
      if CastToBool top then Ok (with_stack st rest) else Err SCRIPT_ERR_VERIFY (stack st)
  end.

(** [OP_TOALTSTACK] *)
Definition op_toaltstack (st : EvalState) : Res EvalState :=
  match stack st with
  | [] => invalid_stack st
  | top :: rest => Ok (with_altstack st rest (top :: altstack st))
  end.

(** [OP_FROMALTSTACK] *)
Definition op_fromaltstack (st : EvalState) : Res EvalState :=
  match altstack st with
  | [] => Err SCRIPT_ERR_INVALID_ALTSTACK_OPERATION (stack st)
  | top :: rest => Ok (with_altstack st (top :: stack st) rest)
  end.

(** The operations that only rearrange a fixed number of elements:
    [OP_2DROP] ... [OP_2SWAP] and [OP_DROP] ... [OP_TUCK]. *)
Definition op_2drop (st : EvalState) : Res EvalState :=
  match stack st with _ :: _ :: s => Ok (with_stack st s) | _ => invalid_stack st end.
Definition op_2dup (st : EvalState) : Res EvalState :=
  match stack st with
  | x2 :: x1 :: s => Ok (with_stack st (x2 :: x1 :: x2 :: x1 :: s)) | _ => invalid_stack st end.
Definition op_3dup (st : EvalState) : Res EvalState :=
  match stack st with
  | x3 :: x2 :: x1 :: s => Ok (with_stack st (x3 :: x2 :: x1 :: x3 :: x2 :: x1 :: s))
  | _ => invalid_stack st end.
Definition op_2over (st : EvalState) : Res EvalState :=
  match stack st with
  | x4 :: x3 :: x2 :: x1 :: s => Ok (with_stack st (x2 :: x1 :: x4 :: x3 :: x2 :: x1 :: s))
  | _ => invalid_stack st end.
Definition op_2rot (st : EvalState) : Res EvalState :=
  match stack st with
  | x6 :: x5 :: x4 :: x3 :: x2 :: x1 :: s =>
      Ok (with_stack st (x2 :: x1 :: x6 :: x5 :: x4 :: x3 :: s))
  | _ => invalid_stack st end.
Definition op_2swap (st : EvalState) : Res EvalState :=
  match stack st with
  | x4 :: x3 :: x2 :: x1 :: s => Ok (with_stack st (x2 :: x1 :: x4 :: x3 :: s))
  | _ => invalid_stack st end.

(** [OP_IFDUP] *)
Definition op_ifdup (st : EvalState) : Res EvalState :=
  match stack st with
  | x :: s => Ok (if CastToBool x then with_stack st (x :: x :: s) else st)
  | _ => invalid_stack st end.

(** [OP_DEPTH] *)
Definition op_depth (st : EvalState) : Res EvalState :=
  Ok (with_stack st (ScriptNum.getvch (length (stack st)) :: stack st)).

Definition op_drop (st : EvalState) : Res EvalState :=
  match stack st with _ :: s => Ok (with_stack st s) | _ => invalid_stack st end.
Definition op_dup (st : EvalState) : Res EvalState :=
  match stack st with x :: s => Ok (with_stack st (x :: x :: s)) | _ => invalid_stack st end.
Definition op_nip (st : EvalState) : Res EvalState :=
  match stack st with x2 :: _ :: s => Ok (with_stack st (x2 :: s)) | _ => invalid_stack st end.
Definition op_over (st : EvalState) : Res EvalState :=
  match stack st with
  | x2 :: x1 :: s => Ok (with_stack st (x1 :: x2 :: x1 :: s)) | _ => invalid_stack st end.

(** [OP_PICK], [OP_ROLL] *)
Definition op_pick_roll (opcode : opcodetype) (st : EvalState) : Res EvalState :=
  match stack st with
  | top :: ((_ :: _) as rest) =>
      let* num := read_num st top ScriptNum.nDefaultMaxNumSize in
      let n := ScriptNum.getint num in
      if (n <? 0) || (n >=? length rest)
      then Err SCRIPT_ERR_INVALID_STACK_OPERATION rest
      else match rest !! Z.to_nat n with
           | Some vch =>
               Ok (with_stack st (vch :: (if opcode =? OP_ROLL then delete (Z.to_nat n) rest else rest)))
           | None => Err SCRIPT_ERR_UNKNOWN_ERROR rest (* stack.at() *)
           end
  | _ => invalid_stack st
  end.

Definition op_rot (st : EvalState) : Res EvalState :=
  match stack st with
  | x3 :: x2 :: x1 :: s => Ok (with_stack st (x1 :: x3 :: x2 :: s)) | _ => invalid_stack st end.
Definition op_swap (st : EvalState) : Res EvalState :=
  match stack st with
  | x2 :: x1 :: s => Ok (with_stack st (x1 :: x2 :: s)) | _ => invalid_stack st end.
Definition op_tuck (st : EvalState) : Res EvalState :=
  match stack st with
  | x2 :: x1 :: s => Ok (with_stack st (x2 :: x1 :: x2 :: s)) | _ => invalid_stack st end.

(** [OP_SIZE] *)
Definition op_size (st : EvalState) : Res EvalState :=
  match stack st with
  | x :: s => Ok (with_stack st (ScriptNum.getvch (length x) :: x :: s))
  | _ => invalid_stack st end.

(** [OP_EQUAL], [OP_EQUALVERIFY] *)
Definition op_equal (opcode : opcodetype) (st : EvalState) : Res EvalState :=
  match stack st with
  | vch2 :: vch1 :: s =>
      let fEqual := bool_decide (vch1 = vch2) in
      if opcode =? OP_EQUALVERIFY then
        if fEqual then Ok (with_stack st s)
        else Err SCRIPT_ERR_EQUALVERIFY (vchFalse :: s)
      else Ok (with_stack st (vchBool fEqual :: s))
  | _ => invalid_stack st
  end.

(** [OP_1ADD] ... [OP_0NOTEQUAL] *)
Definition unary_result (opcode : opcodetype) (bn : Z) : option Z :=
  if opcode =? OP_1ADD then ScriptNum.add_assign bn 1
  else if opcode =? OP_1SUB then ScriptNum.sub_assign bn 1
  else if opcode =? OP_NEGATE then ScriptNum.neg bn
  else if opcode =? OP_ABS then if bn <? 0 then ScriptNum.neg bn else Some bn
  else if opcode =? OP_NOT then Some (Z.b2z (bn =? 0))
  else if opcode =? OP_0NOTEQUAL then Some (Z.b2z (negb (bn =? 0)))
  else None.

Definition op_unary (opcode : opcodetype) (st : EvalState) : Res EvalState :=
  match stack st with
  | x :: s =>
      let* bn := read_num st x ScriptNum.nDefaultMaxNumSize in
      let* r := asserting (unary_result opcode bn) in
      Ok (with_stack st (ScriptNum.getvch r :: s))
  | _ => invalid_stack st
  end.

(** [OP_ADD] ... [OP_MAX] *)
Definition binary_result (opcode : opcodetype) (bn1 bn2 : Z) : option Z :=
  if opcode =? OP_ADD then Some (ScriptNum.add bn1 bn2)
  else if opcode =? OP_SUB then Some (ScriptNum.sub bn1 bn2)
  else if opcode =? OP_BOOLAND then Some (Z.b2z (negb (bn1 =? 0) && negb (bn2 =? 0)))
  else if opcode =? OP_BOOLOR then Some (Z.b2z (negb (bn1 =? 0) || negb (bn2 =? 0)))
  else if opcode =? OP_NUMEQUAL then Some (Z.b2z (bn1 =? bn2))
  else if opcode =? OP_NUMEQUALVERIFY then Some (Z.b2z (bn1 =? bn2))
  else if opcode =? OP_NUMNOTEQUAL then Some (Z.b2z (negb (bn1 =? bn2)))
  else if opcode =? OP_LESSTHAN then Some (Z.b2z (bn1 <? bn2))
  else if opcode =? OP_GREATERTHAN then Some (Z.b2z (bn1 >? bn2))
  else if opcode =? OP_LESSTHANOREQUAL then Some (Z.b2z (bn1 <=? bn2))
  else if opcode =? OP_GREATERTHANOREQUAL then Some (Z.b2z (bn1 >=? bn2))
  else if opcode =? OP_MIN then Some (if bn1 <? bn2 then bn1 else bn2)
  else if opcode =? OP_MAX then Some (if bn1 >? bn2 then bn1 else bn2)
  else None.

Definition op_binary (opcode : opcodetype) (st : EvalState) : Res EvalState :=
  match stack st with
  | x2 :: x1 :: s =>
      let* bn1 := read_num st x1 ScriptNum.nDefaultMaxNumSize in
      let* bn2 := read_num st x2 ScriptNum.nDefaultMaxNumSize in
      let* bn := asserting (binary_result opcode bn1 bn2) in
      let s' := ScriptNum.getvch bn :: s in
      if opcode =? OP_NUMEQUALVERIFY then
        if CastToBool (ScriptNum.getvch bn) then Ok (with_stack st s)
        else Err SCRIPT_ERR_NUMEQUALVERIFY s'
      else Ok (with_stack st s')
  | _ => invalid_stack st
  end.

(** [OP_WITHIN] *)
Definition op_within (st : EvalState) : Res EvalState :=
  match stack st with
  | x3 :: x2 :: x1 :: s =>
      let* bn1 := read_num st x1 ScriptNum.nDefaultMaxNumSize in
      let* bn2 := read_num st x2 ScriptNum.nDefaultMaxNumSize in
      let* bn3 := read_num st x3 ScriptNum.nDefaultMaxNumSize in
      Ok (with_stack st (vchBool ((bn2 <=? bn1) && (bn1 <? bn3)) :: s))
  | _ => invalid_stack st
  end.

(** [OP_RIPEMD160] ... [OP_HASH256] *)
Definition op_hash (opcode : opcodetype) (st : EvalState) : Res EvalState :=
  match stack st with
  | vch :: s =>
      let vchHash :=
        if opcode =? OP_RIPEMD160 then RIPEMD160 vch
        else if opcode =? OP_SHA1 then SHA1 vch
        else if opcode =? OP_SHA256 then SHA256 vch
        else if opcode =? OP_HASH160 then CHash160 vch
        else if opcode =? OP_HASH256 then CHash256 vch
        else replicate 32 0 in
      Ok (with_stack st (vchHash :: s))
  | _ => invalid_stack st
  end.

(** The script the signature commits to: before segregated witness the signature
    itself is removed from it. *)
Definition drop_signature (scriptCode : CScript) (vchSig : valtype) : CScript :=
  if bool_decide (sigversion = SIGVERSION_BASE)
  then (FindAndDelete scriptCode (push_data [] vchSig)).1 else scriptCode.

Definition check_encodings (vchSig vchPubKey : valtype) : option ScriptError :=
  match CheckSignatureEncoding vchSig flags with
  | Some e => Some e
  | None => CheckPubKeyEncoding vchPubKey flags sigversion
  end.

(** [OP_CHECKSIG], [OP_CHECKSIGVERIFY] *)
Definition op_checksig (opcode : opcodetype) (st : EvalState) : M EvalState :=
  match stack st with
  | vchPubKey :: vchSig :: s =>
      let scriptCode := drop_signature (pbegincodehash st) vchSig in
      match check_encodings vchSig vchPubKey with
      | Some e => mres (Err e (stack st))
      | None =>
          let! fSuccess := CheckSigM checker vchSig vchPubKey scriptCode sigversion in
          mres (
            if negb fSuccess && has flags SCRIPT_VERIFY_NULLFAIL && (0 <? length vchSig)%nat
            then Err SCRIPT_ERR_SIG_NULLFAIL (stack st)
            else if opcode =? OP_CHECKSIGVERIFY then
              if fSuccess then Ok (with_stack st s)
              else Err SCRIPT_ERR_CHECKSIGVERIFY (vchFalse :: s)
            else Ok (with_stack st (vchBool fSuccess :: s)))
      end
  | _ => mres (invalid_stack st)
  end.

(** The signature loop of [OP_CHECKMULTISIG]: the keys and signatures are stack
    positions counted from the top, the top being 1. *)
Fixpoint multisig_loop (fuel : nat) (st : EvalState) (scriptCode : CScript)
    (isig ikey nSigsCount nKeysCount : Z) : M bool :=
  match fuel with
  | O => mres (Err SCRIPT_ERR_UNKNOWN_ERROR (stack st))
  | S fuel' =>
      if nSigsCount >? 0 then
        match stack st !! Z.to_nat (isig - 1), stack st !! Z.to_nat (ikey - 1) with
        | Some vchSig, Some vchPubKey =>
            match check_encodings vchSig vchPubKey with
            | Some e => mres (Err e (stack st))
            | None =>
                let! fOk := CheckSigM checker vchSig vchPubKey scriptCode sigversion in
                let isig := if fOk : bool then isig + 1 else isig in
                let nSigsCount := if fOk then nSigsCount - 1 else nSigsCount in
                let ikey := ikey + 1 in
                let nKeysCount := nKeysCount - 1 in
                if nSigsCount >? nKeysCount then mres (Ok false)
                else multisig_loop fuel' st scriptCode isig ikey nSigsCount nKeysCount
            end
        | _, _ => mres (Err SCRIPT_ERR_UNKNOWN_ERROR (stack st))
        end
      else mres (Ok true)
  end.

(** The clean-up loop: pops [n] elements; after [ikey2] of them only empty ones
    when the operation failed under [NULLFAIL]. *)
Fixpoint multisig_cleanup (n : nat) (fSuccess : bool) (ikey2 : Z) (s : list valtype) :
    Res (list valtype) :=
  match n with
  | O => Ok s
  | S n' =>
      match s with
      | [] => Err SCRIPT_ERR_UNKNOWN_ERROR s
      | top :: s' =>
          if negb fSuccess && has flags SCRIPT_VERIFY_NULLFAIL && (ikey2 =? 0)
             && (0 <? length top)%nat
          then Err SCRIPT_ERR_SIG_NULLFAIL s
          else multisig_cleanup n' fSuccess (if ikey2 >? 0 then ikey2 - 1 else ikey2) s'
      end
  end.

(** Removing the signatures [stacktop(-isig)], ... from the signed script. *)
Definition drop_signatures (st : EvalState) (isig nSigsCount : Z) : CScript :=
  for_up 0 (Z.to_nat nSigsCount)
    (λ k scriptCode, drop_signature scriptCode (default [] (stack st !! Z.to_nat (isig + k - 1))))
    (pbegincodehash st).

(** [OP_CHECKMULTISIG], [OP_CHECKMULTISIGVERIFY] *)
Definition op_checkmultisig (opcode : opcodetype) (st : EvalState) : M EvalState :=
  let size := Z.of_nat (length (stack st)) in
  match stack st with
  | [] => mres (invalid_stack st)
  | top :: _ =>
      let! num := mres (read_num st top ScriptNum.nDefaultMaxNumSize) in
      let nKeysCount := ScriptNum.getint num in
      if (nKeysCount <? 0) || (nKeysCount >? MAX_PUBKEYS_PER_MULTISIG)
      then mres (Err SCRIPT_ERR_PUBKEY_COUNT (stack st))
      else
      let st := with_nOpCount st (nOpCount st + nKeysCount) in
      if nOpCount st >? MAX_OPS_PER_SCRIPT then mres (Err SCRIPT_ERR_OP_COUNT (stack st))
      else
      let ikey := 2 in
      let ikey2 := nKeysCount + 2 in
      let i := 2 + nKeysCount in
      if size <? i then mres (invalid_stack st)
      else
      let! num := mres (read_num st (default [] (stack st !! Z.to_nat (i - 1))) ScriptNum.nDefaultMaxNumSize) in
      let nSigsCount := ScriptNum.getint num in
      if (nSigsCount <? 0) || (nSigsCount >? nKeysCount)
      then mres (Err SCRIPT_ERR_SIG_COUNT (stack st))
      else
      let isig := i + 1 in
      let i := i + 1 + nSigsCount in
      if size <? i then mres (invalid_stack st)
      else
      let scriptCode := drop_signatures st isig nSigsCount in
      let! fSuccess :=
        multisig_loop (S (Z.to_nat nKeysCount)) st scriptCode isig ikey nSigsCount nKeysCount in
      mres (
        let* s := multisig_cleanup (Z.to_nat (i - 1)) fSuccess ikey2 (stack st) in
        match s with
        | [] => Err SCRIPT_ERR_INVALID_STACK_OPERATION s
        | dummy :: s' =>
            if has flags SCRIPT_VERIFY_NULLDUMMY && (0 <? length dummy)%nat
            then Err SCRIPT_ERR_SIG_NULLDUMMY s
            else if opcode =? OP_CHECKMULTISIGVERIFY then
              if fSuccess then Ok (with_stack st s')
              else Err SCRIPT_ERR_CHECKMULTISIGVERIFY (vchFalse :: s')
            else Ok (with_stack st (vchBool fSuccess :: s'))
        end)
  end.

Definition is_one_of (opcode : opcodetype) (l : list opcodetype) : bool := existsb (Z.eqb opcode) l.

(** Disabled opcodes *)
Definition disabled_opcodes : list opcodetype :=
  [OP_CAT; OP_SUBSTR; OP_LEFT; OP_RIGHT; OP_INVERT; OP_AND; OP_OR; OP_XOR; OP_2MUL; OP_2DIV;
   OP_MUL; OP_DIV; OP_MOD; OP_LSHIFT; OP_RSHIFT].

Definition push_number_opcodes : list opcodetype :=
  [OP_1NEGATE; OP_1; OP_2; OP_3; OP_4; OP_5; OP_6; OP_7; OP_8; OP_9; OP_10; OP_11; OP_12; OP_13;
   OP_14; OP_15; OP_16].

Definition upgradable_nops : list opcodetype :=
  [OP_NOP1; OP_NOP4; OP_NOP5; OP_NOP6; OP_NOP7; OP_NOP8; OP_NOP9; OP_NOP10].

Definition unary_opcodes : list opcodetype :=
  [OP_1ADD; OP_1SUB; OP_NEGATE; OP_ABS; OP_NOT; OP_0NOTEQUAL].

Definition binary_opcodes : list opcodetype :=
  [OP_ADD; OP_SUB; OP_BOOLAND; OP_BOOLOR; OP_NUMEQUAL; OP_NUMEQUALVERIFY; OP_NUMNOTEQUAL;
   OP_LESSTHAN; OP_GREATERTHAN; OP_LESSTHANOREQUAL; OP_GREATERTHANOREQUAL; OP_MIN; OP_MAX].

Definition hash_opcodes : list opcodetype :=
  [OP_RIPEMD160; OP_SHA1; OP_SHA256; OP_HASH160; OP_HASH256].

(** The [switch]; [pc] is the iterator after the opcode. *)
Definition eval_opcode (fExec : bool) (opcode : opcodetype) (pc : list Z) (st : EvalState) :
    M EvalState :=
  if is_one_of opcode push_number_opcodes then mres (op_push_number opcode st)
  else if opcode =? OP_NOP then mres (Ok st)
  else if opcode =? OP_CHECKLOCKTIMEVERIFY then mres (op_checklocktimeverify st)
  else if opcode =? OP_CHECKSEQUENCEVERIFY then mres (op_checksequenceverify st)
  else if is_one_of opcode upgradable_nops then mres (op_upgradable_nop st)
  else if is_one_of opcode [OP_IF; OP_NOTIF] then mres (op_if opcode fExec st)
  else if opcode =? OP_ELSE then mres (op_else st)
  else if opcode =? OP_ENDIF then mres (op_endif st)
  else if opcode =? OP_VERIFY then mres (op_verify st)
  else if opcode =? OP_RETURN then mres (Err SCRIPT_ERR_OP_RETURN (stack st))
  else if opcode =? OP_TOALTSTACK then mres (op_toaltstack st)
  else if opcode =? OP_FROMALTSTACK then mres (op_fromaltstack st)
  else if opcode =? OP_2DROP then mres (op_2drop st)
  else if opcode =? OP_2DUP then mres (op_2dup st)
  else if opcode =? OP_3DUP then mres (op_3dup st)
  else if opcode =? OP_2OVER then mres (op_2over st)
  else if opcode =? OP_2ROT then mres (op_2rot st)
  else if opcode =? OP_2SWAP then mres (op_2swap st)
  else if opcode =? OP_IFDUP then mres (op_ifdup st)
  else if opcode =? OP_DEPTH then mres (op_depth st)
  else if opcode =? OP_DROP then mres (op_drop st)
  else if opcode =? OP_DUP then mres (op_dup st)
  else if opcode =? OP_NIP then mres (op_nip st)
  else if opcode =? OP_OVER then mres (op_over st)
  else if is_one_of opcode [OP_PICK; OP_ROLL] then mres (op_pick_roll opcode st)
  else if opcode =? OP_ROT then mres (op_rot st)
  else if opcode =? OP_SWAP then mres (op_swap st)
  else if opcode =? OP_TUCK then mres (op_tuck st)
  else if opcode =? OP_SIZE then mres (op_size st)
  else if is_one_of opcode [OP_EQUAL; OP_EQUALVERIFY] then mres (op_equal opcode st)
  else if is_one_of opcode unary_opcodes then mres (op_unary opcode st)
  else if is_one_of opcode binary_opcodes then mres (op_binary opcode st)
  else if opcode =? OP_WITHIN then mres (op_within st)
  else if is_one_of opcode hash_opcodes then mres (op_hash opcode st)
  else if opcode =? OP_CODESEPARATOR then mres (Ok (with_codehash st pc))
  else if is_one_of opcode [OP_CHECKSIG; OP_CHECKSIGVERIFY] then op_checksig opcode st
  else if is_one_of opcode [OP_CHECKMULTISIG; OP_CHECKMULTISIGVERIFY]
  then op_checkmultisig opcode st
  else mres (Err SCRIPT_ERR_BAD_OPCODE (stack st)).

(** What an opcode does once it has been read and counted. *)
Definition exec_opcode (fExec : bool) (opcode : opcodetype) (vchPushValue : valtype)
    (pc : list Z) (st : EvalState) : M EvalState :=
  if fExec && (0 <=? opcode) && (opcode <=? OP_PUSHDATA4) then
    if fRequireMinimal && negb (CheckMinimalPush vchPushValue opcode)
    then mres (Err SCRIPT_ERR_MINIMALDATA (stack st))
    else mres (Ok (with_stack st (vchPushValue :: stack st)))
  else if fExec || ((OP_IF <=? opcode) && (opcode <=? OP_ENDIF))
  then eval_opcode fExec opcode pc st
  else mres (Ok st).

(** One turn of the loop. *)
Definition eval_step (pc : list Z) (st : EvalState) : M (list Z * EvalState)%type :=
  let fExec := forallb (λ b, b) (vfExec st) in
  match GetOp pc with
  | (None, _) => mres (Err SCRIPT_ERR_BAD_OPCODE (stack st))
  | (Some (opcode, vchPushValue), pc) =>
      if MAX_SCRIPT_ELEMENT_SIZE <? length vchPushValue then mres (Err SCRIPT_ERR_PUSH_SIZE (stack st))
      else
      let st := if opcode >? OP_16 then with_nOpCount st (nOpCount st + 1) else st in
      if (opcode >? OP_16) && (nOpCount st >? MAX_OPS_PER_SCRIPT)
      then mres (Err SCRIPT_ERR_OP_COUNT (stack st))
      else if is_one_of opcode disabled_opcodes then mres (Err SCRIPT_ERR_DISABLED_OPCODE (stack st))
      else
      let! st := exec_opcode fExec opcode vchPushValue pc st in
      mres (if MAX_STACK_SIZE <? length (stack st) + length (altstack st)
            then Err SCRIPT_ERR_STACK_SIZE (stack st)
            else Ok (pc, st))
  end.

(** The [while (pc < pend)]. *)
Fixpoint EvalScript_loop (fuel : nat) (pc : list Z) (st : EvalState) : M EvalState :=
  match pc with
  | [] => mres (Ok st)
  | _ =>
      match fuel with
      | O => mres (Err SCRIPT_ERR_UNKNOWN_ERROR (stack st))
      | S fuel' => let! (pc, st) := eval_step pc st in EvalScript_loop fuel' pc st
      end
  end.

Definition EvalScript (s : list valtype) (script : CScript) : M (list valtype) :=
  if MAX_SCRIPT_SIZE <? length script then mres (Err SCRIPT_ERR_SCRIPT_SIZE s)
  else
    let! st := EvalScript_loop (length script) script (mkEval s [] [] 0 script) in
    mres (match vfExec st with
          | [] => Ok (stack st)
          | _ => Err SCRIPT_ERR_UNBALANCED_CONDITIONAL (stack st)
          end).
End Eval.

(** ** Verification of an input *)

Section Verify.
Context `{CryptoHash} `{Secp256k1} {M : Type → Type} `{EvalMonad M} (flags : Z) (checker : SignatureChecker M).

(** [CScriptWitness::stack], bottom first as it is transmitted. *)
Abbreviation CScriptWitness := (list valtype).

(** The script of a version-0 key-hash program. *)
Definition witness_keyhash_script (program : valtype) : CScript :=
  push_data [OP_DUP; OP_HASH160] program ++ [OP_EQUALVERIFY; OP_CHECKSIG].

(** The common end of [VerifyWitnessProgram]. *)
Definition run_witness_script (s : list valtype) (scriptPubKey : CScript) : M unit :=
  if existsb (λ x : valtype, MAX_SCRIPT_ELEMENT_SIZE <? length x) s then mres (Err SCRIPT_ERR_PUSH_SIZE s)
  else
    let! s := EvalScript flags checker SIGVERSION_WITNESS_V0 s scriptPubKey in
    mres (match s with
          | [top] => if CastToBool top then Ok tt else Err SCRIPT_ERR_EVAL_FALSE s
          | _ => Err SCRIPT_ERR_EVAL_FALSE s
          end).

(** [VerifyWitnessProgram] *)
Definition VerifyWitnessProgram (witness : CScriptWitness) (witversion : Z) (program : valtype) :
    M unit :=
  if witversion =? 0 then
    if (length program =? 32)%nat then
      match reverse witness with
      | [] => mres (Err SCRIPT_ERR_WITNESS_PROGRAM_WITNESS_EMPTY [])
      | scriptPubKey :: s =>
          if bool_decide (SHA256 scriptPubKey = program) then run_witness_script s scriptPubKey
          else mres (Err SCRIPT_ERR_WITNESS_PROGRAM_MISMATCH s)
      end
    else if (length program =? 20)%nat then
      if negb (length witness =? 2)%nat then mres (Err SCRIPT_ERR_WITNESS_PROGRAM_MISMATCH [])
      else run_witness_script (reverse witness) (witness_keyhash_script program)
    else mres (Err SCRIPT_ERR_WITNESS_PROGRAM_WRONG_LENGTH [])
  else if has flags SCRIPT_VERIFY_DISCOURAGE_UPGRADABLE_WITNESS_PROGRAM
  then mres (Err SCRIPT_ERR_DISCOURAGE_UPGRADABLE_WITNESS_PROGRAM [])
  else mres (Ok tt).

(** [assert] *)
Definition assert_ (b : bool) : Res unit := if b then Ok tt else Abort.

(** The value left on top must be true. *)
Definition require_true (s : list valtype) : Res unit :=
  match s with
  | [] => Err SCRIPT_ERR_EVAL_FALSE s
  | top :: _ => if CastToBool top then Ok tt else Err SCRIPT_ERR_EVAL_FALSE s
  end.

(** Bare witness programs: the size of the stack afterwards and [hadWitness]. *)
Definition verify_bare_witness (scriptSig scriptPubKey : CScript) (witness : CScriptWitness)
    (s : list valtype) : M (list valtype * bool)%type :=
  match (if has flags SCRIPT_VERIFY_WITNESS then IsWitnessProgram scriptPubKey else None) with
  | None => mres (Ok (s, false))
  | Some (version, program) =>
      if negb (length scriptSig =? 0)%nat then mres (Err SCRIPT_ERR_WITNESS_MALLEATED s)
      else
        let! _ := VerifyWitnessProgram witness version program in
        mres (Ok (drop (length s - 1) s, true)) (* stack.resize(1) *)
  end.

(** The pay-to-script-hash part; [stackCopy] is the stack [scriptSig] left. *)
Definition verify_p2sh (scriptSig : CScript) (witness : CScriptWitness)
    (stackCopy : list valtype) (hadWitness : bool) : M (list valtype * bool)%type :=
  if negb (IsPushOnly scriptSig) then mres (Err SCRIPT_ERR_SIG_PUSHONLY stackCopy)
  else match stackCopy with
  | [] => mres Abort (* assert(!stack.empty()) *)
  | pubKey2 :: s =>
      let! s := EvalScript flags checker SIGVERSION_BASE s pubKey2 in
      let! _ := mres (require_true s) in
      match (if has flags SCRIPT_VERIFY_WITNESS then IsWitnessProgram pubKey2 else None) with
      | None => mres (Ok (s, hadWitness))
      | Some (version, program) =>
          if negb (bool_decide (scriptSig = push_data [] pubKey2))
          then mres (Err SCRIPT_ERR_WITNESS_MALLEATED_P2SH s)
          else
            let! _ := VerifyWitnessProgram witness version program in
            mres (Ok (drop (length s - 1) s, true))
      end
  end.

(** [VerifyScript]; a null witness is the empty one. *)
Definition VerifyScript (scriptSig scriptPubKey : CScript) (witness : CScriptWitness) : M unit :=
  if has flags SCRIPT_VERIFY_SIGPUSHONLY && negb (IsPushOnly scriptSig)
  then mres (Err SCRIPT_ERR_SIG_PUSHONLY [])
  else
  let! stackCopy := EvalScript flags checker SIGVERSION_BASE [] scriptSig in
  let! s := EvalScript flags checker SIGVERSION_BASE stackCopy scriptPubKey in
  let! _ := mres (require_true s) in
  let! (s, hadWitness) := verify_bare_witness scriptSig scriptPubKey witness s in
  let! (s, hadWitness) :=
    if has flags SCRIPT_VERIFY_P2SH && IsPayToScriptHash scriptPubKey
    then verify_p2sh scriptSig witness stackCopy hadWitness else mres (Ok (s, hadWitness)) in
  mres (
    let* _ :=
      if has flags SCRIPT_VERIFY_CLEANSTACK then
        let* _ := assert_ (has flags SCRIPT_VERIFY_P2SH) in
        let* _ := assert_ (has flags SCRIPT_VERIFY_WITNESS) in
        if negb (length s =? 1)%nat then Err SCRIPT_ERR_CLEANSTACK s else Ok tt
      else Ok tt in
    if has flags SCRIPT_VERIFY_WITNESS then
      let* _ := assert_ (has flags SCRIPT_VERIFY_P2SH) in
      if negb hadWitness && (0 <? length witness)%nat then Err SCRIPT_ERR_WITNESS_UNEXPECTED s else Ok tt
    else Ok tt).

(** [WitnessSigOps] *)
Definition WitnessSigOps (witversion : Z) (witprogram : valtype) (witness : CScriptWitness) : option Z :=
  if witversion =? 0 then
    if (length witprogram =? 20)%nat then Some 1
    else if (length witprogram =? 32)%nat then
      match reverse witness with
      | subscript :: _ => GetSigOpCount subscript true
      | [] => Some 0
      end
    else Some 0
  else Some 0.

(** The scan of [CountWitnessSigOps]: the operand of the last opcode read. *)
Fixpoint last_data_loop (fuel : nat) (pc : list Z) (data : valtype) : option valtype :=
  match fuel, pc with
  | O, _ => None
  | S _, [] => Some data
  | S fuel', _ =>
      match GetOp pc with
      | (Some (_, vch), pc') => last_data_loop fuel' pc' vch
      | (None, pc') => last_data_loop fuel' pc' []
      end
  end.

(** [CountWitnessSigOps]; [None] is a failed assertion. *)
Definition CountWitnessSigOps (scriptSig scriptPubKey : CScript) (witness : CScriptWitness) : option Z :=
  if negb (has flags SCRIPT_VERIFY_WITNESS) then Some 0
  else if negb (has flags SCRIPT_VERIFY_P2SH) then None
  else match IsWitnessProgram scriptPubKey with
  | Some (version, program) => WitnessSigOps version program witness
  | None =>
      if IsPayToScriptHash scriptPubKey && IsPushOnly scriptSig then
        data ← last_data_loop (S (length scriptSig)) scriptSig [];
        match IsWitnessProgram data with
        | Some (version, program) => WitnessSigOps version program witness
        | None => Some 0
        end
      else Some 0
  end.
End Verify.
