(* ===== verification/Checkers.v ===== *)
(** * Interpreting scripts with a stateful checker

    The interpreter ([Interpreter]) asks a checker for every signature.  Here it is run in three ways: purely, with a log of the questions, and over a state
    such as the signature cache.  Any relation between two kinds of computation that sequencing respects
    is respected by [VerifyScript], so a stateful checker that answers as a pure one gives the outcome of the pure one. *)
From Stdlib Require Import ZArith Lia.
From stdpp Require Import list option.
From S2P Require Import Prelude Crypto Script Interpreter.

Open Scope Z_scope.
Open Scope word_scope.

(** ** Two checkers that agree *)

(** A relation between computations that [Res] and sequencing respect is respected by the interpreter. *)
Section Parametric.
Context `{CryptoHash} `{Secp256k1} {M M' : Type → Type} `{EvalMonad M} `{EvalMonad M'}.
Variable R : ∀ A : Type, M A → M' A → Prop.
Arguments R {A} _ _.
Hypothesis R_res : ∀ (A : Type) (r : Res A), R (mres r) (mres r).
Hypothesis R_then : ∀ (A B : Type) (m : M A) (m' : M' A) (k : A → M B) (k' : A → M' B),
  R m m' → (∀ a, R (k a) (k' a)) → R (mthen m k) (mthen m' k').
Context (flags : Z) (checker : SignatureChecker M) (checker' : SignatureChecker M').
Hypothesis checkers_sig : ∀ sig key code version, R (CheckSigM checker sig key code version) (CheckSigM checker' sig key code version).
Hypothesis checkers_locktime : ∀ n, CheckLockTimeM checker n = CheckLockTimeM checker' n.
Hypothesis checkers_sequence : ∀ n, CheckSequenceM checker n = CheckSequenceM checker' n.

#[local] Hint Resolve R_res : core.

Section Version.
Variable sigversion : SigVersion.

Lemma op_checksig_related (opcode : opcodetype) (st : EvalState) :
  R (op_checksig flags checker sigversion opcode st) (op_checksig flags checker' sigversion opcode st).
Proof using R_res R_then checkers_sig.
  unfold op_checksig. repeat case_match; auto.
Qed.

Lemma multisig_loop_related (fuel : nat) (st : EvalState) (code : CScript) (isig ikey nsig nkey : Z) :
  R (multisig_loop flags checker sigversion fuel st code isig ikey nsig nkey)
    (multisig_loop flags checker' sigversion fuel st code isig ikey nsig nkey).
Proof using R_res R_then checkers_sig.
  revert isig ikey nsig nkey. induction fuel as [|fuel IH]; intros isig ikey nsig nkey; cbn [multisig_loop]; [done|].
  destruct (nsig >? 0); [|done]. destruct (stack st !! _); [|done]. destruct (stack st !! _); [|done]. destruct (check_encodings _ _ _ _); [done|].
  apply R_then; [done|]. intros ok. destruct (_ >? _); [done|apply IH].
Qed.

Lemma op_checkmultisig_related (opcode : opcodetype) (st : EvalState) :
  R (op_checkmultisig flags checker sigversion opcode st) (op_checkmultisig flags checker' sigversion opcode st).
Proof using R_res R_then checkers_sig.
  unfold op_checkmultisig. destruct (stack st) as [|top rest]; [done|]. apply R_then; [done|]. intros nk.
  destruct (_ || _); [done|]. destruct (_ >? _); [done|]. destruct (_ <? _); [done|]. apply R_then; [done|]. intros ns.
  destruct (_ || _); [done|]. destruct (_ <? _); [done|]. apply R_then; [apply multisig_loop_related|]. intros ok. done.
Qed.

Lemma eval_opcode_related (fExec : bool) (opcode : opcodetype) (pc : list Z) (st : EvalState) :
  R (eval_opcode flags checker sigversion fExec opcode pc st) (eval_opcode flags checker' sigversion fExec opcode pc st).
Proof using R_res R_then checkers_sig checkers_locktime checkers_sequence.
  assert (op_checklocktimeverify flags checker st = op_checklocktimeverify flags checker' st) as E1.
  { unfold op_checklocktimeverify. destruct (negb _); [done|]. destruct (stack st); [done|]. destruct (read_num _ _ _ _) as [n| |]; [|done..]. cbn [rbind]. by rewrite checkers_locktime. }
  assert (op_checksequenceverify flags checker st = op_checksequenceverify flags checker' st) as E2.
  { unfold op_checksequenceverify. destruct (negb _); [done|]. destruct (stack st); [done|]. destruct (read_num _ _ _ _) as [n| |]; [|done..]. cbn [rbind]. by rewrite checkers_sequence. }
  unfold eval_opcode. rewrite E1, E2. repeat (case_match; [auto using op_checksig_related, op_checkmultisig_related|]). auto.
Qed.

Lemma eval_step_related (pc : list Z) (st : EvalState) : R (eval_step flags checker sigversion pc st) (eval_step flags checker' sigversion pc st).
Proof using R_res R_then checkers_sig checkers_locktime checkers_sequence.
  unfold eval_step. destruct (GetOp pc) as [[[op v]|] pc']; [|done]. destruct (_ <? _); [done|]. destruct (_ && _); [done|]. destruct (is_one_of _ _); [done|].
  apply R_then; [|done]. unfold exec_opcode. destruct (_ && _ && _); [by destruct (_ && _)|]. destruct (_ || _); [apply eval_opcode_related|done].
Qed.

Lemma EvalScript_related (s : list valtype) (script : CScript) :
  R (EvalScript flags checker sigversion s script) (EvalScript flags checker' sigversion s script).
Proof using R_res R_then checkers_sig checkers_locktime checkers_sequence.
  unfold EvalScript. destruct (_ <? _); [done|]. apply R_then; [|done]. generalize (length script) (mkEval s [] [] 0 script). intros fuel. revert script.
  induction fuel as [|fuel IH]; intros pc st; destruct pc as [|x pc]; cbn [EvalScript_loop]; [done..|]. apply R_then; [apply eval_step_related|]. intros [pc' st']. apply IH.
Qed.
End Version.

Lemma VerifyWitnessProgram_related (witness : list valtype) (version : Z) (program : valtype) :
  R (VerifyWitnessProgram flags checker witness version program) (VerifyWitnessProgram flags checker' witness version program).
Proof using R_res R_then checkers_sig checkers_locktime checkers_sequence.
  assert (∀ s script, R (run_witness_script flags checker s script) (run_witness_script flags checker' s script)) as Hrun.
  { intros s script. unfold run_witness_script. destruct (existsb _ _); [done|]. apply R_then; [apply EvalScript_related|done]. }
  unfold VerifyWitnessProgram. repeat case_match; auto.
Qed.

Theorem VerifyScript_related (scriptSig scriptPubKey : CScript) (witness : list valtype) :
  R (VerifyScript flags checker scriptSig scriptPubKey witness) (VerifyScript flags checker' scriptSig scriptPubKey witness).
Proof using R_res R_then checkers_sig checkers_locktime checkers_sequence.
  unfold VerifyScript. destruct (_ && _); [done|]. apply R_then; [apply EvalScript_related|]. intros copy. apply R_then; [apply EvalScript_related|]. intros s.
  apply R_then; [done|]. intros _. apply R_then.
  { unfold verify_bare_witness. destruct (if has flags _ then _ else _) as [[v prog]|]; [|done]. destruct (negb _); [done|]. apply R_then; [apply VerifyWitnessProgram_related|done]. }
  intros [s1 had]. apply R_then; [|intros [s2 had2]; done]. destruct (_ && _); [|done]. unfold verify_p2sh. destruct (negb _); [done|]. destruct copy as [|pubKey2 rest]; [done|].
  apply R_then; [apply EvalScript_related|]. intros s2. apply R_then; [done|]. intros _. destruct (if has flags _ then _ else _) as [[v prog]|]; [|done].
  destruct (negb _); [done|]. apply R_then; [apply VerifyWitnessProgram_related|done].
Qed.
End Parametric.

(** ** Computations with a log, and with a state *)

(** The outcome with the questions asked on the way. *)
Definition Traced (L A : Type) : Type := list L * Res A.

#[global] Instance traced_monad (L : Type) : EvalMonad (Traced L) := {|
  mres _ r := ([], r);
  mthen _ _ m k :=
    match m.2 with
    | Ok a => (m.1 ++ (k a).1, (k a).2)
    | Err e s => (m.1, Err e s)
    | Abort => (m.1, Abort)
    end |}.

(** A state that survives errors; [None] where the state itself is misused. *)
Definition Stateful (S A : Type) : Type := S → option (Res A * S).

#[global] Instance stateful_monad (S : Type) : EvalMonad (Stateful S) := {|
  mres _ r s := Some (r, s);
  mthen _ _ m k s :=
    '(r, s) ← m s;
    match r with
    | Ok a => k a s
    | Err e st => Some (Err e st, s)
    | Abort => Some (Abort, s)
    end |}.

Section Simulation.
Context {S L : Type} (Inv : S → Prop) (allowed : L → Prop).

(** From a good state, the computation gives the outcome of the logged one and a good state, provided all the questions are allowed. *)
Definition simulates {A : Type} (m : Stateful S A) (t : Traced L A) : Prop :=
  Forall allowed t.1 → ∀ s, Inv s → ∃ s', m s = Some (t.2, s') ∧ Inv s'.

Lemma simulates_res {A : Type} (r : Res A) : simulates (mres r) (mres r).
Proof. intros _ s Hs. by exists s. Qed.

Lemma simulates_then {A B : Type} (m : Stateful S A) (t : Traced L A) (k : A → Stateful S B) (l : A → Traced L B) :
  simulates m t → (∀ a, simulates (k a) (l a)) → simulates (mthen m k) (mthen t l).
Proof.
  intros Hm Hk. unfold simulates. cbn [mthen traced_monad stateful_monad]. destruct t as [log [a|e st|]]; cbn [fst snd] in *; intros Hall s Hs.
  - apply Forall_app in Hall as [H1 H2]. destruct (Hm H1 s Hs) as (s1 & -> & Hs1). cbn. by apply Hk.
  - destruct (Hm Hall s Hs) as (s1 & -> & Hs1). cbn. by exists s1.
  - destruct (Hm Hall s Hs) as (s1 & -> & Hs1). cbn. by exists s1.
Qed.

Lemma VerifyScript_simulates `{CryptoHash} `{Secp256k1} (flags : Z) (checker : SignatureChecker (Stateful S)) (checker' : SignatureChecker (Traced L))
    (scriptSig scriptPubKey : CScript) (witness : list valtype) :
  (∀ sig key code version, simulates (CheckSigM checker sig key code version) (CheckSigM checker' sig key code version)) →
  (∀ n, CheckLockTimeM checker n = CheckLockTimeM checker' n) → (∀ n, CheckSequenceM checker n = CheckSequenceM checker' n) →
  simulates (VerifyScript flags checker scriptSig scriptPubKey witness) (VerifyScript flags checker' scriptSig scriptPubKey witness).
Proof. intros H1 H2 H3. apply (VerifyScript_related (λ A, @simulates A)); try assumption; [intros A; apply simulates_res|intros A B; apply simulates_then]. Qed.
End Simulation.

(** The log does not change the outcome. *)
Lemma VerifyScript_traced {L : Type} `{CryptoHash} `{Secp256k1} (flags : Z) (checker : SignatureChecker (Traced L)) (checker' : SignatureChecker Res)
    (scriptSig scriptPubKey : CScript) (witness : list valtype) :
  (∀ sig key code version, (CheckSigM checker sig key code version).2 = CheckSigM checker' sig key code version) →
  (∀ n, CheckLockTimeM checker n = CheckLockTimeM checker' n) → (∀ n, CheckSequenceM checker n = CheckSequenceM checker' n) →
  (VerifyScript flags checker scriptSig scriptPubKey witness).2 = VerifyScript flags checker' scriptSig scriptPubKey witness.
Proof.
  intros H1 H2 H3. apply (VerifyScript_related (λ A (t : Traced L A) (r : Res A), t.2 = r)); try assumption; [done|].
  intros A B t r k k' <- Hk. cbn [mthen traced_monad res_monad]. destruct t as [log [a|e st|]]; cbn [fst snd rbind]; [apply Hk|done|done].
Qed.
