(* ===== verification/EvalFacts.v ===== *)
(** * Facts about the script interpreter

    Resource limits and the absence of failing assertions (an invariant of the
    evaluation state kept by every opcode), single-step and run lemmas, scripts
    that cannot be spent, and the behaviour of the standard scripts. *)

From Stdlib Require Import ZArith Lia.
From stdpp Require Import list.
From S2P Require Import Prelude Common Crypto Script Interpreter.

Open Scope Z_scope.
Open Scope word_scope.

(** ** Resource limits *)

(** A stack element within the size limit. *)
Definition elem_ok (x : valtype) : Prop := bytes_ok x ∧ length x <= MAX_SCRIPT_ELEMENT_SIZE.

(** The state between two opcodes; the bound on the stacks is far above the one
    the interpreter enforces after each opcode, and at least [lo] opcodes have been counted. *)
Record state_from (lo : Z) (st : EvalState) : Prop := {
  ok_stack : Forall elem_ok (stack st);
  ok_altstack : Forall elem_ok (altstack st);
  ok_ops : lo <= nOpCount st <= MAX_OPS_PER_SCRIPT;
  ok_size : length (stack st) + length (altstack st) < 2 ^ 62
}.

(** The state an operation may leave before the size of the stacks is tested. *)
Record after_from (lo : Z) (st : EvalState) : Prop := {
  after_stack : Forall elem_ok (stack st);
  after_altstack : Forall elem_ok (altstack st);
  after_ops : lo <= nOpCount st <= MAX_OPS_PER_SCRIPT
}.

(** The outcome satisfies [P] when there is one, and no assertion failed. *)
Definition good {A : Type} (P : A → Prop) (r : Res A) : Prop :=
  match r with Ok a => P a | Err _ _ => True | Abort => False end.

Lemma good_bind {A B : Type} (P : A → Prop) (Q : B → Prop) (m : Res A) (k : A → Res B) :
  good P m → (∀ a, P a → good Q (k a)) → good Q (rbind m k).
Proof. destruct m; cbn; auto. Qed.

Lemma good_mono {A : Type} (P Q : A → Prop) (m : Res A) :
  (∀ a, P a → Q a) → good P m → good Q m.
Proof. destruct m; cbn; auto. Qed.

(** The verification flags are the successive bits, so that [has] tests each on its own. *)
Lemma script_verify_flags_bits (i j : nat) (f : Z) :
  script_verify_flags !! S i = Some f → has f (1 .<< j) = bool_decide (i = j).
Proof.
  intros E. assert (i < 16)%nat as Hi by (apply lookup_lt_Some in E; cbn in E; lia). unfold has.
  assert (f = 2 ^ i) as -> by (do 16 (destruct i as [|i]; [by injection E as <-|]); lia).
  rewrite Z.shiftl_1_l. case_bool_decide as Hij; [by rewrite <- Hij, Z.land_diag; apply negb_true_iff, Z.eqb_neq; lia|].
  apply negb_false_iff, Z.eqb_eq, Z.bits_inj_0. intros k. rewrite Z.land_spec, !Z.pow2_bits_eqb by lia. lia.
Qed.

Lemma elem_ok_number (v : Z) : - 2 ^ 63 < v < 2 ^ 63 → elem_ok (ScriptNum.getvch v).
Proof.
  intros Hv. unfold ScriptNum.getvch, elem_ok, MAX_SCRIPT_ELEMENT_SIZE.
  destruct (Z.eq_dec v 0) as [->|Hne]; [split; [constructor|cbn; lia]|].
  destruct (ScriptNumFacts.serialize_spec v Hne Hv) as (Hb & Hl & _). split; [done|lia].
Qed.

Lemma elem_ok_bool (b : bool) : elem_ok (vchBool b).
Proof.
  destruct b; unfold elem_ok, MAX_SCRIPT_ELEMENT_SIZE; cbn; (split; [|lia]); repeat constructor; lia.
Qed.

Lemma elem_ok_nil : elem_ok [].
Proof. apply (elem_ok_bool false). Qed.

Lemma elem_ok_digest (x : valtype) (n : nat) : length x = n → (n ≤ 32)%nat → bytes_ok x → elem_ok x.
Proof. intros Hl Hn Hb. split; [done|]. unfold MAX_SCRIPT_ELEMENT_SIZE. lia. Qed.

Lemma CScriptNum_range (vch : valtype) (m : bool) (k : nat) (v : Z) :
  bytes_ok vch → (0 < k ≤ 8)%nat → ScriptNum.CScriptNum vch m k = Some v →
  - 2 ^ (8 * k - 1) < v < 2 ^ (8 * k - 1).
Proof.
  intros Hb Hk. rewrite ScriptNumFacts.CScriptNum_spec by (done || lia).
  destruct (Nat.ltb_spec k (length vch)) as [|Hl]; cbn [orb]; [done|].
  destruct (_ && _ && _); [done|]. intros [= <-].
  destruct (decide (length vch = 0)%nat) as [E|E].
  { apply nil_length_inv in E. subst. pose proof (pow2_pos (8 * k - 1) ltac:(lia)).
    change (ScriptNumFacts.num []) with 0. lia. }
  pose proof (ScriptNumFacts.num_range vch Hb ltac:(lia)).
  assert (ScriptNumFacts.half vch <= 2 ^ (8 * k - 1)) by (apply Z.pow_le_mono_r; lia). lia.
Qed.

Lemma getint_range (v : Z) : ScriptNum.INT_MIN <= ScriptNum.getint v <= ScriptNum.INT_MAX.
Proof.
  unfold ScriptNum.getint, ScriptNum.INT_MIN, ScriptNum.INT_MAX. rewrite Z.gtb_ltb.
  repeat case_if; bool_to_prop; lia.
Qed.

Create HintDb eval.
#[export] Hint Resolve elem_ok_number elem_ok_bool elem_ok_nil : eval.
#[export] Hint Constructors Forall : eval.

Section Limits.
Context `{CryptoHash} `{Secp256k1}.
Context (flags : Z) (checker : BaseSignatureChecker) (sigversion : SigVersion) (lo : Z).

Abbreviation state_ok := (state_from lo).
Abbreviation after_ok := (after_from lo).

Lemma read_num_good (st : EvalState) (vch : valtype) :
  elem_ok vch → good (λ n, - 2 ^ 31 < n < 2 ^ 31) (read_num flags st vch ScriptNum.nDefaultMaxNumSize).
Proof.
  intros [Hb _]. unfold read_num. destruct (ScriptNum.CScriptNum _ _ _) as [n|] eqn:E; [|done].
  cbn. apply CScriptNum_range in E; [|done|unfold ScriptNum.nDefaultMaxNumSize; lia].
  exact E.
Qed.

Lemma after_ok_of (st : EvalState) : state_ok st → after_ok st.
Proof. intros []. by split. Qed.

Lemma after_ok_stack (st : EvalState) (s : list valtype) :
  after_ok st → Forall elem_ok s → after_ok (with_stack st s).
Proof. intros [] Hs. by split. Qed.

Lemma after_ok_altstack (st : EvalState) (s a : list valtype) :
  after_ok st → Forall elem_ok s → Forall elem_ok a → after_ok (with_altstack st s a).
Proof. intros [] ? ?. by split. Qed.

Lemma after_ok_vfExec (st : EvalState) (v : list bool) : after_ok st → after_ok (with_vfExec st v).
Proof. intros []. by split. Qed.

Lemma after_ok_codehash (st : EvalState) (pc : list Z) : after_ok st → after_ok (with_codehash st pc).
Proof. intros []. by split. Qed.

#[local] Hint Resolve after_ok_stack after_ok_altstack after_ok_vfExec after_ok_codehash : eval.

(** The operations that move elements around. *)
Ltac moves :=
  repeat match goal with
  | |- good _ (match ?s with [] => _ | _ => _ end) => destruct s eqn:?; [exact I|]
  | |- good _ (if ?b then _ else _) => destruct b eqn:?
  | |- good _ (Ok _) => cbn [good]
  | |- after_from _ (if ?b then _ else _) => destruct b eqn:?
  | |- good _ (Err _ _) => exact I
  | |- good _ (invalid_stack _) => exact I
  | H : Forall _ (_ :: _) |- _ => apply Forall_cons_iff in H as [? ?]
  end.

Lemma op_moves_good (st : EvalState) :
  state_ok st →
  Forall (λ op : EvalState → Res EvalState, good after_ok (op st))
    [op_verify; op_toaltstack; op_fromaltstack; op_2drop; op_2dup; op_3dup; op_2over; op_2rot;
     op_2swap; op_ifdup; op_drop; op_dup; op_nip; op_over; op_rot; op_swap; op_tuck].
Proof.
  intros Hst. pose proof (after_ok_of st Hst) as Hst'. destruct Hst as [Hs Ha Ho Hz].
  repeat constructor;
    unfold op_verify, op_toaltstack, op_fromaltstack, op_2drop, op_2dup, op_3dup, op_2over, op_2rot,
      op_2swap, op_ifdup, op_drop, op_dup, op_nip, op_over, op_rot, op_swap, op_tuck;
    moves; auto 15 with eval.
Qed.

Lemma op_push_number_good (opcode : opcodetype) (st : EvalState) :
  state_ok st → 0 <= opcode <= 255 → good after_ok (op_push_number opcode st).
Proof.
  intros Hst Hop. pose proof (after_ok_of st Hst) as Hst'. destruct Hst as [Hs Ha Ho Hz].
  cbn. apply after_ok_stack; [done|]. constructor; [|done]. apply elem_ok_number. unfold OP_1. lia.
Qed.

Lemma op_locktime_good (st : EvalState) :
  state_ok st → good after_ok (op_checklocktimeverify flags checker st) ∧
                good after_ok (op_checksequenceverify flags checker st) ∧
                good after_ok (op_upgradable_nop flags st).
Proof.
  intros Hst. pose proof (after_ok_of st Hst) as Hst'.
  unfold op_checklocktimeverify, op_checksequenceverify, op_upgradable_nop, read_num. pure_eval. split_and!; moves; try done;
    destruct (ScriptNum.CScriptNum _ _ _); cbn [rbind]; moves; done.
Qed.

Lemma op_control_good (opcode : opcodetype) (fExec : bool) (st : EvalState) :
  state_ok st → good after_ok (op_if flags sigversion opcode fExec st) ∧
                good after_ok (op_else st) ∧ good after_ok (op_endif st).
Proof.
  intros Hst. pose proof (after_ok_of st Hst) as Hst'. destruct Hst as [Hs Ha Ho Hz].
  unfold op_if, op_else, op_endif. split_and!; moves; auto with eval.
Qed.

Lemma op_sizes_good (st : EvalState) :
  state_ok st → good after_ok (op_depth st) ∧ good after_ok (op_size st).
Proof.
  intros Hst. pose proof (after_ok_of st Hst) as Hst'. destruct Hst as [Hs Ha Ho Hz].
  unfold op_depth, op_size. split; moves.
  - apply after_ok_stack; [done|]. constructor; [|done]. apply elem_ok_number. lia.
  - apply after_ok_stack; [done|].
    match goal with H : elem_ok _ |- _ => pose proof H as [_ Hl] end. unfold MAX_SCRIPT_ELEMENT_SIZE in Hl.
    constructor; [apply elem_ok_number; lia|auto with eval].
Qed.

Lemma op_equal_good (opcode : opcodetype) (st : EvalState) :
  state_ok st → good after_ok (op_equal opcode st).
Proof.
  intros Hst. pose proof (after_ok_of st Hst) as Hst'. destruct Hst as [Hs Ha Ho Hz].
  unfold op_equal. moves; auto with eval.
Qed.

Lemma op_pick_roll_good (opcode : opcodetype) (st : EvalState) :
  state_ok st → good after_ok (op_pick_roll flags opcode st).
Proof.
  intros Hst. pose proof (after_ok_of st Hst) as Hst'. destruct Hst as [Hs Ha Ho Hz].
  unfold op_pick_roll. destruct (stack st) as [|top [|y rest]] eqn:Es; [exact I|exact I|].
  apply Forall_cons_iff in Hs as [Htop Hrest].
  apply (good_bind (λ n, - 2 ^ 31 < n < 2 ^ 31)); [by apply read_num_good|]. intros n _.
  destruct (_ || _); [exact I|]. destruct (_ !! _) as [vch|] eqn:El; [|exact I]. cbn [good].
  apply after_ok_stack; [done|]. constructor.
  - rewrite Forall_lookup in Hrest. by apply (Hrest _ _ El).
  - destruct (opcode =? OP_ROLL); [|done]. by apply Forall_delete.
Qed.

Lemma unary_result_good (opcode : opcodetype) (bn : Z) :
  - 2 ^ 31 < bn < 2 ^ 31 → is_one_of opcode unary_opcodes = true →
  ∃ r, unary_result opcode bn = Some r ∧ - 2 ^ 32 < r < 2 ^ 32.
Proof.
  intros Hbn Hop. unfold unary_result, ScriptNum.add_assign, ScriptNum.sub_assign, ScriptNum.neg,
    ScriptNum.INT64_MAX, ScriptNum.INT64_MIN.
  rewrite !(proj2 (Z.leb_le _ _)) by lia. rewrite !Z.geb_leb, !(proj2 (Z.leb_le _ _)) by lia.
  rewrite (proj2 (Z.eqb_neq bn _)) by lia.
  assert (∀ b, - 2 ^ 32 < Z.b2z b < 2 ^ 32) by (intros []; cbn; lia).
  unfold is_one_of, unary_opcodes in Hop. cbn [existsb] in Hop.
  destruct (opcode =? OP_1ADD); [eexists; split; [done|lia]|].
  destruct (opcode =? OP_1SUB); [eexists; split; [done|lia]|].
  destruct (opcode =? OP_NEGATE); [eexists; split; [done|lia]|].
  destruct (opcode =? OP_ABS); [destruct (bn <? 0); eexists; (split; [done|lia])|].
  destruct (opcode =? OP_NOT); [eexists; split; [done|auto]|].
  destruct (opcode =? OP_0NOTEQUAL); [eexists; split; [done|auto]|done].
Qed.

Lemma binary_result_good (opcode : opcodetype) (a b : Z) :
  - 2 ^ 31 < a < 2 ^ 31 → - 2 ^ 31 < b < 2 ^ 31 → is_one_of opcode binary_opcodes = true →
  ∃ r, binary_result opcode a b = Some r ∧ - 2 ^ 33 < r < 2 ^ 33.
Proof.
  intros Ha Hb Hop. unfold binary_result, ScriptNum.add, ScriptNum.sub, i64.
  rewrite !signed_small by (change (64 - 1) with 63; lia).
  assert (∀ c, - 2 ^ 33 < Z.b2z c < 2 ^ 33) by (intros []; cbn; lia).
  unfold is_one_of, binary_opcodes in Hop. cbn [existsb] in Hop.
  repeat match goal with
  | |- ∃ r, (if ?c then Some ?x else _) = _ ∧ _ =>
      destruct c; [exists x; split; [reflexivity|first [auto; fail|lia|case_match; lia]]|]
  end. done.
Qed.

Lemma op_numeric_good (opcode : opcodetype) (st : EvalState) :
  state_ok st →
  (is_one_of opcode unary_opcodes = true → good after_ok (op_unary flags opcode st)) ∧
  (is_one_of opcode binary_opcodes = true → good after_ok (op_binary flags opcode st)) ∧
  good after_ok (op_within flags st).
Proof.
  intros Hst. pose proof (after_ok_of st Hst) as Hst'. destruct Hst as [Hs Ha Ho Hz].
  unfold op_unary, op_binary, op_within. split_and!; [intros Hop|intros Hop|]; moves;
    repeat (eapply good_bind; [by apply read_num_good|intros]).
  - destruct (unary_result_good opcode a) as (r & -> & Hr); [done|done|]. cbn [asserting rbind good].
    apply after_ok_stack; [done|]. constructor; [apply elem_ok_number; lia|done].
  - destruct (binary_result_good opcode a a0) as (r & -> & Hr); [done|done|done|]. cbn [asserting rbind].
    moves; auto 10 with eval. apply after_ok_stack; [done|]. constructor; [apply elem_ok_number; lia|done].
  - cbn [good]. auto with eval.
Qed.

Lemma elem_ok_digests (x : valtype) :
  elem_ok (RIPEMD160 x) ∧ elem_ok (SHA1 x) ∧ elem_ok (SHA256 x) ∧ elem_ok (CHash160 x) ∧
  elem_ok (CHash256 x).
Proof.
  split_and!; (eapply elem_ok_digest;
    [first [apply length_RIPEMD160|apply length_SHA1|apply length_SHA256]|lia|
     first [apply RIPEMD160_bytes|apply SHA1_bytes|apply SHA256_bytes]]).
Qed.

Lemma op_hash_good (opcode : opcodetype) (st : EvalState) :
  state_ok st → good after_ok (op_hash opcode st).
Proof.
  intros Hst. pose proof (after_ok_of st Hst) as Hst'. destruct Hst as [Hs Ha Ho Hz].
  unfold op_hash. moves. apply after_ok_stack; [done|]. constructor; [|done].
  destruct (elem_ok_digests l) as (? & ? & ? & ? & ?). repeat case_match; try done.
  split; [|cbn; unfold MAX_SCRIPT_ELEMENT_SIZE; lia]. apply Forall_replicate. split; lia.
Qed.

Lemma op_checksig_good (opcode : opcodetype) (st : EvalState) :
  state_ok st → good after_ok (op_checksig flags checker sigversion opcode st).
Proof.
  intros Hst. pose proof (after_ok_of st Hst) as Hst'. destruct Hst as [Hs Ha Ho Hz].
  unfold op_checksig. pure_eval. cbn [rbind]. moves. destruct (check_encodings _ _ _ _); [exact I|]. moves; auto with eval.
Qed.

Lemma multisig_loop_good (fuel : nat) (st : EvalState) (code : CScript) (isig ikey nsig nkey : Z) :
  good (λ _, True) (multisig_loop flags checker sigversion fuel st code isig ikey nsig nkey).
Proof.
  revert isig ikey nsig nkey. induction fuel as [|fuel IH]; intros; cbn [multisig_loop]; pure_eval; cbn [rbind]; [done|].
  repeat case_match; try done.
Qed.

Lemma multisig_cleanup_good (n : nat) (ok : bool) (ikey2 : Z) (s : list valtype) :
  Forall elem_ok s → good (Forall elem_ok) (multisig_cleanup flags n ok ikey2 s).
Proof.
  revert ikey2 s. induction n as [|n IH]; intros ikey2 s Hs; cbn [multisig_cleanup]; [done|].
  moves. by apply IH.
Qed.

Lemma op_checkmultisig_good (opcode : opcodetype) (st : EvalState) :
  state_ok st → good after_ok (op_checkmultisig flags checker sigversion opcode st).
Proof.
  intros Hst. destruct Hst as [Hs Ha Ho Hz].
  unfold op_checkmultisig. pure_eval. destruct (stack st) as [|top rest] eqn:Es; [exact I|].
  pose proof Hs as Hs0. apply Forall_cons_iff in Hs0 as [Htop _]. rewrite <- Es in *.
  apply (good_bind (λ n, - 2 ^ 31 < n < 2 ^ 31)); [by apply read_num_good|]. intros nk _.
  destruct (_ || _) eqn:Ek; [exact I|]. apply orb_false_iff in Ek as [Ek0 Ek1].
  rewrite Z.gtb_ltb in Ek1. apply Z.ltb_ge in Ek0, Ek1. cbn [nOpCount with_nOpCount stack].
  rewrite Z.gtb_ltb. destruct (Z.ltb_spec MAX_OPS_PER_SCRIPT (nOpCount st + ScriptNum.getint nk)); [exact I|].
  destruct (_ <? _); [exact I|].
  apply (good_bind (λ n, - 2 ^ 31 < n < 2 ^ 31)).
  { apply read_num_good. destruct (stack st !! _) as [x|] eqn:El; [|apply elem_ok_nil].
    rewrite Forall_lookup in Hs. by apply (Hs _ _ El). }
  intros ns _. destruct (_ || _); [exact I|]. destruct (_ <? _); [exact I|].
  apply (good_bind (λ _, True)); [apply multisig_loop_good|]. intros ok _.
  apply (good_bind (Forall elem_ok)); [by apply multisig_cleanup_good|]. intros s Hs'.
  assert (∀ l, Forall elem_ok l →
    after_ok (with_stack (with_nOpCount st (nOpCount st + ScriptNum.getint nk)) l)) as Hfin.
  { intros l Hl. split; cbn; [done|done|lia]. }
  moves; auto with eval.
Qed.

(** Every opcode keeps the limits and fails no assertion. *)
Lemma eval_opcode_good (fExec : bool) (opcode : opcodetype) (pc : list Z) (st : EvalState) :
  state_ok st → 0 <= opcode <= 255 →
  good after_ok (eval_opcode flags checker sigversion fExec opcode pc st).
Proof.
  intros Hst Hop. pose proof (after_ok_of st Hst) as Hst'. unfold eval_opcode. pure_eval.
  pose proof (op_moves_good st Hst) as Hm. rewrite !Forall_cons_iff in Hm. cbv beta in Hm.
  destruct Hm as (? & ? & ? & ? & ? & ? & ? & ? & ? & ? & ? & ? & ? & ? & ? & ? & ? & _).
  destruct (op_locktime_good st Hst) as (? & ? & ?). destruct (op_sizes_good st Hst) as (? & ?).
  destruct (op_control_good opcode fExec st Hst) as (? & ? & ?).
  destruct (op_numeric_good opcode st Hst) as (? & ? & ?).
  pose proof (op_push_number_good opcode st Hst Hop). pose proof (op_equal_good opcode st Hst).
  pose proof (op_pick_roll_good opcode st Hst). pose proof (op_hash_good opcode st Hst).
  pose proof (op_checksig_good opcode st Hst). pose proof (op_checkmultisig_good opcode st Hst).
  repeat match goal with
  | |- good _ (if ?b then _ else _) => destruct b eqn:?; [first [assumption|auto; fail|apply after_ok_codehash; assumption|exact I]|]
  end. exact I.
Qed.
End Limits.

Lemma read_size_bytes (op : opcodetype) (pc pc' : list Z) (n : option Z) :
  bytes_ok pc → read_size op pc = (n, pc') → bytes_ok pc'.
Proof.
  intros Hb E. apply read_size_suffix in E as [u ->]. by apply Forall_app in Hb as [_ ?].
Qed.

Lemma GetOp_bytes (pc pc' : list Z) (op : opcodetype) (v : valtype) :
  bytes_ok pc → GetOp pc = (Some (op, v), pc') → is_byte op ∧ bytes_ok v ∧ bytes_ok pc'.
Proof.
  unfold GetOp2. destruct pc as [|x pc]; [done|]. intros [Hx Hb]%Forall_cons_iff.
  destruct (x <=? OP_PUSHDATA4); [|intros [= -> <- <-]; done].
  destruct (read_size x pc) as [[n|] pc1] eqn:Er; [|done]. apply read_size_bytes in Er; [|done].
  destruct (_ <? _); [done|]. intros [= -> <- <-].
  split_and!; [done|by apply Forall_take|by apply Forall_drop].
Qed.

Section Run.
Context `{CryptoHash} `{Secp256k1}.
Context (flags : Z) (checker : BaseSignatureChecker) (sigversion : SigVersion).

Lemma exec_opcode_good (lo : Z) (fExec : bool) (op : opcodetype) (v : valtype) (pc : list Z) (st : EvalState) :
  state_from lo st → is_byte op → elem_ok v →
  good (after_from lo) (exec_opcode flags checker sigversion fExec op v pc st).
Proof.
  intros Hst [Hop0 Hop1] Hv. pose proof (after_ok_of lo st Hst) as Hst'. unfold exec_opcode. pure_eval.
  destruct (fExec && _ && _).
  - destruct (_ && _); [exact I|]. cbn. apply after_ok_stack; [done|]. constructor; [done|apply Hst].
  - destruct (_ || _); [|done]. apply eval_opcode_good; [done|lia].
Qed.

(** The limit on the two stacks together. *)
Definition stacks_ok (st : EvalState) : Prop :=
  length (stack st) + length (altstack st) <= MAX_STACK_SIZE.

(** An opcode that is counted, and one that may occur: not disabled, with data within the limit. *)
Definition counted (o : opcodetype * valtype) : bool := o.1 >? OP_16.
Definition op_allowed (o : opcodetype * valtype) : Prop :=
  is_one_of o.1 disabled_opcodes = false ∧ length o.2 <= MAX_SCRIPT_ELEMENT_SIZE.

(** One turn keeps the limits, fails no assertion, and consumes script. *)
Lemma eval_step_good (lo : Z) (pc : list Z) (st : EvalState) :
  state_from lo st → bytes_ok pc →
  good (λ '(pc', st'), ∃ o, GetOp pc = (Some o, pc') ∧ op_allowed o ∧ state_from (lo + if counted o then 1 else 0) st' ∧
          stacks_ok st' ∧ bytes_ok pc' ∧ (length pc' < length pc)%nat)
       (eval_step flags checker sigversion pc st).
Proof.
  intros Hst Hb. unfold eval_step. pure_eval.
  destruct (GetOp pc) as [[[op v]|] pc'] eqn:Eg; [|exact I].
  destruct (GetOp_bytes _ _ _ _ Hb Eg) as (Hop & Hv & Hpc). pose proof (GetOp_shorter _ _ _ Eg) as Hlen.
  destruct (Z.ltb_spec MAX_SCRIPT_ELEMENT_SIZE (length v)) as [|Hlv]; [exact I|].
  set (st1 := if op >? OP_16 then _ else _).
  destruct ((op >? OP_16) && (nOpCount st1 >? MAX_OPS_PER_SCRIPT)) eqn:Eo; [exact I|].
  destruct (is_one_of op disabled_opcodes) eqn:Ed; [exact I|].
  assert (state_from (lo + if counted (op, v) then 1 else 0) st1) as Hst1.
  { destruct Hst as [Hs Ha Ho Hz]. unfold st1, counted in *. cbn [fst]. destruct (op >? OP_16); [|by rewrite Z.add_0_r; split].
    cbn in Eo. rewrite Z.gtb_ltb in Eo. apply Z.ltb_ge in Eo. split; cbn; (done || lia). }
  eapply (good_bind (after_from _)); [apply exec_opcode_good; [exact Hst1|done|split; [done|lia]]|].
  intros st2 [Hs2 Ha2 Ho2]. destruct (Z.ltb_spec MAX_STACK_SIZE (length (stack st2) + length (altstack st2)));
    [exact I|].
  cbn. exists (op, v). split_and!; try done. split; try done. unfold MAX_STACK_SIZE in *. lia.
Qed.

(** The loop consumes script at every turn, so [length pc] turns suffice. *)
Lemma eval_step_shorter (pc pc' : list Z) (st st' : EvalState) :
  eval_step flags checker sigversion pc st = Ok (pc', st') → (length pc' < length pc)%nat.
Proof.
  unfold eval_step. pure_eval. destruct (GetOp pc) as [[[op v]|] pc1] eqn:Eg; [|done].
  apply GetOp_shorter in Eg. destruct (_ <? _); [done|].
  set (st1 := if op >? OP_16 then _ else _). destruct (_ && _); [done|].
  destruct (is_one_of _ _); [done|]. destruct (exec_opcode _ _ _ _ _ _ _ _); [|done|done].
  cbn [rbind]. destruct (_ <? _); [done|]. by intros [= <- _].
Qed.

Lemma EvalScript_loop_fuel (f1 f2 : nat) (pc : list Z) (st : EvalState) :
  (length pc ≤ f1)%nat → (length pc ≤ f2)%nat →
  EvalScript_loop flags checker sigversion f1 pc st = EvalScript_loop flags checker sigversion f2 pc st.
Proof.
  revert f2 pc st. induction f1 as [|f1 IH]; intros f2 pc st H1 H2.
  { destruct pc; [by destruct f2|cbn in H1; lia]. }
  destruct pc as [|x pc0]; [by destruct f2|]. destruct f2 as [|f2]; [cbn in H2; lia|].
  cbn [EvalScript_loop]. pure_eval. set (pc := x :: pc0) in *.
  destruct (eval_step _ _ _ pc st) as [[pc' st']|e s|] eqn:Es; [|done|done].
  apply eval_step_shorter in Es. cbn [rbind]. apply IH; lia.
Qed.

Definition run (pc : list Z) (st : EvalState) : Res EvalState :=
  EvalScript_loop flags checker sigversion (length pc) pc st.

Lemma run_nil (st : EvalState) : run [] st = Ok st.
Proof. done. Qed.

Lemma run_step (pc : list Z) (st : EvalState) :
  pc ≠ [] →
  run pc st = rbind (eval_step flags checker sigversion pc st) (λ '(pc', st'), run pc' st').
Proof.
  intros Hne. unfold run. destruct pc as [|x pc0]; [done|]. cbn [length EvalScript_loop]. pure_eval.
  destruct (eval_step _ _ _ _ st) as [[pc' st']|e s|] eqn:Es; [|done|done]. cbn [rbind].
  apply eval_step_shorter in Es. cbn [length] in Es. apply EvalScript_loop_fuel; lia.
Qed.

(** The opcodes of a script. *)
Inductive decodes : list Z → list (opcodetype * valtype) → Prop :=
  | decodes_nil : decodes [] []
  | decodes_cons (pc pc' : list Z) (o : opcodetype * valtype) (ops : list (opcodetype * valtype)) :
      pc ≠ [] → GetOp pc = (Some o, pc') → decodes pc' ops → decodes pc (o :: ops).

Definition op_count (ops : list (opcodetype * valtype)) : Z := Z.of_nat (length (List.filter counted ops)).

Lemma run_good (lo : Z) (pc : list Z) (st : EvalState) :
  state_from lo st → bytes_ok pc →
  good (λ st', (∃ ops, decodes pc ops ∧ Forall op_allowed ops ∧ state_from (lo + op_count ops) st') ∧
               (pc ≠ [] ∨ stacks_ok st → stacks_ok st')) (run pc st).
Proof.
  remember (length pc) as n eqn:Hn. revert lo pc st Hn.
  induction (lt_wf n) as [n _ IH]. intros lo pc st -> Hst Hb.
  destruct (decide (pc = [])) as [->|Hne].
  { cbn. split; [|by intros [?|?]]. exists []. cbn. rewrite Z.add_0_r. split; [constructor|]. split; [constructor|done]. }
  rewrite run_step by done.
  eapply good_bind; [by apply (eval_step_good lo)|]. intros [pc' st'] (o & Eg & Ho & Hst' & Hsz & Hb' & Hl).
  eapply good_mono; [|by apply (IH (length pc') Hl _ pc' st' eq_refl Hst')]. intros st'' [(ops & Hd & Hf & Hs'') ?].
  split; [|auto]. exists (o :: ops). split; [by eapply decodes_cons|]. split; [by constructor|].
  replace (lo + op_count (o :: ops)) with (lo + (if counted o then 1 else 0) + op_count ops); [done|].
  unfold op_count. cbn [List.filter]. destruct (counted o); cbn [length]; lia.
Qed.

Lemma EvalScript_good (s : list valtype) (script : CScript) :
  Forall elem_ok s → length s < 2 ^ 62 → bytes_ok script →
  good (λ s', Forall elem_ok s' ∧ length s' < 2 ^ 62 ∧
              (script ≠ [] ∨ length s <= MAX_STACK_SIZE → length s' <= MAX_STACK_SIZE) ∧ length script <= MAX_SCRIPT_SIZE ∧
              ∃ ops, decodes script ops ∧ Forall op_allowed ops ∧ op_count ops <= MAX_OPS_PER_SCRIPT)
       (EvalScript flags checker sigversion s script).
Proof.
  intros Hs Hl Hb. unfold EvalScript. pure_eval. destruct (Z.ltb_spec MAX_SCRIPT_SIZE (length script)); [exact I|].
  eapply good_bind.
  { apply (run_good 0); [|done]. split; cbn; [done|constructor|unfold MAX_OPS_PER_SCRIPT; lia|lia]. }
  intros st [(ops & Hd & Hf & [Hs' _ Ho Hz]) Hsz]. destruct (vfExec st); [|exact I]. cbn. split; [done|].
  unfold stacks_ok in Hsz. cbn in Hsz. split; [lia|]. split; [|split; [done|]; exists ops; split_and!; [done..|lia]]. intros Hor.
  enough (length (stack st) + length (altstack st) <= MAX_STACK_SIZE) by lia. apply Hsz.
  destruct Hor; [by left|right; lia].
Qed.
End Run.

(** ** Single steps *)

Section Steps.
Context `{CryptoHash} `{Secp256k1}.
Context (flags : Z) (checker : BaseSignatureChecker) (sigversion : SigVersion).

(** The test after every opcode. *)
Definition size_check (pc : list Z) (st : EvalState) : Res (list Z * EvalState) :=
  if MAX_STACK_SIZE <? length (stack st) + length (altstack st)
  then Err SCRIPT_ERR_STACK_SIZE (stack st) else Ok (pc, st).

(** An executed opcode that is not a push. *)
Lemma eval_step_op (op : opcodetype) (rest : list Z) (st : EvalState) :
  OP_16 < op → is_one_of op disabled_opcodes = false → forallb (λ b, b) (vfExec st) = true →
  nOpCount st < MAX_OPS_PER_SCRIPT →
  eval_step flags checker sigversion (op :: rest) st =
    rbind (eval_opcode flags checker sigversion true op rest (with_nOpCount st (nOpCount st + 1)))
          (size_check rest).
Proof.
  intros Hop Hdis Hex Hn. unfold eval_step, GetOp2, OP_PUSHDATA4, OP_16 in *. pure_eval.
  rewrite (proj2 (Z.leb_gt op _)) by lia. rewrite Hex. cbn [length].
  change (MAX_SCRIPT_ELEMENT_SIZE <? 0%nat) with false. cbv iota.
  rewrite Z.gtb_ltb, (proj2 (Z.ltb_lt _ op)) by lia. rewrite Hdis. cbn [nOpCount with_nOpCount andb].
  rewrite Z.gtb_ltb, (proj2 (Z.ltb_ge _ _)) by lia. unfold exec_opcode. pure_eval. cbn [andb orb].
  rewrite (proj2 (Z.leb_gt op OP_PUSHDATA4)), andb_false_r by (unfold OP_PUSHDATA4; lia). done.
Qed.

(** An executed push of [b]. *)
Lemma eval_step_push (b rest : list Z) (st : EvalState) :
  length b <= MAX_SCRIPT_ELEMENT_SIZE → forallb (λ b, b) (vfExec st) = true →
  (has flags SCRIPT_VERIFY_MINIMALDATA = true → CheckMinimalPush b (push_opcode_of (length b)) = true) →
  eval_step flags checker sigversion (push_data [] b ++ rest) st =
    size_check rest (with_stack st (b :: stack st)).
Proof.
  intros Hl Hex Hmin. unfold eval_step, MAX_SCRIPT_ELEMENT_SIZE in *. pure_eval.
  rewrite GetOp_push_data by lia. rewrite (proj2 (Z.ltb_ge _ _)), Hex by lia.
  pose proof (push_opcode_of_le (length b)) as Hop. unfold OP_PUSHDATA4 in Hop.
  assert (0 <= push_opcode_of (length b)) as Hop0.
  { unfold push_opcode_of. repeat case_if; unfold OP_PUSHDATA1, OP_PUSHDATA2, OP_PUSHDATA4; lia. }
  rewrite Z.gtb_ltb, (proj2 (Z.ltb_ge _ _)) by (unfold OP_16; lia). cbn [andb].
  assert (is_one_of (push_opcode_of (length b)) disabled_opcodes = false) as ->.
  { unfold is_one_of, disabled_opcodes. cbn [existsb].
    repeat (rewrite (proj2 (Z.eqb_neq _ _)) by (cbv [OP_CAT OP_SUBSTR OP_LEFT OP_RIGHT OP_INVERT OP_AND
      OP_OR OP_XOR OP_2MUL OP_2DIV OP_MUL OP_DIV OP_MOD OP_LSHIFT OP_RSHIFT]; lia)). done. }
  unfold exec_opcode. pure_eval. rewrite (proj2 (Z.leb_le 0 _)), (proj2 (Z.leb_le _ OP_PUSHDATA4))
    by (unfold OP_PUSHDATA4; lia).
  cbn [andb]. unfold fRequireMinimal.
  destruct (has flags SCRIPT_VERIFY_MINIMALDATA); [rewrite Hmin by done|]; done.
Qed.

(** ** Unspendable scripts *)

Lemma EvalScript_run (s : list valtype) (script : CScript) :
  length script <= MAX_SCRIPT_SIZE →
  EvalScript flags checker sigversion s script =
    rbind (run flags checker sigversion script (mkEval s [] [] 0 script))
      (λ st, match vfExec st with
             | [] => Ok (stack st)
             | _ => Err SCRIPT_ERR_UNBALANCED_CONDITIONAL (stack st)
             end).
Proof. intros Hl. unfold EvalScript. pure_eval. by rewrite (proj2 (Z.ltb_ge _ _)) by lia. Qed.

Lemma EvalScript_first_error (s : list valtype) (op : opcodetype) (rest : list Z) (e : ScriptError)
    (s' : list valtype) :
  eval_step flags checker sigversion (op :: rest) (mkEval s [] [] 0 (op :: rest)) = Err e s' →
  ∃ e' s'', EvalScript flags checker sigversion s (op :: rest) = Err e' s''.
Proof.
  intros E. destruct (Z.le_gt_cases (length (op :: rest)) MAX_SCRIPT_SIZE) as [Hl|Hl].
  - rewrite EvalScript_run, run_step, E by done. cbn. eauto.
  - unfold EvalScript. pure_eval. rewrite (proj2 (Z.ltb_lt _ _)) by lia. eauto.
Qed.

Lemma EvalScript_unspendable (s : list valtype) (script : CScript) :
  IsUnspendable script = true → ∃ e s', EvalScript flags checker sigversion s script = Err e s'.
Proof.
  unfold IsUnspendable. intros [Hu|Hu]%orb_prop.
  - destruct script as [|op rest]; [done|]. apply andb_prop in Hu as [_ Hop]. cbn in Hop.
    apply Z.eqb_eq in Hop as ->. by eapply EvalScript_first_error.
  - unfold EvalScript. pure_eval. rewrite Hu. eauto.
Qed.

(** A pay-to-script-hash script fails on the empty stack. *)
Lemma EvalScript_P2SH_empty (script : CScript) :
  IsPayToScriptHash script = true → ∃ e s, EvalScript flags checker sigversion [] script = Err e s.
Proof.
  intros (h & Hh & ->)%IsPayToScriptHash_shape. by eapply EvalScript_first_error.
Qed.
End Steps.

(** ** No assertion fails *)

(** The combinations of flags [VerifyScript] asserts. *)
Definition flags_ok (flags : Z) : Prop :=
  (has flags SCRIPT_VERIFY_CLEANSTACK = true →
     has flags SCRIPT_VERIFY_P2SH = true ∧ has flags SCRIPT_VERIFY_WITNESS = true) ∧
  (has flags SCRIPT_VERIFY_WITNESS = true → has flags SCRIPT_VERIFY_P2SH = true).

Lemma push_data_bytes (script : CScript) (b : valtype) :
  bytes_ok script → bytes_ok b → bytes_ok (push_data script b).
Proof.
  intros Hs Hb. unfold push_data. apply Forall_app. split; [done|]. apply Forall_app. split; [|done].
  repeat case_match; repeat constructor; unfold OP_PUSHDATA1, OP_PUSHDATA2, OP_PUSHDATA4 in *;
    try apply WriteLE16_bytes; try apply WriteLE32_bytes;
    try (unfold u8; apply wrap_range; lia); lia.
Qed.

Lemma IsWitnessProgram_bytes (script : CScript) (version : Z) (program : valtype) :
  bytes_ok script → IsWitnessProgram script = Some (version, program) → bytes_ok program.
Proof.
  intros Hb (op & _ & -> & _)%IsWitnessProgram_shape. by apply Forall_cons_iff in Hb as [_ [_ ?]%Forall_cons_iff].
Qed.

Section NoAbort.
Context `{CryptoHash} `{Secp256k1} (flags : Z) (checker : BaseSignatureChecker).

Lemma run_witness_script_good (s : list valtype) (script : CScript) :
  Forall bytes_ok s → length s < 2 ^ 62 → bytes_ok script →
  good (λ _, True) (run_witness_script flags checker s script).
Proof.
  intros Hs Hl Hb. unfold run_witness_script. pure_eval. destruct (existsb _ s) eqn:Ex; [exact I|].
  assert (Forall elem_ok s) as Hs'.
  { rewrite Forall_forall in Hs |- *. intros x Hx. split; [by apply Hs|].
    destruct (Z.le_gt_cases (length x) MAX_SCRIPT_ELEMENT_SIZE) as [|Hgt]; [done|].
    rewrite <- not_true_iff_false, existsb_exists in Ex. exfalso. apply Ex. exists x.
    split; [done|]. apply Z.ltb_lt. lia. }
  eapply good_bind; [by apply EvalScript_good|]. intros s' _. repeat case_match; done.
Qed.

Lemma VerifyWitnessProgram_good (witness : list valtype) (version : Z) (program : valtype) :
  Forall bytes_ok witness → length witness < 2 ^ 62 → bytes_ok program →
  good (λ _, True) (VerifyWitnessProgram flags checker witness version program).
Proof.
  intros Hw Hl Hp. unfold VerifyWitnessProgram. pure_eval.
  assert (Forall bytes_ok (reverse witness)) as Hr by (by apply Forall_reverse).
  assert (length (reverse witness) < 2 ^ 62) as Hlr by (by rewrite length_reverse).
  destruct (version =? 0); [|by destruct (has _ _)]. destruct (length program =? 32)%nat.
  - destruct (reverse witness) as [|x s]; [exact I|]. apply Forall_cons_iff in Hr as [Hx Hs].
    cbn [length] in Hlr. case_bool_decide; [|exact I]. apply run_witness_script_good; [done|lia|done].
  - destruct (length program =? 20)%nat; [|exact I]. destruct (negb _); [exact I|].
    apply run_witness_script_good; [done|done|]. unfold witness_keyhash_script.
    apply Forall_app. split; [apply push_data_bytes; [|done]|]; repeat constructor;
      unfold OP_DUP, OP_HASH160, OP_EQUALVERIFY, OP_CHECKSIG; lia.
Qed.

Lemma require_true_good (s : list valtype) : good (λ _, True) (require_true s).
Proof. unfold require_true. repeat case_match; done. Qed.

Lemma VerifyScript_good (scriptSig scriptPubKey : CScript) (witness : list valtype) :
  flags_ok flags → bytes_ok scriptSig → bytes_ok scriptPubKey →
  Forall bytes_ok witness → length witness < 2 ^ 62 →
  good (λ _, True) (VerifyScript flags checker scriptSig scriptPubKey witness).
Proof.
  intros [Hclean Hwit] HbS HbP Hw Hlw. unfold VerifyScript. pure_eval. destruct (_ && _); [exact I|].
  eapply good_bind; [apply EvalScript_good; [constructor|cbn; lia|done]|].
  intros copy (Hcopy & Hlcopy & _).
  destruct (EvalScript flags checker SIGVERSION_BASE copy scriptPubKey) as [s|e s|] eqn:Ep; cbn [rbind]; [|exact I|].
  2: { pose proof (EvalScript_good flags checker SIGVERSION_BASE copy scriptPubKey Hcopy Hlcopy HbP) as Hg.
       by rewrite Ep in Hg. }
  eapply good_bind; [apply require_true_good|]. intros _ _.
  eapply (good_bind (λ _, True)).
  { unfold verify_bare_witness. pure_eval. destruct (if has flags _ then _ else _) as [[v prog]|] eqn:Ew; [|done].
    destruct (has flags SCRIPT_VERIFY_WITNESS); [|done]. apply IsWitnessProgram_bytes in Ew; [|done].
    destruct (negb _); [exact I|]. eapply good_bind; [by apply VerifyWitnessProgram_good|]. done. }
  intros [s1 had] _. eapply (good_bind (λ _, True)).
  { destruct (has flags SCRIPT_VERIFY_P2SH && IsPayToScriptHash scriptPubKey) eqn:Eps; [|done].
    apply andb_prop in Eps as [_ Hps]. unfold verify_p2sh. pure_eval. destruct (negb _); [exact I|].
    destruct copy as [|pubKey2 s0].
    { destruct (EvalScript_P2SH_empty flags checker SIGVERSION_BASE scriptPubKey Hps) as (e & s' & E).
      congruence. }
    apply Forall_cons_iff in Hcopy as [[Hb2 _] Hs0]. cbn [length] in Hlcopy.
    eapply good_bind; [apply EvalScript_good; [done|lia|done]|]. intros s2 _.
    eapply good_bind; [apply require_true_good|]. intros _ _.
    destruct (if has flags _ then _ else _) as [[v prog]|] eqn:Ew; [|done].
    destruct (has flags SCRIPT_VERIFY_WITNESS); [|done]. apply IsWitnessProgram_bytes in Ew; [|done].
    destruct (negb _); [exact I|]. eapply good_bind; [by apply VerifyWitnessProgram_good|]. done. }
  intros [s2 had2] _. eapply (good_bind (λ _, True)).
  { destruct (has flags SCRIPT_VERIFY_CLEANSTACK); [|done]. destruct (Hclean eq_refl) as [-> ->]. cbn.
    by destruct (negb _). }
  intros _ _. destruct (has flags SCRIPT_VERIFY_WITNESS); [|done]. rewrite (Hwit eq_refl). cbn.
  by destruct (_ && _).
Qed.
End NoAbort.

(** ** Truth values *)

Lemma mag_cons (x : Z) (rest : valtype) :
  bytes_ok (x :: rest) → rest ≠ [] →
  ScriptNumFacts.mag (x :: rest) = x + 256 * ScriptNumFacts.mag rest.
Proof.
  intros [[Hx0 Hx1] Hb]%Forall_cons_iff Hne.
  assert (0 < length rest)%nat as Hn by (destruct rest; [done|cbn; lia]).
  destruct (ScriptNumFacts.half_pos rest Hn) as [Hh _].
  unfold ScriptNumFacts.mag. cbn [le_val]. change (2 ^ 8) with 256.
  assert (ScriptNumFacts.half (x :: rest) = 256 * ScriptNumFacts.half rest) as ->.
  { unfold ScriptNumFacts.half. cbn [length]. change 256 with (2 ^ 8). rewrite <- Z.pow_add_r by lia.
    f_equal. lia. }
  pose proof (Z.div_mod (le_val 8 rest) (ScriptNumFacts.half rest) ltac:(lia)) as Hd.
  pose proof (Z.mod_pos_bound (le_val 8 rest) _ Hh).
  symmetry. apply (Z.mod_unique_pos _ _ (le_val 8 rest / ScriptNumFacts.half rest)); lia.
Qed.

(** A byte string is true exactly when its magnitude is not zero: negative zero is
    false. *)
Lemma CastToBool_mag (vch : valtype) :
  bytes_ok vch → CastToBool vch = negb (ScriptNumFacts.mag vch =? 0).
Proof.
  induction vch as [|x rest IH]; intros Hb; [done|]. pose proof Hb as [[Hx0 Hx1] Hb']%Forall_cons_iff.
  cbn [CastToBool]. destruct (decide (rest = [])) as [->|Hne].
  - unfold ScriptNumFacts.mag, ScriptNumFacts.half. cbn [length le_val]. change (2 ^ (8 * 1%nat - 1)) with 128.
    rewrite Z.mul_0_r, Z.add_0_r. destruct (Z.eqb_spec x 0) as [->|]; [done|]. cbn [negb]. f_equal.
    destruct (Z.eqb_spec x 128) as [->|]; [done|]. symmetry. apply Z.eqb_neq.
    destruct (Z.lt_ge_cases x 128); [rewrite Z.mod_small by lia; lia|].
    rewrite <- (Z.mod_unique_pos x 128 1 (x - 128)) by lia. lia.
  - assert (0 < length rest)%nat as Hn by (destruct rest; [done|cbn; lia]).
    destruct (ScriptNumFacts.mag_sgn rest Hb' Hn) as [_ Hm].
    rewrite mag_cons by done. rewrite IH by done.
    replace (match rest with [] => x =? 128 | _ => false end) with false by (by destruct rest).
    destruct (Z.eqb_spec x 0) as [->|]; cbn [negb].
    + f_equal. apply eq_true_iff_eq. rewrite !Z.eqb_eq. lia.
    + symmetry. apply negb_true_iff, Z.eqb_neq. lia.
Qed.

Lemma CastToBool_getvch (v : Z) :
  - 2 ^ 63 < v < 2 ^ 63 → CastToBool (ScriptNum.getvch v) = negb (v =? 0).
Proof.
  intros Hv. unfold ScriptNum.getvch. destruct (Z.eq_dec v 0) as [->|Hne]; [done|].
  destruct (ScriptNumFacts.serialize_spec v Hne Hv) as (Hb & _ & Hm & _).
  rewrite CastToBool_mag, Hm by done. f_equal. apply eq_true_iff_eq. rewrite !Z.eqb_eq. lia.
Qed.

(** ** Standard scripts *)

(** Unfold the state, keep the scripts folded. *)
Ltac ecbn :=
  cbn [rbind stack altstack vfExec nOpCount pbegincodehash with_stack with_nOpCount].

Section Standard.
Context `{CryptoHash} `{Secp256k1}.
Context (flags : Z) (checker : BaseSignatureChecker) (sigversion : SigVersion).

Lemma push20 (h : valtype) :
  length h = 20%nat →
  push_data [] h = 0x14 :: h ∧ CheckMinimalPush h (push_opcode_of (length h)) = true.
Proof.
  intros Hh. unfold push_data, CheckMinimalPush, push_opcode_of. rewrite Hh. done.
Qed.

Lemma size_check_ok (pc : list Z) (st : EvalState) :
  length (stack st) + length (altstack st) <= MAX_STACK_SIZE → size_check pc st = Ok (pc, st).
Proof. intros Hl. unfold size_check. by rewrite (proj2 (Z.ltb_ge _ _)) by lia. Qed.

Lemma run_op (op : opcodetype) (rest : list Z) (st : EvalState) :
  OP_16 < op → is_one_of op disabled_opcodes = false → forallb (λ b, b) (vfExec st) = true →
  nOpCount st < MAX_OPS_PER_SCRIPT →
  run flags checker sigversion (op :: rest) st =
    rbind (rbind (eval_opcode flags checker sigversion true op rest (with_nOpCount st (nOpCount st + 1)))
          (size_check rest)) (λ '(pc', st'), run flags checker sigversion pc' st').
Proof. intros. rewrite run_step by done. by rewrite eval_step_op. Qed.

Lemma run_push (b rest : list Z) (st : EvalState) :
  length b <= MAX_SCRIPT_ELEMENT_SIZE → forallb (λ b, b) (vfExec st) = true →
  (has flags SCRIPT_VERIFY_MINIMALDATA = true → CheckMinimalPush b (push_opcode_of (length b)) = true) →
  run flags checker sigversion (push_data [] b ++ rest) st =
    rbind (size_check rest (with_stack st (b :: stack st)))
      (λ '(pc', st'), run flags checker sigversion pc' st').
Proof.
  intros Hl Hex Hmin. rewrite run_step; [by rewrite eval_step_push|].
  unfold push_data. repeat case_match; done.
Qed.

(** The [switch] on the opcodes of the standard scripts. *)
Lemma eval_DUP (pc : list Z) (st : EvalState) :
  eval_opcode flags checker sigversion true OP_DUP pc st = op_dup st.
Proof. done. Qed.

Lemma eval_HASH160 (pc : list Z) (st : EvalState) :
  eval_opcode flags checker sigversion true OP_HASH160 pc st =
    match stack st with
    | vch :: s => Ok (with_stack st (CHash160 vch :: s)) | _ => invalid_stack st end.
Proof. done. Qed.

Lemma eval_EQUAL (pc : list Z) (st : EvalState) :
  eval_opcode flags checker sigversion true OP_EQUAL pc st =
    match stack st with
    | vch2 :: vch1 :: s => Ok (with_stack st (vchBool (bool_decide (vch1 = vch2)) :: s))
    | _ => invalid_stack st end.
Proof. done. Qed.

Lemma eval_EQUALVERIFY (pc : list Z) (st : EvalState) :
  eval_opcode flags checker sigversion true OP_EQUALVERIFY pc st =
    match stack st with
    | vch2 :: vch1 :: s =>
        if bool_decide (vch1 = vch2) then Ok (with_stack st s)
        else Err SCRIPT_ERR_EQUALVERIFY (vchFalse :: s)
    | _ => invalid_stack st end.
Proof. done. Qed.

Lemma eval_CHECKSIG (pc : list Z) (st : EvalState) :
  eval_opcode flags checker sigversion true OP_CHECKSIG pc st =
    op_checksig flags checker sigversion OP_CHECKSIG st.
Proof. done. Qed.

(** [HASH160 <h> EQUAL] replaces the top element by the comparison of its hash. *)
Lemma EvalScript_P2SH (x : valtype) (s : list valtype) (h : valtype) :
  length h = 20%nat → length s + 2 <= MAX_STACK_SIZE →
  EvalScript flags checker sigversion (x :: s) ([OP_HASH160; 0x14] ++ h ++ [OP_EQUAL]) =
    Ok (vchBool (bool_decide (CHash160 x = h)) :: s).
Proof.
  intros Hh Hs. destruct (push20 h Hh) as [Ep Hmin].
  rewrite EvalScript_run by (rewrite !length_app, Hh; cbn; unfold MAX_SCRIPT_SIZE; lia).
  change ([OP_HASH160; 20] ++ h ++ [OP_EQUAL]) with (OP_HASH160 :: (0x14 :: h) ++ [OP_EQUAL]).
  rewrite <- Ep, run_op, eval_HASH160 by done. ecbn. rewrite size_check_ok by (cbn; lia). ecbn.
  rewrite run_push by (done || (unfold MAX_SCRIPT_ELEMENT_SIZE; lia)).
  rewrite size_check_ok by (cbn; lia). ecbn. rewrite run_op, eval_EQUAL by done. ecbn.
  rewrite size_check_ok by (cbn; lia). done.
Qed.

(** [DUP HASH160 <h> EQUALVERIFY CHECKSIG] on a key and a signature. *)
Lemma EvalScript_P2PKH (pubkey sig : valtype) (s : list valtype) (h : valtype) :
  length h = 20%nat → length s + 4 <= MAX_STACK_SIZE →
  let script := witness_keyhash_script h in
  EvalScript flags checker sigversion (pubkey :: sig :: s) script =
    if bool_decide (CHash160 pubkey = h) then
      match check_encodings flags sigversion sig pubkey with
      | Some e => Err e (pubkey :: sig :: s)
      | None =>
          let fSuccess := CheckSig checker sig pubkey (drop_signature sigversion script sig) sigversion in
          if negb fSuccess && has flags SCRIPT_VERIFY_NULLFAIL && (0 <? length sig)%nat
          then Err SCRIPT_ERR_SIG_NULLFAIL (pubkey :: sig :: s)
          else Ok (vchBool fSuccess :: s)
      end
    else Err SCRIPT_ERR_EQUALVERIFY (vchFalse :: pubkey :: sig :: s).
Proof.
  intros Hh Hs script. destruct (push20 h Hh) as [Ep Hmin].
  assert (script = OP_DUP :: OP_HASH160 :: push_data [] h ++ [OP_EQUALVERIFY; OP_CHECKSIG]) as E.
  { unfold script, witness_keyhash_script. by rewrite push_data_app. }
  rewrite EvalScript_run by (rewrite E, Ep; cbn; rewrite length_app, Hh; cbn; unfold MAX_SCRIPT_SIZE; lia).
  rewrite E at 1. rewrite run_op, eval_DUP by done. unfold op_dup. ecbn. rewrite size_check_ok by (cbn; lia). ecbn.
  rewrite run_op, eval_HASH160 by done. ecbn. rewrite size_check_ok by (cbn; lia). ecbn.
  rewrite run_push by (done || (unfold MAX_SCRIPT_ELEMENT_SIZE; lia)).
  rewrite size_check_ok by (cbn; lia). ecbn. rewrite run_op, eval_EQUALVERIFY by done. ecbn.
  case_bool_decide; [|done]. ecbn. rewrite size_check_ok by (cbn; lia). ecbn.
  rewrite run_op, eval_CHECKSIG by done. unfold op_checksig. pure_eval. ecbn.
  destruct (check_encodings _ _ _ _); [done|]. change (OP_CHECKSIG =? OP_CHECKSIGVERIFY) with false.
  destruct (_ && _); [done|]. ecbn. rewrite size_check_ok by (cbn; lia). done.
Qed.
End Standard.

(** ** Signature encodings *)

Lemma aget_app_l (l k : list Z) (i : nat) : (i < length l)%nat → (l ++ k).[i] = l.[i].
Proof. intros. unfold aget. by apply app_nth1. Qed.

Lemma aget_app_r (l k : list Z) (i : nat) : (l ++ k).[length l + i] = k.[i].
Proof. unfold aget. rewrite app_nth2 by lia. f_equal. lia. Qed.

(** The content octets of a positive DER integer in shortest form. *)
Definition der_integer (R : list Z) : bool :=
  (0 <? length R)%nat && (R.[0] <? 128) &&
  negb ((1 <? length R)%nat && (R.[0] =? 0) && (R.[1] <? 128)).

Definition der_signature (a0 a1 a2 : Z) (R : list Z) (b0 : Z) (S : list Z) (hashtype : Z) : list Z :=
  a0 :: a1 :: a2 :: Z.of_nat (length R) :: R ++ b0 :: Z.of_nat (length S) :: S ++ [hashtype].

Lemma der_signature_at (a0 a1 a2 b0 ht : Z) (R S : list Z) (i : nat) :
  (der_signature a0 a1 a2 R b0 S ht).[4 + i] = (R ++ b0 :: Z.of_nat (length S) :: S ++ [ht]).[i].
Proof. done. Qed.

Lemma byte_negative_test (x : Z) : is_byte x → negb (x .& 0x80 =? 0) = negb (x <? 128).
Proof. intros Hx. by rewrite ScriptNumFacts.byte_sign_test. Qed.

Lemma second_byte_test (R tail : list Z) :
  bytes_ok R →
  ((1 <? length R) && (R.[0] =? 0) && ((R ++ tail).[1] .& 0x80 =? 0))
  = ((1 <? length R)%nat && (R.[0] =? 0) && (R.[1] <? 128)).
Proof.
  intros HR. destruct (Z.ltb_spec 1 (length R)), (Nat.ltb_spec 1 (length R)); try lia; try done.
  rewrite aget_app_l by lia. by rewrite ScriptNumFacts.byte_sign_test by (apply Forall_aget; (done || lia)).
Qed.

Lemma IsValidSignatureEncoding_eval (a0 a1 a2 b0 ht : Z) (R S : list Z) :
  bytes_ok R → bytes_ok S →
  IsValidSignatureEncoding (der_signature a0 a1 a2 R b0 S ht) =
    (length R + length S <=? 66) && (a0 =? 0x30) && (a1 =? length R + length S + 4) &&
    (a2 =? 0x02) && der_integer R && (b0 =? 0x02) && der_integer S.
Proof.
  intros HR HS. unfold IsValidSignatureEncoding.
  set (sig := der_signature a0 a1 a2 R b0 S ht).
  assert (length sig = (length R + length S + 7)%nat) as Hl.
  { unfold sig, der_signature. cbn. rewrite length_app. cbn. rewrite length_app. cbn. lia. }
  change (sig.[Z.to_nat 0]) with a0. change (sig.[Z.to_nat 1]) with a1. change (sig.[Z.to_nat 2]) with a2.
  change (sig.[Z.to_nat 3]) with (Z.of_nat (length R)). rewrite Hl.
  assert (∀ i, 0 <= i → sig.[Z.to_nat (Z.of_nat (length R) + 4 + i)]
                        = (b0 :: Z.of_nat (length S) :: S ++ [ht]).[Z.to_nat i]) as Hat.
  { intros i Hi. replace (Z.to_nat (Z.of_nat (length R) + 4 + i)) with (4 + (length R + Z.to_nat i))%nat by lia.
    unfold sig. rewrite der_signature_at. apply aget_app_r. }
  replace (5 + Z.of_nat (length R)) with (Z.of_nat (length R) + 4 + 1) by lia.
  replace (Z.of_nat (length R) + 6) with (Z.of_nat (length R) + 4 + 2) by lia.
  replace (Z.of_nat (length R) + 7) with (Z.of_nat (length R) + 4 + 3) by lia.
  pose proof (Hat 0 ltac:(lia)) as E0. rewrite Z.add_0_r in E0.
  rewrite (Hat 1), (Hat 2), (Hat 3), E0 by lia. clear Hat E0.
  change ((b0 :: Z.of_nat (length S) :: S ++ [ht]).[Z.to_nat 0]) with b0.
  change ((b0 :: Z.of_nat (length S) :: S ++ [ht]).[Z.to_nat 1]) with (Z.of_nat (length S)).
  change ((b0 :: Z.of_nat (length S) :: S ++ [ht]).[Z.to_nat 2]) with ((S ++ [ht]).[0]).
  change ((b0 :: Z.of_nat (length S) :: S ++ [ht]).[Z.to_nat 3]) with ((S ++ [ht]).[1]).
  change (sig.[Z.to_nat 4]) with ((R ++ b0 :: Z.of_nat (length S) :: S ++ [ht]).[0]).
  change (sig.[Z.to_nat 5]) with ((R ++ b0 :: Z.of_nat (length S) :: S ++ [ht]).[1]).
  generalize (b0 :: Z.of_nat (length S) :: S ++ [ht]). intros tail. clear sig Hl.
  rewrite (proj2 (Z.eqb_eq (_ + _ + 7) _)) by lia. cbn [negb].
  rewrite !Z.gtb_ltb, Z.geb_leb. unfold der_integer.
  destruct (Z.leb_spec (length R + length S) 66) as [H66|H66]; cbn [andb].
  2: { destruct (Z.ltb_spec (length R + length S + 7)%nat 9); [done|].
       by rewrite (proj2 (Z.ltb_lt 73 _)) by lia. }
  rewrite (proj2 (Z.ltb_ge 73 _)) by lia.
  destruct (a0 =? 48); cbn [negb andb]; [|by destruct (_ <? 9)].
  replace ((length R + length S + 7)%nat - 3) with (length R + length S + 4) by lia.
  destruct (a1 =? length R + length S + 4); cbn [negb andb]; [|by destruct (_ <? 9)].
  destruct (decide (length R = 0)%nat) as [ER|ER].
  { rewrite ER. cbn. repeat case_match; try done; by rewrite ?andb_false_r. }
  rewrite (proj2 (Z.eqb_neq (length R) 0)), (proj2 (Nat.ltb_lt 0 (length R))) by lia.
  destruct (decide (length S = 0)%nat) as [ES|ES].
  { rewrite ES. cbn. rewrite !andb_false_r. repeat case_match; done. }
  rewrite (proj2 (Z.eqb_neq (length S) 0)), (proj2 (Nat.ltb_lt 0 (length S))) by lia.
  rewrite (aget_app_l R _ 0), (aget_app_l S _ 0) by lia.
  rewrite (proj2 (Z.ltb_ge _ 9)), (proj2 (Z.leb_gt _ _)) by lia.
  rewrite !second_byte_test by done.
  rewrite !byte_negative_test by (apply Forall_aget; (done || lia)).
  destruct (a2 =? 2), (b0 =? 2), (R.[0] <? 128), (S.[0] <? 128); cbn [negb andb]; rewrite ?andb_false_r; try done;
    destruct ((1 <? length R)%nat && (R.[0] =? 0) && (R.[1] <? 128)),
      ((1 <? length S)%nat && (S.[0] =? 0) && (S.[1] <? 128)); done.
Qed.

Lemma IsValidSignatureEncoding_split (sig : valtype) :
  bytes_ok sig → IsValidSignatureEncoding sig = true →
  ∃ a0 a1 a2 R b0 S ht, sig = der_signature a0 a1 a2 R b0 S ht ∧ bytes_ok R ∧ bytes_ok S.
Proof.
  intros Hb. unfold IsValidSignatureEncoding.
  destruct (Z.ltb_spec (length sig) 9) as [|H9]; [done|]. destruct (_ >? _); [done|].
  destruct (negb _); [done|]. destruct (negb _); [done|]. rewrite Z.geb_leb.
  destruct (Z.leb_spec (length sig) (5 + sig.[Z.to_nat 3])) as [|Hin]; [done|].
  destruct (Z.eqb_spec (sig.[Z.to_nat 3] + sig.[Z.to_nat (5 + sig.[Z.to_nat 3])] + 7) (length sig))
    as [Hsum|]; [|done]. intros _.
  destruct sig as [|a0 [|a1 [|a2 [|lenR tail]]]]; try (cbn in H9; lia).
  change ((a0 :: a1 :: a2 :: lenR :: tail).[Z.to_nat 3]) with lenR in *.
  rewrite !Forall_cons_iff in Hb. destruct Hb as (_ & _ & _ & [HR0 _] & Hb). cbn [length] in *.
  pose proof (take_drop (Z.to_nat lenR) tail) as Et. set (R := take (Z.to_nat lenR) tail) in *.
  assert (length R = Z.to_nat lenR) as ER by (unfold R; rewrite length_take; lia).
  replace (Z.to_nat (5 + lenR)) with (4 + (length R + 1))%nat in Hsum by lia.
  change ((a0 :: a1 :: a2 :: lenR :: tail).[4 + (length R + 1)]) with (tail.[length R + 1]) in Hsum.
  rewrite <- Et, aget_app_r in Hsum.
  destruct (drop (Z.to_nat lenR) tail) as [|b0 [|lenS tail3]] eqn:Ed;
    pose proof (f_equal length Ed) as El; rewrite length_drop in El; cbn in El; try lia.
  change ((b0 :: lenS :: tail3).[1]) with lenS in Hsum.
  rewrite length_app in Hsum. cbn [length] in Hsum.
  rewrite <- Et in Hb. apply Forall_app in Hb as [HbR Hb']. rewrite !Forall_cons_iff in Hb'.
  destruct Hb' as (_ & [HS0 _] & Hb3).
  pose proof (take_drop (Z.to_nat lenS) tail3) as Et3. set (S := take (Z.to_nat lenS) tail3) in *.
  assert (length S = Z.to_nat lenS) as ES by (unfold S; rewrite length_take; lia).
  destruct (drop (Z.to_nat lenS) tail3) as [|ht [|y l]] eqn:Ed3;
    pose proof (f_equal length Ed3) as El3; rewrite length_drop in El3; cbn in El3; try lia.
  exists a0, a1, a2, R, b0, S, ht. split_and!; [|done|unfold S; by apply Forall_take].
  unfold der_signature. rewrite <- Et, <- Et3, ER, ES, !Z2Nat.id by lia. done.
Qed.

Section P2SHInv.
Context `{CryptoHash} `{Secp256k1}.
Context (flags : Z) (checker : BaseSignatureChecker) (sigversion : SigVersion).

Lemma EvalScript_P2SH_inv (x : valtype) (s s' : list valtype) (h : valtype) :
  length h = 20%nat →
  EvalScript flags checker sigversion (x :: s) ([OP_HASH160; 0x14] ++ h ++ [OP_EQUAL]) = Ok s' →
  s' = vchBool (bool_decide (CHash160 x = h)) :: s.
Proof.
  intros Hh. destruct (push20 h Hh) as [Ep Hmin].
  rewrite EvalScript_run by (rewrite !length_app, Hh; cbn; unfold MAX_SCRIPT_SIZE; lia).
  change ([OP_HASH160; 20] ++ h ++ [OP_EQUAL]) with (OP_HASH160 :: (0x14 :: h) ++ [OP_EQUAL]).
  rewrite <- Ep, run_op, eval_HASH160 by done. ecbn. unfold size_check at 1.
  destruct (_ <? _); [done|]. ecbn.
  rewrite run_push by (done || (unfold MAX_SCRIPT_ELEMENT_SIZE; lia)). unfold size_check at 1.
  destruct (_ <? _); [done|]. ecbn. rewrite run_op, eval_EQUAL by done. ecbn. unfold size_check.
  destruct (_ <? _); [done|]. by intros [= <-].
Qed.
End P2SHInv.

(** ** Properties *)

(** C24: evaluation respects its resource limits.  From a stack of at most 1000 byte strings of at most 520 bytes each, on any
    script of bytes, no assertion inside the interpreter can fail, and when the evaluation succeeds, the stack left has at
    most 1000 elements of at most 520 bytes, the script has at most 10000 bytes, and it decodes into opcodes none of which is
    disabled or carries more than 520 bytes of data, at most 201 of them above [OP_16], executed or not. *)
Theorem EvalScript_limits `{CryptoHash} `{Secp256k1} (flags : Z) (checker : BaseSignatureChecker)
    (sigversion : SigVersion) (s : list valtype) (script : CScript) :
  Forall elem_ok s → length s <= MAX_STACK_SIZE → bytes_ok script →
  match EvalScript flags checker sigversion s script with
  | Ok s' => Forall elem_ok s' ∧ length s' <= MAX_STACK_SIZE ∧ length script <= MAX_SCRIPT_SIZE ∧
      ∃ ops, decodes script ops ∧ Forall op_allowed ops ∧ op_count ops <= MAX_OPS_PER_SCRIPT
  | Err _ _ => True
  | Abort => False
  end.
Proof.
  intros Hs Hl Hb. pose proof (EvalScript_good flags checker sigversion s script Hs
    ltac:(unfold MAX_STACK_SIZE in Hl; lia) Hb) as Hg.
  destruct (EvalScript _ _ _ _ _); [|done|done]. destruct Hg as (? & _ & ? & ? & ?). auto.
Qed.

(** an output that [IsUnspendable] calls provably unspendable can never be
    spent: its script fails on every stack, under all flags and checkers. *)
Theorem EvalScript_IsUnspendable `{CryptoHash} `{Secp256k1} (flags : Z)
    (checker : BaseSignatureChecker) (sigversion : SigVersion) (s : list valtype) (script : CScript) :
  IsUnspendable script = true →
  ∃ e s', EvalScript flags checker sigversion s script = Err e s'.
Proof. apply EvalScript_unspendable. Qed.

(** C25: no assertion of [VerifyScript] fails when the flags respect the documented
    combinations; in particular the stack is not empty when the redeem script of
    a pay-to-script-hash output is taken from it. *)
Theorem VerifyScript_no_abort `{CryptoHash} `{Secp256k1} (flags : Z) (checker : BaseSignatureChecker)
    (scriptSig scriptPubKey : CScript) (witness : list valtype) :
  flags_ok flags → bytes_ok scriptSig → bytes_ok scriptPubKey →
  Forall bytes_ok witness → length witness < 2 ^ 62 →
  VerifyScript flags checker scriptSig scriptPubKey witness ≠ Abort.
Proof.
  intros Hf Hs Hp Hw Hl E.
  pose proof (VerifyScript_good flags checker scriptSig scriptPubKey witness Hf Hs Hp Hw Hl) as Hg.
  by rewrite E in Hg.
Qed.

(** a pay-to-pubkey-hash script succeeds on a key and a signature exactly when
    the key hashes to the committed value, both encodings are accepted, and the
    checker accepts the signature for the script without the signature itself;
    it then leaves just [true] above the rest of the stack. *)
Theorem P2PKH_spend `{CryptoHash} `{Secp256k1} (flags : Z) (checker : BaseSignatureChecker)
    (sigversion : SigVersion) (pubkey sig h : valtype) (s : list valtype) :
  length h = 20%nat → length s + 4 <= MAX_STACK_SIZE →
  EvalScript flags checker sigversion (pubkey :: sig :: s) (witness_keyhash_script h) = Ok (vchTrue :: s) ↔
  CHash160 pubkey = h ∧ check_encodings flags sigversion sig pubkey = None ∧
  CheckSig checker sig pubkey (drop_signature sigversion (witness_keyhash_script h) sig) sigversion = true.
Proof.
  intros Hh Hs. rewrite EvalScript_P2PKH by done. case_bool_decide as Eh; [|split; [done|tauto]].
  destruct (check_encodings _ _ _ _); [split; [done|intros (_ & ? & _); done]|].
  destruct (CheckSig _ _ _ _ _); cbn [negb andb]; [done|].
  split; [|intros (_ & _ & ?); done]. by destruct (_ && _).
Qed.

(** spending a pay-to-script-hash output with that rule enabled means: the
    input script only pushes data, the last datum is a script whose hash is the
    committed one, and that script succeeds on the remaining data. *)
Theorem P2SH_commits `{CryptoHash} `{Secp256k1} (flags : Z) (checker : BaseSignatureChecker)
    (scriptSig h : CScript) (witness : list valtype) :
  has flags SCRIPT_VERIFY_P2SH = true → length h = 20%nat →
  VerifyScript flags checker scriptSig ([OP_HASH160; 0x14] ++ h ++ [OP_EQUAL]) witness = Ok tt →
  IsPushOnly scriptSig = true ∧
  ∃ redeem rest s, EvalScript flags checker SIGVERSION_BASE [] scriptSig = Ok (redeem :: rest) ∧
    CHash160 redeem = h ∧
    EvalScript flags checker SIGVERSION_BASE rest redeem = Ok s ∧ require_true s = Ok tt.
Proof.
  intros Hf Hh. set (script := _ ++ _).
  assert (IsPayToScriptHash script = true) as Hps by (apply IsPayToScriptHash_shape; eauto).
  unfold VerifyScript. pure_eval. destruct (_ && _); [done|].
  destruct (EvalScript flags checker SIGVERSION_BASE [] scriptSig) as [copy|e s|] eqn:E1; [|done|done].
  cbn [rbind]. destruct (EvalScript flags checker SIGVERSION_BASE copy script) as [s|e s|] eqn:E2; [|done|done].
  cbn [rbind]. destruct (require_true s) as [[]|e s0|] eqn:Et; [|done|done]. cbn [rbind].
  destruct (verify_bare_witness _ _ _ _ _ _) as [[s1 had]|e s0|]; [|done|done]. cbn [rbind].
  rewrite Hf, Hps. cbn [andb]. unfold verify_p2sh. pure_eval.
  destruct (IsPushOnly scriptSig); cbn [negb]; [|done]. destruct copy as [|redeem rest]; [done|].
  destruct (EvalScript flags checker SIGVERSION_BASE rest redeem) as [s2|e s2|] eqn:E3; [|done|done].
  cbn [rbind]. destruct (require_true s2) as [[]|e s3|] eqn:E4; [|done|done]. intros _.
  split; [done|]. exists redeem, rest, s2. split_and!; try done.
  apply (EvalScript_P2SH_inv _ _ _ _ _ _ _ Hh) in E2. subst s. cbn in Et.
  case_bool_decide; [done|]. discriminate Et.
Qed.

(** as a truth value a stack element is exactly whether the number it encodes is
    not zero (negative zero included), so the result of a numeric opcode is true
    when the number is. *)
Theorem CastToBool_correct (vch : valtype) (v : Z) :
  bytes_ok vch → - 2 ^ 63 < v < 2 ^ 63 →
  CastToBool vch = negb (ScriptNumFacts.num vch =? 0) ∧
  CastToBool (ScriptNum.getvch v) = negb (v =? 0).
Proof.
  intros Hb Hv. split; [|by apply CastToBool_getvch]. rewrite CastToBool_mag by done. f_equal.
  apply eq_true_iff_eq. rewrite !Z.eqb_eq. unfold ScriptNumFacts.num.
  destruct (ScriptNumFacts.sgn vch); lia.
Qed.

(** the consensus check of a signature's encoding accepts exactly the strict DER
    signatures followed by a hash-type byte: a sequence of two positive integers
    in shortest form, all lengths exact, at most 73 bytes. *)
Theorem IsValidSignatureEncoding_correct (sig : valtype) :
  bytes_ok sig →
  IsValidSignatureEncoding sig = true ↔
  ∃ R S ht, sig = der_signature 0x30 (length R + length S + 4) 0x02 R 0x02 S ht ∧
    bytes_ok R ∧ bytes_ok S ∧ der_integer R = true ∧ der_integer S = true ∧
    length R + length S <= 66.
Proof.
  intros Hb. split.
  - intros E. destruct (IsValidSignatureEncoding_split sig Hb E) as (a0 & a1 & a2 & R & b0 & S & ht & -> & HR & HS).
    rewrite IsValidSignatureEncoding_eval in E by done. bool_to_prop. subst.
    exists R, S, ht. split_and!; done.
  - intros (R & S & ht & -> & HR & HS & DR & DS & Hl). rewrite IsValidSignatureEncoding_eval by done.
    rewrite DR, DS, (proj2 (Z.leb_le _ _)), (proj2 (Z.eqb_eq (_ + _ + 4) _)) by lia. done.
Qed.

(** ** Concrete runs *)

(** A checker that accepts a signature equal to the first bytes of the key. *)
Definition demo_sig_checker : BaseSignatureChecker := {|
  CheckSig sig pubkey _ _ := bool_decide (sig = take 2 pubkey);
  CheckLockTime _ := true; CheckSequence _ := true |}.

Definition demo_key : valtype := 2 :: replicate 32 9.

Lemma EvalScript_limits_witness :
  match @EvalScript toy_hash toy_secp Res res_monad 0 demo_sig_checker SIGVERSION_BASE [[1; 2]] [OP_DUP; OP_SIZE; OP_3] with
  | Ok s' => Forall elem_ok s' ∧ length s' <= MAX_STACK_SIZE ∧ s' = [[3]; [2]; [1; 2]; [1; 2]]
  | _ => False
  end.
Proof.
  pose proof (@EvalScript_limits toy_hash toy_secp 0 demo_sig_checker SIGVERSION_BASE [[1; 2]]
    [OP_DUP; OP_SIZE; OP_3]) as Hl.
  change (@EvalScript toy_hash toy_secp Res res_monad 0 demo_sig_checker SIGVERSION_BASE [[1; 2]] [OP_DUP; OP_SIZE; OP_3])
    with (@Ok (list valtype) [[3]; [2]; [1; 2]; [1; 2]]) in *.
  assert (Forall elem_ok [[1; 2]]) as H1.
  { repeat constructor; unfold MAX_SCRIPT_ELEMENT_SIZE; cbn; lia. }
  assert (bytes_ok [OP_DUP; OP_SIZE; OP_3]) as H2.
  { repeat constructor; unfold OP_DUP, OP_SIZE, OP_3; lia. }
  destruct (Hl H1 ltac:(unfold MAX_STACK_SIZE; cbn; lia) H2). by split_and!.
Defined.

Lemma EvalScript_IsUnspendable_witness :
  ∃ e s', @EvalScript toy_hash toy_secp Res res_monad 0 demo_sig_checker SIGVERSION_BASE [[1]] [OP_RETURN; OP_1] = Err e s'.
Proof.
  exact (@EvalScript_IsUnspendable toy_hash toy_secp 0 demo_sig_checker SIGVERSION_BASE [[1]]
    [OP_RETURN; OP_1] eq_refl).
Defined.

Lemma VerifyScript_no_abort_witness :
  @VerifyScript toy_hash toy_secp Res res_monad (SCRIPT_VERIFY_P2SH .| SCRIPT_VERIFY_WITNESS) demo_sig_checker
    [OP_1] [OP_1] [[5]] ≠ Abort.
Proof.
  apply (@VerifyScript_no_abort toy_hash toy_secp (SCRIPT_VERIFY_P2SH .| SCRIPT_VERIFY_WITNESS)
    demo_sig_checker [OP_1] [OP_1] [[5]]).
  - split; done.
  - repeat constructor; unfold OP_1; lia.
  - repeat constructor; unfold OP_1; lia.
  - repeat constructor; lia.
  - cbn. lia.
Defined.

Lemma P2PKH_spend_witness :
  @EvalScript toy_hash toy_secp Res res_monad 0 demo_sig_checker SIGVERSION_BASE [demo_key; [2; 9]]
    (witness_keyhash_script (@CHash160 toy_hash demo_key)) = Ok [vchTrue].
Proof.
  apply (@P2PKH_spend toy_hash toy_secp 0 demo_sig_checker SIGVERSION_BASE demo_key [2; 9]
    (@CHash160 toy_hash demo_key) []); [reflexivity|unfold MAX_STACK_SIZE; cbn; lia|].
  split_and!; reflexivity.
Defined.

Lemma P2SH_commits_witness :
  @IsPushOnly (push_data [] [OP_1]) = true ∧
  ∃ redeem rest s, @EvalScript toy_hash toy_secp Res res_monad SCRIPT_VERIFY_P2SH demo_sig_checker SIGVERSION_BASE []
      (push_data [] [OP_1]) = Ok (redeem :: rest) ∧
    @CHash160 toy_hash redeem = @CHash160 toy_hash [OP_1] ∧
    @EvalScript toy_hash toy_secp Res res_monad SCRIPT_VERIFY_P2SH demo_sig_checker SIGVERSION_BASE rest redeem = Ok s ∧
    require_true s = Ok tt.
Proof.
  apply (@P2SH_commits toy_hash toy_secp SCRIPT_VERIFY_P2SH demo_sig_checker (push_data [] [OP_1])
    (@CHash160 toy_hash [OP_1]) []); reflexivity.
Defined.

Lemma CastToBool_correct_witness :
  CastToBool [0; 0x80] = false ∧ CastToBool (ScriptNum.getvch (-5)) = true.
Proof.
  destruct (CastToBool_correct [0; 0x80] (-5) ltac:(repeat constructor; lia) ltac:(lia)) as [-> ->].
  split; reflexivity.
Defined.

Lemma IsValidSignatureEncoding_correct_witness :
  IsValidSignatureEncoding [0x30; 6; 2; 1; 5; 2; 1; 7; 1] = true.
Proof.
  apply (IsValidSignatureEncoding_correct [0x30; 6; 2; 1; 5; 2; 1; 7; 1]).
  - repeat constructor; lia.
  - exists [5], [7], 1. do 5 (split; [first [reflexivity|repeat constructor; lia]|]). cbn. lia.
Defined.
