(* ===== verification/SoftFork.v ===== *)
(** * Verification flags only restrict

    Verifying with fewer flags accepts everything that verifying with more flags
    accepts, with the same resulting stack: each flag is a soft fork. *)

From Stdlib Require Import ZArith Lia.
From stdpp Require Import list.
From S2P Require Import Prelude Common Crypto Script Interpreter EvalFacts.

Open Scope Z_scope.
Open Scope word_scope.

(** ** Fewer flags accept more *)

Definition sub_flags (flags' flags : Z) : Prop := flags' .& flags = flags'.

Lemma has_sub (flags' flags f : Z) :
  sub_flags flags' flags → has flags' f = true → has flags f = true.
Proof.
  unfold sub_flags, has. rewrite !negb_true_iff, !Z.eqb_neq. intros E Hne H0. apply Hne.
  by rewrite <- E, <- Z.land_assoc, H0, Z.land_0_r.
Qed.

Lemma has_lor (flags a b : Z) : has flags (a .| b) = has flags a || has flags b.
Proof.
  unfold has. rewrite Z.land_lor_distr_r. rewrite <- negb_andb. f_equal.
  apply eq_true_iff_eq. rewrite andb_true_iff, !Z.eqb_eq. apply Z.lor_eq_0_iff.
Qed.

(** Every success of [r] is one of [r']. *)
Definition accepts {A : Type} (r' r : Res A) : Prop := ∀ a, r = Ok a → r' = Ok a.

Lemma accepts_refl {A : Type} (r : Res A) : accepts r r.
Proof. intros a E. exact E. Qed.

Lemma accepts_err {A : Type} (r' : Res A) (e : ScriptError) (s : list valtype) : accepts r' (Err e s).
Proof. intros a E. discriminate E. Qed.

Lemma accepts_abort {A : Type} (r' : Res A) : accepts r' Abort.
Proof. intros a E. discriminate E. Qed.

Lemma accepts_bind {A B : Type} (m' m : Res A) (k' k : A → Res B) :
  accepts m' m → (∀ a, m = Ok a → accepts (k' a) (k a)) → accepts (rbind m' k') (rbind m k).
Proof.
  intros Hm Hk. destruct m as [a|e s|]; cbn; [|apply accepts_err|apply accepts_abort].
  rewrite (Hm a eq_refl). by apply Hk.
Qed.

(** Case analysis of the stricter side, where an error leaves nothing to show. *)
Ltac rejected :=
  match goal with
  | |- accepts _ (Err _ _) => apply accepts_err
  | |- accepts _ (invalid_stack _) => apply accepts_err
  | |- accepts _ Abort => apply accepts_abort
  end.
Ltac stricter :=
  repeat match goal with
  | |- accepts _ (match ?s with [] => _ | _ => _ end) => destruct s eqn:?; try rejected
  | |- accepts _ (if ?b then Err _ _ else _) => destruct b eqn:?; [rejected|]
  | |- accepts _ (if ?b then invalid_stack _ else _) => destruct b eqn:?; [rejected|]
  end.

Section SoftFork.
Context `{CryptoHash} `{Secp256k1} (flags' flags : Z) (checker : BaseSignatureChecker).
Context (Hsub : sub_flags flags' flags).

(** Dropping a lock-time opcode turns it into an upgradable NOP, which must then
    not be discouraged. *)
Definition nops_ok : Prop :=
  has flags' SCRIPT_VERIFY_DISCOURAGE_UPGRADABLE_NOPS = true →
  has flags' SCRIPT_VERIFY_CHECKLOCKTIMEVERIFY = has flags SCRIPT_VERIFY_CHECKLOCKTIMEVERIFY ∧
  has flags' SCRIPT_VERIFY_CHECKSEQUENCEVERIFY = has flags SCRIPT_VERIFY_CHECKSEQUENCEVERIFY.

Context (Hnops : nops_ok).

(** A test that rejects when a flag is set rejects less often with fewer flags. *)
Lemma reject_sub (f : Z) (c : bool) :
  has flags f && c = false → has flags' f && c = false.
Proof.
  intros E. destruct (has flags' f) eqn:E'; [|done]. apply (has_sub _ flags) in E'; [|done].
  by rewrite E' in E.
Qed.

Lemma reject_sub_mid (f : Z) (a c : bool) :
  a && has flags f && c = false → a && has flags' f && c = false.
Proof.
  destruct a; [|done]. cbn [andb]. apply reject_sub.
Qed.

Lemma read_num_accepts (st : EvalState) (vch : valtype) (k : nat) :
  accepts (read_num flags' st vch k) (read_num flags st vch k).
Proof.
  unfold read_num, fRequireMinimal, ScriptNum.CScriptNum. destruct (_ <? _)%nat; [apply accepts_err|].
  destruct (has flags SCRIPT_VERIFY_MINIMALDATA && _ && _ && _) eqn:E; [apply accepts_err|].
  rewrite <- !andb_assoc in E |- *. rewrite (reject_sub _ _ E). apply accepts_refl.
Qed.

Lemma CheckSignatureEncoding_sub (sig : valtype) :
  CheckSignatureEncoding sig flags = None → CheckSignatureEncoding sig flags' = None.
Proof.
  unfold CheckSignatureEncoding. destruct (_ =? _)%nat; [done|].
  destruct (has flags (_ .| _ .| _) && _) eqn:E1; [done|]. rewrite (reject_sub _ _ E1).
  destruct (if has flags SCRIPT_VERIFY_LOW_S then _ else _) eqn:E2; [done|].
  destruct (has flags SCRIPT_VERIFY_STRICTENC && _) eqn:E3; [done|]. intros _.
  rewrite (reject_sub _ _ E3). destruct (has flags' SCRIPT_VERIFY_LOW_S) eqn:E4; [|done].
  apply (has_sub _ flags) in E4; [|done]. rewrite E4 in E2. by rewrite E2.
Qed.

Lemma check_encodings_sub (sigversion : SigVersion) (sig pubkey : valtype) :
  check_encodings flags sigversion sig pubkey = None → check_encodings flags' sigversion sig pubkey = None.
Proof.
  unfold check_encodings. destruct (CheckSignatureEncoding sig flags) eqn:E; [done|].
  rewrite (CheckSignatureEncoding_sub _ E). unfold CheckPubKeyEncoding.
  destruct (has flags SCRIPT_VERIFY_STRICTENC && _) eqn:E1; [done|]. rewrite (reject_sub _ _ E1).
  destruct (has flags SCRIPT_VERIFY_WITNESS_PUBKEYTYPE && _ && _) eqn:E2; [done|].
  rewrite <- andb_assoc in E2 |- *. by rewrite (reject_sub _ _ E2).
Qed.

Lemma locktime_accepts (f : Z) (st : EvalState) (body' body : Res EvalState) :
  (has flags' SCRIPT_VERIFY_DISCOURAGE_UPGRADABLE_NOPS = true → has flags' f = has flags f) →
  accepts body' body → (∀ a, body = Ok a → a = st) →
  accepts
    (if negb (has flags' f) then
       if has flags' SCRIPT_VERIFY_DISCOURAGE_UPGRADABLE_NOPS
       then Err SCRIPT_ERR_DISCOURAGE_UPGRADABLE_NOPS (stack st) else Ok st
     else body')
    (if negb (has flags f) then
       if has flags SCRIPT_VERIFY_DISCOURAGE_UPGRADABLE_NOPS
       then Err SCRIPT_ERR_DISCOURAGE_UPGRADABLE_NOPS (stack st) else Ok st
     else body).
Proof.
  intros Hf Hbody Hst. pose proof (has_sub flags' flags f Hsub) as Hhas.
  pose proof (has_sub flags' flags SCRIPT_VERIFY_DISCOURAGE_UPGRADABLE_NOPS Hsub) as HhasD.
  destruct (has flags' f) eqn:E'; cbn [negb].
  { rewrite (Hhas eq_refl). done. }
  destruct (has flags f) eqn:E; cbn [negb].
  - intros a Ha. rewrite (Hst a Ha).
    destruct (has flags' SCRIPT_VERIFY_DISCOURAGE_UPGRADABLE_NOPS); [|done]. by specialize (Hf eq_refl).
  - destruct (has flags SCRIPT_VERIFY_DISCOURAGE_UPGRADABLE_NOPS); [apply accepts_err|].
    destruct (has flags' SCRIPT_VERIFY_DISCOURAGE_UPGRADABLE_NOPS); [by specialize (HhasD eq_refl)|].
    apply accepts_refl.
Qed.

Lemma op_locktime_accepts (st : EvalState) :
  accepts (op_checklocktimeverify flags' checker st) (op_checklocktimeverify flags checker st) ∧
  accepts (op_checksequenceverify flags' checker st) (op_checksequenceverify flags checker st) ∧
  accepts (op_upgradable_nop flags' st) (op_upgradable_nop flags st).
Proof.
  unfold nops_ok in Hnops. unfold op_checklocktimeverify, op_checksequenceverify. pure_eval. split_and!.
  - apply locktime_accepts; [apply Hnops| |].
    + stricter. apply accepts_bind; [apply read_num_accepts|intros; apply accepts_refl].
    + intros a. destruct (stack st); [done|]. destruct (read_num _ _ _ _); cbn; [|done|done].
      repeat case_match; by intros [= <-].
  - apply locktime_accepts; [apply Hnops| |].
    + stricter. apply accepts_bind; [apply read_num_accepts|intros; apply accepts_refl].
    + intros a. destruct (stack st); [done|]. destruct (read_num _ _ _ _); cbn; [|done|done].
      repeat case_match; by intros [= <-].
  - unfold op_upgradable_nop.
    destruct (has flags SCRIPT_VERIFY_DISCOURAGE_UPGRADABLE_NOPS) eqn:E; [apply accepts_err|].
    destruct (has flags' SCRIPT_VERIFY_DISCOURAGE_UPGRADABLE_NOPS) eqn:E'; [|apply accepts_refl]. apply (has_sub _ flags) in E'; [|done]. congruence.
Qed.

Context (sigversion : SigVersion).

Lemma op_if_accepts (opcode : opcodetype) (fExec : bool) (st : EvalState) :
  accepts (op_if flags' sigversion opcode fExec st) (op_if flags sigversion opcode fExec st).
Proof.
  unfold op_if. destruct (negb fExec); [apply accepts_refl|]. stricter.
  match goal with E : _ && has flags _ && _ = false |- _ => apply reject_sub_mid in E; rewrite E end.
  apply accepts_refl.
Qed.

Lemma op_pick_roll_accepts (opcode : opcodetype) (st : EvalState) :
  accepts (op_pick_roll flags' opcode st) (op_pick_roll flags opcode st).
Proof.
  unfold op_pick_roll. stricter. apply accepts_bind; [apply read_num_accepts|intros; apply accepts_refl].
Qed.

Lemma op_numeric_accepts (opcode : opcodetype) (st : EvalState) :
  accepts (op_unary flags' opcode st) (op_unary flags opcode st) ∧
  accepts (op_binary flags' opcode st) (op_binary flags opcode st) ∧
  accepts (op_within flags' st) (op_within flags st).
Proof.
  unfold op_unary, op_binary, op_within. split_and!; stricter;
    repeat (apply accepts_bind; [apply read_num_accepts|intros]); intros; apply accepts_refl.
Qed.

Lemma op_checksig_accepts (opcode : opcodetype) (st : EvalState) :
  accepts (op_checksig flags' checker sigversion opcode st) (op_checksig flags checker sigversion opcode st).
Proof.
  unfold op_checksig. pure_eval. cbn [rbind]. stricter. destruct (check_encodings flags _ _ _) eqn:E; [apply accepts_err|].
  rewrite (check_encodings_sub _ _ _ E). stricter.
  match goal with E : _ && has flags _ && _ = false |- _ => apply reject_sub_mid in E; rewrite E end.
  apply accepts_refl.
Qed.

Lemma multisig_loop_accepts (fuel : nat) (st : EvalState) (code : CScript) (isig ikey nsig nkey : Z) :
  accepts (multisig_loop flags' checker sigversion fuel st code isig ikey nsig nkey)
          (multisig_loop flags checker sigversion fuel st code isig ikey nsig nkey).
Proof.
  revert isig ikey nsig nkey. induction fuel as [|fuel IH]; intros; cbn [multisig_loop]; pure_eval; cbn [rbind]; [apply accepts_err|].
  destruct (nsig >? 0); [|apply accepts_refl].
  destruct (stack st !! _); [|apply accepts_err]. destruct (stack st !! _); [|apply accepts_err].
  destruct (check_encodings flags _ _ _) eqn:E; [apply accepts_err|]. rewrite (check_encodings_sub _ _ _ E).
  destruct (_ >? _); [apply accepts_refl|apply IH].
Qed.

Lemma multisig_cleanup_accepts (n : nat) (ok : bool) (ikey2 : Z) (s : list valtype) :
  accepts (multisig_cleanup flags' n ok ikey2 s) (multisig_cleanup flags n ok ikey2 s).
Proof.
  revert ikey2 s. induction n as [|n IH]; intros ikey2 s; cbn [multisig_cleanup]; [apply accepts_refl|].
  stricter.
  match goal with E : _ && has flags _ && _ && _ = false |- _ =>
    rewrite <- !andb_assoc, (andb_assoc (negb ok)) in E; apply reject_sub_mid in E;
    rewrite <- !andb_assoc, (andb_assoc (negb ok)); rewrite E end.
  apply IH.
Qed.

Lemma op_checkmultisig_accepts (opcode : opcodetype) (st : EvalState) :
  accepts (op_checkmultisig flags' checker sigversion opcode st)
          (op_checkmultisig flags checker sigversion opcode st).
Proof.
  unfold op_checkmultisig. pure_eval. stricter. apply accepts_bind; [apply read_num_accepts|intros nk _]. stricter.
  apply accepts_bind; [apply read_num_accepts|intros ns _]. stricter.
  apply accepts_bind; [apply multisig_loop_accepts|intros ok _].
  apply accepts_bind; [apply multisig_cleanup_accepts|intros s' _]. stricter.
  match goal with E : has flags _ && _ = false |- _ => apply reject_sub in E; rewrite E end.
  apply accepts_refl.
Qed.

Lemma eval_opcode_accepts (fExec : bool) (op : opcodetype) (pc : list Z) (st : EvalState) :
  accepts (eval_opcode flags' checker sigversion fExec op pc st)
          (eval_opcode flags checker sigversion fExec op pc st).
Proof.
  unfold eval_opcode. pure_eval. destruct (op_locktime_accepts st) as (? & ? & ?).
  destruct (op_numeric_accepts op st) as (? & ? & ?).
  pose proof (op_if_accepts op fExec st). pose proof (op_pick_roll_accepts op st).
  pose proof (op_checksig_accepts op st). pose proof (op_checkmultisig_accepts op st).
  repeat match goal with
  | |- accepts _ (if ?b then _ else _) => destruct b eqn:?; [first [assumption|apply accepts_refl]|]
  end. apply accepts_err.
Qed.

Lemma eval_step_accepts (pc : list Z) (st : EvalState) :
  accepts (eval_step flags' checker sigversion pc st) (eval_step flags checker sigversion pc st).
Proof.
  unfold eval_step. pure_eval. destruct (GetOp pc) as [[[op v]|] pc']; [|apply accepts_err]. stricter.
  apply accepts_bind; [|intros; apply accepts_refl]. unfold exec_opcode. pure_eval. destruct (_ && _ && _).
  - unfold fRequireMinimal. destruct (has flags SCRIPT_VERIFY_MINIMALDATA && _) eqn:E; [apply accepts_err|].
    rewrite (reject_sub _ _ E). apply accepts_refl.
  - destruct (_ || _); [apply eval_opcode_accepts|apply accepts_refl].
Qed.

Lemma EvalScript_accepts (s : list valtype) (script : CScript) :
  accepts (EvalScript flags' checker sigversion s script) (EvalScript flags checker sigversion s script).
Proof.
  unfold EvalScript. pure_eval. destruct (_ <? _); [apply accepts_err|].
  apply accepts_bind; [|intros; apply accepts_refl].
  generalize (length script), (mkEval s [] [] 0 script). intros fuel. revert script.
  induction fuel as [|fuel IH]; intros pc st; cbn [EvalScript_loop]; pure_eval; [apply accepts_refl|].
  destruct pc as [|x pc0]; [apply accepts_refl|].
  apply accepts_bind; [apply eval_step_accepts|]. intros [pc' st'] _. apply IH.
Qed.
End SoftFork.

Section SoftForkVerify.
Context `{CryptoHash} `{Secp256k1} (flags' flags : Z) (checker : BaseSignatureChecker).
Context (Hsub : sub_flags flags' flags) (Hnops : nops_ok flags' flags).

Lemma VerifyWitnessProgram_accepts (witness : list valtype) (version : Z) (program : valtype) :
  accepts (VerifyWitnessProgram flags' checker witness version program)
          (VerifyWitnessProgram flags checker witness version program).
Proof.
  assert (∀ s script, accepts (run_witness_script flags' checker s script)
                              (run_witness_script flags checker s script)) as Hrun.
  { intros s script. unfold run_witness_script. pure_eval. stricter.
    apply accepts_bind; [by apply EvalScript_accepts|intros; apply accepts_refl]. }
  unfold VerifyWitnessProgram. pure_eval. destruct (version =? 0).
  - destruct (_ =? _)%nat.
    + destruct (reverse witness); [apply accepts_err|]. case_bool_decide; [apply Hrun|apply accepts_err].
    + destruct (_ =? _)%nat; [|apply accepts_err]. destruct (negb _); [apply accepts_err|apply Hrun].
  - destruct (has flags _) eqn:E; [apply accepts_err|].
    destruct (has flags' _) eqn:E'; [|apply accepts_refl].
    apply (has_sub _ flags) in E'; [congruence|done].
Qed.

(** With the witness flag on both sides the two runs take the same path. *)
Lemma VerifyScript_accepts_witness (scriptSig scriptPubKey : CScript) (witness : list valtype) :
  flags_ok flags' → has flags' SCRIPT_VERIFY_WITNESS = true →
  accepts (VerifyScript flags' checker scriptSig scriptPubKey witness)
          (VerifyScript flags checker scriptSig scriptPubKey witness).
Proof.
  intros [_ Hw] EW'. pose proof (Hw EW') as EP'.
  pose proof (has_sub _ flags _ Hsub EW') as EW. pose proof (has_sub _ flags _ Hsub EP') as EP.
  unfold VerifyScript, verify_bare_witness, verify_p2sh. pure_eval. rewrite EW, EP, EW', EP'.
  destruct (has flags SCRIPT_VERIFY_SIGPUSHONLY && _) eqn:E1; [apply accepts_err|].
  rewrite (reject_sub _ _ Hsub _ _ E1).
  apply accepts_bind; [by apply EvalScript_accepts|]. intros copy _.
  apply accepts_bind; [by apply EvalScript_accepts|]. intros s _.
  apply accepts_bind; [apply accepts_refl|]. intros _ _.
  apply accepts_bind.
  { destruct (IsWitnessProgram scriptPubKey) as [[v prog]|]; [|apply accepts_refl]. stricter.
    apply accepts_bind; [apply VerifyWitnessProgram_accepts|intros; apply accepts_refl]. }
  intros [s1 had] _. apply accepts_bind.
  { cbn [andb]. destruct (IsPayToScriptHash scriptPubKey); [|apply accepts_refl]. stricter.
    apply accepts_bind; [by apply EvalScript_accepts|]. intros s2 _.
    apply accepts_bind; [apply accepts_refl|]. intros _ _.
    destruct (IsWitnessProgram _) as [[v prog]|]; [|apply accepts_refl]. stricter.
    apply accepts_bind; [apply VerifyWitnessProgram_accepts|intros; apply accepts_refl]. }
  intros [s2 had2] _. apply accepts_bind; [|intros; apply accepts_refl]. cbn [assert_ rbind].
  destruct (has flags' SCRIPT_VERIFY_CLEANSTACK) eqn:EC'.
  - rewrite (has_sub _ flags _ Hsub EC'). apply accepts_refl.
  - intros [] _. done.
Qed.

(** Without it, only the evaluation of the scripts remains. *)
Lemma VerifyScript_accepts_legacy (scriptSig scriptPubKey : CScript) (witness : list valtype) :
  flags_ok flags' → has flags' SCRIPT_VERIFY_WITNESS = false →
  VerifyScript flags checker scriptSig scriptPubKey witness = Ok tt →
  VerifyScript flags' checker scriptSig scriptPubKey witness = Ok tt.
Proof.
  intros [Hclean _] EW'. assert (has flags' SCRIPT_VERIFY_CLEANSTACK = false) as EC'.
  { destruct (has flags' SCRIPT_VERIFY_CLEANSTACK); [|done]. destruct (Hclean eq_refl). congruence. }
  unfold VerifyScript, verify_bare_witness, verify_p2sh. pure_eval. rewrite EW', EC'.
  destruct (has flags SCRIPT_VERIFY_SIGPUSHONLY && _) eqn:E1; [done|].
  rewrite (reject_sub _ _ Hsub _ _ E1).
  destruct (EvalScript flags checker SIGVERSION_BASE [] scriptSig) as [copy|e s|] eqn:E2; [|done|done].
  rewrite (EvalScript_accepts _ _ _ Hsub Hnops _ _ _ _ E2). cbn [rbind].
  destruct (EvalScript flags checker SIGVERSION_BASE copy scriptPubKey) as [s|e s|] eqn:E3; [|done|done].
  rewrite (EvalScript_accepts _ _ _ Hsub Hnops _ _ _ _ E3). cbn [rbind].
  destruct (require_true s) as [[]|e s0|]; [|done|done]. cbn [rbind].
  destruct (if has flags SCRIPT_VERIFY_WITNESS then _ else _) as [[v prog]|].
  all: destruct (has flags' SCRIPT_VERIFY_P2SH && IsPayToScriptHash scriptPubKey) eqn:EP'; [|done].
  all: apply andb_prop in EP' as [EP' ->]; rewrite (has_sub _ flags _ Hsub EP'); cbn [andb].
  - destruct (negb (length scriptSig =? 0)%nat); [done|].
    destruct (VerifyWitnessProgram flags checker witness v prog) as [[]|e0 s0|]; [|done|done]. cbn [rbind].
    destruct (negb (IsPushOnly scriptSig)); [done|]. destruct copy as [|pubKey2 s0]; [done|].
    destruct (EvalScript flags checker SIGVERSION_BASE s0 pubKey2) as [s2|e s2|] eqn:E4; [|done|done].
    rewrite (EvalScript_accepts _ _ _ Hsub Hnops _ _ _ _ E4). cbn [rbind].
    by destruct (require_true s2) as [[]|e s3|].
  - cbn [rbind]. destruct (negb (IsPushOnly scriptSig)); [done|]. destruct copy as [|pubKey2 s0]; [done|].
    destruct (EvalScript flags checker SIGVERSION_BASE s0 pubKey2) as [s2|e s2|] eqn:E4; [|done|done].
    rewrite (EvalScript_accepts _ _ _ Hsub Hnops _ _ _ _ E4). cbn [rbind].
    by destruct (require_true s2) as [[]|e s3|].
Qed.

Lemma VerifyScript_accepts (scriptSig scriptPubKey : CScript) (witness : list valtype) :
  flags_ok flags' →
  VerifyScript flags checker scriptSig scriptPubKey witness = Ok tt →
  VerifyScript flags' checker scriptSig scriptPubKey witness = Ok tt.
Proof.
  intros Hok E. destruct (has flags' SCRIPT_VERIFY_WITNESS) eqn:EW.
  - by apply VerifyScript_accepts_witness.
  - by apply VerifyScript_accepts_legacy.
Qed.
End SoftForkVerify.

(** ** Properties *)

(** C23: dropping verification flags only accepts more, within two restrictions.  A spend that [VerifyScript] accepts under some
    flags is accepted under every subset of them that satisfies the combinations the code asserts ([flags_ok]: clean stack
    only with P2SH and witness, witness only with P2SH) and that, if it keeps the policy flag
    [SCRIPT_VERIFY_DISCOURAGE_UPGRADABLE_NOPS], keeps or lacks the two lock-time flags as the larger set does ([nops_ok]).  The second
    restriction is needed: see [discouraged_nop_rejects]. *)
Theorem VerifyScript_soft_fork `{CryptoHash} `{Secp256k1} (flags' flags : Z)
    (checker : BaseSignatureChecker) (scriptSig scriptPubKey : CScript) (witness : list valtype) :
  sub_flags flags' flags → nops_ok flags' flags → flags_ok flags' →
  VerifyScript flags checker scriptSig scriptPubKey witness = Ok tt →
  VerifyScript flags' checker scriptSig scriptPubKey witness = Ok tt.
Proof. intros. by apply (VerifyScript_accepts flags' flags). Qed.

(** Dropping only the lock-time flag leaves a discouraged NOP, and a spend that was accepted is rejected. *)
Example discouraged_nop_rejects :
  let verify flags := @VerifyScript toy_hash toy_secp Res res_monad flags demo_sig_checker [OP_1] [OP_CHECKLOCKTIMEVERIFY] [] in
  verify (SCRIPT_VERIFY_CHECKLOCKTIMEVERIFY .| SCRIPT_VERIFY_DISCOURAGE_UPGRADABLE_NOPS) = Ok tt ∧
  ∃ s, verify SCRIPT_VERIFY_DISCOURAGE_UPGRADABLE_NOPS = Err SCRIPT_ERR_DISCOURAGE_UPGRADABLE_NOPS s.
Proof. split; [reflexivity|]. eexists. reflexivity. Qed.

Lemma VerifyScript_soft_fork_witness :
  @VerifyScript toy_hash toy_secp Res res_monad SCRIPT_VERIFY_P2SH demo_sig_checker (push_data [] [OP_1])
    ([OP_HASH160; 0x14] ++ @CHash160 toy_hash [OP_1] ++ [OP_EQUAL]) [] = Ok tt.
Proof.
  apply (@VerifyScript_soft_fork toy_hash toy_secp SCRIPT_VERIFY_P2SH
    (SCRIPT_VERIFY_P2SH .| SCRIPT_VERIFY_STRICTENC .| SCRIPT_VERIFY_CHECKLOCKTIMEVERIFY)).
  - reflexivity.
  - intros E. discriminate E.
  - split; intros E; discriminate E.
  - reflexivity.
Defined.
