(* ===== verification/Serialize.v ===== *)
(** * Serialization ([src/src/serialize.h], [src/src/streams.h])

    A stream being read is the list of its remaining bytes; reading returns
    [None] where the code throws [std::ios_base::failure].  What a [Serialize]
    overload writes is a byte list, and what it tells a [CSizeComputer] a number.
    A [Codec] bundles the three overloads for one type; [Codec_ok] is the law the
    rest of the program relies on, and [Codec_canonical] its converse for the
    formats with one encoding per value. *)

From Stdlib Require Import ZArith Lia.
From stdpp Require Import list option.
From S2P Require Import Prelude Common.

Open Scope Z_scope.
Open Scope word_scope.

(** ** Streams *)

(** Bytes available to the reader; a read beyond the end throws. *)
Definition read (n : nat) (s : list Z) : option (list Z * list Z) :=
  if (n <=? length s)%nat then Some (take n s, drop n s) else None.

(** The memory stream: its buffer and the position of the reader in it. *)
Record CDataStream := { vch : list Z; nReadPos : Z }.

Definition CDataStream_read (st : CDataStream) (nSize : Z) : option (list Z * CDataStream) :=
  if nSize =? 0 then Some ([], st)
  else
    let nReadPosNext := u32 (nReadPos st + nSize) in
    let data := take (Z.to_nat nSize) (drop (Z.to_nat (nReadPos st)) (vch st)) in
    if length (vch st) <=? nReadPosNext then
      if length (vch st) <? nReadPosNext then None
      else Some (data, {| vch := []; nReadPos := 0 |})
    else Some (data, {| vch := vch st; nReadPos := nReadPosNext |}).

Definition CDataStream_ignore (st : CDataStream) (nSize : Z) : option CDataStream :=
  if nSize <? 0 then None
  else
    let nReadPosNext := u32 (nReadPos st + nSize) in
    if length (vch st) <=? nReadPosNext then
      if length (vch st) <? nReadPosNext then None
      else Some {| vch := []; nReadPos := 0 |}
    else Some {| vch := vch st; nReadPos := nReadPosNext |}.

Definition CDataStream_write (st : CDataStream) (data : list Z) : CDataStream :=
  {| vch := vch st ++ data; nReadPos := nReadPos st |}.

(** ** Integers *)

Definition ser_writedata8 (obj : Z) : list Z := [u8 obj].
Definition ser_writedata16 (obj : Z) : list Z := WriteLE16 obj.
Definition ser_writedata32 (obj : Z) : list Z := WriteLE32 obj.
Definition ser_writedata64 (obj : Z) : list Z := WriteLE64 obj.

Definition ser_readdata8 (s : list Z) : option (Z * list Z) :=
  '(b, s) ← read 1 s; Some (b.[0], s).
Definition ser_readdata16 (s : list Z) : option (Z * list Z) :=
  '(b, s) ← read 2 s; Some (ReadLE16 b, s).
Definition ser_readdata32 (s : list Z) : option (Z * list Z) :=
  '(b, s) ← read 4 s; Some (ReadLE32 b, s).
Definition ser_readdata64 (s : list Z) : option (Z * list Z) :=
  '(b, s) ← read 8 s; Some (ReadLE64 b, s).

(** ** Compact sizes *)

Definition MAX_SIZE : Z := 0x02000000.

Definition GetSizeOfCompactSize (nSize : Z) : Z :=
  if nSize <? 253 then 1
  else if nSize <=? 0xffff then 1 + 2
  else if nSize <=? 0xffffffff then 1 + 4
  else 1 + 8.

Definition WriteCompactSize (nSize : Z) : list Z :=
  if nSize <? 253 then ser_writedata8 nSize
  else if nSize <=? 0xffff then ser_writedata8 253 ++ ser_writedata16 nSize
  else if nSize <=? 0xffffffff then ser_writedata8 254 ++ ser_writedata32 nSize
  else ser_writedata8 255 ++ ser_writedata64 nSize.

Definition ReadCompactSize (s : list Z) : option (Z * list Z) :=
  '(chSize, s) ← ser_readdata8 s;
  '(nSizeRet, s) ←
    (if chSize <? 253 then Some (chSize, s)
     else if chSize =? 253 then
       '(n, s) ← ser_readdata16 s; if n <? 253 then None else Some (n, s)
     else if chSize =? 254 then
       '(n, s) ← ser_readdata32 s; if n <? 0x10000 then None else Some (n, s)
     else
       '(n, s) ← ser_readdata64 s; if n <? 0x100000000 then None else Some (n, s));
  if MAX_SIZE <? nSizeRet then None else Some (nSizeRet, s).

(** ** Variable-length integers

    For an unsigned type of [w] bits; [WriteVarInt_loop] fills [tmp] from the least
    significant digit, and the bytes leave in the opposite order. *)

Fixpoint GetSizeOfVarInt_loop (fuel : nat) (n nRet : Z) : Z :=
  match fuel with
  | O => nRet
  | S fuel' =>
      let nRet := nRet + 1 in
      if n <=? 0x7F then nRet else GetSizeOfVarInt_loop fuel' ((n .>> 7) - 1) nRet
  end.

Definition GetSizeOfVarInt (w n : Z) : Z := GetSizeOfVarInt_loop (Z.to_nat w) n 0.

Fixpoint WriteVarInt_loop (fuel : nat) (n : Z) (tmp : list Z) : list Z :=
  match fuel with
  | O => tmp
  | S fuel' =>
      let tmp := ((n .& 0x7F) .| (if (length tmp =? 0)%nat then 0x00 else 0x80)) :: tmp in
      if n <=? 0x7F then tmp else WriteVarInt_loop fuel' ((n .>> 7) - 1) tmp
  end.

Definition WriteVarInt (w n : Z) : list Z := WriteVarInt_loop (Z.to_nat w) n [].

Fixpoint ReadVarInt_loop (fuel : nat) (w n : Z) (s : list Z) : option (Z * list Z) :=
  match fuel with
  | O => None
  | S fuel' =>
      '(chData, s) ← ser_readdata8 s;
      if ((2 ^ w - 1) .>> 7) <? n then None
      else
        let n := wrap w (n .<< 7) .| (chData .& 0x7F) in
        if negb (chData .& 0x80 =? 0) then
          if n =? 2 ^ w - 1 then None else ReadVarInt_loop fuel' w (n + 1) s
        else Some (n, s)
  end.

(** Every iteration consumes a byte, so the length of the stream is fuel enough. *)
Definition ReadVarInt (w : Z) (s : list Z) : option (Z * list Z) :=
  ReadVarInt_loop (S (length s)) w 0 s.

(** ** Codecs *)

Record Codec (A : Type) := {
  Serialize : A → list Z;
  Unserialize : list Z → option (A * list Z);
  GetSerializeSize : A → Z
}.
Arguments Serialize {A} _ _.
Arguments Unserialize {A} _ _.
Arguments GetSerializeSize {A} _ _.

(** The integer overloads; a signed value travels as its two's complement. *)
Definition ser_uint8 : Codec Z := {|
  Serialize := ser_writedata8; Unserialize := ser_readdata8; GetSerializeSize := λ _, 1 |}.
Definition ser_uint16 : Codec Z := {|
  Serialize := ser_writedata16; Unserialize := ser_readdata16; GetSerializeSize := λ _, 2 |}.
Definition ser_uint32 : Codec Z := {|
  Serialize := ser_writedata32; Unserialize := ser_readdata32; GetSerializeSize := λ _, 4 |}.
Definition ser_uint64 : Codec Z := {|
  Serialize := ser_writedata64; Unserialize := ser_readdata64; GetSerializeSize := λ _, 8 |}.
Definition ser_int32 : Codec Z := {|
  Serialize := ser_writedata32;
  Unserialize s := '(a, s) ← ser_readdata32 s; Some (i32 a, s);
  GetSerializeSize := λ _, 4 |}.
Definition ser_int64 : Codec Z := {|
  Serialize := ser_writedata64;
  Unserialize s := '(a, s) ← ser_readdata64 s; Some (i64 a, s);
  GetSerializeSize := λ _, 8 |}.
Definition ser_bool : Codec bool := {|
  Serialize (a : bool) := ser_writedata8 (if a then 1 else 0);
  Unserialize s := '(f, s) ← ser_readdata8 s; Some (negb (f =? 0), s);
  GetSerializeSize := λ _, 1 |}.

(** [VARINT(obj)] and [COMPACTSIZE(obj)]. *)
Definition CVarInt (w : Z) : Codec Z := {|
  Serialize := WriteVarInt w; Unserialize := ReadVarInt w; GetSerializeSize := GetSizeOfVarInt w |}.
Definition CCompactSize : Codec Z := {|
  Serialize := WriteCompactSize; Unserialize := ReadCompactSize;
  GetSerializeSize := GetSizeOfCompactSize |}.

(** [FLATDATA] of [n] bytes, and [base_blob::Serialize]. *)
Definition CFlatData (n : nat) : Codec (list Z) := {|
  Serialize a := a; Unserialize := read n; GetSerializeSize a := length a |}.

(** Byte vectors and prevectors: read in blocks of at most 5000000 bytes. *)
Fixpoint read_blocks (fuel : nat) (nSize i : Z) (v s : list Z) : option (list Z * list Z) :=
  if i <? nSize then
    match fuel with
    | O => None
    | S fuel' =>
        let blk := Z.min (nSize - i) (1 + 4999999) in
        '(b, s) ← read (Z.to_nat blk) s;
        read_blocks fuel' nSize (i + blk) (v ++ b) s
    end
  else Some (v, s).

Definition ser_bytes : Codec (list Z) := {|
  Serialize v := WriteCompactSize (length v) ++ v;
  Unserialize s :=
    '(nSize, s) ← ReadCompactSize s;
    read_blocks (Z.to_nat (nSize / 5000000 + 1)) nSize 0 [] s;
  GetSerializeSize v := GetSizeOfCompactSize (length v) + length v |}.

(** Vectors of other elements: [chunk] stands for [5000000 / sizeof(T)], the number of
    elements the vector grows by at a time. *)
Fixpoint Unserialize_n {A : Type} (c : Codec A) (n : nat) (s : list Z) : option (list A * list Z) :=
  match n with
  | O => Some ([], s)
  | S n' =>
      '(a, s) ← Unserialize c s;
      '(l, s) ← Unserialize_n c n' s;
      Some (a :: l, s)
  end.

Fixpoint Unserialize_chunks {A : Type} (c : Codec A) (chunk : Z) (fuel : nat) (nSize nMid : Z)
    (v : list A) (s : list Z) : option (list A * list Z) :=
  if nMid <? nSize then
    match fuel with
    | O => None
    | S fuel' =>
        let i := nMid in
        let nMid := nMid + chunk in
        let nMid := if nSize <? nMid then nSize else nMid in
        '(l, s) ← Unserialize_n c (Z.to_nat (nMid - i)) s;
        Unserialize_chunks c chunk fuel' nSize nMid (v ++ l) s
    end
  else Some (v, s).

Definition ser_vector {A : Type} (chunk : Z) (c : Codec A) : Codec (list A) := {|
  Serialize v := WriteCompactSize (length v) ++ concat (Serialize c <$> v);
  Unserialize s :=
    '(nSize, s) ← ReadCompactSize s;
    Unserialize_chunks c chunk (Z.to_nat (nSize / chunk + 1)) nSize 0 [] s;
  GetSerializeSize v := GetSizeOfCompactSize (length v) + foldr (λ a acc, GetSerializeSize c a + acc) 0 v |}.

Definition ser_pair {A B : Type} (ca : Codec A) (cb : Codec B) : Codec (A * B) := {|
  Serialize item := Serialize ca item.1 ++ Serialize cb item.2;
  Unserialize s :=
    '(a, s) ← Unserialize ca s;
    '(b, s) ← Unserialize cb s;
    Some ((a, b), s);
  GetSerializeSize item := GetSerializeSize ca item.1 + GetSerializeSize cb item.2 |}.

(** A class whose [SerializationOp] reads and writes its members in the same order
    is the codec of the tuple of members. *)
Definition ser_via {A B : Type} (to : A → B) (from : B → A) (c : Codec B) : Codec A := {|
  Serialize a := Serialize c (to a);
  Unserialize s := '(b, s) ← Unserialize c s; Some (from b, s);
  GetSerializeSize a := GetSerializeSize c (to a) |}.

(** The two laws: what was written is read back, leaving the rest of the stream and
    announcing the right size; and what was read is what would be written. *)
Class Codec_ok {A : Type} (c : Codec A) (valid : A → Prop) : Prop := {
  ser_roundtrip (a : A) (rest : list Z) :
    valid a → Unserialize c (Serialize c a ++ rest) = Some (a, rest);
  ser_size (a : A) : valid a → GetSerializeSize c a = length (Serialize c a);
  ser_bytes_ok (a : A) : valid a → bytes_ok (Serialize c a)
}.

Class Codec_canonical {A : Type} (c : Codec A) (valid : A → Prop) : Prop :=
  ser_canonical (s : list Z) (a : A) (rest : list Z) :
    bytes_ok s → Unserialize c s = Some (a, rest) → valid a ∧ s = Serialize c a ++ rest.

(** ** Reading back *)

Lemma read_app (n : nat) (b rest : list Z) : length b = n → read n (b ++ rest) = Some (b, rest).
Proof.
  intros <-. unfold read. rewrite length_app.
  rewrite (proj2 (Nat.leb_le _ _)) by lia. by rewrite take_app_length, drop_app_length.
Qed.

Lemma read_inv (n : nat) (s b rest : list Z) :
  read n s = Some (b, rest) → s = b ++ rest ∧ length b = n.
Proof.
  unfold read. case_if; bool_to_prop; intros [= <- <-].
  by rewrite take_drop, length_take_le.
Qed.

Lemma le_val_word (n : nat) (b : list Z) :
  length b = n → bytes_ok b → is_word (8 * n) (le_val 8 b) ∧ le_digits 8 n (le_val 8 b) = b.
Proof.
  intros <- Hb. split; [by apply le_val_range|by apply le_digits_le_val].
Qed.

Lemma readdata_inv (n : nat) (s b rest : list Z) :
  bytes_ok s → read n s = Some (b, rest) →
  bytes_ok rest ∧ is_word (8 * n) (le_val 8 (take n b)) ∧
  s = le_digits 8 n (le_val 8 (take n b)) ++ rest.
Proof.
  intros Hs [-> Hn]%read_inv. apply Forall_app in Hs as [Hb Hr].
  rewrite firstn_all2 by lia. destruct (le_val_word n b Hn Hb) as [Hw E]. by rewrite E.
Qed.

Lemma readdata_app (n : nat) (x : Z) (rest : list Z) :
  is_word (8 * n) x → ∃ b, read n (le_digits 8 n x ++ rest) = Some (b, rest) ∧ le_val 8 (take n b) = x.
Proof.
  intros Hx. eexists. split; [apply read_app, length_le_digits|].
  rewrite <- (app_nil_r (le_digits _ _ _)). by apply ReadLE_Write.
Qed.

Lemma aget0_le_val (b : list Z) : length b = 1%nat → b.[0] = le_val 8 (take 1 b).
Proof. destruct b as [|x [|]]; intros [=]. cbn. lia. Qed.

Lemma ser_readdata8_cons (b : Z) (s : list Z) : ser_readdata8 (b :: s) = Some (b, s).
Proof. done. Qed.

Lemma ser_readdata8_inv (s : list Z) (b : Z) (rest : list Z) :
  ser_readdata8 s = Some (b, rest) → s = b :: rest.
Proof. destruct s as [|x s]; [done|]. rewrite ser_readdata8_cons. by intros [= -> ->]. Qed.

(** The four unsigned widths at once. *)
Lemma ser_word_ok (n : nat) (c : Codec Z) :
  (∀ x, is_word (8 * n) x → Serialize c x = le_digits 8 n x) →
  (∀ s, Unserialize c s = '(b, s) ← read n s; Some (le_val 8 (take n b), s)) →
  (∀ x, GetSerializeSize c x = n) →
  Codec_ok c (is_word (8 * n)) ∧ Codec_canonical c (is_word (8 * n)).
Proof.
  intros Hs Hu Hz. split; [split|].
  - intros a rest Ha. rewrite Hs, Hu by done. destruct (readdata_app n a rest Ha) as (b & -> & E).
    ocbn. by rewrite E.
  - intros a Ha. rewrite Hz, Hs by done. by rewrite length_le_digits.
  - intros a Ha. rewrite Hs by done. by apply le_digits_words.
  - intros s a rest Hb. rewrite Hu. destruct (read n s) as [[b r]|] eqn:E; [|done]. ocbn. intros [= <- <-].
    destruct (readdata_inv n s b r Hb E) as (_ & Hw & E'). by rewrite Hs by done.
Qed.

Lemma read1_aget (s : list Z) :
  ('(b, s) ← read 1 s; Some (b.[0], s)) = '(b, s) ← read 1 s; Some (le_val 8 (take 1 b), s).
Proof.
  destruct (read 1 s) as [[b r]|] eqn:E; [|done]. ocbn.
  apply read_inv in E as [_ E]. by rewrite (aget0_le_val b E).
Qed.

Lemma ser_uint8_laws : Codec_ok ser_uint8 (is_word 8) ∧ Codec_canonical ser_uint8 (is_word 8).
Proof.
  apply (ser_word_ok 1); [|apply read1_aget|done].
  done.
Qed.

Lemma ser_uint16_laws : Codec_ok ser_uint16 (is_word 16) ∧ Codec_canonical ser_uint16 (is_word 16).
Proof.
  apply (ser_word_ok 2); [|done|done]. intros x Hx. cbn [Serialize ser_uint16].
  unfold ser_writedata16, WriteLE16, u16. by rewrite wrap_small.
Qed.

Lemma ser_uint32_laws : Codec_ok ser_uint32 (is_word 32) ∧ Codec_canonical ser_uint32 (is_word 32).
Proof.
  apply (ser_word_ok 4); [|done|done]. intros x Hx. cbn [Serialize ser_uint32].
  unfold ser_writedata32, WriteLE32, u32. by rewrite wrap_small.
Qed.

Lemma ser_uint64_laws : Codec_ok ser_uint64 (is_word 64) ∧ Codec_canonical ser_uint64 (is_word 64).
Proof.
  apply (ser_word_ok 8); [|done|done]. intros x Hx. cbn [Serialize ser_uint64].
  unfold ser_writedata64, WriteLE64, u64. by rewrite wrap_small.
Qed.

#[export] Instance ser_uint8_ok : Codec_ok ser_uint8 (is_word 8) := proj1 ser_uint8_laws.
#[export] Instance ser_uint8_canonical : Codec_canonical ser_uint8 (is_word 8) := proj2 ser_uint8_laws.
#[export] Instance ser_uint16_ok : Codec_ok ser_uint16 (is_word 16) := proj1 ser_uint16_laws.
#[export] Instance ser_uint16_canonical : Codec_canonical ser_uint16 (is_word 16) := proj2 ser_uint16_laws.
#[export] Instance ser_uint32_ok : Codec_ok ser_uint32 (is_word 32) := proj1 ser_uint32_laws.
#[export] Instance ser_uint32_canonical : Codec_canonical ser_uint32 (is_word 32) := proj2 ser_uint32_laws.
#[export] Instance ser_uint64_ok : Codec_ok ser_uint64 (is_word 64) := proj1 ser_uint64_laws.
#[export] Instance ser_uint64_canonical : Codec_canonical ser_uint64 (is_word 64) := proj2 ser_uint64_laws.

(** Signed values: the cast to the unsigned type and back. *)
Definition is_int (w z : Z) : Prop := - 2 ^ (w - 1) <= z < 2 ^ (w - 1).

Lemma signed_wrap (w z : Z) : 0 < w → is_int w z → signed w (wrap w z) = z.
Proof.
  intros Hw Hz. unfold signed, wrap. rewrite Zplus_mod_idemp_l.
  fold (signed w z). by apply signed_small.
Qed.

Lemma signed_is_int (w z : Z) : 0 < w → is_int w (signed w z).
Proof.
  intros Hw. unfold is_int, signed. pose proof (Z.mod_pos_bound (z + 2 ^ (w - 1)) (2 ^ w) (pow2_pos w ltac:(lia))).
  assert (2 ^ w = 2 * 2 ^ (w - 1)) by (rewrite <- Z.pow_succ_r by lia; f_equal; lia). lia.
Qed.

Lemma wrap_signed (w z : Z) : 0 < w → is_word w z → wrap w (signed w z) = z.
Proof.
  intros Hw Hz. unfold wrap, signed. rewrite Zminus_mod_idemp_l, Z.add_simpl_r.
  by apply Z.mod_small.
Qed.

Lemma ser_signed_laws (w : Z) (c u : Codec Z) :
  0 < w → Codec_ok u (is_word w) → Codec_canonical u (is_word w) →
  (∀ x, Serialize c x = Serialize u (wrap w x)) →
  (∀ s, Unserialize c s = '(a, s) ← Unserialize u s; Some (signed w a, s)) →
  (∀ x, GetSerializeSize c x = GetSerializeSize u (wrap w x)) →
  Codec_ok c (is_int w) ∧ Codec_canonical c (is_int w).
Proof.
  intros Hw Hok Hcan Hs Hu Hz. assert (∀ x, is_word w (wrap w x)) as Hwr by (intros; apply is_word_wrap; lia).
  split; [split|].
  - intros a rest Ha. rewrite Hs, Hu, ser_roundtrip by done. ocbn. by rewrite signed_wrap.
  - intros a Ha. by rewrite Hz, Hs, ser_size.
  - intros a Ha. rewrite Hs. by apply ser_bytes_ok.
  - intros s a rest Hb. rewrite Hu. destruct (Unserialize u s) as [[b r]|] eqn:E; [|done].
    ocbn. intros [= <- <-]. destruct (ser_canonical s b r Hb E) as [Hv ->].
    split; [by apply signed_is_int|]. by rewrite Hs, wrap_signed.
Qed.

Lemma wrap_wrap (w z : Z) : wrap w (wrap w z) = wrap w z.
Proof. apply Z.mod_mod_divide, Z.divide_refl. Qed.

Lemma ser_int32_laws : Codec_ok ser_int32 (is_int 32) ∧ Codec_canonical ser_int32 (is_int 32).
Proof.
  apply (ser_signed_laws 32 _ ser_uint32); [lia|apply _|apply _| |done|done].
  intros x. cbn [Serialize ser_int32 ser_uint32]. unfold ser_writedata32, WriteLE32, u32. by rewrite wrap_wrap.
Qed.

Lemma ser_int64_laws : Codec_ok ser_int64 (is_int 64) ∧ Codec_canonical ser_int64 (is_int 64).
Proof.
  apply (ser_signed_laws 64 _ ser_uint64); [lia|apply _|apply _| |done|done].
  intros x. cbn [Serialize ser_int64 ser_uint64]. unfold ser_writedata64, WriteLE64, u64. by rewrite wrap_wrap.
Qed.

#[export] Instance ser_int32_ok : Codec_ok ser_int32 (is_int 32) := proj1 ser_int32_laws.
#[export] Instance ser_int32_canonical : Codec_canonical ser_int32 (is_int 32) := proj2 ser_int32_laws.
#[export] Instance ser_int64_ok : Codec_ok ser_int64 (is_int 64) := proj1 ser_int64_laws.
#[export] Instance ser_int64_canonical : Codec_canonical ser_int64 (is_int 64) := proj2 ser_int64_laws.

#[export] Instance ser_bool_ok : Codec_ok ser_bool (λ _, True).
Proof.
  split; [by intros [] rest _|by intros []|].
  intros a _. cbn. unfold ser_writedata8. constructor; [|done]. by apply is_word_wrap.
Qed.

#[export] Instance CFlatData_ok (n : nat) : Codec_ok (CFlatData n) (λ a, length a = n ∧ bytes_ok a).
Proof. split; [|done|by intros a []]. intros a rest [Hn _]. by apply read_app. Qed.

#[export] Instance CFlatData_canonical (n : nat) :
  Codec_canonical (CFlatData n) (λ a, length a = n ∧ bytes_ok a).
Proof. intros s a rest Hb [-> Hn]%read_inv. by apply Forall_app in Hb as [? _]. Qed.

(** ** Compact sizes *)

Definition compact_ok (n : Z) : Prop := 0 <= n <= MAX_SIZE.

Lemma readdata16_app (n : Z) (rest : list Z) :
  is_word 16 n → ser_readdata16 (ser_writedata16 n ++ rest) = Some (n, rest).
Proof. apply (ser_roundtrip (c := ser_uint16)). Qed.

Lemma readdata32_app (n : Z) (rest : list Z) :
  is_word 32 n → ser_readdata32 (ser_writedata32 n ++ rest) = Some (n, rest).
Proof. apply (ser_roundtrip (c := ser_uint32)). Qed.

#[export] Instance CCompactSize_ok : Codec_ok CCompactSize compact_ok.
Proof.
  split.
  - intros n rest [H0 HM]. cbn [Serialize Unserialize CCompactSize].
    unfold MAX_SIZE in HM. unfold WriteCompactSize, ReadCompactSize.
    destruct (n <? 253) eqn:E1; bool_to_prop.
    { unfold ser_writedata8, u8. rewrite wrap_small by (unfold is_word; lia).
      cbn [app]. rewrite ser_readdata8_cons. ocbn. rewrite (proj2 (Z.ltb_lt _ _)) by lia. ocbn.
      rewrite (proj2 (Z.ltb_ge _ _)) by (unfold MAX_SIZE; lia). done. }
    destruct (n <=? 0xffff) eqn:E2; bool_to_prop.
    { cbn [ser_writedata8 app]. rewrite ser_readdata8_cons. ocbn.
      change (u8 253) with 253. cbn [Z.ltb Z.eqb Z.compare Pos.compare Pos.compare_cont Pos.eqb].
      rewrite readdata16_app by (unfold is_word; lia). ocbn. rewrite (proj2 (Z.ltb_ge n 253)) by lia. ocbn.
      rewrite (proj2 (Z.ltb_ge _ _)) by (unfold MAX_SIZE; lia). done. }
    rewrite (proj2 (Z.leb_le n 0xffffffff)) by lia. cbn [ser_writedata8 app]. rewrite ser_readdata8_cons. ocbn.
    change (u8 254) with 254. cbn [Z.ltb Z.eqb Z.compare Pos.compare Pos.compare_cont Pos.eqb].
    rewrite readdata32_app by (unfold is_word; lia). ocbn. rewrite (proj2 (Z.ltb_ge n 0x10000)) by lia. ocbn.
    rewrite (proj2 (Z.ltb_ge _ _)) by (unfold MAX_SIZE; lia). done.
  - intros n [H0 HM]. cbn [Serialize GetSerializeSize CCompactSize].
    unfold WriteCompactSize, GetSizeOfCompactSize. repeat case_if; reflexivity.
  - intros n [H0 HM]. cbn [Serialize CCompactSize]. unfold WriteCompactSize, ser_writedata8.
    assert (∀ z, is_byte (u8 z)) by (intros; by apply is_word_wrap).
    repeat case_if; try apply Forall_app_2; auto with words.
Qed.

#[export] Instance CCompactSize_canonical : Codec_canonical CCompactSize compact_ok.
Proof.
  intros s n rest Hb. cbn [Serialize Unserialize CCompactSize]. unfold ReadCompactSize.
  destruct (ser_readdata8 s) as [[c s1]|] eqn:E0; [|done]. ocbn.
  apply ser_readdata8_inv in E0 as ->. inv Hb. unfold compact_ok, MAX_SIZE, WriteCompactSize, is_byte, is_word in *.
  destruct (c <? 253) eqn:E1; bool_to_prop.
  { ocbn. case_if; [done|]. bool_to_prop. intros [= <- <-]. split; [lia|].
    rewrite (proj2 (Z.ltb_lt _ _)) by lia. unfold ser_writedata8, u8. by rewrite wrap_small. }
  destruct (c =? 253) eqn:E2; bool_to_prop.
  { destruct (ser_readdata16 s1) as [[m s2]|] eqn:E3; [|done]. ocbn.
    destruct (ser_canonical (c := ser_uint16) s1 m s2 ltac:(done) E3) as [Hm ->]. unfold is_word in Hm.
    case_if; [done|]. ocbn. case_if; [done|]. bool_to_prop. intros [= <- <-]. split; [lia|].
    rewrite (proj2 (Z.ltb_ge m 253)), (proj2 (Z.leb_le m 0xffff)) by lia. by subst c. }
  destruct (c =? 254) eqn:E3; bool_to_prop.
  { destruct (ser_readdata32 s1) as [[m s2]|] eqn:E4; [|done]. ocbn.
    destruct (ser_canonical (c := ser_uint32) s1 m s2 ltac:(done) E4) as [Hm ->]. unfold is_word in Hm.
    case_if; [done|]. ocbn. case_if; [done|]. bool_to_prop. intros [= <- <-]. split; [lia|].
    rewrite (proj2 (Z.ltb_ge m 253)), (proj2 (Z.leb_gt m 0xffff)), (proj2 (Z.leb_le m 0xffffffff)) by lia.
    by subst c. }
  destruct (ser_readdata64 s1) as [[m s2]|] eqn:E4; [|done]. ocbn.
  case_if; [done|]. ocbn. case_if; [done|]. bool_to_prop. unfold MAX_SIZE in *. lia.
Qed.

(** ** Variable-length integers

    [hi_digits] is the encoding of a number followed by further digits. *)

Fixpoint hi_digits (fuel : nat) (m : Z) : list Z :=
  match fuel with
  | O => []
  | S fuel' => (if m <=? 0x7F then [] else hi_digits fuel' (m / 128 - 1)) ++ [m mod 128 + 128]
  end.

Definition varint (fuel : nat) (n : Z) : list Z :=
  (if n <=? 0x7F then [] else hi_digits fuel (n / 128 - 1)) ++ [n mod 128].

Lemma varint_step (fuel : nat) (m : Z) :
  0 <= m < 2 ^ S fuel → (m <=? 0x7F) = false → 0 <= m / 128 - 1 < 2 ^ fuel ∧ m / 128 - 1 < m.
Proof.
  rewrite Nat2Z.inj_succ, Z.pow_succ_r by lia. intros Hm E. bool_to_prop.
  pose proof (Z.div_mod m 128 ltac:(lia)). pose proof (Z.mod_pos_bound m 128 ltac:(lia)). lia.
Qed.

Lemma hi_digits_fuel (f f' : nat) (m : Z) :
  0 <= m < 2 ^ f → 0 <= m < 2 ^ f' → (0 < f)%nat → (0 < f')%nat → hi_digits f m = hi_digits f' m.
Proof.
  revert f' m. induction f as [|f IH]; intros [|f'] m Hm Hm' Hf Hf'; try lia. cbn [hi_digits].
  destruct (m <=? 0x7F) eqn:E; [done|].
  destruct (varint_step f m Hm E), (varint_step f' m Hm' E). f_equal. bool_to_prop.
  apply IH; [done|done| |].
  - destruct f; [|lia]. cbn in Hm. lia.
  - destruct f'; [|lia]. cbn in Hm'. lia.
Qed.

Lemma bit7 (d : Z) : 0 <= d < 128 → d .| 0x80 = d + 128.
Proof. intros. apply (lor_add d 1 7); lia. Qed.

Lemma low7 (n : Z) : n .& 0x7F = n mod 128.
Proof. apply (land_ones_mod n 7). lia. Qed.

Lemma WriteVarInt_loop_hi (fuel : nat) (m : Z) (tmp : list Z) :
  tmp ≠ [] → WriteVarInt_loop fuel m tmp = hi_digits fuel m ++ tmp.
Proof.
  revert m tmp. induction fuel as [|fuel IH]; intros m tmp Ht; [done|].
  cbn [WriteVarInt_loop hi_digits]. rewrite low7.
  destruct tmp as [|t tmp]; [done|]. cbn [length Nat.eqb].
  pose proof (Z.mod_pos_bound m 128 ltac:(lia)). rewrite bit7 by lia.
  case_if; [done|]. rewrite IH by done. rewrite shr_div by lia. by rewrite <- app_assoc.
Qed.

Lemma WriteVarInt_varint (w n : Z) :
  7 <= w → is_word w n → WriteVarInt w n = varint (Z.to_nat w) n.
Proof.
  intros Hw Hn. unfold WriteVarInt, varint. destruct (Z.to_nat w) as [|f] eqn:Ef; [lia|].
  cbn [WriteVarInt_loop length Nat.eqb]. rewrite low7, Z.lor_0_r. case_if; [done|].
  rewrite WriteVarInt_loop_hi by done. rewrite shr_div by lia. change (2 ^ 7) with 128. f_equal.
  assert (0 <= n < 2 ^ S f) as Hn'.
  { unfold is_word in Hn. replace (Z.of_nat (S f)) with w by lia. done. }
  destruct (varint_step f n Hn' E). bool_to_prop.
  destruct f; [unfold is_word in Hn; replace w with 1 in Hn by lia; lia|].
  apply hi_digits_fuel; [done| |lia..]. rewrite Nat2Z.inj_succ, Z.pow_succ_r; lia.
Qed.

Section VarIntRead.
Context (w : Z) (Hw : 7 <= w).

Lemma max_shr7 (m : Z) : m < 2 ^ w → ((2 ^ w - 1) .>> 7 <? m / 128) = false.
Proof. intros. rewrite shr_div by lia. apply Z.ltb_ge, Z.div_le_mono; lia. Qed.

(** Appending a digit to a prefix of value [n / 128]. *)
Lemma ReadVarInt_digit (f : nat) (n c : Z) (rest : list Z) :
  is_word w n → c mod 128 = n mod 128 →
  ReadVarInt_loop (S f) w (n / 128) (c :: rest) =
    if negb (c .& 0x80 =? 0) then
      if n =? 2 ^ w - 1 then None else ReadVarInt_loop f w (n + 1) rest
    else Some (n, rest).
Proof.
  intros Hn Hc. cbn [ReadVarInt_loop]. rewrite ser_readdata8_cons. ocbn.
  rewrite max_shr7 by apply Hn. rewrite low7, Hc, shl_mul by lia. change (2 ^ 7) with 128.
  pose proof (Z.div_mod n 128 ltac:(lia)) as Ed. pose proof (Z.mod_pos_bound n 128 ltac:(lia)).
  unfold is_word in Hn. rewrite wrap_small by (unfold is_word; lia).
  rewrite Z.lor_comm, (lor_add _ (n / 128) 7) by lia. change (2 ^ 7) with 128.
  replace (n mod 128 + n / 128 * 128) with n by lia. done.
Qed.

Lemma flag_set (d : Z) : 0 <= d < 128 → negb ((d + 128) .& 0x80 =? 0) = true ∧ (d + 128) mod 128 = d.
Proof.
  intros Hd. rewrite <- bit7, Z.land_lor_distr_l by done. split.
  - apply negb_true_iff, Z.eqb_neq. intros [_ ?]%Z.lor_eq_0_iff. done.
  - rewrite bit7, <- Z.add_mod_idemp_r, Z.mod_same, Z.add_0_r by lia. by apply Z.mod_small.
Qed.

Lemma flag_clear (d : Z) : 0 <= d < 128 → negb (d .& 0x80 =? 0) = false.
Proof.
  intros Hd. apply negb_false_iff, Z.eqb_eq.
  rewrite <- (Z.mod_small d (2 ^ 7)), <- Z.land_ones, <- Z.land_assoc by lia. apply Z.land_0_r.
Qed.

Lemma ReadVarInt_hi (fuel f : nat) (m : Z) (rest : list Z) :
  0 <= m < 2 ^ fuel → (0 < fuel)%nat → m < 2 ^ w - 1 →
  ReadVarInt_loop (length (hi_digits fuel m) + f) w 0 (hi_digits fuel m ++ rest) =
  ReadVarInt_loop f w (m + 1) rest.
Proof.
  revert f m rest. induction fuel as [|fuel IH]; intros f m rest Hm Hf Hmax; [lia|].
  cbn [hi_digits]. pose proof (Z.mod_pos_bound m 128 ltac:(lia)) as Hd.
  destruct (flag_set _ Hd) as [Hs Hd'].
  assert (ReadVarInt_loop (S f) w (m / 128) (m mod 128 + 128 :: rest) = ReadVarInt_loop f w (m + 1) rest) as E1.
  { rewrite ReadVarInt_digit by (done || (unfold is_word; lia)). rewrite Hs.
    by rewrite (proj2 (Z.eqb_neq m _)) by lia. }
  destruct (m <=? 0x7F) eqn:E.
  - bool_to_prop. cbn [app length Nat.add]. by rewrite <- E1, Z.div_small by lia.
  - destruct (varint_step fuel m Hm E). bool_to_prop. rewrite length_app, <- app_assoc. cbn [length app].
    rewrite <- Nat.add_assoc, IH; [|done| |lia].
    + replace (m / 128 - 1 + 1) with (m / 128) by lia. done.
    + destruct fuel; [cbn in Hm; lia|lia].
Qed.

Lemma ReadVarInt_varint (n : Z) (rest : list Z) :
  is_word w n → ReadVarInt w (varint (Z.to_nat w) n ++ rest) = Some (n, rest).
Proof.
  intros Hn. unfold ReadVarInt, varint. pose proof (Z.mod_pos_bound n 128 ltac:(lia)) as Hd.
  assert (∀ f, ReadVarInt_loop (S f) w (n / 128) (n mod 128 :: rest) = Some (n, rest)) as E1.
  { intros f. rewrite ReadVarInt_digit, flag_clear by (done || by rewrite Z.mod_mod by lia). done. }
  destruct (n <=? 0x7F) eqn:E.
  - bool_to_prop. unfold is_word in Hn. cbn [app]. rewrite <- (Z.div_small n 128) at 1 by lia. apply E1.
  - assert (0 <= n < 2 ^ S (Z.to_nat w)) as Hn'.
    { unfold is_word in Hn. rewrite Nat2Z.inj_succ, Z.pow_succ_r, Z2Nat.id; lia. }
    destruct (varint_step _ n Hn' E) as [Hr Hlt]. rewrite <- app_assoc, length_app. cbn [length app].
    rewrite <- Nat.add_succ_r, ReadVarInt_hi; [|done|lia|unfold is_word in Hn; lia].
    replace (n / 128 - 1 + 1) with (n / 128) by lia. apply E1.
Qed.

(** Conversely the bytes read are the encoding of the result.  [read_so_far acc p]: the
    bytes [p] have been consumed to reach the accumulator [acc]. *)
Definition read_so_far (acc : Z) (p : list Z) : Prop :=
  0 <= acc < 2 ^ w ∧ p = if acc =? 0 then [] else hi_digits (Z.to_nat w) (acc - 1).

Lemma hi_digits_push (acc d : Z) (p : list Z) :
  read_so_far acc p → 0 <= d < 128 → acc * 128 + d < 2 ^ w →
  hi_digits (Z.to_nat w) (acc * 128 + d) = p ++ [d + 128] ∧
  varint (Z.to_nat w) (acc * 128 + d) = p ++ [d].
Proof.
  intros [Ha ->] Hd Hn. unfold varint.
  assert ((acc * 128 + d) / 128 = acc) as Eq by (rewrite Z.div_add_l, Z.div_small; lia).
  assert ((acc * 128 + d) mod 128 = d) as Em.
  { rewrite Z.add_comm, Z.mod_add by lia. apply Z.mod_small. lia. }
  assert ((acc * 128 + d <=? 127) = (acc =? 0)) as Ec by (apply eq_true_iff_eq; rewrite Z.leb_le, Z.eqb_eq; lia).
  destruct (Z.to_nat w) as [|f] eqn:Ef; [lia|].
  rewrite Ec, Em, Eq. split; [|done]. cbn [hi_digits]. rewrite Ec, Em, Eq. f_equal.
  destruct (acc =? 0) eqn:E0; [done|]. bool_to_prop.
  assert (acc * 128 < 2 ^ S f) by (replace (Z.of_nat (S f)) with w by lia; lia).
  assert (f ≠ O) by (intros ->; cbn in *; lia).
  assert (2 ^ S f = 2 * 2 ^ f) by (rewrite Nat2Z.inj_succ, Z.pow_succ_r; lia).
  symmetry. apply (hi_digits_fuel (S f) f); lia.
Qed.

Lemma acc_bound (acc : Z) : acc <= (2 ^ w - 1) / 128 → acc * 128 <= 2 ^ w - 128.
Proof.
  assert (2 ^ w = 2 ^ (w - 7) * 128) as E.
  { change 128 with (2 ^ 7). rewrite <- Z.pow_add_r by lia. f_equal. lia. }
  assert ((2 ^ w - 1) / 128 = 2 ^ (w - 7) - 1) as E'; [|lia].
  replace (2 ^ w - 1) with ((2 ^ (w - 7) - 1) * 128 + 127) by lia.
  rewrite Z.div_add_l by lia. change (127 / 128) with 0. lia.
Qed.

Lemma flag_byte (c : Z) :
  is_byte c → c = if negb (c .& 0x80 =? 0) then c mod 128 + 128 else c mod 128.
Proof.
  unfold is_byte, is_word. intros Hc. destruct (Z.lt_ge_cases c 128).
  - rewrite flag_clear by lia. by rewrite Z.mod_small by lia.
  - destruct (flag_set (c - 128) ltac:(lia)) as [Hs Hm]. rewrite Z.sub_add in *. rewrite Hs, Hm. lia.
Qed.

Lemma ReadVarInt_loop_canonical (f : nat) (acc n : Z) (p s rest : list Z) :
  bytes_ok s → read_so_far acc p → ReadVarInt_loop f w acc s = Some (n, rest) →
  is_word w n ∧ p ++ s = varint (Z.to_nat w) n ++ rest.
Proof.
  revert acc p s. induction f as [|f IH]; intros acc p s Hb Hp; [done|].
  cbn [ReadVarInt_loop]. destruct (ser_readdata8 s) as [[c s1]|] eqn:E0; [|done]. ocbn.
  apply ser_readdata8_inv in E0 as ->. apply Forall_cons_1 in Hb as [Hc Hb].
  destruct (_ <? acc) eqn:Emax; [done|]. bool_to_prop.
  rewrite shr_div in Emax by lia. rewrite low7, shl_mul by lia. change (2 ^ 7) with 128 in *.
  apply acc_bound in Emax. pose proof (Z.mod_pos_bound c 128 ltac:(lia)) as Hd. pose proof Hp as [Ha _].
  rewrite wrap_small by (unfold is_word; lia).
  rewrite Z.lor_comm, (lor_add _ acc 7) by lia. change (2 ^ 7) with 128. rewrite (Z.add_comm (c mod 128)).
  destruct (hi_digits_push acc (c mod 128) p Hp Hd ltac:(lia)) as [Eh Ev].
  apply flag_byte in Hc. destruct (negb (c .& 0x80 =? 0)).
  - destruct (_ =? 2 ^ w - 1) eqn:Ew; [done|]. bool_to_prop. intros E.
    assert (read_so_far (acc * 128 + c mod 128 + 1) (p ++ [c])) as Hp'.
    { split; [lia|]. rewrite (proj2 (Z.eqb_neq _ 0)) by lia. rewrite Z.add_simpl_r, Eh. by rewrite <- Hc. }
    destruct (IH _ _ _ Hb Hp' E) as [Hn En]. by rewrite <- En, <- app_assoc.
  - intros [= <- <-]. split; [unfold is_word; lia|]. rewrite Ev, <- Hc. by rewrite <- app_assoc.
Qed.
End VarIntRead.

Lemma GetSizeOfVarInt_loop_hi (fuel : nat) (m nRet : Z) :
  GetSizeOfVarInt_loop fuel m nRet = nRet + length (hi_digits fuel m).
Proof.
  revert m nRet. induction fuel as [|fuel IH]; intros m nRet; cbn [GetSizeOfVarInt_loop hi_digits]; [cbn; lia|].
  case_if; [cbn; lia|]. rewrite IH, shr_div, length_app by lia. change (2 ^ 7) with 128. cbn [length]. lia.
Qed.

Lemma hi_digits_bytes (fuel : nat) (m : Z) : bytes_ok (hi_digits fuel m).
Proof.
  revert m. induction fuel as [|fuel IH]; intros m; cbn [hi_digits]; [done|].
  apply Forall_app_2; [case_if; auto|]. pose proof (Z.mod_pos_bound m 128 ltac:(lia)).
  constructor; [|done]. unfold is_byte, is_word. lia.
Qed.

Lemma varint_hi (w n : Z) : 7 <= w → is_word w n → length (varint (Z.to_nat w) n) = length (hi_digits (Z.to_nat w) n).
Proof.
  intros Hw Hn. unfold varint. destruct (Z.to_nat w) as [|f] eqn:Ef; [lia|].
  rewrite length_app. change (length (hi_digits (S f) n)) with
    (length ((if n <=? 0x7F then [] else hi_digits f (n / 128 - 1)) ++ [n mod 128 + 128])).
  rewrite length_app. f_equal. case_if; [done|]. f_equal.
  assert (0 <= n < 2 ^ S f) as Hn' by (replace (Z.of_nat (S f)) with w by lia; done).
  destruct (varint_step f n Hn' E). bool_to_prop.
  assert (f ≠ O) by (intros ->; cbn in *; lia).
  assert (2 ^ S f = 2 * 2 ^ f) by (rewrite Nat2Z.inj_succ, Z.pow_succ_r; lia).
  apply hi_digits_fuel; lia.
Qed.

Lemma CVarInt_laws (w : Z) :
  7 <= w → Codec_ok (CVarInt w) (is_word w) ∧ Codec_canonical (CVarInt w) (is_word w).
Proof.
  intros Hw. split; [split|].
  - intros n rest Hn. cbn [Serialize Unserialize CVarInt].
    rewrite WriteVarInt_varint by done. by apply ReadVarInt_varint.
  - intros n Hn. cbn [Serialize GetSerializeSize CVarInt]. unfold GetSizeOfVarInt.
    by rewrite GetSizeOfVarInt_loop_hi, WriteVarInt_varint, varint_hi.
  - intros n Hn. cbn [Serialize CVarInt]. rewrite WriteVarInt_varint by done. unfold varint.
    apply Forall_app_2; [case_if; [done|apply hi_digits_bytes]|].
    pose proof (Z.mod_pos_bound n 128 ltac:(lia)). constructor; [|done]. unfold is_byte, is_word. lia.
  - intros s n rest Hb E. cbn [Serialize CVarInt].
    destruct (ReadVarInt_loop_canonical w Hw (S (length s)) 0 n [] s rest Hb) as [Hn E']; [|exact E|].
    + split; [|done]. pose proof (pow2_pos w ltac:(lia)). lia.
    + split; [done|]. by rewrite WriteVarInt_varint.
Qed.

#[export] Instance CVarInt64_ok : Codec_ok (CVarInt 64) (is_word 64) := proj1 (CVarInt_laws 64 ltac:(done)).
#[export] Instance CVarInt32_ok : Codec_ok (CVarInt 32) (is_word 32) := proj1 (CVarInt_laws 32 ltac:(done)).
#[export] Instance CVarInt64_canonical : Codec_canonical (CVarInt 64) (is_word 64) :=
  proj2 (CVarInt_laws 64 ltac:(done)).
#[export] Instance CVarInt32_canonical : Codec_canonical (CVarInt 32) (is_word 32) :=
  proj2 (CVarInt_laws 32 ltac:(done)).

(** ** Byte strings *)

Lemma read_split (m n : nat) (s : list Z) :
  ('(b, s) ← read m s; '(b', s) ← read n s; Some (b ++ b', s)) = read (m + n) s.
Proof.
  unfold read. destruct (m + n <=? length s)%nat eqn:E.
  - bool_to_prop. rewrite (proj2 (Nat.leb_le m _)) by lia. ocbn. rewrite length_drop.
    rewrite (proj2 (Nat.leb_le n _)) by lia. ocbn. by rewrite take_take_drop, drop_drop.
  - bool_to_prop. destruct (m <=? length s)%nat eqn:E'; [|done]. ocbn. rewrite length_drop.
    bool_to_prop. rewrite (proj2 (Nat.leb_gt n _)) by lia. done.
Qed.

Lemma read_0 (s : list Z) : read (Z.to_nat 0) s = Some ([], s).
Proof. done. Qed.

(** Reading in blocks is reading at once. *)
Lemma read_blocks_read (fuel : nat) (nSize i : Z) (v s : list Z) :
  0 <= i <= nSize → nSize - i <= fuel * 5000000 →
  read_blocks fuel nSize i v s = '(b, s) ← read (Z.to_nat (nSize - i)) s; Some (v ++ b, s).
Proof.
  revert i v s. induction fuel as [|fuel IH]; intros i v s Hi Hf; cbn [read_blocks].
  - replace i with nSize by lia. rewrite Z.ltb_irrefl, Z.sub_diag, read_0. ocbn. by rewrite app_nil_r.
  - destruct (i <? nSize) eqn:E; bool_to_prop.
    + set (blk := Z.min (nSize - i) (1 + 4999999)).
      replace (Z.to_nat (nSize - i)) with (Z.to_nat blk + Z.to_nat (nSize - (i + blk)))%nat by lia.
      rewrite <- read_split. destruct (read (Z.to_nat blk) s) as [[b s1]|]; [|done]. ocbn.
      rewrite IH by lia. destruct (read _ s1) as [[b' s2]|]; [|done]. ocbn. by rewrite app_assoc.
    + replace i with nSize by lia. rewrite Z.sub_diag, read_0. ocbn. by rewrite app_nil_r.
Qed.

Lemma ser_bytes_read (nSize : Z) (s : list Z) :
  0 <= nSize →
  read_blocks (Z.to_nat (nSize / 5000000 + 1)) nSize 0 [] s = read (Z.to_nat nSize) s.
Proof.
  intros Hn. pose proof (Z.div_mod nSize 5000000 ltac:(lia)).
  pose proof (Z.mod_pos_bound nSize 5000000 ltac:(lia)).
  rewrite read_blocks_read, Z.sub_0_r by lia. by destruct (read _ s) as [[b s1]|].
Qed.

Definition blob_ok (v : list Z) : Prop := bytes_ok v ∧ length v <= MAX_SIZE.

#[export] Instance ser_bytes_codec_ok : Codec_ok ser_bytes blob_ok.
Proof.
  assert (∀ v : list Z, length v <= MAX_SIZE → compact_ok (length v)) as Hc by (unfold compact_ok; lia).
  split.
  - intros v rest [Hb Hl]. cbn [Serialize Unserialize ser_bytes]. rewrite <- app_assoc.
    rewrite (ser_roundtrip (c := CCompactSize)) by auto. ocbn.
    rewrite ser_bytes_read by lia. apply read_app. lia.
  - intros v [Hb Hl]. cbn [Serialize GetSerializeSize ser_bytes]. rewrite length_app, Nat2Z.inj_add.
    f_equal. apply (ser_size (c := CCompactSize)). auto.
  - intros v [Hb Hl]. apply Forall_app_2; [|done]. apply (ser_bytes_ok (c := CCompactSize)). auto.
Qed.

#[export] Instance ser_bytes_canonical : Codec_canonical ser_bytes blob_ok.
Proof.
  intros s v rest Hb. cbn [Serialize Unserialize ser_bytes].
  destruct (ReadCompactSize s) as [[n s1]|] eqn:E; [|done]. ocbn.
  apply (ser_canonical (c := CCompactSize)) in E as [Hn ->]; [|done]. unfold compact_ok in Hn.
  rewrite ser_bytes_read by lia. intros [-> Hl]%read_inv. rewrite !Forall_app in Hb.
  assert (Z.of_nat (length v) = n) as El by lia. split; [split; [tauto|lia]|].
  rewrite El. cbn [Serialize CCompactSize]. by rewrite app_assoc.
Qed.

(** ** Vectors *)

Section Vector.
Context {A : Type} (c : Codec A) (valid : A → Prop).

Lemma Unserialize_n_split (m n : nat) (s : list Z) :
  ('(l, s) ← Unserialize_n c m s; '(l', s) ← Unserialize_n c n s; Some (l ++ l', s)) =
  Unserialize_n c (m + n) s.
Proof.
  revert s. induction m as [|m IH]; intros s; cbn [Unserialize_n Nat.add].
  - ocbn. by destruct (Unserialize_n c n s) as [[l' s']|].
  - destruct (Unserialize c s) as [[a s1]|]; [|done]. ocbn. rewrite <- IH.
    destruct (Unserialize_n c m s1) as [[l s2]|]; [|done]. ocbn.
    by destruct (Unserialize_n c n s2) as [[l' s3]|].
Qed.

Lemma Unserialize_chunks_n (chunk : Z) (fuel : nat) (nSize nMid : Z) (v : list A) (s : list Z) :
  1 <= chunk → 0 <= nMid <= nSize → nSize - nMid <= fuel * chunk →
  Unserialize_chunks c chunk fuel nSize nMid v s =
  '(l, s) ← Unserialize_n c (Z.to_nat (nSize - nMid)) s; Some (v ++ l, s).
Proof.
  intros Hc. revert nMid v s. induction fuel as [|fuel IH]; intros nMid v s Hn Hf; cbn [Unserialize_chunks].
  - replace nMid with nSize by lia. rewrite Z.ltb_irrefl, Z.sub_diag. change (Unserialize_n c (Z.to_nat 0) s) with (Some (@nil A, s)). ocbn. by rewrite app_nil_r.
  - destruct (nMid <? nSize) eqn:E; bool_to_prop.
    + set (next := if nSize <? nMid + chunk then nSize else nMid + chunk).
      assert (nMid < next <= nSize ∧ nSize - next <= fuel * chunk) as [Hnext Hf'].
      { unfold next. destruct (nSize <? nMid + chunk) eqn:E'; bool_to_prop; nia. }
      replace (Z.to_nat (nSize - nMid)) with (Z.to_nat (next - nMid) + Z.to_nat (nSize - next))%nat by lia.
      rewrite <- Unserialize_n_split. destruct (Unserialize_n c _ s) as [[l s1]|]; [|done]. ocbn.
      rewrite IH by lia. destruct (Unserialize_n c _ s1) as [[l' s2]|]; [|done]. ocbn. by rewrite app_assoc.
    + replace nMid with nSize by lia. rewrite Z.sub_diag. change (Unserialize_n c (Z.to_nat 0) s) with (Some (@nil A, s)). ocbn. by rewrite app_nil_r.
Qed.

Lemma ser_vector_read (chunk nSize : Z) (s : list Z) :
  1 <= chunk → 0 <= nSize →
  Unserialize_chunks c chunk (Z.to_nat (nSize / chunk + 1)) nSize 0 [] s = Unserialize_n c (Z.to_nat nSize) s.
Proof.
  intros Hc Hn. pose proof (Z.div_mod nSize chunk ltac:(lia)).
  pose proof (Z.mod_pos_bound nSize chunk ltac:(lia)). pose proof (Z.div_pos nSize chunk ltac:(lia) ltac:(lia)).
  rewrite Unserialize_chunks_n, Z.sub_0_r by lia. by destruct (Unserialize_n c _ s) as [[l s1]|].
Qed.

Lemma Unserialize_n_app `{!Codec_ok c valid} (l : list A) (rest : list Z) :
  Forall valid l → Unserialize_n c (length l) (concat (Serialize c <$> l) ++ rest) = Some (l, rest).
Proof.
  induction 1 as [|a l Ha Hl IH]; [done|]. rewrite fmap_cons. cbn [length Unserialize_n concat].
  rewrite <- app_assoc, ser_roundtrip by done. ocbn. by rewrite IH.
Qed.

Lemma Unserialize_n_canonical `{!Codec_canonical c valid} (n : nat) (s : list Z) (l : list A) (rest : list Z) :
  bytes_ok s → Unserialize_n c n s = Some (l, rest) →
  length l = n ∧ Forall valid l ∧ s = concat (Serialize c <$> l) ++ rest.
Proof.
  revert s l. induction n as [|n IH]; intros s l Hb; cbn [Unserialize_n]; [by intros [= <- <-]|].
  destruct (Unserialize c s) as [[a s1]|] eqn:E; [|done]. ocbn.
  destruct (ser_canonical s a s1 Hb E) as [Ha ->]. apply Forall_app in Hb as [_ Hb].
  destruct (Unserialize_n c n s1) as [[l' s2]|] eqn:E'; [|done]. ocbn. intros [= <- <-].
  destruct (IH s1 l' Hb E') as (<- & Hl & ->). split_and!; [done|by constructor|].
  rewrite fmap_cons. cbn [concat]. by rewrite app_assoc.
Qed.

Definition vector_ok (v : list A) : Prop := Forall valid v ∧ length v <= MAX_SIZE.

Lemma ser_vector_laws (chunk : Z) :
  1 <= chunk → Codec_ok c valid →
  Codec_ok (ser_vector chunk c) vector_ok ∧
  (Codec_canonical c valid → Codec_canonical (ser_vector chunk c) vector_ok).
Proof.
  intros Hchunk Hok.
  assert (∀ v : list A, length v <= MAX_SIZE → compact_ok (length v)) as Hc by (unfold compact_ok; lia).
  split; [split|].
  - intros v rest [Hv Hl]. cbn [Serialize Unserialize ser_vector]. rewrite <- app_assoc.
    rewrite (ser_roundtrip (c := CCompactSize)) by auto. ocbn.
    rewrite ser_vector_read, Nat2Z.id by lia. by apply Unserialize_n_app.
  - intros v [Hv Hl]. cbn [Serialize GetSerializeSize ser_vector]. rewrite length_app, Nat2Z.inj_add.
    f_equal; [apply (ser_size (c := CCompactSize)); auto|]. clear Hl.
    induction Hv as [|a v Ha Hv IH]; [done|]. rewrite fmap_cons. cbn [foldr concat].
    rewrite length_app, Nat2Z.inj_add, IH. f_equal. by apply ser_size.
  - intros v [Hv Hl]. apply Forall_app_2; [apply (ser_bytes_ok (c := CCompactSize)); auto|].
    apply Forall_concat, Forall_fmap. revert Hv. apply Forall_impl. intros a Ha. by apply ser_bytes_ok.
  - intros Hcan s v rest Hb. cbn [Serialize Unserialize ser_vector].
    destruct (ReadCompactSize s) as [[n s1]|] eqn:E; [|done]. ocbn.
    apply (ser_canonical (c := CCompactSize)) in E as [Hn ->]; [|done]. unfold compact_ok in Hn.
    rewrite ser_vector_read by lia. apply Forall_app in Hb as [_ Hb].
    intros (El & Hv & ->)%Unserialize_n_canonical; [|done].
    assert (Z.of_nat (length v) = n) as El' by lia. split; [split; [done|lia]|].
    rewrite El'. cbn [Serialize CCompactSize]. by rewrite app_assoc.
Qed.
End Vector.

#[export] Instance ser_pair_ok {A B : Type} (ca : Codec A) (cb : Codec B) (va : A → Prop) (vb : B → Prop) :
  Codec_ok ca va → Codec_ok cb vb → Codec_ok (ser_pair ca cb) (λ p, va p.1 ∧ vb p.2).
Proof.
  intros Ha Hb. split.
  - intros [a b] rest [? ?]. cbn [Serialize Unserialize ser_pair fst snd] in *.
    rewrite <- app_assoc, ser_roundtrip by done. ocbn. by rewrite ser_roundtrip.
  - intros [a b] [? ?]. cbn [Serialize GetSerializeSize ser_pair fst snd] in *.
    rewrite length_app, Nat2Z.inj_add. by rewrite !ser_size by done.
  - intros [a b] [? ?]. cbn [Serialize ser_pair fst snd] in *. apply Forall_app_2; by apply ser_bytes_ok.
Qed.

#[export] Instance ser_pair_canonical {A B : Type} (ca : Codec A) (cb : Codec B) (va : A → Prop) (vb : B → Prop) :
  Codec_canonical ca va → Codec_canonical cb vb → Codec_canonical (ser_pair ca cb) (λ p, va p.1 ∧ vb p.2).
Proof.
  intros Ha Hb s [a b] rest Hs. cbn [Serialize Unserialize ser_pair fst snd].
  destruct (Unserialize ca s) as [[a' s1]|] eqn:Ea; [|done]. ocbn.
  destruct (ser_canonical s a' s1 Hs Ea) as [Hva ->]. apply Forall_app in Hs as [_ Hs].
  destruct (Unserialize cb s1) as [[b' s2]|] eqn:Eb; [|done]. ocbn. intros [= <- <- <-].
  destruct (ser_canonical s1 b' s2 Hs Eb) as [Hvb ->]. by rewrite app_assoc.
Qed.

Lemma ser_via_ok {A B : Type} (to : A → B) (from : B → A) (c : Codec B) (valid : B → Prop) (valid' : A → Prop) :
  (∀ a, valid' a → from (to a) = a) → (∀ a, valid' a → valid (to a)) →
  Codec_ok c valid → Codec_ok (ser_via to from c) valid'.
Proof.
  intros Hft Hv Hok. split; cbn [Serialize Unserialize GetSerializeSize ser_via].
  - intros a rest Ha. rewrite ser_roundtrip by auto. ocbn. by rewrite Hft.
  - intros a Ha. apply ser_size. auto.
  - intros a Ha. apply ser_bytes_ok. auto.
Qed.

Lemma ser_via_canonical {A B : Type} (to : A → B) (from : B → A) (c : Codec B) (valid : B → Prop) (valid' : A → Prop) :
  (∀ b, valid b → to (from b) = b) → (∀ b, valid b → valid' (from b)) →
  Codec_canonical c valid → Codec_canonical (ser_via to from c) valid'.
Proof.
  intros Htf Hv Hcan s a rest Hs. cbn [Serialize Unserialize ser_via].
  destruct (Unserialize c s) as [[b s1]|] eqn:E; [|done]. ocbn. intros [= <- <-].
  destruct (ser_canonical s b s1 Hs E) as [Hb ->]. rewrite Htf by done. auto.
Qed.

(** ** Injectivity *)

Lemma ser_inj {A : Type} (c : Codec A) (valid : A → Prop) `{!Codec_ok c valid} (a b : A) (r r' : list Z) :
  valid a → valid b → Serialize c a ++ r = Serialize c b ++ r' → a = b ∧ r = r'.
Proof.
  intros Ha Hb E. pose proof (ser_roundtrip a r Ha) as Ra.
  rewrite E, ser_roundtrip in Ra by done. by injection Ra as -> ->.
Qed.

Lemma ser_concat_inj {A : Type} (c : Codec A) (valid : A → Prop) `{!Codec_ok c valid} (l k : list A) :
  (∀ a, valid a → Serialize c a ≠ []) → Forall valid l → Forall valid k →
  concat (Serialize c <$> l) = concat (Serialize c <$> k) → l = k.
Proof.
  intros Hne Hl. revert k. induction Hl as [|a l Ha Hl IH]; intros [|b k] Hk E; [done| | |];
    rewrite ?fmap_cons in E; cbn [concat] in E.
  - apply Forall_cons_1 in Hk as [Hb _]. symmetry in E. apply app_nil in E as [E _]. by destruct (Hne b Hb).
  - apply app_nil in E as [E _]. by destruct (Hne a Ha).
  - apply Forall_cons_1 in Hk as [Hb Hk]. apply (ser_inj c valid) in E as [-> E]; [|done..].
    f_equal. by apply IH.
Qed.

(** ** The memory stream

    Reading from a [CDataStream] is reading from its unread bytes, as long as the
    positions fit the 32-bit counter. *)

Definition unread (st : CDataStream) : list Z := drop (Z.to_nat (nReadPos st)) (vch st).

Definition stream_ok (st : CDataStream) : Prop := 0 <= nReadPos st <= length (vch st).

Lemma CDataStream_read_refines (st : CDataStream) (nSize : Z) :
  stream_ok st → 0 <= nSize → length (vch st) + nSize < 2 ^ 32 →
  match CDataStream_read st nSize, read (Z.to_nat nSize) (unread st) with
  | Some (b, st'), Some (b', rest) => b = b' ∧ unread st' = rest ∧ stream_ok st'
  | None, None => True
  | _, _ => False
  end.
Proof.
  unfold stream_ok. intros Hp Hn Hw. unfold CDataStream_read, read, unread.
  destruct (nSize =? 0) eqn:E0; bool_to_prop.
  { subst. rewrite (proj2 (Nat.leb_le _ _)) by lia. by cbn. }
  rewrite length_drop. unfold u32. rewrite wrap_small by (unfold is_word; lia).
  destruct (length (vch st) <=? nReadPos st + nSize) eqn:E1; bool_to_prop.
  - destruct (length (vch st) <? nReadPos st + nSize) eqn:E2; bool_to_prop.
    + by rewrite (proj2 (Nat.leb_gt _ _)) by lia.
    + rewrite (proj2 (Nat.leb_le _ _)) by lia. cbn [nReadPos vch]. split_and!; [done| |done|cbn; lia].
      rewrite drop_drop. symmetry. apply drop_ge. lia.
  - rewrite (proj2 (Nat.leb_le _ _)) by lia. cbn [nReadPos vch]. split_and!; [done| |lia|lia].
    rewrite drop_drop. f_equal. lia.
Qed.

(** ** Properties *)

(** compact sizes up to [MAX_SIZE] are read back as written, in the announced
    number of bytes, and no other byte sequence is accepted: the size of a
    vector has one encoding. *)
Theorem CompactSize_codec :
  (∀ n rest, compact_ok n → ReadCompactSize (WriteCompactSize n ++ rest) = Some (n, rest)) ∧
  (∀ n, compact_ok n → GetSizeOfCompactSize n = length (WriteCompactSize n)) ∧
  (∀ s n rest, bytes_ok s → ReadCompactSize s = Some (n, rest) →
     compact_ok n ∧ s = WriteCompactSize n ++ rest).
Proof.
  split_and!.
  - apply (ser_roundtrip (c := CCompactSize)).
  - apply (ser_size (c := CCompactSize)).
  - apply (ser_canonical (c := CCompactSize)).
Qed.

(** the variable-length integers are a bijection, as their comment promises: for a
    32- or 64-bit type every value is read back as written and in the computed
    size, and a successful read consumed exactly the encoding of its result; an
    overflow of the type is an error. *)
Theorem VarInt_codec (w : Z) :
  w = 32 ∨ w = 64 →
  (∀ n rest, is_word w n → ReadVarInt w (WriteVarInt w n ++ rest) = Some (n, rest)) ∧
  (∀ n, is_word w n → GetSizeOfVarInt w n = length (WriteVarInt w n)) ∧
  (∀ s n rest, bytes_ok s → ReadVarInt w s = Some (n, rest) →
     is_word w n ∧ s = WriteVarInt w n ++ rest).
Proof.
  intros Hw. destruct (CVarInt_laws w ltac:(lia)) as [Hok Hcan]. split_and!.
  - apply (ser_roundtrip (c := CVarInt w)).
  - apply (ser_size (c := CVarInt w)).
  - apply (ser_canonical (c := CVarInt w)).
Qed.

Lemma VarInt_codec_witness :
  ReadVarInt 64 (WriteVarInt 64 16511 ++ [7]) = Some (16511, [7]) ∧
  WriteVarInt 64 16511 = [0xFF; 0x7F] ∧ WriteVarInt 64 (2 ^ 32) = [0x8E; 0xFE; 0xFE; 0xFF; 0x00].
Proof.
  split; [|split; reflexivity].
  apply (VarInt_codec 64 (or_intror eq_refl)). unfold is_word. lia.
Defined.
