(* ===== verification/Transaction.v ===== *)
(** * Transactions ([src/src/primitives/transaction.h], [transaction.cpp], [amount.h])

    Outpoints, inputs, outputs and transactions with their two wire formats.  A
    [uint256] is the list of its 32 bytes.  [SerializeTransaction] and
    [UnserializeTransaction] take the version of the stream, whose
    [SERIALIZE_TRANSACTION_NO_WITNESS] bit selects the format; the hash a
    [CTransaction] caches is computed from the format without witnesses. *)

From Stdlib Require Import ZArith Lia.
From stdpp Require Import list option.
From S2P Require Import Prelude Common Crypto Serialize.

Open Scope Z_scope.
Open Scope word_scope.

(** ** Amounts *)

Definition COIN : Z := 100000000.
Definition CENT : Z := 1000000.
Definition MAX_MONEY : Z := 21212444 * COIN.
Definition MoneyRange (nValue : Z) : bool := (0 <=? nValue) && (nValue <=? MAX_MONEY).

(** ** Opaque hashes ([uint256.h]) *)

Definition uint256_null : list Z := replicate 32 0.
Definition uint256_IsNull (data : list Z) : bool := forallb (λ b, b =? 0) data.

(** [memcmp] on the bytes. *)
Fixpoint memcmp (a b : list Z) : Z :=
  match a, b with
  | x :: a, y :: b => if x =? y then memcmp a b else if x <? y then -1 else 1
  | _, _ => 0
  end.

Definition ser_uint256 : Codec (list Z) := CFlatData 32.

(** ** Data *)

Record COutPoint := { hash : list Z; n : Z }.

Record CTxIn := {
  prevout : COutPoint;
  scriptSig : list Z;
  nSequence : Z;
  scriptWitness : list (list Z)
}.

Record CTxOut := { nValue : Z; scriptPubKey : list Z }.

Record CTransaction := {
  vin : list CTxIn;
  vout : list CTxOut;
  nVersion : Z;
  nLockTime : Z
}.

Definition SEQUENCE_FINAL : Z := 0xffffffff.
Definition SEQUENCE_LOCKTIME_TYPE_FLAG : Z := 1 .<< 22.
Definition SEQUENCE_LOCKTIME_MASK : Z := 0x0000ffff.
Definition SEQUENCE_LOCKTIME_GRANULARITY : Z := 9.

#[export] Instance COutPoint_eq_dec : EqDecision COutPoint.
Proof. solve_decision. Defined.
#[export] Instance CTxOut_eq_dec : EqDecision CTxOut.
Proof. solve_decision. Defined.
#[export] Instance CTxIn_eq_dec : EqDecision CTxIn.
Proof. solve_decision. Defined.

Definition COutPoint_null : COutPoint := {| hash := uint256_null; n := 0xffffffff |}.
Definition COutPoint_IsNull (o : COutPoint) : bool := uint256_IsNull (hash o) && (n o =? 0xffffffff).
Definition COutPoint_lt (a b : COutPoint) : bool :=
  let cmp := memcmp (hash a) (hash b) in (cmp <? 0) || ((cmp =? 0) && (n a <? n b)).

Definition CTxOut_null : CTxOut := {| nValue := -1; scriptPubKey := [] |}.
Definition CTxOut_IsNull (o : CTxOut) : bool := nValue o =? -1.

Definition IsCoinBase (tx : CTransaction) : bool :=
  match vin tx with
  | [txin] => COutPoint_IsNull (prevout txin)
  | _ => false
  end.

Definition IsNull (tx : CTransaction) : bool :=
  (length (vin tx) =? 0)%nat && (length (vout tx) =? 0)%nat.

Definition HasWitness (tx : CTransaction) : bool :=
  existsb (λ txin, negb (length (scriptWitness txin) =? 0)%nat) (vin tx).

(** ** Serialization *)

Definition SERIALIZE_TRANSACTION_NO_WITNESS : Z := 0x40000000.

(** Sizes of the elements on a 64-bit platform; they only set how much a vector grows at
    a time while it is read ([ser_vector_read]). *)
Definition sizeof_CTxIn : Z := 104.
Definition sizeof_CTxOut : Z := 40.
Definition sizeof_vector : Z := 24.

Definition ser_COutPoint : Codec COutPoint :=
  ser_via (λ o, (hash o, n o)) (λ p, {| hash := p.1; n := p.2 |}) (ser_pair ser_uint256 ser_uint32).

(** The witness of an input is not part of its own serialization. *)
Definition ser_CTxIn : Codec CTxIn :=
  ser_via (λ i, (prevout i, (scriptSig i, nSequence i)))
    (λ p, {| prevout := p.1; scriptSig := p.2.1; nSequence := p.2.2; scriptWitness := [] |})
    (ser_pair ser_COutPoint (ser_pair ser_bytes ser_uint32)).

Definition ser_CTxOut : Codec CTxOut :=
  ser_via (λ o, (nValue o, scriptPubKey o)) (λ p, {| nValue := p.1; scriptPubKey := p.2 |})
    (ser_pair ser_int64 ser_bytes).

Definition ser_vin : Codec (list CTxIn) := ser_vector (5000000 / sizeof_CTxIn) ser_CTxIn.
Definition ser_vout : Codec (list CTxOut) := ser_vector (5000000 / sizeof_CTxOut) ser_CTxOut.
Definition ser_witness : Codec (list (list Z)) := ser_vector (5000000 / sizeof_vector) ser_bytes.

Definition allow_witness (version : Z) : bool := version .& SERIALIZE_TRANSACTION_NO_WITNESS =? 0.

Definition SerializeTransaction (version : Z) (tx : CTransaction) : list Z :=
  let fAllowWitness := allow_witness version in
  let flags := if fAllowWitness then if HasWitness tx then 1 else 0 else 0 in
  Serialize ser_int32 (nVersion tx) ++
  (if negb (flags =? 0) then Serialize ser_vin [] ++ Serialize ser_uint8 flags else []) ++
  Serialize ser_vin (vin tx) ++
  Serialize ser_vout (vout tx) ++
  (if negb (flags .& 1 =? 0) then concat (Serialize ser_witness <$> (scriptWitness <$> vin tx)) else []) ++
  Serialize ser_uint32 (nLockTime tx).

Definition with_witness (txin : CTxIn) (wit : list (list Z)) : CTxIn :=
  {| prevout := prevout txin; scriptSig := scriptSig txin; nSequence := nSequence txin;
     scriptWitness := wit |}.

Fixpoint read_witnesses (vin : list CTxIn) (s : list Z) : option (list CTxIn * list Z) :=
  match vin with
  | [] => Some ([], s)
  | txin :: vin =>
      '(wit, s) ← Unserialize ser_witness s;
      '(vin, s) ← read_witnesses vin s;
      Some (with_witness txin wit :: vin, s)
  end.

Definition UnserializeTransaction (version : Z) (s : list Z) : option (CTransaction * list Z) :=
  let fAllowWitness := allow_witness version in
  '(nVersion, s) ← Unserialize ser_int32 s;
  '(vin, s) ← Unserialize ser_vin s;
  '(flags, vin, vout, s) ←
    (if (length vin =? 0)%nat && fAllowWitness then
       '(flags, s) ← Unserialize ser_uint8 s;
       if negb (flags =? 0) then
         '(vin, s) ← Unserialize ser_vin s;
         '(vout, s) ← Unserialize ser_vout s;
         Some (flags, vin, vout, s)
       else Some (flags, vin, [], s)
     else
       '(vout, s) ← Unserialize ser_vout s;
       Some (0, vin, vout, s));
  '(flags, vin, s) ←
    (if negb (flags .& 1 =? 0) && fAllowWitness then
       '(vin, s) ← read_witnesses vin s; Some (flags .^ 1, vin, s)
     else Some (flags, vin, s));
  if negb (flags =? 0) then None
  else
    '(nLockTime, s) ← Unserialize ser_uint32 s;
    Some ({| vin := vin; vout := vout; nVersion := nVersion; nLockTime := nLockTime |}, s).

(** The same walk over a [CSizeComputer]. *)
Definition TransactionSize (version : Z) (tx : CTransaction) : Z :=
  let flags := if allow_witness version then if HasWitness tx then 1 else 0 else 0 in
  GetSerializeSize ser_int32 (nVersion tx) +
  (if negb (flags =? 0) then GetSerializeSize ser_vin [] + GetSerializeSize ser_uint8 flags else 0) +
  GetSerializeSize ser_vin (vin tx) +
  GetSerializeSize ser_vout (vout tx) +
  (if negb (flags .& 1 =? 0)
   then foldr (λ txin acc, GetSerializeSize ser_witness (scriptWitness txin) + acc) 0 (vin tx) else 0) +
  GetSerializeSize ser_uint32 (nLockTime tx).

(** ** Hashes and totals *)

Section Hashes.
Context `{CryptoHash}.

(** [SerializeHash]: the bytes written to a [CHashWriter], double-hashed. *)
Definition GetHash (tx : CTransaction) : list Z :=
  CHash256 (SerializeTransaction SERIALIZE_TRANSACTION_NO_WITNESS tx).

Definition GetWitnessHash (tx : CTransaction) : list Z :=
  if negb (HasWitness tx) then GetHash tx else CHash256 (SerializeTransaction 0 tx).
End Hashes.

(** Sum of the outputs; [None] is the exception for an amount out of range. *)
Fixpoint GetValueOut_loop (vout : list CTxOut) (nValueOut : Z) : option Z :=
  match vout with
  | [] => Some nValueOut
  | tx_out :: vout =>
      let nValueOut := i64 (nValueOut + nValue tx_out) in
      if negb (MoneyRange (nValue tx_out)) || negb (MoneyRange nValueOut) then None
      else GetValueOut_loop vout nValueOut
  end.

Definition GetValueOut (tx : CTransaction) : option Z := GetValueOut_loop (vout tx) 0.

Definition PROTOCOL_VERSION : Z := 70016.
Definition GetTotalSize (tx : CTransaction) : Z := TransactionSize PROTOCOL_VERSION tx.

(** ** Well-formed transactions *)

Definition uint256_ok (h : list Z) : Prop := length h = 32%nat ∧ bytes_ok h.

Definition outpoint_ok (o : COutPoint) : Prop := uint256_ok (hash o) ∧ is_word 32 (n o).

(** An input as it is read by itself, and with a witness attached. *)
Definition bare_txin_ok (i : CTxIn) : Prop :=
  outpoint_ok (prevout i) ∧ blob_ok (scriptSig i) ∧ is_word 32 (nSequence i) ∧ scriptWitness i = [].

Definition witness_ok : list (list Z) → Prop := vector_ok blob_ok.

Definition strip_witness (i : CTxIn) : CTxIn := with_witness i [].

Definition txin_ok (i : CTxIn) : Prop := bare_txin_ok (strip_witness i) ∧ witness_ok (scriptWitness i).

Definition txout_ok (o : CTxOut) : Prop := is_int 64 (nValue o) ∧ blob_ok (scriptPubKey o).

Definition tx_ok (tx : CTransaction) : Prop :=
  vector_ok txin_ok (vin tx) ∧ vector_ok txout_ok (vout tx) ∧
  is_int 32 (nVersion tx) ∧ is_word 32 (nLockTime tx).

(** The ranges, decided. *)
Definition blob_okb (v : list Z) : bool := bytes_okb v && (length v <=? MAX_SIZE).

Definition vector_okb {A : Type} (f : A → bool) (v : list A) : bool := forallb f v && (length v <=? MAX_SIZE).

Definition outpoint_okb (o : COutPoint) : bool :=
  (length (hash o) =? 32)%nat && bytes_okb (hash o) && (0 <=? n o) && (n o <? 2 ^ 32).

Definition txin_okb (i : CTxIn) : bool :=
  outpoint_okb (prevout i) && blob_okb (scriptSig i) && (0 <=? nSequence i) && (nSequence i <? 2 ^ 32) &&
  vector_okb blob_okb (scriptWitness i).

Definition txout_okb (o : CTxOut) : bool :=
  (- 2 ^ 63 <=? nValue o) && (nValue o <? 2 ^ 63) && blob_okb (scriptPubKey o).

Definition tx_okb (tx : CTransaction) : bool :=
  vector_okb txin_okb (vin tx) && vector_okb txout_okb (vout tx) && (- 2 ^ 31 <=? nVersion tx) &&
  (nVersion tx <? 2 ^ 31) && (0 <=? nLockTime tx) && (nLockTime tx <? 2 ^ 32).

Lemma blob_okb_ok (v : list Z) : blob_okb v = true → blob_ok v.
Proof. intros H%andb_prop. destruct H. bool_to_prop. split; [by apply bytes_okb_ok|done]. Qed.

Lemma vector_okb_ok {A : Type} (f : A → bool) (P : A → Prop) (v : list A) :
  (∀ x, f x = true → P x) → vector_okb f v = true → vector_ok P v.
Proof.
  intros HP H%andb_prop. destruct H as [Hf Hl]. bool_to_prop. split; [|done]. clear Hl.
  induction v as [|x v IH]; [done|]. cbn in Hf. apply andb_prop in Hf as [? ?]. constructor; auto.
Qed.

Lemma outpoint_okb_ok (o : COutPoint) : outpoint_okb o = true → outpoint_ok o.
Proof. unfold outpoint_okb. intros H. bool_to_prop. split; [split; [done|by apply bytes_okb_ok]|by split]. Qed.

Lemma txin_okb_ok (i : CTxIn) : txin_okb i = true → txin_ok i.
Proof.
  unfold txin_okb. rewrite !andb_true_iff. intros ((((Ho & Hs) & H0) & H1) & Hw). bool_to_prop.
  split; [split; [by apply outpoint_okb_ok|split; [by apply blob_okb_ok|by split]]|].
  revert Hw. apply vector_okb_ok, blob_okb_ok.
Qed.

Lemma txout_okb_ok (o : CTxOut) : txout_okb o = true → txout_ok o.
Proof.
  unfold txout_okb. rewrite !andb_true_iff. intros ((H0 & H1) & Hs). bool_to_prop.
  split; [by split|by apply blob_okb_ok].
Qed.

Lemma tx_okb_ok (tx : CTransaction) : tx_okb tx = true → tx_ok tx.
Proof.
  unfold tx_okb. rewrite !andb_true_iff. intros (((((Hi & Ho) & H0) & H1) & H2) & H3). bool_to_prop.
  split; [|split; [|by split]].
  - revert Hi. apply vector_okb_ok, txin_okb_ok.
  - revert Ho. apply vector_okb_ok, txout_okb_ok.
Qed.

(** The transaction without its witnesses, which its hash identifies. *)
Definition without_witness (tx : CTransaction) : CTransaction :=
  {| vin := strip_witness <$> vin tx; vout := vout tx; nVersion := nVersion tx; nLockTime := nLockTime tx |}.

#[export] Instance ser_uint256_ok : Codec_ok ser_uint256 uint256_ok := CFlatData_ok 32.
#[export] Instance ser_uint256_canonical : Codec_canonical ser_uint256 uint256_ok := CFlatData_canonical 32.

#[export] Instance ser_COutPoint_ok : Codec_ok ser_COutPoint outpoint_ok.
Proof. eapply ser_via_ok; [| |apply _]; by intros []. Qed.

#[export] Instance ser_COutPoint_canonical : Codec_canonical ser_COutPoint outpoint_ok.
Proof. eapply ser_via_canonical; [| |apply _]; by intros []. Qed.

#[export] Instance ser_CTxIn_ok : Codec_ok ser_CTxIn bare_txin_ok.
Proof.
  eapply ser_via_ok; [| |apply _].
  - intros [? ? ? ?] (_ & _ & _ & E). cbn in *. by rewrite E.
  - intros i (? & ? & ? & _). done.
Qed.

#[export] Instance ser_CTxIn_canonical : Codec_canonical ser_CTxIn bare_txin_ok.
Proof.
  eapply ser_via_canonical; [| |apply _].
  - by intros [? []].
  - intros [? []] (? & ? & ?). done.
Qed.

#[export] Instance ser_CTxOut_ok : Codec_ok ser_CTxOut txout_ok.
Proof. eapply ser_via_ok; [| |apply _]; by intros []. Qed.

#[export] Instance ser_CTxOut_canonical : Codec_canonical ser_CTxOut txout_ok.
Proof. eapply ser_via_canonical; [| |apply _]; by intros []. Qed.

#[export] Instance ser_vin_ok : Codec_ok ser_vin (vector_ok bare_txin_ok).
Proof. apply ser_vector_laws; [done|apply _]. Qed.
#[export] Instance ser_vin_canonical : Codec_canonical ser_vin (vector_ok bare_txin_ok).
Proof. apply ser_vector_laws; [done|apply _..]. Qed.
#[export] Instance ser_vout_ok : Codec_ok ser_vout (vector_ok txout_ok).
Proof. apply ser_vector_laws; [done|apply _]. Qed.
#[export] Instance ser_vout_canonical : Codec_canonical ser_vout (vector_ok txout_ok).
Proof. apply ser_vector_laws; [done|apply _..]. Qed.
#[export] Instance ser_witness_ok : Codec_ok ser_witness witness_ok.
Proof. apply ser_vector_laws; [done|apply _]. Qed.
#[export] Instance ser_witness_canonical : Codec_canonical ser_witness witness_ok.
Proof. apply ser_vector_laws; [done|apply _..]. Qed.

(** ** Witnesses *)

(** An input serializes the same with or without its witness. *)
Lemma ser_vin_strip (vin : list CTxIn) : Serialize ser_vin (strip_witness <$> vin) = Serialize ser_vin vin.
Proof.
  cbn [Serialize ser_vin ser_vector]. rewrite length_fmap. f_equal. f_equal.
  rewrite <- list_fmap_compose. by apply list_fmap_ext.
Qed.

Lemma size_vin_strip (vin : list CTxIn) :
  GetSerializeSize ser_vin (strip_witness <$> vin) = GetSerializeSize ser_vin vin.
Proof.
  cbn [GetSerializeSize ser_vin ser_vector]. rewrite length_fmap. f_equal.
  induction vin as [|i vin IH]; [done|]. rewrite fmap_cons. cbn [foldr]. by rewrite IH.
Qed.

Lemma vin_strip_ok (vin : list CTxIn) :
  vector_ok txin_ok vin → vector_ok bare_txin_ok (strip_witness <$> vin).
Proof.
  intros [Hv Hl]. split; [|by rewrite length_fmap]. apply Forall_fmap.
  revert Hv. apply Forall_impl. by intros i [? ?].
Qed.

Lemma read_vin (vin : list CTxIn) (rest : list Z) :
  vector_ok txin_ok vin →
  Unserialize ser_vin (Serialize ser_vin vin ++ rest) = Some (strip_witness <$> vin, rest).
Proof. intros Hv. rewrite <- ser_vin_strip. by apply ser_roundtrip, vin_strip_ok. Qed.

Lemma read_witnesses_app (l : list CTxIn) (rest : list Z) :
  Forall txin_ok l →
  read_witnesses (strip_witness <$> l) (concat (Serialize ser_witness <$> (scriptWitness <$> l)) ++ rest) =
  Some (l, rest).
Proof.
  induction 1 as [|i l [_ Hw] _ IH]; [done|]. rewrite !fmap_cons. cbn [concat read_witnesses].
  rewrite <- app_assoc, ser_roundtrip by done. ocbn. rewrite IH. ocbn. by destruct i.
Qed.

Lemma read_witnesses_inv (l : list CTxIn) (s rest : list Z) (l' : list CTxIn) :
  bytes_ok s → Forall bare_txin_ok l → read_witnesses l s = Some (l', rest) →
  l = strip_witness <$> l' ∧ Forall txin_ok l' ∧
  s = concat (Serialize ser_witness <$> (scriptWitness <$> l')) ++ rest.
Proof.
  intros Hb Hl. revert s l' Hb. induction Hl as [|i l Hi Hl IH]; intros s l' Hb; cbn [read_witnesses].
  { by intros [= <- <-]. }
  destruct (Unserialize ser_witness s) as [[wit s1]|] eqn:E; [|done]. ocbn.
  destruct (ser_canonical s wit s1 Hb E) as [Hw ->]. apply Forall_app in Hb as [_ Hb].
  destruct (read_witnesses l s1) as [[l1 s2]|] eqn:E1; [|done]. ocbn. intros [= <- <-].
  destruct (IH s1 l1 Hb E1) as (-> & Hok & ->).
  assert (strip_witness (with_witness i wit) = i) as Es.
  { destruct i, Hi as (_ & _ & _ & Ew). cbn in *. by rewrite Ew. }
  rewrite !fmap_cons, Es. cbn [concat scriptWitness with_witness]. rewrite app_assoc. split_and!; [done| |done].
  constructor; [|done]. by split; [rewrite Es|].
Qed.

Lemma HasWitness_false (l : list CTxIn) (tx : CTransaction) :
  vin tx = l → HasWitness tx = false ↔ strip_witness <$> l = l.
Proof.
  intros <-. unfold HasWitness. induction (vin tx) as [|i l IH]; [done|]. rewrite fmap_cons.
  cbn [existsb]. rewrite orb_false_iff, IH, negb_false_iff, Nat.eqb_eq, length_zero_iff_nil. split.
  - intros [E ->]. f_equal. destruct i. cbn in *. by rewrite E.
  - intros [= E ->]. split; [|done]. by rewrite <- E.
Qed.

(** ** The two formats *)

Definition basic_format (tx : CTransaction) : list Z :=
  Serialize ser_int32 (nVersion tx) ++ Serialize ser_vin (vin tx) ++ Serialize ser_vout (vout tx) ++
  Serialize ser_uint32 (nLockTime tx).

Definition extended_format (tx : CTransaction) : list Z :=
  Serialize ser_int32 (nVersion tx) ++ [0; 1] ++ Serialize ser_vin (vin tx) ++ Serialize ser_vout (vout tx) ++
  concat (Serialize ser_witness <$> (scriptWitness <$> vin tx)) ++ Serialize ser_uint32 (nLockTime tx).

Lemma SerializeTransaction_format (version : Z) (tx : CTransaction) :
  SerializeTransaction version tx =
  if allow_witness version && HasWitness tx then extended_format tx else basic_format tx.
Proof.
  unfold SerializeTransaction, extended_format, basic_format.
  by destruct (allow_witness version), (HasWitness tx).
Qed.

Lemma read_uint8 (b : Z) (s : list Z) : Unserialize ser_uint8 (b :: s) = Some (b, s).
Proof. done. Qed.

Lemma read_vin_nil (s : list Z) : Unserialize ser_vin (0 :: s) = Some ([], s).
Proof. done. Qed.

(** Rewrites the reads of a stream whose front is a serialized value. *)
Ltac stream_step :=
  first [rewrite ser_roundtrip by done | rewrite read_vin by done | rewrite read_uint8 | rewrite read_vin_nil];
  ocbn.

Lemma read_extended (version : Z) (tx : CTransaction) (rest : list Z) :
  allow_witness version = true → tx_ok tx →
  UnserializeTransaction version (extended_format tx ++ rest) = Some (tx, rest).
Proof.
  intros Ha (Hi & Ho & Hv & Hl). unfold UnserializeTransaction, extended_format. rewrite Ha.
  rewrite <- !app_assoc. cbn [app]. do 2 stream_step. cbn [length Nat.eqb andb]. stream_step.
  change (negb (1 =? 0)) with true. cbn iota. do 2 stream_step.
  change (negb (1 .& 1 =? 0)) with true. cbn [andb]. rewrite read_witnesses_app by apply Hi. ocbn.
  change (negb (1 .^ 1 =? 0)) with false. cbn iota. stream_step. by destruct tx.
Qed.

Lemma read_basic (version : Z) (tx : CTransaction) (rest : list Z) :
  tx_ok tx → (allow_witness version = true → vin tx ≠ [] ∨ vout tx = []) →
  UnserializeTransaction version (basic_format tx ++ rest) = Some (without_witness tx, rest).
Proof.
  intros (Hi & Ho & Hv & Hl) Hne. unfold UnserializeTransaction, basic_format, without_witness.
  rewrite <- !app_assoc. do 2 stream_step. rewrite length_fmap.
  destruct ((length (vin tx) =? 0)%nat && allow_witness version) eqn:E.
  - apply andb_prop in E as [E Ea]. apply Nat.eqb_eq, length_zero_iff_nil in E.
    destruct (Hne Ea) as [|Eo]; [done|]. rewrite Eo, E. change (Serialize ser_vout []) with [0].
    cbn [app]. stream_step. change (negb (0 =? 0)) with false. ocbn.
    change (negb (0 .& 1 =? 0)) with false. cbn [andb]. ocbn. by stream_step.
  - stream_step. change (negb (0 .& 1 =? 0)) with false. cbn [andb]. ocbn.
    change (negb (0 =? 0)) with false. cbn iota. by stream_step.
Qed.

Lemma without_witness_id (tx : CTransaction) : HasWitness tx = false → without_witness tx = tx.
Proof.
  intros E. apply (HasWitness_false (vin tx)) in E; [|done]. unfold without_witness. rewrite E. by destruct tx.
Qed.

Lemma HasWitness_vin (tx : CTransaction) : HasWitness tx = true → vin tx ≠ [].
Proof. unfold HasWitness. by destruct (vin tx). Qed.

Lemma UnserializeTransaction_app (version : Z) (tx : CTransaction) (rest : list Z) :
  tx_ok tx → (allow_witness version = true → vin tx ≠ [] ∨ vout tx = []) →
  UnserializeTransaction version (SerializeTransaction version tx ++ rest) =
  Some (if allow_witness version then tx else without_witness tx, rest).
Proof.
  intros Htx Hne. rewrite SerializeTransaction_format.
  destruct (allow_witness version && HasWitness tx) eqn:E.
  - apply andb_prop in E as [Ea Eh]. rewrite Ea. by apply read_extended.
  - rewrite read_basic by done. destruct (allow_witness version); [|done].
    by rewrite without_witness_id.
Qed.

(** ** What is read *)

Lemma bare_txin_txin (l : list CTxIn) :
  vector_ok bare_txin_ok l → vector_ok txin_ok l ∧ strip_witness <$> l = l.
Proof.
  intros [Hv Hl]. assert (∀ i, bare_txin_ok i → strip_witness i = i) as Hs.
  { intros [? ? ? ?] (_ & _ & _ & E). cbn in *. by rewrite E. }
  split; [split; [|done]|].
  - revert Hv. apply Forall_impl. intros i Hi. split; [by rewrite Hs|].
    destruct Hi as (_ & _ & _ & ->). by split.
  - rewrite <- (list_fmap_id l) at 2. apply list_fmap_ext. intros k i Hk.
    apply Hs. by eapply Forall_lookup_1.
Qed.

Lemma flag_one (flags : Z) : is_word 8 flags → flags .^ 1 = 0 → flags = 1.
Proof. intros _ E. apply (f_equal (Z.lxor 1)) in E. by rewrite Z.lxor_comm, Z.lxor_assoc, Z.lxor_nilpotent, Z.lxor_0_r in E. Qed.

(** One step of a successful read: the value and the stream it came from. *)
Ltac unread_step Hb :=
  match goal with
  | |- context [Unserialize ?c ?s] =>
      let E := fresh "E" in let Hv := fresh "Hv" in
      destruct (Unserialize c s) as [[? ?]|] eqn:E; [ocbn|done];
      apply ser_canonical in E as [Hv ->]; [|exact Hb]; apply Forall_app in Hb as [_ Hb]
  end.

Section Inversion.
Context (version : Z) (rest : list Z).

(** The result of reading: a well-formed transaction and the format it had. *)
Definition read_result (tx : CTransaction) (s : list Z) : Prop :=
  tx_ok tx ∧
  (s = basic_format tx ++ rest ∧ HasWitness tx = false ∨
   s = extended_format tx ++ rest ∧ allow_witness version = true).

Lemma read_basic_inv (tx : CTransaction) (ver : Z) (ins : list CTxIn) (outs : list CTxOut) (s : list Z) :
  is_int 32 ver → vector_ok bare_txin_ok ins → vector_ok txout_ok outs → bytes_ok s →
  ('(nLockTime, s) ← Unserialize ser_uint32 s;
   Some ({| vin := ins; vout := outs; nVersion := ver; nLockTime := nLockTime |}, s)) = Some (tx, rest) →
  read_result tx (Serialize ser_int32 ver ++ Serialize ser_vin ins ++ Serialize ser_vout outs ++ s).
Proof.
  intros Hver Hins Houts Hb. unread_step Hb. intros [= <- ->].
  destruct (bare_txin_txin ins Hins) as [Hi Es].
  split; [exact (conj Hi (conj Houts (conj Hver Hv)))|]. left. split.
  - unfold basic_format. by rewrite <- !app_assoc.
  - by apply (HasWitness_false ins).
Qed.

Lemma read_extended_inv (tx : CTransaction) (ver : Z) (ins : list CTxIn) (outs : list CTxOut) (s : list Z) :
  allow_witness version = true →
  is_int 32 ver → vector_ok bare_txin_ok ins → vector_ok txout_ok outs → bytes_ok s →
  ('(ins, s) ← read_witnesses ins s;
   '(nLockTime, s) ← Unserialize ser_uint32 s;
   Some ({| vin := ins; vout := outs; nVersion := ver; nLockTime := nLockTime |}, s)) = Some (tx, rest) →
  read_result tx (Serialize ser_int32 ver ++ [0; 1] ++ Serialize ser_vin ins ++ Serialize ser_vout outs ++ s).
Proof.
  intros Ha Hver [Hins Hlen] Houts Hb. destruct (read_witnesses ins s) as [[ins' s1]|] eqn:E; [|done]. ocbn.
  destruct (read_witnesses_inv ins s s1 ins' Hb Hins E) as (-> & Hok & ->).
  apply Forall_app in Hb as [_ Hb]. unread_step Hb. intros [= <- ->]. rewrite length_fmap in Hlen.
  split; [exact (conj (conj Hok Hlen) (conj Houts (conj Hver Hv)))|]. right. split; [|done]. unfold extended_format. cbn [vin vout nVersion nLockTime].
  by rewrite ser_vin_strip, <- !app_assoc.
Qed.

Lemma UnserializeTransaction_inv (tx : CTransaction) (s : list Z) :
  bytes_ok s → UnserializeTransaction version s = Some (tx, rest) → read_result tx s.
Proof.
  intros Hb. unfold UnserializeTransaction. do 2 unread_step Hb. rename z into ver, l0 into ins.
  destruct ((length ins =? 0)%nat && allow_witness version) eqn:E1.
  - apply andb_prop in E1 as [E1 Ea]. apply Nat.eqb_eq, length_zero_iff_nil in E1 as ->.
    unread_step Hb. rename z into flags. destruct (flags =? 0) eqn:E2; cbn [negb].
    + bool_to_prop. subst flags. ocbn. change (negb (0 .& 1 =? 0)) with false. cbn [andb]. ocbn.
      change (negb (0 =? 0)) with false. cbn iota. intros E.
      exact (read_basic_inv tx ver [] [] _ Hv Hv0 ltac:(done) Hb E).
    + do 2 unread_step Hb. destruct (flags .& 1 =? 0) eqn:E3; cbn [negb andb].
      { ocbn. by rewrite E2. }
      rewrite Ea. cbn [andb]. destruct (read_witnesses _ _) as [[ins' s1]|] eqn:Er; [|done]. ocbn.
      destruct (flags .^ 1 =? 0) eqn:E4; [|done]. cbn [negb]. bool_to_prop.
      apply flag_one in E4 as ->; [|done]. intros E. apply read_extended_inv; try done. rewrite Er. exact E.
  - unread_step Hb. change (negb (0 .& 1 =? 0)) with false. cbn [andb]. ocbn.
    change (negb (0 =? 0)) with false. cbn iota. intros E. by apply read_basic_inv.
Qed.
End Inversion.

Lemma witness_sizes (l : list CTxIn) :
  Forall txin_ok l →
  foldr (λ txin acc, GetSerializeSize ser_witness (scriptWitness txin) + acc) 0 l =
  length (concat (Serialize ser_witness <$> (scriptWitness <$> l))).
Proof.
  induction 1 as [|i l [_ Hw] _ IH]; [done|]. rewrite !fmap_cons. cbn [foldr concat].
  rewrite length_app, Nat2Z.inj_add, IH. f_equal. by apply ser_size.
Qed.

Lemma TransactionSize_length (version : Z) (tx : CTransaction) :
  tx_ok tx → TransactionSize version tx = length (SerializeTransaction version tx).
Proof.
  intros (Hi & Ho & Hv & Hl).
  assert (GetSerializeSize ser_vin (vin tx) = length (Serialize ser_vin (vin tx))) as E1.
  { rewrite <- size_vin_strip, <- ser_vin_strip. by apply ser_size, vin_strip_ok. }
  unfold TransactionSize. rewrite SerializeTransaction_format, E1, (witness_sizes _ (proj1 Hi)).
  change (GetSerializeSize ser_vin []) with 1. unfold extended_format, basic_format.
  rewrite (ser_size (c := ser_int32)), (ser_size (c := ser_vout)), (ser_size (c := ser_uint32)) by done.
  destruct (allow_witness version), (HasWitness tx); cbn [negb andb Z.eqb];
    rewrite !length_app; change (GetSerializeSize ser_uint8 1) with 1; change (0 .& 1) with 0;
    change (1 .& 1) with 1; cbn [length negb Z.eqb]; lia.
Qed.

(** The amounts of a sum that never left the range. *)
Lemma GetValueOut_loop_spec (outs : list CTxOut) (acc v : Z) :
  Forall (λ o, is_int 64 (nValue o)) outs → MoneyRange acc = true →
  GetValueOut_loop outs acc = Some v ↔
  Forall (λ o, MoneyRange (nValue o) = true) outs ∧
  v = foldr (λ o t, nValue o + t) acc outs ∧ MoneyRange v = true.
Proof.
  intros Hi. revert acc. induction Hi as [|o outs Ho Hi IH]; intros acc Hacc; cbn [GetValueOut_loop foldr].
  - split; [by intros [= <-]|]. by intros (_ & -> & _).
  - assert (∀ l a, foldr (λ o t, nValue o + t) a l = a + foldr (λ o t, nValue o + t) 0 l) as Hf.
    { induction l as [|x l IHl]; intros a; cbn [foldr]; [lia|]. rewrite (IHl a). lia. }
    rewrite Forall_cons_iff. destruct (MoneyRange (nValue o)) eqn:Em; cbn [negb orb].
    2:{ split; [done|]. by intros [[? _] _]. }
    unfold MoneyRange in Hacc, Em. bool_to_prop. unfold MAX_MONEY, COIN in *.
    unfold i64. rewrite signed_small by lia. destruct (MoneyRange (acc + nValue o)) eqn:Es; cbn [negb].
    + rewrite IH by done. rewrite !(Hf outs (acc + _)), (Hf outs acc). split.
      * intros (? & -> & ?). split_and!; [done..|lia|done].
      * intros ([_ ?] & -> & ?). split_and!; [done|lia|done].
    + split; [done|]. intros ([_ Hall] & -> & Hr). exfalso.
      assert (0 <= foldr (λ o t, nValue o + t) 0 outs) as Hpos.
      { clear -Hall. induction Hall as [|x l Hx Hl IHl]; cbn [foldr]; [lia|].
        unfold MoneyRange in Hx. bool_to_prop. lia. }
      unfold MoneyRange in Es, Hr. bool_to_prop. rewrite (Hf outs acc) in *. unfold MAX_MONEY, COIN in *. lia.
Qed.

(** ** Properties *)

(** C27: a transaction survives serialization.  With witnesses allowed it is read back
    unchanged, provided it has an input or no output (a transaction with
    outputs only would be mistaken for the extended format); without, exactly
    its witnesses are lost.  The computed size is the number of bytes written. *)
Theorem SerializeTransaction_roundtrip (version : Z) (tx : CTransaction) (rest : list Z) :
  tx_ok tx → (allow_witness version = true → vin tx ≠ [] ∨ vout tx = []) →
  UnserializeTransaction version (SerializeTransaction version tx ++ rest) =
    Some (if allow_witness version then tx else without_witness tx, rest) ∧
  TransactionSize version tx = length (SerializeTransaction version tx).
Proof. intros. split; [by apply UnserializeTransaction_app|by apply TransactionSize_length]. Qed.

(** whatever bytes are accepted as a transaction, the result is well formed and the
    bytes consumed are its serialization; the one exception, possible only with
    witnesses allowed, is the extended format used for a transaction whose
    witnesses are all empty. *)
Theorem UnserializeTransaction_sound (version : Z) (s : list Z) (tx : CTransaction) (rest : list Z) :
  bytes_ok s → UnserializeTransaction version s = Some (tx, rest) →
  tx_ok tx ∧
  (s = SerializeTransaction version tx ++ rest ∨
   allow_witness version = true ∧ HasWitness tx = false ∧ s = extended_format tx ++ rest).
Proof.
  intros Hb E. destruct (UnserializeTransaction_inv version rest tx s Hb E) as [Hok Hf]. split; [done|].
  rewrite SerializeTransaction_format. destruct Hf as [[-> ->]|[-> ->]].
  - left. by rewrite andb_false_r.
  - destruct (HasWitness tx); [by left|by right].
Qed.

Lemma SerializeTransaction_inj (version : Z) (a b : CTransaction) :
  tx_ok a → tx_ok b →
  (allow_witness version = true → vin a ≠ [] ∧ vin b ≠ []) →
  SerializeTransaction version a = SerializeTransaction version b →
  (if allow_witness version then a else without_witness a) =
  (if allow_witness version then b else without_witness b).
Proof.
  intros Ha Hb Hv E.
  pose proof (UnserializeTransaction_app version a [] Ha ltac:(intros ?; left; by apply Hv)) as Ra.
  pose proof (UnserializeTransaction_app version b [] Hb ltac:(intros ?; left; by apply Hv)) as Rb.
  rewrite E, Rb in Ra. congruence.
Qed.

(** A transaction without witnesses has one serialization. *)
Lemma GetWitnessHash_preimage `{CryptoHash} (tx : CTransaction) :
  GetWitnessHash tx = CHash256 (SerializeTransaction 0 tx).
Proof.
  unfold GetWitnessHash, GetHash. rewrite !SerializeTransaction_format. by destruct (HasWitness tx).
Qed.

(** transaction hashes identify transactions.  Two well-formed transactions with the
    same hash agree in everything but the witnesses, and with the same witness
    hash they are equal when they have inputs, unless their two serializations
    themselves collide under the double SHA-256. *)
Theorem GetHash_commits `{CryptoHash} (a b : CTransaction) :
  tx_ok a → tx_ok b →
  (GetHash a = GetHash b →
     without_witness a = without_witness b ∨
     collides (SerializeTransaction SERIALIZE_TRANSACTION_NO_WITNESS a)
              (SerializeTransaction SERIALIZE_TRANSACTION_NO_WITNESS b)) ∧
  (GetWitnessHash a = GetWitnessHash b → vin a ≠ [] → vin b ≠ [] →
     a = b ∨ collides (SerializeTransaction 0 a) (SerializeTransaction 0 b)).
Proof.
  intros Ha Hb. split.
  - intros [E|]%CHash256_cases; [left|by right].
    by apply (SerializeTransaction_inj SERIALIZE_TRANSACTION_NO_WITNESS a b Ha Hb).
  - rewrite !GetWitnessHash_preimage. intros [E|]%CHash256_cases Hva Hvb; [left|by right].
    by apply (SerializeTransaction_inj 0 a b Ha Hb).
Qed.

(** the value of a transaction is the sum of its outputs, computed without overflow,
    exactly when each output and the total are within the money range; otherwise
    the code throws. *)
Theorem GetValueOut_correct (tx : CTransaction) (v : Z) :
  Forall (λ o, is_int 64 (nValue o)) (vout tx) →
  GetValueOut tx = Some v ↔
  Forall (λ o, MoneyRange (nValue o) = true) (vout tx) ∧
  v = foldr (λ o t, nValue o + t) 0 (vout tx) ∧ MoneyRange v = true.
Proof. intros Hi. by apply GetValueOut_loop_spec. Qed.

(** ** A transaction to run *)

Definition demo_in (wit : list (list Z)) : CTxIn := {|
  prevout := {| hash := replicate 32 7; n := 1 |}; scriptSig := [0x51];
  nSequence := 0xfffffffe; scriptWitness := wit |}.

Definition demo_tx (wit : list (list Z)) : CTransaction := {|
  vin := [demo_in wit];
  vout := [{| nValue := 5 * COIN; scriptPubKey := [0x51; 0x52] |}; {| nValue := COIN; scriptPubKey := [] |}];
  nVersion := 2; nLockTime := 77 |}.

Lemma demo_tx_ok (wit : list (list Z)) : witness_ok wit → tx_ok (demo_tx wit).
Proof.
  intros Hw. assert (∀ z, 0 <= z < 256 → is_byte z) as Hz by done.
  assert (∀ l : list Z, bytes_ok l → length l <= 100 → blob_ok l) as Hbl.
  { intros l ? ?. split; [done|]. unfold MAX_SIZE. lia. }
  split; [|split; [|split]]; [| |unfold is_int; cbn; lia|unfold is_word; cbn; lia].
  - split; [|cbn; unfold MAX_SIZE; lia]. constructor; [|done]. split; [|done].
    split; [|split; [|split; [|done]]].
    + split; [|unfold is_word; cbn; lia]. split; [done|]. apply Forall_replicate, Hz. lia.
    + apply Hbl; [|cbn; lia]. repeat constructor; lia.
    + unfold is_word; cbn; lia.
  - split; [|cbn; unfold MAX_SIZE; lia].
    repeat constructor; cbn; unfold MAX_SIZE, COIN; lia.
Qed.

Lemma demo_witness_ok : witness_ok [[1; 2]; []].
Proof. split; [|cbn; unfold MAX_SIZE; lia]. repeat constructor; cbn; unfold MAX_SIZE; lia. Qed.

Lemma SerializeTransaction_roundtrip_witness :
  UnserializeTransaction 0 (SerializeTransaction 0 (demo_tx [[1; 2]; []]) ++ [9]) =
    Some (demo_tx [[1; 2]; []], [9]) ∧
  TransactionSize 0 (demo_tx [[1; 2]; []]) = 79.
Proof.
  apply (SerializeTransaction_roundtrip 0 (demo_tx [[1; 2]; []]) [9]).
  - apply demo_tx_ok, demo_witness_ok.
  - intros _. by left.
Defined.

Lemma UnserializeTransaction_sound_witness :
  tx_ok (demo_tx []) ∧
  (extended_format (demo_tx []) ++ [9] = SerializeTransaction 0 (demo_tx []) ++ [9] ∨
   allow_witness 0 = true ∧ HasWitness (demo_tx []) = false ∧
   extended_format (demo_tx []) ++ [9] = extended_format (demo_tx []) ++ [9]).
Proof.
  apply (UnserializeTransaction_sound 0 (extended_format (demo_tx []) ++ [9]) (demo_tx []) [9]).
  - vm_compute. repeat constructor; discriminate.
  - reflexivity.
Defined.

Lemma GetHash_commits_witness :
  without_witness (demo_tx [[1; 2]; []]) = without_witness (demo_tx []) ∨
  @collides toy_hash (SerializeTransaction SERIALIZE_TRANSACTION_NO_WITNESS (demo_tx [[1; 2]; []]))
    (SerializeTransaction SERIALIZE_TRANSACTION_NO_WITNESS (demo_tx [])).
Proof.
  apply (@GetHash_commits toy_hash (demo_tx [[1; 2]; []]) (demo_tx [])).
  - apply demo_tx_ok, demo_witness_ok.
  - apply demo_tx_ok. split; [done|cbn; unfold MAX_SIZE; lia].
  - reflexivity.
Defined.

Lemma GetValueOut_correct_witness : GetValueOut (demo_tx []) = Some (6 * COIN).
Proof.
  apply (GetValueOut_correct (demo_tx []) (6 * COIN)).
  - repeat constructor; cbn; unfold COIN; lia.
  - split; [repeat constructor|split; reflexivity].
Defined.
