(* ===== verification/SigHash.v ===== *)
(** * Signature hashes and the transaction signature checker
    ([src/src/script/interpreter.cpp], [src/src/pubkey.h])

    The message a signature signs, for the legacy and the witness version, and
    [TransactionSignatureChecker].  An index out of range, which the code excludes
    by an assertion, is [None].  The reference implementation the legacy hash is
    compared with is the one kept in [src/src/test/sighash_tests.cpp]. *)

From Stdlib Require Import ZArith Lia.
From stdpp Require Import list option.
From S2P Require Import Prelude Common Crypto Script Interpreter Serialize Transaction.

Open Scope Z_scope.
Open Scope word_scope.

(** ** The serializer of the legacy hash *)

(** The first pass of [SerializeScriptCode] counts the separators. *)
Fixpoint count_separators (fuel : nat) (it : list Z) (nCodeSeparators : Z) : Z :=
  match fuel with
  | O => nCodeSeparators
  | S fuel' =>
      match GetOp it with
      | (Some (opcode, _), it) =>
          count_separators fuel' it
            (if opcode =? OP_CODESEPARATOR then nCodeSeparators + 1 else nCodeSeparators)
      | (None, _) => nCodeSeparators
      end
  end.

(** The second pass writes the pieces between them; the result is the output, [it] where
    the parse stopped and [itBegin]. *)
Fixpoint write_pieces (fuel : nat) (it itBegin out : list Z) : list Z * list Z * list Z :=
  match fuel with
  | O => (out, it, itBegin)
  | S fuel' =>
      match GetOp it with
      | (Some (opcode, _), it) =>
          if opcode =? OP_CODESEPARATOR
          then write_pieces fuel' it it (out ++ take (length itBegin - length it - 1) itBegin)
          else write_pieces fuel' it itBegin out
      | (None, it) => (out, it, itBegin)
      end
  end.

Definition SerializeScriptCode (scriptCode : CScript) : list Z :=
  let nCodeSeparators := count_separators (S (length scriptCode)) scriptCode 0 in
  let '(out, it, itBegin) := write_pieces (S (length scriptCode)) scriptCode scriptCode [] in
  WriteCompactSize (length scriptCode - nCodeSeparators) ++ out ++
  (if negb (length itBegin =? 0)%nat then range itBegin it else []).

Section Serializer.
Context (txTo : CTransaction) (scriptCode : CScript) (nIn : nat) (nHashType : Z).

Definition fAnyoneCanPay : bool := negb (nHashType .& SIGHASH_ANYONECANPAY =? 0).
Definition fHashSingle : bool := nHashType .& 0x1f =? SIGHASH_SINGLE.
Definition fHashNone : bool := nHashType .& 0x1f =? SIGHASH_NONE.

Definition SerializeInput (nInput : nat) : option (list Z) :=
  let nInput := if fAnyoneCanPay then nIn else nInput in
  txin ← vin txTo !! nInput;
  Some (Serialize ser_COutPoint (prevout txin) ++
        (if negb (nInput =? nIn)%nat then Serialize ser_bytes [] else SerializeScriptCode scriptCode) ++
        (if negb (nInput =? nIn)%nat && (fHashSingle || fHashNone) then Serialize ser_int32 0
         else Serialize ser_uint32 (nSequence txin))).

Definition SerializeOutput (nOutput : nat) : option (list Z) :=
  if fHashSingle && negb (nOutput =? nIn)%nat then Some (Serialize ser_CTxOut CTxOut_null)
  else txout ← vout txTo !! nOutput; Some (Serialize ser_CTxOut txout).

Definition SignatureSerialize : option (list Z) :=
  let nInputs := if fAnyoneCanPay then 1%nat else length (vin txTo) in
  let nOutputs :=
    if fHashNone then 0%nat else if fHashSingle then S nIn else length (vout txTo) in
  inputs ← mapM SerializeInput (seq 0 nInputs);
  outputs ← mapM SerializeOutput (seq 0 nOutputs);
  Some (Serialize ser_int32 (nVersion txTo) ++
        WriteCompactSize nInputs ++ concat inputs ++
        WriteCompactSize nOutputs ++ concat outputs ++
        Serialize ser_uint32 (nLockTime txTo)).
End Serializer.

(** ** The hash *)

Record PrecomputedTransactionData := {
  hashPrevouts : list Z; hashSequence : list Z; hashOutputs : list Z; ready : bool
}.

(** [uint256S] of the number one. *)
Definition uint256_one : list Z := 1 :: replicate 31 0.

Section SignatureHash.
Context `{CryptoHash}.

Definition GetPrevoutHash (txTo : CTransaction) : list Z :=
  CHash256 (concat ((λ txin, Serialize ser_COutPoint (prevout txin)) <$> vin txTo)).
Definition GetSequenceHash (txTo : CTransaction) : list Z :=
  CHash256 (concat ((λ txin, Serialize ser_uint32 (nSequence txin)) <$> vin txTo)).
Definition GetOutputsHash (txTo : CTransaction) : list Z :=
  CHash256 (concat (Serialize ser_CTxOut <$> vout txTo)).

Definition precompute (txTo : CTransaction) : PrecomputedTransactionData :=
  if HasWitness txTo then
    {| hashPrevouts := GetPrevoutHash txTo; hashSequence := GetSequenceHash txTo;
       hashOutputs := GetOutputsHash txTo; ready := true |}
  else {| hashPrevouts := uint256_null; hashSequence := uint256_null;
          hashOutputs := uint256_null; ready := false |}.

(** The branch of [SignatureHash] for [SIGVERSION_WITNESS_V0]. *)
Definition WitnessSignatureHash (scriptCode : CScript) (txTo : CTransaction) (nIn : nat)
    (nHashType amount : Z) (cache : option PrecomputedTransactionData) : option (list Z) :=
  txin ← vin txTo !! nIn;
  let cached (get : PrecomputedTransactionData → list Z) (compute : list Z) : list Z :=
    match cache with
    | Some c => if ready c then get c else compute
    | None => compute
    end in
  let any := negb (nHashType .& SIGHASH_ANYONECANPAY =? 0) in
  let base := nHashType .& 0x1f in
  let hPrevouts := if negb any then cached hashPrevouts (GetPrevoutHash txTo) else uint256_null in
  let hSequence :=
    if negb any && negb (base =? SIGHASH_SINGLE) && negb (base =? SIGHASH_NONE)
    then cached hashSequence (GetSequenceHash txTo) else uint256_null in
  let hOutputs :=
    if negb (base =? SIGHASH_SINGLE) && negb (base =? SIGHASH_NONE)
    then cached hashOutputs (GetOutputsHash txTo)
    else
      match vout txTo !! nIn with
      | Some txout => if base =? SIGHASH_SINGLE then CHash256 (Serialize ser_CTxOut txout) else uint256_null
      | None => uint256_null
      end in
  Some (CHash256 (
    Serialize ser_int32 (nVersion txTo) ++
    Serialize ser_uint256 hPrevouts ++
    Serialize ser_uint256 hSequence ++
    Serialize ser_COutPoint (prevout txin) ++
    Serialize ser_bytes scriptCode ++
    Serialize ser_int64 amount ++
    Serialize ser_uint32 (nSequence txin) ++
    Serialize ser_uint256 hOutputs ++
    Serialize ser_uint32 (nLockTime txTo) ++
    Serialize ser_int32 nHashType)).

Definition SignatureHash (scriptCode : CScript) (txTo : CTransaction) (nIn : nat) (nHashType amount : Z)
    (sigversion : SigVersion) (cache : option PrecomputedTransactionData) : option (list Z) :=
  if negb (nIn <? length (vin txTo))%nat then None
  else
    match sigversion with
    | SIGVERSION_WITNESS_V0 => WitnessSignatureHash scriptCode txTo nIn nHashType amount cache
    | SIGVERSION_BASE =>
        if (nHashType .& 0x1f =? SIGHASH_SINGLE) && (length (vout txTo) <=? nIn)%nat
        then Some uint256_one
        else
          ss ← SignatureSerialize txTo scriptCode nIn nHashType;
          Some (CHash256 (ss ++ Serialize ser_int32 nHashType))
    end.

(** ** The reference implementation of the tests *)

Definition with_scriptSig (txin : CTxIn) (script : CScript) : CTxIn :=
  {| prevout := prevout txin; scriptSig := script; nSequence := nSequence txin;
     scriptWitness := scriptWitness txin |}.
Definition with_nSequence (txin : CTxIn) (seqno : Z) : CTxIn :=
  {| prevout := prevout txin; scriptSig := scriptSig txin; nSequence := seqno;
     scriptWitness := scriptWitness txin |}.

(** [for i: if (i != nIn) txTmp.vin[i].nSequence = 0]. *)
Definition clear_sequences (nIn : nat) (l : list CTxIn) : list CTxIn :=
  imap (λ i txin, if negb (i =? nIn)%nat then with_nSequence txin 0 else txin) l.

Definition SignatureHashOld (scriptCode : CScript) (txTo : CTransaction) (nIn : nat) (nHashType : Z) :
    option (list Z) :=
  if (length (vin txTo) <=? nIn)%nat then Some uint256_one
  else
    let scriptCode := (FindAndDelete scriptCode [OP_CODESEPARATOR]).1 in
    let ins := (λ txin, with_scriptSig txin []) <$> vin txTo in
    txin ← ins !! nIn;
    let ins := <[nIn := with_scriptSig txin scriptCode]> ins in
    let base := nHashType .& 0x1f in
    let finish (ins : list CTxIn) (outs : list CTxOut) : option (list Z) :=
      ins ← (if negb (nHashType .& SIGHASH_ANYONECANPAY =? 0)
             then txin ← ins !! nIn; Some [txin] else Some ins);
      Some (CHash256 (
        SerializeTransaction SERIALIZE_TRANSACTION_NO_WITNESS
          {| vin := ins; vout := outs; nVersion := nVersion txTo; nLockTime := nLockTime txTo |} ++
        Serialize ser_int32 nHashType)) in
    if base =? SIGHASH_NONE then finish (clear_sequences nIn ins) []
    else if base =? SIGHASH_SINGLE then
      if (length (vout txTo) <=? nIn)%nat then Some uint256_one
      else finish (clear_sequences nIn ins) (replicate nIn CTxOut_null ++ take 1 (drop nIn (vout txTo)))
    else finish ins (vout txTo).

(** ** Public keys and the checker *)

Definition GetLen (chHeader : Z) : Z :=
  if (chHeader =? 2) || (chHeader =? 3) then 33
  else if (chHeader =? 4) || (chHeader =? 6) || (chHeader =? 7) then 65
  else 0.

(** The stored bytes; an invalid key is the header [0xFF]. *)
Definition CPubKey_Set (vch : list Z) : list Z :=
  let len := match vch with [] => 0 | h :: _ => GetLen h end in
  if negb (len =? 0) && (len =? length vch) then vch else [0xFF].

Definition CPubKey_size (key : list Z) : Z := GetLen (key.[0]).
Definition CPubKey_IsValid (key : list Z) : bool := 0 <? CPubKey_size key.
Definition CPubKey_IsCompressed (key : list Z) : bool := CPubKey_size key =? 33.

Context `{Secp256k1}.

Definition VerifySignature (vchSig pubkey sighash : list Z) : bool := secp_verify pubkey sighash vchSig.

Section Checker.
Context (txTo : CTransaction) (nIn : nat) (amount : Z) (txdata : option PrecomputedTransactionData).

(** [CheckSig] calls the virtual [VerifySignature], given here; [Abort] where [SignatureHash] fails its assertion. *)
Definition TxCheckSig {M : Type → Type} `{EvalMonad M} (verify : list Z → list Z → list Z → M bool)
    (vchSigIn vchPubKey : list Z) (scriptCode : CScript) (sigversion : SigVersion) : M bool :=
  let pubkey := CPubKey_Set vchPubKey in
  if negb (CPubKey_IsValid pubkey) then mres (Ok false)
  else
    match list.last vchSigIn with
    | None => mres (Ok false)
    | Some nHashType =>
        let vchSig := removelast vchSigIn in
        match SignatureHash scriptCode txTo nIn nHashType amount sigversion txdata with
        | None => mres Abort
        | Some sighash => verify vchSig pubkey sighash
        end
    end.

Definition TxCheckLockTime (nLockTime_ : Z) : bool :=
  if negb (((nLockTime txTo <? LOCKTIME_THRESHOLD) && (nLockTime_ <? LOCKTIME_THRESHOLD))
           || ((LOCKTIME_THRESHOLD <=? nLockTime txTo) && (LOCKTIME_THRESHOLD <=? nLockTime_)))
  then false
  else if nLockTime txTo <? nLockTime_ then false
  else
    match vin txTo !! nIn with
    | Some txin => if SEQUENCE_FINAL =? nSequence txin then false else true
    | None => false
    end.

Definition TxCheckSequence (nSequence_ : Z) : bool :=
  match vin txTo !! nIn with
  | None => false
  | Some txin =>
      let txToSequence := nSequence txin in
      if u32 (nVersion txTo) <? 2 then false
      else if negb (txToSequence .& SEQUENCE_LOCKTIME_DISABLE_FLAG =? 0) then false
      else
        let nLockTimeMask := SEQUENCE_LOCKTIME_TYPE_FLAG .| SEQUENCE_LOCKTIME_MASK in
        let txToSequenceMasked := txToSequence .& nLockTimeMask in
        let nSequenceMasked := ScriptNum.band nSequence_ nLockTimeMask in
        if negb (((txToSequenceMasked <? SEQUENCE_LOCKTIME_TYPE_FLAG)
                  && (nSequenceMasked <? SEQUENCE_LOCKTIME_TYPE_FLAG))
                 || ((SEQUENCE_LOCKTIME_TYPE_FLAG <=? txToSequenceMasked)
                     && (SEQUENCE_LOCKTIME_TYPE_FLAG <=? nSequenceMasked)))
        then false
        else if txToSequenceMasked <? nSequenceMasked then false
        else true
  end.

(** The class, with the method that its subclasses override. *)
Definition signature_checker {M : Type → Type} `{EvalMonad M} (verify : list Z → list Z → list Z → M bool) : SignatureChecker M := {|
  CheckSigM := TxCheckSig verify;
  CheckLockTimeM := TxCheckLockTime;
  CheckSequenceM := TxCheckSequence |}.

Definition TransactionSignatureChecker : SignatureChecker Res :=
  signature_checker (λ vchSig pubkey sighash, Ok (VerifySignature vchSig pubkey sighash)).
End Checker.
End SignatureHash.

(** ** The script code *)

(** Scripts that can be read to their end. *)
Inductive parses : list Z → Prop :=
  | parses_nil : parses []
  | parses_op (s rest : list Z) (x : opcodetype * valtype) :
      GetOp s = (Some x, rest) → parses rest → parses s.

Lemma GetOp_codeseparator (s : list Z) :
  GetOp (OP_CODESEPARATOR :: s) = (Some (OP_CODESEPARATOR, []), s).
Proof. done. Qed.

Lemma GetOp_opcode (s rest : list Z) (op : opcodetype) (v : valtype) :
  GetOp s = (Some (op, v), rest) → ∃ s', s = op :: s'.
Proof.
  destruct s as [|b s]; [done|]. cbn [GetOp2]. destruct (b <=? OP_PUSHDATA4).
  - destruct (read_size b s) as [[nSize|] pc]; [|done]. destruct (_ <? nSize); [done|].
    intros [= <- _ _]. eauto.
  - intros [= <- _ _]. eauto.
Qed.

Lemma parses_inv (s : list Z) (r : option (opcodetype * valtype)) (rest : list Z) :
  parses s → GetOp s = (r, rest) →
  match r with Some _ => parses rest | None => s = [] ∧ rest = [] end.
Proof.
  intros [|s' rest' x E Hp] Eg.
  - cbn in Eg. by injection Eg as <- <-.
  - rewrite E in Eg. by injection Eg as <- <-.
Qed.

Section ScriptCode.
Abbreviation sep := [OP_CODESEPARATOR].

Lemma not_sep (s rest : list Z) (op : opcodetype) (v : valtype) :
  ¬ (sep `prefix_of` s) → GetOp s = (Some (op, v), rest) → (op =? OP_CODESEPARATOR) = false.
Proof.
  intros Hn Eg. apply Z.eqb_neq. intros ->. apply Hn.
  destruct (GetOp_opcode _ _ _ _ Eg) as [s' ->]. by exists s'.
Qed.

Lemma count_separators_deleted (s s' : list Z) (k : Z) :
  deleted sep s s' k → ∀ fuel n, (length s < fuel)%nat → count_separators fuel s n = n + k.
Proof.
  induction 1 as [s s' k _ IH|s rest s' [op v] k Hn Eg _ IH|s rest Hn Eg];
    intros [|fuel] m Hf; try lia; cbn [count_separators].
  - change (sep ++ s) with (OP_CODESEPARATOR :: s) in *. rewrite GetOp_codeseparator.
    cbn [length] in Hf. rewrite IH by lia. change (OP_CODESEPARATOR =? OP_CODESEPARATOR) with true. cbn iota. lia.
  - pose proof (GetOp_shorter _ _ _ Eg). rewrite Eg, (not_sep _ _ _ _ Hn Eg). by rewrite IH by lia.
  - rewrite Eg. lia.
Qed.

Lemma write_pieces_deleted (s s' : list Z) (k : Z) :
  deleted sep s s' k → parses s → ∀ fuel p out, (length s < fuel)%nat →
  let '(out', it, itBegin) := write_pieces fuel s (p ++ s) out in
  out' ++ (if negb (length itBegin =? 0)%nat then range itBegin it else []) = out ++ p ++ s'.
Proof.
  induction 1 as [s s' k _ IH|s rest s' [op v] k Hn Eg _ IH|s rest Hn Eg];
    intros Hp [|fuel] p out Hf; try lia; cbn [write_pieces].
  - change (sep ++ s) with (OP_CODESEPARATOR :: s) in *. rewrite GetOp_codeseparator.
    change (OP_CODESEPARATOR =? OP_CODESEPARATOR) with true. cbn iota. cbn [length] in Hf.
    pose proof (parses_inv _ _ _ Hp (GetOp_codeseparator s)) as Hps. cbn iota in Hps.
    specialize (IH Hps fuel [] (out ++ take (length (p ++ OP_CODESEPARATOR :: s) - length s - 1)
      (p ++ OP_CODESEPARATOR :: s)) ltac:(lia)).
    cbn [app] in IH. destruct (write_pieces _ _ _ _) as [[o it] ib]. rewrite IH, <- app_assoc.
    f_equal. f_equal. rewrite length_app. cbn [length].
    replace (length p + S (length s) - length s - 1)%nat with (length p) by lia. apply take_app_length.
  - pose proof (GetOp_shorter _ _ _ Eg). rewrite Eg, (not_sep _ _ _ _ Hn Eg).
    pose proof (parses_inv _ _ _ Hp Eg) as Hp'. destruct (GetOp_suffix _ _ _ Eg) as (q & -> & _).
    specialize (IH Hp' fuel (p ++ q) out ltac:(lia)). rewrite <- app_assoc in IH.
    destruct (write_pieces _ _ _ _) as [[o it] ib]. by rewrite IH, range_suffix, <- app_assoc.
  - rewrite Eg. destruct (parses_inv _ _ _ Hp Eg) as [-> ->]. rewrite !app_nil_r. f_equal.
    destruct p as [|x p]; [done|]. cbn [length Nat.eqb negb]. unfold range.
    rewrite Nat.sub_0_r. by apply firstn_all.
Qed.

(** Skipping the separators while writing is writing the script without them. *)
Lemma SerializeScriptCode_delete (script : CScript) :
  parses script →
  SerializeScriptCode script = Serialize ser_bytes (FindAndDelete script sep).1.
Proof.
  intros Hp. pose proof (FindAndDelete_ok script sep ltac:(done)) as Hd.
  set (s' := (FindAndDelete script sep).1) in *. set (k := (FindAndDelete script sep).2) in *.
  unfold SerializeScriptCode. rewrite (count_separators_deleted _ _ _ Hd) by lia.
  pose proof (write_pieces_deleted _ _ _ Hd Hp (S (length script)) [] [] ltac:(lia)) as Hw. cbn [app] in Hw.
  destruct (write_pieces _ _ _ _) as [[o it] ib]. rewrite Hw. cbn [Serialize ser_bytes].
  pose proof (deleted_length _ _ _ _ Hd) as Hl. cbn [length] in Hl.
  by replace (length script - (0 + k)) with (Z.of_nat (length s')) by lia.
Qed.
End ScriptCode.

(** On a script that ends in a truncated push fewer bytes are written than the size in
    front of them announces. *)
Lemma SerializeScriptCode_truncated :
  SerializeScriptCode [5; 1] = [2; 5] ∧ Serialize ser_bytes (FindAndDelete [5; 1] [OP_CODESEPARATOR]).1 = [2; 5; 1].
Proof. done. Qed.

(** ** The legacy hash *)

Lemma mapM_seq {A B : Type} (f : nat → option B) (g : A → B) (l : list A) :
  (∀ i a, l !! i = Some a → f i = Some (g a)) → mapM f (seq 0 (length l)) = Some (g <$> l).
Proof.
  intros Hf. apply mapM_Some. apply Forall2_same_length_lookup. split.
  { by rewrite length_seq, length_fmap. }
  intros i x b Hx Hb. apply lookup_seq in Hx as [-> Hi]. rewrite Nat.add_0_l.
  rewrite list_lookup_fmap in Hb. destruct (l !! i) as [a|] eqn:Ea; [|done].
  injection Hb as <-. by apply Hf.
Qed.

Section Legacy.
Context (txTo : CTransaction) (scriptCode : CScript) (nIn : nat) (nHashType : Z).
Context (Hp : parses scriptCode).

Abbreviation code := (FindAndDelete scriptCode [OP_CODESEPARATOR]).1.
Abbreviation any := (fAnyoneCanPay nHashType).
Abbreviation single := (fHashSingle nHashType).
Abbreviation none := (fHashNone nHashType).

(** The inputs the reference implementation leaves: other scripts blanked, and their
    sequence numbers cleared for [SIGHASH_SINGLE] and [SIGHASH_NONE]. *)
Definition signed_input (i : nat) (txin : CTxIn) : CTxIn :=
  if (i =? nIn)%nat then with_scriptSig txin code
  else with_scriptSig (if single || none then with_nSequence txin 0 else txin) [].

Lemma SerializeInput_signed (i : nat) (txin : CTxIn) :
  any = false → vin txTo !! i = Some txin →
  SerializeInput txTo scriptCode nIn nHashType i = Some (Serialize ser_CTxIn (signed_input i txin)).
Proof.
  intros Ha Hi. unfold SerializeInput, signed_input. rewrite Ha, Hi. ocbn.
  destruct (i =? nIn)%nat eqn:E; cbn [negb andb].
  - by rewrite SerializeScriptCode_delete.
  - by destruct (single || none).
Qed.

Lemma SerializeInput_any (i : nat) (txin : CTxIn) :
  any = true → vin txTo !! nIn = Some txin →
  SerializeInput txTo scriptCode nIn nHashType i = Some (Serialize ser_CTxIn (signed_input nIn txin)).
Proof.
  intros Ha Hi. unfold SerializeInput, signed_input. rewrite Ha, Hi. ocbn.
  rewrite Nat.eqb_refl. cbn [negb andb]. by rewrite SerializeScriptCode_delete.
Qed.

Definition signed_outputs : list CTxOut :=
  if none then [] else if single then replicate nIn CTxOut_null ++ take 1 (drop nIn (vout txTo)) else vout txTo.

Lemma SerializeOutput_signed (i : nat) (o : CTxOut) :
  signed_outputs !! i = Some o → none = false →
  SerializeOutput txTo nIn nHashType i = Some (Serialize ser_CTxOut o).
Proof.
  unfold signed_outputs, SerializeOutput. intros Ho Hn. rewrite Hn in Ho.
  destruct single; cbn [andb]; [|by rewrite Ho].
  destruct (i =? nIn)%nat eqn:E; cbn [negb]; bool_to_prop.
  - subst. rewrite lookup_app_r, length_replicate, Nat.sub_diag in Ho by (rewrite length_replicate; lia).
    rewrite lookup_take_lt, lookup_drop, Nat.add_0_r in Ho by lia. by rewrite Ho.
  - destruct (decide (i < nIn)%nat).
    + rewrite lookup_app_l, lookup_replicate_2 in Ho by (rewrite ?length_replicate; lia). by injection Ho as <-.
    + rewrite lookup_app_r, length_replicate, lookup_take_ge in Ho by (rewrite ?length_replicate; lia). done.
Qed.

Lemma length_signed_outputs :
  (single = true → (nIn < length (vout txTo))%nat) →
  length signed_outputs = if none then 0%nat else if single then S nIn else length (vout txTo).
Proof.
  intros Hs. unfold signed_outputs. destruct none; [done|]. destruct single; [|done].
  rewrite length_app, length_replicate, length_take, length_drop. specialize (Hs eq_refl). lia.
Qed.

Definition signed_inputs : list CTxIn :=
  if any then option_list (signed_input nIn <$> vin txTo !! nIn) else imap signed_input (vin txTo).

Lemma SignatureSerialize_reference :
  (nIn < length (vin txTo))%nat → (single = true → (nIn < length (vout txTo))%nat) →
  SignatureSerialize txTo scriptCode nIn nHashType =
  Some (basic_format {| vin := signed_inputs; vout := signed_outputs;
                        nVersion := nVersion txTo; nLockTime := nLockTime txTo |}).
Proof.
  intros Hin Hs. unfold SignatureSerialize.
  assert (mapM (SerializeInput txTo scriptCode nIn nHashType)
            (seq 0 (if any then 1%nat else length (vin txTo))) = Some (Serialize ser_CTxIn <$> signed_inputs)
          ∧ length signed_inputs = if any then 1%nat else length (vin txTo)) as [-> Hl].
  { unfold signed_inputs. destruct any eqn:Ea.
    - destruct (lookup_lt_is_Some_2 _ _ Hin) as [txin Ei]. rewrite Ei. cbn [seq mapM].
      rewrite (SerializeInput_any 0 txin) by done. done.
    - rewrite length_imap. split; [|done]. rewrite <- (length_imap signed_input (vin txTo)).
      apply mapM_seq. intros i a. rewrite list_lookup_imap.
      destruct (vin txTo !! i) as [txin|] eqn:Ei; [|done]. cbn. intros [= <-]. by apply SerializeInput_signed. }
  ocbn. rewrite <- (length_signed_outputs Hs).
  rewrite (mapM_seq _ (Serialize ser_CTxOut)).
  2:{ intros i o Ho. apply SerializeOutput_signed; [done|]. unfold signed_outputs in Ho.
      destruct none; [|done]. by rewrite lookup_nil in Ho. }
  ocbn. f_equal. unfold basic_format. cbn [Serialize ser_vin ser_vout ser_vector vin vout nVersion nLockTime].
  by rewrite Hl, <- !app_assoc.
Qed.
End Legacy.

Section Reference.
Context `{CryptoHash} (txTo : CTransaction) (scriptCode : CScript) (nIn : nat) (nHashType : Z).

(** The inputs of the reference implementation before [SIGHASH_ANYONECANPAY]. *)
Lemma reference_inputs (txin : CTxIn) (code : CScript) (clear : bool) :
  vin txTo !! nIn = Some txin →
  (if clear then clear_sequences nIn else id)
    (<[nIn := with_scriptSig (with_scriptSig txin []) code]> ((λ txin, with_scriptSig txin []) <$> vin txTo)) =
  imap (λ i txin, if (i =? nIn)%nat then with_scriptSig txin code
                  else with_scriptSig (if clear then with_nSequence txin 0 else txin) []) (vin txTo).
Proof.
  intros Hin. pose proof (lookup_lt_Some _ _ _ Hin) as Hlt. apply list_eq. intros i.
  assert (∀ l : list CTxIn, (if clear then clear_sequences nIn else id) l !! i =
    (λ txin, if clear && negb (i =? nIn)%nat then with_nSequence txin 0 else txin) <$> l !! i) as Hc.
  { intros l. destruct clear; cbn [andb].
    - unfold clear_sequences. by rewrite list_lookup_imap.
    - unfold id. by destruct (l !! i). }
  rewrite Hc, list_lookup_imap. destruct (decide (i = nIn)) as [->|Hne].
  - rewrite list_lookup_insert_eq by (by rewrite length_fmap). rewrite Hin. cbn.
    by rewrite Nat.eqb_refl, andb_false_r.
  - rewrite list_lookup_insert_ne, list_lookup_fmap by done. rewrite (proj2 (Nat.eqb_neq _ _) Hne).
    destruct (vin txTo !! i); [|done]. cbn. by destruct clear.
Qed.

Lemma SignatureHash_reference (amount : Z) (cache : option PrecomputedTransactionData) :
  parses scriptCode → (nIn < length (vin txTo))%nat →
  SignatureHash scriptCode txTo nIn nHashType amount SIGVERSION_BASE cache =
  SignatureHashOld scriptCode txTo nIn nHashType.
Proof.
  intros Hp Hin. unfold SignatureHash, SignatureHashOld.
  rewrite (proj2 (Nat.ltb_lt _ _) Hin), (proj2 (Nat.leb_gt _ _) Hin). cbn [negb].
  destruct (lookup_lt_is_Some_2 _ _ Hin) as [txin Ei]. rewrite list_lookup_fmap, Ei. cbn [fmap option_fmap option_map]. ocbn.
  set (code := (FindAndDelete scriptCode [OP_CODESEPARATOR]).1).
  pose proof (reference_inputs txin code true Ei) as Eclear. cbn iota in Eclear.
  pose proof (reference_inputs txin code false Ei) as Ekeep. cbn iota in Ekeep. unfold id in Ekeep.
  rewrite Eclear, Ekeep. clear Eclear Ekeep.
  assert (Hser : (fHashSingle nHashType = true → (nIn < length (vout txTo))%nat) →
    (ss ← SignatureSerialize txTo scriptCode nIn nHashType;
     Some (CHash256 (ss ++ Serialize ser_int32 nHashType))) =
    Some (CHash256 (SerializeTransaction SERIALIZE_TRANSACTION_NO_WITNESS
      {| vin := signed_inputs txTo scriptCode nIn nHashType; vout := signed_outputs txTo nIn nHashType;
         nVersion := nVersion txTo; nLockTime := nLockTime txTo |} ++ Serialize ser_int32 nHashType))).
  { intros Hs. rewrite SignatureSerialize_reference by done. ocbn. by rewrite SerializeTransaction_format. }
  unfold signed_inputs, signed_input, signed_outputs, fAnyoneCanPay, fHashSingle, fHashNone in Hser.
  fold code in Hser. rewrite !list_lookup_imap, !Ei. rewrite Ei in Hser. cbn [fmap option_fmap option_map option_list] in *.
  rewrite Nat.eqb_refl in *. destruct (nHashType .& 0x1f =? SIGHASH_NONE) eqn:En.
  - apply Z.eqb_eq in En. rewrite En in *. change (SIGHASH_NONE =? SIGHASH_SINGLE) with false in *. cbn [andb orb] in *.
    rewrite Hser by done. by destruct (negb (nHashType .& SIGHASH_ANYONECANPAY =? 0)).
  - destruct (nHashType .& 0x1f =? SIGHASH_SINGLE) eqn:Es; cbn [andb orb] in *.
    + destruct (length (vout txTo) <=? nIn)%nat eqn:El; [done|]. bool_to_prop.
      rewrite Hser by lia. by destruct (negb (nHashType .& SIGHASH_ANYONECANPAY =? 0)).
    + rewrite Hser by done. by destruct (negb (nHashType .& SIGHASH_ANYONECANPAY =? 0)).
Qed.
End Reference.

(** ** The witness hash *)

Section Witness.
Context `{CryptoHash}.

Lemma WitnessSignatureHash_cache (scriptCode : CScript) (txTo : CTransaction) (nIn : nat) (nHashType amount : Z) :
  WitnessSignatureHash scriptCode txTo nIn nHashType amount (Some (precompute txTo)) =
  WitnessSignatureHash scriptCode txTo nIn nHashType amount None.
Proof. unfold WitnessSignatureHash, precompute. by destruct (HasWitness txTo). Qed.

Lemma CHash256_uint256_ok (x : list Z) : uint256_ok (CHash256 x).
Proof. split; [apply length_CHash256|apply CHash256_bytes]. Qed.

(** Signing the whole transaction: neither [SINGLE] nor [NONE] nor [ANYONECANPAY]. *)
Definition sighash_all (nHashType : Z) : Prop :=
  nHashType .& SIGHASH_ANYONECANPAY = 0 ∧ nHashType .& 0x1f ≠ SIGHASH_SINGLE ∧ nHashType .& 0x1f ≠ SIGHASH_NONE.

Definition witness_preimage (scriptCode : CScript) (tx : CTransaction) (txin : CTxIn) (nHashType amount : Z) : list Z :=
  Serialize ser_int32 (nVersion tx) ++
  Serialize ser_uint256 (GetPrevoutHash tx) ++
  Serialize ser_uint256 (GetSequenceHash tx) ++
  Serialize ser_COutPoint (prevout txin) ++
  Serialize ser_bytes scriptCode ++
  Serialize ser_int64 amount ++
  Serialize ser_uint32 (nSequence txin) ++
  Serialize ser_uint256 (GetOutputsHash tx) ++
  Serialize ser_uint32 (nLockTime tx) ++
  Serialize ser_int32 nHashType.

Lemma WitnessSignatureHash_all (scriptCode : CScript) (tx : CTransaction) (nIn : nat) (txin : CTxIn) (nHashType amount : Z) :
  sighash_all nHashType → vin tx !! nIn = Some txin →
  WitnessSignatureHash scriptCode tx nIn nHashType amount None =
  Some (CHash256 (witness_preimage scriptCode tx txin nHashType amount)).
Proof.
  intros (Ha & Hs & Hn) Hi. unfold WitnessSignatureHash. rewrite Hi. ocbn. rewrite Ha.
  by rewrite (proj2 (Z.eqb_neq _ _) Hs), (proj2 (Z.eqb_neq _ _) Hn).
Qed.

(** The parts of the message that are hashed separately. *)
Definition prevouts_message (tx : CTransaction) : list Z :=
  concat (Serialize ser_COutPoint <$> (prevout <$> vin tx)).
Definition sequences_message (tx : CTransaction) : list Z :=
  concat (Serialize ser_uint32 <$> (nSequence <$> vin tx)).
Definition outputs_message (tx : CTransaction) : list Z := concat (Serialize ser_CTxOut <$> vout tx).

Lemma ser_nonempty {A : Type} (c : Codec A) (valid : A → Prop) `{!Codec_ok c valid} (a : A) :
  valid a → 0 < GetSerializeSize c a → Serialize c a ≠ [].
Proof. intros Hv Hs E. rewrite (ser_size a Hv), E in Hs. cbn in Hs. lia. Qed.

Lemma messages_inj (a b : CTransaction) :
  tx_ok a → tx_ok b →
  (prevouts_message a = prevouts_message b → prevout <$> vin a = prevout <$> vin b) ∧
  (sequences_message a = sequences_message b → nSequence <$> vin a = nSequence <$> vin b) ∧
  (outputs_message a = outputs_message b → vout a = vout b).
Proof.
  intros ([Hia _] & [Hoa _] & _) ([Hib _] & [Hob _] & _).
  assert (∀ l, Forall txin_ok l → Forall outpoint_ok (prevout <$> l) ∧ Forall (is_word 32) (nSequence <$> l)) as Hf.
  { intros l Hl. rewrite !Forall_fmap. split; revert Hl; apply Forall_impl; by intros i ((? & ? & ? & ?) & ?). }
  split_and!.
  - apply (ser_concat_inj _ outpoint_ok); [|by apply Hf..]. intros o Ho. apply (ser_nonempty _ _ o Ho). cbn. lia.
  - apply (ser_concat_inj _ (is_word 32)); [|by apply Hf..]. intros o Ho. apply (ser_nonempty _ _ o Ho). cbn. lia.
  - apply (ser_concat_inj _ txout_ok); [|done..]. intros o Ho. apply (ser_nonempty _ _ o Ho).
    cbn. unfold GetSizeOfCompactSize. repeat case_if; lia.
Qed.

(** Everything a signature over the whole transaction fixes. *)
Definition same_signed_data (a b : CTransaction) (ia ib : CTxIn) : Prop :=
  nVersion a = nVersion b ∧ nLockTime a = nLockTime b ∧
  prevout <$> vin a = prevout <$> vin b ∧ nSequence <$> vin a = nSequence <$> vin b ∧
  vout a = vout b ∧ prevout ia = prevout ib ∧ nSequence ia = nSequence ib.

Lemma witness_preimage_inj (ca cb : CScript) (a b : CTransaction) (ia ib : CTxIn) (ta tb va vb : Z) :
  tx_ok a → tx_ok b → txin_ok ia → txin_ok ib → blob_ok ca → blob_ok cb →
  is_int 64 va → is_int 64 vb → is_int 32 ta → is_int 32 tb →
  witness_preimage ca a ia ta va = witness_preimage cb b ib tb vb →
  ca = cb ∧ va = vb ∧ ta = tb ∧
  (same_signed_data a b ia ib ∨ collides (prevouts_message a) (prevouts_message b) ∨
   collides (sequences_message a) (sequences_message b) ∨ collides (outputs_message a) (outputs_message b)).
Proof.
  intros Ha Hb Hia Hib Hca Hcb Hva Hvb Hta Htb E. pose proof (messages_inj a b Ha Hb) as (Ip & Is & Io).
  destruct Ha as (_ & _ & Hna & Hla), Hb as (_ & _ & Hnb & Hlb).
  destruct Hia as ((Hpa & _ & Hsa & _) & _), Hib as ((Hpb & _ & Hsb & _) & _).
  unfold witness_preimage in E. pose proof CHash256_uint256_ok as Hu.
  apply (ser_inj ser_int32 (is_int 32)) in E as [En E]; [|done..].
  apply (ser_inj ser_uint256 uint256_ok) in E as [Ehp E]; [|apply Hu..].
  apply (ser_inj ser_uint256 uint256_ok) in E as [Ehs E]; [|apply Hu..].
  apply (ser_inj ser_COutPoint outpoint_ok) in E as [Epo E]; [|done..].
  apply (ser_inj ser_bytes blob_ok) in E as [Ec E]; [|done..].
  apply (ser_inj ser_int64 (is_int 64)) in E as [Ev E]; [|done..].
  apply (ser_inj ser_uint32 (is_word 32)) in E as [Esq E]; [|done..].
  apply (ser_inj ser_uint256 uint256_ok) in E as [Eho E]; [|apply Hu..].
  apply (ser_inj ser_uint32 (is_word 32)) in E as [El E]; [|done..].
  rewrite <- (app_nil_r (Serialize ser_int32 ta)), <- (app_nil_r (Serialize ser_int32 tb)) in E.
  apply (ser_inj ser_int32 (is_int 32)) in E as [Et _]; [|done..].
  do 3 (split; [done|]).
  unfold GetPrevoutHash, GetSequenceHash, GetOutputsHash in Ehp, Ehs, Eho.
  rewrite (list_fmap_compose prevout (Serialize ser_COutPoint)), (list_fmap_compose prevout (Serialize ser_COutPoint)) in Ehp.
  rewrite (list_fmap_compose nSequence (Serialize ser_uint32)), (list_fmap_compose nSequence (Serialize ser_uint32)) in Ehs.
  apply CHash256_cases in Ehp as [Ehp|]; [|by right; left].
  apply CHash256_cases in Ehs as [Ehs|]; [|by right; right; left].
  apply CHash256_cases in Eho as [Eho|]; [|by right; right; right].
  left. unfold same_signed_data. split_and!; auto.
Qed.
End Witness.

(** ** Properties *)

(** C26: the message of a legacy signature, which the code serializes on the fly, is the one
    of the reference implementation in the unit tests (copy the transaction, blank
    it out, serialize it), for every hash type and every script code that can be
    read to its end. *)
Theorem SignatureHash_legacy_equiv `{CryptoHash} (scriptCode : CScript) (txTo : CTransaction) (nIn : nat)
    (nHashType amount : Z) (cache : option PrecomputedTransactionData) :
  parses scriptCode → (nIn < length (vin txTo))%nat →
  SignatureHash scriptCode txTo nIn nHashType amount SIGVERSION_BASE cache =
  SignatureHashOld scriptCode txTo nIn nHashType.
Proof. apply SignatureHash_reference. Qed.

(** a witness signature of type [SIGHASH_ALL] commits to the transaction and to the
    spent amount: two signing contexts with the same hash have the same script
    code, amount and hash type, and transactions with the same inputs, sequence
    numbers, outputs, version and lock time, unless one of four explicit pairs of
    messages collides. *)
Theorem WitnessSignatureHash_commits `{CryptoHash} (ca cb : CScript) (a b : CTransaction) (na nb : nat)
    (ia ib : CTxIn) (ta tb va vb : Z) :
  tx_ok a → tx_ok b → vin a !! na = Some ia → vin b !! nb = Some ib →
  blob_ok ca → blob_ok cb → is_int 64 va → is_int 64 vb → is_int 32 ta → is_int 32 tb →
  sighash_all ta → sighash_all tb →
  SignatureHash ca a na ta va SIGVERSION_WITNESS_V0 None = SignatureHash cb b nb tb vb SIGVERSION_WITNESS_V0 None →
  (ca = cb ∧ va = vb ∧ ta = tb ∧ same_signed_data a b ia ib) ∨
  collides (witness_preimage ca a ia ta va) (witness_preimage cb b ib tb vb) ∨
  collides (prevouts_message a) (prevouts_message b) ∨
  collides (sequences_message a) (sequences_message b) ∨
  collides (outputs_message a) (outputs_message b).
Proof.
  intros Ha Hb Hia Hib Hca Hcb Hva Hvb Hta Htb Hsa Hsb. unfold SignatureHash.
  rewrite (proj2 (Nat.ltb_lt _ _) (lookup_lt_Some _ _ _ Hia)), (proj2 (Nat.ltb_lt _ _) (lookup_lt_Some _ _ _ Hib)).
  cbn [negb]. rewrite (WitnessSignatureHash_all _ _ _ _ _ _ Hsa Hia), (WitnessSignatureHash_all _ _ _ _ _ _ Hsb Hib).
  intros [= [E|]%CHash256_cases]; [|by right; left].
  assert (txin_ok ia ∧ txin_ok ib) as [Hoa Hob].
  { split; [eapply Forall_lookup_1, Hia; apply Ha|eapply Forall_lookup_1, Hib; apply Hb]. }
  apply witness_preimage_inj in E as (-> & -> & -> & [Hs|Hc]); [by left|by right; right|done..].
Qed.

(** verification with the hashes precomputed once per transaction gives the same
    message as computing them anew, for both signature versions and all hash
    types; and the message exists for every input of the transaction. *)
Theorem SignatureHash_cache `{CryptoHash} (scriptCode : CScript) (txTo : CTransaction) (nIn : nat)
    (nHashType amount : Z) (sigversion : SigVersion) :
  parses scriptCode → (nIn < length (vin txTo))%nat →
  SignatureHash scriptCode txTo nIn nHashType amount sigversion (Some (precompute txTo)) =
  SignatureHash scriptCode txTo nIn nHashType amount sigversion None ∧
  SignatureHash scriptCode txTo nIn nHashType amount sigversion None ≠ None.
Proof.
  intros Hp Hin. destruct sigversion.
  - rewrite !SignatureHash_reference by done. split; [done|]. unfold SignatureHashOld.
    rewrite (proj2 (Nat.leb_gt _ _) Hin). destruct (lookup_lt_is_Some_2 _ _ Hin) as [txin Ei].
    rewrite list_lookup_fmap, Ei. cbn [fmap option_fmap option_map]. ocbn.
    pose proof (reference_inputs txTo nIn txin (FindAndDelete scriptCode [OP_CODESEPARATOR]).1 true Ei) as Ec.
    pose proof (reference_inputs txTo nIn txin (FindAndDelete scriptCode [OP_CODESEPARATOR]).1 false Ei) as Ek.
    cbn iota in Ec, Ek. unfold id in Ek. rewrite Ec, Ek, !list_lookup_imap, Ei. cbn [fmap option_fmap option_map].
    repeat case_if; done.
  - unfold SignatureHash. rewrite (proj2 (Nat.ltb_lt _ _) Hin). cbn [negb].
    rewrite WitnessSignatureHash_cache. split; [done|]. unfold WitnessSignatureHash.
    destruct (lookup_lt_is_Some_2 _ _ Hin) as [txin Ei]. by rewrite Ei.
Qed.

(** ** Concrete runs *)

Definition demo_code : CScript := [0x51; OP_CODESEPARATOR; 2; 8; 9; OP_CODESEPARATOR; 0x52].

Lemma demo_code_parses : parses demo_code.
Proof. repeat (eapply parses_op; [reflexivity|]). apply parses_nil. Qed.

Lemma SignatureHash_legacy_equiv_witness :
  @SignatureHash toy_hash demo_code (demo_tx []) 0 3 0 SIGVERSION_BASE None =
  @SignatureHashOld toy_hash demo_code (demo_tx []) 0 3.
Proof.
  apply (@SignatureHash_legacy_equiv toy_hash demo_code (demo_tx []) 0 3 0 None).
  - apply demo_code_parses.
  - cbn. lia.
Defined.

Lemma WitnessSignatureHash_commits_witness :
  (demo_code = demo_code ∧ 5 = 5 ∧ SIGHASH_ALL = SIGHASH_ALL ∧
     same_signed_data (demo_tx []) (demo_tx [[1; 2]; []]) (demo_in []) (demo_in [[1; 2]; []])) ∨
  @collides toy_hash (@witness_preimage toy_hash demo_code (demo_tx []) (demo_in []) SIGHASH_ALL 5)
    (@witness_preimage toy_hash demo_code (demo_tx [[1; 2]; []]) (demo_in [[1; 2]; []]) SIGHASH_ALL 5) ∨
  @collides toy_hash (prevouts_message (demo_tx [])) (prevouts_message (demo_tx [[1; 2]; []])) ∨
  @collides toy_hash (sequences_message (demo_tx [])) (sequences_message (demo_tx [[1; 2]; []])) ∨
  @collides toy_hash (outputs_message (demo_tx [])) (outputs_message (demo_tx [[1; 2]; []])).
Proof.
  assert (blob_ok demo_code) as Hc.
  { split; [by apply bytes_okb_ok|cbn; unfold MAX_SIZE; lia]. }
  apply (@WitnessSignatureHash_commits toy_hash demo_code demo_code (demo_tx []) (demo_tx [[1; 2]; []]) 0 0
    (demo_in []) (demo_in [[1; 2]; []]) SIGHASH_ALL SIGHASH_ALL 5 5); try done.
  - apply demo_tx_ok. split; [done|cbn; unfold MAX_SIZE; lia].
  - apply demo_tx_ok, demo_witness_ok.
Defined.

Lemma SignatureHash_cache_witness :
  @SignatureHash toy_hash demo_code (demo_tx [[1; 2]; []]) 0 1 7 SIGVERSION_WITNESS_V0
    (Some (@precompute toy_hash (demo_tx [[1; 2]; []]))) =
  @SignatureHash toy_hash demo_code (demo_tx [[1; 2]; []]) 0 1 7 SIGVERSION_WITNESS_V0 None.
Proof.
  apply (@SignatureHash_cache toy_hash demo_code (demo_tx [[1; 2]; []]) 0 1 7 SIGVERSION_WITNESS_V0).
  - apply demo_code_parses.
  - cbn. lia.
Defined.
