(* ===== verification/PubKey.v ===== *)
(** * Public keys of the node ([src/src/pubkey.cpp])

    The lax DER parser, [CPubKey] with verification, validity, decompression and derivation, and [CExtPubKey], over the model of the
    curve library; [core_secp] makes them an instance of [Crypto.Secp256k1], the interface that scripts use.  Verification decides
    ECDSA for whatever the lax parser reads, and that is the signature itself where the encoding is strict. *)

From Stdlib Require Import ZArith Lia Zdivisibility Zmod Field.
From S2P Require Import Prelude Common Field5x52 Primes Scalar4x64 SecpField SecpGroup CurveGroup CurveOrder Ecmult EcmultGen Ecdsa Der EcKey Crypto Hmac Sha512 Hashes Serialize Transaction SigHash.
Open Scope Z_scope.
Open Scope word_scope.

(** ** The lax parser

    The position in the input is the list of the bytes from there on. *)

(** [while (lenbyte > 0 && input[pos] == 0)] *)
Fixpoint lax_skip (lenbyte : nat) (input : list Z) : nat * list Z :=
  match lenbyte, input with
  | S lenbyte', b :: input' => if b =? 0 then lax_skip lenbyte' input' else (lenbyte, input)
  | _, _ => (lenbyte, input)
  end.

(** [while (lenbyte > 0)], with the length read so far *)
Fixpoint lax_number (lenbyte : nat) (len : Z) (input : list Z) : Z * list Z :=
  match lenbyte, input with
  | S lenbyte, b :: input => lax_number lenbyte (u64 (u64 (len .<< 8) + b)) input
  | _, _ => (len, input)
  end.

(** The bytes of an integer and what follows them *)
Definition lax_integer (input : list Z) : option (list Z * list Z) :=
  match input with
  | tag :: lenbyte :: input =>
      if negb (tag =? 0x02) then None
      else
        '(len, input) ←
          (if negb (lenbyte .& 0x80 =? 0) then
             let lenbyte := lenbyte - 0x80 in
             if length input <? lenbyte then None
             else
               let '(lenbyte, input) := lax_skip (Z.to_nat lenbyte) input in
               if (8 <=? lenbyte)%nat then None else Some (lax_number lenbyte 0 input)
           else Some (lenbyte, input));
        if length input <? len then None else Some (take (Z.to_nat len) input, drop (Z.to_nat len) input)
  | _ => None
  end.

(** The signature of the octets of two integers, leading zeroes ignored; a correctly parsed but invalid one if they are too large *)
Definition lax_scalars (r s : list Z) : secp256k1_ecdsa_signature :=
  let r := skip_zeros r in
  let s := skip_zeros s in
  let zero := (secp256k1_ecdsa_signature_parse_compact (replicate 64 0)).1 in
  if (32 <? length r) || (32 <? length s) then zero
  else let '(sig, ok) := secp256k1_ecdsa_signature_parse_compact (pad32 r ++ pad32 s) in if ok : bool then sig else zero.

(** [None] where the source returns 0 *)
Definition ecdsa_signature_parse_der_lax (input : list Z) : option secp256k1_ecdsa_signature :=
  match input with
  | tag :: lenbyte :: input =>
      if negb (tag =? 0x30) then None
      else
        input ← (if negb (lenbyte .& 0x80 =? 0) then
                   let lenbyte := lenbyte - 0x80 in
                   if length input <? lenbyte then None else Some (drop (Z.to_nat lenbyte) input)
                 else Some input);
        '(r, input) ← lax_integer input;
        '(s, _) ← lax_integer input;
        Some (lax_scalars r s)
  | _ => None
  end.

(** ** Recoverable signatures of the library *)

(** [r], [s] and the recovery id *)
Definition secp256k1_ecdsa_recoverable_signature : Type := secp256k1_scalar * secp256k1_scalar * Z.

(** [None] where the source returns 0 *)
Definition secp256k1_ecdsa_recoverable_signature_parse_compact (input64 : list Z) (recid : Z) : option secp256k1_ecdsa_recoverable_signature :=
  if negb ((0 <=? recid) && (recid <=? 3)) then None
  else
    let '(r, overflow) := secp256k1_scalar_set_b32 (take 32 input64) in
    let ret := negb overflow in
    let '(s, overflow) := secp256k1_scalar_set_b32 (drop 32 input64) in
    let ret := ret && negb overflow in
    if ret then Some (r, s, recid) else None.

Definition secp256k1_ecdsa_recover (ctx : ecmult_context) (d0 : gej) (q0 : ge) (signature : secp256k1_ecdsa_recoverable_signature) (msg32 : list Z) : option (option pubkey_data) :=
  let '(r, s, recid) := signature in
  let m := (secp256k1_scalar_set_b32 msg32).1 in
  match secp256k1_ecdsa_sig_recover ctx d0 r s q0 m recid with None => None | Some q => Some (secp256k1_pubkey_save <$> q) end.

(** ** [CPubKey]

    A key is the list of its bytes, [CPubKey_size] of them when it is valid. *)

Section CPubKey.
Context (ctx : ecmult_context) (d0 : gej).

Definition key_bytes (key : list Z) : list Z := take (Z.to_nat (CPubKey_size key)) key.
Definition CPubKey_GetID (key : list Z) : list Z := Hash160 (key_bytes key).

(** [None] where the library would read outside a table *)
Definition CPubKey_Verify (key hash vchSig : list Z) : option bool :=
  if negb (CPubKey_IsValid key) then Some false
  else
    match secp256k1_ec_pubkey_parse (key_bytes key) with
    | None => Some false
    | Some pubkey =>
        match ecdsa_signature_parse_der_lax vchSig with
        | None => Some false
        | Some sig => secp256k1_ecdsa_verify ctx d0 (secp256k1_ecdsa_signature_normalize sig).1 hash pubkey
        end
    end.

Definition CPubKey_CheckLowS (vchSig : list Z) : bool :=
  match ecdsa_signature_parse_der_lax vchSig with
  | None => false
  | Some sig => negb (secp256k1_ecdsa_signature_normalize sig).2
  end.

(** Whether it succeeded, and the key; [q0] is what the library's local point holds before *)
Definition CPubKey_RecoverCompact (q0 : ge) (key hash vchSig : list Z) : option (bool * list Z) :=
  if negb (length vchSig =? 65) then Some (false, key)
  else
    let recid := (vchSig.[0] - 27) .& 3 in
    let fComp := negb ((vchSig.[0] - 27) .& 4 =? 0) in
    match secp256k1_ecdsa_recoverable_signature_parse_compact (drop 1 vchSig) recid with
    | None => Some (false, key)
    | Some sig =>
        pubkey ← secp256k1_ecdsa_recover ctx d0 q0 sig hash;
        match pubkey with
        | None => Some (false, key)
        | Some pubkey => pub ← secp256k1_ec_pubkey_serialize pubkey fComp; Some (true, CPubKey_Set pub)
        end
    end.

Definition CPubKey_IsFullyValid (key : list Z) : bool :=
  if negb (CPubKey_IsValid key) then false
  else match secp256k1_ec_pubkey_parse (key_bytes key) with Some _ => true | None => false end.

(** Whether it succeeded, and the key *)
Definition CPubKey_Decompress (key : list Z) : option (bool * list Z) :=
  if negb (CPubKey_IsValid key) then Some (false, key)
  else
    match secp256k1_ec_pubkey_parse (key_bytes key) with
    | None => Some (false, key)
    | Some pubkey => pub ← secp256k1_ec_pubkey_serialize pubkey false; Some (true, CPubKey_Set pub)
    end.

(** The child key if there is one, and the chain code; [None] where an assertion fails *)
Definition CPubKey_Derive (key : list Z) (nChild : Z) (cc : list Z) : option (option (list Z) * list Z) :=
  if negb (CPubKey_IsValid key) then None
  else if negb (nChild .>> 31 =? 0) then None
  else if negb (CPubKey_size key =? 33) then None
  else
    let out := BIP32Hash cc nChild (key.[0]) (drop 1 (key_bytes key)) in
    let ccChild := drop 32 out in
    match secp256k1_ec_pubkey_parse (key_bytes key) with
    | None => Some (None, ccChild)
    | Some pubkey =>
        pubkey ← secp256k1_ec_pubkey_tweak_add ctx d0 pubkey (take 32 out);
        match pubkey with
        | None => Some (None, ccChild)
        | Some pubkey => pub ← secp256k1_ec_pubkey_serialize pubkey true; Some (Some (CPubKey_Set pub), ccChild)
        end
    end.

(** ** [CExtPubKey] *)

Record CExtPubKey := { nDepth : Z; vchFingerprint : list Z; nChild : Z; chaincode : list Z; pubkey : list Z }.

(** [None] where the assertion on the size fails *)
Definition CExtPubKey_Encode (k : CExtPubKey) : option (list Z) :=
  if negb (CPubKey_size (pubkey k) =? 33) then None
  else
    Some ([nDepth k] ++ vchFingerprint k ++
          [(nChild k .>> 24) .& 0xFF; (nChild k .>> 16) .& 0xFF; (nChild k .>> 8) .& 0xFF; (nChild k .>> 0) .& 0xFF] ++
          chaincode k ++ take 33 (pubkey k)).

Definition CExtPubKey_Decode (code : list Z) : CExtPubKey :=
  {| nDepth := code.[0]; vchFingerprint := take 4 (drop 1 code);
     nChild := u32 ((code.[5] .<< 24) .| (code.[6] .<< 16) .| (code.[7] .<< 8) .| code.[8]);
     chaincode := take 32 (drop 9 code); pubkey := CPubKey_Set (take 33 (drop 41 code)) |}.

(** Whether the derivation succeeded, and [out], whose key is set only then *)
Definition CExtPubKey_Derive (k out : CExtPubKey) (nChild_ : Z) : option (bool * CExtPubKey) :=
  let id := CPubKey_GetID (pubkey k) in
  '(child, cc) ← CPubKey_Derive (pubkey k) nChild_ (chaincode k);
  Some (match child with Some _ => true | None => false end,
        {| nDepth := u8 (nDepth k + 1); vchFingerprint := take 4 id; nChild := nChild_; chaincode := cc; pubkey := default (pubkey out) child |}).
End CPubKey.

(** ** What the lax parser reads *)

Lemma lax_skip_bytes (lenbyte : nat) (input : list Z) : bytes_ok input → bytes_ok (lax_skip lenbyte input).2.
Proof. revert input. induction lenbyte as [|k IH]; intros [|b l] Hb; try done. cbn [lax_skip]. destruct (_ =? _); [|done]. apply IH. by apply list.Forall_cons in Hb as [_ Hb]. Qed.

Lemma lax_number_bytes (lenbyte : nat) (len : Z) (input : list Z) : bytes_ok input → bytes_ok (lax_number lenbyte len input).2.
Proof. revert len input. induction lenbyte as [|k IH]; intros len [|b l] Hb; try done. cbn [lax_number]. apply IH. by apply list.Forall_cons in Hb as [_ Hb]. Qed.

Lemma lax_integer_bytes (input c rest : list Z) : bytes_ok input → lax_integer input = Some (c, rest) → bytes_ok c ∧ bytes_ok rest.
Proof.
  intros Hb. destruct input as [|tag [|lenbyte l]]; [done..|]. rewrite !list.Forall_cons in Hb. destruct Hb as (_ & _ & Hb). cbn [lax_integer].
  destruct (negb (tag =? 2)); [done|]. set (o := if negb (lenbyte .& 128 =? 0) then _ else _).
  assert (∀ len l', o = Some (len, l') → bytes_ok l') as Ho.
  { unfold o. destruct (negb _); [|by intros ? ? [= _ <-]]. destruct (_ <? _); [done|]. pose proof (lax_skip_bytes (Z.to_nat (lenbyte - 128)) l Hb) as Hs.
    destruct (lax_skip _ l) as [k l1]. destruct (8 <=? k)%nat; [done|]. pose proof (lax_number_bytes k 0 l1 Hs) as Hn. intros len l' [= E]. by rewrite E in Hn. }
  destruct o as [[len l']|]; [|done]. specialize (Ho len l' eq_refl). cbn [mbind option_bind]. destruct (_ <? _); [done|]. intros [= <- <-].
  split; [by apply Forall_take|by apply Forall_drop].
Qed.

(** Two integers below the order are the signature; otherwise it is zero. *)
Lemma lax_scalars_spec (c d : list Z) :
  bytes_ok c → bytes_ok d → let '(r, s) := lax_scalars c d in
  sc_ok r ∧ sc_ok s ∧ (sc_val r, sc_val s) = if (be_val c <? secp_n) && (be_val d <? secp_n) then (be_val c, be_val d) else (0, 0).
Proof.
  intros Hc Hd. unfold lax_scalars. destruct (skip_zeros_spec c Hc) as (Bc & Ec & _ & Mc), (skip_zeros_spec d Hd) as (Bd & Ed & _ & Md).
  set (zero := (secp256k1_ecdsa_signature_parse_compact (replicate 64 0)).1). assert (sc_ok zero.1 ∧ sc_ok zero.2 ∧ (sc_val zero.1, sc_val zero.2) = (0, 0)) as Hz by (by vm_compute).
  destruct zero as [zr zs]. cbn [fst snd] in Hz.
  assert (∀ l, (l = [] ∨ 2 ^ (8 * (Z.of_nat (length l) - 1)) <= be_val l) → 32 < Z.of_nat (length l) → (be_val l <? secp_n) = false) as Hbig.
  { intros l [->|Hl] Hlt; [cbn in Hlt; lia|]. assert (2 ^ 256 <= 2 ^ (8 * (Z.of_nat (length l) - 1))) by (apply Z.pow_le_mono_r; lia). apply Z.ltb_ge. unfold secp_n. lia. }
  rewrite <- Ec in Mc |- *. rewrite <- Ed in Md |- *. destruct (Z.ltb_spec 32 (length (skip_zeros c))) as [Hlt|Hlc]; [by rewrite (Hbig _ Mc Hlt)|].
  destruct (Z.ltb_spec 32 (length (skip_zeros d))) as [Hlt|Hld]; [by rewrite (Hbig _ Md Hlt), andb_false_r|]. cbn [orb].
  destruct (pad32_spec (skip_zeros c) Bc ltac:(lia)) as (Bp & Lp & Vp), (pad32_spec (skip_zeros d) Bd ltac:(lia)) as (Bq & Lq & Vq).
  unfold secp256k1_ecdsa_signature_parse_compact. rewrite take_app_length', drop_app_length' by done.
  destruct (sc_set_b32_spec _ Bp Lp) as (Hr & Vr & Or), (sc_set_b32_spec _ Bq Lq) as (Hs & Vs & Os).
  destruct (secp256k1_scalar_set_b32 (pad32 (skip_zeros c))) as [r o], (secp256k1_scalar_set_b32 (pad32 (skip_zeros d))) as [s o']. cbn [fst snd] in *. subst o o'.
  rewrite Vp, Vq in *. pose proof (be_val_range _ Bc). pose proof (be_val_range _ Bd).
  destruct (Z.leb_spec secp_n (be_val (skip_zeros c))), (Z.ltb_spec (be_val (skip_zeros c)) secp_n); try lia; cbn [negb andb]; [exact Hz|].
  destruct (Z.leb_spec secp_n (be_val (skip_zeros d))), (Z.ltb_spec (be_val (skip_zeros d)) secp_n); try lia; cbn [negb andb]; [exact Hz|].
  split; [exact Hr|]. split; [exact Hs|]. by rewrite Vr, Vs, !Z.mod_small by lia.
Qed.

Lemma lax_parse_ok (input : list Z) (r s : secp256k1_scalar) : bytes_ok input → ecdsa_signature_parse_der_lax input = Some (r, s) → sc_ok r ∧ sc_ok s.
Proof.
  intros Hb. destruct input as [|tag [|lenbyte l]]; [done..|]. rewrite !list.Forall_cons in Hb. destruct Hb as (_ & _ & Hb). cbn [ecdsa_signature_parse_der_lax].
  destruct (negb (tag =? 48)); [done|]. set (o := if negb (lenbyte .& 128 =? 0) then _ else _).
  assert (∀ l', o = Some l' → bytes_ok l') as Ho by (unfold o; repeat case_match; intros l' [= <-]; [by apply Forall_drop|done]).
  destruct o as [l'|]; [|done]. cbn [mbind option_bind]. destruct (lax_integer l') as [[c l1]|] eqn:E1; [|done]. cbn [mbind option_bind].
  destruct (lax_integer_bytes _ _ _ (Ho l' eq_refl) E1) as [Hc H1]. destruct (lax_integer l1) as [[d l2]|] eqn:E2; [|done]. cbn [mbind option_bind].
  destruct (lax_integer_bytes _ _ _ H1 E2) as [Hd _]. pose proof (lax_scalars_spec c d Hc Hd) as Hs. intros [= E]. rewrite E in Hs. tauto.
Qed.

Lemma lax_integer_short (c rest : list Z) : (length c < 128)%nat → lax_integer (0x02 :: Z.of_nat (length c) :: c ++ rest) = Some (c, rest).
Proof.
  intros Hl. cbn [lax_integer]. change (negb (2 =? 2)) with false. cbn iota. destruct (sign_bit_test (length c)) as [-> _]; [split; lia|].
  rewrite (proj2 (Z.ltb_lt _ 128)) by lia. cbn [negb mbind option_bind]. rewrite length_app, (proj2 (Z.ltb_ge _ _)) by lia.
  by rewrite Nat2Z.id, take_app_length, drop_app_length.
Qed.

(** On a strict encoding of numbers that are not zero, both parsers agree. *)
Lemma lax_strict (sig : list Z) (r s : secp256k1_scalar) :
  bytes_ok sig → length sig < 2 ^ 31 → secp256k1_ecdsa_signature_parse_der sig = Some (r, s) → sc_val r ≠ 0 → sc_val s ≠ 0 →
  ecdsa_signature_parse_der_lax sig = Some (r, s).
Proof.
  intros Hb Hl E Nr Ns. destruct (sig_parse_inv sig r s Hb Hl E Nr Ns) as (Hr & Hs & ->).
  destruct (scalar_octets_spec r Hr) as ([Br _] & Vr & Lr), (scalar_octets_spec s Hs) as ([Bs _] & Vs & Ls).
  pose proof (lax_scalars_spec _ _ Br Bs) as Hv. unfold der_pair. cbn [app ecdsa_signature_parse_der_lax]. change (negb (48 =? 48)) with false. cbn iota.
  destruct (sign_bit_test (4 + length (scalar_octets s) + length (scalar_octets r))) as [-> _]; [split; lia|]. rewrite (proj2 (Z.ltb_lt _ 128)) by lia.
  cbn [negb mbind option_bind]. rewrite lax_integer_short by lia. cbn [mbind option_bind]. rewrite <- (app_nil_r (scalar_octets s)) at 2.
  rewrite lax_integer_short by lia. cbn [mbind option_bind]. destruct (lax_scalars _ _) as [r' s']. destruct Hv as (Hr' & Hs' & Hv).
  rewrite Vr, Vs in Hv. pose proof (sc_ok_range r Hr). pose proof (sc_ok_range s Hs). rewrite !(proj2 (Z.ltb_lt _ secp_n)) in Hv by lia. injection Hv as Er Es.
  do 2 f_equal; apply sc_val_inj; (done || apply Hr' || apply Hs' || apply Hr || apply Hs).
Qed.

(** ** Keys *)

Section Spec.
Context (ctx : ecmult_context) (d0 : gej) (Hctx : context_ok (fe := secp256k1_fe) ctx) (Hd0 : gej_ok d0).

Lemma invalid_encodes (key : list Z) (P : Fp * Fp) : CPubKey_IsValid key = false → ¬ key_encodes (key_bytes key) P.
Proof.
  unfold CPubKey_IsValid, key_bytes. intros E%Z.ltb_ge. replace (Z.to_nat (CPubKey_size key)) with 0%nat by lia. rewrite take_0.
  by intros [?|[?|?]].
Qed.

(** Verification decides ECDSA for the point and the scalars that the key and the signature encode. *)
Lemma CPubKey_Verify_spec (key hash vchSig : list Z) :
  bytes_ok key → bytes_ok hash → length hash = 32%nat → bytes_ok vchSig →
  (∀ P, on_curve (Some P) → key_encodes (key_bytes key) P → in_group (Some P)) →
  ∃ b, CPubKey_Verify ctx d0 key hash vchSig = Some b ∧
    (b = true ↔ ∃ P r s, on_curve (Some P) ∧ key_encodes (key_bytes key) P ∧ ecdsa_signature_parse_der_lax vchSig = Some (r, s) ∧
                  ecdsa_valid (Some P) (be_val hash mod secp_n) (sc_val r) (sc_val s)).
Proof using Hctx Hd0.
  intros Hk Hh Lh Hs HG. unfold CPubKey_Verify. destruct (CPubKey_IsValid key) eqn:Ev; cbn [negb].
  2: { exists false. split; [done|]. split; [done|]. intros (P & _ & _ & _ & He & _). by apply (invalid_encodes key P) in Ev. }
  pose proof (ec_pubkey_parse_spec (key_bytes key) (Forall_take _ _ _ Hk)) as Hp. destruct (secp256k1_ec_pubkey_parse (key_bytes key)) as [d|].
  2: { exists false. split; [done|]. split; [done|]. intros (P & _ & _ & Hc & He & _). by apply (Hp P) in Hc. }
  destruct Hp as (P & Hd & Hc & He). destruct (ecdsa_signature_parse_der_lax vchSig) as [[r s]|] eqn:El.
  2: { exists false. split; [done|]. split; [done|]. by intros (? & ? & ? & _ & _ & ? & _). }
  destruct (lax_parse_ok vchSig r s Hs El) as [Hr Hs']. destruct (ecdsa_verify_normalized ctx d0 Hctx Hd0 r s hash d P Hr Hs' Hh Lh Hd (HG P Hc He)) as (b & E & Hb).
  exists b. split; [exact E|]. rewrite Hb. split; [by exists P, r, s|]. intros (Q & r' & s' & HcQ & HeQ & [= <- <-] & Hv).
  by rewrite (key_encodes_unique (key_bytes key) P Q).
Qed.

Lemma CPubKey_CheckLowS_spec (vchSig : list Z) :
  bytes_ok vchSig → CPubKey_CheckLowS vchSig = true ↔ ∃ r s, ecdsa_signature_parse_der_lax vchSig = Some (r, s) ∧ sc_val s <= secp_n / 2.
Proof.
  intros Hb. unfold CPubKey_CheckLowS. destruct (ecdsa_signature_parse_der_lax vchSig) as [[r s]|] eqn:E; [|split; [done|by intros (? & ? & ? & _)]].
  destruct (lax_parse_ok vchSig r s Hb E) as [_ Hs]. cbn [secp256k1_ecdsa_signature_normalize snd]. rewrite sc_is_high_spec by apply Hs.
  destruct (Z.ltb_spec (secp_n / 2) (sc_val s)); cbn [negb]; split; try done; [intros (? & ? & [= <- <-] & ?); lia|by intros _; exists r, s].
Qed.

Lemma key_bytes_compressed (P : Fp * Fp) :
  CPubKey_size (compressed_key P) = 33 ∧ key_bytes (compressed_key P) = compressed_key P ∧ CPubKey_Set (compressed_key P) = compressed_key P ∧ bytes_ok (compressed_key P).
Proof.
  destruct (coord_spec P.1) as (Lx & Bx & _). assert (CPubKey_size (compressed_key P) = 33) as E by (unfold compressed_key; by destruct (Z.odd _)).
  assert (length (compressed_key P) = 33%nat) as L by (cbn [compressed_key length]; by rewrite Lx).
  split_and!; [done|unfold key_bytes; by rewrite E, take_ge by (rewrite L; lia)| |].
  - unfold CPubKey_Set. change (match compressed_key P with [] => 0 | h :: _ => GetLen h end) with (CPubKey_size (compressed_key P)). by rewrite E, L.
  - unfold compressed_key. constructor; [by destruct (Z.odd _)|done].
Qed.

(** The hash that derivation tweaks a key with, and the chain code after it *)
Definition child_hash (P : Fp * Fp) (nChild : Z) (cc : list Z) : list Z := hmac_reference 128 fips_SHA512 cc (compressed_key P ++ WriteBE32 nChild).

Lemma child_hash_spec (P : Fp * Fp) (nChild : Z) (cc : list Z) :
  bytes_ok (take 32 (child_hash P nChild cc)) ∧ length (take 32 (child_hash P nChild cc)) = 32%nat.
Proof. unfold child_hash, hmac_reference. split; [apply Forall_take, fips_SHA512_bytes|]. by rewrite length_take, length_fips_SHA512. Qed.

Lemma CPubKey_Derive_spec (P : Fp * Fp) (nChild : Z) (cc : list Z) :
  in_group (Some P) → bytes_ok cc → 0 <= nChild < 2 ^ 31 →
  let I := child_hash P nChild cc in
  ∃ child, CPubKey_Derive ctx d0 (compressed_key P) nChild cc = Some (child, drop 32 I) ∧
    match child with
    | Some key => be_val (take 32 I) < secp_n ∧
        ∃ Q, key = compressed_key Q ∧ on_curve (Some Q) ∧ Some Q = point_add (Some P) (point_mul (be_val (take 32 I)) generator)
    | None => secp_n <= be_val (take 32 I) ∨ point_add (Some P) (point_mul (be_val (take 32 I)) generator) = None
    end.
Proof using Hctx Hd0.
  intros HP Hcc Hn I. destruct (key_bytes_compressed P) as (Es & Ek & _ & Bk). unfold CPubKey_Derive, CPubKey_IsValid. rewrite Es, Ek. cbn [negb Z.ltb Z.eqb Z.compare].
  rewrite Z.shiftr_div_pow2, Z.div_small by lia. cbn [negb Z.eqb].
  assert (BIP32Hash cc nChild ((compressed_key P).[0]) (drop 1 (compressed_key P)) = I) as ->.
  { pose proof Bk as Bk'. apply list.Forall_cons in Bk' as [B0 B1]. by apply BIP32Hash_spec. }
  destruct (ec_pubkey_parse_some (compressed_key P) P Bk (proj1 HP) ltac:(by left)) as (d & -> & Hd).
  destruct (child_hash_spec P nChild cc) as [Bt Lt]. destruct (ec_pubkey_tweak_add_spec ctx d0 Hctx Hd0 d (take 32 I) P Bt Lt Hd HP) as (o & -> & Ho).
  cbn [mbind option_bind]. destruct o as [d'|]; [|by exists None]. destruct Ho as (Hlt & Q & HdQ & HcQ & EQ).
  rewrite (ec_pubkey_serialize_spec d' Q true HdQ). cbn [mbind option_bind]. destruct (key_bytes_compressed Q) as (_ & _ & -> & _).
  eexists. split; [done|]. split; [done|]. by exists Q.
Qed.
End Spec.

(** The interface that scripts are verified over, with a context as the program builds it *)
Definition core_context : ecmult_context := ecmult_context_build secp256k1_ge_const_g gej_clear ecmult_context_init.

Definition core_secp : Secp256k1 := {|
  secp_verify key hash vchSig := default false (CPubKey_Verify core_context gej_clear key hash vchSig);
  CheckLowS := CPubKey_CheckLowS |}.

Lemma core_context_ok : context_ok (fe := secp256k1_fe) core_context.
Proof. apply ecmult_context_build_spec; [apply gej_clear_ok|apply generator_affine]. Qed.

(** ** Properties *)

(** C34: signature verification of scripts decides ECDSA.  With the context the program builds, for a 32-byte hash and a key all of whose points
    are in the group, [CPubKey::Verify] returns without reading outside a table, and through the interface of the script interpreter it accepts exactly if the key is the encoding of
    a point of the curve, the lax parser reads two scalars, and these are a valid signature of the hash under that point, high or low;
    [CheckLowS] accepts exactly the readable signatures with [s] at most half the order; and a strict encoding of nonzero scalars is read by the lax parser as those scalars. *)
Theorem CPubKey_Verify_correct (key hash vchSig : list Z) :
  bytes_ok key → bytes_ok hash → length hash = 32%nat → bytes_ok vchSig → length vchSig < 2 ^ 31 →
  (∀ P, on_curve (Some P) → key_encodes (key_bytes key) P → in_group (Some P)) →
  is_Some (CPubKey_Verify core_context gej_clear key hash vchSig) ∧
  (@VerifySignature core_secp vchSig key hash = true ↔
    ∃ P r s, on_curve (Some P) ∧ key_encodes (key_bytes key) P ∧ ecdsa_signature_parse_der_lax vchSig = Some (r, s) ∧
      ecdsa_valid (Some P) (be_val hash mod secp_n) (sc_val r) (sc_val s)) ∧
  (CheckLowS (Secp256k1 := core_secp) vchSig = true ↔ ∃ r s, ecdsa_signature_parse_der_lax vchSig = Some (r, s) ∧ sc_val s <= secp_n / 2) ∧
  (∀ r s, secp256k1_ecdsa_signature_parse_der vchSig = Some (r, s) → sc_val r ≠ 0 → sc_val s ≠ 0 → ecdsa_signature_parse_der_lax vchSig = Some (r, s)).
Proof.
  intros Hk Hh Lh Hs Ls HG. destruct (CPubKey_Verify_spec core_context gej_clear core_context_ok gej_clear_ok key hash vchSig Hk Hh Lh Hs HG) as (b & E & Hb).
  split; [by rewrite E|]. split; [unfold VerifySignature; cbn [secp_verify core_secp]; by rewrite E|].
  split; [by apply CPubKey_CheckLowS_spec|]. intros r s. by apply lax_strict.
Qed.

(** ** Witnesses *)

(** The key of the secret number 1, and its signature of a hash with the nonce 1 *)
Definition demo_pubkey : list Z := Eval vm_compute in compressed_key generator_xy.
Definition demo_der : list Z :=
  [48; 68; 2; 32; 121; 190; 102; 126; 249; 220; 187; 172; 85; 160; 98; 149; 206; 135; 11; 7; 2; 155; 252; 219; 45; 206; 40; 217; 89; 242; 129; 91; 22; 248; 23; 152;
   2; 32; 122; 191; 103; 127; 250; 221; 188; 173; 86; 161; 99; 150; 207; 136; 12; 8; 3; 156; 253; 220; 46; 207; 41; 218; 90; 243; 130; 92; 23; 249; 24; 153].

Lemma demo_encodes : key_encodes (key_bytes demo_pubkey) generator_xy.
Proof. left. by vm_compute. Qed.

(** A nonce of 1 signs with the sum of the message and [r]. *)
Lemma generator_signs (m r s w : Z) :
  r ≠ 0 → s = (m + r) mod secp_n → s ≠ 0 → (s * w) mod secp_n = 1 → Zmod.unsigned generator_xy.1 mod secp_n = r → ecdsa_valid (Some generator_xy) m r s.
Proof.
  intros Hr Es Hs Hw Hx. split; [done|]. split; [done|]. exists w, generator_xy.1, generator_xy.2. split; [done|]. split; [|done].
  unfold combination. change (Some generator_xy) with generator. rewrite <- (point_mul_add generator generator_on_curve), <- (point_mul_mod _ generator in_group_generator).
  replace (w * r + w * m) with ((m + r) * w) by lia. rewrite <- Zmult_mod_idemp_l, <- Es, Hw. apply (point_mul_1 generator generator_on_curve).
Qed.

Lemma CPubKey_Verify_correct_witness : @VerifySignature core_secp demo_der demo_pubkey (replicate 32 1) = true.
Proof.
  destruct (CPubKey_Verify_correct demo_pubkey (replicate 32 1) demo_der) as (_ & Hv & _);
    [by apply bytes_okb_ok|by apply bytes_okb_ok|done|by apply bytes_okb_ok|done| |].
  - intros P Hc He. rewrite (key_encodes_unique _ _ _ Hc generator_xy_on_curve He demo_encodes). apply generator_xy_in_group.
  - apply Hv. destruct (ecdsa_signature_parse_der_lax demo_der) as [[r s]|] eqn:E; [|by vm_compute in E].
    exists generator_xy, r, s. split; [apply generator_xy_on_curve|]. split; [apply demo_encodes|]. split; [done|]. vm_compute in E. injection E as <- <-.
    apply (generator_signs _ _ _ 87841024659893593392529300331312147506025747233907222006796069751396932491683); by vm_compute.
Defined.
