(* ===== verification/Key.v ===== *)
(** * Secret keys and hierarchical derivation ([src/src/key.h], [src/src/key.cpp])

    [CKey] (setting a key, its public key, derivation) and [CExtKey], over the model of the curve library.  Deriving a child and then taking its
    public part is the same as taking the public part and deriving from it. *)

From Stdlib Require Import ZArith Lia Zdivisibility Zmod Field.
From S2P Require Import Prelude Common Field5x52 Primes Scalar4x64 SecpField SecpGroup CurveGroup CurveOrder Ecmult EcmultGen Ecdsa Der EcKey Hmac Sha512 Hashes SigHash PubKey.
Open Scope Z_scope.
Open Scope word_scope.

(** ** [CKey] *)

Record CKey := MkKey { fValid : bool; fCompressed : bool; keydata : list Z }.

Definition CKey_new : CKey := MkKey false false (replicate 32 0).

Definition CKey_Check (vch : list Z) : bool := secp256k1_ec_seckey_verify vch.

Definition CKey_Set (vch : list Z) (fCompressedIn : bool) (key : CKey) : CKey :=
  if negb (Nat.eqb (length vch) (length (keydata key))) then MkKey false (fCompressed key) (keydata key)
  else if CKey_Check vch then MkKey true fCompressedIn vch
  else MkKey false (fCompressed key) (keydata key).

Definition CKey_size (key : CKey) : nat := if fValid key then length (keydata key) else 0.

Section CKey.
Context (gctx : secp256k1_ecmult_gen_context).

(** [None] where the table has not been built; [Some None] where the source returns 0 *)
Definition secp256k1_ec_pubkey_create (seckey : list Z) : option (option pubkey_data) :=
  let '(sec, overflow) := secp256k1_scalar_set_b32 seckey in
  if negb overflow && negb (secp256k1_scalar_is_zero sec) then
    pj ← secp256k1_ecmult_gen gctx sec;
    let p := (ge_set_gej pj).1 in
    Some (Some (secp256k1_pubkey_save p))
  else Some None.

(** [None] where an assertion fails *)
Definition CKey_GetPubKey (key : CKey) : option (list Z) :=
  if negb (fValid key) then None
  else
    ret ← secp256k1_ec_pubkey_create (keydata key);
    pubkey ← ret;
    result ← secp256k1_ec_pubkey_serialize pubkey (fCompressed key);
    if negb (CPubKey_size result =? length result) then None
    else if negb (CPubKey_IsValid result) then None
    else Some result.

(** The child, its chain code and whether it is valid *)
Definition CKey_Derive (key : CKey) (nChild : Z) (cc : list Z) : option (CKey * list Z * bool) :=
  if negb (fValid key) then None
  else if negb (fCompressed key) then None
  else
    vout ← (if nChild .>> 31 =? 0 then
              pubkey ← CKey_GetPubKey key;
              if negb (CPubKey_size pubkey =? 33) then None
              else Some (BIP32Hash cc nChild (pubkey.[0]) (drop 1 pubkey))
            else
              if negb (Nat.eqb (CKey_size key) 32) then None
              else Some (BIP32Hash cc nChild 0 (keydata key)));
    let ret := secp256k1_ec_privkey_tweak_add (keydata key) (take 32 vout) in
    let ok := match ret with Some _ => true | None => false end in
    Some (MkKey ok true (default (replicate 32 0) ret), drop 32 vout, ok).
End CKey.

(** ** [CExtKey] *)

Module Ext.
Record CExtKey := { nDepth : Z; vchFingerprint : list Z; nChild : Z; chaincode : list Z; key : CKey }.

Section CExtKey.
Context (gctx : secp256k1_ecmult_gen_context).

(** Whether the derivation succeeded, and the child *)
Definition Derive (k : CExtKey) (_nChild : Z) : option (bool * CExtKey) :=
  pub ← CKey_GetPubKey gctx (key k);
  let id := CPubKey_GetID pub in
  '(child, cc, ok) ← CKey_Derive gctx (key k) _nChild (chaincode k);
  Some (ok, {| nDepth := u8 (nDepth k + 1); vchFingerprint := take 4 id; nChild := _nChild; chaincode := cc; key := child |}).

Definition Neuter (k : CExtKey) : option CExtPubKey :=
  pub ← CKey_GetPubKey gctx (key k);
  Some {| PubKey.nDepth := nDepth k; PubKey.vchFingerprint := vchFingerprint k; PubKey.nChild := nChild k; PubKey.chaincode := chaincode k; PubKey.pubkey := pub |}.
End CExtKey.

(** The bytes of Bitcoin seed *)
Definition hashkey : list Z := [66; 105; 116; 99; 111; 105; 110; 32; 115; 101; 101; 100].

Definition SetMaster (seed : list Z) (k : CExtKey) : CExtKey :=
  let vout := CHMAC_SHA512_Finalize (CHMAC_SHA512_Write seed (CHMAC_SHA512_new hashkey)) in
  {| key := CKey_Set (take 32 vout) true (key k); chaincode := drop 32 vout; nDepth := 0; nChild := 0; vchFingerprint := replicate 4 0 |}.

(** [None] where the assertion on the size fails *)
Definition Encode (k : CExtKey) : option (list Z) :=
  if negb (Nat.eqb (CKey_size (key k)) 32) then None
  else
    Some ([nDepth k] ++ vchFingerprint k ++
          [(nChild k .>> 24) .& 0xFF; (nChild k .>> 16) .& 0xFF; (nChild k .>> 8) .& 0xFF; (nChild k .>> 0) .& 0xFF] ++
          chaincode k ++ [0] ++ keydata (key k)).

Definition Decode (code : list Z) (k : CExtKey) : CExtKey :=
  {| nDepth := code.[0]; vchFingerprint := take 4 (drop 1 code);
     nChild := u32 ((code.[5] .<< 24) .| (code.[6] .<< 16) .| (code.[7] .<< 8) .| code.[8]);
     chaincode := take 32 (drop 9 code); key := CKey_Set (take 32 (drop 42 code)) true (key k) |}.
End Ext.

(** ** What a secret key holds *)

(** [fValid] corresponds to the key data. *)
Definition key_inv (k : CKey) : Prop :=
  length (keydata k) = 32%nat ∧ bytes_ok (keydata k) ∧ (fValid k = true → 0 < be_val (keydata k) < secp_n).

Lemma CKey_Check_spec (vch : list Z) : bytes_ok vch → length vch = 32%nat → CKey_Check vch = (0 <? be_val vch) && (be_val vch <? secp_n).
Proof.
  intros Hb Hl. unfold CKey_Check, secp256k1_ec_seckey_verify. destruct (sc_set_b32_spec vch Hb Hl) as (Hs & Vs & Os).
  destruct (secp256k1_scalar_set_b32 vch) as [s o]. cbn [fst snd] in *. subst o. rewrite sc_is_zero_spec, Vs by apply Hs. pose proof (be_val_range vch Hb).
  destruct (Z.leb_spec secp_n (be_val vch)), (Z.ltb_spec (be_val vch) secp_n); try lia; rewrite ?andb_false_r, ?andb_true_r; cbn [negb andb]; try done.
  rewrite Z.mod_small by lia. destruct (Z.eqb_spec (be_val vch) 0), (Z.ltb_spec 0 (be_val vch)); done || lia.
Qed.

Lemma CKey_new_inv : key_inv CKey_new.
Proof. split_and!; [done|by apply bytes_okb_ok|done]. Qed.

Lemma CKey_Set_inv (vch : list Z) (c : bool) (k : CKey) : bytes_ok vch → key_inv k → key_inv (CKey_Set vch c k).
Proof.
  intros Hb (Hl & Hk & Hv). unfold CKey_Set. destruct (Nat.eqb_spec (length vch) (length (keydata k))) as [E|]; cbn [negb]; [|by split_and!].
  rewrite Hl in E. destruct (CKey_Check vch) eqn:Ec; [|by split_and!]. split_and!; [done|done|]. intros _. rewrite CKey_Check_spec in Ec by done. bool_to_prop. cbn [keydata]. lia.
Qed.

Section Spec.
Context (gctx : secp256k1_ecmult_gen_context) (Hgctx : gen_context_ok gctx).

Lemma ec_pubkey_create_spec (seckey : list Z) :
  bytes_ok seckey → length seckey = 32%nat → 0 < be_val seckey < secp_n →
  ∃ d P, secp256k1_ec_pubkey_create gctx seckey = Some (Some d) ∧ key_stored d P ∧ Some P = point_mul (be_val seckey) generator.
Proof using Hgctx.
  intros Hb Hl Hr. unfold secp256k1_ec_pubkey_create. destruct (sc_set_b32_spec seckey Hb Hl) as (Hs & Vs & Os).
  destruct (secp256k1_scalar_set_b32 seckey) as [s o]. cbn [fst snd] in *. subst o. rewrite sc_is_zero_spec by apply Hs. rewrite Z.mod_small in Vs by lia. rewrite Vs.
  rewrite (proj2 (Z.leb_gt _ _)), (proj2 (Z.eqb_neq _ _)) by lia. cbn [negb andb]. destruct (ecmult_gen_spec gctx s Hgctx Hs) as (pj & -> & Hp). cbn [mbind option_bind].
  rewrite Vs in Hp. pose proof (point_mul_small generator (be_val seckey) in_group_generator ltac:(discriminate) Hr) as Hn.
  pose proof (point_mul_on_curve generator generator_on_curve (be_val seckey)) as Hc. destruct (point_mul (be_val seckey) generator) as [P|]; [|done].
  destruct (ge_set_gej_spec secp256k1_ge_const_g pj (Some P) (proj1 generator_affine) Hp) as (Ha & _).
  eexists _, P. split; [reflexivity|]. split; [by apply pubkey_save_spec|reflexivity].
Qed.

(** The public key is the encoding of the secret number times the generator. *)
Lemma CKey_GetPubKey_spec (k : CKey) :
  key_inv k → fValid k = true →
  ∃ P, Some P = point_mul (be_val (keydata k)) generator ∧ in_group (Some P) ∧
    CKey_GetPubKey gctx k = Some (if fCompressed k then compressed_key P else uncompressed_key P).
Proof using Hgctx.
  intros (Hl & Hb & Hv) Hk. destruct (ec_pubkey_create_spec (keydata k) Hb Hl (Hv Hk)) as (d & P & E & Hd & EP). exists P. split; [done|].
  split; [rewrite EP; apply in_group_mul, in_group_generator|]. unfold CKey_GetPubKey. rewrite Hk, E. cbn [negb mbind option_bind].
  rewrite (ec_pubkey_serialize_spec d P _ Hd). cbn [mbind option_bind].
  destruct (coord_spec P.1) as (Lx & _), (coord_spec P.2) as (Ly & _). set (c := if fCompressed k then _ else _).
  assert (CPubKey_size c = length c ∧ CPubKey_IsValid c = true) as [-> ->].
  { unfold c, compressed_key, uncompressed_key, CPubKey_IsValid. destruct (fCompressed k); cbn [length]; rewrite ?length_app, ?Lx, ?Ly; [by destruct (Z.odd _)|done]. }
  by rewrite Z.eqb_refl.
Qed.

(** The hash that a child is derived with: of the public key, or of the secret key for a hardened child *)
Definition secret_hash (P : Fp * Fp) (k : CKey) (nChild : Z) (cc : list Z) : list Z :=
  if nChild <? 2 ^ 31 then child_hash P nChild cc else hmac_reference 128 fips_SHA512 cc ([0] ++ keydata k ++ WriteBE32 nChild).

Lemma secret_hash_spec (P : Fp * Fp) (k : CKey) (nChild : Z) (cc : list Z) :
  bytes_ok (secret_hash P k nChild cc) ∧ length (secret_hash P k nChild cc) = 64%nat.
Proof. unfold secret_hash, child_hash, hmac_reference. destruct (_ <? _); split; apply fips_SHA512_bytes || apply length_fips_SHA512. Qed.

(** The child's secret number is the key's plus the first half of the hash, modulo the order. *)
Lemma CKey_Derive_spec (k : CKey) (P : Fp * Fp) (nChild : Z) (cc : list Z) :
  key_inv k → fValid k = true → fCompressed k = true → Some P = point_mul (be_val (keydata k)) generator → bytes_ok cc → 0 <= nChild < 2 ^ 32 →
  let I := secret_hash P k nChild cc in
  ∃ child ok, CKey_Derive gctx k nChild cc = Some (child, drop 32 I, ok) ∧ key_inv child ∧ fValid child = ok ∧ fCompressed child = true ∧
    if ok then be_val (take 32 I) < secp_n ∧ point_mul (be_val (keydata child)) generator = point_add (Some P) (point_mul (be_val (take 32 I)) generator)
    else secp_n <= be_val (take 32 I) ∨ point_add (Some P) (point_mul (be_val (take 32 I)) generator) = None.
Proof using Hgctx.
  intros Hk Hv Hc EP Hcc Hn I. destruct (CKey_GetPubKey_spec k Hk Hv) as (Q & EQ & _ & EG). rewrite <- EP in EQ. injection EQ as ->.
  destruct Hk as (Hl & Hb & _). unfold CKey_Derive. rewrite Hv, Hc in *. cbn [negb]. rewrite EG. cbn [mbind option_bind].
  destruct (key_bytes_compressed P) as (Es & _ & _ & Bk). set (vout := if nChild .>> 31 =? 0 then _ else _). assert (vout = Some I) as ->.
  { unfold vout, I, secret_hash. rewrite Z.shiftr_div_pow2 by lia. destruct (Z.ltb_spec nChild (2 ^ 31)) as [Hlt|Hge].
    - rewrite Z.div_small by lia. cbn [Z.eqb]. rewrite Es. cbn [Z.eqb negb Pos.eqb]. f_equal. apply list.Forall_cons in Bk as [B0 B1]. by apply BIP32Hash_spec.
    - rewrite (proj2 (Z.eqb_neq _ 0)) by (intros E%Z.div_small_iff; lia). unfold CKey_size. rewrite Hv, Hl. cbn [Nat.eqb negb]. f_equal. by apply BIP32Hash_spec. }
  cbn [mbind option_bind]. destruct (secret_hash_spec P k nChild cc) as [BI LI].
  pose proof (ec_privkey_tweak_add_spec (keydata k) (take 32 I) Hb Hl (Forall_take _ _ _ BI) ltac:(unfold I; rewrite length_take, LI; reflexivity)) as Ht.
  rewrite <- EP in Ht. destruct (secp256k1_ec_privkey_tweak_add (keydata k) (take 32 I)) as [s|]; cbn [default]; do 2 eexists; (split; [reflexivity|]).
  - destruct Ht as (Ls & Bs & Rs & Hlt & E). by split_and!.
  - split; [split_and!; [done|by apply bytes_okb_ok|done]|]. by split_and!.
Qed.
End Spec.

(** ** Extended keys *)

(** What derivation and encoding need of a key, and keep *)
Definition ext_inv (k : Ext.CExtKey) : Prop :=
  key_inv (Ext.key k) ∧ fCompressed (Ext.key k) = true ∧ bytes_ok (Ext.chaincode k) ∧ length (Ext.chaincode k) = 32%nat ∧
  length (Ext.vchFingerprint k) = 4%nat ∧ is_word 8 (Ext.nDepth k) ∧ is_word 32 (Ext.nChild k).

Lemma length_Hash160 (data : list Z) : length (Hash160 data) = 20%nat.
Proof. apply length_CRIPEMD160. Qed.

Lemma derive_neuter (gctx : secp256k1_ecmult_gen_context) (ctx : ecmult_context) (d0 : gej) (k : Ext.CExtKey) (out : CExtPubKey) (n : Z) :
  gen_context_ok gctx → context_ok (fe := secp256k1_fe) ctx → gej_ok d0 → ext_inv k → fValid (Ext.key k) = true → is_word 32 n →
  ∃ pk ok child, Ext.Neuter gctx k = Some pk ∧ Ext.Derive gctx k n = Some (ok, child) ∧ ext_inv child ∧ fValid (Ext.key child) = ok ∧
    if n <? 2 ^ 31 then ∃ pchild, CExtPubKey_Derive ctx d0 pk out n = Some (ok, pchild) ∧ (ok = true → Ext.Neuter gctx child = Some pchild)
    else CExtPubKey_Derive ctx d0 pk out n = None.
Proof.
  intros Hg Hctx Hd0 (Hk & Hc & Bc & Lc & Lf & _) Hv Hn. destruct (CKey_GetPubKey_spec gctx Hg (Ext.key k) Hk Hv) as (P & EP & HP & EG). rewrite Hc in EG.
  destruct (CKey_Derive_spec gctx Hg (Ext.key k) P n (Ext.chaincode k) Hk Hv Hc EP Bc Hn) as (child & ok & ED & Hik & Evk & Ec & Ht).
  destruct (secret_hash_spec P (Ext.key k) n (Ext.chaincode k)) as [BI LI]. unfold Ext.Neuter, Ext.Derive. rewrite EG. cbn [mbind option_bind]. rewrite ED. cbn [mbind option_bind].
  eexists _, _, _. split; [reflexivity|]. split; [reflexivity|]. split.
  { unfold ext_inv. cbn [Ext.key Ext.chaincode Ext.vchFingerprint Ext.nDepth Ext.nChild]. split_and!; try done; [by apply Forall_drop|by rewrite length_drop, LI| |apply wrap_range; lia..].
    unfold CPubKey_GetID. by rewrite length_take, length_Hash160. }
  split; [exact Evk|]. unfold CExtPubKey_Derive. cbn [PubKey.pubkey PubKey.chaincode PubKey.nDepth Ext.key].
  destruct (key_bytes_compressed P) as (Es & _). unfold secret_hash in *. destruct (Z.ltb_spec n (2 ^ 31)) as [Hlt|Hge].
  2: { unfold CPubKey_Derive, CPubKey_IsValid. rewrite Es, Z.shiftr_div_pow2 by lia. cbn [Z.ltb Z.compare negb].
       by rewrite (proj2 (Z.eqb_neq _ 0)) by (intros E%Z.div_small_iff; unfold is_word in *; lia). }
  destruct (CPubKey_Derive_spec ctx d0 Hctx Hd0 P n (Ext.chaincode k) HP Bc ltac:(unfold is_word in *; lia)) as (pchild & -> & Hp). cbn [mbind option_bind].
  destruct ok, pchild as [pchild|].
  - eexists. split; [reflexivity|]. intros _. destruct (CKey_GetPubKey_spec gctx Hg child Hik Evk) as (P' & EP' & _ & ->). cbn [mbind option_bind default]. rewrite Ec.
    destruct Ht as [_ E], Hp as (_ & Q & -> & _ & EQ). rewrite E, <- EQ in EP'. by injection EP' as ->.
  - destruct Ht as [Hr E], Hp as [Hp|Hp]; [lia|]. rewrite Hp in E. destruct Hik as (_ & _ & Hik).
    by destruct (point_mul_small generator (be_val (keydata child)) in_group_generator ltac:(discriminate) (Hik Evk)).
  - destruct Hp as (Hr & Q & _ & _ & EQ), Ht as [Ht|Ht]; [lia|]. by rewrite Ht in EQ.
  - eexists. by split.
Qed.

(** The four bytes of a child number, put together again *)
Lemma child_number_bytes (n : Z) :
  is_word 32 n →
  u32 ((((n .>> 24) .& 0xFF) .<< 24) .| (((n .>> 16) .& 0xFF) .<< 16) .| (((n .>> 8) .& 0xFF) .<< 8) .| ((n .>> 0) .& 0xFF)) = n.
Proof.
  intros Hn. assert (∀ k, (n .>> k) .& 0xFF = (n .>> k) mod 256) as E by (intros k; apply (Z.land_ones _ 8); lia).
  rewrite !E, !Z.shiftr_div_pow2, !Z.shiftl_mul_pow2 by lia. unfold is_word in Hn.
  set (a := (n / 2 ^ 24) mod 256). set (b := (n / 2 ^ 16) mod 256). set (c := (n / 2 ^ 8) mod 256). set (d := (n / 2 ^ 0) mod 256).
  assert (0 <= a < 256 ∧ 0 <= b < 256 ∧ 0 <= c < 256 ∧ 0 <= d < 256) as (Ha & Hb & Hc & Hd) by (split_and!; apply Z.mod_pos_bound; lia).
  rewrite (Z.lor_comm (a * 2 ^ 24)), (lor_add _ _ 24) by lia. rewrite (Z.lor_comm _ (c * 2 ^ 8)).
  rewrite (lor_add' (c * 2 ^ 8) _ 16); [|lia|lia|change (2 ^ 24) with (2 ^ 8 * 2 ^ 16); rewrite Z.mul_assoc, <- Z.mul_add_distr_r; apply Z_mod_mult].
  rewrite Z.lor_comm, (lor_add' d _ 8); [|lia|lia|change (2 ^ 24) with (2 ^ 16 * 2 ^ 8); change (2 ^ 16) with (2 ^ 8 * 2 ^ 8) at 1; rewrite !Z.mul_assoc, <- !Z.mul_add_distr_r; apply Z_mod_mult].
  assert (d + (c * 2 ^ 8 + (b * 2 ^ 16 + a * 2 ^ 24)) = n) as ->; [|by apply wrap_small].
  unfold a, b, c, d. change (2 ^ 24) with 16777216. change (2 ^ 16) with 65536. change (2 ^ 8) with 256. change (2 ^ 0) with 1. change (2 ^ 32) with 4294967296 in Hn.
  Z.div_mod_to_equations. lia.
Qed.

(** A list of 74 bytes by the fields of an extended key *)
Lemma extended_fields (d : Z) (f cc rest : list Z) (b5 b6 b7 b8 : Z) :
  length f = 4%nat → length cc = 32%nat →
  let code := [d] ++ f ++ [b5; b6; b7; b8] ++ cc ++ rest in
  code.[0] = d ∧ take 4 (drop 1 code) = f ∧ code.[5] = b5 ∧ code.[6] = b6 ∧ code.[7] = b7 ∧ code.[8] = b8 ∧ take 32 (drop 9 code) = cc ∧ drop 41 code = rest.
Proof.
  intros Lf Lc code. destruct f as [|f0 [|f1 [|f2 [|f3 [|]]]]]; try done. unfold code. do 6 (split; [reflexivity|]).
  split; [by apply take_app_length'|]. change (drop 32 (cc ++ rest) = rest). by apply drop_app_length'.
Qed.

Lemma ext_key_roundtrip (k k0 : Ext.CExtKey) :
  ext_inv k → fValid (Ext.key k) = true → key_inv (Ext.key k0) → ∃ code, Ext.Encode k = Some code ∧ length code = 74%nat ∧ Ext.Decode code k0 = k.
Proof.
  intros ((Lk & Bk & Hk) & Hc & _ & Lc & Lf & Hd & Hn) Hv (L0 & _). unfold Ext.Encode, CKey_size. rewrite Hv, Lk. cbn [Nat.eqb negb]. eexists. split; [reflexivity|].
  split; [rewrite !length_app; cbn [length]; lia|].
  destruct (extended_fields (Ext.nDepth k) (Ext.vchFingerprint k) (Ext.chaincode k) ([0] ++ keydata (Ext.key k))
    ((Ext.nChild k .>> 24) .& 0xFF) ((Ext.nChild k .>> 16) .& 0xFF) ((Ext.nChild k .>> 8) .& 0xFF) ((Ext.nChild k .>> 0) .& 0xFF) Lf Lc) as (E0 & E1 & E5 & E6 & E7 & E8 & E9 & E41).
  unfold Ext.Decode. rewrite E0, E1, E5, E6, E7, E8, E9, child_number_bytes by done. change 42%nat with (41 + 1)%nat. rewrite <- drop_drop, E41.
  change (drop 1 ([0] ++ keydata (Ext.key k))) with (keydata (Ext.key k)). rewrite take_ge by (rewrite Lk; lia).
  unfold CKey_Set. rewrite Lk, L0, CKey_Check_spec by done. cbn [Nat.eqb negb]. specialize (Hk Hv).
  rewrite (proj2 (Z.ltb_lt _ _)), (proj2 (Z.ltb_lt _ _)) by lia. cbn [andb]. by destruct k as [? ? ? ? [? ? ?]]; cbn in *; subst.
Qed.

Lemma SetMaster_spec (seed : list Z) (k : Ext.CExtKey) :
  bytes_ok seed → key_inv (Ext.key k) →
  let I := hmac_reference 128 fips_SHA512 Ext.hashkey seed in let m := Ext.SetMaster seed k in
  (fValid (Ext.key m) = true ↔ 0 < be_val (take 32 I) < secp_n) ∧
  (fValid (Ext.key m) = true → ext_inv m ∧ keydata (Ext.key m) = take 32 I ∧ Ext.chaincode m = drop 32 I).
Proof.
  intros Hs Hk I m.
  assert (CHMAC_SHA512_Finalize (CHMAC_SHA512_Write seed (CHMAC_SHA512_new Ext.hashkey)) = I) as E.
  { pose proof (CHMAC_correct 128 64 _ _ _ _ _ CSHA512_absorbed CSHA512_Write_absorbed CSHA512_Finalize_absorbed
                  length_fips_SHA512 fips_SHA512_bytes Ext.hashkey [seed] ltac:(by apply bytes_okb_ok)) as E.
    cbn [concat] in E. rewrite app_nil_r in E. apply E. by constructor. }
  assert (bytes_ok I ∧ length I = 64%nat) as [BI LI] by (split; apply fips_SHA512_bytes || apply length_fips_SHA512).
  pose proof (CKey_Set_inv (take 32 I) true _ (Forall_take _ _ _ BI) Hk) as Hi. unfold m, Ext.SetMaster. rewrite E. clear m E. cbn [Ext.key].
  assert (length (take 32 I) = 32%nat) as LT by (by rewrite length_take, LI). destruct Hk as (Lk & _).
  unfold CKey_Set in *. rewrite Lk, LT, CKey_Check_spec in * by (done || by apply Forall_take). cbn [Nat.eqb negb] in *.
  destruct ((0 <? be_val (take 32 I)) && (be_val (take 32 I) <? secp_n)) eqn:Ec; bool_to_prop; cbn [fValid]; (split; [split; (done || lia)|]); [|done].
  intros _. split; [|done]. unfold ext_inv. cbn [Ext.key Ext.chaincode Ext.vchFingerprint Ext.nDepth Ext.nChild]. split_and!; try done; [by apply Forall_drop|by rewrite length_drop, LI].
Qed.

(** ** Properties *)

(** C36: hierarchical keys are consistent.  For a valid extended key and any child number, private derivation returns, and the child it gives satisfies the
    key invariant and is valid exactly if derivation reports success; for a child that is not hardened, public derivation from the public part
    of the key reports the same and, on success, gives the public part of the private child, field by field; for a hardened child it is refused
    by the assertion; and the encoding of the key has 74 bytes and decodes to the key. *)
Theorem extended_keys_correct (gctx : secp256k1_ecmult_gen_context) (ctx : ecmult_context) (d0 : gej) (k k0 : Ext.CExtKey) (out : CExtPubKey) (n : Z) :
  gen_context_ok gctx → context_ok (fe := secp256k1_fe) ctx → gej_ok d0 → ext_inv k → fValid (Ext.key k) = true → key_inv (Ext.key k0) → is_word 32 n →
  (∃ pk ok child, Ext.Neuter gctx k = Some pk ∧ Ext.Derive gctx k n = Some (ok, child) ∧ ext_inv child ∧ fValid (Ext.key child) = ok ∧
    if n <? 2 ^ 31 then ∃ pchild, CExtPubKey_Derive ctx d0 pk out n = Some (ok, pchild) ∧ (ok = true → Ext.Neuter gctx child = Some pchild)
    else CExtPubKey_Derive ctx d0 pk out n = None) ∧
  (∃ code, Ext.Encode k = Some code ∧ length code = 74%nat ∧ Ext.Decode code k0 = k).
Proof. intros Hg Hctx Hd0 Hk Hv H0 Hn. split; [by apply derive_neuter|by apply ext_key_roundtrip]. Qed.

(** ** Witnesses *)

Definition demo_ext : Ext.CExtKey :=
  {| Ext.nDepth := 0; Ext.vchFingerprint := replicate 4 0; Ext.nChild := 0; Ext.chaincode := replicate 32 7; Ext.key := CKey_Set (replicate 31 0 ++ [1]) true CKey_new |}.
Definition demo_out : CExtPubKey :=
  {| PubKey.nDepth := 0; PubKey.vchFingerprint := replicate 4 0; PubKey.nChild := 0; PubKey.chaincode := replicate 32 0; PubKey.pubkey := [0xFF] |}.

#[local] Opaque core_context.

Lemma extended_keys_correct_witness :
  ∃ gctx pk ok child pchild, gen_context_ok gctx ∧ Ext.Neuter gctx demo_ext = Some pk ∧ Ext.Derive gctx demo_ext 5 = Some (ok, child) ∧
    CExtPubKey_Derive core_context gej_clear pk demo_out 5 = Some (ok, pchild) ∧ (ok = true → Ext.Neuter gctx child = Some pchild).
Proof.
  destruct gen_context_exists as [gctx Hg]. assert (ext_inv demo_ext) as Hk.
  { unfold ext_inv. split; [apply CKey_Set_inv; [by apply bytes_okb_ok|apply CKey_new_inv]|]. split; [by vm_compute|]. split; [by apply bytes_okb_ok|]. by repeat split. }
  destruct (extended_keys_correct gctx core_context gej_clear demo_ext demo_ext demo_out 5 Hg core_context_ok gej_clear_ok Hk) as [(pk & ok & child & E1 & E2 & _ & _ & E) _];
    [by vm_compute|apply Hk|done|]. change (5 <? 2 ^ 31) with true in E. destruct E as (pchild & E3 & E4). exists gctx, pk, ok, child, pchild.
  split; [exact Hg|]. split; [exact E1|]. split; [exact E2|]. split; [exact E3|exact E4].
Defined.
