(* ===== verification/Coins.v ===== *)
(** * The set of unspent outputs ([src/src/coins.h], [coins.cpp], [txdb.cpp])

    [CCoinsView] is the interface of the code's abstract class: a view answers for an
    outpoint and takes a batch of changes.  [CCoinsViewLaws] is what a view
    promises, in terms of the set of coins it stands for.  [CCoinsViewDB] is the
    view on disk, a key-value store, and [CCoinsViewCache] the write-back cache over
    any other view; because a cache over a lawful view is lawful again, caches
    stack.  The operations that fill a cache while reading return the new cache. *)

From Stdlib Require Import ZArith Lia.
From stdpp Require Import list option gmap.
From S2P Require Import Prelude Common Crypto Script Serialize Transaction.

Open Scope Z_scope.
Open Scope word_scope.

(** ** Coins *)

Record Coin := { out : CTxOut; fCoinBase : bool; nHeight : Z }.

(** The constructors; [nHeight] is a bit-field of 31 bits. *)
Definition Coin_make (outIn : CTxOut) (nHeightIn : Z) (fCoinBaseIn : bool) : Coin :=
  {| out := outIn; fCoinBase := fCoinBaseIn; nHeight := wrap 31 nHeightIn |}.

(** [Coin()], and what [Clear] leaves. *)
Definition coinEmpty : Coin := {| out := CTxOut_null; fCoinBase := false; nHeight := 0 |}.

Definition IsSpent (c : Coin) : bool := CTxOut_IsNull (out c).

#[export] Instance COutPoint_countable : Countable COutPoint.
Proof.
  refine (inj_countable' (λ o, (hash o, n o)) (λ p, {| hash := p.1; n := p.2 |}) _). by intros [].
Defined.

#[export] Instance Coin_eq_dec : EqDecision Coin.
Proof. solve_decision. Defined.

(** ** Cache entries *)

Record CCoinsCacheEntry := { coin : Coin; flags : Z }.

Definition DIRTY : Z := 1 .<< 0.
Definition FRESH : Z := 1 .<< 1.

Definition is_dirty (e : CCoinsCacheEntry) : bool := negb (flags e .& DIRTY =? 0).
Definition is_fresh (e : CCoinsCacheEntry) : bool := negb (flags e .& FRESH =? 0).

Abbreviation CCoinsMap := (gmap COutPoint CCoinsCacheEntry).

(** ** The interface

    [GetCoin] is [None] where the code returns [false]; [BatchWrite] receives the
    changed entries in the order the code iterates over them, and is [None] where
    the code throws or fails an assertion. *)

Class CCoinsView (V : Type) := {
  GetCoin : COutPoint → V → option Coin * V;
  GetBestBlock : V → list Z * V;
  BatchWrite : list (COutPoint * CCoinsCacheEntry) → list Z → V → option (bool * V)
}.

(** ** The database *)

Record CCoinsViewDB := {
  db_coins : gmap COutPoint Coin;
  db_best : option (list Z);
  db_heads : list (list Z)
}.

Definition DB_GetCoin (o : COutPoint) (v : CCoinsViewDB) : option Coin * CCoinsViewDB := (db_coins v !! o, v).

Definition DB_GetBestBlock (v : CCoinsViewDB) : list Z * CCoinsViewDB := (default uint256_null (db_best v), v).

(** The loop of [BatchWrite]: one erase or write per dirty entry. *)
Fixpoint DB_write_entries (mapCoins : list (COutPoint * CCoinsCacheEntry)) (m : gmap COutPoint Coin) :
    gmap COutPoint Coin :=
  match mapCoins with
  | [] => m
  | (o, e) :: mapCoins =>
      DB_write_entries mapCoins
        (if is_dirty e then if IsSpent (coin e) then delete o m else <[o := coin e]> m else m)
  end.

(** The batches, once written: first the marker of the transition, then the entries, then
    the new best block.  [None] is a failed assertion. *)
Definition DB_BatchWrite (mapCoins : list (COutPoint * CCoinsCacheEntry)) (hashBlock : list Z) (v : CCoinsViewDB) :
    option (bool * CCoinsViewDB) :=
  if uint256_IsNull hashBlock then None
  else
    let old_tip := default uint256_null (db_best v) in
    old_tip ← (if uint256_IsNull old_tip then
                 match db_heads v with
                 | [h0; h1] => if bool_decide (h0 = hashBlock) then Some h1 else None
                 | _ => Some old_tip
                 end
               else Some old_tip);
    let v := {| db_coins := db_coins v; db_best := None; db_heads := [hashBlock; old_tip] |} in
    let v := {| db_coins := DB_write_entries mapCoins (db_coins v); db_best := db_best v; db_heads := db_heads v |} in
    Some (true, {| db_coins := db_coins v; db_best := Some hashBlock; db_heads := [] |}).

#[export] Instance CCoinsViewDB_view : CCoinsView CCoinsViewDB := {|
  GetCoin := DB_GetCoin; GetBestBlock := DB_GetBestBlock; BatchWrite := DB_BatchWrite |}.

(** ** The cache *)

Record CCoinsViewCache (V : Type) := MkCache {
  base : V;
  hashBlock : list Z;
  cacheCoins : CCoinsMap
}.
Arguments MkCache {V} _ _ _.
Arguments base {V} _.
Arguments hashBlock {V} _.
Arguments cacheCoins {V} _.

Section Cache.
Context {V : Type} `{CCoinsView V}.

Definition new_cache (baseIn : V) : CCoinsViewCache V := MkCache baseIn uint256_null ∅.

Definition set_entry (o : COutPoint) (e : CCoinsCacheEntry) (c : CCoinsViewCache V) : CCoinsViewCache V :=
  MkCache (base c) (hashBlock c) (<[o := e]> (cacheCoins c)).

Definition erase_entry (o : COutPoint) (c : CCoinsViewCache V) : CCoinsViewCache V :=
  MkCache (base c) (hashBlock c) (delete o (cacheCoins c)).

(** The entry, [None] for [cacheCoins.end()]. *)
Definition FetchCoin (o : COutPoint) (c : CCoinsViewCache V) : option CCoinsCacheEntry * CCoinsViewCache V :=
  match cacheCoins c !! o with
  | Some e => (Some e, c)
  | None =>
      let '(tmp, b) := GetCoin o (base c) in
      let c := MkCache b (hashBlock c) (cacheCoins c) in
      match tmp with
      | None => (None, c)
      | Some tmp =>
          let ret := {| coin := tmp; flags := if IsSpent tmp then FRESH else 0 |} in
          (Some ret, set_entry o ret c)
      end
  end.

Definition Cache_GetCoin (o : COutPoint) (c : CCoinsViewCache V) : option Coin * CCoinsViewCache V :=
  let '(it, c) := FetchCoin o c in
  match it with
  | Some e => (if negb (IsSpent (coin e)) then Some (coin e) else None, c)
  | None => (None, c)
  end.

(** [None]: an assertion fails or the exception is thrown. *)
Definition AddCoin (o : COutPoint) (newcoin : Coin) (possible_overwrite : bool) (c : CCoinsViewCache V) :
    option (CCoinsViewCache V) :=
  if IsSpent newcoin then None
  else if IsUnspendable (scriptPubKey (out newcoin)) then Some c
  else
    let it := default {| coin := coinEmpty; flags := 0 |} (cacheCoins c !! o) in
    fresh ← (if negb possible_overwrite then
               if negb (IsSpent (coin it)) then None else Some (negb (is_dirty it))
             else Some false);
    Some (set_entry o
      {| coin := newcoin; flags := flags it .| (DIRTY .| (if fresh : bool then FRESH else 0)) |} c).

(** The boolean result, the coin moved out, and the cache. *)
Definition SpendCoin (o : COutPoint) (c : CCoinsViewCache V) : bool * Coin * CCoinsViewCache V :=
  let '(it, c) := FetchCoin o c in
  match it with
  | None => (false, coinEmpty, c)
  | Some e =>
      (true, coin e,
       if is_fresh e then erase_entry o c
       else set_entry o {| coin := coinEmpty; flags := flags e .| DIRTY |} c)
  end.

Definition AccessCoin (o : COutPoint) (c : CCoinsViewCache V) : Coin * CCoinsViewCache V :=
  let '(it, c) := FetchCoin o c in
  (match it with Some e => coin e | None => coinEmpty end, c).

Definition HaveCoin (o : COutPoint) (c : CCoinsViewCache V) : bool * CCoinsViewCache V :=
  let '(it, c) := FetchCoin o c in
  (match it with Some e => negb (IsSpent (coin e)) | None => false end, c).

Definition HaveCoinInCache (o : COutPoint) (c : CCoinsViewCache V) : bool :=
  match cacheCoins c !! o with Some e => negb (IsSpent (coin e)) | None => false end.

Definition Cache_GetBestBlock (c : CCoinsViewCache V) : list Z * CCoinsViewCache V :=
  if uint256_IsNull (hashBlock c) then
    let '(h, b) := GetBestBlock (base c) in (h, MkCache b h (cacheCoins c))
  else (hashBlock c, c).

Definition SetBestBlock (h : list Z) (c : CCoinsViewCache V) : CCoinsViewCache V :=
  MkCache (base c) h (cacheCoins c).

(** One iteration of [BatchWrite]; [None] is the exception. *)
Definition Cache_write_entry (o : COutPoint) (it : CCoinsCacheEntry) (m : CCoinsMap) : option CCoinsMap :=
  if negb (is_dirty it) then Some m
  else
    match m !! o with
    | None =>
        if negb (is_fresh it && IsSpent (coin it))
        then Some (<[o := {| coin := coin it; flags := DIRTY .| (if is_fresh it then FRESH else 0) |}]> m)
        else Some m
    | Some itUs =>
        if is_fresh it && negb (IsSpent (coin itUs)) then None
        else if is_fresh itUs && IsSpent (coin it) then Some (delete o m)
        else Some (<[o := {| coin := coin it; flags := flags itUs .| DIRTY |}]> m)
    end.

Fixpoint Cache_write_entries (mapCoins : list (COutPoint * CCoinsCacheEntry)) (m : CCoinsMap) : option CCoinsMap :=
  match mapCoins with
  | [] => Some m
  | (o, it) :: mapCoins => m ← Cache_write_entry o it m; Cache_write_entries mapCoins m
  end.

Definition Cache_BatchWrite (mapCoins : list (COutPoint * CCoinsCacheEntry)) (hashBlockIn : list Z)
    (c : CCoinsViewCache V) : option (bool * CCoinsViewCache V) :=
  m ← Cache_write_entries mapCoins (cacheCoins c);
  Some (true, MkCache (base c) hashBlockIn m).

Definition Flush (c : CCoinsViewCache V) : option (bool * CCoinsViewCache V) :=
  '(fOk, b) ← BatchWrite (map_to_list (cacheCoins c)) (hashBlock c) (base c);
  Some (fOk, MkCache b (hashBlock c) ∅).

Definition Uncache (o : COutPoint) (c : CCoinsViewCache V) : CCoinsViewCache V :=
  match cacheCoins c !! o with
  | Some e => if flags e =? 0 then erase_entry o c else c
  | None => c
  end.

Definition GetCacheSize (c : CCoinsViewCache V) : Z := size (cacheCoins c).

Fixpoint GetValueIn_loop (ins : list CTxIn) (nResult : Z) (c : CCoinsViewCache V) : Z * CCoinsViewCache V :=
  match ins with
  | [] => (nResult, c)
  | txin :: ins =>
      let '(k, c) := AccessCoin (prevout txin) c in
      GetValueIn_loop ins (i64 (nResult + nValue (out k))) c
  end.

Definition GetValueIn (tx : CTransaction) (c : CCoinsViewCache V) : Z * CCoinsViewCache V :=
  if IsCoinBase tx then (0, c) else GetValueIn_loop (vin tx) 0 c.

Fixpoint HaveInputs_loop (ins : list CTxIn) (c : CCoinsViewCache V) : bool * CCoinsViewCache V :=
  match ins with
  | [] => (true, c)
  | txin :: ins =>
      let '(have, c) := HaveCoin (prevout txin) c in
      if negb have then (false, c) else HaveInputs_loop ins c
  end.

Definition HaveInputs (tx : CTransaction) (c : CCoinsViewCache V) : bool * CCoinsViewCache V :=
  if negb (IsCoinBase tx) then HaveInputs_loop (vin tx) c else (true, c).

Fixpoint AddCoins_loop (txid : list Z) (fCoinbase check : bool) (height : Z) (i : nat) (outs : list CTxOut)
    (c : CCoinsViewCache V) : option (CCoinsViewCache V) :=
  match outs with
  | [] => Some c
  | o :: outs =>
      let outpoint := {| hash := txid; n := u32 i |} in
      let '(overwrite, c) := if check then HaveCoin outpoint c else (fCoinbase, c) in
      c ← AddCoin outpoint (Coin_make o height fCoinbase) overwrite c;
      AddCoins_loop txid fCoinbase check height (S i) outs c
  end.

Definition AddCoins `{CryptoHash} (tx : CTransaction) (height : Z) (check : bool) (c : CCoinsViewCache V) :
    option (CCoinsViewCache V) :=
  AddCoins_loop (GetHash tx) (IsCoinBase tx) check height 0 (vout tx) c.

(** [AccessByTxid]: the first unspent output of a transaction, by trying all indices. *)
Definition WITNESS_SCALE_FACTOR : Z := 4.
Definition MAX_BLOCK_WEIGHT : Z := 4000000.
Definition MIN_TRANSACTION_OUTPUT_WEIGHT : Z := WITNESS_SCALE_FACTOR * GetSerializeSize ser_CTxOut CTxOut_null.
Definition MAX_OUTPUTS_PER_BLOCK : Z := MAX_BLOCK_WEIGHT / MIN_TRANSACTION_OUTPUT_WEIGHT.

Fixpoint AccessByTxid_loop (fuel : nat) (iter : COutPoint) (c : CCoinsViewCache V) : Coin * CCoinsViewCache V :=
  match fuel with
  | O => (coinEmpty, c)
  | S fuel =>
      let '(alternate, c) := AccessCoin iter c in
      if negb (IsSpent alternate) then (alternate, c)
      else AccessByTxid_loop fuel {| hash := hash iter; n := n iter + 1 |} c
  end.

Definition AccessByTxid (txid : list Z) (c : CCoinsViewCache V) : Coin * CCoinsViewCache V :=
  AccessByTxid_loop (Z.to_nat MAX_OUTPUTS_PER_BLOCK) {| hash := txid; n := 0 |} c.
End Cache.

#[export] Instance CCoinsViewCache_view {V : Type} `{CCoinsView V} : CCoinsView (CCoinsViewCache V) := {|
  GetCoin := Cache_GetCoin; GetBestBlock := Cache_GetBestBlock; BatchWrite := Cache_BatchWrite |}.

(** ** What a view promises *)

Definition unspent (c : Coin) : option Coin := if IsSpent c then None else Some c.

(** The coins after a batch of changes. *)
Definition overlay (m : CCoinsMap) (f : COutPoint → option Coin) (o : COutPoint) : option Coin :=
  match m !! o with
  | Some e => if is_dirty e then unspent (coin e) else f o
  | None => f o
  end.

(** A batch that may be written to a view with coins [f]: entries marked fresh are not
    in it. *)
Definition batch_ok (L : list (COutPoint * CCoinsCacheEntry)) (f : COutPoint → option Coin) : Prop :=
  NoDup L.*1 ∧ Forall (λ p, 0 <= flags p.2 < 4 ∧ (is_fresh p.2 = true → f p.1 = None)) L.

Class CCoinsViewLaws (V : Type) `{CCoinsView V} := {
  view_ok : V → Prop;
  coins : V → COutPoint → option Coin;
  best : V → list Z;
  coins_unspent v o c : view_ok v → coins v o = Some c → IsSpent c = false;
  GetCoin_law v o :
    view_ok v →
    (GetCoin o v).1 = coins v o ∧ view_ok (GetCoin o v).2 ∧ best (GetCoin o v).2 = best v ∧
    ∀ o', coins (GetCoin o v).2 o' = coins v o';
  GetBestBlock_law v :
    view_ok v →
    (GetBestBlock v).1 = best v ∧ view_ok (GetBestBlock v).2 ∧ best (GetBestBlock v).2 = best v ∧
    ∀ o', coins (GetBestBlock v).2 o' = coins v o';
  BatchWrite_law v L h :
    view_ok v → batch_ok L (coins v) → uint256_IsNull h = false →
    ∃ v', BatchWrite L h v = Some (true, v') ∧ view_ok v' ∧ best v' = h ∧
      ∀ o, coins v' o = overlay (list_to_map L) (coins v) o
}.

Lemma unspent_Some (c k : Coin) : unspent c = Some k → c = k ∧ IsSpent k = false.
Proof. unfold unspent. destruct (IsSpent c) eqn:E; [done|]. by intros [= <-]. Qed.

Lemma unspent_false (c : Coin) : IsSpent c = false → unspent c = Some c.
Proof. unfold unspent. by intros ->. Qed.

Lemma unspent_true (c : Coin) : IsSpent c = true → unspent c = None.
Proof. unfold unspent. by intros ->. Qed.

Lemma unspent_empty : unspent coinEmpty = None.
Proof. done. Qed.

(** The flags are two bits; every question about them is settled by cases. *)
Lemma flags_cases (f : Z) : 0 <= f < 4 → f = 0 ∨ f = 1 ∨ f = 2 ∨ f = 3.
Proof. lia. Qed.

Lemma flags_or (e : CCoinsCacheEntry) (k : Coin) (g : Z) :
  0 <= flags e < 4 → g = DIRTY ∨ g = DIRTY .| FRESH →
  let e' := {| coin := k; flags := flags e .| g |} in
  0 <= flags e' < 4 ∧ is_dirty e' = true ∧ is_fresh e' = is_fresh e || (g =? DIRTY .| FRESH).
Proof.
  destruct e as [k0 f]. unfold is_dirty, is_fresh. cbn [flags].
  intros [->|[->|[->| ->]]]%flags_cases [->| ->]; split_and!; done.
Qed.

(** ** The database is a view *)

Definition db_ok (v : CCoinsViewDB) : Prop :=
  map_Forall (λ _ c, IsSpent c = false) (db_coins v) ∧ ∃ h, db_best v = Some h ∧ uint256_IsNull h = false.

Lemma DB_write_entries_lookup (L : list (COutPoint * CCoinsCacheEntry)) (m : gmap COutPoint Coin) (o : COutPoint) :
  NoDup L.*1 →
  DB_write_entries L m !! o = overlay (list_to_map L) (λ o, m !! o) o.
Proof.
  revert m. induction L as [|[o' e] L IH]; intros m Hnd; [done|].
  rewrite fmap_cons in Hnd. cbn [fst] in Hnd. pose proof (NoDup_cons_1_1 _ _ Hnd) as Hin. apply NoDup_cons_1_2 in Hnd.
  cbn [DB_write_entries]. rewrite IH by done. unfold overlay. rewrite list_to_map_cons.
  destruct (decide (o = o')) as [->|Hne].
  - rewrite (not_elem_of_list_to_map_1 L) by done. rewrite lookup_insert_eq.
    unfold unspent. destruct (is_dirty e); [|done]. destruct (IsSpent (coin e)).
    + by rewrite lookup_delete_eq.
    + by rewrite lookup_insert_eq.
  - rewrite lookup_insert_ne by done. destruct (list_to_map L !! o) as [e'|].
    + destruct (is_dirty e'); [done|]. destruct (is_dirty e); [|done].
      destruct (IsSpent (coin e)); [by rewrite lookup_delete_ne|by rewrite lookup_insert_ne].
    + destruct (is_dirty e); [|done].
      destruct (IsSpent (coin e)); [by rewrite lookup_delete_ne|by rewrite lookup_insert_ne].
Qed.

Lemma overlay_unspent (m : CCoinsMap) (f : COutPoint → option Coin) (o : COutPoint) (c : Coin) :
  (∀ k, f o = Some k → IsSpent k = false) → overlay m f o = Some c → IsSpent c = false.
Proof.
  intros Hf. unfold overlay. destruct (m !! o) as [e|]; [|apply Hf].
  destruct (is_dirty e); [|apply Hf]. by intros [_ ?]%unspent_Some.
Qed.

#[export] Instance CCoinsViewDB_laws : CCoinsViewLaws CCoinsViewDB.
Proof.
  refine {| view_ok := db_ok; coins v o := db_coins v !! o; best v := default uint256_null (db_best v) |}.
  - intros v o c [Hm _] E. by apply (Hm o c).
  - done.
  - done.
  - intros v L h [Hm (hb & Hb & Hnb)] [Hnd HL] Hh. cbn [BatchWrite CCoinsViewDB_view].
    unfold DB_BatchWrite. rewrite Hh, Hb. cbn [default from_option id]. rewrite Hnb. cbn.
    eexists. split; [done|]. cbn. split_and!; [|done|].
    + split; [|eauto]. intros o c. cbn. rewrite DB_write_entries_lookup by done.
      apply overlay_unspent. intros k Hk. by apply (Hm o k).
    + intros o. by rewrite DB_write_entries_lookup.
Defined.

(** ** The cache is a view *)

Section CacheLaws.
Context {V : Type} `{CCoinsViewLaws V}.
Implicit Types (c : CCoinsViewCache V) (o : COutPoint) (e : CCoinsCacheEntry).

(** What an entry says about the view below: fresh means absent there, and clean means
    equal to it. *)
Definition cache_entry_ok (f : COutPoint → option Coin) o e : Prop :=
  0 <= flags e < 4 ∧ (is_fresh e = true → f o = None) ∧ (is_dirty e = false → f o = unspent (coin e)).

Definition cache_ok c : Prop :=
  view_ok (base c) ∧ map_Forall (cache_entry_ok (coins (base c))) (cacheCoins c).

Definition cache_coins c o : option Coin :=
  match cacheCoins c !! o with
  | Some e => unspent (coin e)
  | None => coins (base c) o
  end.

Definition cache_best c : list Z := if uint256_IsNull (hashBlock c) then best (base c) else hashBlock c.

Lemma cache_coins_unspent c o (k : Coin) : cache_ok c → cache_coins c o = Some k → IsSpent k = false.
Proof.
  intros [Hv _]. unfold cache_coins. destruct (cacheCoins c !! o); [by intros [_ ?]%unspent_Some|].
  by apply coins_unspent.
Qed.

(** Replacing the view below by one with the same coins. *)
Lemma cache_rebase c (b : V) :
  cache_ok c → view_ok b → best b = best (base c) → (∀ o, coins b o = coins (base c) o) →
  let c' := MkCache b (hashBlock c) (cacheCoins c) in
  cache_ok c' ∧ (∀ o, cache_coins c' o = cache_coins c o) ∧ cache_best c' = cache_best c.
Proof.
  intros [Hv Hm] Hb Hbest Hc. split_and!.
  - split; [done|]. intros o e He. destruct (Hm o e He) as (? & ? & ?). cbn [base].
    unfold cache_entry_ok. by rewrite Hc.
  - intros o. unfold cache_coins. cbn [base cacheCoins]. by rewrite Hc.
  - unfold cache_best. cbn [base hashBlock]. by rewrite Hbest.
Qed.

Lemma set_entry_ok c o e :
  cache_ok c → cache_entry_ok (coins (base c)) o e →
  cache_ok (set_entry o e c) ∧
  (∀ o', cache_coins (set_entry o e c) o' = if decide (o' = o) then unspent (coin e) else cache_coins c o') ∧
  cache_best (set_entry o e c) = cache_best c.
Proof.
  intros [Hv Hm] He. split_and!; [| |done].
  - split; [done|]. by apply map_Forall_insert_2.
  - intros o'. unfold cache_coins. cbn [cacheCoins set_entry base]. case_decide as Hd.
    + subst. by rewrite lookup_insert_eq.
    + by rewrite lookup_insert_ne.
Qed.

Lemma erase_entry_ok c o :
  cache_ok c →
  cache_ok (erase_entry o c) ∧
  (∀ o', cache_coins (erase_entry o c) o' = if decide (o' = o) then coins (base c) o else cache_coins c o') ∧
  cache_best (erase_entry o c) = cache_best c.
Proof.
  intros [Hv Hm]. split_and!; [| |done].
  - split; [done|]. by apply map_Forall_delete.
  - intros o'. unfold cache_coins. cbn [cacheCoins erase_entry base]. case_decide as Hd.
    + subst. by rewrite lookup_delete_eq.
    + by rewrite lookup_delete_ne.
Qed.

(** Fetching changes nothing but what is held in memory. *)
Lemma FetchCoin_ok c o :
  cache_ok c →
  let '(it, c') := FetchCoin o c in
  cache_ok c' ∧ (∀ o', cache_coins c' o' = cache_coins c o') ∧ cache_best c' = cache_best c ∧
  cacheCoins c' !! o = it ∧
  cache_coins c o = match it with Some e => unspent (coin e) | None => None end.
Proof.
  intros Hc. unfold FetchCoin. destruct (cacheCoins c !! o) as [e|] eqn:Ee.
  { unfold cache_coins at 3. by rewrite Ee. }
  destruct (GetCoin_law (base c) o (proj1 Hc)) as (Hr & Hv & Hbest & Hco).
  destruct (GetCoin o (base c)) as [tmp b]. cbn [fst snd] in *.
  destruct (cache_rebase c b Hc Hv Hbest Hco) as (Hc1 & Hco1 & Hb1). set (c1 := MkCache b _ _) in *.
  assert (cache_coins c o = tmp) as Eo by (unfold cache_coins; by rewrite Ee).
  destruct tmp as [tmp|]; [|done].
  pose proof (cache_coins_unspent c o tmp Hc Eo) as Es. rewrite Es.
  destruct (set_entry_ok c1 o {| coin := tmp; flags := 0 |} Hc1) as (Hc2 & Hco2 & Hb2).
  { split; [cbn; lia|split; [done|]]. intros _. cbn [coin base c1]. by rewrite Hco, <- Hr, unspent_false. }
  split_and!; [done| |by rewrite Hb2|apply lookup_insert_eq|].
  - intros o'. rewrite Hco2. case_decide as Hd; [|done]. subst. cbn [coin]. by rewrite unspent_false.
  - by rewrite unspent_false.
Qed.

Lemma AccessCoin_ok c o :
  cache_ok c →
  let '(k, c') := AccessCoin o c in
  cache_ok c' ∧ (∀ o', cache_coins c' o' = cache_coins c o') ∧ cache_best c' = cache_best c ∧
  cache_coins c o = unspent k.
Proof.
  intros Hc. unfold AccessCoin. pose proof (FetchCoin_ok c o Hc) as Hf.
  destruct (FetchCoin o c) as [[e|] c1]; destruct Hf as (? & ? & ? & _ & ->); by split_and!.
Qed.

Lemma Cache_GetCoin_ok c o :
  cache_ok c →
  let '(r, c') := Cache_GetCoin o c in
  r = cache_coins c o ∧ cache_ok c' ∧ cache_best c' = cache_best c ∧ (∀ o', cache_coins c' o' = cache_coins c o').
Proof.
  intros Hc. unfold Cache_GetCoin. pose proof (FetchCoin_ok c o Hc) as Hf.
  destruct (FetchCoin o c) as [[e|] c1]; destruct Hf as (? & ? & ? & _ & E); split_and!; try done.
  rewrite E. unfold unspent. by destruct (IsSpent (coin e)).
Qed.

Lemma HaveCoin_ok c o :
  cache_ok c →
  let '(b, c') := HaveCoin o c in
  b = bool_decide (is_Some (cache_coins c o)) ∧ cache_ok c' ∧ cache_best c' = cache_best c ∧
  (∀ o', cache_coins c' o' = cache_coins c o').
Proof.
  intros Hc. unfold HaveCoin. pose proof (FetchCoin_ok c o Hc) as Hf.
  destruct (FetchCoin o c) as [[e|] c1]; destruct Hf as (? & ? & ? & _ & E); split_and!; try done; rewrite E.
  - unfold unspent. destruct (IsSpent (coin e)); cbn [negb]; symmetry.
    + apply bool_decide_eq_false. by intros [? ?].
    + by apply bool_decide_eq_true.
  - symmetry. apply bool_decide_eq_false. by intros [? ?].
Qed.

(** Spending removes the coin and hands it out.  If there was none the set is unchanged, yet
    the result may still be [true], with an empty coin: the entry of an
    output already spent is found in the cache. *)
Lemma SpendCoin_ok c o :
  cache_ok c →
  let '(r, k, c') := SpendCoin o c in
  cache_ok c' ∧ cache_best c' = cache_best c ∧
  (∀ o', cache_coins c' o' = if decide (o' = o) then None else cache_coins c o') ∧
  match cache_coins c o with
  | Some k' => r = true ∧ k = k'
  | None => IsSpent k = true
  end.
Proof.
  intros Hc. unfold SpendCoin. pose proof (FetchCoin_ok c o Hc) as Hf.
  destruct (FetchCoin o c) as [[e|] c1]; destruct Hf as (Hc1 & Hco1 & Hb1 & Ee & E).
  2:{ rewrite E. split_and!; try done. intros o'. case_decide as Hd; [|done]. by rewrite Hd, Hco1. }
  pose proof (proj2 Hc1 o e Ee) as (Hfl & Hfr & Hdi).
  assert (match cache_coins c o with Some k' => true = true ∧ coin e = k' | None => IsSpent (coin e) = true end) as Hr.
  { rewrite E. unfold unspent. by destruct (IsSpent (coin e)) eqn:Es. }
  destruct (is_fresh e) eqn:Ef.
  - destruct (erase_entry_ok c1 o Hc1) as (Hc2 & Hco2 & Hb2). split_and!; [done|by rewrite Hb2| |done].
    intros o'. rewrite Hco2. case_decide; [auto|done].
  - destruct (flags_or e coinEmpty DIRTY Hfl (or_introl eq_refl)) as (Hf' & Hd' & Hfr').
    rewrite Ef in Hfr'. change (DIRTY =? DIRTY .| FRESH) with false in Hfr'. cbn [orb] in Hfr'.
    destruct (set_entry_ok c1 o {| coin := coinEmpty; flags := flags e .| DIRTY |} Hc1) as (Hc2 & Hco2 & Hb2).
    { split; [done|split; congruence]. }
    split_and!; [done|by rewrite Hb2| |done]. intros o'. rewrite Hco2. by case_decide.
Qed.

(** Adding succeeds if an overwrite is announced or nothing is there; unspendable outputs are
    not stored. *)
Lemma AddCoin_ok c o (k : Coin) (ow : bool) :
  cache_ok c → IsSpent k = false → (ow = false → cache_coins c o = None) →
  ∃ c', AddCoin o k ow c = Some c' ∧ cache_ok c' ∧ cache_best c' = cache_best c ∧
    ∀ o', cache_coins c' o' =
      if decide (o' = o) then if IsUnspendable (scriptPubKey (out k)) then cache_coins c o else Some k
      else cache_coins c o'.
Proof.
  intros Hc Hk How. unfold AddCoin. rewrite Hk. destruct (IsUnspendable _).
  { exists c. split_and!; try done. intros o'. case_decide; by subst. }
  set (it := default {| coin := coinEmpty; flags := 0 |} (cacheCoins c !! o)).
  assert (0 <= flags it < 4 ∧ (is_fresh it = true → coins (base c) o = None) ∧
          (ow = false → IsSpent (coin it) = true ∧ (is_dirty it = false → coins (base c) o = None))) as (Hfl & Hfr & Hsp).
  { unfold it, cache_coins in *. destruct (cacheCoins c !! o) as [e|] eqn:Ee; cbn [default from_option id].
    - destruct (proj2 Hc o e Ee) as (? & ? & Hd). split; [done|split; [done|]]. intros E. specialize (How E).
      unfold unspent in *. destruct (IsSpent (coin e)) eqn:Es; [|done]. split; [done|]. intros. by rewrite Hd.
    - split; [cbn; lia|split; [done|]]. intros E. split; [done|auto]. }
  set (fresh := if negb ow then negb (is_dirty it) else false).
  assert ((if negb ow then if negb (IsSpent (coin it)) then None else Some (negb (is_dirty it)) else Some false) =
          Some fresh) as ->.
  { unfold fresh. destruct ow; cbn [negb]; [done|]. destruct (Hsp eq_refl) as [-> _]. done. }
  cbn [mbind option_bind]. eexists. split; [done|].
  set (g := DIRTY .| (if fresh then FRESH else 0)).
  destruct (flags_or it k g Hfl) as (Hf' & Hd' & Hfr').
  { unfold g. destruct fresh; [by right|by left]. }
  destruct (set_entry_ok c o {| coin := k; flags := flags it .| g |} Hc) as (Hc' & Hco' & Hb').
  { split; [done|]. split; [|congruence]. rewrite Hfr'. intros [E|E]%orb_prop; [auto|].
    unfold g, fresh in E. destruct ow; cbn [negb] in E; [done|].
    destruct (is_dirty it); [done|]. by apply Hsp. }
  split_and!; [done..|]. intros o'. rewrite Hco'. cbn [coin]. by rewrite unspent_false.
Qed.

Lemma Uncache_ok c o :
  cache_ok c →
  cache_ok (Uncache o c) ∧ (∀ o', cache_coins (Uncache o c) o' = cache_coins c o') ∧ cache_best (Uncache o c) = cache_best c.
Proof.
  intros Hc. unfold Uncache. destruct (cacheCoins c !! o) as [e|] eqn:Ee; [|done].
  destruct (flags e =? 0) eqn:Ef; [|done]. bool_to_prop.
  destruct (erase_entry_ok c o Hc) as (? & Hco & ?). split_and!; [done| |done]. intros o'. rewrite Hco.
  case_decide; [|done]. subst. unfold cache_coins. rewrite Ee.
  destruct (proj2 Hc _ _ Ee) as (_ & _ & Hd). apply Hd. unfold is_dirty. by rewrite Ef.
Qed.

Lemma Cache_GetBestBlock_ok c :
  cache_ok c →
  let '(h, c') := Cache_GetBestBlock c in
  h = cache_best c ∧ cache_ok c' ∧ cache_best c' = cache_best c ∧ (∀ o, cache_coins c' o = cache_coins c o).
Proof.
  intros Hc. unfold Cache_GetBestBlock, cache_best. destruct (uint256_IsNull (hashBlock c)) eqn:Eh; [|by rewrite Eh].
  destruct (GetBestBlock_law (base c) (proj1 Hc)) as (Hr & Hv & Hb & Hco).
  destruct (GetBestBlock (base c)) as [h b]. cbn [fst snd] in *.
  destruct (cache_rebase c b Hc Hv Hb Hco) as (Hc1 & Hco1 & _). split_and!; [done|done| |done].
  cbn [hashBlock base]. rewrite Hb. subst h. by destruct (uint256_IsNull (best (base c))).
Qed.

(** ** Writing a batch into the cache *)

Lemma Cache_write_entry_ok c o (it : CCoinsCacheEntry) :
  cache_ok c → 0 <= flags it < 4 → (is_fresh it = true → cache_coins c o = None) →
  ∃ m, Cache_write_entry o it (cacheCoins c) = Some m ∧
    let c' := MkCache (base c) (hashBlock c) m in
    cache_ok c' ∧
    ∀ o', cache_coins c' o' =
      if decide (o' = o) then if is_dirty it then unspent (coin it) else cache_coins c o else cache_coins c o'.
Proof.
  intros Hc Hfl Hfr. unfold Cache_write_entry. destruct (is_dirty it) eqn:Ed; cbn [negb].
  2:{ eexists. split; [done|]. cbn zeta. split; [by destruct c|]. intros o'. case_decide; by subst. }
  unfold cache_coins in Hfr. destruct (cacheCoins c !! o) as [itUs|] eqn:Eo.
  - destruct (proj2 Hc o itUs Eo) as (Hflu & Hfru & Hdu).
    assert (is_fresh it && negb (IsSpent (coin itUs)) = false) as ->.
    { unfold unspent in Hfr. destruct (is_fresh it); [|done]. specialize (Hfr eq_refl). by destruct (IsSpent (coin itUs)). }
    destruct (is_fresh itUs && IsSpent (coin it)) eqn:Er.
    + apply andb_prop in Er as [Efu Es]. eexists. split; [done|]. cbn zeta.
      destruct (erase_entry_ok c o Hc) as (? & Hco & _). split; [done|]. intros o'.
      etransitivity; [exact (Hco o')|]. case_decide; [|done]. rewrite unspent_true by done. auto.
    + eexists. split; [done|]. cbn zeta.
      destruct (flags_or itUs (coin it) DIRTY Hflu (or_introl eq_refl)) as (Hf' & Hd' & Hfr').
      destruct (set_entry_ok c o {| coin := coin it; flags := flags itUs .| DIRTY |} Hc) as (? & Hco & _).
      { split; [done|]. split; [|congruence]. rewrite Hfr'. change (DIRTY =? DIRTY .| FRESH) with false.
        rewrite orb_false_r. done. }
      split; [done|]. exact Hco.
  - destruct (is_fresh it && IsSpent (coin it)) eqn:Er; cbn [negb].
    + apply andb_prop in Er as [Ef Es]. eexists. split; [done|]. cbn zeta. split; [by destruct c|].
      intros o'. case_decide; [|done]. subst. rewrite unspent_true by done. unfold cache_coins. cbn [cacheCoins base].
      rewrite Eo. auto.
    + eexists. split; [done|]. cbn zeta.
      destruct (set_entry_ok c o {| coin := coin it; flags := DIRTY .| (if is_fresh it then FRESH else 0) |} Hc)
        as (? & Hco & _).
      { destruct (is_fresh it); (split; [split; vm_compute; congruence|split; [|done]]); [auto|done]. }
      split; [done|]. exact Hco.
Qed.

Lemma Cache_write_entries_ok (L : list (COutPoint * CCoinsCacheEntry)) c :
  cache_ok c → batch_ok L (cache_coins c) →
  ∃ m, Cache_write_entries L (cacheCoins c) = Some m ∧
    let c' := MkCache (base c) (hashBlock c) m in
    cache_ok c' ∧ ∀ o, cache_coins c' o = overlay (list_to_map L) (cache_coins c) o.
Proof.
  revert c. induction L as [|[o it] L IH]; intros c Hc [Hnd HL].
  { eexists. split; [done|]. by destruct c. }
  rewrite fmap_cons in Hnd. cbn [fst] in Hnd. pose proof (NoDup_cons_1_1 _ _ Hnd) as Hin. apply NoDup_cons_1_2 in Hnd.
  apply Forall_cons_1 in HL as [[Hfl Hfr] HL]. cbn [fst snd] in *. cbn [Cache_write_entries].
  destruct (Cache_write_entry_ok c o it Hc Hfl Hfr) as (m & -> & Hc1 & Hco1). cbn [mbind option_bind].
  destruct (IH _ Hc1) as (m' & E & Hc2 & Hco2).
  { split; [done|]. apply Forall_forall. intros [o' e'] Ho'. rewrite Forall_forall in HL. destruct (HL _ Ho') as [? Hf].
    split; [done|]. cbn [fst snd] in *. intros Ef. rewrite Hco1. rewrite decide_False; [auto|].
    intros ->. apply Hin. apply list_elem_of_fmap. exists (o, e').
    split; [done|by apply list_elem_of_In]. }
  exists m'. split; [exact E|]. split; [done|]. intros o'. rewrite Hco2. unfold overlay. rewrite list_to_map_cons, Hco1.
  destruct (decide (o' = o)) as [->|Hne].
  - rewrite (not_elem_of_list_to_map_1 L) by done. by rewrite lookup_insert_eq.
  - by rewrite lookup_insert_ne by done.
Qed.
End CacheLaws.

#[export] Instance CCoinsViewCache_laws {V : Type} `{CCoinsViewLaws V} : CCoinsViewLaws (CCoinsViewCache V).
Proof.
  refine {| view_ok := cache_ok; coins := cache_coins; best := cache_best |}.
  - intros c o k Hc. by apply cache_coins_unspent.
  - intros c o Hc. cbn [GetCoin CCoinsViewCache_view]. pose proof (Cache_GetCoin_ok c o Hc) as Hg.
    by destruct (Cache_GetCoin o c).
  - intros c Hc. cbn [GetBestBlock CCoinsViewCache_view]. pose proof (Cache_GetBestBlock_ok c Hc) as Hg.
    by destruct (Cache_GetBestBlock c).
  - intros c L h Hc HL Hh. cbn [BatchWrite CCoinsViewCache_view]. unfold Cache_BatchWrite.
    destruct (Cache_write_entries_ok L c Hc HL) as (m & -> & Hc' & Hco). cbn [mbind option_bind].
    eexists. split; [done|]. split_and!; [done| |done]. unfold cache_best. cbn [hashBlock]. by rewrite Hh.
Defined.

(** Flushing writes the whole difference to the view below and leaves an empty cache. *)
Lemma Flush_ok {V : Type} `{CCoinsViewLaws V} (c : CCoinsViewCache V) :
  cache_ok c → uint256_IsNull (hashBlock c) = false →
  ∃ c', Flush c = Some (true, c') ∧ cache_ok c' ∧ cacheCoins c' = ∅ ∧
    best (base c') = hashBlock c ∧ cache_best c' = cache_best c ∧
    (∀ o, coins (base c') o = cache_coins c o) ∧ (∀ o, cache_coins c' o = cache_coins c o).
Proof.
  intros Hc Hh. unfold Flush.
  assert (batch_ok (map_to_list (cacheCoins c)) (coins (base c))) as HL.
  { split; [apply NoDup_fst_map_to_list|]. apply Forall_forall. intros [o e] Hin.
    apply list_elem_of_In, elem_of_map_to_list in Hin. destruct (proj2 Hc o e Hin) as (? & ? & _). done. }
  destruct (BatchWrite_law (base c) _ (hashBlock c) (proj1 Hc) HL Hh) as (b & -> & Hb & Hbest & Hco).
  cbn [mbind option_bind]. rewrite list_to_map_to_list in Hco.
  assert (∀ o, coins b o = cache_coins c o) as Hco'.
  { intros o. rewrite Hco. unfold overlay, cache_coins. destruct (cacheCoins c !! o) as [e|] eqn:Ee; [|done].
    destruct (is_dirty e) eqn:Ed; [done|]. destruct (proj2 Hc o e Ee) as (_ & _ & Hd). auto. }
  eexists. split; [done|]. cbn [cacheCoins base]. unfold cache_best. cbn [hashBlock]. rewrite Hh.
  by split_and!.
Qed.

(** ** Whole transactions *)

Section Transactions.
Context {V : Type} `{CCoinsViewLaws V}.
Implicit Types (c : CCoinsViewCache V).

(** Two caches that stand for the same coins and block. *)
Definition same_view c c' : Prop :=
  cache_ok c' ∧ cache_best c' = cache_best c ∧ ∀ o, cache_coins c' o = cache_coins c o.

Lemma same_view_trans c1 c2 c3 : same_view c1 c2 → same_view c2 c3 → same_view c1 c3.
Proof. intros (_ & B & C) (? & B' & C'). split_and!; [done|congruence|]. intros o. by rewrite C', C. Qed.

Lemma HaveInputs_loop_ok (ins : list CTxIn) c :
  cache_ok c →
  let '(b, c') := HaveInputs_loop ins c in
  same_view c c' ∧ (b = true ↔ Forall (λ i, is_Some (cache_coins c (prevout i))) ins).
Proof.
  revert c. induction ins as [|i ins IH]; intros c Hc; cbn [HaveInputs_loop]; [done|].
  pose proof (HaveCoin_ok c (prevout i) Hc) as Hh. destruct (HaveCoin (prevout i) c) as [have c1].
  destruct Hh as (-> & Hc1 & Hb1 & Hco1). case_bool_decide as Hs; cbn [negb].
  - specialize (IH c1 Hc1). destruct (HaveInputs_loop ins c1) as [b c2]. destruct IH as [Hsv IH].
    split; [by apply (same_view_trans c c1)|]. rewrite Forall_cons_iff, IH.
    assert (Forall (λ i0, is_Some (cache_coins c1 (prevout i0))) ins ↔ Forall (λ i0, is_Some (cache_coins c (prevout i0))) ins) as ->.
    { split; apply Forall_impl; intros j; by rewrite Hco1. }
    tauto.
  - split; [done|]. rewrite Forall_cons_iff. split; [done|tauto].
Qed.

Lemma AccessCoin_same c (o : COutPoint) :
  cache_ok c → let '(k, c') := AccessCoin o c in same_view c c' ∧ cache_coins c o = unspent k.
Proof.
  intros Hc. pose proof (AccessCoin_ok c o Hc) as Ha. destruct (AccessCoin o c) as [k c1].
  by destruct Ha as (? & ? & ? & ?).
Qed.

(** The coins a transaction creates, on top of the others. *)
Fixpoint add_outputs (txid : list Z) (fCoinbase : bool) (height : Z) (i : nat) (outs : list CTxOut)
    (f : COutPoint → option Coin) : COutPoint → option Coin :=
  match outs with
  | [] => f
  | o :: outs =>
      add_outputs txid fCoinbase height (S i) outs
        (λ p, if decide (p = {| hash := txid; n := u32 i |})
              then if IsUnspendable (scriptPubKey o) then f p else Some (Coin_make o height fCoinbase)
              else f p)
  end.

Lemma add_outputs_ext (txid : list Z) (cb : bool) (height : Z) (i : nat) (outs : list CTxOut)
    (f g : COutPoint → option Coin) (p : COutPoint) :
  (∀ p, f p = g p) → add_outputs txid cb height i outs f p = add_outputs txid cb height i outs g p.
Proof.
  revert i f g. induction outs as [|o outs IH]; intros i f g E; cbn [add_outputs]; [done|].
  apply IH. intros q. case_decide; by rewrite E.
Qed.

Lemma AddCoins_loop_ok (txid : list Z) (cb : bool) (height : Z) (i : nat) (outs : list CTxOut) c :
  cache_ok c → i + length outs <= 2 ^ 32 → Forall (λ o, CTxOut_IsNull o = false) outs →
  (cb = false → ∀ j, (i <= j)%nat → cache_coins c {| hash := txid; n := u32 j |} = None ∨ 2 ^ 32 <= j) →
  ∃ c', AddCoins_loop txid cb false height i outs c = Some c' ∧ cache_ok c' ∧ cache_best c' = cache_best c ∧
    ∀ p, cache_coins c' p = add_outputs txid cb height i outs (cache_coins c) p.
Proof.
  revert i c. induction outs as [|o outs IH]; intros i c Hc Hlen Hnn Hnew; cbn [AddCoins_loop add_outputs].
  { by exists c. }
  apply Forall_cons_1 in Hnn as [Ho Hnn]. cbn [length] in Hlen.
  destruct (AddCoin_ok c {| hash := txid; n := u32 i |} (Coin_make o height cb) cb Hc Ho) as (c1 & -> & Hc1 & Hb1 & Hco1).
  { intros E. destruct (Hnew E i ltac:(lia)); [done|lia]. }
  cbn [mbind option_bind]. destruct (IH (S i) c1 Hc1 ltac:(lia) Hnn) as (c2 & -> & Hc2 & Hb2 & Hco2).
  { intros E j Hj. destruct (decide (2 ^ 32 <= j)) as [|Hlt]; [by right|]. left. rewrite Hco1.
    rewrite decide_False; [by destruct (Hnew E j ltac:(lia))|].
    intros [= E']. unfold u32 in E'. rewrite !wrap_small in E' by (unfold is_word; lia). lia. }
  exists c2. split_and!; [done|done|congruence|]. intros p. rewrite Hco2. apply add_outputs_ext.
  intros q. rewrite Hco1. case_decide; by subst.
Qed.
End Transactions.

(** ** Properties *)

(** C17: over any lawful view, a cache behaves as the set of coins it stands for: reading
    and evicting change nothing, adding and spending are insertion and removal,
    unspendable outputs are not stored, and its invariant (fresh entries are absent
    below, clean entries equal what is below) is kept.  A coin added without
    permission to overwrite must be absent. *)
Theorem CCoinsViewCache_refines {V : Type} `{CCoinsViewLaws V} (c : CCoinsViewCache V) (o : COutPoint) (k : Coin)
    (ow : bool) :
  cache_ok c → IsSpent k = false → (ow = false → cache_coins c o = None) →
  (let '(r, c') := Cache_GetCoin o c in r = cache_coins c o ∧ same_view c c') ∧
  (let '(r, c') := HaveCoin o c in r = bool_decide (is_Some (cache_coins c o)) ∧ same_view c c') ∧
  (let '(r, c') := AccessCoin o c in unspent r = cache_coins c o ∧ same_view c c') ∧
  same_view c (Uncache o c) ∧
  (let '(r, k', c') := SpendCoin o c in
   cache_ok c' ∧ (∀ o', cache_coins c' o' = if decide (o' = o) then None else cache_coins c o') ∧
   (is_Some (cache_coins c o) → r = true ∧ cache_coins c o = Some k')) ∧
  (∃ c', AddCoin o k ow c = Some c' ∧ cache_ok c' ∧
     ∀ o', cache_coins c' o' =
       if decide (o' = o ∧ IsUnspendable (scriptPubKey (out k)) = false) then Some k else cache_coins c o').
Proof.
  intros Hc Hk How. split_and!.
  - pose proof (Cache_GetCoin_ok c o Hc) as Hg. destruct (Cache_GetCoin o c). by destruct Hg as (? & ? & ? & ?).
  - pose proof (HaveCoin_ok c o Hc) as Hg. destruct (HaveCoin o c). by destruct Hg as (? & ? & ? & ?).
  - pose proof (AccessCoin_same c o Hc) as Hg. destruct (AccessCoin o c). by destruct Hg as (? & ?).
  - destruct (Uncache_ok c o Hc) as (? & ? & ?). done.
  - pose proof (SpendCoin_ok c o Hc) as Hg. destruct (SpendCoin o c) as [[r k'] c'].
    destruct Hg as (? & _ & ? & Hr). split_and!; [done..|]. intros [k0 E]. rewrite E in *. by destruct Hr as [-> ->].
  - destruct (AddCoin_ok c o k ow Hc Hk How) as (c' & E & Hc' & _ & Hco). exists c'. split_and!; [done..|].
    intros o'. rewrite Hco. destruct (IsUnspendable _), (decide (o' = o)) as [->|]; case_decide; by intuition.
Qed.

(** C18: flushing pushes every modification to the view below: afterwards that view stands for
    the coins and the block the cache stood for, and the cache is empty and still
    stands for them.  No exception can be thrown. *)
Theorem Flush_correct {V : Type} `{CCoinsViewLaws V} (c : CCoinsViewCache V) :
  cache_ok c → uint256_IsNull (hashBlock c) = false →
  ∃ c', Flush c = Some (true, c') ∧ cacheCoins c' = ∅ ∧ same_view c c' ∧
    view_ok (base c') ∧ best (base c') = hashBlock c ∧ ∀ o, coins (base c') o = cache_coins c o.
Proof.
  intros Hc Hh. destruct (Flush_ok c Hc Hh) as (c' & E & Hc' & Hm & Hb & Hb' & Hco & Hco').
  exists c'. by split_and!; [..|apply Hc'| |].
Qed.

(** a child cache can be flushed into a parent cache: the parent takes over the child's
    changes without tripping its consistency check, and stays a correct cache of its own
    base.  Caches therefore stack to any depth. *)
Theorem Cache_BatchWrite_correct {V : Type} `{CCoinsViewLaws V} (c : CCoinsViewCache V)
    (L : list (COutPoint * CCoinsCacheEntry)) (h : list Z) :
  cache_ok c → batch_ok L (cache_coins c) → uint256_IsNull h = false →
  ∃ c', Cache_BatchWrite L h c = Some (true, c') ∧ cache_ok c' ∧ base c' = base c ∧ cache_best c' = h ∧
    ∀ o, cache_coins c' o = overlay (list_to_map L) (cache_coins c) o.
Proof.
  intros Hc HL Hh. unfold Cache_BatchWrite.
  destruct (Cache_write_entries_ok L c Hc HL) as (m & -> & Hc' & Hco). cbn [mbind option_bind].
  eexists. split; [done|]. split_and!; [done|done| |done]. unfold cache_best. cbn [hashBlock]. by rewrite Hh.
Qed.

(** ** Concrete views *)

Definition demo_outpoint (i : Z) : COutPoint := {| hash := replicate 32 9; n := i |}.
Definition demo_coin (v : Z) : Coin := Coin_make {| nValue := v; scriptPubKey := [0x51] |} 5 false.

Definition demo_db : CCoinsViewDB := {|
  db_coins := {[ demo_outpoint 0 := demo_coin 10; demo_outpoint 1 := demo_coin 20 ]};
  db_best := Some (replicate 32 1); db_heads := [] |}.

Lemma demo_db_ok : db_ok demo_db.
Proof.
  split; [|by eexists]. intros o c. cbn. rewrite !lookup_insert_Some, lookup_empty. intuition; by subst.
Qed.

Definition demo_cache : CCoinsViewCache CCoinsViewDB := MkCache demo_db (replicate 32 2) ∅.

Lemma demo_cache_ok : cache_ok demo_cache.
Proof. split; [apply demo_db_ok|apply map_Forall_empty]. Qed.

Lemma CCoinsViewCache_refines_witness :
  let '(r, k', c') := SpendCoin (demo_outpoint 0) demo_cache in
  r = true ∧ k' = demo_coin 10 ∧ cache_coins c' (demo_outpoint 0) = None ∧
  cache_coins c' (demo_outpoint 1) = Some (demo_coin 20).
Proof.
  pose proof (CCoinsViewCache_refines demo_cache (demo_outpoint 0) (demo_coin 7) true demo_cache_ok eq_refl
    ltac:(discriminate)) as (_ & _ & _ & _ & Hs & _).
  assert (cache_coins demo_cache (demo_outpoint 0) = Some (demo_coin 10)) as E0 by (vm_compute; reflexivity).
  rewrite E0 in Hs. destruct (SpendCoin (demo_outpoint 0) demo_cache) as [[r k'] c'].
  destruct Hs as (_ & Hco & Hr). destruct (Hr (ex_intro _ _ eq_refl)) as [-> [= <-]].
  split; [reflexivity|]. split; [reflexivity|]. rewrite !Hco. split; reflexivity.
Defined.

Lemma Flush_correct_witness :
  ∃ c', Flush (SpendCoin (demo_outpoint 0) demo_cache).2 = Some (true, c') ∧ cacheCoins c' = ∅ ∧
    same_view (SpendCoin (demo_outpoint 0) demo_cache).2 c' ∧
    view_ok (base c') ∧ best (base c') = hashBlock (SpendCoin (demo_outpoint 0) demo_cache).2 ∧
    ∀ o, coins (base c') o = cache_coins (SpendCoin (demo_outpoint 0) demo_cache).2 o.
Proof.
  apply (Flush_correct (SpendCoin (demo_outpoint 0) demo_cache).2).
  - pose proof (SpendCoin_ok demo_cache (demo_outpoint 0) demo_cache_ok) as Hs.
    destruct (SpendCoin (demo_outpoint 0) demo_cache) as [[r k] c']. apply Hs.
  - vm_compute. reflexivity.
Defined.

Lemma Cache_BatchWrite_correct_witness :
  ∃ c', Cache_BatchWrite [(demo_outpoint 0, {| coin := coinEmpty; flags := DIRTY |})] (replicate 32 3) demo_cache =
    Some (true, c') ∧ cache_ok c' ∧ base c' = demo_db ∧ cache_best c' = replicate 32 3 ∧
    ∀ o, cache_coins c' o =
      overlay (list_to_map [(demo_outpoint 0, {| coin := coinEmpty; flags := DIRTY |})]) (cache_coins demo_cache) o.
Proof.
  apply (Cache_BatchWrite_correct demo_cache); [apply demo_cache_ok| |reflexivity].
  split; [apply NoDup_singleton|]. constructor; [|constructor]. split; [split; vm_compute; congruence|].
  intros E. discriminate E.
Defined.
