(* ===== verification/TxVerify.v ===== *)
(** * Transaction verification ([src/src/consensus/tx_verify.cpp],
    [consensus/consensus.h], [consensus/validation.h])

    Finality, relative lock times, signature-operation counts, and the checks of a
    transaction by itself and against the coins it spends.  A check takes the
    [CValidationState] and returns the boolean with the new state; [None] is a failed
    assertion or an exception. *)

From Stdlib Require Import ZArith Lia String.
From stdpp Require Import list option gmap.
From S2P Require Import Prelude Common Chain Crypto Script Interpreter Serialize Transaction SigHash Coins.

Open Scope Z_scope.
Open Scope word_scope.

(** ** [CValidationState] *)

Definition REJECT_INVALID : Z := 0x10.
Definition REJECT_NONSTANDARD : Z := 0x40.
Definition REJECT_CHECKPOINT : Z := 0x43.

Inductive mode_state := MODE_VALID | MODE_INVALID | MODE_ERROR.

Record CValidationState := {
  mode : mode_state;
  nDoS : Z;
  strRejectReason : string;
  chRejectCode : Z;
  corruptionPossible : bool
}.

Definition new_state : CValidationState := {|
  mode := MODE_VALID; nDoS := 0; strRejectReason := EmptyString; chRejectCode := 0; corruptionPossible := false |}.

Definition DoS (level : Z) (chRejectCodeIn : Z) (strRejectReasonIn : string) (corruptionIn : bool)
    (st : CValidationState) : CValidationState :=
  match mode st with
  | MODE_ERROR =>
      {| mode := MODE_ERROR; nDoS := nDoS st; strRejectReason := strRejectReasonIn;
         chRejectCode := chRejectCodeIn; corruptionPossible := corruptionIn |}
  | _ =>
      {| mode := MODE_INVALID; nDoS := nDoS st + level; strRejectReason := strRejectReasonIn;
         chRejectCode := chRejectCodeIn; corruptionPossible := corruptionIn |}
  end.

Definition Invalid (chRejectCodeIn : Z) (strRejectReasonIn : string) (st : CValidationState) : CValidationState :=
  DoS 0 chRejectCodeIn strRejectReasonIn false st.

Definition Error (strRejectReasonIn : string) (st : CValidationState) : CValidationState :=
  {| mode := MODE_ERROR; nDoS := nDoS st;
     strRejectReason := match mode st with MODE_VALID => strRejectReasonIn | _ => strRejectReason st end;
     chRejectCode := chRejectCode st; corruptionPossible := corruptionPossible st |}.

(** ** Constants ([consensus.h]) *)

Definition MAX_BLOCK_SIGOPS_COST : Z := 80000.
Definition COINBASE_MATURITY : Z := 100.
Definition LOCKTIME_VERIFY_SEQUENCE : Z := 1 .<< 0.
Definition LOCKTIME_MEDIAN_TIME_PAST : Z := 1 .<< 1.

(** ** Lock times *)

Definition IsFinalTx (tx : CTransaction) (nBlockHeight nBlockTime : Z) : bool :=
  if nLockTime tx =? 0 then true
  else if nLockTime tx <? (if nLockTime tx <? LOCKTIME_THRESHOLD then nBlockHeight else nBlockTime) then true
  else forallb (λ txin, nSequence txin =? SEQUENCE_FINAL) (vin tx).

Section SequenceLocks.
Context (blocks : gmap ptr CBlockIndex).

(** The loop over the inputs; the result is [nMinHeight], [nMinTime] and the heights with
    the irrelevant ones cleared. *)
Fixpoint sequence_locks_loop (block : ptr) (ins : list CTxIn) (prevHeights : list Z) (nMinHeight nMinTime : Z) :
    option (Z * Z * list Z) :=
  match ins, prevHeights with
  | [], _ => Some (nMinHeight, nMinTime, [])
  | txin :: ins, nCoinHeight :: prevHeights =>
      if negb (nSequence txin .& SEQUENCE_LOCKTIME_DISABLE_FLAG =? 0) then
        '(h, t, hs) ← sequence_locks_loop block ins prevHeights nMinHeight nMinTime; Some (h, t, 0 :: hs)
      else if negb (nSequence txin .& SEQUENCE_LOCKTIME_TYPE_FLAG =? 0) then
        a ← GetAncestor blocks block (Z.max (nCoinHeight - 1) 0);
        a ← a;
        nCoinTime ← GetMedianTimePast blocks a;
        let nMinTime :=
          Z.max nMinTime
            (nCoinTime + ((nSequence txin .& SEQUENCE_LOCKTIME_MASK) .<< SEQUENCE_LOCKTIME_GRANULARITY) - 1) in
        '(h, t, hs) ← sequence_locks_loop block ins prevHeights nMinHeight nMinTime; Some (h, t, nCoinHeight :: hs)
      else
        let nMinHeight := Z.max nMinHeight (nCoinHeight + (nSequence txin .& SEQUENCE_LOCKTIME_MASK) - 1) in
        '(h, t, hs) ← sequence_locks_loop block ins prevHeights nMinHeight nMinTime; Some (h, t, nCoinHeight :: hs)
  | _ :: _, [] => None
  end.

Definition CalculateSequenceLocks (tx : CTransaction) (flags : Z) (prevHeights : list Z) (block : ptr) :
    option (Z * Z * list Z) :=
  if negb (length prevHeights =? length (vin tx))%nat then None
  else
    let fEnforceBIP68 := (2 <=? u32 (Transaction.nVersion tx)) && negb (flags .& LOCKTIME_VERIFY_SEQUENCE =? 0) in
    if negb fEnforceBIP68 then Some (-1, -1, prevHeights)
    else sequence_locks_loop block (vin tx) prevHeights (-1) (-1).

Definition EvaluateSequenceLocks (block : ptr) (lockPair : Z * Z) : option bool :=
  b ← blocks !! block;
  q ← pprev b;
  nBlockTime ← GetMedianTimePast blocks q;
  Some (if (Chain.nHeight b <=? lockPair.1) || (nBlockTime <=? lockPair.2) then false else true).

Definition SequenceLocks (tx : CTransaction) (flags : Z) (prevHeights : list Z) (block : ptr) : option bool :=
  '(h, t, _) ← CalculateSequenceLocks tx flags prevHeights block;
  EvaluateSequenceLocks block (h, t).
End SequenceLocks.

(** ** Signature operations *)

Fixpoint sum_sigops (scripts : list CScript) (nSigOps : Z) : option Z :=
  match scripts with
  | [] => Some nSigOps
  | s :: scripts => k ← GetSigOpCount s false; sum_sigops scripts (u32 (nSigOps + k))
  end.

Definition GetLegacySigOpCount (tx : CTransaction) : option Z :=
  nSigOps ← sum_sigops (scriptSig <$> vin tx) 0;
  sum_sigops (scriptPubKey <$> vout tx) nSigOps.

Section WithCoins.
Context {V : Type} `{CCoinsView V}.

Fixpoint p2sh_sigops_loop (ins : list CTxIn) (nSigOps : Z) (inputs : CCoinsViewCache V) :
    option (Z * CCoinsViewCache V) :=
  match ins with
  | [] => Some (nSigOps, inputs)
  | txin :: ins =>
      let '(coin, inputs) := AccessCoin (prevout txin) inputs in
      if IsSpent coin then None
      else
        let script := scriptPubKey (out coin) in
        k ← (if IsPayToScriptHash script then GetSigOpCount_P2SH script (scriptSig txin) else Some 0);
        p2sh_sigops_loop ins (u32 (nSigOps + k)) inputs
  end.

Definition GetP2SHSigOpCount (tx : CTransaction) (inputs : CCoinsViewCache V) : option (Z * CCoinsViewCache V) :=
  if IsCoinBase tx then Some (0, inputs) else p2sh_sigops_loop (vin tx) 0 inputs.

Fixpoint witness_sigops_loop (flags : Z) (ins : list CTxIn) (nSigOps : Z) (inputs : CCoinsViewCache V) :
    option (Z * CCoinsViewCache V) :=
  match ins with
  | [] => Some (nSigOps, inputs)
  | txin :: ins =>
      let '(coin, inputs) := AccessCoin (prevout txin) inputs in
      if IsSpent coin then None
      else
        k ← CountWitnessSigOps flags (scriptSig txin) (scriptPubKey (out coin)) (scriptWitness txin);
        witness_sigops_loop flags ins (nSigOps + k) inputs
  end.

(** The 32-bit products are added to a 64-bit total. *)
Definition GetTransactionSigOpCost (tx : CTransaction) (flags : Z) (inputs : CCoinsViewCache V) :
    option (Z * CCoinsViewCache V) :=
  legacy ← GetLegacySigOpCount tx;
  let nSigOps := u32 (legacy * WITNESS_SCALE_FACTOR) in
  if IsCoinBase tx then Some (nSigOps, inputs)
  else
    '(nSigOps, inputs) ←
      (if has flags SCRIPT_VERIFY_P2SH then
         '(k, inputs) ← GetP2SHSigOpCount tx inputs; Some (nSigOps + u32 (k * WITNESS_SCALE_FACTOR), inputs)
       else Some (nSigOps, inputs));
    witness_sigops_loop flags (vin tx) nSigOps inputs.
End WithCoins.

(** ** [CheckTransaction] *)

Fixpoint check_outputs (outs : list CTxOut) (nValueOut : Z) (st : CValidationState) : bool * CValidationState :=
  match outs with
  | [] => (true, st)
  | txout :: outs =>
      if nValue txout <? 0 then (false, DoS 100 REJECT_INVALID "bad-txns-vout-negative" false st)
      else if MAX_MONEY <? nValue txout then (false, DoS 100 REJECT_INVALID "bad-txns-vout-toolarge" false st)
      else
        let nValueOut := i64 (nValueOut + nValue txout) in
        if negb (MoneyRange nValueOut) then (false, DoS 100 REJECT_INVALID "bad-txns-txouttotal-toolarge" false st)
        else check_outputs outs nValueOut st
  end.

(** Insertion into a [std::set]: an element equivalent under [operator<] is already there. *)
Definition set_contains (s : list COutPoint) (o : COutPoint) : bool :=
  existsb (λ p, negb (COutPoint_lt p o) && negb (COutPoint_lt o p)) s.

Fixpoint has_duplicate_inputs (ins : list CTxIn) (vInOutPoints : list COutPoint) : bool :=
  match ins with
  | [] => false
  | txin :: ins =>
      if set_contains vInOutPoints (prevout txin) then true
      else has_duplicate_inputs ins (prevout txin :: vInOutPoints)
  end.

Definition CheckTransaction (tx : CTransaction) (st : CValidationState) (fCheckDuplicateInputs : bool) :
    bool * CValidationState :=
  if (length (vin tx) =? 0)%nat then (false, DoS 10 REJECT_INVALID "bad-txns-vin-empty" false st)
  else if (length (vout tx) =? 0)%nat then (false, DoS 10 REJECT_INVALID "bad-txns-vout-empty" false st)
  else if MAX_BLOCK_WEIGHT <?
          TransactionSize (PROTOCOL_VERSION .| SERIALIZE_TRANSACTION_NO_WITNESS) tx * WITNESS_SCALE_FACTOR
  then (false, DoS 100 REJECT_INVALID "bad-txns-oversize" false st)
  else
    let '(ok, st) := check_outputs (vout tx) 0 st in
    if negb ok then (false, st)
    else if fCheckDuplicateInputs && has_duplicate_inputs (vin tx) []
    then (false, DoS 100 REJECT_INVALID "bad-txns-inputs-duplicate" false st)
    else if IsCoinBase tx then
      match vin tx with
      | txin :: _ =>
          if (length (scriptSig txin) <? 2)%nat || (100 <? length (scriptSig txin))%nat
          then (false, DoS 100 REJECT_INVALID "bad-cb-length" false st) else (true, st)
      | [] => (true, st)
      end
    else if existsb (λ txin, COutPoint_IsNull (prevout txin)) (vin tx)
    then (false, DoS 10 REJECT_INVALID "bad-txns-prevout-null" false st)
    else (true, st).

(** ** [CheckTxInputs] *)

Section CheckTxInputs.
Context {V : Type} `{CCoinsView V}.

Fixpoint check_inputs_loop (ins : list CTxIn) (nSpendHeight nValueIn : Z) (st : CValidationState)
    (inputs : CCoinsViewCache V) : option (option Z * CValidationState * CCoinsViewCache V) :=
  match ins with
  | [] => Some (Some nValueIn, st, inputs)
  | txin :: ins =>
      let '(coin, inputs) := AccessCoin (prevout txin) inputs in
      if IsSpent coin then None
      else if fCoinBase coin && (nSpendHeight - Coins.nHeight coin <? COINBASE_MATURITY)
      then Some (None, Invalid REJECT_INVALID "bad-txns-premature-spend-of-coinbase" st, inputs)
      else
        let nValueIn := i64 (nValueIn + nValue (out coin)) in
        if negb (MoneyRange (nValue (out coin))) || negb (MoneyRange nValueIn)
        then Some (None, DoS 100 REJECT_INVALID "bad-txns-inputvalues-outofrange" false st, inputs)
        else check_inputs_loop ins nSpendHeight nValueIn st inputs
  end.

(** The fee, when the function returns [true]. *)
Definition CheckTxInputs (tx : CTransaction) (st : CValidationState) (inputs : CCoinsViewCache V) (nSpendHeight : Z) :
    option (option Z * CValidationState * CCoinsViewCache V) :=
  let '(have, inputs) := HaveInputs tx inputs in
  if negb have then Some (None, DoS 100 REJECT_INVALID "bad-txns-inputs-missingorspent" false st, inputs)
  else
    '(nValueIn, st, inputs) ← check_inputs_loop (vin tx) nSpendHeight 0 st inputs;
    match nValueIn with
    | None => Some (None, st, inputs)
    | Some nValueIn =>
        value_out ← GetValueOut tx;
        if nValueIn <? value_out then Some (None, DoS 100 REJECT_INVALID "bad-txns-in-belowout" false st, inputs)
        else
          let txfee_aux := nValueIn - value_out in
          if negb (MoneyRange txfee_aux) then Some (None, DoS 100 REJECT_INVALID "bad-txns-fee-outofrange" false st, inputs)
          else Some (Some txfee_aux, st, inputs)
    end.
End CheckTxInputs.

(** ** Lock times *)

Lemma forallb_lookup {A : Type} (f : A → bool) (l : list A) (i : nat) (x : A) :
  forallb f l = true → l !! i = Some x → f x = true.
Proof.
  revert i. induction l as [|y l IH]; intros i Hf Hi; [done|]. cbn in Hf. apply andb_prop in Hf as [Hy Hl].
  destruct i as [|i]; cbn in Hi; [by injection Hi as <-|by apply (IH i)].
Qed.

(** A transaction that passes [CHECKLOCKTIMEVERIFY] is final only beyond the operand. *)
Lemma TxCheckLockTime_final (tx : CTransaction) (nIn : nat) (k height time : Z) :
  TxCheckLockTime tx nIn k = true → IsFinalTx tx height time = true → 0 <= k → 1 <= height →
  k < (if k <? LOCKTIME_THRESHOLD then height else time).
Proof.
  unfold TxCheckLockTime, IsFinalTx. intros Hc Hf Hk Hh.
  destruct (negb _) eqn:Et in Hc; [done|]. destruct (nLockTime tx <? k) eqn:El; [done|].
  destruct (vin tx !! nIn) as [txin|] eqn:Ei; [|done].
  destruct (SEQUENCE_FINAL =? nSequence txin) eqn:Es; [done|].
  assert ((nLockTime tx <? LOCKTIME_THRESHOLD) = (k <? LOCKTIME_THRESHOLD)) as Eb.
  { apply negb_false_iff, orb_prop in Et. unfold LOCKTIME_THRESHOLD in *.
    destruct Et as [Et|Et]; bool_to_prop; apply eq_true_iff_eq; rewrite !Z.ltb_lt; lia. }
  rewrite Eb in Hf. destruct (nLockTime tx =? 0) eqn:E0.
  - unfold LOCKTIME_THRESHOLD in *. bool_to_prop. rewrite (proj2 (Z.ltb_lt k _)) by lia. lia.
  - destruct (_ <? _) eqn:E1 in Hf; bool_to_prop; [lia|].
    pose proof (forallb_lookup _ _ _ _ Hf Ei) as Hx. cbn beta in Hx. bool_to_prop. lia.
Qed.

(** ** Relative lock times *)

Lemma sequence_masks (x : Z) :
  0 <= x →
  x .& (SEQUENCE_LOCKTIME_TYPE_FLAG .| SEQUENCE_LOCKTIME_MASK) =
    x .& SEQUENCE_LOCKTIME_TYPE_FLAG + x .& SEQUENCE_LOCKTIME_MASK ∧
  (x .& SEQUENCE_LOCKTIME_TYPE_FLAG = 0 ∨ x .& SEQUENCE_LOCKTIME_TYPE_FLAG = 2 ^ 22) ∧
  0 <= x .& SEQUENCE_LOCKTIME_MASK < 2 ^ 16.
Proof.
  intros Hx. change SEQUENCE_LOCKTIME_TYPE_FLAG with (2 ^ 22). change SEQUENCE_LOCKTIME_MASK with (2 ^ 16 - 1).
  rewrite (land_ones_mod x 16) by lia. pose proof (Z.mod_pos_bound x (2 ^ 16) ltac:(lia)) as Hm.
  assert (x .& 2 ^ 22 = 0 ∨ x .& 2 ^ 22 = 2 ^ 22) as Ht.
  { destruct (Z.testbit x 22) eqn:E.
    - right. apply Z.bits_inj'. intros i Hi. rewrite Z.land_spec, Z.pow2_bits_eqb by lia.
      destruct (Z.eqb_spec 22 i) as [<-|]; [by rewrite E|apply andb_false_r].
    - left. apply Z.bits_inj'. intros i Hi. rewrite Z.land_spec, Z.pow2_bits_eqb, Z.bits_0 by lia.
      destruct (Z.eqb_spec 22 i) as [<-|]; [by rewrite E|apply andb_false_r]. }
  split_and!; [|done|lia..]. rewrite Z.land_lor_distr_r, (land_ones_mod x 16) by lia.
  rewrite Z.lor_comm, (lor_add' _ _ 16) by (try lia; destruct Ht as [-> | ->]; done). lia.
Qed.

Lemma TxCheckSequence_inv (tx : CTransaction) (nIn : nat) (k : Z) (txin : CTxIn) :
  TxCheckSequence tx nIn k = true → vin tx !! nIn = Some txin → 0 <= k → 0 <= nSequence txin →
  2 <= u32 (Transaction.nVersion tx) ∧ nSequence txin .& SEQUENCE_LOCKTIME_DISABLE_FLAG = 0 ∧
  nSequence txin .& SEQUENCE_LOCKTIME_TYPE_FLAG = k .& SEQUENCE_LOCKTIME_TYPE_FLAG ∧
  k .& SEQUENCE_LOCKTIME_MASK <= nSequence txin .& SEQUENCE_LOCKTIME_MASK.
Proof.
  unfold TxCheckSequence, ScriptNum.band. intros Hc Hi Hk Hs. rewrite Hi in Hc.
  destruct (_ <? 2) eqn:E1; [done|]. destruct (negb (_ =? 0)) eqn:E2; [done|].
  destruct (negb (_ || _)) eqn:E3; [done|]. destruct (_ <? _) eqn:E4 in Hc; [done|].
  destruct (sequence_masks k Hk) as (Ek & Tk & Mk), (sequence_masks _ Hs) as (Es & Ts & Ms).
  rewrite Ek, Es in *. change SEQUENCE_LOCKTIME_TYPE_FLAG with (2 ^ 22) in *.
  apply negb_false_iff, orb_prop in E3. bool_to_prop. split_and!; [done|done| |].
  - destruct E3 as [E3|E3]; bool_to_prop; lia.
  - destruct E3 as [E3|E3]; bool_to_prop; lia.
Qed.

Section SequenceFacts.
Context (blocks : gmap ptr CBlockIndex).

(** What the computed locks guarantee for one input. *)
Definition input_locked (block : ptr) (txin : CTxIn) (coinHeight h t : Z) : Prop :=
  nSequence txin .& SEQUENCE_LOCKTIME_DISABLE_FLAG = 0 →
  if nSequence txin .& SEQUENCE_LOCKTIME_TYPE_FLAG =? 0
  then coinHeight + nSequence txin .& SEQUENCE_LOCKTIME_MASK - 1 <= h
  else ∃ a mtp, GetAncestor blocks block (Z.max (coinHeight - 1) 0) = Some (Some a) ∧
         GetMedianTimePast blocks a = Some mtp ∧
         mtp + (nSequence txin .& SEQUENCE_LOCKTIME_MASK) * 512 - 1 <= t.

Lemma input_locked_mono (block : ptr) (txin : CTxIn) (hc h t h' t' : Z) :
  h <= h' → t <= t' → input_locked block txin hc h t → input_locked block txin hc h' t'.
Proof.
  unfold input_locked. intros Hh Ht Hl Hd. specialize (Hl Hd). destruct (_ =? 0); [lia|].
  destruct Hl as (a & mtp & ? & ? & ?). exists a, mtp. split_and!; [done|done|lia].
Qed.

Lemma sequence_locks_loop_spec (block : ptr) (ins : list CTxIn) (hs : list Z) (h0 t0 h t : Z) (hs' : list Z) :
  sequence_locks_loop blocks block ins hs h0 t0 = Some (h, t, hs') →
  h0 <= h ∧ t0 <= t ∧
  ∀ i txin hc, ins !! i = Some txin → hs !! i = Some hc → input_locked block txin hc h t.
Proof.
  revert hs h0 t0 hs'. induction ins as [|txin ins IH]; intros [|hc hs] h0 t0 hs'; cbn [sequence_locks_loop];
    [intros [= <- <- <-]; split_and!; [lia|lia|done]..|done|].
  destruct (negb (nSequence txin .& SEQUENCE_LOCKTIME_DISABLE_FLAG =? 0)) eqn:Ed.
  - destruct (sequence_locks_loop _ _ _ _ _ _) as [[[h1 t1] hs1]|] eqn:E; [|done]. ocbn. intros [= <- <- <-].
    apply IH in E as (? & ? & Hl). split_and!; [done|done|]. intros [|i] x y; cbn; [|apply Hl].
    intros [= <-] [= <-] E0. by rewrite E0 in Ed.
  - destruct (negb (nSequence txin .& SEQUENCE_LOCKTIME_TYPE_FLAG =? 0)) eqn:Ety.
    + destruct (GetAncestor _ _ _) as [[a|]|] eqn:Ea; [|done|done]. ocbn.
      destruct (GetMedianTimePast _ _) as [mtp|] eqn:Em; [|done]. ocbn.
      destruct (sequence_locks_loop _ _ _ _ _ _) as [[[h1 t1] hs1]|] eqn:E; [|done]. ocbn. intros [= <- <- <-].
      apply IH in E as (? & ? & Hl). split_and!; [lia|lia|]. intros [|i] x y; cbn; [|apply Hl].
      intros [= <-] [= <-] _. apply negb_true_iff in Ety. rewrite Ety. exists a, mtp. split_and!; [done|done|].
      rewrite shl_mul in * by (unfold SEQUENCE_LOCKTIME_GRANULARITY; lia).
      change (2 ^ SEQUENCE_LOCKTIME_GRANULARITY) with 512 in *. lia.
    + destruct (sequence_locks_loop _ _ _ _ _ _) as [[[h1 t1] hs1]|] eqn:E; [|done]. ocbn. intros [= <- <- <-].
      apply IH in E as (? & ? & Hl). split_and!; [lia|lia|]. intros [|i] x y; cbn; [|apply Hl].
      intros [= <-] [= <-] _. apply negb_false_iff in Ety. rewrite Ety. lia.
Qed.

(** The whole evaluation. *)
Lemma SequenceLocks_spec (tx : CTransaction) (flags : Z) (hs : list Z) (block : ptr) (i : nat) (txin : CTxIn) (hc : Z) :
  SequenceLocks blocks tx flags hs block = Some true →
  2 <= u32 (Transaction.nVersion tx) → flags .& LOCKTIME_VERIFY_SEQUENCE ≠ 0 →
  vin tx !! i = Some txin → hs !! i = Some hc →
  ∃ b q time h t, blocks !! block = Some b ∧ pprev b = Some q ∧ GetMedianTimePast blocks q = Some time ∧
    h < Chain.nHeight b ∧ t < time ∧ input_locked block txin hc h t.
Proof.
  unfold SequenceLocks, CalculateSequenceLocks. intros Hs Hv Hf Hi Hh.
  destruct (negb (length hs =? _)%nat); [done|].
  rewrite (proj2 (Z.leb_le _ _) Hv), (proj2 (Z.eqb_neq _ _) Hf) in Hs. cbn [negb andb] in Hs.
  destruct (sequence_locks_loop _ _ _ _ _ _) as [[[h t] hs']|] eqn:E; [|done]. cbn [mbind option_bind] in Hs.
  unfold EvaluateSequenceLocks in Hs. destruct (blocks !! block) as [b|] eqn:Eb; [|done]. cbn [mbind option_bind] in Hs.
  destruct (pprev b) as [q|] eqn:Eq; [|done]. cbn [mbind option_bind] in Hs.
  destruct (GetMedianTimePast blocks q) as [time|] eqn:Em; [|done]. cbn [mbind option_bind] in Hs.
  destruct (_ || _) eqn:Eo; [done|]. bool_to_prop.
  apply sequence_locks_loop_spec in E as (_ & _ & Hl). exists b, q, time, h, t. split_and!; try done.
  by apply (Hl i).
Qed.
End SequenceFacts.

(** ** Ordered sets of outpoints *)

Lemma memcmp_spec (a b : list Z) :
  length a = length b → (memcmp a b = 0 ↔ a = b) ∧ memcmp b a = - memcmp a b.
Proof.
  revert b. induction a as [|x a IH]; intros [|y b] Hl; try done. cbn [memcmp]. injection Hl as Hl.
  destruct (IH b Hl) as [IH1 IH2]. rewrite (Z.eqb_sym y x). destruct (x =? y) eqn:E; bool_to_prop.
  - subst. rewrite IH1, IH2. split; [|done]. split; [by intros ->|by intros [=]].
  - destruct (x <? y) eqn:E1, (y <? x) eqn:E2; bool_to_prop; try lia; (split; [split; [done|by intros [=]]|done]).
Qed.

Lemma set_contains_ok (s : list COutPoint) (o : COutPoint) :
  Forall outpoint_ok s → outpoint_ok o → set_contains s o = true ↔ o ∈ s.
Proof.
  intros Hs Ho. unfold set_contains. rewrite existsb_exists. split.
  - intros (p & Hin & E). apply list_elem_of_In in Hin. pose proof (proj1 (list.Forall_forall _ _) Hs p Hin) as Hp.
    destruct Hp as [[Hlp _] Hnp], Ho as [[Hlo _] Hno].
    destruct (memcmp_spec (hash p) (hash o) ltac:(lia)) as [He Hn].
    unfold COutPoint_lt in E. rewrite Hn in E. bool_to_prop.
    assert (memcmp (hash p) (hash o) = 0) as E0 by lia. apply He in E0 as E0'. rewrite E0 in *.
    cbn [Z.opp Z.eqb andb] in *. bool_to_prop. replace o with p; [done|]. destruct p, o. cbn in *. f_equal; [done|lia].
  - intros Hin. exists o. split; [by apply list_elem_of_In|].
    destruct (memcmp_spec (hash o) (hash o) eq_refl) as [He _]. unfold COutPoint_lt.
    rewrite (proj2 He eq_refl). cbn. by rewrite Z.ltb_irrefl.
Qed.

Lemma has_duplicate_inputs_ok (ins : list CTxIn) (seen : list COutPoint) :
  Forall txin_ok ins → Forall outpoint_ok seen →
  has_duplicate_inputs ins seen = false ↔
  NoDup (prevout <$> ins) ∧ ∀ o, o ∈ prevout <$> ins → o ∉ seen.
Proof.
  intros Hi. revert seen. induction Hi as [|i ins Hx Hi IH]; intros seen Hs; cbn [has_duplicate_inputs].
  { split; [|done]. intros _. split; [apply NoDup_nil_2|]. intros o Ho. by apply not_elem_of_nil in Ho. }
  assert (outpoint_ok (prevout i)) as Hp by apply Hx. rewrite fmap_cons, list.NoDup_cons.
  destruct (set_contains seen (prevout i)) eqn:E.
  - apply set_contains_ok in E; [|done..]. split; [done|]. intros [_ Hn]. destruct (Hn (prevout i)); [left|done].
  - assert (prevout i ∉ seen) as Hni.
    { intros Hin. apply set_contains_ok in Hin; [congruence|done..]. }
    rewrite IH by (by constructor). split.
    + intros [Hnd Hd]. split_and!; [|done|].
      * intros Hin. apply (Hd _ Hin). left.
      * intros o [->|Hin]%elem_of_cons; [done|]. intros Hs'. apply (Hd _ Hin). by right.
    + intros [[Hn Hnd] Hd]. split; [done|]. intros o Hin [->|Hs']%elem_of_cons; [done|].
      by apply (Hd o); [right|].
Qed.

(** ** [CheckTransaction] *)

Lemma MoneyRange_tests (v : Z) : MoneyRange v = negb (v <? 0) && negb (MAX_MONEY <? v).
Proof. unfold MoneyRange. rewrite !Z.ltb_antisym, !negb_involutive. done. Qed.

Lemma check_outputs_ok (outs : list CTxOut) (acc : Z) (st : CValidationState) :
  if GetValueOut_loop outs acc is Some _ then check_outputs outs acc st = (true, st)
  else ∃ reason, check_outputs outs acc st = (false, DoS 100 REJECT_INVALID reason false st).
Proof.
  revert acc. induction outs as [|o outs IH]; intros acc; cbn [GetValueOut_loop check_outputs]; [done|].
  rewrite (MoneyRange_tests (nValue o)). destruct (nValue o <? 0); cbn [negb andb orb]; [by eexists|].
  destruct (MAX_MONEY <? nValue o); cbn [negb andb orb]; [by eexists|].
  destruct (MoneyRange (i64 (acc + nValue o))); cbn [negb]; [apply IH|by eexists].
Qed.

(** The rules a transaction must satisfy by itself. *)
Definition transaction_valid (tx : CTransaction) (fCheckDuplicateInputs : bool) : Prop :=
  vin tx ≠ [] ∧ vout tx ≠ [] ∧
  length (SerializeTransaction SERIALIZE_TRANSACTION_NO_WITNESS tx) * WITNESS_SCALE_FACTOR <= MAX_BLOCK_WEIGHT ∧
  is_Some (GetValueOut tx) ∧
  (fCheckDuplicateInputs = true → NoDup (prevout <$> vin tx)) ∧
  (if IsCoinBase tx then Forall (λ i, (2 ≤ length (scriptSig i) ≤ 100)%nat) (vin tx)
   else Forall (λ i, COutPoint_IsNull (prevout i) = false) (vin tx)).

Lemma no_witness_size (tx : CTransaction) :
  tx_ok tx →
  TransactionSize (PROTOCOL_VERSION .| SERIALIZE_TRANSACTION_NO_WITNESS) tx =
  length (SerializeTransaction SERIALIZE_TRANSACTION_NO_WITNESS tx).
Proof.
  intros Htx. rewrite TransactionSize_length by done. by rewrite !SerializeTransaction_format.
Qed.

Lemma existsb_false_Forall {A : Type} (f : A → bool) (l : list A) :
  existsb f l = false ↔ Forall (λ x, f x = false) l.
Proof.
  induction l as [|x l IH]; cbn; [done|]. by rewrite orb_false_iff, Forall_cons_iff, IH.
Qed.

(** Case by case, the verdict of the code is the rule. *)
Lemma CheckTransaction_ok (tx : CTransaction) (st : CValidationState) (dup : bool) :
  tx_ok tx →
  (CheckTransaction tx st dup = (true, st) ∧ transaction_valid tx dup) ∨
  (∃ level reason, CheckTransaction tx st dup = (false, DoS level REJECT_INVALID reason false st) ∧
     (level = 10 ∨ level = 100) ∧ ¬ transaction_valid tx dup).
Proof.
  intros Htx. unfold CheckTransaction, transaction_valid.
  destruct (length (vin tx) =? 0)%nat eqn:E1; bool_to_prop.
  { right. do 2 eexists. split; [done|]. split; [by left|]. intros (Hv & _). by apply length_zero_iff_nil in E1. }
  destruct (length (vout tx) =? 0)%nat eqn:E2; bool_to_prop.
  { right. do 2 eexists. split; [done|]. split; [by left|]. intros (_ & Hv & _). by apply length_zero_iff_nil in E2. }
  rewrite no_witness_size by done. destruct (MAX_BLOCK_WEIGHT <? _) eqn:E3; bool_to_prop.
  { right. do 2 eexists. split; [done|]. split; [by right|]. intros (_ & _ & Hs & _). lia. }
  pose proof (check_outputs_ok (vout tx) 0 st) as Ho. fold (GetValueOut tx) in Ho.
  destruct (GetValueOut tx) as [v|] eqn:E4.
  2:{ destruct Ho as [reason ->]. right. do 2 eexists. split; [done|]. split; [by right|].
      intros (_ & _ & _ & Hs & _). by apply is_Some_None in Hs. }
  rewrite Ho. cbn [negb].
  pose proof (has_duplicate_inputs_ok (vin tx) [] (proj1 (proj1 Htx)) ltac:(done)) as Hd.
  destruct (dup && has_duplicate_inputs (vin tx) []) eqn:E5.
  { apply andb_prop in E5 as [-> E5]. right. do 2 eexists. split; [done|]. split; [by right|].
    intros (_ & _ & _ & _ & Hnd & _). rewrite (proj2 Hd) in E5; [done|]. split; [auto|]. intros o _. apply not_elem_of_nil. }
  assert (dup = true → NoDup (prevout <$> vin tx)) as Hnd.
  { intros ->. cbn [andb] in E5. by apply Hd. }
  assert (vin tx ≠ [] ∧ vout tx ≠ []) as [Hvi Hvo] by (split; intros Hnil; by rewrite Hnil in *).
  destruct (IsCoinBase tx) eqn:E6.
  - unfold IsCoinBase in E6. destruct (vin tx) as [|i [|]] eqn:Ev; try done.
    destruct (_ || _) eqn:E7.
    + right. do 2 eexists. split; [done|]. split; [by right|]. intros (_ & _ & _ & _ & _ & Hf).
      apply Forall_cons_1 in Hf as [Hf _]. apply orb_prop in E7 as [E7|E7]; bool_to_prop; lia.
    + left. bool_to_prop. split; [done|]. split_and!; try done. constructor; [lia|done].
  - destruct (existsb _ _) eqn:E7.
    + right. do 2 eexists. split; [done|]. split; [by left|]. intros (_ & _ & _ & _ & _ & Hf).
      apply existsb_false_Forall in Hf. congruence.
    + left. split; [done|]. split_and!; try done. by apply existsb_false_Forall.
Qed.

(** ** [CheckTxInputs] *)

Lemma DoS_invalid (level code : Z) (reason : string) (corruption : bool) (st : CValidationState) :
  mode st = MODE_VALID → mode (DoS level code reason corruption st) = MODE_INVALID.
Proof. unfold DoS. by intros ->. Qed.

Section TxInputs.
Context {V : Type} `{CCoinsViewLaws V}.
Implicit Types c : CCoinsViewCache V.

(** The coin an input spends exists, is mature and has an amount in range. *)
Definition input_spendable c (height : Z) (i : CTxIn) : Prop :=
  ∃ k, cache_coins c (prevout i) = Some k ∧ MoneyRange (nValue (out k)) = true ∧
    (fCoinBase k = true → COINBASE_MATURITY <= height - Coins.nHeight k).

Definition input_value c (i : CTxIn) : Z :=
  match cache_coins c (prevout i) with Some k => nValue (out k) | None => 0 end.

Definition inputs_value c (ins : list CTxIn) : Z := foldr (λ i s, input_value c i + s) 0 ins.

Lemma same_view_spendable c c' height i :
  same_view c c' → input_spendable c' height i ↔ input_spendable c height i.
Proof. intros (_ & _ & Hc). unfold input_spendable. by rewrite Hc. Qed.

Lemma same_view_value c c' ins : same_view c c' → inputs_value c' ins = inputs_value c ins.
Proof.
  intros (_ & _ & Hc). unfold inputs_value, input_value. induction ins as [|i ins IH]; cbn; [done|].
  by rewrite IH, Hc.
Qed.

Lemma inputs_value_nonneg c height ins : Forall (input_spendable c height) ins → 0 <= inputs_value c ins.
Proof.
  induction 1 as [|i ins (k & Hk & Hm & _) _ IH]; cbn [inputs_value foldr]; [lia|].
  fold (inputs_value c ins). unfold input_value at 1. rewrite Hk.
  unfold MoneyRange in Hm. bool_to_prop. lia.
Qed.

Lemma check_inputs_loop_ok ins height acc st c :
  cache_ok c → mode st = MODE_VALID → 0 <= acc <= MAX_MONEY →
  Forall (λ i, is_Some (cache_coins c (prevout i))) ins →
  ∃ c', same_view c c' ∧
  ((check_inputs_loop ins height acc st c = Some (Some (acc + inputs_value c ins), st, c') ∧
    Forall (input_spendable c height) ins ∧ acc + inputs_value c ins <= MAX_MONEY) ∨
   (∃ st', check_inputs_loop ins height acc st c = Some (None, st', c') ∧ mode st' = MODE_INVALID ∧
     ¬ (Forall (input_spendable c height) ins ∧ acc + inputs_value c ins <= MAX_MONEY))).
Proof.
  intros Hc Hst. revert acc c Hc. induction ins as [|i ins IH]; intros acc c Hc Hacc Hf; cbn [check_inputs_loop].
  { exists c. split; [done|]. left. cbn [inputs_value foldr]. rewrite Z.add_0_r. split_and!; [done..|lia]. }
  apply Forall_cons_1 in Hf as [[k0 Hk] Hf].
  pose proof (AccessCoin_same c (prevout i) Hc) as Ha. destruct (AccessCoin (prevout i) c) as [k c1].
  destruct Ha as [Hsv Hun]. rewrite Hk in Hun. unfold unspent in Hun. destruct (IsSpent k); [done|].
  injection Hun as ->. cbn [inputs_value foldr]. fold (inputs_value c ins).
  assert (input_value c i = nValue (out k)) as Hv by (unfold input_value; by rewrite Hk). rewrite Hv.
  destruct (fCoinBase k && _) eqn:Em.
  { exists c1. split; [done|]. right. eexists. split; [done|]. split; [by apply DoS_invalid|].
    intros [Hs _]. apply Forall_cons_1 in Hs as [(k' & Hk' & _ & Hm) _]. rewrite Hk in Hk'. injection Hk' as <-.
    apply andb_prop in Em as [Em1 Em2]. specialize (Hm Em1). bool_to_prop. lia. }
  destruct (negb (MoneyRange (nValue (out k))) || _) eqn:Er.
  { exists c1. split; [done|]. right. eexists. split; [done|]. split; [by apply DoS_invalid|].
    intros [Hs Hle]. apply Forall_cons_1 in Hs as [(k' & Hk' & Hm & _) Hs]. rewrite Hk in Hk'. injection Hk' as <-.
    apply inputs_value_nonneg in Hs. rewrite Hm in Er. cbn [negb orb] in Er. apply negb_true_iff in Er.
    unfold MoneyRange in *. apply andb_false_iff in Er. unfold i64 in Er. unfold MAX_MONEY, COIN in *. bool_to_prop.
    rewrite signed_small in Er by lia. destruct Er; bool_to_prop; lia. }
  apply orb_false_elim in Er as [Er1 Er2]. apply negb_false_iff in Er1, Er2.
  assert (i64 (acc + nValue (out k)) = acc + nValue (out k)) as Hw.
  { unfold MoneyRange, MAX_MONEY, COIN in *. bool_to_prop. apply signed_small; lia. }
  rewrite Hw in *.
  destruct (IH (acc + nValue (out k)) c1) as (c' & Hsv' & Hr).
  { apply Hsv. } { unfold MoneyRange in Er2. bool_to_prop. lia. }
  { revert Hf. apply Forall_impl. intros j. by rewrite (proj2 (proj2 Hsv)). }
  exists c'. split; [by apply (same_view_trans c c1)|].
  rewrite (same_view_value c c1 ins Hsv), <- Z.add_assoc in Hr.
  assert (Forall (input_spendable c1 height) ins ↔ Forall (input_spendable c height) ins) as He.
  { split; apply Forall_impl; intros j; by rewrite (same_view_spendable c c1 height j Hsv). }
  destruct Hr as [(-> & Hs%He & Hle)|(st' & -> & Hm & Hn)]; [left|right].
  - split_and!; [done| |done]. constructor; [|done]. exists k. split_and!; [done..|].
    intros Hcb. rewrite Hcb in Em. cbn [andb] in Em. bool_to_prop. lia.
  - exists st'. split_and!; [done..|]. intros [Hs Hle]. apply Hn. apply Forall_cons_1 in Hs as [_ ?]. split; [by apply He|done].
Qed.

Lemma CheckTxInputs_ok (tx : CTransaction) (st : CValidationState) (height v : Z) c :
  cache_ok c → mode st = MODE_VALID → IsCoinBase tx = false →
  Forall (λ o, is_int 64 (nValue o)) (vout tx) → GetValueOut tx = Some v →
  ∃ r st' c', CheckTxInputs tx st c height = Some (r, st', c') ∧ same_view c c' ∧
  (∀ fee, r = Some fee ↔
     Forall (input_spendable c height) (vin tx) ∧ v <= inputs_value c (vin tx) <= MAX_MONEY ∧
     fee = inputs_value c (vin tx) - v) ∧
  mode st' = (if r is Some _ then MODE_VALID else MODE_INVALID).
Proof.
  intros Hc Hst Hcb Hi Hv. unfold CheckTxInputs, HaveInputs. rewrite Hcb. cbn [negb].
  pose proof (HaveInputs_loop_ok (vin tx) c Hc) as Hh. destruct (HaveInputs_loop (vin tx) c) as [have c1].
  destruct Hh as [Hsv Hh]. destruct have; cbn [negb].
  2:{ exists None. do 2 eexists. split; [done|]. split; [done|]. split; [|by apply DoS_invalid].
      intros fee. split; [done|]. intros [Hs _]. enough (false = true) by done. apply Hh.
      revert Hs. apply Forall_impl. intros i (k & -> & _). done. }
  pose proof (proj1 Hh eq_refl) as Hex.
  destruct (check_inputs_loop_ok (vin tx) height 0 st c1) as (c2 & Hsv2 & Hr);
    [apply Hsv|done|unfold MAX_MONEY, COIN; lia| |].
  { revert Hex. apply Forall_impl. intros j. by rewrite (proj2 (proj2 Hsv)). }
  rewrite (same_view_value c c1 _ Hsv), Z.add_0_l in Hr.
  assert (Forall (input_spendable c1 height) (vin tx) ↔ Forall (input_spendable c height) (vin tx)) as He.
  { split; apply Forall_impl; intros j; by rewrite (same_view_spendable c c1 height j Hsv). }
  pose proof (same_view_trans c c1 c2 Hsv Hsv2) as Hsv3.
  destruct Hr as [(-> & Hs%He & Hle)|(st' & -> & Hm & Hn)]; ocbn.
  2:{ exists None, st', c2. split_and!; try done. intros fee. split; [done|]. intros (? & ? & _). destruct Hn. split; [by apply He|lia]. }
  rewrite Hv. ocbn. apply GetValueOut_loop_spec in Hv as (_ & _ & Hvr); [|done..]. unfold MoneyRange in Hvr. bool_to_prop.
  destruct (inputs_value c (vin tx) <? v) eqn:El; bool_to_prop.
  { exists None. do 2 eexists. split; [done|]. split; [done|]. split; [|by apply DoS_invalid].
    intros fee. split; [done|]. intros (_ & ? & _). lia. }
  replace (MoneyRange _) with true by (symmetry; unfold MoneyRange; bool_to_prop; lia). cbn [negb].
  do 3 eexists. split; [done|]. split; [done|]. split; [|done]. intros fee. split.
  - intros [= <-]. split_and!; [done|lia..].
  - by intros (_ & _ & ->).
Qed.
End TxInputs.

(** ** The properties *)

(** C19: the context-free check accepts exactly the transactions that have inputs and outputs,
    fit in a block, have amounts and a total in the money range, no input twice
    (where the caller asks for that), a coinbase script of 2 to 100 bytes, and no null
    input otherwise; a rejection marks the validation state as invalid with a ban score of 10 or 100. *)
Theorem CheckTransaction_correct (tx : CTransaction) (st : CValidationState) (fCheckDuplicateInputs : bool) :
  tx_ok tx → mode st = MODE_VALID →
  let '(ok, st') := CheckTransaction tx st fCheckDuplicateInputs in
  (ok = true ↔ transaction_valid tx fCheckDuplicateInputs) ∧
  (ok = true → st' = st) ∧
  (ok = false → mode st' = MODE_INVALID ∧ chRejectCode st' = REJECT_INVALID ∧
     (nDoS st' = nDoS st + 10 ∨ nDoS st' = nDoS st + 100)).
Proof.
  intros Htx Hst. destruct (CheckTransaction_ok tx st fCheckDuplicateInputs Htx) as [(-> & Hv)|(level & reason & -> & Hl & Hv)].
  - by split_and!.
  - split; [done|]. split; [done|]. intros _. unfold DoS. rewrite Hst. cbn. destruct Hl as [-> | ->]; auto.
Qed.

(** C20: a spending transaction is accepted against the coins exactly when each input spends an existing,
    mature coin in the money range, the inputs' total is in range and covers the
    outputs; the fee reported is the difference, no assertion fails, and the coins are left as they were. *)
Theorem CheckTxInputs_correct {V : Type} `{CCoinsViewLaws V} (tx : CTransaction) (st : CValidationState)
    (height v : Z) (c : CCoinsViewCache V) :
  cache_ok c → mode st = MODE_VALID → IsCoinBase tx = false →
  Forall (λ o, is_int 64 (nValue o)) (vout tx) → GetValueOut tx = Some v →
  ∃ r st' c', CheckTxInputs tx st c height = Some (r, st', c') ∧ same_view c c' ∧
  (∀ fee, r = Some fee ↔
     Forall (input_spendable c height) (vin tx) ∧ v <= inputs_value c (vin tx) <= MAX_MONEY ∧
     fee = inputs_value c (vin tx) - v) ∧
  mode st' = (if r is Some _ then MODE_VALID else MODE_INVALID).
Proof. apply CheckTxInputs_ok. Qed.

(** C21: a transaction whose input passes [CHECKLOCKTIMEVERIFY] with operand [k] is final, and so
    can be in a block, only at a height (or time, for operands from the threshold up) beyond [k]. *)
Theorem CheckLockTime_enforced (tx : CTransaction) (nIn : nat) (k height time : Z) :
  TxCheckLockTime tx nIn k = true → IsFinalTx tx height time = true → 0 <= k → 1 <= height →
  k < (if k <? LOCKTIME_THRESHOLD then height else time).
Proof. apply TxCheckLockTime_final. Qed.

(** C22: a transaction whose input passes [CHECKSEQUENCEVERIFY] with operand [k] and whose sequence locks
    hold in a block has waited, since the block of the coin it spends, the number
    of blocks (or of units of 512 seconds of median time) that [k] states. *)
Theorem CheckSequence_enforced (blocks : gmap ptr CBlockIndex) (tx : CTransaction) (nIn : nat) (txin : CTxIn)
    (k hc flags : Z) (hs : list Z) (block : ptr) :
  TxCheckSequence tx nIn k = true → SequenceLocks blocks tx flags hs block = Some true →
  flags .& LOCKTIME_VERIFY_SEQUENCE ≠ 0 → vin tx !! nIn = Some txin → hs !! nIn = Some hc →
  0 <= k → 0 <= nSequence txin →
  ∃ b q time, blocks !! block = Some b ∧ pprev b = Some q ∧ GetMedianTimePast blocks q = Some time ∧
    if k .& SEQUENCE_LOCKTIME_TYPE_FLAG =? 0 then hc + (k .& SEQUENCE_LOCKTIME_MASK) <= Chain.nHeight b
    else ∃ a mtp, GetAncestor blocks block (Z.max (hc - 1) 0) = Some (Some a) ∧
           GetMedianTimePast blocks a = Some mtp ∧ mtp + (k .& SEQUENCE_LOCKTIME_MASK) * 512 <= time.
Proof.
  intros Hc Hl Hf Hi Hh Hk Hs. destruct (TxCheckSequence_inv tx nIn k txin Hc Hi Hk Hs) as (Hv & Hd & Ht & Hm).
  destruct (SequenceLocks_spec blocks tx flags hs block nIn txin hc Hl Hv Hf Hi Hh) as (b & q & time & h & t & ? & ? & ? & Hh' & Ht' & Hin).
  exists b, q, time. split_and!; try done. specialize (Hin Hd). rewrite Ht in Hin.
  destruct (_ =? 0); [lia|]. destruct Hin as (a & mtp & ? & ? & ?). exists a, mtp. split_and!; try done. lia.
Qed.

(** ** Witnesses *)

Definition demo_spend : CTransaction := {|
  vin := [{| prevout := demo_outpoint 0; scriptSig := []; nSequence := 3; scriptWitness := [] |}];
  vout := [{| nValue := 7; scriptPubKey := [0x51] |}]; nVersion := 2; nLockTime := 9 |}.

Lemma demo_spend_ok : tx_ok demo_spend.
Proof. by apply tx_okb_ok. Qed.

Lemma CheckTransaction_correct_witness :
  (CheckTransaction demo_spend new_state true).1 = true ∧ transaction_valid demo_spend true.
Proof.
  pose proof (CheckTransaction_correct demo_spend new_state true demo_spend_ok eq_refl) as Hc.
  replace (CheckTransaction demo_spend new_state true) with (true, new_state) in * by (vm_compute; reflexivity).
  destruct Hc as [Hc _]. split; [reflexivity|]. by apply Hc.
Defined.

Lemma CheckTxInputs_correct_witness :
  Forall (input_spendable demo_cache 6) (vin demo_spend) ∧ inputs_value demo_cache (vin demo_spend) - 7 = 3.
Proof.
  destruct (CheckTxInputs_correct demo_spend new_state 6 7 demo_cache demo_cache_ok eq_refl eq_refl) as (r & st' & c' & E & _ & Hr & _).
  - repeat constructor; vm_compute; congruence.
  - reflexivity.
  - assert (r = Some 3) as Hr3.
    { assert ((λ x, x.1.1) <$> CheckTxInputs demo_spend new_state demo_cache 6 = Some (Some 3)) as E3 by (vm_compute; reflexivity).
      rewrite E in E3. by injection E3. }
    destruct (proj1 (Hr 3) Hr3) as (? & _ & ?). by split.
Defined.

Lemma CheckLockTime_enforced_witness : 5 < 10.
Proof. by apply (CheckLockTime_enforced demo_spend 0 5 10 0); [vm_compute; reflexivity..| |]. Defined.

Lemma CheckSequence_enforced_witness :
  ∃ b, demo_tree !! 6%positive = Some b ∧ 1 + (2 .& SEQUENCE_LOCKTIME_MASK) <= Chain.nHeight b.
Proof.
  destruct (CheckSequence_enforced demo_tree demo_spend 0
    {| prevout := demo_outpoint 0; scriptSig := []; nSequence := 3; scriptWitness := [] |} 2 1 LOCKTIME_VERIFY_SEQUENCE
    [1] 6 ltac:(vm_compute; reflexivity) ltac:(vm_compute; reflexivity) ltac:(vm_compute; congruence)
    eq_refl eq_refl ltac:(lia) ltac:(cbn; lia)) as (b & q & time & Eb & _ & _ & Hl).
  by exists b.
Defined.
