(* ===== verification/Block.v ===== *)
(** * Blocks

    [src/src/primitives/block.h] and [block.cpp]: the header and the block, their
    serialization and the header's hash, which chains sixteen of the sphlib
    functions in the order the previous block's hash selects ([HashX16R] of
    [src/src/hash.h]), and the weight of blocks and transactions
    ([src/src/consensus/validation.h]).  sphlib is the class [SphHash]. *)

From Stdlib Require Import ZArith Lia.
From stdpp Require Import list option.
From S2P Require Import Prelude Common Crypto Serialize Transaction Coins.

Open Scope Z_scope.
Open Scope word_scope.

(** The 512-bit functions of sphlib: initialise, add the message, close. *)
Class SphHash := {
  sph_blake512 : list Z → list Z;
  sph_bmw512 : list Z → list Z;
  sph_groestl512 : list Z → list Z;
  sph_jh512 : list Z → list Z;
  sph_keccak512 : list Z → list Z;
  sph_skein512 : list Z → list Z;
  sph_luffa512 : list Z → list Z;
  sph_cubehash512 : list Z → list Z;
  sph_shavite512 : list Z → list Z;
  sph_simd512 : list Z → list Z;
  sph_echo512 : list Z → list Z;
  sph_hamsi512 : list Z → list Z;
  sph_fugue512 : list Z → list Z;
  sph_shabal512 : list Z → list Z;
  sph_whirlpool : list Z → list Z;
  sph_sha512 : list Z → list Z
}.

(** ** Data *)

Record CBlockHeader := {
  hVersion : Z;
  hashPrevBlock : list Z;
  hMerkleRoot : list Z;
  hTime : Z;
  hBits : Z;
  hNonce : Z
}.

Record CBlock := {
  header : CBlockHeader;
  vtx : list CTransaction;
  fChecked : bool
}.

Definition CBlockHeader_null : CBlockHeader :=
  {| hVersion := 0; hashPrevBlock := uint256_null; hMerkleRoot := uint256_null; hTime := 0; hBits := 0; hNonce := 0 |}.

Definition CBlockHeader_IsNull (h : CBlockHeader) : bool := hBits h =? 0.

Definition GetBlockTime (h : CBlockHeader) : Z := hTime h.

Definition new_block (h : CBlockHeader) : CBlock := {| header := h; vtx := []; fChecked := false |}.

Definition GetBlockHeader (b : CBlock) : CBlockHeader := header b.

(** ** Serialization *)

Definition ser_CBlockHeader : Codec CBlockHeader :=
  ser_via (λ h, (hVersion h, (hashPrevBlock h, (hMerkleRoot h, (hTime h, (hBits h, hNonce h))))))
    (λ p, {| hVersion := p.1; hashPrevBlock := p.2.1; hMerkleRoot := p.2.2.1; hTime := p.2.2.2.1;
             hBits := p.2.2.2.2.1; hNonce := p.2.2.2.2.2 |})
    (ser_pair ser_int32 (ser_pair ser_uint256 (ser_pair ser_uint256 (ser_pair ser_uint32 (ser_pair ser_uint32 ser_uint32))))).

(** A transaction through [CTransactionRef]; its format depends on the stream's version. *)
Definition ser_CTransaction (version : Z) : Codec CTransaction := {|
  Serialize := SerializeTransaction version;
  Unserialize := UnserializeTransaction version;
  GetSerializeSize := TransactionSize version |}.

Definition sizeof_CTransactionRef : Z := 16.

Definition ser_CBlock (version : Z) : Codec CBlock :=
  ser_via (λ b, (header b, vtx b)) (λ p, {| header := p.1; vtx := p.2; fChecked := false |})
    (ser_pair ser_CBlockHeader (ser_vector (5000000 / sizeof_CTransactionRef) (ser_CTransaction version))).

Definition GetTransactionWeight (tx : CTransaction) : Z :=
  TransactionSize (PROTOCOL_VERSION .| SERIALIZE_TRANSACTION_NO_WITNESS) tx * (WITNESS_SCALE_FACTOR - 1)
  + TransactionSize PROTOCOL_VERSION tx.

Definition GetBlockWeight (b : CBlock) : Z :=
  GetSerializeSize (ser_CBlock (PROTOCOL_VERSION .| SERIALIZE_TRANSACTION_NO_WITNESS)) b * (WITNESS_SCALE_FACTOR - 1)
  + GetSerializeSize (ser_CBlock PROTOCOL_VERSION) b.

(** ** The hash of a header *)

Definition GetNibble (data : list Z) (index : Z) : Z :=
  let index := 63 - index in
  if index mod 2 =? 1 then (data.[Z.to_nat (index / 2)]) .>> 4
  else (data.[Z.to_nat (index / 2)]) .& 0x0F.

Definition GetHashSelection (PrevBlockHash : list Z) (index : Z) : option Z :=
  if negb (0 <=? index) then None
  else if negb (index <? 16) then None
  else Some (GetNibble PrevBlockHash (48 + index)).

Definition trim256 (data : list Z) : list Z := take 32 data.

Section Hash.
Context `{SphHash}.

Definition select_hash (hashSelection : Z) (toHash : list Z) (unset : list Z) : list Z :=
  match hashSelection with
  | 0 => sph_blake512 toHash
  | 1 => sph_bmw512 toHash
  | 2 => sph_groestl512 toHash
  | 3 => sph_jh512 toHash
  | 4 => sph_keccak512 toHash
  | 5 => sph_skein512 toHash
  | 6 => sph_luffa512 toHash
  | 7 => sph_cubehash512 toHash
  | 8 => sph_shavite512 toHash
  | 9 => sph_simd512 toHash
  | 10 => sph_echo512 toHash
  | 11 => sph_hamsi512 toHash
  | 12 => sph_fugue512 toHash
  | 13 => sph_shabal512 toHash
  | 14 => sph_whirlpool toHash
  | 15 => sph_sha512 toHash
  | _ => unset
  end.

(** The loop from [i]; [toHash] is the input of this round, the previous digest after the first. *)
Fixpoint X16R_loop (n : nat) (i : Z) (toHash PrevBlockHash : list Z) : option (list Z) :=
  match n with
  | O => Some toHash
  | S n =>
      hashSelection ← GetHashSelection PrevBlockHash i;
      X16R_loop n (i + 1) (select_hash hashSelection toHash (replicate 64 0)) PrevBlockHash
  end.

Definition HashX16R (data PrevBlockHash : list Z) : option (list Z) :=
  trim256 <$> X16R_loop 16 0 data PrevBlockHash.

(** The bytes of the header in memory are its serialization. *)
Definition BlockHeader_GetHash (h : CBlockHeader) : option (list Z) :=
  HashX16R (Serialize ser_CBlockHeader h) (hashPrevBlock h).
End Hash.

(** ** Round trips *)

Definition header_ok (h : CBlockHeader) : Prop :=
  is_int 32 (hVersion h) ∧ uint256_ok (hashPrevBlock h) ∧ uint256_ok (hMerkleRoot h) ∧
  is_word 32 (hTime h) ∧ is_word 32 (hBits h) ∧ is_word 32 (hNonce h).

#[export] Instance ser_CBlockHeader_ok : Codec_ok ser_CBlockHeader header_ok.
Proof. eapply ser_via_ok; [| |apply _]; by intros []. Qed.

#[export] Instance ser_CBlockHeader_canonical : Codec_canonical ser_CBlockHeader header_ok.
Proof. eapply ser_via_canonical; [| |apply _]; by intros (? & ? & ? & ? & ? & ?). Qed.

Lemma SerializeTransaction_bytes (version : Z) (tx : CTransaction) :
  tx_ok tx → bytes_ok (SerializeTransaction version tx).
Proof.
  intros Htx. pose proof Htx as (Hi & Ho & Hv & Hl). rewrite SerializeTransaction_format.
  assert (bytes_ok (Serialize ser_vin (vin tx))) as Hvin.
  { rewrite <- ser_vin_strip. apply (ser_bytes_ok (c := ser_vin)). by apply vin_strip_ok. }
  assert (bytes_ok (concat (Serialize ser_witness <$> (scriptWitness <$> vin tx)))) as Hw.
  { clear -Hi. destruct Hi as [Hi _]. induction Hi as [|i ins [_ Hwi] _ IH]; rewrite ?fmap_cons; [done|]. apply Forall_app_2; [|done].
    by apply (ser_bytes_ok (c := ser_witness)). }
  pose proof (ser_bytes_ok (c := ser_int32) _ Hv). pose proof (ser_bytes_ok (c := ser_vout) _ Ho).
  pose proof (ser_bytes_ok (c := ser_uint32) _ Hl).
  destruct (_ && _); unfold basic_format, extended_format; rewrite !Forall_app; split_and!; try done.
  by apply bytes_okb_ok.
Qed.

(** A transaction as it can be inside a block read with witnesses. *)
Definition block_tx_ok (tx : CTransaction) : Prop := tx_ok tx ∧ (vin tx ≠ [] ∨ vout tx = []).

Lemma ser_CTransaction_ok (version : Z) :
  allow_witness version = true → Codec_ok (ser_CTransaction version) block_tx_ok.
Proof.
  intros Ha. split; cbn [Serialize Unserialize GetSerializeSize ser_CTransaction].
  - intros tx rest [Htx Hne]. rewrite UnserializeTransaction_app by done. by rewrite Ha.
  - intros tx [Htx _]. by apply TransactionSize_length.
  - intros tx [Htx _]. by apply SerializeTransaction_bytes.
Qed.

Definition block_ok (b : CBlock) : Prop :=
  header_ok (header b) ∧ vector_ok block_tx_ok (vtx b).

Lemma ser_CBlock_ok (version : Z) :
  allow_witness version = true → Codec_ok (ser_CBlock version) (λ b, block_ok b ∧ fChecked b = false).
Proof.
  intros Ha. pose proof (ser_CTransaction_ok version Ha) as Ht.
  eapply ser_via_ok; cycle 2.
  - apply ser_pair_ok; [apply _|]. refine (proj1 (ser_vector_laws _ _ _ _ Ht)). by vm_compute.
  - intros [? ? ?] [_ E]. cbn in *. by rewrite E.
  - intros b [Hb _]. exact Hb.
Qed.

(** ** X16R *)

Lemma GetNibble_range (data : list Z) (index : Z) : bytes_ok data → 0 <= GetNibble data index < 16.
Proof.
  intros Hb. unfold GetNibble. set (i := Z.to_nat _). assert (0 <= data.[i] < 256) as Hr.
  { destruct (decide (i < length data)%nat); [by apply (Forall_aget is_byte)|]. rewrite aget_over by lia. lia. }
  destruct (_ =? 1).
  - rewrite shr_div by lia. change (2 ^ 4) with 16. split; [apply Z.div_pos; lia|apply Z.div_lt_upper_bound; lia].
  - change 0x0F with (Z.ones 4). rewrite Z.land_ones by lia. apply Z.mod_pos_bound. lia.
Qed.

(** *** The published description

    The functions in the order of X16R, and the digits of the hash as it is displayed, the last byte first. *)

Definition x16r_functions `{SphHash} : list (list Z → list Z) :=
  [sph_blake512; sph_bmw512; sph_groestl512; sph_jh512; sph_keccak512; sph_skein512; sph_luffa512; sph_cubehash512;
   sph_shavite512; sph_simd512; sph_echo512; sph_hamsi512; sph_fugue512; sph_shabal512; sph_whirlpool; sph_sha512].

Definition hex_digits (hash : list Z) : list Z := concat ((λ b, [b / 16; b mod 16]) <$> reverse hash).

(** One function per digit, each applied to the result of the one before. *)
Definition X16R_reference `{SphHash} (digits : list Z) (data : list Z) : list Z :=
  foldl (λ d digit, nth (Z.to_nat digit) x16r_functions id d) data digits.

Lemma select_hash_table `{SphHash} (sel : Z) (data u : list Z) :
  0 <= sel < 16 → select_hash sel data u = nth (Z.to_nat sel) x16r_functions id data.
Proof.
  intros Hs. assert (sel ∈ (Z.of_nat <$> seq 0 16)) as Hin.
  { apply list_elem_of_fmap. exists (Z.to_nat sel). split; [lia|]. apply elem_of_seq. lia. }
  cbn in Hin. repeat (apply elem_of_cons in Hin as [->|Hin]; [done|]). by apply not_elem_of_nil in Hin.
Qed.

(** The nibbles the source reads are the digits. *)
Lemma GetNibble_digits (prev : list Z) :
  length prev = 32%nat → (λ k, GetNibble prev (Z.of_nat k)) <$> seq 48 16 = drop 48 (hex_digits prev).
Proof.
  intros Hl. assert (∀ b, b .& 0x0F = b mod 16) as Elo by (intros b; apply (Z.land_ones _ 4); lia).
  assert (∀ b, b .>> 4 = b / 16) as Ehi by (intros b; by rewrite shr_div).
  do 32 (destruct prev as [|? prev]; [done|]). destruct prev; [|done].
  cbn [seq fmap list_fmap]. unfold GetNibble. cbn -[Z.shiftr Z.land Z.div Z.modulo]. cbn [Z.sub Z.modulo Z.div Z.eqb]. by rewrite !Elo, !Ehi.
Qed.

Lemma X16R_loop_ok `{SphHash} (n : nat) (i : Z) (data prev : list Z) :
  bytes_ok prev → 0 <= i → i + n <= 16 →
  X16R_loop n i data prev =
  Some (X16R_reference ((λ k, GetNibble prev (48 + i + Z.of_nat k)) <$> seq 0 n) data).
Proof.
  intros Hb. revert i data. induction n as [|n IH]; intros i data Hi Hn; [done|]. cbn [X16R_loop].
  unfold GetHashSelection. rewrite (proj2 (Z.leb_le 0 i)), (proj2 (Z.ltb_lt i 16)) by lia. cbn [negb]. ocbn.
  rewrite IH by lia. cbn [seq fmap list_fmap]. rewrite Z.add_0_r.
  rewrite select_hash_table by (by apply GetNibble_range). unfold X16R_reference. cbn [foldl]. do 2 f_equal.
  rewrite <- fmap_S_seq, <- list_fmap_compose. apply list_fmap_ext. intros _ k _. cbn. f_equal. lia.
Qed.

Lemma HashX16R_ok `{SphHash} (data prev : list Z) :
  bytes_ok prev → length prev = 32%nat → HashX16R data prev = Some (take 32 (X16R_reference (drop 48 (hex_digits prev)) data)).
Proof.
  intros Hb Hl. unfold HashX16R. rewrite X16R_loop_ok by (done || lia). ocbn. unfold trim256. rewrite <- GetNibble_digits by done. do 3 f_equal.
Qed.

(** ** Sizes *)

Lemma GetSizeOfCompactSize_length (k : Z) : 0 <= k < 2 ^ 64 → GetSizeOfCompactSize k = length (WriteCompactSize k).
Proof.
  intros Hk. unfold GetSizeOfCompactSize, WriteCompactSize.
  repeat case_if; bool_to_prop; rewrite ?length_app; cbn; done || lia.
Qed.

Lemma block_size (version : Z) (b : CBlock) :
  block_ok b → GetSerializeSize (ser_CBlock version) b = length (Serialize (ser_CBlock version) b).
Proof.
  intros [Hh [Htx Hl]]. cbn [GetSerializeSize Serialize ser_CBlock ser_via ser_pair ser_vector fst snd].
  change (GetSerializeSize ser_CBlockHeader (header b) + (GetSizeOfCompactSize (length (vtx b)) +
    foldr (λ a acc, TransactionSize version a + acc) 0 (vtx b)) =
    length (Serialize ser_CBlockHeader (header b) ++ WriteCompactSize (length (vtx b)) ++
      concat (SerializeTransaction version <$> vtx b))).
  rewrite ser_size, GetSizeOfCompactSize_length by (done || unfold MAX_SIZE in Hl; lia).
  rewrite !length_app, !Nat2Z.inj_add. do 2 f_equal. clear Hl.
  induction Htx as [|tx txs [Htx _] _ IH]; [done|]. cbn [foldr fmap list_fmap concat].
  change (list_fmap _ _ _) with (SerializeTransaction version <$> txs).
  rewrite length_app, Nat2Z.inj_add, <- IH. by rewrite TransactionSize_length.
Qed.

(** The stripped bytes count four times, the bytes of witnesses once. *)
Lemma GetBlockWeight_ok (b : CBlock) :
  block_ok b →
  GetBlockWeight b =
  length (Serialize (ser_CBlock (PROTOCOL_VERSION .| SERIALIZE_TRANSACTION_NO_WITNESS)) b) * 3 +
  length (Serialize (ser_CBlock PROTOCOL_VERSION) b).
Proof. intros Hb. unfold GetBlockWeight. by rewrite !block_size. Qed.

(** ** The properties *)

(** a block read back from its serialization is the block written, unchecked, and the rest of the
    stream is left; the announced size is the number of bytes written. *)
Theorem CBlock_roundtrip (version : Z) (b : CBlock) (rest : list Z) :
  allow_witness version = true → block_ok b →
  Unserialize (ser_CBlock version) (Serialize (ser_CBlock version) b ++ rest) =
    Some ({| header := header b; vtx := vtx b; fChecked := false |}, rest) ∧
  GetSerializeSize (ser_CBlock version) b = length (Serialize (ser_CBlock version) b).
Proof.
  intros Ha Hb. split; [|by apply block_size].
  by apply (ser_roundtrip (Codec_ok := ser_CBlock_ok version Ha) {| header := header b; vtx := vtx b; fChecked := false |}).
Qed.

(** C28: the hash of a header is always defined: it is the first 32 bytes of the chain of sixteen
    functions of the library that the last sixteen hexadecimal digits of the previous
    block's hash, as it is displayed, select from the table of X16R, applied to the 80 serialized bytes: the version, the previous
    hash, the Merkle root, the time, the target and the nonce, the numbers least significant byte first. *)
Theorem BlockHeader_GetHash_correct `{SphHash} (h : CBlockHeader) :
  header_ok h →
  let bytes := WriteLE32 (hVersion h) ++ hashPrevBlock h ++ hMerkleRoot h ++ WriteLE32 (hTime h) ++ WriteLE32 (hBits h) ++ WriteLE32 (hNonce h) in
  let digits := drop 48 (hex_digits (hashPrevBlock h)) in
  BlockHeader_GetHash h = Some (take 32 (X16R_reference digits bytes)) ∧
  length digits = 16%nat ∧ Forall (λ digit, 0 <= digit < 16) digits ∧ length bytes = 80%nat.
Proof.
  intros Hh bytes digits. pose proof Hh as (_ & [Hl1 Hb] & [Hl2 _] & _).
  assert (Serialize ser_CBlockHeader h = bytes) as Es by done.
  unfold BlockHeader_GetHash. rewrite Es. split; [by apply HashX16R_ok|]. unfold digits. rewrite <- GetNibble_digits by done.
  split; [done|]. split; [apply Forall_fmap, list.Forall_forall; intros k _; by apply GetNibble_range|].
  unfold bytes. rewrite !length_app, !length_WriteLE32, Hl1, Hl2. done.
Qed.

(** ** Witnesses *)

Definition demo_header : CBlockHeader :=
  {| hVersion := 4; hashPrevBlock := replicate 24 0 ++ [1; 2; 3; 4; 5; 6; 7; 0xa8]; hMerkleRoot := replicate 32 5;
     hTime := 1000; hBits := 0x1e00ffff; hNonce := 7 |}.

Definition demo_block : CBlock :=
  {| header := demo_header; vtx := [demo_tx [[1; 2]; []]; demo_tx []]; fChecked := true |}.

Lemma demo_header_ok : header_ok demo_header.
Proof.
  split; [by split|]. split; [split; [done|by apply bytes_okb_ok]|]. split; [split; [done|by apply bytes_okb_ok]|].
  by split.
Qed.

Lemma demo_block_ok : block_ok demo_block.
Proof.
  split; [apply demo_header_ok|]. split; [|cbn; unfold MAX_SIZE; lia].
  constructor; [|constructor; [|done]]; (split; [apply demo_tx_ok|by left]).
  - apply demo_witness_ok.
  - by split.
Qed.

Definition toy_sph : SphHash :=
  let f (k : Z) (x : list Z) := k :: checksum 63 x in
  {| sph_blake512 := f 0; sph_bmw512 := f 1; sph_groestl512 := f 2; sph_jh512 := f 3; sph_keccak512 := f 4;
     sph_skein512 := f 5; sph_luffa512 := f 6; sph_cubehash512 := f 7; sph_shavite512 := f 8; sph_simd512 := f 9;
     sph_echo512 := f 10; sph_hamsi512 := f 11; sph_fugue512 := f 12; sph_shabal512 := f 13; sph_whirlpool := f 14;
     sph_sha512 := f 15 |}.

Lemma CBlock_roundtrip_witness :
  Unserialize (ser_CBlock 0) (Serialize (ser_CBlock 0) demo_block ++ [9]) =
    Some ({| header := demo_header; vtx := vtx demo_block; fChecked := false |}, [9]) ∧
  GetSerializeSize (ser_CBlock 0) demo_block = length (Serialize (ser_CBlock 0) demo_block).
Proof. apply (CBlock_roundtrip 0 demo_block [9]); [reflexivity|apply demo_block_ok]. Defined.

Lemma BlockHeader_GetHash_correct_witness :
  ∃ hash, BlockHeader_GetHash (H := toy_sph) demo_header = Some hash ∧ length hash = 32%nat ∧
    hash.[0] = GetNibble (hashPrevBlock demo_header) 63.
Proof.
  destruct (BlockHeader_GetHash_correct (H := toy_sph) demo_header demo_header_ok) as (-> & _ & _).
  eexists. split; [reflexivity|]. split; vm_compute; reflexivity.
Defined.
