(* ===== verification/Merkle.v ===== *)
(** * Merkle trees ([src/src/consensus/merkle.cpp])

    The constant-space computation of the root, of a branch and of the mutation
    flag, the check of a branch, and the trees of a block's transactions and
    witnesses.  The reference computation of [src/src/test/merkle_tests.cpp], which
    builds the whole tree level by level, is modelled beside it. *)

From Stdlib Require Import ZArith Lia.
From stdpp Require Import list option.
From S2P Require Import Prelude Common Crypto Serialize Transaction Block.

Open Scope Z_scope.
Open Scope word_scope.

(** ** [MerkleComputation] *)

Section Merkle.
Context `{CryptoHash}.

(** [CHash256().Write(a).Write(b).Finalize], also [Hash(a, b)]. *)
Definition hash_pair (a b : list Z) : list Z := CHash256 (a ++ b).

(** The local variables of the computation; [inner] is the array of 32 hashes. *)
Record MState := {
  inner : list (list Z);
  matchlevel : Z;
  mutated : bool;
  branch : list (list Z)
}.

Definition inner_at (st : MState) (level : nat) : list Z := default uint256_null (inner st !! level).

(** The test [!(count & (1 << level))] of both loops. *)
Definition bit_clear (count : Z) (level : nat) : bool := count .& u32 (1 .<< level) =? 0.

(** What a combining step appends to the branch, and whether the combined hash depends
    on the leaf. *)
Definition match_step (pbranch matchh : bool) (level : nat) (h : list Z) (st : MState) : bool * list (list Z) :=
  if pbranch then
    if matchh then (true, branch st ++ [inner_at st level])
    else if matchlevel st =? level then (true, branch st ++ [h])
    else (matchh, branch st)
  else (matchh, branch st).

(** The loop that combines a new leaf with the subtrees it completes. *)
Fixpoint combine_loop (fuel : nat) (pbranch : bool) (count : Z) (level : nat) (h : list Z) (matchh : bool) (st : MState) :
    nat * list Z * bool * MState :=
  match fuel with
  | O => (level, h, matchh, st)
  | S fuel =>
      if bit_clear count level then
        let '(matchh, br) := match_step pbranch matchh level h st in
        let st' := {| inner := inner st; matchlevel := matchlevel st;
                      mutated := mutated st || bool_decide (inner_at st level = h); branch := br |} in
        combine_loop fuel pbranch count (S level) (hash_pair (inner_at st level) h) matchh st'
      else (level, h, matchh, st)
  end.

(** One leaf; [count] is the number of leaves before it. *)
Definition add_leaf (pbranch : bool) (branchpos count : Z) (leaf : list Z) (st : MState) : MState :=
  let matchh := count =? branchpos in
  let count := u32 (count + 1) in
  let '(level, h, matchh, st) := combine_loop 32 pbranch count 0 leaf matchh st in
  {| inner := <[level := h]> (inner st); matchlevel := if matchh then Z.of_nat level else matchlevel st;
     mutated := mutated st; branch := branch st |}.

Fixpoint add_leaves (pbranch : bool) (branchpos count : Z) (leaves : list (list Z)) (st : MState) : MState :=
  match leaves with
  | [] => st
  | leaf :: leaves => add_leaves pbranch branchpos (u32 (count + 1)) leaves (add_leaf pbranch branchpos count leaf st)
  end.

(** The first level with something left. *)
Fixpoint lowest_level (fuel : nat) (count : Z) (level : nat) : nat :=
  match fuel with
  | O => level
  | S fuel => if bit_clear count level then lowest_level fuel count (S level) else level
  end.

(** The loop of the sweep that propagates upwards; it does not set the mutation flag. *)
Fixpoint propagate_loop (fuel : nat) (pbranch : bool) (count : Z) (level : nat) (h : list Z) (matchh : bool) (st : MState) :
    nat * list Z * bool * MState :=
  match fuel with
  | O => (level, h, matchh, st)
  | S fuel =>
      if bit_clear count level then
        let '(matchh, br) := match_step pbranch matchh level h st in
        let st' := {| inner := inner st; matchlevel := matchlevel st; mutated := mutated st; branch := br |} in
        propagate_loop fuel pbranch count (S level) (hash_pair (inner_at st level) h) matchh st'
      else (level, h, matchh, st)
  end.

Fixpoint sweep_loop (fuel : nat) (pbranch : bool) (count : Z) (level : nat) (h : list Z) (matchh : bool) (st : MState) :
    list Z * MState :=
  match fuel with
  | O => (h, st)
  | S fuel =>
      if negb (count =? u32 (1 .<< level)) then
        let br := if pbranch && matchh then branch st ++ [h] else branch st in
        let st := {| inner := inner st; matchlevel := matchlevel st; mutated := mutated st; branch := br |} in
        let count := u32 (count + u32 (1 .<< level)) in
        let '(level, h, matchh, st) := propagate_loop 32 pbranch count (S level) (hash_pair h h) matchh st in
        sweep_loop fuel pbranch count level h matchh st
      else (h, st)
  end.

(** The root, the mutation flag and the branch. *)
Definition MerkleComputation (leaves : list (list Z)) (branchpos : Z) (pbranch : bool) :
    list Z * bool * list (list Z) :=
  if (length leaves =? 0)%nat then (uint256_null, false, [])
  else
    let st := add_leaves pbranch branchpos 0 leaves
      {| inner := replicate 32 uint256_null; matchlevel := -1; mutated := false; branch := [] |} in
    let count := u32 (length leaves) in
    let level := lowest_level 32 count 0 in
    let '(h, st) := sweep_loop 32 pbranch count level (inner_at st level) (matchlevel st =? level) st in
    (h, mutated st, branch st).

Definition ComputeMerkleRoot (leaves : list (list Z)) : list Z * bool :=
  let '(root, mutated, _) := MerkleComputation leaves (u32 (-1)) false in (root, mutated).

Definition ComputeMerkleBranch (leaves : list (list Z)) (position : Z) : list (list Z) :=
  let '(_, _, branch) := MerkleComputation leaves position true in branch.

Fixpoint ComputeMerkleRootFromBranch (hash : list Z) (vMerkleBranch : list (list Z)) (nIndex : Z) : list Z :=
  match vMerkleBranch with
  | [] => hash
  | b :: vMerkleBranch =>
      let hash := if negb (nIndex .& 1 =? 0) then hash_pair b hash else hash_pair hash b in
      ComputeMerkleRootFromBranch hash vMerkleBranch (nIndex .>> 1)
  end.

(** ** The trees of a block *)

Definition BlockMerkleRoot (b : CBlock) : list Z * bool := ComputeMerkleRoot (GetHash <$> vtx b).

(** The coinbase counts as zero; writing to [leaves[0]] needs a transaction. *)
Definition BlockWitnessMerkleRoot (b : CBlock) : option (list Z * bool) :=
  match vtx b with
  | [] => None
  | _ :: txs => Some (ComputeMerkleRoot (uint256_null :: (GetWitnessHash <$> txs)))
  end.

Definition BlockMerkleBranch (b : CBlock) (position : Z) : list (list Z) :=
  ComputeMerkleBranch (GetHash <$> vtx b) position.

(** ** The reference of the tests *)

Definition tree_at (tree : list (list Z)) (i : nat) : list Z := default uint256_null (tree !! i).

(** The loop over [i] of one level, by steps of two. *)
Fixpoint build_level (fuel : nat) (nSize j i : nat) (tree : list (list Z)) (mut : bool) : list (list Z) * bool :=
  match fuel with
  | O => (tree, mut)
  | S fuel =>
      if (i <? nSize)%nat then
        let i2 := Nat.min (i + 1) (nSize - 1) in
        let mut := if ((i2 =? i + 1) && (i2 + 1 =? nSize))%nat && bool_decide (tree_at tree (j + i) = tree_at tree (j + i2))
                   then true else mut in
        build_level fuel nSize j (i + 2) (tree ++ [hash_pair (tree_at tree (j + i)) (tree_at tree (j + i2))]) mut
      else (tree, mut)
  end.

Fixpoint build_levels (fuel nSize j : nat) (tree : list (list Z)) (mut : bool) : list (list Z) * bool :=
  match fuel with
  | O => (tree, mut)
  | S fuel =>
      if (1 <? nSize)%nat then
        let '(tree, mut) := build_level nSize nSize j 0 tree mut in
        build_levels fuel ((nSize + 1) / 2) (j + nSize) tree mut
      else (tree, mut)
  end.

Definition BuildMerkleTree (leaves : list (list Z)) : list Z * bool * list (list Z) :=
  let '(tree, mut) := build_levels (length leaves) (length leaves) 0 leaves false in
  (default uint256_null (list.last tree), mut, tree).

Fixpoint get_branch_loop (fuel : nat) (tree : list (list Z)) (nIndex : Z) (nSize j : nat) : list (list Z) :=
  match fuel with
  | O => []
  | S fuel =>
      if (1 <? nSize)%nat then
        let i := Nat.min (Z.to_nat (nIndex .^ 1)) (nSize - 1) in
        tree_at tree (j + i) :: get_branch_loop fuel tree (nIndex .>> 1) ((nSize + 1) / 2) (j + nSize)
      else []
  end.

Definition GetMerkleBranch (leaves tree : list (list Z)) (nIndex : Z) : list (list Z) :=
  get_branch_loop (length leaves) tree nIndex (length leaves) 0.
End Merkle.

(** ** The tree by levels *)

Section Levels.
Context `{CryptoHash}.

(** One level from the level below: the last hash of an odd level is paired with itself. *)
Fixpoint merkle_level (hs : list (list Z)) : list (list Z) :=
  match hs with
  | [] => []
  | [a] => [hash_pair a a]
  | a :: b :: hs => hash_pair a b :: merkle_level hs
  end.

Fixpoint levels (k : nat) (leaves : list (list Z)) : list (list Z) :=
  match k with O => leaves | S k => merkle_level (levels k leaves) end.

(** Induction two elements at a time. *)
Lemma list_pair_ind {A : Type} (P : list A → Prop) :
  P [] → (∀ a, P [a]) → (∀ a b l, P l → P (a :: b :: l)) → ∀ l, P l.
Proof.
  intros H0 H1 H2 l. enough (P l ∧ ∀ a, P (a :: l)) by tauto.
  induction l as [|b l [IH1 IH2]]; split; auto.
Qed.

Lemma length_merkle_level (hs : list (list Z)) :
  Z.of_nat (length (merkle_level hs)) = (length hs + 1) / 2.
Proof.
  induction hs as [| |a b hs IH] using list_pair_ind; [done..|]. cbn [merkle_level length].
  rewrite !Nat2Z.inj_succ, IH. replace (Z.succ (Z.succ (length hs)) + 1) with (length hs + 1 + 1 * 2) by lia.
  rewrite Z.div_add by lia. lia.
Qed.

Lemma tree_at_merkle_level (hs : list (list Z)) (i : nat) :
  (2 * i < length hs)%nat →
  tree_at (merkle_level hs) i = hash_pair (tree_at hs (2 * i)) (tree_at hs (Nat.min (2 * i + 1) (length hs - 1))).
Proof.
  revert i. induction hs as [|a|a b hs IH] using list_pair_ind; intros i Hi; cbn [length] in *; [lia| |].
  - by replace i with 0%nat by lia.
  - cbn [merkle_level]. destruct i as [|i]; [done|].
    replace (2 * S i)%nat with (S (S (2 * i))) by lia. unfold tree_at in *. cbn [lookup list_lookup].
    change (list_lookup i (merkle_level hs)) with (merkle_level hs !! i). rewrite IH by lia.
    destruct hs as [|c hs]; [cbn in *; lia|]. cbn [length] in *.
    replace (Nat.min (S (S (2 * i)) + 1) (S (S (S (length hs))) - 1)) with (S (S (Nat.min (2 * i + 1) (S (length hs) - 1)))) by lia.
    done.
Qed.
End Levels.

Section Tree.
Context `{CryptoHash}.
Variable leaves : list (list Z).
Abbreviation n := (Z.of_nat (length leaves)).

(** The hash at a position of a level. *)
Definition node (k : nat) (i : Z) : list Z := tree_at (levels k leaves) (Z.to_nat i).

Definition level_length (k : nat) : Z := length (levels k leaves).

Lemma level_length_S (k : nat) : level_length (S k) = (level_length k + 1) / 2.
Proof. apply length_merkle_level. Qed.

Lemma level_length_bounds (k : nat) :
  1 <= n → 2 ^ k * (level_length k - 1) < n <= 2 ^ k * level_length k.
Proof.
  intros Hn. induction k as [|k IH]; [unfold level_length; cbn [levels]; lia|].
  rewrite level_length_S, Nat2Z.inj_succ, Z.pow_succ_r by lia.
  pose proof (Z.div_mod (level_length k + 1) 2 ltac:(lia)). pose proof (Z.mod_pos_bound (level_length k + 1) 2 ltac:(lia)).
  assert (0 < 2 ^ k) by (apply Z.pow_pos_nonneg; lia). nia.
Qed.

Lemma node_pair (k : nat) (i : Z) :
  0 <= i → 2 * i + 1 < level_length k →
  node (S k) i = hash_pair (node k (2 * i)) (node k (2 * i + 1)).
Proof.
  unfold level_length, node. intros Hi Hl. cbn [levels]. rewrite tree_at_merkle_level by lia.
  f_equal; f_equal; lia.
Qed.

Lemma node_odd (k : nat) (i : Z) :
  0 <= i → 2 * i + 1 = level_length k → node (S k) i = hash_pair (node k (2 * i)) (node k (2 * i)).
Proof.
  unfold level_length, node. intros Hi Hl. cbn [levels]. rewrite tree_at_merkle_level by lia.
  f_equal; f_equal; lia.
Qed.

(** A block of [2 ^ k] leaves that ends within the leaves is a position of the level. *)
Lemma level_length_full (k : nat) (m : Z) : 1 <= n → 2 ^ k * m <= n → m <= level_length k.
Proof. intros Hn Hm. pose proof (level_length_bounds k Hn). nia. Qed.

(** ** The binary counter *)

Lemma bit_clear_even (count : Z) (level : nat) (m : Z) :
  (level < 32)%nat → count = 2 ^ level * m → bit_clear count level = Z.even m.
Proof.
  intros Hl ->. unfold bit_clear. rewrite shl_mul by lia. rewrite Z.mul_1_l. unfold u32.
  assert (0 < 2 ^ level < 2 ^ 32) by (split; [apply Z.pow_pos_nonneg; lia|apply Z.pow_lt_mono_r; lia]).
  rewrite wrap_small by (unfold is_word; lia).
  assert (Z.testbit (2 ^ level * m) level = Z.odd m) as Hb.
  { rewrite Z.mul_comm, Z.mul_pow2_bits, Z.sub_diag by lia. apply Z.bit0_odd. }
  rewrite <- Z.negb_odd, <- Hb. destruct (Z.testbit _ _) eqn:E; cbn [negb].
  - apply Z.eqb_neq. intros E0. assert (Z.testbit (2 ^ level * m .& 2 ^ level) level = false) as E1 by (rewrite E0; apply Z.bits_0).
    rewrite Z.land_spec, E, Z.pow2_bits_true in E1 by lia. done.
  - apply Z.eqb_eq, Z.bits_inj'. intros j Hj. rewrite Z.land_spec, Z.bits_0.
    destruct (decide (j = level)) as [->|Hne]; [by rewrite E|]. rewrite Z.pow2_bits_false by lia. by rewrite andb_false_r.
Qed.

(** Above an odd multiple [2 ^ level * m] the counter does not change in the last step. *)
Lemma div_above (x m : Z) (level k : nat) :
  Z.odd m = true → 2 ^ level * (m - 1) <= x <= 2 ^ level * m → (level < k)%nat → x / 2 ^ k = m / 2 / 2 ^ (Z.of_nat k - level - 1).
Proof.
  intros Hm Hx Hk. assert (0 < 2 ^ level) by (apply Z.pow_pos_nonneg; lia).
  replace (Z.of_nat k) with (level + 1 + (Z.of_nat k - level - 1)) at 1 by lia.
  rewrite !Z.pow_add_r by lia. rewrite <- !Z.div_div by (try apply Z.pow_nonzero; try apply Z.pow_pos_nonneg; lia). f_equal.
  change (2 ^ 1) with 2. apply Z.odd_spec in Hm as [q ->].
  assert (x / 2 ^ level = 2 * q ∨ x / 2 ^ level = 2 * q + 1) as [-> | ->].
  { pose proof (Z.div_mod x (2 ^ level) ltac:(lia)). pose proof (Z.mod_pos_bound x (2 ^ level) ltac:(lia)). nia. }
  - Z.to_euclidean_division_equations. lia.
  - done.
Qed.

(** ** Branches *)

Variable p : Z.

(** The sibling of the ancestor of leaf [p] at a level; the last hash of an odd level is its own. *)
Definition sibling (j : nat) : list Z := node j (Z.min (p / 2 ^ j .^ 1) (level_length j - 1)).

Definition siblings (k : nat) : list (list Z) := sibling <$> seq 0 k.

Lemma siblings_S (k : nat) : siblings (S k) = siblings k ++ [sibling k].
Proof. unfold siblings. by rewrite seq_S, fmap_app. Qed.

(** Where leaf [p] is, when the running hash is position [m - 1] of [level] and [c]
    leaves are in the array: under the running hash, under an entry of the array, or still to come. *)
Definition path (c : Z) (level : nat) (m : Z) (matchh : bool) (st : MState) : Prop :=
  (matchh = true ∧ p / 2 ^ level = m - 1 ∧ branch st = siblings level) ∨
  (matchh = false ∧ ∃ ml : nat, (level ≤ ml)%nat ∧ matchlevel st = ml ∧ Z.odd (c / 2 ^ ml) = true ∧
     p / 2 ^ ml = c / 2 ^ ml - 1 ∧ branch st = siblings ml) ∨
  (matchh = false ∧ c < p ∧ matchlevel st = -1 ∧ branch st = []).

Lemma xor_1 (q : Z) : (2 * q) .^ 1 = 2 * q + 1 ∧ (2 * q + 1) .^ 1 = 2 * q.
Proof.
  assert ((2 * q) .^ 1 = 2 * q + 1) as E.
  { rewrite Z.lxor_comm. rewrite <- Z.add_nocarry_lxor; [lia|]. apply Z.bits_inj'. intros j Hj.
    rewrite Z.land_spec, Z.bits_0. destruct (decide (j = 0)) as [->|].
    - rewrite Z.testbit_even_0. by rewrite andb_false_r.
    - change 1 with (2 ^ 0). by rewrite Z.pow2_bits_false by lia. }
  split; [done|]. rewrite <- E, Z.lxor_assoc, Z.lxor_nilpotent. apply Z.lxor_0_r.
Qed.

Lemma half_pow (x : Z) (level : nat) : x / 2 ^ S level = x / 2 ^ level / 2.
Proof.
  rewrite Nat2Z.inj_succ, Z.pow_succ_r by lia. rewrite Z.mul_comm, Z.div_div; [done|apply Z.pow_nonzero; lia|lia].
Qed.

Lemma match_step_ok (c q : Z) (level : nat) (matchh : bool) (st st' : MState) :
  c / 2 ^ level = 2 * q - 1 → 2 * q <= level_length level →
  inner_at st level = node level (2 * (q - 1)) → path c level (2 * q) matchh st →
  let '(mh, br) := match_step true matchh level (node level (2 * (q - 1) + 1)) st in
  matchlevel st' = matchlevel st → branch st' = br → path c (S level) q mh st'.
Proof.
  intros Hc Hl Hi Hp. unfold match_step. destruct (xor_1 (q - 1)) as [X0 X1].
  destruct Hp as [(-> & Hd & Hb)|[(-> & ml & Hml & Em & Hodd & Hd & Hb)|(-> & Hlt & Em & Hb)]].
  - intros _ Eb. left. split; [done|]. split; [rewrite half_pow, Hd; Z.to_euclidean_division_equations; lia|].
    rewrite Eb, Hb, Hi, siblings_S. do 3 f_equal. unfold sibling. rewrite Hd.
    replace (2 * q - 1) with (2 * (q - 1) + 1) by lia. rewrite X1. f_equal. lia.
  - rewrite Em. destruct (Z.of_nat ml =? level) eqn:E; bool_to_prop.
    + assert (ml = level) as -> by lia. intros _ Eb. left. split; [done|]. rewrite Hc in Hd.
      split; [rewrite half_pow, Hd; Z.to_euclidean_division_equations; lia|].
      rewrite Eb, Hb, siblings_S. do 3 f_equal. unfold sibling. rewrite Hd.
      replace (2 * q - 1 - 1) with (2 * (q - 1)) by lia. rewrite X0. f_equal. lia.
    + intros Em' Eb. right; left. split; [done|]. exists ml. split_and!; try done; [lia|congruence].
  - rewrite Em. replace (-1 =? level) with false by (symmetry; apply Z.eqb_neq; lia).
    intros Em' Eb. right; right. split_and!; try done; congruence.
Qed.

(** Between two leaves. *)
Definition path_in (c : Z) (st : MState) : Prop :=
  (∃ ml : nat, matchlevel st = ml ∧ Z.odd (c / 2 ^ ml) = true ∧ p / 2 ^ ml = c / 2 ^ ml - 1 ∧ branch st = siblings ml) ∨
  (c <= p ∧ matchlevel st = -1 ∧ branch st = []).

(** The running hash of an odd position: an entry of the array with the leaf is higher up. *)
Lemma path_odd (c m : Z) (level : nat) (matchh : bool) (st : MState) :
  Z.odd m = true → c / 2 ^ level = m - 1 → path c level m matchh st →
  (matchh = true ∧ p / 2 ^ level = m - 1 ∧ branch st = siblings level) ∨
  (matchh = false ∧ ∃ ml : nat, (level < ml)%nat ∧ matchlevel st = ml ∧ Z.odd (c / 2 ^ ml) = true ∧
     p / 2 ^ ml = c / 2 ^ ml - 1 ∧ branch st = siblings ml) ∨
  (matchh = false ∧ c < p ∧ matchlevel st = -1 ∧ branch st = []).
Proof.
  intros Hm Hc [Hp|[(-> & ml & Hml & Em & Hodd & Hd & Hb)|Hp]]; [by left| |by right; right].
  right; left. split; [done|]. exists ml. split_and!; try done.
  enough (ml ≠ level) by lia. intros ->. rewrite Hc, Z.odd_sub, Hm in Hodd. done.
Qed.

(** ** Processing the leaves *)

(** The subtrees the counter stands for. *)
Definition inner_ok (count : Z) (st : MState) : Prop :=
  length (inner st) = 32%nat ∧
  ∀ k, (k < 32)%nat → Z.odd (count / 2 ^ k) = true → inner_at st k = node k (count / 2 ^ k - 1).

(** Two equal halves of a complete subtree. *)
Definition dup_pair (k : nat) (i : Z) : Prop := 0 <= i ∧ node k (2 * i) = node k (2 * i + 1).

Lemma combine_loop_ok (fuel : nat) (pb : bool) (count m : Z) (level : nat) (matchh : bool) (st : MState) :
  (level + fuel = 32)%nat → count + 1 = 2 ^ level * m → 0 <= count → count + 1 <= n → n < 2 ^ 32 → inner_ok count st →
  let '(level', h', mh', st') := combine_loop fuel pb (count + 1) level (node level (m - 1)) matchh st in
  (level' < 32)%nat ∧ inner st' = inner st ∧ matchlevel st' = matchlevel st ∧
  ∃ m', Z.odd m' = true ∧ count + 1 = 2 ^ level' * m' ∧ h' = node level' (m' - 1) ∧
    (mutated st' = true ↔ mutated st = true ∨
       ∃ k i, (level ≤ k)%nat ∧ dup_pair k i ∧ 2 ^ k * (2 * i + 2) = count + 1) ∧
    (pb = true → path count level m matchh st → path count level' m' mh' st').
Proof.
  revert level m matchh st. induction fuel as [|fuel IH]; intros level m matchh st Hf Hc H0 Hn Hmax Hin.
  { exfalso. replace level with 32%nat in Hc by lia. change (2 ^ 32%nat) with (2 ^ 32) in *. nia. }
  cbn [combine_loop]. rewrite (bit_clear_even _ _ m) by (lia || done).
  assert (0 < 2 ^ level) by (apply Z.pow_pos_nonneg; lia).
  destruct (Z.even m) eqn:Em.
  - apply Z.even_spec in Em as [q ->]. assert (1 <= q) as Hq by nia.
    assert (count / 2 ^ level = 2 * q - 1) as Hd.
    { symmetry. apply (Z.div_unique _ _ _ (2 ^ level - 1)); lia. }
    destruct Hin as [Hlen Hin]. pose proof (Hin level ltac:(lia)) as Hi. rewrite Hd in Hi.
    replace (2 * q - 1) with (2 * (q - 1) + 1) in Hi by lia. rewrite Z.odd_add, Z.odd_mul in Hi. specialize (Hi eq_refl).
    replace (2 * (q - 1) + 1 - 1) with (2 * (q - 1)) in Hi by lia. replace (2 * q - 1) with (2 * (q - 1) + 1) by lia.
    pose proof (level_length_full level (2 * q) ltac:(lia) ltac:(lia)) as Hlen'.
    rewrite Hi, <- node_pair by lia. pose proof (λ st', match_step_ok count q level matchh st st' Hd Hlen' Hi) as Hpath.
    destruct (match_step pb matchh level (node level (2 * (q - 1) + 1)) st) as [mh br] eqn:Ems.
    pose proof (IH (S level) q mh {| inner := inner st; matchlevel := matchlevel st;
        mutated := mutated st || bool_decide (node level (2 * (q - 1)) = node level (2 * (q - 1) + 1)); branch := br |}) as IH'.
    rewrite Nat2Z.inj_succ, Z.pow_succ_r in IH' by lia. specialize (IH' ltac:(lia) ltac:(lia) H0 Hn Hmax).
    specialize (IH' ltac:(split; [exact Hlen|exact Hin])).
    destruct (combine_loop _ _ _ _ _ _ _) as [[[level' h'] mh'] st'].
    destruct IH' as (? & ? & ? & m' & ? & ? & ? & Hmut & Hpath'). split_and!; try done. exists m'. split_and!; try done.
    2:{ intros -> Hp. apply Hpath'; [done|]. specialize (Hpath {| inner := inner st; matchlevel := matchlevel st;
          mutated := mutated st || bool_decide (node level (2 * (q - 1)) = node level (2 * (q - 1) + 1)); branch := br |} Hp).
        rewrite Ems in Hpath. by apply Hpath. }
    rewrite Hmut. cbn [mutated]. rewrite orb_true_iff, bool_decide_eq_true. split.
    + intros [[?|?]|(k & i & ? & ? & ?)]; [by left| |].
      * right. exists level, (q - 1). split; [lia|]. split; [by split; [lia|]|lia].
      * right. exists k, i. split; [lia|done].
    + intros [?|(k & i & Hk & Hd' & He)]; [by left; left|]. destruct (decide (k = level)) as [->|Hne].
      * left. right. destruct Hd' as [? Hd']. by replace (q - 1) with i by nia.
      * right. exists k, i. split; [lia|done].
  - split; [lia|]. split; [done|]. split; [done|]. exists m. rewrite <- Z.negb_even, Em. split_and!; try done.
    split; [by left|]. intros [?|(k & i & Hk & Hd & He)]; [done|]. exfalso. rewrite Hc in He.
    replace (Z.of_nat k) with (level + (Z.of_nat k - level)) in He by lia. rewrite Z.pow_add_r in He by lia.
    assert (m = 2 ^ (Z.of_nat k - level) * (i + 1) * 2) as -> by nia. rewrite Z.even_mul, orb_true_r in Em. done.
Qed.

(** The array, the flag and, when a branch is wanted, the leaf's place after [count] leaves. *)
Definition leaves_inv (pb : bool) (count : Z) (st : MState) : Prop :=
  inner_ok count st ∧
  (mutated st = true ↔ ∃ k i, dup_pair k i ∧ 2 ^ k * (2 * i + 2) <= count) ∧
  (pb = true → path_in count st).

Lemma inner_ok_insert (count m : Z) (level : nat) (st st' : MState) :
  inner_ok count st → (level < 32)%nat → Z.odd m = true → 0 <= count → count + 1 = 2 ^ level * m →
  inner st' = <[level := node level (m - 1)]> (inner st) → inner_ok (count + 1) st'.
Proof.
  intros [Hlen Hin] Hl Hm H0 Hc E. assert (0 < 2 ^ level) by (apply Z.pow_pos_nonneg; lia).
  split; [by rewrite E, length_insert|]. intros k Hk Hodd. unfold inner_at. rewrite E.
  destruct (decide (k = level)) as [->|Hne].
  - rewrite list_lookup_insert_eq by lia. cbn. f_equal. rewrite Hc, Z.mul_comm, Z.div_mul by lia. lia.
  - rewrite list_lookup_insert_ne by done. destruct (decide (level < k)%nat) as [Hlt|Hlt].
    + rewrite (div_above (count + 1) m level k) in * by (done || lia).
      rewrite <- (div_above count m level k) in * by (done || lia). by apply Hin.
    + exfalso. rewrite Hc in Hodd. replace (Z.of_nat level) with (k + (1 + (Z.of_nat level - k - 1))) in Hodd by lia.
      rewrite !Z.pow_add_r in Hodd by lia. rewrite <- Z.mul_assoc, Z.mul_comm, Z.div_mul in Hodd by (apply Z.pow_nonzero; lia).
      by rewrite !Z.odd_mul in Hodd.
Qed.

(** A leaf added: its level holds the running hash. *)
Lemma path_in_next (count m : Z) (level : nat) (matchh : bool) (st st' : MState) :
  Z.odd m = true → 0 <= count → count + 1 = 2 ^ level * m → path count level m matchh st →
  matchlevel st' = (if matchh then Z.of_nat level else matchlevel st) → branch st' = branch st →
  path_in (count + 1) st'.
Proof.
  intros Hm H0 Hc Hp Em Eb. assert (0 < 2 ^ level) by (apply Z.pow_pos_nonneg; lia).
  assert (count / 2 ^ level = m - 1) as Hd by (symmetry; apply (Z.div_unique _ _ _ (2 ^ level - 1)); lia).
  apply path_odd in Hp as [(-> & Hd' & Hb)|[(-> & ml & Hml & Em' & Hodd & Hd' & Hb)|(-> & Hlt & Em' & Hb)]]; [| |right|done..].
  - left. exists level. rewrite Em, Eb, Hc, (Z.mul_comm _ m), Z.div_mul by lia. done.
  - left. exists ml. rewrite (div_above count m level ml) in * by (done || lia).
    rewrite (div_above (count + 1) m level ml) by (done || lia). split_and!; try done; congruence.
  - split_and!; [lia|congruence..].
Qed.

Lemma add_leaf_ok (pb : bool) (count : nat) (leaf : list Z) (st : MState) :
  leaves !! count = Some leaf → n < 2 ^ 32 → leaves_inv pb count st →
  leaves_inv pb (count + 1) (add_leaf pb p count leaf st).
Proof.
  intros Hl Hn (Hin & Hmut & Hpath). assert (count < n) as Hc by (apply lookup_lt_Some in Hl; lia).
  unfold add_leaf, u32. rewrite wrap_small by (unfold is_word; lia).
  pose proof (combine_loop_ok 32 pb count (count + 1) 0 (count =? p) st ltac:(done) ltac:(lia) ltac:(lia) ltac:(lia) Hn Hin) as Hcl.
  assert (node 0 (count + 1 - 1) = leaf) as Eleaf.
  { unfold node, tree_at. cbn [levels]. replace (Z.to_nat _) with count by lia. by rewrite Hl. }
  rewrite Eleaf in Hcl. destruct (combine_loop _ _ _ _ _ _ _) as [[[level h] mh] st'].
  destruct Hcl as (Hlev & Ein & Eml & m & Hodd & Hcm & Eh & Hmut' & Hpath'). split; [|split].
  - apply (inner_ok_insert count m level st); try done; [lia|]. cbn [inner]. by rewrite Eh, Ein.
  - cbn [mutated]. rewrite Hmut', Hmut. split.
    + intros [(k & i & Hd & Hle)|(k & i & _ & Hd & He)]; exists k, i; (split; [done|lia]).
    + intros (k & i & Hd & Hle). destruct (decide (2 ^ k * (2 * i + 2) <= count)).
      * left. by exists k, i.
      * right. exists k, i. split; [lia|]. split; [done|lia].
  - intros Hpb. eapply (path_in_next count m level mh st'); try done; [lia|]. apply Hpath'; [done|].
    destruct (Hpath Hpb) as [(ml & Em & Ho & Hd & Hb)|(Hle & Em & Hb)].
    + assert (p < count) as Hlt.
      { assert (0 < 2 ^ ml) by (apply Z.pow_pos_nonneg; lia). pose proof (Z.div_mod p (2 ^ ml) ltac:(lia)).
        pose proof (Z.mod_pos_bound p (2 ^ ml) ltac:(lia)). pose proof (Z.mul_div_le count (2 ^ ml) ltac:(lia)). nia. }
      right; left. split; [apply Z.eqb_neq; lia|]. exists ml. split_and!; try done. lia.
    + destruct (count =? p) eqn:E; bool_to_prop.
      * left. split; [done|]. rewrite Z.div_1_r. split; [lia|]. by rewrite Hb.
      * right; right. split_and!; try done. lia.
Qed.

Lemma add_leaves_cons (pb : bool) (pos count : Z) (leaf : list Z) (rest : list (list Z)) (st : MState) :
  add_leaves pb pos count (leaf :: rest) st = add_leaves pb pos (u32 (count + 1)) rest (add_leaf pb pos count leaf st).
Proof. unfold add_leaves. fold add_leaves. reflexivity. Qed.

Lemma add_leaves_ok (pb : bool) (pre rest : list (list Z)) (st : MState) :
  leaves = pre ++ rest → n < 2 ^ 32 → leaves_inv pb (length pre) st →
  leaves_inv pb n (add_leaves pb p (length pre) rest st).
Proof.
  revert pre st. induction rest as [|leaf rest IH]; intros pre st E Hn Hinv.
  { by rewrite E, app_nil_r. }
  rewrite add_leaves_cons.
  assert (length pre < n) by (rewrite E, length_app; cbn; lia).
  unfold u32. rewrite wrap_small by (unfold is_word; lia).
  assert (length pre + 1 = Z.of_nat (length (pre ++ [leaf]))) as El by (rewrite length_app; cbn; lia).
  rewrite El. apply IH; [by rewrite <- app_assoc|done|]. rewrite <- El.
  apply (add_leaf_ok pb (length pre)); [|done..]. rewrite E, lookup_app_r, Nat.sub_diag by lia. done.
Qed.

(** ** The sweep *)

Lemma lowest_level_ok (fuel : nat) (level : nat) (count m : Z) :
  (level + fuel = 32)%nat → count = 2 ^ level * m → 0 < count < 2 ^ 32 →
  ∃ m', Z.odd m' = true ∧ count = 2 ^ lowest_level fuel count level * m' ∧ (lowest_level fuel count level < 32)%nat.
Proof.
  revert level m. induction fuel as [|fuel IH]; intros level m Hf Hc Hr; cbn [lowest_level].
  { exfalso. replace level with 32%nat in Hc by lia. change (2 ^ 32%nat) with (2 ^ 32) in *. nia. }
  rewrite (bit_clear_even _ _ m) by (lia || done). destruct (Z.even m) eqn:Em.
  - apply Z.even_spec in Em as [q ->]. apply (IH (S level) q); [lia| |done].
    rewrite Nat2Z.inj_succ, Z.pow_succ_r by lia. lia.
  - exists m. rewrite <- Z.negb_even, Em. split_and!; [done..|lia].
Qed.

(** The running hash is the last one of its level. *)
Lemma level_length_unique (k : nat) (m : Z) : 1 <= n → 2 ^ k * (m - 1) < n <= 2 ^ k * m → level_length k = m.
Proof.
  intros Hn Hm. pose proof (level_length_bounds k Hn). assert (0 < 2 ^ k) by (apply Z.pow_pos_nonneg; lia). nia.
Qed.

Lemma round_up (m : Z) (level : nat) : (level ≤ 31)%nat → 2 ^ level * (m - 1) < 2 ^ 31 → 2 ^ level * m <= 2 ^ 31.
Proof.
  intros Hl. replace 31 with (level + (31 - level)) by lia. rewrite Z.pow_add_r by lia.
  assert (0 < 2 ^ level) by (apply Z.pow_pos_nonneg; lia). intros Hm%Z.mul_lt_mono_pos_l; [|done].
  apply Z.mul_le_mono_nonneg_l; lia.
Qed.

Lemma small_level (m : Z) (level : nat) : 1 <= m → 2 ^ level * m <= 2 ^ 31 → (level ≤ 31)%nat.
Proof.
  intros Hm Hle. assert (2 ^ level <= 2 ^ 31) as Hp by (assert (0 < 2 ^ level) by (apply Z.pow_pos_nonneg; lia); nia).
  apply Z.pow_le_mono_r_iff in Hp; lia.
Qed.

Lemma propagate_loop_ok (fuel : nat) (pb : bool) (count m : Z) (level : nat) (matchh : bool) (st : MState) :
  (32 ≤ level + fuel)%nat → count = 2 ^ level * m → 1 <= n → 2 ^ level * (m - 1) < n < count → count <= 2 ^ 31 →
  2 ^ level < 2 * n → inner_ok n st →
  let '(level', h', mh', st') := propagate_loop fuel pb count level (node level (m - 1)) matchh st in
  inner st' = inner st ∧ mutated st' = mutated st ∧
  ∃ m', Z.odd m' = true ∧ count = 2 ^ level' * m' ∧ 2 ^ level' * (m' - 1) < n ∧ (level ≤ level')%nat ∧
    2 ^ level' < 2 * n ∧ h' = node level' (m' - 1) ∧ (pb = true → path n level m matchh st → path n level' m' mh' st').
Proof.
  revert level m matchh st. induction fuel as [|fuel IH]; intros level m matchh st Hf Hc Hn Hm Hmax Hlow Hin.
  all: assert (1 <= m) by (assert (0 < 2 ^ level) by (apply Z.pow_pos_nonneg; lia); nia).
  all: pose proof (small_level m level ltac:(lia) ltac:(lia)) as Hl31.
  { lia. }
  cbn [propagate_loop]. rewrite (bit_clear_even _ _ m) by (lia || done).
  assert (0 < 2 ^ level) by (apply Z.pow_pos_nonneg; lia).
  destruct (Z.even m) eqn:Em.
  - apply Z.even_spec in Em as [q ->].
    assert (n / 2 ^ level = 2 * q - 1) as Hd.
    { symmetry. apply (Z.div_unique _ _ _ (n - 2 ^ level * (2 * q - 1))); [left|]; lia. }
    pose proof (proj2 Hin level ltac:(lia)) as Hi. rewrite Hd in Hi.
    replace (2 * q - 1) with (2 * (q - 1) + 1) in Hi by lia. rewrite Z.odd_add, Z.odd_mul in Hi. specialize (Hi eq_refl).
    replace (2 * (q - 1) + 1 - 1) with (2 * (q - 1)) in Hi by lia. replace (2 * q - 1) with (2 * (q - 1) + 1) by lia.
    pose proof (level_length_unique level (2 * q) Hn ltac:(lia)) as Hlen.
    rewrite Hi, <- node_pair by lia. pose proof (λ st', match_step_ok n q level matchh st st' Hd ltac:(lia) Hi) as Hpath.
    destruct (match_step pb matchh level (node level (2 * (q - 1) + 1)) st) as [mh br] eqn:Ems.
    pose proof (IH (S level) q mh {| inner := inner st; matchlevel := matchlevel st; mutated := mutated st; branch := br |}) as IH'.
    rewrite Nat2Z.inj_succ, Z.pow_succ_r in IH' by lia.
    specialize (IH' ltac:(lia) ltac:(lia) Hn ltac:(lia) Hmax ltac:(nia) Hin).
    destruct (propagate_loop _ _ _ _ _ _ _) as [[[level' h'] mh'] st'].
    destruct IH' as (? & ? & m' & ? & ? & ? & ? & ? & ? & Hpath'). split; [done|]. split; [done|]. exists m'. split_and!; try done; [lia|].
    intros -> Hp. apply Hpath'; [done|].
    specialize (Hpath {| inner := inner st; matchlevel := matchlevel st; mutated := mutated st; branch := br |} Hp).
    rewrite Ems in Hpath. by apply Hpath.
  - split; [done|]. split; [done|]. exists m. rewrite <- Z.negb_even, Em. split_and!; (done || lia).
Qed.

(** The depth of the tree. *)
Definition is_depth (d : nat) : Prop := n <= 2 ^ d < 2 * n.

(** Where leaf [p] is during the sweep, when the running hash is the last one of its level. *)
Definition path_last (level : nat) (m : Z) (matchh : bool) (st : MState) : Prop :=
  (matchh = true ∧ p / 2 ^ level = m - 1 ∧ branch st = siblings level) ∨
  (matchh = false ∧ ∃ ml : nat, (level < ml)%nat ∧ matchlevel st = ml ∧ Z.odd (n / 2 ^ ml) = true ∧
     p / 2 ^ ml = n / 2 ^ ml - 1 ∧ branch st = siblings ml).

Lemma path_last_end (level : nat) (matchh : bool) (st : MState) :
  1 <= n <= 2 ^ level → path_last level 1 matchh st → branch st = siblings level.
Proof.
  intros Hn [(_ & _ & Hb)|(_ & ml & Hml & _ & Hodd & _)]; [done|].
  assert (2 ^ level < 2 ^ ml) by (apply Z.pow_lt_mono_r; lia). rewrite Z.div_small in Hodd by lia. done.
Qed.

Lemma path_last_up (level : nat) (q : Z) (matchh : bool) (st st' : MState) :
  level_length level = 2 * q + 1 → path_last level (2 * q + 1) matchh st → matchlevel st' = matchlevel st →
  branch st' = (if matchh then branch st ++ [node level (2 * q)] else branch st) →
  path n (S level) (q + 1) matchh st'.
Proof.
  intros Hl [(-> & Hd & Hb)|(-> & ml & Hml & Em & Ho & Hd & Hb)] Em' Eb.
  - left. split; [done|]. split; [rewrite half_pow, Hd; Z.to_euclidean_division_equations; lia|].
    rewrite Eb, Hb, siblings_S. do 3 f_equal. unfold sibling. rewrite Hd, Hl.
    replace (2 * q + 1 - 1) with (2 * q) by lia. rewrite (proj1 (xor_1 q)). f_equal. lia.
  - right; left. split; [done|]. exists ml. split_and!; try done; [congruence..].
Qed.

Lemma sweep_loop_ok (fuel : nat) (pb : bool) (count m : Z) (level : nat) (matchh : bool) (st : MState) :
  (32 ≤ level + fuel)%nat → Z.odd m = true → count = 2 ^ level * m → 1 <= n → 2 ^ level * (m - 1) < n <= count → count <= 2 ^ 31 →
  2 ^ level < 2 * n → inner_ok n st → (pb = true → p < n ∧ path_last level m matchh st) →
  ∃ d, is_depth d ∧
    let '(h, st') := sweep_loop fuel pb count level (node level (m - 1)) matchh st in
    h = node d 0 ∧ mutated st' = mutated st ∧ (pb = true → branch st' = siblings d).
Proof.
  revert level m matchh count st. induction fuel as [|fuel IH]; intros level m matchh count st Hf Hodd Hc Hn Hm Hmax Hlow Hin Hp.
  all: assert (0 < 2 ^ level) by (apply Z.pow_pos_nonneg; lia).
  all: assert (1 <= m) as Hm1 by nia.
  all: pose proof (small_level m level ltac:(lia) ltac:(lia)) as Hl31.
  { lia. }
  cbn [sweep_loop]. assert (u32 (1 .<< level) = 2 ^ level) as ->.
  { rewrite shl_mul by lia. rewrite Z.mul_1_l. apply wrap_small. split; [lia|]. apply Z.pow_lt_mono_r; lia. }
  destruct (count =? 2 ^ level) eqn:E; cbn [negb]; bool_to_prop.
  { assert (m = 1) as -> by nia. exists level. split; [by split; lia|]. split_and!; [done..|].
    intros Hpb. apply path_last_end with matchh; [lia|]. by apply Hp. }
  apply Z.odd_spec in Hodd as [q ->]. assert (1 <= q) as Hq by nia.
  pose proof (level_length_unique level (2 * q + 1) Hn ltac:(lia)) as Hlen.
  replace (2 * q + 1 - 1) with (2 * q) in * by lia. rewrite <- node_odd by lia.
  set (st1 := {| inner := inner st; matchlevel := matchlevel st; mutated := mutated st;
    branch := if pb && matchh then branch st ++ [node level (2 * q)] else branch st |}).
  pose proof (small_level q (S level)) as Hl30. pose proof (round_up (q + 1) (S level)) as Hround.
  pose proof (propagate_loop_ok 32 pb (count + 2 ^ level) (q + 1) (S level) matchh st1) as Hpl.
  rewrite !Nat2Z.inj_succ, !Z.pow_succ_r in * by lia. specialize (Hl30 ltac:(lia) ltac:(lia)). specialize (Hround ltac:(lia) ltac:(lia)).
  unfold u32. rewrite wrap_small by (unfold is_word; lia).
  specialize (Hpl ltac:(lia) ltac:(lia) Hn ltac:(lia) ltac:(lia) ltac:(nia) Hin).
  replace (q + 1 - 1) with q in Hpl by lia.
  destruct (propagate_loop _ _ _ _ _ _ _) as [[[level' h'] mh'] st'].
  destruct Hpl as (Ei & Emu & m' & Ho' & Hc' & Hlo & Hll & Hlow' & -> & Hpath').
  destruct (IH level' m' mh' (count + 2 ^ level) st') as (d & Hd & Hres); try done; try lia.
  - destruct Hin as [Hlen' Hin]. split; [by rewrite Ei|]. unfold inner_at. by rewrite Ei.
  - intros Hpb. destruct (Hp Hpb) as [Hpn Hpath]. split; [done|].
    assert (path n (S level) (q + 1) matchh st1) as H1.
    { eapply path_last_up; [exact Hlen|exact Hpath|done|]. subst st1. by rewrite Hpb. }
    assert (n / 2 ^ level' = m' - 1) as Hdiv.
    { symmetry. apply (Z.div_unique _ _ _ (n - 2 ^ level' * (m' - 1))); [left|]; lia. }
    apply (path_odd n m' level' mh' st' Ho' Hdiv) in Hpath' as [?|[?|(_ & ? & _)]]; try done; [by left|by right|lia].
  - exists d. split; [done|]. destruct (sweep_loop _ _ _ _ _ _ _) as [h'' st'']. destruct Hres as (? & ? & ?).
    split_and!; try done. by etransitivity; [|exact Emu].
Qed.

(** ** The whole computation *)

Lemma is_depth_unique (d d' : nat) : is_depth d → is_depth d' → d = d'.
Proof.
  unfold is_depth. intros Hd Hd'. destruct (Nat.lt_trichotomy d d') as [Hl|[?|Hl]]; [|done|].
  - assert (2 ^ S d <= 2 ^ d') by (apply Z.pow_le_mono_r; lia). rewrite Nat2Z.inj_succ, Z.pow_succ_r in * by lia. lia.
  - assert (2 ^ S d' <= 2 ^ d) by (apply Z.pow_le_mono_r; lia). rewrite Nat2Z.inj_succ, Z.pow_succ_r in * by lia. lia.
Qed.

Lemma path_in_last (level : nat) (m : Z) (st : MState) :
  Z.odd m = true → n = 2 ^ level * m → p < n → path_in n st → path_last level m (matchlevel st =? level) st.
Proof.
  intros Hm Hc Hp [(ml & Em & Ho & Hd & Hb)|(? & _)]; [|lia]. assert (0 < 2 ^ level) by (apply Z.pow_pos_nonneg; lia).
  assert (level ≤ ml)%nat as Hle.
  { destruct (decide (level ≤ ml)%nat) as [|Hlt]; [done|exfalso]. rewrite Hc in Ho.
    replace (Z.of_nat level) with (ml + (1 + (Z.of_nat level - ml - 1))) in Ho by lia. rewrite !Z.pow_add_r in Ho by lia.
    rewrite <- Z.mul_assoc, Z.mul_comm, Z.div_mul in Ho by (apply Z.pow_nonzero; lia). by rewrite !Z.odd_mul in Ho. }
  rewrite Em. destruct (Z.of_nat ml =? level) eqn:E; bool_to_prop.
  - assert (ml = level) as -> by lia. left. rewrite Hd, Hb, Hc, Z.mul_comm, Z.div_mul by lia. done.
  - right. split; [done|]. exists ml. split_and!; try done. lia.
Qed.

Definition has_dup : Prop := ∃ k i, dup_pair k i ∧ 2 ^ k * (2 * i + 2) <= n.

Lemma leaves_inv_start (pb : bool) :
  0 <= p →
  leaves_inv pb 0 {| inner := replicate 32 uint256_null; matchlevel := -1; mutated := false; branch := [] |}.
Proof.
  intros Hp. split; [|split].
  - split; [done|]. intros k _. by rewrite Z.div_0_l by (apply Z.pow_nonzero; lia).
  - split; [done|]. intros (k & i & [? _] & Hle). assert (0 < 2 ^ k) by (apply Z.pow_pos_nonneg; lia). nia.
  - intros _. by right.
Qed.

Lemma MerkleComputation_ok (pb : bool) :
  1 <= n <= 2 ^ 31 → (pb = true → 0 <= p < n) → 0 <= p →
  ∃ d, is_depth d ∧
    let '(root, mut, br) := MerkleComputation leaves p pb in
    root = node d 0 ∧ (mut = true ↔ has_dup) ∧ (pb = true → br = siblings d).
Proof.
  intros Hn Hp Hp0. unfold MerkleComputation. replace (length leaves =? 0)%nat with false by (symmetry; apply Nat.eqb_neq; lia).
  pose proof (add_leaves_ok pb [] leaves _ eq_refl ltac:(lia) (leaves_inv_start pb Hp0)) as Hl.
  set (st := add_leaves _ _ _ _ _) in *. change (add_leaves pb p 0 leaves _) with st. clearbody st. destruct Hl as (Hin & Hmut & Hpath).
  unfold u32. rewrite wrap_small by (unfold is_word; lia).
  destruct (lowest_level_ok 32 0 n n ltac:(done) ltac:(lia) ltac:(lia)) as (m & Hm & Hc & Hl32).
  set (level := lowest_level 32 n 0) in *. clearbody level. assert (0 < 2 ^ level) by (apply Z.pow_pos_nonneg; lia).
  assert (inner_at st level = node level (m - 1)) as ->.
  { rewrite (proj2 Hin) by (done || rewrite Hc, Z.mul_comm, Z.div_mul by lia; done). f_equal.
    rewrite Hc, Z.mul_comm, Z.div_mul by lia. done. }
  assert (1 <= m) by nia.
  destruct (sweep_loop_ok 32 pb n m level (matchlevel st =? level) st) as (d & Hd & Hr); try done; try lia.
  { nia. }
  { intros Hpb. split; [by apply Hp|]. apply path_in_last; try done; [by apply Hp|]. by apply Hpath. }
  exists d. split; [done|]. destruct (sweep_loop _ _ _ _ _ _ _) as [h st']. destruct Hr as (-> & E & Hb).
  by rewrite E.
Qed.

(** ** Checking a branch *)

Lemma land_1_even (x : Z) : (x .& 1 =? 0) = Z.even x.
Proof.
  change 1 with (Z.ones 1). rewrite Z.land_ones by lia. change (2 ^ 1) with 2. rewrite Zmod_even. by destruct (Z.even x).
Qed.

Lemma position_range (k : nat) : 0 <= p < n → 0 <= p / 2 ^ k < level_length k.
Proof.
  intros Hp. pose proof (level_length_bounds k ltac:(lia)). assert (0 < 2 ^ k) by (apply Z.pow_pos_nonneg; lia).
  split; [apply Z.div_pos; lia|]. apply Z.div_lt_upper_bound; lia.
Qed.

Lemma branch_step (k : nat) :
  0 <= p < n →
  (if negb ((p / 2 ^ k) .& 1 =? 0) then hash_pair (sibling k) (node k (p / 2 ^ k))
   else hash_pair (node k (p / 2 ^ k)) (sibling k)) = node (S k) (p / 2 ^ S k).
Proof.
  intros Hp. pose proof (position_range k Hp) as Hr. rewrite land_1_even, half_pow. unfold sibling.
  destruct (Z.even (p / 2 ^ k)) eqn:E; cbn [negb].
  - apply Z.even_spec in E as [q Eq]. rewrite Eq in *. rewrite (proj1 (xor_1 q)).
    replace (2 * q / 2) with q by (Z.to_euclidean_division_equations; lia).
    destruct (decide (2 * q + 1 < level_length k)).
    + rewrite node_pair by lia. f_equal. f_equal. lia.
    + rewrite node_odd by lia. f_equal. f_equal. lia.
  - rewrite <- Z.negb_odd, negb_false_iff in E. apply Z.odd_spec in E as [q Eq]. rewrite Eq in *. rewrite (proj2 (xor_1 q)).
    replace ((2 * q + 1) / 2) with q by (Z.to_euclidean_division_equations; lia).
    rewrite node_pair by lia. f_equal. f_equal. lia.
Qed.

Lemma RootFromBranch_ok (k j : nat) :
  0 <= p < n →
  ComputeMerkleRootFromBranch (node k (p / 2 ^ k)) (sibling <$> seq k j) (p / 2 ^ k) = node (k + j) (p / 2 ^ (k + j)%nat).
Proof.
  intros Hp. revert k. induction j as [|j IH]; intros k; cbn [seq fmap list_fmap ComputeMerkleRootFromBranch].
  { by rewrite Nat.add_0_r. }
  change (list_fmap _ _ sibling (seq (S k) j)) with (sibling <$> seq (S k) j).
  rewrite branch_step by done. rewrite shr_div by lia. change (2 ^ 1) with 2. rewrite <- half_pow, IH.
  by replace (S k + j)%nat with (k + S j)%nat by lia.
Qed.

End Tree.

(** ** The reference *)

Section Reference.
Context `{CryptoHash}.

Lemma tree_at_middle (pre hs post : list (list Z)) (i : nat) :
  (i < length hs)%nat → tree_at (pre ++ hs ++ post) (length pre + i) = tree_at hs i.
Proof.
  intros Hi. unfold tree_at. rewrite lookup_app_r, lookup_app_l by lia. by replace (length pre + i - length pre)%nat with i by lia.
Qed.

Lemma take_tree_at (hs : list (list Z)) (t : nat) : (t < length hs)%nat → take (S t) hs = take t hs ++ [tree_at hs t].
Proof.
  intros Ht. apply lookup_lt_is_Some in Ht as [x Hx]. rewrite (take_S_r _ _ x) by done. unfold tree_at. by rewrite Hx.
Qed.

(** One level of the loop appends the level above. *)
Lemma build_level_ok (fuel : nat) (pre hs : list (list Z)) (t : nat) (mut : bool) :
  (length hs ≤ 2 * t + fuel)%nat → (2 * t ≤ length hs + 1)%nat →
  ∃ mut', build_level fuel (length hs) (length pre) (2 * t) (pre ++ hs ++ take t (merkle_level hs)) mut =
    (pre ++ hs ++ merkle_level hs, mut').
Proof.
  pose proof (length_merkle_level hs) as Hl.
  revert t mut. induction fuel as [|fuel IH]; intros t mut Hf Ht; cbn [build_level].
  { exists mut. rewrite take_ge; [done|]. Z.to_euclidean_division_equations. lia. }
  destruct (2 * t <? length hs)%nat eqn:E; bool_to_prop.
  - assert (t < length (merkle_level hs))%nat by (Z.to_euclidean_division_equations; lia).
    rewrite !tree_at_middle by lia. rewrite <- !app_assoc, <- tree_at_merkle_level, <- take_tree_at by lia.
    replace (2 * t + 2)%nat with (2 * S t)%nat by lia. apply IH; lia.
  - exists mut. rewrite take_ge; [done|]. Z.to_euclidean_division_equations. lia.
Qed.

Variable leaves : list (list Z).

(** The levels below level [k], one after the other. *)
Definition below (k : nat) : list (list Z) := concat ((λ j, levels j leaves) <$> seq 0 k).

Lemma below_S (k : nat) : below (S k) = below k ++ levels k leaves.
Proof. unfold below. rewrite seq_S, fmap_app, concat_app. cbn. by rewrite app_nil_r. Qed.

Lemma build_levels_ok (fuel k d : nat) (mut : bool) :
  length (levels d leaves) = 1%nat → (∀ j, j < d → 1 < length (levels j leaves))%nat → (k ≤ d)%nat → (d ≤ k + fuel)%nat →
  ∃ mut', build_levels fuel (length (levels k leaves)) (length (below k)) (below k ++ levels k leaves) mut =
    (below (S d), mut').
Proof.
  intros Hd Hj. revert k mut. induction fuel as [|fuel IH]; intros k mut Hk Hf; cbn [build_levels].
  { exists mut. replace k with d by lia. by rewrite below_S. }
  destruct (decide (k = d)) as [->|Hne]; [rewrite Hd; exists mut; by rewrite below_S|].
  pose proof (Hj k ltac:(lia)) as H1. rewrite (proj2 (Nat.ltb_lt _ _) H1).
  destruct (build_level_ok (length (levels k leaves)) (below k) (levels k leaves) 0 mut ltac:(lia) ltac:(lia)) as [mut' E].
  rewrite app_nil_r in E. change (2 * 0)%nat with 0%nat in E. rewrite E.
  change (merkle_level (levels k leaves)) with (levels (S k) leaves).
  replace ((length (levels k leaves) + 1) / 2)%nat with (length (levels (S k) leaves)).
  2:{ apply Nat2Z.inj. cbn [levels]. rewrite length_merkle_level, Nat2Z.inj_div. f_equal. lia. }
  rewrite <- length_app, app_assoc, <- below_S. apply IH; lia.
Qed.

(** What the loops of the tests need of the depth. *)
Lemma depth_lengths (d : nat) :
  (1 ≤ length leaves)%nat → is_depth leaves d →
  length (levels d leaves) = 1%nat ∧ (∀ j, j < d → 1 < length (levels j leaves))%nat ∧ (d ≤ length leaves)%nat.
Proof.
  unfold is_depth. intros Hn [Hd1 Hd2]. split; [|split].
  - apply Nat2Z.inj. apply (level_length_unique leaves d 1); lia.
  - intros j Hj. pose proof (level_length_bounds leaves j ltac:(lia)) as [_ Hb]. unfold level_length in Hb.
    assert (2 ^ S j <= 2 ^ d) as Hp by (apply Z.pow_le_mono_r; lia). rewrite Nat2Z.inj_succ, Z.pow_succ_r in Hp by lia.
    assert (0 < 2 ^ j) by (apply Z.pow_pos_nonneg; lia). nia.
  - assert (d < 2 ^ d) by (apply Z.pow_gt_lin_r; lia). assert (2 ^ d < 2 * length leaves) by lia.
    destruct d; [lia|]. rewrite Nat2Z.inj_succ, Z.pow_succ_r in * by lia.
    assert (d < 2 ^ d) by (apply Z.pow_gt_lin_r; lia). lia.
Qed.

Lemma BuildMerkleTree_ok (d : nat) :
  (1 ≤ length leaves)%nat → is_depth leaves d →
  ∃ mut, BuildMerkleTree leaves = (node leaves d 0, mut, below (S d)).
Proof.
  intros Hn Hd. destruct (depth_lengths d Hn Hd) as (H1 & Hj & Hf). unfold BuildMerkleTree.
  destruct (build_levels_ok (length leaves) 0 d false H1 Hj ltac:(lia) ltac:(lia)) as [mut E].
  change (build_levels (length leaves) (length leaves) 0 leaves false = (below (S d), mut)) in E. rewrite E. exists mut.
  f_equal. f_equal. rewrite below_S. unfold node, tree_at. destruct (levels d leaves) as [|h [|]]; try done.
  by rewrite last_snoc.
Qed.

Lemma get_branch_ok (fuel k d : nat) (p : Z) :
  length (levels d leaves) = 1%nat → (∀ j, j < d → 1 < length (levels j leaves))%nat → (k ≤ d)%nat → (d ≤ k + fuel)%nat →
  0 <= p < length leaves →
  get_branch_loop fuel (below (S d)) (p / 2 ^ k) (length (levels k leaves)) (length (below k)) =
  sibling leaves p <$> seq k (d - k).
Proof.
  intros Hd Hj Hk Hf Hp. revert k Hk Hf. induction fuel as [|fuel IH]; intros k Hk Hf; cbn [get_branch_loop].
  { replace (d - k)%nat with 0%nat by lia. done. }
  destruct (decide (k = d)) as [->|Hne].
  { rewrite Hd. by replace (d - d)%nat with 0%nat by lia. }
  pose proof (Hj k ltac:(lia)) as H1. rewrite (proj2 (Nat.ltb_lt _ _) H1).
  replace (d - k)%nat with (S (d - S k)) by lia. cbn [seq fmap list_fmap]. f_equal.
  - assert (∃ post, below (S d) = below k ++ levels k leaves ++ post) as [post ->].
    { assert (∀ j, ∃ post, below (S (k + j)) = below k ++ levels k leaves ++ post) as Hex.
      { induction j as [|j [post E]]; [exists []; by rewrite Nat.add_0_r, below_S, app_nil_r|].
        exists (post ++ levels (S (k + j)) leaves). rewrite Nat.add_succ_r, below_S, E. by rewrite <- !app_assoc. }
      destruct (Hex (d - k)%nat) as [post E]. exists post. by replace (k + (d - k))%nat with d in E by lia. }
    rewrite tree_at_middle by lia. unfold sibling, node, level_length. f_equal. lia.
  - rewrite shr_div by lia. change (2 ^ 1) with 2. rewrite <- half_pow.
    replace ((length (levels k leaves) + 1) / 2)%nat with (length (levels (S k) leaves)).
    2:{ apply Nat2Z.inj. cbn [levels]. rewrite length_merkle_level, Nat2Z.inj_div. f_equal. lia. }
    rewrite <- length_app, <- below_S. apply IH; lia.
Qed.
End Reference.

(** ** The tree from the root *)

Section Malleability.
Context `{CryptoHash}.
Open Scope nat_scope.

(** The halves of a subtree of depth [S d]: a short list is both of them. *)
Definition left_half {A : Type} (d : nat) (l : list A) : list A := if (length l <=? 2 ^ d) then l else take (2 ^ d) l.
Definition right_half {A : Type} (d : nat) (l : list A) : list A := if (length l <=? 2 ^ d) then l else drop (2 ^ d) l.

Fixpoint mroot (d : nat) (l : list (list Z)) : list Z :=
  match d with
  | O => tree_at l 0
  | S d => hash_pair (mroot d (left_half d l)) (mroot d (right_half d l))
  end.

(** The leaves of the complete tree the hashes are computed on. *)
Fixpoint expand {A : Type} (d : nat) (l : list A) : list A :=
  match d with
  | O => l
  | S d => expand d (left_half d l) ++ expand d (right_half d l)
  end.

(** The messages hashed. *)
Fixpoint preimages (d : nat) (l : list (list Z)) : list (list Z) :=
  match d with
  | O => []
  | S d => (mroot d (left_half d l) ++ mroot d (right_half d l)) :: preimages d (left_half d l) ++ preimages d (right_half d l)
  end.

Definition collision_free (ms : list (list Z)) : Prop :=
  ∀ x y, x ∈ ms → y ∈ ms → CHash256 x = CHash256 y → x = y.

Definition fits {A : Type} (d : nat) (l : list A) : Prop := 1 <= length l <= 2 ^ d.

Lemma pow2_S (d : nat) : 2 ^ S d = 2 ^ d + 2 ^ d.
Proof. rewrite Nat.pow_succ_r'. lia. Qed.

Lemma pow2_pos_nat (d : nat) : 1 <= 2 ^ d.
Proof. pose proof (Nat.pow_nonzero 2 d). lia. Qed.

Lemma halves_fit {A : Type} (d : nat) (l : list A) :
  fits (S d) l → fits d (left_half d l) ∧ fits d (right_half d l).
Proof.
  unfold fits, left_half, right_half. rewrite pow2_S. pose proof (pow2_pos_nat d).
  intros Hf. destruct (_ <=? _) eqn:E; bool_to_prop; [lia|]. rewrite length_take, length_drop. lia.
Qed.

Lemma length_expand {A : Type} (d : nat) (l : list A) : fits d l → length (expand d l) = 2 ^ d.
Proof.
  revert l. induction d as [|d IH]; intros l Hf; cbn [expand].
  { unfold fits in Hf. change (2 ^ 0) with 1 in *. lia. }
  apply halves_fit in Hf as [H1 H2]. rewrite length_app, !IH by done. rewrite pow2_S. lia.
Qed.

Lemma expand_full {A : Type} (d : nat) (l : list A) : length l = 2 ^ d → expand d l = l.
Proof.
  revert l. induction d as [|d IH]; intros l Hl; cbn [expand]; [done|]. rewrite pow2_S in Hl. pose proof (pow2_pos_nat d).
  unfold left_half, right_half. replace (length l <=? 2 ^ d) with false by (symmetry; apply Nat.leb_gt; lia).
  rewrite !IH by (rewrite ?length_take, ?length_drop; lia). apply take_drop.
Qed.

(** Two equal halves of an aligned block. *)
Definition equal_halves {A : Type} (l : list A) : Prop :=
  ∃ k o, (2 ^ S k | o) ∧ o + 2 ^ S k <= length l ∧ take (2 ^ k) (drop o l) = take (2 ^ k) (drop (o + 2 ^ k) l).

Lemma equal_halves_app_l {A : Type} (a b : list A) : equal_halves a → equal_halves (a ++ b).
Proof.
  intros (k & o & Hd & Hl & E). rewrite pow2_S in Hl. exists k, o. rewrite pow2_S, length_app. split; [by rewrite <- pow2_S|]. split; [lia|].
  rewrite !drop_app_le, !take_app_le by (rewrite ?length_drop; lia). done.
Qed.

Lemma equal_halves_app_r {A : Type} (d : nat) (a b : list A) :
  length a = 2 ^ d → length b <= 2 ^ d → equal_halves b → equal_halves (a ++ b).
Proof.
  intros Ha Hb (k & o & Hd & Hl & E). exists k, (2 ^ d + o). rewrite length_app.
  assert (S k <= d) as Hk.
  { apply (Nat.pow_le_mono_r_iff 2); lia. }
  split; [|split; [lia|]].
  - apply Nat.divide_add_r; [|done]. exists (2 ^ (d - S k)). rewrite <- Nat.pow_add_r. f_equal. lia.
  - rewrite !drop_app_ge by lia. rewrite Ha. replace (2 ^ d + o - 2 ^ d) with o by lia.
    by replace (2 ^ d + o + 2 ^ k - 2 ^ d) with (o + 2 ^ k) by lia.
Qed.

Lemma equal_halves_twice {A : Type} (d : nat) (a : list A) : length a = 2 ^ d → equal_halves (a ++ a).
Proof.
  intros Ha. exists d, 0. rewrite length_app, pow2_S. split; [apply Nat.divide_0_r|]. split; [lia|].
  rewrite drop_0, Nat.add_0_l, <- Ha, drop_app_length, take_app_length. by rewrite take_ge.
Qed.

Lemma expand_dup {A : Type} (d : nat) (l : list A) : 1 <= length l < 2 ^ d → equal_halves (expand d l).
Proof.
  revert l. induction d as [|d IH]; intros l Hl; [cbn in Hl; lia|]. cbn [expand]. rewrite pow2_S in Hl.
  unfold left_half, right_half. destruct (length l <=? 2 ^ d) eqn:E; bool_to_prop.
  - apply (equal_halves_twice d), length_expand. unfold fits. lia.
  - rewrite (expand_full d (take _ _)) by (rewrite length_take; lia). apply (equal_halves_app_r d).
    + rewrite length_take. lia.
    + rewrite length_expand; [done|]. unfold fits. rewrite length_drop. lia.
    + apply IH. rewrite length_drop. lia.
Qed.

(** A list followed by its own expansion, cut short. *)
Lemma expand_inj_short {A : Type} (d : nat) (l : list A) :
  2 ^ d < length l <= 2 ^ S d → take (2 ^ d) l = expand d (drop (2 ^ d) l) → equal_halves l.
Proof.
  intros Hl E. rewrite pow2_S in Hl. assert (length (take (2 ^ d) l) = 2 ^ d) as Ht by (rewrite length_take; lia).
  rewrite <- (take_drop (2 ^ d) l). destruct (decide (length (drop (2 ^ d) l) = 2 ^ d)) as [Hd|Hd].
  - rewrite expand_full in E by done. rewrite <- E. by apply (equal_halves_twice d).
  - apply equal_halves_app_l. rewrite E. apply expand_dup. rewrite length_drop in *. lia.
Qed.

Lemma expand_inj {A : Type} (d : nat) (l1 l2 : list A) :
  fits d l1 → fits d l2 → expand d l1 = expand d l2 → l1 = l2 ∨ equal_halves l1 ∨ equal_halves l2.
Proof.
  revert l1 l2. induction d as [|d IH]; intros l1 l2 H1 H2 E; [by left|]. cbn [expand] in E.
  pose proof (halves_fit d l1 H1) as [Hl1 Hr1]. pose proof (halves_fit d l2 H2) as [Hl2 Hr2].
  apply app_inj_1 in E as [El Er]; [|by rewrite !length_expand].
  unfold fits in H1, H2. unfold left_half, right_half in *.
  destruct (length l1 <=? 2 ^ d) eqn:E1, (length l2 <=? 2 ^ d) eqn:E2; bool_to_prop.
  - by apply IH.
  - right; right. apply (expand_inj_short d); [lia|]. rewrite <- Er, El. symmetry. apply expand_full. rewrite length_take. lia.
  - right; left. apply (expand_inj_short d); [lia|]. rewrite Er, <- El. symmetry. apply expand_full. rewrite length_take. lia.
  - rewrite !expand_full in El by (rewrite length_take; lia).
    destruct (IH _ _ Hr1 Hr2 Er) as [Ed|[Hh|Hh]]; [left|right; left|right; right].
    + by rewrite <- (take_drop (2 ^ d) l1), <- (take_drop (2 ^ d) l2), El, Ed.
    + rewrite <- (take_drop (2 ^ d) l1). apply (equal_halves_app_r d); [rewrite length_take|apply Hr1|done]. lia.
    + rewrite <- (take_drop (2 ^ d) l2). apply (equal_halves_app_r d); [rewrite length_take|apply Hr2|done]. lia.
Qed.
End Malleability.

Section Commitment.
Context `{CryptoHash}.

Lemma Z_pow2_nat (k : nat) : Z.of_nat (2 ^ k) = 2 ^ k.
Proof. by rewrite Nat2Z.inj_pow. Qed.

(** The positions of a level are the subtrees over aligned blocks of leaves. *)
Lemma node_mroot (leaves : list (list Z)) (k i : nat) :
  (i * 2 ^ k < length leaves)%nat → node leaves k i = mroot k (take (2 ^ k) (drop (i * 2 ^ k) leaves)).
Proof.
  revert i. induction k as [|k IH]; intros i Hi.
  { unfold node, tree_at. cbn [mroot levels]. unfold tree_at. rewrite Nat.mul_1_r, Nat2Z.id.
    change (2 ^ 0)%nat with 1%nat. destruct (drop i leaves) as [|h t] eqn:E.
    - apply (f_equal length) in E. rewrite length_drop in E. cbn in *. lia.
    - rewrite <- (Nat.add_0_r i), <- lookup_drop, E. done. }
  rewrite pow2_S in *. pose proof (pow2_pos_nat k). pose proof (level_length_bounds leaves k ltac:(lia)) as Hb.
  rewrite <- Z_pow2_nat in Hb.
  set (l := take (2 ^ k + 2 ^ k) (drop (i * (2 ^ k + 2 ^ k)) leaves)).
  assert (length l = Nat.min (2 ^ k + 2 ^ k) (length leaves - i * (2 ^ k + 2 ^ k))) as Hl
    by (unfold l; by rewrite length_take, length_drop).
  cbn [mroot]. unfold left_half, right_half. destruct (length l <=? 2 ^ k)%nat eqn:E; bool_to_prop.
  - rewrite node_odd by nia. replace (2 * Z.of_nat i) with (Z.of_nat (2 * i)) by lia. rewrite IH by lia.
    replace (2 * i * 2 ^ k)%nat with (i * (2 ^ k + 2 ^ k))%nat by lia.
    assert (take (2 ^ k) (drop (i * (2 ^ k + 2 ^ k)) leaves) = l) as ->; [|done].
    unfold l. rewrite !take_ge; [done|..]; rewrite length_drop; lia.
  - rewrite node_pair by nia. replace (2 * Z.of_nat i) with (Z.of_nat (2 * i)) by lia.
    replace (Z.of_nat (2 * i) + 1) with (Z.of_nat (2 * i + 1)) by lia. rewrite !IH by lia. unfold l.
    rewrite take_take, Nat.min_l, <- take_drop_commute by lia. rewrite drop_drop. f_equal.
    + f_equal. f_equal. f_equal. lia.
    + f_equal. f_equal. f_equal. lia.
Qed.

Lemma mroot_root (leaves : list (list Z)) (d : nat) :
  (1 ≤ length leaves)%nat → length leaves <= 2 ^ d → node leaves d 0 = mroot d leaves.
Proof.
  intros H1 H2. rewrite <- Z_pow2_nat in H2. change 0 with (Z.of_nat 0). rewrite node_mroot by lia.
  rewrite Nat.mul_0_l, drop_0, take_ge by lia. done.
Qed.

Lemma equal_halves_dup (leaves : list (list Z)) : equal_halves leaves → has_dup leaves.
Proof.
  intros (k & o & [i ->] & Hl & E). rewrite pow2_S in *. pose proof (pow2_pos_nat k).
  exists k, (Z.of_nat i). split; [split; [lia|]|].
  - replace (2 * Z.of_nat i) with (Z.of_nat (2 * i)) by lia.
    replace (Z.of_nat (2 * i) + 1) with (Z.of_nat (2 * i + 1)) by lia. rewrite !node_mroot by nia.
    replace (2 * i * 2 ^ k)%nat with (i * (2 ^ k + 2 ^ k))%nat by lia.
    replace ((2 * i + 1) * 2 ^ k)%nat with (i * (2 ^ k + 2 ^ k) + 2 ^ k)%nat by lia. by rewrite E.
  - rewrite <- Z_pow2_nat. lia.
Qed.

(** Equal roots of equal depth, without collisions, are roots of the same complete tree. *)
Lemma mroot_expand (d : nat) (l1 l2 : list (list Z)) :
  fits d l1 → fits d l2 → Forall (λ h, length h = 32%nat) l1 → Forall (λ h, length h = 32%nat) l2 →
  collision_free (preimages d l1 ++ preimages d l2) → mroot d l1 = mroot d l2 → expand d l1 = expand d l2.
Proof.
  assert (∀ d l, fits d l → Forall (λ h, length h = 32%nat) l → length (mroot d l) = 32%nat) as Hlen.
  { intros [|d'] l Hf Hl; [|apply length_CHash256]. destruct Hl as [|h l Hh Hl]; [unfold fits in Hf; cbn in Hf; lia|done]. }
  assert (∀ d l, Forall (λ h, length h = 32%nat) l → Forall (λ h : list Z, length h = 32%nat) (left_half d l) ∧
    Forall (λ h : list Z, length h = 32%nat) (right_half d l)) as Hhalf.
  { intros d' l Hl. unfold left_half, right_half. destruct (_ <=? _)%nat; [done|]. by split; [apply Forall_take|apply Forall_drop]. }
  revert l1 l2. induction d as [|d IH]; intros l1 l2 H1 H2 F1 F2 Hcf E; cbn [expand mroot preimages] in *.
  { destruct l1 as [|a [|]], l2 as [|b [|]]; unfold fits in *; cbn in *; try lia. by rewrite E. }
  apply halves_fit in H1 as [Hl1 Hr1], H2 as [Hl2 Hr2]. apply (Hhalf d) in F1 as [Fl1 Fr1], F2 as [Fl2 Fr2].
  assert (mroot d (left_half d l1) ++ mroot d (right_half d l1) = mroot d (left_half d l2) ++ mroot d (right_half d l2)) as Em.
  { apply Hcf; [left|apply elem_of_app; right; left|exact E]. }
  apply app_inj_1 in Em as [Eml Emr]; [|by rewrite !Hlen].
  f_equal; apply IH; try done; intros x y Hx Hy; apply Hcf;
    rewrite ?elem_of_app in *; rewrite !elem_of_cons, !elem_of_app; tauto.
Qed.
End Commitment.

(** ** Branches that verify *)

Section BranchSound.
Context `{CryptoHash}.

Fixpoint pair_messages (hs : list (list Z)) : list (list Z) :=
  match hs with
  | [] => []
  | [a] => [a ++ a]
  | a :: b :: hs => (a ++ b) :: pair_messages hs
  end.

Lemma merkle_level_messages (hs : list (list Z)) : merkle_level hs = CHash256 <$> pair_messages hs.
Proof. induction hs as [| |a b hs IH] using list_pair_ind; [done..|]. cbn [merkle_level pair_messages fmap list_fmap]. by rewrite IH. Qed.

(** The messages hashed below level [d] of a tree, and those hashed to check a branch. *)
Definition tree_messages (leaves : list (list Z)) (d : nat) : list (list Z) :=
  concat ((λ k, pair_messages (levels k leaves)) <$> seq 0 d).

Fixpoint branch_messages (hash : list Z) (br : list (list Z)) (nIndex : Z) : list (list Z) :=
  match br with
  | [] => []
  | b :: br =>
      let m := if negb (nIndex .& 1 =? 0) then b ++ hash else hash ++ b in
      m :: branch_messages (CHash256 m) br (nIndex .>> 1)
  end.

Lemma pair_messages_mem (leaves : list (list Z)) (d k : nat) (m : list Z) :
  (k < d)%nat → m ∈ pair_messages (levels k leaves) → m ∈ tree_messages leaves d.
Proof.
  intros Hk Hm. unfold tree_messages. apply list_elem_of_In, in_concat. exists (pair_messages (levels k leaves)).
  split; apply list_elem_of_In; [|done]. apply list_elem_of_fmap. exists k. split; [done|]. apply elem_of_seq. lia.
Qed.

(** A position above the leaves is the hash of a message of the tree, made of the two positions below. *)
Lemma node_message (leaves : list (list Z)) (k : nat) (i : Z) :
  0 <= i → 2 * i < level_length leaves k →
  ∃ m, m ∈ pair_messages (levels k leaves) ∧ node leaves (S k) i = CHash256 m ∧
    m = node leaves k (2 * i) ++ node leaves k (Z.min (2 * i + 1) (level_length leaves k - 1)).
Proof.
  unfold level_length, node. intros Hi Hl. cbn [levels].
  set (hs := levels k leaves) in *. clearbody hs. rewrite tree_at_merkle_level by lia.
  exists (tree_at hs (2 * Z.to_nat i) ++ tree_at hs (Nat.min (2 * Z.to_nat i + 1) (length hs - 1))).
  split; [|split; [done|f_equal; f_equal; lia]].
  assert (2 * Z.to_nat i < length hs)%nat as Hn by lia. clear Hl. generalize dependent (Z.to_nat i). clear.
  induction hs as [|a|a b hs IH] using list_pair_ind; intros i Hi; cbn [length pair_messages] in *; [lia| |].
  - replace i with 0%nat by lia. left.
  - destruct i as [|i]; [left|right]. replace (2 * S i)%nat with (S (S (2 * i))) by lia.
    replace (Nat.min (S (S (2 * i)) + 1) (S (S (length hs)) - 1)) with (S (S (Nat.min (2 * i + 1) (length hs - 1)))) by lia.
    apply IH. lia.
Qed.

Lemma length_node (leaves : list (list Z)) (k : nat) (i : Z) :
  Forall (λ h, length h = 32%nat) leaves → 0 <= i < level_length leaves k → length (node leaves k i) = 32%nat.
Proof.
  intros Hl Hi. destruct k as [|k].
  - unfold node, tree_at, level_length in *. cbn [levels] in *.
    destruct (leaves !! Z.to_nat i) as [h|] eqn:E; [|apply lookup_ge_None in E; lia]. cbn.
    by apply (Forall_lookup_1 _ _ _ _ Hl E).
  - rewrite level_length_S in Hi. destruct (node_message leaves k i) as (m & _ & -> & _); [lia| |apply length_CHash256].
    Z.to_euclidean_division_equations. lia.
Qed.

Lemma RootFromBranch_sound (leaves br : list (list Z)) (k : nat) (hash : list Z) (i : Z) :
  Forall (λ h, length h = 32%nat) leaves → Forall (λ h, length h = 32%nat) br → length hash = 32%nat →
  0 <= i < level_length leaves k →
  collision_free (branch_messages hash br i ++ tree_messages leaves (k + length br)) →
  ComputeMerkleRootFromBranch hash br i = node leaves (k + length br) (i / 2 ^ length br) → hash = node leaves k i.
Proof.
  intros Hlv Hbr. revert k hash i. induction Hbr as [|b br Hb Hbr IH]; intros k hash i Hh Hi Hcf E.
  { cbn in E. by rewrite Nat.add_0_r, Z.div_1_r in E. }
  cbn [ComputeMerkleRootFromBranch branch_messages length] in *.
  rewrite land_1_even, shr_div in * by lia. change (2 ^ 1) with 2 in *.
  set (m := if negb (Z.even i) then b ++ hash else hash ++ b) in *.
  assert (Em : (if negb (Z.even i) then hash_pair b hash else hash_pair hash b) = CHash256 m) by (unfold m; by destruct (Z.even i)).
  rewrite Em in *. clear Em.
  assert (0 <= i / 2) by (apply Z.div_pos; lia). assert (i = 2 * (i / 2) ∨ i = 2 * (i / 2) + 1) as Hpar by (Z.to_euclidean_division_equations; lia).
  destruct (node_message leaves k (i / 2)) as (m' & Hm' & En & Em'); [lia..|].
  assert (CHash256 m = node leaves (S k) (i / 2)) as E1.
  { apply IH; [apply length_CHash256| | |].
    - split; [done|]. rewrite level_length_S. Z.to_euclidean_division_equations. lia.
    - replace (S k + length br)%nat with (k + S (length br))%nat by lia.
      intros x y Hx Hy. apply Hcf; rewrite elem_of_app, ?elem_of_cons in *; tauto.
    - replace (S k + length br)%nat with (k + S (length br))%nat by lia. rewrite E. f_equal.
      rewrite Nat2Z.inj_succ, Z.pow_succ_r, Z.div_div by lia. done. }
  rewrite En in E1. apply Hcf in E1.
  2:{ left. }
  2:{ apply elem_of_app; right. apply (pair_messages_mem _ _ k); [lia|done]. }
  rewrite Em' in E1. unfold m in E1. rewrite <- Z.negb_odd, negb_involutive in E1.
  assert (length (node leaves k (2 * (i / 2))) = 32%nat) as Hln by (apply length_node; [done|lia]).
  destruct Hpar as [Hpar|Hpar].
  - assert (Z.odd i = false) as Ho by (rewrite Hpar, Z.odd_mul; done). rewrite Ho in E1.
    apply app_inj_1 in E1 as [E1 _]; [|congruence]. by replace (2 * (i / 2)) with i in E1 by lia.
  - assert (Z.odd i = true) as Ho by (rewrite Hpar, Z.odd_add, Z.odd_mul; done). rewrite Ho in E1.
    apply app_inj_1 in E1 as [_ E1]; [|congruence]. rewrite E1. f_equal. lia.
Qed.
End BranchSound.

(** ** The properties *)

Lemma ComputeMerkleRoot_ok `{CryptoHash} (leaves : list (list Z)) :
  1 <= length leaves <= 2 ^ 31 →
  ∃ d, is_depth leaves d ∧ (ComputeMerkleRoot leaves).1 = node leaves d 0 ∧
    ((ComputeMerkleRoot leaves).2 = true ↔ has_dup leaves).
Proof.
  intros Hn. unfold ComputeMerkleRoot.
  destruct (MerkleComputation_ok leaves (u32 (-1)) false Hn ltac:(done) ltac:(by vm_compute)) as (d & Hd & Hr).
  exists d. destruct (MerkleComputation _ _ _) as [[root mut] br]. destruct Hr as (-> & Hm & _). done.
Qed.

Lemma ComputeMerkleBranch_ok `{CryptoHash} (leaves : list (list Z)) (d : nat) (position : Z) :
  1 <= length leaves <= 2 ^ 31 → is_depth leaves d → 0 <= position < length leaves →
  ComputeMerkleBranch leaves position = siblings leaves position d.
Proof.
  intros Hn Hd Hp. unfold ComputeMerkleBranch.
  destruct (MerkleComputation_ok leaves position true Hn ltac:(done) ltac:(lia)) as (d' & Hd' & Hr).
  destruct (MerkleComputation _ _ _) as [[root mut] br]. destruct Hr as (_ & _ & Hb). rewrite Hb by done.
  by rewrite (is_depth_unique leaves d d' Hd Hd').
Qed.

(** Equal roots without the flag, in trees of the same depth. *)
Lemma ComputeMerkleRoot_inj `{CryptoHash} (l1 l2 : list (list Z)) (d : nat) (root : list Z) :
  1 <= length l1 <= 2 ^ 31 → 1 <= length l2 <= 2 ^ 31 → is_depth l1 d → is_depth l2 d →
  Forall (λ h, length h = 32%nat) l1 → Forall (λ h, length h = 32%nat) l2 →
  collision_free (preimages d l1 ++ preimages d l2) →
  ComputeMerkleRoot l1 = (root, false) → ComputeMerkleRoot l2 = (root, false) → l1 = l2.
Proof.
  intros Hn1 Hn2 Hd1 Hd2 F1 F2 Hcf E1 E2. unfold is_depth in Hd1, Hd2.
  assert (∀ l : list (list Z), 1 <= length l <= 2 ^ 31 → length l <= 2 ^ d < 2 * length l → ComputeMerkleRoot l = (root, false) →
    fits d l ∧ root = mroot d l ∧ ¬ equal_halves l) as Hspec.
  { intros l Hn Hd E. destruct (ComputeMerkleRoot_ok l Hn) as (d' & Hd' & Hr & Hm). rewrite E in Hr, Hm. cbn [fst snd] in *.
    rewrite <- (is_depth_unique l d d' Hd Hd') in Hr. split; [|split].
    - unfold fits. rewrite <- Z_pow2_nat in Hd. lia.
    - rewrite Hr. apply mroot_root; lia.
    - intros He. apply equal_halves_dup in He. apply Hm in He. done. }
  destruct (Hspec l1 Hn1 Hd1 E1) as (Hf1 & Hr1 & Hh1), (Hspec l2 Hn2 Hd2 E2) as (Hf2 & Hr2 & Hh2).
  destruct (expand_inj d l1 l2 Hf1 Hf2) as [?|[?|?]]; [|done..].
  apply mroot_expand; try done. congruence.
Qed.

Lemma expand_prefix {A : Type} (d : nat) (l : list A) : fits d l → take (length l) (expand d l) = l.
Proof.
  revert l. induction d as [|d IH]; intros l Hf; cbn [expand]; [by apply firstn_all|].
  destruct (halves_fit d l Hf) as [Hl Hr]. unfold left_half, right_half in *. destruct (length l <=? 2 ^ d)%nat eqn:E.
  - rewrite take_app_le by (rewrite length_expand by done; by apply Nat.leb_le). by apply IH.
  - apply Nat.leb_gt in E. rewrite take_app_ge by (rewrite length_expand by done; lia).
    rewrite (expand_full d (take _ _)) by (rewrite length_take; lia). rewrite length_take, Nat.min_l by lia.
    rewrite <- length_drop. rewrite IH by done. apply take_drop.
Qed.

(** Lists of the same length with the same root are equal. *)
Lemma ComputeMerkleRoot_inj_length `{CryptoHash} (l1 l2 : list (list Z)) (d : nat) :
  1 <= length l1 <= 2 ^ 31 → length l2 = length l1 → is_depth l1 d →
  Forall (λ h, length h = 32%nat) l1 → Forall (λ h, length h = 32%nat) l2 →
  collision_free (preimages d l1 ++ preimages d l2) →
  (ComputeMerkleRoot l1).1 = (ComputeMerkleRoot l2).1 → l1 = l2.
Proof.
  intros Hn Hlen Hd F1 F2 Hcf E. unfold is_depth in Hd.
  assert (∀ l : list (list Z), length l = length l1 → fits d l ∧ (ComputeMerkleRoot l).1 = mroot d l) as Hspec.
  { intros l Hl. destruct (ComputeMerkleRoot_ok l ltac:(lia)) as (d' & Hd' & Hr & _).
    assert (is_depth l d) as Hld by (unfold is_depth; by rewrite Hl).
    rewrite <- (is_depth_unique l d d' Hld Hd') in Hr. split.
    - unfold fits. rewrite <- Z_pow2_nat in Hd. lia.
    - rewrite Hr. apply mroot_root; lia. }
  destruct (Hspec l1 eq_refl) as [Hf1 R1], (Hspec l2 Hlen) as [Hf2 R2].
  rewrite <- (expand_prefix d l1 Hf1), <- (expand_prefix d l2 Hf2), Hlen. f_equal.
  apply mroot_expand; try done. congruence.
Qed.

(** C14: the constant-space computation returns the root that building the whole tree level by level returns,
    and the branch that reading it off that tree gives, for up to [2 ^ 31] leaves. *)
Theorem MerkleComputation_reference `{CryptoHash} (leaves : list (list Z)) :
  1 <= length leaves <= 2 ^ 31 →
  let '(root, _, tree) := BuildMerkleTree leaves in
  (ComputeMerkleRoot leaves).1 = root ∧
  ∀ position, 0 <= position < length leaves →
    ComputeMerkleBranch leaves position = GetMerkleBranch leaves tree position.
Proof.
  intros Hn. destruct (ComputeMerkleRoot_ok leaves Hn) as (d & Hd & Hr & _).
  destruct (BuildMerkleTree_ok leaves d ltac:(lia) Hd) as [mut ->]. split; [done|]. intros position Hp.
  destruct (depth_lengths leaves d ltac:(lia) Hd) as (H1 & Hj & Hf).
  rewrite (ComputeMerkleBranch_ok leaves d) by done. unfold GetMerkleBranch, siblings. symmetry.
  pose proof (get_branch_ok leaves (length leaves) 0 d position H1 Hj ltac:(lia) ltac:(lia) Hp) as E.
  by rewrite Z.div_1_r, Nat.sub_0_r in E.
Qed.

(** C15: a branch computed for a position verifies for the leaf at that position; and, when no two of the
    messages hashed collide, a branch of the tree's depth verifies for no other leaf. *)
Theorem MerkleBranch_correct `{CryptoHash} (leaves : list (list Z)) (position : Z) (leaf : list Z) (d : nat) :
  1 <= length leaves <= 2 ^ 31 → is_depth leaves d → 0 <= position →
  Forall (λ h, length h = 32%nat) leaves → leaves !! Z.to_nat position = Some leaf →
  ComputeMerkleRootFromBranch leaf (ComputeMerkleBranch leaves position) position = (ComputeMerkleRoot leaves).1 ∧
  ∀ leaf' br, length br = d → length leaf' = 32%nat → Forall (λ h, length h = 32%nat) br →
    collision_free (branch_messages leaf' br position ++ tree_messages leaves d) →
    ComputeMerkleRootFromBranch leaf' br position = (ComputeMerkleRoot leaves).1 → leaf' = leaf.
Proof.
  intros Hn Hd Hp Hl Hi. assert (0 <= position < length leaves) as Hp' by (apply lookup_lt_Some in Hi; lia).
  destruct (ComputeMerkleRoot_ok leaves Hn) as (d' & Hd' & -> & _). rewrite <- (is_depth_unique leaves d d' Hd Hd') in *.
  assert (node leaves 0 position = leaf) as E0 by (unfold node, tree_at; cbn [levels]; by rewrite Hi).
  assert (position / 2 ^ d = 0) as Ez by (apply Z.div_small; unfold is_depth in Hd; lia). split.
  - rewrite (ComputeMerkleBranch_ok leaves d) by done.
    pose proof (RootFromBranch_ok leaves position 0 d Hp') as E. by rewrite Z.div_1_r, Nat.add_0_l, E0, Ez in E.
  - intros leaf' br <- Hl' Hbr Hcf E. rewrite <- E0. apply (RootFromBranch_sound leaves br 0); try done.
    by rewrite E, Ez.
Qed.

(** C16: two lists of transaction hashes with the same Merkle root, in trees of the same depth, both without
    the mutation flag and without colliding messages, are equal: duplicating
    transactions cannot go unnoticed (CVE-2012-2459). *)
Theorem ComputeMerkleRoot_unmalleable `{CryptoHash} (l1 l2 : list (list Z)) (d : nat) (root : list Z) :
  1 <= length l1 <= 2 ^ 31 → 1 <= length l2 <= 2 ^ 31 → is_depth l1 d → is_depth l2 d →
  Forall (λ h, length h = 32%nat) l1 → Forall (λ h, length h = 32%nat) l2 →
  collision_free (preimages d l1 ++ preimages d l2) →
  ComputeMerkleRoot l1 = (root, false) → ComputeMerkleRoot l2 = (root, false) → l1 = l2.
Proof. apply ComputeMerkleRoot_inj. Qed.

(** ** Witnesses *)

Definition demo_leaves (n : nat) : list (list Z) := (λ i, Z.of_nat i :: replicate 31 0) <$> seq 1 n.

Lemma demo_leaves_32 (n : nat) : Forall (λ h, length h = 32%nat) (demo_leaves n).
Proof. apply Forall_fmap, list.Forall_forall. intros i _. by cbn. Qed.

Lemma MerkleComputation_reference_witness :
  (ComputeMerkleRoot (H := toy_hash) (demo_leaves 6)).1 = (BuildMerkleTree (H := toy_hash) (demo_leaves 6)).1.1.
Proof.
  pose proof (MerkleComputation_reference (H := toy_hash) (demo_leaves 6) ltac:(vm_compute; split; congruence)) as Hr.
  destruct (BuildMerkleTree (H := toy_hash) (demo_leaves 6)) as [[root mut] tree]. apply Hr.
Defined.

Lemma MerkleBranch_correct_witness :
  ComputeMerkleRootFromBranch (H := toy_hash) (6 :: replicate 31 0) (ComputeMerkleBranch (H := toy_hash) (demo_leaves 6) 5) 5 =
  (ComputeMerkleRoot (H := toy_hash) (demo_leaves 6)).1.
Proof.
  apply (MerkleBranch_correct (H := toy_hash) (demo_leaves 6) 5 (6 :: replicate 31 0) 3);
    [vm_compute; split; congruence..|lia|apply demo_leaves_32|reflexivity].
Defined.

Definition collision_freeb `{CryptoHash} (ms : list (list Z)) : bool :=
  forallb (λ x, forallb (λ y, implb (bool_decide (CHash256 x = CHash256 y)) (bool_decide (x = y))) ms) ms.

Lemma collision_freeb_ok `{CryptoHash} (ms : list (list Z)) : collision_freeb ms = true → collision_free ms.
Proof.
  unfold collision_freeb. rewrite forallb_forall. intros Hf x y Hx Hy E. apply list_elem_of_In in Hx, Hy.
  specialize (Hf x Hx). rewrite forallb_forall in Hf. specialize (Hf y Hy). rewrite bool_decide_eq_true_2 in Hf by done.
  by apply bool_decide_eq_true in Hf.
Qed.

(** The root of six leaves is also the root of eight with the last two repeated, which is flagged. *)
Lemma ComputeMerkleRoot_unmalleable_witness :
  (ComputeMerkleRoot (H := toy_hash) (demo_leaves 6 ++ drop 4 (demo_leaves 6))) =
    ((ComputeMerkleRoot (H := toy_hash) (demo_leaves 6)).1, true) ∧
  demo_leaves 6 = demo_leaves 6.
Proof.
  split; [vm_compute; reflexivity|].
  apply (ComputeMerkleRoot_unmalleable (H := toy_hash) (demo_leaves 6) (demo_leaves 6) 3
    (ComputeMerkleRoot (H := toy_hash) (demo_leaves 6)).1); [vm_compute; split; congruence..|apply demo_leaves_32|apply demo_leaves_32| | |].
  - apply collision_freeb_ok. vm_compute. reflexivity.
  - vm_compute. reflexivity.
  - vm_compute. reflexivity.
Defined.
