(* ===== verification/Undo.v ===== *)
(** * Applying and undoing blocks on the coins

    [UpdateCoins], [ApplyTxInUndo] and [DisconnectBlock] of [src/src/validation.cpp] with
    the undo data of [src/src/undo.h]: what a transaction does to a coins cache,
    what is recorded to undo it, and the disconnection of a block. *)

From Stdlib Require Import ZArith Lia.
From stdpp Require Import list option gmap.
From S2P Require Import Prelude Common Crypto Script Serialize Transaction Coins Block.

Open Scope Z_scope.
Open Scope word_scope.

(** ** Undo data *)

Record CTxUndo := { vprevout : list Coin }.
Record CBlockUndo := { vtxundo : list CTxUndo }.

Section Update.
Context {V : Type} `{CCoinsView V} `{CryptoHash}.

(** The inputs are spent in order, each spent coin moved to the undo data; [None] is the
    failed assertion. *)
Fixpoint spend_inputs (ins : list CTxIn) (inputs : CCoinsViewCache V) : option (list Coin * CCoinsViewCache V) :=
  match ins with
  | [] => Some ([], inputs)
  | txin :: ins =>
      let '(is_spent, k, inputs) := SpendCoin (prevout txin) inputs in
      if negb is_spent then None
      else '(ks, inputs) ← spend_inputs ins inputs; Some (k :: ks, inputs)
  end.

Definition UpdateCoins (tx : CTransaction) (inputs : CCoinsViewCache V) (nHeight : Z) :
    option (CTxUndo * CCoinsViewCache V) :=
  '(ks, inputs) ← (if negb (IsCoinBase tx) then spend_inputs (vin tx) inputs else Some ([], inputs));
  inputs ← AddCoins tx nHeight false inputs;
  Some ({| vprevout := ks |}, inputs).

Inductive DisconnectResult := DISCONNECT_OK | DISCONNECT_UNCLEAN | DISCONNECT_FAILED.

#[export] Instance DisconnectResult_eq_dec : EqDecision DisconnectResult.
Proof. solve_decision. Defined.

(** [None] when [AddCoin] throws. *)
Definition ApplyTxInUndo (undo : Coin) (view : CCoinsViewCache V) (o : COutPoint) :
    option (DisconnectResult * CCoinsViewCache V) :=
  let '(have, view) := HaveCoin o view in
  let fClean := negb have in
  let '(undo, view) :=
    if nHeight undo =? 0 then
      let '(alternate, view) := AccessByTxid (hash o) view in
      if negb (IsSpent alternate)
      then (Some {| out := out undo; fCoinBase := fCoinBase alternate; nHeight := nHeight alternate |}, view)
      else (None, view)
    else (Some undo, view) in
  match undo with
  | None => Some (DISCONNECT_FAILED, view)
  | Some undo =>
      view ← AddCoin o undo (negb fClean) view;
      Some (if fClean then DISCONNECT_OK else DISCONNECT_UNCLEAN, view)
  end.

(** The outputs of a transaction are taken back; the flag stays true while they are those of the block. *)
Fixpoint disconnect_outputs (txid : list Z) (is_coinbase : bool) (height : Z) (o : nat) (outs : list CTxOut)
    (fClean : bool) (view : CCoinsViewCache V) : bool * CCoinsViewCache V :=
  match outs with
  | [] => (fClean, view)
  | txout :: outs =>
      if negb (IsUnspendable (scriptPubKey txout)) then
        let '(is_spent, coin, view) := SpendCoin {| hash := txid; n := u32 o |} view in
        let fClean :=
          if negb is_spent || bool_decide (txout ≠ out coin) || negb (height =? nHeight coin)
             || negb (Bool.eqb is_coinbase (fCoinBase coin))
          then false else fClean in
        disconnect_outputs txid is_coinbase height (S o) outs fClean view
      else disconnect_outputs txid is_coinbase height (S o) outs fClean view
  end.

(** Inputs and undo coins, last first. *)
Fixpoint restore_inputs (ins : list (CTxIn * Coin)) (fClean : bool) (view : CCoinsViewCache V) :
    option (bool * bool * CCoinsViewCache V) :=
  match ins with
  | [] => Some (true, fClean, view)
  | (txin, undo) :: ins =>
      '(res, view) ← ApplyTxInUndo undo view (prevout txin);
      if bool_decide (res = DISCONNECT_FAILED) then Some (false, fClean, view)
      else restore_inputs ins (fClean && negb (bool_decide (res = DISCONNECT_UNCLEAN))) view
  end.

(** The transactions, last first, each with its undo data; the coinbase has none. *)
Fixpoint disconnect_txs (txs : list (CTransaction * option CTxUndo)) (height : Z) (fClean : bool)
    (view : CCoinsViewCache V) : option (bool * bool * CCoinsViewCache V) :=
  match txs with
  | [] => Some (true, fClean, view)
  | (tx, txundo) :: txs =>
      let '(fClean, view) := disconnect_outputs (GetHash tx) (IsCoinBase tx) height 0 (vout tx) fClean view in
      match txundo with
      | None => disconnect_txs txs height fClean view
      | Some txundo =>
          if negb (length (vprevout txundo) =? length (vin tx))%nat then Some (false, fClean, view)
          else
            '(ok, fClean, view) ← restore_inputs (reverse (zip (vin tx) (vprevout txundo))) fClean view;
            if negb ok then Some (false, fClean, view) else disconnect_txs txs height fClean view
      end
  end.

(** [blockUndo] is [None] when the block has no undo data or it cannot be read;
    [hashPrev] is the hash of the previous block. *)
Definition DisconnectBlock (block : CBlock) (blockUndo : option CBlockUndo) (height : Z) (hashPrev : list Z)
    (view : CCoinsViewCache V) : option (DisconnectResult * CCoinsViewCache V) :=
  match blockUndo with
  | None => Some (DISCONNECT_FAILED, view)
  | Some blockUndo =>
      if negb (length (vtxundo blockUndo) + 1 =? length (vtx block))%nat then Some (DISCONNECT_FAILED, view)
      else
        '(ok, fClean, view) ←
          disconnect_txs (reverse (zip (vtx block) (None :: (Some <$> vtxundo blockUndo)))) height true view;
        if negb ok then Some (DISCONNECT_FAILED, view)
        else Some (if fClean : bool then DISCONNECT_OK else DISCONNECT_UNCLEAN, SetBestBlock hashPrev view)
  end.
End Update.

(** ** What a transaction does to the set of coins *)

Abbreviation coins_map := (gmap COutPoint Coin).

Definition txout_at (txid : list Z) (j : nat) : COutPoint := {| hash := txid; n := u32 j |}.

Fixpoint outputs_added (txid : list Z) (cb : bool) (height : Z) (i : nat) (outs : list CTxOut) (g : coins_map) : coins_map :=
  match outs with
  | [] => g
  | o :: outs =>
      outputs_added txid cb height (S i) outs
        (if IsUnspendable (scriptPubKey o) then g else <[txout_at txid i := Coin_make o height cb]> g)
  end.

Definition inputs_removed (ins : list CTxIn) (g : coins_map) : coins_map :=
  foldl (λ g i, delete (prevout i) g) g ins.

Definition spent_coins (ins : list CTxIn) (g : coins_map) : list Coin := omap (λ i, g !! prevout i) ins.

Section Apply.
Context `{CryptoHash}.

Definition apply_tx (tx : CTransaction) (height : Z) (g : coins_map) : coins_map :=
  outputs_added (GetHash tx) (IsCoinBase tx) height 0 (vout tx)
    (if IsCoinBase tx then g else inputs_removed (vin tx) g).

Definition tx_undo (tx : CTransaction) (g : coins_map) : CTxUndo :=
  {| vprevout := if IsCoinBase tx then [] else spent_coins (vin tx) g |}.

(** The inputs exist, each once; the outputs are new. *)
Definition tx_applies (tx : CTransaction) (g : coins_map) : Prop :=
  (IsCoinBase tx = false → Forall (λ i, is_Some (g !! prevout i)) (vin tx) ∧ NoDup (prevout <$> vin tx)) ∧
  Forall (λ o, CTxOut_IsNull o = false) (vout tx) ∧ length (vout tx) <= 2 ^ 32 ∧
  ∀ j, (j < length (vout tx))%nat → g !! txout_at (GetHash tx) j = None.
End Apply.

(** Coins as they are in the set: unspent, with metadata and a spendable script. *)
Definition coin_wf (k : Coin) : Prop :=
  IsSpent k = false ∧ Coins.nHeight k ≠ 0 ∧ IsUnspendable (scriptPubKey (out k)) = false.

Definition coins_wf (g : coins_map) : Prop := map_Forall (λ _, coin_wf) g.

Lemma txout_at_inj (txid : list Z) (i j : nat) : i < 2 ^ 32 → j < 2 ^ 32 → txout_at txid i = txout_at txid j → i = j.
Proof. intros Hi Hj [= E]. unfold u32 in E. rewrite !wrap_small in E by (unfold is_word; lia). lia. Qed.

Lemma lookup_inputs_removed (ins : list CTxIn) (g : coins_map) (o : COutPoint) :
  inputs_removed ins g !! o = if decide (o ∈ prevout <$> ins) then None else g !! o.
Proof.
  revert g. induction ins as [|i ins IH]; intros g; cbn [inputs_removed foldl fmap list_fmap].
  { rewrite decide_False; [done|apply not_elem_of_nil]. }
  fold (inputs_removed ins (delete (prevout i) g)). rewrite IH.
  destruct (decide (o ∈ prevout <$> ins)) as [Hin|Hni].
  - rewrite decide_True; [done|]. by right.
  - destruct (decide (o = prevout i)) as [->|Hne].
    + rewrite lookup_delete_eq, decide_True; [done|left].
    + rewrite lookup_delete_ne, decide_False; [done| |done]. intros [?|?]%elem_of_cons; done.
Qed.

Lemma lookup_outputs_added_ne (txid : list Z) (cb : bool) (height : Z) (i : nat) (outs : list CTxOut) (g : coins_map) (o : COutPoint) :
  (∀ j, (i ≤ j < i + length outs)%nat → o ≠ txout_at txid j) → outputs_added txid cb height i outs g !! o = g !! o.
Proof.
  revert i g. induction outs as [|x outs IH]; intros i g Hne; cbn [outputs_added]; [done|]. cbn [length] in Hne.
  rewrite IH by (intros; apply Hne; lia). destruct (IsUnspendable _); [done|].
  rewrite lookup_insert_ne; [done|]. intros E. apply (Hne i); [lia|done].
Qed.

(** Taking back the first output. *)
Lemma delete_outputs_added (txid : list Z) (cb : bool) (height : Z) (i j : nat) (outs : list CTxOut) (g : coins_map) :
  (j < i)%nat → i + length outs <= 2 ^ 32 →
  delete (txout_at txid j) (outputs_added txid cb height i outs g) =
  outputs_added txid cb height i outs (delete (txout_at txid j) g).
Proof.
  revert i g. induction outs as [|x outs IH]; intros i g Hj Hl; cbn [outputs_added length] in *; [done|].
  rewrite IH by lia. destruct (IsUnspendable _); [done|]. f_equal. apply delete_insert_ne.
  intros E. apply txout_at_inj in E; lia.
Qed.

Lemma coins_wf_removed (ins : list CTxIn) (g : coins_map) : coins_wf g → coins_wf (inputs_removed ins g).
Proof.
  intros Hg o k Hk. rewrite lookup_inputs_removed in Hk. case_decide; [done|]. by apply (Hg o).
Qed.

Lemma coins_wf_added (txid : list Z) (cb : bool) (height : Z) (i : nat) (outs : list CTxOut) (g : coins_map) :
  0 < height < 2 ^ 31 → Forall (λ o, CTxOut_IsNull o = false) outs → coins_wf g →
  coins_wf (outputs_added txid cb height i outs g).
Proof.
  intros Hh Ho. revert i g. induction Ho as [|o outs Ho _ IH]; intros i g Hg; cbn [outputs_added]; [done|].
  apply IH. destruct (IsUnspendable _) eqn:E; [done|]. apply map_Forall_insert_2; [|done].
  split; [done|]. split; [|done]. cbn. rewrite wrap_small; [lia|]. split; lia.
Qed.

(** ** The cache follows *)

Section Follows.
Context {V : Type} `{CCoinsViewLaws V} `{CryptoHash}.
Implicit Types (c view : CCoinsViewCache V) (g : coins_map).

(** A cache that stands for a set of coins. *)
Definition view_is c g : Prop := cache_ok c ∧ ∀ o, cache_coins c o = g !! o.

Lemma view_is_ext c g g' : view_is c g → g = g' → view_is c g'.
Proof. by intros ? <-. Qed.

Lemma SpendCoin_is c g o k :
  view_is c g → g !! o = Some k →
  ∃ c', SpendCoin o c = (true, k, c') ∧ view_is c' (delete o g) ∧ cache_best c' = cache_best c.
Proof.
  intros [Hc Hg] Hk. pose proof (SpendCoin_ok c o Hc) as Hs. destruct (SpendCoin o c) as [[r k'] c'].
  destruct Hs as (Hc' & Hb & Hco & Hr). rewrite Hg, Hk in Hr. destruct Hr as [-> ->]. exists c'. split; [done|]. split; [|done].
  split; [done|]. intros o'. rewrite Hco, lookup_delete. case_decide as E; case_decide as E'; try done; congruence.
Qed.

Lemma AddCoin_is c g o k (ow : bool) :
  view_is c g → IsSpent k = false → (ow = false → g !! o = None) →
  ∃ c', AddCoin o k ow c = Some c' ∧ cache_best c' = cache_best c ∧
    view_is c' (if IsUnspendable (scriptPubKey (out k)) then g else <[o := k]> g).
Proof.
  intros [Hc Hg] Hk Ho. destruct (AddCoin_ok c o k ow Hc Hk) as (c' & -> & Hc' & Hb & Hco).
  { rewrite Hg. done. }
  exists c'. split; [done|]. split; [done|]. split; [done|]. intros o'. rewrite Hco. destruct (IsUnspendable _).
  - case_decide; subst; apply Hg.
  - rewrite lookup_insert, <- Hg. case_decide as E; case_decide as E'; try done; congruence.
Qed.

Lemma spend_inputs_is (ins : list CTxIn) c g :
  view_is c g → Forall (λ i, is_Some (g !! prevout i)) ins → NoDup (prevout <$> ins) →
  ∃ c', spend_inputs ins c = Some (spent_coins ins g, c') ∧ view_is c' (inputs_removed ins g) ∧ cache_best c' = cache_best c.
Proof.
  revert c g. induction ins as [|i ins IH]; intros c g Hv Hf Hnd; [by exists c|].
  apply Forall_cons_1 in Hf as [[k Hk] Hf]. rewrite fmap_cons in Hnd. apply NoDup_cons_1_1 in Hnd as Hni. apply NoDup_cons_1_2 in Hnd.
  cbn [spend_inputs]. destruct (SpendCoin_is c g (prevout i) k Hv Hk) as (c1 & -> & Hv1 & Hb1). cbn [negb].
  assert (∀ j, j ∈ ins → delete (prevout i) g !! prevout j = g !! prevout j) as Hsame.
  { intros j Hj. rewrite lookup_delete_ne; [done|]. intros E. apply Hni. rewrite E. by apply list_elem_of_fmap_2. }
  destruct (IH c1 (delete (prevout i) g) Hv1) as (c2 & -> & Hv2 & Hb2); [|done|].
  { apply list.Forall_forall. intros j Hj. rewrite Hsame by done. by apply (proj1 (list.Forall_forall _ _) Hf). }
  ocbn. exists c2. split; [|split; [done|congruence]]. f_equal. f_equal.
  unfold spent_coins. cbn. rewrite Hk. f_equal.
  apply list_omap_ext, Forall_Forall2_diag, list.Forall_forall. exact Hsame.
Qed.

Lemma AddCoins_loop_is (txid : list Z) (cb : bool) (height : Z) (i : nat) (outs : list CTxOut) c g :
  view_is c g → i + length outs <= 2 ^ 32 → Forall (λ o, CTxOut_IsNull o = false) outs →
  (cb = false → ∀ j, (i ≤ j < i + length outs)%nat → g !! txout_at txid j = None) →
  ∃ c', AddCoins_loop txid cb false height i outs c = Some c' ∧ cache_best c' = cache_best c ∧
    view_is c' (outputs_added txid cb height i outs g).
Proof.
  intros Hv Hl Ho. revert i c g Hv Hl. induction Ho as [|o outs Ho _ IH]; intros i c g Hv Hl Hnew; cbn [AddCoins_loop outputs_added length] in *.
  { by exists c. }
  destruct (AddCoin_is c g (txout_at txid i) (Coin_make o height cb) cb Hv Ho) as (c1 & E1 & Hb1 & Hv1).
  { intros E. apply Hnew; [done|lia]. }
  unfold txout_at in E1. rewrite E1. ocbn. cbn [out Coin_make] in Hv1.
  destruct (IH (S i) c1 _ Hv1 ltac:(lia)) as (c2 & -> & Hb2 & Hv2); [|exists c2; split; [done|split; [congruence|done]]].
  intros E j Hj. destruct (IsUnspendable _); [apply Hnew; [done|lia]|].
  rewrite lookup_insert_ne; [apply Hnew; [done|lia]|]. intros E'. apply txout_at_inj in E'; lia.
Qed.

Lemma UpdateCoins_is (tx : CTransaction) (height : Z) c g :
  view_is c g → tx_applies tx g →
  ∃ c', UpdateCoins tx c height = Some (tx_undo tx g, c') ∧ view_is c' (apply_tx tx height g) ∧ cache_best c' = cache_best c.
Proof.
  intros Hv (Hin & Ho & Hl & Hnew). unfold UpdateCoins, apply_tx, tx_undo, AddCoins. destruct (IsCoinBase tx) eqn:Ecb; cbn [negb]; ocbn.
  - destruct (AddCoins_loop_is (GetHash tx) true height 0 (vout tx) c g Hv) as (c2 & -> & Hb2 & Hv2); [lia|done|done|].
    ocbn. by exists c2.
  - destruct Hin as [Hex Hnd]; [done|].
    destruct (spend_inputs_is (vin tx) c g Hv Hex Hnd) as (c1 & -> & Hv1 & Hb1). ocbn.
    destruct (AddCoins_loop_is (GetHash tx) false height 0 (vout tx) c1 _ Hv1) as (c2 & -> & Hb2 & Hv2); [lia|done| |].
    { intros _ j Hj. rewrite lookup_inputs_removed, Hnew by lia. by case_decide. }
    ocbn. exists c2. split; [done|]. split; [done|congruence].
Qed.

Lemma disconnect_outputs_is (txid : list Z) (cb : bool) (height : Z) (i : nat) (outs : list CTxOut) (fClean : bool) c g :
  view_is c (outputs_added txid cb height i outs g) → i + length outs <= 2 ^ 32 → 0 <= height < 2 ^ 31 →
  (∀ j, (i ≤ j < i + length outs)%nat → g !! txout_at txid j = None) →
  ∃ c', disconnect_outputs txid cb height i outs fClean c = (fClean, c') ∧ view_is c' g ∧ cache_best c' = cache_best c.
Proof.
  revert i c g. induction outs as [|o outs IH]; intros i c g Hv Hl Hh Hnew; cbn [disconnect_outputs outputs_added length] in *.
  { by exists c. }
  destruct (IsUnspendable (scriptPubKey o)) eqn:Eu; cbn [negb]; [apply IH; try done; [lia|intros; apply Hnew; lia]|].
  assert (outputs_added txid cb height (S i) outs (<[txout_at txid i := Coin_make o height cb]> g) !! txout_at txid i =
    Some (Coin_make o height cb)) as Hk.
  { rewrite lookup_outputs_added_ne, lookup_insert_eq; [done|]. intros j Hj E. apply txout_at_inj in E; lia. }
  destruct (SpendCoin_is c _ _ _ Hv Hk) as (c1 & E1 & Hv1 & Hb1). unfold txout_at in E1. rewrite E1.
  rewrite delete_outputs_added, delete_insert_id in Hv1 by (lia || (apply Hnew; lia)).
  cbn [negb orb out nHeight fCoinBase Coin_make]. rewrite wrap_small by (split; lia).
  rewrite Z.eqb_refl, Bool.eqb_reflx, bool_decide_eq_false_2 by auto. cbn [negb orb].
  destruct (IH (S i) c1 g Hv1 ltac:(lia) Hh) as (c2 & -> & Hv2 & Hb2); [intros; apply Hnew; lia|].
  exists c2. split; [done|]. split; [done|congruence].
Qed.

Lemma ApplyTxInUndo_is (undo : Coin) (o : COutPoint) c g :
  view_is c g → coin_wf undo → g !! o = None →
  ∃ c', ApplyTxInUndo undo c o = Some (DISCONNECT_OK, c') ∧ view_is c' (<[o := undo]> g) ∧ cache_best c' = cache_best c.
Proof.
  intros [Hc Hg] (Hs & Hh & Hu) Ho. unfold ApplyTxInUndo.
  pose proof (HaveCoin_ok c o Hc) as Hhave. destruct (HaveCoin o c) as [b c1]. destruct Hhave as (-> & Hc1 & Hb1 & Hco1).
  rewrite Hg, Ho. rewrite bool_decide_eq_false_2 by (by intros [? ?]). cbn [negb].
  rewrite (proj2 (Z.eqb_neq _ _) Hh).
  destruct (AddCoin_is c1 g o undo false) as (c2 & -> & Hb2 & Hv2); [|done|done|].
  { split; [done|]. intros o'. by rewrite Hco1. }
  ocbn. rewrite Hu in Hv2. exists c2. split; [done|]. split; [done|congruence].
Qed.

Lemma length_spent_coins (ins : list CTxIn) g :
  Forall (λ i, is_Some (g !! prevout i)) ins → length (spent_coins ins g) = length ins.
Proof. induction 1 as [|j ins [k Hk] _ IH]; [done|]. unfold spent_coins in *. cbn. rewrite Hk. cbn. by rewrite IH. Qed.

Lemma restore_inputs_is (ins : list CTxIn) (fClean : bool) c g :
  coins_wf g → view_is c (inputs_removed ins g) → Forall (λ i, is_Some (g !! prevout i)) ins → NoDup (prevout <$> ins) →
  ∃ c', restore_inputs (reverse (zip ins (spent_coins ins g))) fClean c = Some (true, fClean, c') ∧
    view_is c' g ∧ cache_best c' = cache_best c.
Proof.
  intros Hwf. revert c. induction ins as [|i ins IH] using rev_ind; intros c Hv Hf Hnd; [by exists c|].
  apply Forall_app in Hf as [Hf Hi]. apply Forall_cons_1 in Hi as [[k Hk] _].
  rewrite fmap_app in Hnd. apply list.NoDup_app in Hnd as (Hnd & Hni & _).
  pose proof (length_spent_coins ins g Hf) as Hlen. unfold spent_coins in *. rewrite omap_app. cbn [omap list_omap]. rewrite Hk.
  rewrite zip_with_app by done. cbn [zip_with]. rewrite reverse_snoc. cbn [restore_inputs].
  assert (prevout i ∉ prevout <$> ins) as Hni'.
  { intros Hin. apply (Hni _ Hin). left. }
  unfold inputs_removed in Hv. rewrite foldl_snoc in Hv. fold (inputs_removed ins g) in Hv.
  destruct (ApplyTxInUndo_is k (prevout i) c _ Hv (Hwf _ _ Hk)) as (c1 & -> & Hv1 & Hb1); [apply lookup_delete_eq|].
  ocbn. rewrite bool_decide_eq_false_2 by done. rewrite bool_decide_eq_false_2 by done. rewrite andb_true_r.
  rewrite insert_delete_id in Hv1 by (by rewrite lookup_inputs_removed, decide_False).
  destruct (IH c1 Hv1 Hf Hnd) as (c2 & E & Hv2 & Hb2). unfold spent_coins in E. rewrite E.
  exists c2. split; [done|]. split; [done|congruence].
Qed.

(** ** Blocks *)

Fixpoint apply_txs (txs : list CTransaction) (height : Z) g : coins_map :=
  match txs with [] => g | tx :: txs => apply_txs txs height (apply_tx tx height g) end.

Fixpoint txs_undo (txs : list CTransaction) (height : Z) g : list CTxUndo :=
  match txs with [] => [] | tx :: txs => tx_undo tx g :: txs_undo txs height (apply_tx tx height g) end.

Fixpoint txs_apply (txs : list CTransaction) (height : Z) g : Prop :=
  match txs with [] => True | tx :: txs => tx_applies tx g ∧ txs_apply txs height (apply_tx tx height g) end.

Lemma apply_tx_wf (tx : CTransaction) (height : Z) g :
  0 < height < 2 ^ 31 → tx_applies tx g → coins_wf g → coins_wf (apply_tx tx height g).
Proof.
  intros Hh (_ & Ho & _) Hg. unfold apply_tx. apply coins_wf_added; [done..|].
  destruct (IsCoinBase tx); [done|]. by apply coins_wf_removed.
Qed.

Lemma disconnect_tx_is (tx : CTransaction) (height : Z) (rest : list (CTransaction * option CTxUndo)) (fClean : bool) c g :
  0 < height < 2 ^ 31 → coins_wf g → tx_applies tx g → view_is c (apply_tx tx height g) →
  ∃ c', disconnect_txs ((tx, if IsCoinBase tx then None else Some (tx_undo tx g)) :: rest) height fClean c =
      disconnect_txs rest height fClean c' ∧ view_is c' g ∧ cache_best c' = cache_best c.
Proof.
  intros Hh Hwf (Hin & _ & Hl & Hnew) Hv. cbn [disconnect_txs]. unfold apply_tx, tx_undo in *.
  set (g' := if IsCoinBase tx then g else inputs_removed (vin tx) g) in *.
  destruct (disconnect_outputs_is (GetHash tx) (IsCoinBase tx) height 0 (vout tx) fClean c g' Hv) as (c1 & -> & Hv1 & Hb1); [lia..| |].
  { intros j Hj. unfold g'. destruct (IsCoinBase tx); [apply Hnew; lia|]. rewrite lookup_inputs_removed, Hnew by lia. by case_decide. }
  unfold g' in *. clear g'. destruct (IsCoinBase tx); [by exists c1|]. destruct Hin as [Hex Hnd]; [done|].
  cbn [vprevout]. rewrite length_spent_coins, Nat.eqb_refl by done. cbn [negb].
  destruct (restore_inputs_is (vin tx) fClean c1 g Hwf Hv1 Hex Hnd) as (c2 & -> & Hv2 & Hb2). ocbn. cbn [negb].
  exists c2. split; [done|]. split; [done|congruence].
Qed.

Lemma disconnect_txs_is (txs : list CTransaction) (height : Z) (rest : list (CTransaction * option CTxUndo)) (fClean : bool) c g :
  0 < height < 2 ^ 31 → coins_wf g → txs_apply txs height g → view_is c (apply_txs txs height g) →
  ∃ c', disconnect_txs (reverse (zip txs (zip_with (λ tx u, if IsCoinBase tx then None else Some u) txs (txs_undo txs height g))) ++ rest)
        height fClean c = disconnect_txs rest height fClean c' ∧ view_is c' g ∧ cache_best c' = cache_best c.
Proof.
  intros Hh. revert rest c g. induction txs as [|tx txs IH]; intros rest c g Hwf Ha Hv; [by exists c|].
  destruct Ha as [Ht Ha]. cbn [zip_with txs_undo apply_txs] in *. rewrite reverse_cons, <- app_assoc. cbn [app].
  destruct (IH ((tx, if IsCoinBase tx then None else Some (tx_undo tx g)) :: rest) c (apply_tx tx height g)) as (c1 & E & Hv1 & Hb1);
    [by apply apply_tx_wf|done|done|]. rewrite E.
  destruct (disconnect_tx_is tx height rest fClean c1 g Hh Hwf Ht Hv1) as (c2 & -> & Hv2 & Hb2).
  exists c2. split; [done|]. split; [done|congruence].
Qed.

(** The coinbase has no undo data, the other transactions have theirs. *)
Lemma block_undo_list (cb : CTransaction) (txs : list CTransaction) (height : Z) g :
  IsCoinBase cb = true → Forall (λ tx, IsCoinBase tx = false) txs →
  zip_with (λ tx u, if IsCoinBase tx then None else Some u) (cb :: txs) (txs_undo (cb :: txs) height g) =
  None :: (Some <$> txs_undo txs height (apply_tx cb height g)).
Proof.
  intros Hcb Htxs. cbn [zip_with txs_undo]. rewrite Hcb. f_equal. generalize (apply_tx cb height g).
  induction Htxs as [|tx txs Ht _ IH]; intros g'; [done|]. cbn [zip_with txs_undo fmap list_fmap]. rewrite Ht. f_equal. apply IH.
Qed.

Lemma length_txs_undo (txs : list CTransaction) (height : Z) g : length (txs_undo txs height g) = length txs.
Proof. revert g. induction txs as [|tx txs IH]; intros g; [done|]. cbn. by rewrite IH. Qed.

Lemma DisconnectBlock_ok (block : CBlock) (cb : CTransaction) (txs : list CTransaction) (height : Z) (hashPrev : list Z) c g :
  vtx block = cb :: txs → IsCoinBase cb = true → Forall (λ tx, IsCoinBase tx = false) txs →
  0 < height < 2 ^ 31 → coins_wf g → txs_apply (vtx block) height g → view_is c (apply_txs (vtx block) height g) →
  ∃ c', DisconnectBlock block (Some {| vtxundo := txs_undo txs height (apply_tx cb height g) |}) height hashPrev c =
      Some (DISCONNECT_OK, c') ∧ view_is c' g ∧ hashBlock c' = hashPrev.
Proof.
  intros Ev Hcb Htxs Hh Hwf Ha Hv. unfold DisconnectBlock. cbn [vtxundo]. rewrite length_txs_undo, Ev.
  replace (length txs + 1 =? length (cb :: txs))%nat with true by (symmetry; apply Nat.eqb_eq; cbn; lia). cbn [negb].
  rewrite Ev in *. destruct (disconnect_txs_is (cb :: txs) height [] true c g Hh Hwf Ha Hv) as (c1 & E & Hv1 & Hb1).
  rewrite block_undo_list, app_nil_r in E by done. rewrite E. cbn [disconnect_txs]. ocbn. cbn [negb].
  eexists. split; [done|]. split; [|done]. exact Hv1.
Qed.
End Follows.
