(* ===== verification/BlockCheck.v ===== *)
(** * Checks of a block

    [CheckBlockHeader], [CheckBlock], [ContextualCheckBlockHeader] and
    [ContextualCheckBlock] of [src/src/validation.cpp] with the witness commitment
    of the coinbase, [GetLastCheckpoint] of [src/src/checkpoints.cpp], the block
    version and the script flags of a block, and the block subsidy.  A failed
    assertion or a null dereference is [None]; a rejection is the value [false] with the
    validation state. *)

From Stdlib Require Import ZArith Lia String.
From stdpp Require Import list option gmap.
From S2P Require Import Prelude Common Chain Pow VersionBits Crypto Script Interpreter Serialize Transaction SigHash Coins TxVerify Block Merkle.

Open Scope Z_scope.
Open Scope word_scope.

(** ** The subsidy *)

Definition GetBlockSubsidy (nHeight : Z) (params : Params) : Z :=
  let halvings := Z.quot nHeight (nSubsidyHalvingInterval params) in
  if 64 <=? halvings then 0
  else
    let nSubsidy :=
      if nHeight =? 1 then 4242488 * COIN
      else if nHeight <? 1500 then 500 * COIN
      else 4 * COIN in
    nSubsidy .>> halvings.

(** ** Versions and script flags *)

Section Deployments.
Variable blocks : gmap ptr CBlockIndex.

(** [ComputeBlockVersion]: the signalling bits of the deployments that are started or locked in. *)
Fixpoint version_loop (n i : nat) (pindexPrev : option ptr) (params : Params) (caches : list ThresholdConditionCache) (nVersion : Z) :
    option (Z * list ThresholdConditionCache) :=
  match n with
  | O => Some (nVersion, caches)
  | S n =>
      '(st, caches) ← VersionBitsState blocks pindexPrev params i caches;
      d ← vDeployments params !! i;
      let nVersion :=
        match st with
        | THRESHOLD_LOCKED_IN | THRESHOLD_STARTED => i32 (nVersion .| Mask d)
        | _ => nVersion
        end in
      version_loop n (S i) pindexPrev params caches nVersion
  end.

Definition MAX_VERSION_BITS_DEPLOYMENTS : nat := 1.

Definition ComputeBlockVersion (pindexPrev : option ptr) (params : Params) (caches : list ThresholdConditionCache) :
    option (Z * list ThresholdConditionCache) :=
  version_loop MAX_VERSION_BITS_DEPLOYMENTS 0 pindexPrev params caches VERSIONBITS_TOP_BITS.

Definition IsWitnessEnabled (params : Params) : bool := nSegwitEnabled params.

Definition GetBlockScriptFlags (pindex : CBlockIndex) (params : Params) : Z :=
  let nBIP16SwitchTime := 1333238400 in
  let flags := if nBIP16SwitchTime <=? Chain.GetBlockTime pindex then SCRIPT_VERIFY_P2SH else SCRIPT_VERIFY_NONE in
  let flags := if nBIP66Enabled params then flags .| SCRIPT_VERIFY_DERSIG else flags in
  let flags := if nBIP65Enabled params then flags .| SCRIPT_VERIFY_CHECKLOCKTIMEVERIFY else flags in
  let flags := if nCSVEnabled params then flags .| SCRIPT_VERIFY_CHECKSEQUENCEVERIFY else flags in
  if IsWitnessEnabled params then flags .| SCRIPT_VERIFY_WITNESS .| SCRIPT_VERIFY_NULLDUMMY else flags.
End Deployments.

(** ** Context-free checks *)

Section Checks.
Context `{CryptoHash} `{SphHash}.

Definition CheckBlockHeader (block : CBlockHeader) (st : CValidationState) (params : Params) (fCheckPOW : bool) :
    option (bool * CValidationState) :=
  if fCheckPOW then
    hash ← BlockHeader_GetHash block;
    if negb (CheckProofOfWork hash (hBits block) params)
    then Some (false, DoS 50 REJECT_INVALID "high-hash" false st) else Some (true, st)
  else Some (true, st).

Definition check_merkle_root (block : CBlock) (st : CValidationState) : bool * CValidationState :=
  let '(hashMerkleRoot2, mutated) := BlockMerkleRoot block in
  if bool_decide (hMerkleRoot (header block) ≠ hashMerkleRoot2)
  then (false, DoS 100 REJECT_INVALID "bad-txnmrklroot" true st)
  else if mutated then (false, DoS 100 REJECT_INVALID "bad-txns-duplicate" true st)
  else (true, st).

Fixpoint check_transactions (txs : list CTransaction) (st : CValidationState) : bool * CValidationState :=
  match txs with
  | [] => (true, st)
  | tx :: txs =>
      let '(ok, st) := CheckTransaction tx st false in
      if negb ok then (false, Invalid (chRejectCode st) (strRejectReason st) st)
      else check_transactions txs st
  end.

Fixpoint block_sigops (txs : list CTransaction) (nSigOps : Z) : option Z :=
  match txs with
  | [] => Some nSigOps
  | tx :: txs => k ← GetLegacySigOpCount tx; block_sigops txs (u32 (nSigOps + k))
  end.

(** The block with its [fChecked] flag. *)
Definition CheckBlock (block : CBlock) (st : CValidationState) (params : Params) (fCheckPOW fCheckMerkleRoot : bool) :
    option (bool * CValidationState * CBlock) :=
  if fChecked block then Some (true, st, block)
  else
    '(ok, st) ← CheckBlockHeader (header block) st params fCheckPOW;
    if negb ok then Some (false, st, block)
    else
      let '(ok, st) := if fCheckMerkleRoot then check_merkle_root block st else (true, st) in
      if negb ok then Some (false, st, block)
      else if (length (vtx block) =? 0)%nat || (MAX_BLOCK_WEIGHT <? length (vtx block) * WITNESS_SCALE_FACTOR)
              || (MAX_BLOCK_WEIGHT <? GetSerializeSize (ser_CBlock (PROTOCOL_VERSION .| SERIALIZE_TRANSACTION_NO_WITNESS)) block
                                       * WITNESS_SCALE_FACTOR)
      then Some (false, DoS 100 REJECT_INVALID "bad-blk-length" false st, block)
      else
        match vtx block with
        | [] => Some (false, DoS 100 REJECT_INVALID "bad-cb-missing" false st, block)
        | cb :: txs =>
            if negb (IsCoinBase cb) then Some (false, DoS 100 REJECT_INVALID "bad-cb-missing" false st, block)
            else if existsb IsCoinBase txs then Some (false, DoS 100 REJECT_INVALID "bad-cb-multiple" false st, block)
            else
              let '(ok, st) := check_transactions (vtx block) st in
              if negb ok then Some (false, st, block)
              else
                nSigOps ← block_sigops (vtx block) 0;
                if MAX_BLOCK_SIGOPS_COST <? u32 (nSigOps * WITNESS_SCALE_FACTOR)
                then Some (false, DoS 100 REJECT_INVALID "bad-blk-sigops" false st, block)
                else Some (true, st, {| header := header block; vtx := vtx block;
                                        fChecked := fCheckPOW && fCheckMerkleRoot || fChecked block |})
        end.

(** ** The witness commitment *)

Definition is_commitment (script : CScript) : bool :=
  (38 <=? length script)%nat && (script.[0] =? OP_RETURN) && (script.[1] =? 0x24) && (script.[2] =? 0xaa)
  && (script.[3] =? 0x21) && (script.[4] =? 0xa9) && (script.[5] =? 0xed).

Fixpoint commitment_loop (o : Z) (outs : list CTxOut) (commitpos : Z) : Z :=
  match outs with
  | [] => commitpos
  | txout :: outs => commitment_loop (o + 1) outs (if is_commitment (scriptPubKey txout) then o else commitpos)
  end.

Definition GetWitnessCommitmentIndex (block : CBlock) : Z :=
  match vtx block with
  | [] => -1
  | cb :: _ => commitment_loop 0 (vout cb) (-1)
  end.

Definition with_vtx (block : CBlock) (txs : list CTransaction) : CBlock :=
  {| header := header block; vtx := txs; fChecked := fChecked block |}.

(** [None] when the coinbase has no input to put the nonce in. *)
Definition UpdateUncommittedBlockStructures (block : CBlock) (params : Params) : option CBlock :=
  match vtx block with
  | [] => Some block
  | cb :: txs =>
      if negb (GetWitnessCommitmentIndex block =? -1) && IsWitnessEnabled params && negb (HasWitness cb) then
        match vin cb with
        | [] => None
        | i :: ins =>
            Some (with_vtx block
              ({| vin := with_witness i [replicate 32 0] :: ins; vout := vout cb; nVersion := Transaction.nVersion cb; nLockTime := nLockTime cb |}
               :: txs))
        end
      else Some block
  end.

Definition commitment_script (hash : list Z) : CScript := [OP_RETURN; 0x24; 0xaa; 0x21; 0xa9; 0xed] ++ hash.

(** The commitment and the block with it. *)
Definition GenerateCoinbaseCommitment (block : CBlock) (params : Params) : option (list Z * CBlock) :=
  '(commitment, block) ←
    (if nSegwitEnabled params && (GetWitnessCommitmentIndex block =? -1) then
       '(witnessroot, _) ← BlockWitnessMerkleRoot block;
       let script := commitment_script (CHash256 (witnessroot ++ replicate 32 0)) in
       match vtx block with
       | [] => None
       | cb :: txs =>
           Some (script, with_vtx block
             ({| vin := vin cb; vout := vout cb ++ [{| nValue := 0; scriptPubKey := script |}];
                 nVersion := Transaction.nVersion cb; nLockTime := nLockTime cb |} :: txs))
       end
     else Some ([], block));
  block ← UpdateUncommittedBlockStructures block params;
  Some (commitment, block).

(** ** Contextual checks *)

(** [Checkpoints::GetLastCheckpoint]: the last checkpoint whose block is known. *)
Fixpoint last_checkpoint (checkpoints : list (Z * list Z)) (mapBlockIndex : list Z → option ptr) : option ptr :=
  match checkpoints with
  | [] => None
  | (_, hash) :: checkpoints =>
      match mapBlockIndex hash with Some t => Some t | None => last_checkpoint checkpoints mapBlockIndex end
  end.

Definition GetLastCheckpoint (mapCheckpoints : list (Z * list Z)) (mapBlockIndex : list Z → option ptr) : option ptr :=
  last_checkpoint (reverse mapCheckpoints) mapBlockIndex.

Definition MAX_FUTURE_BLOCK_TIME : Z := 2 * 60 * 60.

Definition ContextualCheckBlockHeader (blocks : gmap ptr CBlockIndex) (mapBlockIndex : list Z → option ptr)
    (fCheckpointsEnabled : bool) (mapCheckpoints : list (Z * list Z)) (params : Params)
    (block : CBlockHeader) (st : CValidationState) (pindexPrev : ptr) (nAdjustedTime : Z) :
    option (bool * CValidationState) :=
  b ← blocks !! pindexPrev;
  let nHeight := Chain.nHeight b + 1 in
  bits ← GetNextWorkRequired blocks params pindexPrev (hTime block);
  if negb (hBits block =? bits) then Some (false, DoS 100 REJECT_INVALID "bad-diffbits" false st)
  else
    pcheckpoint ←
      (if fCheckpointsEnabled then
         match GetLastCheckpoint mapCheckpoints mapBlockIndex with
         | None => Some false
         | Some p => c ← blocks !! p; Some (nHeight <? Chain.nHeight c)
         end
       else Some false);
    if pcheckpoint : bool then Some (false, DoS 100 REJECT_CHECKPOINT "bad-fork-prior-to-checkpoint" false st)
    else
      mtp ← GetMedianTimePast blocks pindexPrev;
      if GetBlockTime block <=? mtp then Some (false, Invalid REJECT_INVALID "time-too-old" st)
      else if nAdjustedTime + MAX_FUTURE_BLOCK_TIME <? GetBlockTime block
      then Some (false, Invalid REJECT_INVALID "time-too-new" st)
      else Some (true, st).

Fixpoint all_final (txs : list CTransaction) (nHeight nLockTimeCutoff : Z) : bool :=
  match txs with
  | [] => true
  | tx :: txs => if negb (IsFinalTx tx nHeight nLockTimeCutoff) then false else all_final txs nHeight nLockTimeCutoff
  end.

(** The part that needs no block index: the first input of the coinbase exists in a block that passed [CheckBlock]. *)
Definition check_witness_commitment (block : CBlock) (st : CValidationState) (params : Params) :
    option (bool * bool * CValidationState) :=
  let commitpos := GetWitnessCommitmentIndex block in
  if IsWitnessEnabled params && negb (commitpos =? -1) then
    '(hashWitness, _) ← BlockWitnessMerkleRoot block;
    cb ← vtx block !! 0%nat;
    i ← vin cb !! 0%nat;
    match scriptWitness i with
    | [nonce] =>
        if negb (length nonce =? 32)%nat then Some (false, false, DoS 100 REJECT_INVALID "bad-witness-nonce-size" true st)
        else
          o ← vout cb !! Z.to_nat commitpos;
          if negb (memcmp (CHash256 (hashWitness ++ nonce)) (take 32 (drop 6 (scriptPubKey o))) =? 0)
          then Some (false, false, DoS 100 REJECT_INVALID "bad-witness-merkle-match" true st)
          else Some (true, true, st)
    | _ => Some (false, false, DoS 100 REJECT_INVALID "bad-witness-nonce-size" true st)
    end
  else Some (true, false, st).

Definition ContextualCheckBlock (blocks : gmap ptr CBlockIndex) (block : CBlock) (st : CValidationState) (params : Params)
    (pindexPrev : option ptr) : option (bool * CValidationState) :=
  nHeight ← (match pindexPrev with None => Some 0 | Some p => b ← blocks !! p; Some (Chain.nHeight b + 1) end);
  nLockTimeCutoff ←
    (if nCSVEnabled params then pindexPrev ≫= GetMedianTimePast blocks else Some (GetBlockTime (header block)));
  if negb (all_final (vtx block) nHeight nLockTimeCutoff)
  then Some (false, DoS 10 REJECT_INVALID "bad-txns-nonfinal" false st)
  else
    let expect := push_int64 [] nHeight in
    cb ← vtx block !! 0%nat;
    i ← vin cb !! 0%nat;
    if nBIP34Enabled params
       && ((length (scriptSig i) <? length expect)%nat || negb (bool_decide (take (length expect) (scriptSig i) = expect)))
    then Some (false, DoS 100 REJECT_INVALID "bad-cb-height" false st)
    else
      '(ok, fHaveWitness, st) ← check_witness_commitment block st params;
      if negb ok then Some (false, st)
      else if negb fHaveWitness && existsb HasWitness (vtx block)
      then Some (false, DoS 100 REJECT_INVALID "unexpected-witness" true st)
      else if MAX_BLOCK_WEIGHT <? GetBlockWeight block
      then Some (false, DoS 100 REJECT_INVALID "bad-blk-weight" false st)
      else Some (true, st).
End Checks.

(** ** The supply *)

(** The subsidies of the blocks below a height. *)
Fixpoint issued (params : Params) (n : nat) : Z :=
  match n with O => 0 | S n => issued params n + GetBlockSubsidy n params end.

(** What can still be issued from height [n] on, at least. *)
Definition remaining (n : Z) : Z := (2 * 1314000 - n mod 1314000) * ((4 * COIN) .>> (n / 1314000)).

Lemma GetBlockSubsidy_late (params : Params) (n : Z) :
  nSubsidyHalvingInterval params = 1314000 → 1500 <= n → GetBlockSubsidy n params = (4 * COIN) .>> (n / 1314000).
Proof.
  intros Hp Hn. unfold GetBlockSubsidy. rewrite Hp, Z.quot_div_nonneg by lia.
  rewrite (proj2 (Z.eqb_neq n 1)), (proj2 (Z.ltb_ge n 1500)) by lia.
  destruct (64 <=? n / 1314000) eqn:E; [|done]. bool_to_prop. symmetry.
  apply Z.shiftr_eq_0; [unfold COIN; lia|]. apply (Z.lt_le_trans _ 64); [by vm_compute|done].
Qed.

Lemma remaining_step (n : Z) : 0 <= n → (4 * COIN) .>> (n / 1314000) + remaining (n + 1) <= remaining n.
Proof.
  intros Hn. unfold remaining.
  pose proof (Z.div_mod n 1314000 ltac:(lia)) as Hd. pose proof (Z.mod_pos_bound n 1314000 ltac:(lia)) as Hm.
  assert (0 <= n / 1314000) as Hq by (apply Z.div_pos; lia).
  set (q := n / 1314000) in *. set (r := n mod 1314000) in *.
  assert (0 <= (4 * COIN) .>> q) as Hs by (apply Z.shiftr_nonneg; unfold COIN; lia).
  destruct (decide (r = 1313999)) as [Er|Er].
  - replace ((n + 1) / 1314000) with (q + 1) by (apply (Z.div_unique _ _ _ 0); lia).
    replace ((n + 1) mod 1314000) with 0 by (apply (Z.mod_unique _ _ (q + 1)); lia).
    rewrite <- Z.shiftr_shiftr by lia. rewrite (Z.shiftr_div_pow2 _ 1) by lia. change (2 ^ 1) with 2.
    pose proof (Z.mul_div_le ((4 * COIN) .>> q) 2 ltac:(lia)). lia.
  - replace ((n + 1) / 1314000) with q by (apply (Z.div_unique _ _ _ (r + 1)); lia).
    replace ((n + 1) mod 1314000) with (r + 1) by (apply (Z.mod_unique _ _ q); lia). lia.
Qed.

Lemma GetBlockSubsidy_nonneg (params : Params) (n : Z) : 0 <= GetBlockSubsidy n params.
Proof.
  unfold GetBlockSubsidy. destruct (64 <=? _); [lia|]. apply Z.shiftr_nonneg. unfold COIN. repeat case_if; lia.
Qed.

Lemma issued_mono (params : Params) (n m : nat) : (n ≤ m)%nat → issued params n <= issued params m.
Proof.
  induction 1 as [|m Hm IH]; [lia|]. cbn [issued]. pose proof (GetBlockSubsidy_nonneg params m). lia.
Qed.

Lemma issued_early (params : Params) :
  nSubsidyHalvingInterval params = 1314000 → issued params 1500 = 4991988 * COIN.
Proof.
  intros Hp.
  assert (∀ n, (2 ≤ n)%nat → (n ≤ 1500)%nat → issued params n = (500 + 4242488 + 500 * (Z.of_nat n - 2)) * COIN) as H.
  { induction 1 as [|n Hn IH]; intros Hle.
    - cbn [issued]. unfold GetBlockSubsidy. rewrite Hp. vm_compute. reflexivity.
    - cbn [issued]. rewrite IH by lia. unfold GetBlockSubsidy. rewrite Hp, Z.quot_small by lia.
      rewrite (proj2 (Z.eqb_neq (Z.of_nat n) 1)), (proj2 (Z.ltb_lt (Z.of_nat n) 1500)) by lia.
      change (64 <=? 0) with false. cbn iota. rewrite Z.shiftr_0_r. lia. }
  rewrite H by lia. reflexivity.
Qed.

Lemma issued_bound (params : Params) (n : nat) :
  nSubsidyHalvingInterval params = 1314000 → issued params n <= 15497988 * COIN.
Proof.
  intros Hp. destruct (decide (n ≤ 1500)%nat) as [Hn|Hn].
  { transitivity (issued params 1500); [by apply issued_mono|]. rewrite issued_early by done. unfold COIN. lia. }
  assert (∀ m, (1500 ≤ m)%nat → issued params m + remaining m <= 15497988 * COIN) as H.
  { induction 1 as [|m Hm IH].
    - rewrite issued_early by done. vm_compute. congruence.
    - cbn [issued]. rewrite GetBlockSubsidy_late by (done || lia).
      pose proof (remaining_step m ltac:(lia)) as Hs. rewrite Nat2Z.inj_succ. unfold Z.succ. lia. }
  specialize (H n ltac:(lia)). assert (0 <= remaining n) as Hr; [|lia].
  unfold remaining. pose proof (Z.mod_pos_bound n 1314000 ltac:(lia)).
  apply Z.mul_nonneg_nonneg; [lia|]. apply Z.shiftr_nonneg. unfold COIN. lia.
Qed.

(** ** What does not depend on witnesses *)

Lemma has_duplicate_inputs_strip (ins : list CTxIn) (seen : list COutPoint) :
  has_duplicate_inputs (strip_witness <$> ins) seen = has_duplicate_inputs ins seen.
Proof.
  revert seen. induction ins as [|i ins IH]; intros seen; [done|]. cbn [fmap list_fmap has_duplicate_inputs].
  change (prevout (strip_witness i)) with (prevout i). by destruct (set_contains _ _).
Qed.

Lemma IsCoinBase_strip (tx : CTransaction) : IsCoinBase (without_witness tx) = IsCoinBase tx.
Proof. unfold IsCoinBase. cbn [vin without_witness]. by destruct (vin tx) as [|i [|]]. Qed.

Lemma TransactionSize_strip (tx : CTransaction) :
  TransactionSize (PROTOCOL_VERSION .| SERIALIZE_TRANSACTION_NO_WITNESS) (without_witness tx) =
  TransactionSize (PROTOCOL_VERSION .| SERIALIZE_TRANSACTION_NO_WITNESS) tx.
Proof.
  unfold TransactionSize. cbn [vin vout Transaction.nVersion nLockTime without_witness].
  change (allow_witness (PROTOCOL_VERSION .| SERIALIZE_TRANSACTION_NO_WITNESS)) with false. cbn [andb].
  by rewrite size_vin_strip.
Qed.

Lemma CheckTransaction_strip (tx : CTransaction) (st : CValidationState) (dup : bool) :
  CheckTransaction (without_witness tx) st dup = CheckTransaction tx st dup.
Proof.
  unfold CheckTransaction. rewrite TransactionSize_strip, IsCoinBase_strip. cbn [vin vout without_witness].
  rewrite length_fmap, has_duplicate_inputs_strip.
  assert (existsb (λ i, COutPoint_IsNull (prevout i)) (strip_witness <$> vin tx) =
          existsb (λ i, COutPoint_IsNull (prevout i)) (vin tx)) as ->.
  { induction (vin tx) as [|i ins IH]; [done|]. cbn. by rewrite IH. }
  by destruct (vin tx).
Qed.

Lemma GetLegacySigOpCount_strip (tx : CTransaction) : GetLegacySigOpCount (without_witness tx) = GetLegacySigOpCount tx.
Proof.
  unfold GetLegacySigOpCount. cbn [vin vout without_witness]. rewrite <- list_fmap_compose. done.
Qed.

(** Functions of a list of transactions that see only the stripped ones. *)
Section Stripped.
Context `{CryptoHash} `{SphHash}.

Definition strip_block (b : CBlock) : CBlock := with_vtx b (without_witness <$> vtx b).

Lemma check_transactions_strip (txs : list CTransaction) (st : CValidationState) :
  check_transactions (without_witness <$> txs) st = check_transactions txs st.
Proof.
  revert st. induction txs as [|tx txs IH]; intros st; [done|]. cbn [fmap list_fmap check_transactions].
  rewrite CheckTransaction_strip. destruct (CheckTransaction tx st false) as [[|] st']; cbn [negb]; [apply IH|done].
Qed.

Lemma block_sigops_strip (txs : list CTransaction) (k : Z) :
  block_sigops (without_witness <$> txs) k = block_sigops txs k.
Proof.
  revert k. induction txs as [|tx txs IH]; intros k; [done|]. cbn [fmap list_fmap block_sigops].
  rewrite GetLegacySigOpCount_strip. destruct (GetLegacySigOpCount tx); [|done]. ocbn. apply IH.
Qed.

Lemma stripped_size_strip (b : CBlock) :
  GetSerializeSize (ser_CBlock (PROTOCOL_VERSION .| SERIALIZE_TRANSACTION_NO_WITNESS)) (strip_block b) =
  GetSerializeSize (ser_CBlock (PROTOCOL_VERSION .| SERIALIZE_TRANSACTION_NO_WITNESS)) b.
Proof.
  cbn [GetSerializeSize ser_CBlock ser_via ser_pair ser_vector fst snd header vtx strip_block with_vtx ser_CTransaction].
  rewrite length_fmap. f_equal. f_equal. induction (vtx b) as [|tx txs IH]; [done|].
  cbn [fmap list_fmap foldr]. rewrite TransactionSize_strip. f_equal. exact IH.
Qed.

(** The checks after the Merkle root. *)
Definition check_contents (b : CBlock) (st : CValidationState) (params : Params) : option (bool * CValidationState) :=
  (λ r, r.1) <$> CheckBlock {| header := header b; vtx := vtx b; fChecked := false |} st params false false.

Lemma check_contents_strip (b : CBlock) (st : CValidationState) (params : Params) :
  check_contents (strip_block b) st params = check_contents b st params.
Proof.
  unfold check_contents.
  change {| header := header (strip_block b); vtx := vtx (strip_block b); fChecked := false |}
    with (strip_block {| header := header b; vtx := vtx b; fChecked := false |}).
  unfold CheckBlock, CheckBlockHeader. rewrite stripped_size_strip.
  cbn [fChecked with_vtx header vtx strip_block]. ocbn. cbn [negb andb].
  rewrite length_fmap, check_transactions_strip, block_sigops_strip.
  destruct (_ || _ || _); [done|]. destruct (vtx b) as [|cb txs]; [done|]. cbn [fmap list_fmap].
  rewrite IsCoinBase_strip. destruct (IsCoinBase cb); [|done]. cbn [negb].
  assert (existsb IsCoinBase (without_witness <$> txs) = existsb IsCoinBase txs) as Ee.
  { induction txs as [|tx txs IH]; [done|]. cbn. by rewrite IsCoinBase_strip, IH. }
  rewrite Ee. destruct (existsb IsCoinBase txs); [reflexivity|]. destruct (check_transactions _ _) as [[|] st']; cbn [negb]; [|done].
  destruct (block_sigops _ _) as [k|]; [|done]. ocbn. by destruct (_ <? _).
Qed.

(** [CheckBlock] is the header check, the Merkle check and the checks of the contents. *)
Lemma CheckBlock_split (b : CBlock) (st : CValidationState) (params : Params) (pow : bool) :
  fChecked b = false →
  (λ r, r.1) <$> CheckBlock b st params pow true =
  ('(ok, st) ← CheckBlockHeader (header b) st params pow;
   if negb ok then Some (false, st)
   else let '(ok, st) := check_merkle_root b st in
        if negb ok then Some (false, st) else check_contents b st params).
Proof.
  intros Hf. unfold check_contents, CheckBlock. rewrite Hf. cbn [fChecked header vtx].
  destruct (CheckBlockHeader _ _ _ pow) as [[[|] st1]|]; ocbn; cbn [negb]; try reflexivity.
  destruct (check_merkle_root b st1) as [[|] st2]; cbn [negb]; [|reflexivity].
  change (CheckBlockHeader (header b) st2 params false) with (Some (true, st2)). ocbn. cbn [negb].
  assert ({| header := header b; vtx := vtx b; fChecked := false |} = b) as ->.
  { destruct b. cbn in *. by rewrite Hf. }
  destruct (_ || _ || _); [reflexivity|]. destruct (vtx b) as [|cb txs]; [reflexivity|].
  destruct (negb (IsCoinBase cb)); [reflexivity|]. destruct (existsb IsCoinBase txs); [reflexivity|].
  destruct (check_transactions _ _) as [[|] st']; cbn [negb]; [|reflexivity].
  destruct (block_sigops _ _) as [k|]; [|reflexivity]. ocbn. destruct (_ <? _); reflexivity.
Qed.
End Stripped.

(** ** A block's header decides its contents *)

Section Permanence.
Context `{CryptoHash} `{SphHash}.

(** Every message hashed to get the block's Merkle root. *)
Definition block_messages (d : nat) (b : CBlock) : list (list Z) :=
  preimages d (GetHash <$> vtx b) ++ (SerializeTransaction SERIALIZE_TRANSACTION_NO_WITNESS <$> vtx b).

Lemma collision_free_sub (ms ms' : list (list Z)) : collision_free ms' → ms ⊆ ms' → collision_free ms.
Proof. intros Hcf Hs x y Hx Hy. apply Hcf; by apply Hs. Qed.

Lemma GetHash_list_inj (l1 l2 : list CTransaction) :
  Forall tx_ok l1 → Forall tx_ok l2 →
  collision_free ((SerializeTransaction SERIALIZE_TRANSACTION_NO_WITNESS <$> l1) ++
                  (SerializeTransaction SERIALIZE_TRANSACTION_NO_WITNESS <$> l2)) →
  GetHash <$> l1 = GetHash <$> l2 → without_witness <$> l1 = without_witness <$> l2.
Proof.
  revert l2. induction l1 as [|a l1 IH]; intros [|b l2] F1 F2 Hcf E; try done. cbn [fmap list_fmap] in *.
  injection E as Eh E. apply list.Forall_cons in F1 as [Ha F1]. apply list.Forall_cons in F2 as [Hb F2]. f_equal.
  - apply (SerializeTransaction_inj SERIALIZE_TRANSACTION_NO_WITNESS a b Ha Hb); [done|].
    apply Hcf; [| |exact Eh]; set_solver.
  - apply IH; [done..| |done]. eapply collision_free_sub; [exact Hcf|]. intros x. rewrite !elem_of_app, !elem_of_cons. tauto.
Qed.

Lemma check_merkle_root_cases (b : CBlock) (st : CValidationState) :
  let '(ok, st') := check_merkle_root b st in
  if ok then st' = st ∧ BlockMerkleRoot b = (hMerkleRoot (header b), false) else corruptionPossible st' = true.
Proof.
  unfold check_merkle_root. destruct (BlockMerkleRoot b) as [root mut]. case_bool_decide as Hr.
  { unfold DoS. by destruct (mode st). }
  destruct mut; [unfold DoS; by destruct (mode st)|]. split; [done|]. f_equal. destruct (decide (root = hMerkleRoot (header b))); [done|].
  destruct Hr. congruence.
Qed.

Lemma same_root_same_contents (b1 b2 : CBlock) (d : nat) (st : CValidationState) (params : Params) :
  header b2 = header b1 → 1 <= length (vtx b1) <= 2 ^ 31 → 1 <= length (vtx b2) <= 2 ^ 31 →
  is_depth (GetHash <$> vtx b1) d → is_depth (GetHash <$> vtx b2) d →
  Forall tx_ok (vtx b1) → Forall tx_ok (vtx b2) → collision_free (block_messages d b1 ++ block_messages d b2) →
  BlockMerkleRoot b1 = (hMerkleRoot (header b1), false) → BlockMerkleRoot b2 = (hMerkleRoot (header b2), false) →
  check_contents b1 st params = check_contents b2 st params.
Proof.
  intros Hh Hl1 Hl2 Hd1 Hd2 F1 F2 Hcf R1 R2. rewrite Hh in R2.
  assert (∀ l, Forall (λ h, length h = 32%nat) (GetHash <$> l)) as H32.
  { intros l. apply Forall_fmap, list.Forall_forall. intros tx _. apply length_CHash256. }
  assert (GetHash <$> vtx b1 = GetHash <$> vtx b2) as E.
  { apply (ComputeMerkleRoot_inj _ _ d (hMerkleRoot (header b1))); rewrite ?length_fmap; try done; [apply H32..|].
    eapply collision_free_sub; [exact Hcf|]. clear. unfold block_messages. intros x. rewrite !elem_of_app. tauto. }
  apply GetHash_list_inj in E; [|done..|].
  - rewrite <- (check_contents_strip b1), <- (check_contents_strip b2). unfold check_contents, strip_block, with_vtx.
    cbn [header vtx]. by rewrite E, Hh.
  - eapply collision_free_sub; [exact Hcf|]. clear. unfold block_messages. intros x. rewrite !elem_of_app. tauto.
Qed.

Lemma CheckBlock_rejection_is (b1 b2 : CBlock) (d : nat) (st st1 : CValidationState) (params : Params) (pow : bool) :
  fChecked b1 = false → fChecked b2 = false →
  header b2 = header b1 → 1 <= length (vtx b1) <= 2 ^ 31 → 1 <= length (vtx b2) <= 2 ^ 31 →
  is_depth (GetHash <$> vtx b1) d → is_depth (GetHash <$> vtx b2) d →
  Forall tx_ok (vtx b1) → Forall tx_ok (vtx b2) → collision_free (block_messages d b1 ++ block_messages d b2) →
  fst <$> CheckBlock b1 st params pow true = Some (false, st1) → corruptionPossible st1 = false →
  ∃ st2, fst <$> CheckBlock b2 st params pow true = Some (false, st2).
Proof.
  intros Hf1 Hf2 Hh Hl1 Hl2 Hd1 Hd2 F1 F2 Hcf E Hc.
  pose proof (CheckBlock_split b1 st params pow Hf1) as S1. pose proof (CheckBlock_split b2 st params pow Hf2) as S2.
  change (λ r : bool * CValidationState * CBlock, r.1) with (@fst (bool * CValidationState) CBlock) in S1, S2.
  rewrite S2. rewrite S1 in E. clear S1 S2. rewrite Hh.
  destruct (CheckBlockHeader (header b1) st params pow) as [[[|] st']|]; ocbn; [|by eexists|done].
  revert E. ocbn. cbn [negb]. intros E.
  pose proof (check_merkle_root_cases b1 st') as C1. pose proof (check_merkle_root_cases b2 st') as C2.
  destruct (check_merkle_root b1 st') as [[|] s1]; cbn [negb] in E; [|congruence].
  destruct (check_merkle_root b2 st') as [[|] s2]; cbn [negb]; [|by eexists].
  destruct C1 as [-> R1], C2 as [-> R2]. exists st1.
  rewrite <- E. symmetry. by apply (same_root_same_contents b1 b2 d).
Qed.
End Permanence.

(** ** The witness commitment *)

Section WitnessCommitment.
Context `{CryptoHash} `{SphHash}.

Lemma commitment_loop_app (o : Z) (outs : list CTxOut) (out : CTxOut) (pos : Z) :
  commitment_loop o (outs ++ [out]) pos =
  if is_commitment (scriptPubKey out) then o + length outs else commitment_loop o outs pos.
Proof.
  revert o pos. induction outs as [|x outs IH]; intros o pos; cbn [commitment_loop app].
  { cbn. case_if; [lia|done]. }
  rewrite IH. destruct (is_commitment (scriptPubKey out)); [|done]. cbn [length]. lia.
Qed.

(** The coinbase with the commitment output and the nonce. *)
Definition committed_coinbase (cb : CTransaction) (i : CTxIn) (ins : list CTxIn) (script : CScript) : CTransaction :=
  {| vin := with_witness i [replicate 32 0] :: ins; vout := vout cb ++ [{| nValue := 0; scriptPubKey := script |}];
     nVersion := Transaction.nVersion cb; nLockTime := nLockTime cb |}.

Lemma is_commitment_script (h : list Z) : length h = 32%nat → is_commitment (commitment_script h) = true.
Proof. intros Hl. unfold is_commitment, commitment_script. rewrite length_app, Hl. done. Qed.

Lemma commitment_payload (h : list Z) : length h = 32%nat → take 32 (drop 6 (commitment_script h)) = h.
Proof. intros Hl. change (drop 6 (commitment_script h)) with h. apply take_ge. lia. Qed.

Lemma GenerateCoinbaseCommitment_is (b : CBlock) (cb : CTransaction) (i : CTxIn) (ins : list CTxIn) (txs : list CTransaction)
    (params : Params) :
  vtx b = cb :: txs → vin cb = i :: ins → HasWitness cb = false →
  nSegwitEnabled params = true → GetWitnessCommitmentIndex b = -1 →
  let script := commitment_script (CHash256 ((ComputeMerkleRoot (uint256_null :: (GetWitnessHash <$> txs))).1 ++ replicate 32 0)) in
  GenerateCoinbaseCommitment b params = Some (script, with_vtx b (committed_coinbase cb i ins script :: txs)).
Proof.
  intros Hb Hi Hw Hs Hc script. unfold GenerateCoinbaseCommitment, BlockWitnessMerkleRoot. rewrite Hs, Hc, Hb. ocbn. cbn [andb Z.eqb Pos.eqb].
  destruct (ComputeMerkleRoot _) as [root mut] eqn:Er. ocbn. cbn [fst] in script. fold script.
  unfold UpdateUncommittedBlockStructures, IsWitnessEnabled, HasWitness in *. cbn [vtx with_vtx vin].
  unfold GetWitnessCommitmentIndex. cbn [vtx with_vtx vout]. rewrite commitment_loop_app.
  cbn [scriptPubKey]. unfold script. rewrite is_commitment_script by apply length_CHash256.
  rewrite (proj2 (Z.eqb_neq _ _)) by lia. rewrite Hs, Hw, Hi. reflexivity.
Qed.

Lemma check_committed (b : CBlock) (cb : CTransaction) (i : CTxIn) (ins : list CTxIn) (txs : list CTransaction)
    (st : CValidationState) (params : Params) :
  nSegwitEnabled params = true →
  let script := commitment_script (CHash256 ((ComputeMerkleRoot (uint256_null :: (GetWitnessHash <$> txs))).1 ++ replicate 32 0)) in
  check_witness_commitment (with_vtx b (committed_coinbase cb i ins script :: txs)) st params = Some (true, true, st).
Proof.
  intros Hs script. assert (is_commitment script = true) as Hc by apply is_commitment_script, length_CHash256.
  unfold check_witness_commitment, IsWitnessEnabled, GetWitnessCommitmentIndex, BlockWitnessMerkleRoot.
  cbn [vtx with_vtx vout vin committed_coinbase]. rewrite commitment_loop_app. cbn [scriptPubKey].
  rewrite Hc, Hs, (proj2 (Z.eqb_neq _ _)) by lia. cbn [andb negb]. destruct (ComputeMerkleRoot _) as [root mut] eqn:Er.
  cbn [fst] in script. ocbn. change ((committed_coinbase cb i ins script :: txs) !! 0%nat) with (Some (committed_coinbase cb i ins script)).
  ocbn. cbn [vin committed_coinbase]. change ((with_witness i [replicate 32 0] :: ins) !! 0%nat) with (Some (with_witness i [replicate 32 0])).
  ocbn. cbn [scriptWitness with_witness]. rewrite length_replicate. cbn [Nat.eqb negb].
  cbn [vout committed_coinbase]. rewrite Z.add_0_l, Nat2Z.id, lookup_app_r, Nat.sub_diag by lia. ocbn. cbn [lookup list_lookup scriptPubKey]. ocbn. cbn [scriptPubKey].
  unfold script. rewrite commitment_payload by apply length_CHash256.
  by rewrite (proj2 (proj1 (memcmp_spec _ _ eq_refl))).
Qed.
End WitnessCommitment.

Lemma commitment_loop_is (o : Z) (outs : list CTxOut) (pos : Z) :
  commitment_loop o outs pos = pos ∨
  ∃ (k : nat) (out : CTxOut), commitment_loop o outs pos = o + k ∧ outs !! k = Some out ∧ is_commitment (scriptPubKey out) = true.
Proof.
  revert o pos. induction outs as [|x outs IH]; intros o pos; [by left|]. cbn [commitment_loop].
  destruct (IH (o + 1) (if is_commitment (scriptPubKey x) then o else pos)) as [->|(k & out & -> & Hk & Hc)].
  - destruct (is_commitment (scriptPubKey x)) eqn:E; [|by left]. right. exists 0%nat, x. split; [lia|done].
  - right. exists (S k), out. split; [lia|done].
Qed.

Section CommitmentBinding.
Context `{CryptoHash} `{SphHash}.

Definition witness_leaves (txs : list CTransaction) : list (list Z) := uint256_null :: (GetWitnessHash <$> txs).

(** What a block whose commitment was checked satisfies. *)
Lemma check_witness_commitment_inv (b : CBlock) (cb : CTransaction) (txs : list CTransaction) (st st' : CValidationState)
    (params : Params) :
  vtx b = cb :: txs → check_witness_commitment b st params = Some (true, true, st') →
  ∃ i nonce o, vin cb !! 0%nat = Some i ∧ scriptWitness i = [nonce] ∧
    vout cb !! Z.to_nat (commitment_loop 0 (vout cb) (-1)) = Some o ∧
    CHash256 ((ComputeMerkleRoot (witness_leaves txs)).1 ++ nonce) = take 32 (drop 6 (scriptPubKey o)).
Proof.
  intros Hb. unfold check_witness_commitment, GetWitnessCommitmentIndex, BlockWitnessMerkleRoot. rewrite Hb. cbn [lookup list_lookup].
  fold (witness_leaves txs). destruct (IsWitnessEnabled params); [|done].
  destruct (commitment_loop_is 0 (vout cb) (-1)) as [->|(k & out & Ek & Hk & Hc)]; [done|].
  destruct (ComputeMerkleRoot (witness_leaves txs)) as [root mut]. ocbn.
  destruct (negb (commitment_loop 0 (vout cb) (-1) =? -1)); [|done]. cbn [andb]. ocbn.
  destruct (vin cb !! 0%nat) as [i|] eqn:Ei; [|done]. ocbn.
  destruct (scriptWitness i) as [|nonce [|]] eqn:Ew; try done. destruct (length nonce =? 32)%nat; [|done]. cbn [negb].
  rewrite Ek, Z.add_0_l, Nat2Z.id, Hk. ocbn. destruct (memcmp _ _ =? 0) eqn:Em; [|done]. intros _.
  exists i, nonce, out. split_and!; try done. cbn [fst]. apply Z.eqb_eq in Em. apply memcmp_spec in Em; [done|].
  rewrite length_CHash256, length_take, length_drop. unfold is_commitment in Hc. bool_to_prop. lia.
Qed.

(** The messages hashed to get the commitment of a coinbase with a nonce. *)
Definition witness_messages (d : nat) (nonce : list Z) (txs : list CTransaction) : list (list Z) :=
  ((ComputeMerkleRoot (witness_leaves txs)).1 ++ nonce) :: preimages d (witness_leaves txs) ++ (SerializeTransaction 0 <$> txs).

Definition coinbase_nonce (cb : CTransaction) : list Z :=
  match vin cb with i :: _ => match scriptWitness i with nonce :: _ => nonce | [] => [] end | [] => [] end.

Lemma GetWitnessHash_list_inj (l1 l2 : list CTransaction) :
  Forall (λ tx, tx_ok tx ∧ vin tx ≠ []) l1 → Forall (λ tx, tx_ok tx ∧ vin tx ≠ []) l2 →
  collision_free ((SerializeTransaction 0 <$> l1) ++ (SerializeTransaction 0 <$> l2)) →
  GetWitnessHash <$> l1 = GetWitnessHash <$> l2 → l1 = l2.
Proof.
  revert l2. induction l1 as [|a l1 IH]; intros [|b l2] F1 F2 Hcf E; try done. cbn [fmap list_fmap] in *.
  injection E as Eh E. apply list.Forall_cons in F1 as [[Ha Hva] F1]. apply list.Forall_cons in F2 as [[Hb Hvb] F2].
  rewrite !GetWitnessHash_preimage in Eh. f_equal.
  - apply (SerializeTransaction_inj 0 a b Ha Hb); [done|].
    apply Hcf; [| |exact Eh]; rewrite elem_of_app, !elem_of_cons; tauto.
  - apply IH; [done..| |done]. eapply collision_free_sub; [exact Hcf|]. intros x. rewrite !elem_of_app, !elem_of_cons. tauto.
Qed.

Lemma commitment_binds (b1 b2 : CBlock) (cb : CTransaction) (txs1 txs2 : list CTransaction) (d : nat)
    (st st1 st2 : CValidationState) (params : Params) :
  vtx b1 = cb :: txs1 → vtx b2 = cb :: txs2 → length txs2 = length txs1 → length txs1 < 2 ^ 31 →
  is_depth (witness_leaves txs1) d →
  Forall (λ tx, tx_ok tx ∧ vin tx ≠ []) txs1 → Forall (λ tx, tx_ok tx ∧ vin tx ≠ []) txs2 →
  collision_free (witness_messages d (coinbase_nonce cb) txs1 ++ witness_messages d (coinbase_nonce cb) txs2) →
  check_witness_commitment b1 st params = Some (true, true, st1) →
  check_witness_commitment b2 st params = Some (true, true, st2) → txs1 = txs2.
Proof.
  intros Hb1 Hb2 Hl Hn Hd F1 F2 Hcf C1 C2.
  apply (check_witness_commitment_inv b1 cb txs1) in C1 as (i & nonce & o & Hi & Hw & Ho & E1); [|done].
  apply (check_witness_commitment_inv b2 cb txs2) in C2 as (i' & nonce' & o' & Hi' & Hw' & Ho' & E2); [|done].
  assert (i' = i) as -> by congruence. assert (nonce' = nonce) as -> by congruence. assert (o' = o) as -> by congruence.
  assert (coinbase_nonce cb = nonce) as Hnonce.
  { unfold coinbase_nonce. destruct (vin cb) as [|j ins]; [done|]. injection Hi as ->. by rewrite Hw. }
  rewrite Hnonce in Hcf. unfold witness_messages in Hcf.
  assert (∀ txs, Forall (λ h, length h = 32%nat) (witness_leaves txs)) as H32.
  { intros txs. constructor; [done|]. apply Forall_fmap, list.Forall_forall. intros tx _. cbn.
    rewrite GetWitnessHash_preimage. apply length_CHash256. }
  assert ((ComputeMerkleRoot (witness_leaves txs1)).1 = (ComputeMerkleRoot (witness_leaves txs2)).1) as Er.
  { apply (app_inv_tail nonce). apply Hcf; [left|apply elem_of_app; right; left|congruence]. }
  apply (ComputeMerkleRoot_inj_length _ _ d) in Er; [|cbn; rewrite ?length_fmap; lia|cbn; rewrite !length_fmap; lia|done|apply H32..|].
  - injection Er as Er. apply GetWitnessHash_list_inj; try done.
    eapply collision_free_sub; [exact Hcf|]. intros x. rewrite !elem_of_app, !elem_of_cons, !elem_of_app. tauto.
  - eapply collision_free_sub; [exact Hcf|]. intros x. rewrite !elem_of_app, !elem_of_cons, !elem_of_app. tauto.
Qed.
End CommitmentBinding.

(** ** Properties *)

(** C13: with the halving interval of the main network, 1,314,000 blocks, the subsidy of a block from height 1500 on is four coins
    halved once per interval, never negative, and all the subsidies together stay
    below 15,497,988 coins, within the money range that amounts are checked against. *)
Theorem GetBlockSubsidy_supply (params : Params) (n : nat) :
  nSubsidyHalvingInterval params = 1314000 →
  (1500 <= n → GetBlockSubsidy n params = (4 * COIN) .>> (n / 1314000)) ∧
  0 <= GetBlockSubsidy n params ∧ issued params n <= 15497988 * COIN ∧ 15497988 * COIN <= MAX_MONEY.
Proof.
  intros Hp. split; [intros Hn; by apply GetBlockSubsidy_late|]. split; [apply GetBlockSubsidy_nonneg|].
  split; [by apply issued_bound|]. by vm_compute.
Qed.

(** The sums of the unit tests [block_subsidy_test] and [subsidy_limit_test]: the first subsidy is not the 5000 coins they expect,
    and the samples at every thousandth height add up to far less than they expect. *)
Definition subsidy_samples (params : Params) : Z :=
  (N.iter 14000 (λ '(s, h), (s + GetBlockSubsidy h params * 1000, h + 1000)) (0, 0)).1.

Lemma subsidy_tests_fail :
  GetBlockSubsidy 0 (mainConsensus []) = 500 * COIN ∧ 500 * COIN ≠ 5000 * COIN ∧
  subsidy_samples (mainConsensus []) = 1149709375000000 ∧ 1149709375000000 < 2078125000000000000.
Proof. split; [reflexivity|]. split; [discriminate|]. split; [vm_compute; reflexivity|reflexivity]. Qed.

(** C11: a rejection that is not marked as possible corruption can be remembered by the hash of the block.
    When [CheckBlock] rejects a block without that mark, it rejects every block with the same header
    and a Merkle tree of the same depth, whatever its witnesses, unless the
    messages hashed for the two Merkle roots collide.  This is what makes it safe to mark the
    header's index entry as failed. *)
Theorem CheckBlock_rejection_permanent `{CryptoHash} `{SphHash} (b1 b2 : CBlock) (d : nat) (st st1 : CValidationState)
    (params : Params) (fCheckPOW : bool) :
  fChecked b1 = false → fChecked b2 = false →
  header b2 = header b1 → 1 <= length (vtx b1) <= 2 ^ 31 → 1 <= length (vtx b2) <= 2 ^ 31 →
  is_depth (GetHash <$> vtx b1) d → is_depth (GetHash <$> vtx b2) d →
  Forall tx_ok (vtx b1) → Forall tx_ok (vtx b2) → collision_free (block_messages d b1 ++ block_messages d b2) →
  fst <$> CheckBlock b1 st params fCheckPOW true = Some (false, st1) → corruptionPossible st1 = false →
  ∃ st2, fst <$> CheckBlock b2 st params fCheckPOW true = Some (false, st2).
Proof. apply CheckBlock_rejection_is. Qed.

(** C12: the commitment a miner adds is the one validation asks for, and it binds the witnesses.  After
    [GenerateCoinbaseCommitment] on a block without one, the other transactions are unchanged, the last output
    of the coinbase is the returned script, and the witness check accepts the block.  Any other
    block with that coinbase and as many transactions that the check accepts has exactly
    the same transactions, witnesses included, unless the messages hashed collide. *)
Theorem GenerateCoinbaseCommitment_correct `{CryptoHash} `{SphHash} (b : CBlock) (cb : CTransaction) (i : CTxIn)
    (ins : list CTxIn) (txs : list CTransaction) (params : Params) (st : CValidationState) (d : nat) :
  vtx b = cb :: txs → vin cb = i :: ins → HasWitness cb = false → nSegwitEnabled params = true →
  GetWitnessCommitmentIndex b = -1 → length txs < 2 ^ 31 → is_depth (witness_leaves txs) d →
  Forall (λ tx, tx_ok tx ∧ vin tx ≠ []) txs →
  ∃ script b' cb',
    GenerateCoinbaseCommitment b params = Some (script, b') ∧ vtx b' = cb' :: txs ∧
    vout cb' = vout cb ++ [{| nValue := 0; scriptPubKey := script |}] ∧
    check_witness_commitment b' st params = Some (true, true, st) ∧
    ∀ b2 txs2 st2, vtx b2 = cb' :: txs2 → length txs2 = length txs → Forall (λ tx, tx_ok tx ∧ vin tx ≠ []) txs2 →
      check_witness_commitment b2 st params = Some (true, true, st2) →
      collision_free (witness_messages d (coinbase_nonce cb') txs ++ witness_messages d (coinbase_nonce cb') txs2) →
      txs2 = txs.
Proof.
  intros Hb Hi Hw Hs Hc Hn Hd Ht. pose proof (GenerateCoinbaseCommitment_is b cb i ins txs params Hb Hi Hw Hs Hc) as E.
  pose proof (check_committed b cb i ins txs st params Hs) as Hchk.
  eexists _, _, _. split; [exact E|]. split; [done|]. split; [done|]. split; [exact Hchk|].
  intros b2 txs2 st2 Hb2 Hl2 F2 C2 Hcf. symmetry.
  by eapply (commitment_binds _ b2 _ txs txs2 d); [| |exact Hl2|exact Hn|exact Hd|exact Ht|exact F2|exact Hcf|exact Hchk|exact C2].
Qed.

(** ** Witnesses *)

Lemma GetBlockSubsidy_supply_witness :
  nSubsidyHalvingInterval (mainConsensus []) = 1314000 ∧
  (1500 <= 2000%nat → GetBlockSubsidy (Z.of_nat 2000) (mainConsensus []) = (4 * COIN) .>> (Z.of_nat 2000 / 1314000)).
Proof. split; [reflexivity|]. apply (GetBlockSubsidy_supply (mainConsensus []) 2000). reflexivity. Defined.

(** A block of two transactions without a coinbase. *)
Definition demo_bad_block (wit : list (list Z)) : CBlock :=
  let txs := [demo_tx wit; demo_spend] in
  {| header := {| hVersion := 4; hashPrevBlock := replicate 32 1;
                  hMerkleRoot := (@ComputeMerkleRoot toy_hash (@GetHash toy_hash <$> [demo_tx []; demo_spend])).1;
                  hTime := 1000; hBits := 0x1e00ffff; hNonce := 7 |};
     vtx := txs; fChecked := false |}.

Lemma CheckBlock_rejection_permanent_witness :
  ∃ st2, fst <$> @CheckBlock toy_hash toy_sph (demo_bad_block [[3]]) new_state (mainConsensus []) false true = Some (false, st2).
Proof.
  eapply (@CheckBlock_rejection_permanent toy_hash toy_sph (demo_bad_block []) (demo_bad_block [[3]]) 1 new_state);
    [reflexivity|reflexivity|reflexivity|by vm_compute|by vm_compute|by vm_compute|by vm_compute| | | |vm_compute; reflexivity|reflexivity].
  - do 2 (constructor; [by apply tx_okb_ok|]). constructor.
  - do 2 (constructor; [by apply tx_okb_ok|]). constructor.
  - apply collision_freeb_ok. by vm_compute.
Defined.

(** A block to commit: a coinbase and a spending transaction. *)
Definition demo_coinbase : CTransaction := {|
  vin := [{| prevout := COutPoint_null; scriptSig := [0x51; 0x51]; nSequence := 0xffffffff; scriptWitness := [] |}];
  vout := [{| nValue := 500 * COIN; scriptPubKey := [0x51] |}]; nVersion := 2; nLockTime := 0 |}.

Definition demo_new_block : CBlock :=
  {| header := CBlockHeader_null; vtx := [demo_coinbase; demo_tx [[3]]]; fChecked := false |}.

Lemma GenerateCoinbaseCommitment_correct_witness :
  ∃ script b', @GenerateCoinbaseCommitment toy_hash demo_new_block (mainConsensus []) = Some (script, b') ∧
    @check_witness_commitment toy_hash b' new_state (mainConsensus []) = Some (true, true, new_state).
Proof.
  destruct (@GenerateCoinbaseCommitment_correct toy_hash toy_sph demo_new_block demo_coinbase
    {| prevout := COutPoint_null; scriptSig := [0x51; 0x51]; nSequence := 0xffffffff; scriptWitness := [] |} []
    [demo_tx [[3]]] (mainConsensus []) new_state 1) as (script & b' & cb' & E & _ & _ & Hc & _);
    [reflexivity|reflexivity|reflexivity|reflexivity|reflexivity|by vm_compute|by vm_compute| |by exists script, b'].
  constructor; [split; [by apply tx_okb_ok|done]|constructor].
Defined.
