(* ===== verification/CuckooCache.v ===== *)
(** * The cuckoo cache ([src/src/cuckoocache.h])

    [bit_packed_atomic_flags] and [cache], the fixed-size set with eight hash
    locations per element behind the signature cache and the script execution
    cache.  An access outside an array is [None].  The hash function and the
    default element of the table are the class [CacheElement]; the instance for
    [uint256] is [SignatureCacheHasher] of [src/src/script/sigcache.h].  [std::log2] on a [float] is an
    argument of [setup]. *)

From Stdlib Require Import ZArith Lia.
From stdpp Require Import list option gmap.
From S2P Require Import Prelude Common Crypto.

Open Scope Z_scope.
Open Scope word_scope.

(** ** Packed flags *)

Record bit_packed_atomic_flags := { mem : list Z }.

Definition bit_packed_atomic_flags_new (size : Z) : bit_packed_atomic_flags :=
  {| mem := replicate (Z.to_nat (u32 (size + 7) / 8)) 0xFF |}.

Definition bit_set (f : bit_packed_atomic_flags) (s : Z) : option bit_packed_atomic_flags :=
  m ← mem f !! Z.to_nat (s .>> 3);
  Some {| mem := <[Z.to_nat (s .>> 3) := m .| u8 (1 .<< (s .& 7))]> (mem f) |}.

Definition bit_unset (f : bit_packed_atomic_flags) (s : Z) : option bit_packed_atomic_flags :=
  m ← mem f !! Z.to_nat (s .>> 3);
  Some {| mem := <[Z.to_nat (s .>> 3) := m .& u8 (Z.lnot (1 .<< (s .& 7)))]> (mem f) |}.

Definition bit_is_set (f : bit_packed_atomic_flags) (s : Z) : option bool :=
  m ← mem f !! Z.to_nat (s .>> 3);
  Some (negb ((1 .<< (s .& 7)) .& m =? 0)).

(** ** The cache *)

Class CacheElement (Element : Type) := {
  element_eq : EqDecision Element;
  hash_function : nat → Element → Z;
  element_default : Element;
}.
#[export] Existing Instance element_eq.

(** [SignatureCacheHasher]: eight words of the hash, read in the machine's little-endian order. *)
#[export] Instance SignatureCacheHasher : CacheElement (list Z) := {|
  element_eq := _;
  hash_function := λ hash_select key, ReadLE32 (drop (4 * hash_select) key);
  element_default := replicate 32 0;
|}.

Record cache (Element : Type) := MkCuckoo {
  table : list Element;
  csize : Z;
  collection_flags : bit_packed_atomic_flags;
  epoch_flags : list bool;
  epoch_heuristic_counter : Z;
  epoch_size : Z;
  depth_limit : Z;
}.
Arguments MkCuckoo {Element} _ _ _ _ _ _ _.
Arguments table {Element} _.
Arguments csize {Element} _.
Arguments collection_flags {Element} _.
Arguments epoch_flags {Element} _.
Arguments epoch_heuristic_counter {Element} _.
Arguments epoch_size {Element} _.
Arguments depth_limit {Element} _.

Section Cache.
Context {Element : Type} `{CacheElement Element}.
Implicit Types (c : cache Element) (e : Element).

Definition with_table c (t : list Element) : cache Element :=
  MkCuckoo t (csize c) (collection_flags c) (epoch_flags c) (epoch_heuristic_counter c) (epoch_size c) (depth_limit c).

Definition with_flags c (f : bit_packed_atomic_flags) : cache Element :=
  MkCuckoo (table c) (csize c) f (epoch_flags c) (epoch_heuristic_counter c) (epoch_size c) (depth_limit c).

Definition with_epochs c (ef : list bool) : cache Element :=
  MkCuckoo (table c) (csize c) (collection_flags c) ef (epoch_heuristic_counter c) (epoch_size c) (depth_limit c).

Definition with_counter c (k : Z) : cache Element :=
  MkCuckoo (table c) (csize c) (collection_flags c) (epoch_flags c) k (epoch_size c) (depth_limit c).

Definition compute_hashes c e : list Z :=
  (λ k, u32 (u64 (hash_function k e * csize c) .>> 32)) <$> seq 0 8.

Definition invalid : Z := 0xffffffff.

Definition allow_erase c (n : Z) : option (cache Element) := with_flags c <$> bit_set (collection_flags c) n.
Definition please_keep c (n : Z) : option (cache Element) := with_flags c <$> bit_unset (collection_flags c) n.

(** Assignments to the table and to the epoch flags. *)
Definition set_table c (loc : Z) e : option (cache Element) :=
  _ ← table c !! Z.to_nat loc; Some (with_table c (<[Z.to_nat loc := e]> (table c))).

Definition set_epoch c (loc : Z) (b : bool) : option (cache Element) :=
  _ ← epoch_flags c !! Z.to_nat loc; Some (with_epochs c (<[Z.to_nat loc := b]> (epoch_flags c))).

(** The two scans of [epoch_check], over [n] entries from [i] on. *)
Fixpoint count_unused (n : nat) (i : Z) c (epoch_unused_count : Z) : option Z :=
  match n with
  | O => Some epoch_unused_count
  | S n =>
      ef ← epoch_flags c !! Z.to_nat i;
      k ← (if ef : bool then b ← bit_is_set (collection_flags c) i; Some (if b : bool then 0 else 1) else Some 0);
      count_unused n (i + 1) c (u32 (epoch_unused_count + k))
  end.

Fixpoint age_entries (n : nat) (i : Z) c : option (cache Element) :=
  match n with
  | O => Some c
  | S n =>
      ef ← epoch_flags c !! Z.to_nat i;
      c ← (if ef : bool then set_epoch c i false else allow_erase c i);
      age_entries n (i + 1) c
  end.

Definition epoch_check c : option (cache Element) :=
  if negb (epoch_heuristic_counter c =? 0) then Some (with_counter c (epoch_heuristic_counter c - 1))
  else
    epoch_unused_count ← count_unused (Z.to_nat (csize c)) 0 c 0;
    if epoch_size c <=? epoch_unused_count then
      c ← age_entries (Z.to_nat (csize c)) 0 c;
      Some (with_counter c (epoch_size c))
    else
      Some (with_counter c (Z.max 1 (Z.max (epoch_size c / 16) (u32 (epoch_size c - epoch_unused_count))))).

(** [setup] with the number of levels [std::log2] returns. *)
Definition setup (log2 : Z → Z) (new_size : Z) : cache Element :=
  let size := Z.max 2 new_size in
  let epoch_size := Z.max 1 (u32 (45 * size) / 100) in
  MkCuckoo (replicate (Z.to_nat size) element_default) size (bit_packed_atomic_flags_new size)
    (replicate (Z.to_nat size) false) epoch_size epoch_size (u8 (log2 (Z.max 2 new_size))).

Definition setup_bytes (log2 : Z → Z) (sizeof_Element bytes : Z) : cache Element :=
  setup log2 (u32 (bytes / sizeof_Element)).

(** The first location that holds [e], and the first that may be overwritten. *)
Fixpoint find_element (locs : list Z) c e : option (option Z) :=
  match locs with
  | [] => Some None
  | loc :: locs =>
      x ← table c !! Z.to_nat loc;
      if bool_decide (x = e) then Some (Some loc) else find_element locs c e
  end.

Fixpoint find_collectable (locs : list Z) c : option (option Z) :=
  match locs with
  | [] => Some None
  | loc :: locs =>
      b ← bit_is_set (collection_flags c) loc;
      if b : bool then Some (Some loc) else find_collectable locs c
  end.

(** The index [std::find] gives. *)
Fixpoint find_index (x : Z) (locs : list Z) : nat :=
  match locs with
  | [] => O
  | loc :: locs => if loc =? x then O else S (find_index x locs)
  end.

(** The loop of [insert], at most [depth] more times. *)
Fixpoint insert_loop (depth : nat) (locs : list Z) (last_loc : Z) (last_epoch : bool) e c : option (cache Element) :=
  match depth with
  | O => Some c
  | S depth =>
      free ← find_collectable locs c;
      match free with
      | Some loc =>
          c ← set_table c loc e;
          c ← please_keep c loc;
          set_epoch c loc last_epoch
      | None =>
          last_loc ← locs !! Z.to_nat ((1 + find_index last_loc locs) .& 7);
          evicted ← table c !! Z.to_nat last_loc;
          c ← set_table c last_loc e;
          epoch ← epoch_flags c !! Z.to_nat last_loc;
          c ← set_epoch c last_loc last_epoch;
          insert_loop depth (compute_hashes c evicted) last_loc epoch evicted c
      end
  end.

Definition cache_insert e c : option (cache Element) :=
  c ← epoch_check c;
  let locs := compute_hashes c e in
  found ← find_element locs c e;
  match found with
  | Some loc =>
      c ← please_keep c loc;
      set_epoch c loc true
  | None => insert_loop (Z.to_nat (depth_limit c)) locs invalid true e c
  end.

Definition contains e (erase : bool) c : option (bool * cache Element) :=
  found ← find_element (compute_hashes c e) c e;
  match found with
  | Some loc => if erase then c ← allow_erase c loc; Some (true, c) else Some (true, c)
  | None => Some (false, c)
  end.
End Cache.

(** ** The flags *)

Definition flag_at (f : bit_packed_atomic_flags) (s : Z) : bool := Z.testbit ((mem f).[Z.to_nat (s / 8)]) (s mod 8).

Lemma flag_index (s : Z) : s .>> 3 = s / 8 ∧ s .& 7 = s mod 8.
Proof. split; [by rewrite shr_div by lia|]. apply (land_ones_mod s 3). lia. Qed.

Lemma flag_word (f : bit_packed_atomic_flags) (s : Z) :
  0 <= s < 8 * length (mem f) → mem f !! Z.to_nat (s / 8) = Some ((mem f).[Z.to_nat (s / 8)]).
Proof.
  intros Hs. rewrite aget_lookup. assert (s / 8 < length (mem f)) by (apply Z.div_lt_upper_bound; lia).
  assert (0 <= s / 8) by (apply Z.div_pos; lia).
  destruct (mem f !! Z.to_nat (s / 8)) eqn:E; [done|]. apply lookup_ge_None in E. lia.
Qed.

Lemma bit_is_set_ok (f : bit_packed_atomic_flags) (s : Z) :
  0 <= s < 8 * length (mem f) → bit_is_set f s = Some (flag_at f s).
Proof.
  intros Hs. unfold bit_is_set, flag_at. destruct (flag_index s) as [-> ->]. rewrite flag_word by done. ocbn. f_equal.
  set (m := (mem f).[_]). pose proof (Z.mod_pos_bound s 8 ltac:(lia)) as Hk. set (k := s mod 8) in *.
  rewrite Z.shiftl_1_l. destruct (Z.testbit m k) eqn:E.
  - apply negb_true_iff, Z.eqb_neq. intros E0. apply (f_equal (λ z, Z.testbit z k)) in E0.
    rewrite Z.land_spec, Z.pow2_bits_true, E, Z.bits_0 in E0 by lia. done.
  - apply negb_false_iff, Z.eqb_eq. apply Z.bits_inj'. intros j Hj. rewrite Z.land_spec, Z.bits_0, Z.pow2_bits_eqb by lia.
    destruct (Z.eqb_spec k j) as [<-|]; [by rewrite E|done].
Qed.

(** Two flags are in the same byte at the same bit only if they are the same. *)
Lemma flag_update (f : bit_packed_atomic_flags) (s t m : Z) (b : bool) :
  0 <= s < 8 * length (mem f) → 0 <= t →
  (∀ j, 0 <= j < 8 → Z.testbit m j = if j =? s mod 8 then b else Z.testbit ((mem f).[Z.to_nat (s / 8)]) j) →
  flag_at {| mem := <[Z.to_nat (s / 8) := m]> (mem f) |} t = if t =? s then b else flag_at f t.
Proof.
  intros Hs Ht Hm. unfold flag_at. cbn [mem]. fold (aset (mem f) (Z.to_nat (s / 8)) m).
  assert (s / 8 < length (mem f)) by (apply Z.div_lt_upper_bound; lia).
  assert (0 <= s / 8 ∧ 0 <= t / 8) as [? ?] by (split; apply Z.div_pos; lia).
  pose proof (Z.mod_pos_bound t 8 ltac:(lia)) as Hk.
  pose proof (Z.div_mod s 8 ltac:(lia)). pose proof (Z.div_mod t 8 ltac:(lia)).
  destruct (decide (t / 8 = s / 8)) as [E|E].
  - rewrite E, aget_aset_eq by lia. rewrite Hm by done.
    destruct (Z.eqb_spec (t mod 8) (s mod 8)), (Z.eqb_spec t s); try done; congruence || lia.
  - rewrite aget_aset_ne by lia. destruct (Z.eqb_spec t s) as [->|]; [lia|done].
Qed.

Lemma bit_set_ok (f : bit_packed_atomic_flags) (s : Z) :
  0 <= s < 8 * length (mem f) →
  ∃ f', bit_set f s = Some f' ∧ length (mem f') = length (mem f) ∧
    ∀ t, 0 <= t → flag_at f' t = if t =? s then true else flag_at f t.
Proof.
  intros Hs. unfold bit_set. destruct (flag_index s) as [-> ->]. rewrite flag_word by done. ocbn.
  eexists. split; [done|]. split; [apply length_insert|]. intros t Ht. apply flag_update; [done..|].
  pose proof (Z.mod_pos_bound s 8 ltac:(lia)). intros j Hj. rewrite Z.lor_spec. unfold u8, wrap.
  rewrite Z.mod_pow2_bits_low by lia. rewrite Z.shiftl_1_l, Z.pow2_bits_eqb by lia. rewrite Z.eqb_sym.
  destruct (j =? s mod 8); [by rewrite orb_true_r|by rewrite orb_false_r].
Qed.

Lemma bit_unset_ok (f : bit_packed_atomic_flags) (s : Z) :
  0 <= s < 8 * length (mem f) →
  ∃ f', bit_unset f s = Some f' ∧ length (mem f') = length (mem f) ∧
    ∀ t, 0 <= t → flag_at f' t = if t =? s then false else flag_at f t.
Proof.
  intros Hs. unfold bit_unset. destruct (flag_index s) as [-> ->]. rewrite flag_word by done. ocbn.
  eexists. split; [done|]. split; [apply length_insert|]. intros t Ht. apply flag_update; [done..|].
  pose proof (Z.mod_pos_bound s 8 ltac:(lia)). intros j Hj. rewrite Z.land_spec. unfold u8, wrap.
  rewrite Z.mod_pow2_bits_low by lia. rewrite Z.lnot_spec, Z.shiftl_1_l, Z.pow2_bits_eqb by lia. rewrite Z.eqb_sym.
  destruct (j =? s mod 8); [by rewrite andb_false_r|by rewrite andb_true_r].
Qed.

(** ** The invariant *)

(** The elements a client stores hash to 32-bit words. *)
Class CacheElementLaws (Element : Type) `{CacheElement Element} := {
  element_ok : Element → Prop;
  element_default_ok : element_ok element_default;
  hash_function_range : ∀ k e, element_ok e → is_word 32 (hash_function k e);
}.

#[export, refine] Instance SignatureCacheHasher_laws : CacheElementLaws (list Z) := {| element_ok := bytes_ok |}.
Proof.
  - by apply bytes_okb_ok.
  - intros k e He. apply ReadLE32_range. by apply Forall_drop.
Defined.

Section Invariant.
Context {Element : Type} `{CacheElementLaws Element}.
Implicit Types (c : cache Element) (e x : Element).

(** The arrays have the sizes they were set up with. *)
Definition shape c : Prop :=
  2 <= csize c < 2 ^ 32 ∧ Z.of_nat (length (table c)) = csize c ∧ Z.of_nat (length (epoch_flags c)) = csize c ∧
  csize c <= 8 * length (mem (collection_flags c)).

(** An element the cache has not given up, and where it is. *)
Definition live_at c (i : nat) x : Prop := table c !! i = Some x ∧ flag_at (collection_flags c) i = false.
Definition live c x : Prop := ∃ i, live_at c i x.

(** Every live element is at one of its eight locations. *)
Definition placed c : Prop := ∀ i x, live_at c i x → Z.of_nat i ∈ compute_hashes c x.

Definition cuckoo_ok c : Prop := shape c ∧ placed c ∧ Forall element_ok (table c).

Lemma compute_hashes_range c e : shape c → element_ok e → Forall (λ loc, 0 <= loc < csize c) (compute_hashes c e).
Proof.
  intros (Hs & _) He. unfold compute_hashes. apply Forall_fmap, list.Forall_forall. intros k _. cbn.
  pose proof (hash_function_range k e He) as [Hh1 Hh2]. set (h := hash_function k e) in *.
  assert (0 <= h * csize c < 2 ^ 64) by (change (2 ^ 64) with (2 ^ 32 * 2 ^ 32); nia).
  unfold u64. rewrite wrap_small by done. rewrite shr_div by lia.
  assert (0 <= h * csize c / 2 ^ 32 < csize c).
  { split; [apply Z.div_pos; nia|]. apply Z.div_lt_upper_bound; nia. }
  unfold u32. rewrite wrap_small by (unfold is_word; lia). done.
Qed.

Lemma length_compute_hashes c e : length (compute_hashes c e) = 8%nat.
Proof. unfold compute_hashes. by rewrite length_fmap. Qed.

Lemma table_at c (loc : Z) : shape c → 0 <= loc < csize c → ∃ x, table c !! Z.to_nat loc = Some x.
Proof. intros (? & Hl & _) Hr. apply lookup_lt_is_Some. lia. Qed.

Lemma epoch_at c (loc : Z) : shape c → 0 <= loc < csize c → ∃ b, epoch_flags c !! Z.to_nat loc = Some b.
Proof. intros (? & _ & Hl & _) Hr. apply lookup_lt_is_Some. lia. Qed.

Lemma set_table_ok c (loc : Z) e :
  shape c → 0 <= loc < csize c →
  set_table c loc e = Some (with_table c (<[Z.to_nat loc := e]> (table c))) ∧
  shape (with_table c (<[Z.to_nat loc := e]> (table c))).
Proof.
  intros Hs Hr. destruct (table_at c loc Hs Hr) as [x Hx]. unfold set_table. rewrite Hx. split; [done|].
  destruct Hs as (? & Hl & ?). unfold shape. cbn. by rewrite length_insert.
Qed.

Lemma set_epoch_ok c (loc : Z) (b : bool) :
  shape c → 0 <= loc < csize c →
  ∃ ef, set_epoch c loc b = Some (with_epochs c ef) ∧ shape (with_epochs c ef).
Proof.
  intros Hs Hr. destruct (epoch_at c loc Hs Hr) as [x Hx]. unfold set_epoch. rewrite Hx. ocbn. eexists. split; [done|].
  destruct Hs as (? & ? & Hl & ?). unfold shape. cbn. by rewrite length_insert.
Qed.

Lemma please_keep_ok c (loc : Z) :
  shape c → 0 <= loc < csize c →
  ∃ f, please_keep c loc = Some (with_flags c f) ∧ shape (with_flags c f) ∧
    ∀ t, 0 <= t → flag_at f t = if t =? loc then false else flag_at (collection_flags c) t.
Proof.
  intros (Hn & Hl & He & Hm) Hr. unfold please_keep.
  destruct (bit_unset_ok (collection_flags c) loc) as (f & -> & Hf & Hspec); [lia|].
  exists f. split; [done|]. split; [|done]. unfold shape. cbn. by rewrite Hf.
Qed.

Lemma allow_erase_ok c (loc : Z) :
  shape c → 0 <= loc < csize c →
  ∃ f, allow_erase c loc = Some (with_flags c f) ∧ shape (with_flags c f) ∧
    ∀ t, 0 <= t → flag_at f t = if t =? loc then true else flag_at (collection_flags c) t.
Proof.
  intros (Hn & Hl & He & Hm) Hr. unfold allow_erase.
  destruct (bit_set_ok (collection_flags c) loc) as (f & -> & Hf & Hspec); [lia|].
  exists f. split; [done|]. split; [|done]. unfold shape. cbn. by rewrite Hf.
Qed.

(** ** Searches *)

Lemma find_element_ok c e (locs : list Z) :
  shape c → Forall (λ loc, 0 <= loc < csize c) locs →
  ∃ r, find_element locs c e = Some r ∧
    match r with
    | Some loc => loc ∈ locs ∧ table c !! Z.to_nat loc = Some e
    | None => ∀ loc, loc ∈ locs → table c !! Z.to_nat loc ≠ Some e
    end.
Proof.
  intros Hs. induction 1 as [|loc locs Hr Hl IH]; cbn [find_element]; [exists None; split; [done|]; intros loc Hin; inversion Hin|].
  destruct (table_at c loc Hs Hr) as [x Hx]. rewrite Hx. ocbn. case_bool_decide as E.
  - subst. exists (Some loc). split; [done|]. split; [left|done].
  - destruct IH as (r & -> & Hspec). exists r. split; [done|]. destruct r as [l|].
    + destruct Hspec. split; [by right|done].
    + intros l [->|Hin]%elem_of_cons; [congruence|by apply Hspec].
Qed.

Lemma find_collectable_ok c (locs : list Z) :
  shape c → Forall (λ loc, 0 <= loc < csize c) locs →
  ∃ r, find_collectable locs c = Some r ∧
    match r with
    | Some loc => loc ∈ locs ∧ flag_at (collection_flags c) loc = true
    | None => ∀ loc, loc ∈ locs → flag_at (collection_flags c) loc = false
    end.
Proof.
  intros Hs. induction 1 as [|loc locs Hr Hl IH]; cbn [find_collectable]; [exists None; split; [done|]; intros loc Hin; inversion Hin|].
  rewrite bit_is_set_ok by (destruct Hs as (? & ? & ? & ?); lia). ocbn.
  destruct (flag_at (collection_flags c) loc) eqn:E.
  - exists (Some loc). split; [done|]. split; [left|done].
  - destruct IH as (r & -> & Hspec). exists r. split; [done|]. destruct r as [l|].
    + destruct Hspec. split; [by right|done].
    + intros l [->|Hin]%elem_of_cons; [congruence|by apply Hspec].
Qed.
End Invariant.

Section Insert.
Context {Element : Type} `{CacheElementLaws Element}.
Implicit Types (c : cache Element) (e x lost : Element).

Lemma live_place c (loc : Z) e (f : bit_packed_atomic_flags) (ef : list bool) :
  cuckoo_ok c → element_ok e → loc ∈ compute_hashes c e → 0 <= loc < csize c →
  (∀ t, 0 <= t → flag_at f t = if t =? loc then false else flag_at (collection_flags c) t) →
  let c' := with_epochs (with_flags (with_table c (<[Z.to_nat loc := e]> (table c))) f) ef in
  placed c' ∧ Forall element_ok (table c') ∧ live c' e ∧
  (∀ x, live c x → live c' x ∨ live_at c (Z.to_nat loc) x).
Proof.
  intros (Hs & Hp & Hf) He Hin Hr Hfl. cbn zeta. assert ((Z.to_nat loc < length (table c))%nat) as Hlt by (destruct Hs as (? & ? & _); lia).
  split; [|split; [|split]].
  - intros i x [Hi Hi']. cbn in Hi, Hi'. change (compute_hashes _ x) with (compute_hashes c x). rewrite Hfl in Hi' by lia.
    destruct (decide (i = Z.to_nat loc)) as [->|Hne].
    + rewrite list_lookup_insert_eq in Hi by done. injection Hi as <-. by rewrite Z2Nat.id by lia.
    + rewrite list_lookup_insert_ne in Hi by done. apply Hp. split; [done|].
      rewrite (proj2 (Z.eqb_neq _ _)) in Hi' by lia. done.
  - by apply Forall_insert.
  - exists (Z.to_nat loc). split; cbn; [by rewrite list_lookup_insert_eq|]. rewrite Hfl by lia.
    by rewrite (proj2 (Z.eqb_eq _ _)) by lia.
  - intros x (i & Hi & Hi'). destruct (decide (i = Z.to_nat loc)) as [->|Hne]; [by right|]. left. exists i.
    split; cbn; [by rewrite list_lookup_insert_ne|]. rewrite Hfl by lia. by rewrite (proj2 (Z.eqb_neq _ _)) by lia.
Qed.

(** What an insertion does to the set of live elements: at most one of the old ones and the new one is lost, and
    nothing else gets into the table. *)
Definition inserted c e c' : Prop :=
  cuckoo_ok c' ∧ csize c' = csize c ∧ (∀ x, x ∈ table c' → x = e ∨ x ∈ table c) ∧
  ∃ lost, ∀ x, x = e ∨ live c x → x = lost ∨ live c' x.

Lemma elem_of_insert_table (t : list Element) (i : nat) e x : x ∈ <[i := e]> t → x = e ∨ x ∈ t.
Proof.
  intros (j & Hj)%list_elem_of_lookup. destruct (decide (i = j)) as [->|].
  - left. assert (j < length t)%nat by (apply lookup_lt_Some in Hj; by rewrite length_insert in Hj).
    rewrite list_lookup_insert_eq in Hj by done. by injection Hj.
  - right. rewrite list_lookup_insert_ne in Hj by done. by eapply list_elem_of_lookup_2.
Qed.

Lemma next_loc_ok (locs : list Z) (last : Z) :
  length locs = 8%nat → ∃ loc, locs !! Z.to_nat ((1 + find_index last locs) .& 7) = Some loc ∧ loc ∈ locs.
Proof.
  intros Hl. assert (is_Some (locs !! Z.to_nat ((1 + find_index last locs) .& 7))) as [loc Hloc].
  { apply lookup_lt_is_Some. rewrite Hl. rewrite (land_ones_mod _ 3) by lia.
    pose proof (Z.mod_pos_bound (1 + find_index last locs) (2 ^ 3) ltac:(lia)). lia. }
  exists loc. split; [done|]. by eapply list_elem_of_lookup_2.
Qed.

Lemma insert_loop_ok (depth : nat) (last : Z) (ep : bool) e c :
  cuckoo_ok c → element_ok e → ∃ c', insert_loop depth (compute_hashes c e) last ep e c = Some c' ∧ inserted c e c'.
Proof.
  revert last ep e c. induction depth as [|depth IH]; intros last ep e c Hc He; cbn [insert_loop].
  { exists c. split; [done|]. split; [done|]. split; [done|]. split; [tauto|]. exists e. tauto. }
  destruct Hc as (Hs & Hp & Hf). pose proof (compute_hashes_range c e Hs He) as Hrange.
  destruct (find_collectable_ok c _ Hs Hrange) as (r & -> & Hspec). ocbn. destruct r as [loc|].
  - destruct Hspec as [Hin Hflag]. assert (0 <= loc < csize c) as Hr by exact (proj1 (list.Forall_forall _ _) Hrange loc Hin).
    destruct (set_table_ok c loc e Hs Hr) as [-> Hs1]. ocbn.
    destruct (please_keep_ok _ loc Hs1 Hr) as (f & -> & Hs2 & Hfl). ocbn.
    destruct (set_epoch_ok _ loc ep Hs2 Hr) as (ef & -> & Hs3). ocbn. eexists. split; [done|].
    destruct (live_place c loc e f ef) as (Hp' & Hf' & Hle & Hlx); [done..|].
    split; [by split|]. split; [done|]. split; [intros x Hx; exact (elem_of_insert_table _ _ _ _ Hx)|].
    exists e. intros x [->|Hx]; [by left|]. destruct (Hlx x Hx) as [?|[_ Hx']]; [by right|].
    rewrite Z2Nat.id in Hx' by lia. congruence.
  - destruct (next_loc_ok (compute_hashes c e) last) as (loc & -> & Hin); [apply length_compute_hashes|]. ocbn.
    assert (0 <= loc < csize c) as Hr by exact (proj1 (list.Forall_forall _ _) Hrange loc Hin).
    destruct (table_at c loc Hs Hr) as [ev Hev]. rewrite Hev. ocbn.
    destruct (set_table_ok c loc e Hs Hr) as [-> Hs1]. ocbn.
    destruct (epoch_at _ loc Hs1 Hr) as [b Hb]. rewrite Hb. ocbn.
    destruct (set_epoch_ok _ loc ep Hs1 Hr) as (ef & -> & Hs2). ocbn.
    destruct (live_place c loc e (collection_flags c) ef) as (Hp' & Hf' & Hle & Hlx); [done..| |].
    { intros t Ht. destruct (Z.eqb_spec t loc) as [->|]; [by apply Hspec|done]. }
    edestruct (IH loc b ev) as (c' & Ec' & Hc' & Hsz & Htab & lost & Hlost); [split; [exact Hs2|split; [exact Hp'|exact Hf']]| |].
    { exact (Forall_lookup_1 _ _ _ _ Hf Hev). }
    exists c'. split; [exact Ec'|]. split; [done|]. split; [done|]. split.
    + intros x [->|Hx]%Htab; [right; by eapply list_elem_of_lookup_2|]. exact (elem_of_insert_table _ _ _ _ Hx).
    + exists lost. intros x [->|Hx]; apply Hlost; [by right|]. destruct (Hlx x Hx) as [?|[Hx' _]]; [by right|left; congruence].
Qed.
End Insert.

(** ** Epochs *)

(** Position of [t] in the range that is scanned. *)
Ltac age_cases i t k :=
  destruct (Z.leb_spec i t), (Z.leb_spec (i + 1) t), (Z.ltb_spec t (i + 1 + Z.of_nat k)), (Z.ltb_spec t (i + Z.of_nat (S k)));
  done || lia.

Section Epochs.
Context {Element : Type} `{CacheElementLaws Element}.
Implicit Types (c : cache Element) (e x : Element).

Lemma count_unused_ok c (k : nat) (i acc : Z) :
  shape c → 0 <= i → i + k <= csize c → ∃ r, count_unused k i c acc = Some r.
Proof.
  intros Hs. revert i acc. induction k as [|k IH]; intros i acc Hi Hk; cbn [count_unused]; [by eexists|].
  destruct (epoch_at c i Hs ltac:(lia)) as [b ->]. ocbn. destruct b; [|apply IH; lia].
  rewrite bit_is_set_ok by (destruct Hs as (? & ? & ? & ?); lia). ocbn. apply IH; lia.
Qed.

(** Of the entries from [i] on, those of the old epoch become collectable and the others get old. *)
Lemma age_entries_ok c (k : nat) (i : Z) :
  shape c → 0 <= i → i + k <= csize c →
  ∃ f ef, age_entries k i c = Some (with_epochs (with_flags c f) ef) ∧ shape (with_epochs (with_flags c f) ef) ∧
    (∀ t, 0 <= t → flag_at f t =
       if (i <=? t) && (t <? i + k) && negb (default true (epoch_flags c !! Z.to_nat t)) then true
       else flag_at (collection_flags c) t) ∧
    (∀ t, 0 <= t → ef !! Z.to_nat t =
       if (i <=? t) && (t <? i + k) then Some false else epoch_flags c !! Z.to_nat t).
Proof.
  revert c i. induction k as [|k IH]; intros c i Hs Hi Hk; cbn [age_entries].
  { exists (collection_flags c), (epoch_flags c). destruct c. split_and!; [done..| |]; intros t Ht;
      by destruct (Z.leb_spec i t), (Z.ltb_spec t (i + 0%nat)); try lia. }
  destruct (epoch_at c i Hs ltac:(lia)) as [b Hb]. rewrite Hb. ocbn. destruct b.
  - assert (set_epoch c i false = Some (with_epochs c (<[Z.to_nat i := false]> (epoch_flags c))) ∧
            shape (with_epochs c (<[Z.to_nat i := false]> (epoch_flags c)))) as [-> Hs1].
    { unfold set_epoch. rewrite Hb. split; [done|]. unfold shape in *. cbn. by rewrite length_insert. }
    ocbn. destruct (IH _ (i + 1) Hs1 ltac:(lia) ltac:(cbn; lia)) as (f & ef & -> & Hs2 & Hfl & Hef).
    exists f, ef. split; [done|]. split; [done|]. cbn [collection_flags epoch_flags with_epochs] in Hfl, Hef.
    assert (Z.to_nat i < length (epoch_flags c))%nat by (destruct Hs as (? & ? & ? & _); lia).
    split; intros t Ht; [rewrite Hfl by done|rewrite Hef by done];
      (destruct (decide (t = i)) as [->|Hne]; [rewrite ?Hb, ?list_lookup_insert_eq by lia; age_cases i i k|
        rewrite list_lookup_insert_ne by lia; age_cases i t k]).
  - destruct (allow_erase_ok c i Hs ltac:(lia)) as (f0 & -> & Hs1 & Hf0). ocbn.
    destruct (IH _ (i + 1) Hs1 ltac:(lia) ltac:(cbn; lia)) as (f & ef & -> & Hs2 & Hfl & Hef).
    exists f, ef. split; [done|]. split; [done|]. cbn [collection_flags epoch_flags with_flags] in Hfl, Hef.
    split; intros t Ht; [rewrite Hfl, Hf0 by done|rewrite Hef by done];
      (destruct (decide (t = i)) as [->|Hne]; [rewrite ?Hb, ?Z.eqb_refl by lia; age_cases i i k|
        rewrite ?(proj2 (Z.eqb_neq t i)) by done; age_cases i t k]).
Qed.
End Epochs.

Section Operations.
Context {Element : Type} `{CacheElementLaws Element}.
Implicit Types (c : cache Element) (e x : Element).

(** Giving up elements keeps the invariant. *)
Lemma cuckoo_ok_flags c (f : bit_packed_atomic_flags) (ef : list bool) (k : Z) :
  cuckoo_ok c → shape (with_epochs (with_flags c f) ef) →
  (∀ t, 0 <= t → flag_at f t = false → flag_at (collection_flags c) t = false) →
  cuckoo_ok (with_counter (with_epochs (with_flags c f) ef) k) ∧
  ∀ x, live (with_counter (with_epochs (with_flags c f) ef) k) x → live c x.
Proof.
  intros (Hs & Hp & Hf) Hs' Hfl.
  assert (∀ i x, live_at (with_counter (with_epochs (with_flags c f) ef) k) i x → live_at c i x) as Hl.
  { intros i x [Hi Hi']. split; [done|]. apply Hfl; [lia|done]. }
  split; [|intros x [i Hi]; exists i; by apply Hl]. split; [done|]. split; [|done].
  intros i x Hi. by apply Hl, Hp in Hi.
Qed.

(** An aged cache: what is live was live before, and is what the newest epoch had when the scan found it full. *)
Lemma epoch_check_ok c :
  cuckoo_ok c →
  ∃ c1, epoch_check c = Some c1 ∧ cuckoo_ok c1 ∧ csize c1 = csize c ∧ table c1 = table c ∧
    (∀ x, live c1 x → live c x) ∧ (epoch_heuristic_counter c ≠ 0 → ∀ x, live c x → live c1 x) ∧
    (∀ i x, live_at c i x → epoch_flags c !! i = Some true → live c1 x).
Proof.
  intros Hc. unfold epoch_check. destruct (Z.eqb_spec (epoch_heuristic_counter c) 0) as [E0|E0]; cbn [negb].
  2:{ eexists. split; [done|]. split; [done|]. split_and!; try done. intros i x Hi _. by exists i. }
  pose proof Hc as (Hs & Hp & Hf). destruct (count_unused_ok c (Z.to_nat (csize c)) 0 0) as [r ->]; [done|lia..|destruct Hs; lia|].
  ocbn. destruct (epoch_size c <=? r).
  2:{ eexists. split; [done|]. split; [done|]. split_and!; try done. intros i x Hi _. by exists i. }
  destruct (age_entries_ok c (Z.to_nat (csize c)) 0) as (f & ef & -> & Hs' & Hfl & Hef); [done|lia|destruct Hs; lia|].
  ocbn. eexists. split; [done|].
  destruct (cuckoo_ok_flags c f ef (epoch_size c) Hc Hs') as [Hok Hl].
  { intros t Ht. rewrite Hfl by done. by destruct (_ && _ && _). }
  split; [exact Hok|]. split_and!; try done.
  intros i x [Hi Hi'] He. exists i. split; [done|]. cbn. rewrite Hfl by lia. rewrite Nat2Z.id, He. cbn [default negb].
  by rewrite andb_false_r.
Qed.

Lemma cache_insert_ok c e :
  cuckoo_ok c → element_ok e →
  ∃ c1 c', epoch_check c = Some c1 ∧ cache_insert e c = Some c' ∧ inserted c1 e c'.
Proof.
  intros Hc He. destruct (epoch_check_ok c Hc) as (c1 & E1 & (Hs & Hp & Hf) & _). exists c1.
  unfold cache_insert. rewrite E1. ocbn. pose proof (compute_hashes_range c1 e Hs He) as Hrange.
  destruct (find_element_ok c1 e _ Hs Hrange) as (r & -> & Hspec). ocbn. destruct r as [loc|].
  2:{ destruct (insert_loop_ok (Z.to_nat (depth_limit c1)) invalid true e c1) as (c' & -> & Hi); [done..|]. by exists c'. }
  destruct Hspec as [Hin Ht]. assert (0 <= loc < csize c1) as Hr by exact (proj1 (list.Forall_forall _ _) Hrange loc Hin).
  destruct (please_keep_ok c1 loc Hs Hr) as (f & -> & Hs1 & Hfl). ocbn.
  destruct (set_epoch_ok _ loc true Hs1 Hr) as (ef & -> & Hs2). eexists. split; [done|]. split; [done|].
  destruct (live_place c1 loc e f ef) as (Hp' & Hf' & Hle & Hlx); [done..|].
  rewrite list_insert_id in Hp', Hf', Hle, Hlx by done.
  replace (with_table c1 (table c1)) with c1 in * by by destruct c1.
  split; [by split|]. split; [done|]. split; [by right|]. exists e. intros x [->|Hx]; [by left|].
  destruct (Hlx x Hx) as [?|[Hx' _]]; [by right|]. left. congruence.
Qed.

Lemma contains_ok c e (erase : bool) :
  cuckoo_ok c → element_ok e →
  ∃ b c', contains e erase c = Some (b, c') ∧ cuckoo_ok c' ∧ csize c' = csize c ∧ table c' = table c ∧
    (b = true → e ∈ table c) ∧ (live c e → b = true) ∧ (b = true → ∀ erase', fst <$> contains e erase' c' = Some true) ∧
    (∀ x, x ≠ e ∨ erase = false → live c x → live c' x).
Proof.
  intros Hc He. pose proof Hc as (Hs & Hp & Hf). pose proof (compute_hashes_range c e Hs He) as Hrange.
  destruct (find_element_ok c e _ Hs Hrange) as (r & Er & Hspec). unfold contains at 1. rewrite Er. ocbn.
  assert (∀ loc, r = Some loc → 0 <= loc < csize c) as Hr.
  { intros loc ->. exact (proj1 (list.Forall_forall _ _) Hrange loc (proj1 Hspec)). }
  assert (∀ c', csize c' = csize c → table c' = table c → shape c' → ∀ erase', r ≠ None → fst <$> contains e erase' c' = Some true) as Hagain.
  { intros c' Ez Et Hs' erase' Hn. unfold contains. assert (compute_hashes c' e = compute_hashes c e) as -> by (unfold compute_hashes; by rewrite Ez).
    assert (find_element (compute_hashes c e) c' e = Some r) as ->.
    { rewrite <- Er. clear -Et. induction (compute_hashes c e) as [|loc locs IH]; cbn [find_element]; [done|]. by rewrite Et, IH. }
    ocbn. destruct r as [loc|]; [|done]. destruct erase'; [|done].
    destruct (allow_erase_ok c' loc Hs') as (f & -> & _); [rewrite Ez; by apply Hr|done]. }
  destruct r as [loc|].
  - destruct Hspec as [Hin Ht]. destruct erase.
    + destruct (allow_erase_ok c loc Hs (Hr loc eq_refl)) as (f & -> & Hs1 & Hfl). ocbn. eexists _, _. split; [done|].
      destruct (cuckoo_ok_flags c f (epoch_flags c) (epoch_heuristic_counter c) Hc Hs1) as [Hok _].
      { intros t Ht'. rewrite Hfl by done. by destruct (t =? loc). }
      split; [exact Hok|]. split_and!; try done; [intros _; by eapply list_elem_of_lookup_2|intros _ erase'; by apply Hagain|].
      intros x [Hx|[=]] (i & Hi & Hi'). exists i. split; [done|]. cbn. rewrite Hfl by lia.
      destruct (Z.eqb_spec i loc) as [<-|]; [|done]. rewrite Nat2Z.id in Ht. congruence.
    + eexists _, _. split; [done|]. split_and!; try done; [intros _; by eapply list_elem_of_lookup_2|intros _ erase'; by apply Hagain].
  - eexists _, _. split; [done|]. split_and!; try done. intros (i & Hi & Hi').
    assert (live_at c i e) as Hli by done. apply Hp in Hli. apply Hspec in Hli. by rewrite Nat2Z.id in Hli.
Qed.
End Operations.

(** ** Histories *)

Inductive cuckoo_op (Element : Type) :=
  | OpInsert (e : Element)
  | OpContains (e : Element) (erase : bool).
Arguments OpInsert {Element} _.
Arguments OpContains {Element} _ _.

Section Histories.
Context {Element : Type} `{CacheElementLaws Element}.
Implicit Types (c : cache Element) (e x : Element) (ops : list (cuckoo_op Element)).

Definition run_op (op : cuckoo_op Element) c : option (cache Element) :=
  match op with
  | OpInsert e => cache_insert e c
  | OpContains e erase => snd <$> contains e erase c
  end.

Fixpoint run_ops ops c : option (cache Element) :=
  match ops with
  | [] => Some c
  | op :: ops => c ← run_op op c; run_ops ops c
  end.

Definition op_ok (op : cuckoo_op Element) : Prop :=
  match op with OpInsert e => element_ok e | OpContains e _ => element_ok e end.

Lemma setup_ok (log2 : Z → Z) (new_size : Z) :
  0 <= new_size <= 2 ^ 32 - 8 → cuckoo_ok (setup log2 new_size) ∧ ∀ x, ¬ live (setup log2 new_size) x.
Proof.
  intros Hn. assert (u32 (Z.max 2 new_size + 7) = Z.max 2 new_size + 7) as Eu by (apply wrap_small; unfold is_word; lia).
  assert (shape (setup log2 new_size)) as Hs.
  { unfold shape, setup, bit_packed_atomic_flags_new. cbn [csize table epoch_flags collection_flags mem].
    rewrite Eu, !length_replicate. pose proof (Z.div_mod (Z.max 2 new_size + 7) 8 ltac:(lia)).
    pose proof (Z.mod_pos_bound (Z.max 2 new_size + 7) 8 ltac:(lia)). lia. }
  assert (∀ x, ¬ live (setup log2 new_size) x) as Hl.
  { intros x (i & Hi & Hf). pose proof (lookup_lt_Some _ _ _ Hi) as Hlt. destruct Hs as (_ & Ht & _ & Hm).
    assert (i < 8 * length (mem (collection_flags (setup log2 new_size)))) as Hi8 by lia. clear Hi Hlt Ht Hm.
    unfold flag_at in Hf. revert Hf Hi8. unfold setup, bit_packed_atomic_flags_new. cbn [collection_flags mem].
    rewrite length_replicate. intros Hf Hi8. rewrite aget_lookup, lookup_replicate_2 in Hf.
    - pose proof (Z.mod_pos_bound i 8 ltac:(lia)). change (Z.testbit (Z.ones 8) (i mod 8) = false) in Hf.
      rewrite Z.ones_spec_low in Hf by lia. done.
    - pose proof (Z.div_lt_upper_bound i 8 (Z.to_nat (u32 (Z.max 2 new_size + 7) / 8)) ltac:(lia) Hi8).
      pose proof (Z.div_pos i 8). lia. }
  split; [|exact Hl]. split; [exact Hs|]. split; [intros i x Hi; destruct (Hl x); by exists i|].
  unfold setup. cbn [table]. apply Forall_replicate, element_default_ok.
Qed.

Lemma run_op_ok (op : cuckoo_op Element) c :
  cuckoo_ok c → op_ok op →
  ∃ c', run_op op c = Some c' ∧ cuckoo_ok c' ∧ ∀ x, x ∈ table c' → op = OpInsert x ∨ x ∈ table c.
Proof.
  intros Hc Hop. destruct op as [e|e erase]; cbn [run_op op_ok] in *.
  - destruct (cache_insert_ok c e Hc Hop) as (c1 & c' & E1 & -> & Hok & _ & Htab & _). exists c'. split; [done|]. split; [done|].
    intros x [->|Hx]%Htab; [by left|right]. destruct (epoch_check_ok c Hc) as (c1' & E1' & _ & _ & Et & _). congruence.
  - destruct (contains_ok c e erase Hc Hop) as (b & c' & -> & Hok & _ & Et & _). exists c'. split; [done|]. split; [done|].
    intros x Hx. right. congruence.
Qed.

Lemma run_ops_ok ops c :
  cuckoo_ok c → Forall op_ok ops →
  ∃ c', run_ops ops c = Some c' ∧ cuckoo_ok c' ∧ ∀ x, x ∈ table c' → OpInsert x ∈ ops ∨ x ∈ table c.
Proof.
  intros Hc Hops. revert c Hc. induction Hops as [|op ops Hop Hops IH]; intros c Hc; cbn [run_ops].
  { exists c. split; [done|]. split; [done|]. by right. }
  destruct (run_op_ok op c Hc Hop) as (c1 & -> & Hc1 & Ht1). ocbn. destruct (IH c1 Hc1) as (c' & -> & Hc' & Ht).
  exists c'. split; [done|]. split; [done|]. intros x [Hx|[->|Hx]%Ht1]%Ht; [left; by right|left; left|by right].
Qed.
End Histories.

(** ** Properties *)

(** C9: the cache never claims to hold an element it was not given.  Whatever insertions and queries, with or
    without erasing, follow [setup], none of them leaves the arrays, and a query answers yes
    only for an inserted element or for the all-default element that fills the fresh table. *)
Theorem cuckoo_no_false_positives {Element : Type} `{CacheElementLaws Element} (log2 : Z → Z) (new_size : Z)
    (ops : list (cuckoo_op Element)) :
  0 <= new_size <= 2 ^ 32 - 8 → Forall op_ok ops →
  ∃ c, run_ops ops (setup log2 new_size) = Some c ∧
    ∀ e erase, element_ok e → ∃ b, fst <$> contains e erase c = Some b ∧ (b = true → e = element_default ∨ OpInsert e ∈ ops).
Proof.
  intros Hn Hops. destruct (setup_ok log2 new_size Hn) as [Hok _]. destruct (run_ops_ok ops _ Hok Hops) as (c & Ec & Hc & Ht).
  exists c. split; [done|]. intros e erase He. destruct (contains_ok c e erase Hc He) as (b & c' & -> & _ & _ & _ & Hb & _).
  exists b. split; [done|]. intros Et. destruct (Ht e (Hb Et)) as [?|Hd]; [by right|left].
  unfold setup in Hd. cbn [table] in Hd. by apply elem_of_replicate in Hd as [].
Qed.

(** C10: an insertion displaces at most one element.  While the epoch is not due for a scan, after inserting
    [e] every element the cache held and had not been told to erase, and [e] itself, is still
    found, with the exception of at most one; and a query that finds an element and marks it
    for erasure still finds it when repeated. *)
Theorem cache_insert_correct {Element : Type} `{CacheElementLaws Element} (c : cache Element) (e : Element) :
  cuckoo_ok c → element_ok e → epoch_heuristic_counter c ≠ 0 →
  ∃ c', cache_insert e c = Some c' ∧ cuckoo_ok c' ∧
    (∃ lost, ∀ x, x = e ∨ live c x → x ≠ lost → fst <$> contains x false c' = Some true) ∧
    (∀ x c'', element_ok x → contains x true c' = Some (true, c'') → fst <$> contains x false c'' = Some true).
Proof.
  intros Hc He Hk. destruct (cache_insert_ok c e Hc He) as (c1 & c' & E1 & -> & Hok & _ & _ & lost & Hlost).
  destruct (epoch_check_ok c Hc) as (c1' & E1' & _ & _ & _ & _ & Hlive & _). assert (c1' = c1) as -> by congruence.
  exists c'. split; [done|]. split; [done|]. split.
  - exists lost. intros x Hx Hne. destruct (Hlost x) as [?|Hl]; [destruct Hx as [?|Hx]; [by left|right; by apply Hlive]|done|].
    assert (element_ok x) as Hex. { destruct Hl as (i & Hi & _). destruct Hok as (_ & _ & Hf). exact (Forall_lookup_1 _ _ _ _ Hf Hi). }
    destruct (contains_ok c' x false Hok Hex) as (b & c'' & -> & _ & _ & _ & _ & Hb & _). ocbn. by rewrite Hb.
  - intros x c'' Hx E. destruct (contains_ok c' x true Hok Hx) as (b & c2 & E2 & _ & _ & _ & _ & _ & Hagain & _).
    rewrite E in E2. injection E2 as <- <-. by apply Hagain.
Qed.

(** The epoch is meant to be 45% of the table; at the largest size the option allows the product wraps around
    and it is 5%. *)
Lemma epoch_size_wraps {Element : Type} `{CacheElement Element} (log2 : Z → Z) :
  (∀ n, 2 <= n <= 95443717 → epoch_size (setup log2 n : cache Element) = Z.max 1 (45 * n / 100)) ∧
  epoch_size (setup_bytes log2 32 (16384 * 2 ^ 20) : cache Element) = 26843545 ∧ 45 * (16384 * 2 ^ 20 / 32) / 100 = 241591910.
Proof.
  split; [|split; reflexivity]. intros n Hn. unfold setup. cbn [epoch_size]. rewrite (Z.max_r 2 n) by lia.
  unfold u32. by rewrite wrap_small by (unfold is_word; lia).
Qed.

(** ** Witnesses *)

Definition demo_key (k : Z) : list Z := replicate 28 k ++ [k; 0; 0; k].

Definition demo_ops : list (cuckoo_op (list Z)) := [OpInsert (demo_key 1); OpInsert (demo_key 2); OpContains (demo_key 1) true; OpInsert (demo_key 3)].

Lemma cuckoo_no_false_positives_witness :
  ∃ c, run_ops demo_ops (setup Z.log2 4) = Some c ∧
    ∀ e erase, element_ok e → ∃ b, fst <$> contains e erase c = Some b ∧ (b = true → e = element_default ∨ OpInsert e ∈ demo_ops).
Proof.
  apply (cuckoo_no_false_positives Z.log2 4 demo_ops); [lia|]. do 4 (constructor; [by apply bytes_okb_ok|]). constructor.
Defined.

Lemma cache_insert_correct_witness :
  ∃ c', cache_insert (demo_key 1) (setup Z.log2 4) = Some c' ∧ cuckoo_ok c'.
Proof.
  destruct (cache_insert_correct (setup Z.log2 4) (demo_key 1)) as (c' & E & Hc & _); [|by apply bytes_okb_ok|done|by exists c'].
  apply setup_ok. lia.
Defined.
