(* ===== verification/CheckInputs.v ===== *)
(** * Input scripts and the caches in front of them

    [CSignatureCache] and [CachingTransactionSignatureChecker::VerifySignature] of
    [src/src/script/sigcache.cpp], [ScriptErrorString] of [src/src/script/script_error.cpp],
    and [CScriptCheck] and [CheckInputs] of [src/src/validation.cpp] with the script execution
    cache.  The caches are states of [CuckooCache] that every script check reads and changes; [None] is a failed
    assertion.  That the signature cache changes no answer is proved for single signatures, for the
    scripts that ask for them, and for whole transactions. *)

From Stdlib Require Import ZArith Lia String.
From stdpp Require Import list option gmap.
From S2P Require Import Prelude Common Crypto Script Interpreter Checkers Serialize Transaction SigHash Coins TxVerify CuckooCache.

Open Scope Z_scope.
Open Scope word_scope.

(** ** Error messages *)

Definition ScriptErrorString (serror : ScriptError) : string :=
  (match serror with
    | SCRIPT_ERR_OK => "No error"
    | SCRIPT_ERR_EVAL_FALSE => "Script evaluated without error but finished with a false/empty top stack element"
    | SCRIPT_ERR_VERIFY => "Script failed an OP_VERIFY operation"
    | SCRIPT_ERR_EQUALVERIFY => "Script failed an OP_EQUALVERIFY operation"
    | SCRIPT_ERR_CHECKMULTISIGVERIFY => "Script failed an OP_CHECKMULTISIGVERIFY operation"
    | SCRIPT_ERR_CHECKSIGVERIFY => "Script failed an OP_CHECKSIGVERIFY operation"
    | SCRIPT_ERR_NUMEQUALVERIFY => "Script failed an OP_NUMEQUALVERIFY operation"
    | SCRIPT_ERR_SCRIPT_SIZE => "Script is too big"
    | SCRIPT_ERR_PUSH_SIZE => "Push value size limit exceeded"
    | SCRIPT_ERR_OP_COUNT => "Operation limit exceeded"
    | SCRIPT_ERR_STACK_SIZE => "Stack size limit exceeded"
    | SCRIPT_ERR_SIG_COUNT => "Signature count negative or greater than pubkey count"
    | SCRIPT_ERR_PUBKEY_COUNT => "Pubkey count negative or limit exceeded"
    | SCRIPT_ERR_BAD_OPCODE => "Opcode missing or not understood"
    | SCRIPT_ERR_DISABLED_OPCODE => "Attempted to use a disabled opcode"
    | SCRIPT_ERR_INVALID_STACK_OPERATION => "Operation not valid with the current stack size"
    | SCRIPT_ERR_INVALID_ALTSTACK_OPERATION => "Operation not valid with the current altstack size"
    | SCRIPT_ERR_OP_RETURN => "OP_RETURN was encountered"
    | SCRIPT_ERR_UNBALANCED_CONDITIONAL => "Invalid OP_IF construction"
    | SCRIPT_ERR_NEGATIVE_LOCKTIME => "Negative locktime"
    | SCRIPT_ERR_UNSATISFIED_LOCKTIME => "Locktime requirement not satisfied"
    | SCRIPT_ERR_SIG_HASHTYPE => "Signature hash type missing or not understood"
    | SCRIPT_ERR_SIG_DER => "Non-canonical DER signature"
    | SCRIPT_ERR_MINIMALDATA => "Data push larger than necessary"
    | SCRIPT_ERR_SIG_PUSHONLY => "Only non-push operators allowed in signatures"
    | SCRIPT_ERR_SIG_HIGH_S => "Non-canonical signature: S value is unnecessarily high"
    | SCRIPT_ERR_SIG_NULLDUMMY => "Dummy CHECKMULTISIG argument must be zero"
    | SCRIPT_ERR_MINIMALIF => "OP_IF/NOTIF argument must be minimal"
    | SCRIPT_ERR_SIG_NULLFAIL => "Signature must be zero for failed CHECK(MULTI)SIG operation"
    | SCRIPT_ERR_DISCOURAGE_UPGRADABLE_NOPS => "NOPx reserved for soft-fork upgrades"
    | SCRIPT_ERR_DISCOURAGE_UPGRADABLE_WITNESS_PROGRAM => "Witness version reserved for soft-fork upgrades"
    | SCRIPT_ERR_PUBKEYTYPE => "Public key is neither compressed or uncompressed"
    | SCRIPT_ERR_CLEANSTACK => "Extra items left on stack after execution"
    | SCRIPT_ERR_WITNESS_PROGRAM_WRONG_LENGTH => "Witness program has incorrect length"
    | SCRIPT_ERR_WITNESS_PROGRAM_WITNESS_EMPTY => "Witness program was passed an empty witness"
    | SCRIPT_ERR_WITNESS_PROGRAM_MISMATCH => "Witness program hash mismatch"
    | SCRIPT_ERR_WITNESS_MALLEATED => "Witness requires empty scriptSig"
    | SCRIPT_ERR_WITNESS_MALLEATED_P2SH => "Witness requires only-redeemscript scriptSig"
    | SCRIPT_ERR_WITNESS_UNEXPECTED => "Witness provided for non-witness script"
    | SCRIPT_ERR_WITNESS_PUBKEYTYPE => "Using non-compressed keys in segwit"
    | SCRIPT_ERR_UNKNOWN_ERROR | SCRIPT_ERR_ERROR_COUNT => "unknown error"
    end)%string.

(** ** The signature cache *)

Section SignatureCache.
Context `{CryptoHash} `{Secp256k1}.
Variable nonce : list Z.

(** Entries are SHA256(nonce || signature hash || public key || signature). *)
Definition ComputeEntry (hash vchSig pubkey : list Z) : list Z := SHA256 (nonce ++ hash ++ pubkey ++ vchSig).

Definition SignatureCache_Get (entry : list Z) (erase : bool) (c : cache (list Z)) : option (bool * cache (list Z)) :=
  contains entry erase c.

Definition SignatureCache_Set (entry : list Z) (c : cache (list Z)) : option (cache (list Z)) := cache_insert entry c.

(** [CachingTransactionSignatureChecker::VerifySignature] *)
Definition CachingVerifySignature (store : bool) (vchSig pubkey sighash : list Z) (c : cache (list Z)) :
    option (bool * cache (list Z)) :=
  let entry := ComputeEntry sighash vchSig pubkey in
  '(hit, c) ← SignatureCache_Get entry (negb store) c;
  if hit : bool then Some (true, c)
  else if negb (VerifySignature vchSig pubkey sighash) then Some (false, c)
  else if store then c ← SignatureCache_Set entry c; Some (true, c)
  else Some (true, c).

(** The checker that overrides [VerifySignature] with it. *)
Definition CachingTransactionSignatureChecker (txTo : CTransaction) (nIn : nat) (amount : Z) (store : bool) (txdata : PrecomputedTransactionData) :
    SignatureChecker (Stateful (cache (list Z))) :=
  signature_checker (M := Stateful (cache (list Z))) txTo nIn amount (Some txdata) (λ vchSig pubkey sighash c,
    '(r, c) ← CachingVerifySignature store vchSig pubkey sighash c; Some (Ok r, c)).
End SignatureCache.

(** ** Flags *)

Definition MANDATORY_SCRIPT_VERIFY_FLAGS : Z := SCRIPT_VERIFY_P2SH.

Definition STANDARD_SCRIPT_VERIFY_FLAGS : Z :=
  MANDATORY_SCRIPT_VERIFY_FLAGS .| SCRIPT_VERIFY_DERSIG .| SCRIPT_VERIFY_STRICTENC .| SCRIPT_VERIFY_MINIMALDATA
  .| SCRIPT_VERIFY_NULLDUMMY .| SCRIPT_VERIFY_DISCOURAGE_UPGRADABLE_NOPS .| SCRIPT_VERIFY_CLEANSTACK
  .| SCRIPT_VERIFY_MINIMALIF .| SCRIPT_VERIFY_NULLFAIL .| SCRIPT_VERIFY_CHECKLOCKTIMEVERIFY
  .| SCRIPT_VERIFY_CHECKSEQUENCEVERIFY .| SCRIPT_VERIFY_LOW_S .| SCRIPT_VERIFY_WITNESS
  .| SCRIPT_VERIFY_DISCOURAGE_UPGRADABLE_WITNESS_PROGRAM .| SCRIPT_VERIFY_WITNESS_PUBKEYTYPE.

Definition STANDARD_NOT_MANDATORY_VERIFY_FLAGS : Z :=
  STANDARD_SCRIPT_VERIFY_FLAGS .& u32 (Z.lnot MANDATORY_SCRIPT_VERIFY_FLAGS).

(** ** Script checks *)

Record CScriptCheck := {
  m_tx_out : CTxOut;
  ptxTo : CTransaction;
  sc_nIn : nat;
  sc_nFlags : Z;
  cacheStore : bool;
  sc_txdata : PrecomputedTransactionData;
}.

Section CheckInputs.
Context {V : Type} `{CCoinsView V} `{CryptoHash} `{Secp256k1}.

Variable signatureCacheNonce : list Z.

(** [CScriptCheck::operator()] *)
Definition CScriptCheck_call (check : CScriptCheck) : Stateful (cache (list Z)) unit :=
  match vin (ptxTo check) !! sc_nIn check with
  | None => mres Abort
  | Some txin =>
      VerifyScript (sc_nFlags check)
        (CachingTransactionSignatureChecker signatureCacheNonce (ptxTo check) (sc_nIn check) (nValue (m_tx_out check)) (cacheStore check) (sc_txdata check))
        (scriptSig txin) (scriptPubKey (m_tx_out check)) (scriptWitness txin)
  end.

(** The result of a check as the caller sees it, with the signature cache; [None] aborts. *)
Definition run_check (check : CScriptCheck) (sigs : cache (list Z)) : option (option ScriptError * cache (list Z)) :=
  '(r, sigs) ← CScriptCheck_call check sigs;
  match r with Ok _ => Some (None, sigs) | Err e _ => Some (Some e, sigs) | Abort => None end.

(** [CCheckQueueControl::Wait]: the collected checks, in some order; here the one they were added in. *)
Fixpoint run_queue (checks : list CScriptCheck) (sigs : cache (list Z)) : option (bool * cache (list Z)) :=
  match checks with
  | [] => Some (true, sigs)
  | k :: checks => '(r, sigs) ← run_check k sigs; if r is Some _ then Some (false, sigs) else run_queue checks sigs
  end.

(** The loop over the inputs from index [i] on; with [defer] the checks are collected. *)
Fixpoint check_scripts (i : nat) (ins : list CTxIn) (tx : CTransaction) (st : CValidationState) (flags : Z) (cacheSigStore : bool)
    (txdata : PrecomputedTransactionData) (defer : bool) (vChecks : list CScriptCheck) (inputs : CCoinsViewCache V) (sigs : cache (list Z)) :
    option (bool * CValidationState * list CScriptCheck * CCoinsViewCache V * cache (list Z)) :=
  match ins with
  | [] => Some (true, st, vChecks, inputs, sigs)
  | txin :: ins =>
      let '(coin, inputs) := AccessCoin (prevout txin) inputs in
      if IsSpent coin then None
      else
        let check := {| m_tx_out := out coin; ptxTo := tx; sc_nIn := i; sc_nFlags := flags; cacheStore := cacheSigStore; sc_txdata := txdata |} in
        if defer then check_scripts (S i) ins tx st flags cacheSigStore txdata defer (vChecks ++ [check]) inputs sigs
        else
          '(r, sigs) ← run_check check sigs;
          match r with
          | None => check_scripts (S i) ins tx st flags cacheSigStore txdata defer vChecks inputs sigs
          | Some e =>
              let check2 := {| m_tx_out := out coin; ptxTo := tx; sc_nIn := i;
                               sc_nFlags := flags .& u32 (Z.lnot STANDARD_NOT_MANDATORY_VERIFY_FLAGS);
                               cacheStore := cacheSigStore; sc_txdata := txdata |} in
              '(non_mandatory, sigs) ←
                (if negb (flags .& STANDARD_NOT_MANDATORY_VERIFY_FLAGS =? 0)
                 then '(r2, sigs) ← run_check check2 sigs; Some (bool_decide (r2 = None), sigs)
                 else Some (false, sigs));
              if non_mandatory : bool
              then Some (false, Invalid REJECT_NONSTANDARD
                                  ("non-mandatory-script-verify-flag (" ++ ScriptErrorString e ++ ")")%string st, vChecks, inputs, sigs)
              else Some (false, DoS 100 REJECT_INVALID
                                  ("mandatory-script-verify-flag-failed (" ++ ScriptErrorString e ++ ")")%string false st, vChecks, inputs, sigs)
          end
  end.

(** The key of a transaction and flags in the script execution cache: 19 bytes of the nonce. *)
Definition script_cache_entry (scriptExecutionCacheNonce : list Z) (tx : CTransaction) (flags : Z) : list Z :=
  SHA256 (take 19 scriptExecutionCacheNonce ++ GetWitnessHash tx ++ WriteLE32 flags).

Definition CheckInputs (scriptExecutionCacheNonce : list Z) (tx : CTransaction) (st : CValidationState) (inputs : CCoinsViewCache V)
    (fScriptChecks : bool) (flags : Z) (cacheSigStore cacheFullScriptStore : bool) (txdata : PrecomputedTransactionData)
    (defer : bool) (scriptExecutionCache sigs : cache (list Z)) :
    option (bool * CValidationState * list CScriptCheck * CCoinsViewCache V * cache (list Z) * cache (list Z)) :=
  if negb (IsCoinBase tx) && fScriptChecks then
    let hashCacheEntry := script_cache_entry scriptExecutionCacheNonce tx flags in
    '(hit, scriptExecutionCache) ← contains hashCacheEntry (negb cacheFullScriptStore) scriptExecutionCache;
    if hit : bool then Some (true, st, [], inputs, scriptExecutionCache, sigs)
    else
      '(ok, st, vChecks, inputs, sigs) ← check_scripts 0 (vin tx) tx st flags cacheSigStore txdata defer [] inputs sigs;
      if negb ok then Some (false, st, vChecks, inputs, scriptExecutionCache, sigs)
      else if cacheFullScriptStore && negb defer then
        scriptExecutionCache ← cache_insert hashCacheEntry scriptExecutionCache;
        Some (true, st, vChecks, inputs, scriptExecutionCache, sigs)
      else Some (true, st, vChecks, inputs, scriptExecutionCache, sigs)
  else Some (true, st, [], inputs, scriptExecutionCache, sigs).
End CheckInputs.

(** ** What the signature cache answers *)

Record sig_call := { c_store : bool; c_sig : list Z; c_pubkey : list Z; c_hash : list Z }.

Section SigCacheFacts.
Context `{CryptoHash} `{Secp256k1}.
Variable nonce : list Z.

Fixpoint run_calls (calls : list sig_call) (c : cache (list Z)) : option (list bool * cache (list Z)) :=
  match calls with
  | [] => Some ([], c)
  | k :: calls =>
      '(r, c) ← CachingVerifySignature nonce (c_store k) (c_sig k) (c_pubkey k) (c_hash k) c;
      '(rs, c) ← run_calls calls c;
      Some (r :: rs, c)
  end.

Definition call_result (k : sig_call) : bool := VerifySignature (c_sig k) (c_pubkey k) (c_hash k).
Definition call_message (k : sig_call) : list Z := nonce ++ c_hash k ++ c_pubkey k ++ c_sig k.
Definition call_entry (k : sig_call) : list Z := SHA256 (call_message k).

(** A hash of 32 bytes and a key whose first byte gives its length. *)
Definition call_ok (k : sig_call) : Prop :=
  length (c_hash k) = 32%nat ∧ CPubKey_IsValid (c_pubkey k) = true ∧ CPubKey_size (c_pubkey k) = length (c_pubkey k).

(** SHA-256 separates the messages of the calls, and none of them hashes to zero. *)
Definition calls_separated (calls : list sig_call) : Prop :=
  ∀ k k', k ∈ calls → k' ∈ calls →
    (call_entry k = call_entry k' → call_message k = call_message k') ∧ call_entry k ≠ replicate 32 0.

Lemma call_message_inj (k k' : sig_call) :
  call_ok k → call_ok k' → call_message k = call_message k' → call_result k = call_result k'.
Proof.
  intros (Hh & Hv & Hl) (Hh' & Hv' & Hl') E. unfold call_message in E. apply app_inv_head in E.
  apply app_inj_1 in E as [Eh E]; [|congruence].
  assert (c_pubkey k ≠ []) as Hne by (intros En; unfold CPubKey_IsValid in Hv; rewrite Hl, En in Hv; done).
  assert (c_pubkey k' ≠ []) as Hne' by (intros En; unfold CPubKey_IsValid in Hv'; rewrite Hl', En in Hv'; done).
  assert (length (c_pubkey k) = length (c_pubkey k')) as El.
  { apply Nat2Z.inj. rewrite <- Hl, <- Hl'. unfold CPubKey_size. f_equal.
    destruct (c_pubkey k) as [|a p]; [done|]. destruct (c_pubkey k') as [|a' p']; [done|]. by injection E as -> _. }
  apply app_inj_1 in E as [Ep Es]; [|done]. unfold call_result. congruence.
Qed.

(** Everything in the cache is the entry of a signature that verified. *)
Definition sig_cache_ok (calls : list sig_call) (c : cache (list Z)) : Prop :=
  cuckoo_ok c ∧ ∀ e, e ∈ table c → e = replicate 32 0 ∨ ∃ k, k ∈ calls ∧ call_ok k ∧ e = call_entry k ∧ call_result k = true.

Lemma caching_step (all : list sig_call) (k : sig_call) (c : cache (list Z)) :
  sig_cache_ok all c → k ∈ all → call_ok k → calls_separated all →
  ∃ c', CachingVerifySignature nonce (c_store k) (c_sig k) (c_pubkey k) (c_hash k) c = Some (call_result k, c') ∧ sig_cache_ok all c'.
Proof.
  intros [Hc Ht] Hin Hk Hsep. unfold CachingVerifySignature, SignatureCache_Get, SignatureCache_Set, ComputeEntry.
  fold (call_message k). fold (call_entry k). fold (call_result k).
  destruct (contains_ok c (call_entry k) (negb (c_store k)) Hc (SHA256_bytes _)) as (b & c1 & -> & Hc1 & _ & Et & Hb & _). ocbn.
  assert (sig_cache_ok all c1) as Hok1 by (split; [done|by rewrite Et]).
  destruct b.
  - destruct (Ht _ (Hb eq_refl)) as [E|(k' & Hin' & Hk' & E & Hr)]; [by destruct (Hsep k k Hin Hin)|].
    exists c1. split; [|done]. f_equal. f_equal. rewrite <- Hr. symmetry.
    apply call_message_inj; [done..|]. by apply Hsep.
  - destruct (call_result k) eqn:Er; cbn [negb]; [|by exists c1]. destruct (c_store k); [|by exists c1].
    destruct (cache_insert_ok c1 (call_entry k) Hc1 (SHA256_bytes _)) as (c2 & c' & E2 & -> & Hc' & _ & Htab & _). ocbn.
    exists c'. split; [done|]. split; [done|]. intros e [->|He]%Htab; [right; by exists k|].
    apply Hok1. destruct (epoch_check_ok c1 Hc1) as (c2' & E2' & _ & _ & Et2 & _). congruence.
Qed.

Lemma run_calls_ok (all calls : list sig_call) (c : cache (list Z)) :
  sig_cache_ok all c → calls ⊆ all → Forall call_ok calls → calls_separated all →
  ∃ c', run_calls calls c = Some (call_result <$> calls, c').
Proof.
  intros Hc Hsub Hok Hsep. revert c Hc. induction calls as [|k calls IH]; intros c Hc; cbn [run_calls]; [by exists c|].
  apply list.Forall_cons in Hok as [Hk Hok].
  destruct (caching_step all k c Hc ltac:(apply Hsub; left) Hk Hsep) as (c1 & -> & Hc1). ocbn.
  destruct (IH ltac:(intros x Hx; apply Hsub; by right) Hok c1 Hc1) as (c' & ->). ocbn. by exists c'.
Qed.

(** ** Whole scripts through the signature cache *)

(** The checker that asks no cache and writes down the signatures it is asked for. *)
Definition logging_checker (txTo : CTransaction) (nIn : nat) (amount : Z) (store : bool) (txdata : PrecomputedTransactionData) :
    SignatureChecker (Traced sig_call) :=
  signature_checker (M := Traced sig_call) txTo nIn amount (Some txdata) (λ vchSig pubkey sighash,
    ([{| c_store := store; c_sig := vchSig; c_pubkey := pubkey; c_hash := sighash |}], Ok (VerifySignature vchSig pubkey sighash))).

(** What a check asks for, and its outcome without any cache. *)
Definition check_calls (check : CScriptCheck) : list sig_call :=
  match vin (ptxTo check) !! sc_nIn check with
  | None => []
  | Some txin =>
      (VerifyScript (sc_nFlags check)
         (logging_checker (ptxTo check) (sc_nIn check) (nValue (m_tx_out check)) (cacheStore check) (sc_txdata check))
         (scriptSig txin) (scriptPubKey (m_tx_out check)) (scriptWitness txin)).1
  end.

Definition check_outcome (check : CScriptCheck) : Res unit :=
  match vin (ptxTo check) !! sc_nIn check with
  | None => Abort
  | Some txin =>
      VerifyScript (sc_nFlags check)
        (TransactionSignatureChecker (ptxTo check) (sc_nIn check) (nValue (m_tx_out check)) (Some (sc_txdata check)))
        (scriptSig txin) (scriptPubKey (m_tx_out check)) (scriptWitness txin)
  end.

Lemma length_SignatureHash (code : CScript) (tx : CTransaction) (nIn : nat) (ht amount : Z) (version : SigVersion)
    (txdata : option PrecomputedTransactionData) (h : list Z) :
  SignatureHash code tx nIn ht amount version txdata = Some h → length h = 32%nat.
Proof.
  unfold SignatureHash. destruct (negb _); [done|]. destruct version.
  - destruct (_ && _); [by intros [= <-]|]. destruct (SignatureSerialize _ _ _ _); ocbn; [|done]. intros [= <-]. apply length_CHash256.
  - unfold WitnessSignatureHash. destruct (vin tx !! nIn); ocbn; [|done]. intros [= <-]. apply length_CHash256.
Qed.

Lemma CPubKey_Set_valid (k : list Z) :
  CPubKey_IsValid (CPubKey_Set k) = true → CPubKey_size (CPubKey_Set k) = length (CPubKey_Set k).
Proof.
  unfold CPubKey_Set. destruct (_ && _) eqn:E; [|done]. intros _. apply andb_prop in E as [_ E%Z.eqb_eq].
  destruct k as [|h k]; [done|]. exact E.
Qed.

(** Run with the cache, a script has the outcome it has without, and leaves a cache of verified signatures. *)
Lemma CScriptCheck_call_ok (all : list sig_call) (check : CScriptCheck) (c : cache (list Z)) :
  calls_separated all → check_calls check ⊆ all → sig_cache_ok all c →
  ∃ c', CScriptCheck_call nonce check c = Some (check_outcome check, c') ∧ sig_cache_ok all c'.
Proof.
  intros Hsep Hsub Hc. unfold CScriptCheck_call, check_outcome, check_calls in *. destruct (vin _ !! _) as [txin|]; [|by exists c].
  erewrite <- (VerifyScript_traced _ (logging_checker _ _ _ (cacheStore check) _)); [|..].
  - eapply (VerifyScript_simulates (sig_cache_ok all) (λ k, k ∈ all)); [|done|done| |exact Hc]; [|apply list.Forall_forall; exact Hsub].
    intros sig key code version Hall s Hs. unfold CachingTransactionSignatureChecker, logging_checker in *. cbn [CheckSigM signature_checker] in *.
    unfold TxCheckSig in *.
    destruct (negb _) eqn:Ev; [by exists s|]. destruct (list.last sig); [|by exists s].
    destruct (SignatureHash _ _ _ _ _ _ _) as [h|] eqn:Eh; [|by exists s]. cbn [fst snd] in *.
    apply Forall_cons_1 in Hall as [Hin _].
    edestruct (caching_step all _ s Hs Hin) as (s' & E & Hs'); [|done|].
    + split; [by eapply length_SignatureHash|]. split; [by apply negb_false_iff|]. apply CPubKey_Set_valid. by apply negb_false_iff.
    + cbn [c_store c_sig c_pubkey c_hash] in E. rewrite E. ocbn. by exists s'.
  - intros sig key code version. cbn [CheckSigM signature_checker logging_checker TransactionSignatureChecker]. unfold TxCheckSig.
    destruct (negb _); [done|]. destruct (list.last sig); [|done]. by destruct (SignatureHash _ _ _ _ _ _ _).
  - done.
  - done.
Qed.

(** A check that passes passes without the cache. *)
Lemma run_check_ok (all : list sig_call) (check : CScriptCheck) (c c' : cache (list Z)) :
  calls_separated all → check_calls check ⊆ all → sig_cache_ok all c →
  run_check nonce check c = Some (None, c') → check_outcome check = Ok tt ∧ sig_cache_ok all c'.
Proof.
  intros Hsep Hsub Hc. unfold run_check. destruct (CScriptCheck_call_ok all check c Hsep Hsub Hc) as (c1 & -> & Hc1). ocbn.
  destruct (check_outcome check) as [[]| |]; [|done..]. by intros [= <-].
Qed.

Lemma run_queue_ok (all : list sig_call) (checks : list CScriptCheck) (c c' : cache (list Z)) :
  calls_separated all → Forall (λ k, check_calls k ⊆ all) checks → sig_cache_ok all c →
  run_queue nonce checks c = Some (true, c') → Forall (λ k, check_outcome k = Ok tt) checks ∧ sig_cache_ok all c'.
Proof.
  intros Hsep Hall. revert c. induction Hall as [|k checks Hk Hall IH]; intros c Hc; cbn [run_queue]; [by intros [= <-]|].
  destruct (run_check nonce k c) as [[[e|] c1]|] eqn:E; ocbn; [done| |done].
  apply (run_check_ok all) in E as [Ek Hc1]; [|done..]. intros Hq. apply IH in Hq as [Hf ?]; [|done]. split; [by constructor|done].
Qed.
End SigCacheFacts.

(** ** What [CheckInputs] guarantees *)

Section ScriptFacts.
Context {V : Type} `{CCoinsViewLaws V} `{CryptoHash} `{Secp256k1}.
Implicit Types c : CCoinsViewCache V.

(** Input [i] of the transaction satisfies the script of the output it spends. *)
Definition input_verifies (flags : Z) (tx : CTransaction) (i : nat) (txin : CTxIn) (o : CTxOut) : Prop :=
  VerifyScript flags (TransactionSignatureChecker tx i (nValue o) (Some (precompute tx)))
    (scriptSig txin) (scriptPubKey o) (scriptWitness txin) = Ok tt.

(** All of them do, the outputs given by [outs]. *)
Definition scripts_verify (outs : COutPoint → option CTxOut) (flags : Z) (tx : CTransaction) : Prop :=
  ∀ i txin, vin tx !! i = Some txin → ∃ o, outs (prevout txin) = Some o ∧ input_verifies flags tx i txin o.

(** The check of input [i] against the output [o]. *)
Definition input_check (flags : Z) (store : bool) (tx : CTransaction) (i : nat) (o : CTxOut) : CScriptCheck :=
  {| m_tx_out := o; ptxTo := tx; sc_nIn := i; sc_nFlags := flags; cacheStore := store; sc_txdata := precompute tx |}.

Lemma input_check_ok (flags : Z) (store : bool) (tx : CTransaction) (i : nat) (txin : CTxIn) (o : CTxOut) :
  vin tx !! i = Some txin → check_outcome (input_check flags store tx i o) = Ok tt → input_verifies flags tx i txin o.
Proof. intros Hi. unfold check_outcome. cbn [ptxTo sc_nIn input_check]. by rewrite Hi. Qed.

(** The signatures the scripts of the transaction ask for are among [calls]. *)
Definition calls_listed (calls : list sig_call) (outs : COutPoint → option CTxOut) (flags : Z) (tx : CTransaction) : Prop :=
  ∀ store i txin o, vin tx !! i = Some txin → outs (prevout txin) = Some o → check_calls (input_check flags store tx i o) ⊆ calls.

(** The nonces of the two caches. *)
Variable signatureCacheNonce nonce : list Z.

(** What holds of the checks that have been collected for later. *)
Definition collected (calls : list sig_call) (v : list CScriptCheck) : Prop := Forall (λ k, check_calls k ⊆ calls) v.
Definition all_pass (v : list CScriptCheck) : Prop := Forall (λ k, check_outcome k = Ok tt) v.

Lemma check_scripts_ok (calls : list sig_call) (outs : COutPoint → option CTxOut) (i : nat) (ins : list CTxIn) (tx : CTransaction)
    (st st' : CValidationState) (flags : Z) (store defer : bool) (vChecks vChecks' : list CScriptCheck) (sigs sigs' : cache (list Z)) c c' :
  cache_ok c → (∀ j txin, ins !! j = Some txin → vin tx !! (i + j)%nat = Some txin) →
  (∀ txin k, txin ∈ ins → cache_coins c (prevout txin) = Some k → outs (prevout txin) = Some (out k)) →
  calls_separated signatureCacheNonce calls → calls_listed calls outs flags tx → sig_cache_ok signatureCacheNonce calls sigs → collected calls vChecks →
  check_scripts signatureCacheNonce i ins tx st flags store (precompute tx) defer vChecks c sigs = Some (true, st', vChecks', c', sigs') →
  same_view c c' ∧ st' = st ∧ sig_cache_ok signatureCacheNonce calls sigs' ∧ collected calls vChecks' ∧ (defer = false → vChecks' = vChecks) ∧
  (all_pass vChecks' → all_pass vChecks ∧
     ∀ j txin, ins !! j = Some txin → ∃ o, outs (prevout txin) = Some o ∧ input_verifies flags tx (i + j) txin o).
Proof.
  intros Hc Hins Hout Hsep Hlist. revert i vChecks sigs c Hc Hins Hout.
  induction ins as [|txin ins IH]; intros i vChecks sigs c Hc Hins Hout Hsig Hcol; cbn [check_scripts].
  { intros [= <- <- <- <-]. split_and!; try done. }
  pose proof (AccessCoin_same c (prevout txin) Hc) as Ha. destruct (AccessCoin (prevout txin) c) as [k c1].
  destruct Ha as [Hsv Hun]. unfold unspent in Hun. destruct (IsSpent k); [done|]. fold (input_check flags store tx i (out k)).
  set (check := input_check flags store tx i (out k)). pose proof (Hins 0%nat txin eq_refl) as Hi. rewrite Nat.add_0_r in Hi.
  assert (∀ j t, ins !! j = Some t → vin tx !! (S i + j)%nat = Some t) as Hins' by (intros j t Hj; rewrite Nat.add_succ_comm; by apply Hins).
  pose proof (Hout txin k ltac:(left) Hun) as Hok. pose proof (Hlist store i txin (out k) Hi Hok) as Hcalls. fold check in Hcalls.
  intros E. assert (∃ v sigs1, check_scripts signatureCacheNonce (S i) ins tx st flags store (precompute tx) defer v c1 sigs1 = Some (true, st', vChecks', c', sigs') ∧
    sig_cache_ok signatureCacheNonce calls sigs1 ∧ collected calls v ∧ (defer = false → v = vChecks) ∧
    (all_pass v → all_pass vChecks ∧ check_outcome check = Ok tt)) as (v & sigs1 & E' & Hsig1 & Hcol1 & Hd1 & Hv).
  { destruct defer.
    - exists (vChecks ++ [check]), sigs. split_and!; [exact E|done| |done|].
      + apply Forall_app. split; [done|]. by constructor.
      + intros [? [??]%list.Forall_cons]%Forall_app. done.
    - destruct (run_check signatureCacheNonce check sigs) as [[[e|] sigs1]|] eqn:Er; revert E; ocbn; [|intros E; apply (run_check_ok _ calls) in Er as [Hck Hs1]; [|done..]; by exists vChecks, sigs1|done].
      destruct (if negb _ then _ else _) as [[[] ?]|]; ocbn; done. }
  clear E. apply IH in E' as (Hsv' & -> & Hsig' & Hcol' & Hd & Hf); [|apply Hsv|done| |done..].
  2: { intros t k' Ht. rewrite (proj2 (proj2 Hsv)). apply Hout. by right. }
  split; [by apply (same_view_trans c c1)|]. split; [done|]. split; [done|]. split; [done|]. split.
  { intros Hdf. rewrite (Hd Hdf). by apply Hd1. }
  intros Hall. destruct (Hf Hall) as [Hv1 Hrest]. destruct (Hv Hv1) as [Hv2 Hck]. split; [done|]. intros [|j] t Hj.
  - injection Hj as <-. exists (out k). rewrite Nat.add_0_r. split; [done|]. by apply (input_check_ok flags store).
  - rewrite <- Nat.add_succ_comm. by apply Hrest.
Qed.

(** Whatever the caches answer, an accepting run only reads the coins. *)
Lemma check_scripts_same (i : nat) (ins : list CTxIn) (tx : CTransaction) (st st' : CValidationState) (flags : Z) (store defer : bool)
    (txdata : PrecomputedTransactionData) (vChecks vChecks' : list CScriptCheck) (sigs sigs' : cache (list Z)) c c' :
  cache_ok c → check_scripts signatureCacheNonce i ins tx st flags store txdata defer vChecks c sigs = Some (true, st', vChecks', c', sigs') →
  same_view c c' ∧ st' = st.
Proof.
  revert i vChecks sigs c. induction ins as [|txin ins IH]; intros i vChecks sigs c Hc; cbn [check_scripts]; [by intros [= <- _ <- _]|].
  pose proof (AccessCoin_same c (prevout txin) Hc) as Ha. destruct (AccessCoin (prevout txin) c) as [k c1]. destruct Ha as [Hsv _].
  assert (∀ i v s, check_scripts signatureCacheNonce i ins tx st flags store txdata defer v c1 s = Some (true, st', vChecks', c', sigs') →
    same_view c c' ∧ st' = st) as Hrest.
  { intros i' v s E. apply IH in E as [Hsv' ->]; [|apply Hsv]. split; [by apply (same_view_trans c c1)|done]. }
  destruct (IsSpent k); [done|]. destruct defer; [apply Hrest|].
  destruct (run_check _ _ _) as [[[e|] sigs1]|]; ocbn; [|apply Hrest|done]. by destruct (if negb _ then _ else _) as [[[] ?]|]; ocbn.
Qed.

(** ** The script execution cache *)

Definition entry_message (x : CTransaction * Z) : list Z := take 19 nonce ++ GetWitnessHash x.1 ++ WriteLE32 x.2.

(** SHA-256 separates these messages and maps none to zero, and the witness hashes separate the transactions. *)
Definition entries_separated (l : list (CTransaction * Z)) : Prop :=
  ∀ x y, x ∈ l → y ∈ l →
    SHA256 (entry_message x) ≠ replicate 32 0 ∧
    (SHA256 (entry_message x) = SHA256 (entry_message y) → entry_message x = entry_message y) ∧
    (GetWitnessHash x.1 = GetWitnessHash y.1 → SerializeTransaction 0 x.1 = SerializeTransaction 0 y.1).

Definition entry_ok (x : CTransaction * Z) : Prop := tx_ok x.1 ∧ vin x.1 ≠ [] ∧ is_word 32 x.2.

Lemma WriteLE32_inj (a b : Z) : is_word 32 a → is_word 32 b → WriteLE32 a = WriteLE32 b → a = b.
Proof. intros Ha Hb E. rewrite <- (ReadLE32_WriteLE32 a []), <- (ReadLE32_WriteLE32 b []) by done. by rewrite E. Qed.

Lemma entry_inj (l : list (CTransaction * Z)) (x y : CTransaction * Z) :
  entries_separated l → x ∈ l → y ∈ l → entry_ok x → entry_ok y →
  script_cache_entry nonce x.1 x.2 = script_cache_entry nonce y.1 y.2 → x = y.
Proof.
  intros Hsep Hx Hy (Hx1 & Hx2 & Hx3) (Hy1 & Hy2 & Hy3) E. destruct (Hsep x y Hx Hy) as (_ & Hm & Hw).
  apply Hm in E. unfold entry_message in E. apply app_inv_head in E.
  apply app_inj_1 in E as [Ew Ef]; [|rewrite !GetWitnessHash_preimage; by rewrite !length_CHash256].
  destruct x as [a fa], y as [b fb]. cbn [fst snd] in *. f_equal; [|by apply WriteLE32_inj].
  apply (SerializeTransaction_inj 0 a b Hx1 Hy1); [done|]. by apply Hw.
Qed.

(** Every entry of the cache is of a transaction whose scripts all verify. *)
Definition script_cache_ok (outs : COutPoint → option CTxOut) (l : list (CTransaction * Z)) (sc : cache (list Z)) : Prop :=
  cuckoo_ok sc ∧ ∀ e, e ∈ table sc → e = replicate 32 0 ∨
    ∃ x, x ∈ l ∧ entry_ok x ∧ e = script_cache_entry nonce x.1 x.2 ∧ scripts_verify outs x.2 x.1.

Lemma CheckInputs_ok (calls : list sig_call) (outs : COutPoint → option CTxOut) (l : list (CTransaction * Z)) (tx : CTransaction) (st st' : CValidationState)
    (flags : Z) (sigStore fullStore defer : bool) (vChecks : list CScriptCheck) (sc sc' sigs sigs' : cache (list Z)) c c' :
  cache_ok c → (∀ txin k, txin ∈ vin tx → cache_coins c (prevout txin) = Some k → outs (prevout txin) = Some (out k)) →
  script_cache_ok outs l sc → (tx, flags) ∈ l → entry_ok (tx, flags) → entries_separated l →
  sig_cache_ok signatureCacheNonce calls sigs → calls_listed calls outs flags tx → calls_separated signatureCacheNonce calls → IsCoinBase tx = false →
  CheckInputs signatureCacheNonce nonce tx st c true flags sigStore fullStore (precompute tx) defer sc sigs = Some (true, st', vChecks, c', sc', sigs') →
  same_view c c' ∧ st' = st ∧ script_cache_ok outs l sc' ∧ sig_cache_ok signatureCacheNonce calls sigs' ∧ collected calls vChecks ∧
  (defer = false → vChecks = []) ∧ (all_pass vChecks → scripts_verify outs flags tx).
Proof.
  intros Hc Hout [Hsc Ht] Hin Hok Hsep Hsig Hlist Hcsep Hcb. unfold CheckInputs. rewrite Hcb. cbn [negb andb].
  destruct (contains_ok sc (script_cache_entry nonce tx flags) (negb fullStore) Hsc (SHA256_bytes _)) as (b & sc1 & -> & Hsc1 & _ & Et & Hb & _).
  assert (script_cache_ok outs l sc1) as Hok1 by (split; [done|by rewrite Et]). ocbn. destruct b.
  { intros [= <- <- <- <- <-]. split_and!; try done; [by constructor|]. intros _.
    destruct (Ht _ (Hb eq_refl)) as [E|(x & Hx & Hxok & E & Hv)]; [by destruct (Hsep _ _ Hin Hin)|].
    apply (entry_inj l (tx, flags) x) in E; [|done..]. by subst x. }
  destruct (check_scripts _ _ _ _ _ _ _ _ _ _ _) as [[[[[ok st1] v] c1] sigs1]|] eqn:Ec; [|done]. ocbn. destruct ok; [|done]. cbn [negb].
  apply (check_scripts_ok calls outs) in Ec as (Hsv & -> & Hsig1 & Hcol & Hd & Hf); [|try done..]; [|by constructor].
  assert (all_pass v → scripts_verify outs flags tx) as Hver by (intros Hall i txin Hi; by apply (Hf Hall)).
  destruct (fullStore && negb defer) eqn:Es; [|by intros [= <- <- <- <- <-]]. apply andb_prop in Es as [-> Hdf].
  apply negb_true_iff in Hdf. subst defer. rewrite (Hd eq_refl) in *.
  destruct (cache_insert_ok sc1 (script_cache_entry nonce tx flags) Hsc1 (SHA256_bytes _)) as (sc2 & sc3 & E2 & -> & Hsc3 & _ & Htab & _).
  ocbn. intros [= <- <- <- <- <-]. split_and!; try done. split; [done|].
  intros e [->|He]%Htab; [right; exists (tx, flags); split_and!; try done; apply Hver; by constructor|].
  apply Hok1. destruct (epoch_check_ok sc1 Hsc1) as (sc2' & E2' & _ & _ & Et2 & _). congruence.
Qed.
End ScriptFacts.

(** ** Properties *)

(** C8: the signature cache never changes an answer.  Whatever signatures are checked through a freshly set up
    cache, storing or not, every answer is the one the verification itself gives, as long as
    SHA-256 does not collide on the messages of these checks and maps none of them to zero. *)
Theorem CachingVerifySignature_correct `{CryptoHash} `{Secp256k1} (nonce : list Z) (log2 : Z → Z) (new_size : Z) (calls : list sig_call) :
  0 <= new_size <= 2 ^ 32 - 8 → Forall call_ok calls → calls_separated nonce calls →
  ∃ c, run_calls nonce calls (setup log2 new_size) =
       Some ((λ k, VerifySignature (c_sig k) (c_pubkey k) (c_hash k)) <$> calls, c).
Proof.
  intros Hn Hok Hsep. apply (run_calls_ok nonce calls calls); [|done..].
  split; [by apply setup_ok|]. intros e He. left. unfold setup in He. cbn [table] in He. by apply elem_of_replicate in He as [].
Qed.

(** C7: a transaction [CheckInputs] accepts has all its scripts satisfied, directly, by the checks it hands out,
    or by an earlier check remembered in the script execution cache, and the signature cache that the checks read
    and write does not change this.  If the caches hold only entries of transactions whose scripts verify and of signatures
    that verify, the accepting call leaves the coins and the state as they are and keeps the caches that way, and once the collected
    checks have been run, through the signature cache, and passed, every input satisfies the script of the output it spends,
    every signature in it verified without a cache.  SHA-256 must not collide on the entries of the caches:
    the hashes separate the transactions involved, and the signatures their scripts ask for. *)
Theorem CheckInputs_sound {V : Type} `{CCoinsViewLaws V} `{CryptoHash} `{Secp256k1} (sigNonce nonce : list Z) (calls : list sig_call)
    (outs : COutPoint → option CTxOut) (l : list (CTransaction * Z)) (tx : CTransaction) (st st' : CValidationState) (flags : Z)
    (sigStore fullStore defer : bool) (vChecks : list CScriptCheck) (sc sc' sigs sigs' : cache (list Z)) (c c' : CCoinsViewCache V) :
  cache_ok c → (∀ txin k, txin ∈ vin tx → cache_coins c (prevout txin) = Some k → outs (prevout txin) = Some (out k)) →
  script_cache_ok nonce outs l sc → (tx, flags) ∈ l → entry_ok (tx, flags) → entries_separated nonce l →
  sig_cache_ok sigNonce calls sigs → calls_listed calls outs flags tx → calls_separated sigNonce calls → IsCoinBase tx = false →
  CheckInputs sigNonce nonce tx st c true flags sigStore fullStore (precompute tx) defer sc sigs = Some (true, st', vChecks, c', sc', sigs') →
  same_view c c' ∧ st' = st ∧ script_cache_ok nonce outs l sc' ∧ sig_cache_ok sigNonce calls sigs' ∧ (defer = false → vChecks = []) ∧
  ∀ sigs'', run_queue sigNonce vChecks sigs' = Some (true, sigs'') → scripts_verify outs flags tx ∧ sig_cache_ok sigNonce calls sigs''.
Proof.
  intros Hc Hout Hsc Hin Hok Hsep Hsig Hlist Hcsep Hcb E. eapply CheckInputs_ok in E as (? & ? & ? & Hsig' & Hcol & ? & Hv); [|eassumption..].
  split_and!; try assumption. intros sigs'' Hq. eapply run_queue_ok in Hq as [Hp ?]; [|eassumption..]. split; [by apply Hv|assumption].
Qed.

(** ** Witnesses *)

Definition demo_call : sig_call :=
  {| c_store := true; c_sig := [1; 2; 3; 4]; c_pubkey := 2 :: replicate 32 9; c_hash := [1; 2; 3; 4] ++ replicate 28 5 |}.

Lemma CachingVerifySignature_correct_witness :
  ∃ c, @run_calls toy_hash toy_secp (replicate 32 3) [demo_call; demo_call] (setup Z.log2 4) = Some ([true; true], c).
Proof.
  apply (@CachingVerifySignature_correct toy_hash toy_secp (replicate 32 3) Z.log2 4 [demo_call; demo_call]); [lia| |].
  - do 2 (constructor; [by split_and!|]). constructor.
  - assert (∀ k, k ∈ [demo_call; demo_call] → k = demo_call) as Hk.
    { intros k [->|[->|Hk]%elem_of_cons]%elem_of_cons; [done..|]. inversion Hk. }
    intros k k' Hin Hin'. apply Hk in Hin, Hin'. subst. split; [done|]. by vm_compute.
Defined.

Lemma setup_sig_cache `{CryptoHash} `{Secp256k1} (nonce : list Z) (calls : list sig_call) : sig_cache_ok nonce calls (setup Z.log2 4).
Proof. split; [apply setup_ok; lia|]. intros e He. left. unfold setup in He. cbn [table] in He. by apply elem_of_replicate in He as []. Qed.

(** A payment to a key, and the transaction that spends it with a signature. *)
Definition demo_key_db : CCoinsViewDB := {|
  db_coins := {[ demo_outpoint 1 := Coin_make {| nValue := 10; scriptPubKey := 0x21 :: (2 :: replicate 32 9) ++ [0xac] |} 5 false ]};
  db_best := Some (replicate 32 1); db_heads := [] |}.

Definition demo_key_cache : CCoinsViewCache CCoinsViewDB := MkCache demo_key_db (replicate 32 2) ∅.

Lemma demo_key_cache_ok : cache_ok demo_key_cache.
Proof.
  split; [|apply map_Forall_empty]. split; [|by eexists]. intros o c. cbn. rewrite lookup_insert_Some, lookup_empty. intuition; by subst.
Qed.

Definition demo_signed : CTransaction := {|
  vin := [{| prevout := demo_outpoint 1; scriptSig := [5; 113; 32; 32; 32; 1]; nSequence := 3; scriptWitness := [] |}];
  vout := [{| nValue := 7; scriptPubKey := [0x51] |}]; nVersion := 2; nLockTime := 9 |}.

Definition demo_sig_calls : list sig_call :=
  (λ b, {| c_store := b; c_sig := [113; 32; 32; 32]; c_pubkey := 2 :: replicate 32 9; c_hash := 113 :: replicate 31 32 |}) <$> [true; false].

Lemma demo_calls_separated : @calls_separated toy_hash (replicate 32 4) demo_sig_calls.
Proof.
  assert (∀ k, k ∈ demo_sig_calls → @call_message (replicate 32 4) k = replicate 32 4 ++ (113 :: replicate 31 32) ++ (2 :: replicate 32 9) ++ [113; 32; 32; 32]) as Hm.
  { intros k [->|[->|Hk]%elem_of_cons]%elem_of_cons; [reflexivity..|]. inversion Hk. }
  intros k k' Hk Hk'. split; [intros _; by rewrite (Hm k Hk), (Hm k' Hk')|]. unfold call_entry. rewrite (Hm k Hk). by vm_compute.
Qed.

Definition demo_CheckInputs (sigs : cache (list Z)) :=
  @CheckInputs _ _ toy_hash toy_secp (replicate 32 4) (replicate 32 3) demo_signed new_state demo_key_cache true 0 true true (@precompute toy_hash demo_signed)
    false (setup Z.log2 4) sigs.

Lemma CheckInputs_sound_witness :
  ∃ st' vChecks c' sc' sigs', demo_CheckInputs (setup Z.log2 4) = Some (true, st', vChecks, c', sc', sigs') ∧
    @scripts_verify toy_hash toy_secp (λ o, out <$> cache_coins demo_key_cache o) 0 demo_signed.
Proof.
  assert (∃ st' vChecks c' sc' sigs', demo_CheckInputs (setup Z.log2 4) = Some (true, st', vChecks, c', sc', sigs'))
    as (st' & vChecks & c' & sc' & sigs' & E) by (do 5 eexists; vm_compute; reflexivity).
  exists st', vChecks, c', sc', sigs'. split; [exact E|].
  apply (@CheckInputs_sound _ _ _ toy_hash toy_secp (replicate 32 4) (replicate 32 3) demo_sig_calls (λ o, out <$> cache_coins demo_key_cache o) [(demo_signed, 0)])
    in E as (_ & _ & _ & _ & Hd & Hv);
    [rewrite Hd in Hv by done; by destruct (Hv sigs' eq_refl)|apply demo_key_cache_ok| | |left| | |apply setup_sig_cache| | |reflexivity].
  - intros txin k _ Ek. by rewrite Ek.
  - split; [apply setup_ok; lia|]. intros e He. left. unfold setup in He. cbn [table] in He. by apply elem_of_replicate in He as [].
  - split; [by apply tx_okb_ok|]. split; [discriminate|]. by split.
  - assert (∀ x, x ∈ [(demo_signed, 0)] → x = (demo_signed, 0)) as Hx.
    { intros x [->|Hx]%elem_of_cons; [done|]. inversion Hx. }
    intros x y Hx1 Hy1. apply Hx in Hx1, Hy1. subst. split_and!; [by vm_compute|done..].
  - intros store i txin o Hi Ho. destruct i as [|i]; [|done]. injection Hi as <-. vm_compute in Ho. injection Ho as <-.
    assert (∃ k, k ∈ demo_sig_calls ∧ @check_calls toy_hash toy_secp (@input_check toy_hash 0 store demo_signed 0
      {| nValue := 10; scriptPubKey := 0x21 :: (2 :: replicate 32 9) ++ [0xac] |}) = [k]) as (k & Hk & Ek).
    { destruct store; eexists; (split; [|vm_compute; reflexivity]); [left|right; left]. }
    intros x Hx. change (x ∈ @check_calls toy_hash toy_secp (@input_check toy_hash 0 store demo_signed 0
      {| nValue := 10; scriptPubKey := 0x21 :: (2 :: replicate 32 9) ++ [0xac] |})) in Hx. rewrite Ek in Hx. by apply list_elem_of_singleton in Hx as ->.
  - exact demo_calls_separated.
Defined.

(** The signature it asked for is then in the cache. *)
Example CheckInputs_caches_signature :
  (r ← demo_CheckInputs (setup Z.log2 4);
   fst <$> SignatureCache_Get (@ComputeEntry toy_hash (replicate 32 4) (113 :: replicate 31 32) [113; 32; 32; 32] (2 :: replicate 32 9)) false r.2) = Some true.
Proof. vm_compute. reflexivity. Qed.
