(* ===== verification/ConnectBlock.v ===== *)
(** * Connecting a block

    [ConnectBlock] of [src/src/validation.cpp]: the checks of a block against the coins, and what it
    does to them.  The coins are a cache over any view ([Coins]), the scripts are checked
    inline or collected and run at the end ([CheckInputs]), through the two caches.  [None] is a failed assertion or an
    uncaught exception; the disk, to which the undo data and the transaction index go, is an argument. *)

From Stdlib Require Import ZArith Lia String.
From stdpp Require Import list option gmap.
From S2P Require Import Prelude Common ArithUint256 Chain Pow Crypto Script Interpreter Checkers Serialize Transaction SigHash Coins TxVerify Block Merkle Undo BlockCheck CuckooCache CheckInputs.

Open Scope Z_scope.
Open Scope word_scope.

(** ** The block index entry *)

Definition BLOCK_VALID_SCRIPTS : Z := 5.
Definition BLOCK_HAVE_UNDO : Z := 16.

(** [CBlockIndex::GetUndoPos().IsNull()] *)
Definition undo_pos_null (b : CBlockIndex) : bool := (if nStatus b .& BLOCK_HAVE_UNDO =? 0 then -1 else nFile b) =? -1.

Definition with_undo (b : CBlockIndex) (undoPos status : Z) : CBlockIndex :=
  {| phashBlock := phashBlock b; pprev := pprev b; pskip := pskip b; Chain.nHeight := Chain.nHeight b;
     nFile := nFile b; nDataPos := nDataPos b; nUndoPos := undoPos;
     nChainWork := nChainWork b; nTx := nTx b; nChainTx := nChainTx b;
     nStatus := status; Chain.nVersion := Chain.nVersion b; hashMerkleRoot := hashMerkleRoot b;
     nTime := nTime b; nBits := nBits b; nNonce := nNonce b;
     nSequenceId := nSequenceId b; nTimeMax := nTimeMax b |}.

(** The disk when it is asked: whether [FindUndoPos] finds room, where [UndoWriteToDisk] puts the undo data it is given with the
    hash of the previous block, if it can, and whether the transaction index is written (it is when the index is off). *)
Record DiskOutcome := {
  FindUndoPos_ok : bool;
  UndoWriteToDisk : list CTxUndo → list Z → option Z;
  txindex_written : bool;
}.

(** The globals [ConnectBlock] reads. *)
Record ConnectGlobals := {
  hashAssumeValid : list Z;
  mapBlockIndex : gmap (list Z) ptr;
  pindexBestHeader : ptr;
  nMinimumChainWork : list Z;
  nScriptCheckThreads : Z;
  scriptExecutionCacheNonce : list Z;
  signatureCacheNonce : list Z;
}.

(** What the loop over the transactions changes. *)
Record ConnectState (V : Type) := MkConnect {
  cs_state : CValidationState;
  cs_view : CCoinsViewCache V;
  nFees : Z;
  nSigOpsCost : Z;
  blockundo : list CTxUndo;
  queued : list CScriptCheck;
  execCache : cache (list Z);
  sigCache : cache (list Z);
}.
Arguments MkConnect {V} _ _ _ _ _ _ _ _.
Arguments cs_state {V} _.
Arguments cs_view {V} _.
Arguments nFees {V} _.
Arguments nSigOpsCost {V} _.
Arguments blockundo {V} _.
Arguments queued {V} _.
Arguments execCache {V} _.
Arguments sigCache {V} _.

(** ** Whether scripts are checked *)

Section AssumeValid.
Variable blocks : gmap ptr CBlockIndex.

Definition assumed_valid (g : ConnectGlobals) (p : ptr) (pindex : CBlockIndex) (params : Params) : option bool :=
  if uint256_IsNull (hashAssumeValid g) then Some false
  else
    match mapBlockIndex g !! hashAssumeValid g with
    | None => Some false
    | Some it =>
        a ← GetAncestor blocks it (Chain.nHeight pindex);
        if negb (bool_decide (a = Some p)) then Some false
        else
          b ← GetAncestor blocks (pindexBestHeader g) (Chain.nHeight pindex);
          if negb (bool_decide (b = Some p)) then Some false
          else
            best ← blocks !! pindexBestHeader g;
            if negb (BaseUint.geb (nChainWork best) (nMinimumChainWork g)) then Some false
            else
              t ← GetBlockProofEquivalentTime (nChainWork best) (nChainWork pindex) (nBits best) (nPowTargetSpacing params);
              Some (negb (t <=? 60 * 60 * 24 * 7 * 2))
    end.

(** ** One transaction *)

Context {V : Type} `{CCoinsView V} `{CryptoHash} `{SphHash} `{Secp256k1}.

Fixpoint prev_heights (ins : list CTxIn) (view : CCoinsViewCache V) : list Z * CCoinsViewCache V :=
  match ins with
  | [] => ([], view)
  | txin :: ins =>
      let '(k, view) := AccessCoin (prevout txin) view in
      let '(hs, view) := prev_heights ins view in
      (Coins.nHeight k :: hs, view)
  end.

(** The amounts and the relative lock times of a transaction that is not a coinbase. *)
Definition connect_amounts (p : ptr) (height nLockTimeFlags : Z) (tx : CTransaction) (s : ConnectState V) :
    option (bool * ConnectState V) :=
  '(txfee, st, view) ← CheckTxInputs tx (cs_state s) (cs_view s) height;
  match txfee with
  | None => Some (false, MkConnect st view (nFees s) (nSigOpsCost s) (blockundo s) (queued s) (execCache s) (sigCache s))
  | Some txfee =>
      let fees := i64 (nFees s + txfee) in
      if negb (MoneyRange fees)
      then Some (false, MkConnect (DoS 100 REJECT_INVALID "bad-txns-accumulated-fee-outofrange" false st)
                          view fees (nSigOpsCost s) (blockundo s) (queued s) (execCache s) (sigCache s))
      else
        let '(prevheights, view) := prev_heights (vin tx) view in
        ok ← SequenceLocks blocks tx nLockTimeFlags prevheights p;
        if negb ok
        then Some (false, MkConnect (DoS 100 REJECT_INVALID "bad-txns-nonfinal" false st)
                            view fees (nSigOpsCost s) (blockundo s) (queued s) (execCache s) (sigCache s))
        else Some (true, MkConnect st view fees (nSigOpsCost s) (blockundo s) (queued s) (execCache s) (sigCache s))
  end.

Definition connect_scripts (g : ConnectGlobals) (fScriptChecks fJustCheck : bool) (flags : Z) (tx : CTransaction) (s : ConnectState V) :
    option (bool * ConnectState V) :=
  '(ok, st, vChecks, view, sc, sigs) ←
    CheckInputs (signatureCacheNonce g) (scriptExecutionCacheNonce g) tx (cs_state s) (cs_view s) fScriptChecks flags fJustCheck fJustCheck (precompute tx)
      (negb (nScriptCheckThreads g =? 0)) (execCache s) (sigCache s);
  if negb ok then Some (false, MkConnect st view (nFees s) (nSigOpsCost s) (blockundo s) (queued s) sc sigs)
  else Some (true, MkConnect st view (nFees s) (nSigOpsCost s) (blockundo s) (queued s ++ vChecks) sc sigs).

(** The body of the loop; [first] is [i == 0]. *)
Definition connect_tx (g : ConnectGlobals) (p : ptr) (height : Z) (fScriptChecks fJustCheck : bool) (nLockTimeFlags flags : Z)
    (first : bool) (tx : CTransaction) (s : ConnectState V) : option (bool * ConnectState V) :=
  '(ok, s) ← (if negb (IsCoinBase tx) then connect_amounts p height nLockTimeFlags tx s else Some (true, s));
  if negb ok then Some (false, s)
  else
    '(cost, view) ← GetTransactionSigOpCost tx flags (cs_view s);
    let cost := nSigOpsCost s + cost in
    if MAX_BLOCK_SIGOPS_COST <? cost
    then Some (false, MkConnect (DoS 100 REJECT_INVALID "bad-blk-sigops" false (cs_state s)) view (nFees s) cost (blockundo s) (queued s) (execCache s) (sigCache s))
    else
      let s := MkConnect (cs_state s) view (nFees s) cost (blockundo s) (queued s) (execCache s) (sigCache s) in
      '(ok, s) ← (if negb (IsCoinBase tx) then connect_scripts g fScriptChecks fJustCheck flags tx s else Some (true, s));
      if negb ok then Some (false, s)
      else
        '(undo, view) ← UpdateCoins tx (cs_view s) height;
        Some (true, MkConnect (cs_state s) view (nFees s) (nSigOpsCost s)
                      (if first then blockundo s else blockundo s ++ [undo]) (queued s) (execCache s) (sigCache s)).

Fixpoint connect_txs (g : ConnectGlobals) (p : ptr) (height : Z) (fScriptChecks fJustCheck : bool) (nLockTimeFlags flags : Z)
    (first : bool) (txs : list CTransaction) (s : ConnectState V) : option (bool * ConnectState V) :=
  match txs with
  | [] => Some (true, s)
  | tx :: txs =>
      '(ok, s) ← connect_tx g p height fScriptChecks fJustCheck nLockTimeFlags flags first tx s;
      if negb ok then Some (false, s)
      else connect_txs g p height fScriptChecks fJustCheck nLockTimeFlags flags false txs s
  end.
End AssumeValid.

(** ** The block *)

Section Connect.
Variable blocks : gmap ptr CBlockIndex.
Context {V : Type} `{CCoinsView V} `{CryptoHash} `{SphHash} `{Secp256k1}.

Definition with_state (s : ConnectState V) (st : CValidationState) : ConnectState V :=
  MkConnect st (cs_view s) (nFees s) (nSigOpsCost s) (blockundo s) (queued s) (execCache s) (sigCache s).

Definition with_view (s : ConnectState V) (view : CCoinsViewCache V) : ConnectState V :=
  MkConnect (cs_state s) view (nFees s) (nSigOpsCost s) (blockundo s) (queued s) (execCache s) (sigCache s).

Definition with_sigs (s : ConnectState V) (sigs : cache (list Z)) : ConnectState V :=
  MkConnect (cs_state s) (cs_view s) (nFees s) (nSigOpsCost s) (blockundo s) (queued s) (execCache s) sigs.

(** The undo data and the status of the entry; on the right the state of a failure. *)
Definition write_undo (disk : DiskOutcome) (pindex : CBlockIndex) (undo : list CTxUndo) (st : CValidationState) : option (CBlockIndex + CValidationState) :=
  valid ← IsValid (nStatus pindex) BLOCK_VALID_SCRIPTS;
  if undo_pos_null pindex || negb valid then
    let raise (pos status : Z) := '(status, _) ← RaiseValidity status BLOCK_VALID_SCRIPTS; Some (inl (with_undo pindex pos status)) in
    if undo_pos_null pindex then
      if negb (FindUndoPos_ok disk) then Some (inr (Error "out of disk space" st))
      else
        q ← pprev pindex;
        prev ← blocks !! q;
        match UndoWriteToDisk disk undo (phashBlock prev) with
        | None => Some (inr (Error "Failed to write undo data" st))
        | Some pos => raise pos (nStatus pindex .| BLOCK_HAVE_UNDO)
        end
    else raise (nUndoPos pindex) (nStatus pindex)
  else Some (inl pindex).

(** The writes after the checks, and the new entry of the index. *)
Definition finish_connect (disk : DiskOutcome) (hasHash : bool) (pindex : CBlockIndex) (s : ConnectState V) : option (bool * ConnectState V * CBlockIndex) :=
  r ← write_undo disk pindex (blockundo s) (cs_state s);
  match r with
  | inr st => Some (false, with_state s st, pindex)
  | inl pindex =>
      if negb (txindex_written disk)
      then Some (false, with_state s (Error "Failed to write transaction index" (cs_state s)), pindex)
      else if negb hasHash then None
      else Some (true, with_view s (SetBestBlock (phashBlock pindex) (cs_view s)), pindex)
  end.

(** [hasHash]: [phashBlock] is not null; it is null when a candidate block is tested. *)
Definition ConnectBlock (g : ConnectGlobals) (disk : DiskOutcome) (hasHash : bool) (block : CBlock) (st : CValidationState) (p : ptr)
    (view : CCoinsViewCache V) (sc sigs : cache (list Z)) (params : Params) (fJustCheck : bool) :
    option (bool * ConnectState V * CBlockIndex) :=
  pindex ← blocks !! p;
  hash ← BlockHeader_GetHash (header block);
  if hasHash && negb (bool_decide (phashBlock pindex = hash)) then None
  else
    '(ok, st, _) ← CheckBlock block st params (negb fJustCheck) (negb fJustCheck);
    let s := MkConnect st view 0 0 [] [] sc sigs in
    if negb ok then Some (false, s, pindex)
    else
      hashPrevBlock ← (match pprev pindex with None => Some uint256_null | Some q => phashBlock <$> blocks !! q end);
      let '(best, view) := Cache_GetBestBlock view in
      let s := with_view s view in
      if negb (bool_decide (hashPrevBlock = best)) then None
      else if bool_decide (hash = hashGenesisBlock params)
      then Some (true, if fJustCheck then s else with_view s (SetBestBlock (phashBlock pindex) view), pindex)
      else
        assumed ← assumed_valid blocks g p pindex params;
        let fScriptChecks := negb assumed in
        let nLockTimeFlags := if nCSVEnabled params then LOCKTIME_VERIFY_SEQUENCE else 0 in
        let flags := GetBlockScriptFlags pindex params in
        '(ok, s) ← connect_txs blocks g p (Chain.nHeight pindex) fScriptChecks fJustCheck nLockTimeFlags flags true (vtx block) s;
        if negb ok then Some (false, s, pindex)
        else
          let blockReward := i64 (nFees s + GetBlockSubsidy (Chain.nHeight pindex) params) in
          cb ← vtx block !! 0%nat;
          value ← GetValueOut cb;
          if blockReward <? value
          then Some (false, with_state s (DoS 100 REJECT_INVALID "bad-cb-amount" false (cs_state s)), pindex)
          else
            '(wait, sigs) ← run_queue (signatureCacheNonce g) (queued s) (sigCache s);
            let s := with_sigs s sigs in
            if negb wait then Some (false, with_state s (DoS 100 REJECT_INVALID "block-validation-failed" false (cs_state s)), pindex)
            else if fJustCheck then Some (true, s, pindex)
            else finish_connect disk hasHash pindex s.
End Connect.

(** ** Reading the coins changes nothing *)

Section Reads.
Context {V : Type} `{CCoinsViewLaws V} `{CryptoHash} `{Secp256k1}.
Implicit Types c : CCoinsViewCache V.

Lemma prev_heights_same (ins : list CTxIn) c : cache_ok c → same_view c (prev_heights ins c).2.
Proof.
  revert c. induction ins as [|i ins IH]; intros c Hc; cbn [prev_heights]; [done|].
  pose proof (AccessCoin_same c (prevout i) Hc) as Ha. destruct (AccessCoin (prevout i) c) as [k c1]. destruct Ha as [Hsv _].
  specialize (IH c1 (proj1 Hsv)). destruct (prev_heights ins c1) as [hs c2]. by apply (same_view_trans c c1).
Qed.

Lemma p2sh_sigops_loop_same (ins : list CTxIn) (k r : Z) c c' :
  cache_ok c → p2sh_sigops_loop ins k c = Some (r, c') → same_view c c'.
Proof.
  revert k c. induction ins as [|i ins IH]; intros k c Hc; cbn [p2sh_sigops_loop]; [by intros [= _ <-]|].
  pose proof (AccessCoin_same c (prevout i) Hc) as Ha. destruct (AccessCoin (prevout i) c) as [coin c1]. destruct Ha as [Hsv _].
  destruct (IsSpent coin); [done|]. destruct (if IsPayToScriptHash _ then _ else _) as [k'|]; [|done]. ocbn. intros E.
  apply (same_view_trans c c1); [done|]. by apply (IH _ c1 (proj1 Hsv) E).
Qed.

Lemma witness_sigops_loop_same (flags : Z) (ins : list CTxIn) (k r : Z) c c' :
  cache_ok c → witness_sigops_loop flags ins k c = Some (r, c') → same_view c c'.
Proof.
  revert k c. induction ins as [|i ins IH]; intros k c Hc; cbn [witness_sigops_loop]; [by intros [= _ <-]|].
  pose proof (AccessCoin_same c (prevout i) Hc) as Ha. destruct (AccessCoin (prevout i) c) as [coin c1]. destruct Ha as [Hsv _].
  destruct (IsSpent coin); [done|]. destruct (CountWitnessSigOps _ _ _ _) as [k'|]; [|done]. ocbn. intros E.
  apply (same_view_trans c c1); [done|]. by apply (IH _ c1 (proj1 Hsv) E).
Qed.

Lemma GetTransactionSigOpCost_same (tx : CTransaction) (flags r : Z) c c' :
  cache_ok c → GetTransactionSigOpCost tx flags c = Some (r, c') → same_view c c'.
Proof.
  intros Hc. unfold GetTransactionSigOpCost, GetP2SHSigOpCount. destruct (GetLegacySigOpCount tx); [|done]. ocbn.
  destruct (IsCoinBase tx); [by intros [= _ <-]|]. destruct (has flags SCRIPT_VERIFY_P2SH); ocbn; [|by apply witness_sigops_loop_same].
  destruct (p2sh_sigops_loop _ _ _) as [[k c1]|] eqn:E; [|done]. ocbn. apply p2sh_sigops_loop_same in E; [|done].
  intros E'. apply witness_sigops_loop_same in E'; [|apply E]. by apply (same_view_trans c c1).
Qed.

Lemma CheckInputs_same (sigNonce nonce : list Z) (tx : CTransaction) (st st' : CValidationState) (fScriptChecks : bool) (flags : Z)
    (sigStore fullStore defer : bool) (vChecks : list CScriptCheck) (sc sc' sigs sigs' : cache (list Z)) c c' :
  cache_ok c →
  CheckInputs sigNonce nonce tx st c fScriptChecks flags sigStore fullStore (precompute tx) defer sc sigs = Some (true, st', vChecks, c', sc', sigs') →
  same_view c c' ∧ st' = st.
Proof.
  intros Hc. unfold CheckInputs. destruct (negb _ && _); [|by intros [= <- _ <- _ _]].
  destruct (contains _ _ _) as [[[|] sc1]|]; [by ocbn; intros [= <- _ <- _ _]| |done]. ocbn.
  destruct (check_scripts _ _ _ _ _ _ _ _ _ _ _) as [[[[[[|] st1] v] c1] sigs1]|] eqn:E; [|done..]. ocbn. cbn [negb].
  apply check_scripts_same in E as (Hsv & ->); [|done..]. destruct (_ && _); [|by intros [= <- _ <- _ _]].
  destruct (cache_insert _ _); [|done]. ocbn. by intros [= <- _ <- _ _].
Qed.
End Reads.

(** ** Values *)

Definition total (g : gmap COutPoint Coin) : Z := map_fold (λ _ k acc, nValue (out k) + acc) 0 g.

Lemma total_insert (g : gmap COutPoint Coin) (o : COutPoint) (k : Coin) :
  g !! o = None → total (<[o := k]> g) = nValue (out k) + total g.
Proof. intros Hn. unfold total. rewrite map_fold_insert_L; [done| |done]. intros. lia. Qed.

Lemma total_delete (g : gmap COutPoint Coin) (o : COutPoint) (k : Coin) :
  g !! o = Some k → total (delete o g) = total g - nValue (out k).
Proof.
  intros Hk. rewrite <- (insert_delete_id g o k Hk) at 2. rewrite total_insert by apply lookup_delete_eq. lia.
Qed.

Definition outputs_value (outs : list CTxOut) : Z := foldr (λ o s, nValue o + s) 0 outs.

Definition coin_value (g : gmap COutPoint Coin) (i : CTxIn) : Z := default 0 ((λ k, nValue (out k)) <$> g !! prevout i).
Definition coins_value (g : gmap COutPoint Coin) (ins : list CTxIn) : Z := foldr (λ i s, coin_value g i + s) 0 ins.

Lemma coins_value_ext (g g' : gmap COutPoint Coin) (ins : list CTxIn) :
  (∀ i, i ∈ ins → g !! prevout i = g' !! prevout i) → coins_value g ins = coins_value g' ins.
Proof.
  induction ins as [|i ins IH]; intros He; [done|]. cbn [coins_value foldr]. fold (coins_value g ins) (coins_value g' ins).
  rewrite IH by (intros j Hj; apply He; by right). unfold coin_value. by rewrite He by left.
Qed.

Lemma total_removed (ins : list CTxIn) (g : gmap COutPoint Coin) :
  Forall (λ i, is_Some (g !! prevout i)) ins → NoDup (prevout <$> ins) →
  total (inputs_removed ins g) = total g - coins_value g ins.
Proof.
  revert g. induction ins as [|i ins IH]; intros g Hf Hnd; cbn [inputs_removed foldl coins_value foldr]; [lia|].
  fold (inputs_removed ins (delete (prevout i) g)) (coins_value g ins).
  apply Forall_cons_1 in Hf as [[k Hk] Hf]. rewrite fmap_cons in Hnd. apply NoDup_cons_1_1 in Hnd as Hni. apply NoDup_cons_1_2 in Hnd.
  assert (∀ j, j ∈ ins → delete (prevout i) g !! prevout j = g !! prevout j) as Hsame.
  { intros j Hj. rewrite lookup_delete_ne; [done|]. intros E. apply Hni. rewrite E. by apply list_elem_of_fmap_2. }
  rewrite IH; [| |done].
  - rewrite (total_delete g _ k Hk), (coins_value_ext _ g) by done. unfold coin_value at 1. rewrite Hk. cbn. lia.
  - apply list.Forall_forall. intros j Hj. rewrite Hsame by done. by apply (proj1 (list.Forall_forall _ _) Hf).
Qed.

Lemma total_added (txid : list Z) (cb : bool) (height : Z) (i : nat) (outs : list CTxOut) (g : gmap COutPoint Coin) :
  i + length outs <= 2 ^ 32 → Forall (λ o, 0 <= nValue o) outs →
  (∀ j, (i ≤ j < i + length outs)%nat → g !! txout_at txid j = None) →
  total (outputs_added txid cb height i outs g) <= total g + outputs_value outs.
Proof.
  intros Hl Hf. revert i g Hl. induction Hf as [|o outs Ho _ IH]; intros i g Hl Hnew; cbn [outputs_added outputs_value foldr length] in *; [lia|].
  fold (outputs_value outs). destruct (IsUnspendable _).
  - specialize (IH (S i) g ltac:(lia)). etransitivity; [apply IH; intros; apply Hnew; lia|lia].
  - etransitivity; [apply IH; [lia|]|].
    + intros j Hj. rewrite lookup_insert_ne; [apply Hnew; lia|]. intros E. apply txout_at_inj in E; lia.
    + rewrite total_insert by (apply Hnew; lia). cbn [out Coin_make]. lia.
Qed.

(** ** What [CheckBlock] established *)

Lemma check_transactions_ok (txs : list CTransaction) (st st' : CValidationState) :
  Forall tx_ok txs → check_transactions txs st = (true, st') →
  st' = st ∧ Forall (λ tx, transaction_valid tx false) txs.
Proof.
  intros Hok. revert st. induction Hok as [|tx txs Htx _ IH]; intros st; cbn [check_transactions]; [by intros [= <-]|].
  destruct (CheckTransaction_ok tx st false Htx) as [[-> Hv]|(level & reason & -> & _)]; cbn [negb]; [|done].
  intros [-> Hf]%IH. split; [done|]. by constructor.
Qed.

Lemma CheckBlock_true `{CryptoHash} `{SphHash} (block b' : CBlock) (st st' : CValidationState) (params : Params) (pow merkle : bool) :
  fChecked block = false → Forall tx_ok (vtx block) →
  CheckBlock block st params pow merkle = Some (true, st', b') →
  st' = st ∧ Forall (λ tx, transaction_valid tx false) (vtx block) ∧
  ∃ cb txs, vtx block = cb :: txs ∧ IsCoinBase cb = true ∧ Forall (λ tx, IsCoinBase tx = false) txs.
Proof.
  intros Hf Hok. unfold CheckBlock. rewrite Hf.
  destruct (CheckBlockHeader _ _ _ _) as [[[|] st1]|] eqn:Eh; [|done..]. ocbn. cbn [negb].
  assert (st1 = st) as ->.
  { revert Eh. unfold CheckBlockHeader. destruct pow; [|by intros [= ->]]. destruct (BlockHeader_GetHash _); [|done]. ocbn.
    destruct (negb _); [done|]. by intros [= ->]. }
  destruct (if merkle then _ else _) as [[|] st2] eqn:Em; cbn [negb]; [|done].
  assert (st2 = st) as ->.
  { destruct merkle; [|by injection Em as ->]. pose proof (check_merkle_root_cases block st) as Hm. rewrite Em in Hm. by destruct Hm. }
  destruct (_ || _ || _); [done|]. destruct (vtx block) as [|cb txs] eqn:Ev; [done|].
  destruct (IsCoinBase cb) eqn:Ecb; cbn [negb]; [|done]. destruct (existsb IsCoinBase txs) eqn:Ee; [done|].
  destruct (check_transactions (cb :: txs) st) as [[|] st3] eqn:Et; cbn [negb]; [|done].
  apply check_transactions_ok in Et as [-> Hv]; [|done]. destruct (block_sigops _ _); [|done]. ocbn.
  destruct (_ <? _); [done|]. intros [= <- _]. split; [done|]. split; [done|]. exists cb, txs. split; [done|]. split; [done|].
  apply existsb_false_Forall in Ee. done.
Qed.

Lemma GetBlockSubsidy_le (params : Params) (n : Z) :
  0 <= n → 0 < nSubsidyHalvingInterval params → GetBlockSubsidy n params <= 4242488 * COIN.
Proof.
  intros Hn Hi. unfold GetBlockSubsidy. destruct (64 <=? _) eqn:E; [unfold COIN; lia|].
  set (v := if n =? 1 then _ else _). assert (0 <= v <= 4242488 * COIN) as Hv by (unfold v, COIN; repeat case_if; lia).
  assert (0 <= Z.quot n (nSubsidyHalvingInterval params)) as Hh by (apply Z.quot_pos; lia).
  rewrite shr_div by done. transitivity v; [|lia]. apply Z.div_le_upper_bound; [by apply pow2_pos|].
  pose proof (pow2_pos _ Hh). nia.
Qed.

(** ** One transaction *)

Section ConnectTx.
Variable blocks : gmap ptr CBlockIndex.
Context {V : Type} `{CCoinsViewLaws V} `{CryptoHash} `{SphHash} `{Secp256k1}.
Implicit Types (c : CCoinsViewCache V) (g : gmap COutPoint Coin).

(** What validation does not look at: no input twice, and outputs that are not there yet. *)
Definition tx_fresh (tx : CTransaction) g : Prop :=
  (IsCoinBase tx = false → NoDup (prevout <$> vin tx)) ∧ length (vout tx) <= 2 ^ 32 ∧
  ∀ j, (j < length (vout tx))%nat → g !! txout_at (GetHash tx) j = None.

Lemma same_view_refl c : cache_ok c → same_view c c.
Proof. done. Qed.

Lemma view_is_same c c' g : view_is c g → same_view c c' → view_is c' g.
Proof. intros [_ Hg] (Hc' & _ & Hco). split; [done|]. intros o. by rewrite Hco. Qed.

Lemma inputs_value_is c g (ins : list CTxIn) : view_is c g → inputs_value c ins = coins_value g ins.
Proof.
  intros [_ Hg]. induction ins as [|i ins IH]; [done|]. cbn [inputs_value coins_value foldr].
  fold (inputs_value c ins) (coins_value g ins). rewrite IH. f_equal. unfold input_value, coin_value. rewrite Hg.
  by destruct (g !! prevout i).
Qed.

Lemma tx_amounts (tx : CTransaction) : tx_ok tx → Forall (λ o, is_int 64 (nValue o)) (vout tx).
Proof. intros (_ & [Ho _] & _). revert Ho. apply Forall_impl. intros o Hok. apply Hok. Qed.

Lemma tx_not_null (tx : CTransaction) (v : Z) : tx_ok tx → GetValueOut tx = Some v → Forall (λ o, CTxOut_IsNull o = false) (vout tx).
Proof.
  intros Htx Hv. apply GetValueOut_loop_spec in Hv as (Hpos & _); [|by apply tx_amounts|done].
  revert Hpos. apply Forall_impl. intros o Ho. unfold MoneyRange in Ho. unfold CTxOut_IsNull. bool_to_prop. apply Z.eqb_neq. lia.
Qed.

(** Amounts: the inputs are there, and the fee is what they are worth beyond the outputs. *)
Lemma connect_amounts_ok (p : ptr) (height ltf v : Z) (tx : CTransaction) (s s' : ConnectState V) g :
  view_is (cs_view s) g → mode (cs_state s) = MODE_VALID → IsCoinBase tx = false → tx_ok tx → GetValueOut tx = Some v →
  0 <= nFees s <= MAX_MONEY → connect_amounts blocks p height ltf tx s = Some (true, s') →
  Forall (λ i, is_Some (g !! prevout i)) (vin tx) ∧ mode (cs_state s') = MODE_VALID ∧ same_view (cs_view s) (cs_view s') ∧
  nFees s' = nFees s + (coins_value g (vin tx) - v) ∧ 0 <= nFees s' <= MAX_MONEY ∧ blockundo s' = blockundo s.
Proof.
  intros Hv Hst Hcb Htx Hval Hfees. unfold connect_amounts.
  destruct (CheckTxInputs_ok tx (cs_state s) height v (cs_view s)) as (r & st' & c' & E & Hsv & Hr & Hm); try done.
  { apply Hv. } { by apply tx_amounts. }
  rewrite E. ocbn. destruct r as [fee|]; [|done]. destruct (proj1 (Hr fee) eq_refl) as (Hsp & Hle & Hfee).
  rewrite (inputs_value_is _ g) in Hle, Hfee by done.
  assert (0 <= v) as Hv0.
  { apply GetValueOut_loop_spec in Hval as (_ & _ & Hvr); [|by apply tx_amounts|done]. unfold MoneyRange in Hvr. bool_to_prop. lia. }
  destruct (MoneyRange _) eqn:Em; cbn [negb]; [|done]. pose proof (prev_heights_same (vin tx) c' (proj1 Hsv)) as Hsv2.
  destruct (prev_heights (vin tx) c') as [hs c2]. destruct (SequenceLocks _ _ _ _ _) as [[|]|]; [|done..]. ocbn. cbn [negb].
  intros [= <-]. cbn [cs_state cs_view nFees blockundo].
  assert (i64 (nFees s + fee) = nFees s + fee) as Ei by (apply signed_small; unfold MAX_MONEY, COIN in *; lia).
  rewrite Ei in *. unfold MoneyRange in Em. bool_to_prop. split_and!; [|done|by apply (same_view_trans _ c')|lia..|done].
  revert Hsp. apply Forall_impl. intros i (k & Hk & _). rewrite (proj2 Hv) in Hk. by eexists.
Qed.

(** The value of the coins does not grow: what leaves them is the fee. *)
Lemma total_apply (tx : CTransaction) (height v : Z) g :
  tx_ok tx → GetValueOut tx = Some v → tx_applies tx g →
  total (apply_tx tx height g) <= total g + v - (if IsCoinBase tx then 0 else coins_value g (vin tx)).
Proof.
  intros Htx Hv (Hin & _ & Hl & Hnew). apply GetValueOut_loop_spec in Hv as (Hpos & -> & _); [|by apply tx_amounts|done].
  fold (outputs_value (vout tx)). unfold apply_tx.
  assert (Forall (λ o, 0 <= nValue o) (vout tx)) as Hnn.
  { revert Hpos. apply Forall_impl. intros o Ho. unfold MoneyRange in Ho. bool_to_prop. lia. }
  destruct (IsCoinBase tx) eqn:Ecb.
  - etransitivity; [apply total_added; [lia|done|intros; apply Hnew; lia]|lia].
  - destruct (Hin eq_refl) as [Hex Hnd]. etransitivity; [apply total_added; [lia|done|]|rewrite total_removed by done; lia].
    intros j Hj. rewrite lookup_inputs_removed, Hnew by lia. by case_decide.
Qed.

Lemma connect_tx_ok (gl : ConnectGlobals) (p : ptr) (height ltf flags v : Z) (checks just first : bool) (tx : CTransaction) (s s' : ConnectState V) g :
  view_is (cs_view s) g → mode (cs_state s) = MODE_VALID → tx_ok tx → GetValueOut tx = Some v → tx_fresh tx g →
  0 <= nFees s <= MAX_MONEY →
  connect_tx blocks gl p height checks just ltf flags first tx s = Some (true, s') →
  tx_applies tx g ∧ view_is (cs_view s') (apply_tx tx height g) ∧ mode (cs_state s') = MODE_VALID ∧
  0 <= nFees s' <= MAX_MONEY ∧ nFees s' = nFees s + (if IsCoinBase tx then 0 else coins_value g (vin tx) - v) ∧
  blockundo s' = (if first then blockundo s else blockundo s ++ [tx_undo tx g]).
Proof.
  intros Hv Hst Htx Hval (Hnd & Hlen & Hnew) Hfees. unfold connect_tx.
  destruct (if negb (IsCoinBase tx) then _ else _) as [[[|] s1]|] eqn:E1; [|done..]. ocbn. cbn [negb].
  assert ((IsCoinBase tx = false → Forall (λ i, is_Some (g !! prevout i)) (vin tx)) ∧ mode (cs_state s1) = MODE_VALID ∧
    same_view (cs_view s) (cs_view s1) ∧ nFees s1 = nFees s + (if IsCoinBase tx then 0 else coins_value g (vin tx) - v) ∧
    0 <= nFees s1 <= MAX_MONEY ∧ blockundo s1 = blockundo s) as (Hex & Hst1 & Hsv1 & Hf1 & Hf1r & Hu1).
  { destruct (IsCoinBase tx) eqn:Ecb; cbn [negb] in E1.
    - injection E1 as <-. split; [done|]. split; [done|]. split; [apply same_view_refl, Hv|]. split; [lia|done].
    - apply (connect_amounts_ok p height ltf v tx s s1 g) in E1 as (? & ? & ? & ? & ? & ?); done. }
  clear E1. destruct (GetTransactionSigOpCost tx flags (cs_view s1)) as [[cost c2]|] eqn:E2; [|done]. ocbn.
  apply GetTransactionSigOpCost_same in E2; [|apply Hsv1]. destruct (_ <? _); [done|].
  destruct (if negb (IsCoinBase tx) then _ else _) as [[[|] s2]|] eqn:E3; [|done..]. ocbn. cbn [negb].
  assert (mode (cs_state s2) = MODE_VALID ∧ same_view c2 (cs_view s2) ∧ nFees s2 = nFees s1 ∧ blockundo s2 = blockundo s1) as (Hst2 & Hsv2 & Hf2 & Hu2).
  { destruct (IsCoinBase tx); cbn [negb] in E3; [injection E3 as <-; split; [done|]; split; [apply same_view_refl, E2|done]|].
    revert E3. unfold connect_scripts. cbn [cs_state cs_view nFees nSigOpsCost blockundo queued execCache sigCache].
    destruct (CheckInputs _ _ _ _ _ _ _ _ _ _ _ _ _) as [[[[[[[|] st3] vc] c3] sc3] sigs3]|] eqn:E4; [|done..]. ocbn. cbn [negb].
    apply CheckInputs_same in E4 as [Hsv3 ->]; [|apply E2]. by intros [= <-]. }
  assert (view_is (cs_view s2) g) as Hv2.
  { eapply view_is_same; [|exact Hsv2]. eapply view_is_same; [|exact E2]. by eapply view_is_same. }
  assert (tx_applies tx g) as Happ.
  { split; [intros Ecb; split; [by apply Hex|by apply Hnd]|]. split; [by apply (tx_not_null tx v)|]. done. }
  destruct (UpdateCoins_is tx height (cs_view s2) g Hv2 Happ) as (c' & -> & Hv' & _). ocbn. intros [= <-].
  cbn [cs_state cs_view nFees blockundo]. rewrite Hf2, Hu2, Hu1. do 5 (split; [done|]). done.
Qed.
End ConnectTx.

(** ** The block *)

Section ConnectAll.
Variable blocks : gmap ptr CBlockIndex.
Context {V : Type} `{CCoinsViewLaws V} `{CryptoHash} `{SphHash} `{Secp256k1}.
Implicit Types (c : CCoinsViewCache V) (g : gmap COutPoint Coin).

Fixpoint txs_fresh (txs : list CTransaction) (height : Z) g : Prop :=
  match txs with [] => True | tx :: txs => tx_fresh tx g ∧ txs_fresh txs height (apply_tx tx height g) end.

Lemma connect_txs_ok (gl : ConnectGlobals) (p : ptr) (height ltf flags : Z) (checks just : bool) (txs : list CTransaction)
    (s s' : ConnectState V) g :
  view_is (cs_view s) g → mode (cs_state s) = MODE_VALID → 0 <= nFees s <= MAX_MONEY →
  Forall tx_ok txs → Forall (λ tx, transaction_valid tx false) txs → Forall (λ tx, IsCoinBase tx = false) txs →
  txs_fresh txs height g →
  connect_txs blocks gl p height checks just ltf flags false txs s = Some (true, s') →
  txs_apply txs height g ∧ view_is (cs_view s') (apply_txs txs height g) ∧ 0 <= nFees s' <= MAX_MONEY ∧
  total (apply_txs txs height g) + nFees s' <= total g + nFees s ∧ blockundo s' = blockundo s ++ txs_undo txs height g.
Proof.
  revert s g. induction txs as [|tx txs IH]; intros s g Hv Hst Hf Hok Hval Hncb Hfr; cbn [connect_txs].
  { intros [= <-]. cbn [txs_apply apply_txs txs_undo]. rewrite app_nil_r. do 3 (split; [done|]). split; [lia|done]. }
  apply list.Forall_cons in Hok as [Htx Hok]. apply list.Forall_cons in Hval as [(_ & _ & _ & [v Hv1] & _) Hval].
  apply list.Forall_cons in Hncb as [Hcb Hncb]. destruct Hfr as [Hfr1 Hfr].
  destruct (connect_tx _ _ _ _ _ _ _ _ _ _ _) as [[[|] s1]|] eqn:E1; [|done..]. ocbn. cbn [negb]. intros E.
  apply (connect_tx_ok blocks gl p height ltf flags v checks just false tx s s1 g) in E1 as (Ha & Hvw & Hst1 & Hf1 & Hfe & Hu); [|done..].
  pose proof (total_apply tx height v g Htx Hv1 Ha) as Ht. rewrite Hcb in Ht, Hfe.
  apply (IH s1 (apply_tx tx height g)) in E as (Ha' & Hv' & Hf' & Ht' & Hu'); [|done..].
  cbn [txs_apply apply_txs txs_undo]. split; [done|]. split; [done|]. split; [done|]. split; [lia|].
  rewrite Hu', Hu, <- app_assoc. done.
Qed.

(** The whole list: the coinbase first. *)
Lemma connect_block_txs_ok (gl : ConnectGlobals) (p : ptr) (height ltf flags : Z) (checks just : bool) (cb : CTransaction)
    (txs : list CTransaction) (s s' : ConnectState V) (v : Z) g :
  view_is (cs_view s) g → mode (cs_state s) = MODE_VALID → nFees s = 0 → blockundo s = [] →
  Forall tx_ok (cb :: txs) → Forall (λ tx, transaction_valid tx false) (cb :: txs) →
  IsCoinBase cb = true → Forall (λ tx, IsCoinBase tx = false) txs → txs_fresh (cb :: txs) height g → GetValueOut cb = Some v →
  connect_txs blocks gl p height checks just ltf flags true (cb :: txs) s = Some (true, s') →
  txs_apply (cb :: txs) height g ∧ view_is (cs_view s') (apply_txs (cb :: txs) height g) ∧ 0 <= nFees s' <= MAX_MONEY ∧
  total (apply_txs (cb :: txs) height g) + nFees s' <= total g + v ∧
  blockundo s' = txs_undo txs height (apply_tx cb height g).
Proof.
  intros Hv Hst Hf Hu Hok Hval Hcb Hncb [Hfr1 Hfr] Hv1. cbn [connect_txs].
  apply list.Forall_cons in Hok as [Htx Hok]. apply list.Forall_cons in Hval as [_ Hval].
  destruct (connect_tx _ _ _ _ _ _ _ _ _ _ _) as [[[|] s1]|] eqn:E1; [|done..]. ocbn. cbn [negb]. intros E.
  apply (connect_tx_ok blocks gl p height ltf flags v checks just true cb s s1 g) in E1 as (Ha & Hvw & Hst1 & Hf1 & Hfe & Hu1);
    [|done..|rewrite Hf; unfold MAX_MONEY, COIN; lia].
  pose proof (total_apply cb height v g Htx Hv1 Ha) as Ht. rewrite Hcb in Ht, Hfe.
  apply (connect_txs_ok gl p height ltf flags checks just txs s1 s' (apply_tx cb height g)) in E as (Ha' & Hv' & Hf' & Ht' & Hu'); [|done..].
  cbn [txs_apply apply_txs]. split; [done|]. split; [done|]. split; [done|]. split; [lia|]. by rewrite Hu', Hu1, Hu.
Qed.

Lemma finish_connect_ok (disk : DiskOutcome) (hasHash : bool) (pindex pindex' : CBlockIndex) (s s' : ConnectState V) :
  finish_connect blocks disk hasHash pindex s = Some (true, s', pindex') →
  s' = with_view s (SetBestBlock (phashBlock pindex) (cs_view s)).
Proof.
  unfold finish_connect. destruct (write_undo _ _ _ _ _) as [[pi|st]|] eqn:E; ocbn; [|done..].
  assert (phashBlock pi = phashBlock pindex) as ->; [|destruct (negb _); [done|]; destruct (negb _); [done|]; by intros [= <- _]].
  revert E. unfold write_undo. destruct (IsValid _ _); [|done]. ocbn. destruct (undo_pos_null pindex || _); [|by intros [= <-]].
  destruct (undo_pos_null pindex).
  - destruct (negb _); [done|]. destruct (pprev pindex); [|done]. ocbn. destruct (blocks !! _); [|done]. ocbn.
    destruct (UndoWriteToDisk _ _ _); [|done]. destruct (RaiseValidity _ _) as [[]|]; ocbn; [|done]. by intros [= <-].
  - destruct (RaiseValidity _ _) as [[]|]; ocbn; [|done]. by intros [= <-].
Qed.

(** What a connected block has done. *)
Definition connected (block : CBlock) (pindex : CBlockIndex) (params : Params) (s : ConnectState V) g : Prop :=
  let height := Chain.nHeight pindex in
  txs_apply (vtx block) height g ∧ view_is (cs_view s) (apply_txs (vtx block) height g) ∧
  hashBlock (cs_view s) = phashBlock pindex ∧
  total (apply_txs (vtx block) height g) <= total g + GetBlockSubsidy height params ∧
  ∃ cb txs, vtx block = cb :: txs ∧ IsCoinBase cb = true ∧ Forall (λ tx, IsCoinBase tx = false) txs ∧
    blockundo s = txs_undo txs height (apply_tx cb height g).

Lemma ConnectBlock_ok (gl : ConnectGlobals) (disk : DiskOutcome) (hasHash : bool) (block : CBlock) (st : CValidationState) (p : ptr)
    (sc sigs : cache (list Z)) (params : Params) (pindex pindex' : CBlockIndex) (s : ConnectState V) c g :
  blocks !! p = Some pindex → view_is c g → mode st = MODE_VALID → fChecked block = false → Forall tx_ok (vtx block) →
  txs_fresh (vtx block) (Chain.nHeight pindex) g → 0 <= Chain.nHeight pindex → 0 < nSubsidyHalvingInterval params →
  BlockHeader_GetHash (header block) ≠ Some (hashGenesisBlock params) →
  ConnectBlock blocks gl disk hasHash block st p c sc sigs params false = Some (true, s, pindex') →
  connected block pindex params s g.
Proof.
  intros Hp Hv Hst Hfc Hok Hfr Hh Hint Hgen. unfold ConnectBlock. rewrite Hp. ocbn.
  destruct (BlockHeader_GetHash (header block)) as [hash|] eqn:Ehash; [|done]. ocbn. destruct (hasHash && _); [done|].
  destruct (CheckBlock _ _ _ _ _) as [[[[|] st1] b']|] eqn:Ecb; [|done..]. ocbn. cbn [negb].
  apply CheckBlock_true in Ecb as (-> & Hval & cb & txs & Ev & Hcb & Hncb); [|done..].
  destruct (match pprev pindex with None => _ | Some _ => _ end) as [hp|]; [|done]. ocbn.
  pose proof (Cache_GetBestBlock_ok c (proj1 Hv)) as Hb. destruct (Cache_GetBestBlock c) as [best c1].
  destruct (negb _); [done|]. rewrite bool_decide_eq_false_2 by congruence.
  destruct (assumed_valid _ _ _ _ _) as [assumed|]; [|done]. ocbn.
  destruct (connect_txs _ _ _ _ _ _ _ _ _ _ _) as [[[|] s1]|] eqn:Et; [|done..]. ocbn. cbn [negb].
  rewrite Ev in *. cbn [lookup list_lookup]. ocbn.
  destruct (GetValueOut cb) as [v|] eqn:Ev1; [|done]. ocbn.
  edestruct (connect_block_txs_ok gl p (Chain.nHeight pindex)) as (Ha & Hvw & Hf & Htot & Hu);
    [| | | | | | | | | |exact Et|]; try done; [eapply view_is_same; [exact Hv|apply Hb]|].
  assert (i64 (nFees s1 + GetBlockSubsidy (Chain.nHeight pindex) params) = nFees s1 + GetBlockSubsidy (Chain.nHeight pindex) params) as Ei.
  { pose proof (GetBlockSubsidy_le params (Chain.nHeight pindex) Hh Hint). pose proof (GetBlockSubsidy_nonneg params (Chain.nHeight pindex)).
    apply signed_small; unfold MAX_MONEY, COIN in *; lia. }
  rewrite Ei. destruct (_ <? v) eqn:El; [done|]. bool_to_prop.
  destruct (run_queue _ _ _) as [[[|] sigs1]|]; [|done..]. ocbn. cbn [negb].
  intros ->%finish_connect_ok. unfold connected. rewrite Ev. split; [done|]. split; [exact Hvw|]. split; [done|].
  split; [lia|]. by exists cb, txs.
Qed.
End ConnectAll.

(** ** The active chain *)

Section ActiveChain.
Context {V : Type} `{CCoinsViewLaws V} `{CryptoHash} `{SphHash} `{Secp256k1}.
Variable params : Params.

(** Blocks connected on top of the genesis block, and disconnected again with their undo data; with each block the
    coins below it.  The height is that of the next block.  A block is connected here only if it is not marked as checked
    and is fresh: [txs_fresh] is an assumption on the blocks, not something [ConnectBlock] tests. *)
Inductive active_chain : nat → CCoinsViewCache V → gmap COutPoint Coin → list (gmap COutPoint Coin * CBlock * CBlockUndo) → Prop :=
  | chain_genesis (c : CCoinsViewCache V) : view_is c ∅ → active_chain 1 c ∅ []
  | chain_connect n c g hist blocks gl disk block p sc sigs pindex pindex' s :
      active_chain n c g hist →
      blocks !! p = Some pindex → Chain.nHeight pindex = n → n < 2 ^ 31 →
      fChecked block = false → Forall tx_ok (vtx block) → txs_fresh (vtx block) n g →
      BlockHeader_GetHash (header block) ≠ Some (hashGenesisBlock params) →
      ConnectBlock blocks gl disk true block new_state p c sc sigs params false = Some (true, s, pindex') →
      active_chain (S n) (cs_view s) (apply_txs (vtx block) n g) ((g, block, {| vtxundo := blockundo s |}) :: hist)
  | chain_disconnect n c g hist g0 block undo hashPrev res c' :
      active_chain (S n) c g ((g0, block, undo) :: hist) →
      DisconnectBlock block (Some undo) n hashPrev c = Some (res, c') →
      active_chain n c' g0 hist.

(** The entries of the history: each set of coins leads to the next by its block. *)
Fixpoint history_ok (n : nat) (g : gmap COutPoint Coin) (hist : list (gmap COutPoint Coin * CBlock * CBlockUndo)) : Prop :=
  match hist with
  | [] => g = ∅ ∧ n = 1%nat
  | (g0, block, undo) :: hist =>
      ∃ m cb txs, n = S m ∧ 0 < m < 2 ^ 31 ∧ g = apply_txs (vtx block) m g0 ∧ txs_apply (vtx block) m g0 ∧ coins_wf g0 ∧
        vtx block = cb :: txs ∧ IsCoinBase cb = true ∧ Forall (λ tx, IsCoinBase tx = false) txs ∧
        undo = {| vtxundo := txs_undo txs m (apply_tx cb m g0) |} ∧ total g0 <= issued params m ∧ history_ok m g0 hist
  end.

Lemma history_pos (n : nat) g hist : history_ok n g hist → (0 < n)%nat.
Proof. destruct hist as [|[[g0 b] u] hist]; [by intros [_ ->]; lia|]. intros (m & ? & ? & -> & _). lia. Qed.

Lemma txs_apply_wf (txs : list CTransaction) (height : Z) g :
  0 < height < 2 ^ 31 → txs_apply txs height g → coins_wf g → coins_wf (apply_txs txs height g).
Proof.
  intros Hh. revert g. induction txs as [|tx txs IH]; intros g; cbn [txs_apply apply_txs]; [done|].
  intros [Ha Has] Hg. apply IH; [done|]. by apply apply_tx_wf.
Qed.

Lemma active_chain_ok (n : nat) c g hist :
  0 < nSubsidyHalvingInterval params → active_chain n c g hist →
  view_is c g ∧ coins_wf g ∧ total g <= issued params n ∧ history_ok n g hist.
Proof.
  intros Hint. induction 1 as [c Hv|n c g hist blocks gl disk block p sc sigs pindex pindex' s Hch IH Hp Hn Hn31 Hfc Hok Hfr Hgen E
    |n c g hist g0 block undo hashPrev res c' Hch IH E].
  - split; [done|]. split; [by apply map_Forall_empty|]. split; [|done]. apply (issued_mono params 0 1). lia.
  - destruct IH as (Hv & Hwf & Ht & Hhist). pose proof (history_pos n g hist Hhist) as Hpos. rewrite <- Hn in Hfr.
    destruct (ConnectBlock_ok blocks gl disk true block new_state p sc sigs params pindex pindex' s c g) as (Ha & Hv' & _ & Ht' & cb & txs & Ev & Hcb & Hncb & Hu);
      try done; [lia|]. rewrite Hn in *.
    split; [done|]. split; [apply txs_apply_wf; [lia|done..]|]. split; [cbn [issued]; lia|].
    exists n, cb, txs. do 8 (split; [done||lia|]). by rewrite Hu.
  - destruct IH as (Hv & _ & _ & m & cb & txs & [= <-] & Hm & -> & Ha & Hwf & Ev & Hcb & Hncb & -> & Ht & Hhist).
    destruct (DisconnectBlock_ok block cb txs n hashPrev c g0) as (c2 & E2 & Hv2 & _); try done.
    rewrite E2 in E. injection E as <- <-. done.
Qed.
End ActiveChain.

(** ** Scripts *)

Section Scripts.
Variable blocks : gmap ptr CBlockIndex.
Context {V : Type} `{CCoinsViewLaws V} `{CryptoHash} `{SphHash} `{Secp256k1}.
Variables (gl : ConnectGlobals) (outs : COutPoint → option CTxOut) (l : list (CTransaction * Z)) (calls : list sig_call) (flags : Z).
Implicit Types (c : CCoinsViewCache V) (g : gmap COutPoint Coin).

(** The outputs all the sets of coins agree with. *)
Definition outs_of g : Prop := ∀ o k, g !! o = Some k → outs o = Some (out k).

Fixpoint outs_agree (txs : list CTransaction) (height : Z) g : Prop :=
  match txs with [] => True | tx :: txs => outs_of g ∧ outs_agree txs height (apply_tx tx height g) end.

(** The transactions, with the flags, are among those the hashes separate. *)
Definition listed (tx : CTransaction) : Prop := IsCoinBase tx = false → (tx, flags) ∈ l ∧ entry_ok (tx, flags).

(** The signatures their scripts ask for are among those the hashes separate. *)
Definition asked (tx : CTransaction) : Prop := IsCoinBase tx = false → calls_listed calls outs flags tx.

Definition separated : Prop := entries_separated (scriptExecutionCacheNonce gl) l ∧ calls_separated (signatureCacheNonce gl) calls.

(** The caches hold only what has been verified. *)
Definition caches_ok (sc sigs : cache (list Z)) : Prop :=
  script_cache_ok (scriptExecutionCacheNonce gl) outs l sc ∧ sig_cache_ok (signatureCacheNonce gl) calls sigs.

Definition checks_ok (s : ConnectState V) : Prop := caches_ok (execCache s) (sigCache s) ∧ collected calls (queued s).

Definition tx_verified (tx : CTransaction) : Prop := IsCoinBase tx = false → scripts_verify outs flags tx.

Lemma connect_amounts_frame (p : ptr) (height ltf : Z) (tx : CTransaction) (s s' : ConnectState V) :
  connect_amounts blocks p height ltf tx s = Some (true, s') → queued s' = queued s ∧ execCache s' = execCache s ∧ sigCache s' = sigCache s.
Proof.
  unfold connect_amounts. destruct (CheckTxInputs _ _ _ _) as [[[[fee|] st] c]|]; [|done..]. ocbn.
  destruct (negb _); [done|]. destruct (prev_heights _ _) as [hs c2]. destruct (SequenceLocks _ _ _ _ _) as [[|]|]; [|done..].
  ocbn. by intros [= <-].
Qed.

Lemma connect_scripts_sound (just : bool) (tx : CTransaction) (s s' : ConnectState V) g :
  view_is (cs_view s) g → outs_of g → listed tx → asked tx → IsCoinBase tx = false → separated → checks_ok s →
  connect_scripts gl true just flags tx s = Some (true, s') →
  checks_ok s' ∧ (all_pass (queued s') → all_pass (queued s) ∧ scripts_verify outs flags tx).
Proof.
  intros Hv Ho Hl Ha Hcb [Hsep Hcsep] [[Hsc Hsig] Hcol]. unfold connect_scripts.
  destruct (CheckInputs _ _ _ _ _ _ _ _ _ _ _ _ _) as [[[[[[[|] st] vc] c] sc] sigs]|] eqn:E; [|done..]. ocbn. cbn [negb]. intros [= <-].
  unfold checks_ok. cbn [execCache sigCache queued]. destruct (Hl Hcb) as [Hin Hok].
  apply (CheckInputs_ok (signatureCacheNonce gl) (scriptExecutionCacheNonce gl) calls outs l) in E as (_ & _ & Hsc' & Hsig' & Hcol' & _ & Hf);
    [|apply Hv| |try done; by apply Ha..].
  - split; [split; [done|]; by apply Forall_app|]. intros [Hq Hvc]%Forall_app. split; [done|]. by apply Hf.
  - intros txin k _ Hk. apply Ho. by rewrite <- (proj2 Hv).
Qed.

Lemma connect_tx_sound (p : ptr) (height ltf v : Z) (just first : bool) (tx : CTransaction) (s s' : ConnectState V) g :
  view_is (cs_view s) g → mode (cs_state s) = MODE_VALID → tx_ok tx → GetValueOut tx = Some v → 0 <= nFees s <= MAX_MONEY →
  outs_of g → listed tx → asked tx → separated → checks_ok s →
  connect_tx blocks gl p height true just ltf flags first tx s = Some (true, s') →
  checks_ok s' ∧ (all_pass (queued s') → all_pass (queued s) ∧ tx_verified tx).
Proof.
  intros Hv Hst Htx Hval Hfees Ho Hl Ha Hsep Hsc. unfold connect_tx.
  destruct (if negb (IsCoinBase tx) then _ else _) as [[[|] s1]|] eqn:E1; [|done..]. ocbn. cbn [negb].
  assert (view_is (cs_view s1) g ∧ queued s1 = queued s ∧ execCache s1 = execCache s ∧ sigCache s1 = sigCache s) as (Hv1 & Hq1 & Hc1 & Hg1).
  { destruct (IsCoinBase tx) eqn:Ecb; cbn [negb] in E1; [by injection E1 as <-|]. pose proof (connect_amounts_frame _ _ _ _ _ _ E1) as (Hq & Hc & Hg).
    apply (connect_amounts_ok blocks p height ltf v tx s s1 g) in E1 as (_ & _ & Hsv & _); [|done..]. split; [by eapply view_is_same|done]. }
  clear E1. destruct (GetTransactionSigOpCost tx flags (cs_view s1)) as [[cost c2]|] eqn:E2; [|done]. ocbn.
  apply GetTransactionSigOpCost_same in E2; [|apply Hv1]. destruct (_ <? _); [done|].
  destruct (if negb (IsCoinBase tx) then _ else _) as [[[|] s2]|] eqn:E3; [|done..]. ocbn. cbn [negb].
  destruct (UpdateCoins _ _ _) as [[undo c']|]; [|done]. ocbn. intros [= <-]. change (checks_ok (MkConnect _ _ _ _ _ (queued s2) (execCache s2) (sigCache s2)))
    with (checks_ok s2). cbn [queued].
  unfold tx_verified. destruct (IsCoinBase tx) eqn:Ecb; cbn [negb] in E3.
  - injection E3 as <-. unfold checks_ok in *. cbn [queued execCache sigCache]. rewrite Hq1, Hc1, Hg1. split; [done|]. intros Hp. split; [done|]. done.
  - apply (connect_scripts_sound just tx _ s2 g) in E3 as [Hsc' Hf]; [| |done..|].
    + cbn [queued] in Hf. rewrite Hq1 in Hf. split; [done|]. intros Hp. destruct (Hf Hp). by split.
    + cbn [cs_view]. by eapply view_is_same.
    + unfold checks_ok in *. cbn [execCache sigCache queued]. by rewrite Hc1, Hq1, Hg1.
Qed.

Lemma connect_txs_sound (p : ptr) (height ltf : Z) (just first : bool) (txs : list CTransaction) (s s' : ConnectState V) g :
  view_is (cs_view s) g → mode (cs_state s) = MODE_VALID → 0 <= nFees s <= MAX_MONEY →
  Forall tx_ok txs → Forall (λ tx, transaction_valid tx false) txs → txs_fresh txs height g →
  outs_agree txs height g → Forall listed txs → Forall asked txs → separated → checks_ok s →
  connect_txs blocks gl p height true just ltf flags first txs s = Some (true, s') →
  checks_ok s' ∧ (all_pass (queued s') → all_pass (queued s) ∧ Forall tx_verified txs).
Proof.
  revert first s g. induction txs as [|tx txs IH]; intros first s g Hv Hst Hf Hok Hval Hfr Hag Hls Has Hsep Hsc; cbn [connect_txs].
  { intros [= <-]. split; [done|]. by split. }
  apply list.Forall_cons in Hok as [Htx Hok]. apply list.Forall_cons in Hval as [(_ & _ & _ & [v Hv1] & _) Hval].
  apply list.Forall_cons in Hls as [Hl Hls]. apply list.Forall_cons in Has as [Ha Has]. destruct Hfr as [Hfr1 Hfr], Hag as [Ho Hag].
  destruct (connect_tx _ _ _ _ _ _ _ _ _ _ _) as [[[|] s1]|] eqn:E1; [|done..]. ocbn. cbn [negb]. intros E.
  pose proof E1 as E1'. apply (connect_tx_ok blocks gl p height ltf flags v true just first tx s s1 g) in E1' as (_ & Hvw & Hst1 & Hf1 & _); [|done..].
  apply (connect_tx_sound p height ltf v just first tx s s1 g) in E1 as [Hsc1 Hp1]; [|done..].
  destruct (IH false s1 (apply_tx tx height g)) as [Hsc' Hver]; [done..|]. split; [done|]. intros Hp. destruct (Hver Hp) as [Hq Hvs].
  destruct (Hp1 Hq). split; [done|]. by constructor.
Qed.
End Scripts.

(** ** Properties *)

(** C1: connecting a block applies its transactions and creates no more than the subsidy.  When [ConnectBlock] accepts a block,
    not marked as checked and not the genesis block, in which no transaction spends an output twice or recreates an unspent one, every input existed, the view
    stands for the coins with all transactions applied and names the block as its tip, and
    the value of all coins has grown by at most the subsidy of the height. *)
Theorem ConnectBlock_correct (blocks : gmap ptr CBlockIndex) {V : Type} `{CCoinsViewLaws V} `{CryptoHash} `{SphHash} `{Secp256k1}
    (gl : ConnectGlobals) (disk : DiskOutcome) (block : CBlock) (st : CValidationState) (p : ptr)
    (sc sigs : cache (list Z)) (params : Params) (pindex pindex' : CBlockIndex) (s : ConnectState V) (c : CCoinsViewCache V) (g : gmap COutPoint Coin) :
  blocks !! p = Some pindex → view_is c g → mode st = MODE_VALID → fChecked block = false → Forall tx_ok (vtx block) →
  txs_fresh (vtx block) (Chain.nHeight pindex) g → 0 <= Chain.nHeight pindex → 0 < nSubsidyHalvingInterval params →
  BlockHeader_GetHash (header block) ≠ Some (hashGenesisBlock params) →
  ConnectBlock blocks gl disk true block st p c sc sigs params false = Some (true, s, pindex') →
  txs_apply (vtx block) (Chain.nHeight pindex) g ∧
  view_is (cs_view s) (apply_txs (vtx block) (Chain.nHeight pindex) g) ∧ hashBlock (cs_view s) = phashBlock pindex ∧
  total (apply_txs (vtx block) (Chain.nHeight pindex) g) <= total g + GetBlockSubsidy (Chain.nHeight pindex) params.
Proof.
  intros Hp Hv Hst Hfc Hok Hfr Hh Hint Hgen E.
  by destruct (ConnectBlock_ok blocks gl disk true block st p sc sigs params pindex pindex' s c g) as (? & ? & ? & ? & _).
Qed.

(** C2: disconnecting undoes connecting.  Take a block, not marked as checked and not the genesis block, in which no transaction
    spends an output twice or recreates an unspent one, and coins that are all well formed: unspent, not of height 0
    and not provably unspendable.  After [ConnectBlock] accepts the block on them, [DisconnectBlock] with the undo data it recorded succeeds cleanly and gives back exactly the coins of
    before, with the given block as tip. *)
Theorem ConnectBlock_DisconnectBlock (blocks : gmap ptr CBlockIndex) {V : Type} `{CCoinsViewLaws V} `{CryptoHash} `{SphHash} `{Secp256k1}
    (gl : ConnectGlobals) (disk : DiskOutcome) (block : CBlock) (st : CValidationState) (p : ptr)
    (sc sigs : cache (list Z)) (params : Params) (pindex pindex' : CBlockIndex) (s : ConnectState V) (c : CCoinsViewCache V) (g : gmap COutPoint Coin)
    (hashPrev : list Z) :
  blocks !! p = Some pindex → view_is c g → coins_wf g → mode st = MODE_VALID → fChecked block = false → Forall tx_ok (vtx block) →
  txs_fresh (vtx block) (Chain.nHeight pindex) g → 0 < Chain.nHeight pindex < 2 ^ 31 → 0 < nSubsidyHalvingInterval params →
  BlockHeader_GetHash (header block) ≠ Some (hashGenesisBlock params) →
  ConnectBlock blocks gl disk true block st p c sc sigs params false = Some (true, s, pindex') →
  ∃ c', DisconnectBlock block (Some {| vtxundo := blockundo s |}) (Chain.nHeight pindex) hashPrev (cs_view s) = Some (DISCONNECT_OK, c') ∧
    view_is c' g ∧ hashBlock c' = hashPrev.
Proof.
  intros Hp Hv Hwf Hst Hfc Hok Hfr Hh Hint Hgen E.
  destruct (ConnectBlock_ok blocks gl disk true block st p sc sigs params pindex pindex' s c g) as (Ha & Hv' & _ & _ & cb & txs & Ev & Hcb & Hncb & ->);
    try done; [lia|]. by apply DisconnectBlock_ok.
Qed.

(** C3: the money supply of the main network is bounded in every history of the active chain.  However blocks are connected on the
    genesis block and disconnected again with their undo data, the view stands for the coins of the blocks that remain, and those are
    worth at most the subsidies of their heights.  With the halving interval of the main network, 1,314,000 blocks, these stay below
    15,497,988 coins, within the money range (the test networks have other intervals).  The blocks connected are not marked as
    checked, and no transaction in them spends an output twice or recreates an unspent one, which validation does not ensure
    (see [ConnectBlock_double_spend_inflates]). *)
Theorem active_chain_supply {V : Type} `{CCoinsViewLaws V} `{CryptoHash} `{SphHash} `{Secp256k1} (params : Params) (n : nat)
    (c : CCoinsViewCache V) (g : gmap COutPoint Coin) (hist : list (gmap COutPoint Coin * CBlock * CBlockUndo)) :
  nSubsidyHalvingInterval params = 1314000 → active_chain params n c g hist →
  view_is c g ∧ history_ok params n g hist ∧ total g <= issued params n ∧ issued params n <= 15497988 * COIN ∧ 15497988 * COIN <= MAX_MONEY.
Proof.
  intros Hp Hch. destruct (active_chain_ok params n c g hist ltac:(lia) Hch) as (Hv & _ & Ht & Hh).
  split; [done|]. split; [done|]. split; [done|]. split; [by apply issued_bound|by vm_compute].
Qed.

(** C4: no script of an accepted block goes unchecked.  Take a block not marked as checked, in which no transaction spends an
    output twice or recreates an unspent one, that is not the genesis block and not below the assumed-valid one.  If the script
    execution cache and the signature cache hold only entries of verified transactions and signatures, then once [ConnectBlock]
    accepts the block, with or without script threads, every input of every transaction but the coinbase satisfies the script
    of the output it spends under the flags of the block, every signature verified without the caches, and both caches
    still hold only verified entries.  The hashes must separate the transactions involved, and the signatures their scripts ask for. *)
Theorem ConnectBlock_scripts (blocks : gmap ptr CBlockIndex) {V : Type} `{CCoinsViewLaws V} `{CryptoHash} `{SphHash} `{Secp256k1}
    (gl : ConnectGlobals) (disk : DiskOutcome) (block : CBlock) (st : CValidationState) (p : ptr) (sc sigs : cache (list Z)) (params : Params)
    (pindex pindex' : CBlockIndex) (s : ConnectState V) (c : CCoinsViewCache V) (g : gmap COutPoint Coin)
    (outs : COutPoint → option CTxOut) (l : list (CTransaction * Z)) (calls : list sig_call) (fJustCheck : bool) :
  blocks !! p = Some pindex → view_is c g → mode st = MODE_VALID → fChecked block = false → Forall tx_ok (vtx block) →
  txs_fresh (vtx block) (Chain.nHeight pindex) g → BlockHeader_GetHash (header block) ≠ Some (hashGenesisBlock params) →
  assumed_valid blocks gl p pindex params = Some false →
  outs_agree outs (vtx block) (Chain.nHeight pindex) g → Forall (listed l (GetBlockScriptFlags pindex params)) (vtx block) →
  Forall (asked outs calls (GetBlockScriptFlags pindex params)) (vtx block) → separated gl l calls → caches_ok gl outs l calls sc sigs →
  ConnectBlock blocks gl disk true block st p c sc sigs params fJustCheck = Some (true, s, pindex') →
  Forall (tx_verified outs (GetBlockScriptFlags pindex params)) (vtx block) ∧ caches_ok gl outs l calls (execCache s) (sigCache s).
Proof.
  intros Hp Hv Hst Hfc Hok Hfr Hgen Has Hag Hls Hak Hsep Hsc. unfold ConnectBlock. rewrite Hp. ocbn.
  destruct (BlockHeader_GetHash (header block)) as [hash|] eqn:Ehash; [|done]. ocbn. destruct (true && _); [done|].
  destruct (CheckBlock _ _ _ _ _) as [[[[|] st1] b']|] eqn:Ecb; [|done..]. ocbn. cbn [negb].
  apply CheckBlock_true in Ecb as (-> & Hval & _); [|done..].
  destruct (match pprev pindex with None => _ | Some _ => _ end) as [hp|]; [|done]. ocbn.
  pose proof (Cache_GetBestBlock_ok c (proj1 Hv)) as Hb. destruct (Cache_GetBestBlock c) as [best c1].
  destruct (negb _); [done|]. rewrite bool_decide_eq_false_2 by congruence. rewrite Has. ocbn. cbn [negb].
  destruct (connect_txs _ _ _ _ _ _ _ _ _ _ _) as [[[|] s1]|] eqn:Et; [|done..]. ocbn. cbn [negb].
  destruct (vtx block !! 0%nat); [|done]. ocbn. destruct (GetValueOut _); [|done]. ocbn. destruct (_ <? _); [done|].
  destruct (run_queue _ _ _) as [[[|] sigs1]|] eqn:Eq; [|done..]. ocbn. cbn [negb]. intros Efin.
  eapply (connect_txs_sound blocks gl outs l calls) in Et as [[[Hsc1 Hsig1] Hcol] Hver]; try done;
    [|eapply view_is_same; [exact Hv|apply Hb]|split; [exact Hsc|by constructor]].
  apply (run_queue_ok _ calls) in Eq as [Hpass Hsig2]; [|apply Hsep|done|done].
  split; [by apply Hver|]. destruct fJustCheck; [by injection Efin as <- _|]. apply finish_connect_ok in Efin as ->. done.
Qed.

(** ** Blocks to run *)

Definition demo_params : Params := {|
  hashGenesisBlock := replicate 32 7; nSubsidyHalvingInterval := 1314000;
  nBIP34Enabled := true; nBIP65Enabled := true; nBIP66Enabled := true;
  nRuleChangeActivationThreshold := 108; nMinerConfirmationWindow := 144; vDeployments := [];
  powLimit := replicate 31 0xff ++ [0x7f]; fPowAllowMinDifficultyBlocks := true; fPowNoRetargeting := true;
  nPowTargetSpacing := 120; nPowTargetTimespan := 86400;
  Pow.nMinimumChainWork := replicate 32 0; defaultAssumeValid := replicate 32 0; nSegwitEnabled := true; nCSVEnabled := true |}.

Definition demo_coinbase_paying (v : Z) : CTransaction := {|
  vin := [{| prevout := COutPoint_null; scriptSig := [0x51; 0x51]; nSequence := 0xffffffff; scriptWitness := [] |}];
  vout := [{| nValue := v; scriptPubKey := [0x51] |}]; Transaction.nVersion := 2; nLockTime := 0 |}.

Definition demo_connect_block (txs : list CTransaction) : CBlock :=
  {| header := {| hVersion := 4; hashPrevBlock := replicate 32 2; hMerkleRoot := (@ComputeMerkleRoot toy_hash (@GetHash toy_hash <$> txs)).1;
                  hTime := 1600000000; hBits := 0x207fffff; hNonce := 7 |};
     vtx := txs; fChecked := false |}.

Definition demo_entry (prev : option ptr) (h : Z) (hash : list Z) : CBlockIndex :=
  {| phashBlock := hash; pprev := prev; pskip := prev; Chain.nHeight := h; nFile := 0; nDataPos := 0; nUndoPos := 0;
     nChainWork := replicate 8 0; nTx := 0; nChainTx := 0; nStatus := 0; Chain.nVersion := 4; hashMerkleRoot := [];
     nTime := 1600000000 + h; nBits := 0x207fffff; nNonce := 0; nSequenceId := 0; nTimeMax := 1600000000 + h |}.

Definition demo_blocks (h : Z) (block : CBlock) : gmap ptr CBlockIndex :=
  {[ 1%positive := demo_entry None (h - 1) (replicate 32 2);
     2%positive := demo_entry (Some 1%positive) h (default [] (@BlockHeader_GetHash toy_sph (header block))) ]}.

Definition demo_globals (threads : Z) : ConnectGlobals :=
  {| hashAssumeValid := replicate 32 0; mapBlockIndex := ∅; pindexBestHeader := 2%positive; nMinimumChainWork := replicate 8 0;
     nScriptCheckThreads := threads; scriptExecutionCacheNonce := replicate 32 3; signatureCacheNonce := replicate 32 4 |}.

Definition demo_disk : DiskOutcome := {| FindUndoPos_ok := true; UndoWriteToDisk := λ _ _, Some 8; txindex_written := true |}.

Definition demo_run (h : Z) (block : CBlock) (threads : Z) (c : CCoinsViewCache CCoinsViewDB) :=
  @ConnectBlock (demo_blocks h block) _ _ toy_hash toy_sph toy_secp (demo_globals threads) demo_disk true block new_state 2 c
    (setup Z.log2 4) (setup Z.log2 4) demo_params false.

Definition demo_block10 : CBlock := demo_connect_block [demo_coinbase_paying (500 * COIN + 3); demo_spend].

(** Freshness, decided. *)
Section Decide.
Context `{CryptoHash}.

Definition tx_freshb (tx : CTransaction) (g : gmap COutPoint Coin) : bool :=
  (IsCoinBase tx || bool_decide (NoDup (prevout <$> vin tx))) && (length (vout tx) <=? 2 ^ 32)
  && forallb (λ j, bool_decide (g !! txout_at (GetHash tx) j = None)) (seq 0 (length (vout tx))).

Fixpoint txs_freshb (txs : list CTransaction) (height : Z) (g : gmap COutPoint Coin) : bool :=
  match txs with [] => true | tx :: txs => tx_freshb tx g && txs_freshb txs height (apply_tx tx height g) end.

Lemma txs_freshb_ok (txs : list CTransaction) (height : Z) (g : gmap COutPoint Coin) : txs_freshb txs height g = true → txs_fresh txs height g.
Proof.
  revert g. induction txs as [|tx txs IH]; intros g; cbn [txs_freshb txs_fresh]; [done|]. intros [Ht Hr]%andb_prop. split; [|by apply IH].
  unfold tx_freshb in Ht. apply andb_prop in Ht as [[Hn Hl]%andb_prop Hf]. bool_to_prop. split; [|split; [done|]].
  - intros Ecb. rewrite Ecb in Hn. by destruct Hn as [?|Hn%bool_decide_eq_true].
  - intros j Hj. rewrite forallb_forall in Hf. assert (In j (seq 0 (length (vout tx)))) as Hin by (rewrite in_seq; lia).
    by apply Hf, bool_decide_eq_true in Hin.
Qed.
End Decide.

Lemma demo_view_is : view_is demo_cache (db_coins demo_db).
Proof. split; [apply demo_cache_ok|]. intros o. unfold cache_coins. cbn [cacheCoins demo_cache]. by rewrite lookup_empty. Qed.

Lemma demo_coins_wf : coins_wf (db_coins demo_db).
Proof.
  assert (∀ v, v = 10 ∨ v = 20 → coin_wf (demo_coin v)) as Hk by (intros v [-> | ->]; split_and!; vm_compute; congruence).
  intros o k. cbn. rewrite !lookup_insert_Some, lookup_empty. intros [[_ <-]|[_ [[_ <-]|[_ [=]]]]]; apply Hk; auto.
Qed.

Lemma demo_txs_ok : Forall tx_ok (vtx demo_block10).
Proof. do 2 (constructor; [by apply tx_okb_ok|]). constructor. Qed.

(** A transaction that spends the same output twice. *)
Definition demo_double : CTransaction := {|
  vin := replicate 2 {| prevout := demo_outpoint 0; scriptSig := []; nSequence := 0xffffffff; scriptWitness := [] |};
  vout := [{| nValue := 20; scriptPubKey := [0x51] |}]; Transaction.nVersion := 2; nLockTime := 0 |}.

(** A block whose second transaction spends one output worth 10 twice is accepted, and the coins, flushed to the
    database, are worth 10 more than the subsidy allows. *)
Theorem ConnectBlock_double_spend_inflates :
  ('(ok, s, _) ← demo_run 10 (demo_connect_block [demo_coinbase_paying (500 * COIN); demo_double]) 0 demo_cache;
   '(_, c) ← Flush (cs_view s); Some (ok, total (db_coins (base c)))) =
  Some (true, total (db_coins demo_db) + GetBlockSubsidy 10 demo_params + 10).
Proof. vm_compute. reflexivity. Qed.

(** ** Witnesses *)

Lemma accepted_inv {A B : Type} (x : option (bool * A * B)) : (λ r, r.1.1) <$> x = Some true → ∃ a b, x = Some (true, a, b).
Proof. destruct x as [[[[|] a] b]|]; [by exists a, b|done..]. Qed.

Definition demo_pindex (h : Z) (block : CBlock) : CBlockIndex :=
  demo_entry (Some 1%positive) h (default [] (@BlockHeader_GetHash toy_sph (header block))).

Lemma demo_blocks_2 (h : Z) (block : CBlock) : demo_blocks h block !! 2%positive = Some (demo_pindex h block).
Proof. reflexivity. Qed.

Lemma demo_fresh : @txs_fresh toy_hash (vtx demo_block10) 10 (db_coins demo_db).
Proof. apply txs_freshb_ok. vm_compute. reflexivity. Qed.

Lemma demo_not_genesis : @BlockHeader_GetHash toy_sph (header demo_block10) ≠ Some (hashGenesisBlock demo_params).
Proof. vm_compute. discriminate. Qed.

Lemma demo_height (h : Z) (block : CBlock) : 0 < h < 2 ^ 31 → 0 < Chain.nHeight (demo_pindex h block) < 2 ^ 31.
Proof. done. Qed.

Lemma ConnectBlock_correct_witness :
  ∃ s pindex', demo_run 10 demo_block10 0 demo_cache = Some (true, s, pindex') ∧
    view_is (cs_view s) (@apply_txs toy_hash (vtx demo_block10) 10 (db_coins demo_db)) ∧
    total (@apply_txs toy_hash (vtx demo_block10) 10 (db_coins demo_db)) <= total (db_coins demo_db) + GetBlockSubsidy 10 demo_params.
Proof.
  assert ((λ r, r.1.1) <$> demo_run 10 demo_block10 0 demo_cache = Some true) as E by (vm_compute; reflexivity).
  apply accepted_inv in E as (s & pindex' & E). exists s, pindex'. split; [exact E|].
  destruct (@ConnectBlock_correct (demo_blocks 10 demo_block10) _ _ _ toy_hash toy_sph toy_secp (demo_globals 0) demo_disk demo_block10 new_state 2%positive
    (setup Z.log2 4) (setup Z.log2 4) demo_params (demo_pindex 10 demo_block10) pindex' s demo_cache (db_coins demo_db) (demo_blocks_2 10 demo_block10) demo_view_is
    eq_refl eq_refl demo_txs_ok demo_fresh ltac:(done) ltac:(done) demo_not_genesis E) as (_ & Hv & _ & Ht).
  split; [exact Hv|exact Ht].
Defined.

Lemma ConnectBlock_DisconnectBlock_witness :
  ∃ s pindex' c', demo_run 10 demo_block10 1 demo_cache = Some (true, s, pindex') ∧
    @DisconnectBlock _ _ toy_hash demo_block10 (Some {| vtxundo := blockundo s |}) 10 (replicate 32 2) (cs_view s) = Some (DISCONNECT_OK, c') ∧
    view_is c' (db_coins demo_db).
Proof.
  assert ((λ r, r.1.1) <$> demo_run 10 demo_block10 1 demo_cache = Some true) as E by (vm_compute; reflexivity).
  apply accepted_inv in E as (s & pindex' & E). exists s, pindex'.
  pose proof (@ConnectBlock_DisconnectBlock (demo_blocks 10 demo_block10) _ _ _ toy_hash toy_sph toy_secp (demo_globals 1) demo_disk demo_block10 new_state 2%positive
    (setup Z.log2 4) (setup Z.log2 4) demo_params (demo_pindex 10 demo_block10) pindex' s demo_cache (db_coins demo_db) (replicate 32 2)) as Hd.
  specialize (Hd (demo_blocks_2 10 demo_block10) demo_view_is demo_coins_wf). specialize (Hd eq_refl).
  specialize (Hd eq_refl demo_txs_ok demo_fresh). specialize (Hd (demo_height 10 demo_block10 ltac:(lia))).
  specialize (Hd eq_refl demo_not_genesis E). destruct Hd as (c' & Ed & Hv & _).
  exists c'. split; [exact E|]. split; [exact Ed|exact Hv].
Defined.

Definition demo_db0 : CCoinsViewDB := {| db_coins := ∅; db_best := Some (replicate 32 1); db_heads := [] |}.
Definition demo_cache0 : CCoinsViewCache CCoinsViewDB := MkCache demo_db0 (replicate 32 2) ∅.

Lemma demo_view0 : view_is demo_cache0 ∅.
Proof.
  split; [|done]. split; [|apply map_Forall_empty]. split; [|by eexists]. intros o c E. cbn in E. by rewrite lookup_empty in E.
Qed.

Definition demo_block1 : CBlock := demo_connect_block [demo_coinbase_paying (4242488 * COIN)].

Lemma active_chain_supply_witness :
  ∃ c g hist, @active_chain _ _ _ toy_hash toy_sph toy_secp demo_params 2 c g hist ∧ view_is c g ∧ total g <= issued demo_params 2.
Proof.
  assert ((λ r, r.1.1) <$> demo_run 1 demo_block1 0 demo_cache0 = Some true) as E by (vm_compute; reflexivity).
  apply accepted_inv in E as (s & pindex' & E).
  assert (@active_chain _ _ _ toy_hash toy_sph toy_secp demo_params 2 (cs_view s) (@apply_txs toy_hash (vtx demo_block1) 1 ∅)
    [(∅, demo_block1, {| vtxundo := blockundo s |})]) as Hch.
  { apply (chain_connect demo_params 1 demo_cache0 ∅ [] (demo_blocks 1 demo_block1) (demo_globals 0) demo_disk demo_block1 2%positive
      (setup Z.log2 4) (setup Z.log2 4) (demo_pindex 1 demo_block1) pindex' s).
    - apply chain_genesis, demo_view0.
    - apply demo_blocks_2.
    - reflexivity.
    - reflexivity.
    - reflexivity.
    - constructor; [by apply tx_okb_ok|constructor].
    - apply txs_freshb_ok. vm_compute. reflexivity.
    - vm_compute. discriminate.
    - exact E. }
  eexists _, _, _. split; [exact Hch|].
  destruct (@active_chain_supply _ _ _ toy_hash toy_sph toy_secp demo_params 2 _ _ _ eq_refl Hch) as (Hv & _ & Ht & _). split; [exact Hv|exact Ht].
Defined.

Lemma outs_of_dec (outs : COutPoint → option CTxOut) (g : gmap COutPoint Coin) :
  bool_decide (map_Forall (λ o k, outs o = Some (out k)) g) = true → outs_of outs g.
Proof. intros Hb%bool_decide_eq_true. exact Hb. Qed.

(** Without strict signature encodings, a block that spends a payment to a key. *)
Definition demo_params_loose : Params := {|
  hashGenesisBlock := replicate 32 7; nSubsidyHalvingInterval := 1314000;
  nBIP34Enabled := true; nBIP65Enabled := true; nBIP66Enabled := false;
  nRuleChangeActivationThreshold := 108; nMinerConfirmationWindow := 144; vDeployments := [];
  powLimit := replicate 31 0xff ++ [0x7f]; fPowAllowMinDifficultyBlocks := true; fPowNoRetargeting := true;
  nPowTargetSpacing := 120; nPowTargetTimespan := 86400;
  Pow.nMinimumChainWork := replicate 32 0; defaultAssumeValid := replicate 32 0; nSegwitEnabled := true; nCSVEnabled := true |}.

Definition demo_signed_block : CBlock := demo_connect_block [demo_coinbase_paying (500 * COIN); demo_signed].

Definition demo_signed_run :=
  @ConnectBlock (demo_blocks 10 demo_signed_block) _ _ toy_hash toy_sph toy_secp (demo_globals 1) demo_disk true demo_signed_block new_state 2 demo_key_cache
    (setup Z.log2 4) (setup Z.log2 4) demo_params_loose false.

Definition demo_outs (o : COutPoint) : option CTxOut :=
  out <$> @apply_tx toy_hash (demo_coinbase_paying (500 * COIN)) 10 (db_coins demo_key_db) !! o.

Definition demo_flags : Z := GetBlockScriptFlags (demo_pindex 10 demo_signed_block) demo_params_loose.

Lemma demo_key_view : view_is demo_key_cache (db_coins demo_key_db).
Proof. split; [apply demo_key_cache_ok|]. intros o. unfold cache_coins. cbn [cacheCoins demo_key_cache]. by rewrite lookup_empty. Qed.

Lemma demo_asked : @asked toy_hash toy_secp demo_outs demo_sig_calls demo_flags demo_signed.
Proof.
  intros _ store i txin o Hi Ho. destruct i as [|i]; [|done]. injection Hi as <-. vm_compute in Ho. injection Ho as <-.
  assert (∃ k, k ∈ demo_sig_calls ∧ @check_calls toy_hash toy_secp (@input_check toy_hash demo_flags store demo_signed 0
    {| nValue := 10; scriptPubKey := 0x21 :: (2 :: replicate 32 9) ++ [0xac] |}) = [k]) as (k & Hk & Ek).
  { destruct store; eexists; (split; [|vm_compute; reflexivity]); [left|right; left]. }
  intros x Hx. change (x ∈ @check_calls toy_hash toy_secp (@input_check toy_hash demo_flags store demo_signed 0
    {| nValue := 10; scriptPubKey := 0x21 :: (2 :: replicate 32 9) ++ [0xac] |})) in Hx. rewrite Ek in Hx. by apply list_elem_of_singleton in Hx as ->.
Qed.

Lemma ConnectBlock_scripts_witness :
  Forall (@tx_verified toy_hash toy_secp demo_outs demo_flags) (vtx demo_signed_block).
Proof.
  assert ((λ r, r.1.1) <$> demo_signed_run = Some true) as E by (vm_compute; reflexivity).
  apply accepted_inv in E as (s & pindex' & E).
  pose proof (@ConnectBlock_scripts (demo_blocks 10 demo_signed_block) _ _ _ toy_hash toy_sph toy_secp (demo_globals 1) demo_disk demo_signed_block new_state 2%positive
    (setup Z.log2 4) (setup Z.log2 4) demo_params_loose (demo_pindex 10 demo_signed_block) pindex' s demo_key_cache (db_coins demo_key_db) demo_outs
    [(demo_signed, demo_flags)] demo_sig_calls false) as Hd.
  apply Hd; clear Hd; [reflexivity|exact demo_key_view|reflexivity|reflexivity| | | | | | | | | |exact E].
  - do 2 (constructor; [by apply tx_okb_ok|]). constructor.
  - apply txs_freshb_ok. vm_compute. reflexivity.
  - vm_compute. discriminate.
  - reflexivity.
  - split; [apply outs_of_dec; vm_compute; reflexivity|]. split; [apply outs_of_dec; vm_compute; reflexivity|done].
  - constructor; [intros Hcb; vm_compute in Hcb; discriminate|]. constructor; [|constructor].
    intros _. split; [left|]. split; [by apply tx_okb_ok|]. split; [discriminate|]. vm_compute. split; [discriminate|reflexivity].
  - constructor; [intros Hcb; vm_compute in Hcb; discriminate|]. constructor; [exact demo_asked|constructor].
  - split; [|exact demo_calls_separated].
    intros x y Hx Hy. assert (∀ z, z ∈ [(demo_signed, demo_flags)] → z = (demo_signed, demo_flags)) as Hz.
    { intros z [->|Hz]%elem_of_cons; [done|]. inversion Hz. }
    apply Hz in Hx, Hy. subst. split; [vm_compute; discriminate|]. split; intros _; reflexivity.
  - split; [|apply setup_sig_cache]. split; [apply setup_ok; lia|]. intros e He. left. unfold setup in He. cbn [table] in He. by apply elem_of_replicate in He as [].
Defined.
