(* ===== verification/CheckQueue.v ===== *)
(** * The queue of parallel script checks ([src/src/checkqueue.h])

    [CCheckQueue]: workers and, in [Wait], the master take batches of checks from a
    shared stack under a mutex, run them without it and report at their next turn.  A critical
    section is one step; the interleaving of the threads, spurious wake-ups
    included, is a step relation.  Thread 0 is the master. *)

From Stdlib Require Import ZArith Lia.
From stdpp Require Import list option relations.
From S2P Require Import Prelude.

Open Scope Z_scope.

Section CheckQueue.
Context {T : Type} (run : T → bool).

(** Where a thread is: outside [Loop]; before the mutex, with the size and the result of
    its last batch; waiting on its condition variable, notified or not; running its batch; returned. *)
Inductive pc :=
  | Outside
  | Enter (nNow : Z) (fOk : bool)
  | Waiting (notified : bool)
  | Work (vChecks : list T) (nNow : Z) (fOk : bool)
  | Returned (fRet : bool).

Record CCheckQueue := MkQueue {
  queue : list T;
  nIdle : Z;
  nTotal : Z;
  fAllOk : bool;
  nTodo : Z;
  fQuit : bool;
  nBatchSize : Z;
}.

Definition CCheckQueue_new (nBatchSizeIn : Z) : CCheckQueue := MkQueue [] 0 0 true 0 false nBatchSizeIn.

(** ** Critical sections *)

(** The batch taken from the back of the queue. *)
Definition batch_size (q : CCheckQueue) : Z :=
  Z.max 1 (Z.min (nBatchSize q) (length (queue q) / (nTotal q + nIdle q + 1))).

(** From the [while] on: return, wait, or take a batch. *)
Definition loop_head (fMaster : bool) (q : CCheckQueue) : CCheckQueue * pc :=
  if (length (queue q) =? 0)%nat then
    if (fMaster || fQuit q) && (nTodo q =? 0)
    then (MkQueue (queue q) (nIdle q) (nTotal q - 1) (if fMaster then true else fAllOk q) (nTodo q) (fQuit q) (nBatchSize q), Returned (fAllOk q))
    else (MkQueue (queue q) (nIdle q + 1) (nTotal q) (fAllOk q) (nTodo q) (fQuit q) (nBatchSize q), Waiting false)
  else
    let nNow := batch_size q in
    let k := (length (queue q) - Z.to_nat nNow)%nat in
    (MkQueue (take k (queue q)) (nIdle q) (nTotal q) (fAllOk q) (nTodo q) (fQuit q) (nBatchSize q),
     Work (reverse (drop k (queue q))) nNow (fAllOk q)).

(** The clean-up of the previous batch; the flag notifies the master. *)
Definition cleanup (fMaster : bool) (nNow : Z) (fOk : bool) (q : CCheckQueue) : CCheckQueue * bool :=
  if negb (nNow =? 0) then
    let q := MkQueue (queue q) (nIdle q) (nTotal q) (fAllOk q && fOk) (u32 (nTodo q - nNow)) (fQuit q) (nBatchSize q) in
    (q, (nTodo q =? 0) && negb fMaster)
  else (MkQueue (queue q) (nIdle q) (nTotal q + 1) (fAllOk q) (nTodo q) (fQuit q) (nBatchSize q), false).

Definition enter (fMaster : bool) (nNow : Z) (fOk : bool) (q : CCheckQueue) : CCheckQueue * pc * bool :=
  let '(q, notify) := cleanup fMaster nNow fOk q in
  let '(q, p) := loop_head fMaster q in
  (q, p, notify).

(** After [cond.wait]. *)
Definition wake (fMaster : bool) (q : CCheckQueue) : CCheckQueue * pc :=
  loop_head fMaster (MkQueue (queue q) (nIdle q - 1) (nTotal q) (fAllOk q) (nTodo q) (fQuit q) (nBatchSize q)).

Definition add_checks (vChecks : list T) (q : CCheckQueue) : CCheckQueue :=
  MkQueue (queue q ++ vChecks) (nIdle q) (nTotal q) (fAllOk q) (u32 (nTodo q + length vChecks)) (fQuit q) (nBatchSize q).

(** Outside the mutex: one check, or the end of the batch. *)
Definition exec (vChecks : list T) (nNow : Z) (fOk : bool) : pc :=
  match vChecks with
  | [] => Enter nNow fOk
  | check :: vChecks => Work vChecks nNow (if fOk then run check else fOk)
  end.

(** ** The threads *)

Definition notify (p : pc) : pc := match p with Waiting _ => Waiting true | _ => p end.

(** The shared state, the threads, the checks added since the last [Wait] returned, and
    those of the last completed [Wait]. *)
Record system := MkSystem { shared : CCheckQueue; threads : list pc; session : list T; finished : list T }.

Definition is_master (i : nat) : bool := (i =? 0)%nat.

(** The end of a [Wait] closes the session. *)
Definition close (i : nat) (p : pc) (s : system) : system :=
  match p with
  | Returned _ => if is_master i then MkSystem (shared s) (threads s) [] (session s) else s
  | _ => s
  end.

Definition set_thread (i : nat) (q : CCheckQueue) (p : pc) (s : system) : system :=
  close i p (MkSystem q (<[i := p]> (threads s)) (session s) (finished s)).

Definition notify_master (b : bool) (s : system) : system :=
  if b then MkSystem (shared s) (alter notify 0%nat (threads s)) (session s) (finished s) else s.

(** One step of thread [i]; [spurious] allows it to wake up without a notification. *)
Definition thread_step (spurious : bool) (i : nat) (s : system) : option system :=
  p ← threads s !! i;
  match p with
  | Enter nNow fOk =>
      let '(q, p, b) := enter (is_master i) nNow fOk (shared s) in
      Some (notify_master b (set_thread i q p s))
  | Waiting notified =>
      if notified || spurious then let '(q, p) := wake (is_master i) (shared s) in Some (set_thread i q p s) else None
  | Work vChecks nNow fOk => Some (set_thread i (shared s) (exec vChecks nNow fOk) s)
  | Outside | Returned _ => None
  end.

(** [Add] notifies one waiting worker for one check, all for more. *)
Inductive notify_workers : nat → list pc → list pc → Prop :=
  | notify_none ts : notify_workers 0 ts ts
  | notify_one ts i b : (i ≠ 0)%nat → ts !! i = Some (Waiting b) → notify_workers 1 ts (<[i := Waiting true]> ts)
  | notify_nobody ts : (∀ i b, (i ≠ 0)%nat → ts !! i ≠ Some (Waiting b)) → notify_workers 1 ts ts
  | notify_all n m ts : (1 < n)%nat → notify_workers n (m :: ts) (m :: (notify <$> ts)).

(** Everything that can happen; the master adds and waits from outside. *)
Inductive step : system → system → Prop :=
  | step_thread (spurious : bool) (i : nat) s s' : thread_step spurious i s = Some s' → step s s'
  | step_add (vChecks : list T) s ts :
      threads s !! 0%nat = Some Outside → length (session s ++ vChecks) < 2 ^ 32 →
      notify_workers (length vChecks) (threads s) ts →
      step s (MkSystem (add_checks vChecks (shared s)) ts (session s ++ vChecks) (finished s))
  | step_wait s :
      threads s !! 0%nat = Some Outside → step s (MkSystem (shared s) (<[0%nat := Enter 0 true]> (threads s)) (session s) (finished s))
  | step_leave s r :
      threads s !! 0%nat = Some (Returned r) → step s (MkSystem (shared s) (<[0%nat := Outside]> (threads s)) (session s) (finished s)).

(** The master outside, and any number of workers about to enter [Loop]. *)
Inductive reachable (nBatchSizeIn : Z) (nWorkers : nat) : system → Prop :=
  | reachable_init :
      reachable nBatchSizeIn nWorkers (MkSystem (CCheckQueue_new nBatchSizeIn) (Outside :: replicate nWorkers (Enter 0 true)) [] [])
  | reachable_step s s' : reachable nBatchSizeIn nWorkers s → step s s' → reachable nBatchSizeIn nWorkers s'.
End CheckQueue.

(** ** Counting threads *)

Section Invariant.
Context {T : Type} (run : T → bool).
Implicit Types (p : pc (T := T)) (ts : list (pc (T := T))) (q : CCheckQueue (T := T)) (s : system (T := T)).

Definition tsum (f : pc → Z) ts : Z := foldr (λ p a, f p + a) 0 ts.

Lemma tsum_insert (f : pc → Z) ts (i : nat) p p' : ts !! i = Some p → tsum f (<[i := p']> ts) = tsum f ts - f p + f p'.
Proof.
  revert i. induction ts as [|x ts IH]; intros [|i] Hi; try done; cbn [tsum foldr].
  - injection Hi as ->. change (<[0%nat := p']> (p :: ts)) with (p' :: ts). cbn [tsum foldr]. lia.
  - change (<[S i := p']> (x :: ts)) with (x :: <[i := p']> ts). cbn [tsum foldr]. fold (tsum f (<[i := p']> ts)) (tsum f ts).
    rewrite (IH i Hi). lia.
Qed.

Lemma tsum_fmap (f : pc → Z) (h : pc → pc) ts : (∀ p, f (h p) = f p) → tsum f (h <$> ts) = tsum f ts.
Proof. intros Hf. induction ts as [|p ts IH]; [done|]. cbn. rewrite Hf. by f_equal. Qed.

Lemma tsum_nonneg (f : pc → Z) ts : Forall (λ p, 0 <= f p) ts → 0 <= tsum f ts.
Proof. induction 1 as [|p ts Hp _ IH]; cbn [tsum foldr]; [lia|]. fold (tsum f ts). lia. Qed.

Lemma tsum_zero (f : pc → Z) ts : Forall (λ p, 0 <= f p) ts → tsum f ts = 0 → Forall (λ p, f p = 0) ts.
Proof.
  induction 1 as [|p ts Hp Hts IH]; cbn [tsum foldr]; [constructor|]. fold (tsum f ts). intros E.
  pose proof (tsum_nonneg f ts Hts). constructor; [lia|]. apply IH. lia.
Qed.

Lemma tsum_ge (f : pc → Z) ts (i : nat) p : Forall (λ p, 0 <= f p) ts → ts !! i = Some p → f p <= tsum f ts.
Proof.
  intros Hf Hi. pose proof (tsum_insert f ts i p p Hi) as E. rewrite list_insert_id in E by done.
  rewrite <- (take_drop_middle ts i p Hi). unfold tsum. rewrite foldr_app. cbn [foldr].
  assert (∀ l a, Forall (λ p, 0 <= f p) l → 0 <= a → a <= foldr (λ p a, f p + a) a l) as Hmono.
  { intros l a Hl Ha. induction Hl as [|y l Hy _ IHl]; cbn [foldr]; lia. }
  assert (0 <= foldr (λ p a, f p + a) 0 (drop (S i) ts)) as Hd by (apply (tsum_nonneg f); by apply Forall_drop).
  assert (0 <= f p) by (by eapply (Forall_lookup_1 _ _ _ _ Hf)).
  etransitivity; [|apply Hmono; [by apply Forall_take|]]; lia.
Qed.

(** Some thread is in a state. *)
Definition has (P : pc → Prop) ts : Prop := ∃ i p, ts !! i = Some p ∧ P p.

Lemma has_insert_inv (P : pc → Prop) ts (i : nat) p' : has P (<[i := p']> ts) → P p' ∨ has P ts.
Proof.
  intros (j & p & Hj & Hp). destruct (decide (i = j)) as [->|].
  - destruct (decide (j < length ts)%nat) as [Hl|Hl]; [|rewrite list_insert_ge in Hj by lia; right; by exists j, p].
    rewrite list_lookup_insert_eq in Hj by done. injection Hj as <-. by left.
  - rewrite list_lookup_insert_ne in Hj by done. right. by exists j, p.
Qed.

Lemma has_insert (P : pc → Prop) ts (i : nat) p p' : ts !! i = Some p → (P p → P p') → has P ts ∨ P p' → has P (<[i := p']> ts).
Proof.
  intros Hi Hpp Hor. assert (i < length ts)%nat as Hl by (by eapply lookup_lt_Some).
  destruct Hor as [(j & x & Hj & Hx)|Hp']; [|exists i, p'; by rewrite list_lookup_insert_eq].
  destruct (decide (i = j)) as [->|].
  - exists j, p'. rewrite list_lookup_insert_eq by done. split; [done|]. apply Hpp. congruence.
  - exists j, x. by rewrite list_lookup_insert_ne.
Qed.

(** Checks a thread has taken and not reported, and where the threads are. *)
Definition outstanding p : Z := match p with Enter nNow _ | Work _ nNow _ => nNow | _ => 0 end.
Definition inside p : Z := match p with Enter nNow _ => if nNow =? 0 then 0 else 1 | Waiting _ | Work _ _ _ => 1 | _ => 0 end.
Definition idle p : Z := match p with Waiting _ => 1 | _ => 0 end.

(** A thread that has seen a failure. *)
Definition failing p : Prop := match p with Enter nNow fOk => nNow ≠ 0 ∧ fOk = false | Work _ _ fOk => fOk = false | _ => False end.

(** A thread that still has to run the check, or has a failure to report. *)
Definition pending (k : T) p : Prop := failing p ∨ match p with Work vChecks _ _ => k ∈ vChecks | _ => False end.

(** Batches are of checks of the session. *)
Definition pc_ok (sess : list T) p : Prop :=
  match p with Work vChecks nNow _ => 1 <= nNow ∧ vChecks ⊆ sess | Enter nNow _ => 0 <= nNow | _ => True end.

Record queue_ok q ts (sess : list T) : Prop := {
  ok_todo : nTodo q = length (queue q) + tsum outstanding ts;
  ok_bound : length (queue q) + tsum outstanding ts <= length sess;
  ok_small : length sess < 2 ^ 32;
  ok_idle : nIdle q = tsum idle ts;
  ok_total : nTotal q = tsum inside ts;
  ok_quit : fQuit q = false;
  ok_queue : queue q ⊆ sess;
  ok_pcs : Forall (pc_ok sess) ts;
  ok_failed : (fAllOk q = false ∨ has failing ts) → ∃ k, k ∈ sess ∧ run k = false;
  ok_allok : fAllOk q = true → ∀ k, k ∈ sess → run k = false → k ∈ queue q ∨ has (pending k) ts;
}.

(** The master inside [Wait]: nothing is queued while it waits, and something is outstanding unless it was notified. *)
Definition master_ok q p : Prop :=
  match p with Waiting b => queue q = [] ∧ (b = false → nTodo q ≠ 0) | _ => True end.

Definition system_ok s : Prop :=
  queue_ok (shared s) (threads s) (session s) ∧
  ∃ p, threads s !! 0%nat = Some p ∧ master_ok (shared s) p ∧
    ∀ r, p = Returned r → r = forallb run (finished s).

Lemma pcs_nonneg ts (sess : list T) : Forall (pc_ok sess) ts → Forall (λ p, 0 <= outstanding p) ts ∧ Forall (λ p, 0 <= idle p) ts ∧ Forall (λ p, 0 <= inside p) ts.
Proof.
  intros Hf. split_and!; revert Hf; apply Forall_impl; intros p; destruct p; cbn; try lia. destruct (_ =? _); lia.
Qed.

(** ** Critical sections keep the invariant *)

Definition with_idle q (k : Z) : CCheckQueue := MkQueue (queue q) k (nTotal q) (fAllOk q) (nTodo q) (fQuit q) (nBatchSize q).

Lemma batch_size_ok q : 0 < length (queue q) → 0 <= nTotal q → 0 <= nIdle q → 1 <= batch_size q <= length (queue q).
Proof.
  intros Hl Ht Hi. unfold batch_size. assert (length (queue q) / (nTotal q + nIdle q + 1) <= length (queue q)).
  { apply Z.div_le_upper_bound; nia. }
  lia.
Qed.

Lemma no_outstanding ts (sess : list T) : Forall (pc_ok sess) ts → tsum outstanding ts = 0 → ¬ has failing ts ∧ ∀ k, ¬ has (pending k) ts.
Proof.
  intros Hf E. destruct (pcs_nonneg ts sess Hf) as (Hn & _). apply tsum_zero in E; [|done].
  assert (∀ j p, ts !! j = Some p → pc_ok sess p ∧ outstanding p = 0) as Hj.
  { intros j p Hj. split; [exact (Forall_lookup_1 _ _ _ _ Hf Hj)|exact (Forall_lookup_1 _ _ _ _ E Hj)]. }
  split; [|intros k]; intros (j & p & Hjp & Hp); destruct (Hj j p Hjp); destruct p; unfold pending in *; cbn in *; intuition lia.
Qed.

Lemma wake_return_ok q ts sess (i : nat) (b : bool) :
  queue_ok q ts sess → ts !! i = Some (Waiting b) → queue q = [] → nTodo q = 0 →
  queue_ok (MkQueue [] (nIdle q - 1) (nTotal q - 1) true (nTodo q) (fQuit q) (nBatchSize q)) (<[i := Returned (fAllOk q)]> ts) [] ∧
  fAllOk q = forallb run sess.
Proof.
  intros [Htodo Hb Hsm Hid Htot Hq Hsub Hpcs Hfail Hall] Hi Eq Et. rewrite Eq in *. cbn [length] in *.
  assert (tsum outstanding ts = 0) as E0 by lia.
  destruct (no_outstanding ts sess Hpcs E0) as [Hnf Hno]. split.
  - split; cbn [queue nIdle nTotal fAllOk nTodo fQuit length]; rewrite ?(tsum_insert _ _ _ _ _ Hi); cbn [outstanding idle inside]; try lia; try done.
    + apply Forall_insert; [|done]. apply list.Forall_forall. intros p Hp. apply list_elem_of_lookup in Hp as [j Hj].
      pose proof (Forall_lookup_1 _ _ _ _ Hpcs Hj) as Hpk. destruct (pcs_nonneg ts sess Hpcs) as (Hn & _).
      apply tsum_zero in E0; [|done]. pose proof (Forall_lookup_1 _ _ _ _ E0 Hj). destruct p; cbn in *; intuition lia.
    + by intros [[=]|[[]|Hh]%has_insert_inv].
    + intros _ k Hk. inversion Hk.
  - destruct (fAllOk q) eqn:Ea; symmetry.
    + apply forallb_forall. intros k Hk. apply not_false_iff_true. intros Er.
      apply list_elem_of_In in Hk. destruct (Hall eq_refl k Hk Er) as [Hn|Hn]; [inversion Hn|]. by apply (Hno k).
    + destruct (Hfail (or_introl eq_refl)) as (k & Hk & Er). apply not_true_iff_false. rewrite forallb_forall.
      intros Hf. apply list_elem_of_In, Hf in Hk. congruence.
Qed.

Lemma wake_take_ok q ts sess (i : nat) (b : bool) :
  queue_ok q ts sess → ts !! i = Some (Waiting b) → queue q ≠ [] →
  let q0 := with_idle q (nIdle q - 1) in
  let k := (length (queue q) - Z.to_nat (batch_size q0))%nat in
  queue_ok (MkQueue (take k (queue q)) (nIdle q - 1) (nTotal q) (fAllOk q) (nTodo q) (fQuit q) (nBatchSize q))
    (<[i := Work (reverse (drop k (queue q))) (batch_size q0) (fAllOk q)]> ts) sess.
Proof.
  intros [Htodo Hb Hsm Hid Htot Hq Hsub Hpcs Hfail Hall] Hi Hne q0 k.
  destruct (pcs_nonneg ts sess Hpcs) as (Hn1 & Hn2 & Hn3).
  pose proof (tsum_ge idle ts i _ Hn2 Hi) as Hge. cbn [idle] in Hge. pose proof (tsum_nonneg inside ts Hn3).
  assert (1 <= batch_size q0 <= length (queue q)) as Hbs.
  { apply (batch_size_ok q0); cbn; [|lia..]. destruct (queue q); [done|cbn; lia]. }
  assert (length (take k (queue q)) = k) as Hlen by (rewrite length_take; unfold k; lia).
  split; cbn [queue nIdle nTotal fAllOk nTodo fQuit]; rewrite ?(tsum_insert _ _ _ _ _ Hi), ?Hlen; cbn [outstanding idle inside]; unfold k; try lia; try done.
  - intros x Hx. apply Hsub. rewrite <- (take_drop k (queue q)), elem_of_app. by left.
  - apply Forall_insert; [done|]. cbn. split; [lia|]. intros x Hx. apply Hsub.
    rewrite elem_of_reverse in Hx. rewrite <- (take_drop k (queue q)), elem_of_app. by right.
  - intros [Ha|[Hf|Hf]%has_insert_inv]; apply Hfail; [by left|by left|by right].
  - intros Ha x Hx Hr. destruct (Hall Ha x Hx Hr) as [Hin|Hp].
    + rewrite <- (take_drop k (queue q)), elem_of_app in Hin. destruct Hin as [?|Hin]; [by left|right].
      eapply has_insert; [done|by intros [[]|[]]|]. right. right. by rewrite elem_of_reverse.
    + right. eapply has_insert; [done|by intros [[]|[]]|by left].
Qed.

Lemma wake_ok q ts sess (i : nat) (b : bool) :
  queue_ok q ts sess → ts !! i = Some (Waiting b) →
  let '(q', p') := wake (is_master i) q in
  nTodo q' = nTodo q ∧ (queue q = [] → queue q' = []) ∧
  match p' with
  | Returned r => is_master i = true ∧ r = forallb run sess ∧ queue_ok q' (<[i := p']> ts) []
  | Waiting b' => b' = false ∧ queue q' = [] ∧ (is_master i = true → nTodo q' ≠ 0) ∧ queue_ok q' (<[i := p']> ts) sess
  | _ => queue_ok q' (<[i := p']> ts) sess
  end.
Proof.
  intros Hok Hi. unfold wake, loop_head. cbn [queue nIdle nTotal fAllOk nTodo fQuit nBatchSize].
  destruct (length (queue q) =? 0)%nat eqn:El; bool_to_prop.
  - apply length_zero_iff_nil in El. rewrite (ok_quit _ _ _ Hok), orb_false_r.
    destruct (is_master i && (nTodo q =? 0)) eqn:Em.
    + apply andb_prop in Em as [Em Et]. bool_to_prop. rewrite Em, El. split; [done|]. split; [done|]. split; [done|].
      destruct (wake_return_ok q ts sess i b Hok Hi El Et) as [Hq Hr]. rewrite (ok_quit _ _ _ Hok) in Hq. done.
    + split; [done|]. split; [done|]. split; [done|]. split; [done|]. split.
      * intros E. rewrite E in Em. cbn in Em. bool_to_prop. done.
      * destruct Hok as [Htodo Hb Hsm Hid Htot Hq Hsub Hpcs Hfail Hall].
        split; cbn [queue nIdle nTotal fAllOk nTodo fQuit]; rewrite ?(tsum_insert _ _ _ _ _ Hi); cbn [outstanding idle inside]; try lia; try done.
        -- by apply Forall_insert.
        -- intros [Ha|[[]|Hf]%has_insert_inv]; apply Hfail; [by left|by right].
        -- intros Ha x Hx Hr. destruct (Hall Ha x Hx Hr) as [?|Hp]; [by left|right]. eapply has_insert; [done|by intros [[]|[]]|by left].
  - split; [done|]. split; [intros E; by rewrite E in El|]. apply (wake_take_ok q ts sess i b); [done..|]. intros E. by rewrite E in El.
Qed.

Lemma cleanup_ok q ts sess (i : nat) (fMaster : bool) (nNow : Z) (fOk : bool) :
  queue_ok q ts sess → ts !! i = Some (Enter nNow fOk) →
  let '(q1, b) := cleanup fMaster nNow fOk q in
  queue_ok (with_idle q1 (nIdle q1 + 1)) (<[i := Waiting true]> ts) sess ∧ queue q1 = queue q ∧
  (b = false → nTodo q ≠ 0 → fMaster = false → nTodo q1 ≠ 0).
Proof.
  intros [Htodo Hb Hsm Hid Htot Hq Hsub Hpcs Hfail Hall] Hi. destruct (pcs_nonneg ts sess Hpcs) as (Hn1 & _).
  pose proof (tsum_ge outstanding ts i _ Hn1 Hi) as Hge. cbn [outstanding] in Hge.
  assert (0 <= nNow) as H0 by exact (Forall_lookup_1 _ _ _ _ Hpcs Hi).
  unfold cleanup. destruct (Z.eqb_spec nNow 0) as [->|Hne]; cbn [negb].
  - split; [|done]. split; cbn [queue nIdle nTotal fAllOk nTodo fQuit with_idle]; rewrite ?(tsum_insert _ _ _ _ _ Hi); cbn [outstanding idle inside Z.eqb]; try lia; try done.
    + by apply Forall_insert.
    + intros [Ha|[[]|Hf]%has_insert_inv]; apply Hfail; [by left|by right].
    + intros Ha x Hx Hr. destruct (Hall Ha x Hx Hr) as [?|Hp]; [by left|right]. eapply has_insert; [done|intros [[]|[]]; done|by left].
  - assert (u32 (nTodo q - nNow) = nTodo q - nNow) as Eu by (apply wrap_small; unfold is_word; lia). rewrite Eu. split; [|split; [done|]].
    + split; cbn [queue nIdle nTotal fAllOk nTodo fQuit with_idle]; rewrite ?(tsum_insert _ _ _ _ _ Hi); cbn [outstanding idle inside];
        rewrite ?(proj2 (Z.eqb_neq nNow 0) Hne); try lia; try done.
      * by apply Forall_insert.
      * intros [Ha|[[]|Hf]%has_insert_inv]; apply Hfail; [|by right]. destruct (fAllOk q); [|by left]. right. exists i, (Enter nNow fOk). done.
      * intros Ha x Hx Hr. apply andb_prop in Ha as [Ha ->]. destruct (Hall Ha x Hx Hr) as [?|Hp]; [by left|right].
        eapply has_insert; [done|intros [[_ [=]]|[]]|by left].
    + intros Eb _ ->. rewrite andb_true_r in Eb. cbn [nTodo] in *. bool_to_prop. done.
Qed.
End Invariant.

Section System.
Context {T : Type} (run : T → bool).
Implicit Types (p : pc (T := T)) (ts : list (pc (T := T))) (q : CCheckQueue (T := T)) (s : system (T := T)).

(** Threads that differ only in what they were notified of. *)
Lemma queue_ok_notify q ts ts' (sess : list T) :
  queue_ok run q ts sess → Forall2 (λ p p', p' = p ∨ p' = notify p) ts ts' → queue_ok run q ts' sess.
Proof.
  intros [Htodo Hb Hsm Hid Htot Hq Hsub Hpcs Hfail Hall] Hn.
  assert (∀ f : pc → Z, (∀ p, f (notify p) = f p) → tsum f ts' = tsum f ts) as Hsum.
  { intros f Hf. clear -Hn Hf. induction Hn as [|p p' ts ts' [-> | ->] _ IH]; cbn [tsum foldr]; [done|..]; fold (tsum f ts') (tsum f ts);
      rewrite ?Hf; lia. }
  assert (∀ P : pc → Prop, (∀ p, P (notify p) ↔ P p) → has P ts' ↔ has P ts) as Hhas.
  { intros P HP. split; intros (j & p & Hj & Hp).
    - destruct (Forall2_lookup_r _ _ _ _ _ Hn Hj) as (p0 & Hj0 & Hor). exists j, p0. split; [done|]. destruct Hor as [-> | ->]; [done|by apply HP].
    - destruct (Forall2_lookup_l _ _ _ _ _ Hn Hj) as (p0 & Hj0 & Hor). exists j, p0. split; [done|]. destruct Hor as [-> | ->]; [done|by apply HP]. }
  split; rewrite ?Hsum by (by intros []); try done.
  - clear -Hpcs Hn. induction Hn as [|p p' ts ts' Hor _ IH]; [done|]. apply list.Forall_cons in Hpcs as [Hp Hpcs].
    constructor; [|by apply IH]. destruct Hor as [-> | ->]; [done|]. by destruct p.
  - rewrite Hhas; [done|]. by intros [].
  - intros Ha k. rewrite Hhas; [by apply Hall|]. by intros [].
Qed.

Lemma notify_refl ts : Forall2 (λ p p', p' = p ∨ p' = notify p) ts ts.
Proof. apply Forall_Forall2_diag, list.Forall_forall. auto. Qed.

Lemma notify_insert ts (i : nat) (b : bool) : ts !! i = Some (Waiting b) → Forall2 (λ p p', p' = p ∨ p' = notify p) ts (<[i := Waiting true]> ts).
Proof.
  intros Hi. rewrite <- (list_insert_id ts i (Waiting b)) at 1 by done. apply Forall2_insert; [apply notify_refl|]. by right.
Qed.

Lemma notify_alter ts : Forall2 (λ p p', p' = p ∨ p' = notify p) ts (alter notify 0%nat ts).
Proof. destruct ts as [|p ts]; [constructor|]. change (alter notify 0%nat (p :: ts)) with (notify p :: ts). constructor; [by right|apply notify_refl]. Qed.

Lemma loop_head_wake q (fMaster : bool) : loop_head fMaster q = wake fMaster (with_idle q (nIdle q + 1)).
Proof. unfold wake, with_idle. cbn. rewrite Z.add_simpl_r. by destruct q. Qed.

(** The master, while another thread takes a step: [b] notifies it. *)
Lemma master_step q q' ts ts' (i : nat) (b : bool) (sess fin : list T) p' pm :
  (i ≠ 0)%nat → ts !! 0%nat = Some pm → master_ok q pm → (∀ r, pm = Returned r → r = forallb run fin) →
  (queue q = [] → queue q' = []) → (b = false → nTodo q ≠ 0 → nTodo q' ≠ 0) →
  queue_ok run q' (<[i := p']> ts) sess →
  system_ok run (notify_master b (MkSystem q' (<[i := p']> ts) sess fin)).
Proof.
  intros Hi Hm Hmok Hret Hq Ht Hok.
  assert (<[i := p']> ts !! 0%nat = Some pm) as Hm' by (by rewrite list_lookup_insert_ne).
  destruct b; cbn [notify_master].
  - split; cbn [shared threads session finished]; [eapply queue_ok_notify; [exact Hok|apply notify_alter]|].
    exists (notify pm). rewrite list_lookup_alter, Hm'. split; [done|]. destruct pm; try done. destruct Hmok. split; [split; auto|]; done.
  - split; cbn [shared threads session finished]; [done|]. exists pm. split; [done|]. split; [|done].
    destruct pm; try done. destruct Hmok as [Hqe Hb]. split; [by apply Hq|]. intros ->. apply Ht; [done|by apply Hb].
Qed.

(** From a wait on, in a state whose bookkeeping is that of a waiting thread. *)
Lemma wake_system q0 q ts (i : nat) (b nt : bool) (sess fin : list T) pm :
  queue_ok run q (<[i := Waiting b]> ts) sess → (i < length ts)%nat → ts !! 0%nat = Some pm → master_ok q0 pm →
  (∀ r, pm = Returned r → r = forallb run fin) → (queue q0 = [] → queue q = []) →
  (nt = false → nTodo q0 ≠ 0 → i ≠ 0%nat → nTodo q ≠ 0) → (i = 0%nat → nt = false) →
  let '(q', p') := wake (is_master i) q in
  system_ok run (notify_master nt (close i p' (MkSystem q' (<[i := p']> ts) sess fin))).
Proof.
  intros Hok Hi Hm Hmok Hret Hq Ht Hnt. pose proof (wake_ok run q _ sess i b Hok ltac:(by rewrite list_lookup_insert_eq)) as Hw.
  destruct (wake (is_master i) q) as [q' p']. destruct Hw as (Etodo & Hqe & Hw). rewrite list_insert_insert_eq in Hw.
  destruct (decide (i = 0%nat)) as [->|Hne].
  - rewrite (Hnt eq_refl). cbn [notify_master]. assert (<[0%nat := p']> ts !! 0%nat = Some p') as Hp' by (by rewrite list_lookup_insert_eq).
    destruct p' as [|n f|b'|vc n f|r]; cbn [close is_master Nat.eqb]; (split; cbn [shared threads session finished]; [|eexists; split; [exact Hp'|]]).
    all: try (by apply Hw); try done.
    + destruct Hw as (-> & Hqe' & Hn & _). split; [split; auto|done].
    + split; [done|]. intros r' [= <-]. apply Hw.
  - assert (is_master i = false) as Em by (by apply Nat.eqb_neq). rewrite Em in Hw.
    assert (queue_ok run q' (<[i := p']> ts) sess) as Hok' by (destruct p'; [exact Hw|exact Hw|apply Hw|exact Hw|destruct Hw as [[=] _]]).
    assert (close i p' (MkSystem q' (<[i := p']> ts) sess fin) = MkSystem q' (<[i := p']> ts) sess fin) as -> by (destruct p'; cbn; rewrite ?Em; done).
    apply (master_step q0 q' ts ts i nt sess fin p' pm); try done; [auto|]. intros E1 E2. rewrite Etodo. by apply Ht.
Qed.

Lemma exec_ok q ts sess (i : nat) (vChecks : list T) (nNow : Z) (fOk : bool) :
  queue_ok run q ts sess → ts !! i = Some (Work vChecks nNow fOk) →
  queue_ok run q (<[i := exec run vChecks nNow fOk]> ts) sess.
Proof.
  intros [Htodo Hb Hsm Hid Htot Hq Hsub Hpcs Hfail Hall] Hi.
  assert (1 <= nNow ∧ vChecks ⊆ sess) as [Hn Hvs] by exact (Forall_lookup_1 _ _ _ _ Hpcs Hi).
  assert (∀ f, f (exec run vChecks nNow fOk) = f (Work vChecks nNow fOk) → tsum f (<[i := exec run vChecks nNow fOk]> ts) = tsum f ts) as Hs.
  { intros f Hf. rewrite (tsum_insert _ _ _ _ _ Hi). lia. }
  assert ((nNow =? 0) = false) as En by (apply Z.eqb_neq; lia).
  split; rewrite ?Hs by (destruct vChecks; cbn; rewrite ?En; done); try done.
  - apply Forall_insert; [done|]. destruct vChecks as [|k vc]; cbn; [lia|]. split; [done|]. intros x Hx. apply Hvs. by right.
  - intros [Ha|[Hf|Hf]%has_insert_inv]; [apply Hfail; by left| |apply Hfail; by right].
    destruct vChecks as [|k vc]; cbn in Hf; [apply Hfail; right; exists i, (Work [] nNow fOk); split; [done|apply Hf]|].
    destruct fOk; [exists k; split; [apply Hvs; left|done]|]. apply Hfail. right. by exists i, (Work (k :: vc) nNow false).
  - intros Ha x Hx Hr. destruct (Hall Ha x Hx Hr) as [?|Hp]; [by left|right]. eapply has_insert; [done| |by left].
    unfold pending. destruct vChecks as [|k vc]; cbn [failing exec].
    + intros [->|Hin]; [left; split; [lia|done]|inversion Hin].
    + intros [->|[->|Hin]%elem_of_cons]; [by left| |by right]. left. by destruct fOk.
Qed.

Lemma thread_step_ok (spurious : bool) (i : nat) s s' : system_ok run s → thread_step run spurious i s = Some s' → system_ok run s'.
Proof.
  intros (Hok & pm & Hm & Hmok & Hret). unfold thread_step. destruct (threads s !! i) as [p|] eqn:Hi; [|done]. ocbn.
  assert (i < length (threads s))%nat as Hl by (by eapply lookup_lt_Some).
  destruct p as [|nNow fOk|b|vChecks nNow fOk|r]; try done.
  - unfold enter. pose proof (cleanup_ok run _ _ _ i (is_master i) _ _ Hok Hi) as Hc.
    destruct (cleanup _ _ _ _) as [q1 nt] eqn:Ec. destruct Hc as (Hok1 & Eq1 & Hn1). rewrite loop_head_wake.
    pose proof (wake_system (shared s) _ (threads s) i true nt (session s) (finished s) pm Hok1 Hl Hm Hmok Hret) as Hw.
    destruct (wake _ _) as [q' p'] eqn:Ew. intros [= <-]. apply Hw.
    + cbn [queue with_idle]. by rewrite Eq1.
    + intros E1 E2 E3. apply Hn1; [done|done|by apply Nat.eqb_neq].
    + intros ->. revert Ec. unfold cleanup. destruct (negb _); intros [= _ <-]; [by rewrite andb_false_r|done].
  - destruct (b || spurious); [|done].
    rewrite <- (list_insert_id _ _ _ Hi) in Hok.
    pose proof (wake_system (shared s) (shared s) (threads s) i b false (session s) (finished s) pm Hok Hl Hm Hmok Hret) as Hw.
    destruct (wake _ _) as [q' p']. intros [= <-]. by apply Hw.
  - intros [= <-]. pose proof (exec_ok _ _ _ _ _ _ _ Hok Hi) as Hok'.
    assert (set_thread i (shared s) (exec run vChecks nNow fOk) s =
      MkSystem (shared s) (<[i := exec run vChecks nNow fOk]> (threads s)) (session s) (finished s)) as -> by (by destruct vChecks).
    split; [done|]. cbn [shared threads finished]. destruct (decide (i = 0%nat)) as [->|Hne].
    + exists (exec run vChecks nNow fOk). rewrite list_lookup_insert_eq by done. split; [done|]. by destruct vChecks.
    + exists pm. by rewrite list_lookup_insert_ne.
Qed.

Lemma set_master_ok s p p' :
  system_ok run s → threads s !! 0%nat = Some p → outstanding p' = outstanding p → idle p' = idle p → inside p' = inside p →
  pc_ok (session s) p' → ¬ failing p' → (∀ k, ¬ pending k p) → master_ok (shared s) p' → (∀ r, p' ≠ Returned r) →
  system_ok run (MkSystem (shared s) (<[0%nat := p']> (threads s)) (session s) (finished s)).
Proof.
  intros ([Htodo Hb Hsm Hid Htot Hq Hsub Hpcs Hfail Hall] & _) Hm Ho Hi Hin Hpc Hnf Hnp Hmok Hr. split; cbn [shared threads session finished].
  - split; rewrite ?(tsum_insert _ _ _ _ _ Hm), ?Ho, ?Hi, ?Hin; try lia; try done.
    + by apply Forall_insert.
    + intros [Ha|[Hx|Hx]%has_insert_inv]; [apply Hfail; by left|done|apply Hfail; by right].
    + intros Ha k Hk Hrn. destruct (Hall Ha k Hk Hrn) as [?|Hp]; [by left|right]. eapply has_insert; [exact Hm| |by left]. intros Hpp. by destruct (Hnp k).
  - exists p'. rewrite list_lookup_insert_eq by (by eapply lookup_lt_Some). split; [done|]. split; [done|]. intros r ->. by destruct (Hr r).
Qed.

Lemma add_ok q ts (sess vChecks : list T) :
  queue_ok run q ts sess → length (sess ++ vChecks) < 2 ^ 32 → queue_ok run (add_checks vChecks q) ts (sess ++ vChecks).
Proof.
  intros [Htodo Hb Hsm Hid Htot Hq Hsub Hpcs Hfail Hall] Hl. destruct (pcs_nonneg ts sess Hpcs) as (Hn & _).
  pose proof (tsum_nonneg outstanding ts Hn). rewrite length_app in Hl.
  assert (u32 (nTodo q + length vChecks) = nTodo q + length vChecks) as Eu by (apply wrap_small; unfold is_word; lia).
  unfold add_checks. split; cbn [queue nIdle nTotal fAllOk nTodo fQuit]; rewrite ?Eu, ?length_app; try lia; try done.
  - intros x. rewrite !elem_of_app. intros [Hx|Hx]; [left; by apply Hsub|by right].
  - revert Hpcs. apply Forall_impl. intros p. destruct p; try done. cbn. intros [? Hs]. split; [done|]. intros x Hx. rewrite elem_of_app. left. by apply Hs.
  - intros Hf. destruct (Hfail Hf) as (k & Hk & Hr). exists k. rewrite elem_of_app. auto.
  - intros Ha k Hk Hr. rewrite elem_of_app in Hk. rewrite elem_of_app. destruct Hk as [Hk|Hk]; [|by left; right].
    destruct (Hall Ha k Hk Hr) as [?|?]; [by left; left|by right].
Qed.

Lemma notify_workers_ok (n : nat) ts ts' :
  notify_workers n ts ts' → Forall2 (λ p p', p' = p ∨ p' = notify p) ts ts' ∧ ts' !! 0%nat = ts !! 0%nat.
Proof.
  destruct 1 as [ts|ts i b Hi Hb|ts _|n m ts _]; [split; [apply notify_refl|done]| |split; [apply notify_refl|done]|].
  - split; [by eapply notify_insert|]. by rewrite list_lookup_insert_ne.
  - split; [|done]. constructor; [by left|]. clear. induction ts as [|p ts IH]; [constructor|]. constructor; [by right|done].
Qed.

Lemma step_ok s s' : system_ok run s → step run s s' → system_ok run s'.
Proof.
  intros Hs. destruct 1 as [spurious i s s' E|vChecks s ts Hm Hl Hn|s Hm|s r Hm].
  - by eapply thread_step_ok.
  - destruct Hs as (Hok & _). destruct (notify_workers_ok _ _ _ Hn) as [Hf E0]. split; cbn [shared threads session finished].
    + eapply queue_ok_notify; [|exact Hf]. by apply add_ok.
    + exists Outside. rewrite E0. done.
  - eapply set_master_ok; [done|exact Hm|done|done|done|cbn; lia|by intros [_ [=]]|by intros k [[]|[]]|done|done].
  - eapply set_master_ok; [done|exact Hm|done|done|done|done|by intros []|by intros k [[]|[]]|done|done].
Qed.

Lemma reachable_ok (nBatchSizeIn : Z) (nWorkers : nat) s : reachable run nBatchSizeIn nWorkers s → system_ok run s.
Proof.
  induction 1 as [|s s' _ IH Hst]; [|by eapply step_ok].
  assert (∀ f : pc (T := T) → Z, f Outside = 0 → f (Enter 0 true) = 0 → tsum f (Outside :: replicate nWorkers (Enter 0 true)) = 0) as Hsum.
  { intros f Ho Hf. cbn. rewrite Ho. induction nWorkers as [|n IH]; [done|]. cbn. rewrite Hf. done. }
  split; cbn [shared threads session finished]; [|by exists Outside].
  split; cbn [CCheckQueue_new queue nIdle nTotal fAllOk nTodo fQuit length]; rewrite ?Hsum by done; try done.
  - constructor; [done|]. by apply Forall_replicate.
  - intros [[=]|(j & p & Hj & Hp)]. destruct j as [|j]; [by injection Hj as <-|]. apply lookup_replicate in Hj as [-> _]. by destruct Hp.
  - intros _ k Hk. inversion Hk.
Qed.
End System.

(** ** Progress *)

Section Progress.
Context {T : Type} (run : T → bool).
Implicit Types (p : pc (T := T)) (ts : list (pc (T := T))) (q : CCheckQueue (T := T)) (s : system (T := T)).

(** A step of some thread that is not a spurious wake-up. *)
Definition progress s s' : Prop := ∃ i, thread_step run false i s = Some s'.

(** How much is left to do. *)
Definition weight p : Z :=
  match p with Enter _ _ => 2 | Work vChecks _ _ => 3 + length vChecks | Waiting true => 1 | _ => 0 end.

Definition measure s : Z := 4 * length (queue (shared s)) + tsum weight (threads s).

Lemma weight_nonneg p : 0 <= weight p.
Proof. destruct p as [| |[]| |]; cbn; lia. Qed.

Lemma measure_nonneg s : 0 <= measure s.
Proof.
  unfold measure. pose proof (tsum_nonneg weight (threads s) ltac:(apply list.Forall_forall; intros; apply weight_nonneg)). lia.
Qed.

Lemma loop_head_weight q (fMaster : bool) :
  0 <= nTotal q → 0 <= nIdle q →
  let '(q', p') := loop_head fMaster q in 4 * length (queue q') + weight p' <= 4 * length (queue q).
Proof.
  intros Ht Hi. unfold loop_head. destruct (length (queue q) =? 0)%nat eqn:El; bool_to_prop.
  - destruct (_ && _); cbn; lia.
  - destruct (batch_size_ok q ltac:(lia) Ht Hi). cbn [queue weight]. rewrite length_reverse, length_take, length_drop. lia.
Qed.

Lemma queue_counts q ts (sess : list T) : queue_ok run q ts sess → 0 <= nTotal q ∧ 0 <= nIdle q.
Proof.
  intros Hok. destruct (pcs_nonneg ts sess (ok_pcs _ _ _ _ Hok)) as (_ & H2 & H3). rewrite (ok_total _ _ _ _ Hok), (ok_idle _ _ _ _ Hok).
  split; by apply tsum_nonneg.
Qed.

Lemma measure_set s (i : nat) q p p' :
  threads s !! i = Some p → measure (set_thread i q p' s) = 4 * length (queue q) + tsum weight (threads s) - weight p + weight p'.
Proof.
  intros Hi. unfold set_thread, close, measure. pose proof (tsum_insert weight _ _ _ p' Hi) as E.
  destruct p'; try destruct (is_master i); cbn [shared threads]; lia.
Qed.

Lemma measure_notify s (b : bool) : measure (notify_master b s) <= measure s + 1.
Proof.
  destruct b; cbn [notify_master]; [|lia]. unfold measure. cbn [shared threads].
  destruct (threads s) as [|p ts]; [cbn; lia|]. change (alter notify 0%nat (p :: ts)) with (notify p :: ts). cbn [tsum foldr].
  destruct p as [| |[]| |]; cbn; lia.
Qed.

Lemma progress_decreases s s' : system_ok run s → progress s s' → measure s' < measure s.
Proof.
  intros (Hok & _) (i & E). unfold thread_step in E. destruct (threads s !! i) as [p|] eqn:Hi; [|done]. revert E. ocbn.
  destruct p as [|nNow fOk|b|vChecks nNow fOk|r]; try done.
  - unfold enter. pose proof (cleanup_ok run _ _ _ i (is_master i) _ _ Hok Hi) as Hc.
    destruct (cleanup _ _ _ _) as [q1 nt]. destruct Hc as (Hok1 & Eq1 & _). destruct (queue_counts _ _ _ Hok1) as [Ht _].
    assert (0 <= nIdle q1) as Hid.
    { destruct (pcs_nonneg _ _ (ok_pcs _ _ _ _ Hok1)) as (_ & H2 & _).
      assert (i < length (threads s))%nat by (by eapply lookup_lt_Some).
      pose proof (tsum_ge idle _ i (Waiting true) H2 ltac:(by rewrite list_lookup_insert_eq)) as Hge. cbn [idle] in Hge.
      pose proof (ok_idle _ _ _ _ Hok1). cbn in *. lia. }
    pose proof (loop_head_weight q1 (is_master i) Ht Hid) as Hw. destruct (loop_head _ _) as [q' p']. intros [= <-].
    pose proof (measure_notify (set_thread i q' p' s) nt) as Hmn. rewrite (measure_set _ _ _ _ _ Hi) in Hmn.
    change (weight (Enter nNow fOk)) with 2 in Hmn.
    rewrite Eq1 in Hw. change (measure s) with (4 * length (queue (shared s)) + tsum weight (threads s)). lia.
  - rewrite orb_false_r. destruct b; [|done]. unfold wake.
    assert (0 <= nTotal (shared s) ∧ 1 <= nIdle (shared s)) as [Ht Hid].
    { destruct (queue_counts _ _ _ Hok) as [Ht _]. split; [done|]. destruct (pcs_nonneg _ _ (ok_pcs _ _ _ _ Hok)) as (_ & H2 & _).
      pose proof (tsum_ge idle _ i _ H2 Hi) as Hge. cbn [idle] in Hge. rewrite (ok_idle _ _ _ _ Hok). lia. }
    match goal with |- context [loop_head ?m ?q] => pose proof (loop_head_weight q m ltac:(done) ltac:(cbn; lia)) as Hw; destruct (loop_head m q) as [q' p'] end.
    intros [= <-]. rewrite (measure_set _ _ _ _ _ Hi). change (weight (Waiting true)) with 1. cbn [queue] in Hw. unfold measure. lia.
  - intros [= <-]. rewrite (measure_set _ _ _ _ _ Hi). unfold measure. destruct vChecks as [|k vc]; cbn [exec weight length]; lia.
Qed.

(** A thread that can move on its own. *)
Definition movable p : bool := match p with Enter _ _ | Work _ _ _ | Waiting true => true | _ => false end.

Lemma movable_steps s (i : nat) p : threads s !! i = Some p → movable p = true → ∃ s', progress s s'.
Proof.
  intros Hi Hp. assert (is_Some (thread_step run false i s)) as [s' E]; [|by exists s', i]. unfold thread_step. rewrite Hi. ocbn.
  destruct p as [|n f|[]|vc n f|r]; try done.
  - destruct (enter _ _ _ _) as [[q p] b]. by eexists.
  - cbn [orb]. destruct (wake _ _) as [q p]. by eexists.
Qed.

Definition in_wait p : Prop := match p with Enter _ _ | Waiting _ | Work _ _ _ => True | _ => False end.

(** No deadlock: while the master waits, some thread can move. *)
Lemma wait_progress s p : system_ok run s → threads s !! 0%nat = Some p → in_wait p → ∃ s', progress s s'.
Proof.
  intros (Hok & pm & Hm & Hmok & _) Hp Hw. assert (pm = p) as -> by congruence.
  destruct (existsb movable (threads s)) eqn:Ee.
  - apply existsb_exists in Ee as (x & Hx & Hmv). apply list_elem_of_In, list_elem_of_lookup in Hx as [i Hi]. by eapply movable_steps.
  - exfalso. assert (∀ j x, threads s !! j = Some x → movable x = false) as Hall.
    { intros j x Hj. apply not_true_iff_false. intros Hmv. apply not_true_iff_false in Ee. apply Ee, existsb_exists.
      exists x. split; [|done]. apply list_elem_of_In. by eapply list_elem_of_lookup_2. }
    assert (tsum outstanding (threads s) = 0) as E0.
    { assert (Forall (λ x, outstanding x = 0) (threads s)) as Hz.
      { apply list.Forall_forall. intros x [j Hj]%list_elem_of_lookup. apply Hall in Hj. by destruct x as [| |[]| |]. }
      clear -Hz. induction Hz as [|x ts Hx _ IH]; [done|]. cbn. rewrite Hx. done. }
    pose proof (Hall _ _ Hm) as Hmv. destruct p as [|n f|[]|vc n f|r]; try done. destruct Hmok as [Hq Ht].
    apply (Ht eq_refl). rewrite (ok_todo _ _ _ _ Hok), Hq, E0. done.
Qed.

Lemma loop_head_inside q (fMaster : bool) : (loop_head fMaster q).2 ≠ Outside.
Proof. unfold loop_head. destruct (_ =? _)%nat; [destruct (_ && _)|]; done. Qed.

Lemma thread_step_shape (spurious : bool) (i : nat) s s' :
  thread_step run spurious i s = Some s' → ∃ q p' b, s' = notify_master b (set_thread i q p' s) ∧ p' ≠ Outside ∧ (i < length (threads s))%nat.
Proof.
  unfold thread_step. destruct (threads s !! i) as [p|] eqn:Hi; [|done]. ocbn. apply lookup_lt_Some in Hi.
  destruct p as [|nNow fOk|b|vChecks nNow fOk|r]; try done.
  - unfold enter. destruct (cleanup _ _ _ _) as [q1 nt]. pose proof (loop_head_inside q1 (is_master i)) as Ho. destruct (loop_head _ _) as [q' p'].
    intros [= <-]. by exists q', p', nt.
  - destruct (b || spurious); [|done]. unfold wake.
    match goal with |- context [loop_head ?m ?q] => pose proof (loop_head_inside q m) as Ho; destruct (loop_head m q) as [q' p'] end.
    intros [= <-]. by exists q', p', false.
  - intros [= <-]. exists (shared s), (exec run vChecks nNow fOk), false. split; [done|]. split; [by destruct vChecks|done].
Qed.

Lemma in_wait_notify p : in_wait p → in_wait (notify p).
Proof. by destruct p. Qed.

(** The master's [Wait] goes on, or ends with the conjunction of the checks. *)
Lemma progress_master s s' p :
  system_ok run s → threads s !! 0%nat = Some p → in_wait p → progress s s' →
  (∃ p', threads s' !! 0%nat = Some p' ∧ in_wait p' ∧ session s' = session s) ∨
  threads s' !! 0%nat = Some (Returned (forallb run (session s))).
Proof.
  intros Hs Hm Hw (i & E). pose proof (thread_step_ok run false i s s' Hs E) as (_ & pm & Hm' & _ & Hret).
  apply thread_step_shape in E as (q & p' & b & -> & Ho & Hl).
  assert (∀ x s1, threads s1 !! 0%nat = Some x → threads (notify_master b s1) !! 0%nat = Some (if b then notify x else x) ∧
    session (notify_master b s1) = session s1 ∧ finished (notify_master b s1) = finished s1) as Hn.
  { intros x s1 Hx. destruct b; cbn [notify_master threads session finished]; [|done]. by rewrite list_lookup_alter, Hx. }
  destruct (decide (i = 0%nat)) as [->|Hne].
  - assert (threads (set_thread 0 q p' s) !! 0%nat = Some p') as Hp'.
    { unfold set_thread, close. destruct p'; cbn; by rewrite list_lookup_insert_eq. }
    destruct (Hn _ _ Hp') as (Ht & Hse & Hfi). rewrite Ht in *. injection Hm' as <-.
    destruct p' as [|n f|nb|vc n f|r]; [done|left; eexists; split; [done|split; [by destruct b|by rewrite Hse]]..|right].
    rewrite (Hret r) by (by destruct b). rewrite Hfi. by destruct b.
  - assert (threads (set_thread i q p' s) !! 0%nat = Some p ∧ session (set_thread i q p' s) = session s) as [Hp' Hse'].
    { assert (is_master i = false) as Em by (by apply Nat.eqb_neq). unfold set_thread, close. rewrite Em.
      destruct p'; cbn; by rewrite list_lookup_insert_ne. }
    destruct (Hn _ _ Hp') as (Ht & Hse & _). left. eexists. split; [exact Ht|]. split; [destruct b; [by apply in_wait_notify|done]|congruence].
Qed.

Lemma wait_returns_aux (n : nat) s p :
  measure s <= n → system_ok run s → threads s !! 0%nat = Some p → in_wait p →
  ∃ s', rtc progress s s' ∧ threads s' !! 0%nat = Some (Returned (forallb run (session s))).
Proof.
  revert s p. induction n as [|n IH]; intros s p Hn Hs Hm Hw;
    destruct (wait_progress s p Hs Hm Hw) as [s1 Hp]; pose proof (progress_decreases s s1 Hs Hp) as Hd; pose proof (measure_nonneg s1); [lia|].
  destruct (progress_master s s1 p Hs Hm Hw Hp) as [(p1 & Hm1 & Hw1 & Hse)|Hr].
  - destruct (IH s1 p1) as (s' & Hrtc & Hr); [lia| |done|done|].
    + destruct Hp as (i & E). by eapply thread_step_ok.
    + exists s'. split; [by eapply rtc_l|]. by rewrite Hr, Hse.
  - exists s1. split; [by apply rtc_once|done].
Qed.

Lemma progress_bounded (n : nat) s s' : system_ok run s → nsteps progress n s s' → n <= measure s.
Proof.
  intros Hs Hn. revert Hs. induction Hn as [s|n s s1 s' Hp _ IH]; intros Hs; [apply measure_nonneg|].
  pose proof (progress_decreases s s1 Hs Hp). assert (system_ok run s1) as Hs1 by (destruct Hp as (i & E); by eapply thread_step_ok).
  specialize (IH Hs1). lia.
Qed.
End Progress.

(** ** Properties *)

(** C5: the answer of the parallel queue is the conjunction of the checks.  However the threads interleave, with any
    batch size and number of workers, with lost races and spurious wake-ups, when the master's [Wait] has returned a
    result it is true exactly if every check added for it is. *)
Theorem CheckQueue_Wait_correct {T : Type} (run : T → bool) (nBatchSizeIn : Z) (nWorkers : nat) (s : system) (r : bool) :
  reachable run nBatchSizeIn nWorkers s → threads s !! 0%nat = Some (Returned r) → r = forallb run (finished s).
Proof.
  intros Hr Hm. destruct (reachable_ok run nBatchSizeIn nWorkers s Hr) as (_ & pm & Hm' & _ & Hret).
  apply Hret. congruence.
Qed.

(** C6: [Wait] always returns.  From every reachable state in which the master is in [Wait], some thread can take a step that is
    not a spurious wake-up, so no notification is ever lost; every schedule of such steps is finite, with an
    explicit bound; and one of them leads to the master's return with the result for the checks added. *)
Theorem CheckQueue_Wait_returns {T : Type} (run : T → bool) (nBatchSizeIn : Z) (nWorkers : nat) (s : system) (p : pc) :
  reachable run nBatchSizeIn nWorkers s → threads s !! 0%nat = Some p → in_wait p →
  (∃ s', progress run s s') ∧
  (∀ n s', nsteps (progress run) n s s' → n <= measure s) ∧
  ∃ s', rtc (progress run) s s' ∧ threads s' !! 0%nat = Some (Returned (forallb run (session s))).
Proof.
  intros Hr Hm Hw. pose proof (reachable_ok run nBatchSizeIn nWorkers s Hr) as Hs. split; [by eapply wait_progress|].
  split; [intros; by eapply progress_bounded|]. eapply (wait_returns_aux run (Z.to_nat (measure s))); [|done..].
  pose proof (measure_nonneg s). lia.
Qed.

(** ** Witnesses *)

(** Two checks, one of which fails, and a worker that is not scheduled. *)
Definition demo_check (k : Z) : bool := negb (k =? 13).
Definition demo_waiting : system :=
  MkSystem (add_checks [5; 13] (CCheckQueue_new 128)) [Enter 0 true; Enter 0 true] [5; 13] [].

Lemma demo_waiting_reachable : reachable demo_check 128 1 demo_waiting.
Proof.
  eapply reachable_step; [eapply reachable_step; [apply reachable_init|]|].
  - apply (step_add _ [5; 13]); [done|by vm_compute|]. apply notify_all. cbn. lia.
  - exact (step_wait demo_check (MkSystem (add_checks [5; 13] (CCheckQueue_new 128)) [Outside; Enter 0 true] [5; 13] []) eq_refl).
Qed.

Fixpoint demo_schedule (l : list nat) (s : system) : option system :=
  match l with [] => Some s | i :: l => s ← thread_step demo_check false i s; demo_schedule l s end.

Lemma demo_schedule_reachable (l : list nat) (s s' : system) :
  reachable demo_check 128 1 s → demo_schedule l s = Some s' → reachable demo_check 128 1 s'.
Proof.
  revert s. induction l as [|i l IH]; intros s Hr; cbn; [by intros [= <-]|]. destruct (thread_step _ _ _ _) as [s1|] eqn:E; [|done].
  apply IH. eapply reachable_step; [exact Hr|]. by eapply step_thread.
Qed.

Lemma CheckQueue_Wait_correct_witness :
  ∃ s, reachable demo_check 128 1 s ∧ threads s !! 0%nat = Some (Returned false) ∧ false = forallb demo_check (finished s).
Proof.
  assert (∃ s, demo_schedule [0; 1; 0; 0; 1; 1; 1; 0]%nat demo_waiting = Some s ∧ threads s !! 0%nat = Some (Returned false)) as (s & E & Hm)
    by (eexists; split; vm_compute; reflexivity).
  pose proof (demo_schedule_reachable _ _ _ demo_waiting_reachable E) as Hr. exists s. split; [exact Hr|]. split; [exact Hm|].
  exact (CheckQueue_Wait_correct demo_check 128 1 s false Hr Hm).
Defined.

Lemma CheckQueue_Wait_returns_witness :
  ∃ s', rtc (progress demo_check) demo_waiting s' ∧ threads s' !! 0%nat = Some (Returned false).
Proof. apply (CheckQueue_Wait_returns demo_check 128 1 demo_waiting (Enter 0 true) demo_waiting_reachable eq_refl I). Defined.
